(* ===== verification/_CoqProject ===== *)
-Q . S2P
Prelude.v
Calendar.v
DateArith.v
TimeZone.v
TimeText.v
TimeSql.v
TimeBulk.v
Atoms.v
Utf8.v
StrAtom.v
Heap.v
StrHeap.v
ChunkHeap.v
Codec.v
Convert.v
Sort.v
StableList.v
SsortMerge.v
SsortBack.v
SsortStack.v
Ssort.v
Search.v
SelectRange.v
Select.v
Hash.v
Arith.v
CalcLoop.v
CalcBat.v
Compare.v
ConvertBat.v
MergeJoin.v
HashJoin.v
Join.v
Group.v
Subsort.v
AggrInit.v
Aggr.v
AggrPick.v
AggrAvg.v
PQueue.v
Sequence.v
Zorder.v
Stream.v
BlockStream.v
Mal.v
MalFlow.v
MalDecl.v
MalInterp.v
MalSlice.v
MalScope.v
MalSim.v
Deadcode.v
