(* ===== verification/Prelude.v ===== *)
(** * MonetDB embedded in R: a verification library

    The repository embeds the column store MonetDB in R.  At its heart is the
    kernel library GDK (src/src/gdk): values of atomic types live in columns
    (BATs), variable-sized values in heaps that belong to a column, every
    atomic type is a row of a table of operations, [BATatoms], and the
    operators of the relational algebra work on whole columns.  The MAL layer
    (src/src/monetdb5) adds modules on top of it, among them [mtime] with the
    calendar types, whose values are stored as integers; the SQL layer
    (src/src/sql) keeps its catalog and its sequences in it.  This library
    models the parts of these layers that have a contract of their own, as
    executable definitions that follow the C code line by line, and proves the
    contracts.

    ** The files

    - [Prelude]: machine integers with explicit wrap-around ([i32], [u64],
      ...), C strings as lists of bytes without the NUL ([cstr]), decimal
      printing, the tactics and the hint databases [cint], [cstr], [cstr_rw].
    - [Calendar]: mtime.c, [todate], [fromdate] and the tables and macros they
      use.
    - [DateArith]: mtime.c, times of day, field extraction, [date_adddays],
      [date_addmonths], [MTIMEdate_addyears], [MTIMEtimestamp_add],
      differences and intervals.
    - [TimeZone]: mtime.c and mtime.h, the bit fields of [rule] and [tzone],
      [compute_rule], [timestamp_inside], [timestamp_create], extraction of
      local date and time, the zones that [MTIMEprelude] installs.
    - [TimeText]: mtime.c, all parsers and printers: dates, times,
      timestamps, rules, zones.
    - [TimeSql]: mtime.c, the functions behind SQL: Unix time, names of months
      and days, legacy dates and durations.
    - [TimeBulk]: mtime.c, the operators on whole columns, with the property
      flags of the result and the references to columns they take and return.
    - [Atoms]: gdk_atoms.c, integer, bit and oid atoms, the generator of
      object identifiers with its saved state, comparison and hashes.
    - [Utf8]: gdk_atoms.c, the UTF-8 check inside [GDKstrFromStr], and the
      encoding it accepts, defined independently.
    - [StrAtom]: gdk_atoms.c, string atoms: [GDKstrFromStr], [strFromStr],
      [escapedStr], [strToStr].
    - [Heap]: gdk.h and gdk_heap.c, the [Heap] record over a byte memory,
      [HEAPalloc], [HEAPextend].
    - [StrHeap]: gdk_atoms.c, the heap of a string column: [strHeap],
      [strPut], [strLocate], [strCleanHash].
    - [ChunkHeap]: gdk_heap.c, the allocator inside a heap: [HEAP_initialize],
      [HEAP_malloc], [HEAP_free], [HEAP_mmappable].
    - [Codec]: the atom table of gdk_atoms.c as far as conversions use it, and
      the class [AtomLaws] of what a conversion may rely on, with an instance
      for each atom modelled in [Atoms] and [TimeText].
    - [Convert]: gdk_calc.c, conversion of columns between integer types and
      to and from text, over ranges and candidate lists; its theorems on text
      are proved against [AtomLaws].

    - [Sort]: gdk_qsort.c and gdk_qsort_impl.h, the quicksort and all its
      instances; it also has the class [Comparison] of a comparison function.
    - [StableList], [SsortMerge], [SsortBack], [SsortStack], [Ssort]:
      gdk_ssort.c and gdk_ssort_impl.h, the stable sort: first what stability
      means for lists, then galloping and the two merges, the stack of runs,
      and [GDKssort] with all its instances.
    - [Search]: gdk_search.c, [SORTfnd], [SORTfndfirst], [SORTfndlast].
    - [SelectRange], [Select]: gdk_select.c, first the analysis of the ends of
      a range and the conditions of the scans, then [BATsubselect] and
      [BATthetasubselect].
    - [Hash]: gdk_search.c and gdk_search.h, hash tables on columns.
    - [Arith], [CalcLoop], [CalcBat]: gdk_calc.c, the operation on a cell, the
      loops over two operands with candidates, and the functions [BATcalcadd]
      to [BATcalcrsh], [VARcalcadd] and so on, with the flags of the results.
    - [Compare]: gdk_calc.c and gdk_calc_compare.h, the comparison operators
      [BATcalclt] to [BATcalccmp] on columns and constants.
    - [ConvertBat]: gdk_calc.c, [BATconvert] and [VARconvert] on top of the
      loops of [Convert].
    - [MergeJoin], [HashJoin], [Join]: gdk_join.c, the two algorithms, and the
      functions that choose between them, theta joins and [BATproject].
    - [Group]: gdk_group.c, [BATgroup_internal].
    - [Subsort]: gdk_batop.c, [do_sort] and [BATsubsort], sorting by one column
      after another; the sort of a stretch of rows is the interface [Sorter],
      which quicksort and the stable sort satisfy.
    - [AggrInit], [Aggr], [AggrPick], [AggrAvg]: gdk_aggr.c, what all
      aggregations begin with, and then sums and products, counts and
      extremes, averages.
    - [PQueue]: pqueue.c of the MAL modules, priority queues and [topn].
    - [Sequence]: store_sequence.c of the SQL storage, sequences with their
      log.
    - [Zorder]: zorder.c of the MAL modules, the Z-order curve.
    - [Stream], [BlockStream]: stream.c of common/stream, numbers and arrays
      in either byte order, memory buffers, the buffered writer and reader,
      then the block protocol between client and server; a stream below
      another is one of the interfaces [Source] and [Sink].
    - [Mal], [MalFlow], [MalDecl], [MalInterp]: the MAL language of
      src/src/monetdb5/mal: variables, instructions and blocks
      (mal_instruction.h) with the questions optimizers ask (opt_support.c);
      [chkFlow], which checks the structure of a block and finds its jumps, and
      [chkDeclarations], which marks what is used (mal_function.c); and the
      interpreter (mal_interpreter.c, mal_exception.c).
    - [MalSlice], [MalScope], [MalSim], [Deadcode]: what [chkFlow],
      [chkDeclarations] and the interpreter do on a block from which
      instructions are removed, and the optimizer that removes them
      (opt_deadcode.c, opt_wrapper.c).

    Names are those of the C code.  Where one C function is long, its loops
    and its cases are definitions of their own, composed in the order of the
    code ([strPut] is [search], [strInsert] and [grow]; [HEAP_malloc] is
    [request], [first_fit], [enlarge] and [take_block]; [HEAP_free] is
    [neighbours] and [release]; [rule_fromstr] is [rule_head_fromstr] and
    [rule_time]).

    ** How the code is rendered

    - A C integer is a [Z]; wrap-around is written where the C expression can
      leave its type and the theorem covers that case, two's complement for
      signed types.  Bit fields are masked when they are stored.
    - A heap is a record with the memory of its area as a function from
      offsets to bytes; words are stored little-endian, so that a pointer
      followed through the memory is really read back from bytes.
    - The operating system is a parameter: an [os_reply] says whether memory
      is granted, at which size, and what the fresh memory contains, which is
      arbitrary.
    - A parser returns the number of bytes consumed and the value; a function
      that throws returns [mal_result]; a fatal error of the allocator is a
      value of [run].
    - A loop that is not structural takes fuel.  The year loops of [fromdate]
      get one round per 365 days ([year_fuel]); the weekday loops of
      [compute_rule] one per day of the weeks to skip ([rule_fuel]); the walk
      through a free list or a hash bucket one per eight bytes of the heap
      ([walk_fuel], [search_fuel]), since its entries ascend or descend; the
      doubling of a heap 64 rounds; [duration_loop] and [OIDread_loop] one per
      byte.  The recursion of quicksort gets [qsort_depth], log2 of the number
      of rows and 2, since it recurs into the smaller part; a search among
      rows [fnd_fuel], twice their number and 1; a binary search 64 or 65
      rounds, since the distance halves; the loops that double a mask or a
      table 64 and 32; a chain of a hash table as many rows as the table can
      hold ([fuel_of]); a merge one round per row of the left and 1; moving
      through a priority queue one round per slot; the two loops inside
      [AVERAGE_ITER] three, since the remainders differ by less than [2 * n].
      In the stable sort a gallop and a binary search get 64 rounds, a merge
      one per row of the two runs, the merging of the stack one per run, the
      search for runs one per row.  The loops of a stream get one round per
      byte to do and 1, the doubling of a buffer 65.  The removal of dead code
      is repeated at most as often as there are instructions
      ([deadcode_fuel]).  A MAL program need not end: the interpreter gets one
      unit of fuel per round of its loop, a result does not change with more
      ([run_more]), and its theorem speaks of the runs that end.
      Otherwise running out is a value of its own, and the theorems show that it does
      not happen ([compute_rule_denotes], [HEAP_malloc_spec], [HEAP_free_spec],
      [strPut_refines], [strLocate_spec], [GDKqsort_impl_depth],
      [SORTfnd_places], [hash_refines_rows], [BATsubjoin_equijoin],
      [BATgroup_partitions], [column_average_exact], [pqueue_refines_bag],
      [GDKssort_stable], [BATsubsort_orders_rows], [block_stream_delivers]), or
      when it does ([OIDread_diverges], [empty_buffer_spins]).
    - The rows of a column are read through a function from positions to
      values; a theorem assumes of it and of the flags of the column only what
      a descriptor promises ([column_ok], [bat_ok], [input_ok]).  Functions on
      columns of any type take the comparison and the hash of the type as
      arguments and rely on the classes [Comparison] and [Hashable].
    - What the conditions of a theorem on columns leave out (candidates behind
      the first row, heads that do not start at 0, and so on) is named in its
      comment, with the lemma that shows what the code does there.  The bytes
      that a comparison reads as oids without looking at their type are a
      parameter ([memory_oids]).
    - The C functions and factories that MAL instructions call, the resolution
      of types ([chkTypes]), and the listing of an instruction, are parameters; an exception that
      has been freed is a value of [ret], and its use has the outcome
      [Undefined].

    ** What is shown

    - Storage: a string heap refines a finite map from offsets to strings,
      with double elimination exactly while it is promised
      ([string_heap_faithful], [strPut_refines], [strLocate_spec]); the chunk
      allocator keeps live areas apart in every reachable state
      ([live_areas_disjoint], [HEAP_malloc_spec], [HEAP_free_spec]); sizes
      cannot wrap ([HEAPalloc_size]).
    - Text: parsing inverts printing for strings, integers, object
      identifiers, dates, times, timestamps and rules; buffers are large
      enough; only well-formed UTF-8 gets in; overflow detection is exact.
    - Calendar: day numbers and dates correspond one to one and in order;
      adding days, months, years and milliseconds does what it says; rules
      denote the right day; GMT and local time correspond.
    - Columns: conversions are lossless where they succeed, fail exactly when
      they should, and honour candidates; bulk operators are the scalar ones
      row by row.
    - Sorting and searching: quicksort permutes rows into order, with a stack
      of logarithmic depth; the stable sort is insertion sort, and its stack
      of runs is large enough for 2^21 rows ([GDKssort_stable]); sorting by
      several columns orders the rows lexicographically and groups those that
      are alike ([BATsubsort_orders_rows]); binary search finds the place of a value in either
      order, with or without equal values.
    - Hash tables: every sequence of insertions, deletions and moves keeps the
      table equal to the list of the rows of the column ([hash_refines_rows]).
    - Relational operators: selections return exactly the rows in the range,
      by whichever algorithm ([BATsubselect_selects]); joins return exactly
      the matching pairs of columns that suit their algorithm
      ([BATsubjoin_equijoin], [ordered_joins], [BATsubthetajoin_compares]); grouping finds the same partition in all its
      ways ([BATgroup_partitions]); projection fetches ([BATproject_fetches]).
    - Aggregation: sums and products per group and over all rows are exact or
      overflow ([group_totals_exact], [totals_exact]); extremes are the first
      of the best rows ([group_extremes_exact]); averages are exact fractions,
      also when the sum does not fit ([group_averages_exact],
      [column_average_exact]).
    - Arithmetic: results are exact or an overflow is found, by each of the
      three ways to multiply 64-bit integers ([arith_rows_exact],
      [lng_products_agree]), logic is three-valued, comparisons are those of the type with nil as unknown
      ([BATcalcop_compares]), loops with candidates work row by row, and the flags of
      results are true ([calc_flags_true]).
    - Sequences never repeat a value, across restarts and crashes
      ([sequence_never_repeats]); priority queues are bags with a least element
      ([pqueue_refines_bag]) and [topn] selects; the Z-order curve is a
      bijection.
    - Streams: what is written as numbers is read back, also between machines
      of different byte order ([numbers_round_trip]); a block stream delivers
      to the reader exactly the bytes between two flushes, and tells where
      they end ([block_stream_delivers], [bs_read_next_tells_the_end]).
    - MAL: a block that is checked without errors is nested and jumps only
      inside itself ([chkFlow_jumps]); exactly the used variables are marked
      ([chkDeclarations_exact]); a block and what the dead code optimizer leaves
      of it run alike, and that has no errors ([deadcode_preserves_runs], by way
      of [slice_runs], [chkDeclarations_slice] and [chkDeclarations_stale]).
    - What does not hold is stated as a theorem about what the code does
      instead: rules stored in a zone ([set_get_rule]), conversions over a
      range ([convert_any_str_wrong_rows], [ptr_convert_overrun]), references
      kept after a failure ([extract_bulk_references]), seeds too large
      ([OIDread_diverges]), leap days before the common era
      ([leap_day_before_common_era]), sums and differences at 32 bits
      ([MTIMEmsecs_wraps], [timestamp_diff_wraps],
      [date_diff_bulk_nonil_wrong]), intervals that store nothing
      ([date_interval_unset]), two texts of nil ([nil_text_differs]), flags of
      results of arithmetic ([add_candidates_missorted],
      [or_ignores_candidates], [unary_flags]), joins of opposite orders or with
      offsets ([opposite_loses], [hash_ignores_seqbase]), aggregation with
      candidates ([groups_shifted], [extremes_shifted], [nils_lost],
      [early_candidate]), groups of one row or one group ([singletons_unordered],
      [false_nil], [only_nils]), selections of complements and dense columns
      ([complement_descending], [complement_dense], [not_equal_to_the_largest],
      [dense_wraps]), flags of
      columns of [bit] ([bit_keeps_flags]), queues of two types
      ([topn_instances_differ]), sequences that are out of numbers
      ([exhausted_sequence_repeats]), codes beyond 32 bits ([encode_beyond]),
      comparisons with candidates or of other types ([rows_misread],
      [dense_ignores_candidates], [void_reads_anything]), the stable sort of object identifiers, of
      rows wider than its buffer and of very long columns ([oid_nil_last],
      [wide_rows_lost], [stack_condition_broken]), sorting in reverse or by a
      given order ([descending_ignored], [groups_without_order],
      [order_forgets_head]), lines and blocks longer than a buffer
      ([readline_overruns], [read_block_divides], [next_line_misses]),
      exceptions and barriers of MAL ([catch_ignores_names],
      [exception_freed_twice], [wrd_barrier_enters], [nil_string_enters],
      [leave_of_column_hangs]), dead code that is not dead
      ([raised_text_lost], [wide_assertion_removed]).

    ** What is not modelled

    Floating point (it uses the C library's strtod and printf), stream input
    and output of atoms, memory-mapped heaps, locks (the operations are taken
    one at a time), functions that read the clock, imprints, estimates of the
    size of a result, the allocation of result columns.  Of the streams,
    files, sockets, compression and character sets are calls of other
    libraries.  Of MAL, the parser, the resolution of types, the debugger, the
    profiler, the recycler, garbage collection, the bodies of factories, the
    dataflow scheduler and the other optimizers.  Other parts of the system are
    out of scope: updates of columns, the SQL front end, transactions and
    logging, the client library, the bindings to R. *)

From Stdlib Require Import ZArith Lia Bool List String Ascii.
Import ListNotations.

Declare Scope cprog_scope.
Delimit Scope cprog_scope with cprog.
#[global] Open Scope Z_scope.
#[global] Open Scope list_scope.

Create HintDb cint discriminated.
Create HintDb cstr discriminated.
Create Rewrite HintDb cstr_rw.

(** ** Machine integers *)

(** Two's complement wrap-around of a [w]-bit signed value: what a cast to a
    signed C type of that width yields on the supported compilers. *)
Definition swrap (w z : Z) : Z := (z + 2 ^ (w - 1)) mod 2 ^ w - 2 ^ (w - 1).
(** Wrap-around of a [w]-bit unsigned value. *)
Definition uwrap (w z : Z) : Z := z mod 2 ^ w.

Abbreviation i8 := (swrap 8).
Abbreviation i16 := (swrap 16).
Abbreviation i32 := (swrap 32).
Abbreviation i64 := (swrap 64).
Abbreviation u16 := (uwrap 16).
Abbreviation u32 := (uwrap 32).
Abbreviation u64 := (uwrap 64).

Definition srange (w z : Z) : Prop := - 2 ^ (w - 1) <= z < 2 ^ (w - 1).
Abbreviation is_int := (srange 32).
Abbreviation is_lng := (srange 64).

(** The nil values of the fixed-size atoms (gdk_atoms.c): the minimum of
    the type. *)
Definition int_nil : Z := - 2147483648.
Definition lng_nil : Z := - 9223372036854775808.

Lemma swrap_id w z : 0 < w -> srange w z -> swrap w z = z.
Proof.
  intros Hw [H1 H2]. unfold swrap.
  replace (2 ^ w) with (2 * 2 ^ (w - 1)) by (rewrite <- Z.pow_succ_r by lia; f_equal; lia).
  rewrite Z.mod_small; lia.
Qed.

Lemma swrap_range w z : 0 < w -> srange w (swrap w z).
Proof.
  intros Hw. unfold srange, swrap.
  assert (0 < 2 ^ (w - 1)) by (apply Z.pow_pos_nonneg; lia).
  replace (2 ^ w) with (2 * 2 ^ (w - 1)) by (rewrite <- Z.pow_succ_r by lia; f_equal; lia).
  pose proof (Z.mod_pos_bound (z + 2 ^ (w - 1)) (2 * 2 ^ (w - 1)) ltac:(lia)). lia.
Qed.

Lemma i32_id z : -2147483648 <= z <= 2147483647 -> i32 z = z.
Proof. intros. apply swrap_id; [lia|]. unfold srange; change (2 ^ (32 - 1)) with 2147483648; lia. Qed.

Lemma i32_range z : -2147483648 <= i32 z <= 2147483647.
Proof.
  pose proof (swrap_range 32 z ltac:(lia)) as H.
  unfold srange in H; change (2 ^ (32 - 1)) with 2147483648 in H; lia.
Qed.

Lemma i64_id z : -9223372036854775808 <= z <= 9223372036854775807 -> i64 z = z.
Proof.
  intros. apply swrap_id; [lia|].
  unfold srange; change (2 ^ (64 - 1)) with 9223372036854775808; lia.
Qed.

Lemma uwrap_id w z : 0 <= z < 2 ^ w -> uwrap w z = z.
Proof. apply Z.mod_small. Qed.

#[export] Hint Resolve swrap_range i32_range i32_id i64_id uwrap_id : cint.

(** ** Case analysis on the boolean tests the code is written with *)

(** [ztests] destructs every integer comparison in the goal and in the
    hypotheses, keeping the proposition each one decides. *)
Ltac ztest1 :=
  match goal with
  | |- context [?a =? ?b] => destruct (Z.eqb_spec a b)
  | |- context [?a <=? ?b] => destruct (Z.leb_spec a b)
  | |- context [?a <? ?b] => destruct (Z.ltb_spec a b)
  | H : context [?a =? ?b] |- _ => destruct (Z.eqb_spec a b)
  | H : context [?a <=? ?b] |- _ => destruct (Z.leb_spec a b)
  | H : context [?a <? ?b] |- _ => destruct (Z.ltb_spec a b)
  end.
Ltac ztests := repeat (ztest1; cbn [negb andb orb] in *; try lia).

(** Turn boolean conjunctions, disjunctions and comparisons that hold into
    propositions. *)
Ltac breflect :=
  repeat match goal with
  | H : _ && _ = true |- _ => apply andb_prop in H; destruct H
  | H : negb _ = true |- _ => apply negb_true_iff in H
  | H : negb _ = false |- _ => apply negb_false_iff in H
  | H : (_ <=? _) = true |- _ => apply Z.leb_le in H
  | H : (_ <? _) = true |- _ => apply Z.ltb_lt in H
  | H : (_ =? _) = true |- _ => apply Z.eqb_eq in H
  | H : (_ <=? _) = false |- _ => apply Z.leb_gt in H
  | H : (_ <? _) = false |- _ => apply Z.ltb_ge in H
  | H : (_ =? _) = false |- _ => apply Z.eqb_neq in H
  end.

(** Division goals: replace quotients and remainders by their defining
    equations and call the arithmetic solver. *)
Ltac divlia := Z.to_euclidean_division_equations; lia.

(** ** Rounded-up division *)

Definition ceil_div (a b : Z) : Z := (a + b - 1) / b.

Lemma ceil_div_succ a k :
  0 < k -> ceil_div (a + 1) k = ceil_div a k + (if a mod k =? 0 then 1 else 0).
Proof.
  intros Hk. unfold ceil_div.
  pose proof (Z.div_mod a k ltac:(lia)) as D. pose proof (Z.mod_pos_bound a k Hk) as B.
  replace (a + 1 + k - 1) with (a + 1 * k) by lia. rewrite Z.div_add by lia.
  destruct (Z.eqb_spec (a mod k) 0) as [E|E].
  - replace (a + k - 1) with (a / k * k + (k - 1)) by lia.
    rewrite Z.div_add_l by lia. rewrite (Z.div_small (k - 1)) by lia. lia.
  - replace (a + k - 1) with ((a / k + 1) * k + (a mod k - 1)) by lia.
    rewrite Z.div_add_l by lia. rewrite (Z.div_small (a mod k - 1)) by lia. lia.
Qed.

(** ** Bits of bounded values *)

Lemma testbit_small k z i : 0 <= z < 2 ^ k -> k <= i -> Z.testbit z i = false.
Proof.
  intros Hz Hi. destruct (Z.eq_dec z 0) as [->|]; [apply Z.bits_0|].
  apply Z.bits_above_log2; [lia|]. apply Z.log2_lt_pow2; [lia|].
  apply Z.lt_le_trans with (2 ^ k); [lia|]. apply Z.pow_le_mono_r; lia.
Qed.

(** A field of [w] bits read at position [p]: the mask-and-shift idiom. *)
Lemma testbit_field v w p i : 0 <= p -> 0 <= w -> 0 <= i ->
  Z.testbit (Z.shiftr (Z.land v (Z.shiftl (Z.ones w) p)) p) i = (i <? w) && Z.testbit v (i + p).
Proof.
  intros Hp Hw Hi. rewrite Z.shiftr_spec, Z.land_spec, Z.shiftl_spec by lia.
  replace (i + p - p) with i by lia. rewrite Z.testbit_ones by lia.
  destruct (Z.leb_spec 0 i); [|lia]. cbn [andb]. apply andb_comm.
Qed.

Lemma testbit_uwrap w v i : 0 <= w -> 0 <= i ->
  Z.testbit (uwrap w v) i = (i <? w) && Z.testbit v i.
Proof.
  intros Hw Hi. unfold uwrap. destruct (Z.ltb_spec i w).
  - rewrite Z.mod_pow2_bits_low by lia. reflexivity.
  - rewrite Z.mod_pow2_bits_high by lia. reflexivity.
Qed.

(** ** C strings *)

(** A C string is the list of its bytes without the terminating NUL; reading
    at or after the end gives NUL, and [s + n] is [skipn n s]. *)
Abbreviation cstr := (list Z).

Definition lit (s : string) : cstr :=
  List.map (fun c => Z.of_N (N_of_ascii c)) (list_ascii_of_string s).

Definition cat (s : cstr) (n : nat) : Z := nth n s 0.
Abbreviation chead s := (hd 0 s).

Definition isdigit (c : Z) : bool := (48 <=? c) && (c <=? 57).
(** [isspace] of the C locale: space and the range from tab to carriage
    return. *)
Definition isspace (c : Z) : bool := (c =? 32) || ((9 <=? c) && (c <=? 13)).
Definition LOWER (c : Z) : Z := if (65 <=? c) && (c <=? 90) then c + 97 - 65 else c.

(** The position a parser returns: how far [rest] is into [buf]. *)
Definition consumed (buf rest : cstr) : Z :=
  Z.of_nat (List.length buf) - Z.of_nat (List.length rest).

(** [while (c == *s) s++]. *)
Fixpoint skip_char (c : Z) (s : cstr) : cstr :=
  match s with
  | x :: s' => if x =? c then skip_char c s' else s
  | [] => []
  end.

(** [while (GDKisspace( *s)) s++]. *)
Fixpoint skip_spaces (s : cstr) : cstr :=
  match s with
  | x :: s' => if isspace x then skip_spaces s' else s
  | [] => []
  end.

(** Decimal digits of a number that is not negative, most significant first;
    20 digits hold every 64-bit value. *)
Fixpoint dec_aux (fuel : nat) (n : Z) (acc : cstr) : cstr :=
  match fuel with
  | O => acc
  | S fuel =>
      let acc := (48 + n mod 10) :: acc in
      if n <? 10 then acc else dec_aux fuel (n / 10) acc
  end.
Definition dec (n : Z) : cstr := dec_aux 20 n [].

(** printf's ["%d"] and ["%0<w>d"]. *)
Definition fmt_d (n : Z) : cstr := if n <? 0 then 45 :: dec (- n) else dec n.
Definition fmt_0d (w : nat) (n : Z) : cstr :=
  let ds := dec (Z.abs n) in
  let sign := if n <? 0 then [45] else [] in
  sign ++ repeat 48 (w - List.length sign - List.length ds) ++ ds.

(** Value of a digit string read after a prefix of value [v]. *)
Definition dval (v : Z) (ds : cstr) : Z := fold_left (fun v c => (c - 48) + v * 10) ds v.

Abbreviation digits := (Forall (fun c => isdigit c = true)).

Lemma isdigit_range c : isdigit c = true <-> 48 <= c <= 57.
Proof. unfold isdigit. rewrite andb_true_iff, !Z.leb_le. lia. Qed.

Lemma dval_app v a b : dval v (a ++ b) = dval (dval v a) b.
Proof. apply fold_left_app. Qed.

Lemma dval_cons v c ds : dval v (c :: ds) = dval ((c - 48) + v * 10) ds.
Proof. reflexivity. Qed.

Lemma dval_ge ds : forall v, 0 <= v -> digits ds -> v <= dval v ds.
Proof.
  induction ds as [|c ds IH]; intros v Hv H; [cbn; lia|].
  apply Forall_cons_iff in H as [Hc Hd]. apply isdigit_range in Hc.
  rewrite dval_cons. specialize (IH ((c - 48) + v * 10) ltac:(lia) Hd). lia.
Qed.

Lemma dval_shift ds : forall v, dval v ds = v * 10 ^ Z.of_nat (List.length ds) + dval 0 ds.
Proof.
  induction ds as [|c ds IH]; intros v; [cbn; lia|].
  rewrite !dval_cons, IH, (IH (c - 48 + 0 * 10)). cbn [List.length].
  rewrite Nat2Z.inj_succ, Z.pow_succ_r by lia. lia.
Qed.

(** The printed digits denote the number. *)
Lemma dec_aux_spec fuel : forall n acc, 0 <= n < 10 ^ Z.of_nat fuel -> (0 < fuel)%nat -> exists ds,
  dec_aux fuel n acc = ds ++ acc /\ digits ds /\ dval 0 ds = n /\ ds <> [] /\
  (10 ^ Z.of_nat (List.length ds - 1) <= n \/ List.length ds = 1%nat).
Proof.
  induction fuel as [|fuel IH]; intros n acc Hn Hf; [lia|].
  cbn [dec_aux]. cbv zeta.
  assert (isdigit (48 + n mod 10) = true) as Hd by (apply isdigit_range; divlia).
  destruct (Z.ltb_spec n 10).
  - exists [48 + n mod 10]. split; [reflexivity|]. split; [constructor; [exact Hd|constructor]|].
    split; [rewrite Z.mod_small by lia; unfold dval; cbn [fold_left]; lia|].
    split; [discriminate|right; reflexivity].
  - assert (0 < fuel)%nat as Hf'.
    { destruct fuel; [|lia]. cbn in Hn. lia. }
    assert (0 <= n / 10 < 10 ^ Z.of_nat fuel) as Hn'.
    { rewrite Nat2Z.inj_succ, Z.pow_succ_r in Hn by lia. split; [divlia|].
      apply Z.div_lt_upper_bound; lia. }
    destruct (IH (n / 10) ((48 + n mod 10) :: acc) Hn' Hf') as (ds & E & Hds & V & NE & L).
    exists (ds ++ [48 + n mod 10]). rewrite E, <- app_assoc. split; [reflexivity|]. split.
    { apply Forall_app. split; [exact Hds|constructor; [exact Hd|constructor]]. }
    split; [rewrite dval_app, V; unfold dval; cbn [fold_left]; divlia|]. split; [destruct ds; discriminate|].
    left. rewrite length_app. cbn [List.length]. replace (List.length ds + 1 - 1)%nat with (List.length ds) by lia.
    assert (0 < List.length ds)%nat by (destruct ds; [congruence|cbn; lia]).
    replace (Z.of_nat (List.length ds)) with (Z.succ (Z.of_nat (List.length ds - 1))) by lia.
    rewrite Z.pow_succ_r by lia. destruct L as [L|L]; [divlia|rewrite L; cbn; lia].
Qed.

Lemma dec_spec n : 0 <= n < 10 ^ 20 -> exists ds,
  dec n = ds /\ digits ds /\ dval 0 ds = n /\ ds <> [] /\
  (10 ^ Z.of_nat (List.length ds - 1) <= n \/ List.length ds = 1%nat).
Proof.
  intros Hn. destruct (dec_aux_spec 20 n [] Hn ltac:(lia)) as (ds & E & R).
  exists ds. rewrite app_nil_r in E. split; [exact E|exact R].
Qed.

(** ** Checking a property over an integer range by computation *)

Fixpoint zrange (lo : Z) (n : nat) : list Z :=
  match n with
  | O => []
  | S n => lo :: zrange (lo + 1) n
  end.

Lemma zrange_In n : forall lo z, lo <= z < lo + Z.of_nat n -> In z (zrange lo n).
Proof.
  induction n as [|n IH]; intros lo z H; [lia|]. cbn [zrange In].
  destruct (Z.eq_dec lo z); [left; assumption|right; apply IH; lia].
Qed.

Lemma zrange_length n : forall lo, List.length (zrange lo n) = n.
Proof. induction n as [|n IH]; intros lo; cbn; [reflexivity|]. now rewrite IH. Qed.

Lemma In_zrange n : forall lo z, In z (zrange lo n) -> lo <= z < lo + Z.of_nat n.
Proof.
  induction n as [|n IH]; intros lo z; cbn; [easy|]. intros [->|I]; [lia|]. apply IH in I. lia.
Qed.

Lemma nth_zrange m : forall lo i, (i < m)%nat -> nth i (zrange lo m) 0 = lo + Z.of_nat i.
Proof.
  induction m as [|m IH]; intros lo i I; [lia|]. cbn [zrange]. destruct i as [|i]; cbn [nth]; [lia|].
  rewrite IH by lia. lia.
Qed.

Lemma zrange_app n m : forall lo, zrange lo (n + m) = zrange lo n ++ zrange (lo + Z.of_nat n) m.
Proof.
  induction n as [|n IH]; intros lo; cbn [Nat.add zrange app]; [now rewrite Z.add_0_r|].
  rewrite IH.
  now replace (lo + 1 + Z.of_nat n) with (lo + Z.of_nat (S n)) by lia.
Qed.

Lemma zrange_snoc n : forall lo, zrange lo (S n) = zrange lo n ++ [lo + Z.of_nat n].
Proof.
  induction n as [|n IH]; intros lo; [cbn; now rewrite Z.add_0_r|].
  change (zrange lo (S (S n))) with (lo :: zrange (lo + 1) (S n)). rewrite IH. cbn [zrange app].
  now replace (lo + 1 + Z.of_nat n) with (lo + Z.of_nat (S n)) by lia.
Qed.

Lemma zrange_shift n c : forall lo, map (fun i => c + i) (zrange lo n) = zrange (c + lo) n.
Proof.
  induction n as [|n IH]; intros lo; [reflexivity|]. cbn [zrange map]. rewrite IH.
  now replace (c + (lo + 1)) with (c + lo + 1) by lia.
Qed.

Lemma map_ext_zrange {A} (g h : Z -> A) n : forall lo,
  (forall i, lo <= i < lo + Z.of_nat n -> g i = h i) -> map g (zrange lo n) = map h (zrange lo n).
Proof.
  induction n as [|n IH]; intros lo H; [reflexivity|]. cbn [zrange map].
  rewrite H by lia. f_equal. apply IH. intros. apply H. lia.
Qed.

Lemma zrange_check (f : Z -> bool) lo n : forallb f (zrange lo n) = true ->
  forall z, lo <= z < lo + Z.of_nat n -> f z = true.
Proof. intros H z Hz. rewrite forallb_forall in H. apply H, zrange_In, Hz. Qed.

Definition cstr_eqb (a b : cstr) : bool := if list_eq_dec Z.eq_dec a b then true else false.

Lemma cstr_eqb_eq a b : cstr_eqb a b = true <-> a = b.
Proof. unfold cstr_eqb. destruct (list_eq_dec Z.eq_dec a b); split; congruence. Qed.

Lemma fmt_02d n : 0 <= n < 100 -> fmt_0d 2 n = [48 + n / 10; 48 + n mod 10].
Proof.
  intros H. apply cstr_eqb_eq.
  apply (zrange_check (fun n => cstr_eqb (fmt_0d 2 n) [48 + n / 10; 48 + n mod 10]) 0 100);
    [vm_compute; reflexivity|exact H].
Qed.

Lemma fmt_03d n : 0 <= n < 1000 -> fmt_0d 3 n = [48 + n / 100; 48 + n / 10 mod 10; 48 + n mod 10].
Proof.
  intros H. apply cstr_eqb_eq.
  apply (zrange_check
    (fun n => cstr_eqb (fmt_0d 3 n) [48 + n / 100; 48 + n / 10 mod 10; 48 + n mod 10]) 0 1000);
    [vm_compute; reflexivity|exact H].
Qed.

(** The string continues with something that is not a digit. *)
Abbreviation stops rest := (isdigit (chead rest) = false).

Lemma digit_true c : 48 <= c <= 57 -> isdigit c = true.
Proof. apply isdigit_range. Qed.
#[export] Hint Resolve digit_true : cstr.

Lemma consumed_app a rest : consumed (a ++ rest) rest = Z.of_nat (List.length a).
Proof. unfold consumed. rewrite length_app. lia. Qed.

Lemma skipn_exact {A} (a b : list A) : skipn (List.length a) (a ++ b) = b.
Proof. rewrite skipn_app, skipn_all, Nat.sub_diag. reflexivity. Qed.

Lemma skip_char_digit c s : isdigit (chead s) = true -> isdigit c = false -> skip_char c s = s.
Proof.
  intros H Hc. destruct s as [|x s]; [reflexivity|]. cbn [skip_char hd] in *.
  destruct (Z.eqb_spec x c); [congruence|reflexivity].
Qed.
