(* ===== verification/Calendar.v ===== *)
(** * The Gregorian calendar of the [mtime] module

    Models the date and daytime arithmetic of
    src/src/monetdb5/modules/atoms/mtime.c. *)

From Stdlib Require Import ZArith Lia Bool List.
Import ListNotations.
From S2P Require Import Prelude.

(** ** Tables and macros *)

Definition NODAYS (m : Z) : Z :=
  nth (Z.to_nat m) [0; 31; 29; 31; 30; 31; 30; 31; 31; 30; 31; 30; 31] 0.
Definition CUMDAYS (m : Z) : Z :=
  nth (Z.to_nat m) [0; 31; 59; 90; 120; 151; 181; 212; 243; 273; 304; 334; 365] 0.

Definition YEAR_MAX : Z := 5867411.
Definition YEAR_MIN : Z := - YEAR_MAX.
Definition date_nil : Z := int_nil.
Definition daytime_nil : Z := int_nil.

Definition leapyear (y : Z) : bool :=
  (Z.rem y 4 =? 0) && (negb (Z.rem y 100 =? 0) || (Z.rem y 400 =? 0)).
Definition MONTHDAYS (m y : Z) : Z :=
  if negb (m =? 2) then NODAYS m else if leapyear y then 29 else 28.
Definition YEARDAYS (y : Z) : Z := if leapyear y then 366 else 365.

Definition leapyears (year : Z) : Z :=
  let y4 := Z.quot year 4 in
  let y100 := Z.quot year 100 in
  let y400 := Z.quot year 400 in
  y4 + y400 - y100.
Definition LEAPYEARS (y : Z) : Z := leapyears y + (if 0 <=? y then 1 else 0).

Definition DATE (d m y : Z) : bool :=
  (0 <? m) && (m <=? 12) && (0 <? d) && negb (y =? 0) &&
  (YEAR_MIN <=? y) && (y <=? YEAR_MAX) && (d <=? MONTHDAYS m y).
Definition TIME (h m s x : Z) : bool :=
  (0 <=? h) && (h <? 24) && (0 <=? m) && (m <? 60) &&
  (0 <=? s) && (s <? 60) && (0 <=? x) && (x <? 1000).

(** ** Conversion between (day, month, year) and the day number *)

Definition todate (day month year : Z) : Z :=
  if DATE day month year then
    let year := if year <? 0 then year + 1 else year in
    let n := day - 1 in
    let n := if (2 <? month) && leapyear year then n + 1 else n in
    let n := n + CUMDAYS (month - 1) in
    n + (365 * year + LEAPYEARS (if 0 <=? year then year - 1 else year))
  else date_nil.

(** The [while (day >= 0)] loop of the [n < 0] branch. *)
Fixpoint fromdate_up (fuel : nat) (year day : Z) : Z * Z :=
  match fuel with
  | O => (year, day)
  | S fuel =>
      if 0 <=? day
      then let year := year + 1 in fromdate_up fuel year (day - YEARDAYS year)
      else (year, day)
  end.

(** The [while (day < 0)] loop of the other branch. *)
Fixpoint fromdate_down (fuel : nat) (year day : Z) : Z * Z :=
  match fuel with
  | O => (year, day)
  | S fuel =>
      if day <? 0
      then let year := year - 1 in fromdate_down fuel year (day + YEARDAYS year)
      else (year, day)
  end.

(** The [for (month = 1; month <= 12; month++)] loop; [togo] is the number of
    months not yet visited. *)
Fixpoint fromdate_month (togo : nat) (month day year : Z) : Z * Z :=
  match togo with
  | O => (month, day)
  | S togo =>
      let days := MONTHDAYS month year in
      if day <=? days then (month, day)
      else fromdate_month togo (month + 1) (day - days) year
  end.

(** Enough iterations for either year loop: each one moves the day by at
    least 365. *)
Definition year_fuel (day : Z) : nat := Z.to_nat (Z.abs day / 365 + 1).

Definition fromdate (n : Z) : Z * Z * Z :=
  let year := Z.quot n 365 in
  let day := (n - year * 365) - LEAPYEARS (if 0 <=? year then year - 1 else year) in
  let '(year, day) :=
    if n <? 0 then
      let '(year, day) := fromdate_up (year_fuel day) (year - 1) day in
      (year, YEARDAYS year + day)
    else fromdate_down (year_fuel day) year day in
  let day := day + 1 in
  let '(month, day) := fromdate_month 12 1 day year in
  if negb (n =? int_nil) then (day, month, if year <=? 0 then year - 1 else year)
  else (int_nil, int_nil, int_nil).

(** ** The day count that both directions implement *)

(** Days before January 1 of (astronomical) year [y] in the proleptic
    Gregorian calendar, counted from year 0. *)
Definition days_before (y : Z) : Z :=
  365 * y + ceil_div y 4 - ceil_div y 100 + ceil_div y 400.

Lemma leapyear_mod y :
  leapyear y = (y mod 4 =? 0) && (negb (y mod 100 =? 0) || (y mod 400 =? 0)).
Proof.
  assert (forall k, 0 < k -> (Z.rem y k =? 0) = (y mod k =? 0)) as E.
  { intros k Hk. apply eq_true_iff_eq. rewrite !Z.eqb_eq.
    rewrite Z.rem_mod_eq_0 by lia. reflexivity. }
  unfold leapyear. rewrite !E by lia. reflexivity.
Qed.

Lemma days_before_code y :
  365 * y + LEAPYEARS (if 0 <=? y then y - 1 else y) = days_before y.
Proof.
  unfold days_before, LEAPYEARS, leapyears, ceil_div; cbv zeta.
  destruct (Z.leb_spec 0 y); [destruct (Z.eq_dec y 0) as [->|]; [reflexivity|]|].
  - destruct (Z.leb_spec 0 (y - 1)); [divlia|lia].
  - destruct (Z.leb_spec 0 y); [lia|divlia].
Qed.

Lemma days_before_succ y : days_before (y + 1) = days_before y + YEARDAYS y.
Proof.
  unfold days_before, YEARDAYS. rewrite leapyear_mod, !ceil_div_succ by lia.
  assert (y mod 100 = 0 -> y mod 4 = 0) by divlia.
  assert (y mod 400 = 0 -> y mod 100 = 0) by divlia.
  destruct (Z.eqb_spec (y mod 4) 0), (Z.eqb_spec (y mod 100) 0),
    (Z.eqb_spec (y mod 400) 0); cbn [negb andb orb]; lia.
Qed.

Lemma YEARDAYS_bounds y : 365 <= YEARDAYS y <= 366.
Proof. unfold YEARDAYS; destruct (leapyear y); lia. Qed.

Lemma days_before_le a k : 0 <= k -> days_before a <= days_before (a + k).
Proof.
  intros Hk. pattern k; apply natlike_ind; [rewrite Z.add_0_r; reflexivity| |exact Hk].
  intros x Hx IH. rewrite <- Z.add_1_r, Z.add_assoc, days_before_succ.
  pose proof (YEARDAYS_bounds (a + x)). lia.
Qed.

Lemma days_before_lt a b : a < b -> days_before a + YEARDAYS a <= days_before b.
Proof.
  intros H. rewrite <- days_before_succ.
  replace b with (a + 1 + (b - (a + 1))) by lia. apply days_before_le; lia.
Qed.

(** A day number lies in exactly one year. *)
Lemma days_before_unique n a b :
  0 <= n - days_before a < YEARDAYS a ->
  0 <= n - days_before b < YEARDAYS b -> a = b.
Proof.
  intros Ha Hb. destruct (Z.lt_trichotomy a b) as [H|[H|H]]; [|exact H|];
    apply days_before_lt in H; lia.
Qed.

(** ** Months within a year *)

(** Days of year [y] before the first of month [m]. *)
Definition month_start (m y : Z) : Z :=
  CUMDAYS (m - 1) + (if (2 <? m) && leapyear y then 1 else 0).

Ltac months m :=
  let H := fresh in
  assert (m = 1 \/ m = 2 \/ m = 3 \/ m = 4 \/ m = 5 \/ m = 6 \/
          m = 7 \/ m = 8 \/ m = 9 \/ m = 10 \/ m = 11 \/ m = 12) as H by lia;
  decompose [or] H; clear H; subst m.

Lemma month_start_1 y : month_start 1 y = 0.
Proof. reflexivity. Qed.

Lemma month_start_succ m y :
  1 <= m <= 12 -> month_start (m + 1) y = month_start m y + MONTHDAYS m y.
Proof.
  intros H. unfold month_start, MONTHDAYS. destruct (leapyear y); months m; reflexivity.
Qed.

Lemma month_start_13 y : month_start 13 y = YEARDAYS y.
Proof. unfold month_start, YEARDAYS. destruct (leapyear y); reflexivity. Qed.

Lemma MONTHDAYS_bounds m y : 1 <= m <= 12 -> 28 <= MONTHDAYS m y <= 31.
Proof. intros H. unfold MONTHDAYS. destruct (leapyear y); months m; split; vm_compute; discriminate. Qed.

Lemma month_start_bounds m y :
  1 <= m <= 12 -> 0 <= month_start m y /\ month_start m y + MONTHDAYS m y <= YEARDAYS y.
Proof.
  intros H. unfold month_start, MONTHDAYS, YEARDAYS.
  destruct (leapyear y); months m; split; vm_compute; discriminate.
Qed.

Lemma month_start_le y k : forall m0, 1 <= m0 -> m0 + Z.of_nat k <= 12 ->
  month_start m0 y <= month_start (m0 + Z.of_nat k) y.
Proof.
  induction k as [|k IH]; intros m0 H0 Hk; [rewrite Z.add_0_r; reflexivity|].
  replace (m0 + Z.of_nat (S k)) with (m0 + 1 + Z.of_nat k) by lia.
  rewrite <- IH by lia. rewrite month_start_succ by lia.
  pose proof (MONTHDAYS_bounds m0 y ltac:(lia)). lia.
Qed.

(** The month loop, started at month [m0] with [togo] months left, finds the
    month that holds the given day. *)
Lemma fromdate_month_spec togo : forall m0 m d y,
  1 <= m0 -> m0 <= m <= 12 -> m0 + Z.of_nat togo = 13 -> 1 <= d <= MONTHDAYS m y ->
  fromdate_month togo m0 (month_start m y - month_start m0 y + d) y = (m, d).
Proof.
  induction togo as [|togo IH]; intros m0 m d y H0 Hm Ht Hd; [lia|].
  cbn [fromdate_month]. destruct (Z.eq_dec m0 m) as [->|Hne].
  - rewrite Z.sub_diag. destruct (Z.leb_spec (0 + d) (MONTHDAYS m y)); [f_equal; lia|lia].
  - assert (month_start (m0 + 1) y <= month_start m y) as Hle.
    { replace m with (m0 + 1 + Z.of_nat (Z.to_nat (m - (m0 + 1)))) by lia.
      apply month_start_le; lia. }
    rewrite month_start_succ in Hle by lia.
    destruct (Z.leb_spec (month_start m y - month_start m0 y + d) (MONTHDAYS m0 y)); [lia|].
    rewrite <- (IH (m0 + 1) m d y) by lia. f_equal. rewrite month_start_succ by lia. lia.
Qed.

(** Every day of a year lies in one of its months. *)
Lemma month_exists y k : 0 <= k < YEARDAYS y ->
  exists m d, 1 <= m <= 12 /\ 1 <= d <= MONTHDAYS m y /\ k = month_start m y + d - 1.
Proof.
  intros Hk.
  assert (forall j, (j <= 12)%nat -> k < month_start (Z.of_nat j + 1) y ->
    exists m d, 1 <= m <= 12 /\ 1 <= d <= MONTHDAYS m y /\ k = month_start m y + d - 1) as M.
  { induction j as [|j IH]; intros Hj Hlt; [rewrite month_start_1 in Hlt; lia|].
    destruct (Z.lt_ge_cases k (month_start (Z.of_nat j + 1) y)) as [Hc|Hc]; [apply IH; [lia|exact Hc]|].
    exists (Z.of_nat j + 1), (k - month_start (Z.of_nat j + 1) y + 1).
    replace (Z.of_nat (S j) + 1) with (Z.of_nat j + 1 + 1) in Hlt by lia.
    rewrite month_start_succ in Hlt by lia. lia. }
  apply (M 12%nat); [lia|]. change (Z.of_nat 12 + 1) with 13. rewrite month_start_13. lia.
Qed.

(** ** The two year loops *)

Lemma fromdate_up_spec fuel : forall year day n,
  day = n - days_before (year + 1) -> - YEARDAYS year <= day ->
  (day < 365 * Z.of_nat fuel) ->
  let '(year', day') := fromdate_up fuel year day in
  day' = n - days_before (year' + 1) /\ - YEARDAYS year' <= day' < 0.
Proof.
  induction fuel as [|fuel IH]; intros year day n Hn Hlo Hf; cbn [fromdate_up].
  - split; lia.
  - destruct (Z.leb_spec 0 day); [|split; [exact Hn|lia]].
    pose proof (YEARDAYS_bounds (year + 1)).
    apply IH; [rewrite days_before_succ; lia | lia | lia].
Qed.

Lemma fromdate_down_spec fuel : forall year day n,
  day = n - days_before year -> day < YEARDAYS year ->
  (- day <= 365 * Z.of_nat fuel) ->
  let '(year', day') := fromdate_down fuel year day in
  day' = n - days_before year' /\ 0 <= day' < YEARDAYS year'.
Proof.
  induction fuel as [|fuel IH]; intros year day n Hn Hhi Hf; cbn [fromdate_down].
  - split; lia.
  - destruct (Z.ltb_spec day 0); [|split; [exact Hn|lia]].
    pose proof (YEARDAYS_bounds (year - 1)).
    pose proof (days_before_succ (year - 1)) as E. rewrite Z.sub_add in E.
    apply IH; lia.
Qed.

Lemma year_fuel_spec day : Z.abs day < 365 * Z.of_nat (year_fuel day).
Proof. unfold year_fuel. rewrite Z2Nat.id by divlia. divlia. Qed.

(** ** What the two conversions compute *)

(** The year as shown to users skips 0. *)
Definition hide_zero (y : Z) : Z := if y <=? 0 then y - 1 else y.
(** Its inverse, the first statement of [todate]. *)
Definition astro (y : Z) : Z := if y <? 0 then y + 1 else y.

Lemma astro_hide y : astro (hide_zero y) = y.
Proof. unfold astro, hide_zero. ztests. Qed.

Lemma hide_astro y : y <> 0 -> hide_zero (astro y) = y.
Proof. unfold astro, hide_zero. intros. ztests. Qed.

Lemma DATE_spec d m y : DATE d m y = true <->
  1 <= m <= 12 /\ 1 <= d <= MONTHDAYS m y /\ y <> 0 /\ - YEAR_MAX <= y <= YEAR_MAX.
Proof.
  unfold DATE, YEAR_MIN.
  rewrite !andb_true_iff, !Z.ltb_lt, !Z.leb_le, negb_true_iff, Z.eqb_neq. lia.
Qed.

Lemma todate_spec d m y : DATE d m y = true ->
  todate d m y = days_before (astro y) + month_start m (astro y) + d - 1.
Proof.
  intros H. unfold todate. rewrite H. cbv zeta. fold (astro y).
  rewrite days_before_code. unfold month_start.
  destruct ((2 <? m) && leapyear (astro y)); lia.
Qed.

Lemma LEAPYEARS_neg y : y < 0 -> LEAPYEARS y <= 0.
Proof. intros. unfold LEAPYEARS, leapyears. cbv zeta. destruct (Z.leb_spec 0 y); divlia. Qed.

Lemma LEAPYEARS_nonneg y : -1 <= y -> 0 <= LEAPYEARS y.
Proof. intros. unfold LEAPYEARS, leapyears. cbv zeta. destruct (Z.leb_spec 0 y); divlia. Qed.

(** The year and the day within it that the loops of [fromdate] settle on. *)
Lemma fromdate_year n :
  let year := Z.quot n 365 in
  let day := (n - year * 365) - LEAPYEARS (if 0 <=? year then year - 1 else year) in
  let '(year, day) :=
    if n <? 0 then
      let '(year, day) := fromdate_up (year_fuel day) (year - 1) day in
      (year, YEARDAYS year + day)
    else fromdate_down (year_fuel day) year day in
  day = n - days_before year /\ 0 <= day < YEARDAYS year.
Proof.
  cbv zeta. set (y0 := Z.quot n 365).
  set (day := n - y0 * 365 - LEAPYEARS (if 0 <=? y0 then y0 - 1 else y0)).
  assert (day = n - days_before y0) as Hday
    by (unfold day; pose proof (days_before_code y0); lia).
  pose proof (year_fuel_spec day) as Hf.
  destruct (Z.ltb_spec n 0).
  - assert (- YEARDAYS (y0 - 1) <= day) as Hlo.
    { pose proof (YEARDAYS_bounds (y0 - 1)).
      pose proof (LEAPYEARS_neg (if 0 <=? y0 then y0 - 1 else y0)).
      assert (y0 <= 0 /\ -365 < n - y0 * 365) as Hq by (unfold y0; divlia).
      unfold day. destruct (Z.leb_spec 0 y0); lia. }
    pose proof (fromdate_up_spec (year_fuel day) (y0 - 1) day n) as U.
    rewrite Z.sub_add in U. specialize (U Hday Hlo ltac:(lia)).
    destruct (fromdate_up _ _ _) as [y d]. rewrite days_before_succ in U. lia.
  - assert (day < YEARDAYS y0) as Hhi.
    { pose proof (YEARDAYS_bounds y0).
      pose proof (LEAPYEARS_nonneg (if 0 <=? y0 then y0 - 1 else y0)).
      assert (0 <= y0 /\ n - y0 * 365 < 365) as Hq by (unfold y0; divlia).
      unfold day. destruct (Z.leb_spec 0 y0); lia. }
    apply (fromdate_down_spec (year_fuel day) y0 day n Hday Hhi). lia.
Qed.

(** [fromdate] inverts the day count: the only decomposition of [n] into a
    year, a month of it and a day of that month is what it returns. *)
Lemma fromdate_spec n y m d : n <> int_nil ->
  n = days_before y + month_start m y + d - 1 -> 1 <= m <= 12 -> 1 <= d <= MONTHDAYS m y ->
  fromdate n = (d, m, hide_zero y).
Proof.
  intros Hn E Hm Hd. pose proof (fromdate_year n) as Y. cbv zeta in Y.
  unfold fromdate. cbv zeta.
  destruct (if n <? 0 then _ else _) as [y' k]. destruct Y as [Hk Hb].
  assert (y' = y) as ->.
  { pose proof (month_start_bounds m y Hm). apply (days_before_unique n); lia. }
  replace (k + 1) with (month_start m y - month_start 1 y + d) by (rewrite month_start_1; lia).
  rewrite (fromdate_month_spec 12 1 m d y) by (cbn; lia).
  destruct (Z.eqb_spec n int_nil); [contradiction|reflexivity].
Qed.

(** Every day number has such a decomposition. *)
Lemma date_exists n : exists y m d,
  n = days_before y + month_start m y + d - 1 /\ 1 <= m <= 12 /\ 1 <= d <= MONTHDAYS m y.
Proof.
  pose proof (fromdate_year n) as Y. cbv zeta in Y.
  destruct (if n <? 0 then _ else _) as [y k]. destruct Y as [Hk Hb].
  destruct (month_exists y k Hb) as (m & d & Hm & Hd & E).
  exists y, m, d. lia.
Qed.

(** ** Properties of the conversions *)

(** The dates computed once by [date_prelude]. *)
Definition DATE_MAX : Z := todate 31 12 YEAR_MAX.
Definition DATE_MIN : Z := todate 1 1 YEAR_MIN.

(** Every date but the 29th of February of a year before the common era:
    there the validity test and the day count disagree on leap years. *)
Definition regular (d m y : Z) : Prop := 0 < y \/ ~ (m = 2 /\ d = 29).

Lemma regular_days d m y : DATE d m y = true -> regular d m y ->
  1 <= m <= 12 /\ 1 <= d <= MONTHDAYS m (astro y).
Proof.
  intros H R. apply DATE_spec in H. destruct H as (Hm & Hd & Hy & _). split; [exact Hm|].
  unfold MONTHDAYS in *. unfold astro. destruct (Z.eqb_spec m 2); cbn [negb] in *; [|exact Hd].
  destruct (Z.ltb_spec y 0); [|exact Hd].
  destruct (leapyear y), (leapyear (y + 1)); unfold regular in R; lia.
Qed.

Lemma todate_bounds_aux d m y : DATE d m y = true -> DATE_MIN <= todate d m y <= DATE_MAX.
Proof.
  intros H. rewrite (todate_spec d m y H). pose proof H as H0.
  apply DATE_spec in H0. destruct H0 as (Hm & Hd & Hy & Hr). unfold YEAR_MAX in Hr.
  pose proof (month_start_bounds m (astro y) Hm) as [Hs He].
  assert (d <= MONTHDAYS m (astro y) + 1) as Hd1.
  { unfold MONTHDAYS in *. destruct (leapyear y), (leapyear (astro y)), (negb (m =? 2)); lia. }
  assert (- 5867410 <= astro y <= 5867411) as Ha by (unfold astro; ztests).
  change DATE_MIN with (days_before (- 5867410)).
  change DATE_MAX with (days_before 5867412 - 1).
  pose proof (days_before_le (-5867410) (astro y - - 5867410) ltac:(lia)) as L1.
  rewrite Z.add_comm, Z.sub_add in L1.
  pose proof (days_before_lt (astro y) 5867412 ltac:(lia)) as L2.
  destruct (Z.le_gt_cases d (MONTHDAYS m (astro y))); [lia|].
  assert (m = 2 /\ d = 29) as [-> ->].
  { unfold MONTHDAYS in *. destruct (leapyear y), (leapyear (astro y)), (Z.eqb_spec m 2);
    cbn [negb] in *; try lia. }
  unfold month_start in *. change (CUMDAYS (2 - 1)) with 31. cbn [andb] in *.
  pose proof (YEARDAYS_bounds (astro y)). cbn in *. lia.
Qed.

Lemma fromdate_todate_aux d m y :
  DATE d m y = true -> regular d m y -> fromdate (todate d m y) = (d, m, y).
Proof.
  intros H R. destruct (regular_days d m y H R) as [Hm Hd].
  pose proof (todate_bounds_aux d m y H) as B.
  rewrite (fromdate_spec _ (astro y) m d).
  - rewrite hide_astro; [reflexivity|]. apply DATE_spec in H. tauto.
  - intros E. rewrite E in B. revert B. vm_compute. intros [F _]. now apply F.
  - apply todate_spec, H.
  - exact Hm.
  - exact Hd.
Qed.

(** C27: Round trip: splitting the day number of a valid date gives the date
    back, over the whole range of years, except for the 29th of February of
    years before the common era. *)
Theorem fromdate_todate d m y :
  DATE d m y = true -> regular d m y -> fromdate (todate d m y) = (d, m, y).
Proof. apply fromdate_todate_aux. Qed.

Lemma fromdate_todate_witness : fromdate (todate 29 2 2012) = (29, 2, 2012).
Proof. apply (fromdate_todate 29 2 2012); [reflexivity|left; lia]. Defined.

(** The year before a leap year is none. *)
Lemma leapyear_before y : leapyear y = true -> leapyear (y - 1) = false.
Proof. rewrite !leapyear_mod, !andb_true_iff, andb_false_iff, Z.eqb_eq, Z.eqb_neq. intros [H _]. left. divlia. Qed.

Lemma todate_fromdate_aux n d m y :
  DATE_MIN <= n <= DATE_MAX -> fromdate n = (d, m, y) ->
  todate d m y = if (y <=? 0) && (m =? 2) && (d =? 29) then date_nil else n.
Proof.
  intros Hn E. destruct (date_exists n) as (Y & m' & d' & En & Hm & Hd).
  change DATE_MIN with (days_before (- 5867410)) in Hn.
  change DATE_MAX with (days_before 5867412 - 1) in Hn.
  assert (n <> int_nil) as Hnil by (intros ->; revert Hn; vm_compute; intros [F _]; now apply F).
  rewrite (fromdate_spec n Y m' d' Hnil En Hm Hd) in E. injection E as -> -> <-.
  pose proof (month_start_bounds m Y Hm).
  assert (- 5867410 <= Y <= 5867411) as HY.
  { destruct (Z.lt_ge_cases Y (- 5867410)) as [L|L]; [apply days_before_lt in L; lia|].
    destruct (Z.lt_ge_cases 5867411 Y) as [L'|L']; [|lia].
    pose proof (days_before_le 5867412 (Y - 5867412) ltac:(lia)) as L2.
    rewrite Z.add_comm, Z.sub_add in L2. lia. }
  destruct ((hide_zero Y <=? 0) && (m =? 2) && (d =? 29)) eqn:L.
  - rewrite !andb_true_iff, Z.leb_le, !Z.eqb_eq in L. destruct L as ((L & ->) & ->).
    unfold MONTHDAYS in Hd. cbn [Z.eqb Pos.eqb negb] in Hd. destruct (leapyear Y) eqn:Ly; [|lia].
    unfold todate. replace (DATE 29 2 (hide_zero Y)) with false; [reflexivity|].
    symmetry. apply not_true_iff_false. rewrite DATE_spec. unfold MONTHDAYS, hide_zero in *.
    cbn [Z.eqb Pos.eqb negb]. destruct (Z.leb_spec Y 0); [|lia]. rewrite leapyear_before by exact Ly. lia.
  - rewrite !andb_false_iff, Z.leb_gt, !Z.eqb_neq in L.
    rewrite todate_spec; [rewrite astro_hide; lia|].
    apply DATE_spec. unfold YEAR_MAX. repeat split; try lia; try solve [unfold hide_zero; ztests].
    unfold hide_zero, MONTHDAYS in *. destruct (Z.eqb_spec m 2) as [->|]; cbn [negb] in *; [|lia].
    destruct (Z.leb_spec Y 0); [|lia]. destruct (leapyear Y), (leapyear (Y - 1)); lia.
Qed.

(** C28: Round trip in the other direction: composing the parts of any day
    number between [DATE_MIN] and [DATE_MAX] gives that day number, unless the
    parts are the 29th of February of a year before the common era: these parts
    are rejected, and the result is nil. *)
Theorem todate_fromdate n d m y :
  DATE_MIN <= n <= DATE_MAX -> fromdate n = (d, m, y) ->
  todate d m y = if (y <=? 0) && (m =? 2) && (d =? 29) then date_nil else n.
Proof. apply todate_fromdate_aux. Qed.

Lemma todate_fromdate_witness : todate 14 5 2013 = 735367.
Proof.
  apply (todate_fromdate 735367 14 5 2013); [|reflexivity].
  vm_compute. split; discriminate.
Defined.

(** Bounds: the day number of every valid date lies between [DATE_MIN] and
    [DATE_MAX], strictly inside the 32-bit range and apart from nil, so
    neither the additions of [todate] overflow nor does a date look like
    nil. *)
Theorem todate_bounds d m y : DATE d m y = true ->
  DATE_MIN <= todate d m y <= DATE_MAX /\ int_nil < DATE_MIN /\ DATE_MAX < 2 ^ 31.
Proof.
  intros H. split; [apply todate_bounds_aux, H|split; vm_compute; reflexivity].
Qed.

Lemma todate_bounds_witness : DATE_MIN <= todate 1 1 1 <= DATE_MAX /\ int_nil < DATE_MIN /\ DATE_MAX < 2 ^ 31.
Proof. apply (todate_bounds 1 1 1). reflexivity. Defined.

Lemma fromdate_inv n d m y : n <> int_nil -> fromdate n = (d, m, y) ->
  1 <= m <= 12 /\ 1 <= d <= MONTHDAYS m (astro y) /\ y <> 0 /\
  n = days_before (astro y) + month_start m (astro y) + d - 1.
Proof.
  intros Hn. destruct (date_exists n) as (Y & m' & d' & E & Hm & Hd).
  rewrite (fromdate_spec n Y m' d' Hn E Hm Hd). intros F. injection F as <- <- <-.
  rewrite astro_hide. repeat split; try lia. unfold hide_zero. ztests.
Qed.

(** Every day number except nil splits into a month between 1 and 12, a
    day that month has, and a year other than 0, and these parts denote that
    day number; the year loops and the month loop of [fromdate] always
    terminate with them. *)
Theorem fromdate_valid n : n <> int_nil ->
  let '(d, m, y) := fromdate n in
  1 <= m <= 12 /\ 1 <= d <= MONTHDAYS m (astro y) /\ y <> 0 /\
  n = days_before (astro y) + month_start m (astro y) + d - 1.
Proof.
  intros Hn. destruct (fromdate n) as [[d m] y] eqn:E. apply fromdate_inv; assumption.
Qed.

Lemma fromdate_valid_witness : let '(d, m, y) := fromdate (-1) in
  1 <= m <= 12 /\ 1 <= d <= MONTHDAYS m (astro y) /\ y <> 0 /\
  -1 = days_before (astro y) + month_start m (astro y) + d - 1.
Proof. apply (fromdate_valid (-1)). discriminate. Defined.

Lemma month_start_mono y m1 m2 : 1 <= m1 -> m1 < m2 <= 12 ->
  month_start m1 y + MONTHDAYS m1 y <= month_start m2 y.
Proof.
  intros H1 H2. rewrite <- month_start_succ by lia.
  replace m2 with (m1 + 1 + Z.of_nat (Z.to_nat (m2 - (m1 + 1)))) by lia.
  apply month_start_le; lia.
Qed.

(** Chronological order on (day, month, year). *)
Definition date_lt (d1 m1 y1 d2 m2 y2 : Z) : Prop :=
  y1 < y2 \/ (y1 = y2 /\ (m1 < m2 \/ (m1 = m2 /\ d1 < d2))).

Lemma todate_lt d1 m1 y1 d2 m2 y2 :
  DATE d1 m1 y1 = true -> DATE d2 m2 y2 = true -> regular d1 m1 y1 -> regular d2 m2 y2 ->
  date_lt d1 m1 y1 d2 m2 y2 -> todate d1 m1 y1 < todate d2 m2 y2.
Proof.
  intros H1 H2 R1 R2 L. rewrite !todate_spec by assumption.
  destruct (regular_days _ _ _ H1 R1) as [Hm1 Hd1], (regular_days _ _ _ H2 R2) as [Hm2 Hd2].
  apply DATE_spec in H1, H2.
  pose proof (month_start_bounds m1 (astro y1) Hm1). pose proof (month_start_bounds m2 (astro y2) Hm2).
  destruct L as [L|[-> [L| [-> L]]]].
  - assert (astro y1 < astro y2) as A by (unfold astro; ztests).
    apply days_before_lt in A. lia.
  - pose proof (month_start_mono (astro y2) m1 m2 ltac:(lia) ltac:(lia)). lia.
  - lia.
Qed.

(** Day numbers order dates chronologically: comparing two date atoms as
    integers is comparing year, month and day. *)
Theorem todate_order d1 m1 y1 d2 m2 y2 :
  DATE d1 m1 y1 = true -> DATE d2 m2 y2 = true -> regular d1 m1 y1 -> regular d2 m2 y2 ->
  (todate d1 m1 y1 < todate d2 m2 y2 <-> date_lt d1 m1 y1 d2 m2 y2).
Proof.
  intros H1 H2 R1 R2. split; [|apply todate_lt; assumption].
  intros L. destruct (Z.lt_trichotomy y1 y2) as [|[E|]]; [left; assumption| |].
  2: { pose proof (todate_lt d2 m2 y2 d1 m1 y1 H2 H1 R2 R1 ltac:(left; assumption)). lia. }
  destruct (Z.lt_trichotomy m1 m2) as [|[E'|]]; [right; tauto| |].
  2: { pose proof (todate_lt d2 m2 y2 d1 m1 y1 H2 H1 R2 R1 ltac:(right; split; [lia|left; lia])). lia. }
  destruct (Z.lt_ge_cases d1 d2) as [|E'']; [right; lia|].
  destruct (Z.eq_dec d1 d2); [subst; lia|].
  pose proof (todate_lt d2 m2 y2 d1 m1 y1 H2 H1 R2 R1 ltac:(right; split; [lia|right; lia])). lia.
Qed.

Lemma todate_order_witness : todate 31 12 (-1) < todate 1 1 1.
Proof.
  apply (proj2 (todate_order 31 12 (-1) 1 1 1 eq_refl eq_refl ltac:(right; lia) ltac:(left; lia))).
  left; lia.
Defined.

(** The validity test [DATE] applies the leap-year rule to the year as
    written, the day count to the year before 0 is skipped: the leap day of
    year -1 exists as a day number but is rejected as a date, and the leap
    day [DATE] accepts in year -4 is the first of March. *)
Theorem leap_day_before_common_era :
  fromdate 59 = (29, 2, -1) /\ DATE 29 2 (-1) = false /\ todate 29 2 (-1) = date_nil /\
  DATE 29 2 (-4) = true /\ todate 29 2 (-4) = todate 1 3 (-4).
Proof. repeat split; reflexivity. Qed.
