(* ===== verification/DateArith.v ===== *)
(** * Date, daytime and timestamp arithmetic of the [mtime] module

    Models the operators of src/src/monetdb5/modules/atoms/mtime.c that
    compute with dates ([date_adddays], [date_addmonths],
    [MTIMEdate_addyears], the extraction functions), with times of day
    ([totime], [fromtime]) and with timestamps ([MTIMEtimestamp_add],
    [MTIMEtimestamp_diff]).  Integer results that may leave the width of
    their C type are wrapped explicitly with [i32] or [i64]. *)

From Stdlib Require Import ZArith Lia Bool List.
Import ListNotations.
From S2P Require Import Prelude Calendar.

(** ** Time of day *)

Definition totime (hour min sec msec : Z) : Z :=
  if TIME hour min sec msec then ((hour * 60 + min) * 60 + sec) * 1000 + msec
  else daytime_nil.

Definition fromtime (n : Z) : Z * Z * Z * Z :=
  if negb (n =? int_nil) then
    let hour := Z.quot n 3600000 in
    let n := n - hour * 3600000 in
    let min := Z.quot n 60000 in
    let n := n - min * 60000 in
    let sec := Z.quot n 1000 in
    let n := n - sec * 1000 in
    (hour, min, sec, n)
  else (int_nil, int_nil, int_nil, int_nil).

Definition daytime_add (v msec : Z) : Z :=
  if v =? daytime_nil then int_nil else i32 (v + i32 msec).

Definition daytime_extract_hours (v : Z) : Z :=
  if v =? daytime_nil then int_nil else let '(h, _, _, _) := fromtime v in h.
Definition daytime_extract_minutes (v : Z) : Z :=
  if v =? daytime_nil then int_nil else let '(_, m, _, _) := fromtime v in m.
Definition daytime_extract_seconds (v : Z) : Z :=
  if v =? daytime_nil then int_nil else let '(_, _, s, _) := fromtime v in s.
Definition daytime_extract_sql_seconds (v : Z) : Z :=
  if v =? daytime_nil then int_nil
  else let '(_, _, sec, milli) := fromtime v in sec * 1000 + milli.
Definition daytime_extract_milliseconds (v : Z) : Z :=
  if v =? daytime_nil then int_nil else let '(_, _, _, x) := fromtime v in x.

(** ** Parts of a date *)

Definition date_extract_year (v : Z) : Z :=
  if v =? date_nil then int_nil else let '(_, _, y) := fromdate v in y.
Definition date_extract_month (v : Z) : Z :=
  if v =? date_nil then int_nil else let '(_, m, _) := fromdate v in m.
Definition date_extract_day (v : Z) : Z :=
  if v =? date_nil then int_nil else let '(d, _, _) := fromdate v in d.

Definition date_dayofweek (v : Z) : Z :=
  let v := Z.rem v 7 in
  if v <=? 0 then v + 7 else v.
Definition date_extract_dayofweek (v : Z) : Z :=
  if v =? date_nil then int_nil else date_dayofweek v.

Definition date_extract_dayofyear (v : Z) : Z :=
  if v =? date_nil then int_nil
  else let '(_, _, year) := fromdate v in i32 (1 + v - todate 1 1 year).

(** The C function calls itself on the last day of the previous year; [None]
    is a recursion deeper than [fuel]. *)
Fixpoint date_extract_weekofyear (fuel : nat) (v : Z) : option Z :=
  match fuel with
  | O => None
  | S fuel =>
      if v =? date_nil then Some int_nil
      else
        let '(_, _, year) := fromdate v in
        let year_jan_1 := todate 1 1 year in
        let dayofweek := date_dayofweek year_jan_1 in
        let since := i32 (v - year_jan_1) in
        if dayofweek <=? 4 then Some (1 + Z.quot (since + dayofweek - 1) 7)
        else if 7 - dayofweek <? since then Some (Z.quot (since + dayofweek - 1) 7)
        else date_extract_weekofyear fuel (todate 31 12 (if year =? 1 then -1 else year - 1))
  end.

(** ** Moving a date *)

Definition date_adddays (v delta : Z) : Z :=
  let min := DATE_MIN in
  let max := DATE_MAX in
  if (v =? int_nil) || (delta =? int_nil) ||
     ((0 <? delta) && (max - v <? delta)) || ((delta <? 0) && (delta <? min - v))
  then date_nil
  else i32 (v + delta).

Fixpoint addmonths_up (z : nat) (ret m y : Z) : Z :=
  match z with
  | O => ret
  | S z =>
      let x := MONTHDAYS m y in
      let '(m, y) := if m + 1 =? 13 then (1, y + 1) else (m + 1, y) in
      addmonths_up z (date_adddays ret x) m y
  end.

Fixpoint addmonths_down (z : nat) (ret m y : Z) : Z :=
  match z with
  | O => ret
  | S z =>
      let '(m, y) := if m - 1 =? 0 then (12, y - 1) else (m - 1, y) in
      let x := - MONTHDAYS m y in
      addmonths_down z (date_adddays ret x) m y
  end.

Definition date_addmonths (v delta : Z) : Z :=
  if (v =? date_nil) || (delta =? int_nil) then date_nil
  else
    let '(d, m, y) := fromdate v in
    if 0 <? delta then addmonths_up (Z.to_nat delta) v m y
    else addmonths_down (Z.to_nat (- delta)) v m y.

Fixpoint addyears_up (z : nat) (ret y : Z) : Z :=
  match z with
  | O => ret
  | S z => addyears_up z (date_adddays ret (YEARDAYS y)) (y + 1)
  end.

Fixpoint addyears_down (z : nat) (ret y : Z) : Z :=
  match z with
  | O => ret
  | S z =>
      let y := y - 1 in
      addyears_down z (date_adddays ret (- YEARDAYS y)) y
  end.

Definition MTIMEdate_addyears (v delta : Z) : Z :=
  if (v =? date_nil) || (delta =? int_nil) then date_nil
  else
    let '(d, m, y) := fromdate v in
    let y := if 3 <=? m then y + 1 else y in
    if 0 <? delta then addyears_up (Z.to_nat delta) v y
    else addyears_down (Z.to_nat (- delta)) v y.

Definition MTIMEdate_diff (v1 v2 : Z) : Z :=
  if (v1 =? date_nil) || (v2 =? date_nil) then int_nil else i32 (v1 - v2).

(** The four interval operators write their result only for a positive
    interval; [None] is a call that leaves [*ret] as it was. *)
Definition MTIMEdate_sub_sec_interval_wrap (t sec : Z) : option Z :=
  if 0 <? sec then let delta := - Z.quot sec 86400 in Some (date_adddays t delta) else None.
Definition MTIMEdate_sub_msec_interval_lng_wrap (t msec : Z) : option Z :=
  if 0 <? msec then let delta := i32 (- Z.quot msec 86400000) in Some (date_adddays t delta)
  else None.
Definition MTIMEdate_add_sec_interval_wrap (t sec : Z) : option Z :=
  if 0 <? sec then let delta := Z.quot sec 86400 in Some (date_adddays t delta) else None.
Definition MTIMEdate_add_msec_interval_lng_wrap (t msec : Z) : option Z :=
  if 0 <? msec then let delta := i32 (Z.quot msec 86400000) in Some (date_adddays t delta)
  else None.

(** ** Timestamps *)

Record timestamp := mk_ts { msecs : Z; days : Z }.

(** The union that overlays a timestamp with [lng_nil] on a little-endian
    machine. *)
Definition timestamp_nil : timestamp := mk_ts 0 (- 2147483648).

Definition ts_eqb (a b : timestamp) : bool := (msecs a =? msecs b) && (days a =? days b).
Definition ts_isnil (t : timestamp) : bool :=
  (days t =? days timestamp_nil) && (msecs t =? msecs timestamp_nil).

Definition DAY_MSECS : Z := 24 * 60 * 60 * 1000.

Definition MTIMEtimestamp_add (v : timestamp) (ms : Z) : timestamp :=
  if negb (ts_isnil v) && negb (ms =? lng_nil) then
    let dd := i32 (Z.quot ms DAY_MSECS) in
    let m := i32 (i64 (msecs v + i64 (ms - dd * DAY_MSECS))) in
    let '(dd, m) :=
      if DAY_MSECS <=? m then (dd + 1, m - DAY_MSECS)
      else if m <? 0 then (dd - 1, m + DAY_MSECS)
      else (dd, m) in
    if negb (dd =? 0) then
      let d := date_adddays (days v) (i32 dd) in
      if d =? int_nil then timestamp_nil else mk_ts m d
    else mk_ts m (days v)
  else timestamp_nil.

Definition MTIMEtimestamp_diff (v1 v2 : timestamp) : Z :=
  if ts_isnil v1 || ts_isnil v2 then lng_nil
  else i64 (i32 (days v1 - days v2) * DAY_MSECS + i32 (msecs v1 - msecs v2)).

Definition MTIMEtimestamp_sub_msec_interval_lng_wrap (t : timestamp) (msec : Z) : timestamp :=
  let Msec := i64 (msec * -1) in
  MTIMEtimestamp_add t Msec.

(** ** Properties of the time of day *)

Lemma TIME_spec h m s x : TIME h m s x = true <->
  0 <= h < 24 /\ 0 <= m < 60 /\ 0 <= s < 60 /\ 0 <= x < 1000.
Proof. unfold TIME. rewrite !andb_true_iff, !Z.ltb_lt, !Z.leb_le. lia. Qed.

(** Numbers of milliseconds that are a time of day. *)
Definition daytime_ok (t : Z) : Prop := 0 <= t < DAY_MSECS.

Lemma fromtime_parts n : daytime_ok n ->
  let '(h, m, s, x) := fromtime n in TIME h m s x = true /\ totime h m s x = n.
Proof.
  unfold daytime_ok, DAY_MSECS, fromtime, int_nil. intros Hn.
  destruct (Z.eqb_spec n (- 2147483648)); [lia|]. cbn [negb]. cbv zeta.
  set (h := Z.quot n 3600000). set (m := Z.quot (n - h * 3600000) 60000).
  set (s := Z.quot (n - h * 3600000 - m * 60000) 1000).
  assert (0 <= n - h * 3600000 < 3600000 /\ 0 <= h < 24) as [Hh Hh'] by (unfold h; divlia).
  assert (0 <= n - h * 3600000 - m * 60000 < 60000 /\ 0 <= m < 60) as [Hm Hm'] by (unfold m; divlia).
  assert (0 <= n - h * 3600000 - m * 60000 - s * 1000 < 1000 /\ 0 <= s < 60) as [Hs Hs']
    by (unfold s; divlia).
  assert (TIME h m s (n - h * 3600000 - m * 60000 - s * 1000) = true) as T by (apply TIME_spec; lia).
  split; [exact T|]. unfold totime. rewrite T. lia.
Qed.

(** Times of day: the valid (hour, minute, second, millisecond) tuples and
    the integers from 0 to 86399999 are in bijection through [totime] and
    [fromtime]. *)
Theorem daytime_bijection :
  (forall h m s x, TIME h m s x = true ->
     daytime_ok (totime h m s x) /\ fromtime (totime h m s x) = (h, m, s, x)) /\
  (forall n, daytime_ok n ->
     let '(h, m, s, x) := fromtime n in TIME h m s x = true /\ totime h m s x = n).
Proof.
  split; [|exact fromtime_parts]. intros h m s x T.
  unfold totime. rewrite T. apply TIME_spec in T. unfold daytime_ok, DAY_MSECS. split; [lia|].
  unfold fromtime, int_nil. destruct (Z.eqb_spec (((h * 60 + m) * 60 + s) * 1000 + x) (-2147483648)); [lia|].
  cbn [negb]. cbv zeta.
  assert (Z.quot (((h * 60 + m) * 60 + s) * 1000 + x) 3600000 = h) as -> by divlia.
  assert (Z.quot (((h * 60 + m) * 60 + s) * 1000 + x - h * 3600000) 60000 = m) as -> by divlia.
  assert (Z.quot (((h * 60 + m) * 60 + s) * 1000 + x - h * 3600000 - m * 60000) 1000 = s) as -> by divlia.
  f_equal. lia.
Qed.

(** ** Properties of the date operators *)

Lemma DATE_MIN_value : DATE_MIN = -2143027496.
Proof. reflexivity. Qed.
Lemma DATE_MAX_value : DATE_MAX = 2143028226.
Proof. reflexivity. Qed.

Definition date_ok (v : Z) : Prop := DATE_MIN <= v <= DATE_MAX.

Ltac date_limits :=
  unfold date_ok, date_nil, daytime_nil, int_nil in *;
  rewrite ?DATE_MIN_value, ?DATE_MAX_value in *.

(** Both outcomes of [date_adddays] from a date in range. *)
Lemma date_adddays_spec v delta : date_ok v -> delta <> int_nil ->
  date_adddays v delta =
    if (DATE_MIN <=? v + delta) && (v + delta <=? DATE_MAX) then v + delta else date_nil.
Proof.
  intros Hv Hd. unfold date_adddays. date_limits.
  rewrite (proj2 (Z.eqb_neq v _)), (proj2 (Z.eqb_neq delta _)) by lia. cbn [orb].
  destruct (Z.leb_spec (-2143027496) (v + delta)), (Z.leb_spec (v + delta) 2143028226),
    (Z.ltb_spec 0 delta), (Z.ltb_spec (2143028226 - v) delta), (Z.ltb_spec delta 0),
    (Z.ltb_spec delta (-2143027496 - v)); cbn [andb orb]; try lia; try reflexivity;
    apply i32_id; lia.
Qed.

Lemma date_adddays_in v delta :
  date_ok v -> date_ok (v + delta) -> -366 <= delta <= 366 ->
  date_adddays v delta = v + delta.
Proof.
  intros Hv Hd Hs. rewrite date_adddays_spec; [|exact Hv|unfold int_nil; lia].
  unfold date_ok in Hd. rewrite !(proj2 (Z.leb_le _ _)) by lia. reflexivity.
Qed.

(** Day number of the first of a month, for a year not shifted by the
    missing year 0. *)
Definition month_first (m y : Z) : Z := days_before y + month_start m y.

(** Step to the next and the previous month. *)
Lemma month_first_next m y : 1 <= m <= 12 ->
  let '(m', y') := if m + 1 =? 13 then (1, y + 1) else (m + 1, y) in
  1 <= m' <= 12 /\ 12 * y' + m' = 12 * y + m + 1 /\
  month_first m' y' = month_first m y + MONTHDAYS m y.
Proof.
  intros Hm. unfold month_first. pose proof (month_start_succ m y Hm) as E.
  destruct (Z.eqb_spec (m + 1) 13) as [H|H].
  - rewrite H, month_start_13 in E. rewrite days_before_succ, month_start_1. lia.
  - rewrite E. lia.
Qed.

Lemma month_first_prev m y : 1 <= m <= 12 ->
  let '(m', y') := if m - 1 =? 0 then (12, y - 1) else (m - 1, y) in
  1 <= m' <= 12 /\ 12 * y' + m' = 12 * y + m - 1 /\
  month_first m y = month_first m' y' + MONTHDAYS m' y'.
Proof.
  intros Hm. unfold month_first.
  destruct (Z.eqb_spec (m - 1) 0) as [H|H].
  - assert (m = 1) as -> by lia. rewrite month_start_1.
    pose proof (month_start_succ 12 (y - 1) ltac:(lia)) as E.
    change (12 + 1) with 13 in E. rewrite month_start_13 in E.
    pose proof (days_before_succ (y - 1)) as D. rewrite Z.sub_add in D. lia.
  - pose proof (month_start_succ (m - 1) y ltac:(lia)) as E. rewrite Z.sub_add in E. lia.
Qed.

Lemma month_first_mono m y m' y' : 1 <= m <= 12 -> 1 <= m' <= 12 ->
  12 * y + m <= 12 * y' + m' -> month_first m y <= month_first m' y'.
Proof.
  intros Hm Hm' L. unfold month_first.
  pose proof (month_start_bounds m y Hm). pose proof (month_start_bounds m' y' Hm').
  pose proof (MONTHDAYS_bounds m y Hm).
  destruct (Z.lt_ge_cases y y') as [C|C]; [apply days_before_lt in C; lia|].
  assert (y = y') as -> by lia. destruct (Z.eq_dec m m') as [->|]; [lia|].
  pose proof (month_start_mono y' m m' ltac:(lia) ltac:(lia)). lia.
Qed.

Lemma addmonths_up_spec z : forall ret m y m' y',
  1 <= m <= 12 -> 1 <= m' <= 12 -> 12 * y' + m' = 12 * y + m + Z.of_nat z ->
  date_ok ret -> date_ok (ret + (month_first m' y' - month_first m y)) ->
  addmonths_up z ret m y = ret + (month_first m' y' - month_first m y).
Proof.
  induction z as [|z IH]; intros ret m y m' y' Hm Hm' E Hr Ht; cbn [addmonths_up].
  - assert (m' = m /\ y' = y) as [-> ->] by lia. lia.
  - pose proof (month_first_next m y Hm) as N.
    destruct (if m + 1 =? 13 then _ else _) as [m1 y1]. destruct N as (Hm1 & E1 & F).
    pose proof (MONTHDAYS_bounds m y Hm).
    pose proof (month_first_mono m1 y1 m' y' Hm1 Hm' ltac:(lia)) as M.
    rewrite date_adddays_in; [|exact Hr|unfold date_ok in *; lia|lia].
    rewrite (IH _ m1 y1 m' y'); unfold date_ok in *; lia.
Qed.

Lemma addmonths_down_spec z : forall ret m y m' y',
  1 <= m <= 12 -> 1 <= m' <= 12 -> 12 * y' + m' = 12 * y + m - Z.of_nat z ->
  date_ok ret -> date_ok (ret + (month_first m' y' - month_first m y)) ->
  addmonths_down z ret m y = ret + (month_first m' y' - month_first m y).
Proof.
  induction z as [|z IH]; intros ret m y m' y' Hm Hm' E Hr Ht; cbn [addmonths_down].
  - assert (m' = m /\ y' = y) as [-> ->] by lia. lia.
  - pose proof (month_first_prev m y Hm) as N.
    destruct (if m - 1 =? 0 then _ else _) as [m1 y1]. destruct N as (Hm1 & E1 & F).
    pose proof (MONTHDAYS_bounds m1 y1 Hm1).
    pose proof (month_first_mono m' y' m1 y1 Hm' Hm1 ltac:(lia)) as M.
    rewrite date_adddays_in; [|exact Hr|unfold date_ok in *; lia|lia].
    rewrite (IH _ m1 y1 m' y'); unfold date_ok in *; lia.
Qed.

(** A common-era date and its day number. *)
Lemma todate_ce d m y : DATE d m y = true -> 0 < y ->
  todate d m y = month_first m y + d - 1 /\ date_ok (todate d m y) /\
  1 <= m <= 12 /\ fromdate (todate d m y) = (d, m, y).
Proof.
  intros H Hy. repeat split.
  - rewrite todate_spec by exact H. unfold month_first, astro. ztests.
  - apply todate_bounds_aux, H.
  - apply todate_bounds_aux, H.
  - apply DATE_spec in H; lia.
  - apply DATE_spec in H; lia.
  - apply fromdate_todate_aux; [exact H|left; exact Hy].
Qed.

(** Adding months to a common-era date keeps the day of the month whenever
    the target month has that day: the month counter advances by exactly
    [delta], across year ends and in both directions. *)
Theorem date_addmonths_spec d m y m' y' delta :
  DATE d m y = true -> 0 < y -> DATE d m' y' = true -> 0 < y' ->
  12 * y' + m' = 12 * y + m + delta ->
  date_addmonths (todate d m y) delta = todate d m' y'.
Proof.
  intros H Hy H' Hy' E.
  destruct (todate_ce d m y H Hy) as (T & O & Hm & F).
  destruct (todate_ce d m' y' H' Hy') as (T' & O' & Hm' & _).
  assert (todate d m' y' = todate d m y + (month_first m' y' - month_first m y)) as G by lia.
  apply DATE_spec in H, H'. unfold YEAR_MAX in *.
  unfold date_addmonths. rewrite F, G. rewrite G in O'.
  destruct (Z.eqb_spec (todate d m y) date_nil) as [N|N]; [date_limits; lia|].
  destruct (Z.eqb_spec delta int_nil) as [N'|N']; [unfold int_nil in N'; lia|]. cbn [orb].
  destruct (Z.ltb_spec 0 delta);
    [apply addmonths_up_spec|apply addmonths_down_spec]; try assumption; lia.
Qed.

Lemma date_addmonths_spec_witness : date_addmonths (todate 15 11 2012) 4 = todate 15 3 2013.
Proof. apply (date_addmonths_spec 15 11 2012 3 2013 4); reflexivity || lia. Defined.

Lemma addyears_up_spec z : forall ret y,
  date_ok ret -> date_ok (ret + (days_before (y + Z.of_nat z) - days_before y)) ->
  addyears_up z ret y = ret + (days_before (y + Z.of_nat z) - days_before y).
Proof.
  induction z as [|z IH]; intros ret y Hr Ht; cbn [addyears_up].
  - rewrite Z.add_0_r. lia.
  - replace (y + Z.of_nat (S z)) with (y + 1 + Z.of_nat z) in * by lia.
    pose proof (days_before_le (y + 1) (Z.of_nat z) ltac:(lia)) as M.
    pose proof (days_before_succ y) as D. pose proof (YEARDAYS_bounds y).
    rewrite date_adddays_in; [|exact Hr|unfold date_ok in *; lia|lia].
    rewrite IH; unfold date_ok in *; lia.
Qed.

Lemma addyears_down_spec z : forall ret y,
  date_ok ret -> date_ok (ret + (days_before (y - Z.of_nat z) - days_before y)) ->
  addyears_down z ret y = ret + (days_before (y - Z.of_nat z) - days_before y).
Proof.
  induction z as [|z IH]; intros ret y Hr Ht; cbn [addyears_down].
  - rewrite Z.sub_0_r. lia.
  - replace (y - Z.of_nat (S z)) with (y - 1 - Z.of_nat z) in * by lia.
    pose proof (days_before_le (y - 1 - Z.of_nat z) (Z.of_nat z) ltac:(lia)) as M.
    rewrite Z.sub_add in M.
    pose proof (days_before_succ (y - 1)) as D. rewrite Z.sub_add in D.
    pose proof (YEARDAYS_bounds (y - 1)).
    rewrite date_adddays_in; [|exact Hr|unfold date_ok in *; lia|lia].
    rewrite IH; unfold date_ok in *; lia.
Qed.

(** From the third month on, the leap day that a year's step crosses is the
    next year's. *)
Lemma month_first_year d m y : 1 <= m <= 12 ->
  let s := if 3 <=? m then y + 1 else y in
  month_first m y + d - 1 = days_before s + (CUMDAYS (m - 1) + (if 3 <=? m then -365 else 0) + d - 1).
Proof.
  intros Hm. cbv zeta. unfold month_first, month_start.
  destruct (Z.leb_spec 3 m).
  - rewrite days_before_succ. unfold YEARDAYS.
    destruct (Z.ltb_spec 2 m); [|lia]. cbn [andb]. destruct (leapyear y); lia.
  - destruct (Z.ltb_spec 2 m); [lia|]. cbn [andb]. lia.
Qed.

(** Adding years to a common-era date keeps day and month whenever the
    date exists in the target year. *)
Theorem MTIMEdate_addyears_spec d m y delta :
  DATE d m y = true -> 0 < y -> DATE d m (y + delta) = true -> 0 < y + delta ->
  MTIMEdate_addyears (todate d m y) delta = todate d m (y + delta).
Proof.
  intros H Hy H' Hy'.
  destruct (todate_ce d m y H Hy) as (T & O & Hm & F).
  destruct (todate_ce d m (y + delta) H' Hy') as (T' & O' & _ & _).
  pose proof (month_first_year d m y Hm) as G. pose proof (month_first_year d m (y + delta) Hm) as G'.
  apply DATE_spec in H, H'. unfold YEAR_MAX in *.
  unfold MTIMEdate_addyears. rewrite F. cbv zeta in G, G' |- *.
  set (s := if 3 <=? m then y + 1 else y) in *.
  assert ((if 3 <=? m then y + delta + 1 else y + delta) = s + delta) as Es
    by (unfold s; destruct (3 <=? m); lia).
  rewrite Es in G'.
  destruct (Z.eqb_spec (todate d m y) date_nil) as [N|N]; [date_limits; lia|].
  destruct (Z.eqb_spec delta int_nil) as [N'|N']; [unfold int_nil in N'; lia|]. cbn [orb].
  destruct (Z.ltb_spec 0 delta).
  - rewrite addyears_up_spec; replace (Z.of_nat (Z.to_nat delta)) with delta by lia;
      unfold date_ok in *; lia.
  - rewrite addyears_down_spec;
      replace (s - Z.of_nat (Z.to_nat (- delta))) with (s + delta) by lia;
      unfold date_ok in *; lia.
Qed.

Lemma MTIMEdate_addyears_spec_witness :
  MTIMEdate_addyears (todate 29 2 2012) (-4) = todate 29 2 2008.
Proof. apply (MTIMEdate_addyears_spec 29 2 2012 (-4)); reflexivity || lia. Defined.

Lemma dayofweek_range v : 1 <= date_dayofweek v <= 7.
Proof. unfold date_dayofweek. cbv zeta. ztests; divlia. Qed.

Lemma dayofweek_mod v : date_dayofweek v = (v - 1) mod 7 + 1.
Proof. unfold date_dayofweek. cbv zeta. ztests; divlia. Qed.

(** Days of the week: always between 1 and 7, and each next day has the
    next weekday, wrapping from 7 to 1, over negative day numbers too. *)
Theorem date_dayofweek_cycle v :
  1 <= date_dayofweek v <= 7 /\
  date_dayofweek (v + 1) = (if date_dayofweek v =? 7 then 1 else date_dayofweek v + 1).
Proof. rewrite !dayofweek_mod. ztests; divlia. Qed.

(** The first of January of the year a date lies in. *)
Lemma year_jan_1_spec v d m y : date_ok v -> fromdate v = (d, m, y) ->
  todate 1 1 y = days_before (astro y) /\ - YEAR_MAX <= y <= YEAR_MAX /\ y <> 0 /\
  0 <= v - days_before (astro y) < YEARDAYS (astro y).
Proof.
  intros Hv E. unfold date_ok in Hv.
  assert (v <> int_nil) as Hn by (date_limits; lia).
  destruct (fromdate_inv v d m y Hn E) as (Hm & Hd & Hy & Ev).
  pose proof (month_start_bounds m (astro y) Hm).
  assert (- 5867410 <= astro y <= 5867411) as Ha.
  { change DATE_MIN with (days_before (- 5867410)) in Hv.
    change DATE_MAX with (days_before 5867412 - 1) in Hv.
    destruct (Z.lt_ge_cases (astro y) (- 5867410)) as [L|L]; [apply days_before_lt in L; lia|].
    destruct (Z.lt_ge_cases 5867411 (astro y)) as [L'|L']; [|lia].
    pose proof (days_before_le 5867412 (astro y - 5867412) ltac:(lia)) as L2.
    rewrite Z.add_comm, Z.sub_add in L2. lia. }
  assert (- YEAR_MAX <= y <= YEAR_MAX) as Hr by (unfold YEAR_MAX, astro in *; ztests).
  repeat split; try lia. rewrite todate_spec; [rewrite month_start_1; lia|].
  apply DATE_spec. pose proof (MONTHDAYS_bounds 1 y). lia.
Qed.

(** The day number of January 1 stays within [YEARDAYS] of the date, so the
    subtraction does not overflow. *)
Lemma since_jan_1 v y : 0 <= v - days_before (astro y) < YEARDAYS (astro y) ->
  i32 (v - days_before (astro y)) = v - days_before (astro y).
Proof. intros H. pose proof (YEARDAYS_bounds (astro y)). apply i32_id. lia. Qed.

(** The day of the year counts from 1 on January 1 to 365, or 366 in a
    leap year, on December 31. *)
Theorem date_extract_dayofyear_range v d m y :
  date_ok v -> fromdate v = (d, m, y) ->
  date_extract_dayofyear v = month_start m (astro y) + d /\
  1 <= date_extract_dayofyear v <= YEARDAYS (astro y).
Proof.
  intros Hv E. pose proof (year_jan_1_spec v d m y Hv E) as (J & _ & _ & B).
  assert (v <> int_nil) as Hn by (date_limits; lia).
  destruct (fromdate_inv v d m y Hn E) as (_ & _ & _ & Ev).
  pose proof (YEARDAYS_bounds (astro y)).
  unfold date_extract_dayofyear. rewrite E, J, i32_id by lia.
  rewrite (proj2 (Z.eqb_neq v date_nil)) by exact Hn. lia.
Qed.

Lemma date_extract_dayofyear_range_witness :
  date_extract_dayofyear 735367 = month_start 5 (astro 2013) + 14 /\
  1 <= date_extract_dayofyear 735367 <= YEARDAYS (astro 2013).
Proof.
  apply (date_extract_dayofyear_range 735367 14 5 2013); [|reflexivity].
  vm_compute; split; discriminate.
Defined.

(** One level of [date_extract_weekofyear] away from the first days of a year
    whose January 1 belongs to the last week of the year before. *)
Lemma weekofyear_direct fuel v d m y : date_ok v -> fromdate v = (d, m, y) ->
  7 <= v - days_before (astro y) ->
  exists w, date_extract_weekofyear (S fuel) v = Some w /\ 1 <= w <= 53.
Proof.
  intros Hv E Hs. pose proof (year_jan_1_spec v d m y Hv E) as (J & _ & _ & B).
  assert (v <> int_nil) as Hn by (date_limits; lia).
  cbn [date_extract_weekofyear]. rewrite E, J, since_jan_1 by exact B.
  rewrite (proj2 (Z.eqb_neq v date_nil)) by exact Hn.
  pose proof (YEARDAYS_bounds (astro y)).
  pose proof (dayofweek_range (days_before (astro y))) as W.
  set (w := date_dayofweek _) in *.
  destruct (Z.leb_spec w 4); [eexists; split; [reflexivity|divlia]|].
  destruct (Z.ltb_spec (7 - w) (v - days_before (astro y))); [|lia].
  eexists; split; [reflexivity|divlia].
Qed.

(** Week numbers: the recursion to the previous year is at most one level
    deep, and for every date after the first week of the calendar the result
    is a week between 1 and 53. *)
Theorem date_extract_weekofyear_range v : date_ok v -> DATE_MIN + 7 <= v ->
  exists w, date_extract_weekofyear 2 v = Some w /\ 1 <= w <= 53.
Proof.
  intros Hv Hlo. destruct (fromdate v) as [[d m] y] eqn:E.
  pose proof (year_jan_1_spec v d m y Hv E) as (J & Hr & Hy & B).
  destruct (Z.lt_ge_cases (v - days_before (astro y)) 7) as [L|L];
    [|apply (weekofyear_direct 1 v d m y); assumption].
  assert (v <> int_nil) as Hn by (date_limits; lia).
  remember 1%nat as one. cbn [date_extract_weekofyear]. rewrite E, J, since_jan_1 by exact B.
  rewrite (proj2 (Z.eqb_neq v date_nil)) by exact Hn.
  pose proof (YEARDAYS_bounds (astro y)).
  pose proof (dayofweek_range (days_before (astro y))) as W.
  set (w := date_dayofweek _) in *.
  destruct (Z.leb_spec w 4); [eexists; split; [reflexivity|divlia]|].
  destruct (Z.ltb_spec (7 - w) (v - days_before (astro y))); [eexists; split; [reflexivity|divlia]|].
  set (y' := if y =? 1 then -1 else y - 1).
  assert (- YEAR_MAX < y) as Hmin.
  { destruct (Z.eq_dec y (- YEAR_MAX)) as [->|]; [|unfold YEAR_MAX in *; lia].
    change (days_before (astro (- YEAR_MAX))) with DATE_MIN in L. lia. }
  assert (astro y' = astro y - 1) as Ea by (unfold y', astro; ztests).
  assert (DATE 31 12 y' = true) as D.
  { apply DATE_spec. unfold y'. change (MONTHDAYS 12 _) with 31. unfold YEAR_MAX in *. ztests. }
  subst one. pose proof (todate_bounds_aux _ _ _ D) as O.
  pose proof (todate_spec _ _ _ D) as T.
  apply (weekofyear_direct 0 (todate 31 12 y') 31 12 y').
  - exact O.
  - apply fromdate_todate_aux; [exact D|right; lia].
  - rewrite T. pose proof (month_start_succ 12 (astro y') ltac:(lia)) as S12.
    change (12 + 1) with 13 in S12. rewrite month_start_13 in S12.
    change (MONTHDAYS 12 (astro y')) with 31 in S12.
    pose proof (YEARDAYS_bounds (astro y')). lia.
Qed.

Lemma date_extract_weekofyear_range_witness :
  exists w, date_extract_weekofyear 2 (todate 1 1 2010) = Some w /\ 1 <= w <= 53.
Proof.
  apply (date_extract_weekofyear_range (todate 1 1 2010)); vm_compute; [split|]; discriminate.
Defined.

(** [date_adddays] moves by exactly [delta] days when the result is a date,
    answers nil otherwise, and two moves add up whenever the intermediate
    date exists. *)
Theorem date_adddays_action v a b :
  date_ok v -> a <> int_nil -> b <> int_nil -> a + b <> int_nil -> date_ok (v + a) ->
  date_adddays v a = v + a /\
  date_adddays (date_adddays v a) b = date_adddays v (a + b) /\
  (date_adddays v (a + b) <> date_nil -> date_ok (date_adddays v (a + b))).
Proof.
  intros Hv Ha Hb Hab Hm.
  assert (date_adddays v a = v + a) as E.
  { rewrite date_adddays_spec by assumption. unfold date_ok in Hm.
    rewrite !(proj2 (Z.leb_le _ _)) by lia. reflexivity. }
  rewrite E. split; [reflexivity|]. rewrite !date_adddays_spec by assumption.
  rewrite Z.add_assoc. split; [reflexivity|].
  destruct (Z.leb_spec DATE_MIN (v + a + b)), (Z.leb_spec (v + a + b) DATE_MAX);
    cbn [andb]; unfold date_ok; intros; try lia; congruence.
Qed.

Lemma date_adddays_action_witness :
  date_adddays 0 366 = 366 /\
  date_adddays (date_adddays 0 366) (-2143027862) = date_adddays 0 (366 + -2143027862) /\
  (date_adddays 0 (366 + -2143027862) <> date_nil -> date_ok (date_adddays 0 (366 + -2143027862))).
Proof.
  apply (date_adddays_action 0 366 (-2143027862)); try (vm_compute; discriminate);
    vm_compute; split; discriminate.
Defined.

(** ** Timestamps as points on the millisecond axis *)

(** A timestamp that is not nil: a date in range and a time of day. *)
Definition ts_ok (t : timestamp) : Prop := date_ok (days t) /\ daytime_ok (msecs t).

(** Milliseconds since the start of day 0. *)
Definition ts_abs (t : timestamp) : Z := days t * DAY_MSECS + msecs t.

Lemma ts_ok_not_nil t : ts_ok t -> ts_isnil t = false.
Proof.
  intros [Hd _]. unfold ts_isnil. cbn [days timestamp_nil]. date_limits.
  rewrite (proj2 (Z.eqb_neq (days t) _)) by lia. reflexivity.
Qed.

Lemma ts_abs_inj a b : ts_ok a -> ts_ok b -> ts_abs a = ts_abs b -> a = b.
Proof.
  destruct a as [ma da], b as [mb db]. unfold ts_ok, ts_abs, daytime_ok. cbn.
  change DAY_MSECS with 86400000. intros [_ Ha] [_ Hb] E.
  assert (da = db) as -> by lia. f_equal. lia.
Qed.

(** The split of a signed duration into whole days and a time of day that
    [MTIMEtimestamp_add] makes. *)
Definition ts_carry (v : timestamp) (ms : Z) : Z * Z :=
  let dd := Z.quot ms DAY_MSECS in
  let m := msecs v + (ms - dd * DAY_MSECS) in
  if DAY_MSECS <=? m then (dd + 1, m - DAY_MSECS)
  else if m <? 0 then (dd - 1, m + DAY_MSECS)
  else (dd, m).

(** Durations whose number of days fits an [int] with room for the carry. *)
Definition duration_ok (ms : Z) : Prop := Z.abs ms <= 2147483646 * DAY_MSECS.

Lemma ts_carry_spec v ms : daytime_ok (msecs v) -> duration_ok ms ->
  let '(dd, m) := ts_carry v ms in
  -2147483647 <= dd <= 2147483647 /\ daytime_ok m /\
  dd * DAY_MSECS + m = msecs v + ms.
Proof.
  unfold daytime_ok, duration_ok, ts_carry. change DAY_MSECS with 86400000. intros Hm Hd.
  cbv zeta. set (q := Z.quot ms 86400000).
  assert (-86400000 < ms - q * 86400000 < 86400000 /\ -2147483646 <= q <= 2147483646) as [B C]
    by (unfold q; divlia).
  destruct (Z.leb_spec 86400000 (msecs v + (ms - q * 86400000))); [lia|].
  destruct (Z.ltb_spec (msecs v + (ms - q * 86400000)) 0); lia.
Qed.

Lemma timestamp_add_carry v ms : ts_ok v -> duration_ok ms ->
  MTIMEtimestamp_add v ms =
    let '(dd, m) := ts_carry v ms in
    if negb (dd =? 0) then
      let d := date_adddays (days v) dd in if d =? int_nil then timestamp_nil else mk_ts m d
    else mk_ts m (days v).
Proof.
  intros Hv Hd. pose proof (ts_carry_spec v ms (proj2 Hv) Hd) as C.
  unfold MTIMEtimestamp_add. rewrite ts_ok_not_nil by exact Hv.
  destruct Hv as [_ Hm]. unfold daytime_ok, duration_ok in *. unfold ts_carry in *.
  change DAY_MSECS with 86400000 in *. cbv zeta in *. set (q := Z.quot ms 86400000) in *.
  assert (-86400000 < ms - q * 86400000 < 86400000 /\ -2147483646 <= q <= 2147483646) as [B Q]
    by (unfold q; divlia).
  rewrite (proj2 (Z.eqb_neq ms lng_nil)) by (unfold lng_nil; lia). cbn [negb andb].
  rewrite (i32_id q) by lia. rewrite (i64_id (ms - _)) by lia.
  rewrite i64_id, i32_id by lia.
  destruct (if 86400000 <=? _ then _ else _) as [dd m]. rewrite i32_id by lia. reflexivity.
Qed.

(** Adding a duration lands exactly that many milliseconds further when the
    target is a representable timestamp, and on nil otherwise. *)
Lemma timestamp_add_refines v ms : ts_ok v -> duration_ok ms ->
  let r := MTIMEtimestamp_add v ms in
  (ts_ok r /\ ts_abs r = ts_abs v + ms) \/
  (r = timestamp_nil /\
   ~ (DATE_MIN * DAY_MSECS <= ts_abs v + ms < (DATE_MAX + 1) * DAY_MSECS)).
Proof.
  intros Hv Hd. cbv zeta. rewrite timestamp_add_carry by assumption.
  pose proof (ts_carry_spec v ms (proj2 Hv) Hd) as C.
  destruct (ts_carry v ms) as [dd m]. destruct C as (Hdd & Hm & E).
  destruct Hv as [Hv Hvm]. unfold ts_abs, ts_ok, daytime_ok in *.
  destruct (Z.eqb_spec dd 0) as [->|Hne]; cbn [negb days msecs].
  { left. split; [split; assumption|lia]. }
  rewrite date_adddays_spec; [|exact Hv|unfold int_nil; lia]. cbv zeta.
  destruct (Z.leb_spec DATE_MIN (days v + dd)), (Z.leb_spec (days v + dd) DATE_MAX); cbn [andb];
    unfold date_nil.
  2, 3, 4: rewrite Z.eqb_refl; right; split; [reflexivity|]; change DAY_MSECS with 86400000 in *; lia.
  rewrite (proj2 (Z.eqb_neq _ _)) by (date_limits; lia).
  left. cbn [days msecs]. unfold date_ok. lia.
Qed.

(** C38: [MTIMEtimestamp_add] refines addition of milliseconds: from a valid
    timestamp and a duration of up to 2^31-2 days, either the result is a
    valid timestamp exactly that many milliseconds away, or that point lies
    outside the calendar and the result is nil. *)
Theorem timestamp_add_refinement v ms : ts_ok v -> duration_ok ms ->
  let r := MTIMEtimestamp_add v ms in
  (ts_ok r /\ ts_abs r = ts_abs v + ms) \/
  (r = timestamp_nil /\
   ~ (DATE_MIN * DAY_MSECS <= ts_abs v + ms < (DATE_MAX + 1) * DAY_MSECS)).
Proof. apply timestamp_add_refines. Qed.

Lemma timestamp_add_refinement_witness :
  let r := MTIMEtimestamp_add (mk_ts 86399999 735367) 1 in
  (ts_ok r /\ ts_abs r = ts_abs (mk_ts 86399999 735367) + 1) \/
  (r = timestamp_nil /\
   ~ (DATE_MIN * DAY_MSECS <= ts_abs (mk_ts 86399999 735367) + 1 < (DATE_MAX + 1) * DAY_MSECS)).
Proof.
  apply (timestamp_add_refinement (mk_ts 86399999 735367) 1); vm_compute; repeat split; discriminate.
Defined.

(** Adding a duration and taking it away again is the identity on
    timestamps, and the difference of the two timestamps is the duration, as
    long as the intermediate timestamp exists and the dates are less than
    2^31 days apart. *)
Theorem timestamp_add_sub v ms : ts_ok v -> Z.abs ms <= 2147483000 * DAY_MSECS ->
  DATE_MIN * DAY_MSECS <= ts_abs v + ms < (DATE_MAX + 1) * DAY_MSECS ->
  MTIMEtimestamp_sub_msec_interval_lng_wrap (MTIMEtimestamp_add v ms) ms = v /\
  MTIMEtimestamp_diff (MTIMEtimestamp_add v ms) v = ms.
Proof.
  intros Hv Hd Ht.
  assert (duration_ok ms) as D by (unfold duration_ok; change DAY_MSECS with 86400000 in *; lia).
  destruct (timestamp_add_refines v ms Hv D) as [[Hr E]|[_ N]]; [|contradiction].
  set (r := MTIMEtimestamp_add v ms) in *. split.
  - unfold MTIMEtimestamp_sub_msec_interval_lng_wrap. cbv zeta.
    change DAY_MSECS with 86400000 in *.
    rewrite i64_id by lia. replace (ms * -1) with (- ms) by lia.
    assert (duration_ok (- ms)) as D' by (unfold duration_ok; change DAY_MSECS with 86400000; lia).
    destruct (timestamp_add_refines r (- ms) Hr D') as [[Hb Eb]|[_ N]].
    + apply ts_abs_inj; [exact Hb|exact Hv|lia].
    + exfalso. apply N. destruct Hv as [[Hv1 Hv2] Hv3]. unfold ts_abs, daytime_ok in *.
      change DAY_MSECS with 86400000 in *. lia.
  - unfold MTIMEtimestamp_diff. rewrite !ts_ok_not_nil by assumption. cbn [orb].
    destruct Hv as [Hvd Hvm], Hr as [Hrd Hrm]. unfold ts_abs, daytime_ok in *.
    change DAY_MSECS with 86400000 in *.
    rewrite (i32_id (days r - days v)) by lia. rewrite (i32_id (msecs r - msecs v)) by lia.
    rewrite i64_id by lia. lia.
Qed.

Lemma timestamp_add_sub_witness :
  MTIMEtimestamp_sub_msec_interval_lng_wrap
    (MTIMEtimestamp_add (mk_ts 3600000 735367) (-3600001)) (-3600001) = mk_ts 3600000 735367 /\
  MTIMEtimestamp_diff (MTIMEtimestamp_add (mk_ts 3600000 735367) (-3600001)) (mk_ts 3600000 735367) = -3600001.
Proof.
  apply (timestamp_add_sub (mk_ts 3600000 735367) (-3600001)); vm_compute; repeat split; discriminate.
Defined.

(** Timestamp differences are documented as 64-bit, but the number of days
    is subtracted at 32 bits first: the difference between the last and the
    first timestamp of the calendar comes out negative. *)
Theorem timestamp_diff_wraps :
  ts_ok (mk_ts 0 DATE_MAX) /\ ts_ok (mk_ts 0 DATE_MIN) /\
  MTIMEtimestamp_diff (mk_ts 0 DATE_MAX) (mk_ts 0 DATE_MIN) < 0 /\
  ts_abs (mk_ts 0 DATE_MAX) - ts_abs (mk_ts 0 DATE_MIN) = 4286055722 * DAY_MSECS.
Proof. vm_compute. repeat split; discriminate. Qed.

(** The interval operators on dates store a result only for a positive
    interval; for zero or a negative one they report success and leave the
    result unset. *)
Theorem date_interval_unset t n : n <= 0 ->
  MTIMEdate_add_sec_interval_wrap t n = None /\ MTIMEdate_sub_sec_interval_wrap t n = None /\
  MTIMEdate_add_msec_interval_lng_wrap t n = None /\
  MTIMEdate_sub_msec_interval_lng_wrap t n = None.
Proof.
  intros H. unfold MTIMEdate_add_sec_interval_wrap, MTIMEdate_sub_sec_interval_wrap,
    MTIMEdate_add_msec_interval_lng_wrap, MTIMEdate_sub_msec_interval_lng_wrap.
  rewrite (proj2 (Z.ltb_ge 0 n)) by exact H. tauto.
Qed.

Lemma date_interval_unset_witness : MTIMEdate_add_sec_interval_wrap 735367 (-86400) = None.
Proof. apply (date_interval_unset 735367 (-86400)). discriminate. Defined.
