(* ===== verification/TimeZone.v ===== *)
(** * Time zones and daylight saving rules of the [mtime] module

    Models the [rule] and [tzone] atoms of
    src/src/monetdb5/modules/atoms/mtime.c and mtime.h, the conversion
    between local time and stored GMT timestamps, and the table of time zones
    that the module installs.  Bit fields are modelled by their values, with
    the truncation of an assignment written out; the whole-word views
    ([asint], the overlays with [lng_nil]) follow the little-endian layout in
    which the first declared field takes the lowest bits. *)

From Stdlib Require Import ZArith Lia Bool List String.
Import ListNotations.
From S2P Require Import Prelude Calendar DateArith.

(** ** Rules *)

Record rule := mk_rule {
  r_month : Z;     (* 4 bits *)
  r_minutes : Z;   (* 11 bits *)
  r_day : Z;       (* 6 bits *)
  r_weekday : Z;   (* 4 bits *)
  r_empty : Z      (* 7 bits *)
}.

Definition WEEKDAY_ZERO : Z := 8.
Definition DAY_ZERO : Z := 32.
Definition OFFSET_ZERO : Z := 4096.

(** The union's [asint] view. *)
Definition asint (r : rule) : Z :=
  i32 (r_month r + Z.shiftl (r_minutes r) 4 + Z.shiftl (r_day r) 15 +
       Z.shiftl (r_weekday r) 21 + Z.shiftl (r_empty r) 25).
(** The rule after [asint = int_nil]. *)
Definition rule_nil : rule := mk_rule 0 0 0 0 64.

(** Assigning the four fields of a rule, each truncated to its width. *)
Definition rule_assign (r : rule) (month minutes day weekday : Z) : rule :=
  mk_rule (uwrap 4 month) (uwrap 11 minutes) (uwrap 6 day) (uwrap 4 weekday) (r_empty r).

Definition get_rule (r : rule) : Z :=
  Z.lor (Z.lor (Z.lor (r_weekday r) (Z.shiftl (r_day r) 6)) (Z.shiftl (r_minutes r) 10))
        (Z.shiftl (r_month r) 21).
Definition set_rule (i : Z) : rule :=
  rule_assign rule_nil
    (Z.shiftr (Z.land i (Z.shiftl 15 21)) 21)
    (Z.shiftr (Z.land i (Z.shiftl 2047 10)) 10)
    (Z.shiftr (Z.land i (Z.shiftl 63 6)) 6)
    (Z.land i 15).

Definition rule_create (month day weekday minutes : Z) : rule :=
  if negb (month =? int_nil) && (1 <=? month) && (month <=? 12) &&
     negb (weekday =? int_nil) && (Z.abs weekday <=? 7) &&
     negb (minutes =? int_nil) && (0 <=? minutes) && (minutes <? 24 * 60) &&
     negb (day =? int_nil) && (1 <=? Z.abs day) && (Z.abs day <=? NODAYS month) &&
     (negb (weekday =? 0) || (0 <? day))
  then rule_assign rule_nil month minutes (DAY_ZERO + day) (WEEKDAY_ZERO + weekday)
  else rule_nil.

Definition MTIMErule_extract_month (r : rule) : Z :=
  if asint r =? int_nil then int_nil else r_month r.
Definition MTIMErule_extract_day (r : rule) : Z :=
  if asint r =? int_nil then int_nil else r_day r - DAY_ZERO.
Definition MTIMErule_extract_weekday (r : rule) : Z :=
  if asint r =? int_nil then int_nil else r_weekday r - WEEKDAY_ZERO.
Definition MTIMErule_extract_minutes (r : rule) : Z :=
  if asint r =? int_nil then int_nil else r_minutes r.

(** [SKIP_DAYS(d,w,i)]. *)
Definition SKIP_DAYS (d w i : Z) : Z * Z :=
  let d := d + i in
  let w := Z.rem (w + i) 7 in
  (d, if w <=? 0 then w + 7 else w).

(** [while (dayofweek != w || --cnt > 0)], walking forward; [None] when the
    fuel runs out. *)
Fixpoint rule_forward (fuel : nat) (d dayofweek w cnt : Z) : option Z :=
  match fuel with
  | O => None
  | S fuel =>
      if negb (dayofweek =? w) then
        rule_forward fuel (d + 1) (if dayofweek + 1 =? WEEKDAY_ZERO then 1 else dayofweek + 1) w cnt
      else
        let cnt := cnt - 1 in
        if 0 <? cnt then
          rule_forward fuel (d + 1) (if dayofweek + 1 =? WEEKDAY_ZERO then 1 else dayofweek + 1) w cnt
        else Some d
  end.

(** The same loop walking backward. *)
Fixpoint rule_backward (fuel : nat) (d dayofweek w cnt : Z) : option Z :=
  match fuel with
  | O => None
  | S fuel =>
      if negb (dayofweek =? w) then
        rule_backward fuel (d - 1) (if dayofweek - 1 =? 0 then 7 else dayofweek - 1) w cnt
      else
        let cnt := cnt - 1 in
        if 0 <? cnt then
          rule_backward fuel (d - 1) (if dayofweek - 1 =? 0 then 7 else dayofweek - 1) w cnt
        else Some d
  end.

(** At most seven steps per occurrence of the weekday. *)
Definition rule_fuel (cnt : Z) : nat := Z.to_nat (7 * Z.max cnt 1).

(** For the year 0, which has no dates, the days are counted from [date_nil]: the
    [int] of the code leaves its type there when it counts backwards, and the number
    here does not. *)
Definition compute_rule (val : rule) (y : Z) : option Z :=
  let m := r_month val in
  let cnt := Z.abs (r_day val - DAY_ZERO) in
  let d := todate 1 m y in
  let dayofweek := date_dayofweek d in
  let w := Z.abs (r_weekday val - WEEKDAY_ZERO) in
  if (r_weekday val =? WEEKDAY_ZERO) || (w =? WEEKDAY_ZERO) then Some (d + (cnt - 1))
  else if DAY_ZERO <? r_day val then
    let '(d, dayofweek, cnt) :=
      if r_weekday val <? WEEKDAY_ZERO
      then let '(d, dayofweek) := SKIP_DAYS d dayofweek (cnt - 1) in (d, dayofweek, 1)
      else (d, dayofweek, cnt) in
    rule_forward (rule_fuel cnt) d dayofweek w cnt
  else
    let '(d, dayofweek, cnt) :=
      if WEEKDAY_ZERO <? r_weekday val
      then let '(d, dayofweek) := SKIP_DAYS d dayofweek (MONTHDAYS m y - 1) in (d, dayofweek, cnt)
      else let '(d, dayofweek) := SKIP_DAYS d dayofweek (cnt - 1) in (d, dayofweek, 1) in
    rule_backward (rule_fuel cnt) d dayofweek w cnt.

Definition MTIMEcompute_rule_foryear (val : rule) (year : Z) : option Z :=
  if (asint val =? int_nil) || (year <? YEAR_MIN) || (YEAR_MAX <? year) then Some date_nil
  else compute_rule val year.

(** ** Time zones *)

Record tzone := mk_tzone {
  dst : Z;        (* 1 bit *)
  off1 : Z;       (* 6 bits *)
  dst_start : Z;  (* 25 bits *)
  off2 : Z;       (* 7 bits *)
  dst_end : Z     (* 25 bits *)
}.

(** The zone overlaid with [lng_nil]. *)
Definition tzone_nil : tzone := mk_tzone 0 0 0 0 16777216.

Definition get_offset (z : tzone) : Z := (Z.shiftl (off1 z) 7 + off2 z) - OFFSET_ZERO.
Definition set_offset (z : tzone) (i : Z) : tzone :=
  mk_tzone (dst z) (uwrap 6 (Z.shiftr (Z.land (i + OFFSET_ZERO) 8064) 7)) (dst_start z)
           (uwrap 7 (Z.land (i + OFFSET_ZERO) 127)) (dst_end z).
Definition tz_isnil (z : tzone) : bool := get_offset z =? get_offset tzone_nil.

Definition tzone_create_dst (minutes : Z) (start end_ : rule) : tzone :=
  if negb (minutes =? int_nil) && (Z.abs minutes <? 24 * 60) &&
     negb (asint start =? int_nil) && negb (asint end_ =? int_nil)
  then
    let z := set_offset tzone_nil minutes in
    mk_tzone 1 (off1 z) (uwrap 25 (get_rule start)) (off2 z) (uwrap 25 (get_rule end_))
  else tzone_nil.

Definition tzone_create (minutes : Z) : tzone :=
  if negb (minutes =? int_nil) && (Z.abs minutes <? 24 * 60)
  then
    let z := set_offset tzone_nil minutes in
    mk_tzone 0 (off1 z) (dst_start z) (off2 z) (dst_end z)
  else tzone_nil.

Definition MTIMEtzone_extract_start (t : tzone) : rule :=
  if tz_isnil t || (dst t =? 0) then rule_nil else set_rule (dst_start t).
Definition MTIMEtzone_extract_end (t : tzone) : rule :=
  if tz_isnil t || (dst t =? 0) then rule_nil else set_rule (dst_end t).
Definition MTIMEtzone_extract_minutes (t : tzone) : Z :=
  if tz_isnil t then int_nil else get_offset t.

(** Setting the server's local zone: [None] is the exception, which leaves
    [tzone_local] as it was. *)
Definition tzone_set_local (z : tzone) : option tzone := if tz_isnil z then None else Some z.

(** The local zone installed by [date_prelude]. *)
Definition tzone_local_init : tzone := set_offset (mk_tzone 0 0 0 0 0) 0.

(** ** Daylight saving and local time *)

Definition BEFORE (d1 m1 d2 m2 : Z) : bool := (d1 <? d2) || ((d1 =? d2) && (m1 <=? m2)).

(** Returns whether the shifted time is inside the zone's daylight saving
    period, and the shifted time itself ([*ret]). *)
Definition timestamp_inside (t : timestamp) (z : tzone) (offset : Z) : option (bool * timestamp) :=
  let add := if negb (offset =? 0) then offset else get_offset z * 60000 in
  let ret := MTIMEtimestamp_add t add in
  if ts_isnil ret || (dst z =? 0) then Some (false, ret)
  else
    let start := set_rule (dst_start z) in
    let end_ := set_rule (dst_end z) in
    let start_msecs := r_minutes start * 60000 in
    let end_msecs := r_minutes end_ * 60000 in
    let '(_, _, year) := fromdate (days ret) in
    match compute_rule start year, compute_rule end_ year with
    | Some start_days, Some end_days =>
        Some (if BEFORE start_days start_msecs end_days end_msecs
              then BEFORE start_days start_msecs (days ret) (msecs ret) &&
                   BEFORE (days ret) (msecs ret) end_days end_msecs
              else BEFORE start_days start_msecs (days ret) (msecs ret) ||
                   BEFORE (days ret) (msecs ret) end_days end_msecs, ret)
    | _, _ => None
    end.

Definition timestamp_create (d t : Z) (z : tzone) : option timestamp :=
  if (d =? date_nil) || (t =? daytime_nil) || tz_isnil z then Some timestamp_nil
  else
    let add := get_offset z * -60000 in
    let ret := mk_ts t d in
    if negb (dst z =? 0) then
      match timestamp_inside ret z (-3600000) with
      | Some (inside, tmp) => Some (MTIMEtimestamp_add (if inside then tmp else ret) add)
      | None => None
      end
    else Some (MTIMEtimestamp_add ret add).

(** The local view of a timestamp that the two extraction functions share. *)
Definition timestamp_local (t : timestamp) (z : tzone) : option timestamp :=
  match timestamp_inside t z 0 with
  | Some (inside, tmp) => Some (if inside then MTIMEtimestamp_add tmp 3600000 else tmp)
  | None => None
  end.

Definition timestamp_extract_daytime (t : timestamp) (z : tzone) : option Z :=
  if ts_isnil t || tz_isnil z then Some daytime_nil
  else match timestamp_local t z with
       | Some tmp => Some (if ts_isnil tmp then daytime_nil else msecs tmp)
       | None => None
       end.

Definition timestamp_extract_date (t : timestamp) (z : tzone) : option Z :=
  if ts_isnil t || tz_isnil z then Some date_nil
  else match timestamp_local t z with
       | Some tmp => Some (if ts_isnil tmp then date_nil else days tmp)
       | None => None
       end.

(** Result of [MTIMEtimestamp_inside_dst]: [None] is [bit_nil]. *)
Definition MTIMEtimestamp_inside_dst (p : timestamp) (z : tzone) : option (option bool) :=
  if tz_isnil z then Some None
  else if negb (dst z =? 0) then
    match timestamp_inside p z 0 with
    | Some (inside, _) => Some (Some inside)
    | None => None
    end
  else Some (Some false).

Definition MTIMEtimestamp_add_month_interval_wrap (tzone_local : tzone) (v : timestamp) (months : Z)
  : option timestamp :=
  match timestamp_extract_daytime v tzone_local, timestamp_extract_date v tzone_local with
  | Some t, Some d => timestamp_create (date_addmonths d months) t tzone_local
  | _, _ => None
  end.

Definition MTIMEtimestamp_sub_month_interval_wrap (tzone_local : tzone) (v : timestamp) (months : Z)
  : option timestamp :=
  let m := i32 (0 - months) in
  match timestamp_extract_daytime v tzone_local, timestamp_extract_date v tzone_local with
  | Some t, Some d => timestamp_create (date_addmonths d m) t tzone_local
  | _, _ => None
  end.

(** ** Packing a zone's offset and rules *)

Lemma get_set_offset z i : - OFFSET_ZERO <= i < OFFSET_ZERO -> get_offset (set_offset z i) = i.
Proof.
  unfold get_offset, set_offset, OFFSET_ZERO. cbn [off1 off2]. intros Hi.
  change 8064 with (Z.shiftl (Z.ones 6) 7). change 127 with (Z.ones 7).
  set (v := i + 4096). assert (0 <= v < 2 ^ 13) as Hv by (unfold v; change (2 ^ 13) with 8192; lia).
  assert (uwrap 6 (Z.shiftr (Z.land v (Z.shiftl (Z.ones 6) 7)) 7) = v / 2 ^ 7) as ->.
  { apply Z.bits_inj'. intros n Hn. rewrite testbit_uwrap, testbit_field by lia.
    rewrite <- Z.shiftr_div_pow2, Z.shiftr_spec by lia.
    destruct (Z.ltb_spec n 6); cbn [andb]; [reflexivity|].
    symmetry. apply (testbit_small 13); lia. }
  rewrite Z.land_ones by lia. unfold uwrap. rewrite Z.mod_mod by lia.
  rewrite Z.shiftl_mul_pow2 by lia. unfold OFFSET_ZERO.
  pose proof (Z.div_mod v (2 ^ 7) ltac:(lia)). unfold v in *. lia.
Qed.

(** The offset of a zone survives its split over two bit fields: a zone
    created with less than a day's offset is not nil and reports exactly that
    offset. *)
Theorem tzone_create_offset minutes : Z.abs minutes < 24 * 60 ->
  tz_isnil (tzone_create minutes) = false /\
  MTIMEtzone_extract_minutes (tzone_create minutes) = minutes.
Proof.
  intros H. unfold MTIMEtzone_extract_minutes, tz_isnil, tzone_create.
  rewrite (proj2 (Z.eqb_neq minutes int_nil)) by (unfold int_nil; lia).
  rewrite (proj2 (Z.ltb_lt _ _)) by exact H. cbn [negb andb]. cbv zeta.
  change (get_offset (mk_tzone 0 _ _ _ _)) with (get_offset (set_offset tzone_nil minutes)).
  rewrite get_set_offset by (unfold OFFSET_ZERO; lia).
  change (get_offset tzone_nil) with (-4096).
  rewrite (proj2 (Z.eqb_neq minutes _)) by lia. split; reflexivity.
Qed.

Lemma tzone_create_offset_witness :
  tz_isnil (tzone_create (-660)) = false /\ MTIMEtzone_extract_minutes (tzone_create (-660)) = -660.
Proof. apply (tzone_create_offset (-660)). lia. Defined.

(** Field widths. *)
Definition rule_wf (r : rule) : Prop :=
  0 <= r_month r < 2 ^ 4 /\ 0 <= r_minutes r < 2 ^ 11 /\ 0 <= r_day r < 2 ^ 6 /\
  0 <= r_weekday r < 2 ^ 4.

Lemma get_rule_bit r i : 0 <= i -> Z.testbit (get_rule r) i =
  Z.testbit (r_weekday r) i || Z.testbit (r_day r) (i - 6) ||
  Z.testbit (r_minutes r) (i - 10) || Z.testbit (r_month r) (i - 21).
Proof. intros Hi. unfold get_rule. rewrite !Z.lor_spec, !Z.shiftl_spec by lia. reflexivity. Qed.

(** Rules do not survive being stored in a zone: [get_rule] shifts the
    6-bit day by 6 and the minutes by 10, so the two top bits of the day and
    the two low bits of the minutes share a place.  Month and weekday come
    back intact; the day gets the low bits of the minutes or-ed in, and the
    minutes the high bits of the day. *)
Theorem set_get_rule r : rule_wf r ->
  let s := set_rule (get_rule r) in
  r_month s = r_month r /\ r_weekday s = r_weekday r /\
  r_day s = Z.lor (r_day r) (Z.shiftl (r_minutes r mod 4) 4) /\
  r_minutes s = Z.lor (r_minutes r) (Z.shiftr (r_day r) 4).
Proof.
  intros Hwf. cbv zeta. unfold set_rule, rule_assign. cbn [r_month r_weekday r_day r_minutes].
  change 2047 with (Z.ones 11). change 63 with (Z.ones 6). change (Z.shiftl 15 21) with (Z.shiftl (Z.ones 4) 21).
  change (Z.land (get_rule r) 15) with (Z.land (get_rule r) (Z.ones 4)).
  destruct Hwf as (Hmo & Hmi & Hda & Hwe).
  repeat split; apply Z.bits_inj'; intros i Hi; rewrite testbit_uwrap by lia.
  - rewrite testbit_field, get_rule_bit by lia.
    destruct (Z.ltb_spec i 4); cbn [andb]; [|symmetry; apply (testbit_small 4); lia].
    rewrite (testbit_small 4 (r_weekday r)), (testbit_small 6 (r_day r)),
      (testbit_small 11 (r_minutes r)) by lia. cbn [orb]. f_equal. lia.
  - rewrite Z.land_spec, get_rule_bit, Z.testbit_ones by lia.
    destruct (Z.ltb_spec i 4); cbn [andb]; [|symmetry; apply (testbit_small 4); lia].
    rewrite (Z.testbit_neg_r (r_day r)), (Z.testbit_neg_r (r_minutes r)), (Z.testbit_neg_r (r_month r)) by lia.
    destruct (Z.leb_spec 0 i); [|lia]. rewrite !orb_false_r. apply andb_true_r.
  - rewrite testbit_field, get_rule_bit, Z.lor_spec, Z.shiftl_spec by lia.
    rewrite (testbit_small 4 (r_weekday r)) by lia.
    destruct (Z.ltb_spec i 6); cbn [andb orb].
    + replace (i + 6 - 6) with i by lia. rewrite (Z.testbit_neg_r (r_month r)) by lia.
      rewrite orb_false_r. f_equal.
      change (r_minutes r mod 4) with (r_minutes r mod 2 ^ 2).
      replace (i + 6 - 10) with (i - 4) by lia.
      destruct (Z.lt_ge_cases i 4); [rewrite !Z.testbit_neg_r by lia; reflexivity|].
      rewrite Z.mod_pow2_bits_low by lia. reflexivity.
    + rewrite (testbit_small 6 (r_day r)) by lia.
      change (r_minutes r mod 4) with (r_minutes r mod 2 ^ 2).
      rewrite Z.mod_pow2_bits_high by lia. reflexivity.
  - rewrite testbit_field, get_rule_bit, Z.lor_spec, Z.shiftr_spec by lia.
    rewrite (testbit_small 4 (r_weekday r)) by lia.
    replace (i + 10 - 10) with i by lia. replace (i + 10 - 6) with (i + 4) by lia.
    destruct (Z.ltb_spec i 11); cbn [andb orb].
    + rewrite (Z.testbit_neg_r (r_month r)) by lia. rewrite orb_false_r. apply orb_comm.
    + rewrite (testbit_small 11 (r_minutes r)), (testbit_small 6 (r_day r)) by lia. reflexivity.
Qed.

Lemma set_get_rule_witness :
  let s := set_rule (get_rule (rule_create 3 (-1) 1 120)) in
  r_month s = 3 /\ r_weekday s = 9 /\ r_day s = Z.lor 31 (Z.shiftl (120 mod 4) 4) /\
  r_minutes s = Z.lor 120 (Z.shiftr 31 4).
Proof.
  apply (set_get_rule (rule_create 3 (-1) 1 120)); vm_compute; repeat split; discriminate.
Defined.

(** ** The day a rule denotes *)

Lemma SKIP_DAYS_spec d i : SKIP_DAYS d (date_dayofweek d) i = (d + i, date_dayofweek (d + i)).
Proof.
  unfold SKIP_DAYS. cbv zeta. f_equal. rewrite !dayofweek_mod.
  destruct (Z.leb_spec (Z.rem ((d - 1) mod 7 + 1 + i) 7) 0); divlia.
Qed.

Lemma dayofweek_next d :
  (if date_dayofweek d + 1 =? WEEKDAY_ZERO then 1 else date_dayofweek d + 1) = date_dayofweek (d + 1).
Proof. rewrite !dayofweek_mod. unfold WEEKDAY_ZERO. ztests; divlia. Qed.

Lemma dayofweek_prev d :
  (if date_dayofweek d - 1 =? 0 then 7 else date_dayofweek d - 1) = date_dayofweek (d - 1).
Proof. rewrite !dayofweek_mod. ztests; divlia. Qed.

(** Days from [d] to the next, and from the previous, weekday [w]. *)
Definition ahead (d w : Z) : Z := (w - date_dayofweek d) mod 7.
Definition behind (d w : Z) : Z := (date_dayofweek d - w) mod 7.

Lemma ahead_step d w : 1 <= w <= 7 ->
  (date_dayofweek d = w -> ahead d w = 0 /\ ahead (d + 1) w = 6) /\
  (date_dayofweek d <> w -> 1 <= ahead d w <= 6 /\ ahead (d + 1) w = ahead d w - 1).
Proof. unfold ahead. rewrite !dayofweek_mod. intros. divlia. Qed.

Lemma behind_step d w : 1 <= w <= 7 ->
  (date_dayofweek d = w -> behind d w = 0 /\ behind (d - 1) w = 6) /\
  (date_dayofweek d <> w -> 1 <= behind d w <= 6 /\ behind (d - 1) w = behind d w - 1).
Proof. unfold behind. rewrite !dayofweek_mod. intros. divlia. Qed.

Lemma rule_forward_spec fuel : forall d w cnt, 1 <= w <= 7 ->
  ahead d w + 7 * (Z.max cnt 1 - 1) < Z.of_nat fuel ->
  rule_forward fuel d (date_dayofweek d) w cnt = Some (d + ahead d w + 7 * (Z.max cnt 1 - 1)).
Proof.
  induction fuel as [|fuel IH]; intros d w cnt Hw Hf.
  { exfalso. unfold ahead in Hf. divlia. }
  cbn [rule_forward]. rewrite dayofweek_next. destruct (ahead_step d w Hw) as [S1 S2].
  destruct (Z.eqb_spec (date_dayofweek d) w) as [E|E]; cbn [negb].
  - destruct (S1 E) as [A0 A6]. cbv zeta. destruct (Z.ltb_spec 0 (cnt - 1)).
    + rewrite IH by lia. f_equal. lia.
    + f_equal. lia.
  - destruct (S2 E) as [A1 A2]. rewrite IH by lia. f_equal. lia.
Qed.

Lemma rule_backward_spec fuel : forall d w cnt, 1 <= w <= 7 ->
  behind d w + 7 * (Z.max cnt 1 - 1) < Z.of_nat fuel ->
  rule_backward fuel d (date_dayofweek d) w cnt = Some (d - behind d w - 7 * (Z.max cnt 1 - 1)).
Proof.
  induction fuel as [|fuel IH]; intros d w cnt Hw Hf.
  { exfalso. unfold behind in Hf. divlia. }
  cbn [rule_backward]. rewrite dayofweek_prev. destruct (behind_step d w Hw) as [S1 S2].
  destruct (Z.eqb_spec (date_dayofweek d) w) as [E|E]; cbn [negb].
  - destruct (S1 E) as [A0 A6]. cbv zeta. destruct (Z.ltb_spec 0 (cnt - 1)).
    + rewrite IH by lia. f_equal. lia.
    + f_equal. lia.
  - destruct (S2 E) as [A1 A2]. rewrite IH by lia. f_equal. lia.
Qed.

Lemma ahead_day d w : 1 <= w <= 7 -> 0 <= ahead d w <= 6 /\
  forall k, date_dayofweek (d + ahead d w + 7 * k) = w.
Proof. unfold ahead. intros. split; [divlia|]. intros k. rewrite !dayofweek_mod. divlia. Qed.

Lemma behind_day d w : 1 <= w <= 7 -> 0 <= behind d w <= 6 /\
  forall k, date_dayofweek (d - behind d w - 7 * k) = w.
Proof. unfold behind. intros. split; [divlia|]. intros k. rewrite !dayofweek_mod. divlia. Qed.

(** What the documentation of rules says of (month, day, weekday): a fixed
    day; the [day]-th [weekday] from the start or the end of the month; the
    first [weekday] on or after, or the last on or before, a day. *)
Definition rule_denotes (m day weekday y d : Z) : Prop :=
  let first := todate 1 m y in
  let last := first + MONTHDAYS m y - 1 in
  if weekday =? 0 then d = first + day - 1
  else date_dayofweek d = Z.abs weekday /\
    if 0 <? weekday then
      if 0 <? day then first + 7 * (day - 1) <= d < first + 7 * day
      else last - 7 * - day < d <= last - 7 * (- day - 1)
    else
      if 0 <? day then first + day - 1 <= d < first + day - 1 + 7
      else first + - day - 1 - 7 < d <= first + - day - 1.

(** Arguments [rule_create] accepts. *)
Definition rule_args (m day weekday minutes : Z) : Prop :=
  1 <= m <= 12 /\ Z.abs weekday <= 7 /\ 0 <= minutes < 1440 /\ 1 <= Z.abs day <= NODAYS m /\
  (weekday <> 0 \/ 0 < day).

Lemma NODAYS_bound m : 1 <= m <= 12 -> NODAYS m <= 31.
Proof. intros H. months m; vm_compute; discriminate. Qed.

Lemma rule_create_fields m day weekday minutes : rule_args m day weekday minutes ->
  rule_create m day weekday minutes = mk_rule m minutes (32 + day) (8 + weekday) 64.
Proof.
  intros (Hm & Hw & Hmin & Hd & Hz). pose proof (NODAYS_bound m Hm).
  unfold rule_create. replace (_ && _) with true.
  - unfold rule_assign, rule_nil, DAY_ZERO, WEEKDAY_ZERO. cbn [r_empty].
    rewrite !uwrap_id; [reflexivity| | | |]; lia.
  - symmetry. unfold int_nil. rewrite !andb_true_iff, orb_true_iff, !negb_true_iff, !Z.eqb_neq,
      !Z.leb_le, !Z.ltb_lt. lia.
Qed.

Lemma compute_rule_fixed r y : r_weekday r = 8 ->
  compute_rule r y = Some (todate 1 (r_month r) y + (Z.abs (r_day r - 32) - 1)).
Proof. intros E. unfold compute_rule, WEEKDAY_ZERO, DAY_ZERO. rewrite E. reflexivity. Qed.



(** ** Local time in a zone without daylight saving *)

Lemma get_offset_create minutes : Z.abs minutes < 24 * 60 ->
  get_offset (tzone_create minutes) = minutes /\ dst (tzone_create minutes) = 0 /\
  tz_isnil (tzone_create minutes) = false.
Proof.
  intros H. unfold tz_isnil, tzone_create.
  rewrite (proj2 (Z.eqb_neq minutes int_nil)) by (unfold int_nil; lia).
  rewrite (proj2 (Z.ltb_lt _ _)) by exact H. cbn [negb andb]. cbv zeta.
  change (get_offset (mk_tzone 0 _ _ _ _)) with (get_offset (set_offset tzone_nil minutes)).
  rewrite get_set_offset by (unfold OFFSET_ZERO; lia).
  change (get_offset tzone_nil) with (-4096).
  rewrite (proj2 (Z.eqb_neq minutes _)) by lia. repeat split.
Qed.

Lemma offset_duration minutes : Z.abs minutes < 24 * 60 ->
  duration_ok (minutes * 60000) /\ duration_ok (minutes * -60000).
Proof. unfold duration_ok. change DAY_MSECS with 86400000. lia. Qed.

Lemma timestamp_local_nodst t minutes : Z.abs minutes < 24 * 60 ->
  timestamp_local t (tzone_create minutes) = Some (MTIMEtimestamp_add t (minutes * 60000)).
Proof.
  intros H. destruct (get_offset_create minutes H) as (O & D & _).
  unfold timestamp_local, timestamp_inside. rewrite O, D. cbn [negb].
  change (negb (0 =? 0)) with false. cbn iota. cbv zeta.
  rewrite Z.eqb_refl, orb_true_r. reflexivity.
Qed.

Lemma timestamp_create_nodst d t minutes : Z.abs minutes < 24 * 60 ->
  date_ok d -> daytime_ok t ->
  timestamp_create d t (tzone_create minutes) =
    Some (MTIMEtimestamp_add (mk_ts t d) (minutes * -60000)).
Proof.
  intros H Hd Ht. destruct (get_offset_create minutes H) as (O & D & N).
  unfold timestamp_create. rewrite O, D, N. unfold daytime_ok in Ht.
  rewrite (proj2 (Z.eqb_neq d date_nil)), (proj2 (Z.eqb_neq t daytime_nil)) by (date_limits; lia).
  reflexivity.
Qed.

(** Local time round trip: in a zone without daylight saving, the GMT
    timestamp made from a local date and time of day yields that date and
    that time of day again, or is nil because GMT falls outside the
    calendar. *)
Theorem timestamp_create_extract d t minutes :
  Z.abs minutes < 24 * 60 -> date_ok d -> daytime_ok t ->
  exists r, timestamp_create d t (tzone_create minutes) = Some r /\
    (r = timestamp_nil \/
     timestamp_extract_date r (tzone_create minutes) = Some d /\
     timestamp_extract_daytime r (tzone_create minutes) = Some t).
Proof.
  intros H Hd Ht. rewrite timestamp_create_nodst by assumption. eexists; split; [reflexivity|].
  destruct (offset_duration minutes H) as [D1 D2].
  assert (ts_ok (mk_ts t d)) as Hv by (split; assumption).
  destruct (timestamp_add_refines (mk_ts t d) (minutes * -60000) Hv D2) as [[Hr E]|[N _]];
    [right|left; exact N].
  set (r := MTIMEtimestamp_add _ _) in *.
  assert (MTIMEtimestamp_add r (minutes * 60000) = mk_ts t d) as B.
  { destruct (timestamp_add_refines r (minutes * 60000) Hr D1) as [[Hb Eb]|[_ N]].
    - apply ts_abs_inj; [exact Hb|exact Hv|lia].
    - exfalso. apply N. unfold ts_abs, date_ok, daytime_ok in *. cbn [days msecs] in *.
      change DAY_MSECS with 86400000 in *. lia. }
  unfold timestamp_extract_date, timestamp_extract_daytime.
  rewrite ts_ok_not_nil by exact Hr. destruct (get_offset_create minutes H) as (_ & _ & ->).
  cbn [orb]. rewrite timestamp_local_nodst, B by exact H.
  rewrite ts_ok_not_nil by exact Hv. split; reflexivity.
Qed.

Lemma timestamp_create_extract_witness :
  exists r, timestamp_create 735367 1000 (tzone_create 60) = Some r /\
    (r = timestamp_nil \/
     timestamp_extract_date r (tzone_create 60) = Some 735367 /\
     timestamp_extract_daytime r (tzone_create 60) = Some 1000).
Proof.
  apply (timestamp_create_extract 735367 1000 60); [lia| |]; vm_compute; repeat split; discriminate.
Defined.

(** ** The zones installed by [MTIMEprelude] *)

Open Scope string_scope.

Definition timezones (RULE_MAR RULE_OCT : rule) : list (string * tzone) :=
  [ ("Wake Island", tzone_create (12 * 60));
    ("Melbourne/Australia", tzone_create (11 * 60));
    ("Brisbane/Australia", tzone_create (10 * 60));
    ("Japan", tzone_create (9 * 60));
    ("Singapore", tzone_create (8 * 60));
    ("Thailand", tzone_create (7 * 60));
    ("Pakistan", tzone_create (5 * 60));
    ("United Arab Emirates", tzone_create (4 * 60));
    ("GMT", tzone_create (0 * 0));
    ("Azore Islands", tzone_create (-1 * 60));
    ("Hawaii/USA", tzone_create (-10 * 60));
    ("American Samoa", tzone_create (-11 * 60));
    ("Kazakhstan", tzone_create_dst (6 * 60) RULE_MAR RULE_OCT);
    ("Moscow/Russia", tzone_create_dst (3 * 60) RULE_MAR RULE_OCT);
    ("East/Europe", tzone_create_dst (2 * 60) RULE_MAR RULE_OCT);
    ("West/Europe", tzone_create_dst (1 * 60) RULE_MAR RULE_OCT);
    ("UK", tzone_create_dst (0 * 0) RULE_MAR RULE_OCT);
    ("Eastern/Brazil", tzone_create_dst (-2 * 60) RULE_OCT RULE_MAR);
    ("Western/Brazil", tzone_create_dst (-3 * 60) RULE_OCT RULE_MAR);
    ("Andes/Brazil", tzone_create_dst (-4 * 60) RULE_OCT RULE_MAR);
    ("East/USA", tzone_create_dst (-5 * 60) RULE_MAR RULE_OCT);
    ("Central/USA", tzone_create_dst (-6 * 60) RULE_MAR RULE_OCT);
    ("Mountain/USA", tzone_create_dst (-7 * 60) RULE_MAR RULE_OCT);
    ("Alaska/USA", tzone_create_dst (-9 * 60) RULE_MAR RULE_OCT) ].

(** Looking a zone up by name and making it the local one: [None] is the
    exception for an unknown name or a nil zone. *)
Definition MTIMEtimezone (table : list (string * tzone)) (name : string) : option tzone :=
  match find (fun e => String.eqb (fst e) name) table with
  | Some (_, z) => tzone_set_local z
  | None => None
  end.
