(* ===== verification/TimeText.v ===== *)
(** * Parsing and printing of the [mtime] atoms

    Models the string conversions of
    src/src/monetdb5/modules/atoms/mtime.c for dates, times of day,
    timestamps, rules and time zones.  A parser takes the buffer and returns
    the number of bytes it consumed (0 for a syntax error) with the value it
    stored; a printer returns the string it writes.  The module's [synonyms]
    switch and the local zone are arguments. *)

From Stdlib Require Import ZArith Lia Bool List String.
Import ListNotations.
From S2P Require Import Prelude Calendar DateArith TimeZone.

Open Scope string_scope.
Open Scope Z_scope.
Open Scope list_scope.

Definition MONTHS : list cstr :=
  map lit ["january"; "february"; "march"; "april"; "may"; "june"; "july"; "august";
           "september"; "october"; "november"; "december"].
Definition DAYS : list cstr :=
  map lit ["sunday"; "monday"; "tuesday"; "wednesday"; "thursday"; "friday"; "saturday"].
Definition COUNT1 : list cstr := map lit ["first"; "second"; "third"; "fourth"; "fifth"; "last"].
Definition COUNT2 : list cstr := map lit ["1st"; "2nd"; "3rd"; "4th"; "5th"; "last"].

(** The [i]-th name of one of these tables, which are indexed from 1. *)
Definition name (table : list cstr) (i : Z) : cstr := nth (Z.to_nat (i - 1)) table [].

(** ** Matching words *)

(** The loop of [fleximatch]: returns [hit] and the adjusted [min]. *)
Fixpoint flexi (s pat : cstr) (hit min : Z) (spacy : bool) : Z * Z :=
  match pat, s with
  | p :: pat', c :: s' =>
      if LOWER c =? p then flexi s' pat' (hit + 1) min (isspace p)
      else if isspace c && spacy then flexi s' pat (hit + 1) (min + 1) spacy
      else (hit, min)
  | _, _ => (hit, min)
  end.

Definition fleximatch (s pat : cstr) (min : Z) : Z :=
  let min := if min =? 0 then Z.of_nat (List.length pat) else min in
  let '(hit, min) := flexi s pat 0 min false in
  if min <=? hit then hit else 0.

(** Returns the index found, or nil, and the number of bytes matched. *)
Fixpoint parse_substr_from (i : Z) (s : cstr) (min : Z) (table : list cstr) : Z * Z :=
  match table with
  | [] => (int_nil, 0)
  | pat :: table =>
      let j := fleximatch s pat min in
      if 0 <? j then (i, j) else parse_substr_from (i + 1) s min table
  end.
Definition parse_substr (s : cstr) (min : Z) (table : list cstr) : Z * Z :=
  parse_substr_from 1 s min table.

(** ** Reading digits *)

(** [for (...; isdigit; pos++) { v = ...; if (v > lim) break; }] *)
Fixpoint scan_break (lim : Z) (s : cstr) (v : Z) : Z * cstr :=
  match s with
  | c :: s' =>
      if isdigit c then
        let v := (c - 48) + v * 10 in
        if lim <? v then (v, s) else scan_break lim s' v
      else (v, s)
  | [] => (v, [])
  end.

(** [while (isdigit) { v = ...pos++...; if (v > lim) break; }] *)
Fixpoint scan_past (lim : Z) (s : cstr) (v : Z) : Z * cstr :=
  match s with
  | c :: s' =>
      if isdigit c then
        let v := (c - 48) + v * 10 in
        if lim <? v then (v, s') else scan_past lim s' v
      else (v, s)
  | [] => (v, [])
  end.

(** [for (; isdigit; pos++) if (v <= lim) v = ...;] *)
Fixpoint scan_sat (lim : Z) (s : cstr) (v : Z) : Z * cstr :=
  match s with
  | c :: s' =>
      if isdigit c then scan_sat lim s' (if v <=? lim then (c - 48) + v * 10 else v)
      else (v, s)
  | [] => (v, [])
  end.

(** [while (isdigit && v < lim) v = ...;] *)
Fixpoint scan_while (lim : Z) (s : cstr) (v : Z) : Z * cstr :=
  match s with
  | c :: s' =>
      if isdigit c && (v <? lim) then scan_while lim s' ((c - 48) + v * 10)
      else (v, s)
  | [] => (v, [])
  end.

(** The milliseconds of a time of day. *)
Fixpoint scan_msec (s : cstr) (msec fac : Z) : Z * cstr :=
  match s with
  | c :: s' =>
      if isdigit c then scan_msec s' (msec + (c - 48) * fac) (Z.quot fac 10) else (msec, s)
  | [] => (msec, [])
  end.

(** ** Dates *)

(** From the month on: the part of [date_fromstr] after the optional leading
    year. [sep] is 0 when no separator is expected. *)
Definition date_month (synonyms : bool) (s : cstr) : option (Z * cstr) :=
  match s with
  | c :: s1 =>
      if isdigit c then
        match s1 with
        | c2 :: s2 => if isdigit c2 then Some ((c2 - 48) + (c - 48) * 10, s2) else Some (c - 48, s1)
        | [] => Some (c - 48, s1)
        end
      else if negb synonyms then None
      else let '(month, j) := parse_substr s 3 MONTHS in Some (month, skipn (Z.to_nat j) s)
  | [] =>
      if negb synonyms then None
      else let '(month, j) := parse_substr s 3 MONTHS in Some (month, skipn (Z.to_nat j) s)
  end.

Definition date_rest (synonyms yearneg yearlast : bool) (sep year : Z) (buf s : cstr) : Z * Z :=
  match date_month synonyms s with
  | None => (0, date_nil)
  | Some (month, s) =>
      if (month =? int_nil) || (negb (sep =? 0) && negb (chead s =? sep)) then (0, date_nil)
      else
        let s := if negb (sep =? 0) then tl s else s in
        let s := if sep =? 32 then skip_char 32 s else s in
        if negb (isdigit (chead s)) then (0, date_nil)
        else
          let '(day, s) := scan_past 31 s 0 in
          let '(yearneg, year, s) :=
            if yearlast && (chead s =? 44) then
              let s := skip_char 32 (tl s) in
              let '(yearneg, s) := if chead s =? 45 then (true, tl s) else (yearneg, s) in
              let '(year, s) := scan_past YEAR_MAX s year in
              (yearneg, year, s)
            else (yearneg, year, s) in
          (consumed buf s, todate day month (if yearneg then - year else year))
  end.

Definition date_fromstr (synonyms : bool) (buf : cstr) : Z * Z :=
  let yearneg := chead buf =? 45 in
  if negb yearneg && negb (isdigit (chead buf)) then
    if negb synonyms then (0, date_nil)
    else date_rest synonyms yearneg true 32 0 buf buf
  else
    let '(year, s) := scan_break YEAR_MAX (if yearneg then tl buf else buf) 0 in
    match s with
    | [] => (0, date_nil)
    | sep :: s =>
        if negb synonyms && negb (sep =? 45) then (0, date_nil)
        else
          let sep := LOWER sep in
          if (97 <=? sep) && (sep <=? 122) then date_rest synonyms yearneg false 0 year buf s
          else if sep =? 32 then
            date_rest synonyms yearneg false sep year buf (skip_char 32 s)
          else if negb (sep =? 45) && negb (sep =? 47) && negb (sep =? 92) then (0, date_nil)
          else date_rest synonyms yearneg false sep year buf s
    end.

Definition date_tostr (val : Z) : cstr :=
  let '(day, month, year) := fromdate val in
  if (val =? date_nil) || negb (DATE day month year) then lit "nil"
  else fmt_d year ++ [45] ++ fmt_0d 2 month ++ [45] ++ fmt_0d 2 day.

(** ** Times of day *)

Definition daytime_fromstr (synonyms : bool) (buf : cstr) : Z * Z :=
  if negb (isdigit (chead buf)) then (0, daytime_nil)
  else
    let '(hour, s) := scan_sat 24 buf 0 in
    if negb (chead s =? 58) || negb (isdigit (cat s 1)) then (0, daytime_nil)
    else
      let '(min, s) := scan_sat 60 (tl s) 0 in
      let '(sec, msec, s) :=
        if (chead s =? 58) && isdigit (cat s 1) then
          let '(sec, s) := scan_sat 60 (tl s) 0 in
          let '(msec, s) :=
            if ((chead s =? 46) || (synonyms && (chead s =? 58))) && isdigit (cat s 1)
            then scan_msec (tl s) 0 100
            else (0, s) in
          (sec, msec, s)
        else (0, 0, s) in
      (consumed buf s, totime hour min sec msec).

Definition daytime_tostr (val : Z) : cstr :=
  let '(hour, min, sec, msec) := fromtime val in
  if (val =? daytime_nil) || negb (TIME hour min sec msec) then lit "nil"
  else fmt_0d 2 hour ++ [58] ++ fmt_0d 2 min ++ [58] ++ fmt_0d 2 sec ++ [46] ++ fmt_0d 3 msec.

(** The explicit offset ["+hh:mm"] or ["+hhmm"], optionally after ["GMT"],
    that [daytime_tz_fromstr] and [timestamp_fromstr] share: the string left
    after it and, when it is there, the milliseconds to add. *)
Definition gmt_offset (s : cstr) : option Z * cstr :=
  let s := skip_spaces s in
  let s := if fleximatch s (lit "gmt") 0 =? 3 then skipn 3 s else s in
  if ((cat s 0 =? 45) || (cat s 0 =? 43)) && isdigit (cat s 1) && isdigit (cat s 2) &&
     isdigit (cat s 4) &&
     (((cat s 3 =? 58) && isdigit (cat s 5)) || isdigit (cat s 3))
  then
    let pos := if (cat s 3 =? 58) && isdigit (cat s 5) then 4%nat else 3%nat in
    let offset :=
      (((cat s 1 - 48) * 10 + (cat s 2 - 48)) * 60 + (cat s pos - 48) * 10 +
       (cat s (pos + 1) - 48)) * 60000 in
    let offset := if negb (cat s 0 =? 45) then - offset else offset in
    (Some offset, skipn (pos + 2) s)
  else (None, s).

Definition daytime_tz_fromstr (synonyms : bool) (tzone_local : tzone) (buf : cstr) : Z * Z :=
  let '(pos, ret) := daytime_fromstr synonyms buf in
  if ret =? daytime_nil then (pos, ret)
  else
    let '(offset, s) := gmt_offset (skipn (Z.to_nat pos) buf) in
    let offset := match offset with
                  | Some offset => offset
                  | None => get_offset tzone_local * -60000
                  end in
    let mtime := 24 * 60 * 60 * 1000 in
    let val := ret + offset in
    let val := if val <? 0 then mtime + val else val in
    let val := if mtime <=? val then val - mtime else val in
    (consumed buf s, i32 val).

(** ** Timestamps *)

(** [None]: a rule of the local zone could not be computed. *)
Definition timestamp_fromstr (synonyms : bool) (tzone_local : tzone) (buf : cstr)
  : option (Z * timestamp) :=
  let '(dpos, d) := date_fromstr synonyms buf in
  let s := skipn (Z.to_nat dpos) buf in
  let '(started, t, s) :=
    if (0 <? dpos) &&
       ((chead s =? 64) || (chead s =? 32) || (chead s =? 45) || (chead s =? 84)) then
      let s := skip_char 32 (tl s) in
      let '(pos, t) := daytime_fromstr synonyms s in
      if negb (pos =? 0) then (true, t, skipn (Z.to_nat pos) s) else (false, t, buf)
    else (0 <? dpos, if negb (chead s =? 0) then daytime_nil else 0, s) in
  if negb started || (d =? date_nil) || (t =? daytime_nil) then Some (consumed buf s, timestamp_nil)
  else
    match gmt_offset s with
    | (Some offset, s) => Some (consumed buf s, MTIMEtimestamp_add (mk_ts t d) offset)
    | (None, s) =>
        let offset := get_offset tzone_local * -60000 in
        match timestamp_inside (mk_ts t d) tzone_local (-3600000) with
        | Some (inside, tmp) =>
            Some (consumed buf s, MTIMEtimestamp_add (if inside then tmp else mk_ts t d) offset)
        | None => None
        end
    end.

Definition timestamp_tz_tostr (val : timestamp) (timezone : tzone) : option cstr :=
  match (if negb (ts_isnil val) then timestamp_local val timezone else Some val) with
  | Some tmp =>
      Some (if ts_isnil tmp then lit "nil"
            else date_tostr (days tmp) ++ [32] ++ daytime_tostr (msecs tmp))
  | None => None
  end.

(** ** Rules *)

Definition count1 (i : Z) : cstr :=
  if i <=? 0 then lit "(illegal number)"
  else if i <? 6 then name COUNT1 i
  else fmt_d i ++ lit "th".

Definition rule_tostr (r : rule) : cstr :=
  let hours := Z.quot (r_minutes r) 60 in
  let minutes := Z.rem (r_minutes r) 60 in
  let at_ := lit "@" ++ fmt_0d 2 hours ++ lit ":" ++ fmt_0d 2 minutes in
  if asint r =? int_nil then lit "nil"
  else if r_weekday r =? WEEKDAY_ZERO then
    name MONTHS (r_month r) ++ lit " " ++ fmt_d (r_day r - DAY_ZERO) ++ at_
  else if (WEEKDAY_ZERO <? r_weekday r) && (DAY_ZERO <? r_day r) then
    count1 (r_day r - DAY_ZERO) ++ lit " " ++ name DAYS (r_weekday r - WEEKDAY_ZERO) ++
    lit " from start of " ++ name MONTHS (r_month r) ++ at_
  else if (WEEKDAY_ZERO <? r_weekday r) && (r_day r <? DAY_ZERO) then
    count1 (DAY_ZERO - r_day r) ++ lit " " ++ name DAYS (r_weekday r - WEEKDAY_ZERO) ++
    lit " from end of " ++ name MONTHS (r_month r) ++ at_
  else if DAY_ZERO <? r_day r then
    lit "first " ++ name DAYS (WEEKDAY_ZERO - r_weekday r) ++ lit " on or after " ++
    name MONTHS (r_month r) ++ lit " " ++ fmt_d (r_day r - DAY_ZERO) ++ at_
  else
    lit "last " ++ name DAYS (WEEKDAY_ZERO - r_weekday r) ++ lit " on or before " ++
    name MONTHS (r_month r) ++ lit " " ++ fmt_d (DAY_ZERO - r_day r) ++ at_.

(** What the first half of [rule_fromstr] has read when it reaches the time:
    day, month, weekday and the two sign flags, and the rest of the string. *)
Record rule_head := mk_head {
  h_day : Z; h_month : Z; h_weekday : Z; h_neg_day : bool; h_neg_weekday : bool; h_rest : cstr
}.

(** [None] is a syntax error. *)
Definition rule_weekday_part (day : Z) (cur : cstr) : option rule_head :=
  let '(weekday, j) := parse_substr cur 3 DAYS in
  let cur := skipn (Z.to_nat j) cur in
  if weekday =? int_nil then None
  else
    let pos := fleximatch cur (lit " from start of ") 0 in
    let '(pos, neg_day) :=
      if pos =? 0 then
        let pos := fleximatch cur (lit " from end of ") 0 in (pos, negb (pos =? 0))
      else (pos, false) in
    if negb (pos =? 0) && (day <? 6) then
      let cur := skipn (Z.to_nat pos) cur in
      let '(month, pos) := parse_substr cur 3 MONTHS in
      if pos =? 0 then None
      else Some (mk_head day month weekday neg_day false (skipn (Z.to_nat pos) cur))
    else if day =? 1 then
      let pos := fleximatch cur (lit " on or after ") 0 in
      if pos =? 0 then None
      else Some (mk_head int_nil 0 weekday neg_day true (skipn (Z.to_nat pos) cur))
    else if day =? 6 then
      let pos := fleximatch cur (lit " on or before ") 0 in
      if pos =? 0 then None
      else Some (mk_head int_nil 0 weekday true true (skipn (Z.to_nat pos) cur))
    else if pos =? 0 then None
    else Some (mk_head day 0 weekday neg_day false (skipn (Z.to_nat pos) cur)).

(** RULE 5: [X]-th of month. *)
Definition rule_day_part (h : rule_head) : option rule_head :=
  if h_day h =? int_nil then
    let '(month, j) := parse_substr (h_rest h) 3 MONTHS in
    let cur := skipn (Z.to_nat j) (h_rest h) in
    if (month =? int_nil) || negb (chead cur =? 32) || negb (isdigit (cat cur 1)) then None
    else
      let '(day, cur) := scan_while 31 (tl cur) 0 in
      Some (mk_head day month (h_weekday h) (h_neg_day h) (h_neg_weekday h) cur)
  else Some h.

Definition rule_head_fromstr (buf : cstr) : option rule_head :=
  let '(day, pos) := parse_substr buf 0 COUNT1 in
  let '(day, pos) := if pos =? 0 then parse_substr buf 0 COUNT2 else (day, pos) in
  let h :=
    if negb (pos =? 0) && (cat buf (Z.to_nat pos) =? 32)
    then rule_weekday_part day (skipn (Z.to_nat pos + 1) buf)
    else Some (mk_head day 0 0 false false buf) in
  match h with
  | None => None
  | Some h => rule_day_part h
  end.

(** The time at the end, and the stored rule. *)
Definition rule_time (h : rule_head) (buf : cstr) : Z * rule :=
  let cur := h_rest h in
  if negb (chead cur =? 64) || negb (isdigit (cat cur 1)) then (0, rule_nil)
  else
    let '(hours, cur) := scan_while 24 (tl cur) 0 in
    if negb (chead cur =? 58) || negb (isdigit (cat cur 1)) then (0, rule_nil)
    else
      let '(minutes, cur) := scan_while 60 (tl cur) 0 in
      (consumed buf cur,
       if (1 <=? h_day h) && (h_day h <=? NODAYS (h_month h)) &&
          (0 <=? hours) && (hours <? 60) && (0 <=? minutes) && (minutes <? 60)
       then rule_assign rule_nil (h_month h) (hours * 60 + minutes)
              (DAY_ZERO + (if h_neg_day h then - h_day h else h_day h))
              (WEEKDAY_ZERO + (if h_neg_weekday h then - h_weekday h else h_weekday h))
       else rule_nil).

Definition rule_fromstr (buf : cstr) : Z * rule :=
  match rule_head_fromstr buf with
  | None => (0, rule_nil)
  | Some h => rule_time h buf
  end.

(** ** Time zones *)

(** The optional ["+hhmm"] or ["+hh:mm"] after ["GMT"]: sign, hours, minutes
    and the rest; [None] is a syntax error. *)
Definition tzone_offset (cur : cstr) : option (bool * Z * Z * cstr) :=
  if (chead cur =? 45) || (chead cur =? 43) then
    let neg_offset := chead cur =? 45 in
    let bak := tl cur in
    let cur := tl cur in
    if negb (isdigit (chead cur)) then None
    else
      let '(hours, cur) := scan_while 9999 cur 0 in
      if (chead cur =? 58) && isdigit (cat cur 1) then
        let '(minutes, cur) := scan_while 60 (tl cur) 0 in Some (neg_offset, hours, minutes, cur)
      else if negb (chead cur =? 58) && (consumed bak cur =? 4) then
        Some (neg_offset, Z.quot hours 100, Z.rem hours 100, cur)
      else None
  else Some (false, 0, 0, cur).

Definition rule_zero : rule := mk_rule 0 0 0 0 0.

(** The optional ["-dst[...,...]"]: whether it is there, the two rules and
    the rest; [None] is a syntax error. *)
Definition tzone_dst (cur : cstr) : option (bool * rule * rule * cstr) :=
  if negb (fleximatch cur (lit "-dst[") 0 =? 0) then
    let cur := skipn 5 cur in
    let '(pos, r1) := rule_fromstr cur in
    let cur1 := skipn (Z.to_nat pos) cur in
    if (pos =? 0) || negb (chead cur1 =? 44) then None
    else
      let cur := tl cur1 in
      let '(pos, r2) := rule_fromstr cur in
      let cur1 := skipn (Z.to_nat pos) cur in
      if (pos =? 0) || negb (chead cur1 =? 93) then None
      else Some (true, r1, r2, tl cur1)
  else Some (false, rule_zero, rule_zero, cur).

Definition tzone_fromstr (buf : cstr) : Z * tzone :=
  if fleximatch buf (lit "gmt") 0 =? 0 then (0, tzone_nil)
  else
    match tzone_offset (skipn 3 buf) with
    | None => (0, tzone_nil)
    | Some (neg_offset, hours, minutes, cur) =>
        match tzone_dst cur with
        | None => (0, tzone_nil)
        | Some (has_dst, r1, r2, cur) =>
            (consumed buf cur,
             if (hours <? 24) && (minutes <? 60) && negb (asint r1 =? int_nil) &&
                negb (asint r2 =? int_nil)
             then
               let minutes := minutes + hours * 60 in
               let z := set_offset tzone_nil (if neg_offset then - minutes else minutes) in
               if has_dst
               then mk_tzone 1 (off1 z) (uwrap 25 (get_rule r1)) (off2 z) (uwrap 25 (get_rule r2))
               else mk_tzone 0 (off1 z) (dst_start z) (off2 z) (dst_end z)
             else tzone_nil)
        end
    end.

Definition tzone_tostr (z : tzone) : cstr :=
  if tz_isnil z then lit "nil"
  else
    let mins := get_offset z in
    lit "GMT" ++
    (if 0 <? mins then lit "+" ++ fmt_0d 2 (Z.quot mins 60) ++ lit ":" ++ fmt_0d 2 (Z.rem mins 60)
     else if mins <? 0 then
       lit "-" ++ fmt_0d 2 (Z.quot (- mins) 60) ++ lit ":" ++ fmt_0d 2 (Z.rem (- mins) 60)
     else []) ++
    (if negb (dst z =? 0) then
       lit "-DST[" ++ rule_tostr (set_rule (dst_start z)) ++ lit "," ++
       rule_tostr (set_rule (dst_end z)) ++ lit "]"
     else []).

(** ** Reading back printed numbers *)

Lemma scan_break_digits lim ds rest : forall v,
  digits ds -> 0 <= v -> dval v ds <= lim -> stops rest ->
  scan_break lim (ds ++ rest) v = (dval v ds, rest).
Proof.
  induction ds as [|c ds IH]; intros v Hd Hv Hl Hr.
  - cbn [app]. destruct rest as [|c rest]; cbn [scan_break hd] in *; [reflexivity|]. rewrite Hr. reflexivity.
  - apply Forall_cons_iff in Hd as [Hc Hd]. cbn [app scan_break]. rewrite Hc.
    apply isdigit_range in Hc. rewrite dval_cons in *. cbv zeta.
    pose proof (dval_ge ds (c - 48 + v * 10) ltac:(lia) Hd).
    rewrite (proj2 (Z.ltb_ge _ _)) by lia. apply IH; lia || assumption.
Qed.

Lemma scan_past_digits lim ds rest : forall v,
  digits ds -> 0 <= v -> dval v ds <= lim -> stops rest ->
  scan_past lim (ds ++ rest) v = (dval v ds, rest).
Proof.
  induction ds as [|c ds IH]; intros v Hd Hv Hl Hr.
  - cbn [app]. destruct rest as [|c rest]; cbn [scan_past hd] in *; [reflexivity|]. rewrite Hr. reflexivity.
  - apply Forall_cons_iff in Hd as [Hc Hd]. cbn [app scan_past]. rewrite Hc.
    apply isdigit_range in Hc. rewrite dval_cons in *. cbv zeta.
    pose proof (dval_ge ds (c - 48 + v * 10) ltac:(lia) Hd).
    rewrite (proj2 (Z.ltb_ge _ _)) by lia. apply IH; lia || assumption.
Qed.

(** Two digits, read by each of the bounded scanners. *)
Lemma two_digits_val n : 0 <= n < 100 -> (48 + n mod 10 - 48) + ((48 + n / 10 - 48) + 0 * 10) * 10 = n.
Proof. intros. divlia. Qed.

Lemma two_digits n : 0 <= n < 100 -> isdigit (48 + n / 10) = true /\ isdigit (48 + n mod 10) = true.
Proof. intros. split; apply digit_true; divlia. Qed.

Lemma scan_sat_2 lim n rest : 0 <= n < 100 -> 9 <= lim -> stops rest ->
  scan_sat lim (fmt_0d 2 n ++ rest) 0 = (n, rest).
Proof.
  intros Hn Hl Hr. rewrite fmt_02d by exact Hn. destruct (two_digits n Hn) as [D1 D2].
  cbn [app scan_sat]. rewrite D1, D2. rewrite (proj2 (Z.leb_le 0 lim)) by lia.
  rewrite (proj2 (Z.leb_le _ lim)) by divlia.
  rewrite two_digits_val by exact Hn.
  destruct rest as [|c rest]; cbn [scan_sat hd] in *; [reflexivity|]. rewrite Hr. reflexivity.
Qed.

Lemma scan_past_2 lim n rest : 0 <= n < 100 -> n <= lim -> 9 <= lim -> stops rest ->
  scan_past lim (fmt_0d 2 n ++ rest) 0 = (n, rest).
Proof.
  intros Hn Hl Hl9 Hr. rewrite fmt_02d by exact Hn. destruct (two_digits n Hn) as [D1 D2].
  cbn [app scan_past]. rewrite D1, D2. cbv zeta. rewrite two_digits_val by exact Hn.
  rewrite (proj2 (Z.ltb_ge lim _)) by divlia. rewrite (proj2 (Z.ltb_ge lim n)) by exact Hl.
  destruct rest as [|c rest]; cbn [scan_past hd] in *; [reflexivity|]. rewrite Hr. reflexivity.
Qed.

Lemma scan_while_2 lim n rest : 0 <= n < 100 -> 9 < lim -> stops rest ->
  scan_while lim (fmt_0d 2 n ++ rest) 0 = (n, rest).
Proof.
  intros Hn Hl Hr. rewrite fmt_02d by exact Hn. destruct (two_digits n Hn) as [D1 D2].
  cbn [app scan_while]. rewrite D1, D2. rewrite !(proj2 (Z.ltb_lt _ lim)) by divlia.
  cbn [andb]. rewrite two_digits_val by exact Hn.
  destruct rest as [|c rest]; cbn [scan_while hd] in *; [reflexivity|]. rewrite Hr. reflexivity.
Qed.

Lemma scan_msec_3 n rest : 0 <= n < 1000 -> stops rest ->
  scan_msec (fmt_0d 3 n ++ rest) 0 100 = (n, rest).
Proof.
  intros Hn Hr. rewrite fmt_03d by exact Hn.
  cbn [app scan_msec]. rewrite !digit_true by divlia.
  change (Z.quot 100 10) with 10. change (Z.quot 10 10) with 1.
  replace (0 + _ + _ + _) with n by divlia.
  destruct rest as [|c rest]; cbn [scan_msec hd] in *; [reflexivity|]. rewrite Hr. reflexivity.
Qed.

Lemma date_month_2 syn n rest : 0 <= n < 100 ->
  date_month syn (fmt_0d 2 n ++ rest) = Some (n, rest).
Proof.
  intros Hn. rewrite fmt_02d by exact Hn. destruct (two_digits n Hn) as [D1 D2].
  cbn [app date_month]. rewrite D1, D2. do 2 f_equal. divlia.
Qed.

(** ** Round trips of dates and times of day *)

(** The text [date_tostr] prints for a valid date. *)
Definition date_text (d m y : Z) : cstr :=
  fmt_d y ++ [45] ++ fmt_0d 2 m ++ [45] ++ fmt_0d 2 d.

(** From the separator after the year on. *)
Lemma date_rest_text syn yneg year d m buf rest :
  0 <= m < 100 -> 0 <= d <= 31 -> stops rest ->
  date_rest syn yneg false 45 year buf (fmt_0d 2 m ++ [45] ++ fmt_0d 2 d ++ rest) =
  (consumed buf rest, todate d m (if yneg then - year else year)).
Proof.
  intros Hm Hd Hr. unfold date_rest. rewrite date_month_2 by exact Hm.
  rewrite (proj2 (Z.eqb_neq m int_nil)) by (unfold int_nil; lia).
  change (45 =? 0) with false. change (45 =? 32) with false. cbn [negb orb andb app hd tl].
  rewrite Z.eqb_refl. cbn [negb].
  assert (isdigit (chead (fmt_0d 2 d ++ rest)) = true) as ->.
  { rewrite fmt_02d by lia. cbn [app hd]. apply digit_true. divlia. }
  cbn [negb]. rewrite scan_past_2 by (lia || assumption). reflexivity.
Qed.

Lemma dec_head n rest : 0 <= n < 10 ^ 20 -> isdigit (chead (dec n ++ rest)) = true.
Proof.
  intros Hn. destruct (dec_spec n Hn) as (ds & -> & Hd & _ & NE & _).
  destruct ds as [|c ds]; [congruence|]. apply Forall_cons_iff in Hd. tauto.
Qed.

Lemma date_parse syn d m y rest : DATE d m y = true -> stops rest ->
  date_fromstr syn (date_text d m y ++ rest) =
  (Z.of_nat (List.length (date_text d m y)), todate d m y).
Proof.
  intros H Hr. rewrite <- (consumed_app (date_text d m y) rest).
  set (buf := date_text d m y ++ rest).
  apply DATE_spec in H. destruct H as (Hm & Hd & Hy & Hb).
  pose proof (MONTHDAYS_bounds m y Hm).
  assert (0 <= Z.abs y < 10 ^ 20) as Hdec by (unfold YEAR_MAX in Hb; lia).
  destruct (dec_spec (Z.abs y) Hdec) as (ds & Eds & Hds & V & NE & _).
  set (tail := [45] ++ fmt_0d 2 m ++ [45] ++ fmt_0d 2 d ++ rest).
  assert (buf = (if y <? 0 then [45] else []) ++ dec (Z.abs y) ++ tail) as Eb.
  { unfold buf, date_text, tail, fmt_d. destruct (Z.ltb_spec y 0).
    - rewrite Z.abs_neq by lia. cbn [app]. rewrite <- !app_assoc. cbn [app]. rewrite <- !app_assoc. reflexivity.
    - rewrite Z.abs_eq by lia. cbn [app]. rewrite <- !app_assoc. cbn [app]. rewrite <- !app_assoc. reflexivity. }
  assert ((chead buf =? 45) = (y <? 0)) as Eneg.
  { rewrite Eb. destruct (y <? 0); [reflexivity|]. cbn [app].
    pose proof (dec_head (Z.abs y) tail Hdec) as D. apply isdigit_range in D. apply Z.eqb_neq. lia. }
  assert (scan_break YEAR_MAX (if y <? 0 then tl buf else buf) 0 = (Z.abs y, tail)) as Escan.
  { rewrite Eb. destruct (y <? 0); cbn [app tl]; rewrite Eds;
      rewrite scan_break_digits, V by (assumption || lia || (unfold tail; reflexivity)); reflexivity. }
  unfold date_fromstr. rewrite Eneg. cbv zeta.
  assert (negb (y <? 0) && negb (isdigit (chead buf)) = false) as ->.
  { rewrite Eb. destruct (y <? 0); [reflexivity|]. cbn [app negb andb].
    rewrite dec_head by exact Hdec. reflexivity. }
  rewrite Escan. unfold tail. cbn [app]. rewrite andb_false_r.
  change (LOWER 45) with 45. cbn iota.
  change ((97 <=? 45) && (45 <=? 122)) with false. change (45 =? 32) with false.
  change (negb (45 =? 45) && negb (45 =? 47) && negb (45 =? 92)) with false. cbn iota.
  change (45 :: fmt_0d 2 d ++ rest) with ([45] ++ fmt_0d 2 d ++ rest).
  rewrite date_rest_text by (lia || assumption). do 2 f_equal. ztests.
Qed.

Lemma date_tostr_text v d m y : date_ok v -> fromdate v = (d, m, y) -> regular d m y ->
  DATE d m y = true /\ todate d m y = v /\ date_tostr v = date_text d m y.
Proof.
  intros Hv E R.
  assert (v <> int_nil) as Hn by (date_limits; lia).
  destruct (fromdate_inv v d m y Hn E) as (Hm & Hd & Hy & Ev).
  pose proof (year_jan_1_spec v d m y Hv E) as (_ & Hyr & _).
  assert (DATE d m y = true) as D.
  { apply DATE_spec. repeat split; try lia.
    unfold regular, MONTHDAYS, astro in *. destruct (Z.eqb_spec m 2); cbn [negb] in *; [|lia].
    destruct (Z.ltb_spec y 0); [|lia]. destruct (leapyear (y + 1)), (leapyear y); lia. }
  split; [exact D|]. split; [rewrite todate_spec by exact D; lia|].
  unfold date_tostr. rewrite E, D, (proj2 (Z.eqb_neq v date_nil)) by exact Hn. reflexivity.
Qed.

Lemma date_parse_print syn v d m y rest :
  date_ok v -> fromdate v = (d, m, y) -> regular d m y -> stops rest ->
  date_fromstr syn (date_tostr v ++ rest) = (Z.of_nat (List.length (date_tostr v)), v).
Proof.
  intros Hv E R Hr. destruct (date_tostr_text v d m y Hv E R) as (D & T & ->).
  rewrite date_parse, T by assumption. reflexivity.
Qed.

(** Dates survive printing and parsing: whatever follows that is not a
    digit, the text of any date that prints is parsed to its last byte and
    back to the same day number, with or without the lenient syntax. *)
Theorem date_fromstr_tostr syn v d m y rest :
  date_ok v -> fromdate v = (d, m, y) -> regular d m y -> stops rest ->
  date_fromstr syn (date_tostr v ++ rest) = (Z.of_nat (List.length (date_tostr v)), v).
Proof. apply date_parse_print. Qed.

Lemma date_fromstr_tostr_witness :
  date_fromstr true (date_tostr (-1000) ++ lit " x") = (Z.of_nat (List.length (date_tostr (-1000))), -1000).
Proof.
  apply (date_fromstr_tostr true (-1000) 6 4 (-4)); [|reflexivity|right; lia|reflexivity].
  vm_compute; split; discriminate.
Defined.

Lemma daytime_text_parse syn v rest : daytime_ok v -> stops rest ->
  daytime_fromstr syn (daytime_tostr v ++ rest) = (12, v) /\ List.length (daytime_tostr v) = 12%nat.
Proof.
  intros Hv Hr. pose proof (fromtime_parts v Hv) as P. unfold daytime_tostr.
  destruct (fromtime v) as [[[h m] s] x]. destruct P as [T E]. rewrite T.
  rewrite (proj2 (Z.eqb_neq v daytime_nil)) by (unfold daytime_nil, int_nil, daytime_ok in *; lia).
  cbn [negb orb]. apply TIME_spec in T. split.
  2: { rewrite !fmt_02d, fmt_03d by lia. reflexivity. }
  rewrite <- !app_assoc. set (buf := fmt_0d 2 h ++ _).
  assert (consumed buf rest = 12) as C.
  { unfold buf, consumed. rewrite !fmt_02d, fmt_03d by lia. rewrite !length_app. cbn [List.length]. lia. }
  unfold daytime_fromstr.
  assert (isdigit (chead buf) = true) as ->.
  { unfold buf. rewrite fmt_02d by lia. cbn [app hd]. apply digit_true; divlia. }
  cbn [negb]. unfold buf at 1. rewrite scan_sat_2 by (lia || reflexivity).
  cbn [app hd tl]. change (58 =? 58) with true. cbn [negb orb].
  assert (forall t n, 0 <= n < 100 -> isdigit (cat (58 :: fmt_0d 2 n ++ t) 1) = true) as D2.
  { intros t n Hn. rewrite fmt_02d by exact Hn. cbn [app cat nth]. apply digit_true; divlia. }
  rewrite D2 by lia. cbn [negb]. rewrite scan_sat_2 by (lia || reflexivity).
  cbn [app hd tl]. change (58 =? 58) with true. rewrite D2 by lia. cbn [andb].
  rewrite scan_sat_2 by (lia || reflexivity). cbn [app hd tl].
  change (46 =? 46) with true. cbn [orb].
  assert (isdigit (cat (46 :: fmt_0d 3 x ++ rest) 1) = true) as ->.
  { rewrite fmt_03d by lia. cbn [app cat nth]. apply digit_true; divlia. }
  cbn [andb]. rewrite scan_msec_3 by (lia || assumption). rewrite C, E. reflexivity.
Qed.

(** Times of day survive printing and parsing, for each of the 86400000
    milliseconds of the day. *)
Theorem daytime_fromstr_tostr syn v rest : daytime_ok v -> stops rest ->
  daytime_fromstr syn (daytime_tostr v ++ rest) = (Z.of_nat (List.length (daytime_tostr v)), v).
Proof. intros Hv Hr. destruct (daytime_text_parse syn v rest Hv Hr) as [-> ->]. reflexivity. Qed.

Lemma daytime_fromstr_tostr_witness :
  daytime_fromstr false (daytime_tostr 86399999 ++ []) =
  (Z.of_nat (List.length (daytime_tostr 86399999)), 86399999).
Proof. apply (daytime_fromstr_tostr false 86399999 []); [|reflexivity]. vm_compute; split; [discriminate|reflexivity]. Defined.

(** ** Round trip of timestamps *)

Lemma timestamp_inside_nodst t minutes off : Z.abs minutes < 24 * 60 -> off <> 0 ->
  timestamp_inside t (tzone_create minutes) off = Some (false, MTIMEtimestamp_add t off).
Proof.
  intros H Ho. destruct (get_offset_create minutes H) as (O & D & _).
  unfold timestamp_inside. rewrite D. rewrite (proj2 (Z.eqb_neq off 0)) by exact Ho. cbn [negb].
  cbv zeta. rewrite Z.eqb_refl, orb_true_r. reflexivity.
Qed.

Lemma daytime_head v rest : daytime_ok v -> isdigit (chead (daytime_tostr v ++ rest)) = true.
Proof.
  intros Hv. pose proof (fromtime_parts v Hv) as P. unfold daytime_tostr.
  destruct (fromtime v) as [[[h m] s] x]. destruct P as [T E]. rewrite T.
  rewrite (proj2 (Z.eqb_neq v daytime_nil)) by (unfold daytime_nil, int_nil, daytime_ok in *; lia).
  apply TIME_spec in T. cbn [negb orb]. rewrite fmt_02d by lia. cbn [app hd]. apply digit_true; divlia.
Qed.

(** The local date and time of a printed timestamp, parsed in a zone without
    daylight saving. *)
Lemma timestamp_text_parse syn t d m y minutes : Z.abs minutes < 24 * 60 ->
  ts_ok t -> fromdate (days t) = (d, m, y) -> regular d m y ->
  let buf := date_tostr (days t) ++ [32] ++ daytime_tostr (msecs t) in
  timestamp_fromstr syn (tzone_create minutes) buf =
    Some (Z.of_nat (List.length buf), MTIMEtimestamp_add t (minutes * -60000)).
Proof.
  intros Hmin [Hd Ht] E R. cbv zeta.
  destruct (date_tostr_text _ _ _ _ Hd E R) as (D & T & ->).
  set (dt := date_text d m y). set (buf := dt ++ [32] ++ daytime_tostr (msecs t)).
  assert (date_fromstr syn buf = (Z.of_nat (List.length dt), days t)) as Ed.
  { unfold buf, dt. rewrite date_parse, T by (assumption || reflexivity). reflexivity. }
  assert (0 < Z.of_nat (List.length dt)) as Hlen.
  { unfold dt, date_text. rewrite !length_app. cbn [List.length]. lia. }
  unfold timestamp_fromstr. rewrite Ed, Nat2Z.id. cbv zeta.
  assert (skipn (List.length dt) buf = 32 :: daytime_tostr (msecs t)) as -> by (apply skipn_exact).
  rewrite (proj2 (Z.ltb_lt _ _)) by exact Hlen. cbn [hd tl].
  change (32 =? 64) with false. change (32 =? 32) with true. cbn [orb andb].
  pose proof (daytime_head (msecs t) [] Ht) as Hh. rewrite app_nil_r in Hh.
  rewrite skip_char_digit by (exact Hh || reflexivity).
  destruct (daytime_text_parse syn (msecs t) [] Ht eq_refl) as [P L]. rewrite app_nil_r in P.
  rewrite P. change (negb (12 =? 0)) with true. cbn iota.
  assert (skipn (Z.to_nat 12) (daytime_tostr (msecs t)) = []) as -> by (apply skipn_all2; rewrite L; cbn; lia).
  unfold daytime_ok in Ht.
  rewrite (proj2 (Z.eqb_neq (days t) date_nil)), (proj2 (Z.eqb_neq (msecs t) daytime_nil))
    by (date_limits; lia).
  cbn [negb orb]. change (gmt_offset []) with (@None Z, @nil Z). cbn iota.
  rewrite timestamp_inside_nodst by (assumption || lia).
  destruct (get_offset_create minutes Hmin) as (-> & _ & _).
  unfold consumed. cbn [List.length]. rewrite Z.sub_0_r. destruct t; reflexivity.
Qed.

(** A text that starts with "nil" is read as nil, and nothing of it is consumed. *)
Lemma nil_text_parse syn tz rest : timestamp_fromstr syn tz (lit "nil" ++ rest) = Some (0, timestamp_nil).
Proof.
  assert (E : date_fromstr syn (lit "nil" ++ rest) = (0, date_nil)) by (destruct syn; reflexivity).
  unfold timestamp_fromstr. rewrite E. cbn [Z.ltb Z.compare andb negb orb]. f_equal. f_equal.
  unfold consumed. change (skipn (Z.to_nat 0) (lit "nil" ++ rest)) with (lit "nil" ++ rest). lia.
Qed.

(** Whether a local time has a text: it is in the calendar, and its day is not the 29th of
    February of a year before the common era. *)
Definition has_text (t : timestamp) : bool :=
  let '(d, m, y) := fromdate (days t) in
  negb (ts_isnil t) && negb ((y <=? 0) && (m =? 2) && (d =? 29)).

(** The 29th of February of a year before the common era is printed as nil. *)
Lemma leap_day_text n d m y : date_ok n -> fromdate n = (d, m, y) ->
  (y <=? 0) && (m =? 2) && (d =? 29) = true -> date_tostr n = lit "nil".
Proof.
  intros Hn E L. pose proof (todate_fromdate_aux n d m y Hn E) as T. rewrite L in T.
  unfold date_tostr. rewrite E. destruct (DATE d m y) eqn:D; [|now rewrite orb_true_r].
  pose proof (todate_bounds_aux d m y D) as B. rewrite T in B. exfalso. revert B. vm_compute. intros [F _]. now apply F.
Qed.

(** C39: Timestamps survive printing and parsing in a zone without daylight
    saving: what is printed in the zone's local time is parsed back, to its
    last byte, to the same GMT timestamp.  This is so when the local time is in
    the calendar and not on the 29th of February of a year before the common era;
    otherwise the text begins with "nil", and nil is read back. *)
Theorem timestamp_fromstr_tostr syn v minutes : Z.abs minutes < 24 * 60 -> ts_ok v ->
  exists buf, timestamp_tz_tostr v (tzone_create minutes) = Some buf /\
    timestamp_fromstr syn (tzone_create minutes) buf =
    Some (if has_text (MTIMEtimestamp_add v (minutes * 60000)) then (Z.of_nat (List.length buf), v)
          else (0, timestamp_nil)).
Proof.
  intros Hmin Hv. destruct (offset_duration minutes Hmin) as [D1 D2].
  pose proof (timestamp_add_refines v (minutes * 60000) Hv D1) as T. cbv zeta in T.
  unfold timestamp_tz_tostr. rewrite ts_ok_not_nil by exact Hv. cbn [negb].
  rewrite timestamp_local_nodst by exact Hmin.
  generalize dependent (MTIMEtimestamp_add v (minutes * 60000)). intros tmp T. eexists. split; [reflexivity|]. unfold has_text.
  destruct (fromdate (days tmp)) as [[d m] y] eqn:E.
  destruct T as [[Ho A]|[-> _]].
  2:{ change (ts_isnil timestamp_nil) with true. cbn [negb andb]. exact (nil_text_parse syn _ []). }
  rewrite ts_ok_not_nil by exact Ho. cbn [negb andb].
  destruct ((y <=? 0) && (m =? 2) && (d =? 29)) eqn:L; cbn [negb].
  { rewrite (leap_day_text _ d m y (proj1 Ho) E L). apply nil_text_parse. }
  assert (R : regular d m y).
  { unfold regular. rewrite !andb_false_iff, Z.leb_gt, !Z.eqb_neq in L. lia. }
  rewrite (timestamp_text_parse syn tmp d m y minutes) by assumption. do 2 f_equal.
  destruct (timestamp_add_refines tmp (minutes * -60000) Ho D2) as [[Hb B]|[_ N]].
  - apply ts_abs_inj; [exact Hb|exact Hv|lia].
  - exfalso. apply N. destruct Hv as [Hv1 Hv2]. unfold ts_abs, date_ok, daytime_ok in *.
    change DAY_MSECS with 86400000 in *. lia.
Qed.

Lemma timestamp_fromstr_tostr_witness :
  exists buf, timestamp_tz_tostr (mk_ts 82800000 735367) (tzone_create 60) = Some buf /\
    timestamp_fromstr true (tzone_create 60) buf = Some (Z.of_nat (List.length buf), mk_ts 82800000 735367).
Proof.
  apply (timestamp_fromstr_tostr true (mk_ts 82800000 735367) 60);
    [lia|vm_compute; repeat split; discriminate].
Defined.

(** ** Round trip of rules

    A rule's text is a head (month, day, weekday) and a time, separated by
    ['@'].  No word of the head contains ['@'], so the head parser never
    looks beyond it: what it does on the head alone, which is checked for
    every rule by computation, it does on the whole text. *)

(** [s] ends in the separator, [s'] continues after it with [rest]. *)
Definition ext (rest s s' : cstr) : Prop := exists q, s = q ++ [64] /\ s' = q ++ 64 :: rest.

Definition no_at (pat : cstr) : bool := forallb (fun c => negb (c =? 64)) pat.

Lemma ext_flexi rest q : forall pat hit min sp, no_at pat = true ->
  flexi (q ++ 64 :: rest) pat hit min sp = flexi (q ++ [64]) pat hit min sp /\
  hit <= fst (flexi (q ++ [64]) pat hit min sp) <= hit + Z.of_nat (List.length q).
Proof.
  induction q as [|c q IH]; intros pat hit min sp Hp.
  - destruct pat as [|p pat]; cbn [app flexi fst List.length]; [split; [reflexivity|lia]|].
    cbn [no_at forallb] in Hp. apply andb_prop in Hp as [Hp _]. apply negb_true_iff in Hp.
    change (LOWER 64) with 64. rewrite Z.eqb_sym, Hp. change (isspace 64) with false.
    cbn [andb fst]. split; [reflexivity|lia].
  - destruct pat as [|p pat]; cbn [app flexi List.length]; [split; [reflexivity|cbn [fst]; lia]|].
    pose proof Hp as Hp'. cbn [no_at forallb] in Hp'. apply andb_prop in Hp' as [_ Hp'].
    destruct (LOWER c =? p); [|destruct (isspace c && sp)].
    + destruct (IH pat (hit + 1) min (isspace p) Hp') as [-> B]. split; [reflexivity|lia].
    + destruct (IH (p :: pat) (hit + 1) (min + 1) sp Hp) as [-> B]. split; [reflexivity|lia].
    + split; [reflexivity|cbn [fst]; lia].
Qed.

Lemma ext_fleximatch rest s s' pat min : ext rest s s' -> no_at pat = true ->
  fleximatch s' pat min = fleximatch s pat min /\
  0 <= fleximatch s pat min < Z.of_nat (List.length s).
Proof.
  intros (q & -> & ->) Hp. unfold fleximatch.
  destruct (ext_flexi rest q pat 0 (if min =? 0 then Z.of_nat (List.length pat) else min) false Hp) as [-> B].
  split; [reflexivity|]. rewrite length_app. cbn [List.length].
  destruct (flexi _ _ _ _ _) as [hit m]. cbn [fst] in B. destruct (m <=? hit); lia.
Qed.

Lemma ext_parse_substr rest s s' min table : ext rest s s' -> forallb no_at table = true ->
  parse_substr s' min table = parse_substr s min table /\
  0 <= snd (parse_substr s min table) < Z.of_nat (List.length s).
Proof.
  intros H. unfold parse_substr. generalize 1 as i.
  induction table as [|pat table IH]; intros i Ht; cbn [parse_substr_from].
  - split; [reflexivity|]. destruct H as (q & -> & _). rewrite length_app. cbn [snd List.length]. lia.
  - cbn [forallb] in Ht. apply andb_prop in Ht as [Hp Ht].
    destruct (ext_fleximatch rest s s' pat min H Hp) as [-> B]. cbv zeta.
    destruct (0 <? fleximatch s pat min); [split; [reflexivity|exact B]|apply IH, Ht].
Qed.

Lemma ext_skipn rest s s' n : ext rest s s' -> (n < List.length s)%nat -> ext rest (skipn n s) (skipn n s').
Proof.
  intros (q & -> & ->) Hn. rewrite length_app in Hn. cbn [List.length] in Hn.
  exists (skipn n q). rewrite !skipn_app. replace (n - List.length q)%nat with 0%nat by lia.
  split; reflexivity.
Qed.

Lemma ext_cat rest s s' n : ext rest s s' -> (n < List.length s)%nat -> cat s' n = cat s n.
Proof.
  intros (q & -> & ->) Hn. rewrite length_app in Hn. cbn [List.length] in Hn. unfold cat.
  destruct (Nat.eq_dec n (List.length q)) as [->|].
  - rewrite !nth_middle. reflexivity.
  - rewrite !app_nth1 by lia. reflexivity.
Qed.

Lemma ext_nonempty rest s s' : ext rest s s' -> (0 < List.length s)%nat.
Proof. intros (q & -> & _). rewrite length_app. cbn. lia. Qed.

Lemma ext_scan_while rest lim s s' v : ext rest s s' ->
  fst (scan_while lim s' v) = fst (scan_while lim s v) /\
  ext rest (snd (scan_while lim s v)) (snd (scan_while lim s' v)).
Proof.
  intros (q & -> & ->). revert v. induction q as [|c q IH]; intros v; cbn [app scan_while].
  - change (isdigit 64) with false. cbn [andb fst snd]. split; [reflexivity|]. exists []. split; reflexivity.
  - destruct (isdigit c && (v <? lim)); [apply IH|]. cbn [fst snd].
    split; [reflexivity|]. exists (c :: q). split; reflexivity.
Qed.

(** Two heads that differ only in what follows the separator. *)
Definition head_ext (rest : cstr) (o o' : option rule_head) : Prop :=
  match o, o' with
  | Some h, Some h' =>
      h' = mk_head (h_day h) (h_month h) (h_weekday h) (h_neg_day h) (h_neg_weekday h) (h_rest h') /\
      ext rest (h_rest h) (h_rest h')
  | None, None => True
  | _, _ => False
  end.

Lemma ext_skip_match rest s s' j : ext rest s s' -> 0 <= j < Z.of_nat (List.length s) ->
  ext rest (skipn (Z.to_nat j) s) (skipn (Z.to_nat j) s').
Proof. intros H B. apply ext_skipn; [exact H|lia]. Qed.

Ltac ext_word H pat min :=
  let E := fresh in let B := fresh "B" in
  destruct (ext_fleximatch _ _ _ pat min H eq_refl) as [E B]; rewrite E; clear E.
Ltac ext_table H table min :=
  let E := fresh in let B := fresh "B" in
  destruct (ext_parse_substr _ _ _ min table H eq_refl) as [E B]; rewrite E; clear E.
Ltac head_done H := cbn [head_ext h_day h_month h_weekday h_neg_day h_neg_weekday h_rest];
  try exact I; try (split; [reflexivity|apply ext_skip_match; [exact H|assumption]]).

Lemma ext_rule_weekday_part rest day s s' : ext rest s s' ->
  head_ext rest (rule_weekday_part day s) (rule_weekday_part day s').
Proof.
  intros H. unfold rule_weekday_part. ext_table H DAYS 3.
  destruct (parse_substr s 3 DAYS) as [weekday j]. cbn [snd] in B.
  pose proof (ext_skip_match _ _ _ j H B) as H1. cbv zeta.
  destruct (weekday =? int_nil); [exact I|].
  set (c := skipn (Z.to_nat j) s) in *. set (c' := skipn (Z.to_nat j) s') in *.
  ext_word H1 (lit " from start of ") 0. ext_word H1 (lit " from end of ") 0.
  ext_word H1 (lit " on or after ") 0. ext_word H1 (lit " on or before ") 0.
  destruct (if fleximatch c (lit " from start of ") 0 =? 0 then _ else _) as [pos nd] eqn:Ep.
  assert (0 <= pos < Z.of_nat (List.length c)) as Bp.
  { destruct (fleximatch c (lit " from start of ") 0 =? 0); injection Ep as <- <-; assumption. }
  destruct (negb (pos =? 0) && (day <? 6)).
  - pose proof (ext_skip_match _ _ _ pos H1 Bp) as H2. ext_table H2 MONTHS 3.
    destruct (parse_substr _ 3 MONTHS) as [month k]. cbn [snd] in *.
    destruct (k =? 0); head_done H2.
  - destruct (day =? 1); [|destruct (day =? 6)].
    + destruct (fleximatch c (lit " on or after ") 0 =? 0); head_done H1.
    + destruct (fleximatch c (lit " on or before ") 0 =? 0); head_done H1.
    + destruct (pos =? 0); head_done H1.
Qed.

Lemma ext_rule_day_part rest h h' : head_ext rest (Some h) (Some h') ->
  head_ext rest (rule_day_part h) (rule_day_part h').
Proof.
  intros [-> H]. cbn [h_rest] in H. unfold rule_day_part.
  cbn [h_day h_month h_weekday h_neg_day h_neg_weekday h_rest].
  destruct (h_day h =? int_nil); [|split; [reflexivity|exact H]].
  ext_table H MONTHS 3. destruct (parse_substr _ 3 MONTHS) as [month j]. cbn [snd] in B.
  pose proof (ext_skip_match _ _ _ j H B) as H1. cbv zeta.
  set (c := skipn (Z.to_nat j) (h_rest h)) in *. set (c' := skipn (Z.to_nat j) (h_rest h')) in *.
  pose proof (ext_cat _ _ _ 0 H1 (ext_nonempty _ _ _ H1)) as Hh.
  assert (chead c' = chead c) as -> by (revert Hh; destruct c', c; exact (fun E => E)).
  destruct (month =? int_nil); [exact I|]. cbn [orb].
  destruct (Z.eqb_spec (chead c) 32) as [E|E]; [|exact I]. cbn [negb orb].
  assert (1 < List.length c)%nat as L.
  { destruct H1 as (q & Eq & _). rewrite Eq in *. destruct q; [discriminate|]. cbn. rewrite length_app. cbn. lia. }
  rewrite (ext_cat _ _ _ 1 H1 L). destruct (isdigit (cat c 1)); [|exact I]. cbn [negb].
  assert (ext rest (tl c) (tl c')) as H2.
  { pose proof (ext_skipn _ _ _ 1 H1 L) as X. destruct c, c'; exact X. }
  destruct (ext_scan_while rest 31 _ _ 0 H2) as [F S].
  destruct (scan_while 31 (tl c) 0) as [d r], (scan_while 31 (tl c') 0) as [d' r']. cbn [fst snd] in F, S.
  subst d'. split; [reflexivity|exact S].
Qed.

Lemma ext_rule_head rest s s' : ext rest s s' ->
  head_ext rest (rule_head_fromstr s) (rule_head_fromstr s').
Proof.
  intros H. unfold rule_head_fromstr. ext_table H COUNT1 0. ext_table H COUNT2 0.
  destruct (parse_substr s 0 COUNT1) as [d1 p1], (parse_substr s 0 COUNT2) as [d2 p2].
  cbn [snd] in *. destruct (if p1 =? 0 then _ else _) as [day pos] eqn:Ep.
  assert (0 <= pos < Z.of_nat (List.length s)) as Bp
    by (destruct (p1 =? 0); injection Ep as <- <-; assumption).
  rewrite (ext_cat _ _ _ (Z.to_nat pos) H) by lia. cbv zeta.
  destruct (Z.eqb_spec (cat s (Z.to_nat pos)) 32) as [E|E];
    [|rewrite andb_false_r; apply ext_rule_day_part; split; [reflexivity|exact H]].
  destruct (pos =? 0); cbn [negb andb].
  { apply ext_rule_day_part. split; [reflexivity|exact H]. }
  assert (Z.to_nat pos + 1 < List.length s)%nat as L.
  { destruct H as (q & Eq & _). rewrite Eq in *. rewrite length_app in *. cbn [List.length] in *.
    destruct (Nat.eq_dec (Z.to_nat pos) (List.length q)) as [X|]; [|lia].
    unfold cat in E. rewrite X, nth_middle in E. discriminate. }
  pose proof (ext_rule_weekday_part rest day _ _ (ext_skipn _ _ _ _ H L)) as W.
  destruct (rule_weekday_part day (skipn (Z.to_nat pos + 1) s)),
    (rule_weekday_part day (skipn (Z.to_nat pos + 1) s'));
    [apply ext_rule_day_part, W|exact (False_ind _ W)|exact (False_ind _ W)|exact I].
Qed.

(** The head [rule_tostr] prints. *)
Definition rule_head_text (m day weekday : Z) : cstr :=
  if weekday =? 0 then name MONTHS m ++ lit " " ++ fmt_d day
  else if (0 <? weekday) && (0 <? day) then
    count1 day ++ lit " " ++ name DAYS weekday ++ lit " from start of " ++ name MONTHS m
  else if (0 <? weekday) && (day <? 0) then
    count1 (- day) ++ lit " " ++ name DAYS weekday ++ lit " from end of " ++ name MONTHS m
  else if 0 <? day then
    lit "first " ++ name DAYS (- weekday) ++ lit " on or after " ++ name MONTHS m ++ lit " " ++ fmt_d day
  else
    lit "last " ++ name DAYS (- weekday) ++ lit " on or before " ++ name MONTHS m ++ lit " " ++ fmt_d (- day).

Definition rule_time_text (minutes : Z) : cstr :=
  lit "@" ++ fmt_0d 2 (Z.quot minutes 60) ++ lit ":" ++ fmt_0d 2 (Z.rem minutes 60).

(** The rules whose text names their day: at most the fifth weekday. *)
Definition rule_printable (day weekday : Z) : Prop := 0 < weekday -> Z.abs day <= 5.

Lemma asint_create m minutes day weekday :
  1 <= m <= 12 -> 0 <= minutes < 2048 -> 0 <= day < 64 -> 0 <= weekday < 16 ->
  asint (mk_rule m minutes day weekday 64) <> int_nil.
Proof.
  intros Hm Hmin Hd Hw. unfold asint. cbn [r_month r_minutes r_day r_weekday r_empty].
  rewrite !Z.shiftl_mul_pow2 by lia. unfold swrap, int_nil.
  change (2 ^ 4) with 16. change (2 ^ 15) with 32768. change (2 ^ 21) with 2097152.
  change (2 ^ 25) with 33554432. change (2 ^ (32 - 1)) with 2147483648. change (2 ^ 32) with 4294967296.
  set (v := m + minutes * 16 + day * 32768 + weekday * 2097152).
  assert (0 < v < 2147483648) by (unfold v; lia).
  replace (v + 64 * 33554432 + 2147483648) with (v + 1 * 4294967296) by lia.
  rewrite Z.mod_add by lia. rewrite Z.mod_small by lia. lia.
Qed.

Lemma rule_tostr_text m day weekday minutes : rule_args m day weekday minutes ->
  rule_tostr (rule_create m day weekday minutes) =
  rule_head_text m day weekday ++ rule_time_text minutes.
Proof.
  intros H. rewrite rule_create_fields by exact H. destruct H as (Hm & Hw & Hmin & Hd & Hz).
  pose proof (NODAYS_bound m Hm).
  unfold rule_tostr. rewrite (proj2 (Z.eqb_neq (asint _) int_nil)) by (apply asint_create; lia).
  cbn [r_month r_minutes r_day r_weekday]. unfold rule_head_text, rule_time_text, DAY_ZERO, WEEKDAY_ZERO.
  cbv zeta. replace (32 + day - 32) with day by lia. replace (32 - (32 + day)) with (- day) by lia.
  replace (8 + weekday - 8) with weekday by lia. replace (8 - (8 + weekday)) with (- weekday) by lia.
  destruct (Z.eqb_spec (8 + weekday) 8), (Z.eqb_spec weekday 0), (Z.ltb_spec 8 (8 + weekday)),
    (Z.ltb_spec 0 weekday), (Z.ltb_spec 32 (32 + day)), (Z.ltb_spec 0 day), (Z.ltb_spec (32 + day) 32),
    (Z.ltb_spec day 0); try lia; cbn [andb]; rewrite <- ?app_assoc; reflexivity.
Qed.

Definition rule_head_eqb (a b : rule_head) : bool :=
  (h_day a =? h_day b) && (h_month a =? h_month b) && (h_weekday a =? h_weekday b) &&
  Bool.eqb (h_neg_day a) (h_neg_day b) && Bool.eqb (h_neg_weekday a) (h_neg_weekday b) &&
  cstr_eqb (h_rest a) (h_rest b).

Lemma rule_head_eqb_eq a b : rule_head_eqb a b = true -> a = b.
Proof.
  unfold rule_head_eqb. destruct a, b. cbn. intros H. breflect.
  repeat match goal with H : Bool.eqb _ _ = true |- _ => apply Bool.eqb_prop in H end.
  match goal with H : cstr_eqb _ _ = true |- _ => apply cstr_eqb_eq in H end. congruence.
Qed.

Definition rule_head_check (m day weekday : Z) : bool :=
  if (day =? 0) || ((weekday =? 0) && (day <? 0)) || ((0 <? weekday) && (5 <? Z.abs day)) then true
  else
    match rule_head_fromstr (rule_head_text m day weekday ++ [64]) with
    | Some h => rule_head_eqb h (mk_head (Z.abs day) m (Z.abs weekday) (day <? 0) (weekday <? 0) [64])
    | None => false
    end.

Lemma rule_head_checked :
  forallb (fun m => forallb (fun day => forallb (rule_head_check m day) (zrange (-7) 15))
    (zrange (-31) 63)) (zrange 1 12) = true.
Proof. vm_compute. reflexivity. Qed.

Lemma rule_head_at m day weekday minutes : rule_args m day weekday minutes ->
  rule_printable day weekday ->
  rule_head_fromstr (rule_head_text m day weekday ++ [64]) =
  Some (mk_head (Z.abs day) m (Z.abs weekday) (day <? 0) (weekday <? 0) [64]).
Proof.
  intros (Hm & Hw & _ & Hd & Hz) P. pose proof (NODAYS_bound m Hm).
  pose proof rule_head_checked as C.
  apply (zrange_check _ 1 12) with (z := m) in C; [|lia].
  apply (zrange_check _ (-31) 63) with (z := day) in C; [|lia].
  apply (zrange_check _ (-7) 15) with (z := weekday) in C; [|lia].
  unfold rule_head_check in C. unfold rule_printable in P.
  match type of C with (if ?b then _ else _) = _ => replace b with false in C end.
  - destruct (rule_head_fromstr _) as [h|]; [|discriminate]. apply rule_head_eqb_eq in C. congruence.
  - symmetry. rewrite !orb_false_iff, !andb_false_iff, Z.eqb_neq, !Z.ltb_ge, Z.eqb_neq. lia.
Qed.

Lemma rule_time_parse m day weekday minutes d0 (nd nw : bool) buf :
  0 <= minutes < 1440 -> 1 <= d0 <= NODAYS m -> 1 <= m <= 12 -> 0 <= weekday <= 7 ->
  day = (if nd then - d0 else d0) ->
  rule_time (mk_head d0 m weekday nd nw (rule_time_text minutes)) buf =
  (consumed buf [], mk_rule m minutes (32 + day) (8 + (if nw then - weekday else weekday)) 64).
Proof.
  intros Hmin Hd Hm Hw Ed. pose proof (NODAYS_bound m Hm). unfold rule_time, rule_time_text.
  cbn [h_rest h_day h_month h_weekday h_neg_day h_neg_weekday].
  set (h := Z.quot minutes 60). set (mi := Z.rem minutes 60).
  assert (0 <= h < 24 /\ 0 <= mi < 60 /\ minutes = h * 60 + mi) as (Hh & Hmi & Em) by (unfold h, mi; divlia).
  change (lit "@") with [64]. change (lit ":") with [58]. cbn [app hd tl].
  change (64 =? 64) with true. cbn [negb orb].
  assert (forall t c n, 0 <= n < 100 -> isdigit (cat (c :: fmt_0d 2 n ++ t) 1) = true) as D2.
  { intros t c n Hn. rewrite fmt_02d by exact Hn. cbn [app cat nth]. apply digit_true; divlia. }
  rewrite D2 by lia. cbn [negb]. rewrite scan_while_2 by (lia || reflexivity). cbn [app hd tl].
  change (58 =? 58) with true. cbn [negb orb].
  rewrite <- (app_nil_r (fmt_0d 2 mi)). rewrite D2 by lia. cbn [negb].
  rewrite scan_while_2 by (lia || reflexivity). f_equal.
  match goal with |- (if ?b then _ else _) = _ => replace b with true end;
    [|symmetry; rewrite !andb_true_iff, !Z.leb_le, !Z.ltb_lt; lia].
  unfold rule_assign, rule_nil, DAY_ZERO, WEEKDAY_ZERO. cbn [r_empty].
  rewrite <- Ed, <- Em. rewrite !uwrap_id; [reflexivity| | | |]; try lia; destruct nd, nw; lia.
Qed.

(** Daylight saving rules survive printing and parsing: every rule that
    [rule_create] makes, except those counting to a sixth or later weekday,
    is parsed back from its text, to the last byte. *)
Theorem rule_fromstr_tostr m day weekday minutes :
  rule_args m day weekday minutes -> rule_printable day weekday ->
  let r := rule_create m day weekday minutes in
  rule_fromstr (rule_tostr r) = (Z.of_nat (List.length (rule_tostr r)), r).
Proof.
  intros H P. cbv zeta. rewrite rule_tostr_text by exact H.
  pose proof (rule_head_at _ _ _ _ H P) as Hd.
  set (ht := rule_head_text m day weekday) in *.
  set (rest := fmt_0d 2 (Z.quot minutes 60) ++ lit ":" ++ fmt_0d 2 (Z.rem minutes 60)).
  change (rule_time_text minutes) with (64 :: rest).
  assert (ext rest (ht ++ [64]) (ht ++ 64 :: rest)) as X by (exists ht; split; reflexivity).
  pose proof (ext_rule_head _ _ _ X) as E. rewrite Hd in E. unfold rule_fromstr.
  destruct (rule_head_fromstr (ht ++ 64 :: rest)) as [h'|]; [|contradiction E].
  cbn [head_ext h_day h_month h_weekday h_neg_day h_neg_weekday h_rest] in E. destruct E as [-> (q & Eq & Er)].
  assert (q = []) as ->.
  { destruct q; [reflexivity|]. apply (f_equal (@List.length Z)) in Eq. rewrite length_app in Eq. cbn in Eq. lia. }
  cbn [h_rest app] in Er |- *. rewrite Er. change (64 :: rest) with (rule_time_text minutes).
  pose proof H as (Hm & Hw & Hmin & Hda & Hz).
  rewrite (rule_time_parse m day) by (lia || destruct (Z.ltb_spec day 0); lia).
  rewrite rule_create_fields by exact H. unfold consumed. cbn [List.length]. rewrite Z.sub_0_r.
  do 3 f_equal. destruct (Z.ltb_spec weekday 0); lia.
Qed.

Lemma rule_fromstr_tostr_witness :
  let r := rule_create 3 (-1) 1 120 in
  rule_fromstr (rule_tostr r) = (Z.of_nat (List.length (rule_tostr r)), r).
Proof.
  apply (rule_fromstr_tostr 3 (-1) 1 120); [|unfold rule_printable; lia].
  unfold rule_args. vm_compute. repeat split; try discriminate. left; discriminate.
Defined.

(** The rules that [MTIMEprelude] parses and the table it fills. *)
Definition RULE_MAR : rule := snd (rule_fromstr (lit "first sunday from end of march@02:00")).
Definition RULE_OCT : rule := snd (rule_fromstr (lit "first sunday from end of october@02:00")).
Definition MTIMEprelude_table : list (string * tzone) := timezones RULE_MAR RULE_OCT.
(** The local zone after start-up. *)
Definition MTIMEprelude_local : option tzone := MTIMEtimezone MTIMEprelude_table "West/Europe"%string.

(** The time zones installed at start-up: every zone in the table can be
    made the local one, the zones with daylight saving parse their rules as
    02:00 on the last Sunday of March and October, but because of the way a
    zone packs its rules they store, print and apply 02:01. *)
Theorem prelude_zones :
  Forall (fun e => MTIMEtimezone MTIMEprelude_table (fst e) = Some (snd e)) MTIMEprelude_table /\
  RULE_MAR = rule_create 3 (-1) 1 120 /\ RULE_OCT = rule_create 10 (-1) 1 120 /\
  option_map (fun z => r_minutes (MTIMEtzone_extract_start z)) MTIMEprelude_local = Some 121 /\
  option_map tzone_tostr MTIMEprelude_local =
    Some (lit "GMT+01:00-DST[first sunday from end of march@02:01,first sunday from end of october@02:01]").
Proof. repeat split; try (vm_compute; reflexivity). repeat constructor; vm_compute; reflexivity. Qed.

(** [rule_fromstr] lets hours up to 59 through where [rule_create] demands
    less than 24: a rule at 25:00 is stored rather than rejected. *)
Theorem rule_fromstr_hours :
  r_minutes (snd (rule_fromstr (lit "march 5@25:00"))) = 1500 /\
  asint (snd (rule_fromstr (lit "march 5@25:00"))) <> int_nil /\
  rule_create 3 5 0 1500 = rule_nil.
Proof. vm_compute. repeat split; discriminate. Qed.
