(* ===== verification/TimeSql.v ===== *)
(** * The [mtime] commands built on the calendar

    Models the commands of src/src/monetdb5/modules/atoms/mtime.c that SQL
    and MAL programs call on top of the operators of the other time files:
    Unix time, durations, parts of a timestamp in the local zone, names of
    months and days, and the two legacy formats.  A MAL exception is
    [Throw]. *)

From Stdlib Require Import ZArith Lia Bool List String.
Import ListNotations.
From S2P Require Import Prelude Calendar DateArith TimeZone TimeText.

Open Scope string_scope.
Open Scope Z_scope.
Open Scope list_scope.

(** Outcome of a MAL command: its result or an exception. *)
Inductive mal_result (A : Type) : Type :=
| Succeed_with (a : A)
| Throw (fcn msg : string).
Arguments Succeed_with {A} a.
Arguments Throw {A} fcn msg.

(** ** Commands on strings *)

Definition MTIMEdate_fromstr (synonyms : bool) (s : cstr) : mal_result Z :=
  if cstr_eqb s (lit "nil") then Succeed_with date_nil
  else Succeed_with (snd (date_fromstr synonyms s)).
Definition MTIMEdaytime_fromstr (synonyms : bool) (s : cstr) : mal_result Z :=
  if cstr_eqb s (lit "nil") then Succeed_with daytime_nil
  else let '(pos, d) := daytime_fromstr synonyms s in
       if pos =? 0 then Throw "mtime.daytime" "syntax error" else Succeed_with d.
Definition MTIMEtzone_fromstr (s : cstr) : mal_result tzone :=
  if cstr_eqb s (lit "nil") then Succeed_with tzone_nil
  else let '(pos, d) := tzone_fromstr s in
       if pos =? 0 then Throw "mtime.timezone" "syntax error" else Succeed_with d.

Definition MTIMEmonth_from_str (s : cstr) : Z := fst (parse_substr s 3 MONTHS).
(** The nil string is the single byte 128. *)
Definition str_nil : cstr := [128].
Definition MTIMEmonth_to_str (month : Z) : cstr :=
  if (month <? 1) || (12 <? month) then str_nil else name MONTHS month.
Definition MTIMEday_from_str (s : cstr) : Z :=
  if cstr_eqb s str_nil then int_nil else fst (parse_substr s 3 DAYS).
Definition MTIMEday_to_str (day : Z) : cstr :=
  if (day <? 1) || (7 <? day) then str_nil else name DAYS day.

(** ** Legacy formats *)

(** Digits without a bound, at [int] width. *)
Fixpoint scan_int (s : cstr) (v : Z) : Z * cstr :=
  match s with
  | c :: s' => if isdigit c then scan_int s' (i32 (v * 10 + c - 48)) else (v, s)
  | [] => (v, [])
  end.

Definition isalpha (c : Z) : bool := ((65 <=? c) && (c <=? 90)) || ((97 <=? c) && (c <=? 122)).

Record duration_state := mk_dur { du_year : Z; du_month : Z; du_day : Z; du_hour : Z; du_v : Z }.

(** One unit letter; [None] is the default case of the switch. *)
Definition duration_unit (c : Z) (st : duration_state) : option duration_state :=
  let '(mk_dur year month day hour v) := st in
  let c := LOWER c in
  if c =? 121 then Some (mk_dur v month day hour 0)
  else if c =? 109 then
    Some (mk_dur year (if negb (month =? 0) || negb (day =? 0) || negb (hour =? 0) then month else v)
            day hour 0)
  else if c =? 100 then Some (mk_dur year month v hour 0)
  else if c =? 104 then Some (mk_dur year month day v 0)
  else if c =? 115 then Some (mk_dur year month day hour 0)
  else None.

(** The loop over the string; every round consumes at least one byte, so the
    length of the string is enough fuel. *)
Fixpoint duration_loop (fuel : nat) (s : cstr) (st : duration_state) : option Z :=
  let stop := i32 (du_year st * 365 + du_month st * 30 + du_day st) in
  match fuel with
  | O => Some stop
  | S fuel =>
      match s with
      | [] => Some stop
      | c :: s' =>
          if isdigit c then
            let '(v, s) := scan_int s 0 in
            duration_loop fuel s (mk_dur (du_year st) (du_month st) (du_day st) (du_hour st) v)
          else if isalpha c then
            match duration_unit c st with
            | Some st => duration_loop fuel s' st
            | None => None
            end
          else duration_loop fuel s' st
      end
  end.

Definition oldduration (s : cstr) : Z :=
  match duration_loop (List.length s) s (mk_dur 0 0 0 0 0) with
  | Some ndays => ndays
  | None => int_nil
  end.

Definition olddate (buf : cstr) : mal_result Z :=
  let yearneg := chead buf =? 45 in
  let s := if yearneg then tl buf else buf in
  if negb (isdigit (chead s)) then Throw "mtime.olddate" "syntax error"
  else
    let '(year, s) := scan_break YEAR_MAX s 0 in
    let '(month, j) := parse_substr s 3 MONTHS in
    let s := skipn (Z.to_nat j) s in
    if month =? int_nil then Throw "mtime.olddate" "syntax error"
    else if negb (isdigit (chead s)) then Throw "mtime.olddate" "syntax error"
    else
      let '(day, s) := scan_past 31 s 0 in
      Succeed_with (todate day month (if yearneg then - year else year)).

(** ** Unix time and durations *)

Definition MTIMEmsecs (d h m s ms : Z) : Z :=
  if (d =? int_nil) || (h =? int_nil) || (m =? int_nil) || (s =? int_nil) || (ms =? int_nil)
  then lng_nil
  else ms + i32 (1000 * (s + 60 * (m + 60 * (h + 24 * d)))).

Definition MTIMEdaytime1 (h : Z) : Z := totime h 0 0 0.
Definition MTIMEdaytime2 (h m : Z) : Z := totime h m 0 0.
Definition MTIMEdaytime3 (h m s : Z) : Z := totime h m s 0.
Definition MTIMEsecs2daytime (s : Z) : Z := i32 (i64 (s * 1000)).

(** [timestamp_create] has no failure; its [None] is a fuel that ran out in
    the rules of the zone, which cannot happen in GMT, a zone without rules
    (the value is computed in [unix_epoch_value]). *)
Definition MTIMEunix_epoch : mal_result timestamp :=
  let d0 := todate 1 1 1970 in
  let d1 := totime 0 0 0 0 in
  match MTIMEtzone_fromstr (lit "GMT") with
  | Throw f m => Throw f m
  | Succeed_with d2 =>
      match timestamp_create d0 d1 d2 with
      | Some ts => Succeed_with ts
      | None => Throw "mtime.epoch" "rule"
      end
  end.

Definition MTIMEepoch2int (t : timestamp) : mal_result Z :=
  match MTIMEunix_epoch with
  | Throw f m => Throw f m
  | Succeed_with e =>
      let v := MTIMEtimestamp_diff t e in
      Succeed_with (if v =? lng_nil then int_nil else i32 (Z.quot v 1000))
  end.

Definition MTIMEtimestamp (sec : Z) : mal_result timestamp :=
  if sec =? int_nil then Succeed_with timestamp_nil
  else
    match MTIMEunix_epoch with
    | Throw f m => Throw f m
    | Succeed_with t => Succeed_with (MTIMEtimestamp_add t (sec * 1000))
    end.

Definition MTIMEtimestamp_lng (msec : Z) : mal_result timestamp :=
  match MTIMEunix_epoch with
  | Throw f m => Throw f m
  | Succeed_with t => Succeed_with (MTIMEtimestamp_add t msec)
  end.

Definition MTIMEruleDef0 (m d w h mint : Z) : rule :=
  let d0 := 60 * h in
  let d1 := i32 (d0 + mint) in
  rule_create m d w d1.

Definition MTIMEsql_year (t : Z) : Z := if t =? int_nil then int_nil else Z.quot t 12.
Definition MTIMEsql_month (t : Z) : Z := if t =? int_nil then int_nil else Z.rem t 12.
Definition MTIMEsql_day (t : Z) : Z := if t =? lng_nil then lng_nil else Z.quot t 86400000.
Definition MTIMEsql_hours (t : Z) : Z :=
  if t =? lng_nil then int_nil else i32 (Z.quot (Z.rem t 86400000) 3600000).
Definition MTIMEsql_minutes (t : Z) : Z :=
  if t =? lng_nil then int_nil else i32 (Z.quot (Z.rem t 3600000) 60000).
Definition MTIMEsql_seconds (t : Z) : Z :=
  if t =? lng_nil then int_nil else i32 (Z.quot (Z.rem t 60000) 1000).

(** ** Parts of a timestamp in the local zone *)

Definition MTIMEtimestamp_year (tzone_local : tzone) (t : timestamp) : option Z :=
  option_map date_extract_year (timestamp_extract_date t tzone_local).
Definition MTIMEtimestamp_month (tzone_local : tzone) (t : timestamp) : option Z :=
  option_map date_extract_month (timestamp_extract_date t tzone_local).
Definition MTIMEtimestamp_day (tzone_local : tzone) (t : timestamp) : option Z :=
  option_map date_extract_day (timestamp_extract_date t tzone_local).
Definition MTIMEtimestamp_hours (tzone_local : tzone) (t : timestamp) : option Z :=
  option_map daytime_extract_hours (timestamp_extract_daytime t tzone_local).
Definition MTIMEtimestamp_minutes (tzone_local : tzone) (t : timestamp) : option Z :=
  option_map daytime_extract_minutes (timestamp_extract_daytime t tzone_local).
Definition MTIMEtimestamp_seconds (tzone_local : tzone) (t : timestamp) : option Z :=
  option_map daytime_extract_seconds (timestamp_extract_daytime t tzone_local).
Definition MTIMEtimestamp_sql_seconds (tzone_local : tzone) (t : timestamp) : option Z :=
  option_map daytime_extract_sql_seconds (timestamp_extract_daytime t tzone_local).
Definition MTIMEtimestamp_milliseconds (tzone_local : tzone) (t : timestamp) : option Z :=
  option_map daytime_extract_milliseconds (timestamp_extract_daytime t tzone_local).

(** ** Properties *)

Lemma unix_epoch_value : MTIMEunix_epoch = Succeed_with (mk_ts 0 719528).
Proof. vm_compute. reflexivity. Qed.

(** Unix time round trip: every 32-bit number of seconds except nil becomes
    a timestamp from which the same number of seconds is read back. *)
Theorem unix_time_round_trip sec : int_nil < sec < 2 ^ 31 ->
  exists t, MTIMEtimestamp sec = Succeed_with t /\ MTIMEepoch2int t = Succeed_with sec.
Proof.
  unfold int_nil. intros H. unfold MTIMEtimestamp, MTIMEepoch2int. rewrite unix_epoch_value.
  rewrite (proj2 (Z.eqb_neq sec int_nil)) by (unfold int_nil; lia).
  eexists; split; [reflexivity|].
  assert (ts_ok (mk_ts 0 719528)) as He by (vm_compute; repeat split; discriminate).
  assert (duration_ok (sec * 1000)) as D by (unfold duration_ok; change DAY_MSECS with 86400000; lia).
  destruct (timestamp_add_refines _ _ He D) as [[Hr E]|[_ N]].
  2: { exfalso. apply N. date_limits. change DAY_MSECS with 86400000. unfold ts_abs.
       cbn [days msecs]. change DAY_MSECS with 86400000. lia. }
  set (r := MTIMEtimestamp_add _ _) in *. unfold MTIMEtimestamp_diff.
  rewrite !ts_ok_not_nil by assumption. cbn [orb days msecs].
  destruct Hr as [Hrd Hrm]. unfold ts_abs, daytime_ok in *. cbn [days msecs] in E.
  change DAY_MSECS with 86400000 in *.
  rewrite (i32_id (days r - 719528)), (i32_id (msecs r - 0)) by lia. rewrite i64_id by lia.
  replace ((days r - 719528) * 86400000 + (msecs r - 0)) with (sec * 1000) by lia.
  rewrite (proj2 (Z.eqb_neq (sec * 1000) lng_nil)) by (unfold lng_nil; lia).
  rewrite Z.quot_mul by lia. rewrite i32_id by lia. reflexivity.
Qed.

Lemma unix_time_round_trip_witness :
  exists t, MTIMEtimestamp 1368489600 = Succeed_with t /\ MTIMEepoch2int t = Succeed_with 1368489600.
Proof. apply (unix_time_round_trip 1368489600). unfold int_nil. lia. Defined.

(** A duration made from days and a time of day falls apart into the same
    days, hours, minutes and seconds, as long as it is shorter than 2^31
    milliseconds. *)
Theorem MTIMEmsecs_parts d h m s ms :
  0 <= d -> 0 <= h < 24 -> 0 <= m < 60 -> 0 <= s < 60 -> 0 <= ms < 1000 ->
  1000 * (s + 60 * (m + 60 * (h + 24 * d))) < 2 ^ 31 ->
  let t := MTIMEmsecs d h m s ms in
  MTIMEsql_day t = d /\ MTIMEsql_hours t = h /\ MTIMEsql_minutes t = m /\ MTIMEsql_seconds t = s.
Proof.
  intros Hd Hh Hm Hs Hms Hb. cbv zeta. unfold MTIMEmsecs.
  rewrite !(proj2 (Z.eqb_neq _ int_nil)) by (unfold int_nil; lia). cbn [orb].
  rewrite i32_id by lia.
  unfold MTIMEsql_day, MTIMEsql_hours, MTIMEsql_minutes, MTIMEsql_seconds.
  rewrite (proj2 (Z.eqb_neq _ lng_nil)) by (unfold lng_nil; lia).
  set (t := ms + 1000 * (s + 60 * (m + 60 * (h + 24 * d)))).
  assert (Z.rem t 86400000 = ms + 1000 * (s + 60 * (m + 60 * h))) as -> by (unfold t; divlia).
  assert (Z.rem t 3600000 = ms + 1000 * (s + 60 * m)) as -> by (unfold t; divlia).
  assert (Z.rem t 60000 = ms + 1000 * s) as -> by (unfold t; divlia).
  rewrite !i32_id by divlia. unfold t. repeat split; divlia.
Qed.

Lemma MTIMEmsecs_parts_witness :
  let t := MTIMEmsecs 24 20 31 23 999 in
  MTIMEsql_day t = 24 /\ MTIMEsql_hours t = 20 /\ MTIMEsql_minutes t = 31 /\ MTIMEsql_seconds t = 23.
Proof. apply (MTIMEmsecs_parts 24 20 31 23 999); lia. Defined.

(** The sum of [MTIMEmsecs] is computed at 32 bits before it is stored in
    64: thirty days come out as a negative number of milliseconds. *)
Theorem MTIMEmsecs_wraps : MTIMEmsecs 30 0 0 0 0 = 30 * DAY_MSECS - 2 ^ 32.
Proof. reflexivity. Qed.

(** Names of months and days round trip through their numbers, in the
    printed lower case and from any case and any prefix of three letters. *)
Theorem month_day_names :
  forallb (fun m => (MTIMEmonth_from_str (MTIMEmonth_to_str m) =? m) &&
     (MTIMEmonth_from_str (map (fun c => c - 32) (firstn 3 (MTIMEmonth_to_str m))) =? m))
    (zrange 1 12) = true /\
  forallb (fun d => (MTIMEday_from_str (MTIMEday_to_str d) =? d) &&
     (MTIMEday_from_str (map (fun c => c - 32) (firstn 3 (MTIMEday_to_str d))) =? d))
    (zrange 1 7) = true.
Proof. vm_compute. split; reflexivity. Qed.

(** The legacy date format reads back what it spells: year, month name and
    day written together denote that date. *)
Theorem olddate_spec d m y :
  DATE d m y = true -> 0 < y ->
  olddate (fmt_d y ++ name MONTHS m ++ fmt_0d 2 d) = Succeed_with (todate d m y).
Proof.
  intros H Hy. apply DATE_spec in H. destruct H as (Hm & Hd & _ & Hb).
  pose proof (MONTHDAYS_bounds m y Hm).
  assert (0 <= y < 10 ^ 20) as Hdec by (unfold YEAR_MAX in Hb; lia).
  unfold olddate, fmt_d. rewrite (proj2 (Z.ltb_ge y 0)) by lia.
  set (tail := name MONTHS m ++ fmt_0d 2 d).
  pose proof (dec_head y tail Hdec) as D. pose proof D as D'. apply isdigit_range in D'.
  rewrite (proj2 (Z.eqb_neq (chead (dec y ++ tail)) 45)) by lia. cbv zeta. rewrite D. cbn [negb].
  destruct (dec_spec y Hdec) as (ds & -> & Hds & V & NE & _).
  assert (stops tail) as St by (unfold tail; months m; reflexivity).
  rewrite scan_break_digits, V by (assumption || lia).
  assert (parse_substr tail 3 MONTHS = (m, Z.of_nat (List.length (name MONTHS m)))) as ->.
  { unfold tail. rewrite fmt_02d by lia. months m; reflexivity. }
  cbn iota. rewrite Nat2Z.id. unfold tail. rewrite skipn_exact.
  rewrite (proj2 (Z.eqb_neq m int_nil)) by (unfold int_nil; lia).
  assert (isdigit (chead (fmt_0d 2 d)) = true) as ->.
  { rewrite fmt_02d by lia. cbn [hd]. apply digit_true. divlia. }
  cbn [negb]. rewrite <- (app_nil_r (fmt_0d 2 d)), scan_past_2 by (lia || reflexivity). reflexivity.
Qed.

Lemma olddate_spec_witness :
  olddate (fmt_d 1990 ++ name MONTHS 1 ++ fmt_0d 2 31) = Succeed_with (todate 31 1 1990).
Proof. apply (olddate_spec 31 1 1990); [reflexivity|lia]. Defined.
