(* ===== verification/TimeBulk.v ===== *)
(** * Bulk operators on columns of dates and times

    Models the operators on whole columns at the end of
    src/src/monetdb5/modules/atoms/mtime.c ([MTIMEdate_diff_bulk],
    [MTIMEtimestamp_diff_bulk] and the eight [..._extract_..._bulk]): the
    values and properties of the column they build, and the references to
    columns they take and give back.

    A column is what these operators see of a BAT: its head, its tail values
    and the property flags of the tail.  Access to the buffer pool is recorded
    as a list of reference operations.  [VIEWcreate] is taken to succeed, as
    the code does. *)

From Stdlib Require Import ZArith Lia Bool List String.
Import ListNotations.
From S2P Require Import Prelude Calendar DateArith TimeSql.

Open Scope string_scope.
Open Scope Z_scope.
Open Scope list_scope.

(** Messages of src/src/monetdb5/mal/mal_errors.h. *)
Definition RUNTIME_OBJECT_MISSING : string := "Object not found".
Definition MAL_MALLOC_FAIL : string := "could not allocate space for".

(** A void head starting at [seq], or a materialised one. *)
Inductive head : Type :=
| Void (seq : Z)
| Oids (l : list Z).

Record column (A : Type) : Type := mk_column {
  c_head : head;
  c_tail : list A;
  c_nonil : bool;
  c_nil : bool;
  c_sorted : bool;
  c_revsorted : bool
}.
Arguments mk_column {A} c_head c_tail c_nonil c_nil c_sorted c_revsorted.
Arguments c_head {A}.
Arguments c_tail {A}.
Arguments c_nonil {A}.
Arguments c_nil {A}.
Arguments c_sorted {A}.
Arguments c_revsorted {A}.

(** The columns of a call: its arguments, the new column and the view that
    may replace it. *)
Inductive obj : Type := Arg1 | Arg2 | New | View.

(** A physical reference taken ([BATdescriptor], [BATnew], [VIEWcreate]),
    given back ([BBPunfix], [BBPreleaseref]) or turned into the logical
    reference of the result ([BBPkeepref]). *)
Inductive ref_op : Type :=
| Fix (o : obj)
| Unfix (o : obj)
| Keep (o : obj).

Definition obj_eqb (a b : obj) : bool :=
  match a, b with Arg1, Arg1 => true | Arg2, Arg2 => true | New, New => true | View, View => true | _, _ => false end.

(** Physical references still held after a trace. *)
Definition held (o : obj) (tr : list ref_op) : Z :=
  fold_right (fun e n => n + match e with
    | Fix p => if obj_eqb o p then 1 else 0
    | Unfix p | Keep p => if obj_eqb o p then -1 else 0
    end) 0 tr.

Definition outcome (B : Type) : Type := (list ref_op * mal_result (column B))%type.

(** The new column gets the head of the argument: by a view on it if it is
    not void. *)
Definition is_void (h : head) : bool := match h with Void _ => true | Oids _ => false end.

Section Extract.
Context {A : Type}.
(** The scalar operator, the names in the error messages. *)
Variable f : A -> Z.
Variables getname opname : string.

(** [BATloop] with [BUNappend], which may fail for want of memory at the
    [k]-th value and otherwise notes in the [nil] flag of the tail whether
    the value is nil. *)
Fixpoint append_loop (k : option nat) (l : list A) (acc : list Z) (hasnil : bool) : option (list Z * bool) :=
  match l with
  | [] => Some (acc, hasnil)
  | d :: l =>
      let v := f d in
      match k with
      | Some O => None
      | Some (S k) => append_loop (Some k) l (acc ++ [v]) (hasnil || (v =? int_nil))
      | None => append_loop None l (acc ++ [v]) (hasnil || (v =? int_nil))
      end
  end.

(** [b]: the argument, if it can be accessed; [new_ok]: whether [BATnew]
    succeeds. *)
Definition extract_bulk (b : option (column A)) (new_ok : bool) (k : option nat) : outcome Z :=
  match b with
  | None => ([], Throw getname "Cannot access descriptor")
  | Some b =>
      if negb new_ok then ([Fix Arg1], Throw opname "memory allocation failure")
      else
        match append_loop k (c_tail b) [] false with
        | None => ([Fix Arg1; Fix New; Unfix New], Throw opname "inserting value failed")
        | Some (vs, hasnil) =>
            let view := negb (is_void (c_head b)) in
            let res := if view then View else New in
            ([Fix Arg1; Fix New] ++ (if view then [Fix View; Unfix New] else []) ++ [Keep res; Unfix Arg1],
             Succeed_with (mk_column (c_head b) vs false hasnil false false))
        end
  end.
End Extract.

Definition MTIMEdate_extract_year_bulk := extract_bulk date_extract_year "bbp.getdate" "batmtime.year".
Definition MTIMEdate_extract_month_bulk := extract_bulk date_extract_month "bbp.getdate" "batmtime.month".
Definition MTIMEdate_extract_day_bulk := extract_bulk date_extract_day "bbp.getdate" "batmtime.day".
Definition MTIMEdaytime_extract_hours_bulk :=
  extract_bulk daytime_extract_hours "bbp.getdaytime" "batmtime.hours".
Definition MTIMEdaytime_extract_minutes_bulk :=
  extract_bulk daytime_extract_minutes "bbp.getdaytime" "batmtime.minutes".
Definition MTIMEdaytime_extract_seconds_bulk :=
  extract_bulk daytime_extract_seconds "bbp.getdaytime" "batmtime.seconds".
Definition MTIMEdaytime_extract_sql_seconds_bulk :=
  extract_bulk daytime_extract_sql_seconds "bbp.getdaytime" "batmtime.sql_seconds".
Definition MTIMEdaytime_extract_milliseconds_bulk :=
  extract_bulk daytime_extract_milliseconds "bbp.getdaytime" "batmtime.milliseconds".

Section Diff.
Context {A : Type}.
Variable isnil : A -> bool.
Variable sub : A -> A -> Z.
Variable nil : Z.

(** The loop over both tails: values, [nonil] and [nil]. *)
Fixpoint diff_loop (l1 l2 : list A) (acc : list Z) (nonil hasnil : bool) : list Z * bool * bool :=
  match l1, l2 with
  | t1 :: l1, t2 :: l2 =>
      if isnil t1 || isnil t2 then diff_loop l1 l2 (acc ++ [nil]) false true
      else diff_loop l1 l2 (acc ++ [sub t1 t2]) nonil hasnil
  | _, _ => (acc, nonil, hasnil)
  end.

Definition diff_bulk (b1 b2 : option (column A)) (new_ok : bool) : outcome Z :=
  match b1, b2 with
  | None, None => ([], Throw "batmtime.diff" RUNTIME_OBJECT_MISSING)
  | Some _, None => ([Fix Arg1; Unfix Arg1], Throw "batmtime.diff" RUNTIME_OBJECT_MISSING)
  | None, Some _ => ([Fix Arg2; Unfix Arg2], Throw "batmtime.diff" RUNTIME_OBJECT_MISSING)
  | Some c1, Some c2 =>
      let fixes := [Fix Arg1; Fix Arg2] in
      let n := List.length (c_tail c1) in
      if negb (Nat.eqb n (List.length (c_tail c2)))
      then (fixes ++ [Unfix Arg1; Unfix Arg2], Throw "batmtime.diff" "inputs not the same size")
      else if negb new_ok
      then (fixes ++ [Unfix Arg1; Unfix Arg2], Throw "batmtime.diff" MAL_MALLOC_FAIL)
      else
        let '(vs, nonil, hasnil) := diff_loop (c_tail c1) (c_tail c2) [] true false in
        let small := Nat.leb (List.length vs) 1 in
        let view := negb (is_void (c_head c1)) in
        let res := if view then View else New in
        (fixes ++ [Fix New; Unfix Arg2] ++ (if view then [Fix View; Unfix New] else []) ++
           [Unfix Arg1; Keep res],
         Succeed_with (mk_column (c_head c1) vs nonil hasnil small small))
  end.
End Diff.

Definition date_isnil (t : Z) : bool := t =? date_nil.
Definition MTIMEdate_diff_bulk := diff_bulk date_isnil (fun t1 t2 => i32 (t1 - t2)) int_nil.
Definition MTIMEtimestamp_diff_bulk :=
  diff_bulk ts_isnil
    (fun t1 t2 => i64 (i32 (days t1 - days t2) * DAY_MSECS + i32 (msecs t1 - msecs t2))) lng_nil.

(** ** Values and properties *)

Lemma append_loop_spec {A} (f : A -> Z) l : forall k acc hasnil vs nl,
  append_loop f k l acc hasnil = Some (vs, nl) ->
  vs = acc ++ map f l /\ nl = hasnil || existsb (Z.eqb int_nil) (map f l).
Proof.
  induction l as [|d l IH]; intros k acc hasnil vs nl; cbn [append_loop map existsb].
  - intros E. injection E as <- <-. rewrite app_nil_r, orb_false_r. auto.
  - rewrite (Z.eqb_sym int_nil (f d)).
    destruct k as [[|k]|]; [discriminate| |]; intros E; apply IH in E as [-> ->];
      rewrite <- app_assoc, orb_assoc; auto.
Qed.

Lemma append_loop_total {A} (f : A -> Z) l : forall acc hasnil, append_loop f None l acc hasnil <> None.
Proof. induction l as [|d l IH]; intros acc hasnil; cbn [append_loop]; [discriminate|apply IH]. Qed.

Lemma diff_loop_spec {A} (isnil : A -> bool) sub nil l1 : forall l2 acc nonil hasnil,
  List.length l1 = List.length l2 ->
  diff_loop isnil sub nil l1 l2 acc nonil hasnil =
  (acc ++ map (fun p => if isnil (fst p) || isnil (snd p) then nil else sub (fst p) (snd p)) (combine l1 l2),
   nonil && negb (existsb (fun p => isnil (fst p) || isnil (snd p)) (combine l1 l2)),
   hasnil || existsb (fun p => isnil (fst p) || isnil (snd p)) (combine l1 l2)).
Proof.
  induction l1 as [|a l1 IH]; intros [|b l2] acc nonil hasnil H; try discriminate H.
  - cbn. rewrite app_nil_r, andb_true_r, orb_false_r. reflexivity.
  - cbn [diff_loop combine map existsb fst snd]. injection H as H.
    destruct (isnil a || isnil b); rewrite IH by exact H; rewrite <- app_assoc.
    + cbn [orb negb andb]. rewrite andb_false_r, orb_true_r. reflexivity.
    + reflexivity.
Qed.

Lemma existsb_eqb_in x l : existsb (Z.eqb x) l = true <-> In x l.
Proof.
  rewrite existsb_exists. split; [intros (y & H & E); apply Z.eqb_eq in E; subst; exact H|].
  intros H. exists x. split; [exact H|apply Z.eqb_refl].
Qed.

(** The bulk extraction operators are the scalar ones applied to every
    value: the result has the head of the argument and the images of its
    values in order, and its [nil] flag tells exactly whether one of them is
    nil; when memory suffices there always is a result. *)
Theorem extract_bulk_map {A} (f : A -> Z) getname opname b new_ok k :
  match snd (extract_bulk f getname opname (Some b) new_ok k) with
  | Succeed_with c =>
      c_tail c = map f (c_tail b) /\ c_head c = c_head b /\ (c_nil c = true <-> In int_nil (c_tail c)) /\
      c_nonil c = false /\ c_sorted c = false /\ c_revsorted c = false
  | Throw fcn _ => fcn = opname /\ (new_ok = false \/ k <> None)
  end.
Proof.
  unfold extract_bulk. destruct new_ok; cbn [negb]; [|cbn; auto].
  destruct (append_loop f k (c_tail b) [] false) as [[vs nl]|] eqn:E; cbn [snd].
  - apply append_loop_spec in E as [-> ->]. cbn [app orb c_tail c_head c_nil c_nonil c_sorted c_revsorted].
    repeat split; apply existsb_eqb_in.
  - split; [reflexivity|]. right. intros ->. exact (append_loop_total _ _ _ _ E).
Qed.

(** The bulk differences are the scalar ones taken pairwise, over columns of
    the same size only; the result is flagged as free of nils exactly when no
    argument is nil. *)
Theorem date_diff_bulk_map b1 b2 :
  match snd (MTIMEdate_diff_bulk (Some b1) (Some b2) true) with
  | Succeed_with c =>
      List.length (c_tail b1) = List.length (c_tail b2) /\ c_head c = c_head b1 /\
      c_tail c = map (fun p => MTIMEdate_diff (fst p) (snd p)) (combine (c_tail b1) (c_tail b2)) /\
      c_nil c = negb (c_nonil c) /\
      (c_nonil c = true <-> forall t1 t2, In (t1, t2) (combine (c_tail b1) (c_tail b2)) ->
         t1 <> date_nil /\ t2 <> date_nil)
  | Throw _ msg => List.length (c_tail b1) <> List.length (c_tail b2) /\ msg = "inputs not the same size"
  end.
Proof.
  unfold MTIMEdate_diff_bulk, diff_bulk. destruct (Nat.eqb_spec (List.length (c_tail b1)) (List.length (c_tail b2))) as [H|H];
    cbn [negb]; [|cbn; auto].
  rewrite diff_loop_spec by exact H. cbn [snd app c_head c_tail c_nil c_nonil andb orb].
  split; [exact H|]. split; [reflexivity|]. split; [reflexivity|]. split; [rewrite negb_involutive; reflexivity|].
  rewrite negb_true_iff, <- not_true_iff_false, existsb_exists. unfold date_isnil. split.
  - intros N t1 t2 Hin. split; intros ->; apply N; eexists; (split; [exact Hin|]); cbn [fst snd];
      rewrite Z.eqb_refl, ?orb_true_r; reflexivity.
  - intros N ([t1 t2] & Hin & E). destruct (N t1 t2 Hin) as [N1 N2]. cbn [fst snd] in E.
    rewrite (proj2 (Z.eqb_neq _ _) N1), (proj2 (Z.eqb_neq _ _) N2) in E. discriminate E.
Qed.

(** That flag does not cover the values: the difference of two dates far
    apart wraps around at 32 bits, and can be nil in a column flagged as free
    of nils. *)
Theorem date_diff_bulk_nonil_wrong :
  let c1 := mk_column (Void 0) [1073741824] true false true true in
  let c2 := mk_column (Void 0) [-1073741824] true false true true in
  exists tr c, MTIMEdate_diff_bulk (Some c1) (Some c2) true = (tr, Succeed_with c) /\
    c_nonil c = true /\ c_tail c = [int_nil].
Proof. eexists _, _. split; [reflexivity|]. split; reflexivity. Qed.

(** ** References *)

(** The bulk differences leave no reference behind, whatever happens: every
    column taken is given back, the result becomes a logical reference. *)
Theorem diff_bulk_references {A} (isnil : A -> bool) sub nil b1 b2 new_ok o :
  held o (fst (diff_bulk isnil sub nil b1 b2 new_ok)) = 0.
Proof.
  unfold diff_bulk. destruct b1 as [c1|], b2 as [c2|]; try (destruct o; reflexivity).
  cbv zeta. destruct (negb (Nat.eqb _ _)); [destruct o; reflexivity|]. destruct new_ok; [|destruct o; reflexivity].
  cbn [negb]. destruct (diff_loop _ _ _ _ _ _ _ _) as [[vs nonil] hasnil].
  destruct (is_void (c_head c1)); destruct o; reflexivity.
Qed.

(** The bulk extractions leave no reference behind when they succeed, but
    keep the argument referenced when the new column cannot be made or
    filled. *)
Theorem extract_bulk_references {A} (f : A -> Z) getname opname b new_ok k o :
  let r := extract_bulk f getname opname (Some b) new_ok k in
  held o (fst r) = match snd r with Succeed_with _ => 0 | Throw _ _ => if obj_eqb o Arg1 then 1 else 0 end.
Proof.
  cbv zeta. unfold extract_bulk. destruct new_ok; [|destruct o; reflexivity]. cbn [negb].
  destruct (append_loop _ _ _ _ _) as [[vs nl]|]; [|destruct o; reflexivity].
  destruct (is_void (c_head b)); destruct o; reflexivity.
Qed.
