(* ===== verification/Atoms.v ===== *)
(** * The built-in atoms of the GDK kernel

    Models src/src/gdk/gdk_atoms.c: the conversions between the integer, bit,
    object identifier and string atoms and their text, string comparison and
    hashing, and the generator of object identifiers.  Identifiers are 64 bits
    wide ([SIZEOF_OID == SIZEOF_LNG]).  A parser returns the number of bytes
    it consumed and the value it stored. *)

From Stdlib Require Import ZArith Lia Bool List String.
Import ListNotations.
From S2P Require Import Prelude.

Open Scope string_scope.
Open Scope Z_scope.
Open Scope list_scope.

(** ** Integers *)

(** The integer atoms, by [ATOMsize]. *)
Inductive num_type := TYPE_bte | TYPE_sht | TYPE_int | TYPE_lng.

Definition ATOMsize (tp : num_type) : Z :=
  match tp with TYPE_bte => 1 | TYPE_sht => 2 | TYPE_int => 4 | TYPE_lng => 8 end.
Definition num_nil (tp : num_type) : Z := - 2 ^ (8 * ATOMsize tp - 1).
Definition maxdiv10 (tp : num_type) : Z :=
  match tp with
  | TYPE_bte => 12
  | TYPE_sht => 3276
  | TYPE_int => 214748364
  | TYPE_lng => 922337203685477580
  end.

(** The [do ... while (num10( *p))] loop; [None] is overflow. *)
Fixpoint num_digits (maxdiv10 : Z) (p : cstr) (base : Z) : option (Z * cstr) :=
  match p with
  | c :: p' =>
      if isdigit c then
        if (maxdiv10 <? base) || ((base =? maxdiv10) && (7 <? c - 48)) then None
        else num_digits maxdiv10 p' (10 * base + (c - 48))
      else Some (base, p)
  | [] => Some (base, [])
  end.

Definition starts (word p : cstr) : bool := cstr_eqb (firstn (List.length word) p) word.

Definition numFromStr (tp : num_type) (src : cstr) : Z * Z :=
  let p := skip_spaces src in
  if starts (lit "nil") p then (consumed src (skipn 3 p), num_nil tp)
  else
    let '(sign, p) :=
      if chead p =? 45 then (-1, tl p) else if chead p =? 43 then (1, tl p) else (1, p) in
    if negb (isdigit (chead p)) then (0, num_nil tp)
    else
      match num_digits (maxdiv10 tp) p 0 with
      | None => (0, num_nil tp)
      | Some (base, p) =>
          let base := swrap (8 * ATOMsize tp) (base * sign) in
          let p := match tp with
                   | TYPE_lng => if starts (lit "LL") p then skipn 2 p else p
                   | _ => p
                   end in
          (consumed src p, base)
      end.

(** [atomtostr] for the integer types. *)
Definition numToStr (tp : num_type) (src : Z) : cstr :=
  if src =? num_nil tp then lit "nil" else fmt_d src.

(** ** Bits *)

Definition bit_nil : Z := -128.

Definition bitFromStr (src : cstr) : Z * Z :=
  let p := skip_spaces src in
  if chead p =? 48 then (consumed src (tl p), 0)
  else if chead p =? 49 then (consumed src (tl p), 1)
  else if starts (lit "true") p then (consumed src (skipn 4 p), 1)
  else if starts (lit "false") p then (consumed src (skipn 5 p), 0)
  else if starts (lit "nil") p then (consumed src (skipn 3 p), bit_nil)
  else (0, bit_nil).

Definition bitToStr (src : Z) : cstr :=
  if src =? bit_nil then lit "nil" else if negb (src =? 0) then lit "true" else lit "false".

(** ** Object identifiers *)

Definition oid_nil : Z := 2 ^ 63.

(** [while (GDKisdigit(p[pos])) pos++]. *)
Fixpoint skip_digits (s : cstr) : cstr :=
  match s with
  | c :: s' => if isdigit c then skip_digits s' else s
  | [] => []
  end.

Definition OIDfromStr (src : cstr) : Z * Z :=
  let p := skip_spaces src in
  if isdigit (chead p) then
    let '(pos, ui) := numFromStr TYPE_lng p in
    let rest := skipn (Z.to_nat pos) p in
    let rest' := if (0 <? pos) && (chead rest =? 64) then skip_digits (tl rest) else rest in
    (consumed src rest', if (0 <? pos) && (0 <=? ui) then ui else oid_nil)
  else (consumed src p, oid_nil).

Definition OIDtoStr (src : Z) : cstr :=
  if src =? oid_nil then lit "nil" else dec src ++ lit "@0".

(** The generator's state: the next identifier and the last one written to
    disk. *)
Record oid_state := mk_oids { GDKoid : Z; GDKflushed : Z }.

Definition OIDinit : oid_state := mk_oids 0 0.
Definition OIDrand : Z := 1000000.
Definition OIDbase (st : oid_state) (o : Z) : Z * oid_state := (o, mk_oids o (GDKflushed st)).
Definition OIDseed (st : oid_state) (o : Z) : Z :=
  let p := GDKoid st in
  let t := OIDrand in
  let t := if t <? o then o else t in
  if t <=? p then p else t.
Definition OIDdirty (st : oid_state) : bool := negb (GDKoid st =? 0) && (GDKflushed st <? GDKoid st).
Definition OIDnew (st : oid_state) (inc : Z) : Z * oid_state :=
  let cur := if GDKoid st =? 0 then OIDrand else GDKoid st in
  (cur, mk_oids (u64 (cur + inc)) (GDKflushed st)).
(** What is written to the stream, and the state after a write that
    succeeds. *)
Definition OIDwrite (st : oid_state) : cstr * oid_state :=
  if negb (GDKoid st =? 0) then (OIDtoStr (GDKoid st) ++ lit " ", mk_oids (GDKoid st) (GDKoid st))
  else ([], st).
(** Reading the seeds back; [None] when the fuel, one round per byte, runs
    out. *)
Fixpoint OIDread_loop (fuel : nat) (st : oid_state) (s : cstr) (new : Z) : option Z :=
  if isdigit (chead s) then
    match fuel with
    | O => None
    | S fuel =>
        let '(pos, v) := OIDfromStr s in
        OIDread_loop fuel st (skip_spaces (skipn (Z.to_nat pos) s)) (OIDseed st v)
    end
  else Some new.
Definition OIDread (st : oid_state) (s : cstr) : option Z :=
  OIDread_loop (List.length s) st (skip_spaces s) 0.

(** ** Comparison and hashing of strings *)

Definition str_nil : cstr := [128].
Definition GDK_STRNIL (s : cstr) : bool := chead s =? 128.
Definition strLen (s : cstr) : Z := (if GDK_STRNIL s then 1 else Z.of_nat (List.length s)) + 1.

Fixpoint strCmpNoNil (l r : cstr) : Z :=
  match l, r with
  | [], [] => 0
  | [], _ :: _ => -1
  | _ :: _, [] => 1
  | a :: l, b :: r => if a =? b then strCmpNoNil l r else if a <? b then -1 else 1
  end.

Definition GDK_STRCMP (l r : cstr) : Z :=
  if GDK_STRNIL l then if GDK_STRNIL r then 0 else -1
  else if GDK_STRNIL r then 1
  else if chead l <? chead r then -1
  else if chead r <? chead l then 1
  else strCmpNoNil l r.

(** The characters are signed, the hash is an unsigned 64-bit [BUN]. *)
Definition strHash_step (y c : Z) : Z :=
  let y := u64 (y + i8 c) in
  let y := u64 (y + u64 (Z.shiftl y 10)) in
  Z.lxor y (Z.shiftr y 6).
Definition strHash (s : cstr) : Z :=
  let y := fold_left strHash_step s 0 in
  let y := u64 (y + u64 (Z.shiftl y 3)) in
  let y := Z.lxor y (Z.shiftr y 11) in
  u64 (y + u64 (Z.shiftl y 15)).

Definition mix_sht (x : Z) : Z := Z.lxor (Z.shiftr x 7) x.
Definition mix_int (x : Z) : Z :=
  Z.lxor (Z.lxor (Z.lxor (Z.shiftr x 7) (Z.shiftr x 13)) (Z.shiftr x 21)) x.
Definition bteHash (v : Z) : Z := uwrap 8 v.
Definition shtHash (v : Z) : Z := mix_sht (u16 v).
Definition intHash (v : Z) : Z := mix_int (u32 v).
Definition lngHash (v : Z) : Z := mix_int (Z.lxor (u32 v) (u32 (Z.shiftr v 32))).

(** ** Properties of the integer conversions *)

Definition num_max (tp : num_type) : Z := 2 ^ (8 * ATOMsize tp - 1) - 1.

Lemma num_max_div10 tp : num_max tp = 10 * maxdiv10 tp + 7 /\ num_nil tp = - num_max tp - 1.
Proof. destruct tp; split; reflexivity. Qed.

Lemma skip_spaces_digit s : isdigit (chead s) = true -> skip_spaces s = s.
Proof.
  destruct s as [|c s]; [reflexivity|]. cbn [hd skip_spaces]. intros H. apply isdigit_range in H.
  replace (isspace c) with false; [reflexivity|].
  symmetry. unfold isspace. rewrite orb_false_iff, andb_false_iff, Z.eqb_neq, !Z.leb_gt. lia.
Qed.

(** The digit loop computes the value exactly when it fits, and reports
    overflow exactly when it does not. *)
Lemma num_digits_spec m ds rest : digits ds -> stops rest -> 0 <= m -> forall base,
  0 <= base <= 10 * m + 7 ->
  num_digits m (ds ++ rest) base =
    if dval base ds <=? 10 * m + 7 then Some (dval base ds, rest) else None.
Proof.
  intros Hd Hr Hm. induction Hd as [|c ds Hc Hd IH]; intros base Hb.
  - cbn [app]. unfold dval. cbn [fold_left]. rewrite (proj2 (Z.leb_le _ _)) by lia.
    destruct rest as [|c rest]; cbn [num_digits hd] in *; [reflexivity|]. rewrite Hr. reflexivity.
  - cbn [app num_digits]. rewrite Hc. apply isdigit_range in Hc. rewrite dval_cons.
    destruct (Z.ltb_spec m base), (Z.eqb_spec base m), (Z.ltb_spec 7 (c - 48)); cbn [orb andb]; try lia;
      try (replace (10 * base + (c - 48)) with (c - 48 + base * 10) by lia; apply IH; lia);
      (rewrite (proj2 (Z.leb_gt _ _)); [reflexivity|]);
      pose proof (dval_ge ds (c - 48 + base * 10) ltac:(lia) Hd); lia.
Qed.

(** The text that may follow a number without being taken for part of it. *)
Definition num_stops (tp : num_type) (rest : cstr) : Prop :=
  stops rest /\ (tp = TYPE_lng -> starts (lit "LL") rest = false).

Lemma num_stops_nil tp : num_stops tp [].
Proof. split; reflexivity. Qed.

Lemma starts_nil_digit s : isdigit (chead s) = true -> starts (lit "nil") s = false.
Proof.
  destruct s as [|c s]; [discriminate|]. cbn [hd]. intros H. apply isdigit_range in H.
  unfold starts, cstr_eqb. cbn [List.length firstn].
  destruct (list_eq_dec _ _ _) as [E|]; [|reflexivity]. injection E as E _. lia.
Qed.

(** Parsing an optionally negated digit string. *)
Lemma numFromStr_digits tp (neg : bool) ds rest : digits ds -> ds <> [] -> num_stops tp rest ->
  let src := (if neg then [45] else []) ++ ds ++ rest in
  let v := dval 0 ds in
  numFromStr tp src =
    if v <=? num_max tp
    then (Z.of_nat (List.length src - List.length rest), if neg then - v else v)
    else (0, num_nil tp).
Proof.
  intros Hd NE [Hr HL]. cbv zeta. set (src := _ ++ ds ++ rest).
  assert (isdigit (chead (ds ++ rest)) = true) as Hh.
  { destruct Hd; [congruence|assumption]. }
  assert (skip_spaces src = src) as Es.
  { destruct neg; [reflexivity|]. apply skip_spaces_digit, Hh. }
  assert (starts (lit "nil") src = false) as En.
  { destruct neg; [unfold starts, cstr_eqb; cbn; destruct (ds ++ rest) as [|a [|b t]]; reflexivity|].
    apply starts_nil_digit, Hh. }
  unfold numFromStr. rewrite Es, En. cbv zeta.
  destruct (num_max_div10 tp) as [Em En'].
  assert (0 <= maxdiv10 tp) as H0 by (destruct tp; discriminate).
  assert ((if chead src =? 45 then (-1, tl src) else if chead src =? 43 then (1, tl src) else (1, src)) =
          (if neg then -1 else 1, ds ++ rest)) as ->.
  { destruct neg; [reflexivity|]. change src with (ds ++ rest). apply isdigit_range in Hh.
    rewrite (proj2 (Z.eqb_neq _ 45)), (proj2 (Z.eqb_neq _ 43)) by lia. reflexivity. }
  rewrite Hh. cbn [negb]. rewrite num_digits_spec by (assumption || lia). rewrite <- Em.
  destruct (Z.leb_spec (dval 0 ds) (num_max tp)) as [L|L]; [|reflexivity].
  assert (match tp with TYPE_lng => if starts (lit "LL") rest then skipn 2 rest else rest | _ => rest end = rest) as ->.
  { destruct tp; try reflexivity. rewrite HL by reflexivity. reflexivity. }
  f_equal.
  - unfold consumed, src. rewrite !length_app. lia.
  - pose proof (dval_ge ds 0 ltac:(lia) Hd). rewrite swrap_id.
    + destruct neg; lia.
    + destruct tp; reflexivity.
    + unfold srange, num_max in *. destruct neg; lia.
Qed.

Lemma num_parse_print tp v rest :
  num_nil tp <= v <= num_max tp -> num_stops tp rest ->
  numFromStr tp (numToStr tp v ++ rest) = (Z.of_nat (List.length (numToStr tp v)), v).
Proof.
  intros Hv Hr. unfold numToStr. destruct (Z.eqb_spec v (num_nil tp)) as [->|Hn].
  - unfold numFromStr.
    change (skip_spaces (lit "nil" ++ rest)) with (lit "nil" ++ rest).
    change (starts (lit "nil") (lit "nil" ++ rest)) with true. cbn iota.
    change (skipn 3 (lit "nil" ++ rest)) with rest. rewrite consumed_app. reflexivity.
  - destruct (num_max_div10 tp) as [_ En].
    assert (num_max tp < 10 ^ 20) by (destruct tp; reflexivity).
    assert (0 <= Z.abs v < 10 ^ 20) as Ha by lia.
    destruct (dec_spec (Z.abs v) Ha) as (ds & Eds & Hd & V & NE & _).
    assert (fmt_d v = (if v <? 0 then [45] else []) ++ ds) as ->.
    { unfold fmt_d. destruct (Z.ltb_spec v 0); [rewrite Z.abs_neq in Eds by lia|rewrite Z.abs_eq in Eds by lia];
        rewrite Eds; reflexivity. }
    rewrite <- app_assoc, (numFromStr_digits tp (v <? 0) ds rest Hd NE Hr), V.
    rewrite (proj2 (Z.leb_le _ _)) by lia. f_equal.
    + rewrite !length_app. lia.
    + destruct (Z.ltb_spec v 0); lia.
Qed.

(** Integer atoms survive printing and parsing: for each of the four
    widths every value of the type, nil included, is read back from its own
    text whatever follows it. *)
Theorem num_round_trip tp v rest :
  num_nil tp <= v <= num_max tp -> num_stops tp rest ->
  numFromStr tp (numToStr tp v ++ rest) = (Z.of_nat (List.length (numToStr tp v)), v).
Proof. apply num_parse_print. Qed.

Lemma num_round_trip_witness :
  numFromStr TYPE_int (numToStr TYPE_int (-2147483647) ++ lit " x") = (11, -2147483647).
Proof.
  apply (num_round_trip TYPE_int (-2147483647) (lit " x")); [vm_compute; split; discriminate|].
  split; [reflexivity|discriminate].
Defined.

(** Overflow detection is exact: an unsigned digit string, of any length
    and with any number of leading zeros, is accepted when its value fits the
    type and rejected with nil and length 0 when it does not. *)
Theorem num_overflow_exact tp ds : digits ds -> ds <> [] ->
  numFromStr tp ds =
    if dval 0 ds <=? num_max tp then (Z.of_nat (List.length ds), dval 0 ds) else (0, num_nil tp).
Proof.
  intros Hd NE. pose proof (numFromStr_digits tp false ds [] Hd NE (num_stops_nil tp)) as E.
  cbn [app] in E. cbv zeta in E. rewrite app_nil_r in E. cbn [List.length] in E.
  rewrite Nat.sub_0_r in E. exact E.
Qed.

Lemma num_overflow_exact_witness : numFromStr TYPE_bte (lit "128") = (0, -128).
Proof. apply (num_overflow_exact TYPE_bte (lit "128")); [repeat constructor|discriminate]. Defined.

(** Bits survive printing and parsing, nil included. *)
Lemma bit_parse_print b rest : b = 0 \/ b = 1 \/ b = bit_nil ->
  bitFromStr (bitToStr b ++ rest) = (Z.of_nat (List.length (bitToStr b)), b).
Proof.
  intros [->|[->| ->]]; unfold bitFromStr;
    [change (bitToStr 0) with (lit "false")|change (bitToStr 1) with (lit "true")|change (bitToStr bit_nil) with (lit "nil")];
    match goal with |- context [skip_spaces (?w ++ rest)] => change (skip_spaces (w ++ rest)) with (w ++ rest) end;
    cbn -[consumed lit bit_nil]; [change (skipn 5 (lit "false" ++ rest)) with rest
      |change (skipn 4 (lit "true" ++ rest)) with rest|change (skipn 3 (lit "nil" ++ rest)) with rest];
    rewrite consumed_app; reflexivity.
Qed.

(** ** Properties of object identifiers *)

Lemma OIDfromStr_dec o rest : 0 <= o < 2 ^ 63 -> stops rest ->
  OIDfromStr (dec o ++ lit "@0" ++ rest) = (Z.of_nat (List.length (dec o ++ lit "@0")), o).
Proof.
  intros Ho Hr. assert (0 <= o < 10 ^ 20) as Hd by lia.
  destruct (dec_spec o Hd) as (ds & E & Hds & V & NE & _). rewrite E.
  set (src := ds ++ lit "@0" ++ rest).
  assert (isdigit (chead src) = true) as Hh by (unfold src; destruct Hds; [congruence|assumption]).
  assert (num_stops TYPE_lng (lit "@0" ++ rest)) as Hst.
  { split; [reflexivity|]. intros _. unfold starts, cstr_eqb. reflexivity. }
  pose proof (numFromStr_digits TYPE_lng false ds (lit "@0" ++ rest) Hds NE Hst) as N.
  cbn [app] in N. cbv zeta in N. fold src in N. rewrite V in N.
  rewrite (proj2 (Z.leb_le o _)) in N by (change (num_max TYPE_lng) with (2 ^ 63 - 1); lia).
  replace (List.length src - List.length (lit "@0" ++ rest))%nat with (List.length ds) in N
    by (unfold src; rewrite !length_app; lia).
  assert (0 < Z.of_nat (List.length ds)) as Hl by (destruct ds; [congruence|cbn; lia]).
  unfold OIDfromStr. rewrite skip_spaces_digit, Hh, N by exact Hh. cbv zeta. rewrite Nat2Z.id.
  assert (skipn (List.length ds) src = lit "@0" ++ rest) as Esk by apply skipn_exact.
  rewrite Esk. rewrite (proj2 (Z.ltb_lt _ _)) by exact Hl.
  change (lit "@0") with [64; 48]. cbn [app hd tl]. change (64 =? 64) with true. cbn [andb].
  cbn [skip_digits]. change (isdigit 48) with true. cbn iota.
  assert (skip_digits rest = rest) as ->
    by (destruct rest as [|c rest]; cbn [skip_digits hd] in *; [reflexivity|rewrite Hr; reflexivity]).
  rewrite (proj2 (Z.leb_le 0 o)) by lia. f_equal. unfold consumed, src. rewrite !length_app. cbn [List.length lit].
  change (List.length (lit "@0")) with 2%nat. cbn [List.length]. lia.
Qed.

Lemma oid_parse_print o rest : 0 <= o < 2 ^ 63 -> stops rest ->
  OIDfromStr (OIDtoStr o ++ rest) = (Z.of_nat (List.length (OIDtoStr o)), o).
Proof.
  intros Ho Hr. unfold OIDtoStr. rewrite (proj2 (Z.eqb_neq o oid_nil)) by (unfold oid_nil; lia).
  rewrite <- app_assoc. apply OIDfromStr_dec; assumption.
Qed.

(** Object identifiers below 2^63 survive printing and parsing. *)
Theorem oid_round_trip o rest : 0 <= o < 2 ^ 63 -> stops rest ->
  OIDfromStr (OIDtoStr o ++ rest) = (Z.of_nat (List.length (OIDtoStr o)), o).
Proof. apply oid_parse_print. Qed.

Lemma oid_round_trip_witness : OIDfromStr (OIDtoStr 1000000 ++ lit " ") = (9, 1000000).
Proof. apply (oid_round_trip 1000000 (lit " ")); [lia|reflexivity]. Defined.

(** The generator as a transition system: the operations that run while the
    server is up, each with the range of identifiers it hands out. *)
Inductive oid_step : oid_state -> list (Z * Z) -> oid_state -> Prop :=
| step_new st inc : 0 < inc -> fst (OIDnew st inc) + inc < 2 ^ 64 ->
    oid_step st [(fst (OIDnew st inc), inc)] (snd (OIDnew st inc))
| step_write st : oid_step st [] (snd (OIDwrite st)).

Inductive oid_run : oid_state -> list (Z * Z) -> oid_state -> Prop :=
| run_nil st : oid_run st [] st
| run_step st r1 st1 rs st2 : oid_step st r1 st1 -> oid_run st1 rs st2 -> oid_run st (r1 ++ rs) st2.

Definition oid_inv (st : oid_state) : Prop := 0 <= GDKoid st < 2 ^ 64.

Lemma OIDnew_value st inc : oid_inv st -> 0 < inc -> fst (OIDnew st inc) + inc < 2 ^ 64 ->
  GDKoid st <= fst (OIDnew st inc) /\ GDKoid (snd (OIDnew st inc)) = fst (OIDnew st inc) + inc.
Proof.
  unfold oid_inv, OIDnew. intros H Hi. cbn [fst snd GDKoid].
  destruct (Z.eqb_spec (GDKoid st) 0) as [E|E]; intros B; rewrite uwrap_id; unfold OIDrand in *; lia.
Qed.

Lemma oid_step_inv st r st' : oid_inv st -> oid_step st r st' ->
  oid_inv st' /\ GDKoid st <= GDKoid st' /\
  Forall (fun e => GDKoid st <= fst e /\ fst e + snd e <= GDKoid st' /\ 0 < snd e) r.
Proof.
  intros H S. destruct S as [st inc Hi B|st].
  - destruct (OIDnew_value st inc H Hi B) as [L E]. unfold oid_inv in *. rewrite E.
    split; [lia|]. split; [lia|]. repeat constructor; cbn [fst snd]; lia.
  - unfold OIDwrite. destruct (GDKoid st =? 0); cbn [negb snd GDKoid]; repeat split; try constructor; apply H || lia.
Qed.

Lemma oid_run_inv st rs st' : oid_run st rs st' -> oid_inv st ->
  Forall (fun e => GDKoid st <= fst e /\ 0 < snd e) rs /\
  ForallOrdPairs (fun a b => fst a + snd a <= fst b) rs.
Proof.
  induction 1 as [st|st r1 st1 rs st2 S R IH]; intros H; [split; constructor|].
  destruct (oid_step_inv _ _ _ H S) as (H1 & L & F1). destruct (IH H1) as [F2 O2]. split.
  - apply Forall_app. split; [eapply Forall_impl; [|exact F1]; cbn; intros; lia|].
    eapply Forall_impl; [|exact F2]. cbn. intros. lia.
  - destruct S; cbn [app]; [|exact O2]. constructor; [|exact O2].
    apply Forall_inv in F1. eapply Forall_impl; [|exact F2]. cbn. intros. cbn in F1. lia.
Qed.

(** Object identifiers are unique: in any run of reservations and flushes,
    the ranges handed out are non-empty, ascending and disjoint, as long as
    the 64-bit counter is not exhausted. *)
Theorem oid_ranges_disjoint st rs st' : oid_run st rs st' -> oid_inv st ->
  Forall (fun e => GDKoid st <= fst e /\ 0 < snd e) rs /\
  ForallOrdPairs (fun a b => fst a + snd a <= fst b) rs.
Proof. apply oid_run_inv. Qed.

Lemma oid_ranges_disjoint_witness :
  Forall (fun e => GDKoid OIDinit <= fst e /\ 0 < snd e) ([(1000000, 10)] ++ [(1000010, 5)] ++ []) /\
  ForallOrdPairs (fun a b => fst a + snd a <= fst b) ([(1000000, 10)] ++ [(1000010, 5)] ++ []).
Proof.
  apply (oid_ranges_disjoint OIDinit _ (mk_oids 1000015 0)).
  - apply run_step with (st1 := mk_oids 1000010 0); [apply (step_new OIDinit 10); reflexivity|].
    apply run_step with (st1 := mk_oids 1000015 0); [apply (step_new (mk_oids 1000010 0) 5); reflexivity|].
    apply run_nil.
  - vm_compute. split; [discriminate|reflexivity].
Defined.

Lemma skip_spaces_space s : isdigit (chead s) = true \/ s = [] -> skip_spaces (lit " " ++ s) = s.
Proof.
  intros H. change (skip_spaces (lit " " ++ s)) with (skip_spaces s).
  destruct H as [H| ->]; [apply skip_spaces_digit, H|reflexivity].
Qed.

(** Restart safety: what a flush writes is read back at start-up as a seed
    that is at least every identifier handed out so far. *)
Theorem oid_write_read st fresh : 1000000 <= GDKoid st < 2 ^ 63 -> GDKoid fresh = 0 ->
  OIDread fresh (fst (OIDwrite st)) = Some (GDKoid st) /\
  OIDdirty (snd (OIDwrite st)) = false.
Proof.
  intros H F. unfold OIDwrite. rewrite (proj2 (Z.eqb_neq (GDKoid st) 0)) by lia. cbn [negb fst snd].
  set (o := GDKoid st) in *. split.
  2: { unfold OIDdirty. cbn [GDKoid GDKflushed]. rewrite Z.ltb_irrefl. apply andb_false_r. }
  assert (0 <= o < 10 ^ 20) as Hd by lia.
  pose proof (OIDfromStr_dec o (lit " ") ltac:(lia) eq_refl) as P.
  assert (OIDtoStr o = dec o ++ lit "@0") as Et.
  { unfold OIDtoStr. rewrite (proj2 (Z.eqb_neq o oid_nil)) by (unfold oid_nil; lia). reflexivity. }
  rewrite Et. set (t := dec o ++ lit "@0") in *.
  assert (isdigit (chead (t ++ lit " ")) = true) as Hh.
  { destruct (dec_spec o Hd) as (ds & E & Hds & _ & NE & _). unfold t. rewrite E.
    destruct Hds; [congruence|assumption]. }
  unfold OIDread. rewrite skip_spaces_digit by exact Hh.
  destruct (List.length (t ++ lit " ")) as [|fuel] eqn:El; [rewrite length_app in El; cbn in El; lia|].
  cbn [OIDread_loop]. rewrite Hh.
  replace (t ++ lit " ") with (dec o ++ lit "@0" ++ lit " ") by (unfold t; rewrite <- app_assoc; reflexivity).
  rewrite P. rewrite Nat2Z.id. replace (dec o ++ lit "@0" ++ lit " ") with (t ++ lit " ") by (unfold t; rewrite <- app_assoc; reflexivity).
  rewrite skipn_exact. change (skip_spaces (lit " ")) with (@nil Z).
  unfold OIDseed. rewrite F. unfold OIDrand.
  assert (forall f n, OIDread_loop f fresh [] n = Some n) as L by (intros [|f] n; reflexivity).
  rewrite L. f_equal. ztests.
Qed.

Lemma oid_write_read_witness :
  OIDread OIDinit (fst (OIDwrite (mk_oids 1000015 0))) = Some 1000015 /\
  OIDdirty (snd (OIDwrite (mk_oids 1000015 0))) = false.
Proof. apply (oid_write_read (mk_oids 1000015 0) OIDinit); [cbn; lia|reflexivity]. Defined.

(** Reading the seeds makes no progress on a number that does not fit:
    [OIDfromStr] consumes nothing, so the loop of [OIDread] never ends. *)
Theorem OIDread_diverges st ds : digits ds -> 2 ^ 63 <= dval 0 ds -> forall fuel new,
  OIDread_loop fuel st ds new = None.
Proof.
  intros Hd Hv.
  assert (ds <> []) as NE by (intros ->; cbn in Hv; lia).
  assert (isdigit (chead ds) = true) as Hh by (destruct Hd; [congruence|assumption]).
  pose proof (numFromStr_digits TYPE_lng false ds [] Hd NE (num_stops_nil _)) as N.
  cbn [app] in N. cbv zeta in N. rewrite app_nil_r in N.
  rewrite (proj2 (Z.leb_gt _ _)) in N by (change (num_max TYPE_lng) with (2 ^ 63 - 1); lia).
  assert (OIDfromStr ds = (0, oid_nil)) as O.
  { unfold OIDfromStr. rewrite skip_spaces_digit, Hh, N by exact Hh. cbn [Z.ltb andb].
    change (skipn (Z.to_nat 0) ds) with ds. unfold consumed. rewrite Z.sub_diag. reflexivity. }
  induction fuel as [|fuel IH]; intros new; cbn [OIDread_loop]; rewrite Hh; [reflexivity|].
  rewrite O. change (skipn (Z.to_nat 0) ds) with ds. rewrite skip_spaces_digit by exact Hh. apply IH.
Qed.

Lemma OIDread_diverges_witness : OIDread OIDinit (lit "9223372036854775808") = None.
Proof.
  apply (OIDread_diverges OIDinit (lit "9223372036854775808")); [repeat constructor|vm_compute; discriminate].
Defined.
