(* ===== verification/Utf8.v ===== *)
(** * UTF-8 sequences

    The byte-by-byte check of src/src/gdk/gdk_atoms.c ([GDKstrFromStr],
    [utf8chkmsk]) and what it accepts: exactly the sequences of canonical, that
    is shortest, encodings of code points below 2^31, as the table in the
    comment above [utf8chkmsk] gives them. *)

From Stdlib Require Import ZArith Lia Bool List.
Import ListNotations.
From S2P Require Import Prelude.

(** ** The check *)

(** Least bits an encoding of each length must use to be the shortest. *)
Definition utf8chkmsk (n : Z) : Z := nth (Z.to_nat n) [127; 1920; 63488; 2031616; 65011712; 2080374784] 0.

(** Follow-on bytes expected, mask of the sequence, code point so far. *)
Record utf8 := mk_utf8 { u_n : Z; u_mask : Z; u_char : Z }.
Definition utf8_init : utf8 := mk_utf8 0 0 0.

(** [for (n = 0, m = 0x40; c & m; n++, m >>= 1)]: at most seven rounds. *)
Fixpoint lead_ones (fuel : nat) (c n m : Z) : Z :=
  match fuel with
  | O => n
  | S fuel => if Z.land c m =? 0 then n else lead_ones fuel c (n + 1) (Z.shiftr m 1)
  end.

(** The check of one byte; [None] is [return -1]. *)
Definition utf8_step (u : utf8) (c : Z) : option utf8 :=
  if 0 <? u_n u then
    if negb (Z.land c 192 =? 128) then None
    else
      let utf8char := Z.lor (Z.shiftl (u_char u) 6) (Z.land c 63) in
      let n := u_n u - 1 in
      if (n =? 0) && (Z.land utf8char (u_mask u) =? 0) then None
      else Some (mk_utf8 n (u_mask u) utf8char)
  else if 128 <=? c then
    let n := lead_ones 8 c 0 64 in
    if (n =? 0) || (6 <=? n) then None
    else Some (mk_utf8 n (utf8chkmsk n) (Z.land c (Z.lnot (Z.shiftr 65472 n))))
  else Some u.

Fixpoint utf8_run (u : utf8) (s : cstr) : option utf8 :=
  match s with
  | [] => Some u
  | c :: s => match utf8_step u c with Some u => utf8_run u s | None => None end
  end.

(** ** The encoding *)

(** Follow-on bytes of the shortest encoding. *)
Definition utf8_len (cp : Z) : nat :=
  if cp <? 2 ^ 7 then 0%nat else if cp <? 2 ^ 11 then 1%nat else if cp <? 2 ^ 16 then 2%nat
  else if cp <? 2 ^ 21 then 3%nat else if cp <? 2 ^ 26 then 4%nat else 5%nat.

(** [n] follow-on bytes 10xxxxxx for the low [6 n] bits. *)
Fixpoint utf8_tail (n : nat) (cp : Z) : cstr :=
  match n with
  | O => []
  | S n => utf8_tail n (cp / 64) ++ [128 + cp mod 64]
  end.
(** The first byte: [n + 1] ones, a zero, the rest of the bits. *)
Definition utf8_lead (n : nat) (bits : Z) : Z := 256 - 2 ^ (7 - Z.of_nat n) + bits.

Definition utf8_encode (cp : Z) : cstr :=
  match utf8_len cp with
  | O => [cp]
  | n => utf8_lead n (cp / 64 ^ Z.of_nat n) :: utf8_tail n cp
  end.

Definition code_point (cp : Z) : Prop := 0 <= cp < 2 ^ 31.
Definition utf8_text (s : cstr) : Prop := exists cps, Forall code_point cps /\ s = flat_map utf8_encode cps.

Example utf8_encode_euro : utf8_encode 8364 = [226; 130; 172].
Proof. reflexivity. Qed.

Definition is_byte (c : Z) : Prop := 0 <= c <= 255.

(** ** Steps of the check *)

(** A first byte is recognised with its length and its bits. *)
Definition lead_step (c : Z) : bool :=
  match utf8_step utf8_init c with
  | Some u =>
      (0 <? u_n u) && (u_n u <? 6) && (c =? utf8_lead (Z.to_nat (u_n u)) (u_char u)) && (0 <=? u_char u) &&
      (u_char u <? 2 ^ (6 - u_n u)) && (u_mask u =? utf8chkmsk (u_n u))
  | None => true
  end.

Lemma utf8_step_first u c : u_n u = 0 -> 128 <= c -> utf8_step u c = utf8_step utf8_init c.
Proof. intros H Hc. unfold utf8_step. rewrite H. destruct (Z.leb_spec 128 c); [reflexivity|lia]. Qed.

Lemma utf8_step_lead u c u' : u_n u = 0 -> 128 <= c <= 255 -> utf8_step u c = Some u' ->
  0 < u_n u' < 6 /\ c = utf8_lead (Z.to_nat (u_n u')) (u_char u') /\ 0 <= u_char u' < 2 ^ (6 - u_n u') /\
  u_mask u' = utf8chkmsk (u_n u').
Proof.
  intros H Hc. rewrite utf8_step_first by lia. intros E.
  pose proof (zrange_check lead_step 128 128 ltac:(vm_compute; reflexivity) c ltac:(lia)) as L.
  unfold lead_step in L. rewrite E in L.
  rewrite !andb_true_iff, !Z.ltb_lt, !Z.eqb_eq, Z.leb_le in L. intuition lia.
Qed.

Lemma lead_accepted n bits : (1 <= n <= 5)%nat -> 0 <= bits < 2 ^ (6 - Z.of_nat n) ->
  forall u, u_n u = 0 ->
  utf8_step u (utf8_lead n bits) = Some (mk_utf8 (Z.of_nat n) (utf8chkmsk (Z.of_nat n)) bits).
Proof.
  intros Hn Hb u Hu.
  assert (128 <= utf8_lead n bits) as Hc.
  { unfold utf8_lead. assert (2 ^ (7 - Z.of_nat n) <= 2 ^ 6) by (apply Z.pow_le_mono_r; lia). lia. }
  rewrite utf8_step_first by assumption. clear Hu Hc.
  set (ok := fun n bits => match utf8_step utf8_init (utf8_lead n bits) with
     | Some v => (u_n v =? Z.of_nat n) && (u_mask v =? utf8chkmsk (Z.of_nat n)) && (u_char v =? bits)
     | None => false end).
  assert (ok n bits = true) as E.
  { assert (n = 1 \/ n = 2 \/ n = 3 \/ n = 4 \/ n = 5)%nat as Cs by lia.
    destruct Cs as [->|[->|[->|[->| ->]]]]; cbn in Hb.
    - exact (zrange_check (ok 1%nat) 0 32 ltac:(vm_compute; reflexivity) bits ltac:(lia)).
    - exact (zrange_check (ok 2%nat) 0 16 ltac:(vm_compute; reflexivity) bits ltac:(lia)).
    - exact (zrange_check (ok 3%nat) 0 8 ltac:(vm_compute; reflexivity) bits ltac:(lia)).
    - exact (zrange_check (ok 4%nat) 0 4 ltac:(vm_compute; reflexivity) bits ltac:(lia)).
    - exact (zrange_check (ok 5%nat) 0 2 ltac:(vm_compute; reflexivity) bits ltac:(lia)). }
  unfold ok in E. destruct (utf8_step _ _) as [[a b c]|]; [|discriminate].
  rewrite !andb_true_iff, !Z.eqb_eq in E. cbn in E. destruct E as [[-> ->] ->]. reflexivity.
Qed.

(** A follow-on byte shifts six bits in. *)
Lemma follow_byte c : is_byte c -> Z.land c 192 = 128 <-> c = 128 + c mod 64.
Proof.
  intros Hc.
  pose proof (zrange_check (fun c => Bool.eqb (Z.land c 192 =? 128) (c =? 128 + c mod 64)) 0 256
    ltac:(vm_compute; reflexivity) c ltac:(unfold is_byte in Hc; lia)) as E. cbn beta in E.
  apply Bool.eqb_prop in E. rewrite <- !Z.eqb_eq, E. reflexivity.
Qed.

Lemma shift_in v c : 0 <= v -> Z.lor (Z.shiftl v 6) (Z.land c 63) = 64 * v + c mod 64.
Proof.
  intros Hv. change 63 with (Z.ones 6). rewrite Z.land_ones, Z.shiftl_mul_pow2 by lia.
  change (2 ^ 6) with 64. rewrite Z.mul_comm. symmetry.
  change (64 * v) with (2 ^ 6 * v). rewrite (Z.mul_comm (2 ^ 6)), <- Z.shiftl_mul_pow2 by lia.
  rewrite <- Z.lxor_lor, Z.add_nocarry_lxor; try reflexivity;
    (apply Z.bits_inj'; intros i Hi; rewrite Z.land_spec, Z.bits_0, Z.shiftl_spec by lia;
     destruct (Z.ltb_spec i 6);
       [rewrite Z.testbit_neg_r by lia; reflexivity
       |change 64 with (2 ^ 6); rewrite Z.mod_pow2_bits_high by lia; apply andb_false_r]).
Qed.

Lemma utf8_step_follow u c : 0 < u_n u -> is_byte c -> 0 <= u_char u ->
  utf8_step u c =
    if c =? 128 + c mod 64 then
      let v := 64 * u_char u + c mod 64 in
      if (u_n u =? 1) && (Z.land v (u_mask u) =? 0) then None else Some (mk_utf8 (u_n u - 1) (u_mask u) v)
    else None.
Proof.
  intros Hn Hc Hv. unfold utf8_step. rewrite (proj2 (Z.ltb_lt _ _) Hn), shift_in by exact Hv.
  pose proof (follow_byte c Hc) as F.
  destruct (Z.eqb_spec (Z.land c 192) 128) as [E|E]; destruct (Z.eqb_spec c (128 + c mod 64)) as [E'|E']; cbn [negb];
    try tauto.
  replace (u_n u - 1 =? 0) with (u_n u =? 1); [reflexivity|].
  destruct (Z.eqb_spec (u_n u) 1); destruct (Z.eqb_spec (u_n u - 1) 0); lia || reflexivity.
Qed.

(** ** The last test: is the encoding the shortest? *)

(** First bit that an encoding with [n] follow-on bytes must use. *)
Definition low_bit (n : nat) : Z := if Nat.eqb n 1 then 7 else 5 * Z.of_nat n + 1.

Lemma mask_test lo w v : 0 <= lo -> 0 <= w -> 0 <= v < 2 ^ (lo + w) ->
  Z.land v (Z.shiftl (Z.ones w) lo) = 0 <-> v < 2 ^ lo.
Proof.
  intros Hl Hw Hv.
  assert (Z.land v (Z.shiftl (Z.ones w) lo) = Z.shiftl (v / 2 ^ lo) lo) as ->.
  { apply Z.bits_inj'. intros i Hi. rewrite Z.land_spec, !Z.shiftl_spec by lia.
    destruct (Z.ltb_spec i lo).
    { rewrite !(Z.testbit_neg_r _ (i - lo)) by lia. apply andb_false_r. }
    rewrite <- Z.shiftr_div_pow2, Z.shiftr_spec by lia. replace (i - lo + lo) with i by lia.
    destruct (Z.ltb_spec i (lo + w)).
    - rewrite Z.ones_spec_low by lia. apply andb_true_r.
    - rewrite Z.ones_spec_high by lia. rewrite andb_false_r.
      symmetry. destruct (Z.eq_dec v 0) as [->|]; [apply Z.bits_0|].
      apply Z.bits_above_log2; [lia|]. apply Z.log2_lt_pow2; [lia|].
      apply Z.lt_le_trans with (2 ^ (lo + w)); [lia|apply Z.pow_le_mono_r; lia]. }
  rewrite Z.shiftl_mul_pow2 by lia. assert (0 < 2 ^ lo) by (apply Z.pow_pos_nonneg; lia).
  rewrite Z.mul_eq_0. split.
  - intros [E|E]; [|lia]. apply Z.div_small_iff in E; lia.
  - intros E. left. apply Z.div_small. lia.
Qed.

Lemma mask_shortest n v : (1 <= n <= 5)%nat -> 0 <= v < 2 ^ (5 * Z.of_nat n + 6) ->
  Z.land v (utf8chkmsk (Z.of_nat n)) = 0 <-> v < 2 ^ low_bit n.
Proof.
  intros Hn Hv. assert (n = 1 \/ n = 2 \/ n = 3 \/ n = 4 \/ n = 5)%nat as Cs by lia.
  destruct Cs as [->|[->|[->|[->| ->]]]].
  - exact (mask_test 7 4 v ltac:(lia) ltac:(lia) Hv).
  - exact (mask_test 11 5 v ltac:(lia) ltac:(lia) Hv).
  - exact (mask_test 16 5 v ltac:(lia) ltac:(lia) Hv).
  - exact (mask_test 21 5 v ltac:(lia) ltac:(lia) Hv).
  - exact (mask_test 26 5 v ltac:(lia) ltac:(lia) Hv).
Qed.

Lemma utf8_len_spec n cp : (1 <= n <= 5)%nat -> 0 <= cp ->
  2 ^ low_bit n <= cp < 2 ^ (5 * Z.of_nat n + 6) <-> cp < 2 ^ 31 /\ utf8_len cp = n.
Proof.
  intros Hn Hc. unfold utf8_len. assert (n = 1 \/ n = 2 \/ n = 3 \/ n = 4 \/ n = 5)%nat as Cs by lia.
  cbn [Z.pow Z.pow_pos Pos.iter Z.mul Pos.mul].
  destruct Cs as [->|[->|[->|[->| ->]]]]; cbn; ztests.
Qed.

(** ** What the check has seen so far *)

(** [k] of the [n] follow-on bytes of a sequence whose bits so far are [v]. *)
Definition partial (u : utf8) (rest : cstr) : Prop :=
  exists n k, (1 <= n <= 5)%nat /\ (k < n)%nat /\ u_n u = Z.of_nat n - Z.of_nat k /\
    u_mask u = utf8chkmsk (Z.of_nat n) /\ 0 <= u_char u < 2 ^ (6 - Z.of_nat n + 6 * Z.of_nat k) /\
    rest = utf8_lead n (u_char u / 64 ^ Z.of_nat k) :: utf8_tail k (u_char u).

(** Complete sequences, and perhaps a partial one. *)
Definition decoded (u : utf8) (acc : cstr) : Prop :=
  exists cps rest, Forall code_point cps /\ acc = flat_map utf8_encode cps ++ rest /\
    (u_n u = 0 /\ rest = [] \/ partial u rest).

Lemma decoded_init : decoded utf8_init [].
Proof. exists [], []. repeat split; [constructor|]. left. split; reflexivity. Qed.

Lemma decoded_complete u acc : decoded u acc -> u_n u <= 0 -> utf8_text acc.
Proof.
  intros (cps & rest & F & -> & [[_ ->]|(n & k & Hn & Hk & E & _)]) H; [|lia].
  exists cps. rewrite app_nil_r. split; [exact F|reflexivity].
Qed.

Lemma flat_map_snoc {A B} (f : A -> list B) l x : flat_map f (l ++ [x]) = flat_map f l ++ f x.
Proof. rewrite flat_map_app. cbn [flat_map]. rewrite app_nil_r. reflexivity. Qed.

Lemma partial_step u rest c u' : partial u rest -> is_byte c -> utf8_step u c = Some u' ->
  partial u' (rest ++ [c]) \/ u_n u' = 0 /\ exists cp, code_point cp /\ rest ++ [c] = utf8_encode cp.
Proof.
  intros (n & k & Hn & Hk & En & Em & Hv & ->) Hc. rewrite utf8_step_follow by (assumption || lia).
  destruct (Z.eqb_spec c (128 + c mod 64)) as [Ec|]; [|discriminate]. cbv zeta.
  set (v := 64 * u_char u + c mod 64).
  assert (v / 64 = u_char u) as Dv by (unfold v; divlia).
  assert (v mod 64 = c mod 64) as Mv by (unfold v; divlia).
  assert (v / 64 ^ Z.of_nat (S k) = u_char u / 64 ^ Z.of_nat k) as Lv.
  { rewrite Nat2Z.inj_succ, Z.pow_succ_r, <- Z.div_div, Dv by lia. reflexivity. }
  assert (0 <= v < 2 ^ (6 - Z.of_nat n + 6 * Z.of_nat (S k))) as Bv.
  { replace (6 - Z.of_nat n + 6 * Z.of_nat (S k)) with (6 + (6 - Z.of_nat n + 6 * Z.of_nat k)) by lia.
    rewrite Z.pow_add_r by lia. change (2 ^ 6) with 64. unfold v. divlia. }
  assert ((utf8_lead n (u_char u / 64 ^ Z.of_nat k) :: utf8_tail k (u_char u)) ++ [c] =
          utf8_lead n (v / 64 ^ Z.of_nat (S k)) :: utf8_tail (S k) v) as ->.
  { cbn [app utf8_tail]. rewrite Lv, Dv, Mv, <- Ec. reflexivity. }
  destruct (Z.eqb_spec (u_n u) 1) as [E1|E1]; cbn [andb].
  - destruct (Z.eqb_spec (Z.land v (u_mask u)) 0) as [|Hm]; [discriminate|].
    intros E. injection E as <-. cbn [u_n]. right. split; [lia|]. assert (S k = n) as Sk by lia.
    rewrite Sk in *. replace (6 - Z.of_nat n + 6 * Z.of_nat n) with (5 * Z.of_nat n + 6) in Bv by lia.
    rewrite Em, mask_shortest in Hm by assumption.
    destruct (proj1 (utf8_len_spec n v Hn ltac:(lia)) ltac:(lia)) as [H31 Hl].
    exists v. split; [split; lia|]. unfold utf8_encode. rewrite Hl. destruct n; [lia|reflexivity].
  - intros E. injection E as <-. left. exists n, (S k). cbn [u_n u_mask u_char].
    repeat split; assumption || lia.
Qed.

Lemma decoded_step u acc c u' : decoded u acc -> is_byte c -> utf8_step u c = Some u' -> decoded u' (acc ++ [c]).
Proof.
  intros (cps & rest & F & -> & [[Hn ->]|P]) Hc E.
  - rewrite app_nil_r. destruct (Z.lt_ge_cases c 128) as [Ha|Ha].
    + unfold utf8_step in E. rewrite Hn in E. destruct (Z.leb_spec 128 c); [lia|]. injection E as <-.
      exists (cps ++ [c]), []. rewrite flat_map_snoc, app_nil_r. unfold is_byte in Hc. repeat split.
      * apply Forall_app. split; [exact F|]. repeat constructor; lia.
      * f_equal. unfold utf8_encode, utf8_len. change (2 ^ 7) with 128.
        destruct (Z.ltb_spec c 128); [reflexivity|lia].
      * left. split; [exact Hn|reflexivity].
    + unfold is_byte in Hc. destruct (utf8_step_lead u c u' Hn ltac:(lia) E) as (Bn & Ec & Bv & Em).
      exists cps, [c]. repeat split; [exact F|]. right. exists (Z.to_nat (u_n u')), 0%nat.
      rewrite Z2Nat.id by lia. cbn [utf8_tail Z.of_nat]. rewrite Z.pow_0_r, Z.div_1_r, <- Ec.
      replace (6 - u_n u' + 6 * 0) with (6 - u_n u') by lia. repeat split; lia || assumption.
  - rewrite <- app_assoc. destruct (partial_step u rest c u' P Hc E) as [P'|(Hn & cp & Hcp & ->)].
    + exists cps, (rest ++ [c]). repeat split; [exact F|]. right. exact P'.
    + exists (cps ++ [cp]), []. rewrite flat_map_snoc, app_nil_r. repeat split.
      * apply Forall_app. split; [exact F|]. repeat constructor; apply Hcp.
      * left. split; [exact Hn|reflexivity].
Qed.

(** ** Encodings pass the check *)

Lemma utf8_run_app s1 s2 : forall u,
  utf8_run u (s1 ++ s2) = match utf8_run u s1 with Some u => utf8_run u s2 | None => None end.
Proof.
  induction s1 as [|c s1 IH]; intros u; cbn [app utf8_run]; [reflexivity|].
  destruct (utf8_step u c); [apply IH|reflexivity].
Qed.

Lemma utf8_tail_S n : forall cp,
  utf8_tail (S n) cp = (128 + cp / 64 ^ Z.of_nat n mod 64) :: utf8_tail n cp.
Proof.
  induction n as [|n IH]; intros cp.
  { cbn [utf8_tail app Z.of_nat]. rewrite Z.pow_0_r, Z.div_1_r. reflexivity. }
  change (utf8_tail (S (S n)) cp) with (utf8_tail (S n) (cp / 64) ++ [128 + cp mod 64]).
  rewrite IH. cbn [app utf8_tail]. rewrite Z.div_div, <- Z.pow_succ_r, <- Nat2Z.inj_succ by lia. reflexivity.
Qed.

Lemma utf8_run_tail mask m : forall cp, 0 <= cp -> Z.land cp mask <> 0 -> (0 < m)%nat ->
  utf8_run (mk_utf8 (Z.of_nat m) mask (cp / 64 ^ Z.of_nat m)) (utf8_tail m cp) = Some (mk_utf8 0 mask cp).
Proof.
  induction m as [|m IH]; intros cp Hc Hm Hp; [lia|]. rewrite utf8_tail_S. cbn [utf8_run].
  pose proof (Z.mod_pos_bound (cp / 64 ^ Z.of_nat m) 64 ltac:(lia)) as B.
  rewrite utf8_step_follow; cbn [u_n u_mask u_char]; try (unfold is_byte; lia);
    [|apply Z.div_pos; [lia|apply Z.pow_pos_nonneg; lia]].
  replace ((128 + cp / 64 ^ Z.of_nat m mod 64) mod 64) with (cp / 64 ^ Z.of_nat m mod 64) by divlia.
  rewrite Z.eqb_refl. cbv zeta.
  assert (64 * (cp / 64 ^ Z.of_nat (S m)) + cp / 64 ^ Z.of_nat m mod 64 = cp / 64 ^ Z.of_nat m) as ->.
  { rewrite Nat2Z.inj_succ, Z.pow_succ_r, (Z.mul_comm 64 (64 ^ _)), <- Z.div_div by lia.
    pose proof (Z.div_mod (cp / 64 ^ Z.of_nat m) 64 ltac:(lia)). lia. }
  replace (Z.of_nat (S m) - 1) with (Z.of_nat m) by lia. destruct m as [|m].
  - cbn [Z.of_nat utf8_tail utf8_run]. rewrite Z.pow_0_r, Z.div_1_r. cbn [Z.eqb].
    rewrite (proj2 (Z.eqb_neq _ _) Hm). reflexivity.
  - rewrite (proj2 (Z.eqb_neq (Z.of_nat (S (S m))) 1)) by lia. cbn [andb]. apply IH; (assumption || lia).
Qed.

Lemma utf8_run_encode cp u : code_point cp -> u_n u = 0 ->
  exists u', utf8_run u (utf8_encode cp) = Some u' /\ u_n u' = 0.
Proof.
  intros [H0 H31] Hu. unfold utf8_encode. destruct (utf8_len cp) as [|m] eqn:L.
  - unfold utf8_len in L. change (2 ^ 7) with 128 in L.
    destruct (Z.ltb_spec cp 128); [|repeat destruct (_ <? _); discriminate].
    exists u. split; [|exact Hu]. cbn [utf8_run]. unfold utf8_step. rewrite Hu.
    destruct (Z.leb_spec 128 cp); [lia|reflexivity].
  - set (n := S m) in *. assert (1 <= n <= 5)%nat as Hn.
    { unfold n in *. unfold utf8_len in L. repeat destruct (_ <? _); lia. }
    destruct (proj2 (utf8_len_spec n cp Hn H0) (conj H31 L)) as [Hl Hh].
    exists (mk_utf8 0 (utf8chkmsk (Z.of_nat n)) cp). split; [|reflexivity]. cbn [utf8_run].
    rewrite lead_accepted; [|exact Hn| |exact Hu].
    + apply utf8_run_tail; [exact H0| |lia]. rewrite mask_shortest by lia. lia.
    + split; [apply Z.div_pos; [lia|apply Z.pow_pos_nonneg; lia]|].
      apply Z.div_lt_upper_bound; [apply Z.pow_pos_nonneg; lia|].
      change 64 with (2 ^ 6). rewrite <- Z.pow_mul_r, <- Z.pow_add_r by lia.
      replace (6 * Z.of_nat n + (6 - Z.of_nat n)) with (5 * Z.of_nat n + 6) by lia. exact Hh.
Qed.

Lemma utf8_run_text s : utf8_text s -> exists u, utf8_run utf8_init s = Some u /\ u_n u = 0.
Proof.
  intros (cps & F & ->). assert (u_n utf8_init = 0) as H by reflexivity. revert H.
  generalize utf8_init. induction F as [|cp cps Hcp F IH]; intros u Hu; cbn [flat_map].
  - exists u. split; [reflexivity|exact Hu].
  - destruct (utf8_run_encode cp u Hcp Hu) as (u1 & E1 & H1). rewrite utf8_run_app, E1. exact (IH u1 H1).
Qed.
