(* ===== verification/StrAtom.v ===== *)
(** * The string atom of the GDK kernel

    Models the conversions of src/src/gdk/gdk_atoms.c between strings in
    memory and their quoted text: UTF-8 validation, unescaping
    ([GDKstrFromStr], [strFromStr]) and escaping ([escapedStrlen],
    [escapedStr], [strToStr]).  Bytes are numbers from 0 to 255. *)

From Stdlib Require Import ZArith Lia Bool List String.
Import ListNotations.
From S2P Require Import Prelude Atoms Utf8.

Open Scope string_scope.
Open Scope Z_scope.
Open Scope list_scope.

(** ** UTF-8 *)

(** ** From text *)

Definition num08 (x : Z) : bool := (48 <=? x) && (x <=? 55).
Definition num16 (x : Z) : bool :=
  isdigit x || ((97 <=? x) && (x <=? 102)) || ((65 <=? x) && (x <=? 70)).
Definition base16 (x : Z) : Z :=
  if (97 <=? x) && (x <=? 102) then x - 97 + 10
  else if (65 <=? x) && (x <=? 70) then x - 65 + 10 else x - 48.

(** The single-character escapes, and the default case. *)
Definition simple_escape (c : Z) : Z :=
  if c =? 97 then 7 else if c =? 98 then 8 else if c =? 102 then 12 else if c =? 110 then 10
  else if c =? 114 then 13 else if c =? 116 then 9 else if c =? 0 then 92 else c.

(** The loop of [GDKstrFromStr]: [left] is [end - cur]; the result is the
    bytes written before the NUL, or [None] for [-1]. Reading stops at the
    string's own NUL, where [left] is not positive. *)
Fixpoint str_loop (cur : cstr) (left : Z) (escaped : bool) (u : utf8) (acc : cstr) : option cstr :=
  let push c k := match utf8_step u c with Some u => k u (acc ++ [c]) | None => None end in
  let finish u acc := if 0 <? u_n u then None else Some acc in
  if (0 <? left) || escaped then
    match cur with
    | [] => if escaped then push 92 finish else finish u acc
    | c :: t =>
        if escaped then
          if num08 c then
            match t with
            | d1 :: t1 =>
                if num08 d1 then
                  match t1 with
                  | d2 :: t2 =>
                      if num08 d2
                      then push (Z.land (((c - 48) * 8 + (d1 - 48)) * 8 + (d2 - 48)) 255)
                             (str_loop t2 (left - 3) false)
                      else push ((c - 48) * 8 + (d1 - 48)) (str_loop t1 (left - 2) false)
                  | [] => push ((c - 48) * 8 + (d1 - 48)) (str_loop t1 (left - 2) false)
                  end
                else push (c - 48) (str_loop t (left - 1) false)
            | [] => push (c - 48) (str_loop t (left - 1) false)
            end
          else if c =? 120 then
            match t with
            | d1 :: t1 =>
                if num16 d1 then
                  match t1 with
                  | d2 :: t2 =>
                      if num16 d2 then push (base16 d1 * 16 + base16 d2) (str_loop t2 (left - 3) false)
                      else push (base16 d1) (str_loop t1 (left - 2) false)
                  | [] => push (base16 d1) (str_loop t1 (left - 2) false)
                  end
                else push 120 (str_loop t (left - 1) false)
            | [] => push 120 (str_loop t (left - 1) false)
            end
          else push (simple_escape c) (str_loop t (left - 1) false)
        else if c =? 92 then str_loop t (left - 1) true u acc
        else push c (str_loop t (left - 1) false)
    end
  else finish u acc.

Definition GDKstrFromStr (src : cstr) (len : Z) : option cstr := str_loop src len false utf8_init [].

(** The scouting loop of [strFromStr]: number of bytes before the closing
    quote and the space to allocate; [None] when the quote is missing. *)
Fixpoint str_scout (cur : cstr) (escaped : bool) (len l : Z) : option (Z * Z) :=
  match cur with
  | [] => None
  | c :: cur =>
      if (c =? 34) && negb escaped then Some (len, l)
      else if c =? 0 then None
      else if (c =? 92) && negb escaped then str_scout cur true (len + 1) l
      else str_scout cur false (len + 1) (l + 1)
  end.

(** Returned length and stored string; errors store nil. *)
Definition strFromStr (src : cstr) : Z * cstr :=
  let cur := skip_spaces src in
  if negb (chead cur =? 34) then
    (if starts (lit "nil") cur then consumed src (skipn 3 cur) else 0, str_nil)
  else
    match str_scout (tl cur) false 0 1 with
    | None => (0, str_nil)
    | Some (len, l) =>
        match GDKstrFromStr (tl cur) len with
        | Some s => (len, s)
        | None => (0, str_nil)
        end
    end.

(** ** To text *)

Definition printable_chr (ch : Z) : bool := ((32 <=? ch) && (ch <=? 126)) || (128 <=? ch).
(** The second byte of the UTF-8 encoding of U+0080 to U+009F. *)
Definition ctrl2 (ch : Z) : bool := (128 <=? ch) && (ch <=? 159).

Fixpoint escapedStrlen (src : cstr) : Z :=
  match src with
  | [] => 0
  | c :: src' =>
      (if (c =? 9) || (c =? 10) || (c =? 92) || (c =? 34) then 2
       else if (c =? 194) && ctrl2 (chead src') then 7
       else if negb (printable_chr c) then 4 else 1) + escapedStrlen src'
  end.

(** ["\\%03o"]. *)
Definition octal3 (c : Z) : cstr := [92; 48 + c / 64; 48 + c / 8 mod 8; 48 + c mod 8].

(** The escaped form of one byte, given the byte before it and the one
    after. *)
Definition escape1 (prev c next : Z) : cstr :=
  if c =? 9 then [92; 116] else if c =? 10 then [92; 110] else if c =? 92 then [92; 92]
  else if c =? 34 then [92; 34]
  else if negb (printable_chr c) || ((c =? 194) && ctrl2 next) || ((prev =? 194) && ctrl2 c)
  then octal3 c else [c].

(** What is written to a buffer of [dstlen] bytes from position [l] on.
    [snprintf] cuts an octal escape at the end of the buffer; that does not
    happen for the buffers [strToStr] allocates (see [strToStr_fits]). *)
Fixpoint escapedStr_from (prev : Z) (src : cstr) (l dstlen : Z) : cstr :=
  match src with
  | [] => []
  | c :: src' =>
      if l <? dstlen then
        let e := escape1 prev c (chead src') in
        e ++ escapedStr_from c src' (l + Z.of_nat (List.length e)) dstlen
      else []
  end.
Definition escapedStr (src : cstr) (dstlen : Z) : cstr := escapedStr_from 0 src 0 dstlen.

(** [len] is the size of the buffer passed in, 0 for none. *)
Definition strToStr (len : Z) (src : cstr) : cstr :=
  if GDK_STRNIL src then lit "nil"
  else
    let sz := escapedStrlen src in
    let len := if len <? sz + 3 then sz + 3 else len in
    [34] ++ escapedStr src (len - 1) ++ [34].

(** ** Escaping is exact and reversible *)

Definition byte_ok (c : Z) : Prop := 1 <= c <= 255.

(** The bytes [c] written by the escaper, decoded from any state, are one
    byte [c] pushed, whatever comes before and after. *)
Definition decodes_as (e : cstr) (c : Z) : Prop :=
  forall rest left u acc, 0 <= left ->
    str_loop (e ++ rest) (Z.of_nat (List.length e) + left) false u acc =
    match utf8_step u c with Some u => str_loop rest left false u (acc ++ [c]) | None => None end.

(** Scouting passes over them without seeing a closing quote. *)
Definition scouts_over (e : cstr) : Prop :=
  forall rest len l, exists l', str_scout (e ++ rest) false len l =
    str_scout rest false (len + Z.of_nat (List.length e)) l' /\ l + 1 <= l' <= l + Z.of_nat (List.length e).

Lemma octal3_digits c : byte_ok c ->
  let d1 := 48 + c / 64 in let d2 := 48 + c / 8 mod 8 in let d3 := 48 + c mod 8 in
  num08 d1 = true /\ num08 d2 = true /\ num08 d3 = true /\
  Z.land (((d1 - 48) * 8 + (d2 - 48)) * 8 + (d3 - 48)) 255 = c /\
  48 <= d1 <= 55 /\ 48 <= d2 <= 55 /\ 48 <= d3 <= 55.
Proof.
  unfold byte_ok. intros Hc. cbv zeta. unfold num08. rewrite !andb_true_iff, !Z.leb_le.
  assert (((48 + c / 64 - 48) * 8 + (48 + c / 8 mod 8 - 48)) * 8 + (48 + c mod 8 - 48) = c) as -> by divlia.
  repeat split; try divlia. change 255 with (Z.ones 8). rewrite Z.land_ones by lia. apply Z.mod_small. cbn; lia.
Qed.

Lemma decodes_octal c : byte_ok c -> decodes_as (octal3 c) c.
Proof.
  intros Hc rest left u acc Hl. destruct (octal3_digits c Hc) as (D1 & D2 & D3 & E & _).
  cbv zeta in *. unfold octal3. cbn [app List.length]. cbn [str_loop].
  rewrite (proj2 (Z.ltb_lt 0 _)) by lia. cbn [orb]. change (92 =? 92) with true. cbn iota.
  rewrite orb_true_r, D1, D2, D3, E. replace (Z.of_nat 4 + left - 1 - 3) with left by lia. reflexivity.
Qed.

Lemma decodes_plain c : c <> 92 -> decodes_as [c] c.
Proof.
  intros Hc rest left u acc Hl. cbn [app List.length str_loop].
  rewrite (proj2 (Z.ltb_lt 0 _)) by lia. cbn [orb]. rewrite (proj2 (Z.eqb_neq c 92)) by exact Hc.
  replace (Z.of_nat 1 + left - 1) with left by lia. reflexivity.
Qed.

Lemma decodes_simple x c : num08 x = false -> x <> 120 -> simple_escape x = c -> decodes_as [92; x] c.
Proof.
  intros H8 Hx E rest left u acc Hl. cbn [app List.length]. cbn [str_loop].
  rewrite (proj2 (Z.ltb_lt 0 _)) by lia. cbn [orb]. change (92 =? 92) with true. cbn iota.
  rewrite orb_true_r, H8, (proj2 (Z.eqb_neq x 120)) by exact Hx. rewrite E.
  replace (Z.of_nat 2 + left - 1 - 1) with left by lia. reflexivity.
Qed.

Lemma scouts_plain c : c <> 34 -> c <> 92 -> c <> 0 -> scouts_over [c].
Proof.
  intros H1 H2 H3 rest len l. exists (l + 1). cbn [app str_scout List.length].
  rewrite (proj2 (Z.eqb_neq c 34)), (proj2 (Z.eqb_neq c 0)), (proj2 (Z.eqb_neq c 92)) by assumption.
  cbn [andb]. split; [f_equal; lia|lia].
Qed.

Lemma scouts_pair x : x <> 0 -> scouts_over [92; x].
Proof.
  intros H rest len l. exists (l + 1). cbn [app str_scout List.length].
  change (92 =? 34) with false. change (92 =? 0) with false. change (92 =? 92) with true.
  cbn [andb negb str_scout]. rewrite !andb_false_r. rewrite (proj2 (Z.eqb_neq x 0)) by exact H.
  split; [f_equal; lia|lia].
Qed.

Lemma scouts_octal c : byte_ok c -> scouts_over (octal3 c).
Proof.
  intros Hc rest len l. destruct (octal3_digits c Hc) as (_ & _ & _ & _ & B1 & B2 & B3).
  cbv zeta in *. unfold octal3.
  set (d1 := 48 + c / 64) in *. set (d2 := 48 + c / 8 mod 8) in *. set (d3 := 48 + c mod 8) in *.
  destruct (scouts_pair d1 ltac:(lia) (d2 :: d3 :: rest) len l) as (l1 & E1 & L1).
  destruct (scouts_plain d2 ltac:(lia) ltac:(lia) ltac:(lia) (d3 :: rest) (len + 2) l1) as (l2 & E2 & L2).
  destruct (scouts_plain d3 ltac:(lia) ltac:(lia) ltac:(lia) rest (len + 2 + 1) l2) as (l3 & E3 & L3).
  exists l3. cbn [app List.length] in *. rewrite E1. change (Z.of_nat 2) with 2 in *.
  rewrite E2. change (Z.of_nat 1) with 1 in *. rewrite E3. split; [f_equal; lia|lia].
Qed.

Lemma escape1_spec prev c next : byte_ok c ->
  decodes_as (escape1 prev c next) c /\ scouts_over (escape1 prev c next).
Proof.
  intros Hc. unfold escape1. unfold byte_ok in Hc.
  destruct (Z.eqb_spec c 9) as [->|]; [split; [apply decodes_simple; (reflexivity || lia)|apply scouts_pair; lia]|].
  destruct (Z.eqb_spec c 10) as [->|]; [split; [apply decodes_simple; (reflexivity || lia)|apply scouts_pair; lia]|].
  destruct (Z.eqb_spec c 92) as [->|]; [split; [apply decodes_simple; (reflexivity || lia)|apply scouts_pair; lia]|].
  destruct (Z.eqb_spec c 34) as [->|]; [split; [apply decodes_simple; (reflexivity || lia)|apply scouts_pair; lia]|].
  destruct (_ || _ || _).
  - split; [apply decodes_octal|apply scouts_octal]; unfold byte_ok; lia.
  - split; [apply decodes_plain|apply scouts_plain]; lia.
Qed.

(** The whole escaped string, untruncated. *)
Fixpoint escape_all (prev : Z) (src : cstr) : cstr :=
  match src with
  | [] => []
  | c :: src' => escape1 prev c (chead src') ++ escape_all c src'
  end.

Lemma escape_all_length src : forall prev, Forall byte_ok src ->
  Z.of_nat (List.length (escape_all prev src)) =
  escapedStrlen src + (if (prev =? 194) && ctrl2 (chead src) then 3 else 0).
Proof.
  induction src as [|c src IH]; intros prev H.
  { cbn. change (ctrl2 0) with false. rewrite andb_false_r. reflexivity. }
  apply Forall_cons_iff in H as [Hc H]. cbn [escape_all escapedStrlen hd].
  rewrite length_app, Nat2Z.inj_add, IH by exact H. unfold byte_ok in Hc.
  unfold escape1, printable_chr, ctrl2.
  destruct (Z.eqb_spec c 9) as [->|]; [cbn -[escapedStrlen Z.add Z.of_nat]; rewrite ?andb_false_r; lia|].
  destruct (Z.eqb_spec c 10) as [->|]; [cbn -[escapedStrlen Z.add Z.of_nat]; rewrite ?andb_false_r; lia|].
  destruct (Z.eqb_spec c 92) as [->|]; [cbn -[escapedStrlen Z.add Z.of_nat]; rewrite ?andb_false_r; lia|].
  destruct (Z.eqb_spec c 34) as [->|]; [cbn -[escapedStrlen Z.add Z.of_nat]; rewrite ?andb_false_r; lia|]. cbn [orb].
  destruct (Z.eqb_spec c 194) as [->|].
  - change (128 <=? 194) with true. change (194 <=? 159) with false. change (194 <=? 126) with false.
    cbn [andb orb negb]. rewrite ?andb_false_r. cbn [orb negb]. rewrite ?andb_false_r, ?orb_false_r.
    destruct ((128 <=? chead src) && (chead src <=? 159)); cbn [List.length octal3]; lia.
  - cbn [andb orb]. rewrite orb_false_r.
    destruct (Z.leb_spec 32 c), (Z.leb_spec c 126), (Z.leb_spec 128 c), (Z.leb_spec c 159);
      cbn [andb orb negb]; try lia; destruct (prev =? 194); cbn [andb List.length octal3]; lia.
Qed.

Lemma escapedStr_all src : forall prev l dstlen, Forall byte_ok src ->
  l + Z.of_nat (List.length (escape_all prev src)) < dstlen ->
  escapedStr_from prev src l dstlen = escape_all prev src.
Proof.
  induction src as [|c src IH]; intros prev l dstlen H Hl; [reflexivity|].
  apply Forall_cons_iff in H as [Hc H]. cbn [escape_all escapedStr_from] in *.
  rewrite length_app in Hl. rewrite (proj2 (Z.ltb_lt l dstlen)) by lia.
  cbv zeta. f_equal. apply IH; [exact H|lia].
Qed.

(** Printing a string stays inside its buffer: the size computed in
    advance by [escapedStrlen] is exactly the number of bytes [escapedStr]
    writes, so both quotes and the NUL fit in the [sz + 3] bytes that
    [strToStr] allocates. *)
Theorem strToStr_fits len src : Forall byte_ok src -> GDK_STRNIL src = false ->
  let sz := escapedStrlen src in
  Z.of_nat (List.length (strToStr len src)) = sz + 2 /\
  escapedStr src ((if len <? sz + 3 then sz + 3 else len) - 1) = escape_all 0 src.
Proof.
  intros H Hn. cbv zeta. pose proof (escape_all_length src 0 H) as L.
  change (0 =? 194) with false in L. cbn [andb] in L. rewrite Z.add_0_r in L.
  assert (escapedStr src ((if len <? escapedStrlen src + 3 then escapedStrlen src + 3 else len) - 1)
          = escape_all 0 src) as E.
  { apply escapedStr_all; [exact H|]. destruct (Z.ltb_spec len (escapedStrlen src + 3)); lia. }
  split; [|exact E]. unfold strToStr. rewrite Hn. cbv zeta. rewrite E.
  rewrite !length_app. cbn [List.length]. lia.
Qed.

Lemma strToStr_fits_witness :
  let src := [194; 133; 9; 65; 34] in let sz := escapedStrlen src in
  Z.of_nat (List.length (strToStr 0 src)) = sz + 2 /\
  escapedStr src ((if 0 <? sz + 3 then sz + 3 else 0) - 1) = escape_all 0 src.
Proof. apply (strToStr_fits 0 [194; 133; 9; 65; 34]); [repeat constructor; discriminate|reflexivity]. Defined.

Lemma str_loop_done cur u acc :
  str_loop cur 0 false u acc = if 0 <? u_n u then None else Some acc.
Proof. destruct cur; reflexivity. Qed.

(** Unescaping what the escaper wrote runs the UTF-8 check over the original
    bytes and yields them. *)
Lemma str_loop_escape rest src : forall prev left u acc, Forall byte_ok src -> 0 <= left ->
  str_loop (escape_all prev src ++ rest)
    (Z.of_nat (List.length (escape_all prev src)) + left) false u acc =
  match utf8_run u src with
  | Some u => str_loop rest left false u (acc ++ src)
  | None => None
  end.
Proof.
  induction src as [|c src IH]; intros prev left u acc H Hl.
  { cbn [escape_all app List.length utf8_run]. rewrite app_nil_r. reflexivity. }
  apply Forall_cons_iff in H as [Hc H]. cbn [escape_all utf8_run].
  destruct (escape1_spec prev c (chead src) Hc) as [D _].
  rewrite <- app_assoc, length_app, Nat2Z.inj_add, <- Z.add_assoc, D by lia.
  destruct (utf8_step u c) as [u'|]; [|reflexivity]. rewrite IH by (assumption || lia).
  rewrite <- app_assoc. reflexivity.
Qed.

Lemma str_scout_escape rest src : forall prev len l, Forall byte_ok src -> exists l',
  str_scout (escape_all prev src ++ 34 :: rest) false len l =
  Some (len + Z.of_nat (List.length (escape_all prev src)), l').
Proof.
  induction src as [|c src IH]; intros prev len l H.
  { exists l. cbn. f_equal. f_equal. lia. }
  apply Forall_cons_iff in H as [Hc H]. cbn [escape_all].
  destruct (escape1_spec prev c (chead src) Hc) as [_ S].
  rewrite <- app_assoc. destruct (S (escape_all c src ++ 34 :: rest) len l) as (l1 & -> & _).
  destruct (IH c (len + Z.of_nat (List.length (escape1 prev c (chead src)))) l1 H) as (l2 & ->).
  exists l2. rewrite length_app. do 2 f_equal. lia.
Qed.

Lemma utf8_run_not_nil u s : utf8_run utf8_init s = Some u -> GDK_STRNIL s = false.
Proof.
  destruct s as [|c s]; [reflexivity|]. unfold GDK_STRNIL. cbn [chead hd].
  destruct (Z.eqb_spec c 128) as [->|]; [|reflexivity]. cbn. discriminate.
Qed.



(** ** Parsing is safe on any input *)

Lemma num08_range d : num08 d = true -> 48 <= d <= 55.
Proof. unfold num08. rewrite andb_true_iff, !Z.leb_le. lia. Qed.
Lemma num16_range d : num16 d = true -> 48 <= d <= 57 \/ 97 <= d <= 102 \/ 65 <= d <= 70.
Proof. unfold num16, isdigit. rewrite !orb_true_iff, !andb_true_iff, !Z.leb_le. lia. Qed.

Lemma base16_range d : num16 d = true -> 0 <= base16 d <= 15.
Proof. intros H. apply num16_range in H. unfold base16. ztests. Qed.
Lemma simple_escape_byte c : is_byte c -> is_byte (simple_escape c).
Proof. unfold is_byte, simple_escape. intros H. ztests. Qed.
Lemma octal_byte a b c : is_byte (Z.land ((a * 8 + b) * 8 + c) 255).
Proof. change 255 with (Z.ones 8) at 1. rewrite Z.land_ones by lia. unfold is_byte. divlia. Qed.

(** One byte pushed keeps the check in step with the bytes written. *)
Lemma push_decoded u acc c (k : utf8 -> cstr -> option cstr) s : decoded u acc -> is_byte c ->
  match utf8_step u c with Some u => k u (acc ++ [c]) | None => None end = Some s ->
  exists u', decoded u' (acc ++ [c]) /\ k u' (acc ++ [c]) = Some s.
Proof.
  intros D Hc. destruct (utf8_step u c) as [u'|] eqn:E; [|discriminate].
  intros Ek. exists u'. split; [exact (decoded_step u acc c u' D Hc E)|exact Ek].
Qed.

Lemma str_finish u acc s : decoded u acc ->
  (if 0 <? u_n u then None else Some acc) = Some s -> utf8_text s.
Proof.
  intros D. destruct (Z.ltb_spec 0 (u_n u)); [discriminate|]. intros E. injection E as <-.
  exact (decoded_complete u acc D ltac:(lia)).
Qed.

(** The byte pushed last, before the NUL is written. *)
Lemma push_finish u acc s : decoded u acc ->
  match utf8_step u 92 with
  | Some u => if 0 <? u_n u then None else Some (acc ++ [92])
  | None => None
  end = Some s -> utf8_text s.
Proof.
  intros D E.
  destruct (push_decoded u acc 92 (fun u a => if 0 <? u_n u then None else Some a) s D ltac:(unfold is_byte; lia) E)
    as (u' & D' & E').
  exact (str_finish u' _ s D' E').
Qed.

Ltac str_case IH :=
  match goal with
  | D : decoded ?u ?acc, E : context [utf8_step ?u ?c] |- _ =>
      let u' := fresh "u'" in let D' := fresh "D'" in let E' := fresh "E'" in
      let B := fresh "B" in
      assert (is_byte c) as B
        by (apply octal_byte || (apply simple_escape_byte; assumption) || unfold is_byte in *; lia);
      destruct (push_decoded _ _ _ _ _ D B E) as (u' & D' & E');
      eapply IH; [| |exact D'|exact E']; [cbn [List.length] in *; lia|assumption]
  end.

Lemma str_loop_utf8 n : forall cur left escaped u acc s, (List.length cur <= n)%nat ->
  Forall is_byte cur -> decoded u acc -> str_loop cur left escaped u acc = Some s -> utf8_text s.
Proof.
  induction n as [|n IH]; intros cur left escaped u acc s Hn Hb D E.
  - destruct cur; [|cbn in Hn; lia]. cbn [str_loop] in E.
    destruct ((0 <? left) || escaped); [|eapply str_finish; eassumption].
    destruct escaped; [eapply push_finish; eassumption|eapply str_finish; eassumption].
  - destruct cur as [|c t]; cbn [str_loop] in E;
      (destruct ((0 <? left) || escaped); [|eapply str_finish; eassumption]).
    { destruct escaped; [eapply push_finish; eassumption|eapply str_finish; eassumption]. }
    cbn [List.length] in Hn. apply Forall_cons_iff in Hb as [Hc Ht]. destruct escaped.
    + destruct (num08 c) eqn:N.
      { apply num08_range in N. destruct t as [|d1 t1]; [str_case IH|].
        pose proof Ht as Ht1. apply Forall_cons_iff in Ht1 as [_ Ht1].
        destruct (num08 d1) eqn:N1; [|str_case IH]. apply num08_range in N1.
        destruct t1 as [|d2 t2]; [str_case IH|].
        pose proof Ht1 as Ht2. apply Forall_cons_iff in Ht2 as [_ Ht2]. destruct (num08 d2); str_case IH. }
      destruct (c =? 120); [|str_case IH].
      destruct t as [|d1 t1]; [str_case IH|]. pose proof Ht as Ht1. apply Forall_cons_iff in Ht1 as [_ Ht1].
      destruct (num16 d1) eqn:N1; [|str_case IH]. apply base16_range in N1.
      destruct t1 as [|d2 t2]; [str_case IH|].
      pose proof Ht1 as Ht2. apply Forall_cons_iff in Ht2 as [_ Ht2].
      destruct (num16 d2) eqn:N2; [apply base16_range in N2|]; str_case IH.
    + destruct (c =? 92); [|str_case IH]. eapply IH; [| |exact D|exact E]; [lia|assumption].
Qed.

(** Only well-formed UTF-8 gets in: whatever bytes it is given, however
    they are escaped, [GDKstrFromStr] either fails or produces a sequence of
    shortest encodings of code points. *)
Theorem GDKstrFromStr_utf8 src len s : Forall is_byte src -> GDKstrFromStr src len = Some s -> utf8_text s.
Proof. intros H. apply (str_loop_utf8 (List.length src)); [lia|exact H|exact decoded_init]. Qed.

Lemma GDKstrFromStr_utf8_witness : utf8_text [195; 169].
Proof.
  apply (GDKstrFromStr_utf8 (lit "\303\xa9") 8); [repeat constructor; discriminate|vm_compute; reflexivity].
Defined.

Lemma str_scout_mono cur : forall e k l len l1, str_scout cur e k l = Some (len, l1) -> k <= len /\ l <= l1.
Proof.
  induction cur as [|c cur IH]; intros e k l len l1; cbn [str_scout]; [discriminate|].
  destruct ((c =? 34) && negb e); [intros E; injection E as <- <-; lia|].
  destruct (c =? 0); [discriminate|].
  destruct ((c =? 92) && negb e); intros E; apply IH in E; lia.
Qed.

Lemma scout_plain c cur k l len l1 : c <> 34 -> c <> 92 ->
  str_scout (c :: cur) false k l = Some (len, l1) -> str_scout cur false (k + 1) (l + 1) = Some (len, l1).
Proof.
  intros H1 H2. cbn [str_scout]. rewrite (proj2 (Z.eqb_neq c 34)), (proj2 (Z.eqb_neq c 92)) by assumption.
  cbn [andb]. destruct (c =? 0); [discriminate|]. exact (fun E => E).
Qed.

(** One byte pushed: the output grows by one, the allocation has grown by at
    least one. *)
Lemma push_fits u acc c (k : utf8 -> cstr -> option cstr) (s : cstr) l l' l1 : l + 1 <= l' ->
  match utf8_step u c with Some u => k u (acc ++ [c]) | None => None end = Some s ->
  (forall u' acc', k u' acc' = Some s -> Z.of_nat (List.length s) + l' <= Z.of_nat (List.length acc') + l1) ->
  Z.of_nat (List.length s) + l <= Z.of_nat (List.length acc) + l1.
Proof.
  intros Hl. destruct (utf8_step u c) as [u'|]; [|discriminate]. intros E H. specialize (H u' _ E).
  rewrite length_app in H. cbn [List.length] in H. lia.
Qed.

Ltac fits_case IH S :=
  match goal with E : context [utf8_step _ _] |- _ =>
    match type of S with str_scout _ _ _ ?l' = _ =>
      refine (push_fits _ _ _ _ _ _ l' _ _ E _); [lia|intros ? ? ?F; eapply IH; [|exact S|];
      [cbn [List.length] in *; lia|rewrite <- F; f_equal; lia]]
    end
  end.

Lemma scout_fits n : forall cur e k l len l1 u acc s, (List.length cur <= n)%nat ->
  str_scout cur e k l = Some (len, l1) -> str_loop cur (len - k) e u acc = Some s ->
  Z.of_nat (List.length s) + l <= Z.of_nat (List.length acc) + l1.
Proof.
  induction n as [|n IH]; intros cur e k l len l1 u acc s Hn S E;
    (destruct cur as [|c t]; [discriminate S|]); cbn [List.length] in Hn; [lia|].
  cbn [str_scout] in S. cbn [str_loop] in E. destruct e.
  - rewrite !andb_false_r in S. rewrite orb_true_r in E.
    destruct (Z.eqb_spec c 0); [discriminate|].
    destruct (num08 c).
    { destruct t as [|d1 t1]; [discriminate S|]. destruct (num08 d1) eqn:D1; [|fits_case IH S].
      apply num08_range in D1. apply scout_plain in S; [|lia|lia].
      destruct t1 as [|d2 t2]; [discriminate S|]. destruct (num08 d2) eqn:D2; [|fits_case IH S].
      apply num08_range in D2. apply scout_plain in S; [|lia|lia]. fits_case IH S. }
    destruct (c =? 120); [|fits_case IH S].
    destruct t as [|d1 t1]; [discriminate S|]. destruct (num16 d1) eqn:D1; [|fits_case IH S].
    apply num16_range in D1. apply scout_plain in S; [|lia|lia].
    destruct t1 as [|d2 t2]; [discriminate S|]. destruct (num16 d2) eqn:D2; [|fits_case IH S].
    apply num16_range in D2. apply scout_plain in S; [|lia|lia]. fits_case IH S.
  - rewrite !andb_true_r in S. destruct (c =? 34).
    { injection S as <- <-. rewrite Z.sub_diag in E. cbn [Z.ltb Z.compare orb] in E.
      destruct (0 <? u_n u); [discriminate|]. injection E as <-. lia. }
    destruct (c =? 0); [discriminate|].
    destruct (c =? 92); pose proof (str_scout_mono _ _ _ _ _ _ S) as [M _];
      rewrite (proj2 (Z.ltb_lt 0 (len - k))) in E by lia; cbn [orb] in E; [|fits_case IH S].
    eapply IH; [|exact S|]; [lia|]. rewrite <- E. f_equal. lia.
Qed.

(** Parsing a quoted string stays inside its buffer: the space the scouting
    loop of [strFromStr] counts and allocates is enough for every byte the
    unescaping loop writes and the NUL after them, whatever the input. *)
Theorem strFromStr_fits src len l s :
  str_scout src false 0 1 = Some (len, l) -> GDKstrFromStr src len = Some s ->
  Z.of_nat (List.length s) + 1 <= l.
Proof.
  intros S E. pose proof (scout_fits (List.length src) src false 0 1 len l utf8_init [] s) as F.
  rewrite Z.sub_0_r in F. specialize (F ltac:(lia) S E). cbn [List.length Z.of_nat] in F. lia.
Qed.

Lemma strFromStr_fits_witness : Z.of_nat (List.length [65; 195; 169; 10]) + 1 <= 9.
Proof. apply (strFromStr_fits (lit "A\303\xa9\n" ++ [34; 44]) 11 9); vm_compute; reflexivity. Defined.
