(* ===== verification/Heap.v ===== *)
(** * Heap memory

    The [Heap] of src/src/gdk/gdk.h and the part of src/src/gdk/gdk_heap.c
    that gives it space.  The area [h->base] is a byte memory addressed from
    0; pointers into it are offsets, as the code itself uses them
    ([HEAP_index]).  Words are little-endian, [size_t], [var_t] and [BUN] are
    64 bits wide.  What the C library and the operating system answer to a
    request for memory is an argument of the operations. *)

From Stdlib Require Import ZArith Lia Bool List.
Import ListNotations.
From S2P Require Import Prelude.

Open Scope Z_scope.

(** ** Bytes and words *)

Definition mem := Z -> Z.

(** Little-endian load of [n] bytes. *)
Fixpoint load (n : nat) (m : mem) (a : Z) : Z :=
  match n with
  | O => 0
  | S n => m a mod 256 + 256 * load n m (a + 1)
  end.

Definition within (x a n : Z) : bool := (a <=? x) && (x <? a + n).

Definition store (n : nat) (m : mem) (a v : Z) : mem :=
  fun x => if within x a (Z.of_nat n) then Z.shiftr v (8 * (x - a)) mod 256 else m x.

Definition memcpy (m : mem) (a : Z) (l : list Z) : mem :=
  fun x => if within x a (Z.of_nat (length l)) then nth (Z.to_nat (x - a)) l 0 else m x.

Definition memset0 (m : mem) (a n : Z) : mem := fun x => if within x a n then 0 else m x.

Definition load64 : mem -> Z -> Z := load 8.
Definition store64 : mem -> Z -> Z -> mem := store 8.

(** The C string at an address; [fuel] bounds the area that is read. *)
Fixpoint read_cstr (fuel : nat) (m : mem) (a : Z) : cstr :=
  match fuel with
  | O => []
  | S fuel => if m a =? 0 then [] else m a :: read_cstr fuel m (a + 1)
  end.

(** A NUL-terminated string is stored at an address. *)
Definition str_at (m : mem) (a : Z) (s : cstr) : Prop :=
  forall i, 0 <= i <= Z.of_nat (length s) -> m (a + i) = nth (Z.to_nat i) s 0.

Lemma within_true x a n : within x a n = true <-> a <= x < a + n.
Proof. unfold within. rewrite andb_true_iff, Z.leb_le, Z.ltb_lt. lia. Qed.

Lemma within_false x a n : within x a n = false <-> ~ (a <= x < a + n).
Proof. rewrite <- not_true_iff_false, within_true. reflexivity. Qed.

Lemma store_out n m a v x : ~ (a <= x < a + Z.of_nat n) -> store n m a v x = m x.
Proof. intros H. unfold store. rewrite (proj2 (within_false _ _ _) H). reflexivity. Qed.

Lemma memcpy_out m a l x : ~ (a <= x < a + Z.of_nat (length l)) -> memcpy m a l x = m x.
Proof. intros H. unfold memcpy. rewrite (proj2 (within_false _ _ _) H). reflexivity. Qed.

Lemma memset0_out m a n x : ~ (a <= x < a + n) -> memset0 m a n x = m x.
Proof. intros H. unfold memset0. rewrite (proj2 (within_false _ _ _) H). reflexivity. Qed.

Lemma memset0_in m a n x : a <= x < a + n -> memset0 m a n x = 0.
Proof. intros H. unfold memset0. rewrite (proj2 (within_true _ _ _) H). reflexivity. Qed.

Lemma memcpy_in m a l x : a <= x < a + Z.of_nat (length l) ->
  memcpy m a l x = nth (Z.to_nat (x - a)) l 0.
Proof. intros H. unfold memcpy. rewrite (proj2 (within_true _ _ _) H). reflexivity. Qed.

(** Loads and strings depend on their own bytes only. *)
Lemma load_ext n m m' : forall a, (forall x, a <= x < a + Z.of_nat n -> m x = m' x) ->
  load n m a = load n m' a.
Proof.
  induction n as [|n IH]; intros a H; [reflexivity|]. cbn [load]. rewrite (H a) by lia.
  rewrite (IH (a + 1)); [reflexivity|]. intros x Hx. apply H. lia.
Qed.

Lemma str_at_ext m m' a s : (forall x, a <= x <= a + Z.of_nat (length s) -> m x = m' x) ->
  str_at m a s -> str_at m' a s.
Proof. intros H S i Hi. rewrite <- H by lia. apply S, Hi. Qed.

Lemma load_range n m : forall a, 0 <= load n m a < 256 ^ Z.of_nat n.
Proof.
  induction n as [|n IH]; intros a; cbn [load]; [cbn; lia|].
  rewrite Nat2Z.inj_succ, Z.pow_succ_r by lia. pose proof (IH (a + 1)).
  pose proof (Z.mod_pos_bound (m a) 256). lia.
Qed.

Lemma load_store_from n m a v k : forall i, (i + k = n)%nat -> 0 <= v ->
  load k (store n m a v) (a + Z.of_nat i) = Z.shiftr v (8 * Z.of_nat i) mod 256 ^ Z.of_nat k.
Proof.
  induction k as [|k IH]; intros i Hi Hv; cbn [load]; [cbn [Z.of_nat Z.pow]; rewrite Z.mod_1_r; reflexivity|].
  replace (a + Z.of_nat i + 1) with (a + Z.of_nat (S i)) by lia. rewrite IH by lia.
  unfold store at 1. rewrite (proj2 (within_true _ _ _)) by lia.
  replace (a + Z.of_nat i - a) with (Z.of_nat i) by lia. rewrite Zmod_mod.
  rewrite (Nat2Z.inj_succ k), Z.pow_succ_r by lia.
  replace (8 * Z.of_nat (S i)) with (8 * Z.of_nat i + 8) by lia.
  rewrite <- Z.shiftr_shiftr by lia. set (w := Z.shiftr v (8 * Z.of_nat i)).
  rewrite (Z.shiftr_div_pow2 w 8) by lia. change (2 ^ 8) with 256.
  rewrite Z.rem_mul_r; [lia|lia|]. apply Z.pow_pos_nonneg; lia.
Qed.

Lemma load_store n m a v : 0 <= v < 256 ^ Z.of_nat n -> load n (store n m a v) a = v.
Proof.
  intros H. pose proof (load_store_from n m a v n 0 eq_refl ltac:(lia)) as E.
  rewrite Z.mul_0_r, Z.shiftr_0_r, Z.add_0_r in E. rewrite E. apply Z.mod_small. exact H.
Qed.

Lemma load64_store64 m a v : 0 <= v < 2 ^ 64 -> load64 (store64 m a v) a = v.
Proof. intros H. apply load_store. exact H. Qed.

Lemma load64_store64_other m a b v : a + 8 <= b \/ b + 8 <= a ->
  load64 (store64 m a v) b = load64 m b.
Proof. intros H. apply load_ext. intros x Hx. apply store_out. lia. Qed.

Lemma load64_range m a : 0 <= load64 m a < 2 ^ 64.
Proof. exact (load_range 8 m a). Qed.

Lemma load64_zeros m a : (forall x, a <= x < a + 8 -> m x = 0) -> load64 m a = 0.
Proof. intros H. unfold load64. rewrite (load_ext 8 m (fun _ => 0)); [reflexivity|]. exact H. Qed.

Lemma str_at_memcpy m a s : str_at (memcpy m a (s ++ [0])) a s.
Proof.
  intros i Hi. rewrite memcpy_in by (rewrite length_app; cbn [length]; lia).
  replace (a + i - a) with i by lia. destruct (Z.eq_dec i (Z.of_nat (length s))) as [->|].
  - rewrite Nat2Z.id, app_nth2, Nat.sub_diag, (nth_overflow s) by lia. reflexivity.
  - apply app_nth1. lia.
Qed.

Lemma read_cstr_at m s : forall fuel a, Forall (fun c => 1 <= c <= 255) s -> str_at m a s ->
  (length s < fuel)%nat -> read_cstr fuel m a = s.
Proof.
  induction s as [|c s IH]; intros fuel a Hs S Hf; (destruct fuel as [|fuel]; [cbn in Hf; lia|]).
  - cbn [read_cstr]. pose proof (S 0 ltac:(cbn; lia)) as E. rewrite Z.add_0_r in E. rewrite E. reflexivity.
  - apply Forall_cons_iff in Hs as [Hc Hs]. cbn [read_cstr].
    pose proof (S 0 ltac:(lia)) as E. rewrite Z.add_0_r in E. cbn [Z.to_nat nth] in E. rewrite E.
    rewrite (proj2 (Z.eqb_neq c 0)) by lia. f_equal. apply IH; [exact Hs| |cbn in Hf; lia].
    intros i Hi. replace (a + 1 + i) with (a + (i + 1)) by lia.
    rewrite (S (i + 1)) by (cbn [length]; lia). replace (Z.to_nat (i + 1)) with (Datatypes.S (Z.to_nat i)) by lia.
    reflexivity.
Qed.

(** ** Heaps and their growth *)

Record heap := mk_heap {
  h_base : mem;
  h_free : Z;      (** index where the free area starts *)
  h_size : Z;      (** size of the heap in bytes *)
  h_maxsize : Z;   (** space it may grow to in place *)
  h_hashash : bool (** string heaps: hash values are stored *)
}.

(** The answer to a request for memory: the bytes found beyond those kept and
    the space reserved, or a refusal. *)
Definition os_reply := option (mem * Z).

(** A heap in memory ([STORE_MEM], no file name): the bytes in use are kept,
    the heap is left as it was when there is no memory. *)
Definition HEAPextend (os : os_reply) (h : heap) (size : Z) : option heap :=
  if size <=? h_size h then Some h
  else
    match os with
    | Some (fresh, maxsize) =>
        Some (mk_heap (fun x => if x <? h_free h then h_base h x else fresh x)
                (h_free h) size (Z.max size maxsize) (h_hashash h))
    | None => None
    end.

Definition HEAPalloc (os : os_reply) (nitems itemsize : Z) (hashash : bool) : option heap :=
  let size := if itemsize =? 0 then 1 else u64 (Z.max 1 nitems * itemsize) in
  if negb (itemsize =? 0) && (size / itemsize <? nitems) then None
  else
    match os with
    | Some (fresh, maxsize) => Some (mk_heap fresh 0 size (Z.max size maxsize) hashash)
    | None => None
    end.

(** What [HEAPalloc] asks of the allocator for a heap of [size] bytes: room
    for an R header of [RHS] bytes ([Rf_sizeofHeader()] of the embedding)
    in front of it. *)
Definition HEAPalloc_request (RHS size : Z) : Z := u64 (size + RHS).

Lemma u64_wraps x y : 0 <= x < 2 ^ 64 -> 0 <= y < 2 ^ 64 -> 2 ^ 64 <= x + y -> u64 (x + y) < y.
Proof.
  intros Hx Hy H. unfold uwrap.
  replace (x + y) with (x + y - 2 ^ 64 + 1 * 2 ^ 64) by lia. rewrite Z.mod_add, Z.mod_small by lia. lia.
Qed.

(** Sizes: [HEAPalloc] refuses exactly the requests whose size in bytes
    does not fit 64 bits, and a heap it makes has room for every item.  The
    room for the R header is not covered by that check: what is asked of the
    allocator holds header and heap as long as their sum fits 64 bits, and is
    less than the header alone when it does not. *)
Theorem HEAPalloc_size nitems itemsize fresh maxsize hashash RHS :
  0 <= nitems < 2 ^ 64 -> 0 < itemsize < 2 ^ 64 -> 0 <= RHS < 2 ^ 64 ->
  if nitems * itemsize <? 2 ^ 64 then
    exists h, HEAPalloc (Some (fresh, maxsize)) nitems itemsize hashash = Some h /\
      h_free h = 0 /\ nitems * itemsize <= h_size h < 2 ^ 64 /\ h_size h <= h_maxsize h /\
      if h_size h + RHS <? 2 ^ 64 then HEAPalloc_request RHS (h_size h) = h_size h + RHS
      else HEAPalloc_request RHS (h_size h) < RHS
  else HEAPalloc (Some (fresh, maxsize)) nitems itemsize hashash = None.
Proof.
  intros Hn Hi Hr. unfold HEAPalloc. rewrite (proj2 (Z.eqb_neq itemsize 0)) by lia. cbn [negb andb].
  set (p := Z.max 1 nitems * itemsize). assert (0 < p) as Hp by (unfold p; nia).
  assert (nitems * itemsize <= p) as Hle by (unfold p; nia).
  destruct (Z.ltb_spec (nitems * itemsize) (2 ^ 64)) as [H|H].
  - assert (p < 2 ^ 64) as Hp' by (unfold p in *; destruct (Z.max_spec 1 nitems) as [[? ->]|[? ->]]; lia).
    rewrite (uwrap_id 64 p) by lia.
    replace (p / itemsize) with (Z.max 1 nitems) by (unfold p; rewrite Z.div_mul; lia).
    rewrite (proj2 (Z.ltb_ge _ _)) by lia. eexists. split; [reflexivity|].
    cbn [h_free h_size h_maxsize]. unfold HEAPalloc_request. repeat split; try lia.
    destruct (Z.ltb_spec (p + RHS) (2 ^ 64)); [apply uwrap_id; lia|apply u64_wraps; lia].
  - assert (p = nitems * itemsize) as E by (unfold p; f_equal; nia).
    assert (u64 p < p) as Hu. { unfold uwrap. pose proof (Z.mod_pos_bound p (2 ^ 64) eq_refl). lia. }
    rewrite (proj2 (Z.ltb_lt _ _)); [reflexivity|]. apply Z.div_lt_upper_bound; lia.
Qed.

Lemma HEAPalloc_size_witness :
  HEAPalloc (Some (fun _ => 0, 0)) (2 ^ 61) 8 false = None.
Proof. exact (HEAPalloc_size (2 ^ 61) 8 (fun _ => 0) 0 false 48 ltac:(lia) ltac:(lia) ltac:(lia)). Defined.

Lemma HEAPextend_spec os h size h' : HEAPextend os h size = Some h' ->
  h_free h' = h_free h /\ h_size h' = Z.max size (h_size h) /\ h_hashash h' = h_hashash h /\
  (forall x, x < h_free h -> h_base h' x = h_base h x).
Proof.
  unfold HEAPextend. destruct (Z.leb_spec size (h_size h)).
  - intros E. injection E as <-. repeat split; lia.
  - destruct os as [[fresh maxsize]|]; [|discriminate]. intros E. injection E as <-. cbn.
    repeat split; [lia|]. intros x Hx. rewrite (proj2 (Z.ltb_lt x _)) by exact Hx. reflexivity.
Qed.
