(* ===== verification/StrHeap.v ===== *)
(** * String heaps

    Models the string heap of src/src/gdk/gdk_atoms.c: the hash table of
    1024 buckets hidden in its first bytes, [strHeap] that creates it,
    [strPut] that inserts a string with elimination of doubles, [strLocate]
    that looks one up and [strCleanHash].  The configuration is the 64-bit one
    ([SIZEOF_VAR_T == 8], so [stridx_t] is [var_t], [GDK_VARSHIFT] is 0 and
    [EXTRALEN] is 8).

    A heap holds a store [sigma] from offsets to strings ([heap_inv]);
    [strPut] refines the insertion of a binding in it. *)

From Stdlib Require Import ZArith Lia Bool List String.
From stdpp Require Import base gmap.
From S2P Require Import Prelude Atoms Heap.

Open Scope Z_scope.

Definition GDK_STRHASHTABLE : Z := 1024.
Definition SIZEOF_STRIDX_T : Z := 8.
Definition GDK_STRHASHSIZE : Z := GDK_STRHASHTABLE * SIZEOF_STRIDX_T.
Definition GDK_STRHASHMASK : Z := 1023.
Definition GDK_ELIMLIMIT : Z := 65536.
Definition GDK_ELIMBASE (x : Z) : Z := Z.shiftl (Z.shiftr x 16) 16.
Definition GDK_ELIMDOUBLES (h : heap) : bool := h_free h <? GDK_ELIMLIMIT.
Definition strElimDoubles (h : heap) : bool := GDK_ELIMDOUBLES h.
Definition GDK_VARALIGN : Z := 8.
Definition VAR_MAX : Z := 2 ^ 63 - 1.
Definition EXTRALEN : Z := 8.
Definition BATTINY : Z := 256.

Definition extralen (h : heap) : Z := if h_hashash h then EXTRALEN else 0.
Definition bucket_of (v : cstr) : Z := Z.land (strHash v) GDK_STRHASHMASK.
Definition h_str (h : heap) (a : Z) : cstr := read_cstr (Z.to_nat (h_size h - a)) (h_base h) a.

Definition with_base (h : heap) (m : mem) : heap :=
  mk_heap m (h_free h) (h_size h) (h_maxsize h) (h_hashash h).

Definition strHeap (os : os_reply) (cap : Z) : option heap :=
  let cap := Z.max cap BATTINY in
  let size := GDK_STRHASHSIZE + Z.min GDK_ELIMLIMIT (u64 (cap * GDK_VARALIGN)) in
  match HEAPalloc os size 1 true with
  | Some d => Some (mk_heap (memset0 (h_base d) 0 GDK_STRHASHSIZE) GDK_STRHASHSIZE
                      (h_size d) (h_maxsize d) true)
  | None => None
  end.

Definition strCleanHash (h : heap) : heap :=
  if negb (GDK_ELIMDOUBLES h) then with_base h (memset0 (h_base h) 0 GDK_STRHASHSIZE) else h.

(** The search of the linked list from the pointer at [ref]: [Some r] for the
    entry found, [Some 0] for the end of the list, [None] when the list is
    longer than [fuel]. *)
Fixpoint search (fuel : nat) (h : heap) (v : cstr) (ref : Z) : option Z :=
  let r := load64 (h_base h) ref in
  if r =? 0 then Some 0
  else if GDK_STRCMP v (h_str h (r + SIZEOF_STRIDX_T + extralen h)) =? 0 then Some r
  else match fuel with O => None | S fuel => search fuel h v r end.

(** Each entry takes at least one word of the area in use. *)
Definition search_fuel (h : heap) : nat := Z.to_nat (h_free h / 8).

Definition strLocate (h : heap) (v : cstr) : option Z :=
  match search (search_fuel h) h v (bucket_of v * SIZEOF_STRIDX_T) with
  | Some r => Some (if r =? 0 then 0 else SIZEOF_STRIDX_T + r + extralen h)
  | None => None
  end.

(** [do newsize <<= 1; while (newsize <= need)] at 64 bits. *)
Fixpoint grow (fuel : nat) (newsize need : Z) : option Z :=
  let newsize := u64 (Z.shiftl newsize 1) in
  if newsize <=? need then match fuel with O => None | S fuel => grow fuel newsize need end
  else Some newsize.

(** From "check heap for space" to the end: insertion of [v] after [pad]
    bytes. [Some (h, 0)] is an error return, [None] a loop that does not
    end. *)
Definition strInsert (os : os_reply) (h : heap) (v : cstr) (pad : Z) : option (heap * Z) :=
  let elimbase := GDK_ELIMBASE (h_free h) in
  let len := strLen v in
  let extralen := extralen h in
  let strhash := strHash v in
  let bucket := bucket_of v * SIZEOF_STRIDX_T in
  let need := h_free h + pad + len + extralen in
  let space :=
    if h_size h <=? need then
      match grow 64 (Z.max (h_size h) 4096) need with
      | None => None
      | Some newsize =>
          if VAR_MAX <=? need then Some None
          else Some (HEAPextend os h (if need <? h_maxsize h then Z.min newsize (h_maxsize h) else newsize))
      end
    else Some (Some h) in
  match space with
  | None => None
  | Some None => Some (h, 0)
  | Some (Some h) =>
      let pos := h_free h + pad + extralen in
      let m := memcpy (h_base h) pos (firstn (Z.to_nat len) (v ++ [0])) in
      let m := if h_hashash h then store64 m (pos - 8) strhash else m in
      let free := h_free h + (pad + len + extralen) in
      let pos' := pos - extralen in
      let '(pos', m) :=
        if elimbase =? 0
        then (pos' - SIZEOF_STRIDX_T, store64 m (pos' - SIZEOF_STRIDX_T) (load64 m bucket))
        else (pos', m) in
      let m := store64 m bucket (pos' - elimbase) in
      let m := if elimbase + GDK_ELIMLIMIT <=? free then memset0 m 0 GDK_STRHASHSIZE else m in
      Some (mk_heap m free (h_size h) (h_maxsize h) (h_hashash h), pos)
  end.

Definition strPut (os : os_reply) (h : heap) (v : cstr) : option (heap * Z) :=
  let elimbase := GDK_ELIMBASE (h_free h) in
  let pad := GDK_VARALIGN - Z.land (h_free h) (GDK_VARALIGN - 1) in
  let bucket := bucket_of v * SIZEOF_STRIDX_T in
  if elimbase =? 0 then
    match search (search_fuel h) h v bucket with
    | None => None
    | Some r =>
        if r =? 0
        then strInsert os h v (if pad <? SIZEOF_STRIDX_T then pad + GDK_VARALIGN else pad)
        else Some (h, SIZEOF_STRIDX_T + r + extralen h)
    end
  else if negb (load64 (h_base h) bucket =? 0) then
    let pos := elimbase + load64 (h_base h) bucket + extralen h in
    if GDK_STRCMP v (h_str h pos) =? 0 then Some (h, pos)
    else strInsert os h v (if extralen h =? 0 then 0 else Z.land pad (GDK_VARALIGN - 1))
  else strInsert os h v pad.

(** ** What a heap holds *)

(** Bytes other than NUL; only [str_nil] starts with the nil mark. *)
Definition valid_str (v : cstr) : Prop :=
  Forall (fun c => 1 <= c <= 255) v /\ (GDK_STRNIL v = true -> v = str_nil).

Abbreviation store_of := (gmap Z cstr).

(** The linked list of a bucket: entries [l], each a string of the store, the
    links going down through the heap. *)
Fixpoint chain (sigma : store_of) (m : mem) (ext : Z) (l : list Z) (r : Z) : Prop :=
  match l with
  | [] => r = 0
  | a :: l =>
      a = r /\ GDK_STRHASHSIZE <= r /\ load64 m r + 8 <= r /\
      (exists s, sigma !! (r + 8 + ext) = Some s) /\ chain sigma m ext l (load64 m r)
  end.

(** A string in its place: below the free area, NUL-terminated, its hash in
    front of it and aligned if the heap stores hash values. *)
Definition entry_ok (h : heap) (p : Z) (s : cstr) : Prop :=
  valid_str s /\ GDK_STRHASHSIZE + extralen h <= p /\ p + strLen s <= h_free h /\
  str_at (h_base h) p s /\
  (h_hashash h = true -> load64 (h_base h) (p - 8) = strHash s /\ p mod 8 = 0).

Definition bucket_ok (h : heap) (sigma : store_of) (b : Z) : Prop :=
  if GDK_ELIMDOUBLES h then
    exists l, chain sigma (h_base h) (extralen h) l (load64 (h_base h) (8 * b)) /\
      forall p s, sigma !! p = Some s -> bucket_of s = b -> In (p - 8 - extralen h) l
  else
    let r := load64 (h_base h) (8 * b) in
    r = 0 \/ exists s, sigma !! (GDK_ELIMBASE (h_free h) + r + extralen h) = Some s.

Record heap_inv (h : heap) (sigma : store_of) : Prop := {
  inv_size : GDK_STRHASHSIZE <= h_free h <= h_size h;
  inv_entry : forall p s, sigma !! p = Some s -> entry_ok h p s;
  inv_bucket : forall b, 0 <= b < GDK_STRHASHTABLE -> bucket_ok h sigma b;
  inv_inj : GDK_ELIMDOUBLES h = true ->
    forall p q s, sigma !! p = Some s -> sigma !! q = Some s -> p = q
}.

(** ** Strings, hashes and offsets *)

Lemma strCmpNoNil_eq l : forall r, strCmpNoNil l r = 0 <-> l = r.
Proof.
  induction l as [|a l IH]; intros [|b r]; cbn [strCmpNoNil]; try (split; [discriminate|discriminate]).
  - split; reflexivity.
  - destruct (Z.eqb_spec a b) as [->|N].
    + rewrite IH. split; [intros ->; reflexivity|intros E; injection E as ->; reflexivity].
    + split; [destruct (a <? b); discriminate|]. intros E. injection E as E _. contradiction.
Qed.

Lemma strcmp_eq v s : valid_str v -> valid_str s -> GDK_STRCMP v s = 0 <-> v = s.
Proof.
  intros [_ Hv] [_ Hs]. unfold GDK_STRCMP.
  destruct (GDK_STRNIL v) eqn:Nv, (GDK_STRNIL s) eqn:Ns.
  - rewrite Hv, Hs by reflexivity. split; reflexivity.
  - split; [discriminate|]. intros <-. congruence.
  - split; [discriminate|]. intros <-. congruence.
  - rewrite <- strCmpNoNil_eq. destruct (Z.ltb_spec (chead v) (chead s)).
    { split; [discriminate|]. intros E. apply strCmpNoNil_eq in E. subst. lia. }
    destruct (Z.ltb_spec (chead s) (chead v)); [|reflexivity].
    split; [discriminate|]. intros E. apply strCmpNoNil_eq in E. subst. lia.
Qed.

Lemma strLen_valid v : valid_str v -> strLen v = Z.of_nat (List.length v) + 1.
Proof.
  intros [_ H]. unfold strLen. destruct (GDK_STRNIL v) eqn:E; [|reflexivity].
  rewrite H by reflexivity. reflexivity.
Qed.

Lemma firstn_strLen v : valid_str v -> firstn (Z.to_nat (strLen v)) (v ++ [0]) = v ++ [0].
Proof.
  intros H. rewrite strLen_valid by exact H. apply firstn_all2. rewrite List.length_app. cbn [List.length]. lia.
Qed.

Lemma bucket_range v : 0 <= bucket_of v < GDK_STRHASHTABLE.
Proof.
  unfold bucket_of, GDK_STRHASHMASK, GDK_STRHASHTABLE. change 1023 with (Z.ones 10).
  rewrite Z.land_ones by lia. apply Z.mod_pos_bound. reflexivity.
Qed.

Lemma strHash_range v : 0 <= strHash v < 2 ^ 64.
Proof. unfold strHash, u64, uwrap. cbv zeta. apply Z.mod_pos_bound. reflexivity. Qed.

Lemma elimbase_eq x : GDK_ELIMBASE x = 65536 * (x / 65536).
Proof.
  unfold GDK_ELIMBASE. rewrite Z.shiftr_div_pow2, Z.shiftl_mul_pow2 by lia.
  change (2 ^ 16) with 65536. lia.
Qed.

Lemma elimbase_small h : 0 <= h_free h -> (GDK_ELIMBASE (h_free h) =? 0) = GDK_ELIMDOUBLES h.
Proof.
  intros H. unfold GDK_ELIMDOUBLES, GDK_ELIMLIMIT. rewrite elimbase_eq.
  apply Bool.eq_iff_eq_true. rewrite Z.eqb_eq, Z.ltb_lt. divlia.
Qed.

Lemma extralen_cases h : extralen h = 8 /\ h_hashash h = true \/ extralen h = 0 /\ h_hashash h = false.
Proof. unfold extralen, EXTRALEN. destruct (h_hashash h); [left|right]; split; reflexivity. Qed.

Lemma h_str_entry h p s : h_free h <= h_size h -> entry_ok h p s -> h_str h p = s.
Proof.
  intros Hs (V & P & L & S & _). rewrite (strLen_valid s V) in L. unfold h_str.
  apply read_cstr_at; [apply V|exact S|]. lia.
Qed.

(** ** Searching *)

Lemma chain_length sigma m ext l : forall r, chain sigma m ext l r -> 8 * Z.of_nat (List.length l) <= r.
Proof.
  induction l as [|a l IH]; intros r; cbn [chain List.length]; [lia|].
  intros (_ & _ & H & _ & C). apply IH in C. lia.
Qed.

Lemma search_spec h sigma v l : heap_inv h sigma -> valid_str v ->
  forall fuel ref, (List.length l <= fuel)%nat ->
  chain sigma (h_base h) (extralen h) l (load64 (h_base h) ref) ->
  exists r, search fuel h v ref = Some r /\
    (r = 0 /\ (forall a, In a l -> sigma !! (a + 8 + extralen h) <> Some v) \/
     r <> 0 /\ sigma !! (r + 8 + extralen h) = Some v).
Proof.
  intros I V. induction l as [|a l IH]; intros fuel ref Hf C; cbn [chain] in C.
  - exists 0. split; [|left; split; [reflexivity|intros ? []]].
    destruct fuel; cbn [search]; rewrite C; reflexivity.
  - destruct C as (-> & R & D & (s & S) & C). set (r := load64 (h_base h) ref) in *.
    pose proof (inv_entry h sigma I _ _ S) as En. destruct (inv_size h sigma I) as [F1 F2].
    destruct fuel as [|fuel]; [cbn in Hf; lia|]. cbn [List.length] in Hf. cbn [search]. fold r.
    rewrite (proj2 (Z.eqb_neq r 0)) by (unfold GDK_STRHASHSIZE, GDK_STRHASHTABLE, SIZEOF_STRIDX_T in R; lia).
    unfold SIZEOF_STRIDX_T. rewrite (h_str_entry _ _ _ F2 En).
    destruct (Z.eqb_spec (GDK_STRCMP v s) 0) as [E|E].
    + apply strcmp_eq in E; [|exact V|apply En]. subst s. exists r. split; [reflexivity|].
      right. split; [|exact S]. unfold GDK_STRHASHSIZE, GDK_STRHASHTABLE, SIZEOF_STRIDX_T in R; lia.
    + destruct (IH fuel r ltac:(lia) C) as (r' & -> & [[-> N]|[N Hr]]); [|exists r'; auto].
      exists 0. split; [reflexivity|]. left. split; [reflexivity|]. intros a [<-|Ha]; [|apply N, Ha].
      rewrite S. intros X. injection X as ->. apply E, strcmp_eq; [exact V|exact V|reflexivity].
Qed.

(** In a heap with double elimination the search decides whether the store
    holds the string, and finds it, within its fuel. *)
Lemma search_bucket h sigma v : heap_inv h sigma -> valid_str v -> GDK_ELIMDOUBLES h = true ->
  exists r, search (search_fuel h) h v (bucket_of v * SIZEOF_STRIDX_T) = Some r /\
    (r = 0 /\ (forall p, sigma !! p <> Some v) \/
     r <> 0 /\ sigma !! (SIZEOF_STRIDX_T + r + extralen h) = Some v).
Proof.
  intros I V El. pose proof (inv_bucket h sigma I (bucket_of v) (bucket_range v)) as B.
  unfold bucket_ok in B. rewrite El in B. destruct B as (l & C & All).
  replace (8 * bucket_of v) with (bucket_of v * SIZEOF_STRIDX_T) in C by (unfold SIZEOF_STRIDX_T; lia).
  assert (List.length l <= search_fuel h)%nat as Hf.
  { destruct l as [|a l]; [cbn; lia|]. pose proof (chain_length _ _ _ _ _ C) as L.
    cbn [chain] in C. destruct C as (_ & _ & _ & (s & S) & _).
    destruct (inv_entry h sigma I _ _ S) as (Vs & _ & P & _). rewrite (strLen_valid s Vs) in P.
    unfold search_fuel. destruct (extralen_cases h) as [[X _]|[X _]]; rewrite X in P; divlia. }
  destruct (search_spec h sigma v l I V (search_fuel h) _ Hf C) as (r & E & Q).
  exists r. split; [exact E|]. destruct Q as [[-> N]|[N S]]; [left|right].
  - split; [reflexivity|]. intros p Hp. apply (N _ (All p v Hp eq_refl)).
    replace (p - 8 - extralen h + 8 + extralen h) with p by lia. exact Hp.
  - split; [exact N|]. unfold SIZEOF_STRIDX_T. replace (8 + r + extralen h) with (r + 8 + extralen h) by lia. exact S.
Qed.

(** ** Making room *)

Lemma grow_enough need : need < 2 ^ 63 -> forall fuel n, 0 < n < 2 ^ 63 ->
  need < n * 2 ^ Z.of_nat (S fuel) -> exists n', grow fuel n need = Some n' /\ need < n'.
Proof.
  intros Hn fuel. induction fuel as [|fuel IH]; intros n Hb H; cbn [grow];
    rewrite Z.shiftl_mul_pow2 by lia; change (2 ^ 1) with 2; unfold u64, uwrap;
    rewrite Z.mod_small by lia; destruct (Z.leb_spec (n * 2) need) as [L|L].
  - change (2 ^ Z.of_nat 1) with 2 in H. lia.
  - eauto.
  - apply IH; [lia|]. rewrite (Nat2Z.inj_succ (S fuel)), Z.pow_succ_r in H by lia. lia.
  - eauto.
Qed.

(** The heap with at least [need] bytes and the same contents. *)
Definition extends (h h1 : heap) : Prop :=
  h_free h1 = h_free h /\ h_size h <= h_size h1 /\ h_hashash h1 = h_hashash h /\
  (forall x, x < h_free h -> h_base h1 x = h_base h x).

Lemma extends_refl h : extends h h.
Proof. repeat split; lia. Qed.

Lemma extends_inv h h1 sigma : extends h h1 -> heap_inv h sigma -> heap_inv h1 sigma.
Proof.
  intros (F & S & HH & B) [Is Ie Ib Ij].
  assert (extralen h1 = extralen h) as X by (unfold extralen; rewrite HH; reflexivity).
  assert (GDK_ELIMDOUBLES h1 = GDK_ELIMDOUBLES h) as D by (unfold GDK_ELIMDOUBLES; rewrite F; reflexivity).
  assert (forall a, a + 8 <= h_free h -> load64 (h_base h1) a = load64 (h_base h) a) as L.
  { intros a Ha. apply load_ext. intros x Hx. apply B. lia. }
  assert (forall l r, chain sigma (h_base h) (extralen h) l r -> chain sigma (h_base h1) (extralen h) l r) as C.
  { induction l as [|a l IH]; intros r; [exact (fun E => E)|]. cbn [chain].
    intros (A & R & Dn & (s & Hs) & C). destruct (Ie _ _ Hs) as (V & _ & P & _).
    rewrite (strLen_valid s V) in P. destruct (extralen_cases h) as [[E8 _]|[E8 _]];
      (rewrite L by lia; repeat split; eauto). }
  constructor.
  - rewrite F. lia.
  - intros p s Hs. destruct (Ie p s Hs) as (V & P & Pl & St & Hh). unfold entry_ok. rewrite F, X, HH.
    pose proof (strLen_valid s V) as SL.
    split; [exact V|]. split; [exact P|]. split; [exact Pl|]. split.
    + refine (str_at_ext _ _ _ _ _ St). intros x Hx. symmetry. apply B. lia.
    + intros Ht. rewrite L by lia. apply Hh, Ht.
  - intros b Hb. specialize (Ib b Hb). unfold bucket_ok in *. rewrite D, F, X.
    assert (8 * b + 8 <= h_free h) as Hf
      by (unfold GDK_STRHASHSIZE, GDK_STRHASHTABLE, SIZEOF_STRIDX_T in *; lia).
    rewrite (L (8 * b) Hf). destruct (GDK_ELIMDOUBLES h); [|exact Ib].
    destruct Ib as (l & Cl & All). exists l. split; [apply C, Cl|exact All].
  - rewrite D. exact Ij.
Qed.

(** The space step of [strInsert]: it ends, and fails only for want of
    memory. *)
Definition make_room (os : os_reply) (h : heap) (need : Z) : option (option heap) :=
  if h_size h <=? need then
    match grow 64 (Z.max (h_size h) 4096) need with
    | None => None
    | Some newsize =>
        if VAR_MAX <=? need then Some None
        else Some (HEAPextend os h (if need <? h_maxsize h then Z.min newsize (h_maxsize h) else newsize))
    end
  else Some (Some h).

Lemma make_room_spec os h need : 0 <= need < VAR_MAX ->
  make_room os h need = Some None /\ os = None \/
  exists h1, make_room os h need = Some (Some h1) /\ extends h h1 /\ need < h_size h1.
Proof.
  intros Hn. unfold make_room. destruct (Z.leb_spec (h_size h) need) as [L|L];
    [|right; exists h; split; [reflexivity|split; [apply extends_refl|lia]]].
  unfold VAR_MAX in *. destruct (grow_enough need ltac:(lia) 64 (Z.max (h_size h) 4096)) as (n & -> & G);
    [lia|change (2 ^ Z.of_nat 65) with (2 ^ 65); lia|].
  rewrite (proj2 (Z.leb_gt _ _)) by lia.
  set (sz := if need <? h_maxsize h then Z.min n (h_maxsize h) else n).
  assert (need < sz) as Hz by (unfold sz; destruct (Z.ltb_spec need (h_maxsize h)); lia).
  destruct (HEAPextend os h sz) as [h1|] eqn:E.
  - right. exists h1. apply HEAPextend_spec in E as (F & S & HH & B).
    split; [reflexivity|]. split; [|lia]. split; [exact F|]. split; [lia|]. split; [exact HH|exact B].
  - left. split; [reflexivity|]. revert E. unfold HEAPextend. rewrite (proj2 (Z.leb_gt _ _)) by lia.
    destruct os as [[? ?]|]; [discriminate|reflexivity].
Qed.

(** ** Inserting *)

(** The memory after the insertion of [v] at [pos], the entry starting at
    [ent] ([pos] less the extra bytes). *)
Definition insert_mem (m : mem) (hashash : bool) (elimbase bucket pos ent free : Z) (v : cstr) : mem :=
  let m := memcpy m pos (firstn (Z.to_nat (strLen v)) (v ++ [0])) in
  let m := if hashash then store64 m (pos - 8) (strHash v) else m in
  let '(ent, m) := if elimbase =? 0 then (ent - 8, store64 m (ent - 8) (load64 m bucket)) else (ent, m) in
  let m := store64 m bucket (ent - elimbase) in
  if elimbase + GDK_ELIMLIMIT <=? free then memset0 m 0 GDK_STRHASHSIZE else m.

Lemma strInsert_eq os h v pad :
  strInsert os h v pad =
  match make_room os h (h_free h + pad + strLen v + extralen h) with
  | None => None
  | Some None => Some (h, 0)
  | Some (Some h1) =>
      let pos := h_free h1 + pad + extralen h in
      let free := h_free h1 + (pad + strLen v + extralen h) in
      Some (mk_heap (insert_mem (h_base h1) (h_hashash h1) (GDK_ELIMBASE (h_free h))
                       (bucket_of v * SIZEOF_STRIDX_T) pos (pos - extralen h) free v)
              free (h_size h1) (h_maxsize h1) (h_hashash h1), pos)
  end.
Proof.
  unfold strInsert, make_room, insert_mem. cbv zeta.
  destruct (if h_size h <=? _ then _ else _) as [[h1|]|]; try reflexivity.
  destruct (GDK_ELIMBASE (h_free h) =? 0); reflexivity.
Qed.

Section InsertMem.
Context (m : mem) (hashash : bool) (v : cstr) (free0 pad : Z).
Let ext : Z := if hashash then EXTRALEN else 0.
Let eb : Z := GDK_ELIMBASE free0.
Let ent : Z := free0 + pad.
Let pos : Z := free0 + pad + ext.
Let free : Z := free0 + (pad + strLen v + ext).
Let bucket : Z := bucket_of v * SIZEOF_STRIDX_T.
Hypothesis Hv : valid_str v.
Hypothesis Hfree : GDK_STRHASHSIZE <= free0.
Hypothesis Hpad : 0 <= pad.
Hypothesis Hlink : eb = 0 -> 8 <= pad.
Hypothesis Hmax : free0 + pad < 2 ^ 63.

Let m' : mem := insert_mem m hashash eb bucket pos ent free v.
(** The bytes of the string and its hash. *)
Let m2 : mem :=
  let m1 := memcpy m pos (v ++ [0]) in if hashash then store64 m1 (pos - 8) (strHash v) else m1.
(** With the link to the rest of the list. *)
Let m3 : mem := if eb =? 0 then store64 m2 (ent - 8) (load64 m2 bucket) else m2.
Let ent' : Z := if eb =? 0 then ent - 8 else ent.
Let m4 : mem := store64 m3 bucket (ent' - eb).

Lemma insert_mem_eq : m' = if eb + GDK_ELIMLIMIT <=? free then memset0 m4 0 GDK_STRHASHSIZE else m4.
Proof.
  unfold m', insert_mem, m4, m3, m2, ent'. rewrite firstn_strLen by exact Hv. cbv zeta.
  destruct (eb =? 0); reflexivity.
Qed.

Lemma insert_bounds : 0 <= bucket /\ bucket + 8 <= GDK_STRHASHSIZE /\ GDK_STRHASHSIZE = 8192 /\
  ent <= pos /\ (hashash = true -> ent <= pos - 8) /\ 0 <= eb <= free0 /\
  Z.of_nat (List.length (v ++ [0])) = strLen v /\ free0 <= ent' /\ ent' <= ent.
Proof.
  pose proof (bucket_range v) as B. unfold bucket, pos, ent', ent, ext, eb, EXTRALEN,
    GDK_STRHASHSIZE, GDK_STRHASHTABLE, SIZEOF_STRIDX_T in *.
  rewrite (strLen_valid v Hv), List.length_app. cbn [List.length].
  rewrite elimbase_eq in *.
  split; [lia|]. split; [lia|]. split; [reflexivity|]. split; [destruct hashash; lia|].
  split; [intros ->; lia|]. split; [divlia|]. split; [lia|].
  unfold SIZEOF_STRIDX_T in *. destruct (Z.eqb_spec (65536 * (free0 / 65536)) 0) as [E|E];
    [specialize (Hlink E)|]; split; lia.
Qed.

(** Everything below the old end is kept by the first three writes. *)
Lemma insert_m3_old x : x < free0 -> m3 x = m x.
Proof.
  destruct insert_bounds as (_ & _ & _ & B4 & B5 & _ & _ & B8 & _).
  intros Hx. unfold m3, ent' in *. unfold ent in *.
  assert (m2 x = m x) as E.
  { unfold m2. cbv zeta. destruct hashash.
    - specialize (B5 eq_refl). unfold store64. rewrite store_out by lia. apply memcpy_out. lia.
    - apply memcpy_out. lia. }
  destruct (eb =? 0); [|exact E]. unfold store64. rewrite store_out by lia. exact E.
Qed.

Lemma insert_old x : GDK_STRHASHSIZE <= x < free0 -> m' x = m x.
Proof.
  destruct insert_bounds as (B1 & B2 & _). intros Hx. rewrite insert_mem_eq.
  assert (m4 x = m x) as E.
  { unfold m4, store64. rewrite store_out by lia. apply insert_m3_old. lia. }
  destruct (_ <=? _); [|exact E]. rewrite memset0_out by lia. exact E.
Qed.

(** From the entry on, the bytes are those of the string and its hash. *)
Lemma insert_new x : ent <= x -> m' x = m2 x.
Proof.
  destruct insert_bounds as (B1 & B2 & _ & _ & _ & _ & _ & B8 & B9). intros Hx. rewrite insert_mem_eq.
  assert (m4 x = m2 x) as E.
  { unfold m4, store64. rewrite store_out by lia. unfold m3, ent' in *. destruct (eb =? 0); [|reflexivity].
    unfold store64. rewrite store_out by lia. reflexivity. }
  destruct (_ <=? _); [|exact E]. rewrite memset0_out by lia. exact E.
Qed.

Lemma insert_str : str_at m' pos v.
Proof.
  destruct insert_bounds as (_ & _ & _ & B4 & _).
  refine (str_at_ext (memcpy m pos (v ++ [0])) _ _ _ _ (str_at_memcpy m pos v)).
  intros x Hx. rewrite insert_new by lia. unfold m2. cbv zeta. destruct hashash; [|reflexivity].
  unfold store64. rewrite store_out by lia. reflexivity.
Qed.

Lemma insert_hash : hashash = true -> load64 m' (pos - 8) = strHash v.
Proof.
  destruct insert_bounds as (_ & _ & _ & _ & B5 & _). intros Ht. specialize (B5 Ht).
  rewrite (load_ext 8 m' m2) by (intros x Hx; apply insert_new; lia).
  unfold m2. rewrite Ht. apply load64_store64, strHash_range.
Qed.

Lemma insert_flush b : eb + GDK_ELIMLIMIT <= free -> 0 <= b < GDK_STRHASHTABLE -> load64 m' (8 * b) = 0.
Proof.
  intros Hf Hb. rewrite insert_mem_eq, (proj2 (Z.leb_le _ _) Hf). apply load64_zeros. intros x Hx.
  apply memset0_in. unfold GDK_STRHASHSIZE, GDK_STRHASHTABLE, SIZEOF_STRIDX_T in *. lia.
Qed.

Section Keep.
Hypothesis Hkeep : free < eb + GDK_ELIMLIMIT.

Lemma insert_m4 : m' = m4.
Proof. rewrite insert_mem_eq, (proj2 (Z.leb_gt _ _) Hkeep). reflexivity. Qed.

Lemma insert_bucket : load64 m' bucket = ent' - eb.
Proof.
  destruct insert_bounds as (_ & _ & B3 & _ & _ & B6 & _ & B8 & B9). rewrite insert_m4. apply load64_store64.
  unfold ent, ent' in *. lia.
Qed.

Lemma insert_other b : 0 <= b < GDK_STRHASHTABLE -> b <> bucket_of v -> load64 m' (8 * b) = load64 m (8 * b).
Proof.
  intros Hb N. rewrite insert_m4. unfold m4.
  rewrite load64_store64_other by (unfold bucket, SIZEOF_STRIDX_T; lia).
  apply load_ext. intros x Hx. apply insert_m3_old.
  unfold GDK_STRHASHSIZE, GDK_STRHASHTABLE, SIZEOF_STRIDX_T in *. lia.
Qed.

Lemma insert_link : eb = 0 -> load64 m' (ent - 8) = load64 m bucket.
Proof.
  destruct insert_bounds as (B1 & B2 & _ & B4 & B5 & _ & _ & B8 & _). intros E. rewrite insert_m4.
  unfold m4, m3, ent' in *. rewrite E in *. cbn [Z.eqb] in *.
  rewrite load64_store64_other by lia. rewrite load64_store64 by apply load64_range.
  apply load_ext. intros x Hx. unfold m2. cbv zeta. destruct hashash; [|apply memcpy_out; lia].
  specialize (B5 eq_refl). unfold store64. rewrite store_out by lia. apply memcpy_out. lia.
Qed.
End Keep.
End InsertMem.

(** Lists are kept by writes outside the strings and a larger store. *)
Lemma chain_mono sigma sigma' m m' ext free l :
  (forall p s, sigma !! p = Some s -> sigma' !! p = Some s) ->
  (forall p s, sigma !! p = Some s -> p <= free) -> 0 <= ext ->
  (forall x, GDK_STRHASHSIZE <= x < free -> m' x = m x) ->
  forall r, chain sigma m ext l r -> chain sigma' m' ext l r.
Proof.
  intros Hs Hp He Hm. induction l as [|a l IH]; intros r; [exact (fun E => E)|]. cbn [chain].
  intros (A & R & D & (s & S) & C).
  assert (load64 m' r = load64 m r) as ->.
  { apply load_ext. intros x Hx. apply Hm. specialize (Hp _ _ S). lia. }
  eauto 10.
Qed.

Section InsertInv.
Context (h : heap) (sigma : store_of) (v : cstr) (pad : Z).
Hypothesis I : heap_inv h sigma.
Hypothesis Hv : valid_str v.
Hypothesis Hpad : 0 <= pad.
Hypothesis Hsmall : GDK_ELIMDOUBLES h = true -> 8 <= pad /\ forall p, sigma !! p <> Some v.
Hypothesis Halign : h_hashash h = true -> (h_free h + pad) mod 8 = 0.
Hypothesis Hroom : h_free h + pad + strLen v + extralen h < h_size h.
Hypothesis Hmax : h_free h + pad < 2 ^ 63.
Let pos : Z := h_free h + pad + extralen h.
Let free : Z := h_free h + (pad + strLen v + extralen h).
Let m' : mem := insert_mem (h_base h) (h_hashash h) (GDK_ELIMBASE (h_free h))
                  (bucket_of v * SIZEOF_STRIDX_T) pos (h_free h + pad) free v.
Let h' : heap := mk_heap m' free (h_size h) (h_maxsize h) (h_hashash h).

Lemma ins_bounds : 8192 <= h_free h /\ 0 <= extralen h /\ 1 <= strLen v /\
  (GDK_ELIMBASE (h_free h) = 0 -> 8 <= pad) /\ h_free h <= pos.
Proof.
  destruct (inv_size h sigma I) as [F _]. unfold GDK_STRHASHSIZE, GDK_STRHASHTABLE, SIZEOF_STRIDX_T in F.
  unfold pos. rewrite (strLen_valid v Hv).
  split; [lia|]. split; [destruct (extralen_cases h) as [[-> _]|[-> _]]; lia|]. split; [lia|].
  split; [|destruct (extralen_cases h) as [[-> _]|[-> _]]; lia].
  intros E. apply Hsmall. rewrite <- elimbase_small by lia. rewrite E. reflexivity.
Qed.

Lemma ins_fresh : sigma !! pos = None.
Proof.
  destruct (sigma !! pos) as [s|] eqn:E; [|reflexivity].
  destruct (inv_entry h sigma I _ _ E) as (V & _ & P & _). rewrite (strLen_valid s V) in P.
  pose proof ins_bounds. lia.
Qed.

Lemma ins_grows p s : sigma !! p = Some s -> <[pos:=v]> sigma !! p = Some s.
Proof.
  intros Hs. rewrite lookup_insert_ne; [exact Hs|]. intros <-. rewrite ins_fresh in Hs. discriminate.
Qed.

Lemma ins_old x : GDK_STRHASHSIZE <= x < h_free h -> m' x = h_base h x.
Proof.
  intros Hx. destruct ins_bounds as (_ & _ & _ & L & _).
  exact (insert_old (h_base h) (h_hashash h) v (h_free h) pad Hv (proj1 (inv_size h sigma I)) Hpad L x Hx).
Qed.

Lemma ins_entry p s : <[pos:=v]> sigma !! p = Some s -> entry_ok h' p s.
Proof.
  destruct ins_bounds as (F & X & SL & L & P). pose proof (proj1 (inv_size h sigma I)) as HF.
  rewrite lookup_insert_Some. unfold entry_ok. change (extralen h') with (extralen h). cbn [h' h_free h_base h_hashash].
  intros [[<- <-]|[N Hs]].
  - split; [exact Hv|]. split; [unfold pos; lia|]. split; [unfold pos, free; lia|].
    split; [exact (insert_str (h_base h) (h_hashash h) v (h_free h) pad Hv HF Hpad L)|].
    intros Ht. split; [exact (insert_hash (h_base h) (h_hashash h) v (h_free h) pad Hv HF Hpad L Ht)|].
    unfold pos, extralen, EXTRALEN. rewrite Ht. specialize (Halign Ht). divlia.
  - destruct (inv_entry h sigma I p s Hs) as (V & P1 & P2 & St & Hh). pose proof (strLen_valid s V) as SL'.
    split; [exact V|]. split; [exact P1|]. split; [unfold free; lia|]. split.
    + refine (str_at_ext _ _ _ _ _ St). intros x Hx. symmetry. apply ins_old. lia.
    + intros Ht. specialize (Hh Ht) as [H1 H2]. split; [|exact H2]. rewrite <- H1.
      assert (extralen h = 8) as X8 by (unfold extralen, EXTRALEN; rewrite Ht; reflexivity).
      apply load_ext. intros x Hx. apply ins_old. lia.
Qed.

Lemma ins_bucket_small b : GDK_ELIMBASE (h_free h) = 0 -> free < GDK_ELIMLIMIT -> 0 <= b < GDK_STRHASHTABLE ->
  exists l, chain (<[pos:=v]> sigma) m' (extralen h) l (load64 m' (8 * b)) /\
    forall p s, <[pos:=v]> sigma !! p = Some s -> bucket_of s = b -> In (p - 8 - extralen h) l.
Proof.
  intros E Hf Hb. destruct ins_bounds as (F & X & SL & L & P). pose proof (proj1 (inv_size h sigma I)) as HF.
  assert (free < GDK_ELIMBASE (h_free h) + GDK_ELIMLIMIT) as Hk by lia.
  pose proof (inv_bucket h sigma I b Hb) as B. unfold bucket_ok in B.
  rewrite <- elimbase_small, E in B by lia. cbn [Z.eqb] in B. destruct B as (l & C & All).
  assert (forall p s, sigma !! p = Some s -> p <= h_free h) as Hp.
  { intros p s Hs. destruct (inv_entry h sigma I p s Hs) as (V & _ & Q & _). rewrite (strLen_valid s V) in Q. lia. }
  pose proof (chain_mono sigma _ (h_base h) m' (extralen h) (h_free h) l ins_grows Hp X ins_old _ C) as C'.
  destruct (Z.eq_dec b (bucket_of v)) as [->|N].
  - pose proof (insert_bucket (h_base h) (h_hashash h) v (h_free h) pad Hv HF Hpad L Hmax Hk) as B1.
    pose proof (insert_link (h_base h) (h_hashash h) v (h_free h) pad Hv HF Hpad L Hk E) as B2.
    fold (extralen h) in B1, B2. fold pos in B1, B2. fold free in B1, B2. fold m' in B1, B2.
    rewrite E in B1. cbn [Z.eqb] in B1. rewrite Z.sub_0_r in B1. unfold SIZEOF_STRIDX_T in B1, B2.
    rewrite (Z.mul_comm 8) in C', C |- *. rewrite B1. exists (h_free h + pad - 8 :: l). split.
    + cbn [chain]. specialize (L E). rewrite B2. split; [reflexivity|].
      unfold GDK_STRHASHSIZE, GDK_STRHASHTABLE, SIZEOF_STRIDX_T. split; [lia|]. split; [|split; [|exact C']].
      * destruct l as [|a l]; cbn [chain] in C; [lia|]. destruct C as (_ & _ & _ & (s & Hs) & _).
        specialize (Hp _ _ Hs). lia.
      * exists v. rewrite lookup_insert_Some. left. split; [unfold pos; lia|reflexivity].
    + intros p s. rewrite lookup_insert_Some. intros [[<- <-]|[_ Hs]] Hb'; [left; unfold pos; lia|right].
      apply (All p s Hs Hb').
  - pose proof (insert_other (h_base h) (h_hashash h) v (h_free h) pad Hv HF Hpad L Hk b Hb N) as B1.
    fold (extralen h) in B1. fold pos in B1. fold free in B1. fold m' in B1. rewrite B1. exists l.
    split; [exact C'|]. intros p s. rewrite lookup_insert_Some. intros [[<- <-]|[_ Hs]] Hb'; [congruence|].
    apply (All p s Hs Hb').
Qed.

Lemma ins_bucket_large b : GDK_ELIMBASE (h_free h) <> 0 -> free < GDK_ELIMBASE (h_free h) + GDK_ELIMLIMIT ->
  0 <= b < GDK_STRHASHTABLE -> let r := load64 m' (8 * b) in
  r = 0 \/ exists s, <[pos:=v]> sigma !! (GDK_ELIMBASE (h_free h) + r + extralen h) = Some s.
Proof.
  intros E Hk Hb. destruct ins_bounds as (F & X & SL & L & P). pose proof (proj1 (inv_size h sigma I)) as HF.
  destruct (Z.eq_dec b (bucket_of v)) as [->|N].
  - pose proof (insert_bucket (h_base h) (h_hashash h) v (h_free h) pad Hv HF Hpad L Hmax Hk) as B1.
    fold (extralen h) in B1. fold pos in B1. fold free in B1. fold m' in B1.
    rewrite (proj2 (Z.eqb_neq _ _) E) in B1. unfold SIZEOF_STRIDX_T in B1. rewrite (Z.mul_comm 8), B1.
    right. exists v. rewrite lookup_insert_Some. left. split; [unfold pos; lia|reflexivity].
  - pose proof (insert_other (h_base h) (h_hashash h) v (h_free h) pad Hv HF Hpad L Hk b Hb N) as B1.
    fold (extralen h) in B1. fold pos in B1. fold free in B1. fold m' in B1. cbv zeta. rewrite B1.
    pose proof (inv_bucket h sigma I b Hb) as B. unfold bucket_ok in B.
    rewrite <- elimbase_small, (proj2 (Z.eqb_neq _ _) E) in B by lia. cbv zeta in B.
    destruct B as [B|(s & B)]; [left; exact B|right]. exists s. apply ins_grows, B.
Qed.

Lemma ins_inv : heap_inv h' (<[pos:=v]> sigma).
Proof.
  destruct ins_bounds as (F & X & SL & L & P). pose proof (proj1 (inv_size h sigma I)) as HF.
  assert (GDK_ELIMBASE free = GDK_ELIMBASE (h_free h) \/
          GDK_ELIMBASE (h_free h) + GDK_ELIMLIMIT <= free /\ GDK_ELIMLIMIT <= free) as Cross.
  { rewrite !elimbase_eq. unfold GDK_ELIMLIMIT, free. divlia. }
  constructor.
  - cbn. unfold free. lia.
  - exact ins_entry.
  - intros b Hb. unfold bucket_ok. cbn [h' h_base h_free]. change (extralen h') with (extralen h).
    destruct (Z_lt_le_dec free (GDK_ELIMBASE (h_free h) + GDK_ELIMLIMIT)) as [Hk|Hk].
    + destruct Cross as [Cross|Cross]; [|lia]. rewrite <- elimbase_small by (cbn; unfold free; lia).
      change (h_free h') with free. rewrite Cross. destruct (Z.eqb_spec (GDK_ELIMBASE (h_free h)) 0) as [E|E].
      * apply ins_bucket_small; [exact E|lia|exact Hb].
      * exact (ins_bucket_large b E Hk Hb).
    + pose proof (insert_flush (h_base h) (h_hashash h) v (h_free h) pad Hv b Hk Hb) as B1.
      unfold GDK_ELIMDOUBLES. change (h_free h') with free.
      assert (GDK_ELIMLIMIT <= free) as Hl.
      { destruct Cross as [Cross|]; [|lia]. rewrite elimbase_eq in Hk. unfold GDK_ELIMLIMIT in *. divlia. }
      rewrite (proj2 (Z.ltb_ge _ _) Hl). left. exact B1.
  - unfold GDK_ELIMDOUBLES. change (h_free h') with free. rewrite Z.ltb_lt. intros Hl p q s.
    assert (GDK_ELIMDOUBLES h = true) as D by (unfold GDK_ELIMDOUBLES; apply Z.ltb_lt; unfold free in Hl; lia).
    destruct (Hsmall D) as [_ N]. rewrite !lookup_insert_Some.
    intros [[<- <-]|[? Hs]] [[<- E]|[? Ht]]; try reflexivity; try (exfalso; subst; eapply N; eassumption).
    exact (inv_inj h sigma I D p q s Hs Ht).
Qed.
End InsertInv.

(** [strInsert] adds a binding at a fresh offset, or leaves the heap alone
    when there is no memory. *)
Lemma strInsert_spec os h sigma v pad : heap_inv h sigma -> valid_str v -> 0 <= pad <= 15 ->
  (GDK_ELIMDOUBLES h = true -> 8 <= pad /\ forall p, sigma !! p <> Some v) ->
  (h_hashash h = true -> (h_free h + pad) mod 8 = 0) ->
  h_free h + strLen v + 24 < VAR_MAX ->
  exists h' d, strInsert os h v pad = Some (h', d) /\
    (d = 0 /\ h' = h /\ os = None \/
     d = h_free h + pad + extralen h /\ sigma !! d = None /\ heap_inv h' (<[d:=v]> sigma) /\
     h_hashash h' = h_hashash h /\ h_free h' = h_free h + (pad + strLen v + extralen h)).
Proof.
  intros I V Hpad Hs Ha Hm. rewrite strInsert_eq. destruct (inv_size h sigma I) as [F _].
  unfold GDK_STRHASHSIZE, GDK_STRHASHTABLE, SIZEOF_STRIDX_T in F.
  assert (0 <= extralen h <= 8) as X by (destruct (extralen_cases h) as [[-> _]|[-> _]]; lia).
  assert (1 <= strLen v) as SL by (rewrite strLen_valid by exact V; lia).
  destruct (make_room_spec os h (h_free h + pad + strLen v + extralen h) ltac:(lia)) as [[-> ->]|(h1 & -> & Ex & R)].
  - exists h, 0. split; [reflexivity|]. left. repeat split.
  - pose proof (extends_inv h h1 sigma Ex I) as I1. destruct Ex as (Ef & Es & Eh & _).
    assert (extralen h1 = extralen h) as Xe by (unfold extralen; rewrite Eh; reflexivity).
    assert (GDK_ELIMDOUBLES h1 = GDK_ELIMDOUBLES h) as De by (unfold GDK_ELIMDOUBLES; rewrite Ef; reflexivity).
    unfold VAR_MAX in Hm.
    pose proof (ins_inv h1 sigma v pad I1 V ltac:(lia) ltac:(rewrite De; exact Hs) ltac:(rewrite Eh, Ef; exact Ha)
                  ltac:(rewrite Ef, Xe; exact R) ltac:(lia)) as J.
    pose proof (ins_fresh h1 sigma v pad I1 V ltac:(lia) ltac:(rewrite De; exact Hs)) as N.
    rewrite Xe in J, N. cbv zeta. rewrite Ef in *. eexists _, _. split; [reflexivity|]. right.
    replace (h_free h + pad + extralen h - extralen h) with (h_free h + pad) by lia.
    split; [reflexivity|]. split; [exact N|]. split; [exact J|]. split; [exact Eh|reflexivity].
Qed.

Lemma land7 x : Z.land x (GDK_VARALIGN - 1) = x mod 8.
Proof. unfold GDK_VARALIGN. change (8 - 1) with (Z.ones 3). apply Z.land_ones. lia. Qed.

(** Outcome of an insertion: an error and no change, the offset of the string
    already there, or a new binding. *)
Definition put_outcome (os : os_reply) (h : heap) (sigma : store_of) (v : cstr) (h' : heap) (d : Z) : Prop :=
  d = 0 /\ h' = h /\ os = None \/
  d <> 0 /\ heap_inv h' (<[d:=v]> sigma) /\ h_free h' <= h_free h + strLen v + 23 /\
  (h' = h /\ sigma !! d = Some v \/
   sigma !! d = None /\ (GDK_ELIMDOUBLES h = true -> forall p, sigma !! p <> Some v)).

Lemma put_found os h sigma v d : heap_inv h sigma -> sigma !! d = Some v -> put_outcome os h sigma v h d.
Proof.
  intros I S. right. destruct (inv_entry h sigma I d v S) as (V & P & _). rewrite insert_id by exact S.
  pose proof (strLen_valid v V). unfold GDK_STRHASHSIZE, GDK_STRHASHTABLE, SIZEOF_STRIDX_T in P.
  destruct (extralen_cases h) as [[X _]|[X _]]; (split; [lia|]; split; [exact I|]; split; [lia|auto]).
Qed.

Lemma put_inserted os h sigma v pad : heap_inv h sigma -> valid_str v -> 0 <= pad <= 15 ->
  (GDK_ELIMDOUBLES h = true -> 8 <= pad /\ forall p, sigma !! p <> Some v) ->
  (h_hashash h = true -> (h_free h + pad) mod 8 = 0) -> h_free h + strLen v + 24 < VAR_MAX ->
  exists h' d, strInsert os h v pad = Some (h', d) /\ put_outcome os h sigma v h' d.
Proof.
  intros I V Hp Hs Ha Hm.
  destruct (strInsert_spec os h sigma v pad I V Hp Hs Ha Hm) as (h' & d & E & Q).
  exists h', d. split; [exact E|]. destruct Q as [Q|(-> & N & J & _ & F)]; [left; exact Q|right].
  destruct (inv_size h sigma I) as [F1 _]. unfold GDK_STRHASHSIZE, GDK_STRHASHTABLE, SIZEOF_STRIDX_T in F1.
  destruct (extralen_cases h) as [[X _]|[X _]]; rewrite X in *;
    (split; [lia|]; split; [exact J|]; split; [lia|]; right; split; [exact N|]; intros D; apply Hs, D).
Qed.

Lemma strPut_outcome os h sigma v : heap_inv h sigma -> valid_str v -> h_free h + strLen v + 24 < VAR_MAX ->
  exists h' d, strPut os h v = Some (h', d) /\ put_outcome os h sigma v h' d.
Proof.
  intros I V Hm. pose proof (inv_size h sigma I) as [F F2].
  unfold GDK_STRHASHSIZE, GDK_STRHASHTABLE, SIZEOF_STRIDX_T in F.
  unfold strPut. cbv zeta. rewrite !land7. unfold GDK_VARALIGN, SIZEOF_STRIDX_T.
  rewrite elimbase_small by lia. destruct (GDK_ELIMDOUBLES h) eqn:D.
  - pose proof (search_bucket h sigma v I V D) as SB. unfold SIZEOF_STRIDX_T in SB.
    destruct SB as (r & -> & [[-> N]|[N S]]).
    + cbn [Z.eqb]. apply put_inserted; try assumption; try (intros _);
        destruct (Z.ltb_spec (8 - h_free h mod 8) 8); try (split; [|exact N]); divlia.
    + rewrite (proj2 (Z.eqb_neq r 0)) by exact N. eexists _, _. split; [reflexivity|].
      apply put_found; assumption.
  - assert (forall pad, GDK_ELIMDOUBLES h = true -> 8 <= pad /\ forall p, sigma !! p <> Some v) as Hno
      by (rewrite D; discriminate).
    destruct (Z.eqb_spec (load64 (h_base h) (bucket_of v * 8)) 0) as [E|E]; cbn [negb].
    { apply put_inserted; try assumption; [divlia|apply Hno|intros _; divlia]. }
    pose proof (inv_bucket h sigma I (bucket_of v) (bucket_range v)) as B. unfold bucket_ok in B.
    rewrite D, (Z.mul_comm 8) in B. cbv zeta in B. destruct B as [B|(s & B)]; [contradiction|].
    pose proof (inv_entry h sigma I _ _ B) as En. rewrite (h_str_entry _ _ _ F2 En).
    destruct (Z.eqb_spec (GDK_STRCMP v s) 0) as [C|C].
    + apply strcmp_eq in C; [|exact V|apply En]. subst s. eexists _, _. split; [reflexivity|].
      apply put_found; assumption.
    + apply put_inserted; try assumption; [|apply Hno|];
        destruct (extralen_cases h) as [[X Hh]|[X Hh]]; rewrite X; cbn [Z.eqb]; try divlia; intros Ht; try congruence; divlia.
Qed.

(** ** The theorems *)

Lemma strHeap_inv os cap h : strHeap os cap = Some h -> heap_inv h ∅ /\ h_free h = GDK_STRHASHSIZE.
Proof.
  unfold strHeap. cbv zeta.
  set (size := GDK_STRHASHSIZE + Z.min GDK_ELIMLIMIT (u64 (Z.max cap BATTINY * GDK_VARALIGN))).
  assert (GDK_STRHASHSIZE <= size < 2 ^ 63) as Hs.
  { unfold size, u64, uwrap, GDK_STRHASHSIZE, GDK_STRHASHTABLE, SIZEOF_STRIDX_T, GDK_ELIMLIMIT.
    pose proof (Z.mod_pos_bound (Z.max cap BATTINY * GDK_VARALIGN) (2 ^ 64) eq_refl). lia. }
  unfold HEAPalloc. cbn [Z.eqb negb andb]. unfold u64, uwrap.
  unfold GDK_STRHASHSIZE, GDK_STRHASHTABLE, SIZEOF_STRIDX_T in Hs.
  rewrite Z.mul_1_r, Z.max_r, Z.mod_small by lia. destruct (size / 1 <? size); [discriminate|].
  destruct os as [[fresh maxsize]|]; [|discriminate]. intros E. injection E as <-. split; [|reflexivity].
  constructor.
  - cbn [h_free h_size]. unfold GDK_STRHASHSIZE, GDK_STRHASHTABLE, SIZEOF_STRIDX_T. lia.
  - intros p s H. rewrite lookup_empty in H. discriminate.
  - intros b Hb. unfold bucket_ok. cbn. exists []. split.
    + apply load64_zeros. intros x Hx. apply memset0_in.
      unfold GDK_STRHASHSIZE, GDK_STRHASHTABLE, SIZEOF_STRIDX_T in *. lia.
    + intros p s H. rewrite lookup_empty in H. discriminate.
  - intros _ p q s H. rewrite lookup_empty in H. discriminate.
Qed.

(** Inserting a string refines adding a binding to a store: on a
    well-formed heap [strPut] always returns, and either reports an error
    (only when memory is refused) without touching the heap, or returns an
    offset where the string now is, with every other string of the heap still
    in its place, its hash table consistent and, in a small heap, no string
    stored twice. *)
Theorem strPut_refines os h sigma v : heap_inv h sigma -> valid_str v ->
  h_free h + strLen v + 24 < VAR_MAX ->
  exists h' d, strPut os h v = Some (h', d) /\
    (d = 0 /\ h' = h /\ os = None \/
     d <> 0 /\ heap_inv h' (<[d:=v]> sigma) /\ h_str h' d = v /\
     (forall p s, sigma !! p = Some s -> h_str h' p = s)).
Proof.
  intros I V Hm. destruct (strPut_outcome os h sigma v I V Hm) as (h' & d & E & Q).
  exists h', d. split; [exact E|]. destruct Q as [Q|(N & J & _ & Q)]; [left; exact Q|right].
  pose proof (inv_size _ _ J) as [_ F]. split; [exact N|]. split; [exact J|]. split.
  - apply h_str_entry; [exact F|]. apply (inv_entry _ _ J). apply lookup_insert_Some. auto.
  - intros p s Hs. apply h_str_entry; [exact F|]. apply (inv_entry _ _ J). apply lookup_insert_Some.
    destruct (Z.eq_dec d p) as [<-|]; [left|right; auto]. split; [reflexivity|].
    destruct Q as [[_ Q]|[Q _]]; congruence.
Qed.

Lemma strPut_refines_witness : exists h h' d,
  strHeap (Some (fun _ => 0, 0)) 0 = Some h /\
  strPut None h (lit "tail") = Some (h', d) /\ d = 8208 /\ h_str h' d = lit "tail".
Proof.
  destruct (strHeap (Some (fun _ => 0, 0)) 0) as [h|] eqn:E; [|exfalso; discriminate E].
  destruct (strHeap_inv _ _ _ E) as [I F].
  destruct (strPut_refines None h ∅ (lit "tail") I) as (h' & d & P & Q).
  - split; [repeat constructor; discriminate|vm_compute; discriminate].
  - rewrite F. reflexivity.
  - exists h, h', d. split; [reflexivity|]. split; [exact P|].
    assert (d = 8208) as ->. { apply (f_equal (option_map snd)) in P. injection E as <-.
      vm_compute in P. injection P as <-. reflexivity. }
    split; [reflexivity|]. destruct Q as [[Q _]|(_ & _ & Q & _)]; [discriminate|exact Q].
Defined.

(** Looking a string up in a heap with double elimination is exact:
    [strLocate] ends, returns the offset of the string if the heap holds it
    and 0 if it does not. *)
Theorem strLocate_spec h sigma v : heap_inv h sigma -> valid_str v -> strElimDoubles h = true ->
  exists d, strLocate h v = Some d /\
    (d <> 0 /\ sigma !! d = Some v \/ d = 0 /\ forall p, sigma !! p <> Some v).
Proof.
  intros I V D. unfold strLocate. destruct (search_bucket h sigma v I V D) as (r & -> & [[-> N]|[N S]]).
  - exists 0. split; [reflexivity|]. auto.
  - rewrite (proj2 (Z.eqb_neq r 0)) by exact N. eexists. split; [reflexivity|]. left. split; [|exact S].
    destruct (inv_entry h sigma I _ _ S) as (_ & P & _).
    unfold GDK_STRHASHSIZE, GDK_STRHASHTABLE in P. unfold SIZEOF_STRIDX_T in *.
    destruct (extralen_cases h) as [[X _]|[X _]]; lia.
Qed.

(** A series of insertions, with the answers to the requests for memory. *)
Fixpoint strPuts (h : heap) (l : list (os_reply * cstr)) : option (heap * list Z) :=
  match l with
  | [] => Some (h, [])
  | (os, v) :: l =>
      match strPut os h v with
      | None => None
      | Some (h, d) => match strPuts h l with Some (h, ds) => Some (h, d :: ds) | None => None end
      end
  end.

Definition put_bytes (l : list (os_reply * cstr)) : Z := fold_right (fun c n => strLen (snd c) + 24 + n) 0 l.

Lemma put_bytes_nonneg l : Forall (fun c => valid_str (snd c)) l -> 0 <= put_bytes l.
Proof.
  induction 1 as [|c l V _ IH]; cbn [put_bytes fold_right]; [lia|]. fold (put_bytes l).
  rewrite (strLen_valid _ V). lia.
Qed.

Lemma strPuts_store l : forall h sigma, heap_inv h sigma ->
  Forall (fun c => valid_str (snd c)) l -> Forall (fun c => fst c <> None) l ->
  h_free h + put_bytes l < VAR_MAX ->
  exists h' ds sigma', strPuts h l = Some (h', ds) /\ heap_inv h' sigma' /\
    Forall2 (fun d c => sigma' !! d = Some (snd c)) ds l /\
    (forall p s, sigma !! p = Some s -> sigma' !! p = Some s).
Proof.
  induction l as [|[os v] l IH]; intros h sigma I V O B.
  { exists h, [], sigma. split; [reflexivity|]. split; [exact I|]. split; [constructor|auto]. }
  apply List.Forall_cons_iff in V as [V1 V]. apply List.Forall_cons_iff in O as [O1 O]. cbn [fst snd] in *.
  cbn [put_bytes fold_right snd] in B. fold (put_bytes l) in B. pose proof (put_bytes_nonneg l V) as Bl.
  destruct (strPut_outcome os h sigma v I V1 ltac:(lia)) as (h1 & d & E & Q).
  destruct Q as [(_ & _ & Q)|(N & J & F & Q)]; [contradiction|].
  destruct (IH h1 _ J V O ltac:(lia)) as (h' & ds & sigma' & E' & J' & All & Mono).
  exists h', (d :: ds), sigma'. cbn [strPuts]. rewrite E, E'. split; [reflexivity|]. split; [exact J'|]. split.
  - constructor; [|exact All]. apply Mono, lookup_insert_Some. auto.
  - intros p s Hs. apply Mono, lookup_insert_Some. destruct (Z.eq_dec d p) as [<-|]; [left|right; auto].
    split; [reflexivity|]. destruct Q as [[_ Q]|[Q _]]; congruence.
Qed.

(** C1: A string column can be read back: after any series of insertions into a
    new heap, with whatever growth it needs, every offset returned still
    denotes the string that was put there; and as long as the heap is smaller
    than 64KB two offsets are equal exactly when the strings are, which is
    what callers of [strElimDoubles] rely on. *)
Theorem string_heap_faithful cap fresh maxsize h0 l : strHeap (Some (fresh, maxsize)) cap = Some h0 ->
  Forall (fun c => valid_str (snd c)) l -> Forall (fun c => fst c <> None) l ->
  GDK_STRHASHSIZE + put_bytes l < VAR_MAX ->
  exists h ds, strPuts h0 l = Some (h, ds) /\ map (h_str h) ds = map snd l /\
    (strElimDoubles h = true -> forall i j di dj vi vj,
       ds !! i = Some di -> ds !! j = Some dj -> map snd l !! i = Some vi -> map snd l !! j = Some vj ->
       (di = dj <-> vi = vj)).
Proof.
  intros E V O B. destruct (strHeap_inv _ _ _ E) as [I F]. rewrite <- F in B.
  destruct (strPuts_store l h0 ∅ I V O B) as (h & ds & sigma & E' & J & All & _).
  exists h, ds. split; [exact E'|]. pose proof (inv_size _ _ J) as [_ Fs]. split.
  - clear - All J Fs. induction All as [|d c ds l H _ IH]; [reflexivity|]. cbn [map]. f_equal; [|exact IH].
    apply h_str_entry, (inv_entry _ _ J); assumption.
  - intros D i j di dj vi vj Hi Hj Gi Gj.
    assert (forall k d v, ds !! k = Some d -> map snd l !! k = Some v -> sigma !! d = Some v) as St.
    { clear - All. induction All as [|d c ds l H _ IH]; intros [|k] d' v; cbn; try discriminate;
        [intros X Y; injection X as <-; injection Y as <-; exact H|apply IH]. }
    specialize (St i di vi Hi Gi) as Si. specialize (St j dj vj Hj Gj) as Sj. split; intros <-; [congruence|].
    exact (inv_inj _ _ J D di dj vi Si Sj).
Qed.

Lemma strLocate_spec_witness : exists h d,
  strHeap (Some (fun _ => 0, 0)) 0 = Some h /\ strLocate h (lit "x") = Some d /\ d = 0.
Proof.
  destruct (strHeap (Some (fun _ => 0, 0)) 0) as [h|] eqn:E; [|exfalso; discriminate E].
  destruct (strHeap_inv _ _ _ E) as [I F].
  destruct (strLocate_spec h ∅ (lit "x") I) as (d & L & Q).
  - split; [repeat constructor; discriminate|vm_compute; discriminate].
  - unfold strElimDoubles, GDK_ELIMDOUBLES. rewrite F. reflexivity.
  - exists h, d. split; [reflexivity|]. split; [exact L|].
    destruct Q as [[_ Q]|[Q _]]; [rewrite lookup_empty in Q; discriminate|exact Q].
Defined.

Lemma string_heap_faithful_witness :
  let os := Some (fun _ : Z => 1, 0) in
  exists h0 h ds, strHeap os 0 = Some h0 /\
    strPuts h0 [(os, lit "monet"); (os, lit "R"); (os, lit "monet"); (os, str_nil)] = Some (h, ds) /\
    ds = [8208; 8232; 8208; 8256] /\ map (h_str h) ds = [lit "monet"; lit "R"; lit "monet"; str_nil].
Proof.
  set (os := Some (fun _ : Z => 1, 0)). cbv zeta.
  set (l := [(os, lit "monet"); (os, lit "R"); (os, lit "monet"); (os, str_nil)]).
  destruct (strHeap os 0) as [h0|] eqn:E; [|exfalso; discriminate E].
  destruct (string_heap_faithful 0 (fun _ => 1) 0 h0 l E) as (h & ds & P & M & _).
  - repeat constructor; try discriminate; intros H; exact H || discriminate H || reflexivity.
  - repeat constructor; discriminate.
  - reflexivity.
  - exists h0, h, ds. split; [reflexivity|]. split; [exact P|]. split; [|exact M].
    apply (f_equal (option_map snd)) in P. injection E as <-. vm_compute in P. injection P as <-. reflexivity.
Defined.

(** Flushing the table of a large heap loses no string. *)
Lemma strCleanHash_inv h sigma : heap_inv h sigma -> heap_inv (strCleanHash h) sigma.
Proof.
  intros I. unfold strCleanHash. destruct (GDK_ELIMDOUBLES h) eqn:D; [exact I|]. cbn [negb].
  destruct I as [Is Ie Ib Ij].
  constructor; [exact Is| | |unfold with_base, GDK_ELIMDOUBLES in *; cbn; congruence].
  - intros p s Hs. destruct (Ie p s Hs) as (V & P & Pl & St & Hh).
    destruct (extralen_cases h) as [[X Hx]|[X Hx]];
      (split; [exact V|]; split; [exact P|]; split; [exact Pl|]; split;
        [refine (str_at_ext _ _ _ _ _ St); intros x Hr; symmetry; apply memset0_out; lia|]); intros Ht.
    + specialize (Hh Ht) as [H1 H2]. split; [|exact H2]. rewrite <- H1. apply load_ext. intros x Hr.
      apply memset0_out. lia.
    + cbn in Ht. congruence.
  - intros b Hb. unfold bucket_ok, with_base, GDK_ELIMDOUBLES in *. cbn [h_free h_base].
    rewrite D. left. apply load64_zeros. intros x Hx. apply memset0_in.
    unfold GDK_STRHASHSIZE, GDK_STRHASHTABLE, SIZEOF_STRIDX_T in *. lia.
Qed.
