(* ===== verification/ChunkHeap.v ===== *)
(** * The standard heap allocator

    Models [HEAP_initialize], [HEAP_malloc], [HEAP_free], [HEAP_init] and
    [HEAP_mmappable] of src/src/gdk/gdk_heap.c: a first-fit allocator whose
    header, block sizes and address-ordered free list live inside the heap
    they manage.  Layout of the 64-bit build: [HEADER] is [version] at 0,
    [alignment] at 4, [head] at 8, [firstblock] at 16 and [sizefcn] at 24, 32
    bytes in all; a [CHUNK] is [size] at 0 and [next] at 8.

    The abstract heap is the list of its blocks, used and free, from
    [firstblock] to the end ([heap_rep]). *)

From Stdlib Require Import ZArith Lia Bool List Permutation.
Import ListNotations.
From S2P Require Import Prelude Heap.

Open Scope Z_scope.

Definition SIZEOF_HEADER : Z := 32.
Definition SIZEOF_CHUNK : Z := 16.
Definition HEAPVERSION : Z := 20030408.

(** How a call ends: a value, [GDKfatal], or a walk along a free list longer
    than the heap can hold (a cycle). *)
Inductive run (A : Type) : Type :=
| Ret (a : A)
| GDKfatal
| Endless.
Arguments Ret {A} a.
Arguments GDKfatal {A}.
Arguments Endless {A}.

(** ** Fields *)

Definition hd_alignment (m : mem) : Z := i32 (load 4 m 4).
Definition hd_head (m : mem) : Z := load64 m 8.
Definition hd_firstblock (m : mem) : Z := load64 m 16.
Definition ck_size (m : mem) (a : Z) : Z := load64 m a.
Definition ck_next (m : mem) (a : Z) : Z := load64 m (a + 8).
Definition set_head (m : mem) (v : Z) : mem := store64 m 8 v.
Definition set_size (m : mem) (a v : Z) : mem := store64 m a v.
Definition set_next (m : mem) (a v : Z) : mem := store64 m (a + 8) v.

Definition set_mem (h : heap) (m : mem) : heap :=
  mk_heap m (h_free h) (h_size h) (h_maxsize h) (h_hashash h).
Definition set_free (h : heap) (free : Z) : heap :=
  mk_heap (h_base h) free (h_size h) (h_maxsize h) (h_hashash h).

Definition roundup_8 (x : Z) : Z := Z.land (u64 (x + 7)) (Z.lnot 7).
Definition roundup_num (number alignment : Z) : Z :=
  let rval := u64 (number + alignment - 1) in u64 (rval - rval mod alignment).

(** ** Operations *)

Definition HEAP_empty (h : heap) (nprivate alignment : Z) : heap :=
  let m := h_base h in
  let head := roundup_num (u64 (roundup_8 SIZEOF_HEADER + roundup_8 nprivate)) alignment in
  let m := set_head m head in
  let m := store64 m 24 0 in
  let m := store 4 m 4 alignment in
  let m := store64 m 16 head in
  let m := store 4 m 0 HEAPVERSION in
  let m := set_size m head (u64 (h_size h - head)) in
  let m := set_next m head 0 in
  set_mem h m.

(** [None] when there is no memory: the heap is left without an area. *)
Definition HEAP_initialize (os : os_reply) (nbytes nprivate alignment : Z) (hashash : bool) : option heap :=
  let alignment := if negb (alignment =? 8) then 4 else alignment in
  let alignment := if alignment <? 8 then 8 else alignment in
  let total := u64 (100 + nbytes + nprivate + SIZEOF_HEADER + SIZEOF_CHUNK) in
  let total := roundup_8 total in
  match HEAPalloc os total 1 hashash with
  | None => None
  | Some h => Some (HEAP_empty (set_free h (h_size h)) nprivate alignment)
  end.

(** The first-fit search: predecessor of the predecessor, predecessor and
    block found ([0] for none). *)
Fixpoint first_fit (fuel : nat) (m : mem) (nbytes ttrail trail block : Z) : run (Z * Z * Z) :=
  if block =? 0 then Ret (ttrail, trail, 0)
  else if negb (trail =? 0) && (block <=? trail) then GDKfatal
  else if nbytes <=? ck_size m block then Ret (ttrail, trail, block)
  else match fuel with
       | O => Endless
       | S fuel => first_fit fuel m nbytes trail block (ck_next m block)
       end.

(** Blocks have at least 16 bytes. *)
Definition walk_fuel (h : heap) : nat := Z.to_nat (h_free h / 8).

(** No block found: enlarge the heap, and join the new block with the last
    free one if it is adjacent. *)
Definition enlarge (os : os_reply) (h : heap) (nbytes ttrail trail : Z) : option (heap * Z * Z) :=
  let newsize := roundup_8 (u64 (h_free h + Z.max (h_free h) nbytes)) in
  let block := h_free h in
  match HEAPextend os h newsize with
  | None => None
  | Some h =>
      let h := set_free h newsize in
      let m := h_base h in
      let m := set_next m block 0 in
      let m := set_size m block (u64 (h_free h - block)) in
      if negb (trail =? 0) && (u64 (trail + ck_size m trail) =? block) then
        let m := set_size m trail (u64 (ck_size m trail + ck_size m block)) in
        let m := set_next m trail (ck_next m block) in
        Some (set_mem h m, trail, ttrail)
      else Some (set_mem h m, block, trail)
  end.

(** Split the block if it is large enough and take it off the free list. *)
Definition take_block (m : mem) (nbytes trail block : Z) : mem :=
  let m :=
    if u64 (nbytes + 2 * SIZEOF_CHUNK) <=? ck_size m block then
      let newblock := u64 (block + nbytes) in
      let m := set_size m newblock (u64 (ck_size m block - nbytes)) in
      let m := set_next m newblock (ck_next m block) in
      let m := set_next m block newblock in
      set_size m block nbytes
    else m in
  if trail =? 0 then set_head m (ck_next m block) else set_next m trail (ck_next m block).

Definition request (h : heap) (nbytes : Z) : Z :=
  let nbytes := roundup_8 (u64 (nbytes + hd_alignment (h_base h))) in
  if nbytes <? SIZEOF_CHUNK then SIZEOF_CHUNK else nbytes.

Definition HEAP_malloc (os : os_reply) (h : heap) (nbytes : Z) : run (heap * Z) :=
  let nbytes := request h nbytes in
  match first_fit (walk_fuel h) (h_base h) nbytes 0 0 (hd_head (h_base h)) with
  | GDKfatal => GDKfatal
  | Endless => Endless
  | Ret (ttrail, trail, block) =>
      match (if block =? 0 then enlarge os h nbytes ttrail trail else Some (h, block, trail)) with
      | None => Ret (h, 0)
      | Some (h, block, trail) =>
          let m := take_block (h_base h) nbytes trail block in
          Ret (set_mem h m, u64 (block + hd_alignment m))
      end
  end.

(** The free blocks around [block]: the last one before it and the first one
    after it. *)
Fixpoint neighbours (fuel : nat) (m : mem) (block before after : Z) : run (Z * Z) :=
  if after =? 0 then Ret (before, 0)
  else if block <? after then Ret (before, after)
  else match fuel with
       | O => Endless
       | S fuel => neighbours fuel m block after (ck_next m after)
       end.

Definition release (m : mem) (block before after : Z) : mem :=
  let m :=
    if negb (after =? 0) then
      if u64 (block + ck_size m block) =? after then
        let m := set_size m block (u64 (ck_size m block + ck_size m after)) in
        set_next m block (ck_next m after)
      else set_next m block after
    else set_next m block 0 in
  if negb (before =? 0) then
    if u64 (before + ck_size m before) =? block then
      let m := set_size m before (u64 (ck_size m before + ck_size m block)) in
      set_next m before (ck_next m block)
    else set_next m before block
  else set_head m block.

Definition HEAP_free (h : heap) (p : Z) : run heap :=
  let alignment := hd_alignment (h_base h) in
  if negb (alignment =? 8) && negb (alignment =? 4) then GDKfatal
  else
    let block := u64 (p - alignment) in
    match neighbours (walk_fuel h) (h_base h) block 0 (hd_head (h_base h)) with
    | GDKfatal => GDKfatal
    | Endless => Endless
    | Ret (before, after) => Ret (set_mem h (release (h_base h) block before after))
    end.

Definition HEAP_mmappable (h : heap) : bool :=
  let head := hd_head (h_base h) in
  if negb (head =? 0) then h_free h <=? u64 (head + ck_size (h_base h) head) else false.

(** ** The blocks of a heap *)

Record blk := Blk { ba : Z; bsz : Z; bfree : bool }.

(** Blocks one after the other from [a] to [e]. *)
Fixpoint layout (a : Z) (bs : list blk) (e : Z) : Prop :=
  match bs with
  | [] => a = e
  | b :: bs => ba b = a /\ 16 <= bsz b /\ bsz b mod 8 = 0 /\ layout (a + bsz b) bs e
  end.

(** Address of the first free block, [t] if there is none. *)
Fixpoint first_free (bs : list blk) (t : Z) : Z :=
  match bs with
  | [] => t
  | b :: bs => if bfree b then ba b else first_free bs t
  end.

(** Address of the last free block and of the one before it, 0 for none. *)
Definition last_two (bs : list blk) : Z * Z :=
  fold_left (fun p b => if bfree b then (snd p, ba b) else p) bs (0, 0).
Definition last_free (bs : list blk) : Z := snd (last_two bs).

(** The memory holds the sizes of the blocks and the links between the free
    ones, the last of which points to [t]. *)
Fixpoint rep (m : mem) (bs : list blk) (t : Z) : Prop :=
  match bs with
  | [] => True
  | b :: bs =>
      ck_size m (ba b) = bsz b /\ (bfree b = true -> ck_next m (ba b) = first_free bs t) /\ rep m bs t
  end.

(** No two free blocks are adjacent. *)
Fixpoint coalesced (bs : list blk) : Prop :=
  match bs with
  | b :: (c :: _) as bs' => bfree b && bfree c = false /\ coalesced bs'
  | _ => True
  end.

(** The heap [h] consists of the blocks [bs]. *)
Definition heap_rep (h : heap) (bs : list blk) : Prop :=
  let m := h_base h in
  hd_alignment m = 8 /\ SIZEOF_HEADER <= hd_firstblock m /\ hd_firstblock m mod 8 = 0 /\
  layout (hd_firstblock m) bs (h_free h) /\ h_free h <= h_size h /\
  hd_head m = first_free bs 0 /\ rep m bs 0 /\ coalesced bs.

(** The blocks in use. *)
Definition used (bs : list blk) : list blk := filter (fun b => negb (bfree b)) bs.

Lemma layout_app a e p q : layout a (p ++ q) e <-> exists c, layout a p c /\ layout c q e.
Proof.
  revert a. induction p as [|b p IH]; intros a; cbn [app layout].
  - split; [intros H; exists a; auto|]. intros (c & -> & H). exact H.
  - rewrite IH. split; [intros (A & S & D & c & H1 & H2); exists c; auto|].
    intros (c & (A & S & D & H1) & H2). eauto 10.
Qed.

Lemma layout_le bs : forall a e, layout a bs e -> a + 16 * Z.of_nat (length bs) <= e.
Proof.
  induction bs as [|b bs IH]; intros a e; cbn [layout length]; [lia|].
  intros (_ & S & _ & H). apply IH in H. lia.
Qed.

Lemma layout_in b bs : forall a e, layout a bs e -> In b bs -> a <= ba b /\ ba b + bsz b <= e /\ 16 <= bsz b.
Proof.
  induction bs as [|c bs IH]; intros a e; cbn [layout]; [intros _ []|].
  intros (A & S & _ & H) [->|Hb].
  - apply layout_le in H. lia.
  - destruct (IH _ _ H Hb). lia.
Qed.

Lemma layout_mod bs : forall a e, layout a bs e -> a mod 8 = 0 -> e mod 8 = 0.
Proof.
  induction bs as [|b bs IH]; intros a e; cbn [layout]; [intros ->; auto|].
  intros (_ & _ & D & H) Ha. apply (IH _ _ H). divlia.
Qed.

Lemma first_free_app p q t : first_free (p ++ q) t = first_free p (first_free q t).
Proof. induction p as [|b p IH]; [reflexivity|]. cbn [app first_free]. destruct (bfree b); [reflexivity|exact IH]. Qed.

Lemma last_two_snoc bs b : last_two (bs ++ [b]) = if bfree b then (last_free bs, ba b) else last_two bs.
Proof. unfold last_two, last_free. rewrite fold_left_app. reflexivity. Qed.

Lemma last_free_snoc bs b : last_free (bs ++ [b]) = if bfree b then ba b else last_free bs.
Proof. unfold last_free at 1. rewrite last_two_snoc. destruct (bfree b); reflexivity. Qed.

Lemma rep_app m p q t : rep m (p ++ q) t <-> rep m p (first_free q t) /\ rep m q t.
Proof.
  induction p as [|b p IH]; cbn [app rep]; [tauto|]. rewrite IH, first_free_app. tauto.
Qed.

Definition all_used (bs : list blk) : Prop := Forall (fun b => bfree b = false) bs.

Lemma all_used_first bs t : all_used bs -> first_free bs t = t.
Proof. induction 1 as [|b bs H _ IH]; cbn [first_free]; [reflexivity|]. rewrite H. exact IH. Qed.

Lemma all_used_rep m bs t t' : all_used bs -> rep m bs t -> rep m bs t'.
Proof.
  induction 1 as [|b bs H _ IH]; cbn [rep]; [tauto|]. intros (S & _ & R).
  split; [exact S|]. split; [congruence|apply IH, R].
Qed.

(** Without a free block everything is used; otherwise the last one is one of
    the blocks and all after it are used. *)
Lemma last_free_cases bs a e : layout a bs e -> 0 < a ->
  last_free bs = 0 /\ all_used bs \/
  last_free bs <> 0 /\ exists p s q, bs = p ++ Blk (last_free bs) s true :: q /\ all_used q.
Proof.
  intros L Ha. revert e L. induction bs as [|b bs IH] using rev_ind; intros e L.
  { left. split; [reflexivity|constructor]. }
  pose proof (layout_in b _ _ _ L ltac:(apply in_elt)) as B.
  apply layout_app in L as (c & L & _). rewrite last_free_snoc. destruct (bfree b) eqn:Fb.
  - right. split; [lia|]. exists bs, (bsz b), []. split; [|constructor]. destruct b as [x y z]. cbn in *. subst. reflexivity.
  - destruct (IH c L) as [[E U]|(N & p & s & q & E & U)]; [left|right]; (split; [assumption|]).
    + apply Forall_app. split; [exact U|]. repeat constructor. exact Fb.
    + exists p, s, (q ++ [b]). split; [rewrite E at 1; rewrite <- app_assoc; reflexivity|].
      apply Forall_app. split; [exact U|]. repeat constructor. exact Fb.
Qed.

(** Only the bytes of the blocks matter. *)
Lemma rep_frame m m' bs t : forall a e, layout a bs e -> (forall x, a <= x < e -> m' x = m x) ->
  rep m bs t -> rep m' bs t.
Proof.
  induction bs as [|b bs IH]; intros a e; cbn [layout rep]; [auto|].
  intros (A & S & D & L) Hm (R1 & R2 & R). pose proof (layout_le _ _ _ L) as Le. split; [|split].
  - rewrite <- R1. apply load_ext. intros x Hx. apply Hm. lia.
  - intros F. rewrite <- (R2 F). apply load_ext. intros x Hx. apply Hm. lia.
  - apply (IH _ _ L); [|exact R]. intros x Hx. apply Hm. lia.
Qed.

(** [x] is not in the header of a free block. *)
Definition outside (bs : list blk) (x : Z) : Prop :=
  forall b, In b bs -> bfree b = true -> ~ (ba b <= x < ba b + 16).

Lemma outside_after bs a e x : layout a bs e -> e <= x \/ x < a -> outside bs x.
Proof. intros L Hx b Hb _. destruct (layout_in b bs a e L Hb). lia. Qed.

Lemma layout_disjoint bs b c : forall a e, layout a bs e -> In b bs -> In c bs ->
  b = c \/ ba b + bsz b <= ba c \/ ba c + bsz c <= ba b.
Proof.
  induction bs as [|d bs IH]; intros a e; cbn [layout]; [intros _ []|].
  intros (A & S & _ & L) [->|Hb] [->|Hc]; [left; reflexivity| | |exact (IH _ _ L Hb Hc)].
  - destruct (layout_in c _ _ _ L Hc). lia.
  - destruct (layout_in b _ _ _ L Hb). lia.
Qed.

Lemma outside_used bs a e b x : layout a bs e -> In b bs -> bfree b = false ->
  ba b <= x < ba b + bsz b -> outside bs x.
Proof.
  intros L Hb Fb Hx c Hc Fc. pose proof (layout_in c bs a e L Hc).
  destruct (layout_disjoint bs b c a e L Hb Hc) as [->|]; [congruence|lia].
Qed.

(** Making the last free block of [pre], or the header, point to [t]. *)
Definition relink (m : mem) (l t : Z) : mem := if l =? 0 then set_head m t else set_next m l t.

Lemma relink_spec m pre t0 t a c : 32 <= a -> layout a pre c -> rep m pre t0 -> 0 <= t < 2 ^ 64 ->
  (last_free pre <> 0 -> hd_head m = first_free pre t0) ->
  let m' := relink m (last_free pre) t in
  rep m' pre t /\ hd_head m' = first_free pre t /\
  (forall x, ~ (8 <= x < 16) -> outside pre x -> m' x = m x).
Proof.
  intros Ha L R Ht Hh. unfold relink.
  destruct (last_free_cases pre a c L ltac:(lia)) as [[E U]|(N & p & s & q & E & U)].
  - rewrite E. cbn [Z.eqb]. unfold set_head. split; [|split].
    + apply (all_used_rep _ _ t0); [exact U|]. refine (rep_frame m _ pre t0 a c L _ R).
      intros x Hx. apply store_out. lia.
    + rewrite all_used_first by exact U. apply load64_store64, Ht.
    + intros x Hx _. apply store_out. lia.
  - cbv zeta. rewrite (proj2 (Z.eqb_neq _ _) N). set (l := last_free pre) in *. specialize (Hh N). clearbody l. subst pre.
    apply layout_app in L as (c1 & L1 & L2). cbn [layout ba bsz] in L2. destruct L2 as (<- & S & _ & L2).
    pose proof (layout_le _ _ _ L1). apply rep_app in R as (R1 & R2 & R3 & R4). cbn [ba bsz bfree first_free] in *.
    unfold set_next. split; [|split].
    + apply rep_app. cbn [first_free bfree ba rep bsz]. split; [|split; [|split]].
      * refine (rep_frame m _ p l a l L1 _ R1). intros x Hx. apply store_out. lia.
      * rewrite <- R2. unfold ck_size. apply load64_store64_other. lia.
      * intros _. rewrite all_used_first by exact U. apply load64_store64, Ht.
      * apply (all_used_rep _ _ t0); [exact U|]. refine (rep_frame m _ q t0 _ c L2 _ R4).
        intros x Hx. apply store_out. lia.
    + unfold hd_head. rewrite load64_store64_other by lia. fold (hd_head m). rewrite Hh.
      rewrite !first_free_app. reflexivity.
    + intros x Hx Ho. specialize (Ho (Blk l s true) ltac:(apply in_elt) eq_refl). cbn [ba] in Ho.
      apply store_out. lia.
Qed.

Lemma last_free_before pre a c : layout a pre c -> 0 < a -> last_free pre = 0 \/ last_free pre + 16 <= c.
Proof.
  intros L Ha. destruct (last_free_cases pre a c L Ha) as [[E _]|(N & p & s & q & E & _)]; [left; exact E|right].
  destruct (layout_in (Blk (last_free pre) s true) pre a c L) as (_ & H & H'); [rewrite E at 2; apply in_elt|].
  cbn in *. lia.
Qed.

Lemma first_fit_spec m nbytes bs : forall pre fuel f e, 32 <= f -> layout f (pre ++ bs) e -> rep m bs 0 ->
  (length bs <= fuel)%nat ->
  exists tt tr block,
    first_fit fuel m nbytes (fst (last_two pre)) (snd (last_two pre)) (first_free bs 0) = Ret (tt, tr, block) /\
    (block = 0 /\ (tt, tr) = last_two (pre ++ bs) \/
     block <> 0 /\ exists p s q, bs = p ++ Blk block s true :: q /\ nbytes <= s /\ tr = last_free (pre ++ p)).
Proof.
  induction bs as [|b bs IH]; intros pre fuel f e Hf L R Fu.
  { exists (fst (last_two pre)), (snd (last_two pre)), 0. split; [destruct fuel; reflexivity|].
    left. split; [reflexivity|]. rewrite app_nil_r. destruct (last_two pre); reflexivity. }
  cbn [first_free rep] in *. destruct R as (R1 & R2 & R).
  replace (pre ++ b :: bs) with ((pre ++ [b]) ++ bs) in * by (rewrite <- app_assoc; reflexivity).
  assert (forall tr block p s q, bs = p ++ Blk block s true :: q -> nbytes <= s -> tr = last_free ((pre ++ [b]) ++ p) ->
    exists p' s' q', b :: bs = p' ++ Blk block s' true :: q' /\ nbytes <= s' /\ tr = last_free (pre ++ p')) as Shift.
  { intros tr block p s q -> Hs ->. exists (b :: p), s, q. split; [reflexivity|]. split; [exact Hs|].
    rewrite <- app_assoc. reflexivity. }
  destruct (bfree b) eqn:Fb.
  - destruct fuel as [|fuel]; [cbn in Fu; lia|]. cbn [length] in Fu. cbn [first_fit].
    pose proof L as L'. apply layout_app in L' as (c & Lp & _).
    apply layout_app in Lp as (c' & Lp & Lb). cbn [layout] in Lb. destruct Lb as (<- & Sb & _ & _).
    pose proof (layout_le _ _ _ Lp) as Hle. rewrite (proj2 (Z.eqb_neq (ba b) 0)) by lia.
    fold (last_free pre).
    assert (negb (last_free pre =? 0) && (ba b <=? last_free pre) = false) as ->.
    { destruct (last_free_before pre f (ba b) Lp ltac:(lia)) as [->|H]; [reflexivity|].
      rewrite (proj2 (Z.leb_gt _ _)) by lia. apply andb_false_r. }
    rewrite R1. destruct (Z.leb_spec nbytes (bsz b)) as [Hb|Hb].
    + eexists _, _, (ba b). split; [reflexivity|]. right. split; [lia|].
      exists [], (bsz b), bs. split; [destruct b; cbn in *; subst; reflexivity|]. split; [exact Hb|].
      rewrite app_nil_r. reflexivity.
    + rewrite (R2 eq_refl). pose proof (IH (pre ++ [b]) fuel f e Hf L R ltac:(lia)) as IH'.
      rewrite last_two_snoc, Fb in IH'. cbn [fst snd] in IH'. unfold last_free in *.
      destruct IH' as (tt & tr & block & -> & [Q|(N & p & s & q & E & Hs & Q)]);
        (exists tt, tr, block; split; [reflexivity|]); [left; exact Q|right; eauto].
  - pose proof (IH (pre ++ [b]) fuel f e Hf L R ltac:(cbn in Fu; lia)) as IH'.
    rewrite last_two_snoc, Fb in IH'.
    destruct IH' as (tt & tr & block & -> & [Q|(N & p & s & q & E & Hs & Q)]);
      (exists tt, tr, block; split; [reflexivity|]); [left; exact Q|right; eauto].
Qed.

(** ** Taking a block *)

Definition begins_free (bs : list blk) : bool := match bs with b :: _ => bfree b | [] => false end.
Definition ends_free (bs : list blk) : bool := last (map bfree bs) false.

Lemma coalesced_app p q :
  coalesced (p ++ q) <-> coalesced p /\ coalesced q /\ ends_free p && begins_free q = false.
Proof.
  unfold ends_free. induction p as [|b [|c p] IH].
  - cbn. tauto.
  - cbn [app map last coalesced]. destruct q as [|c q]; cbn [begins_free]; [rewrite andb_false_r; tauto|]. tauto.
  - change ((b :: c :: p) ++ q) with (b :: (c :: p) ++ q). cbn [app] in *. cbn [coalesced].
    change (last (map bfree (b :: c :: p)) false) with (last (map bfree (c :: p)) false). rewrite IH. tauto.
Qed.

Lemma coalesced_cons b bs : begins_free bs = false -> coalesced bs -> coalesced (b :: bs).
Proof.
  destruct bs as [|c bs]; intros H C; [exact I|]. split; [|exact C]. cbn [begins_free] in H. rewrite H. apply andb_false_r.
Qed.

Lemma ends_free_app p q : ends_free (p ++ q) = match q with [] => ends_free p | _ => ends_free q end.
Proof.
  unfold ends_free. rewrite map_app. destruct q as [|b q]; [rewrite app_nil_r; reflexivity|].
  cbn [map]. generalize (map bfree p). intros l. induction l as [|x [|y l] IH]; [reflexivity|reflexivity|exact IH].
Qed.

Section Take.
Context (m : mem) (pre post : list blk) (a s t0 f e nbytes : Z).
Hypothesis Hf : 32 <= f.
Hypothesis HL : layout f (pre ++ Blk a s true :: post) e.
Hypothesis He : e < 2 ^ 63.
Hypothesis HRpre : rep m pre t0.
Hypothesis HRpost : rep m post 0.
Hypothesis Hsize : ck_size m a = s.
Hypothesis Hnext : ck_next m a = first_free post 0.
Hypothesis Hhead : last_free pre <> 0 -> hd_head m = first_free pre t0.
Hypothesis Hn : 16 <= nbytes <= s.
Hypothesis Hn8 : nbytes mod 8 = 0.

Lemma take_bounds : layout f pre a /\ layout (a + s) post e /\ 32 <= a /\ a + s <= e /\ s mod 8 = 0 /\ 16 <= s.
Proof.
  pose proof HL as L. apply layout_app in L as (c & L1 & L2). cbn [layout ba bsz] in L2.
  destruct L2 as (<- & S & D & L2). pose proof (layout_le _ _ _ L1). pose proof (layout_le _ _ _ L2).
  repeat split; (assumption || lia).
Qed.

(** The links that follow, relinked from the header or the predecessor. *)
Lemma take_relink m1 mid : (forall x, ~ (a <= x < a + s) -> m1 x = m x) ->
  layout a mid (a + s) -> rep m1 mid (first_free post 0) ->
  ck_next m1 a = first_free mid (first_free post 0) ->
  let m' := relink m1 (last_free pre) (ck_next m1 a) in
  let bs' := pre ++ mid ++ post in
  layout f bs' e /\ rep m' bs' 0 /\ hd_head m' = first_free bs' 0 /\
  (forall x, ~ (8 <= x < 16) -> outside pre x -> ~ (a <= x < a + s) -> m' x = m x).
Proof.
  intros Hm Lm Rm Nm. destruct take_bounds as (L1 & L2 & Ha & Hs & D & S).
  assert (forall x, x < a -> m1 x = m x) as Hlow by (intros x Hx; apply Hm; lia).
  assert (rep m1 pre t0) as R1. { refine (rep_frame m m1 pre t0 f a L1 _ HRpre). intros x Hx. apply Hlow. lia. }
  assert (hd_head m1 = hd_head m) as Eh by (apply load_ext; intros x Hx; apply Hlow; lia).
  destruct (relink_spec m1 pre t0 (ck_next m1 a) f a Hf L1 R1 (load64_range _ _) ltac:(rewrite Eh; exact Hhead))
    as (Q1 & Q2 & Q3).
  cbv zeta. set (m' := relink m1 (last_free pre) (ck_next m1 a)) in *.
  assert (forall x, a <= x -> m' x = m1 x) as Hhigh.
  { intros x Hx. apply Q3; [lia|]. apply (outside_after pre f a); [exact L1|lia]. }
  split; [|split; [|split]].
  - apply layout_app. exists a. split; [exact L1|]. apply layout_app. exists (a + s). split; assumption.
  - apply rep_app. rewrite first_free_app, <- Nm. split; [exact Q1|]. apply rep_app. split.
    + refine (rep_frame m1 m' mid _ a (a + s) Lm _ Rm). intros x Hx. apply Hhigh. lia.
    + refine (rep_frame m m' post _ (a + s) e L2 _ HRpost). intros x Hx.
      rewrite Hhigh by lia. apply Hm. lia.
  - rewrite Q2, !first_free_app, <- Nm. reflexivity.
  - intros x H1 H2 H3. rewrite Q3 by assumption. apply Hm, H3.
Qed.

(** The block alone, or split in two. *)
Definition taken : list blk :=
  if nbytes + 32 <=? s then [Blk a nbytes false; Blk (a + nbytes) (s - nbytes) true] else [Blk a s false].

Lemma take_block_spec :
  let m' := take_block m nbytes (last_free pre) a in
  let bs' := pre ++ taken ++ post in
  layout f bs' e /\ rep m' bs' 0 /\ hd_head m' = first_free bs' 0 /\
  (forall x, ~ (8 <= x < 16) -> outside pre x -> ~ (a <= x < a + s) -> m' x = m x).
Proof.
  destruct take_bounds as (L1 & L2 & Ha & Hs & D & S). unfold take_block, taken, SIZEOF_CHUNK.
  rewrite Hsize. unfold u64, uwrap. rewrite !Z.mod_small by lia. change (2 * 16) with 32.
  destruct (Z.leb_spec (nbytes + 32) s) as [Hsp|Hsp].
  - assert (ck_next (set_size m (a + nbytes) (s - nbytes)) a = first_free post 0) as ->.
    { rewrite <- Hnext. apply load64_store64_other. lia. }
    assert (0 <= first_free post 0 < 2 ^ 64) as Hr by (rewrite <- Hnext; apply load64_range).
    set (m1 := set_size _ a nbytes). apply (take_relink m1).
    + intros x Hx. unfold m1, set_size, set_next, store64. rewrite !store_out by lia. reflexivity.
    + cbn [layout ba bsz]. split; [reflexivity|]. split; [lia|]. split; [exact Hn8|].
      split; [reflexivity|]. split; [lia|]. split; [divlia|lia].
    + cbn [rep ba bsz bfree first_free].
      assert (ck_size m1 a = nbytes) as -> by (apply load64_store64; lia).
      split; [reflexivity|]. split; [discriminate|]. unfold ck_size, ck_next, m1, set_size, set_next.
      split; [|split; [intros _|exact I]].
      * do 3 rewrite load64_store64_other by lia. apply load64_store64. lia.
      * do 2 rewrite load64_store64_other by lia. apply load64_store64. exact Hr.
    + cbn [first_free bfree ba]. unfold ck_next, m1, set_size, set_next.
      rewrite load64_store64_other, load64_store64 by lia. reflexivity.
  - apply (take_relink m); [reflexivity| | |].
    + cbn [layout ba bsz]. repeat split; (assumption || lia).
    + cbn [rep ba bsz bfree]. repeat split; [exact Hsize|discriminate].
    + exact Hnext.
Qed.

Lemma take_coalesced : coalesced (pre ++ Blk a s true :: post) -> coalesced (pre ++ taken ++ post).
Proof.
  clear HL HRpost Hnext. rewrite (coalesced_app pre (_ :: post)), (coalesced_app pre (taken ++ post)). cbn [begins_free bfree].
  intros (C1 & C2 & C3). rewrite andb_true_r in C3. split; [exact C1|]. rewrite C3. split; [|reflexivity].
  unfold taken. destruct (nbytes + 32 <=? s); cbn [app].
  - cbn [coalesced bfree]. split; [reflexivity|]. destruct post as [|b p]; [exact I|exact C2].
  - destruct post as [|b p]; [exact I|]. cbn [coalesced bfree] in *. split; [reflexivity|apply C2].
Qed.
End Take.

Lemma roundup_8_spec x : 0 <= x < 2 ^ 63 -> x <= roundup_8 x < x + 8 /\ roundup_8 x mod 8 = 0.
Proof.
  intros H. unfold roundup_8, u64, uwrap. rewrite Z.mod_small by lia.
  change (Z.lnot 7) with (Z.lnot (Z.ones 3)). rewrite <- Z.ldiff_land, Z.ldiff_ones_r by lia.
  rewrite Z.shiftr_div_pow2, Z.shiftl_mul_pow2 by lia. change (2 ^ 3) with 8. divlia.
Qed.

Lemma request_spec h nbytes : hd_alignment (h_base h) = 8 -> 0 <= nbytes < 2 ^ 62 ->
  16 <= request h nbytes /\ nbytes + 8 <= request h nbytes <= nbytes + 16 /\ request h nbytes mod 8 = 0.
Proof.
  intros A H. unfold request. rewrite A. unfold u64, uwrap, SIZEOF_CHUNK. rewrite Z.mod_small by lia.
  pose proof (roundup_8_spec (nbytes + 8) ltac:(lia)). destruct (Z.ltb_spec (roundup_8 (nbytes + 8)) 16); divlia.
Qed.

(** ** Allocation *)

Lemma used_app p q : used (p ++ q) = used p ++ used q.
Proof. apply filter_app. Qed.

(** Ready to take the free block at [a] of [s] bytes between [pre] and
    [post]; the links into it need not be set yet. *)
Definition ready (h : heap) (pre : list blk) (a s : Z) (post : list blk) (t0 : Z) : Prop :=
  let m := h_base h in let bs := pre ++ Blk a s true :: post in
  hd_alignment m = 8 /\ SIZEOF_HEADER <= hd_firstblock m /\ hd_firstblock m mod 8 = 0 /\
  layout (hd_firstblock m) bs (h_free h) /\ h_free h <= h_size h /\ coalesced bs /\
  rep m pre t0 /\ rep m post 0 /\ ck_size m a = s /\ ck_next m a = first_free post 0 /\
  (last_free pre <> 0 -> hd_head m = first_free pre t0).

Lemma take_heap h pre a s post t0 n : ready h pre a s post t0 -> h_free h < 2 ^ 63 ->
  16 <= n <= s -> n mod 8 = 0 ->
  let m' := take_block (h_base h) n (last_free pre) a in
  exists bs' sz, heap_rep (set_mem h m') bs' /\ n <= sz /\ used bs' = used pre ++ Blk a sz false :: used post /\
    a mod 8 = 0 /\ u64 (a + hd_alignment m') = a + 8 /\
    (forall x, ~ (8 <= x < 16) -> outside pre x -> ~ (a <= x < a + s) -> m' x = h_base h x).
Proof.
  unfold ready, SIZEOF_HEADER. cbv zeta. intros (A & F1 & F2 & L & Fs & C & R1 & R2 & Sz & Nx & Hh) Hfree Hn Hn8.
  destruct (take_block_spec (h_base h) pre post a s t0 _ _ n F1 L Hfree R1 R2 Sz Nx Hh Hn Hn8)
    as (Q1 & Q2 & Q3 & Q4).
  destruct (take_bounds pre post a s _ _ F1 L) as (B1 & B2 & B3 & B4 & _).
  set (m' := take_block (h_base h) n (last_free pre) a) in *.
  assert (forall x, x < hd_firstblock (h_base h) -> ~ (8 <= x < 16) -> m' x = h_base h x) as Low.
  { intros x Hx Hx'. apply Q4; [exact Hx'|apply (outside_after pre _ _ _ B1); lia|].
    pose proof (layout_le _ _ _ B1). lia. }
  assert (hd_alignment m' = 8) as A'.
  { rewrite <- A. unfold hd_alignment. f_equal. apply load_ext. intros x Hx. apply Low; lia. }
  assert (hd_firstblock m' = hd_firstblock (h_base h)) as F'.
  { apply load_ext. intros x Hx. apply Low; lia. }
  exists (pre ++ taken a s n ++ post), (if n + 32 <=? s then n else s).
  split; [|split; [|split; [|split; [|split; [|exact Q4]]]]].
  - unfold heap_rep, SIZEOF_HEADER. cbn [set_mem h_base h_free h_size]. rewrite A', F'.
    repeat split; try assumption. apply take_coalesced, C.
  - destruct (Z.leb_spec (n + 32) s); lia.
  - rewrite !used_app. f_equal. unfold taken. destruct (n + 32 <=? s); reflexivity.
  - apply (layout_mod _ _ _ B1 F2).
  - rewrite A'. unfold u64, uwrap. apply Z.mod_small. lia.
Qed.

(** The search finds a block that is ready to be taken, or the heap has to be
    enlarged. *)
Lemma heap_rep_ready h bs p a s q : heap_rep h bs -> bs = p ++ Blk a s true :: q -> ready h p a s q a.
Proof.
  intros (A & F1 & F2 & L & Fs & Hh & R & C) ->. apply rep_app in R as (R1 & R2 & R3 & R4).
  cbn [ba bsz bfree first_free] in *. rewrite first_free_app in Hh. cbn in Hh.
  unfold ready. cbv zeta. repeat split; try assumption; auto.
Qed.


(** The bytes of the blocks in use are none of those that are written. *)
Lemma used_safe f pre a s post e b x : 32 <= f -> layout f (pre ++ Blk a s true :: post) e ->
  In b (used pre ++ used post) -> ba b <= x < ba b + bsz b ->
  ~ (8 <= x < 16) /\ outside pre x /\ ~ (a <= x < a + s).
Proof.
  intros Hf L Hb Hx. assert (In b (pre ++ Blk a s true :: post) /\ bfree b = false) as [Hin Fb].
  { rewrite in_app_iff in Hb. unfold used in Hb. rewrite !filter_In, !negb_true_iff in Hb.
    rewrite in_app_iff. cbn [In]. tauto. }
  destruct (layout_in b _ _ _ L Hin) as (B1 & _). split; [lia|]. split.
  - intros c Hc. apply (outside_used _ f e b x L Hin Fb Hx). apply in_or_app. left. exact Hc.
  - destruct (layout_disjoint _ b (Blk a s true) f e L Hin ltac:(apply in_elt)) as [->|H]; [discriminate Fb|].
    cbn [ba bsz] in H. lia.
Qed.

Lemma ends_free_last bs f e : layout f bs e -> 0 < f -> ends_free bs = true ->
  exists p s, bs = p ++ [Blk (last_free bs) s true] /\ last_free bs + s = e /\ last_free bs <> 0.
Proof.
  intros L Hf. destruct bs as [|b p _] using rev_ind; [discriminate|]. rewrite ends_free_app. cbn. intros Fb.
  rewrite last_free_snoc, Fb. exists p, (bsz b). apply layout_app in L as (c & L & Lb). cbn in Lb.
  destruct Lb as (<- & S & _ & Lb). apply layout_le in L. destruct b as [x y z]. cbn [ba bsz bfree] in *. subst.
  split; [reflexivity|]. split; [reflexivity|lia].
Qed.

(** A last free block that is not the last block does not reach the end. *)
Lemma last_not_adjacent m bs f e t : ends_free bs = false -> layout f bs e -> 0 < f -> e < 2 ^ 63 -> rep m bs t ->
  negb (last_free bs =? 0) && (u64 (last_free bs + ck_size m (last_free bs)) =? e) = false.
Proof.
  intros Ef L Hf He R. destruct (last_free_cases bs _ _ L Hf) as [[-> _]|(N & p & s & q & Ebs & U)]; [reflexivity|].
  rewrite (proj2 (Z.eqb_neq _ _) N). cbn [negb andb]. apply Z.eqb_neq.
  set (l := last_free bs) in *. clearbody l. subst bs. apply rep_app in R as (_ & R & _).
  cbn [ba bsz] in R. apply layout_app in L as (c & Lp & Lb). cbn [layout ba bsz] in Lb. destruct Lb as (<- & Sl & _ & Lq).
  pose proof (layout_le _ _ _ Lp). pose proof (layout_le _ _ _ Lq). rewrite R, (uwrap_id 64) by lia.
  rewrite ends_free_app in Ef. destruct q as [|b q]; [discriminate Ef|cbn [length] in *; lia].
Qed.

(** The header but for the head of the free list. *)
Lemma header_ext m m' : (forall x, ~ (8 <= x < 16) -> x < 32 -> m' x = m x) ->
  hd_alignment m' = hd_alignment m /\ hd_firstblock m' = hd_firstblock m.
Proof. intros H. split; [unfold hd_alignment; f_equal|]; apply load_ext; intros x Hx; apply H; lia. Qed.

Section Enlarge.
Context (h h1 : heap) (bs : list blk) (n : Z).
Hypothesis I : heap_rep h bs.
Hypothesis Hn : 16 <= n < 2 ^ 61.
Hypothesis Hfree : h_free h < 2 ^ 61.
Let e : Z := h_free h.
Let newsize : Z := roundup_8 (u64 (h_free h + Z.max (h_free h) n)).
Let g : Z := newsize - e.
Hypothesis E2 : newsize <= h_size h1.
Hypothesis E3 : forall x, x < e -> h_base h1 x = h_base h x.
(** The memory with the header of the new block. *)
Let m2 : mem := set_size (set_next (h_base h1) e 0) e (u64 (newsize - e)).

Lemma enlarge_bounds : 32 <= hd_firstblock (h_base h) <= e /\ n <= g < 2 ^ 62 /\ g mod 8 = 0 /\ newsize = e + g /\ 0 <= e.
Proof.
  destruct I as (A & F1 & F2 & L & Fs & _). fold e in L. pose proof (layout_le _ _ _ L) as Le.
  pose proof (layout_mod _ _ _ L F2) as M. unfold SIZEOF_HEADER in F1. unfold g, newsize. fold e. fold e in Hfree.
  unfold u64, uwrap. rewrite Z.mod_small by lia.
  pose proof (roundup_8_spec (e + Z.max e n) ltac:(lia)). divlia.
Qed.

Lemma enlarge_low x : x < e -> m2 x = h_base h x.
Proof. intros Hx. unfold m2, set_size, set_next, store64. rewrite !store_out by lia. apply E3, Hx. Qed.

Lemma enlarge_block : ck_size m2 e = g /\ ck_next m2 e = 0.
Proof.
  pose proof enlarge_bounds as B. unfold m2, u64, uwrap. rewrite Z.mod_small by (unfold g in B; lia). split.
  - apply load64_store64. unfold g in B. lia.
  - unfold ck_next, set_size. rewrite load64_store64_other by lia. apply load64_store64. lia.
Qed.

(** The new block stands alone. *)
Lemma enlarge_alone m3 : ends_free bs = false -> m3 = m2 ->
  ready (set_mem (set_free h1 newsize) m3) bs e g [] 0.
Proof.
  intros Ef ->. destruct enlarge_bounds as ((B1 & B2) & B3 & B4 & B5 & B6). destruct enlarge_block as [S N].
  destruct I as (A & F1 & F2 & L & Fs & Hh & R & C). unfold ready. cbv zeta. cbn [set_mem set_free h_base h_free h_size].
  destruct (header_ext (h_base h) m2) as [-> ->]; [intros x _ Hx; apply enlarge_low; lia|]. rewrite A.
  assert (hd_head m2 = hd_head (h_base h)) as -> by (apply load_ext; intros x Hx; apply enlarge_low; lia).
  split; [reflexivity|]. split; [exact F1|]. split; [exact F2|]. split; [|split; [exact E2|split; [|split; [|split; [exact Logic.I|]]]]].
  - apply layout_app. exists e. split; [exact L|]. cbn. repeat split; lia.
  - apply coalesced_app. split; [exact C|]. split; [exact Logic.I|]. rewrite Ef. reflexivity.
  - refine (rep_frame _ m2 bs 0 _ _ L _ R). intros x Hx. apply enlarge_low. exact (proj2 Hx).
  - split; [exact S|]. split; [exact N|]. intros _. exact Hh.
Qed.

(** The new block is joined with the free block [Blk l s true] at the end. *)
Lemma enlarge_joined p l s m3 : bs = p ++ [Blk l s true] ->
  m3 = set_next (set_size m2 l (s + g)) l 0 ->
  ready (set_mem (set_free h1 newsize) m3) p l (s + g) [] l.
Proof.
  intros Ebs E. destruct enlarge_bounds as ((B1 & B2) & B3 & B4 & B5 & B6).
  destruct I as (A & F1 & F2 & L & Fs & Hh & R & C). rewrite Ebs in *.
  apply layout_app in L as (c & L & Lb). cbn [layout ba bsz] in Lb. destruct Lb as (<- & S & D & Le). fold e in Le.
  apply rep_app in R as (R & _). cbn [first_free bfree ba] in R. pose proof (layout_le _ _ _ L) as Lp.
  assert (forall x, x < l -> m3 x = h_base h x) as Low.
  { intros x Hx. rewrite E. unfold set_next, set_size, store64. rewrite !store_out by lia. apply enlarge_low. lia. }
  unfold ready. cbv zeta. cbn [set_mem set_free h_base h_free h_size].
  destruct (header_ext (h_base h) m3) as [-> ->]; [intros x _ Hx; apply Low; lia|]. rewrite A.
  assert (hd_head m3 = hd_head (h_base h)) as -> by (apply load_ext; intros x Hx; apply Low; lia).
  split; [reflexivity|]. split; [exact F1|]. split; [exact F2|]. split; [|split; [exact E2|split; [|split; [|split; [exact Logic.I|]]]]].
  - apply layout_app. exists l. split; [exact L|]. cbn. repeat split; [lia|divlia|lia].
  - rewrite coalesced_app in C |- *. exact C.
  - refine (rep_frame _ m3 p l _ _ L _ R). intros x Hx. apply Low. exact (proj2 Hx).
  - fold e in Hfree. rewrite E. split; [|split].
    + unfold ck_size, set_next, set_size. rewrite load64_store64_other by lia. apply load64_store64. lia.
    + apply (load64_store64 _ _ 0). lia.
    + intros _. rewrite Hh, first_free_app. reflexivity.
Qed.
End Enlarge.

Lemma enlarge_spec os h bs n : heap_rep h bs -> h_free h < 2 ^ 61 -> 16 <= n < 2 ^ 61 ->
  enlarge os h n (fst (last_two bs)) (snd (last_two bs)) = None /\ os = None \/
  exists h2 a pre s t0, enlarge os h n (fst (last_two bs)) (snd (last_two bs)) = Some (h2, a, last_free pre) /\
    ready h2 pre a s [] t0 /\ n <= s /\ h_free h2 < 2 ^ 63 /\ used bs = used pre /\
    (forall b x, In b (used bs) -> ba b <= x < ba b + bsz b -> h_base h2 x = h_base h x).
Proof.
  intros I Hf Hn. pose proof I as (_ & F1 & _ & L & _). unfold SIZEOF_HEADER in F1.
  assert (forall b x, In b (used bs) -> ba b <= x < ba b + bsz b -> x < h_free h) as Below.
  { intros b x Hb Hx. apply filter_In in Hb as [Hb _]. destruct (layout_in b bs _ _ L Hb). lia. }
  unfold enlarge. fold (last_free bs). set (newsize := roundup_8 _).
  destruct (HEAPextend os h newsize) as [h1|] eqn:E.
  2:{ left. split; [reflexivity|]. revert E. unfold HEAPextend. destruct (newsize <=? h_size h); [discriminate|].
      destruct os as [[? ?]|]; [discriminate|reflexivity]. }
  right. apply HEAPextend_spec in E as (E1 & E2 & _ & E3).
  assert (newsize <= h_size h1) as E2' by lia. cbv zeta. cbn [set_free h_base h_free].
  destruct (enlarge_bounds h bs n I Hn Hf) as ((B1 & B2) & B3 & B4 & B5 & B6). fold newsize in B3, B4, B5.
  destruct (enlarge_block h h1 bs n I Hn Hf) as [S2 N2]. fold newsize in S2, N2.
  pose proof (enlarge_low h h1 n E3) as Low. fold newsize in Low.
  set (m2 := set_size (set_next (h_base h1) (h_free h) 0) (h_free h) (u64 (newsize - h_free h))) in *.
  destruct (ends_free bs) eqn:Ef.
  - destruct (ends_free_last bs _ _ L ltac:(lia) Ef) as (p & s & Ebs & El & Nl). set (l := last_free bs) in *.
    pose proof I as (_ & _ & _ & _ & _ & _ & R & _). rewrite Ebs in R, L. apply rep_app in R as (_ & R & _).
    cbn [ba bsz] in R. apply layout_app in L as (c & Lp & Lb). cbn [layout ba bsz] in Lb. destruct Lb as (<- & Sl & _ & _).
    pose proof (layout_le _ _ _ Lp). assert (ck_size m2 l = s) as S3.
    { rewrite <- R. apply load_ext. intros x Hx. apply Low. lia. }
    rewrite S3, (proj2 (Z.eqb_neq l 0)) by exact Nl. unfold u64 at 1, uwrap. rewrite Z.mod_small by lia.
    rewrite El, Z.eqb_refl. cbn [negb andb]. rewrite S2. rewrite Z.mod_small by lia.
    assert (ck_next (set_size m2 l (s + (newsize - h_free h))) (h_free h) = 0) as N3.
    { rewrite <- N2. apply load64_store64_other. lia. }
    rewrite N3.
    eexists _, l, p, (s + (newsize - h_free h)), l.
    split; [rewrite Ebs, last_two_snoc; cbn [bfree fst]; reflexivity|].
    split; [apply (enlarge_joined h h1 bs n I Hn Hf E2' E3 p l s); [exact Ebs|reflexivity]|].
    split; [lia|]. split; [cbn; lia|]. split; [rewrite Ebs, used_app; cbn; apply app_nil_r|].
    intros b x Hb Hx. cbn [set_mem h_base]. unfold set_next, set_size, store64.
    assert (x < l). { rewrite Ebs, used_app in Hb. cbn in Hb. rewrite app_nil_r in Hb.
      apply filter_In in Hb as [Hb _]. destruct (layout_in b p _ _ Lp Hb). lia. }
    rewrite !store_out by lia. apply Low. lia.
  - pose proof I as (_ & _ & _ & _ & _ & _ & R & _). rewrite (last_not_adjacent m2 bs _ _ 0 Ef L) by
      (lia || (refine (rep_frame _ m2 bs 0 _ _ L _ R); intros x Hx; apply Low, (proj2 Hx))).
    eexists _, (h_free h), bs, (newsize - h_free h), 0. split; [reflexivity|].
    split; [apply (enlarge_alone h h1 bs n I Hn Hf E2' E3); [exact Ef|reflexivity]|].
    split; [lia|]. split; [cbn; lia|]. split; [reflexivity|].
    intros b x Hb Hx. cbn [set_mem h_base]. apply Low, (Below b x Hb Hx).
Qed.

Lemma walk_fuel_enough h bs : heap_rep h bs -> (length bs <= walk_fuel h)%nat.
Proof.
  intros (_ & F1 & _ & L & _). unfold SIZEOF_HEADER in F1. apply layout_le in L. unfold walk_fuel. divlia.
Qed.

Lemma malloc_outcome os h bs nbytes : heap_rep h bs -> h_free h < 2 ^ 61 -> 0 <= nbytes < 2 ^ 60 ->
  HEAP_malloc os h nbytes = Ret (h, 0) /\ os = None \/
  exists h' p bs' sz u1 u2, HEAP_malloc os h nbytes = Ret (h', p) /\ heap_rep h' bs' /\
    used bs = u1 ++ u2 /\ used bs' = u1 ++ Blk (p - 8) sz false :: u2 /\
    nbytes + 8 <= sz /\ p mod 8 = 0 /\
    (forall b x, In b (used bs) -> ba b <= x < ba b + bsz b -> h_base h' x = h_base h x).
Proof.
  intros I Hf Hn. pose proof I as (A & F1 & _ & L & _ & Hh & R & _). unfold SIZEOF_HEADER in F1.
  destruct (request_spec h nbytes A ltac:(lia)) as (N1 & N2 & N3). set (n := request h nbytes) in *.
  unfold HEAP_malloc. fold n.
  destruct (first_fit_spec (h_base h) n bs [] (walk_fuel h) _ _ F1 L R (walk_fuel_enough h bs I))
    as (tt & tr & block & E & Q). rewrite Hh. change (0, 0) with (fst (last_two []), snd (last_two [])) in E.
  change (fst (last_two [])) with 0 in E. change (snd (last_two [])) with 0 in E. rewrite E. clear E.
  assert (forall h2 pre a s post t0, ready h2 pre a s post t0 -> h_free h2 < 2 ^ 63 -> n <= s ->
    used bs = used pre ++ used post ->
    (forall b x, In b (used bs) -> ba b <= x < ba b + bsz b -> h_base h2 x = h_base h x) ->
    exists h' p bs' sz u1 u2,
      Ret (set_mem h2 (take_block (h_base h2) n (last_free pre) a),
           u64 (a + hd_alignment (take_block (h_base h2) n (last_free pre) a))) = Ret (h', p) /\
      heap_rep h' bs' /\ used bs = u1 ++ u2 /\ used bs' = u1 ++ Blk (p - 8) sz false :: u2 /\
      nbytes + 8 <= sz /\ p mod 8 = 0 /\
      (forall b x, In b (used bs) -> ba b <= x < ba b + bsz b -> h_base h' x = h_base h x)) as Fin.
  { intros h2 pre a s post t0 Rd Hf2 Hs Hu Hm.
    destruct (take_heap h2 pre a s post t0 n Rd Hf2 ltac:(lia) N3) as (bs' & sz & Q1 & Q2 & Q3 & Q4 & Q5 & Q6).
    rewrite Q5. eexists _, (a + 8), bs', sz, (used pre), (used post). split; [reflexivity|]. split; [exact Q1|].
    split; [exact Hu|]. split; [replace (a + 8 - 8) with a by lia; exact Q3|]. split; [lia|]. split; [divlia|].
    intros b x Hb Hx. cbn [set_mem h_base]. destruct Rd as (_ & G1 & _ & G2 & _). unfold SIZEOF_HEADER in G1.
    rewrite <- (Hm b x Hb Hx). rewrite Hu in Hb.
    destruct (used_safe _ _ _ _ _ _ b x G1 G2 Hb Hx) as (S1 & S2 & S3). apply Q6; assumption. }
  destruct Q as [[-> El]|(Nb & p & s & q & Ebs & Hs & ->)].
  - cbn [app] in El. cbn [Z.eqb].
    pose proof (enlarge_spec os h bs n I Hf ltac:(lia)) as En. rewrite <- El in En. cbn [fst snd] in En.
    destruct En as [[-> ->]|(h2 & a & pre & s & t0 & -> & Rd & Hs & Hf2 & Hu & Hm)]; [left; auto|right].
    apply (Fin h2 pre a s [] t0 Rd Hf2 Hs); [rewrite Hu; cbn; symmetry; apply app_nil_r|exact Hm].
  - right. rewrite (proj2 (Z.eqb_neq _ _) Nb). cbn [app].
    apply (Fin h p block s q block); [exact (heap_rep_ready h bs p block s q I Ebs)|lia|exact Hs| |reflexivity].
    rewrite Ebs, used_app. reflexivity.
Qed.

(** ** Release *)

Lemma first_free_cases bs a e : layout a bs e -> 0 < a ->
  first_free bs 0 = 0 /\ all_used bs \/
  exists p s q, bs = p ++ Blk (first_free bs 0) s true :: q /\ all_used p /\ a <= first_free bs 0.
Proof.
  intros L Ha. revert a L Ha. induction bs as [|b bs IH]; intros a L Ha; [left; split; [reflexivity|constructor]|].
  cbn [layout] in L. destruct L as (A & S & _ & L). cbn [first_free]. destruct (bfree b) eqn:Fb.
  - right. exists [], (bsz b), bs. split; [destruct b; cbn in *; subst; reflexivity|]. split; [constructor|lia].
  - destruct (IH _ L ltac:(lia)) as [[E U]|(p & s & q & E & U & Le)]; [left|right].
    + split; [exact E|constructor; assumption].
    + exists (b :: p), s, q. split; [rewrite E at 1; reflexivity|]. split; [constructor; assumption|lia].
Qed.

Lemma neighbours_spec m block s post p1 : forall p0 fuel f e, 32 <= f ->
  layout f (p0 ++ p1 ++ Blk block s false :: post) e -> rep m (p1 ++ Blk block s false :: post) 0 ->
  (length p1 <= fuel)%nat ->
  neighbours fuel m block (last_free p0) (first_free (p1 ++ Blk block s false :: post) 0) =
  Ret (last_free (p0 ++ p1), first_free post 0).
Proof.
  induction p1 as [|b p1 IH]; intros p0 fuel f e Hf L R Fu.
  - cbn [app first_free bfree] in *. rewrite app_nil_r.
    apply layout_app in L as (c & L1 & L2). cbn [layout ba bsz] in L2. destruct L2 as (<- & S & _ & L2).
    apply layout_le in L1. destruct (first_free_cases post _ _ L2 ltac:(lia)) as [[-> _]|(p & s' & q & _ & _ & Le)].
    + destruct fuel; reflexivity.
    + destruct fuel; cbn [neighbours]; rewrite (proj2 (Z.eqb_neq _ _)), (proj2 (Z.ltb_lt _ _)) by lia; reflexivity.
  - cbn [app first_free rep] in *. destruct R as (R1 & R2 & R).
    replace (p0 ++ b :: p1 ++ Blk block s false :: post) with ((p0 ++ [b]) ++ p1 ++ Blk block s false :: post) in L
      by (rewrite <- app_assoc; reflexivity).
    replace (p0 ++ b :: p1) with ((p0 ++ [b]) ++ p1) by (rewrite <- app_assoc; reflexivity).
    cbn [length] in Fu. destruct (bfree b) eqn:Fb.
    + destruct fuel as [|fuel]; [lia|]. cbn [neighbours].
      assert (32 <= ba b < block) as Hb.
      { destruct (layout_in b _ _ _ L) as (H1 & _); [rewrite <- app_assoc; apply in_elt|].
        apply layout_app in L as (c & L1 & L2). apply layout_app in L2 as (c' & L2 & L3).
        cbn [layout ba] in L3. destruct L3 as (<- & _). apply layout_le in L2.
        destruct (layout_in b _ _ _ L1) as (_ & H2 & H3); [apply in_elt|]. lia. }
      rewrite (proj2 (Z.eqb_neq _ _)), (proj2 (Z.ltb_ge _ _)) by lia. rewrite (R2 eq_refl).
      rewrite <- (IH (p0 ++ [b]) fuel f e Hf L R ltac:(lia)). rewrite last_free_snoc, Fb. reflexivity.
    + rewrite <- (IH (p0 ++ [b]) fuel f e Hf L R ltac:(lia)). rewrite last_free_snoc, Fb. reflexivity.
Qed.

(** The first half of [release]: the block takes the place of the free block
    that follows it, or points to the next one. *)
Definition join_after (m : mem) (block after : Z) : mem :=
  if negb (after =? 0) then
    if u64 (block + ck_size m block) =? after then
      let m := set_size m block (u64 (ck_size m block + ck_size m after)) in
      set_next m block (ck_next m after)
    else set_next m block after
  else set_next m block 0.

(** The block is not joined, only linked to the next free one. *)
Lemma next_alone m block s post e v : 32 <= block -> ck_size m block = s ->
  layout (block + s) post e -> rep m post 0 -> 0 <= v < 2 ^ 64 -> v = first_free post 0 -> 16 <= s ->
  let m1 := set_next m block v in
  ck_size m1 block = s /\ ck_next m1 block = first_free post 0 /\ rep m1 post 0 /\
  (forall x, ~ (block <= x < block + 16) -> m1 x = m x).
Proof.
  intros Hb Sz L R Hv Ev Hs. cbv zeta. split; [|split; [|split]].
  - rewrite <- Sz. apply load64_store64_other. lia.
  - rewrite <- Ev. apply load64_store64, Hv.
  - refine (rep_frame m _ post 0 _ _ L _ R). intros x Hx. apply store_out. lia.
  - intros x Hx. apply store_out. lia.
Qed.

Lemma join_after_spec m block s post e : 32 <= block -> 16 <= s -> s mod 8 = 0 -> e < 2 ^ 63 ->
  ck_size m block = s -> layout (block + s) post e -> rep m post 0 -> coalesced post ->
  let m1 := join_after m block (first_free post 0) in
  exists s1 post1, layout (block + s1) post1 e /\ 16 <= s1 /\ s1 mod 8 = 0 /\
    ck_size m1 block = s1 /\ ck_next m1 block = first_free post1 0 /\ rep m1 post1 0 /\ coalesced post1 /\
    begins_free post1 = false /\ used post1 = used post /\
    (forall x, ~ (block <= x < block + 16) -> m1 x = m x).
Proof.
  intros Hb Hs H8 He Sz L R C. pose proof (layout_le _ _ _ L) as Le. unfold join_after. rewrite Sz.
  unfold u64, uwrap. rewrite (Z.mod_small (block + s)) by lia.
  pose proof (fun v B E => next_alone m block s post e v Hb Sz L R B E) as Alone.
  destruct (first_free_cases post _ _ L ltac:(lia)) as [[E U]|(p & s2 & q & E & U & Lp)].
  - rewrite E. cbn [Z.eqb negb]. exists s, post.
    assert (begins_free post = false) as Bf by (destruct U; [reflexivity|assumption]).
    destruct (Alone 0 ltac:(lia) (eq_sym E) Hs) as (Q1 & Q2 & Q3 & Q4).
    repeat (split; [assumption|]). split; [reflexivity|exact Q4].
  - set (a2 := first_free post 0) in *. rewrite (proj2 (Z.eqb_neq a2 0)) by lia. cbn [negb].
    destruct p as [|b p]; cbn [app] in E.
    + rewrite E in L, R, C. cbn [layout ba bsz rep bfree] in L, R. destruct L as (E2 & S2 & D2 & L). destruct R as (R1 & R2 & R3).
      pose proof (layout_le _ _ _ L) as Le2. rewrite <- E2, Z.eqb_refl. rewrite R1, Z.mod_small by lia.
      specialize (R2 eq_refl). exists (s + s2), q. cbv zeta.
      assert (ck_next (set_size m block (s + s2)) a2 = first_free q 0) as N2.
      { rewrite <- R2. apply load64_store64_other. lia. }
      rewrite N2. assert (0 <= first_free q 0 < 2 ^ 64) as Rg by (rewrite <- R2; apply load64_range).
      split; [rewrite Z.add_assoc; exact L|]. split; [lia|]. split; [divlia|].
      split; [unfold ck_size, set_next; rewrite load64_store64_other by lia; apply load64_store64; lia|].
      split; [apply load64_store64, Rg|].
      split; [refine (rep_frame m _ q 0 _ _ L _ R3); intros x Hx; unfold set_next, set_size, store64;
              rewrite !store_out by lia; reflexivity|].
      split; [destruct q; [exact I|apply C]|].
      split; [destruct q as [|b q]; [reflexivity|apply (proj1 C)]|]. split; [rewrite E; reflexivity|].
      intros x Hx. unfold set_next, set_size, store64. rewrite !store_out by lia. reflexivity.
    + assert (begins_free post = false) as Bf by (rewrite E; inversion U; assumption).
      assert (block + s <> a2) as Ne.
      { rewrite E in L. cbn [layout] in L. destruct L as (_ & Sb & _ & L).
        apply (layout_in (Blk a2 s2 true)) in L; [cbn in L; lia|apply in_elt]. }
      rewrite (proj2 (Z.eqb_neq _ _) Ne). exists s, post.
      assert (In (Blk a2 s2 true) post) as Hin by (rewrite E; apply (in_elt _ (b :: p))).
      destruct (layout_in _ _ _ _ L Hin) as (_ & Hi & Hj). cbn [ba bsz] in Hi, Hj.
      destruct (Alone a2 ltac:(lia) eq_refl Hs) as (Q1 & Q2 & Q3 & Q4).
      repeat (split; [assumption|]). split; [reflexivity|exact Q4].
Qed.

(** The second half: the free block before is joined, or linked to the block. *)
Definition join_before (m : mem) (block before : Z) : mem :=
  if negb (before =? 0) then
    if u64 (before + ck_size m before) =? block then
      let m := set_size m before (u64 (ck_size m before + ck_size m block)) in
      set_next m before (ck_next m block)
    else set_next m before block
  else set_head m block.

Section JoinBefore.
Context (m1 : mem) (f e block s1 t : Z) (pre post1 : list blk).
Hypothesis F1 : 32 <= f.
Hypothesis L1 : layout f pre block.
Hypothesis R1 : rep m1 pre t.
Hypothesis Hh : hd_head m1 = first_free pre t.
Hypothesis C1 : coalesced pre.
Hypothesis M1 : layout (block + s1) post1 e.
Hypothesis M2 : 16 <= s1.
Hypothesis M3 : s1 mod 8 = 0.
Hypothesis M4 : ck_size m1 block = s1.
Hypothesis M5 : ck_next m1 block = first_free post1 0.
Hypothesis M6 : rep m1 post1 0.
Hypothesis M7 : coalesced post1.
Hypothesis M8 : begins_free post1 = false.
Hypothesis He : e < 2 ^ 63.

(** What the second half makes of the memory. *)
Definition released (m' : mem) (bs' : list blk) : Prop :=
  layout f bs' e /\ hd_head m' = first_free bs' 0 /\ rep m' bs' 0 /\ coalesced bs' /\
  used bs' = used pre ++ used post1 /\
  forall x, ~ (8 <= x < 16) -> outside pre x -> m' x = m1 x.

Lemma join_before_adjacent p l sl : pre = p ++ [Blk l sl true] -> l + sl = block -> last_free pre = l ->
  released (join_before m1 block l) (p ++ Blk l (sl + s1) true :: post1).
Proof.
  intros Ep El _. pose proof L1 as Lp. rewrite Ep in Lp. apply layout_app in Lp as (c & Lp1 & Lp2).
  cbn [layout ba bsz] in Lp2. destruct Lp2 as (<- & Sl & Dl & _). pose proof (layout_le _ _ _ Lp1) as Lb1.
  pose proof (layout_le _ _ _ M1) as Lq. pose proof R1 as R1'. pose proof Hh as Hh'. pose proof C1 as C1'.
  rewrite Ep in R1', Hh', C1'. apply rep_app in R1' as (Rp & Rl & _). cbn [first_free bfree ba bsz] in Rp, Rl.
  rewrite first_free_app in Hh'. cbn [first_free bfree ba] in Hh'.
  unfold join_before. rewrite (proj2 (Z.eqb_neq l 0)), Rl, (uwrap_id 64 (l + sl)), El, Z.eqb_refl by lia. cbn [negb].
  cbv zeta. rewrite M4, (uwrap_id 64) by lia.
  assert (ck_next (set_size m1 l (sl + s1)) block = first_free post1 0) as N1.
  { rewrite <- M5. apply load64_store64_other. lia. }
  rewrite N1. assert (0 <= first_free post1 0 < 2 ^ 64) as Rg by (rewrite <- M5; apply load64_range).
  set (m' := set_next (set_size m1 l (sl + s1)) l (first_free post1 0)).
  assert (forall x, ~ (l <= x < l + 16) -> m' x = m1 x) as Fr.
  { intros x Hx. unfold m', set_next, set_size, store64. rewrite !store_out by lia. reflexivity. }
  split; [|split; [|split; [|split; [|split]]]].
  - apply layout_app. exists l. split; [exact Lp1|]. cbn [layout ba bsz]. split; [reflexivity|]. split; [lia|].
    split; [divlia|]. rewrite Z.add_assoc, El. exact M1.
  - rewrite first_free_app. cbn [first_free bfree ba]. rewrite <- Hh'. apply load_ext. intros x Hx. apply Fr. lia.
  - apply rep_app. cbn [rep first_free bfree ba bsz]. split; [|split; [|split]].
    + refine (rep_frame m1 m' p l f l Lp1 _ Rp). intros x Hx. apply Fr. lia.
    + unfold ck_size, m', set_next, set_size. rewrite load64_store64_other by lia. apply load64_store64. lia.
    + intros _. apply load64_store64, Rg.
    + refine (rep_frame m1 m' post1 0 _ _ M1 _ M6). intros x Hx. apply Fr. lia.
  - apply coalesced_app in C1' as (Cp & _ & Ce). apply coalesced_app. split; [exact Cp|]. split; [|exact Ce].
    exact (coalesced_cons _ _ M8 M7).
  - rewrite Ep, !used_app. change (used [Blk l sl true]) with (@nil blk). rewrite app_nil_r. reflexivity.
  - intros x _ S2. rewrite Ep in S2. specialize (S2 (Blk l sl true) ltac:(apply in_elt) eq_refl). cbn [ba] in S2.
    apply Fr, S2.
Qed.

Lemma join_before_apart : ends_free pre = false ->
  released (join_before m1 block (last_free pre)) (pre ++ Blk block s1 true :: post1).
Proof.
  intros Ef. pose proof (layout_le _ _ _ L1) as Lb. pose proof (layout_le _ _ _ M1) as Lq.
  pose proof (last_not_adjacent m1 pre f block t Ef L1 ltac:(lia) ltac:(lia) R1) as Nj.
  assert (join_before m1 block (last_free pre) = relink m1 (last_free pre) block) as ->.
  { unfold join_before, relink. destruct (last_free pre =? 0); [reflexivity|]. cbn [negb andb] in *. rewrite Nj. reflexivity. }
  destruct (relink_spec m1 pre t block f block F1 L1 R1 ltac:(lia) (fun _ => Hh)) as (Q1 & Q2 & Q3).
  set (m' := relink m1 (last_free pre) block) in *.
  assert (forall x, block <= x -> m' x = m1 x) as High.
  { intros x Hx. apply Q3; [lia|]. apply (outside_after pre _ _ _ L1). lia. }
  split; [|split; [|split; [|split; [|split]]]].
  - apply layout_app. exists block. split; [exact L1|]. cbn [layout ba bsz]. repeat split; assumption.
  - rewrite first_free_app. exact Q2.
  - apply rep_app. cbn [rep first_free bfree ba bsz]. split; [exact Q1|]. split; [|split].
    + rewrite <- M4. apply load_ext. intros x Hx. apply High. lia.
    + intros _. rewrite <- M5. apply load_ext. intros x Hx. apply High. lia.
    + refine (rep_frame m1 m' post1 0 _ _ M1 _ M6). intros x Hx. apply High. lia.
  - apply coalesced_app. split; [exact C1|]. rewrite Ef. split; [|reflexivity]. exact (coalesced_cons _ _ M8 M7).
  - rewrite used_app. reflexivity.
  - exact Q3.
Qed.

Lemma join_before_spec : exists bs', released (join_before m1 block (last_free pre)) bs'.
Proof.
  destruct (ends_free pre) eqn:Ef.
  - destruct (ends_free_last pre _ _ L1 ltac:(lia) Ef) as (p & sl & Ep & El & _).
    eexists. exact (join_before_adjacent p (last_free pre) sl Ep El eq_refl).
  - eexists. exact (join_before_apart Ef).
Qed.
End JoinBefore.

Lemma release_spec h pre block s post : let bs := pre ++ Blk block s false :: post in
  heap_rep h bs -> h_free h < 2 ^ 63 ->
  let m' := release (h_base h) block (last_free pre) (first_free post 0) in
  exists bs', heap_rep (set_mem h m') bs' /\ used bs' = used pre ++ used post /\
    (forall b x, In b (used pre ++ used post) -> ba b <= x < ba b + bsz b -> m' x = h_base h x).
Proof.
  cbv zeta. intros (A & F1 & F2 & L & Fs & Hh & R & C) Hf. unfold SIZEOF_HEADER in F1.
  set (m := h_base h) in *. set (f := hd_firstblock m) in *.
  assert (layout f (pre ++ Blk block s true :: post) (h_free h)) as Lt.
  { apply layout_app in L as (c & La & Lb). apply layout_app. exists c. split; assumption. }
  pose proof (fun b x => used_safe f pre block s post (h_free h) b x F1 Lt) as Safe. clear Lt.
  rewrite first_free_app in Hh. cbn [first_free bfree] in Hh.
  apply layout_app in L as (c & L1 & L2). cbn [layout ba bsz] in L2. destruct L2 as (<- & S & D & L2).
  apply rep_app in R as (R1 & Sz & _ & R2). cbn [first_free bfree ba bsz] in R1, Sz.
  apply coalesced_app in C as (C1 & C2 & _).
  assert (coalesced post) as C3 by (destruct post; [exact I|apply C2]). clear C2.
  pose proof (layout_le _ _ _ L1) as Lb.
  destruct (join_after_spec m block s post (h_free h) ltac:(lia) S D Hf Sz L2 R2 C3)
    as (s1 & post1 & M1 & M2 & M3 & M4 & M5 & M6 & M7 & M8 & M9 & M10).
  change (release m block (last_free pre) (first_free post 0))
    with (join_before (join_after m block (first_free post 0)) block (last_free pre)).
  set (m1 := join_after m block (first_free post 0)) in *. clearbody m1.
  assert (forall x, x < block -> m1 x = m x) as Low by (intros x Hx; apply M10; lia).
  assert (rep m1 pre (first_free post 0)) as R1'.
  { refine (rep_frame m m1 pre _ f block L1 _ R1). intros x Hx. apply Low. lia. }
  assert (hd_head m1 = first_free pre (first_free post 0)) as Hh'.
  { rewrite <- Hh. apply load_ext. intros x Hx. apply Low. lia. }
  destruct (join_before_spec m1 f (h_free h) block s1 _ pre post1 F1 L1 R1' Hh' C1 M1 M2 M3 M4 M5 M6 M7 M8 Hf)
    as (bs' & N1 & N2 & N3 & N4 & N5 & N6).
  set (m' := join_before m1 block (last_free pre)) in *. exists bs'. split; [|split; [rewrite N5, M9; reflexivity|]].
  - destruct (header_ext m m') as [A' F'].
    { intros x H1 H2. rewrite N6; [apply Low; lia|exact H1|]. intros b Hb _. destruct (layout_in b pre _ _ L1 Hb). lia. }
    unfold heap_rep, SIZEOF_HEADER. cbn [set_mem h_base h_free h_size]. rewrite A', F'. auto 10.
  - intros b x Hb Hx. destruct (Safe b x Hb Hx) as (S1 & S2 & S3). rewrite N6 by assumption. apply M10. lia.
Qed.

(** ** The theorems *)

Lemma used_in bs b : In b (used bs) -> In b bs.
Proof. intros H. apply filter_In in H. apply H. Qed.

Lemma NoDup_used bs a e : layout a bs e -> NoDup (used bs).
Proof.
  intros L. apply NoDup_filter. revert a L. induction bs as [|b bs IH]; intros a L; constructor.
  - destruct L as (A & S & _ & L). intros Hb. destruct (layout_in b _ _ _ L Hb). lia.
  - destruct L as (_ & _ & _ & L). apply (IH _ L).
Qed.

(** C10: Allocation is sound: on a well-formed heap [HEAP_malloc] always returns
    (its walk ends, "Free list is not ordered" is never raised), and either
    reports 0 leaving the heap as it was, only when the system refuses
    memory, or hands out an aligned area of at least the requested size,
    inside the heap, that overlaps no block in use; the heap stays
    well-formed, with exactly one more block in use, and not a byte of the
    other ones changes. *)
Theorem HEAP_malloc_spec os h bs nbytes : heap_rep h bs -> h_free h < 2 ^ 61 -> 0 <= nbytes < 2 ^ 60 ->
  HEAP_malloc os h nbytes = Ret (h, 0) /\ os = None \/
  exists h' p bs' sz u1 u2, HEAP_malloc os h nbytes = Ret (h', p) /\ heap_rep h' bs' /\
    used bs = u1 ++ u2 /\ used bs' = u1 ++ Blk (p - 8) sz false :: u2 /\
    p mod 8 = 0 /\ nbytes + 8 <= sz /\ p - 8 + sz <= h_size h' /\
    (forall b, In b (used bs) -> ba b + bsz b <= p - 8 \/ p - 8 + sz <= ba b) /\
    (forall b x, In b (used bs) -> ba b <= x < ba b + bsz b -> h_base h' x = h_base h x).
Proof.
  intros I Hf Hn. destruct (malloc_outcome os h bs nbytes I Hf Hn) as [Q|Q]; [left; exact Q|right].
  destruct Q as (h' & p & bs' & sz & u1 & u2 & E & J & U & U' & Hs & Ha & Hm).
  exists h', p, bs', sz, u1, u2. pose proof J as (_ & F1 & _ & L & Fs & _).
  assert (In (Blk (p - 8) sz false) (used bs')) as Hin by (rewrite U'; apply in_elt).
  destruct (layout_in _ _ _ _ L (used_in _ _ Hin)) as (_ & B & _). cbn [ba bsz] in B.
  repeat (split; [assumption|]). split; [lia|]. split; [|exact Hm].
  intros b Hb. assert (In b (used bs')) as Hb' by (rewrite U'; rewrite U in Hb; rewrite in_app_iff in *; cbn; tauto).
  destruct (layout_disjoint bs' b (Blk (p - 8) sz false) _ _ L (used_in _ _ Hb') (used_in _ _ Hin)) as [Eb|D]; [|exact D].
  exfalso. subst b. pose proof (NoDup_used _ _ _ L) as ND. rewrite U' in ND. apply NoDup_remove_2 in ND.
  apply ND. rewrite <- U. exact Hb.
Qed.

Lemma free_outcome h bs p s : heap_rep h bs -> h_free h < 2 ^ 63 -> In (Blk (p - 8) s false) bs -> 
  exists h' bs' u1 u2, HEAP_free h p = Ret h' /\ heap_rep h' bs' /\
    used bs = u1 ++ Blk (p - 8) s false :: u2 /\ used bs' = u1 ++ u2 /\
    (forall b x, In b (used bs') -> ba b <= x < ba b + bsz b -> h_base h' x = h_base h x).
Proof.
  intros I Hf Hin. apply in_split in Hin as (pre & post & ->). pose proof I as (A & F1 & _ & L & _ & Hh & R & _).
  unfold SIZEOF_HEADER in F1. unfold HEAP_free. rewrite A. cbn [Z.eqb negb andb Pos.eqb].
  destruct (layout_in _ _ _ _ L ltac:(apply in_elt)) as (B1 & B2 & B3). cbn [ba bsz] in B1, B2, B3.
  unfold u64, uwrap. rewrite Z.mod_small by lia. rewrite Hh.
  pose proof (walk_fuel_enough _ _ I) as Fu. rewrite length_app in Fu.
  pose proof (neighbours_spec (h_base h) (p - 8) s post pre [] (walk_fuel h) _ _ F1 L R ltac:(lia)) as E.
  change (last_free []) with 0 in E. rewrite E. cbn [app].
  destruct (release_spec h pre (p - 8) s post I Hf) as (bs' & J & U & Hm).
  eexists _, bs', (used pre), (used post). split; [reflexivity|]. split; [exact J|].
  split; [rewrite used_app; reflexivity|]. split; [exact U|]. rewrite U. exact Hm.
Qed.

(** C11: Release is sound: freeing a block in use returns, makes it available
    again, joined with its free neighbours, and leaves every other block in
    use as it was. *)
Theorem HEAP_free_spec h bs p s : heap_rep h bs -> h_free h < 2 ^ 63 -> In (Blk (p - 8) s false) bs -> 
  exists h' bs' u1 u2, HEAP_free h p = Ret h' /\ heap_rep h' bs' /\
    used bs = u1 ++ Blk (p - 8) s false :: u2 /\ used bs' = u1 ++ u2 /\
    (forall b x, In b (used bs') -> ba b <= x < ba b + bsz b -> h_base h' x = h_base h x).
Proof. apply free_outcome. Qed.

Lemma roundup_num_8 x : 0 <= x < 2 ^ 63 -> roundup_num x 8 = 8 * ((x + 7) / 8).
Proof.
  intros H. unfold roundup_num, u64, uwrap. replace (x + 8 - 1) with (x + 7) by lia.
  rewrite (Z.mod_small (x + 7)) by lia. rewrite Z.mod_small by divlia. divlia.
Qed.

Lemma HEAP_initialize_rep os nbytes nprivate alignment hashash h :
  0 <= nbytes < 2 ^ 60 -> 0 <= nprivate < 2 ^ 60 ->
  HEAP_initialize os nbytes nprivate alignment hashash = Some h ->
  exists a s, heap_rep h [Blk a s true] /\ nbytes + 16 <= s /\ h_free h = h_size h /\ h_size h < 2 ^ 62.
Proof.
  intros Hn Hp. unfold HEAP_initialize.
  assert ((if (if negb (alignment =? 8) then 4 else alignment) <? 8 then 8
           else if negb (alignment =? 8) then 4 else alignment) = 8) as ->.
  { destruct (Z.eqb_spec alignment 8) as [->|]; reflexivity. }
  unfold SIZEOF_HEADER, SIZEOF_CHUNK. unfold u64 at 1, uwrap. rewrite Z.mod_small by lia.
  set (total := roundup_8 (100 + nbytes + nprivate + 32 + 16)).
  destruct (roundup_8_spec (100 + nbytes + nprivate + 32 + 16) ltac:(lia)) as [T1 T2]. fold total in T1, T2.
  unfold HEAPalloc. cbn [Z.eqb negb andb]. unfold u64, uwrap. rewrite Z.mul_1_r, Z.max_r, Z.mod_small by lia.
  rewrite Z.div_1_r, Z.ltb_irrefl. destruct os as [[fresh maxsize]|]; [|discriminate]. intros E. injection E as <-.
  unfold HEAP_empty, SIZEOF_HEADER. cbn [set_free set_mem h_base h_free h_size].
  change (roundup_8 32) with 32. destruct (roundup_8_spec nprivate ltac:(lia)) as [P1 P2].
  set (pr := roundup_8 nprivate) in *. unfold u64 at 1 2 3, uwrap. rewrite !(Z.mod_small (32 + pr)) by lia.
  rewrite roundup_num_8 by lia. set (a := 8 * ((32 + pr + 7) / 8)). assert (a = 32 + pr) as Ea by (unfold a; divlia).
  exists a, (total - a). unfold u64, uwrap. rewrite !(Z.mod_small (total - a)) by lia.
  set (m := set_next _ a 0). assert (ck_size m a = total - a) as S1.
  { unfold m, ck_size, set_next. rewrite load64_store64_other by lia. apply load64_store64. lia. }
  assert (ck_next m a = 0) as S2 by (apply load64_store64; lia).
  assert (hd_alignment m = 8) as S3.
  { unfold hd_alignment. replace (load 4 m 4) with 8; [reflexivity|]. symmetry.
    rewrite (load_ext 4 m (store 4 (store64 (set_head fresh a) 24 0) 4 8) 4); [apply load_store; cbn; lia|].
    intros x Hx. unfold m, set_next, set_size, store64. do 4 rewrite store_out by lia. reflexivity. }
  assert (hd_firstblock m = a) as S4.
  { unfold hd_firstblock, m, set_next, set_size. do 2 rewrite load64_store64_other by lia.
    transitivity (load64 (store64 (store 4 (store64 (set_head fresh a) 24 0) 4 8) 16 a) 16);
      [|apply load64_store64; lia].
    apply load_ext. intros x Hx. apply store_out. lia. }
  assert (hd_head m = a) as S5.
  { transitivity (load64 (store64 fresh 8 a) 8); [|apply load64_store64; lia]. apply load_ext. intros x Hx.
    unfold m, set_next, set_size, set_head, store64. do 6 rewrite store_out by lia. reflexivity. }
  split; [|cbn [set_free set_mem h_free h_size]; lia]. unfold heap_rep, SIZEOF_HEADER.
  cbn [set_free set_mem h_base h_free h_size layout rep coalesced first_free ba bsz bfree].
  clearbody a pr total. subst a. rewrite S3, S4, S5. split; [reflexivity|]. split; [lia|]. split; [divlia|].
  split; [split; [reflexivity|]; split; [lia|]; split; [divlia|lia]|].
  split; [lia|]. split; [reflexivity|]. split; [|exact I]. split; [exact S1|]. split; [intros _; exact S2|exact I].
Qed.

(** ** Clients of the heap

    A client allocates, releases what it holds, and writes inside the areas
    it holds; [live] lists them with their sizes. *)
Inductive reach : heap -> list (Z * Z) -> Prop :=
| reach_new os nbytes nprivate alignment hashash h :
    0 <= nbytes < 2 ^ 60 -> 0 <= nprivate < 2 ^ 60 ->
    HEAP_initialize os nbytes nprivate alignment hashash = Some h -> reach h []
| reach_malloc os h live n h' p :
    reach h live -> h_free h < 2 ^ 61 -> 0 <= n < 2 ^ 60 ->
    HEAP_malloc os h n = Ret (h', p) -> p <> 0 -> reach h' ((p, n) :: live)
| reach_free h l1 p n l2 h' :
    reach h (l1 ++ (p, n) :: l2) -> h_free h < 2 ^ 61 ->
    HEAP_free h p = Ret h' -> reach h' (l1 ++ l2)
| reach_write h live p n x v :
    reach h live -> In (p, n) live -> p <= x < p + n ->
    reach (set_mem h (fun y => if y =? x then v else h_base h y)) live.

Definition area_of (a : Z * Z) (b : blk) : Prop := ba b = fst a - 8 /\ snd a + 8 <= bsz b.

Definition live_inv (h : heap) (live : list (Z * Z)) : Prop :=
  exists bs us, heap_rep h bs /\ Permutation us (used bs) /\ Forall2 area_of live us.

(** Writes to the payload of a used block. *)
Lemma rep_payload m x v bs t b : forall a e, layout a bs e -> In b bs -> bfree b = false ->
  ba b + 8 <= x < ba b + bsz b -> rep m bs t -> rep (fun y => if y =? x then v else m y) bs t.
Proof.
  assert (forall n a, ~ (a <= x < a + Z.of_nat n) -> load n (fun y => if y =? x then v else m y) a = load n m a) as E.
  { intros n a H. apply load_ext. intros y Hy. rewrite (proj2 (Z.eqb_neq y x)) by lia. reflexivity. }
  intros a e L Hb Fb Hx. assert (forall c, In c bs -> ~ (ba c <= x < ba c + 8) /\ (bfree c = true -> ~ (ba c + 8 <= x < ba c + 16))) as Hc.
  { intros c Hc. destruct (layout_in c _ _ _ L Hc) as (_ & _ & S).
    destruct (layout_disjoint bs b c a e L Hb Hc) as [->|D]; [|lia]. split; [lia|congruence]. }
  clear L Hb. induction bs as [|c bs IH]; cbn [rep]; [auto|]. intros (R1 & R2 & R).
  destruct (Hc c (or_introl eq_refl)) as [H1 H2]. split; [|split].
  - rewrite <- R1. apply E. change (Z.of_nat 8) with 8. exact H1.
  - intros F. rewrite <- (R2 F). apply E. change (Z.of_nat 8) with 8. specialize (H2 F). lia.
  - apply IH; [|exact R]. intros d Hd. apply Hc. right. exact Hd.
Qed.

Lemma heap_rep_write h bs b x v : heap_rep h bs -> In b (used bs) -> ba b + 8 <= x < ba b + bsz b ->
  heap_rep (set_mem h (fun y => if y =? x then v else h_base h y)) bs.
Proof.
  intros (A & F1 & F2 & L & Fs & Hh & R & C) Hb Hx. pose proof (used_in _ _ Hb) as Hin.
  apply filter_In in Hb as [_ Fb]. apply negb_true_iff in Fb. unfold SIZEOF_HEADER in F1.
  destruct (layout_in b _ _ _ L Hin) as (B1 & _).
  assert (forall n a, a + Z.of_nat n <= 32 ->
    load n (fun y => if y =? x then v else h_base h y) a = load n (h_base h) a) as E.
  { intros n a H. apply load_ext. intros y Hy. rewrite (proj2 (Z.eqb_neq y x)) by lia. reflexivity. }
  unfold heap_rep, hd_alignment, hd_firstblock, hd_head, load64, SIZEOF_HEADER in *. cbn [set_mem h_base h_free h_size].
  rewrite !E by (cbn; lia). repeat (split; [assumption|]). split; [|exact C].
  apply (rep_payload (h_base h) x v bs 0 b _ _ L Hin Fb Hx R).
Qed.

Lemma Forall2_in {A B} (R : A -> B -> Prop) l l' a : Forall2 R l l' -> In a l -> exists b, In b l' /\ R a b.
Proof.
  induction 1 as [|x y l l' H _ IH]; [intros []|]. intros [->|Ha]; [exists y; cbn; auto|].
  destruct (IH Ha) as (b & Hb & Hr). exists b. cbn. auto.
Qed.

Lemma live_inv_in h live p n : live_inv h live -> In (p, n) live ->
  exists bs b, heap_rep h bs /\ In b (used bs) /\ ba b = p - 8 /\ n + 8 <= bsz b.
Proof.
  intros (bs & us & I & P & F) H. destruct (Forall2_in _ _ _ _ F H) as (b & Hb & A1 & A2).
  exists bs, b. split; [exact I|]. split; [apply (Permutation_in b P), Hb|]. split; assumption.
Qed.

Lemma reach_inv h live : reach h live -> live_inv h live.
Proof.
  induction 1 as [os nbytes nprivate alignment hashash h Hn Hp E|os h live n h' p _ IH Hf Hn E Np
                 |h l1 p n l2 h' _ IH Hf E|h live p n x v _ IH Hin Hx].
  - destruct (HEAP_initialize_rep _ _ _ _ _ _ Hn Hp E) as (a & s & I & _). exists [Blk a s true], [].
    split; [exact I|]. split; constructor.
  - destruct IH as (bs & us & I & P & F).
    destruct (malloc_outcome os h bs n I Hf Hn) as [[Q _]|(h1 & p1 & bs' & sz & u1 & u2 & Q & J & U & U' & Hs & _)];
      rewrite Q in E; injection E as <- <-; [contradiction|].
    exists bs', (Blk (p1 - 8) sz false :: us). split; [exact J|]. split.
    + rewrite U', <- Permutation_middle, <- U. apply perm_skip, P.
    + constructor; [split; [reflexivity|cbn; lia]|exact F].
  - destruct IH as (bs & us & I & P & F). apply Forall2_app_inv_l in F as (us1 & us2' & F1 & F2 & ->).
    inversion F2 as [|? b ? us2 [A1 A2] F3 X Y]. subst. cbn [fst snd] in *.
    assert (In b (used bs)) as Hb by (apply (Permutation_in b P), in_elt).
    pose proof (used_in _ _ Hb) as Hin. apply filter_In in Hb as [_ Fb]. apply negb_true_iff in Fb.
    assert (b = Blk (p - 8) (bsz b) false) as Eb by (destruct b; cbn in *; subst; reflexivity). rewrite Eb in Hin.
    destruct (free_outcome h bs p (bsz b) I ltac:(lia) Hin) as (h1 & bs' & u1 & u2 & Q & J & U & U' & _).
    rewrite Q in E. injection E as <-. exists bs', (us1 ++ us2). split; [exact J|]. split; [|apply Forall2_app; assumption].
    rewrite U'. apply (Permutation_app_inv _ _ _ _ b). rewrite Eb at 2. rewrite <- U. exact P.
  - destruct IH as (bs & us & I & P & F). destruct (Forall2_in _ _ _ _ F Hin) as (b & Hb & A1 & A2).
    cbn [fst snd] in *. exists bs, us. split; [|split; assumption].
    apply (heap_rep_write h bs b x v I); [apply (Permutation_in b P), Hb|lia].
Qed.

(** Two areas, with the size field in front of each, do not overlap. *)
Definition disjoint_areas (x y : Z * Z) : Prop := fst x + snd x <= fst y - 8 \/ fst y + snd y <= fst x - 8.

Definition inside (h : heap) (x : Z * Z) : Prop :=
  SIZEOF_HEADER <= fst x - 8 /\ fst x + snd x <= h_size h /\ fst x mod 8 = 0.

Lemma area_inside h bs x b : heap_rep h bs -> In b (used bs) -> area_of x b -> inside h x.
Proof.
  intros (_ & F1 & F2 & L & Fs & _) Hb [A1 A2].
  destruct (layout_in b _ _ _ L (used_in _ _ Hb)) as (C1 & C2 & _).
  split; [lia|]. split; [lia|].
  destruct (in_split _ _ (used_in _ _ Hb)) as (u & v & ->).
  apply layout_app in L as (d & L & L'). cbn [layout] in L'.
  pose proof (layout_mod _ _ _ L F2). divlia.
Qed.

Lemma areas_apart bs a e : layout a bs e -> forall live us, Forall2 area_of live us -> NoDup us ->
  (forall b, In b us -> In b bs) -> ForallOrdPairs disjoint_areas live.
Proof.
  intros L live us F. induction F as [|x b live us [A1 A2] F IH]; intros D S; [constructor|].
  apply NoDup_cons_iff in D as [Nb D]. constructor; [|apply IH; [exact D|intros c Hc; apply S; now right]].
  apply Forall_forall. intros y Hy.
  destruct (Forall2_in _ _ _ y F Hy) as (c & Hc & B1 & B2).
  destruct (layout_disjoint bs b c _ _ L (S b (or_introl eq_refl)) (S c (or_intror Hc))) as [E|E];
    [congruence|]. unfold disjoint_areas. lia.
Qed.

(** C2: Whatever its clients do, the allocator keeps its promise: in every
    state reached by allocating, releasing and writing inside live areas, the
    heap is well-formed, every live area is aligned and lies inside the heap,
    and no two of them overlap. *)
Theorem live_areas_disjoint h live : reach h live ->
  (exists bs, heap_rep h bs) /\ Forall (inside h) live /\ ForallOrdPairs disjoint_areas live.
Proof.
  intros H. destruct (reach_inv _ _ H) as (bs & us & I & P & F).
  split; [now exists bs|]. split.
  - apply Forall_forall. intros x Hx. destruct (Forall2_in _ _ _ _ F Hx) as (b & Hb & A).
    exact (area_inside h bs x b I (Permutation_in b P Hb) A).
  - pose proof I as (_ & _ & _ & L & _).
    refine (areas_apart bs _ _ L live us F _ _).
    + exact (Permutation_NoDup (Permutation_sym P) (NoDup_used _ _ _ L)).
    + intros b Hb. exact (used_in _ _ (Permutation_in b P Hb)).
Qed.

(** ** A concrete heap *)

Definition sample_heap : heap :=
  match HEAP_initialize (Some (fun _ => 255, 0)) 200 0 4 false with
  | Some h => h
  | None => mk_heap (fun _ => 0) 0 0 0 false
  end.

Lemma sample_initialize : HEAP_initialize (Some (fun _ => 255, 0)) 200 0 4 false = Some sample_heap.
Proof. reflexivity. Qed.

Lemma sample_rep : exists bs, heap_rep sample_heap bs.
Proof.
  destruct (HEAP_initialize_rep (Some (fun _ => 255, 0)) 200 0 4 false sample_heap ltac:(lia) ltac:(lia) sample_initialize)
    as (a & s & I & _). eauto.
Qed.

(** Heap and address after an allocation that needs no more memory. *)
Definition malloc_at (h : heap) (n : Z) : heap * Z :=
  match HEAP_malloc None h n with Ret r => r | _ => (h, 0) end.

Lemma malloc_at_spec h bs n : heap_rep h bs -> h_free h < 2 ^ 61 -> 0 <= n < 2 ^ 60 -> snd (malloc_at h n) <> 0 ->
  HEAP_malloc None h n = Ret (malloc_at h n) /\
  exists bs' sz, heap_rep (fst (malloc_at h n)) bs' /\ In (Blk (snd (malloc_at h n) - 8) sz false) bs'.
Proof.
  intros I Hf Hn. unfold malloc_at.
  destruct (malloc_outcome None h bs n I Hf Hn) as [[-> _]|(h' & p & bs' & sz & u1 & u2 & -> & J & _ & U & _)]; [contradiction|].
  intros _. split; [reflexivity|]. exists bs', sz. split; [exact J|]. cbn [snd]. apply used_in. rewrite U. apply in_elt.
Qed.

Lemma HEAP_malloc_spec_witness : exists h' p bs',
  HEAP_malloc None sample_heap 20 = Ret (h', p) /\ heap_rep h' bs' /\ p = 40.
Proof.
  destruct sample_rep as (bs & I). assert (snd (malloc_at sample_heap 20) = 40) as P by (vm_compute; reflexivity).
  unfold malloc_at in P.
  destruct (HEAP_malloc_spec None sample_heap bs 20 I) as [[Q _]|Q]; [vm_compute; reflexivity|lia| |].
  - exfalso. rewrite Q in P. discriminate P.
  - destruct Q as (h' & p & bs' & sz & u1 & u2 & Q & J & _). exists h', p, bs'. split; [exact Q|].
    split; [exact J|]. rewrite Q in P. exact P.
Defined.

Lemma HEAP_free_spec_witness : let h := fst (malloc_at sample_heap 20) in
  exists h' bs', HEAP_free h 40 = Ret h' /\ heap_rep h' bs'.
Proof.
  cbv zeta. destruct sample_rep as (bs & I).
  assert (snd (malloc_at sample_heap 20) = 40) as P by (vm_compute; reflexivity).
  destruct (malloc_at_spec sample_heap bs 20 I) as (_ & bs1 & sz & J & Hin);
    [vm_compute; reflexivity|lia|rewrite P; discriminate|]. rewrite P in Hin.
  destruct (HEAP_free_spec _ bs1 40 sz J) as (h' & bs' & u1 & u2 & Q & K & _); [vm_compute; reflexivity|exact Hin|].
  exists h', bs'. split; [exact Q|exact K].
Defined.

Lemma live_areas_disjoint_witness :
  let h1 := fst (malloc_at sample_heap 20) in let h2 := fst (malloc_at h1 56) in
  reach h2 [(72, 56); (40, 20)] /\
  (exists bs, heap_rep h2 bs) /\ Forall (inside h2) [(72, 56); (40, 20)] /\
  ForallOrdPairs disjoint_areas [(72, 56); (40, 20)].
Proof.
  cbv zeta. destruct sample_rep as (bs & I). set (h1 := fst (malloc_at sample_heap 20)).
  assert (snd (malloc_at sample_heap 20) = 40) as P1 by (vm_compute; reflexivity).
  destruct (malloc_at_spec sample_heap bs 20 I) as (E1 & bs1 & sz & J & _);
    [vm_compute; reflexivity|lia|rewrite P1; discriminate|]. fold h1 in J.
  assert (snd (malloc_at h1 56) = 72) as P2 by (vm_compute; reflexivity).
  destruct (malloc_at_spec h1 bs1 56 J) as (E2 & _);
    [vm_compute; reflexivity|lia|rewrite P2; discriminate|].
  assert (reach (fst (malloc_at h1 56)) [(72, 56); (40, 20)]) as R.
  { apply (reach_malloc None h1); [|vm_compute; reflexivity|lia| |discriminate].
    - apply (reach_malloc None sample_heap); [|vm_compute; reflexivity|lia| |discriminate].
      + apply (reach_new (Some (fun _ => 255, 0)) 200 0 4 false); [lia|lia|reflexivity].
      + rewrite E1, <- P1. unfold h1. rewrite <- surjective_pairing. reflexivity.
    - rewrite E2, <- P2. rewrite <- surjective_pairing. reflexivity. }
  split; [exact R|]. exact (live_areas_disjoint _ _ R).
Defined.

(** ** Heaps that can be mapped *)

(** [HEAP_mmappable] tells exactly the heaps whose only hole is at the end:
    all blocks are in use but the last one. *)
Theorem HEAP_mmappable_spec h bs : heap_rep h bs -> h_free h < 2 ^ 63 ->
  (HEAP_mmappable h = true <-> exists u a s, bs = u ++ [Blk a s true] /\ all_used u).
Proof.
  intros (_ & F1 & _ & L & _ & Hh & R & _) Hf. unfold SIZEOF_HEADER in F1. unfold HEAP_mmappable. rewrite Hh.
  destruct (first_free_cases bs _ _ L ltac:(lia)) as [[-> U]|(p & s & q & E & U & Le)].
  - cbn [Z.eqb negb]. split; [discriminate|]. intros (u & a & s & -> & _). apply Forall_app in U as [_ U].
    inversion U as [|? ? H _]. discriminate H.
  - set (a := first_free bs 0) in *. clearbody a. subst bs. rewrite (proj2 (Z.eqb_neq a 0)) by lia. cbn [negb].
    apply rep_app in R as (_ & Sz & _). cbn [ba bsz] in Sz. rewrite Sz.
    apply layout_app in L as (c & L1 & L2). cbn [layout ba bsz] in L2. destruct L2 as (<- & Ss & _ & L2).
    pose proof (layout_le _ _ _ L1). pose proof (layout_le _ _ _ L2).
    unfold u64, uwrap. rewrite Z.mod_small by lia. rewrite Z.leb_le. split.
    + intros Hle. destruct q as [|b q]; [|cbn [length] in *; lia]. exists p, a, s. split; [reflexivity|exact U].
    + intros (u & a' & s' & E & U'). destruct q as [|b q _] using rev_ind; [cbn in L2; lia|].
      exfalso. rewrite app_comm_cons, app_assoc in E. apply app_inj_tail in E as [<- _].
      apply Forall_app in U' as [_ U']. inversion U' as [|? ? H' _]. discriminate H'.
Qed.

Lemma HEAP_mmappable_spec_witness :
  HEAP_mmappable sample_heap = true <-> exists u a s, [Blk 32 320 true] = u ++ [Blk a s true] /\ all_used u.
Proof.
  apply HEAP_mmappable_spec; [|vm_compute; reflexivity].
  unfold heap_rep. repeat split; try (vm_compute; (reflexivity || discriminate)).
Defined.
