(* ===== verification/Codec.v ===== *)
(** * Atom descriptors and the contract between them and their users

    The kernel reaches the operations of a type through the table [BATatoms]
    of src/src/gdk/gdk_atoms.c.  A descriptor is a record of operations; the
    typeclass [AtomLaws] states what the rest of the kernel may rely on, and is
    proved here for the integer, bit and object identifier atoms of the
    kernel and for the dates and times of the mtime module.  All these atoms
    have a fixed size and are carried as numbers. *)

From Stdlib Require Import ZArith Lia Bool List String.
Import ListNotations.
From S2P Require Import Prelude Calendar DateArith TimeText Atoms.

Open Scope string_scope.
Open Scope Z_scope.
Open Scope list_scope.

(** The fields of [atomDesc] that conversions use. *)
Record atomDesc := mk_atom {
  atom_name : string;
  atom_size : Z;
  atomNull : Z;
  atomFromStr : cstr -> Z * Z;
  atomToStr : Z -> cstr;
  atomCmp : Z -> Z -> Z
}.

(** [simple_CMP], on the fixed-size atoms. *)
Definition simple_CMP (l r : Z) : Z := if l <? r then -1 else if r <? l then 1 else 0.

Definition atom_bit : atomDesc := mk_atom "bit" 1 bit_nil bitFromStr bitToStr simple_CMP.
Definition atom_num (name : string) (tp : num_type) : atomDesc :=
  mk_atom name (ATOMsize tp) (num_nil tp) (numFromStr tp) (numToStr tp) simple_CMP.
Definition atom_bte : atomDesc := atom_num "bte" TYPE_bte.
Definition atom_sht : atomDesc := atom_num "sht" TYPE_sht.
Definition atom_int : atomDesc := atom_num "int" TYPE_int.
Definition atom_wrd : atomDesc := atom_num "wrd" TYPE_lng.
Definition atom_lng : atomDesc := atom_num "lng" TYPE_lng.
(** Identifiers are compared by [lngCmp], as signed numbers. *)
Definition atom_oid : atomDesc :=
  mk_atom "oid" 8 oid_nil OIDfromStr OIDtoStr (fun l r => simple_CMP (i64 l) (i64 r)).

(** The entries of the mtime module (synonyms of month names allowed). *)
Definition atom_date : atomDesc := mk_atom "date" 4 date_nil (date_fromstr true) date_tostr simple_CMP.
Definition atom_daytime : atomDesc :=
  mk_atom "daytime" 4 daytime_nil (daytime_fromstr true) daytime_tostr simple_CMP.

(** [s[0] == str_nil[0] && s[1] == str_nil[1]]. *)
Definition is_str_nil (s : cstr) : bool := (cat s 0 =? 128) && (cat s 1 =? 0).

Class AtomLaws (d : atomDesc) : Type := {
  (** The values of the type other than nil. *)
  atom_ok : Z -> Prop;
  (** A value is read back from its own text, whole. *)
  atom_read_print v : atom_ok v ->
    atomFromStr d (atomToStr d v) = (Z.of_nat (List.length (atomToStr d v)), v) /\
    (0 < List.length (atomToStr d v))%nat;
  (** The text of nil never reads as another value. *)
  atom_read_nil : snd (atomFromStr d (atomToStr d (atomNull d))) = atomNull d;
  (** No text is mistaken for the nil string. *)
  atom_text v : atom_ok v \/ v = atomNull d -> is_str_nil (atomToStr d v) = false;
  (** Comparison with nil tells nil. *)
  atom_cmp_nil v : atom_ok v -> atomCmp d v (atomNull d) <> 0;
  atom_cmp_self : atomCmp d (atomNull d) (atomNull d) = 0
}.

(** ** The instances *)

Lemma simple_CMP_eq l r : simple_CMP l r = 0 <-> l = r.
Proof. unfold simple_CMP. destruct (Z.ltb_spec l r), (Z.ltb_spec r l); lia. Qed.

Lemma text_of_digit t : isdigit (chead t) = true -> is_str_nil t = false.
Proof.
  destruct t as [|c t]; [discriminate|]. cbn [hd]. intros H. apply isdigit_range in H.
  unfold is_str_nil. cbn. rewrite (proj2 (Z.eqb_neq c 128)) by lia. reflexivity.
Qed.

Lemma fmt_d_text v rest : Z.abs v < 10 ^ 20 ->
  is_str_nil (fmt_d v ++ rest) = false /\ (0 < List.length (fmt_d v ++ rest))%nat.
Proof.
  intros H. unfold fmt_d. destruct (Z.ltb_spec v 0).
  - split; [reflexivity|cbn; lia].
  - destruct (dec_spec v ltac:(lia)) as (ds & -> & D & _ & NE & _).
    destruct ds as [|c ds]; [congruence|]. split; [|cbn; lia]. apply text_of_digit. inversion D. assumption.
Qed.

#[export] Instance atom_num_laws name tp : AtomLaws (atom_num name tp).
Proof.
  assert (num_nil tp < num_max tp /\ Z.abs (num_nil tp) < 10 ^ 20 /\ num_max tp < 10 ^ 20) as (B1 & B2 & B3)
    by (destruct tp; repeat split; reflexivity).
  refine {| atom_ok v := num_nil tp < v <= num_max tp |}; cbn [atom_num atomFromStr atomToStr atomNull atomCmp].
  - intros v Hv. pose proof (num_parse_print tp v [] ltac:(lia) (num_stops_nil tp)) as E. rewrite app_nil_r in E.
    split; [exact E|]. unfold numToStr. rewrite (proj2 (Z.eqb_neq v (num_nil tp))) by lia.
    destruct (fmt_d_text v [] ltac:(lia)) as [_ H]. rewrite app_nil_r in H. exact H.
  - pose proof (num_parse_print tp (num_nil tp) [] ltac:(lia) (num_stops_nil tp)) as E. rewrite app_nil_r in E.
    rewrite E. reflexivity.
  - intros v Hv. unfold numToStr. destruct (Z.eqb_spec v (num_nil tp)); [reflexivity|].
    destruct (fmt_d_text v [] ltac:(lia)) as [H _]. rewrite app_nil_r in H. exact H.
  - intros v Hv. rewrite simple_CMP_eq. lia.
  - apply simple_CMP_eq. reflexivity.
Defined.

#[export] Instance atom_bit_laws : AtomLaws atom_bit.
Proof.
  refine {| atom_ok v := v = 0 \/ v = 1 |}; cbn [atom_bit atomFromStr atomToStr atomNull atomCmp].
  - intros v [-> | ->]; (split; [reflexivity|apply Nat.ltb_lt; reflexivity]).
  - reflexivity.
  - intros v [[-> | ->] | ->]; reflexivity.
  - intros v [-> | ->]; discriminate.
  - reflexivity.
Defined.

#[export] Instance atom_oid_laws : AtomLaws atom_oid.
Proof.
  refine {| atom_ok v := 0 <= v < 2 ^ 63 |}; cbn [atom_oid atomFromStr atomToStr atomNull atomCmp].
  - intros v Hv. pose proof (oid_parse_print v [] Hv eq_refl) as E. rewrite app_nil_r in E. split; [exact E|].
    unfold OIDtoStr. rewrite (proj2 (Z.eqb_neq v oid_nil)) by (unfold oid_nil; lia).
    rewrite List.length_app. change (List.length (lit "@0")) with 2%nat. lia.
  - reflexivity.
  - intros v [Hv| ->]; [|reflexivity]. unfold OIDtoStr.
    rewrite (proj2 (Z.eqb_neq v oid_nil)) by (unfold oid_nil; lia).
    destruct (fmt_d_text v (lit "@0") ltac:(lia)) as [H _]. unfold fmt_d in H.
    rewrite (proj2 (Z.ltb_ge v 0)) in H by lia. exact H.
  - intros v Hv. rewrite simple_CMP_eq. unfold i64, swrap, oid_nil. intros E. revert E. divlia.
  - reflexivity.
Defined.

(** Dates other than a leap day before the common era, whose text [todate]
    refuses. *)
#[export] Instance atom_date_laws : AtomLaws atom_date.
Proof.
  refine {| atom_ok v := date_ok v /\ let '(d, m, y) := fromdate v in regular d m y |};
    cbn [atom_date atomFromStr atomToStr atomNull atomCmp].
  - intros v [Hv R]. destruct (fromdate v) as [[d m] y] eqn:E.
    pose proof (date_parse_print true v d m y [] Hv E R eq_refl) as P. rewrite app_nil_r in P. split; [exact P|].
    destruct (date_tostr_text v d m y Hv E R) as (D & _ & ->). unfold date_text. rewrite !List.length_app. cbn. lia.
  - reflexivity.
  - intros v [[Hv R]| ->]; [|reflexivity]. destruct (fromdate v) as [[d m] y] eqn:E.
    destruct (date_tostr_text v d m y Hv E R) as (D & _ & ->). unfold date_text.
    apply fmt_d_text. apply DATE_spec in D. unfold YEAR_MAX, YEAR_MIN in D. unfold YEAR_MAX in D. lia.
  - intros v [Hv _]. rewrite simple_CMP_eq. intros ->. revert Hv. vm_compute. intros [H _]. exact (H eq_refl).
  - reflexivity.
Defined.

#[export] Instance atom_daytime_laws : AtomLaws atom_daytime.
Proof.
  refine {| atom_ok v := daytime_ok v |}; cbn [atom_daytime atomFromStr atomToStr atomNull atomCmp].
  - intros v Hv. destruct (daytime_text_parse true v [] Hv eq_refl) as [P L]. rewrite app_nil_r in P.
    rewrite P, L. split; [reflexivity|lia].
  - reflexivity.
  - intros v [Hv| ->]; [|reflexivity]. pose proof (daytime_head v [] Hv) as H. rewrite app_nil_r in H.
    apply text_of_digit, H.
  - intros v Hv. rewrite simple_CMP_eq. unfold daytime_ok in Hv. unfold daytime_nil, int_nil. lia.
  - reflexivity.
Defined.

Lemma date_atom_ok v d m y : date_ok v -> fromdate v = (d, m, y) -> regular d m y -> @atom_ok atom_date _ v.
Proof. intros H E R. split; [exact H|]. rewrite E. exact R. Qed.
