(* ===== verification/Convert.v ===== *)
(** * Conversions of columns between types

    Models the conversions of src/src/gdk/gdk_calc.c: from any atom to its
    text and back ([convert_any_str], [convert_str_any]), between the integer
    types ([convertimpl_copy], [convertimpl_enlarge], [convertimpl_reduce],
    [convertimpl_oid_enlarge], [convert2bit_impl]), with the candidate lists
    of src/src/gdk/gdk_calc_private.h that restrict them to some rows, and the
    conversion of one value to and from text ([VARconvert]).  The conversions
    to and from text are proved against the contract [AtomLaws] of the atom.

    Rows are counted from 0 ([BUNfirst] is 0).  The count of nils returned and
    the result are paired; [None] is the return of [BUN_NONE].  Appending to a
    string column is taken to succeed. *)

From Stdlib Require Import ZArith Lia Bool List String Sorted.
Import ListNotations.
From S2P Require Import Prelude Calendar DateArith Atoms Codec.

Open Scope Z_scope.
Open Scope list_scope.

(** ** Candidate lists *)

(** The loop [for (i = start; i < end; i++)] with [CHECKCAND]: rows before
    the next candidate are skipped, the last candidate ends the loop.  [None]
    for the candidate pointer is [NULL]; when it reaches [candend] the loop is
    over.  Returns the value of [end], which the code uses afterwards. *)
Section CandLoop.
Context {S : Type} (candoff : Z) (skip : nat -> S -> S) (emit : nat -> S -> option S).

Fixpoint cand_loop (fuel i e : nat) (cand : option (list Z)) (s : S) : option (nat * S) :=
  match fuel with
  | O => Some (e, s)
  | Datatypes.S fuel =>
      if (i <? e)%nat then
        match cand with
        | None =>
            match emit i s with Some s => cand_loop fuel (i + 1) e None s | None => None end
        | Some [] => Some (e, s)
        | Some (c :: cs) =>
            if Z.of_nat i <? u64 (c - candoff) then cand_loop fuel (i + 1) e cand (skip i s)
            else
              let e := match cs with [] => (i + 1)%nat | _ => e end in
              match emit i s with Some s => cand_loop fuel (i + 1) e (Some cs) s | None => None end
        end
      else Some (e, s)
  end.

(** The rows in order, emitted or skipped. *)
Fixpoint steps (sel : nat -> bool) (rows : list nat) (s : S) : option S :=
  match rows with
  | [] => Some s
  | i :: rows =>
      if sel i then match emit i s with Some s => steps sel rows s | None => None end
      else steps sel rows (skip i s)
  end.
End CandLoop.

(** ** To and from text *)

Section Text.
Context (d : atomDesc).

Definition is_nil (v : Z) : bool := atomCmp d v (atomNull d) =? 0.

(** The source pointer, the nils counted, the column written so far. *)
Definition any_str_emit (_ : nat) (s : list Z * Z * list cstr) : option (list Z * Z * list cstr) :=
  let '(src, nils, out) := s in
  let v := hd 0 src in
  Some (tl src, if is_nil v then nils + 1 else nils, out ++ [atomToStr d v]).
Definition any_str_skip (_ : nat) (s : list Z * Z * list cstr) : list Z * Z * list cstr :=
  let '(src, nils, out) := s in (src, nils + 1, out ++ [str_nil]).

Definition convert_any_str (src : list Z) (cnt start end_ : nat) (cand : option (list Z)) (candoff : Z) :
    option (Z * list cstr) :=
  match cand_loop candoff any_str_skip any_str_emit (end_ - start) start end_ cand
          (src, 0, repeat str_nil start) with
  | Some (e, (_, nils, out)) => Some (nils, out ++ repeat str_nil (cnt - e))
  | None => None
  end.

(** One text: [None] aborts the conversion. *)
Definition parse_cell (abort_on_error : bool) (s : cstr) : option Z :=
  if is_str_nil s then Some (atomNull d)
  else
    let '(l, v) := atomFromStr d s in
    if l <=? 0 then if abort_on_error then None else Some (atomNull d) else Some v.

Definition str_any_emit (abort_on_error : bool) (texts : list cstr) (i : nat) (s : Z * list Z) :
    option (Z * list Z) :=
  let '(nils, out) := s in
  let t := nth i texts [] in
  match parse_cell abort_on_error t with
  | None => None
  | Some v =>
      Some (if is_str_nil t then nils + 1 else if is_nil v then nils + 1 else nils, out ++ [v])
  end.
Definition str_any_skip (_ : nat) (s : Z * list Z) : Z * list Z :=
  let '(nils, out) := s in (nils + 1, out ++ [atomNull d]).

Definition convert_str_any (texts : list cstr) (start end_ : nat) (cand : option (list Z)) (candoff : Z)
    (abort_on_error : bool) : option (Z * list Z) :=
  let cnt := List.length texts in
  match cand_loop candoff str_any_skip (str_any_emit abort_on_error texts) (end_ - start) start end_ cand
          (Z.of_nat start, repeat (atomNull d) start) with
  | Some (e, (nils, out)) =>
      Some (nils + Z.of_nat (cnt - e), out ++ repeat (atomNull d) (cnt - e))
  | None => None
  end.

(** [VARconvert] between a value that is neither void nor a string, and a
    string. *)
Definition VARconvert_to_str (v : Z) : cstr := if is_nil v then str_nil else atomToStr d v.
Definition VARconvert_from_str (s : cstr) : option Z :=
  if cstr_eqb s str_nil then Some (atomNull d)
  else let '(l, v) := atomFromStr d s in if l <=? 0 then None else Some v.
End Text.

(** ** Between integers *)

(** The fate of one value: converted, nil, or too large. *)
Inductive cell := Val (v : Z) | NilCell | Overflow.

Definition enlarge_cell (tp1 : num_type) (v : Z) : cell := if v =? num_nil tp1 then NilCell else Val v.
Definition reduce_cell (tp1 tp2 : num_type) (v : Z) : cell :=
  if v =? num_nil tp1 then NilCell
  else if (v <=? num_nil tp2) || (num_max tp2 <? v) then Overflow else Val v.
Definition oid_cell (tp1 : num_type) (v : Z) : cell :=
  if v =? num_nil tp1 then NilCell else if v <? 0 then Overflow else Val v.
Definition bit_cell (tp1 : num_type) (v : Z) : cell :=
  if v =? num_nil tp1 then NilCell else Val (if v =? 0 then 0 else 1).

(** The destination array: what has been written at each index. *)
Definition array := Z -> option Z.
Definition aset (m : array) (i v : Z) : array := fun j => if j =? i then Some v else m j.
Definition aempty : array := fun _ => None.

(** [CANDLOOP]. *)
Definition fill (m : array) (low high : nat) (nil : Z) : array :=
  fun j => if (Z.of_nat low <=? j) && (j <? Z.of_nat high) then Some nil else m j.

(** The conversions that advance [src] and [dst]: both pointers are [k] rows
    on, and [CHECKCAND] writes [dst[i]]. *)
Section Pointers.
Context (f : Z -> cell) (nil2 : Z) (abort_on_error : bool) (src : list Z).

Definition ptr_emit (_ : nat) (s : Z * Z * array) : option (Z * Z * array) :=
  let '(k, nils, dst) := s in
  match f (nth (Z.to_nat k) src 0) with
  | Val v => Some (k + 1, nils, aset dst k v)
  | NilCell => Some (k + 1, nils + 1, aset dst k nil2)
  | Overflow => if abort_on_error then None else Some (k + 1, nils + 1, aset dst k nil2)
  end.
Definition ptr_skip (i : nat) (s : Z * Z * array) : Z * Z * array :=
  let '(k, nils, dst) := s in (k, nils + 1, aset dst (k + Z.of_nat i) nil2).

(** The last [CANDLOOP] also starts from the advanced pointer. *)
Definition ptr_convert (cnt start end_ : nat) (cand : option (list Z)) (candoff : Z) : option (Z * array) :=
  match cand_loop candoff ptr_skip ptr_emit (end_ - start) start end_ cand
          (0, Z.of_nat start, fill aempty 0 start nil2) with
  | Some (e, (k, nils, dst)) =>
      Some (nils + Z.of_nat (cnt - e),
            fun j => if (k + Z.of_nat e <=? j) && (j <? k + Z.of_nat cnt) then Some nil2 else dst j)
  | None => None
  end.
End Pointers.

Definition convertimpl_enlarge (tp1 tp2 : num_type) := ptr_convert (enlarge_cell tp1) (num_nil tp2) false.
Definition convertimpl_reduce (tp1 tp2 : num_type) := ptr_convert (reduce_cell tp1 tp2) (num_nil tp2).
Definition convertimpl_oid_enlarge (tp1 : num_type) := ptr_convert (oid_cell tp1) oid_nil.
Definition convert2bit_impl (tp1 : num_type) := ptr_convert (bit_cell tp1) bit_nil false.

(** The copy, which indexes both arrays. *)
Section Copy.
Context (tp : num_type) (src : list Z).
Definition copy_emit (i : nat) (s : Z * array) : option (Z * array) :=
  let '(nils, dst) := s in
  let v := nth i src 0 in
  Some (if v =? num_nil tp then nils + 1 else nils, aset dst (Z.of_nat i) v).
Definition copy_skip (i : nat) (s : Z * array) : Z * array :=
  let '(nils, dst) := s in (nils + 1, aset dst (Z.of_nat i) (num_nil tp)).
Definition convertimpl_copy (cnt start end_ : nat) (cand : option (list Z)) (candoff : Z) : option (Z * array) :=
  match cand_loop candoff copy_skip copy_emit (end_ - start) start end_ cand
          (Z.of_nat start, fill aempty 0 start (num_nil tp)) with
  | Some (e, (nils, dst)) => Some (nils + Z.of_nat (cnt - e), fill dst e cnt (num_nil tp))
  | None => None
  end.
End Copy.

(** ** The loop *)

Section CandLoopSpec.
Context {S : Type} (candoff : Z) (skip : nat -> S -> S) (emit : nat -> S -> option S).
Abbreviation loop := (cand_loop candoff skip emit).

Lemma cand_loop_end fuel e s : loop fuel e e None s = Some (e, s).
Proof. destruct fuel; cbn [cand_loop]; [reflexivity|]. rewrite (proj2 (Nat.ltb_ge e e)) by lia. reflexivity. Qed.

(** Without candidates every row is emitted. *)
Lemma cand_loop_all e n : forall i s, (i + n = e)%nat ->
  loop n i e None s = option_map (pair e) (steps skip emit (fun _ => true) (seq i n) s).
Proof.
  induction n as [|n IH]; intros i s H; [reflexivity|]. cbn [cand_loop seq steps].
  rewrite (proj2 (Nat.ltb_lt i e)) by lia. destruct (emit i s) as [s'|]; [|reflexivity].
  rewrite Nat.add_1_r. apply IH. lia.
Qed.

Definition chosen (ps : list nat) (j : nat) : bool := existsb (Nat.eqb j) ps.

Lemma chosen_lt j p ps : (j < p)%nat -> Forall (lt p) ps -> chosen (p :: ps) j = false.
Proof.
  intros H F. unfold chosen. cbn [existsb]. rewrite (proj2 (Nat.eqb_neq j p)) by lia. cbn [orb].
  induction F as [|q ps Hq _ IH]; [reflexivity|]. cbn [existsb]. rewrite (proj2 (Nat.eqb_neq j q)) by lia. exact IH.
Qed.

(** Past the first candidate only the others matter. *)
Lemma steps_tail p ps rows : forall s, Forall (lt p) rows ->
  steps skip emit (chosen (p :: ps)) rows s = steps skip emit (chosen ps) rows s.
Proof.
  induction rows as [|i rows IH]; intros s F; [reflexivity|]. inversion F as [|? ? Hi F']. subst. cbn [steps].
  replace (chosen (p :: ps) i) with (chosen ps i)
    by (unfold chosen; cbn [existsb]; rewrite (proj2 (Nat.eqb_neq i p)) by lia; reflexivity).
  destruct (chosen ps i); [destruct (emit i s); [apply IH, F'|reflexivity]|apply IH, F'].
Qed.

Lemma last_lt p ps d : StronglySorted lt (p :: ps) -> (p <= last (p :: ps) d)%nat.
Proof.
  intros H. inversion H as [|? ? _ F]. subst. destruct ps as [|q ps]; [cbn; lia|].
  assert (In (last (q :: ps) d) (q :: ps)) as L.
  { destruct (exists_last (l := q :: ps) ltac:(discriminate)) as (x & y & ->). rewrite last_last. apply in_elt. }
  rewrite Forall_forall in F. specialize (F _ L). change (last (p :: q :: ps) d) with (last (q :: ps) d). lia.
Qed.

(** With candidates [ps], in order and within the rows, the loop ends after
    the last one. *)
Lemma cand_loop_chosen e : 0 <= candoff -> candoff + Z.of_nat e < 2 ^ 64 -> forall fuel i ps s,
  StronglySorted lt ps -> Forall (fun p => (i <= p < e)%nat) ps -> ps <> [] -> (e <= i + fuel)%nat ->
  loop fuel i e (Some (map (fun p => candoff + Z.of_nat p) ps)) s =
  option_map (pair (last ps 0%nat + 1)%nat)
    (steps skip emit (chosen ps) (seq i (last ps 0%nat + 1 - i)) s).
Proof.
  intros Hc He. induction fuel as [|fuel IH]; intros i [|p ps] s Ss F NE Hf; try contradiction.
  { inversion F. subst. lia. }
  inversion F as [|? ? Hp F']. subst. inversion Ss as [|? ? Ss' Fp]. subst.
  pose proof (last_lt p ps 0%nat Ss) as Hl.
  cbn [map cand_loop]. rewrite (proj2 (Nat.ltb_lt i e)) by lia.
  replace (candoff + Z.of_nat p - candoff) with (Z.of_nat p) by lia. unfold u64, uwrap.
  rewrite Z.mod_small by lia.
  replace (last (p :: ps) 0%nat + 1 - i)%nat with (Datatypes.S (last (p :: ps) 0%nat + 1 - (i + 1)))%nat by lia.
  cbn [seq steps]. replace (Datatypes.S i) with (i + 1)%nat by lia.
  destruct (Z.ltb_spec (Z.of_nat i) (Z.of_nat p)) as [L|L].
  - rewrite (chosen_lt i p ps) by (assumption || lia). apply (IH (i + 1)%nat (p :: ps)); [exact Ss| |discriminate|lia].
    constructor; [lia|]. rewrite Forall_forall in *. intros q Hq. specialize (F' q Hq). specialize (Fp q Hq). lia.
  - assert (i = p) as -> by lia.
    replace (chosen (p :: ps) p) with true by (unfold chosen; cbn [existsb]; rewrite Nat.eqb_refl; reflexivity).
    destruct (emit p s) as [s'|]; [|reflexivity].
    rewrite steps_tail by (apply Forall_forall; intros q Hq; apply in_seq in Hq; lia).
    destruct ps as [|q ps].
    + cbn [map last]. replace (p + 1 - (p + 1))%nat with 0%nat by lia. cbn [seq steps option_map].
      destruct fuel; cbn [cand_loop]; [reflexivity|]. rewrite (proj2 (Nat.ltb_ge (p + 1) (p + 1))) by lia. reflexivity.
    + apply (IH (p + 1)%nat (q :: ps)); [exact Ss'| |discriminate|lia].
      rewrite Forall_forall in *. intros r Hr. specialize (F' r Hr). specialize (Fp r Hr). lia.
Qed.
End CandLoopSpec.

(** The rows a conversion selects: all from [start] to [end], or the
    candidates among them. *)
Inductive selects (start end_ : nat) (candoff : Z) : option (list Z) -> (nat -> bool) -> nat -> Prop :=
| sel_all : (start <= end_)%nat -> selects start end_ candoff None (fun _ => true) end_
| sel_list ps : StronglySorted lt ps -> ps <> [] -> Forall (fun p => (start <= p < end_)%nat) ps ->
    0 <= candoff -> candoff + Z.of_nat end_ < 2 ^ 64 ->
    selects start end_ candoff (Some (map (fun p => candoff + Z.of_nat p) ps)) (chosen ps) (last ps 0%nat + 1).

Lemma cand_loop_selects {S} candoff skip (emit : nat -> S -> option S) start end_ cand sel e s :
  selects start end_ candoff cand sel e ->
  (start <= e <= end_)%nat /\
  cand_loop candoff skip emit (end_ - start) start end_ cand s =
  option_map (pair e) (steps skip emit sel (seq start (e - start)) s).
Proof.
  intros [H|ps Ss NE F Hc He].
  - split; [lia|]. apply cand_loop_all. lia.
  - split; [|apply cand_loop_chosen; (assumption || lia)].
    destruct ps as [|p ps]; [contradiction|]. pose proof (last_lt p ps 0%nat Ss).
    assert (In (last (p :: ps) 0%nat) (p :: ps)) as L.
    { destruct (exists_last (l := p :: ps) ltac:(discriminate)) as (x & y & ->). rewrite last_last. apply in_elt. }
    pose proof (proj1 (Forall_forall _ _) F _ L) as B1. inversion F as [|? ? B2 _]. subst. cbv beta in B1. lia.
Qed.

(** ** Text conversions *)

(** All rows or nothing. *)
Fixpoint rows_of (f : nat -> option Z) (rows : list nat) : option (list Z) :=
  match rows with
  | [] => Some []
  | i :: rows =>
      match f i, rows_of f rows with Some v, Some vs => Some (v :: vs) | _, _ => None end
  end.

Lemma rows_of_app f a b : rows_of f (a ++ b) =
  match rows_of f a, rows_of f b with Some u, Some v => Some (u ++ v) | _, _ => None end.
Proof.
  induction a as [|i a IH]; cbn [app rows_of]; [destruct (rows_of f b); reflexivity|].
  rewrite IH. destruct (f i), (rows_of f a), (rows_of f b); reflexivity.
Qed.

Lemma rows_of_const f v rows : (forall i, In i rows -> f i = Some v) -> rows_of f rows = Some (repeat v (List.length rows)).
Proof.
  induction rows as [|i rows IH]; intros H; [reflexivity|]. cbn [rows_of List.length repeat].
  rewrite H by (left; reflexivity). rewrite IH by (intros j Hj; apply H; right; exact Hj). reflexivity.
Qed.

Lemma rows_of_ext f g rows : (forall i, In i rows -> f i = g i) -> rows_of f rows = rows_of g rows.
Proof.
  induction rows as [|i rows IH]; intros H; [reflexivity|]. cbn [rows_of].
  rewrite H by (left; reflexivity). rewrite IH by (intros j Hj; apply H; right; exact Hj). reflexivity.
Qed.

Lemma seq_cut a b n : (a <= b <= n)%nat -> seq 0 n = seq 0 a ++ seq a (b - a) ++ seq b (n - b).
Proof.
  intros H. replace n with (a + ((b - a) + (n - b)))%nat at 1 by lia. rewrite seq_app, seq_app. cbn [Nat.add].
  replace (a + (b - a))%nat with b by lia. reflexivity.
Qed.

Section TextSpec.
Context (d : atomDesc) `{L : AtomLaws d}.

Definition count_nil (vs : list Z) : Z := Z.of_nat (List.length (filter (is_nil d) vs)).

Lemma count_nil_app a b : count_nil (a ++ b) = count_nil a + count_nil b.
Proof. unfold count_nil. rewrite filter_app, List.length_app. lia. Qed.

Lemma count_nil_cons v vs : count_nil (v :: vs) = (if is_nil d v then 1 else 0) + count_nil vs.
Proof. unfold count_nil. cbn [filter]. destruct (is_nil d v); cbn [List.length]; lia. Qed.

Lemma is_nil_null : is_nil d (atomNull d) = true.
Proof. unfold is_nil. rewrite atom_cmp_self. reflexivity. Qed.

Lemma count_nil_repeat n : count_nil (repeat (atomNull d) n) = Z.of_nat n.
Proof. induction n as [|n IH]; [reflexivity|]. cbn [repeat]. rewrite count_nil_cons, is_nil_null, IH. lia. Qed.

(** The value of a row: the text read, or nil. *)
Definition text_row (ab : bool) (texts : list cstr) (sel : nat -> bool) (i : nat) : option Z :=
  if sel i then parse_cell d ab (nth i texts []) else Some (atomNull d).

Lemma str_any_steps ab texts sel rows : forall nils out,
  steps (str_any_skip d) (str_any_emit d ab texts) sel rows (nils, out) =
  option_map (fun vs => (nils + count_nil vs, out ++ vs)) (rows_of (text_row ab texts sel) rows).
Proof.
  induction rows as [|i rows IH]; intros nils out; cbn [steps rows_of].
  { cbn [option_map]. unfold count_nil. cbn. rewrite Z.add_0_r, app_nil_r. reflexivity. }
  unfold text_row at 1. destruct (sel i).
  - cbn [str_any_emit]. destruct (parse_cell d ab (nth i texts [])) as [v|] eqn:P; [|reflexivity].
    rewrite IH. destruct (rows_of _ rows) as [vs|]; [|reflexivity]. cbn [option_map].
    rewrite count_nil_cons, <- app_assoc. do 2 f_equal.
    assert (is_str_nil (nth i texts []) = true -> is_nil d v = true) as Hn.
    { intros H. unfold parse_cell in P. rewrite H in P. injection P as <-. apply is_nil_null. }
    destruct (is_str_nil (nth i texts [])); [rewrite Hn by reflexivity; lia|destruct (is_nil d v); lia].
  - cbn [str_any_skip]. rewrite IH. destruct (rows_of _ rows) as [vs|]; [|reflexivity]. cbn [option_map].
    rewrite count_nil_cons, is_nil_null, <- app_assoc. do 2 f_equal. lia.
Qed.

Lemma str_any_outcome texts start end_ cand candoff ab sel e :
  selects start end_ candoff cand sel e -> (end_ <= List.length texts)%nat ->
  convert_str_any d texts start end_ cand candoff ab =
  option_map (fun vs => (count_nil vs, vs))
    (rows_of (text_row ab texts (fun i => Nat.leb start i && Nat.ltb i e && sel i)) (seq 0 (List.length texts))).
Proof.
  intros H He. destruct (cand_loop_selects candoff (str_any_skip d) (str_any_emit d ab texts) _ _ _ _ _
    (Z.of_nat start, repeat (atomNull d) start) H) as [B E].
  unfold convert_str_any. rewrite E, str_any_steps.
  rewrite (seq_cut start e (List.length texts)) by lia. rewrite !rows_of_app.
  rewrite (rows_of_const _ (atomNull d) (seq 0 start)).
  2:{ intros i Hi. apply in_seq in Hi. unfold text_row. rewrite (proj2 (Nat.leb_gt start i)) by lia. reflexivity. }
  rewrite (rows_of_const _ (atomNull d) (seq e _)).
  2:{ intros i Hi. apply in_seq in Hi. unfold text_row. rewrite (proj2 (Nat.ltb_ge i e)), andb_false_r by lia. reflexivity. }
  rewrite (rows_of_ext (text_row ab texts (fun i => Nat.leb start i && Nat.ltb i e && sel i)) (text_row ab texts sel)).
  2:{ intros i Hi. apply in_seq in Hi. unfold text_row.
      rewrite (proj2 (Nat.leb_le start i)), (proj2 (Nat.ltb_lt i e)) by lia. reflexivity. }
  rewrite !length_seq. destruct (rows_of _ (seq start _)) as [vs|]; [|reflexivity]. cbn [option_map].
  rewrite !count_nil_app, !count_nil_repeat, <- app_assoc. do 2 f_equal. lia.
Qed.

Lemma any_str_steps n : forall i src nils out, (n <= List.length src)%nat ->
  steps any_str_skip (any_str_emit d) (fun _ => true) (seq i n) (src, nils, out) =
  Some (skipn n src, nils + count_nil (firstn n src), out ++ map (atomToStr d) (firstn n src)).
Proof.
  induction n as [|n IH]; intros i src nils out H; cbn [seq steps].
  { cbn. unfold count_nil. cbn. rewrite Z.add_0_r, app_nil_r. reflexivity. }
  destruct src as [|v src]; [cbn in H; lia|]. cbn [any_str_emit hd tl firstn skipn map List.length] in *.
  rewrite IH by lia. rewrite count_nil_cons, <- app_assoc. cbn [app]. do 2 f_equal. f_equal.
  destruct (is_nil d v); lia.
Qed.

(** Whatever the range, the rows converted are the first ones. *)
Lemma any_str_range src cnt start end_ candoff : (start <= end_ <= cnt)%nat -> List.length src = cnt ->
  convert_any_str d src cnt start end_ None candoff =
  Some (count_nil (firstn (end_ - start) src),
        repeat str_nil start ++ map (atomToStr d) (firstn (end_ - start) src) ++ repeat str_nil (cnt - end_)).
Proof.
  intros H Hl. unfold convert_any_str.
  destruct (cand_loop_selects candoff any_str_skip (any_str_emit d) start end_ None (fun _ => true) end_
    (src, 0, repeat str_nil start) (sel_all start end_ candoff ltac:(lia))) as [_ ->].
  rewrite any_str_steps by lia. cbn [option_map]. rewrite <- app_assoc. reflexivity.
Qed.

Lemma parse_print v ab : atom_ok v -> parse_cell d ab (atomToStr d v) = Some v.
Proof.
  intros H. unfold parse_cell. rewrite atom_text by (left; exact H). destruct (atom_read_print v H) as [-> Hl].
  rewrite (proj2 (Z.leb_gt _ _)) by lia. reflexivity.
Qed.

Lemma parse_print_null : parse_cell d false (atomToStr d (atomNull d)) = Some (atomNull d).
Proof.
  unfold parse_cell. rewrite atom_text by (right; reflexivity).
  pose proof atom_read_nil as H. destruct (atomFromStr d (atomToStr d (atomNull d))) as [l v]. cbn [snd] in H.
  rewrite H. destruct (l <=? 0); reflexivity.
Qed.

(** For every atom that keeps the contract, a column converted to text and
    back is the same column, nils included, and both conversions count the
    same nils. *)
Theorem text_column_round_trip src candoff : Forall (fun v => atom_ok v \/ v = atomNull d) src ->
  let n := List.length src in
  exists nils texts, convert_any_str d src n 0 n None candoff = Some (nils, texts) /\
    convert_str_any d texts 0 n None candoff false = Some (nils, src).
Proof.
  intros F. cbv zeta. rewrite any_str_range by lia. rewrite Nat.sub_0_r, firstn_all, Nat.sub_diag. cbn [repeat app].
  rewrite app_nil_r. eexists _, _. split; [reflexivity|].
  assert (List.length (map (atomToStr d) src) = List.length src) as Ln by apply List.length_map.
  rewrite (str_any_outcome _ 0 (List.length src) None candoff false (fun _ => true) (List.length src))
    by (first [apply sel_all; lia|rewrite Ln; lia]).
  rewrite Ln. replace (rows_of _ (seq 0 (List.length src))) with (Some src); [reflexivity|]. symmetry. clear Ln.
  rewrite (rows_of_ext _ (fun i => nth_error src i)).
  - induction src as [|v src IH] using rev_ind; [reflexivity|]. apply Forall_app in F as [F _].
    rewrite List.length_app. cbn [List.length]. rewrite seq_app, rows_of_app. cbn [seq rows_of Nat.add].
    rewrite (rows_of_ext _ (fun i => nth_error src i)), (IH F).
    + rewrite nth_error_app2, Nat.sub_diag by lia. reflexivity.
    + intros i Hi. apply in_seq in Hi. apply nth_error_app1. lia.
  - intros i Hi. apply in_seq in Hi. unfold text_row. rewrite (proj2 (Nat.ltb_lt _ _)) by lia. cbn [Nat.leb andb].
    rewrite (nth_indep _ [] (atomToStr d 0)) by (rewrite List.length_map; lia). rewrite map_nth.
    rewrite (nth_error_nth' src 0) by lia.
    rewrite Forall_forall in F. destruct (F (nth i src 0)) as [Ok|Nl]; [apply nth_In; lia| |].
    + apply parse_print, Ok.
    + rewrite Nl. apply parse_print_null.
Qed.
End TextSpec.

Lemma rows_of_spec f n :
  match rows_of f (seq 0 n) with
  | Some vs => List.length vs = n /\ forall i, (i < n)%nat -> nth_error vs i = f i
  | None => exists i, (i < n)%nat /\ f i = None
  end.
Proof.
  induction n as [|n IH]; [split; [reflexivity|lia]|]. rewrite <- Nat.add_1_r, seq_app, rows_of_app.
  cbn [Nat.add seq rows_of].
  destruct (rows_of f (seq 0 n)) as [vs|].
  - destruct IH as [Ln IH]. destruct (f n) as [v|] eqn:E; [|exists n; split; [lia|exact E]].
    rewrite List.length_app. split; [cbn; lia|]. intros i Hi. destruct (Nat.lt_ge_cases i n).
    + rewrite nth_error_app1 by lia. apply IH. lia.
    + assert (i = n) as -> by lia. rewrite nth_error_app2 by lia. rewrite Ln, Nat.sub_diag, E. reflexivity.
  - destruct IH as (i & Hi & E). exists i. split; [lia|exact E].
Qed.

(** Reading a text column honours its candidate list: rows that are not
    selected become nil, the others get the value read from their text or nil,
    the nils counted are exactly those of the result, and with
    [abort_on_error] the conversion fails precisely when the text of a
    selected row cannot be read. *)
Theorem convert_str_any_rows d `{L : AtomLaws d} texts start end_ cand candoff ab sel e :
  selects start end_ candoff cand sel e -> (end_ <= List.length texts)%nat ->
  let selected i := Nat.leb start i && Nat.ltb i e && sel i in
  match convert_str_any d texts start end_ cand candoff ab with
  | Some (nils, out) =>
      List.length out = List.length texts /\ nils = count_nil d out /\
      forall i, (i < List.length texts)%nat ->
        nth_error out i = if selected i then parse_cell d ab (nth i texts []) else Some (atomNull d)
  | None =>
      ab = true /\ exists i, (i < List.length texts)%nat /\ selected i = true /\
        is_str_nil (nth i texts []) = false /\ fst (atomFromStr d (nth i texts [])) <= 0
  end.
Proof.
  intros H He. cbv zeta. rewrite (str_any_outcome d texts start end_ cand candoff ab sel e H He).
  pose proof (rows_of_spec (text_row d ab texts (fun i => Nat.leb start i && Nat.ltb i e && sel i)) (List.length texts)) as R.
  destruct (rows_of _ _) as [vs|]; cbn [option_map].
  - destruct R as [Ln R]. split; [exact Ln|]. split; [reflexivity|]. exact R.
  - destruct R as (i & Hi & E). unfold text_row in E. destruct (_ && sel i) eqn:S; [|discriminate E].
    unfold parse_cell in E. destruct (is_str_nil (nth i texts [])) eqn:N; [discriminate E|].
    destruct (atomFromStr d (nth i texts [])) as [l v] eqn:F. destruct (Z.leb_spec l 0) as [Hl|]; [|discriminate E].
    destruct ab; [|discriminate E]. split; [reflexivity|]. exists i. rewrite F. auto.
Qed.

Lemma text_column_round_trip_witness :
  exists nils texts, convert_any_str atom_date [0; date_nil; 734000] 3 0 3 None 0 = Some (nils, texts) /\
    convert_str_any atom_date texts 0 3 None 0 false = Some (nils, [0; date_nil; 734000]).
Proof.
  apply (text_column_round_trip atom_date [0; date_nil; 734000] 0).
  constructor; [left|constructor; [right; reflexivity|constructor; [left|constructor]]].
  - apply (date_atom_ok 0 1 1 (-1)); [vm_compute; split; discriminate|vm_compute; reflexivity|right; lia].
  - apply (date_atom_ok 734000 16 8 2009); [vm_compute; split; discriminate|vm_compute; reflexivity|left; lia].
Defined.

Lemma convert_str_any_rows_witness :
  convert_str_any atom_int [lit "7"; lit "x"; lit "8"] 0 3 (Some [100; 102]) 100 true = Some (1, [7; num_nil TYPE_int; 8]) /\
  nth_error [7; num_nil TYPE_int; 8] 1 = Some (num_nil TYPE_int).
Proof.
  assert (selects 0 3 100 (Some [100; 102]) (chosen [0%nat; 2%nat]) 3) as S.
  { apply (sel_list 0 3 100 [0%nat; 2%nat]); [repeat constructor|discriminate|repeat constructor; lia|lia|lia]. }
  pose proof (convert_str_any_rows atom_int [lit "7"; lit "x"; lit "8"] 0 3 _ 100 true _ 3 S (le_n 3)) as H.
  cbv zeta in H. change (convert_str_any atom_int _ 0 3 _ 100 true) with (Some (1, [7; num_nil TYPE_int; 8])) in H |- *.
  destruct H as (_ & _ & H). split; [reflexivity|]. exact (H 1%nat ltac:(cbn; lia)).
Defined.

Lemma Forall_filter_nil {A} (p : A -> bool) l : Forall (fun x => p x = false) l -> filter p l = [].
Proof. induction 1 as [|x l H _ IH]; [reflexivity|]. cbn [filter]. rewrite H. exact IH. Qed.

(** The conversion to text does not honour its range: whatever rows are
    selected, it converts the first ones of the column, so the row where the
    range starts gets the text of row 0; and the rows outside the range
    become nil without being counted, so that a result full of nils can be
    reported to have none. *)
Theorem convert_any_str_wrong_rows d `{L : AtomLaws d} src cnt start end_ candoff :
  (0 < start < end_)%nat -> (end_ <= cnt)%nat -> List.length src = cnt ->
  Forall (fun v => is_nil d v = false) src ->
  exists out, convert_any_str d src cnt start end_ None candoff = Some (0, out) /\
    nth_error out 0 = Some str_nil /\ nth_error out start = Some (atomToStr d (hd 0 src)).
Proof.
  intros Hs He Hl F. rewrite any_str_range by lia.
  assert (filter (is_nil d) (firstn (end_ - start) src) = []) as E.
  { apply (Forall_filter_nil (is_nil d)). apply Forall_forall. intros v Hv. rewrite Forall_forall in F. apply F.
    rewrite <- (firstn_skipn (end_ - start) src). apply in_or_app. left. exact Hv. }
  unfold count_nil. rewrite E. cbn [List.length Z.of_nat]. eexists. split; [reflexivity|]. split.
  - destruct start; [lia|]. reflexivity.
  - rewrite nth_error_app2 by (rewrite repeat_length; lia). rewrite repeat_length, Nat.sub_diag.
    destruct src as [|v src]; [cbn in Hl; lia|]. destruct (end_ - start)%nat eqn:D; [lia|]. reflexivity.
Qed.

Lemma convert_any_str_wrong_rows_witness : exists out,
  convert_any_str atom_int [10; 20; 30] 3 1 3 None 0 = Some (0, out) /\
  nth_error out 0 = Some str_nil /\ nth_error out 1 = Some (lit "10").
Proof.
  apply (convert_any_str_wrong_rows atom_int [10; 20; 30] 3 1 3 0); [lia|lia|reflexivity|].
  repeat constructor.
Defined.

(** Nil is treated differently by the two conversions to text: [VARconvert]
    gives the nil string, the conversion of a column an ordinary text, which
    is not the nil string. *)
Theorem nil_text_differs d `{L : AtomLaws d} candoff :
  VARconvert_to_str d (atomNull d) = str_nil /\
  exists t, convert_any_str d [atomNull d] 1 0 1 None candoff = Some (1, [t]) /\ t <> str_nil.
Proof.
  split; [unfold VARconvert_to_str; rewrite (is_nil_null d); reflexivity|].
  rewrite any_str_range by (cbn; lia). cbn [firstn Nat.sub]. unfold count_nil. cbn [filter]. rewrite (is_nil_null d).
  eexists. split; [reflexivity|]. intros E. pose proof (atom_text (atomNull d) (or_intror eq_refl)) as T.
  rewrite E in T. discriminate T.
Qed.

(** For dates that text cannot even be read back. *)
Lemma nil_date_text_fails :
  convert_any_str atom_date [date_nil] 1 0 1 None 0 = Some (1, [lit "nil"]) /\
  convert_str_any atom_date [lit "nil"] 0 1 None 0 true = None.
Proof. split; reflexivity. Qed.

(** ** Integer conversions *)

Definition cell_value (nil2 : Z) (c : cell) : Z := match c with Val v => v | _ => nil2 end.
Definition cell_nils (c : cell) : Z := match c with Val _ => 0 | _ => 1 end.
Definition sum_nils (f : Z -> cell) (l : list Z) : Z := fold_right (fun v n => cell_nils (f v) + n) 0 l.

Lemma skipn_nth (l : list Z) : forall k, (k < List.length l)%nat -> skipn k l = nth k l 0 :: skipn (S k) l.
Proof.
  induction l as [|x l IH]; intros [|k] H; cbn [List.length] in H; try lia; [reflexivity|].
  cbn [skipn nth]. rewrite IH by lia. reflexivity.
Qed.

Section PtrSpec.
Context (f : Z -> cell) (nil2 : Z) (ab : bool) (src : list Z).

Lemma aset_same m i v : aset m i v i = Some v.
Proof. unfold aset. rewrite Z.eqb_refl. reflexivity. Qed.
Lemma aset_other m i v j : j <> i -> aset m i v j = m j.
Proof. intros H. unfold aset. rewrite (proj2 (Z.eqb_neq j i)) by exact H. reflexivity. Qed.

(** Converting [n] rows from source row [k] on. *)
Lemma ptr_steps n : forall k i nils dst, (k + n <= List.length src)%nat ->
  match steps (ptr_skip nil2) (ptr_emit f nil2 ab src) (fun _ => true) (seq i n) (Z.of_nat k, nils, dst) with
  | Some (k', nils', dst') =>
      k' = Z.of_nat (k + n) /\ nils' = nils + sum_nils f (firstn n (skipn k src)) /\
      (forall j, dst' j = if (Z.of_nat k <=? j) && (j <? Z.of_nat (k + n))
                          then Some (cell_value nil2 (f (nth (Z.to_nat j) src 0))) else dst j) /\
      (ab = true -> forall v, In v (firstn n (skipn k src)) -> f v <> Overflow)
  | None => ab = true /\ exists v, In v (firstn n (skipn k src)) /\ f v = Overflow
  end.
Proof.
  induction n as [|n IH]; intros k i nils dst H; cbn [seq steps].
  { rewrite Nat.add_0_r. split; [reflexivity|]. split; [cbn; lia|]. split; [|intros _ v []].
    intros j. destruct (Z.leb_spec (Z.of_nat k) j), (Z.ltb_spec j (Z.of_nat k)); reflexivity || lia. }
  assert (exists v, nth k src 0 = v /\ skipn k src = v :: skipn (S k) src) as (v & Ev & Sv).
  { exists (nth k src 0). split; [reflexivity|]. apply skipn_nth. lia. }
  rewrite Sv. cbn [firstn]. cbn [ptr_emit]. rewrite Nat2Z.id, Ev.
  assert (forall nils' w, cell_value nil2 (f v) = w -> nils' = nils + cell_nils (f v) -> (ab = true -> f v <> Overflow) ->
    match steps (ptr_skip nil2) (ptr_emit f nil2 ab src) (fun _ => true) (seq (S i) n)
            (Z.of_nat k + 1, nils', aset dst (Z.of_nat k) w) with
    | Some (k', nils', dst') =>
        k' = Z.of_nat (k + S n) /\ nils' = nils + sum_nils f (v :: firstn n (skipn (S k) src)) /\
        (forall j, dst' j = if (Z.of_nat k <=? j) && (j <? Z.of_nat (k + S n))
                            then Some (cell_value nil2 (f (nth (Z.to_nat j) src 0))) else dst j) /\
        (ab = true -> forall u, In u (v :: firstn n (skipn (S k) src)) -> f u <> Overflow)
    | None => ab = true /\ exists u, In u (v :: firstn n (skipn (S k) src)) /\ f u = Overflow
    end) as Step.
  { intros nils' w Hw Hn Ho. replace (Z.of_nat k + 1) with (Z.of_nat (S k)) by lia.
    specialize (IH (S k) (S i) nils' (aset dst (Z.of_nat k) w) ltac:(lia)).
    destruct (steps _ _ _ _ _) as [[[k' n'] d']|].
    - destruct IH as (-> & -> & Hd & Hv). split; [lia|]. split; [cbn [sum_nils fold_right]; unfold sum_nils; lia|].
      split; [|intros Ha u [<-|Hu]; [apply Ho, Ha|exact (Hv Ha u Hu)]]. intros j. rewrite Hd.
      destruct (Z.eq_dec j (Z.of_nat k)) as [->|Nj].
      + rewrite (proj2 (Z.leb_gt (Z.of_nat (S k)) _)), (proj2 (Z.leb_le _ _)) by lia.
        rewrite (proj2 (Z.ltb_lt (Z.of_nat k) (Z.of_nat (k + S n)))) by lia. cbn [andb].
        rewrite aset_same, Nat2Z.id, Ev, Hw. reflexivity.
      + rewrite aset_other by exact Nj. replace (k + S n)%nat with (S k + n)%nat by lia.
        destruct (Z.leb_spec (Z.of_nat (S k)) j), (Z.leb_spec (Z.of_nat k) j); reflexivity || lia.
    - destruct IH as (Ha & u & Hu & E). split; [exact Ha|]. exists u. split; [right; exact Hu|exact E]. }
  destruct (f v) as [w| |] eqn:Fv.
  - apply Step; [reflexivity|cbn; lia|discriminate].
  - apply Step; [reflexivity|reflexivity|discriminate].
  - destruct ab.
    + split; [reflexivity|]. exists v. split; [left; reflexivity|exact Fv].
    + apply Step; [reflexivity|reflexivity|discriminate].
Qed.
End PtrSpec.

Lemma fill_none m v j : fill m 0 0 v j = m j.
Proof.
  unfold fill. change (Z.of_nat 0) with 0. destruct (Z.leb_spec 0 j), (Z.ltb_spec j 0); reflexivity || lia.
Qed.

(** The conversions over a whole column. *)
Lemma ptr_full f nil2 ab src candoff : let n := List.length src in
  match ptr_convert f nil2 ab src n 0 n None candoff with
  | Some (nils, dst) =>
      nils = sum_nils f src /\
      (forall j, dst j = if (0 <=? j) && (j <? Z.of_nat n)
                         then Some (cell_value nil2 (f (nth (Z.to_nat j) src 0))) else None) /\
      (ab = true -> forall v, In v src -> f v <> Overflow)
  | None => ab = true /\ exists v, In v src /\ f v = Overflow
  end.
Proof.
  cbv zeta. set (n := List.length src). unfold ptr_convert.
  destruct (cand_loop_selects candoff (ptr_skip nil2) (ptr_emit f nil2 ab src) 0 n None (fun _ => true) n
    (0, Z.of_nat 0, fill aempty 0 0 nil2) (sel_all 0 n candoff ltac:(lia))) as [_ ->].
  pose proof (ptr_steps f nil2 ab src n 0 0 (Z.of_nat 0) (fill aempty 0 0 nil2) (le_n _)) as P.
  change (skipn 0 src) with src in P. replace (firstn n src) with src in P by (symmetry; apply firstn_all).
  rewrite !Nat.sub_0_r. change (0 + n)%nat with n in P. change (Z.of_nat 0) with 0 in *.
  destruct (steps _ _ _ _ _) as [[[k nils] dst]|]; cbn [option_map]; [|exact P].
  destruct P as (-> & -> & Hd & Hv). split; [unfold n; lia|]. split; [|exact Hv].
  intros j. rewrite Hd, fill_none.
  destruct (Z.leb_spec 0 j), (Z.ltb_spec j (Z.of_nat n)), (Z.leb_spec (Z.of_nat n + Z.of_nat n) j),
    (Z.ltb_spec j (Z.of_nat n + Z.of_nat n)); cbn [andb]; reflexivity || lia.
Qed.

(** Narrowing an integer column is exact: every value that fits the target
    type is kept, nil stays nil, and the values that do not fit, the target's
    nil pattern among them, become nil or, with [abort_on_error], make the
    conversion fail; nothing is written outside the column. *)
Theorem convertimpl_reduce_exact tp1 tp2 ab src candoff : ATOMsize tp2 < ATOMsize tp1 ->
  let n := List.length src in
  let fits v := num_nil tp2 < v <= num_max tp2 in
  match convertimpl_reduce tp1 tp2 ab src n 0 n None candoff with
  | Some (nils, dst) =>
      (forall j, 0 <= j < Z.of_nat n -> let v := nth (Z.to_nat j) src 0 in
         (fits v -> dst j = Some v) /\ (~ fits v -> dst j = Some (num_nil tp2))) /\
      (forall j, ~ (0 <= j < Z.of_nat n) -> dst j = None) /\
      (nils = 0 <-> Forall fits src) /\
      (ab = true -> Forall (fun v => v = num_nil tp1 \/ fits v) src)
  | None => ab = true /\ exists v, In v src /\ v <> num_nil tp1 /\ ~ fits v
  end.
Proof.
  intros Hs. cbv zeta. assert (num_nil tp1 < num_nil tp2) as Hn by (destruct tp1, tp2; reflexivity || discriminate Hs).
  assert (forall v, (num_nil tp2 < v <= num_max tp2 -> reduce_cell tp1 tp2 v = Val v) /\
    (~ (num_nil tp2 < v <= num_max tp2) -> v <> num_nil tp1 -> reduce_cell tp1 tp2 v = Overflow) /\
    reduce_cell tp1 tp2 (num_nil tp1) = NilCell) as C.
  { intros v. unfold reduce_cell. rewrite Z.eqb_refl. split; [|split; [|reflexivity]].
    - intros H. rewrite (proj2 (Z.eqb_neq v _)), (proj2 (Z.leb_gt v _)), (proj2 (Z.ltb_ge _ v)) by lia. reflexivity.
    - intros H N. rewrite (proj2 (Z.eqb_neq v _)) by exact N.
      destruct (Z.leb_spec v (num_nil tp2)), (Z.ltb_spec (num_max tp2) v); reflexivity || lia. }
  assert (forall v, cell_value (num_nil tp2) (reduce_cell tp1 tp2 v) = num_nil tp2 /\ cell_nils (reduce_cell tp1 tp2 v) = 1
    \/ num_nil tp2 < v <= num_max tp2) as D.
  { intros v. destruct (C v) as (C1 & C2 & C3).
    destruct (Z_lt_le_dec (num_nil tp2) v), (Z_lt_le_dec (num_max tp2) v); try (right; lia);
      left; (destruct (Z.eq_dec v (num_nil tp1)) as [->|N]; [rewrite C3; split; reflexivity|]);
      (rewrite C2; [split; reflexivity|lia|exact N]). }
  unfold convertimpl_reduce. pose proof (ptr_full (reduce_cell tp1 tp2) (num_nil tp2) ab src candoff) as P. cbv zeta in P.
  destruct (ptr_convert _ _ _ _ _ _ _ _ _) as [[nils dst]|].
  - destruct P as (-> & Hd & Hv). split; [|split; [|split]].
    + intros j Hj. rewrite Hd, (proj2 (Z.leb_le 0 j)), (proj2 (Z.ltb_lt j _)) by lia. cbn [andb].
      destruct (C (nth (Z.to_nat j) src 0)) as (C1 & _). split; intros H; f_equal; [rewrite C1 by exact H; reflexivity|].
      destruct (D (nth (Z.to_nat j) src 0)) as [[D1 _]|]; [exact D1|contradiction].
    + intros j Hj. rewrite Hd. destruct (Z.leb_spec 0 j), (Z.ltb_spec j (Z.of_nat (List.length src))); reflexivity || lia.
    + clear Hd Hv. assert (forall l, 0 <= sum_nils (reduce_cell tp1 tp2) l /\
        (sum_nils (reduce_cell tp1 tp2) l = 0 <-> Forall (fun v => num_nil tp2 < v <= num_max tp2) l)) as Q.
      { induction l as [|v l [IH1 IH2]]; [split; [reflexivity|]; split; [constructor|reflexivity]|].
        unfold sum_nils in *. cbn [fold_right]. rewrite Forall_cons_iff, <- IH2.
        destruct (D v) as [[_ D2]|D2]; [rewrite D2|rewrite (proj1 (C v)) by exact D2; cbn [cell_nils]];
          split; try lia; split; try lia.
        intros [D3 _]. rewrite (proj1 (C v) D3) in D2. discriminate D2. }
      apply Q.
    + intros Ha. apply Forall_forall. intros v Hin. specialize (Hv Ha v Hin).
      destruct (Z.eq_dec v (num_nil tp1)) as [E|N]; [left; exact E|right].
      destruct (Z_lt_le_dec (num_nil tp2) v), (Z_lt_le_dec (num_max tp2) v); try lia;
        exfalso; apply Hv, (C v); lia.
  - destruct P as [-> (v & Hin & O)]. split; [reflexivity|]. exists v. split; [exact Hin|].
    split; intros H; [subst; rewrite (proj2 (proj2 (C 0))) in O|rewrite (proj1 (C v) H) in O]; discriminate O.
Qed.

Lemma convertimpl_reduce_exact_witness :
  match convertimpl_reduce TYPE_int TYPE_bte true [5; 128] 2 0 2 None 0 with
  | Some _ => False
  | None => exists v, In v [5; 128] /\ v <> num_nil TYPE_int /\ ~ (num_nil TYPE_bte < v <= num_max TYPE_bte)
  end.
Proof. exact (proj2 (convertimpl_reduce_exact TYPE_int TYPE_bte true [5; 128] 0 eq_refl)). Defined.

(** With a range that ends before the column, the conversions that advance
    their pointers write past the end of the result: the last of the nils
    meant for the rows after the range lands as many rows beyond the column as
    the range is long. *)
Theorem ptr_convert_overrun f nil2 ab src cnt start end_ candoff :
  (start < end_ < cnt)%nat -> List.length src = cnt ->
  forall nils dst, ptr_convert f nil2 ab src cnt start end_ None candoff = Some (nils, dst) ->
  dst (Z.of_nat (cnt + (end_ - start)) - 1) = Some nil2 /\
  dst 0 = Some (cell_value nil2 (f (nth 0 src 0))).
Proof.
  intros H Hl nils dst. unfold ptr_convert.
  destruct (cand_loop_selects candoff (ptr_skip nil2) (ptr_emit f nil2 ab src) start end_ None (fun _ => true) end_
    (0, Z.of_nat start, fill aempty 0 start nil2) (sel_all start end_ candoff ltac:(lia))) as [_ ->].
  pose proof (ptr_steps f nil2 ab src (end_ - start) 0 start (Z.of_nat start) (fill aempty 0 start nil2) ltac:(lia)) as P.
  change (Z.of_nat 0) with 0 in P.
  destruct (steps _ _ _ _ _) as [[[k n'] d']|]; cbn [option_map]; [|discriminate].
  destruct P as (-> & _ & Hd & _). intros E. injection E as _ <-. cbn [Nat.add]. split.
  - rewrite (proj2 (Z.leb_le _ _)), (proj2 (Z.ltb_lt _ _)) by lia. reflexivity.
  - rewrite (proj2 (Z.leb_gt _ _)) by lia. cbn [andb]. rewrite Hd.
    rewrite (proj2 (Z.leb_le 0 0)), (proj2 (Z.ltb_lt 0 _)) by lia. reflexivity.
Qed.

Lemma ptr_convert_overrun_witness : exists nils dst,
  convertimpl_enlarge TYPE_bte TYPE_int [1; 2; 3] 3 1 2 None 0 = Some (nils, dst) /\
  dst 3 = Some (num_nil TYPE_int) /\ dst 0 = Some 1.
Proof.
  eexists _, _. split; [reflexivity|].
  exact (ptr_convert_overrun (enlarge_cell TYPE_bte) (num_nil TYPE_int) false [1; 2; 3] 3 1 2 0 ltac:(lia) eq_refl _ _ eq_refl).
Defined.

Lemma filter_true_all {A} (l : list A) : filter (fun _ => true) l = l.
Proof. induction l as [|x l IH]; [reflexivity|]. cbn [filter]. rewrite IH. reflexivity. Qed.

(** What the copy writes at each row. *)
Lemma copy_steps tp src sel n : forall i nils dst,
  match steps (copy_skip tp) (copy_emit tp src) sel (seq i n) (nils, dst) with
  | Some (nils', dst') =>
      (forall j, dst' j = if (Z.of_nat i <=? j) && (j <? Z.of_nat (i + n))
         then Some (if sel (Z.to_nat j) then nth (Z.to_nat j) src 0 else num_nil tp) else dst j) /\
      nils' = nils + Z.of_nat (List.length (filter
        (fun j => (if sel j then nth j src 0 else num_nil tp) =? num_nil tp) (seq i n)))
  | None => False
  end.
Proof.
  induction n as [|n IH]; intros i nils dst; cbn [seq steps].
  { split; [|cbn; lia]. intros j. destruct (Z.leb_spec (Z.of_nat i) j), (Z.ltb_spec j (Z.of_nat (i + 0))); reflexivity || lia. }
  set (v := if sel i then nth i src 0 else num_nil tp).
  assert ((if sel i then match copy_emit tp src i (nils, dst) with
                         | Some s => steps (copy_skip tp) (copy_emit tp src) sel (seq (S i) n) s | None => None end
           else steps (copy_skip tp) (copy_emit tp src) sel (seq (S i) n) (copy_skip tp i (nils, dst))) =
          steps (copy_skip tp) (copy_emit tp src) sel (seq (S i) n)
            (if v =? num_nil tp then nils + 1 else nils, aset dst (Z.of_nat i) v)) as ->.
  { unfold v. destruct (sel i); [reflexivity|]. rewrite Z.eqb_refl. reflexivity. }
  specialize (IH (S i) (if v =? num_nil tp then nils + 1 else nils) (aset dst (Z.of_nat i) v)).
  destruct (steps _ _ _ _ _) as [[n' d']|]; [|exact IH]. destruct IH as [Hd ->]. split.
  - intros j. rewrite Hd. replace (i + S n)%nat with (S i + n)%nat by lia. destruct (Z.eq_dec j (Z.of_nat i)) as [->|N].
    + rewrite (proj2 (Z.leb_gt (Z.of_nat (S i)) _)), (proj2 (Z.leb_le _ _)) by lia. cbn [andb].
      rewrite (proj2 (Z.ltb_lt (Z.of_nat i) (Z.of_nat (S i + n)))) by lia. rewrite aset_same, Nat2Z.id. reflexivity.
    + rewrite aset_other by exact N. destruct (Z.leb_spec (Z.of_nat (S i)) j), (Z.leb_spec (Z.of_nat i) j); reflexivity || lia.
  - cbn [filter]. fold v. destruct (v =? num_nil tp); cbn [List.length]; lia.
Qed.

(** The copying conversion honours its range and candidates: selected rows
    keep their values, all others become nil, nothing is written outside the
    column, and the nils counted are those of the result. *)
Theorem convertimpl_copy_rows tp src start end_ cand candoff sel e :
  selects start end_ candoff cand sel e -> (end_ <= List.length src)%nat ->
  let n := List.length src in
  let row j := if Nat.leb start j && Nat.ltb j e && sel j then nth j src 0 else num_nil tp in
  exists dst, convertimpl_copy tp src n start end_ cand candoff =
    Some (Z.of_nat (List.length (filter (fun j => row j =? num_nil tp) (seq 0 n))), dst) /\
    forall j, dst j = if (0 <=? j) && (j <? Z.of_nat n) then Some (row (Z.to_nat j)) else None.
Proof.
  intros H He. cbv zeta. set (n := List.length src) in *.
  destruct (cand_loop_selects candoff (copy_skip tp) (copy_emit tp src) start end_ cand sel e
    (Z.of_nat start, fill aempty 0 start (num_nil tp)) H) as [B E].
  unfold convertimpl_copy. rewrite E.
  pose proof (copy_steps tp src sel (e - start) start (Z.of_nat start) (fill aempty 0 start (num_nil tp))) as P.
  destruct (steps _ _ _ _ _) as [[nils dst]|]; [|contradiction]. destruct P as [Hd ->]. cbn [option_map].
  eexists. split; [f_equal; f_equal|].
  - rewrite (seq_cut start e n) by lia. rewrite !filter_app, !List.length_app.
    rewrite (filter_ext_in (fun j => (if Nat.leb start j && Nat.ltb j e && sel j then nth j src 0 else num_nil tp) =? num_nil tp)
              (fun j => (if sel j then nth j src 0 else num_nil tp) =? num_nil tp) (seq start (e - start))).
    2:{ intros j Hj. apply in_seq in Hj. rewrite (proj2 (Nat.leb_le start j)), (proj2 (Nat.ltb_lt j e)) by lia. reflexivity. }
    rewrite (filter_ext_in _ (fun _ => true) (seq 0 start)), (filter_ext_in _ (fun _ => true) (seq e (n - e))),
      !filter_true_all, !length_seq; [lia| |].
    + intros j Hj. apply in_seq in Hj. rewrite (proj2 (Nat.ltb_ge j e)), andb_false_r by lia. apply Z.eqb_refl.
    + intros j Hj. apply in_seq in Hj. rewrite (proj2 (Nat.leb_gt start j)) by lia. apply Z.eqb_refl.
  - intros j. unfold fill at 1. rewrite Hd. unfold fill, aempty.
    replace (start + (e - start))%nat with e by lia.
    destruct (Z.leb_spec 0 j) as [Hj|Hj]; [|repeat (rewrite (proj2 (Z.leb_gt _ j)) by lia); reflexivity].
    rewrite !(proj2 (Z.leb_le (Z.of_nat 0) j)) by lia.
    destruct (Z.leb_spec (Z.of_nat e) j), (Z.ltb_spec j (Z.of_nat n)), (Z.leb_spec (Z.of_nat start) j),
      (Z.ltb_spec j (Z.of_nat e)), (Z.ltb_spec j (Z.of_nat start)); cbn [andb]; try lia; try reflexivity;
      destruct (Nat.leb_spec start (Z.to_nat j)), (Nat.ltb_spec (Z.to_nat j) e); try lia; reflexivity.
Qed.

Lemma convertimpl_copy_rows_witness : exists dst,
  convertimpl_copy TYPE_int [1; 2; 3; 4] 4 1 4 (Some [11; 13]) 10 = Some (2, dst) /\ dst 3 = Some 4.
Proof.
  assert (selects 1 4 10 (Some [11; 13]) (chosen [1%nat; 3%nat]) 4) as S.
  { apply (sel_list 1 4 10 [1%nat; 3%nat]); [repeat constructor|discriminate|repeat constructor; lia|lia|lia]. }
  destruct (convertimpl_copy_rows TYPE_int [1; 2; 3; 4] 1 4 _ 10 _ 4 S (le_n 4)) as (dst & E & D).
  exists dst. split; [exact E|]. rewrite D. reflexivity.
Defined.
