(* ===== verification/Sort.v ===== *)
(** * Sorting of columns

    gdk/gdk_qsort.c and gdk/gdk_qsort_impl.h: the quicksort of Bentley and
    McIlroy, instantiated once per storage type and direction, that sorts the
    array of head values and moves an optional array of tail values along.
    The file shows that it terminates within a logarithmic depth of nested
    calls, sorts, and only rearranges its range, head and tail together. *)

From Stdlib Require Import ZArith Lia Bool List Permutation FinFun.
Import ListNotations.
From S2P Require Import Prelude.

#[local] Open Scope nat_scope.

(** ** Rearrangements of an index range *)

Section Rearrangement.

(** [f] permutes the indices of [lo, hi) and fixes all others. *)
Record permutes (lo hi : nat) (f : nat -> nat) : Prop := {
  permutes_in : forall i, lo <= i < hi -> lo <= f i < hi;
  permutes_out : forall i, ~ lo <= i < hi -> f i = i;
  permutes_inj : forall i j, f i = f j -> i = j;
}.

(** The transposition of two indices. *)
Definition transpose (i j k : nat) : nat :=
  if k =? i then j else if k =? j then i else k.

Lemma transpose_permutes lo hi i j :
  lo <= i < hi -> lo <= j < hi -> permutes lo hi (transpose i j).
Proof.
  intros Hi Hj; split; unfold transpose; intros.
  - repeat case Nat.eqb_spec; lia.
  - repeat case Nat.eqb_spec; lia.
  - revert H; repeat case Nat.eqb_spec; lia.
Qed.

Lemma permutes_id lo hi : permutes lo hi (fun i => i).
Proof. split; auto. Qed.

Lemma permutes_comp lo hi f g :
  permutes lo hi f -> permutes lo hi g -> permutes lo hi (fun i => f (g i)).
Proof.
  intros [A B C] [A' B' C']; split; intros.
  - auto.
  - rewrite B' by assumption; auto.
  - auto.
Qed.

Lemma permutes_wider lo hi lo' hi' f :
  lo' <= lo -> hi <= hi' -> permutes lo hi f -> permutes lo' hi' f.
Proof.
  intros Hl Hh [A B C]; split; intros; [| |auto].
  - destruct (le_lt_dec lo i); [destruct (le_lt_dec hi i)|];
      try (rewrite B; lia). specialize (A i ltac:(lia)). lia.
  - apply B. lia.
Qed.

Lemma permutes_Permutation {B} (lo n : nat) f (m : nat -> B) :
  permutes lo (lo + n) f ->
  Permutation (map m (seq lo n)) (map (fun i => m (f i)) (seq lo n)).
Proof.
  intros [A C D]. rewrite <- (map_map f m). apply Permutation_map.
  apply NoDup_Permutation_bis.
  - apply seq_NoDup.
  - now rewrite length_map.
  - (* the images are inside, hence all of the range *)
    apply NoDup_length_incl.
    + apply Injective_map_NoDup; [exact D|apply seq_NoDup].
    + now rewrite length_map.
    + intros x. rewrite in_map_iff. intros (i & <- & Hi).
      apply in_seq. apply in_seq in Hi. apply A. lia.
Qed.

End Rearrangement.

(** ** The algorithm *)

Section Qsort.

(** Slots of the head and tail array. *)
Context {H T : Type}.

(** What [h], [t] point to when the sort is called, by index. *)
Record arrays := mkArrays { heads : nat -> H; tails : nat -> T }.

(** [buf->cmp], applied on the values two head slots stand for; the built-in
    comparison for the numeric instances. *)
Variable cmp : H -> H -> Z.
(** The [_rev] instances redefine [LE] and [LT]. *)
Variable rev : bool.
(** [t && buf->ts]. *)
Variable with_tail : bool.

Definition EQ (x y : H) : bool := (cmp x y =? 0)%Z.
Definition LE (x y : H) : bool := if rev then (cmp x y >=? 0)%Z else (cmp x y <=? 0)%Z.
Definition LT (x y : H) : bool := if rev then (cmp x y >? 0)%Z else (cmp x y <? 0)%Z.

Definition exchange {B} (m : nat -> B) (i j : nat) : nat -> B := fun k => m (transpose i j k).

Definition SWAP (s : arrays) (i j : nat) : arrays :=
  mkArrays (exchange (heads s) i j) (if with_tail then exchange (tails s) i j else tails s).

(** Swap [n] items starting at [i] and at [j]. *)
Fixpoint multi_SWAP (s : arrays) (i j n : nat) : arrays :=
  match n with
  | 0 => s
  | S n' => multi_SWAP (SWAP s i j) (S i) (S j) n'
  end.

Definition MED3 (s : arrays) (o a b c : nat) : nat :=
  let v i := heads s (o + i) in
  if LT (v a) (v b)
  then if LT (v b) (v c) then b else if LT (v a) (v c) then c else a
  else if LT (v c) (v b) then b else if LT (v a) (v c) then a else c.

(** The inner loop of the insertion sort, [o] being where [h] points. *)
Fixpoint insert_down (o a : nat) (s : arrays) : arrays :=
  match a with
  | 0 => s
  | S a' => if LE (heads s (o + a)) (heads s (o + a'))
            then insert_down o a' (SWAP s (o + a) (o + a')) else s
  end.

Definition insertion_sort (o n : nat) (s : arrays) : arrays :=
  fold_left (fun s b => insert_down o b s) (seq 1 (n - 1)) s.

(** The choice of the pivot's index. *)
Definition pivot (o n : nat) (s : arrays) : nat :=
  let b := n / 2 in
  if 7 <? n then
    let a := 0 in let c := n - 1 in
    if 40 <? n then
      let d := n / 8 in
      let a := MED3 s o a (a + d) (a + 2 * d) in
      let b := MED3 s o (b - d) b (b + d) in
      let c := MED3 s o (c - 2 * d) (c - d) c in
      MED3 s o a b c
    else MED3 s o a b c
  else b.

(** The variables of the partitioning loop. *)
Record flag := mkFlag { fa : nat; fb : nat; fc : nat; fd : nat; swap_cnt : bool; fs : arrays }.

(** First inner loop: [k] is [c + 1 - b], so [b <= c] is [0 < k]. *)
Fixpoint scan_low (o k : nat) (x : flag) : flag :=
  let '(mkFlag a b c d cnt s) := x in
  match k with
  | 0 => x
  | S k' =>
      if LE (heads s (o + b)) (heads s o) then
        if EQ (heads s (o + b)) (heads s o)
        then scan_low o k' (mkFlag (a + 1) (b + 1) c d true (SWAP s (o + a) (o + b)))
        else scan_low o k' (mkFlag a (b + 1) c d cnt s)
      else x
  end.

(** Second inner loop, [k] as above. *)
Fixpoint scan_high (o k : nat) (x : flag) : flag :=
  let '(mkFlag a b c d cnt s) := x in
  match k with
  | 0 => x
  | S k' =>
      if LE (heads s o) (heads s (o + c)) then
        if EQ (heads s o) (heads s (o + c))
        then scan_high o k' (mkFlag a b (c - 1) (d - 1) true (SWAP s (o + c) (o + d)))
        else scan_high o k' (mkFlag a b (c - 1) d cnt s)
      else x
  end.

Definition both_scans (o : nat) (x : flag) : flag :=
  let x := scan_low o (fc x + 1 - fb x) x in scan_high o (fc x + 1 - fb x) x.

(** [for (;;)]: [None] when the fuel runs out. *)
Fixpoint partition (fuel o : nat) (x : flag) : option flag :=
  match fuel with
  | 0 => None
  | S fuel' =>
      let '(mkFlag a b c d cnt s as x) := both_scans o x in
      if c <? b then Some x
      else partition fuel' o (mkFlag a (b + 1) (c - 1) d true (SWAP s (o + b) (o + c)))
  end.

(** Moves the values equal to the pivot from both ends to the middle. *)
Definition gather (o n : nat) (x : flag) : arrays :=
  let '(mkFlag a b c d cnt s) := x in
  let r := Nat.min a (b - a) in
  let s := multi_SWAP s o (o + (b - r)) r in
  let r := Nat.min (d - c) (n - d - 1) in
  multi_SWAP s (o + b) (o + (n - r)) r.

(** The body of [GDKqsort_impl] from label [loop] on: [call] is the recursive
    call, [goto] the jump back. *)
Definition qsort_step (call goto : nat -> nat -> arrays -> option arrays)
    (o n : nat) (s : arrays) : option arrays :=
  if n <? 7 then Some (insertion_sort o n s)
  else
    let b := pivot o n s in
    let s := if b =? 0 then s else SWAP s o (o + b) in
    match partition n o (mkFlag 1 1 (n - 1) (n - 1) false s) with
    | None => None
    | Some (mkFlag a b c d cnt s as x) =>
        if negb cnt && (n <? 1024) then Some (insertion_sort o n s)
        else
          let s := gather o n x in
          if b - a <? d - c then
            match (if 1 <? b - a then call o (b - a) s else Some s) with
            | None => None
            | Some s => if 1 <? d - c then goto (o + (n - (d - c))) (d - c) s else Some s
            end
          else
            match (if 1 <? d - c then call (o + (n - (d - c))) (d - c) s else Some s) with
            | None => None
            | Some s => if 1 <? b - a then goto o (b - a) s else Some s
            end
    end.

(** The jumps of one activation: [rounds] of them at most. *)
Fixpoint qsort_loop (call : nat -> nat -> arrays -> option arrays) (rounds o n : nat)
    (s : arrays) : option arrays :=
  match rounds with
  | 0 => None
  | S r => qsort_step call (qsort_loop call r) o n s
  end.

(** [depth] bounds the number of nested activations. *)
Fixpoint GDKqsort_impl (depth o n : nat) (s : arrays) : option arrays :=
  match depth with
  | 0 => None
  | S depth' => qsort_loop (GDKqsort_impl depth') (S n) o n s
  end.

End Qsort.

#[global] Arguments arrays : clear implicits.
#[global] Arguments flag : clear implicits.

(** ** Laws of a comparison *)

(** What a sort relies on: the sign of [cmp] is that of a total preorder. *)
Class Comparison {H : Type} (cmp : H -> H -> Z) : Prop := {
  cmp_opposite : forall x y, Z.sgn (cmp y x) = (- Z.sgn (cmp x y))%Z;
  cmp_trans : forall x y z, (cmp x y <= 0 -> cmp y z <= 0 -> cmp x z <= 0)%Z;
}.

Section Laws.

Context {H : Type} (cmp : H -> H -> Z) `{!Comparison cmp} (rev : bool).
#[local] Abbreviation LE := (LE cmp rev).
#[local] Abbreviation EQ := (EQ cmp).

Lemma LE_total x y : LE x y = false -> LE y x = true.
Proof.
  unfold Sort.LE. pose proof (cmp_opposite x y).
  destruct rev; intros E; lia.
Qed.

Lemma LE_refl x : LE x x = true.
Proof. destruct (LE x x) eqn:E; [reflexivity|]. now rewrite (LE_total x x E) in E. Qed.

Lemma LE_trans x y z : LE x y = true -> LE y z = true -> LE x z = true.
Proof.
  unfold Sort.LE. pose proof (cmp_opposite x y). pose proof (cmp_opposite y z).
  pose proof (cmp_opposite x z). pose proof (cmp_trans x y z). pose proof (cmp_trans z y x).
  destruct rev; intros; lia.
Qed.

Lemma EQ_LE x y : EQ x y = LE x y && LE y x.
Proof.
  unfold Sort.EQ, Sort.LE. pose proof (cmp_opposite x y).
  destruct rev; apply eq_true_iff_eq; rewrite andb_true_iff; lia.
Qed.

Lemma EQ_refl x : EQ x x = true.
Proof. now rewrite EQ_LE, LE_refl. Qed.

End Laws.

(** ** Rearranging head and tail together *)

Section Correctness.

Context {H T : Type} (cmp : H -> H -> Z) `{!Comparison cmp} (rev with_tail : bool).
#[local] Abbreviation arrays := (arrays H T).
#[local] Abbreviation LE := (LE cmp rev).
#[local] Abbreviation EQ := (EQ cmp).
#[local] Abbreviation SWAP := (SWAP (T:=T) with_tail).

(** [s'] is [s] with the slots of [lo, hi) permuted: heads and, when there is
    a tail, tails by the same permutation. *)
Definition rearranged (lo hi : nat) (s s' : arrays) : Prop :=
  exists f, permutes lo hi f
    /\ (forall i, heads s' i = heads s (f i))
    /\ (forall i, tails s' i = tails s (if with_tail then f i else i)).

Definition sorted_on (lo hi : nat) (s : arrays) : Prop :=
  forall i j, lo <= i -> i <= j -> j < hi -> LE (heads s i) (heads s j) = true.

Lemma rearranged_refl lo hi s : rearranged lo hi s s.
Proof.
  exists (fun i => i). split; [apply permutes_id|]. split; intros; [reflexivity|].
  now destruct with_tail.
Qed.

Lemma rearranged_trans lo hi s1 s2 s3 :
  rearranged lo hi s1 s2 -> rearranged lo hi s2 s3 -> rearranged lo hi s1 s3.
Proof.
  intros (f & Pf & Hf & Tf) (g & Pg & Hg & Tg).
  exists (fun i => f (g i)). split; [now apply permutes_comp|].
  split; intros; [now rewrite Hg, Hf|].
  rewrite Tg, Tf. now destruct with_tail.
Qed.

Lemma rearranged_wider lo hi lo' hi' s s' :
  rearranged lo hi s s' -> lo' <= lo -> hi <= hi' -> rearranged lo' hi' s s'.
Proof. intros (f & Pf & R) A B. exists f. eauto using permutes_wider. Qed.

Lemma rearranged_SWAP lo hi s i j :
  lo <= i < hi -> lo <= j < hi -> rearranged lo hi s (SWAP s i j).
Proof.
  intros A B. exists (transpose i j). split; [now apply transpose_permutes|].
  split; intros; [reflexivity|]. simpl. now destruct with_tail.
Qed.

Lemma rearranged_outside lo hi s s' i :
  rearranged lo hi s s' -> ~ lo <= i < hi -> heads s' i = heads s i.
Proof. intros (f & Pf & R & _) A. now rewrite R, (permutes_out _ _ _ Pf). Qed.

(** What holds of every head in the range keeps holding. *)
Lemma rearranged_forall lo hi s s' (P : H -> Prop) :
  rearranged lo hi s s' ->
  (forall i, lo <= i < hi -> P (heads s i)) -> forall i, lo <= i < hi -> P (heads s' i).
Proof. intros (f & Pf & R & _) A i Hi. rewrite R. apply A. now apply (permutes_in _ _ _ Pf). Qed.

Lemma heads_SWAP (s : arrays) i j k :
  heads (SWAP s i j) k =
  if k =? i then heads s j else if k =? j then heads s i else heads s k.
Proof.
  simpl. unfold exchange, transpose. now destruct (k =? i); destruct (k =? j).
Qed.

Hint Resolve rearranged_refl rearranged_SWAP : core.
#[local] Arguments Sort.SWAP : simpl never.

Lemma sorted_on_from o n s :
  (forall i j, i <= j -> j < n -> LE (heads s (o + i)) (heads s (o + j)) = true) ->
  sorted_on o (o + n) s.
Proof.
  intros A i j Hi Hij Hj. replace i with (o + (i - o)) by lia.
  replace j with (o + (j - o)) by lia. apply A; lia.
Qed.

(** ** Insertion sort *)

Lemma insert_down_rearranged o a b s :
  a < b -> rearranged o (o + b) s (insert_down cmp rev with_tail o a s).
Proof.
  revert s; induction a as [|a IH]; intros s L; simpl; [auto|].
  destruct Sort.LE; [|auto].
  eapply rearranged_trans; [|apply IH; lia]. apply rearranged_SWAP; lia.
Qed.

(** While the element at [a] moves down, all others are in order and it
    precedes those it has passed. *)
Lemma insert_down_sorted o a b s :
  a <= b ->
  (forall i j, i <= j <= b -> i <> a -> j <> a -> LE (heads s (o + i)) (heads s (o + j)) = true) ->
  (forall j, a < j <= b -> LE (heads s (o + a)) (heads s (o + j)) = true) ->
  sorted_on o (o + S b) (insert_down cmp rev with_tail o a s).
Proof.
  revert s; induction a as [|a IH]; intros s L Ho Hp; simpl.
  - apply sorted_on_from. intros i j Hij Hj.
    destruct (Nat.eq_dec i 0) as [->|]; [destruct (Nat.eq_dec j 0) as [->|]|].
    + now apply LE_refl.
    + apply Hp; lia.
    + apply Ho; lia.
  - destruct (LE (heads s (o + S a)) (heads s (o + a))) eqn:E.
    + apply IH; [lia|..].
      * intros i j Hij Hi Hj. rewrite !heads_SWAP.
        repeat case Nat.eqb_spec; intros; try (exfalso; lia); apply Ho; lia.
      * intros j Hj. rewrite !heads_SWAP.
        repeat case Nat.eqb_spec; intros; try (exfalso; lia); [exact E|apply Hp; lia].
    + assert (M : LE (heads s (o + a)) (heads s (o + S a)) = true) by now apply LE_total.
      apply sorted_on_from. intros i j Hij Hj.
      destruct (Nat.eq_dec i (S a)) as [->|], (Nat.eq_dec j (S a)) as [->|].
      * now apply LE_refl.
      * apply Hp; lia.
      * eapply LE_trans; [assumption| |exact M]. apply Ho; lia.
      * apply Ho; lia.
Qed.

Lemma insertion_sort_spec o n s :
  rearranged o (o + n) s (insertion_sort cmp rev with_tail o n s)
  /\ sorted_on o (o + n) (insertion_sort cmp rev with_tail o n s).
Proof.
  destruct n as [|n]; unfold insertion_sort; simpl.
  { split; [auto|]. intros i j; lia. }
  rewrite Nat.sub_0_r. induction n as [|n [IHr IHs]].
  { split; [auto|]. intros i j A B C. replace j with i by lia. now apply LE_refl. }
  rewrite seq_S, fold_left_app; cbn [fold_left]; change (1 + n) with (S n).
  set (s1 := fold_left _ _ s) in *. split.
  - apply rearranged_trans with s1; [eapply rearranged_wider; [exact IHr|lia..]|].
    apply insert_down_rearranged; lia.
  - apply insert_down_sorted; [lia| |lia].
    intros i j A B C. apply IHs; lia.
Qed.

(** ** Partitioning *)

Definition below (x p : H) : Prop := LE x p = true /\ LE p x = false.
Definition above (x p : H) : Prop := LE p x = true /\ LE x p = false.

(** The invariant of the Dutch flag loop over the [n] slots from [o] on, [p]
    being the value of the pivot, which stays at [o]. *)
Record parted (o n : nat) (p : H) (x : flag H T) : Prop := {
  parted_pivot : heads (fs x) o = p;
  parted_bounds : 1 <= fa x <= fb x /\ fb x <= fc x + 1 /\ fc x <= fd x < n;
  parted_eq_left : forall i, i < fa x -> EQ (heads (fs x) (o + i)) p = true;
  parted_low : forall i, fa x <= i < fb x -> below (heads (fs x) (o + i)) p;
  parted_high : forall i, fc x < i <= fd x -> above (heads (fs x) (o + i)) p;
  parted_eq_right : forall i, fd x < i < n -> EQ (heads (fs x) (o + i)) p = true;
}.

#[local] Ltac parted_case :=
  let i := fresh "i" in
  intros i ?; rewrite ?heads_SWAP;
  repeat case Nat.eqb_spec; intros; try (exfalso; lia);
  subst; repeat match goal with E : ?o + _ = ?o + _ |- _ => apply Nat.add_cancel_l in E; subst end.

Lemma EQ_split x y : EQ x y = true <-> LE x y = true /\ LE y x = true.
Proof. now rewrite (EQ_LE cmp rev), andb_true_iff. Qed.

Lemma parted_step_low o n p x :
  parted o n p x -> fb x <= fc x -> LE (heads (fs x) (o + fb x)) p = true ->
  parted o n p
    (if EQ (heads (fs x) (o + fb x)) p
     then mkFlag (fa x + 1) (fb x + 1) (fc x) (fd x) true
            (SWAP (fs x) (o + fa x) (o + fb x))
     else mkFlag (fa x) (fb x + 1) (fc x) (fd x) (swap_cnt x) (fs x)).
Proof.
  intros [P B L1 L2 L3 L4] C E. destruct x as [a b c d cnt s]; cbn in *.
  destruct (EQ (heads s (o + b)) p) eqn:Q; split; cbn; try lia; try assumption.
  - rewrite heads_SWAP. repeat case Nat.eqb_spec; intros; try lia. assumption.
  - parted_case; solve [auto | apply L1; lia].
  - parted_case; solve [auto | apply L2; lia].
  - parted_case; auto.
  - parted_case; auto.
  - intros i Hi. destruct (Nat.eq_dec i b) as [->|]; [|apply L2; lia].
    split; [exact E|]. destruct (LE p (heads s (o + b))) eqn:F; [|reflexivity].
    rewrite (proj2 (EQ_split _ _) (conj E F)) in Q. discriminate.
Qed.

Lemma parted_step_high o n p x :
  parted o n p x -> fb x <= fc x -> LE p (heads (fs x) (o + fc x)) = true ->
  parted o n p
    (if EQ p (heads (fs x) (o + fc x))
     then mkFlag (fa x) (fb x) (fc x - 1) (fd x - 1) true
            (SWAP (fs x) (o + fc x) (o + fd x))
     else mkFlag (fa x) (fb x) (fc x - 1) (fd x) (swap_cnt x) (fs x)).
Proof.
  intros [P B L1 L2 L3 L4] C E. destruct x as [a b c d cnt s]; cbn in *.
  destruct (EQ p (heads s (o + c))) eqn:Q; split; cbn; try lia; try assumption.
  - rewrite heads_SWAP. repeat case Nat.eqb_spec; intros; try lia. assumption.
  - parted_case; auto.
  - parted_case; auto.
  - parted_case; solve [auto | apply L3; lia].
  - rewrite EQ_split in Q. 
    parted_case; try solve [auto | apply L4; lia]; rewrite EQ_split;
      try replace d with c by lia; tauto.
  - intros i Hi. destruct (Nat.eq_dec i c) as [->|]; [|apply L3; lia].
    split; [exact E|]. destruct (LE (heads s (o + c)) p) eqn:F; [|reflexivity].
    rewrite (proj2 (EQ_split _ _) (conj E F)) in Q. discriminate.
Qed.

(** Neither scan moves anything out of place: the loops keep [parted], only
    rearrange the slots behind the pivot, and stop where they have to. *)
Definition scanned (o n : nat) (p : H) (x y : flag H T) : Prop :=
  parted o n p y /\ rearranged (o + 1) (o + n) (fs x) (fs y)
  /\ fb x <= fb y /\ fc y <= fc x.

Lemma scanned_trans o n p x y z : scanned o n p x y -> scanned o n p y z -> scanned o n p x z.
Proof.
  intros (P & R & A & B) (P' & R' & A' & B'). split; [assumption|].
  split; [eauto using rearranged_trans|lia].
Qed.

Lemma scanned_refl o n p x : parted o n p x -> scanned o n p x x.
Proof. intros P. split; [exact P|]. split; [apply rearranged_refl|lia]. Qed.

Lemma scan_low_spec o n p k x :
  parted o n p x -> k = fc x + 1 - fb x ->
  let y := scan_low cmp rev with_tail o k x in
  scanned o n p x y /\ fc y = fc x
  /\ (fb y <= fc y -> LE (heads (fs y) (o + fb y)) p = false).
Proof.
  revert x; induction k as [|k IH]; intros x P K; pose proof (parted_bounds _ _ _ _ P) as B.
  - destruct x; cbn in *. split; [now apply scanned_refl|]. split; [reflexivity|lia].
  - pose proof (parted_pivot _ _ _ _ P) as Q.
    destruct (LE (heads (fs x) (o + fb x)) p) eqn:E.
    + pose proof (parted_step_low o n p x P ltac:(lia) E) as S.
      destruct x as [a b c d cnt s]; cbn in *; subst p; rewrite E.
      destruct Sort.EQ; destruct (IH _ S ltac:(cbn; lia)) as (X & Y & Z); cbn in *.
      all: split; [|now split]; apply scanned_trans with (2 := X).
      all: split; [exact S|]; cbn; split; [|lia]; auto.
      apply rearranged_SWAP; lia.
    + destruct x as [a b c d cnt s]; cbn in *. rewrite Q, E.
      split; [now apply scanned_refl|]. now split.
Qed.

Lemma scan_high_spec o n p k x :
  parted o n p x -> k = fc x + 1 - fb x ->
  let y := scan_high cmp rev with_tail o k x in
  scanned o n p x y /\ fb y = fb x
  /\ (fb y <= fc y -> LE p (heads (fs y) (o + fc y)) = false
                    /\ heads (fs y) (o + fb y) = heads (fs x) (o + fb x)).
Proof.
  revert x; induction k as [|k IH]; intros x P K; pose proof (parted_bounds _ _ _ _ P) as B.
  - destruct x; cbn in *. split; [now apply scanned_refl|]. split; [reflexivity|lia].
  - pose proof (parted_pivot _ _ _ _ P) as Q.
    destruct (LE p (heads (fs x) (o + fc x))) eqn:E.
    + pose proof (parted_step_high o n p x P ltac:(lia) E) as S.
      destruct x as [a b c d cnt s]; cbn in *; subst p; rewrite E.
      destruct Sort.EQ; destruct (IH _ S ltac:(cbn; lia)) as (X & Y & Z); cbn in *.
      all: split; [apply scanned_trans with (2 := X);
                   split; [exact S|]; cbn; split; [auto|lia]|].
      * apply rearranged_SWAP; lia.
      * split; [assumption|]. intros L. destruct (Z L) as [Z1 Z2]. split; [assumption|].
        destruct X as (_ & _ & _ & X); cbn in X. rewrite Z2, heads_SWAP.
        repeat case Nat.eqb_spec; intros; try lia; reflexivity.
      * split; assumption.
    + destruct x as [a b c d cnt s]; cbn in *. rewrite Q, E.
      split; [now apply scanned_refl|]. now split.
Qed.

Lemma both_scans_spec o n p x :
  parted o n p x ->
  let y := both_scans cmp rev with_tail o x in
  scanned o n p x y
  /\ (fb y <= fc y -> LE p (heads (fs y) (o + fc y)) = false
                    /\ LE (heads (fs y) (o + fb y)) p = false).
Proof.
  intros P. unfold both_scans.
  destruct (scan_low_spec o n p _ x P eq_refl) as (X & _ & Z).
  set (y := scan_low _ _ _ _ _ x) in *.
  destruct (scan_high_spec o n p _ y (proj1 X) eq_refl) as (X' & Y' & Z').
  split; [eauto using scanned_trans|]. intros L. destruct (Z' L) as [A ->].
  split; [exact A|]. apply Z. destruct X' as (_ & _ & _ & X'). lia.
Qed.

(** Exchanging two values that are both on the wrong side. *)
Lemma parted_swap o n p x :
  parted o n p x -> fb x <= fc x ->
  LE p (heads (fs x) (o + fc x)) = false -> LE (heads (fs x) (o + fb x)) p = false ->
  fb x < fc x
  /\ scanned o n p x (mkFlag (fa x) (fb x + 1) (fc x - 1) (fd x) true
                            (SWAP (fs x) (o + fb x) (o + fc x))).
Proof.
  intros P L C D. pose proof (parted_bounds _ _ _ _ P) as B.
  assert (fb x < fc x).
  { destruct (Nat.eq_dec (fb x) (fc x)) as [F|]; [|lia].
    rewrite F in D. apply (LE_total cmp rev) in D. congruence. }
  split; [assumption|]. split; [|cbn; split; [apply rearranged_SWAP; lia|lia]].
  pose proof (LE_total cmp rev _ _ C) as C'. pose proof (LE_total cmp rev _ _ D) as D'.
  destruct P as [P _ L1 L2 L3 L4], x as [a b c d cnt s]; cbn in *.
  split; cbn; try lia.
  - rewrite heads_SWAP. repeat case Nat.eqb_spec; intros; try lia. assumption.
  - parted_case; auto.
  - parted_case; [now split|]. apply L2; lia.
  - parted_case; [now split|]. apply L3; lia.
  - parted_case; auto.
Qed.

Lemma partition_spec o n p fuel x :
  parted o n p x -> fc x + 1 - fb x < fuel ->
  exists y, partition cmp rev with_tail fuel o x = Some y
         /\ scanned o n p x y /\ fb y = fc y + 1.
Proof.
  revert x; induction fuel as [|fuel IH]; intros x P L; [lia|]. cbn [partition].
  destruct (both_scans_spec o n p x P) as (X & Z).
  set (y := both_scans _ _ _ _ _) in *. pose proof (parted_bounds _ _ _ _ (proj1 X)) as B.
  assert (E : y = mkFlag (fa y) (fb y) (fc y) (fd y) (swap_cnt y) (fs y)) by now destruct y.
  rewrite E. case Nat.ltb_spec; intros F.
  - rewrite <- E. exists y. split; [reflexivity|]. split; [assumption|lia].
  - destruct (Z F) as [Z1 Z2]. destruct (parted_swap o n p y (proj1 X) F Z1 Z2) as [G S].
    destruct (IH _ (proj1 S)) as (w & W & V & U).
    { cbn. destruct X as (_ & _ & X). lia. }
    exists w. split; [exact W|]. split; [|exact U]. eauto using scanned_trans.
Qed.

(** ** Gathering the values equal to the pivot *)

Lemma heads_multi_SWAP r (s : arrays) i j k :
  i + r <= j ->
  heads (multi_SWAP with_tail s i j r) k =
  if (i <=? k) && (k <? i + r) then heads s (j + (k - i))
  else if (j <=? k) && (k <? j + r) then heads s (i + (k - j))
  else heads s k.
Proof.
  revert s i j; induction r as [|r IH]; intros s i j L; cbn [multi_SWAP].
  - repeat case Nat.leb_spec; repeat case Nat.ltb_spec; intros; try lia; reflexivity.
  - rewrite IH by lia. rewrite !heads_SWAP.
    repeat case Nat.leb_spec; repeat case Nat.ltb_spec; cbn [andb]; intros;
      repeat case Nat.eqb_spec; intros; try lia; f_equal; lia.
Qed.

Lemma multi_SWAP_rearranged r s i j lo hi :
  lo <= i -> i + r <= hi -> lo <= j -> j + r <= hi ->
  rearranged lo hi s (multi_SWAP with_tail s i j r).
Proof.
  revert s i j; induction r as [|r IH]; intros s i j A B C D; cbn [multi_SWAP]; [auto|].
  eapply rearranged_trans; [|apply IH; lia]. apply rearranged_SWAP; lia.
Qed.

(** Swapping the ends of two adjacent zones exchanges the zones. *)
Lemma multi_SWAP_zones (s : arrays) x u v (P Q : H -> Prop) :
  (forall k, x <= k < x + u -> P (heads s k)) ->
  (forall k, x + u <= k < x + u + v -> Q (heads s k)) ->
  let r := Nat.min u v in
  let s' := multi_SWAP with_tail s x (x + u + v - r) r in
  (forall k, x <= k < x + v -> Q (heads s' k))
  /\ (forall k, x + v <= k < x + u + v -> P (heads s' k))
  /\ (forall k, ~ x <= k < x + u + v -> heads s' k = heads s k).
Proof.
  intros HP HQ r s'. subst s'.
  split; [|split]; intros k K; rewrite heads_multi_SWAP by lia;
    repeat case Nat.leb_spec; repeat case Nat.ltb_spec; cbn [andb]; intros;
    first [exfalso; lia | apply HP; lia | apply HQ; lia | reflexivity].
Qed.

(** Three zones: less than, equal to and greater than the pivot. *)
Record zones (o u v n : nat) (p : H) (s : arrays) : Prop := {
  zones_below : forall k, o <= k < o + u -> below (heads s k) p;
  zones_equal : forall k, o + u <= k < v -> EQ (heads s k) p = true;
  zones_above : forall k, v <= k < o + n -> above (heads s k) p;
}.

Lemma gather_spec o n p x :
  parted o n p x -> fb x = fc x + 1 ->
  rearranged o (o + n) (fs x) (gather with_tail o n x)
  /\ zones o (fb x - fa x) (o + (n - (fd x - fc x))) n p (gather with_tail o n x).
Proof.
  intros P E. pose proof (parted_bounds _ _ _ _ P) as B.
  destruct P as [_ _ L1 L2 L3 L4], x as [a b c d cnt s]; cbn in *.
  set (r1 := Nat.min a (b - a)). set (r2 := Nat.min (d - c) (n - d - 1)).
  set (s1 := multi_SWAP _ s _ _ _).
  split; [apply rearranged_trans with s1; apply multi_SWAP_rearranged; lia|].
  destruct (multi_SWAP_zones s o a (b - a) (fun y => EQ y p = true) (fun y => below y p))
    as (Z1 & Z2 & Z3).
  { intros k K. replace k with (o + (k - o)) by lia. apply L1; lia. }
  { intros k K. replace k with (o + (k - o)) by lia. apply L2; lia. }
  fold r1 in Z1, Z2, Z3. replace (o + a + (b - a) - r1) with (o + (b - r1)) in * by lia.
  fold s1 in Z1, Z2, Z3.
  destruct (multi_SWAP_zones s1 (o + b) (d - c) (n - d - 1)
              (fun y => above y p) (fun y => EQ y p = true)) as (Y1 & Y2 & Y3).
  { intros k K. rewrite Z3 by lia. replace k with (o + (k - o)) by lia. apply L3; lia. }
  { intros k K. rewrite Z3 by lia. replace k with (o + (k - o)) by lia. apply L4; lia. }
  fold r2 in Y1, Y2, Y3.
  replace (o + b + (d - c) + (n - d - 1) - r2) with (o + (n - r2)) in * by lia.
  split; intros k K.
  - rewrite Y3 by lia. apply Z1; lia.
  - destruct (le_lt_dec (o + b) k); [apply Y1; lia|]. rewrite Y3 by lia. apply Z2; lia.
  - apply Y2; lia.
Qed.

Lemma zones_sorted o u v n p s :
  zones o u v n p s -> o + u <= v <= o + n ->
  sorted_on o (o + u) s -> sorted_on v (o + n) s -> sorted_on o (o + n) s.
Proof.
  intros [Z1 Z2 Z3] B S1 S2 i j A C D.
  assert (up : forall k, o <= k < v -> LE (heads s k) p = true).
  { intros k K. destruct (le_lt_dec (o + u) k); [|now apply Z1; lia].
    now destruct (proj1 (EQ_split _ _) (Z2 k ltac:(lia))). }
  assert (down : forall k, o + u <= k < o + n -> LE p (heads s k) = true).
  { intros k K. destruct (le_lt_dec v k); [now apply Z3; lia|].
    now destruct (proj1 (EQ_split _ _) (Z2 k ltac:(lia))). }
  destruct (le_lt_dec v i); [apply S2; lia|].
  destruct (le_lt_dec (o + u) j); [|apply S1; lia].
  eapply LE_trans; [assumption|apply up; lia|apply down; lia].
Qed.

(** Sorting within a zone keeps the zones. *)
Lemma zones_rearranged o u v n p s s' lo hi :
  zones o u v n p s -> rearranged lo hi s s' ->
  (lo = o /\ hi = o + u) \/ (lo = v /\ hi = o + n) -> o + u <= v <= o + n ->
  zones o u v n p s'.
Proof.
  intros [Z1 Z2 Z3] R L B.
  assert (K : forall (P : H -> Prop) a b,
             (lo = a /\ hi = b) \/ hi <= a \/ b <= lo ->
             (forall k, a <= k < b -> P (heads s k)) -> forall k, a <= k < b -> P (heads s' k)).
  { intros P a b [[-> ->]|D] HP k Hk; [now apply (rearranged_forall a b s)|].
    rewrite (rearranged_outside _ _ _ _ k R) by lia. now apply HP. }
  split; [apply (K (fun y => below y p))|apply (K (fun y => EQ y p = true))
         |apply (K (fun y => above y p))]; try assumption; lia.
Qed.

(** ** The whole sort *)

(** [f] sorts the [n] slots from [o] on. *)
Definition sorts (f : nat -> nat -> arrays -> option arrays) (o n : nat) : Prop :=
  forall s, exists s', f o n s = Some s' /\ rearranged o (o + n) s s' /\ sorted_on o (o + n) s'.

Lemma sorted_on_short o n s : n <= 1 -> sorted_on o (o + n) s.
Proof. intros L i j A B C. replace j with i by lia. now apply LE_refl. Qed.

Lemma sorts_guarded f o n :
  (1 < n -> sorts f o n) -> sorts (fun o n s => if 1 <? n then f o n s else Some s) o n.
Proof.
  intros S s. case Nat.ltb_spec; intros L; [now apply S|].
  exists s. auto using sorted_on_short.
Qed.

(** Sorting the two outer zones one after the other, in either order. *)
Lemma sorts_both f g o u v n p s oa na ob nb :
  zones o u (o + v) n p s -> u <= v <= n ->
  (oa = o /\ na = u /\ ob = o + v /\ nb = n - v
   \/ ob = o /\ nb = u /\ oa = o + v /\ na = n - v) ->
  sorts f oa na -> sorts g ob nb ->
  exists s1 s2, f oa na s = Some s1 /\ g ob nb s1 = Some s2
    /\ rearranged o (o + n) s s2 /\ sorted_on o (o + n) s2.
Proof.
  intros Z B O F G. destruct (F s) as (s1 & E1 & R1 & S1).
  destruct (G s1) as (s2 & E2 & R2 & S2).
  assert (Z1 : zones o u (o + v) n p s1) by (eapply zones_rearranged; eauto; lia).
  assert (Z2 : zones o u (o + v) n p s2) by (eapply zones_rearranged; eauto; lia).
  assert (S1' : sorted_on oa (oa + na) s2).
  { intros i j A C D. rewrite !(rearranged_outside _ _ _ _ _ R2) by lia. now apply S1. }
  exists s1, s2. repeat split; try assumption.
  - eapply rearranged_trans; eapply rearranged_wider; eauto; lia.
  - apply zones_sorted with (u := u) (v := o + v) (p := p); try assumption; [lia|..].
    + destruct O as [O|O]; destruct O as (<- & <- & _); assumption.
    + replace (o + n) with (o + v + (n - v)) by lia.
      destruct O as [O|O]; destruct O as (_ & _ & <- & <-); assumption.
Qed.

Lemma pivot_in o n (s : arrays) : 7 <= n -> pivot cmp rev o n s < n.
Proof.
  intros L. pose proof (Nat.div_mod_eq n 2). pose proof (Nat.mod_upper_bound n 2 ltac:(lia)).
  pose proof (Nat.div_mod_eq n 8). pose proof (Nat.mod_upper_bound n 8 ltac:(lia)).
  assert (M : forall a b c k, a < k -> b < k -> c < k -> MED3 cmp rev s o a b c < k).
  { intros a b c k. unfold MED3. repeat destruct Sort.LT; auto. }
  unfold pivot. cbv zeta. case Nat.ltb_spec; intros; [case Nat.ltb_spec; intros|lia].
  - repeat apply M; lia.
  - repeat apply M; lia.
Qed.

(** Before the partitioning loop only the pivot is in place. *)
Lemma parted_start o n (s : arrays) :
  1 < n -> parted o n (heads s o) (mkFlag 1 1 (n - 1) (n - 1) false s).
Proof.
  intros L. split; cbn; try lia; [reflexivity|].
  intros i Hi. replace (o + i) with o by lia. now apply EQ_refl.
Qed.

Lemma qsort_step_spec call goto o n :
  (forall o' m, 1 < m -> 2 * m < n -> sorts call o' m) ->
  (forall o' m, m < n -> sorts goto o' m) ->
  sorts (qsort_step cmp rev with_tail call goto) o n.
Proof.
  intros C G s. unfold qsort_step. case Nat.ltb_spec; intros L.
  { eexists. split; [reflexivity|]. apply insertion_sort_spec. }
  cbv zeta. set (s0 := if _ =? 0 then _ else _).
  pose proof (pivot_in o n s L) as B.
  assert (R0 : rearranged o (o + n) s s0).
  { unfold s0. case Nat.eqb_spec; intros; [auto|]. apply rearranged_SWAP; lia. }
  destruct (partition_spec o n _ n _ (parted_start o n s0 ltac:(lia))) as (x & -> & X & E);
    [cbn; lia|].
  destruct X as (P & R & _). cbn [fs] in R.
  assert (R1 : rearranged o (o + n) s (fs x)).
  { eapply rearranged_trans; [exact R0|]. eapply rearranged_wider; [exact R|lia..]. }
  pose proof (parted_bounds _ _ _ _ P) as BB.
  destruct (gather_spec o n _ x P E) as (R2 & Z).
  destruct x as [a b c d cnt s1] eqn:Ex; cbn [fa fb fc fd fs] in *; rewrite <- Ex in *.
  destruct (negb cnt && (n <? 1024)).
  { eexists. split; [reflexivity|]. destruct (insertion_sort_spec o n s1).
    split; [eauto using rearranged_trans|assumption]. }
  clear Ex. set (s2 := gather _ _ _ _) in *.
  assert (R3 : rearranged o (o + n) s s2) by eauto using rearranged_trans.
  pose (c' := fun o n s => if 1 <? n then call o n s else Some s).
  pose (g' := fun o n s => if 1 <? n then goto o n s else Some s).
  case Nat.ltb_spec; intros D;
    [destruct (sorts_both c' g' o (b - a) (n - (d - c)) n _ s2
                 o (b - a) (o + (n - (d - c))) (d - c) Z) as (s3 & s4 & E3 & E4 & R4 & S4)
    |destruct (sorts_both c' g' o (b - a) (n - (d - c)) n _ s2
                 (o + (n - (d - c))) (d - c) o (b - a) Z) as (s3 & s4 & E3 & E4 & R4 & S4)].
  all: try (apply sorts_guarded; intros; first [apply C|apply G]); try lia.
  all: unfold c', g' in E3, E4; rewrite E3, E4; exists s4.
  all: split; [reflexivity|]; split; [eauto using rearranged_trans|assumption].
Qed.

Lemma qsort_loop_spec call N rounds o n :
  (forall o' m, 1 < m -> 2 * m < N -> sorts call o' m) -> n <= N -> n < rounds ->
  sorts (qsort_loop cmp rev with_tail call rounds) o n.
Proof.
  intros C. revert o n; induction rounds as [|r IH]; intros o n L F; [lia|].
  apply (qsort_step_spec call (qsort_loop cmp rev with_tail call r)).
  - intros o' m A B. apply C; lia.
  - intros o' m A. apply IH; lia.
Qed.

Lemma GDKqsort_impl_spec d o n :
  n < 2 ^ d -> sorts (GDKqsort_impl cmp rev with_tail (S d)) o n.
Proof.
  revert o n; induction d as [|d IH]; intros o n L.
  - apply (qsort_loop_spec _ n); [cbn in L; lia|lia..].
  - apply (qsort_loop_spec _ n); [|lia..].
    intros o' m A B. apply IH. cbn [Nat.pow] in L. lia.
Qed.

(** The nested activations that are enough for [n] values. *)
Definition qsort_depth (n : nat) : nat := Nat.log2 n + 2.

Lemma qsort_depth_enough o n : sorts (GDKqsort_impl cmp rev with_tail (qsort_depth n)) o n.
Proof.
  unfold qsort_depth. rewrite Nat.add_comm. apply (GDKqsort_impl_spec (S (Nat.log2 n))).
  destruct n; [cbn; lia|]. apply Nat.log2_spec. lia.
Qed.

(** The slots of a range, head and tail. *)
Definition rows (o n : nat) (s : arrays) : list (H * T) :=
  map (fun i => (heads s i, tails s i)) (seq o n).

Lemma rearranged_rows o n s s' :
  rearranged o (o + n) s s' ->
  (with_tail = true -> Permutation (rows o n s) (rows o n s'))
  /\ (with_tail = false -> Permutation (map (heads s) (seq o n)) (map (heads s') (seq o n))
                           /\ forall i, tails s' i = tails s i)
  /\ forall i, ~ o <= i < o + n -> heads s' i = heads s i /\ tails s' i = tails s i.
Proof.
  intros (f & P & R & Q). split; [|split].
  - intros W. rewrite W in Q.
    rewrite (permutes_Permutation o n f (fun i => (heads s i, tails s i)) P).
    unfold rows. apply Permutation_refl', map_ext. intros i. now rewrite R, Q.
  - intros W. rewrite W in Q. split; [|assumption].
    rewrite (permutes_Permutation o n f (heads s) P).
    apply Permutation_refl', map_ext. intros i. now rewrite R.
  - intros i Hi. rewrite R, Q. destruct with_tail; now rewrite ?(permutes_out _ _ _ P i Hi).
Qed.

End Correctness.

(** ** The interface functions *)

Inductive storage := ST_bte | ST_sht | ST_int | ST_lng | ST_flt | ST_dbl | ST_other.

Section Interface.

Context {T V : Type}.

(** A head slot is a [Z]: the integer stored there, the offset into the heap
    or the bits of whatever else the type stores. *)
Variable atomCmp : V -> V -> Z.
(** The comparison of the machine for floating point slots. *)
Variable fltCmp : Z -> Z -> Z.
(** The value at an offset from [base], and the value in a slot. *)
Variables (at_base at_slot : Z -> V).

Definition num_cmp (x y : Z) : Z :=
  match (x ?= y)%Z with Lt => -1 | Eq => 0 | Gt => 1 end.

(** The comparison of the instance that the interface functions call. *)
Definition instance_cmp (varsized base : bool) (st : storage) : Z -> Z -> Z :=
  if varsized then fun x y => atomCmp (at_base x) (at_base y)
  else
    match (if base then ST_other else st) with
    | ST_bte | ST_sht | ST_int | ST_lng => num_cmp
    | ST_flt | ST_dbl => fltCmp
    | ST_other => fun x y => if base then atomCmp (at_base x) (at_base y)
                             else atomCmp (at_slot x) (at_slot y)
    end.

Definition GDKqsort (varsized base : bool) (st : storage) (t : bool) (ts : Z) (n : nat)
    (s : arrays Z T) : option (arrays Z T) :=
  GDKqsort_impl (instance_cmp varsized base st) false (t && negb (ts =? 0)%Z) (qsort_depth n) 0 n s.

Definition GDKqsort_rev (varsized base : bool) (st : storage) (t : bool) (ts : Z) (n : nat)
    (s : arrays Z T) : option (arrays Z T) :=
  GDKqsort_impl (instance_cmp varsized base st) true (t && negb (ts =? 0)%Z) (qsort_depth n) 0 n s.

#[local] Open Scope Z_scope.

#[export] Instance num_cmp_Comparison : Comparison num_cmp.
Proof.
  split; unfold num_cmp; intros.
  - case Z.compare_spec; case Z.compare_spec; lia.
  - revert H H0. repeat case Z.compare_spec; lia.
Qed.

(** Comparing values through a function of the slots. *)
Lemma Comparison_via {A B} (c : B -> B -> Z) (f : A -> B) :
  Comparison c -> Comparison (fun x y => c (f x) (f y)).
Proof.
  intros L. split; intros; [apply cmp_opposite|eapply cmp_trans; eassumption].
Qed.

Lemma instance_cmp_Comparison varsized base st :
  Comparison atomCmp -> Comparison fltCmp -> Comparison (instance_cmp varsized base st).
Proof.
  intros A F. unfold instance_cmp.
  destruct varsized; [now apply Comparison_via|].
  destruct base; [now apply Comparison_via|].
  destruct st; try apply num_cmp_Comparison; try assumption. now apply Comparison_via.
Qed.

End Interface.

(** ** What sorting promises *)

(** Head and tail of [s'] are those of [s] in ascending ([rev = false]) or
    descending order of the heads. *)
Definition sorted_copy {H T} (cmp : H -> H -> Z) (rev with_tail : bool) (n : nat)
    (s s' : arrays H T) : Prop :=
  (forall i j, i <= j < n ->
     if rev then (cmp (heads s' i) (heads s' j) >= 0)%Z
     else (cmp (heads s' i) (heads s' j) <= 0)%Z)
  /\ (with_tail = true -> Permutation (rows 0 n s) (rows 0 n s'))
  /\ (with_tail = false -> Permutation (map (heads s) (seq 0 n)) (map (heads s') (seq 0 n))
                           /\ forall i, tails s' i = tails s i)
  /\ forall i, n <= i -> heads s' i = heads s i /\ tails s' i = tails s i.

Lemma impl_sorted_copy {H T} (cmp : H -> H -> Z) `{!Comparison cmp} rev with_tail n
    (s : arrays H T) :
  exists s', GDKqsort_impl cmp rev with_tail (qsort_depth n) 0 n s = Some s'
    /\ sorted_copy cmp rev with_tail n s s'.
Proof.
  destruct (qsort_depth_enough cmp rev with_tail 0 n s) as (s' & E & R & S).
  exists s'. split; [exact E|].
  destruct (rearranged_rows with_tail 0 n s s' R) as (A & B & C).
  split; [|split; [exact A|split; [exact B|]]].
  - intros i j L. specialize (S i j ltac:(lia) ltac:(lia) ltac:(lia)). unfold LE in S.
    destruct rev; lia.
  - intros i L. apply C. lia.
Qed.

Lemma sorted_copy_heads {H T} (cmp : H -> H -> Z) rev w n (s s' : arrays H T) :
  sorted_copy cmp rev w n s s' ->
  Permutation (map (heads s) (seq 0 n)) (map (heads s') (seq 0 n)).
Proof.
  intros (_ & A & B & _). destruct w; [|now apply B].
  specialize (A eq_refl). apply (Permutation_map fst) in A. unfold rows in A.
  now rewrite !map_map in A.
Qed.

(** C4: [GDKqsort] and [GDKqsort_rev] sort: for every type, whether its values
    are in the slots or in a heap, and every number of values, they return;
    the heads are then in ascending (descending) order, every tail value is
    still next to its head value, and nothing behind the [n] slots has changed;
    without a tail array nothing is written to it. *)
Theorem GDKqsort_sorts {T V} (atomCmp : V -> V -> Z) (fltCmp : Z -> Z -> Z) at_base at_slot
    varsized base st t ts n (s : arrays Z T)
    (A : Comparison atomCmp) (F : Comparison fltCmp) :
  let cmp := instance_cmp atomCmp fltCmp at_base at_slot varsized base st in
  let moves := t && negb (ts =? 0)%Z in
  (exists s', GDKqsort atomCmp fltCmp at_base at_slot varsized base st t ts n s = Some s'
     /\ sorted_copy cmp false moves n s s')
  /\ (exists s', GDKqsort_rev atomCmp fltCmp at_base at_slot varsized base st t ts n s = Some s'
     /\ sorted_copy cmp true moves n s s').
Proof.
  pose proof (instance_cmp_Comparison atomCmp fltCmp at_base at_slot varsized base st A F).
  split; now apply impl_sorted_copy.
Qed.

(** Twelve integers with their positions as tail. *)
Definition sample_arrays : arrays Z nat :=
  mkArrays (fun i => nth i [5; 3; 9; 1; 3; 8; 7; 3; 2; 6; 3; 4]%Z 0%Z) (fun i => i).

Lemma GDKqsort_sorts_witness :
  option_map (rows 0 12) (GDKqsort num_cmp num_cmp (fun x => x) (fun x => x)
                            false false ST_int true 8 12 sample_arrays)
  = Some (combine [1; 2; 3; 3; 3; 3; 4; 5; 6; 7; 8; 9]%Z [3; 8; 10; 4; 7; 1; 11; 0; 9; 6; 5; 2])
  /\ exists s', GDKqsort num_cmp num_cmp (fun x => x) (fun x => x)
                  false false ST_int true 8 12 sample_arrays = Some s'
       /\ sorted_copy num_cmp false true 12 sample_arrays s'.
Proof.
  split; [vm_compute; reflexivity|].
  exact (proj1 (GDKqsort_sorts num_cmp num_cmp (fun x => x) (fun x => x)
                  false false ST_int true 8 12 sample_arrays _ _)).
Defined.

(** [GDKqsort_impl] recurses on the smaller part and jumps back for the
    larger one, so fewer than [2 ^ d] values need at most [d + 1] nested
    activations, whatever their order, direction and position. *)
Theorem GDKqsort_impl_depth {H T} (cmp : H -> H -> Z) rev with_tail d o n (s : arrays H T)
    (C : Comparison cmp) (L : n < 2 ^ d) :
  exists s', GDKqsort_impl cmp rev with_tail (S d) o n s = Some s'.
Proof. destruct (GDKqsort_impl_spec cmp rev with_tail d o n L s) as (s' & E & _). eauto. Qed.

Lemma GDKqsort_impl_depth_witness :
  exists s', GDKqsort_impl num_cmp false true 5 0 12 sample_arrays = Some s'.
Proof. apply (GDKqsort_impl_depth num_cmp false true 4 0 12 sample_arrays _). cbn; lia. Defined.
