(* ===== verification/StableList.v ===== *)
(** * Stable rearrangements of a list

    What a stable sort promises, for a strict weak order given as a test: the
    result is sorted, and elements that compare as equal stay in their order.
    There is exactly one such list ([stable_unique]), the one that insertion
    computes ([isort]). *)

From Stdlib Require Import ZArith Lia Bool List Permutation Sorted Setoid Morphisms.
Import ListNotations.
From S2P Require Import Prelude.

#[local] Open Scope list_scope.

(** A test like [<]: irreflexive and transitive, and so is "not comparable". *)
Class WeakOrder {A : Type} (lt : A -> A -> bool) : Prop := {
  lt_asym : forall x y, lt x y = true -> lt y x = false;
  lt_cotrans : forall x y z, lt x z = true -> lt x y = true \/ lt y z = true;
}.

Section Stable.

Context {A : Type} (lt : A -> A -> bool).

Definition le (x y : A) : Prop := lt y x = false.
Definition eqv (x y : A) : bool := negb (lt x y) && negb (lt y x).
Definition sorted (l : list A) : Prop := StronglySorted le l.

(** Every class of equal elements has the same sequence in both lists. *)
Definition stable (l l' : list A) : Prop := forall x, filter (eqv x) l = filter (eqv x) l'.

Fixpoint insert (x : A) (l : list A) : list A :=
  match l with
  | [] => [x]
  | y :: l' => if lt y x then y :: insert x l' else x :: l
  end.

(** The reference: insertion sort. *)
Definition isort (l : list A) : list A := fold_right insert [] l.

#[export] Instance stable_Equivalence : Equivalence stable.
Proof. split; [intros l x|intros l l' S x|intros l l' l'' S S' x]; congruence. Qed.

#[export] Instance app_stable : Proper (stable ==> stable ==> stable) (@app A).
Proof. intros l l' L m m' M x. now rewrite !filter_app, L, M. Qed.

Lemma stable_app_inv_head l m m' : stable (l ++ m) (l ++ m') -> stable m m'.
Proof. intros S x. specialize (S x). rewrite !filter_app in S. now apply app_inv_head in S. Qed.

Lemma sorted_app l m : sorted (l ++ m) <-> sorted l /\ sorted m /\ forall x y, In x l -> In y m -> le x y.
Proof.
  induction l as [|a l IH]; cbn [app].
  - split; [intros S; repeat split; [constructor|exact S|intros x y []]|tauto].
  - split.
    + intros S. apply StronglySorted_inv in S as [S F]. apply IH in S as (S1 & S2 & S3).
      rewrite Forall_forall in F. split; [|split; [exact S2|]].
      * constructor; [exact S1|]. apply Forall_forall. intros x I. apply F, in_or_app. now left.
      * intros x y [<-|I] J; [apply F, in_or_app; now right|auto].
    + intros (S1 & S2 & S3). apply StronglySorted_inv in S1 as [S1 F]. constructor.
      * apply IH. split; [exact S1|]. split; [exact S2|]. intros x y I J. apply S3; [now right|exact J].
      * apply Forall_forall. intros x I. apply in_app_or in I as [I|I].
        -- rewrite Forall_forall in F. now apply F.
        -- apply S3; [now left|exact I].
Qed.

Lemma filter_nil (f : A -> bool) l : (forall x, In x l -> f x = false) -> filter f l = [].
Proof.
  induction l as [|a l IH]; intros F; [reflexivity|]. cbn. rewrite (F a) by now left. apply IH. intros x I. apply F. now right.
Qed.

Lemma filter_head (f : A -> bool) l x r : filter f l = x :: r ->
  exists p q, l = p ++ x :: q /\ filter f p = [] /\ r = filter f q /\ f x = true.
Proof.
  induction l as [|a l IH]; cbn; [discriminate|]. destruct (f a) eqn:F.
  - intros [= -> <-]. exists [], l. auto.
  - intros E. destruct (IH E) as (p & q & -> & P & Q). exists (a :: p), q. cbn. rewrite F. auto.
Qed.

Context `{!WeakOrder lt}.

Lemma ord_refl x : le x x.
Proof. unfold le. destruct (lt x x) eqn:E; [|reflexivity]. now rewrite (lt_asym x x E) in E. Qed.

Lemma lt_le x y : lt x y = true -> le x y.
Proof. apply lt_asym. Qed.

Lemma ord_trans x y z : le x y -> le y z -> le x z.
Proof.
  unfold le. intros X Y. destruct (lt z x) eqn:E; [|reflexivity]. destruct (lt_cotrans z y x E); congruence.
Qed.

Lemma lt_ord_trans x y z : lt x y = true -> le y z -> lt x z = true.
Proof. unfold le. intros X Y. destruct (lt_cotrans x z y X); congruence. Qed.

Lemma ord_lt_trans x y z : le x y -> lt y z = true -> lt x z = true.
Proof. unfold le. intros X Y. destruct (lt_cotrans y x z Y); congruence. Qed.

Lemma ord_total x y : le x y \/ lt y x = true.
Proof. unfold le. destruct (lt y x); auto. Qed.

Lemma eqv_iff x y : eqv x y = true <-> le x y /\ le y x.
Proof. unfold eqv, le. destruct (lt x y), (lt y x); cbn; intuition congruence. Qed.

Lemma eqv_refl x : eqv x x = true.
Proof. apply eqv_iff. split; apply ord_refl. Qed.

Lemma lt_not_eqv z x y : lt x y = true -> eqv z x = true -> eqv z y = false.
Proof.
  intros L E. destruct (eqv z y) eqn:F; [|reflexivity]. apply eqv_iff in E as [E1 E2], F as [F1 F2].
  pose proof (ord_trans y z x F2 E1) as C. unfold le in C. congruence.
Qed.

(** Blocks without equal elements can change places. *)
Lemma stable_swap l m : (forall x y, In x l -> In y m -> lt x y = true \/ lt y x = true) -> stable (l ++ m) (m ++ l).
Proof.
  intros N z. rewrite !filter_app. destruct (filter (eqv z) l) as [|x r] eqn:E; [now rewrite app_nil_r|].
  destruct (filter_head _ _ _ _ E) as (p & q & -> & _ & _ & F).
  rewrite (filter_nil _ m); [now rewrite app_nil_r|]. intros y J.
  destruct (N x y) as [L|L]; [apply in_or_app; right; now left|exact J| |].
  - now apply (lt_not_eqv z x y).
  - destruct (eqv z y) eqn:G; [|reflexivity]. now rewrite (lt_not_eqv z y x L G) in F.
Qed.

Lemma stable_Permutation l l' : stable l l' -> Permutation l l'.
Proof.
  revert l'. induction l as [|x l IH]; intros l' S.
  - destruct l' as [|y l']; [constructor|]. specialize (S y). cbn in S. now rewrite eqv_refl in S.
  - pose proof (S x) as E. cbn in E. rewrite eqv_refl in E. symmetry in E.
    destruct (filter_head _ _ _ _ E) as (p & q & -> & P & Q & _).
    apply Permutation_cons_app, IH. intros z. specialize (S z). rewrite !filter_app in *. cbn in S.
    destruct (eqv z x) eqn:F; [|exact S]. rewrite (filter_nil _ p) in S |- *; [now injection S| |];
      intros y I; destruct (eqv z y) eqn:G; try reflexivity; exfalso;
      assert (G' : In y (filter (eqv x) p)) by (apply filter_In; split; [exact I|];
        apply eqv_iff in F, G; apply eqv_iff; split; eapply ord_trans; (apply F || apply G));
      now rewrite P in G'.
Qed.

(** There is one stable sort. *)
Lemma stable_unique l l' : sorted l -> sorted l' -> stable l l' -> l = l'.
Proof.
  revert l'. induction l as [|x l IH]; intros l' Sl Sl' S.
  - symmetry. apply Permutation_nil, stable_Permutation, S.
  - pose proof (stable_Permutation _ _ S) as P.
    destruct l' as [|y l']; [now apply Permutation_sym, Permutation_nil in P|].
    pose proof Sl as Sx. pose proof Sl' as Sy.
    apply StronglySorted_inv in Sx as [Sx Fx], Sy as [Sy Fy]. rewrite Forall_forall in Fx, Fy.
    assert (Lx : le x y).
    { destruct (Permutation_in y (Permutation_sym P) (or_introl eq_refl)) as [->|I]; [apply ord_refl|now apply Fx]. }
    assert (Ly : le y x).
    { destruct (Permutation_in x P (or_introl eq_refl)) as [->|I]; [apply ord_refl|now apply Fy]. }
    pose proof (S x) as E. cbn in E. rewrite eqv_refl, (proj2 (eqv_iff x y) (conj Lx Ly)) in E. injection E as <- _.
    f_equal. apply IH; [exact Sx|exact Sy|]. now apply (stable_app_inv_head [x]).
Qed.

Lemma insert_stable x l : sorted l -> stable (x :: l) (insert x l) /\ sorted (insert x l).
Proof.
  induction l as [|y l IH]; intros S; cbn [insert]; [split; [reflexivity|repeat constructor]|].
  apply StronglySorted_inv in S as [S F]. destruct (IH S) as (I1 & I2). destruct (lt y x) eqn:L.
  - split.
    + transitivity (y :: x :: l).
      * apply (app_stable [x; y] [y; x]); [|reflexivity]. apply (stable_swap [x] [y]). intros a b [<-|[]] [<-|[]]. now right.
      * apply (app_stable [y] [y]); [reflexivity|exact I1].
    + constructor; [exact I2|]. apply Forall_forall. intros z I.
      apply (Permutation_in z (Permutation_sym (stable_Permutation _ _ I1))) in I as [<-|I]; [now apply lt_le|].
      rewrite Forall_forall in F. now apply F.
  - split; [reflexivity|]. constructor; [now constructor|]. constructor; [exact L|].
    apply Forall_forall. intros z I. rewrite Forall_forall in F. apply (ord_trans x y z L). now apply F.
Qed.

Lemma isort_spec l : stable l (isort l) /\ sorted (isort l).
Proof.
  induction l as [|x l [S1 S2]]; [split; [reflexivity|constructor]|]. destruct (insert_stable x (isort l) S2) as (I1 & I2).
  split; [|exact I2]. cbn. rewrite <- I1. now apply (app_stable [x] [x]).
Qed.

Lemma stable_isort l l' : sorted l' -> stable l l' -> l' = isort l.
Proof.
  intros S E. destruct (isort_spec l) as (I1 & I2). apply stable_unique; [exact S|exact I2|]. now rewrite <- E.
Qed.

End Stable.

(** Comparing through a key. *)
Lemma WeakOrder_via {A B} (lt : B -> B -> bool) (f : A -> B) : WeakOrder lt -> WeakOrder (fun x y => lt (f x) (f y)).
Proof. intros [X Y]. split; auto. Qed.
