(* ===== verification/SsortMerge.v ===== *)
(** * The merges of the stable sort

    gdk/gdk_ssort.c and the first half of gdk/gdk_ssort_impl.h: copying,
    temporary memory, galloping, and [merge_at], which merges two neighbouring
    runs by way of a copy of the smaller one.  The theorems say that galloping
    finds the place of a key, and that a merge leaves the stable merge of the
    two runs and touches nothing else. *)

From Stdlib Require Import ZArith Lia Bool List Permutation Sorted.
Import ListNotations.
From S2P Require Import Prelude StableList.

Open Scope Z_scope.
Open Scope list_scope.

(** ** The code *)

Section Copy.

Context {X : Type}.

(** [COPY]: one slot. *)
Definition put (m : Z -> X) (i : Z) (x : X) : Z -> X := fun k => if k =? i then x else m k.

(** [memmove] of [n] slots. *)
Definition memmove (m : Z -> X) (d : Z) (src : Z -> X) (s n : Z) : Z -> X :=
  fun k => if (d <=? k) && (k <? d + n) then src (s + (k - d)) else m k.

(** [COPY_anyN], for slot [i] of the [N] slots of [w] bytes: for 16 bytes the bound of the
    loop over words of eight bytes is [N<2].  [half] takes the first word from its first argument. *)
Definition COPY_anyN (half : X -> X -> X) (w N i : Z) (d s : X) : X :=
  if w =? 16 then (if (i =? 0) && (N <? 2) then half s d else d) else s.

End Copy.

Record slice := mkSlice { base : Z; len : Z }.

Definition MERGESTATE_TEMP_SIZE : Z := 256 * 8.
Definition MIN_GALLOP : Z := 7.

Section Merge.

(** The head and the tail of a row move together. *)
Context {H T : Type} (lt : H -> H -> bool) (halfH : H -> H -> H) (halfT : T -> T -> T) (hs ts : Z).
(** Whether memory is granted, and what it contains. *)
Context (malloc : Z -> bool) (freshh : Z -> H) (fresht : Z -> T).

#[local] Abbreviation item := (H * T)%type.
Definition ISLT (x y : item) : bool := lt (fst x) (fst y).

Record mstate := mkState {
  rows : Z -> item;                       (* bh, bt *)
  tempo : Z -> item;                      (* ah, at *)
  allocedh : Z; allocedt : Z;
  min_gallop : Z;
  pending : list slice;                   (* the last one first *)
}.

(** [Full]: the stack of runs overflows; [Stuck]: an assertion fails, or a loop does not end. *)
Inductive outcome := Ok (s : mstate) | NoMemory (s : mstate) | Full (s : mstate) | Stuck.

Definition copyN (m : Z -> item) (d : Z) (src : Z -> item) (s n : Z) : Z -> item :=
  fun k => if (d <=? k) && (k <? d + n)
           then let x := src (s + (k - d)) in
                (COPY_anyN halfH hs n (k - d) (fst (m k)) (fst x), COPY_anyN halfT ts n (k - d) (snd (m k)) (snd x))
           else m k.

(** [merge_freemem]. *)
Definition merge_freemem (s : mstate) : mstate :=
  mkState (rows s) (tempo s) MERGESTATE_TEMP_SIZE MERGESTATE_TEMP_SIZE (min_gallop s) (pending s).

(** [MERGE_GETMEMH], [MERGE_GETMEMT]. *)
Definition MERGE_GETMEMH (s : mstate) (need : Z) : option mstate :=
  if need * hs <=? allocedh s then Some s
  else if malloc (need * hs)
  then Some (mkState (rows s) (fun k => (freshh k, snd (tempo s k))) (need * hs) (allocedt s) (min_gallop s) (pending s))
  else None.
Definition MERGE_GETMEMT (s : mstate) (need : Z) : option mstate :=
  if need * ts <=? allocedt s then Some s
  else if malloc (need * ts)
  then Some (mkState (rows s) (fun k => (fst (tempo s k), fresht k)) (allocedh s) (need * ts) (min_gallop s) (pending s))
  else None.

(** The two loops of a gallop: away from the hint in steps that double, and the
    binary search.  [P i]: the key belongs behind slot [i]. *)
Fixpoint gallop_out (fuel : nat) (go : Z -> bool) (lastofs ofs maxofs : Z) : option (Z * Z) :=
  if ofs <? maxofs then
    if go ofs then
      match fuel with
      | O => None
      | S f => let next := i64 (Z.shiftl ofs 1 + 1) in gallop_out f go ofs (if next <=? 0 then maxofs else next) maxofs
      end
    else Some (lastofs, ofs)
  else Some (lastofs, ofs).
Fixpoint gallop_in (fuel : nat) (P : Z -> bool) (lastofs ofs : Z) : option Z :=
  if lastofs <? ofs then
    match fuel with
    | O => None
    | S f => let m := lastofs + Z.shiftr (ofs - lastofs) 1 in
             if P m then gallop_in f P (m + 1) ofs else gallop_in f P lastofs m
    end
  else Some ofs.
Definition gallop (P : Z -> bool) (n hint : Z) : option Z :=
  let found :=
    if P hint then
      let maxofs := n - hint in
      option_map (fun lo => (fst lo + hint, Z.min (snd lo) maxofs + hint)) (gallop_out 64 (fun ofs => P (hint + ofs)) 0 1 maxofs)
    else
      let maxofs := hint + 1 in
      option_map (fun lo => (hint - Z.min (snd lo) maxofs, hint - fst lo)) (gallop_out 64 (fun ofs => negb (P (hint - ofs))) 0 1 maxofs)
  in
  match found with
  | Some (lastofs, ofs) => gallop_in 64 P (lastofs + 1) ofs
  | None => None
  end.

Definition gallop_left (key : item) (m : Z -> item) (a n hint : Z) : option Z :=
  gallop (fun i => ISLT (m (a + i)) key) n hint.
Definition gallop_right (key : item) (m : Z -> item) (a n hint : Z) : option Z :=
  gallop (fun i => negb (ISLT key (m (a + i)))) n hint.

(** The variables of a merge. *)
Record run := mkRun {
  r_mem : Z -> item; r_dest : Z; r_pa : Z; r_na : Z; r_pb : Z; r_nb : Z;
  r_mine : Z;                             (* the local min_gallop *)
  r_ms : Z;                               (* ms->min_gallop *)
}.

Definition with_gallop (r : run) (g ms : Z) : run := mkRun (r_mem r) (r_dest r) (r_pa r) (r_na r) (r_pb r) (r_nb r) g ms.

(** How a loop is left: [goto Succeed], [goto Copy], or to go on, with the numbers of
    rows that A and B won. *)
Inductive exit := Succeed (r : run) | Copy (r : run) | Next (acount bcount : Z) (r : run).

(** The straightforward loop, for both directions: [xwins] tells which side delivers
    the next row, [x] and [y] move it, [xdone] and [ydone] end the merge. *)
Fixpoint plain (xwins : run -> bool) (x y : run -> run) (xdone ydone : run -> bool) (fuel : nat)
    (xcount ycount : Z) (r : run) : option exit :=
  match fuel with
  | O => None
  | S f =>
      if xwins r then
        let r := x r in
        if xdone r then Some (Succeed r)
        else if r_mine r <=? xcount + 1 then Some (Next (xcount + 1) 0 r)
        else plain xwins x y xdone ydone f (xcount + 1) 0 r
      else
        let r := y r in
        if ydone r then Some (Copy r)
        else if r_mine r <=? ycount + 1 then Some (Next 0 (ycount + 1) r)
        else plain xwins x y xdone ydone f 0 (ycount + 1) r
  end.

(** The galloping loop, and both in turn. *)
Fixpoint galloping (round : run -> option exit) (fuel : nat) (r : run) : option exit :=
  match fuel with
  | O => None
  | S f =>
      match round r with
      | Some (Next acount bcount r) =>
          if (MIN_GALLOP <=? acount) || (MIN_GALLOP <=? bcount) then galloping round f r
          else Some (Next acount bcount (with_gallop r (r_mine r + 1) (r_mine r + 1)))
      | e => e
      end
  end.
Fixpoint merging (plainly gallops : run -> option exit) (fuel : nat) (r : run) : option exit :=
  match fuel with
  | O => None
  | S f =>
      match plainly r with
      | Some (Next _ _ r) =>
          match gallops (with_gallop r (r_mine r + 1) (r_ms r)) with
          | Some (Next _ _ r) => merging plainly gallops f r
          | e => e
          end
      | e => e
      end
  end.

Definition fuel_of (r : run) : nat := Z.to_nat (r_na r + r_nb r).

(** The head of the galloping loop: [min_gallop -= min_gallop > 1]. *)
Definition lower (r : run) : run := let g := if 1 <? r_mine r then r_mine r - 1 else r_mine r in with_gallop r g g.

(** ** From the front: A is in the temporary area *)

Definition lo_a (tmp : Z -> item) (r : run) : run :=
  mkRun (put (r_mem r) (r_dest r) (tmp (r_pa r))) (r_dest r + 1) (r_pa r + 1) (r_na r - 1) (r_pb r) (r_nb r) (r_mine r) (r_ms r).
Definition lo_b (r : run) : run :=
  mkRun (put (r_mem r) (r_dest r) (r_mem r (r_pb r))) (r_dest r + 1) (r_pa r) (r_na r) (r_pb r + 1) (r_nb r - 1) (r_mine r) (r_ms r).
Definition lo_as (tmp : Z -> item) (k : Z) (r : run) : run :=
  mkRun (copyN (r_mem r) (r_dest r) tmp (r_pa r) k) (r_dest r + k) (r_pa r + k) (r_na r - k) (r_pb r) (r_nb r) (r_mine r) (r_ms r).
Definition lo_bs (k : Z) (r : run) : run :=
  mkRun (memmove (r_mem r) (r_dest r) (r_mem r) (r_pb r) k) (r_dest r + k) (r_pa r) (r_na r) (r_pb r + k) (r_nb r - k) (r_mine r) (r_ms r).

Definition lo_plain (tmp : Z -> item) (r : run) : option exit :=
  plain (fun r => ISLT (r_mem r (r_pb r)) (tmp (r_pa r))) lo_b (lo_a tmp) (fun r => r_nb r =? 0) (fun r => r_na r =? 1)
    (fuel_of r) 0 0 r.

Definition lo_round (tmp : Z -> item) (r : run) : option exit :=
  let r := lower r in
  match gallop_right (r_mem r (r_pb r)) tmp (r_pa r) (r_na r) 0 with
  | None => None
  | Some k =>
      let acount := k in
      let r := if k =? 0 then r else lo_as tmp k r in
      if negb (k =? 0) && (r_na r =? 1) then Some (Copy r)
      else if negb (k =? 0) && (r_na r =? 0) then Some (Succeed r)
      else
        let r := lo_b r in
        if r_nb r =? 0 then Some (Succeed r)
        else
          match gallop_left (tmp (r_pa r)) (r_mem r) (r_pb r) (r_nb r) 0 with
          | None => None
          | Some k =>
              let r := if k =? 0 then r else lo_bs k r in
              if negb (k =? 0) && (r_nb r =? 0) then Some (Succeed r)
              else
                let r := lo_a tmp r in
                if r_na r =? 1 then Some (Copy r) else Some (Next acount k r)
          end
  end.

Definition lo_succeed (tmp : Z -> item) (r : run) : Z -> item :=
  if r_na r =? 0 then r_mem r else copyN (r_mem r) (r_dest r) tmp (r_pa r) (r_na r).
Definition lo_copy (tmp : Z -> item) (r : run) : Z -> item :=
  put (memmove (r_mem r) (r_dest r) (r_mem r) (r_pb r) (r_nb r)) (r_dest r + r_nb r) (tmp (r_pa r)).

(** ** From the back: B is in the temporary area *)

Definition hi_a (r : run) : run :=
  mkRun (put (r_mem r) (r_dest r) (r_mem r (r_pa r))) (r_dest r - 1) (r_pa r - 1) (r_na r - 1) (r_pb r) (r_nb r) (r_mine r) (r_ms r).
Definition hi_b (tmp : Z -> item) (r : run) : run :=
  mkRun (put (r_mem r) (r_dest r) (tmp (r_pb r))) (r_dest r - 1) (r_pa r) (r_na r) (r_pb r - 1) (r_nb r - 1) (r_mine r) (r_ms r).
Definition hi_as (k : Z) (r : run) : run :=
  mkRun (memmove (r_mem r) (r_dest r - k + 1) (r_mem r) (r_pa r - k + 1) k) (r_dest r - k) (r_pa r - k) (r_na r - k)
    (r_pb r) (r_nb r) (r_mine r) (r_ms r).
Definition hi_bs (tmp : Z -> item) (k : Z) (r : run) : run :=
  mkRun (memmove (r_mem r) (r_dest r - k + 1) tmp (r_pb r - k + 1) k) (r_dest r - k) (r_pa r) (r_na r)
    (r_pb r - k) (r_nb r - k) (r_mine r) (r_ms r).

Definition hi_plain (tmp : Z -> item) (r : run) : option exit :=
  plain (fun r => ISLT (tmp (r_pb r)) (r_mem r (r_pa r))) hi_a (hi_b tmp) (fun r => r_na r =? 0) (fun r => r_nb r =? 1)
    (fuel_of r) 0 0 r.

Definition hi_round (tmp : Z -> item) (basea baseb : Z) (r : run) : option exit :=
  let r := lower r in
  match gallop_right (tmp (r_pb r)) (r_mem r) basea (r_na r) (r_na r - 1) with
  | None => None
  | Some found =>
      let acount := r_na r - found in
      let r := if acount =? 0 then r else hi_as acount r in
      if negb (acount =? 0) && (r_na r =? 0) then Some (Succeed r)
      else
        let r := hi_b tmp r in
        if r_nb r =? 1 then Some (Copy r)
        else
          match gallop_left (r_mem r (r_pa r)) tmp baseb (r_nb r) (r_nb r - 1) with
          | None => None
          | Some found =>
              let bcount := r_nb r - found in
              let r := if bcount =? 0 then r else hi_bs tmp bcount r in
              if negb (bcount =? 0) && (r_nb r =? 1) then Some (Copy r)
              else if negb (bcount =? 0) && (r_nb r =? 0) then Some (Succeed r)
              else
                let r := hi_a r in
                if r_na r =? 0 then Some (Succeed r) else Some (Next acount bcount r)
          end
  end.

Definition hi_succeed (tmp : Z -> item) (baseb : Z) (r : run) : Z -> item :=
  if r_nb r =? 0 then r_mem r else copyN (r_mem r) (r_dest r + 1 - r_nb r) tmp baseb (r_nb r).
Definition hi_copy (tmp : Z -> item) (r : run) : Z -> item :=
  let dest := r_dest r - r_na r in let pa := r_pa r - r_na r in
  put (memmove (r_mem r) (dest + 1) (r_mem r) (pa + 1) (r_na r)) dest (tmp (r_pb r)).

(** ** Both *)

(** How a merge ends: the rows, and [ms->min_gallop]. *)
Definition finish (succeed copy : run -> Z -> item) (e : option exit) : option ((Z -> item) * Z) :=
  match e with
  | Some (Succeed r) => Some (succeed r, r_ms r)
  | Some (Copy r) => Some (copy r, r_ms r)
  | _ => None
  end.
Definition merge_lo (tmp m : Z -> item) (pa na pb nb min_gallop : Z) : option ((Z -> item) * Z) :=
  let r := lo_b (mkRun m pa 0 na pb nb min_gallop min_gallop) in
  finish (lo_succeed tmp) (lo_copy tmp)
    (if r_nb r =? 0 then Some (Succeed r)
     else if r_na r =? 1 then Some (Copy r)
     else merging (lo_plain tmp) (fun r => galloping (lo_round tmp) (fuel_of r) r) (fuel_of r) r).
Definition merge_hi (tmp m : Z -> item) (pa na pb nb min_gallop : Z) : option ((Z -> item) * Z) :=
  let r := hi_a (mkRun m (pb + nb - 1) (pa + na - 1) na (nb - 1) nb min_gallop min_gallop) in
  finish (hi_succeed tmp 0) (hi_copy tmp)
    (if r_na r =? 0 then Some (Succeed r)
     else if r_nb r =? 1 then Some (Copy r)
     else merging (hi_plain tmp) (fun r => galloping (hi_round tmp pa 0) (fuel_of r) r) (fuel_of r) r).

(** [merge_at] once the runs are taken from the stack. *)
Definition merge_runs (s : mstate) (a b : slice) : outcome :=
  match gallop_right (rows s (base b)) (rows s) (base a) (len a) 0 with
  | None => Stuck
  | Some k =>
      let pa := base a + k in let na := len a - k in
      if na =? 0 then Ok s
      else
        match gallop_left (rows s (pa + na - 1)) (rows s) (base b) (len b) (len b - 1) with
        | None => Stuck
        | Some nb =>
            if nb <=? 0 then Ok s
            else
              let need := Z.min na nb in
              match MERGE_GETMEMH s need with
              | None => NoMemory (merge_freemem s)
              | Some s =>
              match MERGE_GETMEMT s need with
              | None => NoMemory (merge_freemem s)
              | Some s =>
                  let tmp := copyN (tempo s) 0 (rows s) (if na <=? nb then pa else base b) need in
                  match (if na <=? nb then merge_lo tmp (rows s) pa na (base b) nb (min_gallop s)
                         else merge_hi tmp (rows s) pa na (base b) nb (min_gallop s)) with
                  | None => Stuck
                  | Some (m, g) => Ok (mkState m tmp (allocedh s) (allocedt s) g (pending s))
                  end
              end end
        end
  end.

Definition with_pending (s : mstate) (p : list slice) : mstate :=
  mkState (rows s) (tempo s) (allocedh s) (allocedt s) (min_gallop s) p.

(** [merge_at]: the last two runs, or with [third] the two below the last one. *)
Definition joined (a b : slice) : slice := mkSlice (base a) (len a + len b).
Definition merge_at (s : mstate) (third : bool) : outcome :=
  match third, pending s with
  | false, b :: a :: l => merge_runs (with_pending s (joined a b :: l)) a b
  | true, c :: b :: a :: l => merge_runs (with_pending s (c :: joined a b :: l)) a b
  | _, _ => Stuck
  end.

End Merge.

(** ** Galloping *)

Lemma shiftr_half d : 0 < d -> 0 <= Z.shiftr d 1 < d /\ 2 * Z.shiftr d 1 <= d <= 2 * Z.shiftr d 1 + 1.
Proof. intros D. rewrite Z.shiftr_div_pow2 by lia. change (2 ^ 1) with 2. pose proof (Z.div_mod d 2). pose proof (Z.mod_pos_bound d 2). lia. Qed.

(** The offset doubles until it is out of range or [go] refuses it. *)
Lemma gallop_out_spec fuel go maxofs lastofs ofs :
  0 <= lastofs < ofs -> maxofs <= 2 ^ 62 -> 2 ^ 62 <= ofs * 2 ^ Z.of_nat fuel -> lastofs < maxofs ->
  (lastofs = 0 \/ go lastofs = true) ->
  exists l o, gallop_out fuel go lastofs ofs maxofs = Some (l, o)
    /\ 0 <= l < Z.min o maxofs /\ (l = 0 \/ go l = true) /\ (maxofs <= o \/ go o = false).
Proof.
  revert lastofs ofs. induction fuel as [|f IH]; intros l o Lo Lm Lf Ll G; cbn [gallop_out].
  - rewrite (proj2 (Z.ltb_ge o maxofs)) by lia. exists l, o. split; [reflexivity|]. split; [lia|]. split; [exact G|]. left. lia.
  - destruct (Z.ltb_spec o maxofs) as [L|L]; [|exists l, o; split; [reflexivity|]; split; [lia|]; split; [exact G|left; lia]].
    destruct (go o) eqn:Go; [|exists l, o; split; [reflexivity|]; split; [lia|]; split; [exact G|now right]].
    rewrite Z.shiftl_mul_pow2 by lia. change (2 ^ 1) with 2. rewrite i64_id by lia.
    rewrite (proj2 (Z.leb_gt (o * 2 + 1) 0)) by lia.
    apply IH; [lia|exact Lm| |exact L|now right].
    rewrite Nat2Z.inj_succ, Z.pow_succ_r in Lf by lia. nia.
Qed.

(** A test on [b, n) that holds up to some slot, and not from there on. *)
Definition boundary (P : Z -> bool) (b n k : Z) : Prop :=
  b <= k <= n /\ (forall i, b <= i < k -> P i = true) /\ (forall i, k <= i < n -> P i = false).

Definition descends (P : Z -> bool) (b n : Z) : Prop := forall i j, b <= i -> i <= j -> j < n -> P j = true -> P i = true.

Lemma gallop_in_spec fuel P b n l o :
  descends P b n -> b <= l <= o -> o <= n -> o - l < 2 ^ Z.of_nat fuel ->
  (forall i, b <= i < l -> P i = true) -> (forall i, o <= i < n -> P i = false) ->
  exists k, gallop_in fuel P l o = Some k /\ boundary P b n k.
Proof.
  intros D. revert l o. induction fuel as [|f IH]; intros l o Lo Ln Lf T F; cbn [gallop_in].
  - rewrite (proj2 (Z.ltb_ge l o)) by (cbn in Lf; lia). exists o. split; [reflexivity|]. split; [lia|]. split; [|exact F].
    intros i I. apply T. cbn in Lf. lia.
  - destruct (Z.ltb_spec l o) as [L|L]; [|exists o; split; [reflexivity|]; split; [lia|]; split; [intros i I; apply T; lia|exact F]].
    destruct (shiftr_half (o - l) ltac:(lia)) as (H1 & H2). rewrite Nat2Z.inj_succ, Z.pow_succ_r in Lf by lia.
    cbv zeta. set (m := l + Z.shiftr (o - l) 1) in *. assert (l <= m < o) by lia. destruct (P m) eqn:Pm.
    + apply IH; [lia|lia|lia| |exact F]. intros i I. apply (D i m); [lia..|exact Pm].
    + apply IH; [lia|lia|lia|exact T|]. intros i I. destruct (P i) eqn:Pi; [|reflexivity].
      rewrite (D m i) in Pm; [discriminate|lia..|exact Pi].
Qed.

Lemma gallop_spec P n hint : descends P 0 n -> 0 <= hint < n -> n <= 2 ^ 62 ->
  exists k, gallop P n hint = Some k /\ boundary P 0 n k.
Proof.
  intros D H N. unfold gallop.
  assert (F : forall i j, 0 <= i -> i <= j -> j < n -> P i = false -> P j = false).
  { intros i j I L J E. destruct (P j) eqn:Ej; [|reflexivity]. now rewrite (D i j I L J Ej) in E. }
  assert (B : 2 ^ 62 <= 1 * 2 ^ Z.of_nat 64) by (vm_compute; discriminate).
  assert (C : 2 ^ 62 < 2 ^ Z.of_nat 64) by (vm_compute; reflexivity).
  destruct (P hint) eqn:Ph.
  - destruct (gallop_out_spec 64 (fun o => P (hint + o)) (n - hint) 0 1) as (l & o & -> & L & G1 & G2); [lia|lia|exact B|lia|now left|].
    cbn [option_map fst snd]. apply gallop_in_spec; auto; [lia|lia|lia| |].
    + intros i I. apply (D i (hint + l)); [lia..|]. destruct G1 as [->|G1]; [now rewrite Z.add_0_r|exact G1].
    + intros i I. destruct G2 as [G2|G2]; [lia|]. destruct (Z.leb_spec (n - hint) o); [lia|]. apply (F (hint + o)); auto; lia.
  - destruct (gallop_out_spec 64 (fun o => negb (P (hint - o))) (hint + 1) 0 1) as (l & o & -> & L & G1 & G2); [lia|lia|exact B|lia|now left|].
    cbn [option_map fst snd]. apply gallop_in_spec; auto; [lia|lia|lia| |].
    + intros i I. destruct G2 as [G2|G2]; [lia|]. destruct (Z.leb_spec (hint + 1) o); [lia|].
      apply negb_false_iff in G2. apply (D i (hint - o)); auto; lia.
    + intros i I. apply (F (hint - l)); [lia..|]. destruct G1 as [->|G1]; [now rewrite Z.sub_0_r|now apply negb_true_iff].
Qed.

(** ** Segments of a memory *)

Section Segments.

Context {X : Type}.

Definition seg (m : Z -> X) (lo n : Z) : list X := map (fun i => m (lo + Z.of_nat i)) (seq 0 (Z.to_nat n)).

Lemma seg_0 m lo : seg m lo 0 = [].
Proof. reflexivity. Qed.

Lemma seg_1 m lo : seg m lo 1 = [m lo].
Proof. unfold seg. change (Z.to_nat 1) with 1%nat. cbn [seq map Z.of_nat]. now rewrite Z.add_0_r. Qed.

Lemma map_seq_shift {Y} (f : nat -> Y) s n : map f (seq s n) = map (fun i => f (s + i)%nat) (seq 0 n).
Proof.
  revert f s. induction n as [|n IH]; intros f s; [reflexivity|]. cbn [seq map].
  rewrite (IH _ (S s)), (IH (fun i => f (s + i)%nat) 1%nat). f_equal; [f_equal; lia|].
  apply map_ext. intros i. f_equal. lia.
Qed.

Lemma seg_app m lo a b : 0 <= a -> 0 <= b -> seg m lo (a + b) = seg m lo a ++ seg m (lo + a) b.
Proof.
  intros A B. unfold seg. rewrite Z2Nat.inj_add, seq_app, map_app by lia. f_equal. cbn [Nat.add].
  rewrite map_seq_shift. apply map_ext. intros i. f_equal. lia.
Qed.

Lemma seg_ext m m' lo lo' n : (forall i, 0 <= i < n -> m (lo + i) = m' (lo' + i)) -> seg m lo n = seg m' lo' n.
Proof. intros E. apply map_ext_in. intros i I. apply in_seq in I. apply E. lia. Qed.

Lemma seg_split m lo n k : 0 <= k <= n -> seg m lo n = seg m lo k ++ seg m (lo + k) (n - k).
Proof. intros K. rewrite <- seg_app by lia. f_equal. lia. Qed.

Lemma In_seg m lo n x : In x (seg m lo n) <-> exists i, 0 <= i < n /\ x = m (lo + i).
Proof.
  unfold seg. rewrite in_map_iff. split.
  - intros (i & <- & I). apply in_seq in I. exists (Z.of_nat i). split; [lia|reflexivity].
  - intros (i & I & ->). exists (Z.to_nat i). split; [f_equal; lia|]. apply in_seq. lia.
Qed.

Lemma length_seg m lo n : List.length (seg m lo n) = Z.to_nat n.
Proof. unfold seg. now rewrite length_map, length_seq. Qed.

End Segments.

(** ** The loops, for an invariant that the moves keep *)

Section Loops.

Context {H T : Type}.
#[local] Abbreviation run := (run (H := H) (T := T)).
#[local] Abbreviation exit := (exit (H := H) (T := T)).
Context (I : run -> Prop) (xwins xdone ydone : run -> bool) (x y : run -> run) (round : run -> option exit).

Definition size (r : run) : Z := r_na r + r_nb r.
Definition live (r : run) : Prop := I r /\ xdone r = false /\ ydone r = false.

(** How a loop that starts with at most [n] rows can be left. *)
Definition left_with (n : Z) (e : exit) : Prop :=
  match e with
  | Succeed r => I r /\ xdone r = true
  | Copy r => I r /\ ydone r = true
  | Next _ _ r => live r /\ size r < n
  end.

Context (positive : forall r, live r -> 0 < size r).
Context (moves_x : forall r, live r -> xwins r = true -> I (x r) /\ size (x r) = size r - 1 /\ ydone (x r) = false).
Context (moves_y : forall r, live r -> xwins r = false -> I (y r) /\ size (y r) = size r - 1 /\ xdone (y r) = false).
Context (rounds : forall r, live r -> exists e, round r = Some e /\ left_with (size r) e).
Context (gallop_free : forall r g ms, live r -> live (with_gallop r g ms)).

Lemma left_wider n n' e : left_with n e -> n <= n' -> left_with n' e.
Proof. destruct e; cbn; intuition lia. Qed.

Lemma plain_spec fuel xc yc r : live r -> size r <= Z.of_nat fuel ->
  exists e, plain xwins x y xdone ydone fuel xc yc r = Some e /\ left_with (size r) e.
Proof.
  revert xc yc r. induction fuel as [|f IH]; intros xc yc r L F; pose proof (positive r L) as P; [lia|]. cbn [plain].
  destruct (xwins r) eqn:W.
  - destruct (moves_x r L W) as (Ix & Sx & Yx). cbv zeta. destruct (xdone (x r)) eqn:D; [eexists; split; [reflexivity|now split]|].
    destruct (_ <=? _); [eexists; split; [reflexivity|]; split; [now split|lia]|].
    destruct (IH (xc + 1) 0 (x r)) as (e & E & Q); [now split|lia|]. exists e. split; [exact E|]. apply (left_wider _ _ _ Q). lia.
  - destruct (moves_y r L W) as (Iy & Sy & Xy). cbv zeta. destruct (ydone (y r)) eqn:D; [eexists; split; [reflexivity|now split]|].
    destruct (_ <=? _); [eexists; split; [reflexivity|]; split; [now split|lia]|].
    destruct (IH 0 (yc + 1) (y r)) as (e & E & Q); [now split|lia|]. exists e. split; [exact E|]. apply (left_wider _ _ _ Q). lia.
Qed.

Lemma galloping_spec fuel r : live r -> size r <= Z.of_nat fuel ->
  exists e, galloping round fuel r = Some e /\ left_with (size r) e.
Proof.
  revert r. induction fuel as [|f IH]; intros r L F; pose proof (positive r L) as P; [lia|]. cbn [galloping].
  destruct (rounds r L) as (e & -> & Q). destruct e as [r'|r'|ac bc r']; [now exists (Succeed r')|now exists (Copy r')|].
  destruct Q as (L' & S'). destruct (_ || _).
  - destruct (IH r' L') as (e & E & Q); [lia|]. exists e. split; [exact E|]. apply (left_wider _ _ _ Q). lia.
  - eexists. split; [reflexivity|]. split; [now apply gallop_free|exact S'].
Qed.

(** Both loops in turn end with one of the jumps. *)
Lemma merging_spec fuel r : live r -> size r <= Z.of_nat fuel ->
  exists e, merging (fun r => plain xwins x y xdone ydone (fuel_of r) 0 0 r) (fun r => galloping round (fuel_of r) r) fuel r = Some e
    /\ match e with Succeed r' => I r' /\ xdone r' = true | Copy r' => I r' /\ ydone r' = true | Next _ _ _ => False end.
Proof.
  revert r. induction fuel as [|f IH]; intros r L F; pose proof (positive r L) as P; [lia|]. cbn [merging].
  destruct (plain_spec (fuel_of r) 0 0 r L) as (e & -> & Q); [unfold fuel_of, size in *; lia|].
  destruct e as [r1|r1|xc yc r1]; [now exists (Succeed r1)|now exists (Copy r1)|]. destruct Q as (L1 & S1).
  pose proof (gallop_free r1 (r_mine r1 + 1) (r_ms r1) L1) as L2. set (r2 := with_gallop r1 _ _) in *.
  assert (S2 : size r2 = size r1) by reflexivity.
  destruct (galloping_spec (fuel_of r2) r2 L2) as (e & -> & Q); [unfold fuel_of, size in *; pose proof (positive r2 L2); unfold size in *; lia|].
  destruct e as [r3|r3|ac bc r3]; [now exists (Succeed r3)|now exists (Copy r3)|]. destruct Q as (L3 & S3). apply IH; [exact L3|lia].
Qed.

End Loops.

(** ** Merging from the front *)

Section Front.

Context {H T : Type} (lt : H -> H -> bool) `{!WeakOrder lt} (halfH : H -> H -> H) (halfT : T -> T -> T) (hs ts : Z).
Context (narrow_h : hs <> 16) (narrow_t : ts <> 16).
#[local] Abbreviation item := (H * T)%type.
#[local] Abbreviation ISLT := (ISLT (T := T) lt).
#[local] Abbreviation sorted := (sorted ISLT).
#[local] Abbreviation stable := (stable ISLT).
#[local] Abbreviation le := (le ISLT).
#[local] Abbreviation copyN := (copyN halfH halfT hs ts).
#[local] Abbreviation run := (run (H := H) (T := T)).
#[local] Abbreviation exit := (exit (H := H) (T := T)).

#[local] Instance ISLT_WeakOrder : WeakOrder ISLT := WeakOrder_via lt fst _.

(** Slots of other widths than 16 are copied. *)
Lemma copyN_memmove (m : Z -> item) d src s n k : copyN m d src s n k = memmove m d src s n k.
Proof.
  unfold SsortMerge.copyN, memmove. destruct (_ && _); [|reflexivity]. unfold COPY_anyN.
  rewrite (proj2 (Z.eqb_neq hs 16)), (proj2 (Z.eqb_neq ts 16)) by assumption. now rewrite <- surjective_pairing.
Qed.

Lemma put_memmove {X} (m : Z -> X) d src s k : put m d (src s) k = memmove m d src s 1 k.
Proof.
  unfold put, memmove. destruct (Z.eqb_spec k d) as [->|N].
  - rewrite (proj2 (Z.leb_le d d)), (proj2 (Z.ltb_lt d (d + 1))) by lia. cbn. f_equal. lia.
  - destruct (Z.leb_spec d k), (Z.ltb_spec k (d + 1)); cbn; reflexivity || lia.
Qed.

Lemma memmove_in {X} (m : Z -> X) d src s n k : d <= k < d + n -> memmove m d src s n k = src (s + (k - d)).
Proof. intros K. unfold memmove. now rewrite (proj2 (Z.leb_le d k)), (proj2 (Z.ltb_lt k (d + n))) by lia. Qed.

Lemma memmove_out {X} (m : Z -> X) d src s n k : k < d \/ d + n <= k -> memmove m d src s n k = m k.
Proof. intros K. unfold memmove. destruct (Z.leb_spec d k), (Z.ltb_spec k (d + n)); cbn; reflexivity || lia. Qed.

Lemma seg_memmove (m m' : Z -> item) d src s n : (forall k, m' k = memmove m d src s n k) -> seg m' d n = seg src s n.
Proof. intros E. apply seg_ext. intros i I. rewrite E, memmove_in by lia. f_equal. lia. Qed.

Lemma seg_frame {X} (m m' : Z -> X) lo n : (forall k, lo <= k < lo + n -> m' k = m k) -> seg m' lo n = seg m lo n.
Proof. intros E. apply seg_ext. intros i I. apply E. lia. Qed.

Lemma sorted_seg (m : Z -> item) lo n :
  sorted (seg m lo n) <-> forall i j, 0 <= i -> i <= j -> j < n -> le (m (lo + i)) (m (lo + j)).
Proof.
  split.
  - intros S i j I L J. destruct (Z.eq_dec i j) as [->|N]; [apply ord_refl; typeclasses eauto|].
    rewrite (seg_split m lo n j) in S by lia. apply sorted_app in S as (_ & _ & S).
    apply S; apply In_seg; [exists i; split; [lia|reflexivity]|exists 0; split; [lia|f_equal; lia]].
  - intros L. destruct (Z.leb_spec n 0) as [N|N]; [unfold seg; replace (Z.to_nat n) with O by lia; constructor|].
    assert (P : 0 <= n) by lia. clear N. revert L. pattern n. apply natlike_ind; [constructor| |exact P]. clear n P.
    intros n P IH L. unfold Z.succ. rewrite seg_app, seg_1 by lia. apply sorted_app. split; [apply IH; intros; apply L; lia|].
    split; [repeat constructor|]. intros x y I [<-|[]]. apply In_seg in I as (i & I & ->). apply L; lia.
Qed.

Lemma gallop_right_spec key (m : Z -> item) a n hint : sorted (seg m a n) -> 0 <= hint < n -> n <= 2 ^ 62 ->
  exists k, gallop_right lt key m a n hint = Some k /\ 0 <= k <= n
    /\ (forall i, 0 <= i < k -> le (m (a + i)) key) /\ (forall i, k <= i < n -> ISLT key (m (a + i)) = true).
Proof.
  intros S Hh N. rewrite sorted_seg in S.
  destruct (gallop_spec (fun i => negb (ISLT key (m (a + i)))) n hint) as (k & E & K & T' & F); [|exact Hh|exact N|].
  - intros i j I L J P. apply negb_true_iff in P. apply negb_true_iff.
    exact (ord_trans ISLT (m (a + i)) (m (a + j)) key (S i j I L J) P).
  - exists k. split; [exact E|]. split; [exact K|]. split; intros i I; [now apply negb_true_iff, T'|now apply negb_false_iff, F].
Qed.

Lemma gallop_left_spec key (m : Z -> item) a n hint : sorted (seg m a n) -> 0 <= hint < n -> n <= 2 ^ 62 ->
  exists k, gallop_left lt key m a n hint = Some k /\ 0 <= k <= n
    /\ (forall i, 0 <= i < k -> ISLT (m (a + i)) key = true) /\ (forall i, k <= i < n -> le key (m (a + i))).
Proof.
  intros S Hh N. rewrite sorted_seg in S.
  destruct (gallop_spec (fun i => ISLT (m (a + i)) key) n hint) as (k & E & K & T' & F); [|exact Hh|exact N|].
  - intros i j I L J P. exact (ord_lt_trans ISLT (m (a + i)) (m (a + j)) key (S i j I L J) P).
  - exists k. auto.
Qed.

(** The segment from [lo] to [hi] is sorted, with equal rows in order, and nothing else has changed. *)
Definition merged (orig : list item) (m0 m : Z -> item) (lo hi : Z) : Prop :=
  sorted (seg m lo (hi - lo)) /\ stable orig (seg m lo (hi - lo)) /\ forall k, k < lo \/ hi <= k -> m k = m0 k.

(** The rows that are placed, [O], and those that remain, [A] and [B]; all of [B] precedes
    the last row of [A], [e]. *)
Definition front (orig O A B : list item) (e : item) : Prop :=
  stable orig (O ++ A ++ B) /\ sorted (O ++ A) /\ sorted (O ++ B) /\ forall b, In b B -> ISLT b e = true.

Lemma front_a orig O A1 A2 B e : front orig O (A1 ++ A2) B e -> (forall a b, In a A1 -> In b B -> le a b) ->
  front orig (O ++ A1) A2 B e.
Proof.
  intros (S & SA & SB & E) L. split; [|split; [|split; [|exact E]]].
  - now rewrite <- app_assoc in S |- *.
  - now rewrite <- app_assoc.
  - rewrite <- app_assoc. apply sorted_app in SA as (S1 & S2 & S3), SB as (S4 & S5 & S6). apply sorted_app in S2 as (S7 & _ & _).
    apply sorted_app. split; [exact S1|]. split; [apply sorted_app; auto|].
    intros x y I J. apply in_app_or in J as [J|J]; [apply S3; [exact I|apply in_or_app; now left]|now apply S6].
Qed.

Lemma front_b orig O A B1 B2 e : front orig O A (B1 ++ B2) e -> (forall b a, In b B1 -> In a A -> ISLT b a = true) ->
  front orig (O ++ B1) A B2 e.
Proof.
  intros (S & SA & SB & E) L. split; [|split; [|split]].
  - rewrite S, <- app_assoc. apply app_stable; [reflexivity|]. rewrite !app_assoc. apply app_stable; [|reflexivity].
    apply stable_swap; [typeclasses eauto|]. intros a b I J. right. now apply L.
  - rewrite <- app_assoc. apply sorted_app in SA as (S1 & S2 & S3), SB as (S4 & S5 & S6). apply sorted_app in S5 as (S7 & _ & _).
    apply sorted_app. split; [exact S1|]. split; [apply sorted_app; split; [exact S7|]; split; [exact S2|]; intros b a I J; apply lt_asym; now apply L|].
    intros x y I J. apply in_app_or in J as [J|J]; [apply S6; [exact I|apply in_or_app; now left]|now apply S3].
  - now rewrite <- app_assoc.
  - intros b I. apply E, in_or_app. now right.
Qed.

(** What is known during the merge. *)
Context (orig : list item) (m0 tmp : Z -> item) (lo hi last : Z).

Record lo_inv (r : run) : Prop := {
  lo_dest : lo <= r_dest r;
  lo_na : 1 <= r_na r;
  lo_nb : 0 <= r_nb r;
  lo_gap : r_dest r + r_na r = r_pb r;
  lo_end : r_pb r + r_nb r = hi;
  lo_last : r_pa r + r_na r = last + 1;
  lo_frame : forall k, k < lo \/ hi <= k -> r_mem r k = m0 k;
  lo_front : front orig (seg (r_mem r) lo (r_dest r - lo)) (seg tmp (r_pa r) (r_na r)) (seg (r_mem r) (r_pb r) (r_nb r)) (tmp last);
}.

Lemma lo_as_inv r m' k g ms : lo_inv r -> 1 <= k < r_na r ->
  (forall j, m' j = memmove (r_mem r) (r_dest r) tmp (r_pa r) k j) ->
  (forall i j, 0 <= i < k -> 0 <= j < r_nb r -> le (tmp (r_pa r + i)) (r_mem r (r_pb r + j))) ->
  lo_inv (mkRun m' (r_dest r + k) (r_pa r + k) (r_na r - k) (r_pb r) (r_nb r) g ms).
Proof.
  intros [D Na Nb G E L F O] K M C. split; cbn [r_mem r_dest r_pa r_na r_pb r_nb]; try lia.
  - intros j J. rewrite M, memmove_out by lia. now apply F.
  - replace (r_dest r + k - lo) with ((r_dest r - lo) + k) by lia. rewrite seg_app by lia.
    replace (lo + (r_dest r - lo)) with (r_dest r) by lia. rewrite (seg_memmove _ _ _ _ _ _ M).
    rewrite (seg_frame (r_mem r) m' lo), (seg_frame (r_mem r) m' (r_pb r)) by (intros j J; rewrite M; apply memmove_out; lia).
    rewrite (seg_split tmp (r_pa r) (r_na r) k) in O by lia. apply (front_a _ _ _ _ _ _ O).
    intros a b Ia Ib. apply In_seg in Ia as (i & Hi & ->), Ib as (j & Hj & ->). now apply C.
Qed.

Lemma lo_bs_inv r m' k g ms : lo_inv r -> 1 <= k <= r_nb r ->
  (forall j, m' j = memmove (r_mem r) (r_dest r) (r_mem r) (r_pb r) k j) ->
  (forall i j, 0 <= i < k -> 0 <= j < r_na r -> ISLT (r_mem r (r_pb r + i)) (tmp (r_pa r + j)) = true) ->
  lo_inv (mkRun m' (r_dest r + k) (r_pa r) (r_na r) (r_pb r + k) (r_nb r - k) g ms).
Proof.
  intros [D Na Nb G E L F O] K M C. split; cbn [r_mem r_dest r_pa r_na r_pb r_nb]; try lia.
  - intros j J. rewrite M, memmove_out by lia. now apply F.
  - replace (r_dest r + k - lo) with ((r_dest r - lo) + k) by lia. rewrite seg_app by lia.
    replace (lo + (r_dest r - lo)) with (r_dest r) by lia. rewrite (seg_memmove _ _ _ _ _ _ M).
    rewrite (seg_frame (r_mem r) m' lo), (seg_frame (r_mem r) m' (r_pb r + k)) by (intros j J; rewrite M; apply memmove_out; lia).
    rewrite (seg_split (r_mem r) (r_pb r) (r_nb r) k) in O by lia. apply (front_b _ _ _ _ _ _ O).
    intros b a Ib Ia. apply In_seg in Ia as (i & Hi & ->), Ib as (j & Hj & ->). now apply C.
Qed.

Context (short : hi - lo <= 2 ^ 62).

Lemma lo_sorted_a r : lo_inv r -> sorted (seg tmp (r_pa r) (r_na r)).
Proof. intros R. destruct (lo_front r R) as (_ & S & _). now apply sorted_app in S. Qed.

Lemma lo_sorted_b r : lo_inv r -> sorted (seg (r_mem r) (r_pb r) (r_nb r)).
Proof. intros R. destruct (lo_front r R) as (_ & _ & S & _). now apply sorted_app in S. Qed.

(** All of B precedes the last row of A. *)
Lemma lo_below r j : lo_inv r -> 0 <= j < r_nb r -> ISLT (r_mem r (r_pb r + j)) (tmp last) = true.
Proof. intros R J. destruct (lo_front r R) as (_ & _ & _ & E). apply E, In_seg. now exists j. Qed.

(** The rows from [i] on follow those before. *)
Lemma lo_le_a r i j : lo_inv r -> 0 <= i -> i <= j -> j < r_na r -> le (tmp (r_pa r + i)) (tmp (r_pa r + j)).
Proof. intros R. apply sorted_seg, (lo_sorted_a r R). Qed.
Lemma lo_le_b r i j : lo_inv r -> 0 <= i -> i <= j -> j < r_nb r -> le (r_mem r (r_pb r + i)) (r_mem r (r_pb r + j)).
Proof. intros R. apply sorted_seg, (lo_sorted_b r R). Qed.

#[local] Abbreviation lo_live := (live lo_inv (fun r => r_nb r =? 0) (fun r => r_na r =? 1)).
#[local] Abbreviation lo_left := (left_with lo_inv (fun r => r_nb r =? 0) (fun r => r_na r =? 1)).

Lemma lo_live_iff r : lo_live r <-> lo_inv r /\ 2 <= r_na r /\ 1 <= r_nb r.
Proof.
  unfold live. rewrite !Z.eqb_neq. split; intros (R & A & B); (split; [exact R|]); pose proof (lo_na r R); pose proof (lo_nb r R); lia.
Qed.

(** One row of B, when it precedes all of A; one row of A, when it does not follow any of B. *)
Lemma lo_b_inv r : lo_inv r -> 1 <= r_nb r -> ISLT (r_mem r (r_pb r)) (tmp (r_pa r)) = true -> lo_inv (lo_b r).
Proof.
  intros R N C. apply (lo_bs_inv r _ 1); [exact R|lia|intros j; apply put_memmove|].
  intros i j I J. replace (r_pb r + i) with (r_pb r) by lia.
  eapply lt_ord_trans; [typeclasses eauto|exact C|]. rewrite <- (Z.add_0_r (r_pa r)) at 1. apply lo_le_a; auto; lia.
Qed.

Lemma lo_a_inv r : lo_inv r -> 2 <= r_na r -> (1 <= r_nb r -> le (tmp (r_pa r)) (r_mem r (r_pb r))) -> lo_inv (lo_a tmp r).
Proof.
  intros R N C. apply (lo_as_inv r _ 1); [exact R|lia|intros j; apply put_memmove|].
  intros i j I J. replace (r_pa r + i) with (r_pa r) by lia.
  eapply ord_trans; [typeclasses eauto|apply C; lia|]. rewrite <- (Z.add_0_r (r_pb r)) at 1. apply lo_le_b; auto; lia.
Qed.

(** The gallop through A. *)
Lemma lo_gallop_a r : lo_inv r -> 1 <= r_nb r ->
  exists k, gallop_right lt (r_mem r (r_pb r)) tmp (r_pa r) (r_na r) 0 = Some k /\ 0 <= k < r_na r
    /\ let r' := if k =? 0 then r else lo_as halfH halfT hs ts tmp k r in
       lo_inv r' /\ size r' = size r - k /\ r_nb r' = r_nb r /\ r_na r' = r_na r - k
       /\ ISLT (r_mem r' (r_pb r')) (tmp (r_pa r')) = true.
Proof.
  intros R N. pose proof (lo_na r R) as Na.
  destruct (gallop_right_spec (r_mem r (r_pb r)) tmp (r_pa r) (r_na r) 0) as (k & E & K & Lk & Gk);
    [now apply lo_sorted_a|lia|pose proof (lo_dest r R); pose proof (lo_gap r R); pose proof (lo_end r R); lia|].
  pose proof (lo_below r 0 R ltac:(lia)) as Lb. rewrite Z.add_0_r in Lb.
  assert (K' : k < r_na r).
  { destruct (Z.ltb_spec k (r_na r)); [assumption|]. specialize (Lk (r_na r - 1) ltac:(lia)).
    replace (r_pa r + (r_na r - 1)) with last in Lk by (pose proof (lo_last r R); lia). unfold StableList.le in Lk. congruence. }
  exists k. split; [exact E|]. split; [lia|]. specialize (Gk k ltac:(lia)).
  destruct (Z.eqb_spec k 0) as [->|K0]; cbv zeta.
  - rewrite Z.add_0_r in Gk. split; [exact R|]. repeat split; try lia. exact Gk.
  - split; [|unfold size, lo_as; cbn; repeat split; try lia; rewrite copyN_memmove, memmove_out; [exact Gk|pose proof (lo_gap r R); lia]].
    apply lo_as_inv; [exact R|lia|intros j; apply copyN_memmove|].
    intros i j I J. eapply ord_trans; [typeclasses eauto|apply Lk; lia|].
    rewrite <- (Z.add_0_r (r_pb r)) at 1. apply lo_le_b; auto; lia.
Qed.

(** The gallop through B. *)
Lemma lo_gallop_b r : lo_inv r -> 1 <= r_nb r ->
  exists k, gallop_left lt (tmp (r_pa r)) (r_mem r) (r_pb r) (r_nb r) 0 = Some k /\ 0 <= k
    /\ let r' := if k =? 0 then r else lo_bs k r in
       lo_inv r' /\ size r' = size r - k /\ r_na r' = r_na r
       /\ (1 <= r_nb r' -> le (tmp (r_pa r')) (r_mem r' (r_pb r'))).
Proof.
  intros R N. pose proof (lo_na r R) as Na.
  destruct (gallop_left_spec (tmp (r_pa r)) (r_mem r) (r_pb r) (r_nb r) 0) as (k & E & K & Lk & Gk);
    [now apply lo_sorted_b|lia|pose proof (lo_dest r R); pose proof (lo_gap r R); pose proof (lo_end r R); lia|].
  exists k. split; [exact E|]. split; [lia|]. destruct (Z.eqb_spec k 0) as [->|K0]; cbv zeta.
  - split; [exact R|]. repeat split; try lia. intros _. specialize (Gk 0 ltac:(lia)). now rewrite Z.add_0_r in Gk.
  - split; [|unfold size, lo_bs; cbn; repeat split; try lia; intros Nb; rewrite memmove_out by (pose proof (lo_gap r R); lia); apply Gk; lia].
    apply lo_bs_inv; [exact R|lia|reflexivity|].
    intros i j I J. eapply lt_ord_trans; [typeclasses eauto|apply Lk; lia|].
    rewrite <- (Z.add_0_r (r_pa r)) at 1. apply lo_le_a; auto; lia.
Qed.

Lemma lo_gallop_free r g ms : lo_live r -> lo_live (with_gallop r g ms).
Proof. rewrite !lo_live_iff. intros (R & A & B). split; [|exact (conj A B)]. destruct R. now split. Qed.

Lemma lo_round_spec r : lo_live r -> exists e, lo_round lt halfH halfT hs ts tmp r = Some e /\ lo_left (size r) e.
Proof.
  intros L. unfold lo_round. cbv zeta. set (r0 := lower r).
  assert (L0 : lo_live r0) by now apply lo_gallop_free. assert (S0 : size r0 = size r) by reflexivity. rewrite <- S0.
  apply lo_live_iff in L0 as (R & A & B). clearbody r0. clear L S0 r. rename r0 into r.
  destruct (lo_gallop_a r R B) as (k & -> & K & P). set (r1 := if k =? 0 then _ else _) in *. cbv zeta in P.
  destruct P as (R1 & S1 & Nb & Na & C). clearbody r1.
  destruct (negb (k =? 0) && (r_na r1 =? 1)) eqn:E1.
  { eexists. split; [reflexivity|]. split; [exact R1|now apply andb_prop in E1]. }
  rewrite (proj2 (Z.eqb_neq (r_na r1) 0)), andb_false_r by lia.
  assert (A1 : 2 <= r_na r1).
  { destruct (Z.eqb_spec k 0); cbn in E1; [lia|]. apply Z.eqb_neq in E1. lia. }
  assert (R2 : lo_inv (lo_b r1)) by (apply lo_b_inv; [exact R1|lia|exact C]).
  set (r2 := lo_b r1) in *. assert (S2 : size r2 = size r1 - 1 /\ r_nb r2 = r_nb r1 - 1 /\ r_na r2 = r_na r1)
    by (unfold r2, size; cbn; lia). clearbody r2. destruct S2 as (S2 & Nb2 & Na2).
  destruct (Z.eqb_spec (r_nb r2) 0) as [Z2|Z2]; [eexists; split; [reflexivity|]; split; [exact R2|now apply Z.eqb_eq]|].
  destruct (lo_gallop_b r2 R2 ltac:(lia)) as (k' & -> & K' & P). set (r3 := if k' =? 0 then _ else _) in *. cbv zeta in P.
  destruct P as (R3 & S3 & Na3 & C3). clearbody r3.
  destruct (negb (k' =? 0) && (r_nb r3 =? 0)) eqn:E3.
  { eexists. split; [reflexivity|]. split; [exact R3|now apply andb_prop in E3]. }
  assert (R4 : lo_inv (lo_a tmp r3)) by (apply lo_a_inv; [exact R3|lia|exact C3]).
  assert (B3 : 1 <= r_nb r3).
  { pose proof (lo_nb r3 R3). unfold size in *. destruct (Z.eqb_spec k' 0); cbn in E3; [lia|]. apply Z.eqb_neq in E3. lia. }
  destruct (Z.eqb_spec (r_na (lo_a tmp r3)) 1) as [Z4|Z4]; (eexists; split; [reflexivity|]).
  - split; [exact R4|now apply Z.eqb_eq].
  - split; [|unfold size in *; cbn; lia]. apply lo_live_iff. split; [exact R4|]. cbn in *. lia.
Qed.

Lemma lo_succeed_merged r : lo_inv r -> r_nb r = 0 -> merged orig m0 (lo_succeed halfH halfT hs ts tmp r) lo hi.
Proof.
  intros [D Na Nb G E L F O] N. unfold lo_succeed. rewrite (proj2 (Z.eqb_neq (r_na r) 0)) by lia.
  set (m' := SsortMerge.copyN _ _ _ _ _ _ _ _ _).
  assert (M : forall k, m' k = memmove (r_mem r) (r_dest r) tmp (r_pa r) (r_na r) k) by (intros k; apply copyN_memmove).
  assert (Sg : seg m' lo (hi - lo) = seg (r_mem r) lo (r_dest r - lo) ++ seg tmp (r_pa r) (r_na r)).
  { replace (hi - lo) with ((r_dest r - lo) + r_na r) by lia. rewrite seg_app by lia. f_equal.
    - apply seg_frame. intros k K. rewrite M. apply memmove_out. lia.
    - replace (lo + (r_dest r - lo)) with (r_dest r) by lia. now apply seg_memmove with (m := r_mem r). }
  rewrite N, seg_0 in O. destruct O as (S & SA & _). rewrite app_nil_r in S. unfold merged. rewrite Sg.
  split; [exact SA|]. split; [exact S|]. intros k K. rewrite M, memmove_out by lia. now apply F.
Qed.

Lemma lo_copy_merged r : lo_inv r -> r_na r = 1 -> merged orig m0 (lo_copy tmp r) lo hi.
Proof.
  intros [D Na Nb G E L F O] N. unfold lo_copy.
  set (m1 := memmove (r_mem r) (r_dest r) (r_mem r) (r_pb r) (r_nb r)). set (m' := put _ _ _).
  assert (M : forall k, k <> r_dest r + r_nb r -> m' k = m1 k) by (intros k K; unfold m', put; now rewrite (proj2 (Z.eqb_neq k _))).
  assert (Sg : seg m' lo (hi - lo) = seg (r_mem r) lo (r_dest r - lo) ++ seg (r_mem r) (r_pb r) (r_nb r) ++ [tmp (r_pa r)]).
  { replace (hi - lo) with ((r_dest r - lo) + (r_nb r + 1)) by lia. rewrite !seg_app, seg_1 by lia.
    replace (lo + (r_dest r - lo)) with (r_dest r) by lia. f_equal; [|f_equal].
    - apply seg_frame. intros k K. rewrite M by lia. apply memmove_out. lia.
    - rewrite (seg_frame m1 m') by (intros k K; apply M; lia). now apply seg_memmove with (m := r_mem r).
    - unfold m', put. now rewrite Z.eqb_refl. }
  rewrite N, seg_1 in O. destruct (front_b orig _ _ _ [] (tmp last) ltac:(rewrite app_nil_r; exact O)) as (S & SA & _).
  { intros b a Ib [<-|[]]. destruct O as (_ & _ & _ & O). replace (r_pa r) with last by lia. now apply O. }
  rewrite app_nil_r, <- app_assoc in S. rewrite <- app_assoc in SA. unfold merged. rewrite Sg.
  split; [exact SA|]. split; [exact S|]. intros k K. rewrite M by lia. unfold m1. rewrite memmove_out by lia. now apply F.
Qed.

End Front.

Section FrontMerge.

Context {H T : Type} (lt : H -> H -> bool) `{!WeakOrder lt} (halfH : H -> H -> H) (halfT : T -> T -> T) (hs ts : Z).
Context (narrow_h : hs <> 16) (narrow_t : ts <> 16).
#[local] Abbreviation item := (H * T)%type.
#[local] Abbreviation ISLT := (ISLT (T := T) lt).

(** What [merge_at] has made sure of: the runs touch, both are sorted, the first row of B
    precedes A, and all of B precedes the last row of A. *)
Record mergeable (m : Z -> item) (pa na pb nb : Z) : Prop := {
  mg_na : 1 <= na; mg_nb : 1 <= nb; mg_next : pa + na = pb; mg_short : na + nb <= 2 ^ 62;
  mg_a : sorted ISLT (seg m pa na); mg_b : sorted ISLT (seg m pb nb);
  mg_first : forall i, 0 <= i < na -> ISLT (m pb) (m (pa + i)) = true;
  mg_last : forall j, 0 <= j < nb -> ISLT (m (pb + j)) (m (pa + na - 1)) = true;
}.

Lemma merge_lo_spec m tmp pa na pb nb g : mergeable m pa na pb nb -> (forall i, 0 <= i < na -> tmp i = m (pa + i)) ->
  exists m' g', merge_lo lt halfH halfT hs ts tmp m pa na pb nb g = Some (m', g')
    /\ merged lt (seg m pa (na + nb)) m m' pa (pb + nb).
Proof.
  intros M Tm. pose proof M as [Na Nb Nx Sh SA SB Mf Ml]. unfold merge_lo. cbv zeta.
  set (orig := seg m pa (na + nb)). set (r0 := mkRun m pa 0 na pb nb g g).
  assert (Et : seg tmp 0 na = seg m pa na) by (apply seg_ext; intros i I; rewrite Z.add_0_l; now apply Tm).
  assert (Eo : orig = seg m pa na ++ seg m pb nb) by (unfold orig; rewrite seg_app by lia; f_equal; f_equal; lia).
  assert (R0 : lo_inv lt orig m tmp pa (pb + nb) (na - 1) r0).
  { split; unfold r0; cbn [r_mem r_dest r_pa r_na r_pb r_nb]; try lia; [reflexivity|].
    rewrite Z.sub_diag, seg_0, Et. split; [now rewrite Eo|]. split; [exact SA|]. split; [exact SB|].
    intros b Ib. apply In_seg in Ib as (j & J & ->). rewrite Tm by lia. replace (pa + (na - 1)) with (pa + na - 1) by lia. now apply Ml. }
  assert (R1 : lo_inv lt orig m tmp pa (pb + nb) (na - 1) (lo_b r0)).
  { apply (lo_b_inv lt); [exact R0|cbn; lia|]. cbn. rewrite Tm by lia. apply Mf. lia. }
  set (r1 := lo_b r0) in *. clearbody r1. clear R0 r0.
  assert (Done : forall e, match e with Succeed r => lo_inv lt orig m tmp pa (pb + nb) (na - 1) r /\ (r_nb r =? 0) = true
              | Copy r => lo_inv lt orig m tmp pa (pb + nb) (na - 1) r /\ (r_na r =? 1) = true | Next _ _ _ => False end ->
            exists m' g', finish (lo_succeed halfH halfT hs ts tmp) (lo_copy tmp) (Some e) = Some (m', g') /\ merged lt orig m m' pa (pb + nb)).
  { intros [r|r|? ? r] Q; [| |destruct Q]; destruct Q as (Q & E); apply Z.eqb_eq in E; do 2 eexists; (split; [reflexivity|]).
    - now apply lo_succeed_merged with (last := na - 1).
    - now apply lo_copy_merged with (last := na - 1). }
  destruct (r_nb r1 =? 0) eqn:E1; [now apply (Done (Succeed r1))|]. destruct (r_na r1 =? 1) eqn:E2; [now apply (Done (Copy r1))|].
  destruct (merging_spec (lo_inv lt orig m tmp pa (pb + nb) (na - 1)) (fun r => ISLT (r_mem r (r_pb r)) (tmp (r_pa r)))
    (fun r => r_nb r =? 0) (fun r => r_na r =? 1) lo_b (lo_a tmp) (lo_round lt halfH halfT hs ts tmp)) with (fuel := fuel_of r1) (r := r1)
    as (e & E & Q).
  - intros r L. apply lo_live_iff in L as (_ & A & B). unfold size. lia.
  - intros r L W. apply lo_live_iff in L as (R & A & B). split; [now apply (lo_b_inv lt)|].
    split; [unfold size; cbn; lia|]. apply Z.eqb_neq. cbn. lia.
  - intros r L W. apply lo_live_iff in L as (R & A & B). split; [apply (lo_a_inv lt); auto|].
    split; [unfold size; cbn; lia|]. apply Z.eqb_neq. cbn. lia.
  - intros r L. apply lo_round_spec; auto. lia.
  - intros r g' ms L. now apply lo_gallop_free.
  - split; [exact R1|now split].
  - unfold fuel_of, size. lia.
  - unfold lo_plain. rewrite E. now apply Done.
Qed.

End FrontMerge.
