(* ===== verification/SsortBack.v ===== *)
(** * The stable sort: merging from the back, and [merge_at]

    The mirror image of the merge from the front: the second run is copied, and
    rows are placed from the last slot on.  Then both together: [merge_at]
    joins two neighbouring runs of the stack. *)

From Stdlib Require Import ZArith Lia Bool List Permutation Sorted.
Import ListNotations.
From S2P Require Import Prelude StableList SsortMerge.

Open Scope Z_scope.
Open Scope list_scope.

Section Back.

Context {H T : Type} (lt : H -> H -> bool) `{!WeakOrder lt} (halfH : H -> H -> H) (halfT : T -> T -> T) (hs ts : Z).
Context (narrow_h : hs <> 16) (narrow_t : ts <> 16).
#[local] Abbreviation item := (H * T)%type.
#[local] Abbreviation ISLT := (ISLT (T := T) lt).
#[local] Abbreviation sorted := (sorted ISLT).
#[local] Abbreviation stable := (stable ISLT).
#[local] Abbreviation le := (le ISLT).
#[local] Abbreviation run := (run (H := H) (T := T)).

#[local] Instance ISLT_WeakOrder' : WeakOrder ISLT := WeakOrder_via lt fst _.

(** The rows that remain, [A] and [B], and those that are placed, [O]; all of [A] follows
    the first row of [B], [e]. *)
Definition back (orig A B O : list item) (e : item) : Prop :=
  stable orig (A ++ B ++ O) /\ sorted (A ++ O) /\ sorted (B ++ O) /\ forall a, In a A -> ISLT e a = true.

Lemma back_b orig A B1 B2 O e : back orig A (B1 ++ B2) O e -> (forall a b, In a A -> In b B2 -> le a b) ->
  back orig A B1 (B2 ++ O) e.
Proof.
  intros (S & SA & SB & E) L. rewrite <- app_assoc in S, SB. split; [exact S|]. split; [|split; [exact SB|exact E]].
  apply sorted_app in SA as (S1 & S2 & S3), SB as (S4 & S5 & S6).
  apply sorted_app. split; [exact S1|]. split; [exact S5|].
  intros x y I J. apply in_app_or in J as [J|J]; auto.
Qed.

Lemma back_a orig A1 A2 B O e : back orig (A1 ++ A2) B O e -> (forall b a, In b B -> In a A2 -> ISLT b a = true) ->
  back orig A1 B (A2 ++ O) e.
Proof.
  intros (S & SA & SB & E) L. rewrite <- app_assoc in SA. split; [|split; [exact SA|split]].
  - rewrite S, <- app_assoc. apply app_stable; [reflexivity|]. rewrite !app_assoc. apply app_stable; [|reflexivity].
    apply stable_swap; [typeclasses eauto|]. intros a b I J. right. now apply L.
  - apply sorted_app in SA as (S1 & S2 & S3), SB as (S4 & S5 & S6).
    apply sorted_app. split; [exact S4|]. split; [exact S2|].
    intros x y I J. apply in_app_or in J as [J|J]; [apply lt_asym; now apply L|now apply S6].
  - intros a I. apply E, in_or_app. now left.
Qed.

Context (orig : list item) (m0 tmp : Z -> item) (lo hi : Z).

Record hi_inv (r : run) : Prop := {
  hi_na : 0 <= r_na r;
  hi_nb : 1 <= r_nb r;
  hi_pa : r_pa r = lo + r_na r - 1;
  hi_pb : r_pb r = r_nb r - 1;
  hi_dest : r_dest r = lo + r_na r + r_nb r - 1;
  hi_end : r_dest r < hi;
  hi_frame : forall k, k < lo \/ hi <= k -> r_mem r k = m0 k;
  hi_back : back orig (seg (r_mem r) lo (r_na r)) (seg tmp 0 (r_nb r)) (seg (r_mem r) (r_dest r + 1) (hi - r_dest r - 1)) (tmp 0);
}.

Lemma hi_as_inv r m' k g ms : hi_inv r -> 1 <= k <= r_na r ->
  (forall j, m' j = memmove (r_mem r) (r_dest r - k + 1) (r_mem r) (r_pa r - k + 1) k j) ->
  (forall i j, r_na r - k <= i < r_na r -> 0 <= j < r_nb r -> ISLT (tmp j) (r_mem r (lo + i)) = true) ->
  hi_inv (mkRun m' (r_dest r - k) (r_pa r - k) (r_na r - k) (r_pb r) (r_nb r) g ms).
Proof.
  intros [Na Nb Pa Pb D E F O] K M C. split; cbn [r_mem r_dest r_pa r_na r_pb r_nb]; try lia.
  - intros j J. rewrite M, memmove_out by lia. now apply F.
  - replace (hi - (r_dest r - k) - 1) with (k + (hi - r_dest r - 1)) by lia. rewrite seg_app by lia.
    replace (r_dest r - k + 1 + k) with (r_dest r + 1) by lia. rewrite (seg_memmove _ _ _ _ _ _ M).
    rewrite (seg_frame (r_mem r) m' lo), (seg_frame (r_mem r) m' (r_dest r + 1)) by (intros j J; rewrite M; apply memmove_out; lia).
    rewrite (seg_split (r_mem r) lo (r_na r) (r_na r - k)) in O by lia.
    replace (r_na r - (r_na r - k)) with k in O by lia. replace (lo + (r_na r - k)) with (r_pa r - k + 1) in O by lia.
    apply (back_a _ _ _ _ _ _ O). intros b a Ib Ia. apply In_seg in Ia as (i & Hi & ->), Ib as (j & Hj & ->).
    replace (r_pa r - k + 1 + i) with (lo + (r_na r - k + i)) by lia. apply C; lia.
Qed.

Lemma hi_bs_inv r m' k g ms : hi_inv r -> 1 <= k < r_nb r ->
  (forall j, m' j = memmove (r_mem r) (r_dest r - k + 1) tmp (r_pb r - k + 1) k j) ->
  (forall i j, 0 <= i < r_na r -> r_nb r - k <= j < r_nb r -> le (r_mem r (lo + i)) (tmp j)) ->
  hi_inv (mkRun m' (r_dest r - k) (r_pa r) (r_na r) (r_pb r - k) (r_nb r - k) g ms).
Proof.
  intros [Na Nb Pa Pb D E F O] K M C. split; cbn [r_mem r_dest r_pa r_na r_pb r_nb]; try lia.
  - intros j J. rewrite M, memmove_out by lia. now apply F.
  - replace (hi - (r_dest r - k) - 1) with (k + (hi - r_dest r - 1)) by lia. rewrite seg_app by lia.
    replace (r_dest r - k + 1 + k) with (r_dest r + 1) by lia. rewrite (seg_memmove _ _ _ _ _ _ M).
    rewrite (seg_frame (r_mem r) m' lo), (seg_frame (r_mem r) m' (r_dest r + 1)) by (intros j J; rewrite M; apply memmove_out; lia).
    rewrite (seg_split tmp 0 (r_nb r) (r_nb r - k)) in O by lia.
    replace (r_nb r - (r_nb r - k)) with k in O by lia. replace (0 + (r_nb r - k)) with (r_pb r - k + 1) in O by lia.
    apply (back_b _ _ _ _ _ _ O). intros a b Ia Ib. apply In_seg in Ia as (i & Hi & ->), Ib as (j & Hj & ->). apply C; lia.
Qed.

Context (short : hi - lo <= 2 ^ 62).

Lemma hi_sorted_a r : hi_inv r -> sorted (seg (r_mem r) lo (r_na r)).
Proof. intros R. destruct (hi_back r R) as (_ & S & _). now apply sorted_app in S. Qed.

Lemma hi_sorted_b r : hi_inv r -> sorted (seg tmp 0 (r_nb r)).
Proof. intros R. destruct (hi_back r R) as (_ & _ & S & _). now apply sorted_app in S. Qed.

(** All of A follows the first row of B. *)
Lemma hi_above r i : hi_inv r -> 0 <= i < r_na r -> ISLT (tmp 0) (r_mem r (lo + i)) = true.
Proof. intros R J. destruct (hi_back r R) as (_ & _ & _ & E). apply E, In_seg. now exists i. Qed.

Lemma hi_le_a r i j : hi_inv r -> 0 <= i -> i <= j -> j < r_na r -> le (r_mem r (lo + i)) (r_mem r (lo + j)).
Proof. intros R. apply sorted_seg; [typeclasses eauto|]. exact (hi_sorted_a r R). Qed.
Lemma hi_le_b r i j : hi_inv r -> 0 <= i -> i <= j -> j < r_nb r -> le (tmp i) (tmp j).
Proof.
  intros R. pose proof (hi_sorted_b r R) as S. rewrite (sorted_seg lt) in S. intros I L J. now apply (S i j).
Qed.

#[local] Abbreviation hi_live := (live hi_inv (fun r => r_na r =? 0) (fun r => r_nb r =? 1)).
#[local] Abbreviation hi_left := (left_with hi_inv (fun r => r_na r =? 0) (fun r => r_nb r =? 1)).

Lemma hi_live_iff r : hi_live r <-> hi_inv r /\ 1 <= r_na r /\ 2 <= r_nb r.
Proof.
  unfold live. rewrite !Z.eqb_neq. split; intros (R & A & B); (split; [exact R|]); pose proof (hi_na r R); pose proof (hi_nb r R); lia.
Qed.

Lemma hi_a_inv r : hi_inv r -> 1 <= r_na r -> ISLT (tmp (r_pb r)) (r_mem r (r_pa r)) = true -> hi_inv (hi_a r).
Proof.
  intros R N C. apply (hi_as_inv r _ 1); [exact R|lia| |].
  - intros j. replace (r_dest r - 1 + 1) with (r_dest r) by lia. replace (r_pa r - 1 + 1) with (r_pa r) by lia. apply put_memmove.
  - intros i j I J. replace (lo + i) with (r_pa r) by (pose proof (hi_pa r R); lia).
    eapply ord_lt_trans; [typeclasses eauto| |exact C]. pose proof (hi_pb r R). apply (hi_le_b r); auto; lia.
Qed.

Lemma hi_b_inv r : hi_inv r -> 2 <= r_nb r -> (1 <= r_na r -> le (r_mem r (r_pa r)) (tmp (r_pb r))) -> hi_inv (hi_b tmp r).
Proof.
  intros R N C. apply (hi_bs_inv r _ 1); [exact R|lia| |].
  - intros j. replace (r_dest r - 1 + 1) with (r_dest r) by lia. replace (r_pb r - 1 + 1) with (r_pb r) by lia. apply put_memmove.
  - intros i j I J. pose proof (hi_pa r R) as Pa. pose proof (hi_pb r R). replace j with (r_pb r) by lia.
    eapply ord_trans; [typeclasses eauto| |apply C; lia]. rewrite Pa. replace (lo + r_na r - 1) with (lo + (r_na r - 1)) by lia.
    apply hi_le_a; auto; lia.
Qed.

(** The gallop through A. *)
Lemma hi_gallop_a r : hi_inv r -> 1 <= r_na r ->
  exists f, gallop_right lt (tmp (r_pb r)) (r_mem r) lo (r_na r) (r_na r - 1) = Some f /\ 0 <= f <= r_na r
    /\ let k := r_na r - f in let r' := if k =? 0 then r else hi_as k r in
       hi_inv r' /\ size r' = size r - k /\ r_nb r' = r_nb r /\ r_na r' = r_na r - k
       /\ (1 <= r_na r' -> le (r_mem r' (r_pa r')) (tmp (r_pb r'))).
Proof.
  intros R N. pose proof (hi_nb r R) as Nb. pose proof (hi_pa r R) as Pa. pose proof (hi_pb r R) as Pb.
  pose proof (hi_dest r R) as D. pose proof (hi_end r R) as E.
  destruct (gallop_right_spec lt (tmp (r_pb r)) (r_mem r) lo (r_na r) (r_na r - 1)) as (f & G & K & Lk & Gk);
    [now apply hi_sorted_a|lia|lia|].
  exists f. split; [exact G|]. split; [lia|]. cbv zeta.
  assert (C : forall i, 0 <= i < f -> le (r_mem r (lo + i)) (tmp (r_pb r))) by exact Lk.
  destruct (Z.eqb_spec (r_na r - f) 0) as [K0|K0].
  - split; [exact R|]. repeat split; try lia. intros _. rewrite Pa. replace (lo + r_na r - 1) with (lo + (r_na r - 1)) by lia. apply C. lia.
  - split; [|unfold size, hi_as; cbn; repeat split; try lia].
    + apply hi_as_inv; [exact R|lia|reflexivity|]. intros i j I J.
      eapply ord_lt_trans; [typeclasses eauto| |apply Gk; lia]. apply (hi_le_b r); auto; lia.
    + intros F. rewrite memmove_out by lia. replace (r_pa r - (r_na r - f)) with (lo + (f - 1)) by lia. apply C. lia.
Qed.

(** The gallop through B. *)
Lemma hi_gallop_b r : hi_inv r -> 1 <= r_na r ->
  exists f, gallop_left lt (r_mem r (r_pa r)) tmp 0 (r_nb r) (r_nb r - 1) = Some f /\ 1 <= f <= r_nb r
    /\ let k := r_nb r - f in let r' := if k =? 0 then r else hi_bs tmp k r in
       hi_inv r' /\ size r' = size r - k /\ r_na r' = r_na r /\ r_nb r' = r_nb r - k
       /\ ISLT (tmp (r_pb r')) (r_mem r' (r_pa r')) = true.
Proof.
  intros R N. pose proof (hi_nb r R) as Nb. pose proof (hi_pa r R) as Pa. pose proof (hi_pb r R) as Pb.
  pose proof (hi_dest r R) as D. pose proof (hi_end r R) as E.
  destruct (gallop_left_spec lt (r_mem r (r_pa r)) tmp 0 (r_nb r) (r_nb r - 1)) as (f & G & K & Lk & Gk);
    [now apply hi_sorted_b|lia|lia|].
  assert (A : forall i, 0 <= i < r_na r -> le (r_mem r (lo + i)) (r_mem r (r_pa r))).
  { intros i I. rewrite Pa. replace (lo + r_na r - 1) with (lo + (r_na r - 1)) by lia. apply hi_le_a; auto; lia. }
  assert (F1 : 1 <= f).
  { destruct (Z.leb_spec 1 f); [assumption|]. specialize (Gk 0 ltac:(lia)).
    pose proof (hi_above r (r_na r - 1) R ltac:(lia)) as Ab. replace (lo + (r_na r - 1)) with (r_pa r) in Ab by lia.
    unfold StableList.le in Gk. cbn in Gk. congruence. }
  exists f. split; [exact G|]. split; [lia|]. cbv zeta. destruct (Z.eqb_spec (r_nb r - f) 0) as [K0|K0].
  - split; [exact R|]. repeat split; try lia. rewrite Pb. apply (Lk (r_nb r - 1)). lia.
  - split; [|unfold size, hi_bs; cbn; repeat split; try lia].
    + apply hi_bs_inv; [exact R|lia|reflexivity|]. intros i j I J.
      eapply ord_trans; [typeclasses eauto|apply A; lia|]. apply (Gk j). lia.
    + rewrite memmove_out by lia. replace (r_pb r - (r_nb r - f)) with (0 + (f - 1)) by lia. apply Lk. lia.
Qed.

Lemma hi_gallop_free r g ms : hi_live r -> hi_live (with_gallop r g ms).
Proof. rewrite !hi_live_iff. intros (R & A & B). split; [|exact (conj A B)]. destruct R. now split. Qed.

Lemma hi_round_spec r : hi_live r -> exists e, hi_round lt tmp lo 0 r = Some e /\ hi_left (size r) e.
Proof.
  intros L. unfold hi_round. cbv zeta. set (r0 := lower r).
  assert (L0 : hi_live r0) by now apply hi_gallop_free. assert (S0 : size r0 = size r) by reflexivity. rewrite <- S0.
  apply hi_live_iff in L0 as (R & A & B). clearbody r0. clear L S0 r. rename r0 into r.
  destruct (hi_gallop_a r R A) as (f & -> & K & P). cbv zeta in P. set (k := r_na r - f) in *. set (r1 := if k =? 0 then _ else _) in *.
  destruct P as (R1 & S1 & Nb & Na & C). clearbody r1. assert (Hk : 0 <= k) by (unfold k; lia).
  destruct (negb (k =? 0) && (r_na r1 =? 0)) eqn:E1.
  { eexists. split; [reflexivity|]. split; [exact R1|now apply andb_prop in E1]. }
  assert (A1 : 1 <= r_na r1).
  { destruct (Z.eqb_spec k 0); cbn in E1; [lia|]. apply Z.eqb_neq in E1. pose proof (hi_na r1 R1). lia. }
  assert (R2 : hi_inv (hi_b tmp r1)) by (apply hi_b_inv; [exact R1|lia|exact C]).
  set (r2 := hi_b tmp r1) in *. assert (S2 : size r2 = size r1 - 1 /\ r_nb r2 = r_nb r1 - 1 /\ r_na r2 = r_na r1)
    by (unfold r2, size; cbn; lia). clearbody r2. destruct S2 as (S2 & Nb2 & Na2). clearbody k.
  destruct (Z.eqb_spec (r_nb r2) 1) as [Z2|Z2]; [eexists; split; [reflexivity|]; split; [exact R2|now apply Z.eqb_eq]|].
  destruct (hi_gallop_b r2 R2 ltac:(lia)) as (f' & -> & K' & P). cbv zeta in P. set (k' := r_nb r2 - f') in *.
  set (r3 := if k' =? 0 then _ else _) in *. destruct P as (R3 & S3 & Na3 & Nb3 & C3). clearbody r3.
  destruct (negb (k' =? 0) && (r_nb r3 =? 1)) eqn:E3.
  { eexists. split; [reflexivity|]. split; [exact R3|now apply andb_prop in E3]. }
  pose proof (hi_nb r3 R3) as B3. pose proof (hi_nb r2 R2) as B2. assert (Hk' : 0 <= k') by (unfold k'; lia).
  rewrite (proj2 (Z.eqb_neq (r_nb r3) 0)), andb_false_r by lia.
  assert (R4 : hi_inv (hi_a r3)) by (apply hi_a_inv; [exact R3|lia|exact C3]).
  assert (B4 : 2 <= r_nb r3).
  { destruct (Z.eqb_spec k' 0); cbn in E3; [lia|]. apply Z.eqb_neq in E3. lia. }
  destruct (Z.eqb_spec (r_na (hi_a r3)) 0) as [Z4|Z4]; (eexists; split; [reflexivity|]).
  - split; [exact R4|now apply Z.eqb_eq].
  - split; [|unfold size in *; cbn; lia]. apply hi_live_iff. split; [exact R4|]. cbn in *. lia.
Qed.

Lemma hi_succeed_merged r : hi_inv r -> r_na r = 0 -> merged lt orig m0 (hi_succeed halfH halfT hs ts tmp 0 r) lo hi.
Proof.
  intros [Na Nb Pa Pb D E F O] N. unfold hi_succeed. rewrite (proj2 (Z.eqb_neq (r_nb r) 0)) by lia.
  set (m' := copyN _ _ _ _ _ _ _ _ _).
  assert (M : forall k, m' k = memmove (r_mem r) lo tmp 0 (r_nb r) k).
  { intros k. unfold m'. rewrite copyN_memmove by assumption. f_equal. lia. }
  assert (Sg : seg m' lo (hi - lo) = seg tmp 0 (r_nb r) ++ seg (r_mem r) (r_dest r + 1) (hi - r_dest r - 1)).
  { replace (hi - lo) with (r_nb r + (hi - r_dest r - 1)) by lia. rewrite seg_app by lia. f_equal.
    - now apply seg_memmove with (m := r_mem r).
    - replace (lo + r_nb r) with (r_dest r + 1) by lia. apply seg_frame. intros k K. rewrite M. apply memmove_out. lia. }
  rewrite N, seg_0 in O. destruct O as (S & _ & SB & _). unfold merged. rewrite Sg.
  split; [exact SB|]. split; [exact S|]. intros k K. rewrite M, memmove_out by lia. now apply F.
Qed.

Lemma hi_copy_merged r : hi_inv r -> r_nb r = 1 -> merged lt orig m0 (hi_copy tmp r) lo hi.
Proof.
  intros [Na Nb Pa Pb D E F O] N. unfold hi_copy. cbv zeta.
  replace (r_dest r - r_na r) with lo by lia. replace (r_pa r - r_na r + 1) with lo by lia.
  set (m1 := memmove (r_mem r) (lo + 1) (r_mem r) lo (r_na r)). set (m' := put _ _ _).
  assert (M : forall k, k <> lo -> m' k = m1 k) by (intros k K; unfold m', put; now rewrite (proj2 (Z.eqb_neq k _))).
  assert (Sg : seg m' lo (hi - lo) = tmp (r_pb r) :: seg (r_mem r) lo (r_na r) ++ seg (r_mem r) (r_dest r + 1) (hi - r_dest r - 1)).
  { replace (hi - lo) with (1 + (r_na r + (hi - r_dest r - 1))) by lia. rewrite !seg_app, seg_1 by lia. cbn [app]. f_equal; [|f_equal].
    - unfold m', put. now rewrite Z.eqb_refl.
    - rewrite (seg_frame m1 m') by (intros k K; apply M; lia). now apply seg_memmove with (m := r_mem r).
    - replace (lo + 1 + r_na r) with (r_dest r + 1) by lia. apply seg_frame. intros k K. rewrite M by lia. apply memmove_out. lia. }
  rewrite N, seg_1 in O. replace (tmp 0) with (tmp (r_pb r)) in O by (f_equal; lia).
  destruct (back_a orig [] _ _ _ _ O) as (S & _ & SB & _).
  { intros b a [<-|[]] Ia. destruct O as (_ & _ & _ & O). now apply O. }
  unfold merged. rewrite Sg.
  split; [exact SB|]. split; [exact S|]. intros k K. rewrite M by lia. unfold m1. rewrite memmove_out by lia. now apply F.
Qed.

End Back.

Section MergeAt.

Context {H T : Type} (lt : H -> H -> bool) `{!WeakOrder lt} (halfH : H -> H -> H) (halfT : T -> T -> T) (hs ts : Z).
Context (narrow_h : hs <> 16) (narrow_t : ts <> 16).
Context (malloc : Z -> bool) (freshh : Z -> H) (fresht : Z -> T).
#[local] Abbreviation item := (H * T)%type.
#[local] Abbreviation ISLT := (ISLT (T := T) lt).
#[local] Abbreviation sorted := (sorted ISLT).
#[local] Abbreviation stable := (stable ISLT).
#[local] Abbreviation mstate := (mstate (H := H) (T := T)).
#[local] Abbreviation merge_runs := (merge_runs lt halfH halfT hs ts malloc freshh fresht).
#[local] Instance ISLT_order : WeakOrder ISLT := WeakOrder_via lt fst _.

Lemma merge_hi_spec m tmp pa na pb nb g : mergeable lt m pa na pb nb -> (forall i, 0 <= i < nb -> tmp i = m (pb + i)) ->
  exists m' g', merge_hi lt halfH halfT hs ts tmp m pa na pb nb g = Some (m', g')
    /\ merged lt (seg m pa (na + nb)) m m' pa (pb + nb).
Proof.
  intros M Tm. pose proof M as [Na Nb Nx Sh SA SB Mf Ml]. unfold merge_hi. cbv zeta.
  set (orig := seg m pa (na + nb)). set (r0 := mkRun m (pb + nb - 1) (pa + na - 1) na (nb - 1) nb g g).
  assert (Et : seg tmp 0 nb = seg m pb nb) by (apply seg_ext; intros i I; rewrite Z.add_0_l; now apply Tm).
  assert (Eo : orig = seg m pa na ++ seg m pb nb) by (unfold orig; rewrite seg_app by lia; f_equal; f_equal; lia).
  set (I := hi_inv lt orig m tmp pa (pb + nb)).
  assert (R0 : I r0).
  { split; unfold r0; cbn [r_mem r_dest r_pa r_na r_pb r_nb]; try lia; [reflexivity|].
    replace (pb + nb - (pb + nb - 1) - 1) with 0 by lia. rewrite seg_0, Et. split; [rewrite app_nil_r; now rewrite Eo|].
    rewrite !app_nil_r. split; [exact SA|]. split; [exact SB|].
    intros a Ia. apply In_seg in Ia as (j & J & ->). rewrite Tm, Z.add_0_r by lia. now apply Mf. }
  assert (R1 : I (hi_a r0)).
  { apply (hi_a_inv lt); [exact R0|cbn; lia|]. cbn. rewrite Tm by lia. apply Ml. lia. }
  set (r1 := hi_a r0) in *. clearbody r1. clear R0 r0.
  assert (Done : forall e, match e with Succeed r => I r /\ (r_na r =? 0) = true
              | Copy r => I r /\ (r_nb r =? 1) = true | Next _ _ _ => False end ->
            exists m' g', finish (hi_succeed halfH halfT hs ts tmp 0) (hi_copy tmp) (Some e) = Some (m', g') /\ merged lt orig m m' pa (pb + nb)).
  { intros [r|r|? ? r] Q; [| |destruct Q]; destruct Q as (Q & E); apply Z.eqb_eq in E; do 2 eexists; (split; [reflexivity|]).
    - now apply hi_succeed_merged.
    - now apply hi_copy_merged. }
  destruct (r_na r1 =? 0) eqn:E1; [now apply (Done (Succeed r1))|]. destruct (r_nb r1 =? 1) eqn:E2; [now apply (Done (Copy r1))|].
  destruct (merging_spec I (fun r => ISLT (tmp (r_pb r)) (r_mem r (r_pa r)))
    (fun r => r_na r =? 0) (fun r => r_nb r =? 1) hi_a (hi_b tmp) (hi_round lt tmp pa 0)) with (fuel := fuel_of r1) (r := r1)
    as (e & E & Q).
  - intros r L. apply hi_live_iff in L as (_ & A & B). unfold size. lia.
  - intros r L W. apply hi_live_iff in L as (R & A & B). split; [now apply (hi_a_inv lt)|].
    split; [unfold size; cbn; lia|]. apply Z.eqb_neq. cbn. lia.
  - intros r L W. apply hi_live_iff in L as (R & A & B). split; [now apply (hi_b_inv lt)|].
    split; [unfold size; cbn; lia|]. apply Z.eqb_neq. cbn. lia.
  - intros r L. apply (hi_round_spec lt orig m tmp pa (pb + nb)); auto. lia.
  - intros r g' ms L. now apply hi_gallop_free.
  - split; [exact R1|now split].
  - unfold fuel_of, size. lia.
  - unfold hi_plain. rewrite E. now apply Done.
Qed.

(** The rows are merged, or no memory is granted and nothing has moved. *)
Definition merges (s : mstate) (a b : slice) (o : outcome) : Prop :=
  match o with
  | Ok s' => merged lt (seg (rows s) (base a) (len a + len b)) (rows s) (rows s') (base a) (base b + len b) /\ pending s' = pending s
  | NoMemory s' => rows s' = rows s /\ exists n, malloc n = false
  | _ => False
  end.

Lemma getmem_frame s need :
  match MERGE_GETMEMH hs malloc freshh s need with
  | Some s' => rows s' = rows s /\ pending s' = pending s
  | None => malloc (need * hs) = false
  end
  /\ match MERGE_GETMEMT ts malloc fresht s need with
     | Some s' => rows s' = rows s /\ pending s' = pending s
     | None => malloc (need * ts) = false
     end.
Proof.
  unfold MERGE_GETMEMH, MERGE_GETMEMT.
  split; destruct (_ <=? _); auto; destruct (malloc _) eqn:E; auto.
Qed.

Lemma sorted_around A0 A1 B1 B2 L : sorted (A0 ++ A1) -> sorted (B1 ++ B2) -> sorted L -> stable (A1 ++ B1) L ->
  (forall x y, In x A0 -> In y (B1 ++ B2) -> le ISLT x y) -> (forall x y, In x A1 -> In y B2 -> le ISLT x y) ->
  sorted (A0 ++ L ++ B2) /\ stable ((A0 ++ A1) ++ B1 ++ B2) (A0 ++ L ++ B2).
Proof.
  intros SA SB SL S C D. apply sorted_app in SA as (S1 & S2 & S3), SB as (S4 & S5 & S6).
  assert (I : forall x, In x L -> In x A1 \/ In x B1).
  { intros x Ix. apply in_app_or. apply (Permutation_in x (Permutation_sym (stable_Permutation _ _ _ S)) Ix). }
  split.
  - apply sorted_app. split; [exact S1|]. split.
    + apply sorted_app. split; [exact SL|]. split; [exact S5|]. intros x y Ix Iy. destruct (I x Ix); auto.
    + intros x y Ix Iy. apply in_app_or in Iy as [Iy|Iy]; [destruct (I y Iy); auto|]; apply C; auto using in_or_app.
  - rewrite <- app_assoc. apply app_stable; [reflexivity|]. rewrite app_assoc. now apply app_stable.
Qed.

(** A merge of the end of A and the beginning of B is one of A and B, if the rest is in place. *)
Lemma merged_around m m' a b k na nb :
  0 <= k -> 0 <= na -> k + na = len a -> 0 <= nb <= len b -> base a + len a = base b ->
  sorted (seg m (base a) (len a)) -> sorted (seg m (base b) (len b)) ->
  (forall i j, 0 <= i < k -> 0 <= j < len b -> le ISLT (m (base a + i)) (m (base b + j))) ->
  (forall i j, k <= i < len a -> nb <= j < len b -> le ISLT (m (base a + i)) (m (base b + j))) ->
  merged lt (seg m (base a + k) (na + nb)) m m' (base a + k) (base b + nb) ->
  merged lt (seg m (base a) (len a + len b)) m m' (base a) (base b + len b).
Proof.
  intros K Na Ka Nb Nx SA SB Ck Cn (S1 & S2 & S3). replace (base b + nb - (base a + k)) with (na + nb) in * by lia.
  rewrite (seg_split m (base a) (len a) k) in SA by lia. rewrite (seg_split m (base b) (len b) nb) in SB by lia.
  rewrite (seg_app m (base a + k) na nb) in S2 by lia. replace (base a + k + na) with (base b) in S2 by lia.
  replace (len a - k) with na in SA by lia.
  destruct (sorted_around _ _ _ _ _ SA SB S1 S2) as (Q1 & Q2).
  - intros x y Ix Iy. rewrite <- seg_split in Iy by lia. apply In_seg in Ix as (i & I & ->), Iy as (j & J & ->). now apply Ck.
  - intros x y Ix Iy. apply In_seg in Ix as (i & I & ->), Iy as (j & J & ->).
    rewrite <- !Z.add_assoc. apply Cn; lia.
  - assert (Sg : seg m' (base a) (base b + len b - base a)
      = seg m (base a) k ++ seg m' (base a + k) (na + nb) ++ seg m (base b + nb) (len b - nb)).
    { replace (base b + len b - base a) with (k + ((na + nb) + (len b - nb))) by lia. rewrite !(seg_app m') by lia.
      f_equal; [|f_equal].
      - apply seg_frame. intros i I. apply S3. lia.
      - replace (base a + k + (na + nb)) with (base b + nb) by lia. apply seg_frame. intros i I. apply S3. lia. }
    unfold merged. rewrite Sg. split; [exact Q1|]. split; [|intros i I; apply S3; lia].
    rewrite seg_app by lia. replace (base a + len a) with (base b) by lia.
    rewrite (seg_split m (base a) (len a) k), (seg_split m (base b) (len b) nb) by lia. replace (len a - k) with na by lia. exact Q2.
Qed.

Lemma merge_runs_spec s a b :
  1 <= len a -> 1 <= len b -> base a + len a = base b -> len a + len b <= 2 ^ 62 ->
  sorted (seg (rows s) (base a) (len a)) -> sorted (seg (rows s) (base b) (len b)) ->
  merges s a b (merge_runs s a b).
Proof.
  intros La L_b Nx Sh SA SB. unfold SsortMerge.merge_runs. set (m := rows s) in *.
  pose proof (proj1 (sorted_seg lt m (base a) (len a)) SA) as PA. pose proof (proj1 (sorted_seg lt m (base b) (len b)) SB) as PB.
  destruct (gallop_right_spec lt (m (base b)) m (base a) (len a) 0 SA) as (k & -> & K & Lk & Gk); [lia|lia|].
  assert (Ck : forall i j, 0 <= i < k -> 0 <= j < len b -> le ISLT (m (base a + i)) (m (base b + j))).
  { intros i j I J. apply (ord_trans ISLT _ (m (base b))); [now apply Lk|].
    rewrite <- (Z.add_0_r (base b)) at 1. apply PB; lia. }
  assert (Keep : forall nb, 0 <= nb <= len b -> (nb = 0 \/ k = len a) ->
    (forall i j, k <= i < len a -> nb <= j < len b -> le ISLT (m (base a + i)) (m (base b + j))) ->
    merges s a b (Ok s)).
  { intros nb Nb Z0 C. split; [|reflexivity]. destruct Z0 as [-> | ->].
    - apply (merged_around m m a b k (len a - k) 0); auto; try lia.
      rewrite !Z.add_0_r. replace (base b) with (base a + k + (len a - k)) by lia. unfold merged.
      replace (base a + k + (len a - k) - (base a + k)) with (len a - k) by lia. split; [|split; [reflexivity|auto]].
      rewrite (seg_split m (base a) (len a) k) in SA by lia. now apply sorted_app in SA.
    - apply (merged_around m m a b (len a) 0 0); auto; try lia.
      unfold merged. replace (base b + 0 - (base a + len a)) with 0 by lia. rewrite seg_0. split; [constructor|split; [reflexivity|auto]]. }
  cbv zeta. destruct (Z.eqb_spec (len a - k) 0) as [Na|Na]; [apply (Keep 0); [lia|now left|intros; lia]|].
  replace (base a + k + (len a - k) - 1) with (base a + (len a - 1)) by lia.
  destruct (gallop_left_spec lt (m (base a + (len a - 1))) m (base b) (len b) (len b - 1) SB) as (nb & -> & Kb & Lb & Gb); [lia|lia|].
  assert (Cn : forall i j, k <= i < len a -> nb <= j < len b -> le ISLT (m (base a + i)) (m (base b + j))).
  { intros i j I J. apply (ord_trans ISLT _ (m (base a + (len a - 1)))); [apply PA; lia|now apply Gb]. }
  destruct (Z.leb_spec nb 0) as [N0|N0]; [apply (Keep nb); auto; lia|].
  destruct (getmem_frame s (Z.min (len a - k) nb)) as (Fh & _).
  destruct (MERGE_GETMEMH _ _ _ s _) as [s1|]; [|split; [reflexivity|eauto]]. destruct Fh as (Fr & Fp).
  destruct (getmem_frame s1 (Z.min (len a - k) nb)) as (_ & Ft).
  destruct (MERGE_GETMEMT _ _ _ s1 _) as [s2|]; [|split; [exact Fr|eauto]]. destruct Ft as (Fr2 & Fp2).
  rewrite Fr2, Fr. fold m.
  assert (M : mergeable lt m (base a + k) (len a - k) (base b) nb).
  { split; try lia.
    - rewrite (seg_split m (base a) (len a) k) in SA by lia. now apply sorted_app in SA.
    - rewrite (seg_split m (base b) (len b) nb) in SB by lia. now apply sorted_app in SB.
    - intros i I. rewrite <- Z.add_assoc. apply Gk. lia.
    - intros j J. replace (base a + k + (len a - k) - 1) with (base a + (len a - 1)) by lia. now apply Lb. }
  assert (Tmp : forall src i, 0 <= i < Z.min (len a - k) nb ->
    copyN halfH halfT hs ts (tempo s2) 0 m src (Z.min (len a - k) nb) i = m (src + i)).
  { intros src i I. rewrite copyN_memmove, memmove_in by (assumption || lia). f_equal. lia. }
  destruct (Z.leb_spec (len a - k) nb) as [Le|Le].
  - destruct (merge_lo_spec lt halfH halfT hs ts narrow_h narrow_t m
      (copyN halfH halfT hs ts (tempo s2) 0 m (base a + k) (Z.min (len a - k) nb)) _ _ _ _ (min_gallop s2) M)
      as (m' & g & -> & Q); [intros i I; apply Tmp; lia|].
    split; [|cbn; congruence]. now apply (merged_around m m' a b k (len a - k) nb); auto; try lia.
  - destruct (merge_hi_spec m
      (copyN halfH halfT hs ts (tempo s2) 0 m (base b) (Z.min (len a - k) nb)) _ _ _ _ (min_gallop s2) M)
      as (m' & g & -> & Q); [intros i I; apply Tmp; lia|].
    split; [|cbn; congruence]. now apply (merged_around m m' a b k (len a - k) nb); auto; try lia.
Qed.

End MergeAt.
