(* ===== verification/SsortStack.v ===== *)
(** * The stack of runs of the stable sort

    gdk/gdk_ssort_impl.h, the part of [do_ssort] that decides which runs on the
    stack are merged.  The comment there promises two conditions for the whole
    stack, as for the original algorithm; only the top of the stack satisfies
    them ([stack_condition_broken]).  The theorems say what does hold, and that
    it is enough for the stack not to overflow. *)

From Stdlib Require Import ZArith Lia Bool List.
Import ListNotations.
From S2P Require Import Prelude SsortMerge.

Open Scope Z_scope.
Open Scope list_scope.

(** ** The code *)

(** The stack: which runs are to be merged next, [None] when its conditions hold. *)
Definition collapse_next (p : list slice) : option bool :=
  match p with
  | c :: b :: a :: _ =>
      if len a <=? len b + len c then Some (len a <? len c)
      else if len b <=? len c then Some false else None
  | c :: b :: nil => if len b <=? len c then Some false else None
  | _ => None
  end.
(** At the end all runs are merged. *)
Definition force_next (p : list slice) : option bool :=
  match p with
  | c :: b :: a :: _ => Some (len a <? len c)
  | c :: b :: nil => Some false
  | _ => None
  end.

(** ** The lengths alone *)

Definition lens (p : list slice) : list Z := map len p.

Definition collapse_lens (p : list Z) : option bool :=
  match p with
  | c :: b :: a :: _ => if a <=? b + c then Some (a <? c) else if b <=? c then Some false else None
  | c :: b :: nil => if b <=? c then Some false else None
  | _ => None
  end.
Definition join_lens (third : bool) (p : list Z) : list Z :=
  match third, p with
  | false, b :: a :: l => a + b :: l
  | true, c :: b :: a :: l => c :: a + b :: l
  | _, _ => p
  end.

Lemma collapse_next_lens p : collapse_next p = collapse_lens (lens p).
Proof. destruct p as [|c [|b [|a p]]]; reflexivity. Qed.

(** What the loop makes of the lengths on the stack. *)
Inductive collapses : list Z -> list Z -> Prop :=
| collapses_stop p : collapse_lens p = None -> collapses p p
| collapses_step p third p' : collapse_lens p = Some third -> collapses (join_lens third p) p' -> collapses p p'.

(** ** What holds of the whole stack

    Every length [b] comes with a number: the longest that the last run has been while [b]
    was the last but one.  The length below [b] exceeds their sum.  The run on top of [b] is
    still this last run, or it was merged from several ([a <= 7 * r]). *)
Fixpoint linked (a r : Z) (l : list (Z * Z)) : Prop :=
  match l with
  | [] => True
  | (b, s) :: l => a + r < b /\ 0 <= s <= a /\ (a = s \/ a <= 7 * r /\ s < r) /\ linked b s l
  end.

Definition stack_inv (p : list Z) : Prop :=
  match p with
  | [] => True
  | a :: l => 0 < a /\ exists l', map fst l' = l /\ linked a 0 l'
  end.

(** The sum of the lengths from the top down to [a] is at most [S]. *)
Record heavy (S a r : Z) : Prop := {
  heavy_range : 0 <= r <= a; heavy_pos : 0 < a; heavy_own : a <= S;
  heavy_self : S <= 7 * a;
  heavy_next : S <= 6 * (a + r);
  heavy_merged : a <= 7 * r -> S <= a + 7 * r \/ S <= 5 * a \/ S <= 6 * a - 5 * r \/ S <= 7 * a - 11 * r;
}.

Lemma heavy_step S a r b s : heavy S a r -> a + r < b -> 0 <= s <= a -> a = s \/ a <= 7 * r /\ s < r -> heavy (S + b) b s.
Proof.
  intros [R P O F N M] B Sa C. split; try lia; destruct C as [-> |(C1 & C2)]; try lia; specialize (M C1); lia.
Qed.

(** The sums grow by a sixth from run to run. *)
Lemma linked_sum l S a r : heavy S a r -> linked a r l ->
  7 ^ Z.of_nat (List.length l) * S <= 6 ^ Z.of_nat (List.length l) * (S + fold_right Z.add 0 (map fst l)).
Proof.
  revert S a r. induction l as [|[b s] l IH]; intros S a r Hv L; cbn [map fst fold_right linked] in *; [cbn [List.length]; lia|].
  destruct L as (B & Sa & C & L). specialize (IH (S + b) b s (heavy_step _ _ _ _ _ Hv B Sa C) L).
  cbn [List.length]. rewrite Nat2Z.inj_succ, !Z.pow_succ_r by lia.
  pose proof (heavy_next _ _ _ Hv). assert (7 * S <= 6 * (S + b)) by lia.
  pose proof (Z.pow_pos_nonneg 7 (Z.of_nat (List.length l)) ltac:(lia) ltac:(lia)). nia.
Qed.

(** A stack is as deep as the logarithm of the rows it covers. *)
Lemma stack_depth p a : stack_inv (a :: p) -> forall n, fold_right Z.add 0 (a :: p) <= n ->
  7 ^ Z.of_nat (List.length p) * a <= 6 ^ Z.of_nat (List.length p) * n.
Proof.
  intros (P & l & <- & L) n N. cbn [fold_right] in N.
  assert (Hv : heavy a a 0) by (split; lia).
  pose proof (linked_sum l a a 0 Hv L) as D. rewrite length_map.
  pose proof (Z.pow_pos_nonneg 6 (Z.of_nat (List.length l)) ltac:(lia) ltac:(lia)). nia.
Qed.

(** During the loop: the last run [x], and one below it that is on its own or merged from several
    of which [c] was the lowest. *)
Inductive collapsing : list Z -> Prop :=
| collapsing_1 x : 0 < x -> collapsing [x]
| collapsing_2 x u S c r l : 0 < x -> heavy S c r -> linked c r l -> u <= S ->
    (u = c /\ r <= x \/ c <= u /\ c < x) -> collapsing (x :: u :: map fst l).

Lemma collapsing_push p x : stack_inv p -> 0 < x -> collapsing (x :: p).
Proof.
  destruct p as [|a l]; intros I X; [now constructor|]. destruct I as (P & l' & <- & L).
  apply (collapsing_2 x a a a 0 l'); [exact X|split; lia|exact L|lia|left; lia].
Qed.

Lemma collapsing_stop p : collapsing p -> collapse_lens p = None -> stack_inv p.
Proof.
  intros [x X|x u S c r l X Hv L U D] E; [split; [exact X|now exists []]|].
  pose proof (heavy_range _ _ _ Hv). pose proof (heavy_self _ _ _ Hv).
  assert (Xu : x < u /\ match l with [] => True | (b, s) :: _ => u + x < b end).
  { destruct l as [|[b s] l]; cbn in E; [destruct (Z.leb_spec u x); [discriminate|lia]|].
    destruct (Z.leb_spec b (u + x)); [destruct (b <? x); discriminate|]. destruct (Z.leb_spec u x); [discriminate|lia]. }
  split; [exact X|]. exists ((u, x) :: l). split; [reflexivity|]. cbn [linked]. split; [lia|]. split; [lia|]. split; [now left|].
  destruct l as [|[b s] l]; [exact I|]. cbn [linked] in *. destruct L as (B & Sc & C & L). repeat (split; [lia|]). exact L.
Qed.

Lemma collapsing_step p third : collapsing p -> collapse_lens p = Some third -> collapsing (join_lens third p).
Proof.
  intros [x X|x u S c r l X Hv L U D] E; [discriminate|].
  pose proof (heavy_range _ _ _ Hv). pose proof (heavy_pos _ _ _ Hv).
  destruct l as [|[b s] l]; cbn in E.
  - destruct (u <=? x); [|discriminate]. injection E as <-. cbn. constructor. lia.
  - cbn [linked map fst] in *. destruct L as (B & Sc & C & L). pose proof (heavy_step _ _ _ _ _ Hv B Sc C) as Hb.
    assert (Absorb : collapsing (u + x :: b :: map fst l)) by (apply (collapsing_2 _ b (S + b) b s l); auto; try lia; pose proof (heavy_own _ _ _ Hv); lia).
    destruct (b <=? u + x); [|destruct (u <=? x); [|discriminate]; now injection E as <-].
    destruct (Z.ltb_spec b x) as [Lt|Ge]; injection E as <-; [|exact Absorb].
    cbn [join_lens]. apply (collapsing_2 x (b + u) (S + b) b s l); auto; lia.
Qed.

Lemma collapses_inv p p' : collapses p p' -> collapsing p -> stack_inv p'.
Proof. induction 1 as [p E|p third p' E _ IH]; intros C; [now apply collapsing_stop|]. apply IH. now apply collapsing_step. Qed.

(** ** What does not hold *)

(** The last three of five runs are merged so that the conditions hold at the
    top; below, 24 <= 16 + 9. *)
Lemma stack_condition_broken :
  collapses [6; 4; 5; 16; 24] [6; 9; 16; 24].
Proof. apply (collapses_step _ true); [reflexivity|]. apply collapses_stop. reflexivity. Qed.
