(* ===== verification/Ssort.v ===== *)
(** * The stable sort

    gdk/gdk_ssort.c and the second half of gdk/gdk_ssort_impl.h, a timsort:
    natural runs are found and extended by binary insertion, kept on a stack,
    and merged.  The theorems say that it sorts, that equal rows stay in their order,
    and that all loops end. *)

From Stdlib Require Import ZArith Lia Bool List Permutation Sorted.
Import ListNotations.
From S2P Require Import Prelude Sort StableList SsortMerge SsortBack SsortStack.

Open Scope Z_scope.
Open Scope list_scope.

(** ** The code *)

Definition MAX_MERGE_PENDING : Z := 85.

(** [merge_compute_minrun]. *)
Fixpoint minrun_loop (fuel : nat) (n r : Z) : Z :=
  match fuel with
  | O => n + r
  | S f => if 16 <=? n then minrun_loop f (Z.shiftr n 1) (Z.lor r (Z.land n 1)) else n + r
  end.
Definition merge_compute_minrun (n : Z) : Z := minrun_loop 64 n 0.

Section Timsort.

Context {H T : Type} (lt : H -> H -> bool) (halfH : H -> H -> H) (halfT : T -> T -> T) (hs ts : Z).
Context (malloc : Z -> bool) (freshh : Z -> H) (fresht : Z -> T).
#[local] Abbreviation item := (H * T)%type.
#[local] Abbreviation ISLT := (ISLT (T := T) lt).
#[local] Abbreviation mstate := (mstate (H := H) (T := T)).
#[local] Abbreviation outcome := (outcome (H := H) (T := T)).
#[local] Abbreviation merge_at := (merge_at lt halfH halfT hs ts malloc freshh fresht).

Definition with_rows (s : mstate) (m : Z -> item) : mstate :=
  mkState m (tempo s) (allocedh s) (allocedt s) (min_gallop s) (pending s).

Fixpoint reverse_loop (fuel : nat) (m : Z -> item) (lo hi : Z) : Z -> item :=
  match fuel with
  | O => m
  | S f => if lo <? hi then reverse_loop f (put (put m lo (m hi)) hi (m lo)) (lo + 1) (hi - 1) else m
  end.
Definition reverse_slice (m : Z -> item) (lo hi : Z) : Z -> item := reverse_loop (Z.to_nat (hi - lo)) m lo (hi - 1).

(** [binarysort]: the slots from [start] on are inserted one by one; [slide] makes room. *)
Fixpoint slide (fuel : nat) (m : Z -> item) (p l : Z) : Z -> item :=
  match fuel with
  | O => m
  | S f => if l <? p then slide f (put m p (m (p - 1))) (p - 1) l else m
  end.
Definition insert_row (m : Z -> item) (lo start : Z) : option (Z -> item) :=
  let pivot := m start in
  match gallop_in 64 (fun p => negb (ISLT pivot (m p))) lo start with
  | Some l => Some (put (slide (Z.to_nat (start - l)) m start l) l pivot)
  | None => None
  end.
Fixpoint insert_rows (fuel : nat) (m : Z -> item) (lo hi start : Z) : option (Z -> item) :=
  match fuel with
  | O => Some m
  | S f =>
      if start <? hi then
        match insert_row m lo start with
        | Some m => insert_rows f m lo hi (start + 1)
        | None => None
        end
      else Some m
  end.
Definition binarysort (m : Z -> item) (lo hi start : Z) : option (Z -> item) :=
  let start := if lo =? start then start + 1 else start in
  insert_rows (Z.to_nat (hi - start)) m lo hi start.

(** The next run: its length, and whether it descends. *)
Fixpoint run_loop (fuel : nat) (goes : item -> item -> bool) (m : Z -> item) (nlo hi n : Z) : Z :=
  match fuel with
  | O => n
  | S f => if nlo <? hi then if goes (m nlo) (m (nlo - 1)) then run_loop f goes m (nlo + 1) hi (n + 1) else n else n
  end.
Definition next_run (m : Z -> item) (lo hi : Z) : Z * bool :=
  if lo + 1 =? hi then (1, false)
  else if ISLT (m (lo + 1)) (m lo)
  then (run_loop (Z.to_nat (hi - lo)) ISLT m (lo + 2) hi 2, true)
  else (run_loop (Z.to_nat (hi - lo)) (fun x y => negb (ISLT x y)) m (lo + 2) hi 2, false).

Fixpoint merge_while (next : list slice -> option bool) (fuel : nat) (s : mstate) : outcome :=
  match next (pending s) with
  | None => Ok s
  | Some third =>
      match fuel with
      | O => Stuck
      | S f => match merge_at s third with Ok s => merge_while next f s | o => o end
      end
  end.
Definition merge_collapse (s : mstate) : outcome := merge_while collapse_next (List.length (pending s)) s.
Definition merge_force (s : mstate) : outcome := merge_while force_next (List.length (pending s)) s.

(** The next run, in ascending order and as long as it has to be. *)
Definition prepare_run (s : mstate) (nremaining lo hi minrun : Z) : option (mstate * Z) :=
  let '(n, descending) := next_run (rows s) lo hi in
  let m := if descending then reverse_slice (rows s) lo (lo + n) else rows s in
  if n <? minrun then
    let force := if nremaining <=? minrun then nremaining else minrun in
    match binarysort m lo (lo + force) (lo + n) with
    | Some m => Some (with_rows s m, force)
    | None => None
    end
  else Some (with_rows s m, n).

Fixpoint do_runs (fuel : nat) (s : mstate) (nremaining lo hi minrun : Z) : outcome :=
  match fuel with
  | O => Stuck
  | S f =>
      match prepare_run s nremaining lo hi minrun with
      | None => Stuck
      | Some (s, n) =>
          if MAX_MERGE_PENDING <=? Z.of_nat (List.length (pending s)) then Full s
          else
            match merge_collapse (with_pending s (mkSlice lo n :: pending s)) with
            | Ok s =>
                let lo := lo + n in
                let nremaining := nremaining - n in
                if 0 <? nremaining then do_runs f s nremaining lo hi minrun else Ok s
            | o => o
            end
      end
  end.
Definition do_ssort (s : mstate) (nremaining lo hi minrun : Z) : outcome :=
  match do_runs (Z.to_nat nremaining) s nremaining lo hi minrun with
  | Ok s => merge_force s
  | o => o
  end.

(** The state [GDKssort] starts with; the temporary area holds anything. *)
Definition initial (m : Z -> item) (junk : Z -> item) : mstate :=
  mkState m junk MERGESTATE_TEMP_SIZE MERGESTATE_TEMP_SIZE MIN_GALLOP [].

Definition GDKssortimpl (m junk : Z -> item) (nitems : Z) : outcome :=
  let s := initial m junk in
  if nitems <? 2 then Ok s
  else
    match do_ssort s nitems 0 nitems (merge_compute_minrun nitems) with
    | Ok s =>
        match pending s with
        | [p] => if (base p =? 0) && (len p =? nitems) then Ok s else Stuck
        | _ => Stuck
        end
    | o => o
    end.

End Timsort.

(** ** The instances *)

Inductive instance := I_bte | I_sht | I_int | I_lng | I_flt | I_dbl | I_oid | I_any.

Section Instances.

(** A head slot is a [Z], as in [GDKqsort]. *)
Context {T V : Type} (atomCmp : V -> V -> Z) (fltCmp : Z -> Z -> Z) (at_heap at_slot : Z -> V).

(** [ISLT_bte] to [ISLT_any] and [ISLT_bte_rev] to [ISLT_any_rev]; an [oid] has no sign. *)
Definition ISLT_of (i : instance) (heap reverse : bool) (x y : Z) : bool :=
  let c :=
    match i with
    | I_bte | I_sht | I_int | I_lng => num_cmp x y
    | I_flt | I_dbl => fltCmp x y
    | I_oid => num_cmp (u64 x) (u64 y)
    | I_any => if heap then atomCmp (at_heap x) (at_heap y) else atomCmp (at_slot x) (at_slot y)
    end in
  if reverse then c >? 0 else c <? 0.

Context (halfH : Z -> Z -> Z) (halfT : T -> T -> T) (hs ts : Z) (malloc : Z -> bool) (freshh : Z -> Z) (fresht : Z -> T).

Definition GDKssort (i : instance) (heap : bool) (m junk : Z -> Z * T) (nitems : Z) : outcome :=
  GDKssortimpl (ISLT_of i heap false) halfH halfT hs ts malloc freshh fresht m junk nitems.
Definition GDKssort_rev (i : instance) (heap : bool) (m junk : Z -> Z * T) (nitems : Z) : outcome :=
  GDKssortimpl (ISLT_of i heap true) halfH halfT hs ts malloc freshh fresht m junk nitems.

End Instances.

(** ** Rows that have moved within a range *)

Section Sorts.

Context {H T : Type} (lt : H -> H -> bool) `{!WeakOrder lt} (halfH : H -> H -> H) (halfT : T -> T -> T) (hs ts : Z).
Context (narrow_h : hs <> 16) (narrow_t : ts <> 16).
Context (malloc : Z -> bool) (freshh : Z -> H) (fresht : Z -> T).
#[local] Abbreviation item := (H * T)%type.
#[local] Abbreviation ISLT := (ISLT (T := T) lt).
#[local] Abbreviation sorted := (sorted ISLT).
#[local] Abbreviation stable := (stable ISLT).
#[local] Abbreviation le := (le ISLT).
#[local] Abbreviation mstate := (mstate (H := H) (T := T)).
#[local] Abbreviation merge_at := (merge_at lt halfH halfT hs ts malloc freshh fresht).
#[local] Instance ISLT_sorts : WeakOrder ISLT := WeakOrder_via lt fst _.

Definition moved (m m' : Z -> item) (lo hi : Z) : Prop :=
  stable (seg m lo (hi - lo)) (seg m' lo (hi - lo)) /\ forall k, k < lo \/ hi <= k -> m' k = m k.

Lemma moved_refl m lo hi : moved m m lo hi.
Proof. split; [reflexivity|auto]. Qed.

Lemma moved_trans m1 m2 m3 lo hi : moved m1 m2 lo hi -> moved m2 m3 lo hi -> moved m1 m3 lo hi.
Proof. intros (S & F) (S' & F'). split; [now rewrite S|]. intros k K. now rewrite F', F. Qed.

Lemma moved_wider m m' lo hi lo' hi' : lo' <= lo -> lo <= hi -> hi <= hi' -> moved m m' lo hi -> moved m m' lo' hi'.
Proof.
  intros L1 L2 L3 (S & F). split; [|intros k K; apply F; lia].
  replace (hi' - lo') with ((lo - lo') + ((hi - lo) + (hi' - hi))) by lia. rewrite !seg_app by lia.
  replace (lo' + (lo - lo')) with lo by lia. replace (lo + (hi - lo)) with hi by lia.
  rewrite (seg_frame m m' lo'), (seg_frame m m' hi) by (intros k K; apply F; lia).
  apply app_stable; [reflexivity|]. now apply app_stable.
Qed.

Lemma merged_moved m m' lo hi : merged lt (seg m lo (hi - lo)) m m' lo hi <-> sorted (seg m' lo (hi - lo)) /\ moved m m' lo hi.
Proof. unfold merged, moved. tauto. Qed.

(** A range is sorted when neighbours are. *)
Lemma sorted_neighbours m lo n : (forall i, lo < i < lo + n -> le (m (i - 1)) (m i)) -> sorted (seg m lo n).
Proof.
  intros N. apply sorted_seg; [typeclasses eauto|]. intros i j I L J.
  assert (D : 0 <= j - i) by lia. revert J. replace j with (i + (j - i)) by lia. pattern (j - i).
  apply natlike_ind; [| |exact D].
  - intros _. rewrite Z.add_0_r. apply ord_refl. typeclasses eauto.
  - intros d P IH J. eapply ord_trans; [typeclasses eauto|apply IH; lia|].
    replace (lo + (i + d)) with (lo + (i + Z.succ d) - 1) by lia. apply N. lia.
Qed.

(** ** Runs *)

Lemma run_loop_spec fuel goes (m : Z -> item) lo nlo hi :
  nlo <= hi -> hi - nlo <= Z.of_nat fuel ->
  let n := run_loop fuel goes m nlo hi (nlo - lo) in
  nlo - lo <= n <= hi - lo /\ forall i, nlo <= i < lo + n -> goes (m i) (m (i - 1)) = true.
Proof.
  revert nlo. induction fuel as [|f IH]; intros nlo N F; cbn [run_loop]; cbv zeta; [split; intros; lia|].
  destruct (Z.ltb_spec nlo hi) as [L|L]; [|split; intros; lia].
  destruct (goes (m nlo) (m (nlo - 1))) eqn:G; [|split; intros; lia].
  replace (nlo - lo + 1) with (nlo + 1 - lo) by lia. destruct (IH (nlo + 1)) as (A & B); [lia|lia|]. split; [lia|].
  intros i I. destruct (Z.eq_dec i nlo) as [->|Ne]; [exact G|]. apply B. lia.
Qed.

Lemma next_run_spec m lo hi : lo < hi ->
  let '(n, descending) := next_run lt m lo hi in
  1 <= n <= hi - lo
  /\ forall i, lo < i < lo + n -> if descending then ISLT (m i) (m (i - 1)) = true else le (m (i - 1)) (m i).
Proof.
  intros L. unfold next_run. destruct (Z.eqb_spec (lo + 1) hi) as [E|E]; [split; intros; lia|].
  destruct (SsortMerge.ISLT lt (m (lo + 1)) (m lo)) eqn:D; cbv iota.
  - destruct (run_loop_spec (Z.to_nat (hi - lo)) ISLT m lo (lo + 2) hi) as (A & B); [lia|lia|].
    replace (lo + 2 - lo) with 2 in A, B by lia. split; [lia|]. intros i I.
    destruct (Z.eq_dec i (lo + 1)) as [->|Ne]; [now replace (lo + 1 - 1) with lo by lia|]. apply B. lia.
  - destruct (run_loop_spec (Z.to_nat (hi - lo)) (fun x y => negb (ISLT x y)) m lo (lo + 2) hi) as (A & B); [lia|lia|].
    replace (lo + 2 - lo) with 2 in A, B by lia. split; [lia|]. intros i I.
    destruct (Z.eq_dec i (lo + 1)) as [->|Ne]; [now replace (lo + 1 - 1) with lo by lia|]. apply negb_true_iff, B. lia.
Qed.

Lemma reverse_loop_spec fuel (m : Z -> item) lo hi k : hi - lo < Z.of_nat fuel ->
  reverse_loop fuel m lo hi k = if (lo <=? k) && (k <=? hi) then m (lo + hi - k) else m k.
Proof.
  revert m lo hi. induction fuel as [|f IH]; intros m lo hi F; cbn [reverse_loop].
  - destruct (Z.leb_spec lo k), (Z.leb_spec k hi); cbn; reflexivity || lia.
  - destruct (Z.ltb_spec lo hi) as [L|L].
    + rewrite IH by lia. unfold put.
      destruct (Z.leb_spec lo k), (Z.leb_spec k hi), (Z.leb_spec (lo + 1) k), (Z.leb_spec k (hi - 1)); cbn [andb];
        repeat match goal with |- context[?a =? ?b] => destruct (Z.eqb_spec a b) end; f_equal; lia.
    + destruct (Z.leb_spec lo k), (Z.leb_spec k hi); cbn; try reflexivity. f_equal. lia.
Qed.

Lemma seg_rev (m m' : Z -> item) lo lo' n : 0 <= n -> (forall i, 0 <= i < n -> m' (lo' + i) = m (lo + n - 1 - i)) ->
  seg m' lo' n = rev (seg m lo n).
Proof.
  intros N. revert lo'. pattern n. apply natlike_ind; [reflexivity| |exact N]. clear n N. intros n N IH lo' E.
  replace (Z.succ n) with (1 + n) by lia. rewrite seg_app, seg_1 by lia.
  replace (1 + n) with (n + 1) by lia. rewrite seg_app, rev_app_distr, seg_1 by lia. cbn [rev app]. f_equal.
  - rewrite <- (Z.add_0_r lo'), (E 0) by lia. f_equal. lia.
  - apply IH. intros i I. rewrite <- Z.add_assoc, (E (1 + i)) by lia. f_equal. lia.
Qed.

Lemma stable_rev (m : Z -> item) lo n : 0 <= n -> (forall i j, 0 <= i -> i < j -> j < n -> ISLT (m (lo + j)) (m (lo + i)) = true) ->
  stable (seg m lo n) (rev (seg m lo n)).
Proof.
  intros N. pattern n. apply natlike_ind; [reflexivity| |exact N]. clear n N. intros n N IH D.
  unfold Z.succ. rewrite seg_app, seg_1, rev_app_distr by lia. transitivity ([m (lo + n)] ++ seg m lo n).
  2: { apply app_stable; [reflexivity|]. apply IH. intros; apply D; lia. }
  apply (stable_swap ISLT (seg m lo n) [m (lo + n)]). intros a b I [<-|[]]. right. apply In_seg in I as (i & I & ->). apply D; lia.
Qed.

(** A descending run has no equal rows, and may be reversed. *)
Lemma reverse_slice_spec m lo n : 0 <= n -> (forall i, lo < i < lo + n -> ISLT (m i) (m (i - 1)) = true) ->
  merged lt (seg m lo n) m (reverse_slice m lo (lo + n)) lo (lo + n).
Proof.
  intros N D. set (m' := reverse_slice m lo (lo + n)).
  assert (M : forall k, m' k = if (lo <=? k) && (k <=? lo + n - 1) then m (lo + (lo + n - 1) - k) else m k)
    by (intros k; apply reverse_loop_spec; lia).
  assert (Strict : forall i j, 0 <= i -> i < j -> j < n -> ISLT (m (lo + j)) (m (lo + i)) = true).
  { intros i j I L J. assert (P : 0 <= j - i - 1) by lia. revert J. replace j with (i + 1 + (j - i - 1)) by lia. pattern (j - i - 1).
    apply natlike_ind; [| |exact P].
    - intros J. rewrite Z.add_0_r. replace (lo + i) with (lo + (i + 1) - 1) by lia. apply D. lia.
    - intros d Pd IHd J. eapply lt_ord_trans; [typeclasses eauto| |apply (lt_le ISLT), IHd; lia].
      replace (lo + (i + 1 + d)) with (lo + (i + 1 + Z.succ d) - 1) by lia. apply D. lia. }
  unfold merged. replace (lo + n - lo) with n by lia. split; [|split].
  - apply sorted_neighbours. intros i I. rewrite !M.
    rewrite !(proj2 (Z.leb_le _ _)) by lia. cbn [andb]. apply (lt_le ISLT).
    replace (lo + (lo + n - 1) - (i - 1)) with (lo + (lo + n - i)) by lia.
    replace (lo + (lo + n - 1) - i) with (lo + (lo + n - i - 1)) by lia. apply Strict; lia.
  - rewrite (seg_rev m m' lo lo n N); [now apply stable_rev|]. intros i I. rewrite M.
    rewrite !(proj2 (Z.leb_le _ _)) by lia. cbn [andb]. f_equal. lia.
  - intros k K. rewrite M. destruct (Z.leb_spec lo k), (Z.leb_spec k (lo + n - 1)); cbn; reflexivity || lia.
Qed.

(** ** Binary insertion *)

Lemma slide_spec fuel (m : Z -> item) p l k : p - l <= Z.of_nat fuel ->
  slide fuel m p l k = if (l <? k) && (k <=? p) then m (k - 1) else m k.
Proof.
  revert m p. induction fuel as [|f IH]; intros m p F; cbn [slide].
  - destruct (Z.ltb_spec l k), (Z.leb_spec k p); cbn; reflexivity || lia.
  - destruct (Z.ltb_spec l p) as [L|L].
    + rewrite IH by lia. unfold put.
      destruct (Z.ltb_spec l k), (Z.leb_spec k p), (Z.leb_spec k (p - 1)); cbn [andb];
        repeat match goal with |- context[?a =? ?b] => destruct (Z.eqb_spec a b) end; f_equal; lia.
    + destruct (Z.ltb_spec l k), (Z.leb_spec k p); cbn; reflexivity || lia.
Qed.

Lemma insert_row_spec m lo start : lo <= start -> start - lo <= 2 ^ 62 -> sorted (seg m lo (start - lo)) ->
  exists m', insert_row lt m lo start = Some m' /\ sorted (seg m' lo (start + 1 - lo)) /\ moved m m' lo (start + 1).
Proof.
  intros L Sh S. unfold insert_row.
  assert (Lm : forall i j, lo <= i -> i <= j -> j < start -> le (m i) (m j)).
  { intros i j I J K. replace i with (lo + (i - lo)) by lia. replace j with (lo + (j - lo)) by lia.
    apply (proj1 (sorted_seg lt m lo (start - lo)) S); lia. }
  destruct (gallop_in_spec 64 (fun p => negb (ISLT (m start) (m p))) lo start lo start) as (l & -> & K & P1 & P2);
    [|lia|lia|change (2 ^ Z.of_nat 64) with (4 * 2 ^ 62); lia|lia|lia|].
  { intros i j I J K P. apply negb_true_iff in P. apply negb_true_iff.
    exact (ord_trans ISLT (m i) (m j) (m start) (Lm i j I J K) P). }
  set (m1 := slide _ _ _ _). set (m' := put m1 l (m start)).
  assert (M : forall k, m' k = if k =? l then m start else if (l <? k) && (k <=? start) then m (k - 1) else m k).
  { intros k. unfold m', put. destruct (Z.eqb_spec k l); [reflexivity|]. apply slide_spec. lia. }
  assert (Sg : seg m' lo (start + 1 - lo) = seg m lo (l - lo) ++ [m start] ++ seg m l (start - l)).
  { replace (start + 1 - lo) with ((l - lo) + (1 + (start - l))) by lia. rewrite !seg_app, seg_1 by lia.
    replace (lo + (l - lo)) with l by lia. f_equal; [|f_equal].
    - apply seg_frame. intros k Kk. rewrite M. rewrite (proj2 (Z.eqb_neq k l)), (proj2 (Z.ltb_ge l k)) by lia. reflexivity.
    - now rewrite M, Z.eqb_refl.
    - apply seg_ext. intros i I. rewrite M. rewrite (proj2 (Z.eqb_neq _ l)), (proj2 (Z.ltb_lt l _)), (proj2 (Z.leb_le _ start)) by lia.
      cbn [andb]. f_equal. lia. }
  assert (Sm : seg m lo (start + 1 - lo) = seg m lo (l - lo) ++ seg m l (start - l) ++ [m start]).
  { replace (start + 1 - lo) with ((l - lo) + ((start - l) + 1)) by lia. rewrite !seg_app, seg_1 by lia.
    replace (lo + (l - lo)) with l by lia. replace (l + (start - l)) with start by lia. reflexivity. }
  assert (G : forall y, In y (seg m l (start - l)) -> ISLT (m start) y = true).
  { intros y I. apply In_seg in I as (i & I & ->). apply negb_false_iff, P2. lia. }
  exists m'. split; [reflexivity|]. unfold moved. rewrite Sg, Sm. split; [|split].
  - rewrite (seg_split m lo (start - lo) (l - lo)) in S by lia. apply sorted_app in S as (S1 & S2 & S3).
    replace (lo + (l - lo)) with l in S2, S3 by lia. replace (start - lo - (l - lo)) with (start - l) in S2, S3 by lia.
    apply sorted_app. split; [exact S1|]. split.
    + constructor; [exact S2|]. apply Forall_forall. intros y I. apply (lt_le ISLT). now apply G.
    + intros x y I [<-|J]; [|now apply S3]. apply In_seg in I as (i & I & ->). apply negb_true_iff, P1. lia.
  - apply app_stable; [reflexivity|]. apply (stable_swap ISLT). intros x y I [<-|[]]. right. now apply G.
  - intros k Kk. rewrite M. rewrite (proj2 (Z.eqb_neq k l)) by lia.
    destruct (Z.ltb_spec l k), (Z.leb_spec k start); cbn; reflexivity || lia.
Qed.

Lemma insert_rows_spec fuel m lo hi start : lo <= start <= hi -> hi - lo <= 2 ^ 62 -> hi - start <= Z.of_nat fuel ->
  sorted (seg m lo (start - lo)) ->
  exists m', insert_rows lt fuel m lo hi start = Some m' /\ sorted (seg m' lo (hi - lo)) /\ moved m m' lo hi.
Proof.
  revert m start. induction fuel as [|f IH]; intros m start L Sh F S; cbn [insert_rows].
  - exists m. replace hi with start by lia. auto using moved_refl.
  - destruct (Z.ltb_spec start hi) as [Lt|Ge]; [|exists m; replace hi with start by lia; auto using moved_refl].
    destruct (insert_row_spec m lo start) as (m1 & -> & S1 & M1); [lia|lia|exact S|].
    destruct (IH m1 (start + 1)) as (m2 & -> & S2 & M2); [lia|lia|lia|exact S1|].
    exists m2. split; [reflexivity|]. split; [exact S2|]. apply moved_trans with m1; [|exact M2].
    apply moved_wider with lo (start + 1); [lia..|exact M1].
Qed.

Lemma binarysort_spec m lo hi start : lo <= start <= hi -> lo < hi -> hi - lo <= 2 ^ 62 -> sorted (seg m lo (start - lo)) ->
  exists m', binarysort lt m lo hi start = Some m' /\ sorted (seg m' lo (hi - lo)) /\ moved m m' lo hi.
Proof.
  intros L Lt Sh S. unfold binarysort. destruct (Z.eqb_spec lo start) as [<-|N].
  - apply insert_rows_spec; [lia|lia|lia|]. replace (lo + 1 - lo) with 1 by lia. rewrite seg_1. repeat constructor.
  - apply insert_rows_spec; [lia|lia|lia|exact S].
Qed.

(** ** Pushing a run *)

Lemma prepare_run_spec s nremaining lo hi minrun : 1 <= nremaining -> lo + nremaining = hi -> 1 <= minrun -> nremaining <= 2 ^ 62 ->
  exists m n, prepare_run lt s nremaining lo hi minrun = Some (with_rows s m, n)
    /\ 1 <= n <= nremaining /\ (minrun <= n \/ n = nremaining)
    /\ sorted (seg m lo n) /\ moved (rows s) m lo (lo + n).
Proof.
  intros N E Mr Sh. unfold prepare_run. pose proof (next_run_spec (rows s) lo hi ltac:(lia)) as R.
  destruct (next_run lt (rows s) lo hi) as [n d]. destruct R as (Rn & D).
  cbv zeta. set (m := if d then reverse_slice (rows s) lo (lo + n) else rows s).
  assert (M : sorted (seg m lo n) /\ moved (rows s) m lo (lo + n)).
  { unfold m. destruct d.
    - pose proof (reverse_slice_spec (rows s) lo n ltac:(lia) D) as Q. destruct Q as (Q1 & Q2 & Q3).
      replace (lo + n - lo) with n in Q1, Q2 by lia. split; [exact Q1|]. split; [|exact Q3]. now replace (lo + n - lo) with n by lia.
    - split; [now apply sorted_neighbours|apply moved_refl]. }
  destruct M as (M1 & M2). destruct (Z.ltb_spec n minrun) as [L|L].
  - set (force := if nremaining <=? minrun then nremaining else minrun).
    assert (Hf : n <= force <= nremaining /\ (minrun <= force \/ force = nremaining))
      by (unfold force; destruct (Z.leb_spec nremaining minrun); lia).
    destruct (binarysort_spec m lo (lo + force) (lo + n)) as (m' & -> & S' & M'); [lia|lia|lia|now replace (lo + n - lo) with n by lia|].
    replace (lo + force - lo) with force in S' by lia. exists m', force. split; [reflexivity|]. split; [lia|]. split; [lia|].
    split; [exact S'|]. apply moved_trans with m; [|exact M']. apply moved_wider with lo (lo + n); [lia..|exact M2].
  - exists m, n. split; [reflexivity|]. split; [lia|]. split; [lia|]. auto.
Qed.

(** ** The stack *)

(** The runs on the stack cover the rows up to [lo], and each is sorted. *)
Fixpoint stacked (m : Z -> item) (p : list slice) (lo : Z) : Prop :=
  match p with
  | [] => lo = 0
  | r :: p => base r + len r = lo /\ 1 <= len r /\ sorted (seg m (base r) (len r)) /\ stacked m p (base r)
  end.

Lemma stacked_start m p lo : stacked m p lo -> 0 <= lo.
Proof. revert lo. induction p as [|r p IH]; cbn; intros lo St; [lia|]. destruct St as (E & L & _ & St). apply IH in St. lia. Qed.

Lemma stacked_frame m m' p lo : stacked m p lo -> (forall k, 0 <= k < lo -> m' k = m k) -> stacked m' p lo.
Proof.
  revert lo. induction p as [|r p IH]; cbn; intros lo St F; [exact St|]. destruct St as (E & L & S & St).
  pose proof (stacked_start m p _ St). split; [exact E|]. split; [exact L|]. split.
  - rewrite (seg_frame m m') by (intros k K; apply F; lia). exact S.
  - apply IH; [exact St|]. intros k K. apply F. lia.
Qed.

(** A merge keeps the stack, and every row in its class. *)
Definition keeps (s : mstate) (lo : Z) (third : bool) (o : outcome) : Prop :=
  match o with
  | Ok s' => stacked (rows s') (pending s') lo /\ moved (rows s) (rows s') 0 lo
             /\ lens (pending s') = join_lens third (lens (pending s))
             /\ List.length (pending s') = pred (List.length (pending s))
  | NoMemory s' => rows s' = rows s /\ exists n, malloc n = false
  | _ => False
  end.

Lemma merge_at_keeps s lo (third : bool) : stacked (rows s) (pending s) lo -> lo <= 2 ^ 62 ->
  (if third then 3 <= List.length (pending s) else 2 <= List.length (pending s))%nat -> keeps s lo third (merge_at s third).
Proof.
  intros St Sh N. unfold SsortMerge.merge_at. destruct (pending s) as [|c p] eqn:Ep; [destruct third; cbn in N; lia|].
  destruct p as [|b p]; [destruct third; cbn in N; lia|].
  destruct third.
  - destruct p as [|a p]; [cbn in N; lia|]. cbn in St. destruct St as (Ec & Lc & Sc & Eb & Lb & Sb & Ea & La & Sa & St).
    pose proof (stacked_start _ _ _ St) as B.
    pose proof (merge_runs_spec lt halfH halfT hs ts narrow_h narrow_t malloc freshh fresht
      (with_pending s (c :: joined a b :: p)) a b La Lb ltac:(lia) ltac:(lia) Sa Sb) as Q.
    unfold merges in Q. cbn [rows pending with_pending] in Q. destruct (merge_runs _ _ _ _ _ _ _ _ _ _ _) as [s'|s'|s'|]; try contradiction; [|exact Q].
    destruct Q as ((S1 & S2 & S3) & Q). unfold keeps. rewrite Q, Ep. split; [|split; [|split; reflexivity]].
    + cbn [stacked joined base len]. replace (base b + len b - base a) with (len a + len b) in S1 by lia.
      rewrite (seg_frame (rows s) (rows s') (base c)) by (intros k K; apply S3; lia).
      repeat (split; [assumption || lia|]). apply (stacked_frame (rows s)); [exact St|]. intros k K. apply S3. lia.
    + apply moved_wider with (base a) (base b + len b); [lia..|]. split; [|exact S3].
      now replace (base b + len b - base a) with (len a + len b) in * by lia.
  - cbn in St. rename b into a, c into b. destruct St as (Eb & Lb & Sb & Ea & La & Sa & St).
    pose proof (stacked_start _ _ _ St) as B.
    pose proof (merge_runs_spec lt halfH halfT hs ts narrow_h narrow_t malloc freshh fresht
      (with_pending s (joined a b :: p)) a b La Lb ltac:(lia) ltac:(lia) Sa Sb) as Q.
    unfold merges in Q. cbn [rows pending with_pending] in Q. destruct (merge_runs _ _ _ _ _ _ _ _ _ _ _) as [s'|s'|s'|]; try contradiction; [|exact Q].
    destruct Q as ((S1 & S2 & S3) & Q). unfold keeps. rewrite Q, Ep. split; [|split; [|split; reflexivity]].
    + cbn [stacked joined base len]. replace (base b + len b - base a) with (len a + len b) in S1 by lia.
      repeat (split; [assumption || lia|]). apply (stacked_frame (rows s)); [exact St|]. intros k K. apply S3. lia.
    + apply moved_wider with (base a) (base b + len b); [lia..|]. split; [|exact S3].
      now replace (base b + len b - base a) with (len a + len b) in * by lia.
Qed.

(** A loop of merges ends as its condition says, or for lack of memory. *)
Definition loops (next : list slice -> option bool) (s : mstate) (lo : Z) (o : outcome) : Prop :=
  match o with
  | Ok s' => stacked (rows s') (pending s') lo /\ moved (rows s) (rows s') 0 lo /\ next (pending s') = None
             /\ (pending s <> [] -> pending s' <> [])
             /\ ((forall p, next p = collapse_next p) -> collapses (lens (pending s)) (lens (pending s')))
  | NoMemory s' => moved (rows s) (rows s') 0 lo /\ exists n, malloc n = false
  | _ => False
  end.

Lemma merge_while_spec next fuel s lo :
  (forall p third, next p = Some third -> (if third : bool then 3 <= List.length p else 2 <= List.length p)%nat) ->
  stacked (rows s) (pending s) lo -> lo <= 2 ^ 62 -> (List.length (pending s) <= fuel)%nat ->
  loops next s lo (merge_while lt halfH halfT hs ts malloc freshh fresht next fuel s).
Proof.
  intros Nx St Sh. revert s St. induction fuel as [|f IH]; intros s St F; cbn [merge_while];
    (destruct (next (pending s)) as [third|] eqn:E;
      [|repeat (split; [auto using moved_refl|]); intros Hn; apply collapses_stop; rewrite <- collapse_next_lens, <- Hn; exact E]).
  - specialize (Nx _ _ E). destruct third; lia.
  - pose proof (merge_at_keeps s lo third St Sh (Nx _ _ E)) as K.
    destruct (merge_at s third) as [s1|s1|s1|]; try contradiction.
    + destruct K as (St1 & M1 & L1 & N1). specialize (Nx _ _ E).
      specialize (IH s1 St1 ltac:(destruct third; lia)). destruct (merge_while _ _ _ _ _ _ _ _ _ f s1) as [s2|s2|s2|]; try contradiction.
      * destruct IH as (St2 & M2 & E2 & P2 & C2). split; [exact St2|]. split; [now apply moved_trans with (rows s1)|]. split; [exact E2|]. split.
        -- intros _. apply P2. intros Z0. rewrite Z0 in N1. cbn in N1. destruct third; lia.
        -- intros Hn. apply (collapses_step _ third); [rewrite <- collapse_next_lens, <- Hn; exact E|]. rewrite <- L1. now apply C2.
      * destruct IH as (M2 & Q). split; [now apply moved_trans with (rows s1)|exact Q].
    + destruct K as (R & Q). split; [rewrite R; apply moved_refl|exact Q].
Qed.

Lemma collapse_next_shape p third : collapse_next p = Some third -> (if third : bool then 3 <= List.length p else 2 <= List.length p)%nat.
Proof.
  destruct p as [|c [|b [|a p]]]; cbn; try discriminate; destruct third; try lia.
  destruct (len b <=? len c); discriminate.
Qed.

Lemma force_next_shape p third : force_next p = Some third -> (if third : bool then 3 <= List.length p else 2 <= List.length p)%nat.
Proof. destruct p as [|c [|b [|a p]]]; cbn; try discriminate; destruct third; try lia; discriminate. Qed.

Lemma stacked_sum m p lo : stacked m p lo -> fold_right Z.add 0 (lens p) = lo.
Proof.
  revert lo. induction p as [|r p IH]; cbn; intros lo St; [lia|]. destruct St as (E & _ & _ & St). fold (lens p). rewrite (IH _ St). lia.
Qed.

(** The stack has room for another run, if all runs on it have at least [least] rows. *)
Definition room (least n : Z) : Prop := 6 ^ 84 * n < 7 ^ 84 * least.

Lemma stack_room m p lo least n : stacked m p lo -> stack_inv (lens p) -> Forall (fun r => least <= len r) p ->
  1 <= least -> lo <= n -> room least n -> Z.of_nat (List.length p) < MAX_MERGE_PENDING.
Proof.
  intros St I A L N R. destruct p as [|r p]; [reflexivity|]. unfold MAX_MERGE_PENDING. cbn [List.length].
  destruct (Z.leb_spec 85 (Z.of_nat (S (List.length p)))) as [G|G]; [exfalso|exact G].
  pose proof (stack_depth (lens p) (len r) I n) as D. pose proof (stacked_sum _ _ _ St) as E. cbn [lens map] in E.
  specialize (D ltac:(fold (lens p) in E; lia)). unfold lens in D. rewrite length_map in D.
  apply Forall_inv in A. set (k := Z.of_nat (List.length p)) in *. assert (K : 84 <= k) by lia.
  unfold room in R. replace k with (84 + (k - 84)) in D by lia. rewrite !Z.pow_add_r in D by lia.
  pose proof (Z.pow_le_mono_l 6 7 (k - 84) ltac:(lia)). pose proof (Z.pow_pos_nonneg 6 (k - 84) ltac:(lia) ltac:(lia)).
  assert (X : 0 < 6 ^ 84) by reflexivity. assert (Y : 0 < 7 ^ 84) by reflexivity.
  revert R D X Y. generalize (6 ^ 84), (7 ^ 84). generalize dependent (6 ^ (k - 84)). generalize dependent (7 ^ (k - 84)).
  intros v u P1 P2 x y R D X Y. assert (x * u * n < y * u * least) by nia. assert (y * u * least <= y * v * len r); [|lia].
  rewrite <- !Z.mul_assoc. apply Z.mul_le_mono_nonneg_l; [lia|]. nia.
Qed.

Lemma collapses_least p p' least : collapses p p' -> 0 <= least -> Forall (fun r => least <= r) p -> Forall (fun r => least <= r) p'.
Proof.
  intros C L. induction C as [p E|p third p' E _ IH]; intros A; [exact A|]. apply IH.
  destruct third, p as [|c [|b [|a p]]]; cbn; try exact A;
    repeat match goal with H : Forall _ (_ :: _) |- _ => inversion H; clear H; subst end; repeat constructor; auto; lia.
Qed.

(** What the runs end with: either way every row is still in its class. *)
Definition ends (m0 : Z -> item) (n least : Z) (o : outcome) : Prop :=
  match o with
  | Ok s => stacked (rows s) (pending s) n /\ moved m0 (rows s) 0 n /\ pending s <> []
  | NoMemory s => moved m0 (rows s) 0 n /\ exists k, malloc k = false
  | Full s => moved m0 (rows s) 0 n /\ ~ room least n
  | Stuck => False
  end.

Lemma do_runs_spec fuel m0 s nremaining lo n minrun :
  1 <= nremaining <= Z.of_nat fuel -> lo + nremaining = n -> n <= 2 ^ 62 -> 1 <= minrun ->
  stacked (rows s) (pending s) lo -> stack_inv (lens (pending s)) -> Forall (fun r => minrun <= r) (lens (pending s)) ->
  moved m0 (rows s) 0 n ->
  ends m0 n minrun (do_runs lt halfH halfT hs ts malloc freshh fresht fuel s nremaining lo n minrun).
Proof.
  revert s nremaining lo. induction fuel as [|f IH]; intros s nr lo N E Sh Mr St I A M; [lia|]. cbn [do_runs].
  pose proof (stacked_start _ _ _ St) as L0.
  destruct (prepare_run_spec s nr lo n minrun) as (m & k & -> & K & Km & S & Mv); [lia|lia|lia|lia|].
  assert (St1 : stacked m (pending s) lo) by (apply (stacked_frame (rows s)); [exact St|intros i Hi; apply Mv; lia]).
  assert (M1 : moved m0 m 0 n).
  { apply moved_trans with (rows s); [exact M|]. apply moved_wider with lo (lo + k); [lia..|exact Mv]. }
  cbn [pending with_rows]. destruct (Z.leb_spec MAX_MERGE_PENDING (Z.of_nat (List.length (pending s)))) as [Fu|Rm].
  { split; [exact M1|]. intros R. assert (Fa : Forall (fun r => minrun <= len r) (pending s)) by (exact (proj1 (Forall_map len (fun r => minrun <= r) (pending s)) A)).
    pose proof (stack_room _ _ _ _ n St I Fa ltac:(lia) ltac:(lia) R). lia. }
  set (s1 := with_pending (with_rows s m) (mkSlice lo k :: pending s)).
  pose proof (merge_while_spec collapse_next (List.length (pending s1)) s1 (lo + k) collapse_next_shape) as W.
  unfold merge_collapse. destruct (merge_while _ _ _ _ _ _ _ _ _ _ s1) as [s2|s2|s2|];
    specialize (W (conj eq_refl (conj (proj1 K) (conj S St1))) ltac:(lia) ltac:(lia)); try contradiction.
  - destruct W as (St2 & M2 & _ & P2 & C2). specialize (C2 ltac:(reflexivity)).
    assert (M3 : moved m0 (rows s2) 0 n).
    { apply moved_trans with m; [exact M1|]. apply moved_wider with 0 (lo + k); [lia..|exact M2]. }
    cbv zeta. destruct (Z.ltb_spec 0 (nr - k)) as [G|G].
    + apply IH; [lia|lia|lia|lia|exact St2| | |exact M3].
      * apply (collapses_inv _ _ C2). apply collapsing_push; [exact I|cbn; lia].
      * apply (collapses_least _ _ _ C2); [lia|]. cbn. constructor; [lia|exact A].
    + replace (lo + k) with n in St2 by lia. split; [exact St2|]. split; [exact M3|]. apply P2. discriminate.
  - destruct W as (M2 & Q). split; [|exact Q].
    apply moved_trans with m; [exact M1|]. apply moved_wider with 0 (lo + k); [lia..|exact M2].
Qed.

(** ** The smallest length of a run *)

Lemma minrun_loop_spec fuel n r : 0 <= r <= 1 -> 8 <= n -> n < 2 ^ (4 + Z.of_nat fuel) ->
  8 <= minrun_loop fuel n r <= 16.
Proof.
  revert n r. induction fuel as [|f IH]; intros n r R N F; cbn [minrun_loop]; [cbn in F; lia|].
  destruct (Z.leb_spec 16 n) as [L|L]; [|lia].
  destruct (shiftr_half n ltac:(lia)) as (H1 & H2). apply IH; [|lia|].
  - assert (B : Z.land n 1 = 0 \/ Z.land n 1 = 1).
    { pose proof (Z.land_ones n 1 ltac:(lia)) as Q. change (Z.ones 1) with 1 in Q. rewrite Q. pose proof (Z.mod_pos_bound n (2 ^ 1) ltac:(lia)). change (2 ^ 1) with 2 in *. lia. }
    assert (R' : r = 0 \/ r = 1) by lia. destruct B as [-> | ->], R' as [-> | ->]; cbn; lia.
  - rewrite Nat2Z.inj_succ in F. replace (4 + Z.succ (Z.of_nat f)) with (Z.succ (4 + Z.of_nat f)) in F by lia.
    rewrite Z.pow_succ_r in F by lia. lia.
Qed.

Lemma merge_compute_minrun_spec n : 1 <= n <= 2 ^ 62 ->
  if n <? 16 then merge_compute_minrun n = n else 8 <= merge_compute_minrun n <= 16.
Proof.
  intros N. unfold merge_compute_minrun. destruct (Z.ltb_spec n 16) as [L|L].
  - cbn [minrun_loop]. rewrite (proj2 (Z.leb_gt 16 n)) by lia. lia.
  - apply minrun_loop_spec; [lia|lia|]. change (4 + Z.of_nat 64) with 68. change (2 ^ 68) with (64 * 2 ^ 62). lia.
Qed.

(** Up to two million rows there is room. *)
Lemma rooms n : 1 <= n <= 2 ^ 21 -> room (merge_compute_minrun n) n.
Proof.
  intros N. pose proof (merge_compute_minrun_spec n ltac:(lia)) as M. unfold room.
  assert (X : 6 ^ 84 * 2 ^ 21 < 7 ^ 84 * 8) by reflexivity. assert (Y : 6 ^ 84 < 7 ^ 84) by reflexivity.
  assert (P6 : 0 < 6 ^ 84) by reflexivity. assert (P7 : 0 < 7 ^ 84) by reflexivity.
  revert X Y P6 P7. generalize (6 ^ 84), (7 ^ 84). intros x y X Y P6 P7.
  destruct (Z.ltb_spec n 16) as [L|L]; [rewrite M; nia|].
  assert (x * n <= x * 2 ^ 21) by nia. nia.
Qed.

(** ** The whole sort *)

(** What [GDKssortimpl] promises. *)
Definition sorts_stably (m : Z -> item) (n : Z) (o : outcome) : Prop :=
  match o with
  | Ok s => seg (rows s) 0 n = isort ISLT (seg m 0 n) /\ forall k, k < 0 \/ n <= k -> rows s k = m k
  | NoMemory s => moved m (rows s) 0 n /\ exists k, malloc k = false
  | Full s => moved m (rows s) 0 n /\ 2 ^ 21 < n
  | Stuck => False
  end.

Lemma GDKssortimpl_spec m junk n : 0 <= n <= 2 ^ 62 ->
  sorts_stably m n (GDKssortimpl lt halfH halfT hs ts malloc freshh fresht m junk n).
Proof.
  intros N. unfold GDKssortimpl. destruct (Z.ltb_spec n 2) as [L|L].
  { split; [|reflexivity]. cbn [rows initial].
    assert (C : n = 0 \/ n = 1) by lia. destruct C as [-> | ->]; [now rewrite seg_0|now rewrite seg_1]. }
  unfold do_ssort. set (minrun := merge_compute_minrun n).
  assert (Mr : 1 <= minrun) by (pose proof (merge_compute_minrun_spec n ltac:(lia)); unfold minrun; destruct (Z.ltb_spec n 16); lia).
  pose proof (do_runs_spec (Z.to_nat n) m (initial m junk) n 0 n minrun ltac:(lia) ltac:(lia) ltac:(lia) Mr
    eq_refl I (Forall_nil _) (moved_refl m 0 n)) as D.
  destruct (do_runs _ _ _ _ _ _ _ _ _ _ _ _ _ _) as [s|s|s|]; try contradiction.
  - destruct D as (St & M & Ne).
    pose proof (merge_while_spec force_next (List.length (pending s)) s n force_next_shape St ltac:(lia) (le_n _)) as W.
    unfold merge_force. destruct (merge_while _ _ _ _ _ _ _ _ _ _ s) as [s2|s2|s2|]; try contradiction.
    + destruct W as (St2 & M2 & F2 & P2 & _). specialize (P2 Ne). destruct (pending s2) as [|p [|q [|r l]]]; try discriminate; [contradiction|].
      cbn in St2. destruct St2 as (E & Lp & S & B). rewrite B in *. rewrite Z.add_0_l in E. rewrite E in *.
      rewrite !Z.eqb_refl. cbn [andb sorts_stably]. pose proof (moved_trans _ _ _ _ _ M M2) as (M3 & F). rewrite Z.sub_0_r in M3.
      split; [|exact F]. apply stable_isort; [typeclasses eauto|exact S|exact M3].
    + destruct W as (M2 & Q). split; [now apply moved_trans with (rows s)|exact Q].
  - exact D.
  - destruct D as (M & R). split; [exact M|]. destruct (Z.leb_spec n (2 ^ 21)) as [G|G]; [|exact G].
    exfalso. apply R. apply rooms. lia.
Qed.

End Sorts.

(** ** The interface *)

#[export] Instance Comparison_WeakOrder {X} (cmp : X -> X -> Z) (rev : bool) :
  Comparison cmp -> WeakOrder (fun x y => if rev then cmp x y >? 0 else cmp x y <? 0).
Proof.
  intros C. split; intros x y.
  - pose proof (cmp_opposite x y). destruct rev; rewrite ?Z.gtb_ltb, ?Z.ltb_lt, ?Z.ltb_ge; lia.
  - intros z. pose proof (cmp_opposite x y). pose proof (cmp_opposite y z). pose proof (cmp_opposite x z).
    pose proof (cmp_trans x y z). pose proof (cmp_trans z y x).
    destruct rev; rewrite ?Z.gtb_ltb, ?Z.ltb_lt; lia.
Qed.

Lemma ISLT_of_WeakOrder {V} (atomCmp : V -> V -> Z) (fltCmp : Z -> Z -> Z) at_heap at_slot i heap reverse :
  Comparison atomCmp -> Comparison fltCmp -> WeakOrder (ISLT_of atomCmp fltCmp at_heap at_slot i heap reverse).
Proof.
  intros A F. pose proof num_cmp_Comparison as N. unfold ISLT_of.
  destruct i; try exact (Comparison_WeakOrder num_cmp reverse N); try exact (Comparison_WeakOrder fltCmp reverse F).
  - exact (Comparison_WeakOrder _ reverse (Comparison_via num_cmp u64 N)).
  - destruct heap; [exact (Comparison_WeakOrder _ reverse (Comparison_via atomCmp at_heap A))|
      exact (Comparison_WeakOrder _ reverse (Comparison_via atomCmp at_slot A))].
Qed.


(** Rows with their positions as tails, and memory for everything. *)
Definition rows_of (l : list Z) : Z -> Z * Z := fun i => (nth (Z.to_nat i) l 0, i).
Definition result_of {H T} (n : Z) (o : outcome (H := H) (T := T)) : option (list (H * T)) :=
  match o with Ok s => Some (seg (rows s) 0 n) | _ => None end.
Abbreviation ssort_lng := (GDKssort (V := Z) num_cmp num_cmp (fun x => x) (fun x => x) (fun s d => s) (fun s d => s) 8 8
  (fun _ => true) (fun _ => 0) (fun _ => 0)).

Definition sample_rows : list Z := [7; 7; 8; 9; 3; 2; 1; 3; 3; 5; 4; 9; 0; 7; 7; 7; 6; 5; 4; 3].

Lemma sorts_stably_result {H T} (lt : H -> H -> bool) malloc (m : Z -> H * T) n o :
  sorts_stably lt malloc m n o -> (forall k, malloc k = true) -> n <= 2 ^ 21 ->
  result_of n o = Some (isort (ISLT lt) (seg m 0 n)).
Proof.
  intros S M N. destruct o as [s|s|s|]; cbn in *; [now rewrite (proj1 S)| | |contradiction].
  - destruct S as (_ & k & E). now rewrite M in E.
  - destruct S as (_ & L). lia.
Qed.


(** ** What the theorem leaves out *)

(** Object identifiers are compared without sign, so that nil, the
    smallest value everywhere else, comes last. *)
Lemma oid_nil_last :
  result_of 3 (ssort_lng I_oid false (rows_of [5; - 2 ^ 63; 3]) (fun _ => (0, 0)) 3) = Some [(3, 2); (5, 0); (- 2 ^ 63, 1)]
  /\ num_cmp (- 2 ^ 63) 3 = -1.
Proof. vm_compute. auto. Qed.

(** Rows of sixteen bytes, which the buffers allow for, although no atom of the
    repository has them: the copy to the temporary area does nothing, and what was there, -1, takes the place of the first run. *)
Definition wide_rows : list Z := map Z.of_nat (seq 10 16) ++ map Z.of_nat (seq 0 16).
Lemma wide_rows_lost :
  option_map (map fst) (result_of 32
    (GDKssort (V := Z) num_cmp num_cmp (fun x => x) (fun x => x) (fun s d => s) (fun s d => s) 16 8
       (fun _ => true) (fun _ => -1) (fun _ => 0) I_any false (rows_of wide_rows) (fun _ => (-1, 0)) 32))
  = Some (0 :: repeat (-1) 7 ++ map Z.of_nat (seq 18 8) ++ map Z.of_nat (seq 0 16)).
Proof. vm_compute. reflexivity. Qed.
