(* ===== verification/Search.v ===== *)
(** * Binary search on sorted columns

    gdk/gdk_search.c, the functions [SORTfnd], [SORTfndfirst] and
    [SORTfndlast] over [SORTfndwhich].  They are specified by the place a value
    has in the order of the column; the place is found in the ascending, the
    descending and the dense case. *)

From Stdlib Require Import ZArith Lia Bool List.
Import ListNotations.
From S2P Require Import Prelude Sort.

Definition BUN_NONE : Z := 2 ^ 63 - 1.
Definition BUN_MAX : Z := BUN_NONE - 1.

Section Search.

(** Values as [BUNtail] yields them. *)
Context {V : Type}.

(** The fields of a BAT that a search reads. *)
Record bat := mkBat {
  batFirst : Z;
  batCount : Z;
  tsorted : bool;
  trevsorted : bool;
  tkey : bool;
  tdense : bool;       (* the macro BATtdense *)
  tseqbase : Z;
  tstorage : storage;
  tail : Z -> V;       (* BUNtail *)
}.

(** [atom_CMP] of the tail type, [simple_CMP] of its storage type, and the
    object identifier a value is. *)
Variable atom_CMP : V -> V -> Z.
Variable simple_CMP : V -> V -> Z.
Variable oid_of : V -> Z.

Definition BUNfirst (b : bat) : Z := batFirst b.
Definition BUNlast (b : bat) : Z := batFirst b + batCount b.

(** The comparison of the instance of [SORTfndloop] that is chosen. *)
Definition loop_CMP (b : bat) (x y : V) : Z :=
  let c := match tstorage b with ST_other => atom_CMP x y | _ => simple_CMP x y end in
  if tsorted b then c else - c.

(** The variables of the search: [lo], [hi], [cur], [cmp]. *)
Record probe := mkProbe { lo : Z; hi : Z; cur : Z; cmp : Z }.

Fixpoint SORTfndloop (fuel : nat) (b : bat) (v : V) (s : probe) : option probe :=
  match fuel with
  | O => None
  | S fuel' =>
      if lo s <? hi s then
        let mid := Z.shiftr (u64 (lo s + hi s)) 1 in
        let c := loop_CMP b (tail b mid) v in
        if c <? 0 then SORTfndloop fuel' b v (mkProbe (mid + 1) (hi s) (mid + 1) c)
        else if c >? 0 then SORTfndloop fuel' b v (mkProbe (lo s) mid mid c)
        else Some (mkProbe (lo s) (hi s) mid c)
      else Some s
  end.

Definition atom_EQ (x y : V) : bool := atom_CMP x y =? 0.

(** Shift over multiple equals to the left: the two nested loops, a round of
    the inner one when its test succeeds and of the outer one when it fails. *)
Fixpoint shift_left (fuel : nat) (b : bat) (v : V) (stop cur diff : Z) : option Z :=
  match fuel with
  | O => None
  | S fuel' =>
      if diff =? 0 then Some cur
      else if (stop + diff <=? cur) && atom_EQ (tail b (cur - diff)) v
      then shift_left fuel' b v stop (cur - diff) diff
      else shift_left fuel' b v stop cur (Z.shiftr diff 1)
  end.

(** The same to the right. *)
Fixpoint shift_right (fuel : nat) (b : bat) (v : V) (stop cur diff : Z) : option Z :=
  match fuel with
  | O => None
  | S fuel' =>
      if diff =? 0 then Some cur
      else if (cur + diff <? stop) && atom_EQ (tail b (cur + diff)) v
      then shift_right fuel' b v stop (cur + diff) diff
      else shift_right fuel' b v stop cur (Z.shiftr diff 1)
  end.

Definition fnd_dense (b : bat) (v : V) (which : Z) : Z :=
  let first := BUNfirst b in
  if oid_of v <? tseqbase b then (if which =? 0 then BUN_NONE else first)
  else if oid_of v >=? u64 (tseqbase b + batCount b)
  then (if which =? 0 then BUN_NONE else BUNlast b)
  else let cur := oid_of v - tseqbase b + first in
       if which >? 0 then cur + 1 else cur.

(** The rounds of any of the loops. *)
Definition fnd_fuel (b : bat) : nat := Z.to_nat (2 * batCount b + 1).

(** What follows the binary search. *)
Definition fnd_finish (b : bat) (v : V) (which : Z) (s : probe) : option Z :=
  if which <? 0 then
    if (cmp s =? 0) && negb (tkey b)
    then shift_left (fnd_fuel b) b v (BUNfirst b) (cur s) (cur s - BUNfirst b)
    else Some (cur s)
  else if which >? 0 then
    if cmp s =? 0 then
      option_map (fun c => c + 1)
        (if negb (tkey b)
         then shift_right (fnd_fuel b) b v (BUNlast b) (cur s) (Z.shiftr (BUNlast b - cur s) 1)
         else Some (cur s))
    else Some (cur s)
  else if negb (cmp s =? 0) then Some BUN_NONE else Some (cur s).

Definition SORTfndwhich (b : bat) (v : V) (which : Z) : option Z :=
  let first := BUNfirst b in let last := BUNlast b in
  let go := match SORTfndloop (fnd_fuel b) b v (mkProbe first last BUN_NONE 1) with
            | None => None
            | Some s => fnd_finish b v which s
            end in
  if negb (tsorted b) && negb (trevsorted b) then Some BUN_NONE
  else if tdense b then Some (fnd_dense b v which)
  else if which <? 0 then
    if (last <=? first)
       || (let c := atom_CMP (tail b first) v in if tsorted b then c >=? 0 else c <=? 0)
    then Some first else go
  else if which >? 0 then
    if (last <=? first)
       || (let c := atom_CMP (tail b (last - 1)) v in if tsorted b then c <=? 0 else c >=? 0)
    then Some last else go
  else if last <=? first then Some BUN_NONE else go.

(** [SORTfnd] mirrors its argument first: [b] is the mirror. *)
Definition SORTfnd (b : bat) (v : V) : option Z := SORTfndwhich b v 0.
Definition SORTfndfirst (b : bat) (v : V) : option Z := SORTfndwhich b v (-1).
Definition SORTfndlast (b : bat) (v : V) : option Z := SORTfndwhich b v 1.

End Search.

#[global] Arguments bat : clear implicits.

(** ** Where a value belongs *)

Section Specification.

Context {V : Type} (atom_CMP simple_CMP : V -> V -> Z) (oid_of : V -> Z).
Context `{!Comparison atom_CMP}.

(** What the descriptor of a column promises. *)
Record column_ok (b : bat V) : Prop := {
  ok_bounds : 0 <= batFirst b /\ 0 <= batCount b /\ batFirst b + batCount b <= BUN_MAX;
  ok_sorted : tsorted b = true -> forall i j, BUNfirst b <= i <= j -> j < BUNlast b ->
    atom_CMP (tail b i) (tail b j) <= 0;
  ok_revsorted : trevsorted b = true -> forall i j, BUNfirst b <= i <= j -> j < BUNlast b ->
    atom_CMP (tail b i) (tail b j) >= 0;
  ok_key : tkey b = true -> forall i j, BUNfirst b <= i < j -> j < BUNlast b ->
    atom_CMP (tail b i) (tail b j) <> 0;
  (** the types with a storage of their own compare like their storage *)
  ok_storage : tstorage b <> ST_other -> forall x y, Z.sgn (simple_CMP x y) = Z.sgn (atom_CMP x y);
  (** a dense column counts up from its seqbase, short of the nil oid *)
  ok_dense : tdense b = true -> tsorted b = true
    /\ 0 <= tseqbase b /\ tseqbase b + batCount b <= 2 ^ 63
    /\ (forall i, BUNfirst b <= i < BUNlast b -> oid_of (tail b i) = tseqbase b + (i - BUNfirst b))
    /\ (forall x y, 0 <= oid_of x < 2 ^ 63 -> 0 <= oid_of y < 2 ^ 63 ->
          Z.sgn (atom_CMP x y) = Z.sgn (oid_of x - oid_of y));
}.

(** Position [i] compared with [v] in the direction of the column. *)
Definition order (b : bat V) (v : V) (i : Z) : Z :=
  if tsorted b then atom_CMP (tail b i) v else - atom_CMP (tail b i) v.

(** [r] is the first position that does not precede [v]. *)
Definition first_place (b : bat V) (v : V) (r : Z) : Prop :=
  BUNfirst b <= r <= BUNlast b
  /\ (forall i, BUNfirst b <= i < r -> order b v i < 0)
  /\ (forall i, r <= i < BUNlast b -> order b v i >= 0).

(** [r] is the first position that follows [v]. *)
Definition last_place (b : bat V) (v : V) (r : Z) : Prop :=
  BUNfirst b <= r <= BUNlast b
  /\ (forall i, BUNfirst b <= i < r -> order b v i <= 0)
  /\ (forall i, r <= i < BUNlast b -> order b v i > 0).

Section Ordered.

Variables (b : bat V) (v : V).
Hypothesis Hok : column_ok b.
Hypothesis Hord : tsorted b || trevsorted b = true.

#[local] Abbreviation ord := (order b v).
#[local] Abbreviation first := (BUNfirst b).
#[local] Abbreviation last := (BUNlast b).

Lemma cmp_flip x y : (atom_CMP x y <= 0 <-> atom_CMP y x >= 0)
                     /\ (atom_CMP x y < 0 <-> atom_CMP y x > 0).
Proof. pose proof (cmp_opposite x y). lia. Qed.

(** The order of a position with respect to [v] increases along the column. *)
Lemma order_mono i j :
  first <= i <= j -> j < last -> (ord i >= 0 -> ord j >= 0) /\ (ord i > 0 -> ord j > 0).
Proof.
  intros A B. unfold order.
  pose proof (cmp_flip (tail b i) v). pose proof (cmp_flip (tail b j) v).
  pose proof (cmp_flip (tail b i) (tail b j)).
  pose proof (cmp_trans v (tail b i) (tail b j)). pose proof (cmp_trans (tail b i) (tail b j) v).
  pose proof (cmp_trans (tail b j) (tail b i) v). pose proof (cmp_trans v (tail b j) (tail b i)).
  destruct (tsorted b) eqn:S.
  - pose proof (ok_sorted b Hok S i j A B). lia.
  - pose proof (ok_revsorted b Hok Hord i j A B). lia.
Qed.

Lemma loop_CMP_order i : Z.sgn (loop_CMP atom_CMP simple_CMP b (tail b i) v) = Z.sgn (ord i).
Proof.
  unfold loop_CMP, order. pose proof (ok_storage b Hok) as S.
  destruct (tstorage b), (tsorted b); try reflexivity;
    specialize (S ltac:(discriminate) (tail b i) v); lia.
Qed.

(** Equal values are next to each other, and one in a key column. *)
Lemma order_eq_key i j :
  tkey b = true -> first <= i < j -> j < last -> ord i = 0 -> ord j = 0 -> False.
Proof.
  intros K A B E F. apply (ok_key b Hok K i j A B).
  pose proof (cmp_opposite (tail b i) v). pose proof (cmp_opposite (tail b j) v).
  pose proof (cmp_opposite (tail b i) (tail b j)).
  pose proof (cmp_trans (tail b i) v (tail b j)). pose proof (cmp_trans (tail b j) v (tail b i)).
  unfold order in *. destruct (tsorted b); lia.
Qed.

Lemma mid_bounds l h : 0 <= l -> l < h -> h <= BUN_MAX ->
  l <= Z.shiftr (u64 (l + h)) 1 < h.
Proof.
  intros A B C. unfold BUN_MAX, BUN_NONE in C.
  rewrite uwrap_id by lia. rewrite Z.shiftr_div_pow2 by lia. change (2 ^ 1) with 2.
  pose proof (Z.div_mod (l + h) 2). pose proof (Z.mod_pos_bound (l + h) 2). lia.
Qed.

(** What the binary search leaves: the boundaries close in on [v], and [cur]
    is a position of [v] or the place where it would be. *)
Definition searched (s : probe) : Prop :=
  first <= lo s /\ lo s <= hi s /\ hi s <= last
  /\ (forall i, first <= i < lo s -> ord i < 0)
  /\ (forall i, hi s <= i < last -> ord i > 0).

Definition found (s : probe) : Prop :=
  (cmp s = 0 /\ first <= cur s < last /\ ord (cur s) = 0)
  \/ (cmp s <> 0 /\ cur s = lo s /\ lo s = hi s).

Lemma SORTfndloop_spec fuel s :
  searched s -> hi s - lo s < Z.of_nat fuel ->
  (lo s = hi s -> cmp s <> 0 /\ cur s = lo s) ->
  exists s', SORTfndloop atom_CMP simple_CMP fuel b v s = Some s' /\ searched s' /\ found s'.
Proof.
  revert s; induction fuel as [|fuel IH]; intros s S F E; [destruct S as (_ & S & _); lia|]. cbn [SORTfndloop].
  pose proof S as (S1 & S2 & S3 & S4 & S5). pose proof (ok_bounds b Hok) as B.
  unfold BUNfirst, BUNlast in *.
  case Z.ltb_spec; intros L; cycle 1.
  { exists s. split; [reflexivity|]. split; [exact S|]. right. destruct E; lia. }
  pose proof (mid_bounds (lo s) (hi s) ltac:(lia) L ltac:(lia)) as M.
  set (mid := Z.shiftr _ 1) in *. pose proof (loop_CMP_order mid) as C.
  set (c := loop_CMP _ _ _ _ _) in *. cbv zeta. clearbody mid c.
  case Z.ltb_spec; intros Q; [|rewrite Z.gtb_ltb; case Z.ltb_spec; intros R].
  - apply IH; [|cbn [lo hi cur cmp]; lia|cbn [lo hi cur cmp]; lia].
    split; [|split; [|split; [|split]]]; cbn [lo hi cur cmp]; unfold BUNfirst, BUNlast; try lia; [|exact S5].
    intros i I. pose proof (order_mono i mid). unfold BUNfirst, BUNlast in *. lia.
  - apply IH; [|cbn [lo hi cur cmp]; lia|cbn [lo hi cur cmp]; lia].
    split; [|split; [|split; [|split]]]; cbn [lo hi cur cmp]; unfold BUNfirst, BUNlast; try lia; [exact S4|].
    intros i I. pose proof (order_mono mid i). unfold BUNfirst, BUNlast in *. lia.
  - exists (mkProbe (lo s) (hi s) mid c). split; [reflexivity|]. split; [exact S|].
    left. cbn [lo hi cur cmp]. unfold BUNfirst, BUNlast. lia.
Qed.

Lemma SORTfndloop_start s0 :
  first < last ->
  lo s0 = first -> hi s0 = last ->
  exists s, SORTfndloop atom_CMP simple_CMP (fnd_fuel b) b v s0 = Some s /\ searched s /\ found s.
Proof.
  intros L E F. pose proof (ok_bounds b Hok) as B. apply SORTfndloop_spec; unfold searched, fnd_fuel.
  - rewrite E, F. repeat split; try lia; intros; lia.
  - unfold BUNfirst, BUNlast in *. lia.
  - lia.
Qed.

Lemma atom_EQ_order i : atom_EQ atom_CMP (tail b i) v = (ord i =? 0).
Proof. unfold atom_EQ, order. destruct (tsorted b); breflect; lia. Qed.

(** Everything between two positions of [v] is [v]. *)
Lemma order_eq_between i j k :
  first <= i <= j -> j <= k -> k < last -> ord i = 0 -> ord k = 0 -> ord j = 0.
Proof. intros A B C E F. pose proof (order_mono i j). pose proof (order_mono j k). lia. Qed.

Lemma shift_left_spec fuel c d :
  first <= c < last -> ord c = 0 -> 0 <= d -> (d = 0 -> c = first \/ ord (c - 1) < 0) ->
  c - first + d < Z.of_nat fuel ->
  exists r, shift_left atom_CMP fuel b v first c d = Some r /\ first_place b v r /\ ord r = 0
            /\ r < last.
Proof.
  revert c d; induction fuel as [|fuel IH]; intros c d A E D Z0 F; [lia|]. cbn [shift_left].
  case Z.eqb_spec; intros N.
  - exists c. split; [reflexivity|]. split; [|split; [exact E|lia]]. split; [lia|]. split; intros i I.
    + destruct (Z0 N) as [->|P]; [lia|]. pose proof (order_mono i (c - 1)). lia.
    + pose proof (order_mono c i). lia.
  - rewrite atom_EQ_order. case Z.leb_spec; intros L; [case Z.eqb_spec; intros Q|]; cbn [andb].
    + apply IH; try lia. 
    + assert (H : Z.shiftr d 1 = d / 2) by (now rewrite Z.shiftr_div_pow2).
      rewrite H. pose proof (Z.div_mod d 2). pose proof (Z.mod_pos_bound d 2).
      apply IH; try lia. intros. right.
      assert (d = 1) by lia. subst d. pose proof (order_mono (c - 1) c). lia.
    + assert (H : Z.shiftr d 1 = d / 2) by (now rewrite Z.shiftr_div_pow2).
      rewrite H. pose proof (Z.div_mod d 2). pose proof (Z.mod_pos_bound d 2).
      apply IH; try lia.
Qed.

Lemma shift_right_spec fuel c d :
  first <= c < last -> ord c = 0 -> 0 <= d -> (d = 0 -> c + 1 = last \/ ord (c + 1) > 0) ->
  last - c + d < Z.of_nat fuel ->
  exists r, shift_right atom_CMP fuel b v last c d = Some r /\ last_place b v (r + 1).
Proof.
  revert c d; induction fuel as [|fuel IH]; intros c d A E D Z0 F; [lia|]. cbn [shift_right].
  case Z.eqb_spec; intros N.
  - exists c. split; [reflexivity|]. split; [lia|]. split; intros i I.
    + pose proof (order_mono i c). lia.
    + destruct (Z0 N) as [P|P]; [lia|]. pose proof (order_mono (c + 1) i). lia.
  - rewrite atom_EQ_order. assert (H : Z.shiftr d 1 = d / 2) by (now rewrite Z.shiftr_div_pow2).
    pose proof (Z.div_mod d 2). pose proof (Z.mod_pos_bound d 2).
    case Z.ltb_spec; intros L; [case Z.eqb_spec; intros Q|]; cbn [andb].
    + apply IH; lia.
    + rewrite H. apply IH; try lia. intros. right.
      assert (d = 1) by lia. subst d. pose proof (order_mono c (c + 1)). lia.
    + rewrite H. apply IH; lia.
Qed.

(** A search on a column that is not dense, after its shortcuts. *)
Lemma finish_first s :
  searched s -> found s ->
  exists r, fnd_finish atom_CMP b v (-1) s = Some r /\ first_place b v r.
Proof.
  intros (A & B & C & D & E) F. pose proof (ok_bounds b Hok) as K.
  unfold fnd_finish. cbn [Z.ltb Z.compare].
  destruct F as [(F & G & H)|(F & G & H)].
  - rewrite F. destruct (tkey b) eqn:T; cbn [Z.eqb negb andb].
    + exists (cur s). split; [reflexivity|]. split; [lia|]. split; intros i I.
      * pose proof (order_mono i (cur s)). pose proof (order_eq_key i (cur s) T). lia.
      * pose proof (order_mono (cur s) i). lia.
    + destruct (shift_left_spec (fnd_fuel b) (cur s) (cur s - first)) as (r & R & P & _); eauto; try lia.
      unfold fnd_fuel, BUNlast, BUNfirst in *. lia.
  - replace (cmp s =? 0) with false by lia. cbn [andb].
    exists (cur s). split; [reflexivity|]. rewrite G. split; [lia|]. split; [exact D|].
    intros i I. specialize (E i). lia.
Qed.

Lemma finish_last s :
  searched s -> found s ->
  exists r, fnd_finish atom_CMP b v 1 s = Some r /\ last_place b v r.
Proof.
  intros (A & B & C & D & E) F. pose proof (ok_bounds b Hok) as K.
  unfold fnd_finish. cbn [Z.ltb Z.gtb Z.compare].
  destruct F as [(F & G & H)|(F & G & H)].
  - rewrite F. destruct (tkey b) eqn:T; cbn [Z.eqb negb andb].
    + exists (cur s + 1). split; [reflexivity|]. split; [lia|]. split; intros i I.
      * pose proof (order_mono i (cur s)). lia.
      * pose proof (order_mono (cur s) i). pose proof (order_eq_key (cur s) i T). lia.
    + assert (S : Z.shiftr (last - cur s) 1 = (last - cur s) / 2) by now rewrite Z.shiftr_div_pow2.
      pose proof (Z.div_mod (last - cur s) 2). pose proof (Z.mod_pos_bound (last - cur s) 2).
      destruct (shift_right_spec (fnd_fuel b) (cur s) (Z.shiftr (last - cur s) 1))
        as (r & R & P); try lia.
      { unfold fnd_fuel, BUNlast, BUNfirst in *. lia. }
      rewrite R. exists (r + 1). now split.
  - replace (cmp s =? 0) with false by lia.
    exists (cur s). split; [reflexivity|]. rewrite G. split; [lia|]. split; [|intros; apply E; lia].
    intros i I. specialize (D i). lia.
Qed.

Lemma finish_any s :
  searched s -> found s ->
  (fnd_finish atom_CMP b v 0 s = Some BUN_NONE /\ forall i, first <= i < last -> ord i <> 0)
  \/ (exists r, fnd_finish atom_CMP b v 0 s = Some r /\ first <= r < last /\ ord r = 0).
Proof.
  intros (A & B & C & D & E) [(F & G & H)|(F & G & H)]; unfold fnd_finish; cbn [Z.ltb Z.gtb Z.compare].
  - rewrite F. right. exists (cur s). now split.
  - replace (cmp s =? 0) with false by lia. left. split; [reflexivity|].
    intros i I. specialize (D i). specialize (E i). lia.
Qed.

(** The dense case, for an oid that is not nil. *)
Lemma dense_places :
  tdense b = true -> 0 <= oid_of v < 2 ^ 63 ->
  let at_ := oid_of v - tseqbase b + first in
  (forall i, first <= i < last -> Z.sgn (ord i) = Z.sgn (i - at_))
  /\ fnd_dense oid_of b v (-1) = Z.max first (Z.min last at_)
  /\ fnd_dense oid_of b v 1 = Z.max first (Z.min last (at_ + 1))
  /\ fnd_dense oid_of b v 0 = if (first <=? at_) && (at_ <? last) then at_ else BUN_NONE.
Proof.
  intros T Q at_. pose proof (ok_bounds b Hok) as K.
  destruct (ok_dense b Hok T) as (S & B & C & D & E).
  split.
  - intros i I. specialize (D i I). unfold order. unfold BUNlast, BUNfirst, at_ in *.
    rewrite S. cbv iota. rewrite E by lia. unfold BUNfirst. lia.
  - unfold fnd_dense. rewrite uwrap_id by (unfold BUN_MAX, BUN_NONE in *; lia).
    cbn [Z.eqb Z.gtb Z.compare]. unfold at_, BUNlast, BUNfirst.
    rewrite Z.geb_leb. case Z.ltb_spec; [|case Z.leb_spec]; intros;
      repeat split; try lia; repeat case Z.leb_spec; repeat case Z.ltb_spec; intros; cbn [andb]; lia.
Qed.

End Ordered.

(** What the three searches return. *)
Definition is_found (b : bat V) (v : V) (r : Z) : Prop :=
  (r = BUN_NONE /\ forall i, BUNfirst b <= i < BUNlast b -> order b v i <> 0)
  \/ (BUNfirst b <= r < BUNlast b /\ order b v r = 0).

Lemma shortcut_first b v i :
  (let c := atom_CMP (tail b i) v in if tsorted b then c >=? 0 else c <=? 0) = (order b v i >=? 0).
Proof. unfold order. destruct (tsorted b); cbv zeta; breflect; lia. Qed.

Lemma shortcut_last b v i :
  (let c := atom_CMP (tail b i) v in if tsorted b then c <=? 0 else c >=? 0) = (order b v i <=? 0).
Proof. unfold order. destruct (tsorted b); cbv zeta; breflect; lia. Qed.

Lemma SORTfndwhich_cases b v which :
  column_ok b -> tsorted b || trevsorted b = true -> (tdense b = true -> 0 <= oid_of v < 2 ^ 63) ->
  which = -1 \/ which = 0 \/ which = 1 ->
  exists r, SORTfndwhich atom_CMP simple_CMP oid_of b v which = Some r
    /\ (which = -1 -> first_place b v r)
    /\ (which = 0 -> is_found b v r)
    /\ (which = 1 -> last_place b v r).
Proof.
  intros Hok Hord Hd W. unfold SORTfndwhich. rewrite <- negb_orb, Hord. cbn [negb].
  pose proof (ok_bounds b Hok) as K. unfold first_place, last_place, is_found.
  destruct (tdense b) eqn:T.
  - destruct (dense_places b v Hok T (Hd eq_refl)) as (A & B & C & D).
    eexists. split; [reflexivity|]. 
    split; [|split]; intros ->; rewrite ?B, ?C, ?D; unfold BUNlast, BUNfirst in *.
    + split; [lia|]. split; intros i I; specialize (A i); lia.
    + case Z.leb_spec; case Z.ltb_spec; intros; cbn [andb];
        try (left; split; [reflexivity|]; intros i I; specialize (A i I); lia).
      right. split; [lia|]. specialize (A (oid_of v - tseqbase b + batFirst b)). lia.
    + split; [lia|]. split; intros i I; specialize (A i); lia.
  - assert (Go : BUNfirst b < BUNlast b -> exists s,
      SORTfndloop atom_CMP simple_CMP (fnd_fuel b) b v (mkProbe (BUNfirst b) (BUNlast b) BUN_NONE 1)
      = Some s /\ searched b v s /\ found b v s).
    { intros L. now apply SORTfndloop_start. }
    assert (P : BUNfirst b <= BUNlast b) by (unfold BUNlast, BUNfirst; lia).
    destruct W as [ -> | [ -> | -> ] ]; cbn [Z.ltb Z.gtb Z.compare];
      rewrite ?shortcut_first, ?shortcut_last; case Z.leb_spec; intros L; cbn [orb].
    + exists (BUNfirst b). repeat split; intros; lia.
    + destruct (order b v (BUNfirst b) >=? 0) eqn:Q.
      * exists (BUNfirst b). repeat split; try (intros; lia).
        intros i I. pose proof (order_mono b v Hok Hord (BUNfirst b) i). lia.
      * destruct (Go L) as (s & -> & S & F).
        destruct (finish_first b v Hok Hord s S F) as (r & R & O). exists r. repeat split; try apply O; easy.
    + exists BUN_NONE. repeat split; try easy. left. split; [reflexivity|]. intros; lia.
    + destruct (Go L) as (s & -> & S & F).
      destruct (finish_any b v s S F) as [[R O]|(r & R & O)]; [exists BUN_NONE|exists r];
        (split; [exact R|]); repeat split; try easy; auto.
    + exists (BUNlast b). repeat split; intros; lia.
    + destruct (order b v (BUNlast b - 1) <=? 0) eqn:Q.
      * exists (BUNlast b). repeat split; try (intros; lia).
        intros i I. pose proof (order_mono b v Hok Hord i (BUNlast b - 1)). lia.
      * destruct (Go L) as (s & -> & S & F).
        destruct (finish_last b v Hok Hord s S F) as (r & R & O). exists r. repeat split; try apply O; easy.
Qed.

End Specification.

(** ** What the searches promise *)

Section Promises.

Context {V : Type} (atom_CMP simple_CMP : V -> V -> Z) (oid_of : V -> Z).

(** C12: On a sorted column, ascending, descending or dense, the searches end.
    [SORTfndfirst] returns the first position that does not precede the value,
    [SORTfndlast] the first position that follows it (so both the place where
    it would be inserted when it is absent), [SORTfnd] a position of the value,
    or BUN_NONE exactly when no position holds it.  In a dense column the value
    must not be the nil oid. *)
Theorem SORTfnd_places (b : bat V) v (C : Comparison atom_CMP)
    (Hok : column_ok atom_CMP simple_CMP oid_of b)
    (Hord : tsorted b || trevsorted b = true)
    (Hnil : tdense b = true -> 0 <= oid_of v < 2 ^ 63) :
  (exists r, SORTfndfirst atom_CMP simple_CMP oid_of b v = Some r /\ first_place atom_CMP b v r)
  /\ (exists r, SORTfndlast atom_CMP simple_CMP oid_of b v = Some r /\ last_place atom_CMP b v r)
  /\ (exists r, SORTfnd atom_CMP simple_CMP oid_of b v = Some r /\ is_found atom_CMP b v r).
Proof.
  assert (W : forall w, w = -1 \/ w = 0 \/ w = 1 -> _)
    by exact (fun w => SORTfndwhich_cases atom_CMP simple_CMP oid_of b v w Hok Hord Hnil).
  split; [|split].
  - destruct (W (-1)) as (r & E & P & _); [tauto|]. eauto.
  - destruct (W 1) as (r & E & _ & _ & P); [tauto|]. eauto.
  - destruct (W 0) as (r & E & _ & P & _); [tauto|]. eauto.
Qed.

End Promises.

(** A descending column in which every value occurs twice. *)
Definition sample_column : bat Z :=
  mkBat 3 8 false true false false 0 ST_int (fun i => 10 - i / 2).

Lemma sample_column_ok : column_ok num_cmp num_cmp (fun x => x) sample_column.
Proof.
  split; try discriminate; [now vm_compute| |reflexivity].
  intros _ i j A B. unfold num_cmp, BUNfirst, BUNlast in *.
  cbn [batFirst batCount tail sample_column] in *.
  pose proof (Z.div_le_mono i j 2). case Z.compare_spec; lia.
Qed.

Lemma SORTfnd_places_witness :
  SORTfndfirst num_cmp num_cmp (fun x => x) sample_column 7 = Some 6
  /\ SORTfndlast num_cmp num_cmp (fun x => x) sample_column 7 = Some 8
  /\ (exists r, SORTfnd num_cmp num_cmp (fun x => x) sample_column 7 = Some r
        /\ is_found num_cmp sample_column 7 r).
Proof.
  split; [reflexivity|]. split; [reflexivity|].
  exact (proj2 (proj2 (SORTfnd_places num_cmp num_cmp (fun x => x) sample_column 7 _
                         sample_column_ok eq_refl ltac:(discriminate)))).
Defined.

(** The nil oid is the smallest value of a column of object identifiers, but
    in a dense column it is searched for as the largest. *)
Lemma SORTfndfirst_dense_nil {V} (atom_CMP simple_CMP : V -> V -> Z) oid_of (b : bat V) v :
  tsorted b = true -> tdense b = true -> oid_of v = 2 ^ 63 -> 0 <= tseqbase b ->
  0 <= batCount b -> tseqbase b + batCount b <= 2 ^ 63 ->
  SORTfndfirst atom_CMP simple_CMP oid_of b v = Some (BUNlast b).
Proof.
  intros S D N A B C. unfold SORTfndfirst, SORTfndwhich, fnd_dense. rewrite S, D, N. cbn [negb andb].
  rewrite uwrap_id by lia. replace (2 ^ 63 <? tseqbase b) with false by lia.
  now replace (2 ^ 63 >=? tseqbase b + batCount b) with true by lia.
Qed.

(** ** Sorting, then searching *)

(** The column that holds the heads of a sorted array of integers. *)
Definition sorted_column {T} (rev : bool) (n : nat) (s : arrays Z T) : bat Z :=
  mkBat 0 (Z.of_nat n) (negb rev) rev false false 0 ST_int (fun i => heads s (Z.to_nat i)).

Lemma sorted_column_ok {T} rev n (s0 s : arrays Z T) w :
  Z.of_nat n <= BUN_MAX -> sorted_copy num_cmp rev w n s0 s ->
  column_ok num_cmp num_cmp (fun x => x) (sorted_column rev n s).
Proof.
  intros L (S & _).
  split; cbn [batFirst batCount tsorted trevsorted tkey tdense sorted_column];
    try discriminate; try reflexivity.
  - lia.
  - destruct rev; [discriminate|]. unfold BUNfirst, BUNlast; cbn. intros _ i j A B. apply S; lia.
  - destruct rev; [|discriminate]. unfold BUNfirst, BUNlast; cbn. intros _ i j A B. apply S; lia.
Qed.

(** How many of the first [n] slots satisfy a test, by position and by value. *)
Lemma count_places (P : nat -> bool) a z n :
  (a <= z <= n)%nat ->
  (forall i, (i < n)%nat -> P i = ((a <=? i) && (i <? z))%nat) ->
  List.length (List.filter P (seq 0 n)) = (z - a)%nat.
Proof.
  intros L H.
  assert (F : forall (b : bool) lo k, (lo + k <= n)%nat ->
            (forall i, (lo <= i < lo + k)%nat -> P i = b) ->
            List.length (List.filter P (seq lo k)) = if b then k else O).
  { intros b lo k; revert lo; induction k as [|k IH]; intros lo E G; cbn; [now destruct b|].
    rewrite (G lo) by lia. specialize (IH (S lo) ltac:(lia)).
    destruct b; cbn; rewrite IH; auto; intros; apply G; lia. }
  replace (seq 0 n) with (seq 0 (a + ((z - a) + (n - z))))%nat by (f_equal; lia).
  rewrite !seq_app, !filter_app, !length_app. cbn [Nat.add].
  rewrite (F false O a), (F true a (z - a)%nat), (F false (a + (z - a))%nat (n - z)%nat); try lia;
    intros i I; rewrite H by lia; case Nat.leb_spec; case Nat.ltb_spec; cbn [andb]; lia.
Qed.

Lemma Permutation_filter_length {A} (f : A -> bool) l l' :
  Permutation.Permutation l l' -> List.length (List.filter f l) = List.length (List.filter f l').
Proof. induction 1; cbn; repeat destruct (f _); cbn; congruence. Qed.

Lemma filter_map_length {A B} (f : B -> bool) (g : A -> B) l :
  List.length (List.filter f (map g l)) = List.length (List.filter (fun x => f (g x)) l).
Proof. induction l as [|x l IH]; cbn; [reflexivity|]. destruct (f (g x)); cbn; now rewrite IH. Qed.

Lemma order_num_eq b v i : order num_cmp b v i = 0 <-> tail b i = v.
Proof. unfold order, num_cmp. destruct (tsorted b); case Z.compare_spec; lia. Qed.

(** Sorting and searching together count: after [GDKqsort] or
    [GDKqsort_rev] of an integer column, the distance between the results of
    [SORTfndlast] and [SORTfndfirst] for [v] is the number of times [v] was in
    the column before it was sorted. *)
Theorem sort_search_count {T} (s : arrays Z T) t ts n v (rev : bool) (L : Z.of_nat n <= BUN_MAX) :
  exists s' f l,
    (if rev then GDKqsort_rev num_cmp num_cmp (fun x => x) (fun x => x) false false ST_int t ts n s
     else GDKqsort num_cmp num_cmp (fun x => x) (fun x => x) false false ST_int t ts n s) = Some s'
    /\ SORTfndfirst num_cmp num_cmp (fun x => x) (sorted_column rev n s') v = Some f
    /\ SORTfndlast num_cmp num_cmp (fun x => x) (sorted_column rev n s') v = Some l
    /\ l - f = Z.of_nat (List.length (List.filter (Z.eqb v) (map (heads s) (seq 0 n)))).
Proof.
  assert (Q : exists s' w, sorted_copy num_cmp rev w n s s' /\
    (if rev then GDKqsort_rev num_cmp num_cmp (fun x => x) (fun x => x) false false ST_int t ts n s
     else GDKqsort num_cmp num_cmp (fun x => x) (fun x => x) false false ST_int t ts n s) = Some s').
  { destruct (impl_sorted_copy num_cmp rev (t && negb (ts =? 0)) n s) as (s' & E & P).
    exists s', (t && negb (ts =? 0)). split; [exact P|]. now destruct rev. }
  destruct Q as (s' & w & P & E). exists s'.
  pose proof (sorted_column_ok rev n s s' w L P) as Hok. set (b := sorted_column rev n s') in *.
  assert (Hord : tsorted b || trevsorted b = true) by now destruct rev.
  destruct (SORTfndwhich_cases num_cmp num_cmp (fun x => x) b v (-1) Hok Hord) as (f & Ef & Pf & _);
    [discriminate|tauto|].
  destruct (SORTfndwhich_cases num_cmp num_cmp (fun x => x) b v 1 Hok Hord) as (l & El & _ & _ & Pl);
    [discriminate|tauto|].
  exists f, l. repeat split; try assumption.
  destruct (Pf eq_refl) as (B & F1 & F2). destruct (Pl eq_refl) as (B' & L1 & L2).
  unfold BUNfirst, BUNlast in *. cbn [b batFirst batCount sorted_column] in B, B', F1, F2, L1, L2.
  assert (O : forall i, order num_cmp b v (Z.of_nat i) = 0 <-> v = heads s' i).
  { intros i. rewrite order_num_eq. cbn. rewrite Nat2Z.id. lia. }
  assert (FL : f <= l).
  { destruct (Z_le_gt_dec f l); [assumption|]. specialize (F1 l). specialize (L2 l). lia. }
  rewrite (Permutation_filter_length _ _ _ (sorted_copy_heads _ _ _ _ _ _ P)), filter_map_length.
  rewrite (count_places _ (Z.to_nat f) (Z.to_nat l)); [lia|lia|].
  intros i I. specialize (F1 (Z.of_nat i)). specialize (F2 (Z.of_nat i)).
  specialize (L1 (Z.of_nat i)). specialize (L2 (Z.of_nat i)). specialize (O i).
  case Z.eqb_spec; case Nat.leb_spec; case Nat.ltb_spec; cbn [andb]; intros; lia.
Qed.

Lemma sort_search_count_witness :
  exists s' f l,
    GDKqsort_rev num_cmp num_cmp (fun x => x) (fun x => x) false false ST_int true 8 12
      sample_arrays = Some s'
    /\ SORTfndfirst num_cmp num_cmp (fun x => x) (sorted_column true 12 s') 3 = Some f
    /\ SORTfndlast num_cmp num_cmp (fun x => x) (sorted_column true 12 s') 3 = Some l
    /\ l - f = 4.
Proof. exact (sort_search_count sample_arrays true 8 12 3 true ltac:(vm_compute; discriminate)). Defined.
