(* ===== verification/SelectRange.v ===== *)
(** * The range of a selection

    gdk/gdk_select.c: [BATsubselect] reduces the many cases of its arguments to
    nothing, everything, or a range; for numeric types [NORMALIZE] makes the
    range a closed one; the scans test each value against it.  The meaning of the
    arguments is the table in the comment above the function, [selects]; every
    step is shown to keep it, but for the cases that the lemmas exclude. *)

From Stdlib Require Import ZArith Lia Bool List.
Import ListNotations.
From S2P Require Import Prelude Sort.

Open Scope Z_scope.
Open Scope list_scope.

(** ** Types of columns *)

(** What the function knows of the type of a column.  [numeric] types have a
    smallest and a largest value and neighbours, the macros [MINVALUE], [MAXVALUE],
    [PREVVALUE] and [NEXTVALUE]; [scan_min] and [scan_max] are those of the
    storage type.  [oid_of] is the value as an object identifier. *)
Record domain (V : Type) := mkDomain {
  ATOMcmp : V -> V -> Z;
  simple_CMP : V -> V -> Z;
  ATOMnilptr : V;
  numeric : bool;
  MINVALUE : V;
  MAXVALUE : V;
  PREVVALUE : V -> V;
  NEXTVALUE : V -> V;
  scan_min : V;
  scan_max : V;
  oid_of : V -> Z;
}.
Arguments mkDomain {V}.
Arguments ATOMcmp {V} d x y : rename.
Arguments simple_CMP {V} d x y : rename.
Arguments ATOMnilptr {V} d : rename.
Arguments numeric {V} d : rename.
Arguments MINVALUE {V} d : rename.
Arguments MAXVALUE {V} d : rename.
Arguments PREVVALUE {V} d x : rename.
Arguments NEXTVALUE {V} d x : rename.
Arguments scan_min {V} d : rename.
Arguments scan_max {V} d : rename.
Arguments oid_of {V} d x : rename.

Section Range.

Context {V : Type} (d : domain V).

Definition eqv (x y : V) : bool := ATOMcmp d x y =? 0.
Definition isnil (x : V) : bool := eqv x (ATOMnilptr d).

(** *** The arguments *)

(** The variables of the function that describe the range; [tl] and [th] here are
    the values pointed to. *)
Record args := mkArgs {
  a_tl : V; a_th : V;
  a_li : bool; a_hi : bool; a_lval : bool; a_hval : bool;
  a_anti : bool; a_equi : bool; a_lnil : bool;
}.

(** Is it a point, which ends count. *)
Definition start_args (tl : V) (th : option V) (li hi anti : bool) : args :=
  let lnil := isnil tl in
  match th with
  | None => mkArgs tl tl li li true true anti true lnil
  | Some th =>
      let lval := negb lnil in
      let equi := lval && eqv tl th in
      if equi then mkArgs tl tl li hi lval true anti true lnil
      else mkArgs tl th li hi lval (negb (isnil th)) anti false lnil
  end.

(** The cases of [anti]; [None] is the empty result. *)
Definition anti_args (a : args) : option args :=
  if negb (a_anti a) then Some a
  else if negb (Bool.eqb (a_lval a) (a_hval a)) then
    Some (mkArgs (a_th a) (a_tl a) (negb (a_hi a)) (negb (a_li a)) (a_hval a) (a_lval a)
            false (a_equi a) (isnil (a_th a)))
  else if negb (a_lval a) && negb (a_hval a) then None
  else if a_equi a && a_lnil a then
    Some (mkArgs (a_tl a) (a_th a) (a_li a) (a_hi a) false false false false (a_lnil a))
  else if a_equi a then
    if negb (a_li a && a_hi a)
    then Some (mkArgs (a_tl a) (a_th a) (a_li a) (a_hi a) false false false false (a_lnil a))
    else Some (mkArgs (a_tl a) (a_th a) (a_li a) (a_hi a) (a_lval a) (a_hval a) true false (a_lnil a))
  else Some a.

(** Nothing, every candidate, or a range to look for. *)
Inductive plan := Empty | Everything | Range (a : args).

Definition make_plan (nonil : bool) (tl : V) (th : option V) (li hi anti : bool) : plan :=
  match anti_args (start_args tl th li hi anti) with
  | None => Empty
  | Some a =>
      if a_hval a && ((a_equi a && negb (a_li a && a_hi a)) || (ATOMcmp d (a_tl a) (a_th a) >? 0))
      then Empty
      else if a_equi a && a_lnil a && nonil then Empty
      else if negb (a_equi a) && negb (a_lval a) && negb (a_hval a) && a_lnil a && nonil then Everything
      else Range a
  end.

(** *** Closed ranges *)

(** [NORMALIZE] moves the ends: it stores new values in the variables [vl] and
    [vh] of the function and makes the pointers [tl] and [th] point to them. *)
Inductive ptr := Arg (v : V) | Vl | Vh.

Record vars := mkVars {
  tl : ptr; th : ptr; vl : V; vh : V;
  li : bool; hi : bool; lval : bool; hval : bool; anti : bool;
}.
Definition deref (x : vars) (p : ptr) : V := match p with Arg v => v | Vl => vl x | Vh => vh x end.
Definition low_end (x : vars) : V := deref x (tl x).
Definition high_end (x : vars) : V := deref x (th x).

Definition vars_of (vl vh : V) (a : args) : vars :=
  mkVars (Arg (a_tl a)) (Arg (a_th a)) vl vh (a_li a) (a_hi a) (a_lval a) (a_hval a) (a_anti a).

Definition norm_anti_low (x : vars) : vars :=
  if anti x && li x then
    if eqv (low_end x) (MINVALUE d)
    then mkVars (th x) (th x) (vl x) (vh x) (negb (hi x)) (hi x) (lval x) false false
    else mkVars Vl (th x) (PREVVALUE d (low_end x)) (vh x) false (hi x) (lval x) (hval x) (anti x)
  else x.

Definition norm_anti_high (x : vars) : vars :=
  if anti x && hi x then
    if eqv (high_end x) (MAXVALUE d)
    then mkVars (tl x) (tl x) (vl x) (vh x) (li x) (negb (li x)) false (hval x) false
    else mkVars (tl x) Vh (vl x) (NEXTVALUE d (high_end x)) (li x) false (lval x) (hval x) (anti x)
  else x.

Definition norm_low (x : vars) : option vars :=
  if lval x then
    if li x then Some x
    else if eqv (low_end x) (MAXVALUE d) then None
    else Some (mkVars Vl (th x) (NEXTVALUE d (low_end x)) (vh x) true (hi x) (lval x) (hval x) (anti x))
  else Some (mkVars Vl (th x) (MINVALUE d) (vh x) true (hi x) true (hval x) (anti x)).

Definition norm_high (x : vars) : option vars :=
  if hval x then
    if hi x then Some x
    else if eqv (high_end x) (MINVALUE d) then None
    else Some (mkVars (tl x) Vh (vl x) (PREVVALUE d (high_end x)) (li x) true (lval x) (hval x) (anti x))
  else Some (mkVars (tl x) Vh (vl x) (MAXVALUE d) (li x) true (lval x) true (anti x)).

Definition NORMALIZE (x : vars) : option vars :=
  let x := norm_anti_high (norm_anti_low x) in
  if anti x then Some x
  else match norm_low x with None => None | Some x => norm_high x end.

(** *** Scanning *)

(** The test of the loop that [scanfunc] chooses for a numeric type. *)
Definition scan_test (nonil equi : bool) (x : vars) (v : V) : bool :=
  let vl := low_end x in let vh := high_end x in
  if equi then eqv v vl
  else if anti x then
    ((ATOMcmp d v vl <=? 0) || (ATOMcmp d v vh >=? 0)) && (nonil || negb (isnil v))
  else if nonil && eqv vl (scan_min d) then ATOMcmp d v vh <=? 0
  else if eqv vh (scan_max d) then ATOMcmp d v vl >=? 0
  else (ATOMcmp d v vl >=? 0) && (ATOMcmp d v vh <=? 0).

(** The test in [candscan_any] and [fullscan_any]. *)
Definition any_test (equi : bool) (x : vars) (v : V) : bool :=
  let cl := ATOMcmp d (low_end x) v in let ch := ATOMcmp d (high_end x) v in
  if equi then cl =? 0
  else if anti x then
    negb (isnil v)
    && ((lval x && ((cl >? 0) || (negb (li x) && (cl =? 0))))
        || (hval x && ((ch <? 0) || (negb (hi x) && (ch =? 0)))))
  else
    negb (isnil v)
    && ((negb (lval x) || (cl <? 0) || (li x && (cl =? 0)))
        && (negb (hval x) || (ch >? 0) || (hi x && (ch =? 0)))).

Definition test (nonil equi : bool) (x : vars) : V -> bool :=
  if numeric d then scan_test nonil equi x else any_test equi x.

End Range.

Arguments args : clear implicits.
Arguments vars : clear implicits.
Arguments ptr : clear implicits.
Arguments plan : clear implicits.

(** ** Orders on finitely many values *)

Section Ranks.

Context {V : Type} (cmp : V -> V -> Z) `{!Comparison cmp}.

Lemma filter_length_le (f g : V -> bool) l :
  (forall x, In x l -> f x = true -> g x = true) ->
  (List.length (List.filter f l) <= List.length (List.filter g l))%nat.
Proof.
  induction l as [|x l IH]; intros H; cbn; [lia|].
  specialize (IH (fun y I => H y (or_intror I))). pose proof (H x (or_introl eq_refl)) as Hx.
  destruct (f x); [rewrite Hx by reflexivity|destruct (g x)]; cbn; lia.
Qed.

Lemma filter_length_lt (f g : V -> bool) l z :
  (forall x, In x l -> f x = true -> g x = true) -> In z l -> f z = false -> g z = true ->
  (List.length (List.filter f l) < List.length (List.filter g l))%nat.
Proof.
  induction l as [|x l IH]; intros H I F G; [destruct I|]. cbn. destruct I as [<-|I].
  - rewrite F, G. cbn. pose proof (filter_length_le f g l (fun y I => H y (or_intror I))). lia.
  - specialize (IH (fun y I => H y (or_intror I)) I F G). pose proof (H x (or_introl eq_refl)) as Hx.
    destruct (f x); [rewrite Hx by reflexivity|destruct (g x)]; cbn; lia.
Qed.

(** Finitely many values compare like integers. *)
Lemma ranks (l : list V) :
  exists rk : V -> Z, forall x y, In x l -> In y l -> Z.sgn (cmp x y) = Z.sgn (rk x - rk y).
Proof.
  set (below := fun x y => cmp y x <? 0).
  exists (fun x => Z.of_nat (List.length (List.filter (below x) l))). intros x y Ix Iy.
  assert (LE : forall x y, cmp x y <= 0 -> forall z, below x z = true -> below y z = true).
  { intros u v L z. unfold below. intros Q.
    pose proof (cmp_trans u v z). pose proof (cmp_opposite z v).
    pose proof (cmp_opposite u v). pose proof (cmp_opposite z u). lia. }
  assert (LT : forall x y, In x l -> cmp x y < 0 ->
            (List.length (List.filter (below x) l) < List.length (List.filter (below y) l))%nat).
  { intros u v I L. apply (filter_length_lt _ _ l u); [|exact I| |]; unfold below.
    - intros z _. apply LE. lia.
    - pose proof (cmp_opposite u u). lia.
    - lia. }
  pose proof (cmp_opposite x y) as O. pose proof (LT x y Ix). pose proof (LT y x Iy).
  destruct (Z_lt_le_dec (cmp x y) 0) as [L|L]; [lia|].
  destruct (Z_lt_le_dec (cmp y x) 0) as [L'|L']; [lia|].
  assert (Lx : cmp x y <= 0) by lia. assert (Ly : cmp y x <= 0) by lia.
  pose proof (filter_length_le (below x) (below y) l (fun z _ => LE x y Lx z)).
  pose proof (filter_length_le (below y) (below x) l (fun z _ => LE y x Ly z)). lia.
Qed.

End Ranks.

(** The same, on the comparisons with 0 that the code makes. *)
Lemma rank_tests {V} (cmp : V -> V -> Z) `{!Comparison cmp} (l : list V) :
  exists rk : V -> Z,
    (forall x y, In x l -> In y l -> (cmp x y =? 0) = (rk x =? rk y))
    /\ (forall x y, In x l -> In y l -> (cmp x y <=? 0) = (rk x <=? rk y))
    /\ (forall x y, In x l -> In y l -> (cmp x y <? 0) = (rk x <? rk y))
    /\ (forall x y, In x l -> In y l -> (cmp x y >=? 0) = (rk y <=? rk x))
    /\ (forall x y, In x l -> In y l -> (cmp x y >? 0) = (rk y <? rk x)).
Proof.
  destruct (ranks cmp l) as (rk & R). exists rk.
  repeat split; intros x y Ix Iy; specialize (R x y Ix Iy); apply eq_true_iff_eq; lia.
Qed.

(** [order_lia cmp l] proves a goal on comparisons of the variables in the
    context and the values in [l]. *)
Ltac values V acc :=
  match goal with
  | v : V |- _ => lazymatch acc with context [v] => fail | _ => values V (cons v acc) end
  | _ => acc
  end.
Ltac as_tests cmp :=
  repeat match goal with
  | H : cmp _ _ = 0 |- _ => apply Z.eqb_eq in H
  | H : cmp _ _ <> 0 |- _ => apply Z.eqb_neq in H
  | H : cmp _ _ <= 0 |- _ => apply Z.leb_le in H
  | H : cmp _ _ < 0 |- _ => apply Z.ltb_lt in H
  | H : cmp _ _ >= 0 |- _ => apply Z.geb_le in H
  | H : 0 <= cmp _ _ |- _ => apply Z.geb_le in H
  | H : cmp _ _ > 0 |- _ => apply Z.gtb_lt in H
  | H : 0 < cmp _ _ |- _ => apply Z.gtb_lt in H
  | |- cmp _ _ = 0 => apply Z.eqb_eq
  | |- cmp _ _ <= 0 => apply Z.leb_le
  | |- cmp _ _ < 0 => apply Z.ltb_lt
  end.
Ltac rank_with R x y := constr:(R x y ltac:(cbn; tauto) ltac:(cbn; tauto)).
Ltac order_lia cmp l :=
  let l := lazymatch type of l with list ?V => values V l end in
  let rk := fresh "rk" in
  let Re := fresh in let Rle := fresh in let Rlt := fresh in let Rge := fresh in let Rgt := fresh in
  as_tests cmp;
  destruct (rank_tests cmp l) as (rk & Re & Rle & Rlt & Rge & Rgt);
  repeat match goal with
  | |- context [cmp ?x ?y =? 0] => let E := rank_with Re x y in rewrite E
  | |- context [cmp ?x ?y <=? 0] => let E := rank_with Rle x y in rewrite E
  | |- context [cmp ?x ?y <? 0] => let E := rank_with Rlt x y in rewrite E
  | |- context [cmp ?x ?y >=? 0] => let E := rank_with Rge x y in rewrite E
  | |- context [cmp ?x ?y >? 0] => let E := rank_with Rgt x y in rewrite E
  | H : context [cmp ?x ?y =? 0] |- _ => let E := rank_with Re x y in rewrite E in H
  | H : context [cmp ?x ?y <=? 0] |- _ => let E := rank_with Rle x y in rewrite E in H
  | H : context [cmp ?x ?y <? 0] |- _ => let E := rank_with Rlt x y in rewrite E in H
  | H : context [cmp ?x ?y >=? 0] |- _ => let E := rank_with Rge x y in rewrite E in H
  | H : context [cmp ?x ?y >? 0] |- _ => let E := rank_with Rgt x y in rewrite E in H
  end;
  clear Re Rle Rlt Rge Rgt; lia.

(** ** What a selection means *)

Section Meaning.

Context {V : Type} (d : domain V).
#[local] Abbreviation cmp := (ATOMcmp d).
#[local] Abbreviation nil := (ATOMnilptr d).

(** The table above [BATsubselect]: is a row with the value [x] in the result.
    An upper bound that is absent stands for the lower one. *)
Definition selects (tl : V) (th : option V) (li hi anti : bool) (x : V) : bool :=
  let above v := if li then cmp v x <=? 0 else cmp v x <? 0 in
  let below v := if hi then cmp x v <=? 0 else cmp x v <? 0 in
  match th with
  | None =>
      if isnil d tl then if anti then negb (isnil d x) else isnil d x
      else negb (isnil d x) && xorb anti (li && eqv d x tl)
  | Some th =>
      if isnil d tl && isnil d th then negb anti && negb (isnil d x)
      else if isnil d tl then negb (isnil d x) && xorb anti (below th)
      else if isnil d th then negb (isnil d x) && xorb anti (above tl)
      else if cmp tl th >? 0 then false
      else negb (isnil d x) && xorb anti (above tl && below th)
  end.

(** What the code relies on about a type: nil is the least value, and for a
    numeric type there are bounds and neighbours. *)
Class Domain (valid : V -> Prop) : Prop := {
  dom_cmp :: Comparison cmp;
  dom_nil : valid nil;
  dom_nil_least : forall x, valid x -> cmp nil x <= 0;
  dom_min : numeric d = true -> valid (MINVALUE d) /\ isnil d (MINVALUE d) = false;
  dom_max : numeric d = true -> valid (MAXVALUE d) /\ isnil d (MAXVALUE d) = false;
  dom_bounds : numeric d = true -> forall x, valid x -> isnil d x = false ->
    cmp (MINVALUE d) x <= 0 /\ cmp x (MAXVALUE d) <= 0;
  dom_prev : numeric d = true -> forall x, valid x -> isnil d x = false -> eqv d x (MINVALUE d) = false ->
    valid (PREVVALUE d x) /\ isnil d (PREVVALUE d x) = false
    /\ forall y, valid y -> (cmp y (PREVVALUE d x) <= 0 <-> cmp y x < 0);
  dom_next : numeric d = true -> forall x, valid x -> isnil d x = false -> eqv d x (MAXVALUE d) = false ->
    valid (NEXTVALUE d x) /\ isnil d (NEXTVALUE d x) = false
    /\ forall y, valid y -> (cmp (NEXTVALUE d x) y <= 0 <-> cmp x y < 0);
  dom_scan : numeric d = true -> forall x, valid x -> isnil d x = false ->
    cmp (scan_min d) x <= 0 /\ cmp x (scan_max d) <= 0;
}.

Context {valid : V -> Prop} {Dom : Domain valid}.

(** The ranges that [make_plan] and [NORMALIZE] leave, by the two ends and the
    flags [li], [hi], [lval], [hval] and [anti]. *)
Record ends_ok (equi : bool) (l h : V) (li hi lval hval anti : bool) : Prop := {
  r_low : valid l;
  r_high : valid h;
  r_equi : equi = true ->
    cmp l h = 0 /\ li = true /\ hi = true /\ lval = true /\ hval = true /\ anti = false;
  r_lval : equi = false -> lval = true -> isnil d l = false;
  r_hval : equi = false -> hval = true -> isnil d h = false;
  r_anti : anti = true ->
    lval = true /\ hval = true /\ cmp l h <= 0 /\ (cmp l h = 0 -> li = true /\ hi = true);
}.
Definition range_ok (equi : bool) (x : vars V) : Prop :=
  ends_ok equi (low_end x) (high_end x) (li x) (hi x) (lval x) (hval x) (anti x).

(** The test of [fullscan_any] in the same terms. *)
Definition ends_test (l h : V) (li hi lval hval anti : bool) (v : V) : bool :=
  any_test d false (mkVars (Arg l) (Arg h) l h li hi lval hval anti) v.

Lemma any_test_ends x v :
  any_test d false x v = ends_test (low_end x) (high_end x) (li x) (hi x) (lval x) (hval x) (anti x) v.
Proof. reflexivity. Qed.

(** A point that is nil is looked for only with an inclusive end (the table
    says that the ends are ignored). *)
Definition nil_point_ok (tl : V) (th : option V) (li anti : bool) : Prop :=
  th = None -> isnil d tl = true -> li || anti = true.

Definition opt_valid (th : option V) : Prop := match th with None => True | Some v => valid v end.

(** What a plan is right about. *)
Definition plan_correct (nn : bool) (anti : bool) (sel : V -> bool) (vl vh : V) (p : plan V) : Prop :=
  match p with
  | Empty => forall x, valid x -> (nn = true -> isnil d x = false) -> sel x = false
  | Everything => nn = true /\ forall x, valid x -> isnil d x = false -> sel x = true
  | Range a => range_ok (a_equi a) (vars_of vl vh a)
      /\ (a_anti a = true -> anti = true)
      /\ forall x, valid x -> any_test d (a_equi a) (vars_of vl vh a) x = sel x
  end.

#[local] Ltac plan_goal :=
  repeat match goal with |- context [?c >? 0] => destruct (c >? 0) eqn:? end; cbn;
  repeat match goal with |- context [if ?b then Empty else _] => destruct b; cbn
                      | |- context [if ?b then Everything else _] => destruct b; cbn end;
  repeat match goal with |- _ /\ _ => split | |- range_ok _ _ => split | |- _ => progress intros end;
  try assumption; try discriminate;
  unfold low_end, high_end, any_test, isnil, eqv in *; cbn in *; try reflexivity; try assumption; try discriminate;
  repeat match goal with |- context [if ?b then false else true] => change (if b then false else true) with (negb b) end.
#[local] Ltac plan_case :=
  plan_goal; order_lia (ATOMcmp d) [nil].

Lemma make_plan_correct nn tl th li hi anti vl vh :
  valid tl -> opt_valid th -> nil_point_ok tl th li anti ->
  plan_correct nn anti (selects tl th li hi anti) vl vh (make_plan d nn tl th li hi anti).
Proof.
  intros Vl Vh N. unfold nil_point_ok in N.
  unfold plan_correct, make_plan, anti_args, start_args, selects.
  pose proof (dom_nil_least tl Vl) as Ll.
  destruct th as [th|]; cbn in Vh; [pose proof (dom_nil_least th Vh) as Lh; destruct (eqv d tl th) eqn:E|specialize (N eq_refl)];
    destruct (isnil d tl) eqn:Nl; try (destruct (isnil d th) eqn:Nh);
    destruct li, hi, anti; try (specialize (N eq_refl); discriminate);
    cbn; plan_case.
Qed.

(** *** Closed ranges *)

Definition same_tests (x y : vars V) : Prop :=
  forall v, valid v -> any_test d false y v = any_test d false x v.

(** The pointer [th] to the variable [vl], or [tl] to [vh], would not survive. *)
Definition apart (x : vars V) : Prop := th x <> Vl /\ tl x <> Vh.

(** The one case in which [NORMALIZE] makes [th] point to [vl] and stores
    into [vl] afterwards. *)
Definition aliases (a : args V) : bool :=
  a_anti a && a_li a && a_hi a && eqv d (a_th a) (MAXVALUE d) && negb (eqv d (a_tl a) (MINVALUE d)).

Hypothesis Hnum : numeric d = true.

(** The four one-sided tests, and how moving an end changes them. *)
Definition over (l : V) (li : bool) (v : V) : bool := (cmp l v <? 0) || (li && (cmp l v =? 0)).
Definition under (h : V) (hi : bool) (v : V) : bool := (cmp h v >? 0) || (hi && (cmp h v =? 0)).

Lemma ends_test_sides l h li hi lval hval anti v :
  ends_test l h li hi lval hval anti v
  = negb (isnil d v)
    && (if anti then (lval && under l (negb li) v) || (hval && over h (negb hi) v)
        else (negb lval || over l li v) && (negb hval || under h hi v)).
Proof. unfold ends_test, any_test, low_end, high_end, over, under. cbn. now rewrite !orb_assoc; destruct anti. Qed.

Section Sides.

Variables (e v : V).
Hypotheses (He : valid e) (Ne : isnil d e = false) (Hv : valid v) (Nv : isnil d v = false).

Lemma over_next : eqv d e (MAXVALUE d) = false -> over (NEXTVALUE d e) true v = over e false v.
Proof.
  intros Q. destruct (dom_next Hnum e He Ne Q) as (_ & _ & N). specialize (N v Hv).
  unfold over. lia.
Qed.

Lemma under_prev : eqv d e (MINVALUE d) = false -> under (PREVVALUE d e) true v = under e false v.
Proof.
  intros Q. destruct (dom_prev Hnum e He Ne Q) as (_ & _ & N). specialize (N v Hv).
  pose proof (cmp_opposite e v). pose proof (cmp_opposite (PREVVALUE d e) v). unfold under. lia.
Qed.

Lemma over_min : over (MINVALUE d) true v = true.
Proof. pose proof (dom_bounds Hnum v Hv Nv). unfold over. lia. Qed.

Lemma under_max : under (MAXVALUE d) true v = true.
Proof.
  pose proof (dom_bounds Hnum v Hv Nv). pose proof (cmp_opposite (MAXVALUE d) v). unfold under. lia.
Qed.

Lemma under_is_min : eqv d e (MINVALUE d) = true -> under e false v = false.
Proof.
  pose proof (dom_bounds Hnum v Hv Nv) as (B & _). unfold eqv, under. intros Q.
  order_lia (ATOMcmp d) [MINVALUE d].
Qed.

Lemma over_is_max : eqv d e (MAXVALUE d) = true -> over e false v = false.
Proof.
  pose proof (dom_bounds Hnum v Hv Nv) as (_ & B). unfold eqv, over. intros Q.
  order_lia (ATOMcmp d) [MAXVALUE d].
Qed.

End Sides.

Lemma sides x v : any_test d false x v
  = negb (isnil d v)
    && (if anti x
        then (lval x && under (low_end x) (negb (li x)) v) || (hval x && over (high_end x) (negb (hi x)) v)
        else (negb (lval x) || over (low_end x) (li x) v) && (negb (hval x) || under (high_end x) (hi x) v)).
Proof. now rewrite any_test_ends, ends_test_sides. Qed.

(** Moving the lower end leaves the upper one in place, as long as the two do
    not share a variable; and the other way round. *)
Lemma high_end_apart (x : vars V) p u l b b' a : th x <> Vl ->
  high_end (mkVars p (th x) u (vh x) l (hi x) b b' a) = high_end x.
Proof. unfold high_end, deref. cbn. now destruct (th x). Qed.

Lemma low_end_apart (x : vars V) p u l b b' a : tl x <> Vh ->
  low_end (mkVars (tl x) p (vl x) u (li x) l b b' a) = low_end x.
Proof. unfold low_end, deref. cbn. now destruct (tl x). Qed.

Lemma norm_low_correct x :
  range_ok false x -> anti x = false -> apart x ->
  match norm_low d x with
  | None => forall v, valid v -> any_test d false x v = false
  | Some y => range_ok false y /\ same_tests x y /\ apart y
      /\ anti y = false /\ lval y = true /\ li y = true
  end.
Proof.
  intros R A [P Q]. pose proof R as [Rl Rh _ Nl Nh _]. destruct (dom_min Hnum) as (Mv & Mn). unfold norm_low.
  assert (G : forall u, valid u -> isnil d u = false ->
     (forall v, valid v -> isnil d v = false -> over u true v = negb (lval x) || over (low_end x) (li x) v) ->
     let y := mkVars Vl (th x) u (vh x) true (hi x) true (hval x) (anti x) in
     range_ok false y /\ same_tests x y /\ apart y /\ anti y = false /\ lval y = true /\ li y = true).
  { intros u Vu Nu S y. subst y. unfold range_ok, apart, same_tests. rewrite high_end_apart by exact P.
    cbn [lval li hi hval anti tl th]. split; [|split; [|repeat split; easy]].
    - split; cbn; try easy; congruence.
    - intros v Vv. rewrite !sides, high_end_apart by exact P. cbn [lval li hi hval anti]. rewrite A.
      destruct (isnil d v) eqn:Nv; [reflexivity|]. cbn. now rewrite <- S. }
  destruct (lval x) eqn:L; [destruct (li x) eqn:I; [|destruct (eqv d (low_end x) (MAXVALUE d)) eqn:E]|].
  - split; [exact R|]. repeat split; easy.
  - intros v Vv. rewrite sides, A, L, I. destruct (isnil d v) eqn:Nv; [reflexivity|]. cbn.
    now rewrite over_is_max by auto.
  - destruct (dom_next Hnum _ Rl (Nl eq_refl eq_refl) E) as (Wv & Wn & _).
    apply G; auto. intros v Vv Nv. cbn. apply over_next; auto.
  - apply G; auto. intros v Vv Nv. cbn. now apply over_min.
Qed.

Lemma norm_high_correct x :
  range_ok false x -> anti x = false -> apart x ->
  match norm_high d x with
  | None => forall v, valid v -> any_test d false x v = false
  | Some y => range_ok false y /\ same_tests x y
      /\ anti y = false /\ lval y = lval x /\ li y = li x /\ hval y = true /\ hi y = true
  end.
Proof.
  intros R A [P Q]. pose proof R as [Rl Rh _ Nl Nh _]. destruct (dom_max Hnum) as (Mv & Mn). unfold norm_high.
  assert (G : forall u, valid u -> isnil d u = false ->
     (forall v, valid v -> isnil d v = false -> under u true v = negb (hval x) || under (high_end x) (hi x) v) ->
     let y := mkVars (tl x) Vh (vl x) u (li x) true (lval x) true (anti x) in
     range_ok false y /\ same_tests x y
     /\ anti y = false /\ lval y = lval x /\ li y = li x /\ hval y = true /\ hi y = true).
  { intros u Vu Nu S y. subst y. unfold range_ok, same_tests. rewrite low_end_apart by exact Q.
    cbn [lval li hi hval anti tl th]. split; [|split; [|repeat split; easy]].
    - split; cbn; try easy; congruence.
    - intros v Vv. rewrite !sides, low_end_apart by exact Q. cbn [lval li hi hval anti]. rewrite A.
      destruct (isnil d v) eqn:Nv; [reflexivity|]. cbn. now rewrite <- S. }
  destruct (hval x) eqn:L; [destruct (hi x) eqn:I; [|destruct (eqv d (high_end x) (MINVALUE d)) eqn:E]|].
  - split; [exact R|]. repeat split; easy.
  - intros v Vv. rewrite sides, A, L, I. destruct (isnil d v) eqn:Nv; [reflexivity|]. cbn.
    rewrite under_is_min by auto. apply andb_false_r.
  - destruct (dom_prev Hnum _ Rh (Nh eq_refl eq_refl) E) as (Wv & Wn & _).
    apply G; auto. intros v Vv Nv. cbn. apply under_prev; auto.
  - apply G; auto. intros v Vv Nv. cbn. now apply under_max.
Qed.

Lemma prev_below e : valid e -> isnil d e = false -> eqv d e (MINVALUE d) = false ->
  valid (PREVVALUE d e) /\ isnil d (PREVVALUE d e) = false /\ cmp (PREVVALUE d e) e < 0.
Proof.
  intros V0 N0 Q. destruct (dom_prev Hnum e V0 N0 Q) as (A & B & C). repeat split; auto.
  apply C; [exact A|]. pose proof (cmp_opposite (PREVVALUE d e) (PREVVALUE d e)). lia.
Qed.

Lemma next_above e : valid e -> isnil d e = false -> eqv d e (MAXVALUE d) = false ->
  valid (NEXTVALUE d e) /\ isnil d (NEXTVALUE d e) = false /\ cmp e (NEXTVALUE d e) < 0.
Proof.
  intros V0 N0 Q. destruct (dom_next Hnum e V0 N0 Q) as (A & B & C). repeat split; auto.
  apply C; [exact A|]. pose proof (cmp_opposite (NEXTVALUE d e) (NEXTVALUE d e)). lia.
Qed.

Lemma lt_le_trans p l h : cmp p l < 0 -> cmp l h <= 0 -> cmp p h < 0.
Proof. intros. order_lia (ATOMcmp d) (@List.nil V). Qed.

Lemma le_lt_trans p l h : cmp p l <= 0 -> cmp l h < 0 -> cmp p h < 0.
Proof. intros. order_lia (ATOMcmp d) (@List.nil V). Qed.

Lemma norm_anti_correct l h xl xh il ih :
  let x := mkVars (Arg l) (Arg h) xl xh il ih true true true in
  range_ok false x ->
  il && ih && eqv d h (MAXVALUE d) && negb (eqv d l (MINVALUE d)) = false ->
  let y := norm_anti_high d (norm_anti_low d x) in
  range_ok false y /\ same_tests x y /\ apart y
  /\ (anti y = true -> li y = false /\ hi y = false /\ lval y = true /\ hval y = true).
Proof.
  intros x [Rl Rh _ Nl Nh Ra] Al. cbn in Rl, Rh, Nl, Nh, Ra.
  specialize (Nl eq_refl eq_refl). specialize (Nh eq_refl eq_refl).
  destruct (Ra eq_refl) as (_ & _ & LE & EQ). clear Ra. subst x.
  pose proof (dom_prev Hnum l Rl Nl) as Dp. pose proof (dom_next Hnum h Rh Nh) as Dn.
  unfold range_ok, same_tests, apart. setoid_rewrite sides. unfold norm_anti_low.
  cbn [anti li low_end deref tl]. destruct il; [destruct (eqv d l (MINVALUE d)) eqn:Em|]; cbn [andb].
  - (* half a range, from [th] *)
    cbn. repeat split; try easy. intros v Vv. destruct (isnil d v) eqn:Nv; [reflexivity|].
    cbn. rewrite (under_is_min l v Vv Nv Em). now rewrite andb_true_r.
  - destruct (prev_below l Rl Nl Em) as (Pv & Pn & Pl). unfold norm_anti_high. cbn.
    destruct ih; cbn; [destruct (eqv d h (MAXVALUE d)) eqn:Ex; [discriminate|]|].
    + destruct (next_above h Rh Nh Ex) as (Wv & Wn & Wl).
      cbn. split; [|split; [|split; easy]].
      * split; try easy. intros _. pose proof (lt_le_trans _ _ _ Pl LE). pose proof (le_lt_trans (PREVVALUE d l) h (NEXTVALUE d h)). lia.
      * intros v Vv. destruct (isnil d v) eqn:Nv; [reflexivity|]. cbn.
        now rewrite (under_prev l v), (over_next h v) by auto.
    + split; [|split; [|split; easy]].
      * split; try easy. intros _. pose proof (lt_le_trans _ _ _ Pl LE). lia.
      * intros v Vv. destruct (isnil d v) eqn:Nv; [reflexivity|]. cbn. now rewrite (under_prev l v) by auto.
  - unfold norm_anti_high. cbn. destruct ih; cbn; [destruct (eqv d h (MAXVALUE d)) eqn:Ex|].
    + cbn. repeat split; try easy. intros v Vv. destruct (isnil d v) eqn:Nv; [reflexivity|].
      cbn. rewrite (over_is_max h v Vv Nv Ex). now rewrite orb_false_r.
    + destruct (next_above h Rh Nh Ex) as (Wv & Wn & Wl).
      cbn. split; [|split; [|split; easy]].
      * split; try easy. intros _. pose proof (le_lt_trans _ _ _ LE Wl). lia.
      * intros v Vv. destruct (isnil d v) eqn:Nv; [reflexivity|]. cbn. now rewrite (over_next h v) by auto.
    + cbn. split; [|split; [easy|split; easy]]. now split.
Qed.

(** [NORMALIZE] keeps the meaning of a range, and leaves a closed one, or two
    closed half ranges, unless it makes [th] point to the variable [vl]. *)
Definition closed (x : vars V) : Prop :=
  lval x = true /\ hval x = true /\ li x = negb (anti x) /\ hi x = negb (anti x).

Lemma NORMALIZE_correct a xl xh :
  let x := vars_of xl xh a in
  range_ok (a_equi a) x -> aliases a = false ->
  match NORMALIZE d x with
  | None => forall v, valid v -> any_test d (a_equi a) x v = false
  | Some y => range_ok (a_equi a) y /\ closed y
      /\ forall v, valid v -> any_test d (a_equi a) y v = any_test d (a_equi a) x v
  end.
Proof.
  intros x R Al. pose proof R as Rx. unfold NORMALIZE. destruct (a_equi a) eqn:E.
  - destruct (r_equi _ _ _ _ _ _ _ _ R eq_refl) as (Q & I & H & L & U & N).
    assert (F : norm_anti_high d (norm_anti_low d x) = x)
      by (unfold norm_anti_low; rewrite N; cbn [andb]; unfold norm_anti_high; now rewrite N).
    rewrite F, N. unfold norm_low. rewrite L, I. unfold norm_high. rewrite U, H.
    split; [exact R|]. split; [|reflexivity]. unfold closed. now rewrite L, U, I, H, N.
  - assert (A : let y := norm_anti_high d (norm_anti_low d x) in
      range_ok false y /\ same_tests x y /\ apart y
      /\ (anti y = true -> li y = false /\ hi y = false /\ lval y = true /\ hval y = true)).
    { destruct (anti x) eqn:N.
      - destruct (r_anti _ _ _ _ _ _ _ _ R N) as (L & U & _). unfold aliases in Al.
        destruct a as [l h il ih bl bh an eq ln]. cbn in *. subst.
        exact (norm_anti_correct l h xl xh il ih Rx Al).
      - assert (F : norm_anti_high d (norm_anti_low d x) = x)
          by (unfold norm_anti_low; rewrite N; cbn [andb]; unfold norm_anti_high; now rewrite N).
        rewrite F. cbv zeta. rewrite N. split; [exact Rx|]. repeat split; easy. }
    cbv zeta in A. destruct A as (A1 & A2 & A3 & A4). set (y := norm_anti_high d (norm_anti_low d x)) in *.
    destruct (anti y) eqn:N.
    + split; [exact A1|]. split; [|exact A2]. unfold closed. rewrite N. now destruct A4 as (-> & -> & -> & ->).
    + pose proof (norm_low_correct y A1 N A3) as B. destruct (norm_low d y) as [z|].
      * destruct B as (B1 & B2 & B3 & B4 & B5 & B6). pose proof (norm_high_correct z B1 B4 B3) as C.
        destruct (norm_high d z) as [w|].
        -- destruct C as (C1 & C2 & C3 & C4 & C5 & C6 & C7). split; [exact C1|]. split.
           ++ unfold closed. rewrite C3, C4, C5. auto.
           ++ intros v Vv. now rewrite C2, B2, A2.
        -- intros v Vv. now rewrite <- A2, <- B2, C.
      * intros v Vv. now rewrite <- A2, B.
Qed.

Lemma NORMALIZE_anti (x y : vars V) : NORMALIZE d x = Some y -> anti y = true -> anti x = true.
Proof.
  unfold NORMALIZE. destruct (anti x) eqn:N; [reflexivity|]. intros E A.
  assert (F : norm_anti_high d (norm_anti_low d x) = x)
    by (unfold norm_anti_low; rewrite N; cbn [andb]; unfold norm_anti_high; now rewrite N).
  rewrite F, N in E. unfold norm_low in E.
  assert (H : forall z, anti z = false -> norm_high d z = Some y -> anti y = false).
  { unfold norm_high. intros z Z0 Q.
    destruct (hval z), (hi z), (eqv d (high_end z) (MINVALUE d)) in Q; try discriminate;
      injection Q as <-; exact Z0. }
  destruct (lval x), (li x), (eqv d (low_end x) (MAXVALUE d)) in E; try discriminate;
    apply H in E; try exact N; congruence.
Qed.

(** The loop for a numeric type tests what the general one tests. *)
Lemma scan_test_correct nn equi x v :
  range_ok equi x -> closed x -> valid v -> (nn = true -> isnil d v = false) ->
  scan_test d nn equi x v = any_test d equi x v.
Proof.
  intros [Rl Rh Re Nl Nh Ra] (L & U & I & H) Vv Nv. unfold scan_test, any_test. rewrite L, U, I, H.
  pose proof (dom_nil_least _ Rl). pose proof (dom_nil_least _ Rh). pose proof (dom_nil_least _ Vv).
  generalize dependent (low_end x); intros l; intros. generalize dependent (high_end x); intros h; intros.
  destruct equi.
  - clear - Dom Rl. unfold eqv. order_lia (ATOMcmp d) (@List.nil V).
  - specialize (Nl eq_refl L). specialize (Nh eq_refl U).
    pose proof (fun Q => dom_scan Hnum v Vv Q) as S. destruct (anti x); cbn [negb].
    + clear - Dom Nl Nh Vv Nv. destruct (isnil d v) eqn:E; unfold isnil, eqv in *;
        destruct nn; try (specialize (Nv eq_refl)); order_lia (ATOMcmp d) [nil].
    + destruct (isnil d v) eqn:E.
      * destruct nn; [now specialize (Nv eq_refl)|]. clear S. unfold isnil, eqv in *. cbn [andb].
        destruct (cmp h (scan_max d) =? 0); order_lia (ATOMcmp d) [nil].
      * destruct (S eq_refl) as (Sl & Su). unfold isnil, eqv in *.
        destruct (cmp l (scan_min d) =? 0) eqn:Q, (cmp h (scan_max d) =? 0) eqn:Q', nn; cbn [andb];
        clear Rl Rh Vv Re Ra S; order_lia (ATOMcmp d) [nil; scan_min d; scan_max d].
Qed.

(** When the plan for these arguments is such a range. *)
Definition shares_variable (tl : V) (th : option V) (li hi : bool) : bool :=
  let h := match th with None => tl | Some h => h end in
  li && match th with None => true | Some _ => hi end
  && eqv d h (MAXVALUE d) && negb (eqv d tl (MINVALUE d)) && negb (isnil d tl).

#[local] Ltac plan_cases E :=
  unfold make_plan, anti_args, start_args in E;
  repeat (match type of E with
          | context [if ?c then _ else _] => destruct c eqn:?
          end; cbn in E; try discriminate E).

Lemma plan_equi_nil tl th li hi anti a :
  make_plan d true tl th li hi anti = Range a -> a_equi a = true -> isnil d (a_tl a) = false.
Proof.
  intros E Q. destruct th as [th|]; plan_cases E; injection E as <-; cbn in *; try discriminate;
    destruct (isnil d tl); cbn in *; congruence.
Qed.

Lemma plan_aliases nn tl th li hi anti a :
  make_plan d nn tl th li hi anti = Range a -> aliases a = true ->
  anti = true /\ shares_variable tl th li hi = true.
Proof.
  intros E A. destruct th as [th|]; plan_cases E; injection E as <-; try discriminate;
    unfold aliases, shares_variable, isnil, eqv in *; cbn in *;
    destruct anti, li; try destruct hi; cbn in *; try discriminate;
    split; try reflexivity; clear Hnum; order_lia (ATOMcmp d) [nil; MINVALUE d; MAXVALUE d].
Qed.

(** In the excluded case, [x < l or x > MAX], the range becomes the one value
    [MINVALUE]: [th] was made to point to [vl], which is overwritten. *)
Lemma NORMALIZE_shares l h xl xh :
  eqv d l (MINVALUE d) = false -> eqv d h (MAXVALUE d) = true ->
  exists y, NORMALIZE d (mkVars (Arg l) (Arg h) xl xh true true true true true) = Some y
    /\ anti y = false /\ low_end y = MINVALUE d /\ high_end y = MINVALUE d /\ li y = true /\ hi y = true.
Proof.
  intros El Eh. unfold NORMALIZE, norm_anti_low. cbn [anti li andb low_end deref tl]. rewrite El.
  unfold norm_anti_high. cbn. rewrite Eh. cbn. eexists. split; [reflexivity|]. repeat split.
Qed.

(** [l < x < next l] becomes a range whose ends are crossed, which an assertion
    of [BAT_scanselect] forbids. *)
Lemma NORMALIZE_crosses l h xl xh :
  eqv d l (MAXVALUE d) = false -> eqv d h (MINVALUE d) = false ->
  exists y, NORMALIZE d (mkVars (Arg l) (Arg h) xl xh false false true true false) = Some y
    /\ low_end y = NEXTVALUE d l /\ high_end y = PREVVALUE d h.
Proof.
  intros El Eh. unfold NORMALIZE, norm_anti_low. cbn. unfold norm_low. cbn [lval li low_end deref tl].
  rewrite El. unfold norm_high. cbn. rewrite Eh. eexists. split; [reflexivity|]. split; reflexivity.
Qed.

End Meaning.
