(* ===== verification/Select.v ===== *)
(** * Selection

    gdk/gdk_select.c: [BATsubselect] returns the object identifiers of the rows
    whose value lies in a range, or outside of it, among an optional list of
    candidates; [BATthetasubselect] compares with one value.  The function
    first reduces its many cases to a closed range, then either searches a sorted
    column or scans an unsorted one.  The file shows that all of this amounts to
    filtering the candidates by the table in the comment above the function, and
    where it does not. *)

From Stdlib Require Import ZArith Lia Bool List String.
Import ListNotations.
From S2P Require Import Prelude Sort Search SelectRange.

Open Scope Z_scope.
Open Scope list_scope.

(** Object identifiers in a list of candidates are stored as [lng]. *)
Definition oid_cmp (x y : Z) : Z := num_cmp (i64 x) (i64 y).

Section Select.

Context {V : Type} (d : domain V).

(** A column with a dense head: the part a search reads, the first oid of the
    head, and whether it is known to hold no nil. *)
Record column := mkColumn { bat_of : bat V; hseqbase : Z; nonil : bool }.

(** A list of candidates is a column of oids; only its tail is used. *)
Definition cands := bat Z.

Definition Count (b : column) : Z := batCount (bat_of b).
Definition First (b : column) : Z := BUNfirst (bat_of b).

(** The value in a row, by its oid. *)
Definition value_of (b : column) (o : Z) : V := tail (bat_of b) (o - (hseqbase b - First b)).

(** [fullscan]: [n] rows from position [p]. *)
Fixpoint fullscan (f : V -> bool) (b : bat V) (off : Z) (n : nat) (p : Z) : list Z :=
  match n with
  | O => []
  | S n' => if f (tail b p) then (p + off) :: fullscan f b off n' (p + 1)
            else fullscan f b off n' (p + 1)
  end.

(** [candscan]: [n] candidates from position [p] of the list. *)
Fixpoint candscan (f : V -> bool) (b : bat V) (off : Z) (s : cands) (n : nat) (p : Z) : list Z :=
  match n with
  | O => []
  | S n' => let o := tail s p - off in
            if f (tail b o) then (o + off) :: candscan f b off s n' (p + 1)
            else candscan f b off s n' (p + 1)
  end.

Definition SORTfirst (b : bat V) (v : V) : option Z :=
  SORTfndfirst (ATOMcmp d) (simple_CMP d) (oid_of d) b v.
Definition SORTlast (b : bat V) (v : V) : option Z :=
  SORTfndlast (ATOMcmp d) (simple_CMP d) (oid_of d) b v.
Definition cand_first (s : cands) (o : Z) : option Z := SORTfndfirst oid_cmp oid_cmp (fun o => o) s o.

(** [BAT_scanselect] without imprints. *)
Definition BAT_scanselect (b : column) (s : option cands) (equi : bool) (x : vars V) : option (list Z) :=
  let off := hseqbase b - First b in
  let f := test d (nonil b) equi x in
  match s with
  | None => Some (fullscan f (bat_of b) off (Z.to_nat (Count b)) (First b))
  | Some s =>
      if negb (tdense s) then
        match cand_first s (hseqbase b + Count b), cand_first s (hseqbase b) with
        | Some q, Some p => Some (candscan f (bat_of b) off s (Z.to_nat (q - p)) p)
        | _, _ => None
        end
      else
        let p := tseqbase s in
        let q := p + batCount s in
        let p := if p <? hseqbase b then hseqbase b else p in
        let q := if q >? hseqbase b + Count b then hseqbase b + Count b else q in
        Some (fullscan f (bat_of b) off (Z.to_nat (q - p)) (p - off))
  end.

(** *** Sorted columns *)

(** The oids that [VIEWhead] of the column, or the list of candidates, holds. *)
Definition row_oids (b : column) : list Z := zrange (hseqbase b) (Z.to_nat (Count b)).
Definition cand_oids (s : cands) : list Z :=
  map (tail s) (zrange (BUNfirst s) (Z.to_nat (batCount s))).
Definition view (b : column) (s : option cands) : list Z :=
  match s with None => row_oids b | Some s => cand_oids s end.

(** [BATslice] and [BATslice2], on the list of rows. *)
Definition BATslice (l : list Z) (low high : Z) : list Z :=
  let high := Z.min high (Z.of_nat (List.length l)) in
  let high := Z.max high low in
  firstn (Z.to_nat (high - low)) (skipn (Z.to_nat low) l).
Definition BATslice2 (l : list Z) (l1 h1 l2 h2 : Z) : list Z :=
  let h2 := Z.min h2 (Z.of_nat (List.length l)) in
  let h1 := Z.max h1 l1 in
  let h2 := Z.max h2 l2 in
  firstn (Z.to_nat (h1 - l1)) (skipn (Z.to_nat l1) l) ++ firstn (Z.to_nat (h2 - l2)) (skipn (Z.to_nat l2) l).

#[local] Notation "'let?' x := a 'in' b" := (match a with Some x => b | None => None end)
  (at level 10, x name, b at level 200, only parsing).

(** The boundaries [low] and [high], counted from the first row. *)
Definition boundaries (b : column) (x : vars V) : option (Z * Z) :=
  let bb := bat_of b in
  let at_ (p : option Z) := option_map (fun p => p - First b) p in
  if tdense bb then
    let h := oid_of d (high_end x) + (if hi x then 1 else 0) in
    let h := if h >? tseqbase bb then h - tseqbase bb else 0 in
    let l := oid_of d (low_end x) + (if li x then 0 else 1) in
    let l := if l >? tseqbase bb then l - tseqbase bb else 0 in
    Some (Z.max l 0, Z.min h (Count b))
  else if tsorted bb then
    let? low := at_ (if lval x then if li x then SORTfirst bb (low_end x) else SORTlast bb (low_end x)
                     else SORTlast bb (ATOMnilptr d)) in
    let? high := (if hval x then at_ (if hi x then SORTlast bb (high_end x) else SORTfirst bb (high_end x))
                  else Some (Count b)) in
    Some (low, high)
  else
    let? high := at_ (if lval x then if li x then SORTlast bb (low_end x) else SORTfirst bb (low_end x)
                      else SORTfirst bb (ATOMnilptr d)) in
    let? low := (if hval x then at_ (if hi x then SORTfirst bb (high_end x) else SORTlast bb (high_end x))
                 else Some 0) in
    Some (low, high).

(** Positions of the column as positions among the candidates. *)
Definition among (b : column) (s : option cands) (p : Z) : option Z :=
  match s with
  | None => Some p
  | Some s => option_map (fun r => r - BUNfirst s) (cand_first s (u64 (p + hseqbase b)))
  end.

Definition sortedselect (b : column) (s : option cands) (x : vars V) : option (list Z) :=
  match boundaries b x with
  | None => None
  | Some (low, high) =>
      let v := view b s in
      if anti x then
        let? first := option_map (fun p => p - First b) (SORTlast (bat_of b) (ATOMnilptr d)) in
        let? first := among b s first in
        let? low := among b s low in
        let? high := among b s high in
        Some (BATslice2 v first low high (Z.of_nat (List.length v)))
      else
        let? low := among b s low in
        let? high := among b s high in
        Some (BATslice v low high)
  end.

(** *** The function *)

Definition trivially_empty (b : column) (s : option cands) : bool :=
  (Count b =? 0)
  || match s with
     | None => false
     | Some s => (batCount s =? 0)
                 || (tdense s && ((tseqbase s >=? hseqbase b + Count b) || (tseqbase s + batCount s <=? hseqbase b)))
     end.

(** [BATsubselect] of a column that is not persistent and has no hash table; the
    oids in the tail of the result, [None] when it fails. *)
Definition BATsubselect (b : column) (s : option cands) (tl : V) (th : option V) (li hi anti : bool)
    (vl vh : V) : option (list Z) :=
  if match s with Some s => negb (tsorted s) | None => false end then None
  else if trivially_empty b s then Some []
  else
    match make_plan d (nonil b) tl th li hi anti with
    | Empty => Some []
    | Everything => Some (view b s)
    | Range a =>
        match (if numeric d then NORMALIZE d (vars_of vl vh a) else Some (vars_of vl vh a)) with
        | None => Some []
        | Some x =>
            if tsorted (bat_of b) || trevsorted (bat_of b) then sortedselect b s x
            else BAT_scanselect b s (a_equi a) x
        end
    end.

#[local] Open Scope string_scope.

Definition BATthetasubselect (b : column) (s : option cands) (val : V) (op : string) (vl vh : V)
    : option (list Z) :=
  let nil := ATOMnilptr d in
  let sub tl th li hi anti := BATsubselect b s tl th li hi anti vl vh in
  if isnil d val then Some []
  else if (op =? "==") || (op =? "=") then sub val None true true false
  else if op =? "!=" then sub val None true true true
  else if op =? "<" then sub nil (Some val) false false false
  else if op =? "<=" then sub nil (Some val) false true false
  else if op =? "<>" then sub val None true true true
  else if op =? ">" then sub val (Some nil) false false false
  else if op =? ">=" then sub val (Some nil) true false false
  else None.

End Select.

Arguments column : clear implicits.

(** ** Windows of a list *)

Section Windows.

Context {A : Type} (g : Z -> A).

Lemma Z_to_nat_nonpos z : z <= 0 -> Z.to_nat z = O.
Proof. lia. Qed.

Lemma filter_zrange (P : A -> bool) a z n : forall lo,
  (forall i, lo <= i < lo + Z.of_nat n -> P (g i) = (a <=? i) && (i <? z)) ->
  List.filter P (map g (zrange lo n))
  = map g (zrange (Z.max a lo) (Z.to_nat (Z.min z (lo + Z.of_nat n) - Z.max a lo))).
Proof.
  induction n as [|n IH]; intros lo H.
  - cbn. now replace (Z.to_nat _) with O by lia.
  - cbn [zrange map List.filter]. rewrite IH by (intros; apply H; lia). rewrite H by lia.
    case Z.leb_spec; intros L; [case Z.ltb_spec; intros M|]; cbn [andb].
    + replace (Z.max a (lo + 1)) with (lo + 1) by lia. replace (Z.max a lo) with lo by lia.
      replace (Z.to_nat (Z.min z (lo + Z.of_nat (S n)) - lo))
        with (S (Z.to_nat (Z.min z (lo + 1 + Z.of_nat n) - (lo + 1)))) by lia. reflexivity.
    + rewrite !Z_to_nat_nonpos by lia. reflexivity.
    + replace (Z.max a (lo + 1)) with (Z.max a lo) by lia.
      now replace (lo + 1 + Z.of_nat n) with (lo + Z.of_nat (S n)) by lia.
Qed.

Lemma skipn_zrange k : forall lo n, skipn k (map g (zrange lo n)) = map g (zrange (lo + Z.of_nat k) (n - k)).
Proof.
  induction k as [|k IH]; intros lo n; [now rewrite Z.add_0_r, Nat.sub_0_r|].
  destruct n as [|n]; [reflexivity|]. cbn [zrange map skipn Nat.sub]. rewrite IH.
  now replace (lo + 1 + Z.of_nat k) with (lo + Z.of_nat (S k)) by lia.
Qed.

Lemma firstn_zrange k : forall lo n, firstn k (map g (zrange lo n)) = map g (zrange lo (Nat.min k n)).
Proof.
  induction k as [|k IH]; intros lo n; [reflexivity|]. destruct n as [|n]; [reflexivity|].
  cbn [zrange map firstn Nat.min]. now rewrite IH.
Qed.

Lemma filter_none (P : A -> bool) l : (forall x, In x l -> P x = false) -> List.filter P l = [].
Proof.
  induction l as [|x l IH]; intros H; [reflexivity|]. cbn.
  rewrite (H x) by now left. apply IH. intros y I. apply H. now right.
Qed.

End Windows.

(** ** What the selection returns *)

#[export] Instance oid_cmp_Comparison : Comparison oid_cmp.
Proof.
  split; unfold oid_cmp; intros x y; [apply cmp_opposite|intros z; apply cmp_trans].
Qed.

Lemma oid_cmp_sgn x y : 0 <= x < 2 ^ 63 -> 0 <= y < 2 ^ 63 -> Z.sgn (oid_cmp x y) = Z.sgn (x - y).
Proof.
  intros X Y. unfold oid_cmp, num_cmp. rewrite !i64_id by lia. case Z.compare_spec; lia.
Qed.

Section Returns.

Context {V : Type} (d : domain V) {valid : V -> Prop} {Dom : Domain d valid}.

#[local] Abbreviation cmp := (ATOMcmp d).

Definition in_rows (b : column V) (o : Z) : bool := (hseqbase b <=? o) && (o <? hseqbase b + Count b).

(** What the descriptors promise. *)
Record select_ok (b : column V) (s : option cands) : Prop := {
  so_column : column_ok cmp (simple_CMP d) (oid_of d) (bat_of b);
  so_valid : forall i, First b <= i < First b + Count b -> valid (tail (bat_of b) i);
  so_nonil : nonil b = true ->
    forall i, First b <= i < First b + Count b -> isnil d (tail (bat_of b) i) = false;
  so_dense : tdense (bat_of b) = true -> numeric d = true /\ nonil b = true
    /\ (forall x, valid x -> isnil d x = false -> 0 <= oid_of d x < 2 ^ 63);
  so_seq : 0 <= hseqbase b /\ hseqbase b + Count b < 2 ^ 63;
  so_cands : forall l, s = Some l -> column_ok oid_cmp oid_cmp (fun o => o) l /\ tsorted l = true
    /\ forall i, BUNfirst l <= i < BUNlast l -> 0 <= tail l i < 2 ^ 63;
}.

Variables (b : column V) (s : option cands).
Hypothesis Hok : select_ok b s.

#[local] Abbreviation off := (hseqbase b - First b).

Lemma count_bounds : 0 <= First b /\ 0 <= Count b.
Proof. pose proof (ok_bounds _ _ _ _ (so_column _ _ Hok)). unfold First, Count, BUNfirst. lia. Qed.

Lemma value_valid o : in_rows b o = true -> valid (value_of b o).
Proof. unfold in_rows, value_of. intros H. apply (so_valid _ _ Hok). lia. Qed.

Lemma value_nonil o : in_rows b o = true -> nonil b = true -> isnil d (value_of b o) = false.
Proof. unfold in_rows, value_of. intros H N. apply (so_nonil _ _ Hok N). lia. Qed.

(** *** Scans *)

Lemma fullscan_filter f n : forall p,
  fullscan f (bat_of b) off n p = List.filter (fun o => f (value_of b o)) (zrange (p + off) n).
Proof.
  induction n as [|n IH]; intros p; [reflexivity|]. cbn [fullscan zrange List.filter].
  rewrite IH. replace (value_of b (p + off)) with (tail (bat_of b) p) by (unfold value_of; f_equal; lia).
  replace (p + off + 1) with (p + 1 + off) by lia. reflexivity.
Qed.

Lemma candscan_filter f l n : forall p,
  candscan f (bat_of b) off l n p
  = List.filter (fun o => f (value_of b o)) (map (tail l) (zrange p n)).
Proof.
  induction n as [|n IH]; intros p; [reflexivity|]. cbn [candscan zrange map List.filter]. cbv zeta.
  rewrite IH. now replace (tail l p - off + off) with (tail l p) by lia.
Qed.

Lemma cand_first_place l o : s = Some l -> 0 <= o < 2 ^ 63 ->
  exists r, cand_first l o = Some r /\ BUNfirst l <= r <= BUNlast l
    /\ forall i, BUNfirst l <= i < BUNlast l -> (o <=? tail l i) = (r <=? i).
Proof.
  intros E R. destruct (so_cands _ _ Hok l E) as (C & S & W).
  destruct (SORTfndwhich_cases oid_cmp oid_cmp (fun o => o) l o (-1)) as (r & F & P & _);
    [exact C|now rewrite S|auto|tauto|].
  destruct (P eq_refl) as (B & Lo & Hi). exists r. split; [exact F|]. split; [exact B|].
  intros i I. specialize (Lo i). specialize (Hi i). specialize (W i I). unfold order in *. rewrite S in *.
  pose proof (oid_cmp_sgn (tail l i) o W R). lia.
Qed.

Definition chosen (f : V -> bool) (o : Z) : bool := in_rows b o && f (value_of b o).

Lemma filter_chosen f l : List.filter (chosen f) l
  = List.filter (fun o => f (value_of b o)) (List.filter (in_rows b) l).
Proof.
  induction l as [|o l IH]; [reflexivity|]. cbn. unfold chosen at 1.
  destruct (in_rows b o); cbn; [destruct (f _)|]; now rewrite IH.
Qed.

Lemma zrange_id n : forall lo, map (fun o => o) (zrange lo n) = zrange lo n.
Proof. intros. apply map_id. Qed.

Lemma cand_dense l i : s = Some l -> tdense l = true -> BUNfirst l <= i < BUNlast l ->
  tail l i = tseqbase l + (i - BUNfirst l).
Proof.
  intros E T I. destruct (so_cands _ _ Hok l E) as (C & _).
  destruct (ok_dense _ _ _ l C T) as (_ & _ & _ & D & _). now apply D.
Qed.

(** A scan keeps the candidates among the rows that satisfy its test. *)
Lemma BAT_scanselect_filter equi x :
  BAT_scanselect d b s equi x = Some (List.filter (chosen (test d (nonil b) equi x)) (view b s)).
Proof.
  pose proof count_bounds as Cb. destruct (so_seq _ _ Hok) as (Q0 & Q1).
  unfold BAT_scanselect. destruct s as [l|] eqn:El in |- *; cbn [view].
  - destruct (so_cands _ _ Hok l El) as (C & _). pose proof (ok_bounds _ _ _ _ C) as Lb.
    destruct (tdense l) eqn:T; cbn [negb]; f_equal; unfold cand_oids; rewrite filter_chosen.
    + rewrite fullscan_filter. f_equal.
      rewrite (map_ext_zrange (tail l) (fun i => tseqbase l - BUNfirst l + i)).
      2: { intros i I. rewrite (cand_dense l i); [lia|assumption..|unfold BUNlast, BUNfirst in *; lia]. }
      rewrite zrange_shift. rewrite <- (zrange_id _ (_ + BUNfirst l)).
      rewrite (filter_zrange _ (in_rows b) (hseqbase b) (hseqbase b + Count b)) by reflexivity.
      rewrite zrange_id. rewrite Z.gtb_ltb. do 2 (case Z.ltb_spec; intros); f_equal; lia.
    + destruct (cand_first_place l (hseqbase b + Count b) El) as (q & -> & Bq & Pq); [lia|].
      destruct (cand_first_place l (hseqbase b) El) as (p & -> & Bp & Pp); [lia|].
      rewrite candscan_filter. do 2 f_equal.
      rewrite (filter_zrange _ (in_rows b) p q); unfold BUNlast, BUNfirst in *.
      2: { intros i I. unfold in_rows. rewrite <- Pp, Z.ltb_antisym, Pq by lia. lia. }
      do 2 f_equal; lia.
  - do 2 f_equal. unfold row_oids. rewrite filter_chosen, fullscan_filter. f_equal.
    rewrite <- (zrange_id _ (hseqbase b)).
    rewrite (filter_zrange _ (in_rows b) (hseqbase b) (hseqbase b + Count b)) by reflexivity.
    rewrite zrange_id. f_equal; lia.
Qed.

(** *** Sorted columns *)

Section Ordered.

Hypothesis Hsort : tsorted (bat_of b) || trevsorted (bat_of b) = true.
Hypothesis Hnd : tdense (bat_of b) = false.

#[local] Abbreviation row i := (tail (bat_of b) (First b + i)).

(** A search, as a test on the rows. *)
Lemma place_first v :
  exists r, option_map (fun p => p - First b) (SORTfirst d (bat_of b) v) = Some r /\ 0 <= r <= Count b
    /\ forall i, 0 <= i < Count b ->
         (r <=? i) = if tsorted (bat_of b) then cmp (row i) v >=? 0 else cmp (row i) v <=? 0.
Proof.
  destruct (SORTfndwhich_cases cmp (simple_CMP d) (oid_of d) (bat_of b) v (-1)) as (r & F & P & _);
    [apply (so_column _ _ Hok)|exact Hsort|congruence|tauto|].
  destruct (P eq_refl) as (B & Lo & Hi). exists (r - First b).
  unfold SORTfirst, SORTfndfirst. rewrite F. split; [reflexivity|].
  unfold First, Count, BUNlast, BUNfirst in *. split; [lia|]. intros i I.
  specialize (Lo (batFirst (bat_of b) + i)). specialize (Hi (batFirst (bat_of b) + i)).
  unfold order, BUNfirst in *. destruct (tsorted (bat_of b)); lia.
Qed.

Lemma place_last v :
  exists r, option_map (fun p => p - First b) (SORTlast d (bat_of b) v) = Some r /\ 0 <= r <= Count b
    /\ forall i, 0 <= i < Count b ->
         (r <=? i) = if tsorted (bat_of b) then cmp (row i) v >? 0 else cmp (row i) v <? 0.
Proof.
  destruct (SORTfndwhich_cases cmp (simple_CMP d) (oid_of d) (bat_of b) v 1) as (r & F & _ & _ & P);
    [apply (so_column _ _ Hok)|exact Hsort|congruence|tauto|].
  destruct (P eq_refl) as (B & Lo & Hi). exists (r - First b).
  unfold SORTlast, SORTfndlast. rewrite F. split; [reflexivity|].
  unfold First, Count, BUNlast, BUNfirst in *. split; [lia|]. intros i I.
  specialize (Lo (batFirst (bat_of b) + i)). specialize (Hi (batFirst (bat_of b) + i)).
  unfold order, BUNfirst in *. destruct (tsorted (bat_of b)); lia.
Qed.

End Ordered.

(** The two ends of a range, as the boundaries are chosen. *)
Definition low_test (x : vars V) (v : V) : bool :=
  if lval x then if li x then cmp v (low_end x) >=? 0 else cmp v (low_end x) >? 0
  else cmp v (ATOMnilptr d) >? 0.
Definition high_test (x : vars V) (v : V) : bool :=
  if hval x then if hi x then cmp v (high_end x) <=? 0 else cmp v (high_end x) <? 0 else true.

Lemma range_tests equi x v : range_ok d (valid := valid) equi x -> valid v ->
  any_test d equi x v =
  if anti x then (cmp v (ATOMnilptr d) >? 0) && (negb (low_test x v) || negb (high_test x v))
  else low_test x v && high_test x v.
Proof.
  intros [Rl Rh Re Nl Nh Ra] Vv. unfold any_test, low_test, high_test.
  pose proof (dom_nil_least d _ Rl). pose proof (dom_nil_least d _ Rh). pose proof (dom_nil_least d _ Vv).
  generalize dependent (low_end x); intros l; intros. generalize dependent (high_end x); intros h; intros.
  destruct equi.
  - destruct (Re eq_refl) as (Q & -> & -> & -> & -> & ->). clear - Dom Q.
    order_lia (ATOMcmp d) (@List.nil V).
  - unfold isnil, eqv in *. destruct (anti x) eqn:A.
    + destruct (Ra eq_refl) as (L & U & _). rewrite L, U in *. specialize (Nl eq_refl eq_refl).
      specialize (Nh eq_refl eq_refl). clear Re Ra.
      destruct (li x), (hi x); order_lia (ATOMcmp d) [ATOMnilptr d].
    + clear Re Ra. destruct (lval x); [specialize (Nl eq_refl eq_refl)|clear Nl];
      (destruct (hval x); [specialize (Nh eq_refl eq_refl)|clear Nh]);
      destruct (li x), (hi x); order_lia (ATOMcmp d) [ATOMnilptr d].
Qed.

(** The rows between the boundaries satisfy both ends; in a column that is
    sorted in ascending order either boundary separates its own end. *)
Definition bounds_of (x : vars V) (low high : Z) : Prop :=
  forall i, 0 <= i < Count b ->
    let v := tail (bat_of b) (First b + i) in
    (low <=? i) && (i <? high) = low_test x v && high_test x v
    /\ (tsorted (bat_of b) = true -> (low <=? i) = low_test x v /\ (i <? high) = high_test x v).

Lemma boundaries_search x :
  tsorted (bat_of b) || trevsorted (bat_of b) = true -> tdense (bat_of b) = false ->
  exists low high, boundaries d b x = Some (low, high)
    /\ 0 <= low <= Count b /\ 0 <= high <= Count b /\ bounds_of x low high.
Proof.
  intros Hs Hd. pose proof (place_first Hs Hd) as PF. pose proof (place_last Hs Hd) as PL.
  pose proof count_bounds as CB.
  unfold boundaries, bounds_of, low_test, high_test. rewrite Hd.
  destruct (PF (low_end x)) as (fl & Efl & Bfl & Ffl). destruct (PL (low_end x)) as (ll & Ell & Bll & Fll).
  destruct (PF (high_end x)) as (fh & Efh & Bfh & Ffh). destruct (PL (high_end x)) as (lh & Elh & Blh & Flh).
  destruct (PF (ATOMnilptr d)) as (fn & Efn & Bfn & Ffn). destruct (PL (ATOMnilptr d)) as (ln & Eln & Bln & Fln).
  destruct (tsorted (bat_of b)); destruct (lval x), (li x), (hval x), (hi x); cbn [option_map] in *;
    rewrite ?Efl, ?Ell, ?Efh, ?Elh, ?Efn, ?Eln; do 2 eexists; (split; [reflexivity|]);
    (split; [lia|]); (split; [lia|]); intros i I; cbv zeta; rewrite ?Z.ltb_antisym;
    specialize (Ffl i I); specialize (Fll i I); specialize (Ffh i I); specialize (Flh i I);
    specialize (Ffn i I); specialize (Fln i I); (split; [|first [discriminate|intros _; split]]); lia.
Qed.

(** A dense column is not searched; its values are computed from positions. *)
Lemma boundaries_dense x :
  tdense (bat_of b) = true -> closed x -> anti x = false ->
  0 <= oid_of d (low_end x) < 2 ^ 63 -> 0 <= oid_of d (high_end x) < 2 ^ 63 ->
  exists low high, boundaries d b x = Some (low, high)
    /\ 0 <= low < 2 ^ 63 /\ 0 <= high <= Count b /\ bounds_of x low high.
Proof.
  intros Td (L & U & I & H) N Bl Bh. rewrite N in I, H.
  destruct (ok_dense _ _ _ _ (so_column _ _ Hok) Td) as (S & B0 & B1 & D & C).
  pose proof count_bounds as CB. unfold boundaries, bounds_of, low_test, high_test. rewrite Td, L, U, I, H.
  cbn [negb]. do 2 eexists. split; [reflexivity|]. unfold Count, First in *.
  split; [case Z.gtb_spec; lia|]. split; [case Z.gtb_spec; lia|].
  intros i Hi. cbv zeta. set (v := tail _ _).
  assert (Dv : oid_of d v = tseqbase (bat_of b) + i)
    by (unfold v; rewrite D; [lia|]; unfold BUNlast, BUNfirst in *; lia).
  pose proof (C v (low_end x)) as Cl. pose proof (C v (high_end x)) as Ch.
  assert (R : 0 <= oid_of d v < 2 ^ 63) by lia.
  specialize (Cl R Bl). specialize (Ch R Bh).
  do 2 case Z.gtb_spec; intros; (split; [|intros _; split]); lia.
Qed.

(** Positions of rows become positions in the list of candidates. *)
Definition oid_at (i : Z) : Z :=
  match s with None => hseqbase b + i | Some l => tail l (BUNfirst l + i) end.
Definition view_len : Z := match s with None => Count b | Some l => batCount l end.

Lemma value_row o : value_of b o = tail (bat_of b) (First b + (o - hseqbase b)).
Proof. unfold value_of. f_equal. lia. Qed.

Lemma view_oids : view b s = map oid_at (zrange 0 (Z.to_nat view_len)).
Proof.
  unfold view, oid_at, view_len, row_oids, cand_oids. destruct s as [l|].
  - rewrite <- (map_map (fun i => BUNfirst l + i) (tail l)), zrange_shift. now rewrite Z.add_0_r.
  - now rewrite zrange_shift, Z.add_0_r.
Qed.

Lemma view_len_pos : 0 <= view_len.
Proof.
  unfold view_len. destruct s as [l|] eqn:E in |- *; [|apply count_bounds].
  destruct (so_cands _ _ Hok l E) as (C & _). pose proof (ok_bounds _ _ _ _ C). lia.
Qed.

Lemma among_place p : 0 <= p -> s = None \/ p + hseqbase b < 2 ^ 63 ->
  exists r, among b s p = Some r /\ 0 <= r /\ (p <= Count b -> r <= view_len)
    /\ forall i, 0 <= i < view_len -> (r <=? i) = (p <=? oid_at i - hseqbase b).
Proof.
  intros P Q. pose proof (so_seq _ _ Hok) as SQ.
  unfold among, oid_at, view_len. destruct s as [l|] eqn:E in |- *.
  - destruct Q as [Q|Q]; [congruence|]. rewrite uwrap_id by lia. destruct (cand_first_place l (p + hseqbase b) E) as (r & -> & B & R); [lia|].
    exists (r - BUNfirst l). split; [reflexivity|]. unfold BUNlast, BUNfirst in *. split; [lia|]. split; [lia|]. intros i I.
    specialize (R (batFirst l + i)). lia.
  - exists p. split; [reflexivity|]. split; [lia|]. split; [easy|]. intros; lia.
Qed.

Lemma slice_window low high : 0 <= low -> 
  BATslice (view b s) low high
  = map oid_at (zrange low (Z.to_nat (Z.min high view_len - low))).
Proof.
  intros L. pose proof view_len_pos. unfold BATslice. rewrite view_oids, length_map, zrange_length.
  rewrite skipn_zrange, firstn_zrange. do 2 f_equal; lia.
Qed.

(** The part of a sorted column between two boundaries. *)
Lemma sorted_range equi x low high :
  range_ok d (valid := valid) equi x -> anti x = false -> boundaries d b x = Some (low, high) ->
  0 <= low -> s = None \/ low + hseqbase b < 2 ^ 63 -> 0 <= high <= Count b -> bounds_of x low high ->
  sortedselect d b s x = Some (List.filter (chosen (any_test d equi x)) (view b s)).
Proof.
  intros R A E L L' H B. unfold sortedselect. rewrite E, A. pose proof (so_seq _ _ Hok) as SQ.
  destruct (among_place low L L') as (l' & -> & Bl & Cl & Pl).
  destruct (among_place high) as (h' & -> & Bh & Ch & Ph); [lia|lia|].
  f_equal. rewrite slice_window by exact Bl. rewrite view_oids.
  rewrite (filter_zrange oid_at _ l' h').
  2: { intros i I. unfold chosen. rewrite Z.ltb_antisym, Pl, Ph by lia.
    set (o := oid_at i). destruct (in_rows b o) eqn:Q; cbn [andb]; [|unfold in_rows in Q; lia].
    rewrite (range_tests equi x _ R (value_valid o Q)), A. unfold in_rows in Q.
    destruct (B (o - hseqbase b)) as (B' & _); [lia|]. rewrite value_row, <- B'. lia. }
  pose proof view_len_pos. do 2 f_equal; lia.
Qed.

Definition within : Prop := forall o, In o (view b s) -> in_rows b o = true.

Lemma within_at i : within -> 0 <= i < view_len -> in_rows b (oid_at i) = true.
Proof.
  intros W I. apply W. rewrite view_oids. apply in_map, zrange_In. lia.
Qed.

Lemma slice2_windows l1 h1 l2 : 0 <= l1 -> 0 <= l2 -> h1 <= view_len ->
  BATslice2 (view b s) l1 h1 l2 (Z.of_nat (List.length (view b s)))
  = map oid_at (zrange l1 (Z.to_nat (h1 - l1)))
    ++ map oid_at (zrange l2 (Z.to_nat (view_len - l2))).
Proof.
  intros L1 L2 H1. pose proof view_len_pos. unfold BATslice2.
  rewrite view_oids, !length_map, !zrange_length, !skipn_zrange, !firstn_zrange.
  do 3 f_equal; lia.
Qed.

Lemma outside_tests equi x v : range_ok d (valid := valid) equi x -> anti x = true -> valid v ->
  high_test x v = false -> low_test x v = true /\ (cmp v (ATOMnilptr d) >? 0) = true.
Proof.
  intros [Rl Rh Re Nl Nh Ra] A Vv. destruct (Ra A) as (L & U & LE & EQ). unfold low_test, high_test.
  rewrite L, U. pose proof (dom_nil_least d _ Rh).
  destruct equi; [destruct (Re eq_refl) as (_ & _ & _ & _ & _ & F); congruence|].
  specialize (Nh eq_refl U). unfold isnil, eqv in Nh. clear Re Ra Nl.
  generalize dependent (low_end x); intros l; intros. generalize dependent (high_end x); intros h; intros.
  clear - Dom LE EQ Nh H H0. destruct (Z.eq_dec (cmp l h) 0) as [Q|Q]; [destruct (EQ Q) as (E1 & E2); rewrite E1, E2 in *|];
  clear EQ; destruct (li x), (hi x); split; order_lia (ATOMcmp d) [ATOMnilptr d].
Qed.

Lemma outside_order equi x low high f :
  range_ok d (valid := valid) equi x -> anti x = true -> tsorted (bat_of b) = true ->
  0 <= low <= Count b -> 0 <= high <= Count b -> bounds_of x low high -> 0 <= f <= Count b ->
  (forall i, 0 <= i < Count b ->
     (f <=? i) = (cmp (tail (bat_of b) (First b + i)) (ATOMnilptr d) >? 0)) ->
  low <= high /\ f <= high.
Proof.
  intros R A Hs L H B F Pf. destruct (Z.eq_dec high (Count b)) as [->|N]; [lia|].
  destruct (B high) as (_ & B'); [lia|]. destruct (B' Hs) as (B1 & B2).
  specialize (Pf high). 
  destruct (outside_tests equi x (tail (bat_of b) (First b + high)) R A) as (T1 & T2).
  - apply (so_valid _ _ Hok). lia.
  - rewrite <- B2. lia.
  - rewrite T1, T2 in *. lia.
Qed.

(** What is left of a sorted column outside of two boundaries, after its nils. *)
Lemma sorted_outside equi x low high :
  range_ok d (valid := valid) equi x -> anti x = true -> boundaries d b x = Some (low, high) ->
  tsorted (bat_of b) = true -> tdense (bat_of b) = false -> within ->
  0 <= low <= Count b -> 0 <= high <= Count b -> bounds_of x low high ->
  sortedselect d b s x = Some (List.filter (chosen (any_test d equi x)) (view b s)).
Proof.
  intros R A E Hs Hd W L H B. unfold sortedselect. rewrite E, A. pose proof (so_seq _ _ Hok) as SQ.
  destruct (place_last ltac:(now rewrite Hs) Hd (ATOMnilptr d)) as (f & -> & Bf & Pf). rewrite Hs in Pf.
  destruct (among_place f) as (f' & -> & Bf' & Cf' & Pf'); [lia|lia|].
  destruct (among_place low) as (l' & -> & Bl & Cl & Pl); [lia|lia|].
  destruct (among_place high) as (h' & -> & Bh & Ch & Ph); [lia|lia|].
  assert (T : forall i, 0 <= i < view_len ->
     chosen (any_test d equi x) (oid_at i) = (f' <=? i) && ((i <? l') || (h' <=? i))).
  { intros i I. pose proof (within_at i W I) as Q. unfold chosen. rewrite Q. cbn [andb].
    rewrite (range_tests equi x _ R (value_valid _ Q)), A, value_row.
    unfold in_rows in Q. set (j := oid_at i - hseqbase b) in *.
    destruct (B j) as (_ & B'); [lia|]. destruct (B' Hs) as (<- & <-). rewrite <- Pf by lia.
    rewrite (Z.ltb_antisym l'), Pl, Ph, Pf' by lia. fold j. lia. }
  assert (LH : forall p q p' q', p <= q -> q <= Count b -> p' <= view_len -> 0 <= q' ->
     (forall i, 0 <= i < view_len -> (p' <=? i) = (p <=? oid_at i - hseqbase b)) ->
     (forall i, 0 <= i < view_len -> (q' <=? i) = (q <=? oid_at i - hseqbase b)) -> p' <= q').
  { intros p q p' q' C1 C2 C3 C4 C5 C6. specialize (C5 q'). specialize (C6 q'). lia. }
  destruct (outside_order equi x low high f R A Hs L H B Bf Pf) as (O1 & O2).
  pose proof (LH low high l' h' O1 ltac:(lia) ltac:(lia) Bh Pl Ph) as O1'.
  pose proof (LH f high f' h' O2 ltac:(lia) ltac:(lia) Bh Pf' Ph) as O2'.
  f_equal. rewrite slice2_windows by lia. rewrite view_oids.
  replace (Z.to_nat view_len) with (Z.to_nat h' + Z.to_nat (view_len - h'))%nat by lia.
  rewrite zrange_app, map_app, filter_app.
  rewrite (filter_zrange oid_at _ f' l') by (intros; rewrite T by lia; lia).
  rewrite (filter_zrange oid_at _ h' view_len) by (intros; rewrite T by lia; lia).
  f_equal; do 2 f_equal; lia.
Qed.

(** *** The function *)

(** The calls the theorem is about: valid arguments; no range that makes
    [NORMALIZE] share a variable; the complement of a range only in a column that
    is not sorted, or sorted in ascending order and not dense; candidates that
    are rows of the column, where the code takes that for granted; no candidates
    for a dense column whose head does not start at 0, since the position of a bound
    and the head may then add up to the oid nil. *)
Record call_ok (tl : V) (th : option V) (li hi anti : bool) : Prop := {
  c_low : valid tl;
  c_high : opt_valid (valid := valid) th;
  c_nil : nil_point_ok d tl th li anti;
  c_vars : numeric d = true -> anti = true -> shares_variable d tl th li hi = false;
  c_anti : anti = true -> tsorted (bat_of b) || trevsorted (bat_of b) = true ->
    tsorted (bat_of b) = true /\ tdense (bat_of b) = false;
  c_within : nonil b || anti = true -> within;
  c_head : tdense (bat_of b) = true -> s = None \/ hseqbase b = 0;
}.

Lemma trivially_empty_rows : trivially_empty b s = true -> forall o, In o (view b s) -> in_rows b o = false.
Proof.
  intros T o I. pose proof count_bounds as CB. rewrite view_oids in I. apply in_map_iff in I.
  destruct I as (i & <- & I). apply In_zrange in I. pose proof view_len_pos.
  unfold trivially_empty, in_rows, oid_at, view_len in *. destruct s as [l|] eqn:E in T, I, H |- *; [|lia].
  destruct (tdense l) eqn:D; [rewrite (cand_dense l) by (auto; unfold BUNlast, BUNfirst; lia)|]; lia.
Qed.

Lemma selected_range equi x sel :
  range_ok d (valid := valid) equi x -> (numeric d = true -> closed x) ->
  (forall v, valid v -> any_test d equi x v = sel v) ->
  (nonil b = true -> equi = true -> isnil d (low_end x) = false) ->
  (anti x = true -> tsorted (bat_of b) || trevsorted (bat_of b) = true ->
    tsorted (bat_of b) = true /\ tdense (bat_of b) = false) ->
  (anti x = true -> within) ->
  (tdense (bat_of b) = true -> s = None \/ hseqbase b = 0) ->
  (if tsorted (bat_of b) || trevsorted (bat_of b) then sortedselect d b s x else BAT_scanselect d b s equi x)
  = Some (List.filter (chosen sel) (view b s)).
Proof.
  intros R C T N A W Z0.
  assert (F : forall f, (forall v, valid v -> (nonil b = true -> isnil d v = false) -> f v = sel v) ->
     List.filter (chosen f) (view b s) = List.filter (chosen sel) (view b s)).
  { intros f H. apply filter_ext_in. intros o _. unfold chosen. destruct (in_rows b o) eqn:Q; [|reflexivity].
    apply H; [now apply value_valid|]. intros Nn. now apply value_nonil. }
  destruct (tsorted (bat_of b) || trevsorted (bat_of b)) eqn:S.
  - rewrite <- (F (any_test d equi x)) by auto. destruct (tdense (bat_of b)) eqn:D.
    + destruct (so_dense _ _ Hok D) as (Nu & Nn & Ob). pose proof (Z0 eq_refl) as Sh.
      assert (An : anti x = false) by (destruct (anti x); [now destruct (A eq_refl eq_refl)|reflexivity]).
      assert (E : isnil d (low_end x) = false /\ isnil d (high_end x) = false).
      { destruct (C Nu) as (Cl & Ch & _). destruct R as [_ _ Re Rl Rh _]. destruct equi; [|auto].
        specialize (N Nn eq_refl). destruct (Re eq_refl) as (Q & _). split; [exact N|].
        revert N Q. generalize (low_end x) (high_end x). clear - Dom. intros l h N Q.
        unfold isnil, eqv in *. order_lia (ATOMcmp d) [ATOMnilptr d]. }
      destruct E as (E1 & E2). destruct (boundaries_dense x D (C Nu) An) as (low & high & E & L & H & B).
      * apply Ob; [apply R|exact E1].
      * apply Ob; [apply R|exact E2].
      * apply (sorted_range equi x low high); auto; [lia|]. destruct Sh; [now left|right; lia].
    + destruct (boundaries_search x S D) as (low & high & E & L & H & B). destruct (anti x) eqn:An.
      * apply (sorted_outside equi x low high); auto. now apply A.
      * apply (sorted_range equi x low high); auto; [lia|]. pose proof (so_seq _ _ Hok). right. lia.
  - rewrite BAT_scanselect_filter. f_equal. apply F. intros v Vv Nv. unfold test.
    destruct (numeric d) eqn:Nu; [|now apply T]. rewrite <- T by exact Vv.
    apply scan_test_correct with (valid := valid); auto.
Qed.

Lemma BATsubselect_cases tl th li hi anti vl vh :
  call_ok tl th li hi anti ->
  BATsubselect d b s tl th li hi anti vl vh
  = Some (List.filter (chosen (selects d tl th li hi anti)) (view b s)).
Proof.
  intros [Cl Ch Cn Cv Ca Cw Cz]. unfold BATsubselect.
  replace (match s with Some l => negb (tsorted l) | None => false end) with false.
  2: { destruct s as [l|] eqn:E in |- *; [|reflexivity]. now destruct (so_cands _ _ Hok l E) as (_ & -> & _). }
  destruct (trivially_empty b s) eqn:T.
  { f_equal. symmetry. apply filter_none. intros o I. unfold chosen.
    now rewrite (trivially_empty_rows T o I). }
  pose proof (make_plan_correct d (nonil b) tl th li hi anti vl vh Cl Ch Cn) as P.
  destruct (make_plan d (nonil b) tl th li hi anti) as [| |a] eqn:E; cbn [plan_correct] in P.
  - f_equal. symmetry. apply filter_none. intros o I. unfold chosen.
    destruct (in_rows b o) eqn:Q; [|reflexivity]. apply P; [now apply value_valid|].
    now apply value_nonil.
  - destruct P as (Nn & P). f_equal. symmetry. apply forallb_filter_id, forallb_forall. intros o I.
    unfold chosen. rewrite Nn in Cw. rewrite (Cw eq_refl o I). cbn [andb].
    pose proof (Cw eq_refl o I) as Q. apply P; [now apply value_valid|now apply value_nonil].
  - destruct P as (R & An & P). destruct (numeric d) eqn:Nu.
    + assert (Al : aliases d a = false).
      { destruct (aliases d a) eqn:Al; [|reflexivity].
        destruct (plan_aliases d _ _ _ _ _ _ _ E Al) as (An' & Sv). now rewrite (Cv eq_refl An') in Sv. }
      pose proof (NORMALIZE_correct d Nu a vl vh R Al) as Nz.
      destruct (NORMALIZE d (vars_of vl vh a)) as [x|] eqn:Ez.
      * destruct Nz as (Rx & Cx & Px).
        assert (Ax : SelectRange.anti x = true -> a_anti a = true) by exact (NORMALIZE_anti d _ _ Ez).
        apply selected_range; auto.
        -- intros v Vv. now rewrite Px, P.
        -- intros Nn Eq. rewrite Nn in E. pose proof (plan_equi_nil d _ _ _ _ _ _ E Eq) as Ni.
           rewrite Eq in Px. specialize (Px _ (dom_nil d)). unfold any_test, vars_of in Px. cbn in Px.
           unfold isnil, eqv in *. now rewrite Px.
        -- intros Ax'. apply Cw. rewrite (An (Ax Ax')). apply orb_true_r.
      * f_equal. symmetry. apply filter_none. intros o I. unfold chosen.
        destruct (in_rows b o) eqn:Q; [|reflexivity]. cbn [andb].
        rewrite <- P by now apply value_valid. apply Nz. now apply value_valid.
    + apply selected_range; auto; [congruence| |].
      * intros Nn Eq. rewrite Nn in E. exact (plan_equi_nil d _ _ _ _ _ _ E Eq).
      * intros Ax. apply Cw. rewrite (An Ax). apply orb_true_r.
Qed.

End Returns.

(** ** Types *)

(** The signed integer types of [w] bits. *)
Definition int_domain (w : Z) : domain Z :=
  mkDomain num_cmp num_cmp (- 2 ^ (w - 1)) true (- 2 ^ (w - 1) + 1) (2 ^ (w - 1) - 1)
    (fun x => swrap w (x - 1)) (fun x => swrap w (x + 1)) (- 2 ^ (w - 1) + 1) (2 ^ (w - 1) - 1)
    (fun x => u64 x).

(** Object identifiers compare as [lng], and their nil is the least of those. *)
Definition oid_domain : domain Z :=
  mkDomain oid_cmp oid_cmp (2 ^ 63) true 0 (2 ^ 63 - 1)
    (fun x => u64 (x - 1)) (fun x => u64 (x + 1)) (2 ^ 63 + 1) (2 ^ 63 - 1) (fun x => x).

Lemma num_cmp_sgn x y : Z.sgn (num_cmp x y) = Z.sgn (x - y).
Proof. unfold num_cmp. case Z.compare_spec; lia. Qed.

#[local] Ltac sgn_facts cmp lem :=
  repeat match goal with
  | |- context [cmp ?x ?y] => lazymatch goal with _ : Z.sgn (cmp x y) = _ |- _ => fail | _ => pose proof (lem x y) end
  | _ : context [cmp ?x ?y] |- _ => lazymatch goal with _ : Z.sgn (cmp x y) = _ |- _ => fail | _ => pose proof (lem x y) end
  end.

Lemma int_domain_ok w : 1 < w -> Domain (int_domain w) (srange w).
Proof.
  intros W. assert (P : 2 <= 2 ^ (w - 1)) by (rewrite <- (Z.pow_1_r 2) at 1; apply Z.pow_le_mono_r; lia).
  split; unfold isnil, eqv; cbn [ATOMcmp ATOMnilptr numeric MINVALUE MAXVALUE PREVVALUE NEXTVALUE scan_min
    scan_max int_domain].
  - exact _.
  - unfold srange. lia.
  - unfold srange. intros x V. sgn_facts num_cmp num_cmp_sgn. lia.
  - unfold srange. sgn_facts num_cmp num_cmp_sgn. lia.
  - unfold srange. sgn_facts num_cmp num_cmp_sgn. lia.
  - unfold srange. intros _ x V N. sgn_facts num_cmp num_cmp_sgn. lia.
  - intros _ x V N M. sgn_facts num_cmp num_cmp_sgn.
    assert (R : srange w (x - 1)) by (unfold srange in *; lia). rewrite (swrap_id w (x - 1)) by (lia || exact R).
    split; [exact R|]. split; [|intros y Y]; sgn_facts num_cmp num_cmp_sgn; unfold srange in *; lia.
  - intros _ x V N M. sgn_facts num_cmp num_cmp_sgn.
    assert (R : srange w (x + 1)) by (unfold srange in *; lia). rewrite (swrap_id w (x + 1)) by (lia || exact R).
    split; [exact R|]. split; [|intros y Y]; sgn_facts num_cmp num_cmp_sgn; unfold srange in *; lia.
  - unfold srange. intros _ x V N. sgn_facts num_cmp num_cmp_sgn. lia.
Qed.

(** The nil oid is below all others. *)
Lemma oid_cmp_nil x : 0 <= x < 2 ^ 63 -> oid_cmp (2 ^ 63) x = -1 /\ oid_cmp x (2 ^ 63) = 1.
Proof.
  intros X. unfold oid_cmp. change (i64 (2 ^ 63)) with (- 2 ^ 63). rewrite i64_id by lia.
  unfold num_cmp. do 2 case Z.compare_spec; lia.
Qed.

Lemma oid_nonnil x : 0 <= x <= 2 ^ 63 -> (oid_cmp x (2 ^ 63) =? 0) = false -> 0 <= x < 2 ^ 63.
Proof. intros X N. destruct (Z.eq_dec x (2 ^ 63)) as [->|]; [discriminate|lia]. Qed.

Lemma oid_domain_ok : Domain oid_domain (fun x => 0 <= x <= 2 ^ 63).
Proof.
  split; unfold isnil, eqv; cbn [ATOMcmp ATOMnilptr numeric MINVALUE MAXVALUE PREVVALUE NEXTVALUE scan_min
    scan_max oid_domain].
  - exact _.
  - lia.
  - intros x X. destruct (Z.eq_dec x (2 ^ 63)) as [->|]; [discriminate|].
    destruct (oid_cmp_nil x) as (-> & _); lia.
  - intros _. split; [lia|reflexivity].
  - intros _. split; [lia|reflexivity].
  - intros _ x X N. pose proof (oid_nonnil x X N) as R.
    pose proof (oid_cmp_sgn 0 x). pose proof (oid_cmp_sgn x (2 ^ 63 - 1)). lia.
  - intros _ x X N M. pose proof (oid_nonnil x X N) as R. pose proof (oid_cmp_sgn x 0).
    rewrite (uwrap_id 64 (x - 1)) by lia. destruct (oid_cmp_nil (x - 1)) as (_ & ->); [lia|].
    split; [lia|]. split; [reflexivity|]. intros y Y. destruct (Z.eq_dec y (2 ^ 63)) as [->|].
    + pose proof (oid_cmp_nil (x - 1)). pose proof (oid_cmp_nil x). lia.
    + pose proof (oid_cmp_sgn y (x - 1)). pose proof (oid_cmp_sgn y x). lia.
  - intros _ x X N M. pose proof (oid_nonnil x X N) as R. pose proof (oid_cmp_sgn x (2 ^ 63 - 1)).
    rewrite (uwrap_id 64 (x + 1)) by lia. destruct (oid_cmp_nil (x + 1)) as (_ & ->); [lia|].
    split; [lia|]. split; [reflexivity|]. intros y Y. destruct (Z.eq_dec y (2 ^ 63)) as [->|].
    + pose proof (oid_cmp_nil (x + 1)). pose proof (oid_cmp_nil x). lia.
    + pose proof (oid_cmp_sgn (x + 1) y). pose proof (oid_cmp_sgn x y). lia.
  - intros _ x X N. pose proof (oid_nonnil x X N) as R. pose proof (oid_cmp_sgn x (2 ^ 63 - 1)).
    split; [|lia]. unfold oid_cmp. change (i64 (2 ^ 63 + 1)) with (- 2 ^ 63 + 1).
    pose proof (num_cmp_sgn (- 2 ^ 63 + 1) (i64 x)). rewrite i64_id in * by lia. lia.
Qed.

(** ** What selections promise *)


#[local] Open Scope string_scope.

(** The comparison an operator stands for. *)
Definition theta {V} (d : domain V) (op : string) : option (V -> V -> bool) :=
  let c f := Some (fun val x => negb (isnil d x) && f (ATOMcmp d x val)) in
  if (op =? "==") || (op =? "=") then c (fun z => z =? 0)%Z
  else if (op =? "!=") || (op =? "<>") then c (fun z => negb (z =? 0))%Z
  else if op =? "<" then c (fun z => z <? 0)%Z
  else if op =? "<=" then c (fun z => z <=? 0)%Z
  else if op =? ">" then c (fun z => z >? 0)%Z
  else if op =? ">=" then c (fun z => z >=? 0)%Z
  else None.
Definition negative (op : string) : bool := (op =? "!=") || (op =? "<>").

(** A column can be selected from with a negative operator. *)
Definition negative_ok {V} (d : domain V) (b : column V) (val : V) : Prop :=
  (numeric d = true -> eqv d val (MAXVALUE d) = true -> eqv d val (MINVALUE d) = true)
  /\ (tsorted (bat_of b) || trevsorted (bat_of b) = true ->
        tsorted (bat_of b) = true /\ tdense (bat_of b) = false).

(** The calls that [BATthetasubselect] makes. *)
Lemma theta_call {V} (d : domain V) (valid : V -> Prop) `{D : !Domain d valid} (b : column V) s val
    tl th li hi anti f vl vh :
  select_ok d (valid := valid) b s -> (nonil b || anti = true -> within b s) ->
  (anti = true -> negative_ok d b val /\ th = None /\ tl = val) ->
  valid tl -> opt_valid (valid := valid) th -> th <> None \/ li = true ->
  (tdense (bat_of b) = true -> s = None \/ hseqbase b = 0) ->
  (forall x, valid x -> selects d tl th li hi anti x = f x) ->
  BATsubselect d b s tl th li hi anti vl vh = Some (List.filter (chosen b f) (view b s)).
Proof.
  intros Hb Hw A Vl Vh L Hh F. rewrite (BATsubselect_cases d b s Hb).
  - f_equal. apply filter_ext_in. intros o _. unfold chosen. destruct (in_rows b o) eqn:Q; [|reflexivity].
    cbn [andb]. apply F. now apply (value_valid d b s Hb).
  - split; try assumption.
    + intros E _. destruct L; [contradiction|]. now subst.
    + intros Nu E. destruct (A E) as ((M & _) & -> & ->). specialize (M Nu).
      unfold shares_variable. destruct (eqv d val (MAXVALUE d)); [rewrite M by reflexivity|];
        now rewrite ?andb_false_r.
    + intros E. destruct (A E) as ((_ & O) & _). exact O.
Qed.

(** [BATthetasubselect] returns the rows whose values are not nil and
    compare with the given one as the operator says; none when it is nil; and it
    fails on an unknown operator. *)
Theorem BATthetasubselect_compares {V} (d : domain V) (valid : V -> Prop) (b : column V)
    (s : option cands) val op vl vh
    (D : Domain d valid) (Hb : select_ok d (valid := valid) b s) (Hv : valid val)
    (Hw : nonil b || negative op = true -> within b s) (Hn : negative op = true -> negative_ok d b val)
    (Hh : tdense (bat_of b) = true -> s = None \/ hseqbase b = 0) :
  BATthetasubselect d b s val op vl vh
  = if isnil d val then Some []
    else option_map (fun f => List.filter (chosen b (f val)) (view b s)) (theta d op).
Proof.
  unfold BATthetasubselect, theta. destruct (isnil d val) eqn:N; [reflexivity|].
  assert (Nn : isnil d (ATOMnilptr d) = true).
  { pose proof (cmp_opposite (ATOMnilptr d) (ATOMnilptr d)). unfold isnil, eqv. lia. }
  pose proof (dom_nil d) as Vn.
  repeat match goal with
  | |- context [op =? ?c] => destruct (String.eqb_spec op c); [subst op; cbn|cbn [orb]]
  end; try reflexivity; apply (theta_call d valid b s val); try easy; try (right; reflexivity);
    try (left; discriminate); try (intros E; split; [apply Hn, eq_refl|easy]);
    intros x Vx; unfold selects; rewrite ?N, ?Nn; cbn [negb andb orb]; try reflexivity;
    rewrite ?xorb_true_l, ?xorb_false_l; unfold isnil, eqv; order_lia (ATOMcmp d) [ATOMnilptr d].
Qed.

#[local] Open Scope Z_scope.

(** A column of five tiny integers, of which one is nil, and three candidates. *)
Definition sample_values (i : Z) : Z := nth (Z.to_nat (i - 2)) [5; -128; 7; 3; 5] 0.
Definition sample_bte : column Z :=
  mkColumn (mkBat 2 5 false false false false 0 ST_bte sample_values) 10 false.
Definition sample_cands : cands := mkBat 0 3 true false true false 0 ST_lng (fun i => 10 + 2 * i).

Lemma sample_select_ok : select_ok (int_domain 8) (valid := srange 8) sample_bte (Some sample_cands).
Proof.
  assert (L : forall i, 2 <= i < 7 -> In i [2; 3; 4; 5; 6]) by (intros; cbn; lia).
  split; try discriminate.
  - split; try discriminate; [cbn; unfold BUN_MAX, BUN_NONE; lia|reflexivity].
  - intros i I. cbn in *. specialize (L i I). unfold srange.
    repeat destruct L as [<-|L]; try destruct L; vm_compute; intuition congruence.
  - cbn. lia.
  - intros l E. injection E as <-. split; [|split; [reflexivity|]].
    + split; try discriminate; try reflexivity.
      * cbn. unfold BUN_MAX, BUN_NONE. lia.
      * intros _ i j A B. unfold BUNfirst, BUNlast in *. cbn [tail batFirst batCount sample_cands] in *.
        pose proof (oid_cmp_sgn (10 + 2 * i) (10 + 2 * j)). lia.
      * intros _ i j A B. unfold BUNfirst, BUNlast in *. cbn [tail batFirst batCount sample_cands] in *.
        pose proof (oid_cmp_sgn (10 + 2 * i) (10 + 2 * j)). lia.
    + unfold BUNfirst, BUNlast. cbn [tail batFirst batCount sample_cands]. lia.
Qed.

Lemma sample_within : within sample_bte (Some sample_cands).
Proof.
  intros o I. vm_compute in I.
  destruct I as [<-|I]; [reflexivity|]. destruct I as [<-|I]; [reflexivity|].
  destruct I as [<-|[]]. reflexivity.
Qed.


Lemma BATthetasubselect_compares_witness :
  BATthetasubselect (int_domain 8) sample_bte (Some sample_cands) 5 "<>" 0 0 = Some [12].
Proof.
  rewrite (BATthetasubselect_compares (int_domain 8) (srange 8) sample_bte (Some sample_cands) 5 "<>" 0 0
             (int_domain_ok 8 eq_refl) sample_select_ok).
  - reflexivity.
  - unfold srange. lia.
  - intros _. exact sample_within.
  - intros _. split; [discriminate|discriminate].
  - discriminate.
Defined.

(** ** Where the function departs from its table *)

Definition bytes (l : list Z) (asc desc dense nonil : bool) : column Z :=
  mkColumn (mkBat 0 (Z.of_nat (List.length l)) asc desc false dense 0
              (if dense then ST_lng else ST_bte) (fun i => nth (Z.to_nat i) l 0)) 0 nonil.

(** [x <> 127] finds only the rows that hold -127. *)
Lemma not_equal_to_the_largest :
  BATthetasubselect (int_domain 8) (bytes [1; 127; -127; 5] false false false true) None 127 "<>" 0 0
  = Some [2].
Proof. reflexivity. Qed.

(** The complement of a range in a descending column: the rows above the range
    are missing, and the nils at the end are returned. *)
Lemma complement_descending :
  BATthetasubselect (int_domain 8) (bytes [9; 7; 5; 3; -128] false true false false) None 5 "<>" 0 0
  = Some [3; 4].
Proof. reflexivity. Qed.

(** In a dense column the rows below the range are missing. *)
Lemma complement_dense :
  BATthetasubselect oid_domain (bytes [0; 1; 2; 3; 4] true false true true) None 2 "<>" 0 0
  = Some [3; 4].
Proof. reflexivity. Qed.

(** All non-nil values of a column without nils: the candidates are returned even
    when they are no rows of the column. *)
Lemma everything_outside :
  BATsubselect (int_domain 8) (bytes [1; 2] false false false true)
    (Some (mkBat 0 2 true false true false 0 ST_lng (fun i => 1 + 5 * i))) (-128) (Some (-128))
    false false false 0 0
  = Some [1; 6].
Proof. reflexivity. Qed.

(** A nil point whose lower end is exclusive, which the table says is ignored. *)
Lemma nil_point_exclusive :
  BATsubselect (int_domain 8) (bytes [1; -128] false false false false) None (-128) None false false false 0 0
  = Some [].
Proof. reflexivity. Qed.

(** A dense column whose head starts at 5: the position of the largest oid and the
    head add up to more than the oid nil, which counts as smaller than all candidates, so
    that all of them are returned. *)
Lemma dense_wraps :
  BATsubselect oid_domain (mkColumn (bat_of (bytes [0; 1; 2] true false true true)) 5 true)
    (Some (mkBat 0 2 true false true false 0 ST_lng (fun i => 5 + i))) (2 ^ 63 - 2) (Some (2 ^ 63 - 1))
    true true false 0 0
  = Some [5; 6].
Proof. vm_compute. reflexivity. Qed.
