(* ===== verification/Hash.v ===== *)
(** * Hash tables on columns

    gdk/gdk_search.c and gdk_search.h: a hash table has a slot per hash value
    with the position of the last row inserted, and a link per row to the row
    inserted before it.  The file shows that every sequence of [BAThash],
    [HASHins], [HASHdel] and [HASHmove] keeps the table equal to a list of
    rows, newest first, and that [HASHloop] enumerates the rows of a value. *)

From Stdlib Require Import ZArith Lia Bool List.
Import ListNotations.
From S2P Require Import Prelude Atoms Sort.

Open Scope Z_scope.
Open Scope list_scope.

(** ** The table *)

Definition BUN1_NONE : Z := 255.
Definition BUN2_NONE : Z := 65535.
Definition BUN4_NONE : Z := 2 ^ 32 - 1.
Definition BUN8_NONE : Z := 2 ^ 64 - 1.

(** The arrays [Hash] and [Link] are memory; an entry has [width] bytes. *)
Record Hash := mkHash { width : Z; nil : Z; lim : Z; mask : Z; slots : Z -> Z; links : Z -> Z }.

Definition HASHwidth (hashsize : Z) : Z :=
  if hashsize <=? BUN1_NONE then 1
  else if hashsize <=? BUN2_NONE then 2
  else if hashsize <=? BUN4_NONE then 4
  else 8.

(** The loop [while (m + m < cnt) m += m]; it doubles at most 63 times. *)
Fixpoint mask_loop (fuel : nat) (cnt m : Z) : Z :=
  match fuel with
  | O => m
  | S fuel' => if u64 (m + m) <? cnt then mask_loop fuel' cnt (u64 (m + m)) else m
  end.

Definition HASHmask (cnt : Z) : Z :=
  let m := mask_loop 64 cnt 8 in
  if u64 (u64 (m + m) - cnt) <? u64 (2 * u64 (cnt - m)) then u64 (m + m) else m.

Definition upd (f : Z -> Z) (i v : Z) : Z -> Z := fun j => if j =? i then v else f j.

Definition HASHget (h : Hash) (i : Z) : Z := slots h i.
Definition HASHgetlink (h : Hash) (i : Z) : Z := links h i.
Definition HASHput (h : Hash) (i v : Z) : Hash :=
  mkHash (width h) (nil h) (lim h) (mask h) (upd (slots h) i (uwrap (8 * width h) v)) (links h).
Definition HASHputlink (h : Hash) (i v : Z) : Hash :=
  mkHash (width h) (nil h) (lim h) (mask h) (slots h) (upd (links h) i (uwrap (8 * width h) v)).

Definition HASHclear (h : Hash) : Hash :=
  fold_left (fun h i => HASHput h i (nil h)) (zrange 0 (Z.to_nat (mask h + 1))) h.

(** [raw] is what the memory of the two arrays held before. *)
Definition HASHnew (raw : Z -> Z) (size msk : Z) : Hash :=
  let w := HASHwidth size in
  let n := if w =? 1 then BUN1_NONE else if w =? 2 then BUN2_NONE
           else if w =? 4 then BUN4_NONE else BUN8_NONE in
  HASHclear (mkHash w n size (msk - 1) (fun i => raw (size + i)) raw).

(** ** Rows *)

Section Rows.

Context {V : Type}.

(** What the code knows of the type of the head: how it compares, its storage,
    the bits of a value, and the hash functions of other types: [ATOMhash], and
    the one kept next to a string in its heap. *)
Record atom := mkAtom {
  ATOMcmp : V -> V -> Z;
  ATOMstorage : storage;
  bits : V -> Z;
  ATOMhash : V -> Z;
  heap_hash : V -> Z;
}.

Variable a : atom.

(** [hash_bte], [hash_sht], [hash_int], [hash_lng] by the storage, and
    otherwise the given hash function. *)
Definition hash_with (any : V -> Z) (h : Hash) (v : V) : Z :=
  Z.land (match ATOMstorage a with
          | ST_bte => bteHash (bits a v)
          | ST_sht => shtHash (bits a v)
          | ST_int | ST_flt => intHash (bits a v)
          | ST_lng | ST_dbl => lngHash (bits a v)
          | ST_other => any v
          end) (mask h).

Definition HASHprobe (h : Hash) (v : V) : Z := hash_with (ATOMhash a) h v.

(** Entering a row at the front of the chain of its slot. *)
Definition enter (h : Hash) (c i : Z) : Hash := HASHput (HASHputlink h i (HASHget h c)) c i.

(** [starthash]: from row [r] up to [p], as long as there are slots; the rows
    entered, and where it stopped. *)
Fixpoint starthash (fuel : nat) (at_ : Z -> V) (h : Hash) (r p nslots : Z) : Hash * Z :=
  match fuel with
  | O => (h, r)
  | S fuel' =>
      if r <? p then
        let c := hash_with (heap_hash a) h (at_ r) in
        if HASHget h c =? nil h
        then if nslots =? 0 then (h, r) else starthash fuel' at_ (enter h c r) (r + 1) p (nslots - 1)
        else starthash fuel' at_ (enter h c r) (r + 1) p nslots
      else (h, r)
  end.

Fixpoint finishhash (fuel : nat) (at_ : Z -> V) (h : Hash) (p q : Z) : Hash :=
  match fuel with
  | O => h
  | S fuel' =>
      if p <? q
      then finishhash fuel' at_ (enter h (hash_with (heap_hash a) h (at_ p)) p) (p + 1) q
      else h
  end.

(** The head of a column: its rows are [first .. last - 1]. *)
Record head := mkHead { first : Z; last : Z; capacity : Z; hkey : bool; BUNhead : Z -> V; hsize : Z }.

Definition hcount (b : head) : Z := last b - first b.

(** The number of slots to start with, and how far to try it out. *)
Definition initial_mask (b : head) (masksize : Z) : Z * Z :=
  let cnt := if hcount b =? 0 then capacity b else hcount b in
  let '(m, p) :=
    if 0 <? masksize then (HASHmask masksize, first b)
    else if hsize b =? 1 then (2 ^ 8, first b)
    else if hsize b =? 2 then (2 ^ 12, first b)
    else if hkey b then (HASHmask cnt, first b)
    else (HASHmask (Z.shiftr cnt 6), Z.min (first b + Z.shiftr cnt 2) (last b)) in
  (if m <? 1024 then 1024 else m, p).

(** Trying with four times as many slots, until few are taken or there are as
    many as rows. *)
Fixpoint build (fuel : nat) (raw : Z -> Z) (b : head) (cnt m p : Z) : option (Hash * Z) :=
  match fuel with
  | O => None
  | S fuel' =>
      let '(h, r) := starthash (Z.to_nat (p - first b)) (BUNhead b) (HASHnew raw (capacity b) m)
                       (first b) p (Z.shiftr m 3) in
      if (r <? p) && (m <? cnt) then build fuel' raw b cnt (u64 (Z.shiftl m 2)) p else Some (h, r)
  end.

(** [BAThash] of a column that is not a view and has no table yet. *)
Definition BAThash (raw : Z -> Z) (b : head) (masksize : Z) : option Hash :=
  let cnt := if hcount b =? 0 then capacity b else hcount b in
  let '(m, p) := initial_mask b masksize in
  match build 32 raw b cnt m p with
  | None => None
  | Some (h, r) => Some (finishhash (Z.to_nat (last b - r)) (BUNhead b) h r (last b))
  end.

(** The rows of a chain, from [i] on. *)
Fixpoint chain (fuel : nat) (h : Hash) (i : Z) : option (list Z) :=
  if i =? nil h then Some []
  else match fuel with
       | O => None
       | S fuel' => option_map (cons i) (chain fuel' h (HASHgetlink h i))
       end.

Definition fuel_of (h : Hash) : nat := Z.to_nat (lim h).

(** The rows for which the body of [HASHloop] runs. *)
Definition HASHloop (h : Hash) (at_ : Z -> V) (v : V) : option (list Z) :=
  option_map (List.filter (fun hb => ATOMcmp a v (at_ hb) =? 0))
    (chain (fuel_of h) h (HASHget h (HASHprobe h v))).

Definition BUN_NONE : Z := 2 ^ 63 - 1.

Definition HASHfnd (h : Hash) (at_ : Z -> V) (v : V) : option Z :=
  option_map (fun l => hd BUN_NONE l) (HASHloop h at_ v).

Definition HASHins (h : Hash) (i : Z) (v : V) : Hash := enter h (HASHprobe h v) i.

(** The row of the chain from [c] on whose link is [i]. *)
Fixpoint before (fuel : nat) (h : Hash) (i c : Z) : option Z :=
  match fuel with
  | O => None
  | S fuel' =>
      if c =? nil h then None
      else if HASHgetlink h c =? i then Some c
      else before fuel' h i (HASHgetlink h c)
  end.

(** Making what refers to row [i] refer to [j]. *)
Definition redirect (h : Hash) (i j : Z) (v : V) (next : bool) : Hash :=
  if next && (HASHgetlink h (i + 1) =? i) then HASHputlink h (i + 1) j
  else
    let c := HASHprobe h v in
    if HASHget h c =? i then HASHput h c j
    else match before (fuel_of h) h i (HASHget h c) with
         | Some c => HASHputlink h c j
         | None => h
         end.

Definition HASHdel (h : Hash) (i : Z) (v : V) (next : bool) : Hash :=
  let h := redirect h i (HASHgetlink h i) v next in
  HASHputlink h i (nil h).

Definition HASHmove (h : Hash) (i j : Z) (v : V) (next : bool) : Hash :=
  let h := redirect h i j v next in
  HASHputlink h j (HASHgetlink h i).

(** The number of rows in a chain, as [HASHlist] counts them: it follows the
    link of the slot number, not of the row in the slot. *)
Fixpoint list_loop (fuel : nat) (h : Hash) (i c : Z) : option Z :=
  match fuel with
  | O => None
  | S fuel' =>
      let j := HASHgetlink h i in
      if j =? nil h then Some c else list_loop fuel' h j (c + 1)
  end.
Definition HASHlist (fuel : nat) (h : Hash) (i : Z) : option Z :=
  if HASHget h i =? nil h then Some 1 else list_loop fuel h i 1.

(** Is the table too small for the column by now. *)
Definition HASHgonebad (h : Hash) (at_ : Z -> V) (count : Z) (v : V) : option bool :=
  if mask h * 2 <? count then
    match chain (fuel_of h) h (HASHget h (HASHprobe h v)) with
    | None => None
    | Some l =>
        let cnt := 1 + Z.of_nat (List.length l) in
        let hit := 1 + Z.of_nat (List.length (List.filter (fun i => ATOMcmp a v (at_ i) =? 0) l)) in
        Some (4 <? Z.quot cnt hit)
    end
  else Some false.

(** [HASHins] on a column: [None] is a table that was removed. *)
Definition HASHins_column (h : Hash) (at_ : Z -> V) (count i : Z) (v : V) : option (option Hash) :=
  if Z.land i 1023 =? 1023 then
    option_map (fun bad : bool => if bad then None else Some (HASHins h i v)) (HASHgonebad h at_ count v)
  else Some (Some (HASHins h i v)).

End Rows.

Arguments atom : clear implicits.
Arguments head : clear implicits.

(** ** What a table stands for *)

(** Following the links from [i] runs through [l] and arrives at [z]. *)
Fixpoint path (h : Hash) (i : Z) (l : list Z) (z : Z) : Prop :=
  match l with
  | [] => i = z
  | p :: l => i = p /\ path h (HASHgetlink h p) l z
  end.

Lemma path_app h l1 : forall i l2 z,
  path h i (l1 ++ l2) z <-> exists y, path h i l1 y /\ path h y l2 z.
Proof.
  induction l1 as [|p l1 IH]; intros i l2 z; cbn.
  - split; [intros H; now exists i|intros (y & -> & H); exact H].
  - rewrite IH. firstorder.
Qed.

(** Links outside of the path do not matter. *)
Lemma path_ext h h' l : forall i z,
  (forall p, In p l -> HASHgetlink h' p = HASHgetlink h p) -> path h i l z -> path h' i l z.
Proof.
  induction l as [|p l IH]; cbn; intros i z E H; [exact H|].
  destruct H as (-> & H). split; [reflexivity|]. rewrite E by now left. apply IH; auto.
Qed.

(** The end of a path can be changed by one link. *)
Lemma path_redirect h h' l : forall i q z z',
  (forall p, In p l -> HASHgetlink h' p = HASHgetlink h p) ->
  path h i (l ++ [q]) z -> HASHgetlink h' q = z' -> path h' i (l ++ [q]) z'.
Proof.
  intros i q z z' E H L. apply path_app in H. destruct H as (y & P & -> & _).
  apply path_app. exists q. split; [now apply (path_ext h)|]. cbn. now split.
Qed.

Lemma chain_path h l : forall fuel i,
  path h i l (nil h) -> Forall (fun p => p <> nil h) l -> (List.length l <= fuel)%nat ->
  chain fuel h i = Some l.
Proof.
  induction l as [|p l IH]; intros fuel i P F L; cbn in P.
  - subst i. destruct fuel; cbn; now rewrite Z.eqb_refl.
  - destruct P as (-> & P). inversion F as [|x y Np F']. subst. destruct fuel as [|fuel]; [cbn in L; lia|].
    cbn in L |- *. apply Z.eqb_neq in Np. rewrite Np. now rewrite (IH fuel) by (assumption || lia).
Qed.

Section Meaning.

Context {V : Type} (a : atom V).

(** Equal values hash alike, and the hash kept in the heap is the right one. *)
Class Hashable : Prop := {
  hash_eq : forall h x y, ATOMcmp a x y = 0 -> HASHprobe a h x = HASHprobe a h y;
  hash_heap : forall h v, hash_with a (heap_hash a) h v = HASHprobe a h v;
}.
Context `{HA : !Hashable}.

(** The rows of a slot, newest first. *)
Definition in_slot (h : Hash) (at_ : Z -> V) (c : Z) (rows : list Z) : list Z :=
  List.filter (fun p => HASHprobe a h (at_ p) =? c) rows.

(** The table holds [rows], newest first. *)
Record holds (h : Hash) (at_ : Z -> V) (rows : list Z) : Prop := {
  h_width : 0 <= nil h < 2 ^ (8 * width h);
  h_mask : exists k, 0 <= k /\ mask h = Z.ones k;
  h_lim : 0 <= lim h <= nil h;
  h_rows : forall p, In p rows -> 0 <= p < lim h;
  h_once : NoDup rows;
  h_slots : forall c, 0 <= c <= mask h -> path h (HASHget h c) (in_slot h at_ c rows) (nil h);
}.

Lemma probe_bounds h v : (exists k, 0 <= k /\ mask h = Z.ones k) -> 0 <= HASHprobe a h v <= mask h.
Proof.
  intros (k & K & E). unfold HASHprobe, hash_with. rewrite E, Z.land_ones by exact K.
  rewrite Z.ones_equiv. assert (P : 0 < 2 ^ k) by (apply Z.pow_pos_nonneg; lia).
  match goal with |- context [?x mod _] => pose proof (Z.mod_pos_bound x (2 ^ k) P) end. lia.
Qed.

Lemma probe_mask h h' v : mask h' = mask h -> HASHprobe a h' v = HASHprobe a h v.
Proof. unfold HASHprobe, hash_with. now intros ->. Qed.

Lemma in_slot_in h at_ c rows p : In p (in_slot h at_ c rows) <-> In p rows /\ HASHprobe a h (at_ p) = c.
Proof. unfold in_slot. rewrite filter_In, Z.eqb_eq. reflexivity. Qed.

Lemma in_slot_ext h h' at_ at' c rows :
  mask h' = mask h -> (forall p, In p rows -> at' p = at_ p) -> in_slot h' at' c rows = in_slot h at_ c rows.
Proof.
  intros M E. unfold in_slot. apply filter_ext_in. intros p I.
  rewrite (probe_mask h h') by exact M. now rewrite E.
Qed.

(** What the memory holds is what was stored: rows and [nil] fit an entry. *)
Lemma path_small h at_ rows c : holds h at_ rows -> 0 <= c <= mask h ->
  0 <= HASHget h c < 2 ^ (8 * width h).
Proof.
  intros [Hw Hm Hl Hr Ho Hs] C. specialize (Hs c C).
  destruct (in_slot h at_ c rows) as [|p l] eqn:E; cbn in Hs; [lia|]. destruct Hs as (-> & _).
  assert (I : In p (in_slot h at_ c rows)) by (rewrite E; now left).
  apply in_slot_in in I. destruct I as (I & _). specialize (Hr p I). lia.
Qed.

(** *** Entering *)

Lemma enter_holds h at_ rows i v :
  holds h at_ rows -> ~ In i rows -> 0 <= i < lim h -> at_ i = v ->
  holds (enter h (HASHprobe a h v) i) at_ (i :: rows).
Proof.
  intros [Hw Hm Hl Hr Ho Hs] N I <-. pose proof (probe_bounds h (at_ i) Hm) as B.
  set (c := HASHprobe a h (at_ i)) in *. split; cbn [enter nil width mask lim HASHput HASHputlink]; auto.
  - intros p [<-|Ip]; auto.
  - now constructor.
  - intros c' C. cbn [in_slot List.filter].
    replace (HASHprobe a (enter h c i) (at_ i)) with c by (now apply eq_sym, probe_mask).
    assert (E : in_slot (enter h c i) at_ c' rows = in_slot h at_ c' rows) by now apply in_slot_ext.
    unfold in_slot in E. unfold in_slot. rewrite E. clear E.
    assert (L : forall p, In p (in_slot h at_ c' rows) -> HASHgetlink (enter h c i) p = HASHgetlink h p).
    { intros p Ip. apply in_slot_in in Ip. destruct Ip as (Ip & _). cbn. unfold upd.
      case Z.eqb_spec; [intros ->; contradiction|reflexivity]. }
    rewrite Z.eqb_sym. unfold HASHget, enter at 2. cbn [slots HASHput HASHputlink width]. unfold upd.
    case Z.eqb_spec; intros E.
    + subst c'. rewrite uwrap_id by lia. cbn [path]. split; [reflexivity|].
      unfold HASHgetlink, enter at 2. cbn [links HASHput HASHputlink]. unfold upd. rewrite Z.eqb_refl.
      rewrite uwrap_id by (apply (path_small h at_ rows); [split; assumption|exact C]).
      apply (path_ext h); [exact L|]. now apply Hs.
    + apply (path_ext h); [exact L|]. now apply Hs.
Qed.

(** *** Building *)

Lemma HASHclear_slots n : forall h i0,
  let h' := fold_left (fun h i => HASHput h i (nil h)) (zrange i0 n) h in
  width h' = width h /\ nil h' = nil h /\ lim h' = lim h /\ mask h' = mask h
  /\ forall c, HASHget h' c = if (i0 <=? c) && (c <? i0 + Z.of_nat n) then uwrap (8 * width h) (nil h) else HASHget h c.
Proof.
  induction n as [|n IH]; intros h i0; cbv zeta.
  - cbn. repeat split. intros c. now replace ((i0 <=? c) && (c <? i0 + 0)) with false by lia.
  - cbn [zrange fold_left]. destruct (IH (HASHput h i0 (nil h)) (i0 + 1)) as (A & B & C & D & E).
    rewrite A, B, C, D. repeat split. intros c. rewrite E. cbn [HASHput width nil]. unfold HASHget.
    cbn [slots HASHput]. unfold upd. case Z.eqb_spec; intros Q; clear - Q; pose proof (Nat2Z.is_nonneg n); rewrite Nat2Z.inj_succ, <- Z.add_1_r;
      generalize dependent (Z.of_nat n); intros m M.
    + replace ((i0 + 1 <=? c) && (c <? i0 + 1 + m)) with false by lia.
      now replace ((i0 <=? c) && (c <? i0 + (m + 1))) with true by lia.
    + now replace ((i0 + 1 <=? c) && (c <? i0 + 1 + m)) with ((i0 <=? c) && (c <? i0 + (m + 1))) by lia.
Qed.

Lemma HASHnew_holds raw size k at_ : 0 <= size < 2 ^ 64 -> 0 <= k ->
  holds (HASHnew raw size (2 ^ k)) at_ [].
Proof.
  intros S K. unfold HASHnew. set (w := HASHwidth size). set (n := if w =? 1 then _ else _).
  assert (W : 0 <= size <= n /\ 0 <= n < 2 ^ (8 * w)).
  { assert (C : w = 1 /\ size <= 255 \/ w = 2 /\ size <= 65535 \/ w = 4 /\ size <= 2 ^ 32 - 1 \/ w = 8).
    { unfold w, HASHwidth, BUN1_NONE, BUN2_NONE, BUN4_NONE.
      case Z.leb_spec; [|case Z.leb_spec; [|case Z.leb_spec]]; lia. }
    unfold n, BUN1_NONE, BUN2_NONE, BUN4_NONE, BUN8_NONE. clearbody w.
    destruct C as [ (-> & C) | [ (-> & C) | [ (-> & C) | -> ] ] ]; cbn; lia. }
  pose proof (HASHclear_slots (Z.to_nat (2 ^ k - 1 + 1)) (mkHash w n size (2 ^ k - 1) (fun i => raw (size + i)) raw) 0) as Q.
  cbv zeta in Q. cbn [width nil lim mask] in Q. unfold HASHclear. cbn [mask nil].
  destruct Q as (A & B & C & D & E). split; rewrite ?A, ?B, ?C, ?D; try lia.
  - exists k. split; [exact K|]. rewrite Z.ones_equiv. lia.
  - intros p [].
  - constructor.
  - intros c Hc. cbn [in_slot List.filter path]. rewrite E. cbn [HASHget slots].
    assert (P : 0 < 2 ^ k) by (apply Z.pow_pos_nonneg; lia).
    replace (0 + Z.of_nat (Z.to_nat (2 ^ k - 1 + 1))) with (2 ^ k) by lia.
    replace ((0 <=? c) && (c <? 2 ^ k)) with true by lia.
    apply uwrap_id. lia.
Qed.

(** The rows from [lo] up to [r], newest first. *)
Definition rows_upto (lo r : Z) : list Z := rev (zrange lo (Z.to_nat (r - lo))).

Lemma rows_upto_succ lo r : lo <= r -> rows_upto lo (r + 1) = r :: rows_upto lo r.
Proof.
  intros L. unfold rows_upto. replace (Z.to_nat (r + 1 - lo)) with (S (Z.to_nat (r - lo))) by lia.
  rewrite zrange_snoc, rev_app_distr. cbn. f_equal. lia.
Qed.

Lemma rows_upto_in lo r p : In p (rows_upto lo r) -> lo <= p < r.
Proof.
  unfold rows_upto. intros I. apply in_rev in I.
  assert (G : forall n l, In p (zrange l n) -> l <= p < l + Z.of_nat n).
  { induction n as [|n IH]; intros l; cbn; [easy|]. intros [->|J]; [lia|]. apply IH in J. lia. }
  apply G in I. lia.
Qed.

Lemma enter_next h at_ lo r : holds h at_ (rows_upto lo r) -> 0 <= lo <= r -> r < lim h ->
  holds (enter h (hash_with a (heap_hash a) h (at_ r)) r) at_ (rows_upto lo (r + 1)).
Proof.
  intros H L R. rewrite hash_heap, rows_upto_succ by lia. apply enter_holds; auto; [|lia].
  intros I. apply rows_upto_in in I. lia.
Qed.

Lemma starthash_holds fuel at_ lo p : forall h r nslots,
  holds h at_ (rows_upto lo r) -> 0 <= lo <= r -> r <= p -> p <= lim h ->
  let '(h', r') := starthash a fuel at_ h r p nslots in
  holds h' at_ (rows_upto lo r') /\ r <= r' <= p /\ lim h' = lim h.
Proof.
  induction fuel as [|fuel IH]; intros h r nslots H L P M; cbn [starthash]; [split; [exact H|lia]|].
  case Z.ltb_spec; intros R; [|split; [exact H|lia]].
  cbv zeta. set (h1 := enter h _ r).
  assert (H1 : holds h1 at_ (rows_upto lo (r + 1))) by (apply enter_next; auto; lia).
  assert (G : forall n, let '(h', r') := starthash a fuel at_ h1 (r + 1) p n in
     holds h' at_ (rows_upto lo r') /\ r <= r' <= p /\ lim h' = lim h).
  { intros n. specialize (IH h1 (r + 1) n H1 ltac:(lia) ltac:(lia) M).
    destruct (starthash a fuel at_ h1 (r + 1) p n) as [h' r']. destruct IH as (A & B & C).
    change (lim h1) with (lim h) in C. split; [exact A|lia]. }
  destruct (_ =? nil h); [|apply G]. destruct (nslots =? 0); [|apply G]. split; [exact H|lia].
Qed.

Lemma finishhash_holds fuel at_ lo q : forall h p,
  holds h at_ (rows_upto lo p) -> 0 <= lo <= p -> p <= q <= lim h -> (Z.to_nat (q - p) <= fuel)%nat ->
  let h' := finishhash a fuel at_ h p q in holds h' at_ (rows_upto lo q) /\ lim h' = lim h.
Proof.
  induction fuel as [|fuel IH]; intros h p H L P F; cbn [finishhash].
  - replace q with p by lia. now split.
  - case Z.ltb_spec; intros R; [|replace q with p by lia; now split].
    apply (IH (enter h _ p) (p + 1)); try lia; [|cbn; lia]. apply enter_next; auto; lia.
Qed.

Lemma mask_loop_spec fuel cnt : forall k, 3 <= k <= 62 -> cnt <= 2 ^ 62 -> 62 - k <= Z.of_nat fuel ->
  exists j, k <= j <= 62 /\ mask_loop fuel cnt (2 ^ k) = 2 ^ j /\ cnt <= 2 ^ (j + 1).
Proof.
  induction fuel as [|fuel IH]; intros k K C F; cbn [mask_loop].
  - exists k. replace k with 62 by lia. repeat split; lia.
  - assert (D : 2 ^ k + 2 ^ k = 2 ^ (k + 1)) by (rewrite Z.pow_add_r by lia; lia).
    assert (B : 0 < 2 ^ (k + 1) <= 2 ^ 63) by (split; [apply Z.pow_pos_nonneg|apply Z.pow_le_mono_r]; lia).
    rewrite D, uwrap_id by lia. case Z.ltb_spec; intros L; [|exists k; repeat split; lia].
    assert (k < 62).
    { destruct (Z.eq_dec k 62) as [->|]; [|lia]. change (2 ^ (62 + 1)) with (2 * 2 ^ 62) in L. lia. }
    destruct (IH (k + 1)) as (j & J & E & Q); try lia. exists j. repeat split; try lia; assumption.
Qed.

(** The number of slots is a power of two, at least half the number of rows. *)
Lemma HASHmask_spec cnt : cnt <= 2 ^ 62 ->
  exists k, 3 <= k <= 63 /\ HASHmask cnt = 2 ^ k /\ cnt <= 2 * HASHmask cnt.
Proof.
  intros C. unfold HASHmask. change 8 with (2 ^ 3) at 1.
  destruct (mask_loop_spec 64 cnt 3) as (j & J & E & Q); [lia|exact C|lia|]. cbv zeta.
  change (2 ^ 3) with 8 in *. rewrite E.
  assert (D : 2 ^ j + 2 ^ j = 2 ^ (j + 1)) by (rewrite Z.pow_add_r by lia; lia).
  assert (B : 0 < 2 ^ (j + 1) <= 2 ^ 63) by (split; [apply Z.pow_pos_nonneg|apply Z.pow_le_mono_r]; lia).
  rewrite D. rewrite (uwrap_id 64 (2 ^ (j + 1))) by lia.
  destruct (_ <? _); [exists (j + 1)|exists j]; repeat split; lia.
Qed.

(** What the descriptor of a column promises. *)
Definition head_ok (b : head V) : Prop := 0 <= first b <= last b /\ last b <= capacity b < 2 ^ 62.

Lemma build_holds b raw cnt p fuel : forall k,
  head_ok b -> first b <= p <= last b -> cnt <= 2 ^ 62 -> 10 <= k <= 63 -> 64 - k <= 2 * Z.of_nat fuel ->
  0 < Z.of_nat fuel ->
  exists h r, build a fuel raw b cnt (2 ^ k) p = Some (h, r)
    /\ holds h (BUNhead b) (rows_upto (first b) r) /\ first b <= r <= p /\ lim h = capacity b.
Proof.
  intros k (O1 & O2) P C. revert k. induction fuel as [|fuel IH]; intros k K F F0; [lia|]. cbn [build].
  assert (N : holds (HASHnew raw (capacity b) (2 ^ k)) (BUNhead b) (rows_upto (first b) (first b))).
  { unfold rows_upto. rewrite Z.sub_diag. apply HASHnew_holds; lia. }
  assert (Lm : lim (HASHnew raw (capacity b) (2 ^ k)) = capacity b).
  { unfold HASHnew, HASHclear. cbv zeta.
    match goal with |- lim (fold_left _ (zrange 0 ?n) ?h) = _ => destruct (HASHclear_slots n h 0) as (_ & _ & L & _) end.
    rewrite L. reflexivity. }
  pose proof (starthash_holds (Z.to_nat (p - first b)) (BUNhead b) (first b) p _ _ (Z.shiftr (2 ^ k) 3) N
                ltac:(lia) ltac:(lia) ltac:(lia)) as S.
  destruct (starthash _ _ _ _ _ _ _) as [h r]. destruct S as (S1 & S2 & S3).
  destruct ((r <? p) && (2 ^ k <? cnt)) eqn:Q.
  2: { exists h, r. split; [reflexivity|]. split; [exact S1|]. rewrite S3, Lm. lia. }
  assert (k < 62).
  { destruct (Z_lt_le_dec k 62) as [|L]; [assumption|]. pose proof (Z.pow_le_mono_r 2 62 k). lia. }
  rewrite Z.shiftl_mul_pow2 by lia. change (2 ^ 2) with 4.
  replace (2 ^ k * 4) with (2 ^ (k + 2)) by (rewrite Z.pow_add_r by lia; lia).
  rewrite uwrap_id.
  2: { split; [apply Z.pow_nonneg; lia|apply Z.pow_lt_mono_r; lia]. }
  apply IH; lia.
Qed.

(** [BAThash] yields a table of all rows, whatever the size it settles on. *)
Lemma BAThash_holds b raw masksize : head_ok b -> masksize <= 2 ^ 62 ->
  exists h, BAThash a raw b masksize = Some h
    /\ holds h (BUNhead b) (rows_upto (first b) (last b)) /\ lim h = capacity b.
Proof.
  intros Ok M. pose proof Ok as (O1 & O2). unfold BAThash, initial_mask.
  set (cnt := if hcount b =? 0 then _ else _).
  assert (C : 0 <= cnt < 2 ^ 62) by (unfold cnt, hcount; destruct (_ =? 0); lia). clearbody cnt.
  set (mp := if 0 <? masksize then _ else _).
  assert (K : exists k, 3 <= k <= 63 /\ fst mp = 2 ^ k /\ first b <= snd mp <= last b).
  { assert (G : forall n, n <= 2 ^ 62 -> exists k, 3 <= k <= 63 /\ HASHmask n = 2 ^ k)
      by (intros n N; destruct (HASHmask_spec n N) as (k & ? & ? & _); eauto).
    assert (B6 : Z.shiftr cnt 6 <= 2 ^ 62).
    { rewrite Z.shiftr_div_pow2 by lia. pose proof (Z.div_le_upper_bound cnt (2 ^ 6) cnt). lia. }
    assert (B2 : 0 <= Z.shiftr cnt 2) by (apply Z.shiftr_nonneg; lia).
    unfold mp. destruct (0 <? masksize); [|destruct (hsize b =? 1); [|destruct (hsize b =? 2); [|destruct (hkey b)]]];
      cbn [fst snd].
    - destruct (G masksize M) as (k & K1 & K2). exists k. repeat split; lia || exact K2.
    - exists 8. repeat split; lia.
    - exists 12. repeat split; lia.
    - destruct (G cnt) as (k & K1 & K2); [lia|]. exists k. repeat split; lia || exact K2.
    - destruct (G _ B6) as (k & K1 & K2). exists k. repeat split; lia || exact K2. }
  destruct mp as [m p]. cbn [fst snd] in K. destruct K as (k & K & -> & P). cbv beta iota.
  assert (K' : exists k', 10 <= k' <= 63 /\ (if 2 ^ k <? 1024 then 1024 else 2 ^ k) = 2 ^ k').
  { case Z.ltb_spec; intros L; [exists 10; split; [lia|reflexivity]|]. exists k. split; [|reflexivity].
    destruct (Z_lt_le_dec k 10) as [Lk|]; [|lia]. pose proof (Z.pow_lt_mono_r 2 k 10). change (2 ^ 10) with 1024 in *. lia. }
  destruct K' as (k' & K' & ->).
  destruct (build_holds b raw cnt p 32 k') as (h & r & -> & H & R & Lh); try assumption; try lia.
  eexists. split; [reflexivity|].
  destruct (finishhash_holds (Z.to_nat (last b - r)) (BUNhead b) (first b) (last b) h r) as (A & B); auto; try lia.
  split; [exact A|]. now rewrite B.
Qed.

(** *** Looking up *)

Lemma bounded_length (l : list Z) n : NoDup l -> (forall p, In p l -> 0 <= p < n) ->
  (List.length l <= Z.to_nat n)%nat.
Proof.
  intros N B. rewrite <- (length_map Z.to_nat l). rewrite <- (length_seq (Z.to_nat n) 0).
  apply NoDup_incl_length.
  - clear - N B. induction N as [|p l I N IH]; [constructor|]. cbn. constructor.
    + intros J. apply in_map_iff in J. destruct J as (q & E & J).
      assert (q = p) by (pose proof (B q (or_intror J)); pose proof (B p (or_introl eq_refl)); lia).
      now subst.
    + apply IH. intros q J. apply B. now right.
  - intros k I. apply in_map_iff in I. destruct I as (p & <- & I). apply in_seq. specialize (B p I). lia.
Qed.

Lemma in_slot_length h at_ c rows : holds h at_ rows ->
  (List.length (in_slot h at_ c rows) <= fuel_of h)%nat.
Proof.
  intros [Hw Hm Hl Hr Ho Hs]. unfold fuel_of, in_slot. apply bounded_length.
  - now apply NoDup_filter.
  - intros p I. apply filter_In in I. now apply Hr.
Qed.

Lemma holds_chain h at_ rows c : holds h at_ rows -> 0 <= c <= mask h ->
  chain (fuel_of h) h (HASHget h c) = Some (in_slot h at_ c rows).
Proof.
  intros H C. apply chain_path; [now apply H| |now apply in_slot_length].
  apply Forall_forall. intros p I. apply in_slot_in in I. destruct I as (I & _).
  pose proof (h_rows _ _ _ H p I). pose proof (h_lim _ _ _ H). lia.
Qed.

(** [HASHloop] runs for the rows that hold the value, newest first. *)
Lemma HASHloop_holds h at_ rows v : holds h at_ rows ->
  HASHloop a h at_ v = Some (List.filter (fun p => ATOMcmp a v (at_ p) =? 0) rows).
Proof.
  intros H. pose proof (probe_bounds h v (h_mask _ _ _ H)) as B.
  unfold HASHloop. rewrite (holds_chain h at_ rows) by assumption. cbn [option_map]. f_equal.
  unfold in_slot. clear H. induction rows as [|p rows IH]; [reflexivity|]. cbn [List.filter].
  destruct (Z.eqb_spec (ATOMcmp a v (at_ p)) 0) as [E|E].
  - rewrite <- (hash_eq h v (at_ p) E), Z.eqb_refl. cbn [List.filter]. rewrite E. cbn. now f_equal.
  - destruct (_ =? HASHprobe a h v); [|exact IH]. cbn [List.filter].
    apply Z.eqb_neq in E. now rewrite E.
Qed.

(** *** Removing and moving *)

Lemma before_path h i l2 : forall l1 q fuel x,
  path h x (l1 ++ q :: i :: l2) (nil h) -> NoDup (l1 ++ q :: i :: l2) ->
  (forall p, In p (l1 ++ q :: i :: l2) -> p <> nil h) -> (List.length l1 < fuel)%nat ->
  before fuel h i x = Some q.
Proof.
  induction l1 as [|p l1 IH]; intros q fuel x P N B F; (destruct fuel as [|fuel]; [cbn in F; lia|]); cbn [app path] in *.
  - destruct P as (-> & E & _). cbn [before].
    rewrite (proj2 (Z.eqb_neq _ _) (B q (or_introl eq_refl))). now rewrite E, Z.eqb_refl.
  - destruct P as (-> & P). cbn [before].
    rewrite (proj2 (Z.eqb_neq _ _) (B p (or_introl eq_refl))).
    inversion N as [|y l Np N']. subst.
    assert (Q : HASHgetlink h p <> i).
    { intros E. destruct l1 as [|y l1]; cbn in P; destruct P as (P & _); rewrite P in E; subst.
      - inversion N' as [|y l Nq N'']. subst. apply Nq. now left.
      - inversion N' as [|z l Nq N'']. subst. apply Nq. apply in_or_app. right. right. now left. }
    rewrite (proj2 (Z.eqb_neq _ _) Q). apply (IH q fuel); auto; [|cbn in F; lia].
    intros y I. apply B. now right.
Qed.

Lemma path_first h x l z : path h x l z -> l <> [] -> hd z l = x.
Proof. destruct l; cbn; [easy|]. intros (-> & _) _. reflexivity. Qed.

Lemma NoDup_split (i : Z) : forall l1 l2 k1 k2,
  NoDup (l1 ++ i :: l2) -> l1 ++ i :: l2 = k1 ++ i :: k2 -> l1 = k1.
Proof.
  induction l1 as [|p l1 IH]; intros l2 [|q k1] k2 N E; cbn in *.
  - reflexivity.
  - injection E as -> E. subst l2. inversion N as [|x l I _]. subst. exfalso. apply I, in_elt.
  - injection E as -> E. inversion N as [|x l I _]. subst. exfalso. apply I, in_elt.
  - injection E as -> E. inversion N as [|x l _ N']. subst. f_equal. now apply (IH l2 k1 k2).
Qed.

(** The reference to the row behind [l1] in the chain of slot [c] is now to [j],
    and nothing else has changed. *)
Record redirected (h h' : Hash) (c : Z) (l1 : list Z) (j : Z) : Prop := {
  re_path : path h' (HASHget h' c) l1 j;
  re_links : forall p, ~ In p l1 -> HASHgetlink h' p = HASHgetlink h p;
  re_slots : forall c', c' <> c -> HASHget h' c' = HASHget h c';
  re_same : width h' = width h /\ nil h' = nil h /\ lim h' = lim h /\ mask h' = mask h;
}.

Lemma putlink_redirected h c l1 q j i l2 :
  path h (HASHget h c) ((l1 ++ [q]) ++ i :: l2) (nil h) -> NoDup (l1 ++ [q]) -> 0 <= j < 2 ^ (8 * width h) ->
  redirected h (HASHputlink h q j) c (l1 ++ [q]) j.
Proof.
  intros P N J. apply path_app in P. destruct P as (y & P & _).
  split; try now repeat split.
  - apply (path_redirect h _ l1 _ q y); [|exact P|].
    + intros p I. cbn. unfold upd. case Z.eqb_spec; [intros ->|reflexivity].
      apply NoDup_remove_2 in N. now rewrite app_nil_r in N.
    + cbn. unfold upd. rewrite Z.eqb_refl. now apply uwrap_id.
  - intros p I. cbn. unfold upd. case Z.eqb_spec; [intros ->|reflexivity].
    exfalso. apply I, in_elt.
Qed.

Lemma redirect_spec h at_ rows i j v next l1 l2 :
  holds h at_ rows -> in_slot h at_ (HASHprobe a h v) rows = l1 ++ i :: l2 ->
  0 <= j < 2 ^ (8 * width h) -> (next = true -> In (i + 1) rows \/ HASHgetlink h (i + 1) <> i) ->
  redirected h (redirect a h i j v next) (HASHprobe a h v) l1 j.
Proof.
  intros H E J Nx. pose proof (probe_bounds h v (h_mask _ _ _ H)) as B. set (c := HASHprobe a h v) in *.
  pose proof (h_slots _ _ _ H c B) as P. rewrite E in P.
  assert (N : NoDup (l1 ++ i :: l2)) by (rewrite <- E; apply NoDup_filter, H).
  assert (Nn : forall p, In p rows -> p <> nil h).
  { intros p I. pose proof (h_rows _ _ _ H p I). pose proof (h_lim _ _ _ H). lia. }
  assert (Ii : In i rows /\ HASHprobe a h (at_ i) = c).
  { apply in_slot_in. rewrite E. apply in_elt. }
  unfold redirect. fold c. destruct (next && (HASHgetlink h (i + 1) =? i)) eqn:Q.
  - apply andb_true_iff in Q. destruct Q as (Q1 & Q2). apply Z.eqb_eq in Q2.
    destruct (Nx Q1) as [I1|F]; [|contradiction].
    pose proof (probe_bounds h (at_ (i + 1)) (h_mask _ _ _ H)) as B2.
    pose proof (h_slots _ _ _ H _ B2) as P2. set (c2 := HASHprobe a h (at_ (i + 1))) in *.
    assert (I2 : In (i + 1) (in_slot h at_ c2 rows)) by now apply in_slot_in.
    destruct (in_split _ _ I2) as (m1 & m2 & E2). rewrite E2 in P2. apply path_app in P2.
    destruct P2 as (y & _ & -> & P2). rewrite Q2 in P2.
    destruct m2 as [|y m2]; cbn in P2; [destruct (Nn i (proj1 Ii)); auto|]. destruct P2 as (<- & _).
    assert (c2 = c) as Ec.
    { rewrite <- (proj2 Ii). symmetry. apply (in_slot_in h at_ c2 rows). rewrite E2. apply in_app_iff. right. right. now left. }
    rewrite Ec, E in E2. change (m1 ++ (i + 1) :: i :: m2) with (m1 ++ [i + 1] ++ i :: m2) in E2.
    rewrite app_assoc in E2. pose proof (NoDup_split _ _ _ _ _ N E2) as ->.
    apply (putlink_redirected h c m1 (i + 1) j i l2); auto. now apply NoDup_app_remove_r in N.
  - destruct (Z.eqb_spec (HASHget h c) i) as [G|G].
    + assert (l1 = []) as ->.
      { destruct l1 as [|p l1]; [reflexivity|]. cbn in P. destruct P as (P & _). rewrite P in G. subst p.
        inversion N as [|x l I _]. subst. exfalso. apply I, in_elt. }
      split; try now repeat split.
      * cbn. unfold upd. rewrite Z.eqb_refl. now apply uwrap_id.
      * intros c' C'. cbn. unfold upd. apply Z.eqb_neq in C'. now rewrite C'.
    + destruct l1 as [|p l1 _] using rev_ind; [cbn in P; destruct P; contradiction|].
      replace (before (fuel_of h) h i (HASHget h c)) with (Some p).
      * apply (putlink_redirected h c l1 p j i l2); auto. now apply NoDup_app_remove_r in N.
      * symmetry. rewrite <- app_assoc in P, N, E. cbn in P, N, E.
        apply (before_path h i l2 l1 p); auto.
        -- intros y I. apply Nn. rewrite <- E in I. now apply in_slot_in in I.
        -- pose proof (in_slot_length h at_ c rows H) as L. rewrite E, length_app in L. cbn in L. lia.
Qed.

Lemma in_slot_split h at_ rows i v : holds h at_ rows -> In i rows -> at_ i = v ->
  exists l1 l2, in_slot h at_ (HASHprobe a h v) rows = l1 ++ i :: l2
    /\ path h (HASHgetlink h i) l2 (nil h) /\ NoDup (l1 ++ i :: l2)
    /\ 0 <= HASHgetlink h i < 2 ^ (8 * width h).
Proof.
  intros H I <-. set (c := HASHprobe a h (at_ i)).
  assert (J : In i (in_slot h at_ c rows)) by now apply in_slot_in.
  destruct (in_split _ _ J) as (l1 & l2 & E). exists l1, l2. split; [exact E|].
  pose proof (h_slots _ _ _ H c (probe_bounds h (at_ i) (h_mask _ _ _ H))) as P. rewrite E in P.
  apply path_app in P. destruct P as (y & _ & -> & P). split; [exact P|]. split.
  - rewrite <- E. apply NoDup_filter, H.
  - destruct l2 as [|q l2]; cbn in P; [rewrite P; apply H|]. destruct P as (-> & _).
    assert (Iq : In q (in_slot h at_ c rows)) by (rewrite E; apply in_app_iff; right; right; now left).
    apply in_slot_in in Iq. destruct Iq as (Iq & _).
    pose proof (h_rows _ _ _ H q Iq). pose proof (h_lim _ _ _ H). pose proof (h_width _ _ _ H). lia.
Qed.

(** Chains of other slots are not touched. *)
Lemma redirected_other h h' c l1 j at_ c' :
  redirected h h' c l1 j -> (forall p, In p l1 -> HASHprobe a h (at_ p) = c) -> c' <> c ->
  forall l, path h (HASHget h c') l (nil h) -> (forall p, In p l -> HASHprobe a h (at_ p) = c') ->
  path h' (HASHget h' c') l (nil h').
Proof.
  intros R B C l P L. rewrite (re_slots _ _ _ _ _ R) by exact C.
  destruct (re_same _ _ _ _ _ R) as (_ & -> & _). apply (path_ext h); [|exact P].
  intros p I. apply (re_links _ _ _ _ _ R). intros J. apply C. now rewrite <- (L p I), <- (B p J).
Qed.

Lemma NoDup_disjoint (l1 l2 : list Z) p : NoDup (l1 ++ l2) -> In p l1 -> In p l2 -> False.
Proof.
  induction l1 as [|y l1 IH]; [easy|]. cbn. intros N [->|I] J; inversion N as [|x l F N']; subst; [|auto].
  apply F, in_app_iff. now right.
Qed.

Definition without (i : Z) (rows : list Z) : list Z := List.filter (fun p => negb (p =? i)) rows.

Lemma without_notin i l : ~ In i l -> without i l = l.
Proof.
  induction l as [|p l IH]; cbn; intros N; [reflexivity|].
  destruct (Z.eqb_spec p i) as [->|]; [exfalso; apply N; now left|]. cbn. f_equal. apply IH. tauto.
Qed.

Lemma in_slot_without h at_ c i rows : in_slot h at_ c (without i rows) = without i (in_slot h at_ c rows).
Proof.
  unfold in_slot, without. induction rows as [|p rows IH]; [reflexivity|]. cbn.
  destruct (Z.eqb_spec p i); cbn; destruct (_ =? c) eqn:E; cbn; rewrite ?IH; try reflexivity.
  - subst. now rewrite Z.eqb_refl.
  - apply Z.eqb_neq in n. now rewrite n.
Qed.

Lemma HASHdel_holds h at_ rows i v next :
  holds h at_ rows -> In i rows -> at_ i = v ->
  (next = true -> In (i + 1) rows \/ HASHgetlink h (i + 1) <> i) ->
  holds (HASHdel a h i v next) at_ (without i rows).
Proof.
  intros H I E Nx. destruct (in_slot_split h at_ rows i v H I E) as (l1 & l2 & S & P & N & J).
  pose proof (redirect_spec h at_ rows i _ v next l1 l2 H S J Nx) as R.
  set (c := HASHprobe a h v) in *. unfold HASHdel. set (h1 := redirect a h i (HASHgetlink h i) v next) in *.
  destruct (re_same _ _ _ _ _ R) as (W & Nl & L & M).
  assert (N1 : ~ In i l1 /\ ~ In i l2).
  { apply NoDup_remove in N. destruct N as (_ & N). rewrite in_app_iff in N. tauto. }
  set (h2 := HASHputlink h1 i (nil h1)).
  assert (Q : forall q l, ~ In i l -> path h1 q l (nil h1) -> path h2 q l (nil h)).
  { intros q l Ni. rewrite Nl. apply path_ext. intros p Ip. cbn. unfold upd.
    case Z.eqb_spec; [intros ->; contradiction|reflexivity]. }
  assert (F2 : width h2 = width h /\ nil h2 = nil h /\ lim h2 = lim h /\ mask h2 = mask h)
    by (cbn; now rewrite W, Nl, L, M).
  destruct F2 as (W2 & Nl2 & L2 & M2). change (HASHget h2) with (HASHget h1).
  pose proof (h_slots _ _ _ H) as Hs.
  split; rewrite ?W2, ?Nl2, ?L2, ?M2; try apply H.
  - intros p Ip. apply H. now apply filter_In in Ip.
  - apply NoDup_filter, H.
  - intros c' C'. rewrite in_slot_without, (in_slot_ext h h2 at_ at_ c' rows M2) by reflexivity.
    change (HASHget h2) with (HASHget h1). destruct (Z.eq_dec c' c) as [->|Nc].
    + rewrite S. unfold without. rewrite filter_app. cbn [List.filter]. rewrite Z.eqb_refl. cbn [negb].
      fold (without i l1) (without i l2). rewrite !without_notin by apply N1.
      apply Q; [rewrite in_app_iff; tauto|]. apply path_app. eexists. split; [apply (re_path _ _ _ _ _ R)|].
      rewrite Nl. apply (path_ext h); [|exact P]. intros p Ip. apply (re_links _ _ _ _ _ R).
      apply NoDup_remove in N. destruct N as (N & _). intros Ip'. exact (NoDup_disjoint _ _ _ N Ip' Ip).
    + assert (Ni : ~ In i (in_slot h at_ c' rows)).
      { intros F. apply in_slot_in in F. destruct F as (_ & F). rewrite E in F. now symmetry in F. }
      rewrite without_notin by exact Ni. apply Q; [exact Ni|].
      apply (redirected_other h h1 c l1 (HASHgetlink h i) at_ c' R); auto.
      * intros p Ip. apply (in_slot_in h at_ c rows). rewrite S. apply in_app_iff. now left.
      * intros p Ip. now apply in_slot_in in Ip.
Qed.

(** Row [i] becomes row [j]. *)
Definition moved (i j : Z) (rows : list Z) : list Z := map (fun p => if p =? i then j else p) rows.
Definition moved_value (at_ : Z -> V) (j : Z) (v : V) : Z -> V := fun p => if p =? j then v else at_ p.

Lemma moved_notin i j l : ~ In i l -> moved i j l = l.
Proof.
  intros N. unfold moved. rewrite <- (map_id l) at 2. apply map_ext_in. intros p I.
  case Z.eqb_spec; [intros ->; contradiction|reflexivity].
Qed.

Lemma in_slot_moved h at_ c i j v rows : ~ In j rows -> at_ i = v ->
  in_slot h (moved_value at_ j v) c (moved i j rows) = moved i j (in_slot h at_ c rows).
Proof.
  intros N E. unfold in_slot, moved. induction rows as [|p rows IH]; [reflexivity|]. cbn [map List.filter].
  rewrite IH by (intros I; apply N; now right).
  assert (X : moved_value at_ j v (if p =? i then j else p) = at_ p).
  { unfold moved_value. destruct (Z.eqb_spec p i) as [->|]; [now rewrite Z.eqb_refl|].
    case Z.eqb_spec; [intros ->; exfalso; apply N; now left|reflexivity]. }
  rewrite X. now destruct (_ =? c).
Qed.

Lemma NoDup_moved i j rows : NoDup rows -> ~ In j rows -> NoDup (moved i j rows).
Proof.
  intros N J. unfold moved. induction N as [|p rows F N IH]; [constructor|]. cbn [map]. constructor.
  - intros I. apply in_map_iff in I. destruct I as (q & E & I). revert E.
    do 2 case Z.eqb_spec; intros; subst; try contradiction; apply J; (now left) || (now right).
  - apply IH. intros I. apply J. now right.
Qed.

Lemma HASHmove_holds h at_ rows i j v next :
  holds h at_ rows -> In i rows -> at_ i = v -> ~ In j rows -> 0 <= j < lim h ->
  (next = true -> In (i + 1) rows \/ HASHgetlink h (i + 1) <> i) ->
  holds (HASHmove a h i j v next) (moved_value at_ j v) (moved i j rows).
Proof.
  intros H I E Nj Bj Nx. destruct (in_slot_split h at_ rows i v H I E) as (l1 & l2 & S & P & N & J).
  assert (Wj : 0 <= j < 2 ^ (8 * width h)) by (pose proof (h_lim _ _ _ H); pose proof (h_width _ _ _ H); lia).
  pose proof (redirect_spec h at_ rows i j v next l1 l2 H S Wj Nx) as R.
  set (c := HASHprobe a h v) in *. unfold HASHmove. set (h1 := redirect a h i j v next) in *.
  destruct (re_same _ _ _ _ _ R) as (W & Nl & L & M).
  assert (In_ : forall p, In p l1 \/ In p l2 -> In p rows).
  { intros p Ip. apply (in_slot_in h at_ c rows). rewrite S, in_app_iff. cbn. tauto. }
  assert (N1 : ~ In i l1 /\ ~ In i l2).
  { pose proof (NoDup_remove _ _ _ N) as (_ & N'). rewrite in_app_iff in N'. tauto. }
  assert (Li : HASHgetlink h1 i = HASHgetlink h i) by (apply (re_links _ _ _ _ _ R), N1).
  set (h2 := HASHputlink h1 j (HASHgetlink h1 i)).
  assert (Q : forall q l z, ~ In j l -> path h1 q l z -> path h2 q l z).
  { intros q l z Ni. apply path_ext. intros p Ip. cbn. unfold upd.
    case Z.eqb_spec; [intros ->; contradiction|reflexivity]. }
  assert (F2 : width h2 = width h /\ nil h2 = nil h /\ lim h2 = lim h /\ mask h2 = mask h)
    by (cbn; now rewrite W, Nl, L, M).
  destruct F2 as (W2 & Nl2 & L2 & M2). pose proof (h_slots _ _ _ H) as Hs.
  split; rewrite ?W2, ?Nl2, ?L2, ?M2; try apply H.
  - intros p Ip. apply in_map_iff in Ip. destruct Ip as (q & <- & Iq).
    case Z.eqb_spec; [intros; exact Bj|intros; now apply H].
  - apply NoDup_moved; [apply H|exact Nj].
  - intros c' C'. rewrite (in_slot_ext h h2 (moved_value at_ j v) _ c' _ M2) by reflexivity.
    rewrite in_slot_moved by assumption. change (HASHget h2) with (HASHget h1). destruct (Z.eq_dec c' c) as [->|Nc].
    + rewrite S. unfold moved. rewrite map_app. cbn [map]. rewrite Z.eqb_refl.
      fold (moved i j l1) (moved i j l2). rewrite !moved_notin by apply N1.
      apply path_app. exists j. split; [apply Q; [auto|apply R]|]. cbn [path]. split; [reflexivity|].
      cbn [HASHgetlink links HASHputlink h2]. unfold upd. rewrite Z.eqb_refl, Li, W, uwrap_id by exact J.
      apply Q; [auto|]. apply (path_ext h); [|exact P]. intros p Ip. apply (re_links _ _ _ _ _ R).
      apply NoDup_remove in N. destruct N as (N & _). intros Ip'. exact (NoDup_disjoint _ _ _ N Ip' Ip).
    + assert (Ni : ~ In i (in_slot h at_ c' rows)).
      { intros F. apply in_slot_in in F. destruct F as (_ & F). rewrite E in F. now symmetry in F. }
      rewrite moved_notin by exact Ni. rewrite <- Nl. apply Q.
      * intros F. apply in_slot_in in F. tauto.
      * apply (redirected_other h h1 c l1 j at_ c' R); auto.
        -- intros p Ip. apply (in_slot_in h at_ c rows). rewrite S. apply in_app_iff. now left.
        -- intros p Ip. now apply in_slot_in in Ip.
Qed.

(** *** Maintaining a table *)

Lemma holds_ext h at_ at' rows : (forall p, In p rows -> at' p = at_ p) -> holds h at_ rows -> holds h at' rows.
Proof.
  intros E H. split; try apply H. intros c C. rewrite (in_slot_ext h h at_ at' c rows) by auto.
  now apply (h_slots _ _ _ H).
Qed.

Lemma HASHins_holds h at_ rows i v : holds h at_ rows -> ~ In i rows -> 0 <= i < lim h ->
  holds (HASHins a h i v) (moved_value at_ i v) (i :: rows).
Proof.
  intros H N B. apply enter_holds; auto.
  - apply (holds_ext h at_); [|exact H]. intros p I. unfold moved_value.
    case Z.eqb_spec; [intros ->; contradiction|reflexivity].
  - unfold moved_value. now rewrite Z.eqb_refl.
Qed.

(** A table, the values of the rows, and the rows it should hold. *)
Record state := mkState { table : Hash; value : Z -> V; rows : list Z }.

(** What the operations on columns do to it: a row gets a value and is entered,
    a row is removed, a row is moved.  [next] tells that the next row exists. *)
Inductive step : state -> state -> Prop :=
| step_ins h at_ rs i v : ~ In i rs -> 0 <= i < lim h ->
    step (mkState h at_ rs) (mkState (HASHins a h i v) (moved_value at_ i v) (i :: rs))
| step_del h at_ rs i next : In i rs -> (next = true -> In (i + 1) rs \/ HASHgetlink h (i + 1) <> i) ->
    step (mkState h at_ rs) (mkState (HASHdel a h i (at_ i) next) at_ (without i rs))
| step_move h at_ rs i j next : In i rs -> ~ In j rs -> 0 <= j < lim h ->
    (next = true -> In (i + 1) rs \/ HASHgetlink h (i + 1) <> i) ->
    step (mkState h at_ rs)
      (mkState (HASHmove a h i j (at_ i) next) (moved_value at_ j (at_ i)) (moved i j rs)).

(** From the table [BAThash] makes for a column. *)
Inductive reachable (b : head V) : state -> Prop :=
| reach_hash raw masksize h : masksize <= 2 ^ 62 -> BAThash a raw b masksize = Some h ->
    reachable b (mkState h (BUNhead b) (rows_upto (first b) (last b)))
| reach_step s s' : reachable b s -> step s s' -> reachable b s'.

End Meaning.

Section Maintained.

Context {V : Type} (a : atom V) `{HA : !Hashable a}.

Lemma step_holds s s' : holds a (table s) (value s) (rows s) -> step a s s' ->
  holds a (table s') (value s') (rows s').
Proof.
  intros H S. destruct S; cbn [table value rows] in *.
  - now apply HASHins_holds.
  - now apply HASHdel_holds.
  - now apply HASHmove_holds.
Qed.

Lemma reachable_holds (b : head V) s : head_ok b -> reachable a b s ->
  holds a (table s) (value s) (rows s).
Proof.
  intros Hb R. induction R as [raw m h M E|s s' R IH S].
  - destruct (BAThash_holds a b raw m Hb M) as (h' & E' & H & _). rewrite E in E'. injection E' as <-. exact H.
  - exact (step_holds s s' IH S).
Qed.

(** The test whether a table is too small ends, so entering a row does. *)
Lemma HASHins_column_total h at_ rs count i v : holds a h at_ rs ->
  exists r, HASHins_column a h at_ count i v = Some r
    /\ (r = Some (HASHins a h i v) \/ r = None /\ Z.land i 1023 = 1023).
Proof.
  intros H. unfold HASHins_column, HASHgonebad.
  destruct (Z.eqb_spec (Z.land i 1023) 1023) as [E|E]; [|eauto].
  rewrite (holds_chain a h at_ rs) by (assumption || apply probe_bounds, H).
  destruct (_ <? count); cbn [option_map]; [|eauto]. destruct (4 <? _); eauto.
Qed.

(** C15: A table that [BAThash] makes (whatever size it settles on) and that
    [HASHins], [HASHdel] and [HASHmove] keep up to date is at every moment a list
    of rows, newest first: [HASHloop] ends and runs through exactly the rows
    that hold the value, in this order, and [HASHfnd] returns the newest one,
    or [BUN_NONE] when there is none. *)
Theorem hash_refines_rows (b : head V) s v (Hb : head_ok b) (R : reachable a b s) :
  let found := List.filter (fun p => ATOMcmp a v (value s p) =? 0) (rows s) in
  HASHloop a (table s) (value s) v = Some found
  /\ HASHfnd a (table s) (value s) v = Some (hd BUN_NONE found).
Proof.
  cbv zeta. unfold HASHfnd. rewrite (HASHloop_holds a _ _ _ v (reachable_holds b s Hb R)).
  split; reflexivity.
Qed.

End Maintained.

(** ** Integers *)

(** The integer types; their hash does not use [ATOMhash]. *)
Definition int_atom (st : storage) : atom Z :=
  mkAtom num_cmp st (fun x => x) (fun x => x) (fun x => x).

#[export] Instance int_atom_Hashable st : Hashable (int_atom st).
Proof.
  split; [|reflexivity]. intros h x y. cbn. unfold num_cmp. case Z.compare_spec; intros E; [now subst|easy..].
Qed.

(** Six rows, of which the last three hold 7. *)
Definition sample_head : head Z :=
  mkHead 0 6 8 false (fun p => nth (Z.to_nat p) [1; 2; 3; 7; 7; 7] 0) 4.

Abbreviation sample_table raw := (BAThash (int_atom ST_int) raw sample_head 0).

Lemma redirect_lim {V} (a : atom V) h i j v next : lim (redirect a h i j v next) = lim h.
Proof.
  unfold redirect. destruct (next && _); [reflexivity|]. cbv zeta.
  destruct (_ =? i); [reflexivity|]. now destruct (before _ _ _ _).
Qed.

Lemma sample_lim raw h : sample_table raw = Some h -> lim h = 8.
Proof.
  intros E. destruct (BAThash_holds (int_atom ST_int) sample_head raw 0) as (h' & E' & _ & L);
    [split; cbn; lia|discriminate|]. rewrite E in E'. now injection E' as <-.
Qed.

(** Row 2 is removed, and row 5 takes its place. *)
Definition sample_state (h : Hash) : state :=
  let a := int_atom ST_int in
  let at_ := BUNhead sample_head in
  mkState (HASHmove a (HASHdel a h 2 (at_ 2) false) 5 2 (at_ 5) false)
    (moved_value at_ 2 (at_ 5)) (moved 5 2 (without 2 (rows_upto 0 6))).

Lemma sample_reachable raw h : sample_table raw = Some h ->
  reachable (int_atom ST_int) sample_head (sample_state h).
Proof.
  intros E. eapply reach_step.
  - eapply reach_step.
    + apply (reach_hash _ _ raw 0 h); [discriminate|exact E].
    + apply (step_del _ h (BUNhead sample_head) (rows_upto 0 6) 2 false); [vm_compute; tauto|discriminate].
  - apply (step_move _ _ (BUNhead sample_head) (without 2 (rows_upto 0 6)) 5 2 false).
    + vm_compute. tauto.
    + vm_compute. intuition discriminate.
    + unfold HASHdel. cbn [lim HASHputlink]. rewrite redirect_lim, (sample_lim raw h E). lia.
    + discriminate.
Qed.

Lemma hash_refines_rows_witness :
  let a := int_atom ST_int in
  match sample_table (fun i => i * i) with
  | Some h =>
      let s := sample_state h in
      HASHloop a (table s) (value s) 7 = Some [2; 4; 3] /\ HASHfnd a (table s) (value s) 3 = Some BUN_NONE
  | None => False
  end.
Proof.
  cbv zeta. destruct (sample_table (fun i => i * i)) as [h|] eqn:E.
  - pose proof (sample_reachable _ h E) as R.
    assert (Ok : head_ok sample_head) by (split; cbn; lia). split.
    + rewrite (proj1 (hash_refines_rows (int_atom ST_int) sample_head _ 7 Ok R)). reflexivity.
    + rewrite (proj2 (hash_refines_rows (int_atom ST_int) sample_head _ 3 Ok R)). reflexivity.
  - destruct (BAThash_holds (int_atom ST_int) sample_head (fun i => i * i) 0) as (h & E' & _);
      [split; cbn; lia|discriminate|]. rewrite E in E'. discriminate.
Defined.

(** [HASHlist] does not count the rows of a chain: the three rows that hold 7 are in one
    slot, and it finds a chain of length 1, because the link it follows first
    is the one of row 7. *)
Lemma HASHlist_miscounts :
  let h := mkHash 1 255 8 7 (fun c => if c =? 7 then 5 else 255)
             (fun p => if p =? 5 then 4 else if p =? 4 then 3 else 255) in
  chain (fuel_of h) h (HASHget h 7) = Some [5; 4; 3] /\ HASHlist 8 h 7 = Some 1.
Proof. split; reflexivity. Qed.
