(* ===== verification/Arith.v ===== *)
(** * Checked arithmetic on columns

    gdk/gdk_calc.c and gdk/gdk_calc_private.h: addition, subtraction,
    multiplication, division and modulo of integers of any two widths into a
    third, bitwise and three-valued logic, shifts, and the loops that apply
    them to two columns, or a column and a constant, under a candidate list.
    The cells say what is computed for one row, the loops what is stored where
    and how many nils are counted. *)

From Stdlib Require Import ZArith Lia Bool List.
Import ListNotations.
From S2P Require Import Prelude Atoms Convert.

Open Scope Z_scope.
Open Scope list_scope.

(** ** One row *)

Definition bits (tp : num_type) : Z := 8 * ATOMsize tp.

(** Storing into a variable of the type. *)
Definition store (tp : num_type) (v : Z) : Z := swrap (bits tp) v.

(** [GDK_TYPE_min] is the nil pattern. *)
Definition GDK_min (tp : num_type) : Z := num_nil tp.
Definition GDK_max (tp : num_type) : Z := num_max tp.

(** The test all loops start with. *)
Definition nil_or (tp1 tp2 : num_type) (lft rgt : Z) (c : cell) : cell :=
  if (lft =? num_nil tp1) || (rgt =? num_nil tp2) then NilCell else c.

(** [Overflow] stands for the branch on which [abort_on_error] decides. *)
Definition ADD_WITH_CHECK (tp3 : num_type) (lft rgt : Z) : cell :=
  if rgt <? 1 then
    if GDK_min tp3 - rgt >=? lft then Overflow else Val (store tp3 (lft + rgt))
  else if GDK_max tp3 - rgt <? lft then Overflow else Val (store tp3 (lft + rgt)).

Definition SUB_WITH_CHECK (tp3 : num_type) (lft rgt : Z) : cell :=
  if rgt <? 1 then
    if GDK_max tp3 + rgt <? lft then Overflow else Val (store tp3 (lft - rgt))
  else if GDK_min tp3 + rgt >=? lft then Overflow else Val (store tp3 (lft - rgt)).

(** [TYPE4], the type of the product, by its width. *)
Definition MUL4_WITH_CHECK (w4 : Z) (tp3 : num_type) (lft rgt : Z) : cell :=
  let c := swrap w4 (lft * rgt) in
  if (c <=? GDK_min tp3) || (c >? GDK_max tp3) then Overflow else Val (store tp3 c).

(** Multiplication of [lng]s from halves of 32 bits. *)
Definition LNGMUL_CHECK (lft rgt : Z) : cell :=
  let sign := if lft <? 0 then -1 else 1 in
  let a := if lft <? 0 then i64 (- lft) else lft in
  let sign := if rgt <? 0 then - sign else sign in
  let b := if rgt <? 0 then i64 (- rgt) else rgt in
  let a1 := u32 (Z.shiftr a 32) in
  let a2 := u32 a in
  let b1 := u32 (Z.shiftr b 32) in
  let b2 := u32 b in
  let c := u64 (a1 * b2 + a2 * b1) in
  let c' := u64 (u64 (Z.shiftl c 32) + a2 * b2) in
  if ((a1 =? 0) || (b1 =? 0))
     && (Z.land c (u64 (Z.shiftl (2 ^ 64 - 1) 31)) =? 0)
     && (Z.land c' (Z.shiftl 1 63) =? 0)
  then Val (i64 (sign * i64 c')) else Overflow.

Definition DIV (tp3 : num_type) (lft rgt : Z) : cell :=
  if rgt =? 0 then Overflow else Val (store tp3 (Z.quot lft rgt)).

(** The cast binds tighter than the operator. *)
Definition MOD (tp3 : num_type) (lft rgt : Z) : cell :=
  if rgt =? 0 then Overflow else Val (store tp3 (Z.rem (store tp3 lft) rgt)).

Definition SHIFT_CHECK (tp1 : num_type) (b : Z) : bool := (b <? 0) || (b >=? 8 * ATOMsize tp1).
Definition LSH (tp1 : num_type) (lft rgt : Z) : cell :=
  if SHIFT_CHECK tp1 rgt then Overflow else Val (store tp1 (Z.shiftl lft rgt)).
Definition RSH (tp1 : num_type) (lft rgt : Z) : cell :=
  if SHIFT_CHECK tp1 rgt then Overflow else Val (store tp1 (Z.shiftr lft rgt)).

Definition XOR (tp : num_type) (lft rgt : Z) : cell := Val (store tp (Z.lxor lft rgt)).
Definition OR (tp : num_type) (lft rgt : Z) : cell := Val (store tp (Z.lor lft rgt)).
Definition AND (tp : num_type) (lft rgt : Z) : cell := Val (store tp (Z.land lft rgt)).
Definition XORBIT (lft rgt : Z) : cell :=
  Val (if Bool.eqb (lft =? 0) (rgt =? 0) then 0 else 1).

(** Or and and of the type [bit], on three truth values. *)
Definition or_bit (lft rgt : Z) : cell :=
  if negb (Z.land lft 127 =? 0) || negb (Z.land rgt 127 =? 0) then Val 1
  else if (lft =? 0) && (rgt =? 0) then Val 0 else NilCell.
Definition and_bit (lft rgt : Z) : cell :=
  if (lft =? 0) || (rgt =? 0) then Val 0
  else if negb (lft =? bit_nil) && negb (rgt =? bit_nil) then Val 1 else NilCell.

(** ** Which instance runs *)

(** The instances of the loops that exist for integers, by the types of the
    operands and the result; [full] is FULL_IMPLEMENTATION.  The switches on
    the three types select the instance of the same name. *)
Inductive variant := Checked | Enlarge.

Definition wider (tp1 tp2 : num_type) : num_type :=
  if ATOMsize tp1 <? ATOMsize tp2 then tp2 else tp1.
Definition narrower (tp1 tp2 : num_type) : num_type :=
  if ATOMsize tp1 <? ATOMsize tp2 then tp1 else tp2.

Definition arith_variant (full : bool) (tp1 tp2 tp3 : num_type) : option variant :=
  let w := ATOMsize (wider tp1 tp2) in
  if ATOMsize tp3 =? w then Some Checked
  else if ATOMsize tp3 =? 2 * w then Some Enlarge
  else if full && (w <? ATOMsize tp3) then Some Enlarge else None.

Definition div_instance (full : bool) (tp1 tp2 tp3 : num_type) : bool :=
  (ATOMsize tp3 =? ATOMsize tp1) || (full && (ATOMsize tp1 <? ATOMsize tp3)).

Definition mod_instance (full : bool) (tp1 tp2 tp3 : num_type) : bool :=
  let n := ATOMsize (narrower tp1 tp2) in
  (ATOMsize tp3 =? n) || (full && (n <? ATOMsize tp3)).

(** How [lng] products are made: with the 128-bit integers of the compiler, with
    [_mul128], which gives the two halves of a product, or by [LNGMUL_CHECK]. *)
Inductive mul_lng := ByInt128 | ByMul128 | ByParts.

Definition MUL128 (lft rgt : Z) : cell :=
  let clo := i64 (lft * rgt) in
  let chi := Z.shiftr (lft * rgt) 64 in
  if ((chi =? 0) && (0 <=? clo)) || ((chi =? -1) && (clo <? 0) && negb (clo =? lng_nil)) then Val clo
  else Overflow.

Definition mul_check (how : mul_lng) (tp3 : num_type) (lft rgt : Z) : cell :=
  match tp3 with
  | TYPE_bte => MUL4_WITH_CHECK 16 tp3 lft rgt
  | TYPE_sht => MUL4_WITH_CHECK 32 tp3 lft rgt
  | TYPE_int => MUL4_WITH_CHECK 64 tp3 lft rgt
  | TYPE_lng =>
    match how with
    | ByInt128 => MUL4_WITH_CHECK 128 tp3 lft rgt
    | ByMul128 => MUL128 lft rgt
    | ByParts => LNGMUL_CHECK lft rgt
    end
  end.

(** What a row of [add_TYPE1_TYPE2_TYPE3] becomes, and so on; [None] where the
    type combination is not supported. *)
Definition add_cell (full : bool) (tp1 tp2 tp3 : num_type) : option (Z -> Z -> cell) :=
  match arith_variant full tp1 tp2 tp3 with
  | Some Checked => Some (fun l r => nil_or tp1 tp2 l r (ADD_WITH_CHECK tp3 l r))
  | Some Enlarge => Some (fun l r => nil_or tp1 tp2 l r (Val (store tp3 (l + r))))
  | None => None
  end.
Definition sub_cell (full : bool) (tp1 tp2 tp3 : num_type) : option (Z -> Z -> cell) :=
  match arith_variant full tp1 tp2 tp3 with
  | Some Checked => Some (fun l r => nil_or tp1 tp2 l r (SUB_WITH_CHECK tp3 l r))
  | Some Enlarge => Some (fun l r => nil_or tp1 tp2 l r (Val (store tp3 (l - r))))
  | None => None
  end.
Definition mul_cell (full : bool) (how : mul_lng) (tp1 tp2 tp3 : num_type) : option (Z -> Z -> cell) :=
  match arith_variant full tp1 tp2 tp3 with
  | Some Checked => Some (fun l r => nil_or tp1 tp2 l r (mul_check how tp3 l r))
  | Some Enlarge => Some (fun l r => nil_or tp1 tp2 l r (Val (store tp3 (l * r))))
  | None => None
  end.
Definition div_cell (full : bool) (tp1 tp2 tp3 : num_type) : option (Z -> Z -> cell) :=
  if div_instance full tp1 tp2 tp3 then Some (fun l r => nil_or tp1 tp2 l r (DIV tp3 l r)) else None.
Definition mod_cell (full : bool) (tp1 tp2 tp3 : num_type) : option (Z -> Z -> cell) :=
  if mod_instance full tp1 tp2 tp3 then Some (fun l r => nil_or tp1 tp2 l r (MOD tp3 l r)) else None.

(** ** What a row is worth *)

(** A value of the type: anything the width holds; [proper] when it is not
    nil. *)
Definition typed (tp : num_type) (v : Z) : Prop := num_nil tp <= v <= num_max tp.
Definition proper (tp : num_type) (v : Z) : Prop := num_nil tp < v <= num_max tp.

Lemma typed_proper tp v : typed tp v -> v = num_nil tp \/ proper tp v.
Proof. unfold typed, proper. lia. Qed.

Lemma proper_not_nil tp v : proper tp v -> v <> num_nil tp.
Proof. unfold proper. lia. Qed.

Ltac num_consts :=
  change (num_nil TYPE_bte) with (-128) in *; change (num_max TYPE_bte) with 127 in *;
  change (num_nil TYPE_sht) with (-32768) in *; change (num_max TYPE_sht) with 32767 in *;
  change (num_nil TYPE_int) with (-2147483648) in *; change (num_max TYPE_int) with 2147483647 in *;
  change (num_nil TYPE_lng) with (-9223372036854775808) in *;
  change (num_max TYPE_lng) with 9223372036854775807 in *.

Lemma store_id tp v : typed tp v -> store tp v = v.
Proof.
  unfold typed, store. intros H. apply swrap_id; [destruct tp; reflexivity|].
  unfold srange. destruct tp; cbn in *; lia.
Qed.

(** The verdict on the exact result of an operation. *)
Definition exactly (tp3 : num_type) (v : Z) (c : cell) : Prop :=
  (proper tp3 v /\ c = Val v) \/ (~ proper tp3 v /\ c = Overflow).

(** The operands of the checked instances have types no wider than the
    result's. *)
Lemma ADD_exact tp3 l r : proper tp3 l -> proper tp3 r -> exactly tp3 (l + r) (ADD_WITH_CHECK tp3 l r).
Proof.
  unfold exactly, ADD_WITH_CHECK, GDK_min, GDK_max, proper. rewrite Z.geb_leb. intros Hl Hr.
  ztests; first [right; split; [lia|reflexivity]
                |left; split; [lia|rewrite store_id by (unfold typed; lia); reflexivity]].
Qed.

Lemma SUB_exact tp3 l r : proper tp3 l -> proper tp3 r -> exactly tp3 (l - r) (SUB_WITH_CHECK tp3 l r).
Proof.
  unfold exactly, SUB_WITH_CHECK, GDK_min, GDK_max, proper. rewrite Z.geb_leb. intros Hl Hr.
  ztests; first [right; split; [lia|reflexivity]
                |left; split; [lia|rewrite store_id by (unfold typed; lia); reflexivity]].
Qed.

Lemma MUL4_exact w4 tp3 l r :
  0 < w4 -> srange w4 (l * r) -> exactly tp3 (l * r) (MUL4_WITH_CHECK w4 tp3 l r).
Proof.
  unfold exactly, MUL4_WITH_CHECK, GDK_min, GDK_max, proper. intros Hw R.
  rewrite swrap_id by assumption. rewrite Z.gtb_ltb.
  ztests; first [right; split; [lia|reflexivity]
                |left; split; [lia|rewrite store_id by (unfold typed; lia); reflexivity]].
Qed.

Lemma proper_product k l r : - k < l <= k - 1 -> - k < r <= k - 1 -> 0 < k -> - (2 * k * k) <= l * r < 2 * k * k.
Proof. intros. nia. Qed.

(** ** Multiplication from halves *)

Lemma split_halves a : 0 <= a < 2 ^ 63 ->
  exists h l, u32 (Z.shiftr a 32) = h /\ u32 a = l /\ a = h * 2 ^ 32 + l /\ 0 <= h < 2 ^ 31 /\ 0 <= l < 2 ^ 32.
Proof.
  intros H. exists (a / 2 ^ 32), (a mod 2 ^ 32). rewrite Z.shiftr_div_pow2 by lia.
  pose proof (Z.div_mod a (2 ^ 32)). pose proof (Z.mod_pos_bound a (2 ^ 32)).
  rewrite uwrap_id by divlia. repeat split; try reflexivity; divlia.
Qed.

(** Testing the bits from 31 on, and the top bit. *)
Lemma high_bits_zero c : 0 <= c < 2 ^ 64 -> (Z.land c (u64 (Z.shiftl (2 ^ 64 - 1) 31)) =? 0) = (c <? 2 ^ 31).
Proof.
  intros H. change (u64 (Z.shiftl (2 ^ 64 - 1) 31)) with (Z.shiftl (Z.ones 33) 31).
  apply eq_true_iff_eq. rewrite Z.eqb_eq, Z.ltb_lt. split; intros E.
  - destruct (Z_lt_le_dec c (2 ^ 31)) as [|L]; [assumption|exfalso].
    assert (T : Z.testbit c (Z.log2 c) = true) by (apply Z.bit_log2; lia).
    assert (31 <= Z.log2 c) by (apply Z.log2_le_pow2; lia).
    assert (Z.log2 c < 64) by (apply Z.log2_lt_pow2; lia).
    assert (F : Z.testbit (Z.land c (Z.shiftl (Z.ones 33) 31)) (Z.log2 c) = true).
    { rewrite Z.land_spec, T, Z.shiftl_spec by lia. rewrite Z.testbit_ones by lia. lia. }
    rewrite E, Z.bits_0 in F. discriminate.
  - apply Z.bits_inj'. intros i Hi. rewrite Z.land_spec, Z.bits_0.
    destruct (Z_lt_le_dec i 31) as [L|L].
    + rewrite Z.shiftl_spec_low by lia. apply andb_false_r.
    + rewrite (testbit_small 31 c i) by lia. reflexivity.
Qed.

Lemma top_bit_zero c : 0 <= c < 2 ^ 64 -> (Z.land c (Z.shiftl 1 63) =? 0) = (c <? 2 ^ 63).
Proof.
  intros H. apply eq_true_iff_eq. rewrite Z.eqb_eq, Z.ltb_lt. split; intros E.
  - destruct (Z_lt_le_dec c (2 ^ 63)) as [|L]; [assumption|exfalso].
    assert (F : Z.testbit (Z.land c (Z.shiftl 1 63)) 63 = true).
    { rewrite Z.land_spec. change (Z.testbit (Z.shiftl 1 63) 63) with true. rewrite andb_true_r.
      assert (Z.log2 c = 63) as <- by (apply Z.log2_unique; lia). apply Z.bit_log2. lia. }
    rewrite E, Z.bits_0 in F. discriminate.
  - apply Z.bits_inj'. intros i Hi. rewrite Z.land_spec, Z.bits_0.
    destruct (Z_lt_le_dec i 63) as [L|L].
    + rewrite Z.shiftl_spec_low by lia. apply andb_false_r.
    + rewrite (testbit_small 63 c i) by lia. reflexivity.
Qed.

(** One half being zero, nothing wraps unless the product is too large. *)
Lemma half_product k p :
  0 <= k < 2 ^ 63 -> 0 <= p -> (k < 2 ^ 31 -> k * 2 ^ 32 + p < 2 ^ 64) ->
  let c := u64 k in let c' := u64 (u64 (Z.shiftl c 32) + p) in
  (c <? 2 ^ 31) && (c' <? 2 ^ 63) = (k * 2 ^ 32 + p <? 2 ^ 63)
  /\ ((c <? 2 ^ 31) && (c' <? 2 ^ 63) = true -> c' = k * 2 ^ 32 + p).
Proof.
  intros Hk Hp Hs. cbv zeta. rewrite (uwrap_id 64 k) by lia.
  case Z.ltb_spec; intros L; cbn [andb].
  - specialize (Hs L). rewrite Z.shiftl_mul_pow2 by lia.
    rewrite (uwrap_id 64 (k * 2 ^ 32)) by lia. rewrite uwrap_id by lia. auto.
  - split; [|discriminate]. symmetry. apply Z.ltb_ge. lia.
Qed.

(** The product of two magnitudes: what the tests accept and compute. *)
Lemma halves_product a b :
  0 <= a < 2 ^ 63 -> 0 <= b < 2 ^ 63 ->
  let a1 := u32 (Z.shiftr a 32) in let a2 := u32 a in
  let b1 := u32 (Z.shiftr b 32) in let b2 := u32 b in
  let c := u64 (a1 * b2 + a2 * b1) in
  let c' := u64 (u64 (Z.shiftl c 32) + a2 * b2) in
  let ok := ((a1 =? 0) || (b1 =? 0))
            && (Z.land c (u64 (Z.shiftl (2 ^ 64 - 1) 31)) =? 0)
            && (Z.land c' (Z.shiftl 1 63) =? 0) in
  ok = (a * b <? 2 ^ 63) /\ (ok = true -> c' = a * b).
Proof.
  intros Ha Hb. cbv zeta.
  destruct (split_halves a Ha) as (a1 & a2 & -> & -> & Ea & Ba1 & Ba2).
  destruct (split_halves b Hb) as (b1 & b2 & -> & -> & Eb & Bb1 & Bb2).
  rewrite high_bits_zero by (apply Z.mod_pos_bound; lia).
  rewrite top_bit_zero by (apply Z.mod_pos_bound; lia).
  assert (E : a1 = 0 \/ b1 = 0 -> a * b = (a1 * b2 + a2 * b1) * 2 ^ 32 + a2 * b2) by nia.
  destruct (Z.eqb_spec a1 0) as [A0|A0]; [|destruct (Z.eqb_spec b1 0) as [B0|B0]]; cbn [orb andb].
  - rewrite E by tauto. apply half_product; nia.
  - rewrite E by tauto. apply half_product; nia.
  - split; [|discriminate]. symmetry. apply Z.ltb_ge. nia.
Qed.

Lemma LNGMUL_exact l r :
  proper TYPE_lng l -> proper TYPE_lng r -> exactly TYPE_lng (l * r) (LNGMUL_CHECK l r).
Proof.
  intros Hl Hr. unfold LNGMUL_CHECK.
  set (a := if l <? 0 then _ else _). set (b := if r <? 0 then i64 _ else _).
  set (s1 := if l <? 0 then -1 else 1). set (s2 := if r <? 0 then - s1 else s1).
  unfold proper in Hl, Hr. change (num_nil TYPE_lng) with (- 2 ^ 63) in *.
  change (num_max TYPE_lng) with (2 ^ 63 - 1) in *.
  assert (A : a = Z.abs l) by (unfold a; ztests; rewrite ?i64_id by lia; lia).
  assert (B : b = Z.abs r) by (unfold b; ztests; rewrite ?i64_id by lia; lia).
  assert (S : (s2 = 1 \/ s2 = -1) /\ l * r = s2 * (a * b)).
  { rewrite A, B. unfold s2, s1. ztests; nia. }
  destruct (halves_product a b) as [P Q]; [lia|lia|]. cbv zeta in *. rewrite P in *.
  assert (0 <= a * b) by nia. unfold exactly, proper.
  case Z.ltb_spec; intros L.
  - left. rewrite Q by lia. rewrite (i64_id (a * b)), i64_id by lia.
    change (num_nil TYPE_lng) with (- 2 ^ 63). change (num_max TYPE_lng) with (2 ^ 63 - 1).
    split; [lia|]. f_equal. lia.
  - right. change (num_nil TYPE_lng) with (- 2 ^ 63). change (num_max TYPE_lng) with (2 ^ 63 - 1).
    split; [lia|reflexivity].
Qed.

(** ** Rows of the arithmetic operators *)

(** A row is nil when an operand is, and otherwise holds the exact result or is
    an overflow, whichever the type of the result demands. *)
Definition row_exact (op : Z -> Z -> Z) (tp1 tp2 tp3 : num_type) (f : Z -> Z -> cell) : Prop :=
  forall l r, typed tp1 l -> typed tp2 r ->
    (l = num_nil tp1 \/ r = num_nil tp2 -> f l r = NilCell)
    /\ (proper tp1 l -> proper tp2 r -> exactly tp3 (op l r) (f l r)).

Lemma proper_wider tp tp' v : ATOMsize tp <= ATOMsize tp' -> proper tp v -> proper tp' v.
Proof. unfold proper. destruct tp, tp'; cbn; lia. Qed.

Lemma nil_or_exact op tp1 tp2 tp3 c :
  (forall l r, proper tp1 l -> proper tp2 r -> exactly tp3 (op l r) (c l r)) ->
  row_exact op tp1 tp2 tp3 (fun l r => nil_or tp1 tp2 l r (c l r)).
Proof.
  intros H l r Tl Tr. unfold nil_or. split.
  - intros [-> | ->]; rewrite Z.eqb_refl; [reflexivity|]. now rewrite orb_true_r.
  - intros Pl Pr. rewrite (proj2 (Z.eqb_neq l _)), (proj2 (Z.eqb_neq r _))
      by (eapply proper_not_nil; eassumption). now apply H.
Qed.

Lemma enlarge_exact op tp1 tp2 tp3 :
  (forall l r, proper tp1 l -> proper tp2 r -> proper tp3 (op l r)) ->
  row_exact op tp1 tp2 tp3 (fun l r => nil_or tp1 tp2 l r (Val (store tp3 (op l r)))).
Proof.
  intros H. apply nil_or_exact. intros l r Pl Pr. left. specialize (H l r Pl Pr).
  split; [assumption|]. rewrite store_id; [reflexivity|]. unfold proper, typed in *. lia.
Qed.

Lemma variant_sizes full tp1 tp2 tp3 v :
  arith_variant full tp1 tp2 tp3 = Some v ->
  ATOMsize tp1 <= ATOMsize tp3 /\ ATOMsize tp2 <= ATOMsize tp3
  /\ (v = Enlarge -> 2 * ATOMsize tp1 <= ATOMsize tp3 /\ 2 * ATOMsize tp2 <= ATOMsize tp3).
Proof.
  destruct tp1, tp2, tp3, full; cbn; intros E; try discriminate; injection E as <-;
    repeat split; try lia; try discriminate; intros; lia.
Qed.

Lemma MUL128_exact l r :
  proper TYPE_lng l -> proper TYPE_lng r -> exactly TYPE_lng (l * r) (MUL128 l r).
Proof.
  intros _ _. unfold exactly, proper, MUL128. rewrite Z.shiftr_div_pow2 by lia. num_consts.
  set (p := l * r). change (2 ^ 64) with 18446744073709551616.
  destruct (_ || _) eqn:E.
  - left. rewrite orb_true_iff, !andb_true_iff, negb_true_iff in E. unfold swrap in *.
    change (2 ^ 64) with 18446744073709551616 in *. change (2 ^ (64 - 1)) with 9223372036854775808 in *.
    change lng_nil with (-9223372036854775808) in *.
    destruct E as [[E1 E2]|[[E1 E2] E3]]; breflect; (split; [divlia|f_equal; divlia]).
  - right. split; [|reflexivity]. intros [L H].
    rewrite (i64_id p) in E by lia. rewrite orb_false_iff, !andb_false_iff, negb_false_iff in E.
    change lng_nil with (-9223372036854775808) in *. destruct E as [[E1|E1] [[E2|E2]|E2]]; breflect; divlia.
Qed.

Lemma mul_check_exact how tp3 l r :
  proper tp3 l -> proper tp3 r -> exactly tp3 (l * r) (mul_check how tp3 l r).
Proof.
  intros Hl Hr. destruct tp3; cbn [mul_check]; [| | |destruct how; [|now apply MUL128_exact|now apply LNGMUL_exact]];
    (apply MUL4_exact; [lia|]); unfold proper in *; num_consts; unfold srange;
    match goal with |- context [2 ^ (?w - 1)] => let x := eval cbv in (2 ^ (w - 1)) in
                                                 change (2 ^ (w - 1)) with x end; nia.
Qed.

(** Wide results have room for any sum, difference or product. *)
Lemma enlarge_room tp1 tp2 tp3 l r :
  2 * ATOMsize tp1 <= ATOMsize tp3 -> 2 * ATOMsize tp2 <= ATOMsize tp3 ->
  proper tp1 l -> proper tp2 r ->
  proper tp3 (l + r) /\ proper tp3 (l - r) /\ proper tp3 (l * r).
Proof.
  unfold proper. destruct tp3; intros A B Hl Hr.
  - exfalso. destruct tp1; cbn in *; lia.
  - assert (-128 < l <= 127 /\ -128 < r <= 127) by (destruct tp1, tp2; cbn in *; lia).
    clear Hl Hr. num_consts. nia.
  - assert (-32768 < l <= 32767 /\ -32768 < r <= 32767) by (destruct tp1, tp2; cbn in *; lia).
    clear Hl Hr. num_consts. nia.
  - assert (-2147483648 < l <= 2147483647 /\ -2147483648 < r <= 2147483647)
      by (destruct tp1, tp2; cbn in *; lia).
    clear Hl Hr. num_consts. nia.
Qed.

(** C31: Addition, subtraction and multiplication are exact for every supported
    combination of integer types, with and without FULL_IMPLEMENTATION and
    128-bit integers: a row is nil when an operand is nil, the exact result
    when the type of the result can hold it without its nil pattern, and an
    overflow otherwise; a result of the wider operand's size, or of twice that
    size, is always supported. *)
Theorem arith_rows_exact full how tp1 tp2 tp3 :
  (forall f, add_cell full tp1 tp2 tp3 = Some f -> row_exact Z.add tp1 tp2 tp3 f)
  /\ (forall f, sub_cell full tp1 tp2 tp3 = Some f -> row_exact Z.sub tp1 tp2 tp3 f)
  /\ (forall f, mul_cell full how tp1 tp2 tp3 = Some f -> row_exact Z.mul tp1 tp2 tp3 f)
  /\ (ATOMsize tp3 = ATOMsize (wider tp1 tp2) \/ ATOMsize tp3 = 2 * ATOMsize (wider tp1 tp2) ->
      add_cell full tp1 tp2 tp3 <> None /\ sub_cell full tp1 tp2 tp3 <> None
      /\ mul_cell full how tp1 tp2 tp3 <> None).
Proof.
  unfold add_cell, sub_cell, mul_cell.
  destruct (arith_variant full tp1 tp2 tp3) as [v|] eqn:V.
  - destruct (variant_sizes _ _ _ _ _ V) as (S1 & S2 & S).
    split; [|split; [|split; [|intros _; repeat split; now destruct v]]];
      intros f E; destruct v; injection E as <-.
    all: try (apply nil_or_exact; intros l r Hl Hr;
              first [apply ADD_exact|apply SUB_exact|apply mul_check_exact]; solve [now apply (proper_wider tp1)|now apply (proper_wider tp2)]).
    all: destruct (S eq_refl); apply enlarge_exact; intros l r Hl Hr; now apply (enlarge_room tp1 tp2 tp3 l r).
  - split; [discriminate|]. split; [discriminate|]. split; [discriminate|].
    intros W. exfalso. revert V. unfold arith_variant.
    destruct W as [-> | ->]; rewrite Z.eqb_refl; [discriminate|]. destruct (_ =? _); discriminate.
Qed.

Lemma arith_rows_exact_witness :
  match add_cell false TYPE_bte TYPE_sht TYPE_sht with
  | Some f => exactly TYPE_sht (100 + 32700) (f 100 32700) /\ f 100 32700 = Overflow
  | None => False
  end.
Proof.
  pose proof (proj1 (arith_rows_exact false ByParts TYPE_bte TYPE_sht TYPE_sht) _ eq_refl) as R.
  cbv beta delta [add_cell arith_variant] in *. split; [|reflexivity].
  apply (R 100 32700); unfold typed, proper; cbn; lia.
Defined.

(** The product of two [lng]s made from 32-bit halves, which is what runs
    where the compiler has no 128-bit integers, is for all operands the same
    as those made with 128-bit integers and with [_mul128]: the same values, the same
    overflows. *)
Theorem lng_products_agree l r (Hl : proper TYPE_lng l) (Hr : proper TYPE_lng r) :
  LNGMUL_CHECK l r = MUL4_WITH_CHECK 128 TYPE_lng l r /\ MUL128 l r = MUL4_WITH_CHECK 128 TYPE_lng l r.
Proof.
  pose proof (LNGMUL_exact l r Hl Hr) as A. pose proof (MUL128_exact l r Hl Hr) as C.
  pose proof (mul_check_exact ByInt128 TYPE_lng l r Hl Hr) as B. cbn [mul_check] in B.
  split; [destruct A as [[P E]|[P E]]|destruct C as [[P E]|[P E]]]; destruct B as [[P' E']|[P' E']];
    (contradiction || congruence).
Qed.

Lemma lng_products_agree_witness :
  LNGMUL_CHECK (-3037000500) 3037000500 = MUL4_WITH_CHECK 128 TYPE_lng (-3037000500) 3037000500
  /\ LNGMUL_CHECK (-3037000500) 3037000500 = Overflow.
Proof.
  split; [|reflexivity].
  apply lng_products_agree; unfold proper; num_consts; lia.
Defined.

(** ** Division and modulo *)

Lemma quot_proper tp l r : proper tp l -> r <> 0 -> proper tp (Z.quot l r).
Proof.
  unfold proper. intros Hl Hr.
  assert (A : Z.abs (Z.quot l r) <= Z.abs l).
  { rewrite <- Z.quot_abs by assumption.
    apply Z.quot_le_upper_bound; [lia|]. nia. }
  destruct tp; num_consts; lia.
Qed.

Lemma rem_proper tp1 tp2 tp3 l r :
  proper tp2 r -> r <> 0 -> typed tp3 l ->
  ATOMsize (narrower tp1 tp2) <= ATOMsize tp3 -> (ATOMsize tp1 < ATOMsize tp2 -> l <> num_nil tp3) ->
  proper tp3 (Z.rem l r).
Proof.
  intros Hr R Hl S N.
  assert (A : Z.abs (Z.rem l r) < Z.abs r) by (now apply Z.rem_bound_abs).
  assert (B : Z.abs (Z.rem l r) <= Z.abs l).
  { rewrite <- Z.rem_abs by assumption. apply Z.rem_le; lia. }
  unfold proper, typed in *.
  destruct tp1, tp2, tp3; cbn in S, N; num_consts; lia.
Qed.

(** Division yields the quotient rounded towards zero, which always fits
    the result.  Modulo yields the remainder only of a dividend that fits the
    type of the result, which is that of the narrower operand: the dividend is
    cast to it first, so in every instance whose result is narrower than the
    dividend some remainder is wrong.  A zero divisor is an error in both, and
    nil operands give nil. *)
Theorem div_mod_rows full tp1 tp2 tp3 l r (Hl : typed tp1 l) (Hr : typed tp2 r) :
  (forall f, div_cell full tp1 tp2 tp3 = Some f ->
     (l = num_nil tp1 \/ r = num_nil tp2 -> f l r = NilCell)
     /\ (proper tp1 l -> r = 0 -> f l r = Overflow)
     /\ (proper tp1 l -> proper tp2 r -> r <> 0 ->
         f l r = Val (Z.quot l r) /\ proper tp3 (Z.quot l r)))
  /\ (forall f, mod_cell full tp1 tp2 tp3 = Some f ->
     (l = num_nil tp1 \/ r = num_nil tp2 -> f l r = NilCell)
     /\ (proper tp1 l -> r = 0 -> f l r = Overflow)
     /\ (proper tp1 l -> proper tp2 r -> r <> 0 -> proper tp3 l -> f l r = Val (Z.rem l r))
     /\ (ATOMsize tp3 < ATOMsize tp1 ->
         exists l' v, proper tp1 l' /\ proper tp2 3 /\ f l' 3 = Val v /\ v <> Z.rem l' 3)).
Proof.
  assert (Z3 : r = 0 -> r <> num_nil tp2) by (intros ->; destruct tp2; discriminate).
  assert (Nil : forall c, l = num_nil tp1 \/ r = num_nil tp2 -> nil_or tp1 tp2 l r c = NilCell).
  { intros c. unfold nil_or. intros [-> | ->]; rewrite Z.eqb_refl; [reflexivity|]. now rewrite orb_true_r. }
  assert (Run : forall l r c, proper tp1 l -> r <> num_nil tp2 -> nil_or tp1 tp2 l r c = c).
  { intros l0 r0 c P Q. unfold nil_or.
    now rewrite (proj2 (Z.eqb_neq l0 _)), (proj2 (Z.eqb_neq r0 _)) by (auto using proper_not_nil). }
  unfold div_cell, mod_cell. split; intros f E.
  - destruct (div_instance full tp1 tp2 tp3) eqn:D; [|discriminate]. injection E as <-.
    split; [apply Nil|]. unfold DIV. split.
    + intros P ->. rewrite Run by auto. reflexivity.
    + intros P Q R. rewrite Run by auto using proper_not_nil.
      rewrite (proj2 (Z.eqb_neq r 0)) by assumption.
      assert (W : proper tp3 (Z.quot l r)).
      { apply (proper_wider tp1); [|now apply quot_proper].
        revert D. unfold div_instance. destruct full, tp1, tp3; cbn; lia. }
      split; [|exact W]. rewrite store_id; [reflexivity|]. unfold proper, typed in *. lia.
  - destruct (mod_instance full tp1 tp2 tp3) eqn:D; [|discriminate]. injection E as <-.
    assert (S : ATOMsize (narrower tp1 tp2) <= ATOMsize tp3)
      by (revert D; unfold mod_instance; destruct full, tp1, tp2, tp3; cbn; lia).
    split; [apply Nil|]. unfold MOD. split; [|split].
    + intros P ->. rewrite Run by auto. reflexivity.
    + intros P Q R P3. rewrite Run by auto using proper_not_nil.
      rewrite (proj2 (Z.eqb_neq r 0)) by assumption.
      assert (T : typed tp3 l) by (unfold proper, typed in *; lia).
      rewrite (store_id tp3 l) by exact T. rewrite store_id; [reflexivity|].
      assert (proper tp3 (Z.rem l r)) by (apply (rem_proper tp1 tp2); auto using proper_not_nil).
      unfold proper, typed in *. lia.
    + intros L. exists (num_max tp3 + 1).
      destruct tp1, tp3; cbn in L; try lia; eexists; unfold proper;
        (split; [num_consts; lia|]; split; [destruct tp2; num_consts; lia|];
         rewrite Run by (unfold proper; num_consts; first [lia|destruct tp2; discriminate]);
         split; [vm_compute; reflexivity|vm_compute; discriminate]).
Qed.

Lemma div_mod_rows_witness :
  (exists f, mod_cell false TYPE_sht TYPE_bte TYPE_bte = Some f /\ f 300 7 = Val 2
     /\ Z.rem 300 7 = 6
     /\ (proper TYPE_sht 100 -> proper TYPE_bte 7 -> 7 <> 0 -> proper TYPE_bte 100 -> f 100 7 = Val (Z.rem 100 7))).
Proof.
  eexists. split; [reflexivity|]. split; [vm_compute; reflexivity|]. split; [reflexivity|].
  assert (typed TYPE_sht 100 /\ typed TYPE_bte 7) as [A B] by (unfold typed; num_consts; lia).
  exact (proj1 (proj2 (proj2 (proj2 (div_mod_rows false TYPE_sht TYPE_bte TYPE_bte 100 7 A B) _ eq_refl)))).
Defined.

(** ** Logic and shifts *)

Inductive tri := TFalse | TNil | TTrue.

(** The truth value of a [bit]: anything but 0 and nil is true. *)
Definition truth (v : Z) : tri := if v =? 0 then TFalse else if v =? bit_nil then TNil else TTrue.
Definition tri_cell (c : cell) : tri := match c with Val v => truth v | _ => TNil end.

(** Kleene's connectives: minimum and maximum of false < nil < true. *)
Definition kleene_and (a b : tri) : tri :=
  match a, b with
  | TFalse, _ | _, TFalse => TFalse
  | TTrue, TTrue => TTrue
  | _, _ => TNil
  end.
Definition kleene_or (a b : tri) : tri :=
  match a, b with
  | TTrue, _ | _, TTrue => TTrue
  | TFalse, TFalse => TFalse
  | _, _ => TNil
  end.

Lemma low_bits v : typed TYPE_bte v -> (Z.land v 127 =? 0) = (v =? 0) || (v =? bit_nil).
Proof.
  unfold typed. num_consts. intros H. apply eqb_prop.
  apply (zrange_check (fun v => Bool.eqb (Z.land v 127 =? 0) ((v =? 0) || (v =? bit_nil))) (-128) 256);
    [vm_compute; reflexivity|lia].
Qed.

(** C34: The operators and, or on the type [bit] are Kleene's connectives of three
    truth values, on every value a [bit] can have: what the code decides by tests
    on single bits is the disjunction, or conjunction, with nil as unknown. *)
Theorem bit_logic_kleene l r (Hl : typed TYPE_bte l) (Hr : typed TYPE_bte r) :
  tri_cell (or_bit l r) = kleene_or (truth l) (truth r)
  /\ tri_cell (and_bit l r) = kleene_and (truth l) (truth r).
Proof.
  unfold or_bit, and_bit. rewrite !low_bits by assumption. unfold truth.
  destruct (Z.eqb_spec l 0), (Z.eqb_spec l bit_nil), (Z.eqb_spec r 0), (Z.eqb_spec r bit_nil);
    split; reflexivity.
Qed.

Lemma bit_logic_kleene_witness :
  tri_cell (or_bit 0 bit_nil) = TNil /\ tri_cell (or_bit 7 bit_nil) = TTrue.
Proof.
  split; [exact (proj1 (bit_logic_kleene 0 bit_nil ltac:(vm_compute; intuition discriminate)
                          ltac:(vm_compute; intuition discriminate)))|reflexivity].
Defined.

(** The unary operators, on a value that is not nil. *)
Definition NOT (tp : num_type) (x : Z) : Z := store tp (Z.lnot x).
Definition NOTBIT (x : Z) : Z := if x =? 0 then 1 else 0.
Definition NEGATE (tp : num_type) (x : Z) : Z := store tp (- x).
Definition ABSOLUTE (tp : num_type) (x : Z) : Z := store tp (if x <? 0 then - x else x).
Definition ISZERO (x : Z) : Z := if x =? 0 then 1 else 0.
Definition SIGN (x : Z) : Z := if x <? 0 then -1 else if x >? 0 then 1 else 0.

Lemma land_le a x : 0 <= a -> 0 <= Z.land a x <= a.
Proof.
  intros H. split; [apply Z.land_nonneg; auto|].
  assert (N : Z.land (Z.ldiff a x) (Z.land a x) = 0).
  { apply Z.bits_inj'. intros i Hi. rewrite !Z.land_spec, Z.ldiff_spec, Z.bits_0.
    destruct (Z.testbit a i), (Z.testbit x i); reflexivity. }
  pose proof (Z.lor_ldiff_and a x) as E. rewrite <- (Z.lxor_lor _ _ N) in E.
  rewrite <- (Z.add_nocarry_lxor _ _ N) in E.
  assert (0 <= Z.ldiff a x) by (apply Z.ldiff_nonneg; auto). lia.
Qed.

Lemma lor_neg_ge l r : l < 0 -> l <= Z.lor l r < 0.
Proof.
  intros H. assert (E : Z.lnot (Z.lor l r) = Z.land (Z.lnot l) (Z.lnot r)) by apply Z.lnot_lor.
  unfold Z.lnot in *. pose proof (land_le (Z.pred (- l)) (Z.pred (- r))). lia.
Qed.

Lemma lor_proper tp l r : proper tp l -> proper tp r -> proper tp (Z.lor l r).
Proof.
  intros Hl Hr. unfold proper in *.
  destruct (Z_lt_le_dec l 0) as [L|L]; [|destruct (Z_lt_le_dec r 0) as [R|R]].
  - pose proof (lor_neg_ge l r L). destruct tp; num_consts; lia.
  - pose proof (lor_neg_ge r l R). rewrite Z.lor_comm. destruct tp; num_consts; lia.
  - assert (0 <= Z.lor l r) by (apply Z.lor_nonneg; auto).
    assert (K : num_max tp = 2 ^ (8 * ATOMsize tp - 1) - 1) by reflexivity.
    assert (0 <= 8 * ATOMsize tp - 1) by (destruct tp; cbn; lia).
    assert (num_nil tp < 0) by (destruct tp; reflexivity).
    rewrite K in *. set (k := 8 * ATOMsize tp - 1) in *.
    split; [lia|]. destruct (Z.eq_dec (Z.lor l r) 0); [lia|].
    assert (Z.lor l r < 2 ^ k); [|lia]. apply Z.log2_lt_pow2; [lia|]. rewrite Z.log2_lor by assumption.
    assert (B : forall x, 0 <= x < 2 ^ k -> Z.log2 x < k \/ Z.log2 x = 0).
    { intros x Hx. destruct (Z.eq_dec x 0) as [->|]; [now right|left]. apply Z.log2_lt_pow2; lia. }
    assert (0 < k) by (unfold k; destruct tp; cbn; lia).
    destruct (B l), (B r); lia.
Qed.

Lemma shiftr_proper tp l k : proper tp l -> 0 <= k -> proper tp (Z.shiftr l k).
Proof.
  intros Hl Hk. rewrite Z.shiftr_div_pow2 by assumption.
  assert (0 < 2 ^ k) by (apply Z.pow_pos_nonneg; lia). unfold proper in *.
  assert (- Z.abs l <= l / 2 ^ k <= Z.abs l) by (split; [apply Z.div_le_lower_bound; nia|apply Z.div_le_upper_bound; nia]).
  destruct tp; num_consts; try lia.
Qed.

(** Which operators can make the nil pattern out of operands that are not
    nil, so that it goes uncounted.  The bitwise or, the shift to the right,
    negation and the absolute value never do, and their results are exact; the
    bitwise complement, exclusive or, and, and the shift to the left do so for
    some operands of every integer type. *)
Theorem unflagged_nils tp :
  (forall l r, proper tp l -> proper tp r ->
     OR tp l r = Val (Z.lor l r) /\ proper tp (Z.lor l r)
     /\ (0 <= r < bits tp -> RSH tp l r = Val (l / 2 ^ r) /\ proper tp (l / 2 ^ r))
     /\ NEGATE tp l = - l /\ proper tp (- l)
     /\ ABSOLUTE tp l = Z.abs l /\ proper tp (Z.abs l))
  /\ (exists v, proper tp v /\ NOT tp v = num_nil tp)
  /\ (exists l r, proper tp l /\ proper tp r /\ XOR tp l r = Val (num_nil tp))
  /\ (exists l r, proper tp l /\ proper tp r /\ AND tp l r = Val (num_nil tp))
  /\ (exists l r, proper tp l /\ proper tp r /\ LSH tp l r = Val (num_nil tp)).
Proof.
  assert (St : forall v, proper tp v -> store tp v = v)
    by (intros v H; apply store_id; unfold proper, typed in *; lia).
  split; [|split; [|split; [|split]]].
  - intros l r Hl Hr. unfold OR, RSH, NEGATE, ABSOLUTE, SHIFT_CHECK, bits.
    assert (Neg : proper tp (- l) /\ proper tp (Z.abs l)) by (unfold proper in *; destruct tp; num_consts; lia).
    pose proof (lor_proper tp l r Hl Hr). split; [now rewrite St|]. split; [assumption|].
    split; [|split; [apply St; tauto|split; [tauto|split; [|tauto]]]].
    + intros R. replace (r <? 0) with false by lia. rewrite Z.geb_leb.
      replace (8 * ATOMsize tp <=? r) with false by lia. cbn [orb].
      pose proof (shiftr_proper tp l r Hl ltac:(lia)) as S.
      rewrite St by exact S. rewrite Z.shiftr_div_pow2 in * by lia. auto.
    + replace (if l <? 0 then - l else l) with (Z.abs l) by (ztests; lia). apply St. tauto.
  - exists (num_max tp). unfold proper. destruct tp; split; reflexivity || (num_consts; lia).
  - exists (num_nil tp + 1), 1. unfold proper. destruct tp; (split; [num_consts; lia|]); (split; [num_consts; lia|reflexivity]).
  - exists (num_nil tp + 1), (num_nil tp + 2). unfold proper.
    destruct tp; (split; [num_consts; lia|]); (split; [num_consts; lia|reflexivity]).
  - exists (num_max tp / 2 + 1), 1. unfold proper.
    destruct tp; (split; [vm_compute; intuition discriminate|]); (split; [num_consts; lia|reflexivity]).
Qed.

Lemma unflagged_nils_witness :
  AND TYPE_bte (-127) (-126) = Val (num_nil TYPE_bte)
  /\ OR TYPE_bte (-127) (-126) = Val (Z.lor (-127) (-126)).
Proof.
  split; [reflexivity|].
  apply (proj1 (unflagged_nils TYPE_bte) (-127) (-126)); unfold proper; num_consts; lia.
Defined.

