(* ===== verification/CalcLoop.v ===== *)
(** * The loops of column arithmetic

    gdk/gdk_calc_private.h, [CANDINIT], and the loops of gdk/gdk_calc.c that
    run over two columns (or a column and a constant) or over one, with or
    without a candidate list: [ADD_3TYPE] and its relatives,
    [BINARY_3TYPE_FUNC], [BINARY_3TYPE_FUNC_nonil],
    [BINARY_3TYPE_FUNC_CHECK], [UNARY_2TYPE_FUNC].  What a row becomes is a
    parameter, a cell of [Arith]. *)

From Stdlib Require Import ZArith Lia Bool List Sorted.
Import ListNotations.
From S2P Require Import Prelude Atoms Convert Arith.

Open Scope Z_scope.
Open Scope list_scope.

(** ** Candidate lists *)

(** The tail of the candidate column: dense from an oid on, or listed. *)
Inductive cands := Dense (seq : Z) (count : nat) | Oids (oids : list Z).

Definition cands_count (s : cands) : nat :=
  match s with Dense _ n => n | Oids l => List.length l end.

(** The oids that are candidates. *)
Definition candidate (s : option cands) (o : Z) : Prop :=
  match s with
  | None => True
  | Some (Dense q n) => q <= o < q + Z.of_nat n
  | Some (Oids l) => In o l
  end.

(** [start], [end] and [cand] for a column that counts [cnt] rows from oid
    [hseq] on. *)
Definition CANDINIT (hseq : Z) (cnt : nat) (s : option cands) : nat * nat * option (list Z) :=
  match s with
  | None => (O, cnt, None)
  | Some s =>
      if (cands_count s =? 0)%nat then (O, O, None)
      else
        let '(start, end_, cand) :=
          match s with
          | Dense q n => (q, q + Z.of_nat n, None)
          | Oids l => (hd 0 l, last l 0 + 1, Some l)
          end in
        let lo := hseq in let hi := hseq + Z.of_nat cnt in
        let start := if start <=? lo then 0 else if start >=? hi then Z.of_nat cnt else start - lo in
        let end_ := if end_ >=? hi then Z.of_nat cnt else if end_ <=? lo then 0 else end_ - lo in
        (Z.to_nat start, Z.to_nat end_, cand)
  end.

(** What the loops rely on: listed candidates ascend and are rows of the
    column. *)
Definition cands_ok (hseq : Z) (cnt : nat) (s : option cands) : Prop :=
  match s with
  | Some (Oids l) => StronglySorted Z.lt l /\ Forall (fun o => hseq <= o < hseq + Z.of_nat cnt) l
  | _ => True
  end.

(** The row [j] is computed. *)
Definition chosen_row (start e : nat) (sel : nat -> bool) (j : nat) : bool :=
  Nat.leb start j && Nat.ltb j e && sel j.

Lemma ascending_hd_last l o : StronglySorted Z.lt l -> In o l -> hd 0 l <= o <= last l 0.
Proof.
  induction 1 as [|x l S IH F]; [intros []|]. rewrite Forall_forall in F.
  intros [->|I]; cbn [hd].
  - split; [lia|]. destruct l as [|y l]; [cbn; lia|].
    assert (I : In (last (y :: l) 0) (y :: l)).
    { destruct (exists_last (l := y :: l) ltac:(discriminate)) as (a & b & ->). rewrite last_last. apply in_elt. }
    specialize (F _ I). change (last (o :: y :: l) 0) with (last (y :: l) 0). lia.
  - specialize (IH I). specialize (F o I). destruct l as [|y l]; [destruct I|].
    change (last (x :: y :: l) 0) with (last (y :: l) 0). lia.
Qed.

Lemma oids_bounds hseq cnt l :
  Forall (fun o => hseq <= o < hseq + Z.of_nat cnt) l -> l <> [] ->
  (hseq <= hd 0 l < hseq + Z.of_nat cnt) /\ (hseq <= last l 0 < hseq + Z.of_nat cnt).
Proof.
  rewrite Forall_forall. intros F N. split; apply F.
  - destruct l; [contradiction|now left].
  - destruct (exists_last N) as (a & b & ->). rewrite last_last. apply in_elt.
Qed.

Lemma CANDINIT_oids hseq cnt l :
  Forall (fun o => hseq <= o < hseq + Z.of_nat cnt) l -> l <> [] ->
  CANDINIT hseq cnt (Some (Oids l)) = (Z.to_nat (hd 0 l - hseq), Z.to_nat (last l 0 + 1 - hseq), Some l).
Proof.
  intros F N. destruct (oids_bounds hseq cnt l F N) as [B1 B2].
  cbn [CANDINIT cands_count]. replace (List.length l =? 0)%nat with false
    by (destruct l; [contradiction|reflexivity]).
  rewrite !Z.geb_leb. set (st := if hd 0 l <=? hseq then _ else _). set (en := if _ <=? last l 0 + 1 then _ else _).
  assert (st = hd 0 l - hseq) as -> by (unfold st; ztests).
  assert (en = last l 0 + 1 - hseq) as -> by (unfold en; ztests). reflexivity.
Qed.

(** Oids as rows. *)
Lemma oids_rows hseq cnt l :
  StronglySorted Z.lt l -> Forall (fun o => hseq <= o < hseq + Z.of_nat cnt) l ->
  let ps := map (fun o => Z.to_nat (o - hseq)) l in
  StronglySorted lt ps /\ map (fun p => hseq + Z.of_nat p) ps = l
  /\ forall j, chosen ps j = true <-> In (hseq + Z.of_nat j) l.
Proof.
  intros S F. cbv zeta. rewrite Forall_forall in F.
  assert (M : map (fun p => hseq + Z.of_nat p) (map (fun o => Z.to_nat (o - hseq)) l) = l).
  { rewrite map_map. rewrite <- (map_id l) at 2. apply map_ext_in. intros o I. specialize (F o I). lia. }
  split; [|split; [exact M|]].
  - clear M. induction S as [|x l S IH G]; [constructor|]. cbn [map].
    rewrite Forall_forall in G. constructor.
    + apply IH. intros o I. apply F. now right.
    + apply Forall_map, Forall_forall. intros o I. specialize (G o I).
      pose proof (F x (or_introl eq_refl)). pose proof (F o (or_intror I)). lia.
  - intros j. unfold chosen. rewrite existsb_exists. split.
    + intros (p & I & E). apply Nat.eqb_eq in E. subst p. rewrite <- M.
      now apply (in_map (fun p => hseq + Z.of_nat p)).
    + intros I. exists j. split; [|apply Nat.eqb_refl].
      apply (in_map (fun o => Z.to_nat (o - hseq))) in I.
      now replace (Z.to_nat (hseq + Z.of_nat j - hseq)) with j in I by lia.
Qed.

Lemma in_last_ge ps j : StronglySorted lt ps -> In j ps -> (j <= last ps 0)%nat.
Proof.
  induction 1 as [|p ps S IH F]; [intros []|]. intros [->|I].
  - apply last_lt. now constructor.
  - destruct ps as [|q ps]; [destruct I|]. apply IH, I.
Qed.

(** The rows [selects] gives a loop are those whose oid is a candidate. *)
Definition describes (hseq : Z) (cnt : nat) (s : option cands) (start end_ : nat) (cand : option (list Z)) : Prop :=
  exists sel e, selects start end_ hseq cand sel e /\ (end_ <= cnt)%nat
    /\ forall j, (j < cnt)%nat -> (chosen_row start e sel j = true <-> candidate s (hseq + Z.of_nat j)).

Lemma describes_all hseq cnt s start end_ :
  (start <= end_ <= cnt)%nat ->
  (forall j, (j < cnt)%nat -> ((start <= j < end_)%nat <-> candidate s (hseq + Z.of_nat j))) ->
  describes hseq cnt s start end_ None.
Proof.
  intros L H. exists (fun _ => true), end_. split; [apply sel_all; lia|]. split; [lia|].
  intros j Hj. rewrite <- (H j Hj). unfold chosen_row. rewrite !andb_true_iff, Nat.leb_le, Nat.ltb_lt. tauto.
Qed.

Lemma describes_dense hseq cnt q n start end_ cand :
  CANDINIT hseq cnt (Some (Dense q n)) = (start, end_, cand) -> (0 < n)%nat ->
  describes hseq cnt (Some (Dense q n)) start end_ cand.
Proof.
  intros E N. revert E. cbn [CANDINIT cands_count]. replace (n =? 0)%nat with false
    by (symmetry; apply Nat.eqb_neq; lia).
  rewrite !Z.geb_leb. set (st := if q <=? hseq then _ else _). set (en := if _ <=? q + _ then _ else _).
  intros E. injection E as <- <- <-.
  assert (B : 0 <= st <= en /\ en <= Z.of_nat cnt
    /\ forall j, 0 <= j < Z.of_nat cnt -> (st <= j < en <-> q <= hseq + j < q + Z.of_nat n)).
  { unfold st, en. ztests; split; try lia; split; try lia; intros; lia. }
  clearbody st en. destruct B as (B1 & B2 & B3).
  apply describes_all; [lia|]. intros j Hj. cbn [candidate]. specialize (B3 (Z.of_nat j)). lia.
Qed.

Lemma describes_oids hseq cnt l start end_ cand :
  0 <= hseq -> hseq + Z.of_nat cnt < 2 ^ 64 -> cands_ok hseq cnt (Some (Oids l)) -> l <> [] ->
  CANDINIT hseq cnt (Some (Oids l)) = (start, end_, cand) ->
  describes hseq cnt (Some (Oids l)) start end_ cand.
Proof.
  intros H0 H1 [S F] NL E. rewrite CANDINIT_oids in E by assumption. injection E as <- <- <-.
  destruct (oids_bounds hseq cnt l F NL) as [B1 B2].
  destruct (oids_rows hseq cnt l S F) as (Sp & M & C).
  set (ps := map (fun o => Z.to_nat (o - hseq)) l) in *.
  assert (NE : ps <> []) by (destruct l; [contradiction|discriminate]).
  assert (Rows : forall p, In p ps ->
            (Z.to_nat (hd 0%Z l - hseq) <= p < Z.to_nat (last l 0%Z + 1 - hseq))%nat).
  { intros p I. apply in_map_iff in I as (o & <- & I). rewrite Forall_forall in F. pose proof (F o I).
    pose proof (ascending_hd_last l o S I). lia. }
  exists (chosen ps), (last ps 0%nat + 1)%nat. split; [|split; [lia|]].
  - pose proof (sel_list (Z.to_nat (hd 0 l - hseq)) (Z.to_nat (last l 0 + 1 - hseq)) hseq ps Sp NE) as Q.
    rewrite M in Q. apply Q; [apply Forall_forall; exact Rows|lia|lia].
  - intros j Hj. cbn [candidate]. rewrite <- C. unfold chosen_row.
    rewrite !andb_true_iff, Nat.leb_le, Nat.ltb_lt. split; [tauto|]. intros Q. split; [|exact Q].
    unfold chosen in Q. apply existsb_exists in Q as (p & I & Ep). apply Nat.eqb_eq in Ep. subst p.
    split; [apply Rows, I|]. pose proof (in_last_ge ps j Sp I). lia.
Qed.

(** [CANDINIT] describes to the loops exactly the rows whose oid is a
    candidate. *)
Lemma CANDINIT_spec hseq cnt s start end_ cand :
  0 <= hseq -> hseq + Z.of_nat cnt < 2 ^ 64 -> cands_ok hseq cnt s ->
  CANDINIT hseq cnt s = (start, end_, cand) -> describes hseq cnt s start end_ cand.
Proof.
  intros H0 H1 Ok E.
  destruct s as [[q n|l]|].
  - destruct n as [|n]; [|apply describes_dense; [exact E|lia]]. injection E as <- <- <-.
    apply describes_all; [lia|]. cbn. intros; lia.
  - destruct l as [|o l]; [|apply describes_oids; try assumption; discriminate]. injection E as <- <- <-.
    apply describes_all; [lia|]. cbn. intros; lia.
  - injection E as <- <- <-. apply describes_all; [lia|]. cbn. intros; lia.
Qed.

(** ** The loops *)

(** Rows of one loop: what row [k] becomes, and the nil of the result. *)
Section Rows.
Context (row : nat -> cell) (nil3 : Z) (abort_on_error : bool).

Definition row_emit (k : nat) (s : Z * array) : option (Z * array) :=
  let '(nils, dst) := s in
  match row k with
  | Val v => Some (nils, aset dst (Z.of_nat k) v)
  | NilCell => Some (nils + 1, aset dst (Z.of_nat k) nil3)
  | Overflow =>
      if abort_on_error then None else Some (nils + 1, aset dst (Z.of_nat k) nil3)
  end.
Definition row_skip (k : nat) (s : Z * array) : Z * array :=
  let '(nils, dst) := s in (nils + 1, aset dst (Z.of_nat k) nil3).

(** [CANDLOOP], the loop with [CHECKCAND], [CANDLOOP]; [None] is an error. *)
Definition calc_loop (cnt start end_ : nat) (cand : option (list Z)) (candoff : Z) :
    option (Z * array) :=
  match cand_loop candoff row_skip row_emit (end_ - start) start end_ cand
          (Z.of_nat start, fill aempty 0 start nil3) with
  | Some (e, (nils, dst)) => Some (nils + Z.of_nat (cnt - e), fill dst e cnt nil3)
  | None => None
  end.
End Rows.

(** The operands are arrays with an increment, 0 for a constant. *)
Definition operand (vals : list Z) (incr : Z) (k : nat) : Z := nth (Z.to_nat (Z.of_nat k * incr)) vals 0.

Definition binary_loop (f : Z -> Z -> cell) (nil3 : Z) (abort_on_error : bool)
    (lft : list Z) (incr1 : Z) (rgt : list Z) (incr2 : Z) :=
  calc_loop (fun k => f (operand lft incr1 k) (operand rgt incr2 k)) nil3 abort_on_error.

(** [BINARY_3TYPE_FUNC_nonil]: no test for nil, no candidates. *)
Definition binary_loop_nonil (f : Z -> Z -> Z) (nil3 : Z)
    (lft : list Z) (incr1 : Z) (rgt : list Z) (incr2 : Z) (cnt start end_ : nat) : option (Z * array) :=
  calc_loop (fun k => Val (f (operand lft incr1 k) (operand rgt incr2 k))) nil3 false
    cnt start end_ None 0.

(** [UNARY_2TYPE_FUNC], whose first loop runs when the column has no nils and
    there is no candidate list. *)
Definition unary_loop (tp1 : num_type) (f : Z -> Z) (nil2 : Z) (nonil : bool) (src : list Z)
    (cnt start end_ : nat) (cand : option (list Z)) (candoff : Z) : option (Z * array) :=
  if nonil && (match cand with None => true | _ => false end)
  then calc_loop (fun k => Val (f (nth k src 0))) nil2 false cnt start end_ None candoff
  else calc_loop (fun k => let v := nth k src 0 in
                           if v =? num_nil tp1 then NilCell else Val (f v))
         nil2 false cnt start end_ cand candoff.

(** ** What they store *)

Section RowsSpec.
Context (row : nat -> cell) (nil3 : Z) (ab : bool).

(** The nils a loop counts over rows. *)
Definition nil_count (sel : nat -> bool) (rows : list nat) : Z :=
  fold_right (fun k n => (if sel k then cell_nils (row k) else 1) + n) 0 rows.

Definition stored (sel : nat -> bool) (k : nat) : Z :=
  if sel k then cell_value nil3 (row k) else nil3.

Lemma row_steps sel n : forall i nils dst,
  match steps (row_skip nil3) (row_emit row nil3 ab) sel (seq i n) (nils, dst) with
  | Some (nils', dst') =>
      nils' = nils + nil_count sel (seq i n)
      /\ (forall j, dst' j = if (Z.of_nat i <=? j) && (j <? Z.of_nat (i + n))
                             then Some (stored sel (Z.to_nat j)) else dst j)
      /\ (ab = true -> forall k, (i <= k < i + n)%nat -> sel k = true -> row k <> Overflow)
  | None => ab = true /\ exists k, (i <= k < i + n)%nat /\ sel k = true /\ row k = Overflow
  end.
Proof.
  induction n as [|n IH]; intros i nils dst; cbn [seq steps].
  { split; [cbn; lia|]. split; [|lia]. intros j.
    destruct (Z.leb_spec (Z.of_nat i) j), (Z.ltb_spec j (Z.of_nat (i + 0))); reflexivity || lia. }
  assert (Step : forall nils1, nils1 = nils + (if sel i then cell_nils (row i) else 1) ->
    (ab = true -> sel i = true -> row i <> Overflow) ->
    match steps (row_skip nil3) (row_emit row nil3 ab) sel (seq (S i) n)
            (nils1, aset dst (Z.of_nat i) (stored sel i)) with
    | Some (nils', dst') =>
        nils' = nils + nil_count sel (i :: seq (S i) n)
        /\ (forall j, dst' j = if (Z.of_nat i <=? j) && (j <? Z.of_nat (i + S n))
                               then Some (stored sel (Z.to_nat j)) else dst j)
        /\ (ab = true -> forall k, (i <= k < i + S n)%nat -> sel k = true -> row k <> Overflow)
    | None => ab = true /\ exists k, (i <= k < i + S n)%nat /\ sel k = true /\ row k = Overflow
    end).
  { intros nils1 -> Ho.
    specialize (IH (S i) (nils + (if sel i then cell_nils (row i) else 1))
                  (aset dst (Z.of_nat i) (stored sel i))).
    destruct (steps _ _ _ _ _) as [[n' d']|].
    - destruct IH as (-> & Hd & Hv). split; [cbn [nil_count fold_right]; unfold nil_count; lia|]. split.
      + intros j. rewrite Hd. unfold aset. replace (i + S n)%nat with (S i + n)%nat by lia.
        destruct (Z.eqb_spec j (Z.of_nat i)) as [->|N].
        * rewrite Nat2Z.id. repeat case Z.leb_spec; repeat case Z.ltb_spec; intros; cbn [andb]; reflexivity || lia.
        * repeat case Z.leb_spec; intros; cbn [andb]; reflexivity || lia.
      + intros Ha k Hk. destruct (Nat.eq_dec k i) as [->|]; [auto|apply Hv; [exact Ha|lia]].
    - destruct IH as (Ha & k & Hk & E). split; [exact Ha|]. exists k. split; [lia|exact E]. }
  unfold stored in *. destruct (sel i) eqn:Si; cbn [row_emit row_skip].
  - destruct (row i) eqn:R; cbn [cell_value cell_nils] in Step.
    + apply Step; [lia|discriminate].
    + apply Step; [lia|discriminate].
    + destruct ab.
      * split; [reflexivity|]. exists i. split; [lia|auto].
      * apply Step; [lia|discriminate].
  - apply Step; [lia|discriminate].
Qed.

Lemma nil_count_app sel a b : nil_count sel (a ++ b) = nil_count sel a + nil_count sel b.
Proof. induction a as [|k a IH]; cbn [app nil_count fold_right]; [reflexivity|]. unfold nil_count in *. lia. Qed.

Lemma nil_count_ext sel sel' rows :
  (forall k, In k rows -> sel k = sel' k) -> nil_count sel rows = nil_count sel' rows.
Proof.
  induction rows as [|k rows IH]; intros H; [reflexivity|]. cbn [nil_count fold_right]. unfold nil_count in *.
  rewrite (H k) by now left. rewrite IH; [reflexivity|]. intros; apply H; now right.
Qed.

Lemma nil_count_none rows : nil_count (fun _ => false) rows = Z.of_nat (List.length rows).
Proof. induction rows as [|k rows IH]; [reflexivity|]. cbn [nil_count fold_right List.length]. unfold nil_count in *. lia. Qed.

(** All of a loop: every selected row holds its result, every other one nil,
    nothing is written outside the column, and the loop fails exactly when
    errors abort and a selected row has one. *)
Lemma calc_loop_rows cnt start end_ cand candoff sel e :
  selects start end_ candoff cand sel e -> (end_ <= cnt)%nat ->
  let chosen := chosen_row start e sel in
  match calc_loop row nil3 ab cnt start end_ cand candoff with
  | Some (nils, dst) =>
      nils = nil_count chosen (seq 0 cnt)
      /\ (forall j, dst j = if (0 <=? j) && (j <? Z.of_nat cnt)
                            then Some (stored chosen (Z.to_nat j)) else None)
      /\ (ab = true -> forall k, (k < cnt)%nat -> chosen k = true -> row k <> Overflow)
  | None => ab = true /\ exists k, (k < cnt)%nat /\ chosen k = true /\ row k = Overflow
  end.
Proof.
  intros Sl He. cbv zeta. unfold calc_loop.
  destruct (cand_loop_selects candoff (row_skip nil3) (row_emit row nil3 ab) start end_ cand sel e
    (Z.of_nat start, fill aempty 0 start nil3) Sl) as [B ->].
  pose proof (row_steps sel (e - start) start (Z.of_nat start) (fill aempty 0 start nil3)) as P.
  replace (start + (e - start))%nat with e in P by lia.
  assert (In_ : forall k, (start <= k < e)%nat -> chosen_row start e sel k = sel k).
  { intros k Hk. unfold chosen_row. now rewrite (proj2 (Nat.leb_le _ _)), (proj2 (Nat.ltb_lt _ _)) by lia. }
  assert (Out : forall k, ~ (start <= k < e)%nat -> chosen_row start e sel k = false).
  { intros k Hk. unfold chosen_row. destruct (Nat.leb_spec start k), (Nat.ltb_spec k e); reflexivity || lia. }
  destruct (steps _ _ _ _ _) as [[nils dst]|]; cbn [option_map].
  - destruct P as (-> & Hd & Hv). split; [|split].
    + rewrite (seq_cut start e cnt) by lia. rewrite !nil_count_app.
      rewrite (nil_count_ext (chosen_row start e sel) sel (seq start (e - start)))
        by (intros k Hk; apply in_seq in Hk; apply In_; lia).
      rewrite (nil_count_ext (chosen_row start e sel) (fun _ => false) (seq 0 start)),
        (nil_count_ext (chosen_row start e sel) (fun _ => false) (seq e _)),
        !nil_count_none, !length_seq; try lia; intros k Hk; apply in_seq in Hk; apply Out; lia.
    + intros j. unfold fill at 1. rewrite Hd. unfold fill, aempty, stored.
      destruct (Z.leb_spec 0 j), (Z.ltb_spec j (Z.of_nat cnt)), (Z.leb_spec (Z.of_nat e) j), (Z.leb_spec (Z.of_nat start) j),
        (Z.ltb_spec j (Z.of_nat e)), (Z.leb_spec (Z.of_nat 0) j), (Z.ltb_spec j (Z.of_nat start));
        cbn [andb]; try lia; try reflexivity;
        first [rewrite Out by lia; reflexivity|rewrite In_ by lia; reflexivity].
    + intros Ha k Hk C. destruct (le_lt_dec start k), (le_lt_dec e k);
        try (rewrite Out in C by lia; discriminate). rewrite In_ in C by lia. apply Hv; [exact Ha|lia|exact C].
  - destruct P as (Ha & k & Hk & C & E). split; [exact Ha|]. exists k. rewrite In_ by lia. split; [lia|auto].
Qed.

(** The nils counted are those stored, unless a result is the nil pattern. *)
Lemma nil_count_stored sel rows :
  (forall k, In k rows -> sel k = true -> row k <> Val nil3) ->
  nil_count sel rows = Z.of_nat (List.length (filter (fun j => stored sel j =? nil3) rows)).
Proof.
  induction rows as [|k rows IH]; intros NV; [reflexivity|].
  cbn [nil_count fold_right filter]. unfold nil_count in IH.
  rewrite IH by (intros j I; apply NV; now right).
  unfold stored at 2. specialize (NV k (or_introl eq_refl)). destruct (sel k).
  - destruct (row k) as [v| |]; cbn [cell_nils cell_value].
    + rewrite (proj2 (Z.eqb_neq v nil3)) by (intros ->; now apply NV). lia.
    + rewrite Z.eqb_refl. cbn [List.length]. lia.
    + rewrite Z.eqb_refl. cbn [List.length]. lia.
  - rewrite Z.eqb_refl. cbn [List.length]. lia.
Qed.
End RowsSpec.

(** ** Binary operators over columns *)

Section Binary.
Context (f : Z -> Z -> cell) (nil3 : Z) (ab : bool) (lft : list Z) (incr1 : Z) (rgt : list Z) (incr2 : Z).

(** The cell of row [j]. *)
Definition row_cell (j : nat) : cell := f (operand lft incr1 j) (operand rgt incr2 j).

(** C32: A binary operator over two columns, or a column and a constant, honours
    its candidate list: rows whose oid is a candidate hold what the operator
    makes of their operands, with nil for an error, all others hold nil, and
    nothing is written outside the column.  It fails exactly when errors abort
    and a candidate row has one.  If no candidate row results in the nil pattern
    the nils returned are exactly those of the result. *)
Theorem binary_loop_rows hseq cnt s start end_ cand
    (H0 : 0 <= hseq) (H1 : hseq + Z.of_nat cnt < 2 ^ 64) (Ok : cands_ok hseq cnt s)
    (E : CANDINIT hseq cnt s = (start, end_, cand)) :
  match binary_loop f nil3 ab lft incr1 rgt incr2 cnt start end_ cand hseq with
  | Some (nils, dst) =>
      (forall j, (j < cnt)%nat ->
         (candidate s (hseq + Z.of_nat j) -> dst (Z.of_nat j) = Some (cell_value nil3 (row_cell j)))
         /\ (~ candidate s (hseq + Z.of_nat j) -> dst (Z.of_nat j) = Some nil3))
      /\ (forall j, ~ 0 <= j < Z.of_nat cnt -> dst j = None)
      /\ (ab = true -> forall j, (j < cnt)%nat -> candidate s (hseq + Z.of_nat j) -> row_cell j <> Overflow)
      /\ ((forall j, (j < cnt)%nat -> candidate s (hseq + Z.of_nat j) -> row_cell j <> Val nil3) ->
          nils = Z.of_nat (List.length (filter
            (fun j => match dst (Z.of_nat j) with Some v => v =? nil3 | None => false end) (seq 0 cnt))))
  | None =>
      ab = true
      /\ exists j, (j < cnt)%nat /\ candidate s (hseq + Z.of_nat j) /\ row_cell j = Overflow
  end.
Proof.
  destruct (CANDINIT_spec hseq cnt s start end_ cand H0 H1 Ok E) as (sel & e & Sl & He & C).
  pose proof (calc_loop_rows row_cell nil3 ab cnt start end_ cand hseq sel e Sl He) as P. cbv zeta in P.
  change (calc_loop row_cell nil3 ab) with (binary_loop f nil3 ab lft incr1 rgt incr2) in P.
  destruct (binary_loop _ _ _ _ _ _ _ _ _ _ _ _) as [[nils dst]|].
  - destruct P as (-> & Hd & Hv).
    assert (D : forall j, (j < cnt)%nat ->
              dst (Z.of_nat j) = Some (stored row_cell nil3 (chosen_row start e sel) j)).
    { intros j Hj. rewrite Hd, Nat2Z.id, (proj2 (Z.leb_le 0 _)), (proj2 (Z.ltb_lt _ _)) by lia. reflexivity. }
    split; [|split; [|split]].
    + intros j Hj. rewrite D by exact Hj. specialize (C j Hj). unfold stored.
      destruct (chosen_row start e sel j); split; intros K; try reflexivity.
      * exfalso. tauto.
      * apply C in K. discriminate.
    + intros j Hj. rewrite Hd. destruct (Z.leb_spec 0 j), (Z.ltb_spec j (Z.of_nat cnt)); reflexivity || lia.
    + intros Ha j Hj K. apply Hv; [exact Ha|exact Hj|]. now apply C.
    + intros NV. rewrite (nil_count_stored row_cell nil3).
      2:{ intros k Hk K. apply in_seq in Hk. apply NV; [lia|]. apply C; [lia|exact K]. }
      do 2 f_equal. apply filter_ext_in.
      intros j Hj. apply in_seq in Hj. now rewrite D by lia.
  - destruct P as (Ha & k & Hk & K & O). split; [exact Ha|]. exists k. split; [exact Hk|].
    split; [now apply C|exact O].
Qed.

End Binary.

Lemma binary_loop_rows_witness :
  match binary_loop (fun l r => nil_or TYPE_bte TYPE_bte l r (ADD_WITH_CHECK TYPE_bte l r)) (-128) false
          [100; 50; 7] 1 [50] 0 3 0 3 (Some [10; 12]) 10 with
  | Some (nils, dst) => nils = 2 /\ dst 0 = Some (-128) /\ dst 1 = Some (-128) /\ dst 2 = Some 57
  | None => False
  end.
Proof.
  pose proof (binary_loop_rows (fun l r => nil_or TYPE_bte TYPE_bte l r (ADD_WITH_CHECK TYPE_bte l r))
    (-128) false [100; 50; 7] 1 [50] 0 10 3 (Some (Oids [10; 12])) 0 3 (Some [10; 12])
    ltac:(lia) ltac:(lia) ltac:(cbn; repeat constructor; lia) eq_refl) as P.
  destruct (binary_loop _ _ _ _ _ _ _ _ _ _ _ _) as [[nils dst]|] eqn:E; [|destruct P; discriminate].
  destruct P as (R & _). split; [vm_compute in E; injection E as <- _; reflexivity|].
  split; [exact (proj1 (R 0%nat ltac:(lia)) ltac:(cbn; tauto))|].
  split; [apply (proj2 (R 1%nat ltac:(lia))); cbn; lia|].
  exact (proj1 (R 2%nat ltac:(lia)) ltac:(cbn; tauto)).
Defined.

Lemma operand_in vals incr k v0 :
  incr = 0 \/ incr = 1 -> (k < List.length vals)%nat \/ incr = 0 /\ vals = [v0] ->
  In (operand vals incr k) vals.
Proof.
  intros I [L|[-> ->]]; unfold operand.
  - apply nth_In. destruct I as [-> | ->]; lia.
  - rewrite Z.mul_0_r. now left.
Qed.

(** The loops without tests for nil do the same as those with, on operands
    that have none. *)
Lemma calc_loop_ext row row' nil3 ab cnt start end_ candoff :
  (end_ <= cnt)%nat -> (start <= end_)%nat ->
  (forall k, (start <= k < end_)%nat -> row k = row' k) ->
  calc_loop row nil3 ab cnt start end_ None candoff = calc_loop row' nil3 ab cnt start end_ None candoff.
Proof.
  intros L0 L1 H. unfold calc_loop.
  rewrite !(fun s => proj2 (cand_loop_selects candoff (row_skip nil3) (row_emit row nil3 ab) start end_ None
    (fun _ => true) end_ s (sel_all start end_ candoff L1))).
  rewrite !(fun s => proj2 (cand_loop_selects candoff (row_skip nil3) (row_emit row' nil3 ab) start end_ None
    (fun _ => true) end_ s (sel_all start end_ candoff L1))).
  f_equal. f_equal.
  assert (G : forall n i s, (start <= i)%nat -> (i + n <= end_)%nat ->
    steps (row_skip nil3) (row_emit row nil3 ab) (fun _ => true) (seq i n) s
    = steps (row_skip nil3) (row_emit row' nil3 ab) (fun _ => true) (seq i n) s).
  { induction n as [|n IH]; intros i s A B; cbn [seq steps]; [reflexivity|].
    assert (Em : row_emit row nil3 ab i s = row_emit row' nil3 ab i s)
      by (unfold row_emit; rewrite H by lia; reflexivity).
    rewrite Em. destruct (row_emit row' nil3 ab i s); [apply IH; lia|reflexivity]. }
  now rewrite G by lia.
Qed.

(** The loops without tests for nil, which run when the columns are flagged
    to have none and there are no candidates, store and count the same as the
    loops that test every row, provided the flag is true of the rows. *)
Theorem nonil_loops_equal tp1 tp2 (g : Z -> Z -> Z) (h : Z -> Z) nil3 lft incr1 rgt incr2 cnt start end_
    (L : (start <= end_ <= cnt)%nat)
    (N1 : forall k, (start <= k < end_)%nat -> operand lft incr1 k <> num_nil tp1)
    (N2 : forall k, (start <= k < end_)%nat -> operand rgt incr2 k <> num_nil tp2)
    (N3 : forall k, (start <= k < end_)%nat -> nth k lft 0 <> num_nil tp1) :
  binary_loop_nonil g nil3 lft incr1 rgt incr2 cnt start end_
  = binary_loop (fun l r => nil_or tp1 tp2 l r (Val (g l r))) nil3 false lft incr1 rgt incr2
      cnt start end_ None 0
  /\ unary_loop tp1 h nil3 true lft cnt start end_ None 0
     = unary_loop tp1 h nil3 false lft cnt start end_ None 0.
Proof.
  split.
  - apply calc_loop_ext; [lia|lia|]. intros k Hk. unfold nil_or.
    now rewrite (proj2 (Z.eqb_neq _ _) (N1 k Hk)), (proj2 (Z.eqb_neq _ _) (N2 k Hk)).
  - unfold unary_loop. cbn [andb]. apply calc_loop_ext; [lia|lia|]. intros k Hk. cbv zeta.
    now rewrite (proj2 (Z.eqb_neq _ _) (N3 k Hk)).
Qed.

Lemma nonil_loops_equal_witness :
  binary_loop_nonil Z.lor (-128) [1; 2; 3] 1 [4] 0 3 1 3
  = binary_loop (fun l r => nil_or TYPE_bte TYPE_bte l r (Val (Z.lor l r))) (-128) false [1; 2; 3] 1 [4] 0
      3 1 3 None 0.
Proof.
  apply (nonil_loops_equal TYPE_bte TYPE_bte Z.lor (fun x => x) (-128) [1; 2; 3] 1 [4] 0 3 1 3); [lia|..];
    intros k Hk; destruct k as [|[|[|k]]]; try lia; vm_compute; discriminate.
Defined.

