(* ===== verification/CalcBat.v ===== *)
(** * Column arithmetic with its property flags

    gdk/gdk_calc.c, the operators as they are called: two columns, a column and
    a constant, one column, or two values, for addition, subtraction,
    multiplication, division, modulo, exclusive or, or, and, shifts, increment,
    decrement, complement, negation, absolute value, zero test and sign.  A
    column carries flags that later operations rely on (sorted, reversely
    sorted, without duplicates, with or without nils); the theorems say when
    the flags of a result are true. *)

From Stdlib Require Import ZArith Lia Bool List Sorted.
Import ListNotations.
From S2P Require Import Prelude Atoms Convert Arith CalcLoop.

Open Scope Z_scope.
Open Scope list_scope.

(** ** Columns and values *)

(** A BAT with a dense head: type of the tail ([b_bit] for the type [bit], which
    is stored like [bte]), first oid, tail values and property flags. *)
Record bat := mkBat {
  b_type : num_type;
  b_bit : bool;
  b_hseq : Z;
  b_vals : list Z;
  b_sorted : bool;
  b_revsorted : bool;
  b_key : bool;
  b_nil : bool;
  b_nonil : bool;
}.

Definition BATcount (b : bat) : nat := List.length (b_vals b).

(** A [ValRecord]. *)
Record value := mkValue { vtype : num_type; vbit : bool; val : Z }.

(** The first [n] values of a result, all of which the loops write. *)
Definition read (dst : array) (n : nat) : list Z :=
  map (fun j => match dst (Z.of_nat j) with Some v => v | None => 0 end) (seq 0 n).

(** [checkbats]: columns with dense heads, of one length. *)
Definition checkbats (b1 b2 : bat) : bool := (BATcount b1 =? BATcount b2)%nat.

(** The order flags, from the number of nils and of rows. *)
Definition plain (nils : Z) (cnt : nat) : bool := (cnt <=? 1)%nat || (nils =? Z.of_nat cnt).
Definition order_flags := Z -> nat -> bool * bool.
Definition unordered : order_flags := fun nils cnt => (plain nils cnt, plain nils cnt).

(** The tail of every operator: a result aligned with a column of [cnt] rows from
    [hseq] on; [run] is the loop on [cnt], [start], [end] and the candidates. *)
Definition finish_at (hseq : Z) (cnt : nat) (tp : num_type) (isbit : bool) (s : option cands) (alloc : bool)
    (run : nat -> nat -> nat -> option (list Z) -> option (Z * array)) (order : order_flags) : option bat :=
  let '(start, end_, cand) := CANDINIT hseq cnt s in
  if negb alloc then None
  else match run cnt start end_ cand with
       | None => None
       | Some (nils, dst) =>
           let '(sorted, revsorted) := order nils cnt in
           Some (mkBat tp isbit hseq (read dst cnt) sorted revsorted (cnt <=? 1)%nat
                   (negb (nils =? 0)) (nils =? 0))
       end.
Definition finish (src : bat) := finish_at (b_hseq src) (BATcount src).

(** The loop of a typeswitch: an error when there is no instance. *)
Definition switch (cell : option (Z -> Z -> Convert.cell)) (tp : num_type) (ab : bool)
    (lft : list Z) (incr1 : Z) (rgt : list Z) (incr2 : Z) (candoff : Z)
    (cnt start end_ : nat) (cand : option (list Z)) : option (Z * array) :=
  match cell with
  | None => None
  | Some f => binary_loop f (num_nil tp) ab lft incr1 rgt incr2 cnt start end_ cand candoff
  end.

(** ** Addition, subtraction, multiplication, division, modulo *)

Section Operators.
(** FULL_IMPLEMENTATION, HAVE___INT128, and whether memory is granted. *)
Context (full : bool) (how : mul_lng) (alloc : bool).

Definition add_flags (ab : bool) (s1 r1 s2 r2 : bool) : order_flags := fun nils cnt =>
  ((ab && (s1 && s2)) || plain nils cnt, (ab && (r1 && r2)) || plain nils cnt).

Definition BATcalcadd (b1 b2 : bat) (s : option cands) (tp : num_type) (ab : bool) : option bat :=
  if checkbats b1 b2 then
    finish b1 tp false s alloc
      (switch (add_cell full (b_type b1) (b_type b2) tp) tp ab (b_vals b1) 1 (b_vals b2) 1 (b_hseq b1))
      (add_flags ab (b_sorted b1) (b_revsorted b1) (b_sorted b2) (b_revsorted b2))
  else None.

Definition BATcalcaddcst (b : bat) (v : value) (s : option cands) (tp : num_type) (ab : bool) : option bat :=
  finish b tp false s alloc
    (switch (add_cell full (b_type b) (vtype v) tp) tp ab (b_vals b) 1 [val v] 0 (b_hseq b))
    (add_flags ab (b_sorted b) (b_revsorted b) true true).

Definition BATcalccstadd (v : value) (b : bat) (s : option cands) (tp : num_type) (ab : bool) : option bat :=
  finish b tp false s alloc
    (switch (add_cell full (vtype v) (b_type b) tp) tp ab [val v] 0 (b_vals b) 1 (b_hseq b))
    (add_flags ab (b_sorted b) (b_revsorted b) true true).

(** The unary operators also note on their argument what they saw. *)
Definition note_nils (b : bat) (nils : Z) : bat :=
  mkBat (b_type b) (b_bit b) (b_hseq b) (b_vals b) (b_sorted b) (b_revsorted b) (b_key b)
    (if negb (nils =? 0) && negb (b_nil b) then true else b_nil b)
    (if (nils =? 0) && negb (b_nonil b) then true else b_nonil b).
Definition noting (b : bat) (r : option bat) : option (bat * bat) :=
  match r with
  | None => None
  | Some bn => Some (bn, note_nils b (if b_nil bn then 1 else 0))
  end.

Definition BATcalcincr (b : bat) (s : option cands) (ab : bool) : option (bat * bat) :=
  noting b (finish b (b_type b) (b_bit b) s alloc
    (switch (add_cell full (b_type b) TYPE_bte (b_type b)) (b_type b) ab (b_vals b) 1 [1] 0 (b_hseq b))
    (add_flags ab (b_sorted b) (b_revsorted b) true true)).

Definition BATcalcsub (b1 b2 : bat) (s : option cands) (tp : num_type) (ab : bool) : option bat :=
  if checkbats b1 b2 then
    finish b1 tp false s alloc
      (switch (sub_cell full (b_type b1) (b_type b2) tp) tp ab (b_vals b1) 1 (b_vals b2) 1 (b_hseq b1))
      unordered
  else None.

Definition BATcalcsubcst (b : bat) (v : value) (s : option cands) (tp : num_type) (ab : bool) : option bat :=
  finish b tp false s alloc
    (switch (sub_cell full (b_type b) (vtype v) tp) tp ab (b_vals b) 1 [val v] 0 (b_hseq b))
    (add_flags ab (b_sorted b) (b_revsorted b) true true).

Definition BATcalccstsub (v : value) (b : bat) (s : option cands) (tp : num_type) (ab : bool) : option bat :=
  finish b tp false s alloc
    (switch (sub_cell full (vtype v) (b_type b) tp) tp ab [val v] 0 (b_vals b) 1 (b_hseq b))
    (fun nils cnt => ((ab && (nils =? 0) && b_revsorted b) || plain nils cnt,
                      (ab && (nils =? 0) && b_sorted b) || plain nils cnt)).

Definition BATcalcdecr (b : bat) (s : option cands) (ab : bool) : option (bat * bat) :=
  noting b (finish b (b_type b) (b_bit b) s alloc
    (switch (sub_cell full (b_type b) TYPE_bte (b_type b)) (b_type b) ab (b_vals b) 1 [1] 0 (b_hseq b))
    (add_flags ab (b_sorted b) (b_revsorted b) true true)).

Definition BATcalcmul (b1 b2 : bat) (s : option cands) (tp : num_type) (ab : bool) : option bat :=
  if checkbats b1 b2 then
    finish b1 tp false s alloc
      (switch (mul_cell full how (b_type b1) (b_type b2) tp) tp ab (b_vals b1) 1 (b_vals b2) 1 (b_hseq b1))
      unordered
  else None.

(** [VARcalcsign] of a constant. *)
Definition VARcalcsign (v : value) : Z := if val v =? num_nil (vtype v) then num_nil TYPE_bte else SIGN (val v).

Definition mul_flags (ab : bool) (sign : Z) (b : bat) : order_flags := fun nils cnt =>
  if ab then
    (((sign >=? 0) && b_sorted b) || ((sign <=? 0) && b_revsorted b && (nils =? 0)) || plain nils cnt,
     ((sign >=? 0) && b_revsorted b) || ((sign <=? 0) && b_sorted b && (nils =? 0)) || plain nils cnt)
  else unordered nils cnt.

Definition BATcalcmulcst (b : bat) (v : value) (s : option cands) (tp : num_type) (ab : bool) : option bat :=
  finish b tp false s alloc
    (switch (mul_cell full how (b_type b) (vtype v) tp) tp ab (b_vals b) 1 [val v] 0 (b_hseq b))
    (mul_flags ab (VARcalcsign v) b).

Definition BATcalccstmul (v : value) (b : bat) (s : option cands) (tp : num_type) (ab : bool) : option bat :=
  finish b tp false s alloc
    (switch (mul_cell full how (vtype v) (b_type b) tp) tp ab [val v] 0 (b_vals b) 1 (b_hseq b))
    (mul_flags ab (VARcalcsign v) b).

Definition BATcalcdiv (b1 b2 : bat) (s : option cands) (tp : num_type) (ab : bool) : option bat :=
  if checkbats b1 b2 then
    finish b1 tp false s alloc
      (switch (div_cell full (b_type b1) (b_type b2) tp) tp ab (b_vals b1) 1 (b_vals b2) 1 (b_hseq b1))
      unordered
  else None.

(** The flags computed from the sign are overwritten at once. *)
Definition BATcalcdivcst (b : bat) (v : value) (s : option cands) (tp : num_type) (ab : bool) : option bat :=
  finish b tp false s alloc
    (switch (div_cell full (b_type b) (vtype v) tp) tp ab (b_vals b) 1 [val v] 0 (b_hseq b))
    unordered.

Definition BATcalccstdiv (v : value) (b : bat) (s : option cands) (tp : num_type) (ab : bool) : option bat :=
  finish b tp false s alloc
    (switch (div_cell full (vtype v) (b_type b) tp) tp ab [val v] 0 (b_vals b) 1 (b_hseq b))
    unordered.

Definition BATcalcmod (b1 b2 : bat) (s : option cands) (tp : num_type) (ab : bool) : option bat :=
  if checkbats b1 b2 then
    finish b1 tp false s alloc
      (switch (mod_cell full (b_type b1) (b_type b2) tp) tp ab (b_vals b1) 1 (b_vals b2) 1 (b_hseq b1))
      unordered
  else None.

Definition BATcalcmodcst (b : bat) (v : value) (s : option cands) (tp : num_type) (ab : bool) : option bat :=
  finish b tp false s alloc
    (switch (mod_cell full (b_type b) (vtype v) tp) tp ab (b_vals b) 1 [val v] 0 (b_hseq b))
    unordered.

Definition BATcalccstmod (v : value) (b : bat) (s : option cands) (tp : num_type) (ab : bool) : option bat :=
  finish b tp false s alloc
    (switch (mod_cell full (vtype v) (b_type b) tp) tp ab [val v] 0 (b_vals b) 1 (b_hseq b))
    unordered.

(** Two values: one row of the loop. *)
Definition VARcalc (cell : num_type -> num_type -> num_type -> option (Z -> Z -> Convert.cell))
    (tp : num_type) (lft rgt : value) (ab : bool) : option value :=
  match switch (cell (vtype lft) (vtype rgt) tp) tp ab [val lft] 0 [val rgt] 0 0 1 0 1 None with
  | None => None
  | Some (_, dst) => option_map (mkValue tp false) (dst 0)
  end.
Definition VARcalcadd := VARcalc (add_cell full).
Definition VARcalcsub := VARcalc (sub_cell full).
Definition VARcalcmul := VARcalc (mul_cell full how).
Definition VARcalcdiv := VARcalc (div_cell full).
Definition VARcalcmod := VARcalc (mod_cell full).
Definition VARcalcincr (tp : num_type) (v : value) (ab : bool) : option value :=
  VARcalc (add_cell full) tp v (mkValue TYPE_bte false 1) ab.
Definition VARcalcdecr (tp : num_type) (v : value) (ab : bool) : option value :=
  VARcalc (sub_cell full) tp v (mkValue TYPE_bte false 1) ab.
End Operators.

(** ** Logic and shifts *)

Section Logic.
Context (alloc : bool).

(** The loop of an operator on integers: without tests when [nonil]. *)
Definition bitwise (f : Z -> Z -> Z) (tp : num_type) (nonil : bool)
    (lft : list Z) (incr1 : Z) (rgt : list Z) (incr2 : Z) (candoff : Z)
    (cnt start end_ : nat) (cand : option (list Z)) : option (Z * array) :=
  if nonil then binary_loop_nonil f (num_nil tp) lft incr1 rgt incr2 cnt start end_
  else binary_loop (fun l r => nil_or tp tp l r (Val (f l r))) (num_nil tp) false lft incr1 rgt incr2
         cnt start end_ cand candoff.

Definition xor_typeswitchloop (tp : num_type) (isbit nonil : bool) :=
  bitwise (if isbit then fun l r => if Bool.eqb (l =? 0) (r =? 0) then 0 else 1
           else fun l r => store tp (Z.lxor l r)) tp nonil.
Definition or_typeswitchloop (tp : num_type) (isbit nonil : bool)
    (lft : list Z) (incr1 : Z) (rgt : list Z) (incr2 : Z) (candoff : Z) (cnt start end_ : nat) cand :=
  if isbit then binary_loop or_bit bit_nil false lft incr1 rgt incr2 cnt start end_ cand candoff
  else bitwise (fun l r => store tp (Z.lor l r)) tp nonil lft incr1 rgt incr2 candoff cnt start end_ cand.
Definition and_typeswitchloop (tp : num_type) (isbit nonil : bool)
    (lft : list Z) (incr1 : Z) (rgt : list Z) (incr2 : Z) (candoff : Z) (cnt start end_ : nat) cand :=
  if isbit then binary_loop and_bit bit_nil false lft incr1 rgt incr2 cnt start end_ cand candoff
  else bitwise (fun l r => store tp (Z.land l r)) tp nonil lft incr1 rgt incr2 candoff cnt start end_ cand.

Definition same_storage (tp1 tp2 : num_type) : bool := ATOMsize tp1 =? ATOMsize tp2.
Definition value_not_nil (v : value) : bool := negb (val v =? num_nil (vtype v)).
(** [cand == NULL]. *)
Definition no_cand (s : option cands) : bool :=
  match s with Some (Oids (_ :: _)) => false | _ => true end.

Definition BATcalcxor (b1 b2 : bat) (s : option cands) : option bat :=
  if checkbats b1 b2 && same_storage (b_type b1) (b_type b2) then
    finish b1 (b_type b1) (b_bit b1) s alloc
      (xor_typeswitchloop (b_type b1) (b_bit b1) (no_cand s && b_nonil b1 && b_nonil b2)
         (b_vals b1) 1 (b_vals b2) 1 (b_hseq b1)) unordered
  else None.
Definition BATcalcxorcst (b : bat) (v : value) (s : option cands) : option bat :=
  if same_storage (b_type b) (vtype v) then
    finish b (b_type b) (b_bit b) s alloc
      (xor_typeswitchloop (b_type b) (b_bit b) (no_cand s && b_nonil b && value_not_nil v)
         (b_vals b) 1 [val v] 0 (b_hseq b)) unordered
  else None.
Definition BATcalccstxor (v : value) (b : bat) (s : option cands) : option bat :=
  if same_storage (b_type b) (vtype v) then
    finish b (b_type b) (b_bit b) s alloc
      (xor_typeswitchloop (b_type b) (b_bit b) (no_cand s && b_nonil b && value_not_nil v)
         [val v] 0 (b_vals b) 1 (b_hseq b)) unordered
  else None.

(** Here the candidates are not asked for. *)
Definition BATcalcor (b1 b2 : bat) (s : option cands) : option bat :=
  if checkbats b1 b2 && same_storage (b_type b1) (b_type b2) then
    finish b1 (b_type b1) (b_bit b1) s alloc
      (or_typeswitchloop (b_type b1) (b_bit b1) (b_nonil b1 && b_nonil b2)
         (b_vals b1) 1 (b_vals b2) 1 (b_hseq b1)) unordered
  else None.
Definition BATcalcorcst (b : bat) (v : value) (s : option cands) : option bat :=
  if same_storage (b_type b) (vtype v) then
    finish b (b_type b) (b_bit b) s alloc
      (or_typeswitchloop (b_type b) (b_bit b) (no_cand s && b_nonil b && value_not_nil v)
         (b_vals b) 1 [val v] 0 (b_hseq b)) unordered
  else None.
Definition BATcalccstor (v : value) (b : bat) (s : option cands) : option bat :=
  if same_storage (b_type b) (vtype v) then
    finish b (b_type b) (b_bit b) s alloc
      (or_typeswitchloop (b_type b) (b_bit b) (no_cand s && b_nonil b && value_not_nil v)
         [val v] 0 (b_vals b) 1 (b_hseq b)) unordered
  else None.

(** And here in none of the three. *)
Definition BATcalcand (b1 b2 : bat) (s : option cands) : option bat :=
  if checkbats b1 b2 && same_storage (b_type b1) (b_type b2) then
    finish b1 (b_type b1) (b_bit b1) s alloc
      (and_typeswitchloop (b_type b1) (b_bit b1) (b_nonil b1 && b_nonil b2)
         (b_vals b1) 1 (b_vals b2) 1 (b_hseq b1)) unordered
  else None.
Definition BATcalcandcst (b : bat) (v : value) (s : option cands) : option bat :=
  if same_storage (b_type b) (vtype v) then
    finish b (b_type b) (b_bit b) s alloc
      (and_typeswitchloop (b_type b) (b_bit b) (b_nonil b && value_not_nil v)
         (b_vals b) 1 [val v] 0 (b_hseq b)) unordered
  else None.
Definition BATcalccstand (v : value) (b : bat) (s : option cands) : option bat :=
  if same_storage (b_type b) (vtype v) then
    finish b (b_type b) (b_bit b) s alloc
      (and_typeswitchloop (b_type b) (b_bit b) (b_nonil b && value_not_nil v)
         [val v] 0 (b_vals b) 1 (b_hseq b)) unordered
  else None.

Definition VARcalclogic (loop : num_type -> bool -> bool -> list Z -> Z -> list Z -> Z -> Z ->
      nat -> nat -> nat -> option (list Z) -> option (Z * array)) (lft rgt : value) : option value :=
  if same_storage (vtype lft) (vtype rgt) then
    match loop (vtype lft) (vbit lft) false [val lft] 0 [val rgt] 0 0 1%nat 0%nat 1%nat None with
    | None => None
    | Some (_, dst) => option_map (mkValue (vtype lft) (vbit lft)) (dst 0)
    end
  else None.
Definition VARcalcxor := VARcalclogic xor_typeswitchloop.
Definition VARcalcor := VARcalclogic or_typeswitchloop.
Definition VARcalcand := VARcalclogic and_typeswitchloop.

(** Shifts: the result has the type of the left operand. *)
Definition lsh_cell (tp1 tp2 : num_type) := Some (fun l r => nil_or tp1 tp2 l r (LSH tp1 l r)).
Definition rsh_cell (tp1 tp2 : num_type) := Some (fun l r => nil_or tp1 tp2 l r (RSH tp1 l r)).

Definition BATcalclsh (b1 b2 : bat) (s : option cands) (ab : bool) : option bat :=
  if checkbats b1 b2 then
    finish b1 (b_type b1) (b_bit b1) s alloc
      (switch (lsh_cell (b_type b1) (b_type b2)) (b_type b1) ab (b_vals b1) 1 (b_vals b2) 1 (b_hseq b1))
      unordered
  else None.
Definition BATcalclshcst (b : bat) (v : value) (s : option cands) (ab : bool) : option bat :=
  finish b (b_type b) (b_bit b) s alloc
    (switch (lsh_cell (b_type b) (vtype v)) (b_type b) ab (b_vals b) 1 [val v] 0 (b_hseq b)) unordered.
Definition BATcalccstlsh (v : value) (b : bat) (s : option cands) (ab : bool) : option bat :=
  finish b (vtype v) (vbit v) s alloc
    (switch (lsh_cell (vtype v) (b_type b)) (vtype v) ab [val v] 0 (b_vals b) 1 (b_hseq b)) unordered.
Definition BATcalcrsh (b1 b2 : bat) (s : option cands) (ab : bool) : option bat :=
  if checkbats b1 b2 then
    finish b1 (b_type b1) (b_bit b1) s alloc
      (switch (rsh_cell (b_type b1) (b_type b2)) (b_type b1) ab (b_vals b1) 1 (b_vals b2) 1 (b_hseq b1))
      unordered
  else None.
Definition BATcalcrshcst (b : bat) (v : value) (s : option cands) (ab : bool) : option bat :=
  finish b (b_type b) (b_bit b) s alloc
    (switch (rsh_cell (b_type b) (vtype v)) (b_type b) ab (b_vals b) 1 [val v] 0 (b_hseq b)) unordered.
Definition BATcalccstrsh (v : value) (b : bat) (s : option cands) (ab : bool) : option bat :=
  finish b (vtype v) (vbit v) s alloc
    (switch (rsh_cell (vtype v) (b_type b)) (vtype v) ab [val v] 0 (b_vals b) 1 (b_hseq b)) unordered.
Definition VARcalclsh (lft rgt : value) (ab : bool) : option value :=
  VARcalc (fun t1 t2 _ => lsh_cell t1 t2) (vtype lft) lft rgt ab.
Definition VARcalcrsh (lft rgt : value) (ab : bool) : option value :=
  VARcalc (fun t1 t2 _ => rsh_cell t1 t2) (vtype lft) lft rgt ab.

(** ** Operators on one column *)

Definition unary (b : bat) (tp2 : num_type) (isbit : bool) (f : Z -> Z) (s : option cands)
    (order : order_flags) (key : nat -> bool) : option (bat * bat) :=
  noting b
    (match finish b tp2 isbit s alloc
             (fun cnt start end_ cand =>
                unary_loop (b_type b) f (num_nil tp2) (b_nonil b) (b_vals b) cnt start end_ cand (b_hseq b))
             order with
     | None => None
     | Some bn => Some (mkBat (b_type bn) (b_bit bn) (b_hseq bn) (b_vals bn) (b_sorted bn) (b_revsorted bn)
                          (key (BATcount b)) (b_nil bn) (b_nonil bn))
     end).

(** Order is reversed, as long as there are no nils; duplicates stay apart. *)
Definition reversed (b : bat) : order_flags := fun nils _ =>
  ((nils =? 0) && b_revsorted b, (nils =? 0) && b_sorted b).

Definition BATcalcnot (b : bat) (s : option cands) : option (bat * bat) :=
  unary b (b_type b) (b_bit b) (if b_bit b then NOTBIT else NOT (b_type b)) s (reversed b)
    (fun _ => b_key b).
Definition BATcalcnegate (b : bat) (s : option cands) : option (bat * bat) :=
  unary b (b_type b) (b_bit b) (NEGATE (b_type b)) s (reversed b) (fun _ => b_key b).
Definition BATcalcabsolute (b : bat) (s : option cands) : option (bat * bat) :=
  unary b (b_type b) (b_bit b) (ABSOLUTE (b_type b)) s unordered (fun cnt => (cnt <=? 1)%nat).
Definition BATcalciszero (b : bat) (s : option cands) : option (bat * bat) :=
  unary b TYPE_bte true ISZERO s unordered (fun cnt => (cnt <=? 1)%nat).
(** The flag for the reverse order is the one the new column was created with,
    which is set. *)
Definition BATcalcsign (b : bat) (s : option cands) : option (bat * bat) :=
  unary b TYPE_bte false SIGN s
    (fun nils cnt => (b_sorted b || plain nils cnt, true || plain nils cnt))
    (fun cnt => (cnt <=? 1)%nat).

Definition VARcalcunary (tp2 : num_type) (isbit : bool) (f : Z -> Z) (v : value) : value :=
  mkValue tp2 isbit (if val v =? num_nil (vtype v) then num_nil tp2 else f (val v)).
Definition VARcalcnot (v : value) : value :=
  VARcalcunary (vtype v) (vbit v) (if vbit v then NOTBIT else NOT (vtype v)) v.
Definition VARcalcnegate (v : value) : value := VARcalcunary (vtype v) (vbit v) (NEGATE (vtype v)) v.
Definition VARcalcabsolute (v : value) : value := VARcalcunary (vtype v) (vbit v) (ABSOLUTE (vtype v)) v.
Definition VARcalciszero (v : value) : value := VARcalcunary TYPE_bte true ISZERO v.
End Logic.

(** ** What an operator returns *)

(** Whether an oid is a candidate, as a test. *)
Definition candb (s : option cands) (o : Z) : bool :=
  match s with
  | None => true
  | Some (Dense q n) => (q <=? o) && (o <? q + Z.of_nat n)
  | Some (Oids l) => existsb (Z.eqb o) l
  end.

Lemma candb_spec s o : candb s o = true <-> candidate s o.
Proof.
  destruct s as [[q n|l]|]; cbn.
  - rewrite andb_true_iff. lia.
  - rewrite existsb_exists. split; [intros (x & I & E); apply Z.eqb_eq in E; now subst|].
    intros I. exists o. split; [exact I|apply Z.eqb_refl].
  - tauto.
Qed.

(** Heads stay below the largest oid. *)
Definition head_ok (b : bat) : Prop := 0 <= b_hseq b /\ b_hseq b + Z.of_nat (BATcount b) < 2 ^ 64.

Definition overflows (c : Convert.cell) : bool := match c with Overflow => true | _ => false end.

Lemma stored_ext row nil3 sel sel' k : sel k = sel' k -> stored row nil3 sel k = stored row nil3 sel' k.
Proof. unfold stored. now intros ->. Qed.

(** An operator whose rows are [row], in full: when it fails, and otherwise the
    values and flags of its result. *)
Lemma finish_at_calc hseq cnt tp isbit s alloc row ab order :
  0 <= hseq -> hseq + Z.of_nat cnt < 2 ^ 64 -> cands_ok hseq cnt s ->
  let sel j := candb s (hseq + Z.of_nat j) in
  let nils := nil_count row sel (seq 0 cnt) in
  finish_at hseq cnt tp isbit s alloc
    (fun cnt start end_ cand => calc_loop row (num_nil tp) ab cnt start end_ cand (hseq)) order
  = if alloc && negb (ab && existsb (fun k => sel k && overflows (row k)) (seq 0 cnt)) then
      Some (mkBat tp isbit (hseq) (map (stored row (num_nil tp) sel) (seq 0 cnt))
              (fst (order nils cnt)) (snd (order nils cnt)) (cnt <=? 1)%nat
              (negb (nils =? 0)) (nils =? 0))
    else None.
Proof.
  intros H0 H1 Ok. cbv zeta. unfold finish_at.
  destruct (CANDINIT (hseq) cnt s) as [[start end_] cand] eqn:E.
  destruct alloc; [|reflexivity]. cbn [negb andb].
  destruct (CANDINIT_spec _ _ _ _ _ _ H0 H1 Ok E) as (sel & e & Sl & He & C).
  pose proof (calc_loop_rows row (num_nil tp) ab cnt start end_ cand (hseq) sel e Sl He) as P.
  cbv zeta in P.
  assert (Q : forall k, (k < cnt)%nat -> chosen_row start e sel k = candb s (hseq + Z.of_nat k)).
  { intros k Hk. apply eq_true_iff_eq. rewrite candb_spec. now apply C. }
  destruct (calc_loop _ _ _ _ _ _ _) as [[nils dst]|].
  - destruct P as (-> & Hd & Hv).
    replace (ab && existsb _ (seq 0 cnt)) with false.
    2:{ symmetry. destruct ab; [|reflexivity]. cbn [andb]. apply not_true_is_false.
        rewrite existsb_exists. intros (k & I & K). apply in_seq in I. apply andb_prop in K as [K1 K2].
        apply (Hv eq_refl k); [lia|rewrite Q by lia; exact K1|]. now destruct (row k). }
    cbn [negb].
    rewrite (nil_count_ext row (chosen_row start e sel) (fun j => candb s (hseq + Z.of_nat j)))
      by (intros k I; apply in_seq in I; apply Q; lia).
    destruct (order _ cnt) as [so rv]. cbn [fst snd]. do 2 f_equal.
    unfold read. apply map_ext_in. intros j I. apply in_seq in I.
    rewrite Hd, Nat2Z.id, (proj2 (Z.leb_le 0 _)), (proj2 (Z.ltb_lt _ _)) by lia. cbn [andb].
    apply stored_ext, Q. lia.
  - destruct P as (-> & k & Hk & K & O). cbn [andb].
    replace (existsb _ (seq 0 cnt)) with true; [reflexivity|]. symmetry. apply existsb_exists. exists k.
    split; [apply in_seq; lia|]. rewrite <- Q by exact Hk. now rewrite K, O.
Qed.

Lemma finish_calc src tp isbit s alloc row ab order :
  head_ok src -> cands_ok (b_hseq src) (BATcount src) s ->
  let cnt := BATcount src in
  let sel j := candb s (b_hseq src + Z.of_nat j) in
  let nils := nil_count row sel (seq 0 cnt) in
  finish src tp isbit s alloc
    (fun cnt start end_ cand => calc_loop row (num_nil tp) ab cnt start end_ cand (b_hseq src)) order
  = if alloc && negb (ab && existsb (fun k => sel k && overflows (row k)) (seq 0 cnt)) then
      Some (mkBat tp isbit (b_hseq src) (map (stored row (num_nil tp) sel) (seq 0 cnt))
              (fst (order nils cnt)) (snd (order nils cnt)) (cnt <=? 1)%nat
              (negb (nils =? 0)) (nils =? 0))
    else None.
Proof. intros [H0 H1] Ok. now apply finish_at_calc. Qed.

(** ** Flags that are true *)

Definition ascending (l : list Z) : Prop :=
  forall i j, (i <= j < List.length l)%nat -> nth i l 0 <= nth j l 0.
Definition descending (l : list Z) : Prop :=
  forall i j, (i <= j < List.length l)%nat -> nth j l 0 <= nth i l 0.

(** A column whose values are of its type and whose flags are true. *)
Record bat_ok (b : bat) : Prop := {
  ok_head : head_ok b;
  ok_typed : Forall (typed (b_type b)) (b_vals b);
  ok_sorted : b_sorted b = true -> ascending (b_vals b);
  ok_revsorted : b_revsorted b = true -> descending (b_vals b);
  ok_key : b_key b = true -> NoDup (b_vals b);
  ok_nil : b_nil b = true -> In (num_nil (b_type b)) (b_vals b);
  ok_nonil : b_nonil b = true -> ~ In (num_nil (b_type b)) (b_vals b);
}.

Section Flags.
Context (row : nat -> Convert.cell) (tp : num_type) (sel : nat -> bool) (cnt : nat).

#[local] Abbreviation rows := (map (stored row (num_nil tp) sel) (seq 0 cnt)).

Lemma nth_rows i : (i < cnt)%nat -> nth i rows 0 = stored row (num_nil tp) sel i.
Proof.
  intros H. rewrite (nth_indep _ 0 (stored row (num_nil tp) sel 0%nat)) by (rewrite length_map, length_seq; exact H).
  rewrite map_nth, seq_nth by exact H. reflexivity.
Qed.

Lemma rows_order (R : Z -> Z -> Prop) :
  (forall i j, (i <= j < cnt)%nat -> R (stored row (num_nil tp) sel i) (stored row (num_nil tp) sel j)) ->
  forall i j, (i <= j < List.length rows)%nat -> R (nth i rows 0) (nth j rows 0).
Proof.
  intros H i j L. rewrite length_map, length_seq in L. rewrite !nth_rows by lia. apply H. lia.
Qed.

Lemma nil_count_bounds l : 0 <= nil_count row sel l <= Z.of_nat (List.length l).
Proof.
  induction l as [|k l IH]; cbn [nil_count fold_right List.length]; [lia|]. unfold nil_count in IH.
  destruct (sel k); [destruct (row k)|]; cbn [cell_nils]; lia.
Qed.

Lemma nil_count_full l :
  nil_count row sel l = Z.of_nat (List.length l) ->
  forall k, In k l -> stored row (num_nil tp) sel k = num_nil tp.
Proof.
  induction l as [|x l IH]; intros E k I; [destruct I|]. cbn [nil_count fold_right List.length] in E.
  pose proof (nil_count_bounds l) as B. unfold nil_count in *. unfold stored.
  destruct I as [->|I].
  - destruct (sel k); [destruct (row k)|]; cbn [cell_nils cell_value] in *; [lia|reflexivity..].
  - apply IH; [|exact I]. destruct (sel x); [destruct (row x)|]; cbn [cell_nils] in E; lia.
Qed.

Lemma plain_equal i j :
  plain (nil_count row sel (seq 0 cnt)) cnt = true -> (i <= j < cnt)%nat ->
  stored row (num_nil tp) sel i = stored row (num_nil tp) sel j.
Proof.
  unfold plain. intros P L. apply orb_prop in P as [P|P].
  - apply Nat.leb_le in P. now replace j with i by lia.
  - apply Z.eqb_eq in P.
    assert (A : forall k, In k (seq 0 cnt) -> stored row (num_nil tp) sel k = num_nil tp)
      by (apply nil_count_full; now rewrite length_seq).
    rewrite !A; try reflexivity; apply in_seq; lia.
Qed.

Lemma plain_ascending : plain (nil_count row sel (seq 0 cnt)) cnt = true -> ascending rows.
Proof. intros P. refine (rows_order Z.le _). intros i j L. rewrite (plain_equal i j P L). lia. Qed.

Lemma plain_descending : plain (nil_count row sel (seq 0 cnt)) cnt = true -> descending rows.
Proof.
  intros P. refine (rows_order (fun a b => b <= a) _). intros i j L. rewrite (plain_equal i j P L). lia.
Qed.

(** The flags for nils, when no row results in the nil pattern. *)
Lemma nil_flags :
  (forall k, (k < cnt)%nat -> sel k = true -> row k <> Val (num_nil tp)) ->
  (nil_count row sel (seq 0 cnt) = 0 <-> ~ In (num_nil tp) rows).
Proof.
  intros NV. rewrite (nil_count_stored row (num_nil tp) sel (seq 0 cnt))
    by (intros k I; apply in_seq in I; apply NV; lia).
  rewrite in_map_iff. split.
  - intros E (k & K & I).
    assert (F : In k (filter (fun j => stored row (num_nil tp) sel j =? num_nil tp) (seq 0 cnt)))
      by (apply filter_In; split; [exact I|apply Z.eqb_eq, K]).
    destruct (filter _ _); [destruct F|cbn in E; lia].
  - intros N. destruct (filter _ (seq 0 cnt)) as [|k l] eqn:F; [reflexivity|]. exfalso.
    assert (I : In k (k :: l)) by now left. rewrite <- F in I. apply filter_In in I as [I K].
    apply N. exists k. split; [apply Z.eqb_eq, K|exact I].
Qed.

Lemma short_NoDup : (cnt <=? 1)%nat = true -> NoDup rows.
Proof.
  intros L. apply Nat.leb_le in L. destruct cnt as [|[|n]]; [constructor| |lia].
  cbn. constructor; [intros []|constructor].
Qed.

End Flags.

(** ** Results without candidates *)

(** A result whose rows are values or nil has true flags as soon as the order
    flags imply the order. *)
Lemma finish_ok src tp isbit alloc row ab order bn :
  head_ok src ->
  (forall k v, (k < BATcount src)%nat -> row k = Val v -> proper tp v) ->
  let cnt := BATcount src in
  let nils := nil_count row (fun _ => true) (seq 0 cnt) in
  let rows := map (stored row (num_nil tp) (fun _ => true)) (seq 0 cnt) in
  ((ab = true -> forall k, (k < cnt)%nat -> row k <> Overflow) ->
    (fst (order nils cnt) = true -> ascending rows)
    /\ (snd (order nils cnt) = true -> descending rows)) ->
  finish src tp isbit None alloc
    (fun cnt start end_ cand => calc_loop row (num_nil tp) ab cnt start end_ cand (b_hseq src)) order
  = Some bn ->
  bat_ok bn.
Proof.
  intros Hh Hv. cbv zeta. intros Ho E.
  rewrite (finish_calc src tp isbit None alloc row ab order Hh I) in E.
  destruct (alloc && _) eqn:A; [|discriminate]. apply andb_prop in A as [_ A].
  change (fun j => candb None (b_hseq src + Z.of_nat j)) with (fun _ : nat => true) in *.
  set (cnt := BATcount src) in *. set (nils := nil_count _ _ _) in *.
  assert (NO : ab = true -> forall k, (k < cnt)%nat -> row k <> Overflow).
  { intros -> k Hk O. cbn [andb] in A. apply negb_true_iff in A.
    assert (X : existsb (fun k => candb None (b_hseq src + Z.of_nat k) && overflows (row k)) (seq 0 cnt) = true);
      [|congruence].
    apply existsb_exists. exists k. split; [apply in_seq; lia|]. now rewrite O. }
  destruct (Ho NO) as [Ho1 Ho2].
  assert (NV : forall k, (k < cnt)%nat -> true = true -> row k <> Val (num_nil tp)).
  { intros k Hk _ R. apply (proper_not_nil tp (num_nil tp)); [exact (Hv k _ Hk R)|reflexivity]. }
  pose proof (nil_flags row tp (fun _ => true) cnt NV) as NF. fold nils in NF.
  injection E as <-. split; cbn [b_hseq b_vals b_type b_sorted b_revsorted b_key b_nil b_nonil].
  - unfold head_ok, BATcount in *. cbn [b_hseq b_vals]. rewrite length_map, length_seq. exact Hh.
  - apply Forall_forall. intros v I. apply in_map_iff in I as (k & <- & I). apply in_seq in I.
    assert (N : typed tp (num_nil tp)) by (unfold typed; destruct tp; num_consts; lia).
    unfold stored. destruct (row k) as [v| |] eqn:R; cbn [cell_value]; try exact N.
    specialize (Hv k v ltac:(lia) R). unfold proper, typed in *. lia.
  - exact Ho1.
  - exact Ho2.
  - apply short_NoDup.
  - intros Z. destruct (in_dec Z.eq_dec (num_nil tp) (map (stored row (num_nil tp) (fun _ => true)) (seq 0 cnt)))
      as [|N]; [assumption|]. apply NF in N. rewrite N in Z. discriminate.
  - intros Z. apply NF. lia.
Qed.

(** The operands of a row. *)
Section Operands.
Context (f : Z -> Z -> Convert.cell) (tp1 tp2 tp3 : num_type) (lft : list Z) (incr1 : Z) (rgt : list Z)
  (incr2 : Z) (cnt : nat) (ab : bool).
Hypothesis Tl : forall k, (k < cnt)%nat -> typed tp1 (operand lft incr1 k).
Hypothesis Tr : forall k, (k < cnt)%nat -> typed tp2 (operand rgt incr2 k).

#[local] Abbreviation row := (row_cell f lft incr1 rgt incr2).
#[local] Abbreviation rows := (map (stored row (num_nil tp3) (fun _ => true)) (seq 0 cnt)).

(** What an exact operator makes of a row that does not overflow. *)
Lemma row_exact_value op k :
  row_exact op tp1 tp2 tp3 f -> (k < cnt)%nat -> row k <> Overflow ->
  let l := operand lft incr1 k in let r := operand rgt incr2 k in
  ((l = num_nil tp1 \/ r = num_nil tp2) /\ row k = NilCell)
  \/ (proper tp1 l /\ proper tp2 r /\ row k = Val (op l r) /\ proper tp3 (op l r)).
Proof.
  intros X Hk NO. cbv zeta. unfold row_cell in *. destruct (X _ _ (Tl k Hk) (Tr k Hk)) as [X1 X2].
  destruct (typed_proper _ _ (Tl k Hk)) as [L|L]; [left; auto|].
  destruct (typed_proper _ _ (Tr k Hk)) as [R|R]; [left; auto|]. right.
  destruct (X2 L R) as [[P E]|[P E]]; [auto|congruence].
Qed.

Lemma row_exact_proper op k v :
  row_exact op tp1 tp2 tp3 f -> (k < cnt)%nat -> row k = Val v -> proper tp3 v.
Proof.
  intros X Hk E. destruct (row_exact_value op k X Hk) as [[_ N]|(_ & _ & N & P)];
    [congruence|congruence|]. congruence.
Qed.

(** A monotone operator keeps operands in order, nil being the smallest value
    on both sides. *)
Lemma row_exact_mono op i j :
  row_exact op tp1 tp2 tp3 f -> (forall k, (k < cnt)%nat -> row k <> Overflow) ->
  (i < cnt)%nat -> (j < cnt)%nat ->
  operand lft incr1 i <= operand lft incr1 j -> operand rgt incr2 i <= operand rgt incr2 j ->
  (proper tp1 (operand lft incr1 i) -> proper tp2 (operand rgt incr2 i) ->
   op (operand lft incr1 i) (operand rgt incr2 i) <= op (operand lft incr1 j) (operand rgt incr2 j)) ->
  stored row (num_nil tp3) (fun _ => true) i <= stored row (num_nil tp3) (fun _ => true) j.
Proof.
  intros X NO Hi Hj Ll Lr M. unfold stored.
  pose proof (Tl j Hj). pose proof (Tr j Hj).
  destruct (row_exact_value op i X Hi (NO i Hi)) as [[_ ->]|(P1 & P2 & -> & P3)];
    destruct (row_exact_value op j X Hj (NO j Hj)) as [[N ->]|(Q1 & Q2 & -> & Q3)];
    cbn [cell_value]; unfold proper, typed in *; try lia.
Qed.

(** Without nils an antitone operator reverses the order. *)
Lemma row_exact_anti op i j :
  row_exact op tp1 tp2 tp3 f -> (forall k, (k < cnt)%nat -> row k <> Overflow) ->
  nil_count row (fun _ => true) (seq 0 cnt) = 0 -> (i < cnt)%nat -> (j < cnt)%nat ->
  op (operand lft incr1 j) (operand rgt incr2 j) <= op (operand lft incr1 i) (operand rgt incr2 i) ->
  stored row (num_nil tp3) (fun _ => true) j <= stored row (num_nil tp3) (fun _ => true) i.
Proof.
  intros X NO N Hi Hj M.
  assert (NV : forall k, (k < cnt)%nat -> true = true -> row k <> Val (num_nil tp3)).
  { intros k Hk _ E. apply (proper_not_nil tp3 (num_nil tp3)); [|reflexivity].
    exact (row_exact_proper op k _ X Hk E). }
  apply (nil_flags row tp3 (fun _ => true) cnt NV) in N.
  assert (V : forall k, (k < cnt)%nat -> row k <> NilCell).
  { intros k Hk E. apply N. apply in_map_iff. exists k. split; [|apply in_seq; lia].
    unfold stored. now rewrite E. }
  unfold stored.
  destruct (row_exact_value op i X Hi (NO i Hi)) as [[_ E]|(_ & _ & -> & _)]; [now apply V in E|].
  destruct (row_exact_value op j X Hj (NO j Hj)) as [[_ E]|(_ & _ & -> & _)]; [now apply V in E|].
  exact M.
Qed.

End Operands.

Lemma operand_column vals k : operand vals 1 k = nth k vals 0.
Proof. unfold operand. now rewrite Z.mul_1_r, Nat2Z.id. Qed.

Lemma operand_const v k : operand [v] 0 k = v.
Proof. unfold operand. now rewrite Z.mul_0_r. Qed.

Lemma column_typed b k : bat_ok b -> (k < BATcount b)%nat -> typed (b_type b) (operand (b_vals b) 1 k).
Proof.
  intros O L. rewrite operand_column. pose proof (ok_typed b O) as F. rewrite Forall_forall in F.
  apply F, nth_In, L.
Qed.

(** Two rows in order, in both operands and in the result. *)
Definition in_order (op : Z -> Z -> Z) (tp1 tp2 : num_type) (lft : list Z) (incr1 : Z) (rgt : list Z)
    (incr2 : Z) (i j : nat) : Prop :=
  operand lft incr1 i <= operand lft incr1 j /\ operand rgt incr2 i <= operand rgt incr2 j
  /\ (proper tp1 (operand lft incr1 i) -> proper tp2 (operand rgt incr2 i) ->
      op (operand lft incr1 i) (operand rgt incr2 i) <= op (operand lft incr1 j) (operand rgt incr2 j)).

(** A flag that is set only when all values are equal, when the operator keeps
    the order of its operands and errors abort, or when it reverses it and
    there are no nils. *)
Definition justified (op : Z -> Z -> Z) (tp1 tp2 : num_type) (lft : list Z) (incr1 : Z) (rgt : list Z)
    (incr2 : Z) (cnt : nat) (ab : bool) (nils : Z) (up : bool) (flag : bool) : Prop :=
  flag = true ->
  plain nils cnt = true
  \/ (ab = true /\ forall i j, (i <= j < cnt)%nat ->
        in_order op tp1 tp2 lft incr1 rgt incr2 (if up then i else j) (if up then j else i))
  \/ (ab = true /\ nils = 0 /\ forall i j, (i <= j < cnt)%nat ->
        if up then op (operand lft incr1 i) (operand rgt incr2 i) <= op (operand lft incr1 j) (operand rgt incr2 j)
        else op (operand lft incr1 j) (operand rgt incr2 j) <= op (operand lft incr1 i) (operand rgt incr2 i)).

Lemma switch_ok op cell tp1 tp2 tp3 lft incr1 rgt incr2 src isbit alloc ab order bn :
  head_ok src ->
  (forall f, cell = Some f -> row_exact op tp1 tp2 tp3 f) ->
  (forall k, (k < BATcount src)%nat -> typed tp1 (operand lft incr1 k)) ->
  (forall k, (k < BATcount src)%nat -> typed tp2 (operand rgt incr2 k)) ->
  (forall nils, justified op tp1 tp2 lft incr1 rgt incr2 (BATcount src) ab nils true (fst (order nils (BATcount src)))) ->
  (forall nils, justified op tp1 tp2 lft incr1 rgt incr2 (BATcount src) ab nils false (snd (order nils (BATcount src)))) ->
  finish src tp3 isbit None alloc (switch cell tp3 ab lft incr1 rgt incr2 (b_hseq src)) order = Some bn ->
  bat_ok bn.
Proof.
  intros Hh X Tl Tr J1 J2 E. destruct cell as [f|]; cycle 1.
  { unfold finish, finish_at in E. destruct (CANDINIT _ _ _) as [[? ?] ?]. destruct alloc; discriminate. }
  specialize (X f eq_refl).
  refine (finish_ok src tp3 isbit alloc (row_cell f lft incr1 rgt incr2) ab order bn Hh _ _ E).
  - intros k v Hk. exact (row_exact_proper f tp1 tp2 tp3 lft incr1 rgt incr2 (BATcount src) Tl Tr op k v X Hk).
  - intros NO. set (cnt := BATcount src) in *. set (nils := nil_count _ _ _).
    split; intros F; [destruct (J1 nils F) as [P|[[A M]|(A & N & M)]]|destruct (J2 nils F) as [P|[[A M]|(A & N & M)]]];
      cbv iota in *.
    + now apply plain_ascending.
    + refine (rows_order _ _ _ _ Z.le _). intros i j L. destruct (M i j L) as (M1 & M2 & M3).
      apply (row_exact_mono f tp1 tp2 tp3 lft incr1 rgt incr2 cnt Tl Tr op i j); auto; lia.
    + refine (rows_order _ _ _ _ Z.le _). intros i j L.
      apply (row_exact_anti f tp1 tp2 tp3 lft incr1 rgt incr2 cnt Tl Tr op j i); auto; lia.
    + now apply plain_descending.
    + refine (rows_order _ _ _ _ (fun a b => b <= a) _). intros i j L. destruct (M i j L) as (M1 & M2 & M3).
      apply (row_exact_mono f tp1 tp2 tp3 lft incr1 rgt incr2 cnt Tl Tr op j i); auto; lia.
    + refine (rows_order _ _ _ _ (fun a b => b <= a) _). intros i j L.
      apply (row_exact_anti f tp1 tp2 tp3 lft incr1 rgt incr2 cnt Tl Tr op i j); auto; lia.
Qed.

(** The operands of column operators, in order when the columns are flagged. *)
Lemma column_le b i j (up : bool) :
  bat_ok b -> (i <= j < BATcount b)%nat -> (if up then b_sorted b else b_revsorted b) = true ->
  operand (b_vals b) 1 (if up then i else j) <= operand (b_vals b) 1 (if up then j else i).
Proof.
  intros O L F. rewrite !operand_column. destruct up.
  - apply (ok_sorted b O F). exact L.
  - apply (ok_revsorted b O F). exact L.
Qed.

Lemma unordered_justified op tp1 tp2 lft incr1 rgt incr2 cnt ab nils up :
  justified op tp1 tp2 lft incr1 rgt incr2 cnt ab nils up (plain nils cnt).
Proof. intros F. now left. Qed.

(** Addition and subtraction of a constant, addition of columns. *)
Lemma add_justified op tp1 tp2 lft incr1 rgt incr2 cnt ab nils (up : bool) s :
  (s = true -> forall i j, (i <= j < cnt)%nat ->
     in_order op tp1 tp2 lft incr1 rgt incr2 (if up then i else j) (if up then j else i)) ->
  justified op tp1 tp2 lft incr1 rgt incr2 cnt ab nils up ((ab && s) || plain nils cnt).
Proof.
  intros M F. apply orb_prop in F as [F|F]; [|now left]. apply andb_prop in F as [A S].
  right; left. auto.
Qed.

(** Multiplication by a constant, from its sign. *)
Lemma mul_justified op tp1 tp2 lft incr1 rgt incr2 cnt (ab : bool) sign nils (up : bool) s r :
  (sign >= 0 -> s = true -> forall i j, (i <= j < cnt)%nat ->
     in_order op tp1 tp2 lft incr1 rgt incr2 (if up then i else j) (if up then j else i)) ->
  (sign <= 0 -> r = true -> nils = 0 -> forall i j, (i <= j < cnt)%nat ->
     if up then op (operand lft incr1 i) (operand rgt incr2 i) <= op (operand lft incr1 j) (operand rgt incr2 j)
     else op (operand lft incr1 j) (operand rgt incr2 j) <= op (operand lft incr1 i) (operand rgt incr2 i)) ->
  justified op tp1 tp2 lft incr1 rgt incr2 cnt ab nils up
    (if ab then ((sign >=? 0) && s) || ((sign <=? 0) && r && (nils =? 0)) || plain nils cnt
     else plain nils cnt).
Proof.
  intros M N F. destruct ab; [|now left]. apply orb_prop in F as [F|F]; [|now left].
  apply orb_prop in F as [F|F]; rewrite ?Z.geb_leb in F; breflect.
  - right; left. split; [reflexivity|]. intros i j L. apply M; [lia|assumption|exact L].
  - right; right. split; [reflexivity|]. split; [assumption|]. intros i j L. apply N; auto.
Qed.

Lemma sign_val v : (VARcalcsign v >= 0 -> val v >= 0) /\ (VARcalcsign v <= 0 -> val v <= 0).
Proof.
  unfold VARcalcsign, SIGN. assert (num_nil (vtype v) < 0) by (destruct (vtype v); reflexivity).
  num_consts. destruct (Z.eqb_spec (val v) (num_nil (vtype v))); [lia|].
  destruct (Z.ltb_spec (val v) 0); [lia|]. rewrite Z.gtb_ltb. destruct (Z.ltb_spec 0 (val v)); lia.
Qed.

(** The supported rows are exact. *)
Lemma add_cell_exact full tp1 tp2 tp3 f :
  add_cell full tp1 tp2 tp3 = Some f -> row_exact Z.add tp1 tp2 tp3 f.
Proof.
  unfold add_cell. destruct (arith_variant full tp1 tp2 tp3) as [w|] eqn:V; [|discriminate].
  destruct (variant_sizes _ _ _ _ _ V) as (S1 & S2 & S3). destruct w; intros E; injection E as <-.
  - apply nil_or_exact. intros. apply ADD_exact; [now apply (proper_wider tp1)|now apply (proper_wider tp2)].
  - destruct (S3 eq_refl). apply enlarge_exact. intros. now apply (enlarge_room tp1 tp2 tp3 l r).
Qed.

Lemma sub_cell_exact full tp1 tp2 tp3 f :
  sub_cell full tp1 tp2 tp3 = Some f -> row_exact Z.sub tp1 tp2 tp3 f.
Proof.
  unfold sub_cell. destruct (arith_variant full tp1 tp2 tp3) as [w|] eqn:V; [|discriminate].
  destruct (variant_sizes _ _ _ _ _ V) as (S1 & S2 & S3). destruct w; intros E; injection E as <-.
  - apply nil_or_exact. intros. apply SUB_exact; [now apply (proper_wider tp1)|now apply (proper_wider tp2)].
  - destruct (S3 eq_refl). apply enlarge_exact. intros. now apply (enlarge_room tp1 tp2 tp3 l r).
Qed.

Lemma mul_cell_exact full how tp1 tp2 tp3 f :
  mul_cell full how tp1 tp2 tp3 = Some f -> row_exact Z.mul tp1 tp2 tp3 f.
Proof.
  unfold mul_cell. destruct (arith_variant full tp1 tp2 tp3) as [w|] eqn:V; [|discriminate].
  destruct (variant_sizes _ _ _ _ _ V) as (S1 & S2 & S3). destruct w; intros E; injection E as <-.
  - apply nil_or_exact. intros. apply mul_check_exact; [now apply (proper_wider tp1)|now apply (proper_wider tp2)].
  - destruct (S3 eq_refl). apply enlarge_exact. intros. now apply (enlarge_room tp1 tp2 tp3 l r).
Qed.

Section Families.
Context (full : bool) (how : mul_lng) (alloc : bool) (b1 b2 : bat) (v : value) (tp : num_type) (ab : bool) (bn : bat).
Hypothesis O1 : bat_ok b1.
Hypothesis O2 : bat_ok b2.
Hypothesis Tv : typed (vtype v) (val v).

#[local] Ltac operands :=
  intros; first [now apply column_typed | rewrite operand_const; exact Tv].

Lemma two_columns op cell order :
  checkbats b1 b2 = true ->
  (forall f, cell = Some f -> row_exact op (b_type b1) (b_type b2) tp f) ->
  (forall nils, justified op (b_type b1) (b_type b2) (b_vals b1) 1 (b_vals b2) 1 (BATcount b1) ab nils true
     (fst (order nils (BATcount b1)))) ->
  (forall nils, justified op (b_type b1) (b_type b2) (b_vals b1) 1 (b_vals b2) 1 (BATcount b1) ab nils false
     (snd (order nils (BATcount b1)))) ->
  finish b1 tp false None alloc (switch cell tp ab (b_vals b1) 1 (b_vals b2) 1 (b_hseq b1)) order = Some bn ->
  bat_ok bn.
Proof.
  intros Q X J1 J2. apply (switch_ok op cell (b_type b1) (b_type b2) tp); auto; [apply (ok_head b1 O1)|operands|].
  intros k Hk. apply column_typed; [exact O2|]. unfold checkbats in Q. apply Nat.eqb_eq in Q. lia.
Qed.

Lemma column_constant op cell order :
  (forall f, cell = Some f -> row_exact op (b_type b1) (vtype v) tp f) ->
  (forall nils, justified op (b_type b1) (vtype v) (b_vals b1) 1 [val v] 0 (BATcount b1) ab nils true
     (fst (order nils (BATcount b1)))) ->
  (forall nils, justified op (b_type b1) (vtype v) (b_vals b1) 1 [val v] 0 (BATcount b1) ab nils false
     (snd (order nils (BATcount b1)))) ->
  finish b1 tp false None alloc (switch cell tp ab (b_vals b1) 1 [val v] 0 (b_hseq b1)) order = Some bn ->
  bat_ok bn.
Proof.
  intros X J1 J2. apply (switch_ok op cell (b_type b1) (vtype v) tp); auto; [apply (ok_head b1 O1)|operands|operands].
Qed.

Lemma constant_column op cell order :
  (forall f, cell = Some f -> row_exact op (vtype v) (b_type b1) tp f) ->
  (forall nils, justified op (vtype v) (b_type b1) [val v] 0 (b_vals b1) 1 (BATcount b1) ab nils true
     (fst (order nils (BATcount b1)))) ->
  (forall nils, justified op (vtype v) (b_type b1) [val v] 0 (b_vals b1) 1 (BATcount b1) ab nils false
     (snd (order nils (BATcount b1)))) ->
  finish b1 tp false None alloc (switch cell tp ab [val v] 0 (b_vals b1) 1 (b_hseq b1)) order = Some bn ->
  bat_ok bn.
Proof.
  intros X J1 J2. apply (switch_ok op cell (vtype v) (b_type b1) tp); auto; [apply (ok_head b1 O1)|operands|operands].
Qed.

Lemma add_family :
  In (Some bn) [BATcalcadd full alloc b1 b2 None tp ab; BATcalcaddcst full alloc b1 v None tp ab;
                BATcalccstadd full alloc v b1 None tp ab] -> bat_ok bn.
Proof.
  intros [E|[E|[E|[]]]].
  - unfold BATcalcadd in E. destruct (checkbats b1 b2) eqn:Q; [|discriminate].
    revert E. apply (two_columns Z.add); [exact Q|intros f; apply add_cell_exact|..]; intros nils;
      apply add_justified; intros S i j L; apply andb_prop in S as [S1 S2];
      pose proof (fun up => column_le b1 i j up O1 L) as C1; unfold checkbats in Q; apply Nat.eqb_eq in Q;
      pose proof (fun up => column_le b2 i j up O2 ltac:(lia)) as C2; unfold in_order.
    + specialize (C1 true S1). specialize (C2 true S2). cbv iota in *. lia.
    + specialize (C1 false S1). specialize (C2 false S2). cbv iota in *. lia.
  - revert E. apply (column_constant Z.add); [intros f; apply add_cell_exact|..]; intros nils;
      apply add_justified; rewrite andb_true_r; intros S i j L;
      pose proof (fun up => column_le b1 i j up O1 L) as C1; unfold in_order; rewrite !operand_const.
    + specialize (C1 true S). cbv iota in *. lia.
    + specialize (C1 false S). cbv iota in *. lia.
  - revert E. apply (constant_column Z.add); [intros f; apply add_cell_exact|..]; intros nils;
      apply add_justified; rewrite andb_true_r; intros S i j L;
      pose proof (fun up => column_le b1 i j up O1 L) as C1; unfold in_order; rewrite !operand_const.
    + specialize (C1 true S). cbv iota in *. lia.
    + specialize (C1 false S). cbv iota in *. lia.
Qed.

Lemma sub_family :
  In (Some bn) [BATcalcsub full alloc b1 b2 None tp ab; BATcalcsubcst full alloc b1 v None tp ab;
                BATcalccstsub full alloc v b1 None tp ab] -> bat_ok bn.
Proof.
  intros [E|[E|[E|[]]]].
  - unfold BATcalcsub in E. destruct (checkbats b1 b2) eqn:Q; [|discriminate].
    revert E. apply (two_columns Z.sub); [exact Q|intros f; apply sub_cell_exact|..]; intros nils;
      apply unordered_justified.
  - revert E. apply (column_constant Z.sub); [intros f; apply sub_cell_exact|..]; intros nils;
      apply add_justified; rewrite andb_true_r; intros S i j L;
      pose proof (fun up => column_le b1 i j up O1 L) as C1; unfold in_order; rewrite !operand_const.
    + specialize (C1 true S). cbv iota in *. lia.
    + specialize (C1 false S). cbv iota in *. lia.
  - revert E. apply (constant_column Z.sub); [intros f; apply sub_cell_exact|..]; intros nils F;
      cbn [fst snd] in F; apply orb_prop in F as [F|F]; try (now left); right; right;
      apply andb_prop in F as [F S]; apply andb_prop in F as [A N]; apply Z.eqb_eq in N;
      (split; [exact A|split; [exact N|]]); intros i j L; rewrite !operand_const;
      pose proof (fun up => column_le b1 i j up O1 L) as C1.
    + specialize (C1 false S). cbv iota in *. lia.
    + specialize (C1 true S). cbv iota in *. lia.
Qed.
End Families.

Section MulFamily.
Context (full : bool) (how : mul_lng) (alloc : bool) (b1 b2 : bat) (v : value) (tp : num_type) (ab : bool) (bn : bat).
Hypothesis O1 : bat_ok b1.
Hypothesis O2 : bat_ok b2.
Hypothesis Tv : typed (vtype v) (val v).

Lemma mul_flags_split ab' sign b nils cnt :
  mul_flags ab' sign b nils cnt =
  (if ab' then ((sign >=? 0) && b_sorted b) || ((sign <=? 0) && b_revsorted b && (nils =? 0)) || plain nils cnt
   else plain nils cnt,
   if ab' then ((sign >=? 0) && b_revsorted b) || ((sign <=? 0) && b_sorted b && (nils =? 0)) || plain nils cnt
   else plain nils cnt).
Proof. unfold mul_flags. now destruct ab'. Qed.

(** Multiplying by the constant keeps or reverses the order of the column. *)
Lemma mul_const_order i j (up : bool) :
  (i <= j < BATcount b1)%nat ->
  let x k := operand (b_vals b1) 1 k in
  (VARcalcsign v >= 0 -> (if up then b_sorted b1 else b_revsorted b1) = true ->
   x (if up then i else j) <= x (if up then j else i)
   /\ x (if up then i else j) * val v <= x (if up then j else i) * val v)
  /\ (VARcalcsign v <= 0 -> (if up then b_revsorted b1 else b_sorted b1) = true ->
      if up then x i * val v <= x j * val v else x j * val v <= x i * val v).
Proof.
  intros L. cbv zeta. pose proof (sign_val v) as [SV1 SV2]. split; intros S F.
  - pose proof (column_le b1 i j up O1 L F). specialize (SV1 S). split; [assumption|nia].
  - specialize (SV2 S). destruct up.
    + pose proof (column_le b1 i j false O1 L F). cbv iota in *. nia.
    + pose proof (column_le b1 i j true O1 L F). cbv iota in *. nia.
Qed.

Lemma mul_family :
  In (Some bn) [BATcalcmul full how alloc b1 b2 None tp ab; BATcalcmulcst full how alloc b1 v None tp ab;
                BATcalccstmul full how alloc v b1 None tp ab] -> bat_ok bn.
Proof.
  intros [E|[E|[E|[]]]].
  - unfold BATcalcmul in E. destruct (checkbats b1 b2) eqn:Q; [|discriminate].
    revert E. apply (two_columns _ b1 b2 tp ab bn O1 O2 Z.mul); [exact Q|intros f; apply mul_cell_exact|..];
      intros nils; apply unordered_justified.
  - revert E. apply (column_constant alloc b1 v tp ab bn O1 Tv Z.mul); [intros f; apply mul_cell_exact|..];
      intros nils; rewrite mul_flags_split; apply mul_justified; intros S F; [|intros _| |intros _]; intros i j L; unfold in_order; rewrite !operand_const.
    + destruct (proj1 (mul_const_order i j true L) S F). split; [assumption|]. split; [lia|auto].
    + exact (proj2 (mul_const_order i j true L) S F).
    + destruct (proj1 (mul_const_order i j false L) S F). split; [assumption|]. split; [lia|auto].
    + exact (proj2 (mul_const_order i j false L) S F).
  - revert E. apply (constant_column alloc b1 v tp ab bn O1 Tv Z.mul); [intros f; apply mul_cell_exact|..];
      intros nils; rewrite mul_flags_split; apply mul_justified; intros S F; [|intros _| |intros _]; intros i j L; unfold in_order; rewrite !operand_const, ?(Z.mul_comm (val v)).
    + destruct (proj1 (mul_const_order i j true L) S F). split; [lia|]. split; [assumption|auto].
    + exact (proj2 (mul_const_order i j true L) S F).
    + destruct (proj1 (mul_const_order i j false L) S F). split; [lia|]. split; [assumption|auto].
    + exact (proj2 (mul_const_order i j false L) S F).
Qed.
End MulFamily.

(** C33: Without a candidate list, the flags of a sum, difference or product of
    columns and constants are true when those of the arguments are: sorted and
    reversely sorted columns are, nils are there or not as flagged, columns
    flagged to have no duplicates have none, and all values are of the type. *)
Theorem calc_flags_true full how alloc b1 b2 v tp ab bn
    (O1 : bat_ok b1) (O2 : bat_ok b2) (Tv : typed (vtype v) (val v))
    (R : In (Some bn)
           [BATcalcadd full alloc b1 b2 None tp ab; BATcalcaddcst full alloc b1 v None tp ab;
            BATcalccstadd full alloc v b1 None tp ab;
            BATcalcsub full alloc b1 b2 None tp ab; BATcalcsubcst full alloc b1 v None tp ab;
            BATcalccstsub full alloc v b1 None tp ab;
            BATcalcmul full how alloc b1 b2 None tp ab; BATcalcmulcst full how alloc b1 v None tp ab;
            BATcalccstmul full how alloc v b1 None tp ab]) :
  bat_ok bn.
Proof.
  cbn [In] in R.
  assert (In (Some bn) [BATcalcadd full alloc b1 b2 None tp ab; BATcalcaddcst full alloc b1 v None tp ab;
                        BATcalccstadd full alloc v b1 None tp ab]
    \/ In (Some bn) [BATcalcsub full alloc b1 b2 None tp ab; BATcalcsubcst full alloc b1 v None tp ab;
                     BATcalccstsub full alloc v b1 None tp ab]
    \/ In (Some bn) [BATcalcmul full how alloc b1 b2 None tp ab;
                     BATcalcmulcst full how alloc b1 v None tp ab;
                     BATcalccstmul full how alloc v b1 None tp ab]) as [X|[X|X]] by (cbn [In]; tauto).
  - exact (add_family full alloc b1 b2 v tp ab bn O1 O2 Tv X).
  - exact (sub_family full alloc b1 b2 v tp ab bn O1 O2 Tv X).
  - exact (mul_family full how alloc b1 b2 v tp ab bn O1 O2 Tv X).
Qed.

Lemma nth_read dst n j : (j < n)%nat -> nth j (read dst n) 0 = match dst (Z.of_nat j) with Some v => v | None => 0 end.
Proof.
  intros H. unfold read.
  rewrite (nth_indep _ 0 (match dst (Z.of_nat 0) with Some v => v | None => 0 end))
    by (rewrite length_map, length_seq; exact H).
  rewrite (map_nth (fun j => match dst (Z.of_nat j) with Some v => v | None => 0 end)), seq_nth by exact H.
  reflexivity.
Qed.

(** An ascending column of three bytes with a nil. *)
Definition sample_bat : bat := mkBat TYPE_bte false 10 [-128; 3; 50] true false true true false.

Lemma sample_bat_ok : bat_ok sample_bat.
Proof.
  split; cbn; try discriminate.
  - unfold head_ok. cbn. lia.
  - repeat constructor; unfold typed; num_consts; lia.
  - intros _ i j L. cbn in L. destruct i as [|[|[|i]]], j as [|[|[|j]]]; cbn; lia.
  - intros _. repeat constructor; cbn; lia.
  - intros _. now left.
Qed.

Lemma calc_flags_true_witness :
  exists bn, BATcalccstmul false ByParts true (mkValue TYPE_bte false 2) sample_bat None TYPE_bte true = Some bn
    /\ b_vals bn = [-128; 6; 100] /\ b_sorted bn = true /\ bat_ok bn.
Proof.
  eexists. split; [reflexivity|]. split; [reflexivity|]. split; [reflexivity|].
  apply (calc_flags_true false ByParts true sample_bat sample_bat (mkValue TYPE_bte false 2) TYPE_bte true);
    [exact sample_bat_ok|exact sample_bat_ok|unfold typed; num_consts; cbn; lia|].
  do 8 right. left. reflexivity.
Defined.

(** ** Flags that are not true *)

Lemma seq_two n : (2 <= n)%nat -> seq 0 n = 0%nat :: 1%nat :: seq 2 (n - 2).
Proof. intros L. destruct n as [|[|n]]; [lia|lia|]. cbn. now rewrite Nat.sub_0_r. Qed.

Lemma add_zero full tp :
  exists f, add_cell full tp tp tp = Some f /\ forall l, proper tp l -> f l 0 = Val l.
Proof.
  unfold add_cell, arith_variant, wider. rewrite Z.ltb_irrefl, Z.eqb_refl. eexists. split; [reflexivity|].
  intros l Pl. destruct (nil_or_exact Z.add tp tp tp (ADD_WITH_CHECK tp) (ADD_exact tp) l 0) as [_ X];
    [unfold proper, typed in *; lia|unfold typed; destruct tp; num_consts; lia|].
  assert (P0 : proper tp 0) by (unfold proper; destruct tp; num_consts; lia).
  rewrite Z.add_0_r in X. destruct (X Pl P0) as [[_ E]|[N _]]; [exact E|contradiction].
Qed.

(** With a candidate list the order flags of a sum are wrong: adding zero to
    a sorted column of which only the first row is a candidate gives a column
    that is flagged sorted, although a nil, the smallest value, follows a
    value. *)
Theorem add_candidates_missorted full b
    (O : bat_ok b) (S : b_sorted b = true) (L : (2 <= BATcount b)%nat)
    (P : nth 0 (b_vals b) 0 <> num_nil (b_type b)) :
  exists bn, BATcalcaddcst full true b (mkValue (b_type b) false 0) (Some (Dense (b_hseq b) 1)) (b_type b) true
             = Some bn
    /\ b_sorted bn = true
    /\ nth 0 (b_vals bn) 0 = nth 0 (b_vals b) 0 /\ nth 1 (b_vals bn) 0 = num_nil (b_type b)
    /\ ~ ascending (b_vals bn).
Proof.
  set (tp := b_type b) in *. pose proof (ok_head b O) as [H0 H1].
  destruct (add_zero full tp) as (f & Ef & Cf).
  assert (P0 : proper tp (nth 0 (b_vals b) 0)).
  { pose proof (column_typed b 0 O ltac:(lia)) as T. rewrite operand_column in T.
    destruct (typed_proper _ _ T); [contradiction|assumption]. }
  unfold BATcalcaddcst. fold tp. cbn [vtype val]. rewrite Ef. unfold switch.
  change (fun cnt start end_ cand => binary_loop f (num_nil tp) true (b_vals b) 1 [0] 0 cnt start end_ cand (b_hseq b))
    with (fun cnt start end_ cand => calc_loop (row_cell f (b_vals b) 1 [0] 0) (num_nil tp) true cnt start end_ cand
            (b_hseq b)).
  match goal with |- exists bn, ?x = _ /\ _ => change x with
    (finish b tp false (Some (Dense (b_hseq b) 1)) true
      (fun cnt start end_ cand => calc_loop (row_cell f (b_vals b) 1 [0] 0) (num_nil tp) true cnt start end_ cand
         (b_hseq b)) (add_flags true (b_sorted b) (b_revsorted b) true true)) end.
  rewrite (finish_calc b tp false (Some (Dense (b_hseq b) 1)) true (row_cell f (b_vals b) 1 [0] 0) true _ (conj H0 H1) I).
  set (sel := fun j => candb (Some (Dense (b_hseq b) 1)) (b_hseq b + Z.of_nat j)).
  assert (Sel : sel 0%nat = true /\ forall j, (0 < j)%nat -> sel j = false).
  { unfold sel. cbn. split; [lia|]. intros j Hj. lia. }
  destruct Sel as [Sel0 Sel1].
  assert (R0 : row_cell f (b_vals b) 1 [0] 0 0 = Val (nth 0 (b_vals b) 0)).
  { unfold row_cell. rewrite operand_column, operand_const. now apply Cf. }
  replace (existsb _ (seq 0 (BATcount b))) with false.
  2:{ symmetry. apply not_true_is_false. rewrite existsb_exists. intros (k & _ & K).
      destruct k as [|k]; [rewrite R0, andb_false_r in K; discriminate|].
      change (sel (Datatypes.S k) && overflows (row_cell f (b_vals b) 1 [0] 0 (Datatypes.S k)) = true) in K.
      rewrite Sel1 in K by lia. discriminate. }
  cbn [andb negb]. eexists. split; [reflexivity|]. cbn [b_sorted b_vals].
  unfold add_flags. cbn [fst]. rewrite S. cbn [andb orb]. split; [reflexivity|].
  rewrite (seq_two (BATcount b) L). cbn [map nth]. unfold stored.
  change (candb (Some (Dense (b_hseq b) 1)) (b_hseq b + Z.of_nat 0)) with (sel 0%nat).
  change (candb (Some (Dense (b_hseq b) 1)) (b_hseq b + Z.of_nat 1)) with (sel 1%nat).
  rewrite Sel0, (Sel1 1%nat), R0 by lia. cbn [cell_value].
  split; [reflexivity|]. split; [reflexivity|]. intros A. specialize (A 0%nat 1%nat). cbn [nth] in A.
  cbn [List.length] in A. unfold proper in P0. lia.
Qed.

Lemma add_candidates_missorted_witness :
  exists bn, BATcalcaddcst false true (mkBat TYPE_int false 0 [4; 9] true false true false true)
               (mkValue TYPE_int false 0) (Some (Dense 0 1)) TYPE_int true = Some bn
    /\ b_sorted bn = true /\ ~ ascending (b_vals bn).
Proof.
  assert (O : bat_ok (mkBat TYPE_int false 0 [4; 9] true false true false true)).
  { split; cbn; try discriminate.
    - unfold head_ok. cbn. lia.
    - repeat constructor; unfold typed; num_consts; lia.
    - intros _ i j L. cbn in L. destruct i as [|[|i]], j as [|[|j]]; cbn; lia.
    - intros _. repeat constructor; cbn; lia.
    - intros _. num_consts. lia. }
  destruct (add_candidates_missorted false _ O eq_refl (le_n 2) ltac:(discriminate)) as (bn & E & A & _ & _ & B).
  exists bn. auto.
Defined.

(** The loop of [BATcalcor] on integers flagged to have no nils: the candidates
    only bound the range. *)
Lemma or_rows b1 b2 start end_ cand :
  (start <= end_ <= BATcount b1)%nat ->
  exists nils dst,
    or_typeswitchloop (b_type b1) false true (b_vals b1) 1 (b_vals b2) 1 (b_hseq b1)
      (BATcount b1) start end_ cand = Some (nils, dst)
    /\ forall j, (start <= j < end_)%nat ->
        dst (Z.of_nat j) = Some (store (b_type b1) (Z.lor (nth j (b_vals b1) 0) (nth j (b_vals b2) 0))).
Proof.
  intros L. unfold or_typeswitchloop, bitwise, binary_loop_nonil.
  pose proof (calc_loop_rows (row_cell (fun l r => Val (store (b_type b1) (Z.lor l r))) (b_vals b1) 1 (b_vals b2) 1)
    (num_nil (b_type b1)) false (BATcount b1) start end_ None 0 (fun _ => true) end_
    (sel_all start end_ 0 ltac:(lia)) ltac:(lia)) as P. cbv zeta in P.
  unfold row_cell in P. destruct (calc_loop _ _ _ _ _ _ _ _) as [[nils dst]|]; [|destruct P; discriminate].
  exists nils, dst. split; [reflexivity|]. intros j Hj. destruct P as (_ & Hd & _).
  rewrite Hd, Nat2Z.id, (proj2 (Z.leb_le 0 _)), (proj2 (Z.ltb_lt _ _)) by lia. cbn [andb].
  unfold stored, chosen_row. rewrite (proj2 (Nat.leb_le _ _)), (proj2 (Nat.ltb_lt _ _)) by lia. cbn [andb].
  unfold row_cell. now rewrite !operand_column.
Qed.

(** [BATcalcor] does not honour its candidates: on integer columns flagged to
    have no nils every row between the first and the last candidate is
    computed, candidate or not, where [BATcalcxor] stores nil. *)
Theorem or_ignores_candidates b1 b2 l j
    (O : head_ok b1) (C : cands_ok (b_hseq b1) (BATcount b1) (Some (Oids l)))
    (K : checkbats b1 b2 && same_storage (b_type b1) (b_type b2) = true)
    (B : b_bit b1 = false) (N : b_nonil b1 && b_nonil b2 = true)
    (J : l <> []) (R : hd 0 l <= b_hseq b1 + Z.of_nat j <= last l 0) (X : ~ In (b_hseq b1 + Z.of_nat j) l) :
  exists bo bx,
    BATcalcor true b1 b2 (Some (Oids l)) = Some bo
    /\ nth j (b_vals bo) 0 = store (b_type b1) (Z.lor (nth j (b_vals b1) 0) (nth j (b_vals b2) 0))
    /\ BATcalcxor true b1 b2 (Some (Oids l)) = Some bx
    /\ nth j (b_vals bx) 0 = num_nil (b_type b1).
Proof.
  unfold BATcalcor, BATcalcxor. rewrite K, B, N. destruct O as [H0 H1], C as [S F].
  assert (Z.of_nat j < Z.of_nat (BATcount b1)) by (pose proof (oids_bounds _ _ _ F J); lia).
  pose proof (CANDINIT_oids (b_hseq b1) (BATcount b1) l F J) as E.
  assert (Q : exists bo, finish b1 (b_type b1) false (Some (Oids l)) true
      (or_typeswitchloop (b_type b1) false true (b_vals b1) 1 (b_vals b2) 1 (b_hseq b1)) unordered = Some bo
      /\ nth j (b_vals bo) 0 = store (b_type b1) (Z.lor (nth j (b_vals b1) 0) (nth j (b_vals b2) 0))).
  { unfold finish, finish_at. rewrite E. cbn [negb].
    destruct (or_rows b1 b2 (Z.to_nat (hd 0 l - b_hseq b1)) (Z.to_nat (last l 0 + 1 - b_hseq b1)) (Some l))
      as (nils & dst & -> & D); [pose proof (oids_bounds _ _ _ F J); lia|].
    eexists. split; [reflexivity|]. cbn [b_vals]. rewrite nth_read by lia. now rewrite D by lia. }
  destruct Q as (bo & Eo & Vo). exists bo. rewrite Eo.
  replace (no_cand (Some (Oids l))) with false by (destruct l; [contradiction|reflexivity]). cbn [andb].
  unfold xor_typeswitchloop, bitwise.
  pose proof (finish_calc b1 (b_type b1) false (Some (Oids l)) true
    (row_cell (fun x y => nil_or (b_type b1) (b_type b1) x y (Val (store (b_type b1) (Z.lxor x y))))
       (b_vals b1) 1 (b_vals b2) 1) false unordered (conj H0 H1) (conj S F)) as P. cbn [andb negb] in P.
  eexists. split; [reflexivity|]. split; [exact Vo|]. split; [exact P|]. cbn [b_vals].
  rewrite nth_rows by lia. unfold stored.
  replace (candb _ _) with false; [reflexivity|]. symmetry. apply not_true_is_false. rewrite candb_spec. exact X.
Qed.

Lemma or_ignores_candidates_witness :
  exists bo bx,
    BATcalcor true (mkBat TYPE_int false 7 [1; 2; 4] false false true false true)
      (mkBat TYPE_int false 7 [8; 8; 8] false false false false true) (Some (Oids [7; 9])) = Some bo
    /\ b_vals bo = [9; 10; 12] /\ nth 1 (b_vals bo) 0 = store TYPE_int (Z.lor 2 8)
    /\ BATcalcxor true (mkBat TYPE_int false 7 [1; 2; 4] false false true false true)
      (mkBat TYPE_int false 7 [8; 8; 8] false false false false true) (Some (Oids [7; 9])) = Some bx
    /\ nth 1 (b_vals bx) 0 = num_nil TYPE_int.
Proof.
  destruct (or_ignores_candidates (mkBat TYPE_int false 7 [1; 2; 4] false false true false true)
    (mkBat TYPE_int false 7 [8; 8; 8] false false false false true) [7; 9] 1) as (bo & bx & E1 & V1 & E2 & V2);
    try reflexivity; try discriminate.
  - unfold head_ok. cbn. lia.
  - cbn. split; repeat constructor; lia.
  - cbn. lia.
  - cbn. lia.
  - exists bo, bx. split; [exact E1|]. split; [|split; [exact V1|split; [exact E2|exact V2]]].
    vm_compute in E1. injection E1 as <-. reflexivity.
Defined.

(** ** One column *)

(** What a unary operator makes of a row. *)
Definition unary_row (b : bat) (f : Z -> Z) (k : nat) : Convert.cell :=
  let v := nth k (b_vals b) 0 in if v =? num_nil (b_type b) then NilCell else Val (f v).

(** Both loops of a unary operator make of a column what its rows say. *)
Lemma finish_unary b tp2 isbit f alloc order :
  bat_ok b ->
  finish b tp2 isbit None alloc
    (fun cnt start end_ cand =>
       unary_loop (b_type b) f (num_nil tp2) (b_nonil b) (b_vals b) cnt start end_ cand (b_hseq b)) order
  = finish b tp2 isbit None alloc
      (fun cnt start end_ cand => calc_loop (unary_row b f) (num_nil tp2) false cnt start end_ cand (b_hseq b)) order.
Proof.
  intros O. unfold finish, finish_at, unary_loop. cbn [CANDINIT]. destruct (negb alloc); [reflexivity|].
  destruct (b_nonil b) eqn:N; cbn [andb]; [|reflexivity].
  rewrite (calc_loop_ext (fun k => Val (f (nth k (b_vals b) 0))) (unary_row b f)); [reflexivity|lia|lia|].
  intros k Hk. unfold unary_row. cbv zeta. rewrite (proj2 (Z.eqb_neq _ _)); [reflexivity|].
  intros E. apply (ok_nonil b O N). rewrite <- E. apply nth_In. unfold BATcount in Hk. lia.
Qed.

(** A unary operator without candidates, in full. *)
Lemma unary_result b tp2 isbit f order key :
  bat_ok b ->
  exists bn b', unary true b tp2 isbit f None order key = Some (bn, b')
    /\ List.length (b_vals bn) = BATcount b
    /\ (forall k, (k < BATcount b)%nat ->
         nth k (b_vals bn) 0 = cell_value (num_nil tp2) (unary_row b f k))
    /\ let nils := nil_count (unary_row b f) (fun _ => true) (seq 0 (BATcount b)) in
       b_sorted bn = fst (order nils (BATcount b)) /\ b_revsorted bn = snd (order nils (BATcount b))
       /\ b_key bn = key (BATcount b) /\ b_nonil bn = (nils =? 0) /\ b_nil bn = negb (nils =? 0).
Proof.
  intros O. unfold unary. rewrite finish_unary by exact O.
  rewrite (finish_calc b tp2 isbit None true (unary_row b f) false order (ok_head b O) I). cbn [andb negb].
  eexists _, _. split; [reflexivity|]. cbn [b_vals b_sorted b_revsorted b_key b_nonil b_nil].
  change (fun j => candb None (b_hseq b + Z.of_nat j)) with (fun _ : nat => true).
  split; [now rewrite length_map, length_seq|]. split; [|repeat split].
  intros k Hk. rewrite nth_rows by exact Hk. reflexivity.
Qed.

(** The signs of a column without candidates are exact, but the result is
    always flagged as reversely sorted, because the flag of the new column is
    tested instead of the argument's: the flag is false for every column in
    which a negative value comes before a positive one. *)
Theorem sign_always_revsorted b i j
    (O : bat_ok b) (L : (i < j < BATcount b)%nat)
    (N : nth i (b_vals b) 0 < 0) (P : 0 < nth j (b_vals b) 0) :
  exists bn b', BATcalcsign true b None = Some (bn, b')
    /\ (forall k, (k < BATcount b)%nat ->
         nth k (b_vals bn) 0 = if nth k (b_vals b) 0 =? num_nil (b_type b) then num_nil TYPE_bte
                              else SIGN (nth k (b_vals b) 0))
    /\ b_revsorted bn = true /\ ~ descending (b_vals bn).
Proof.
  destruct (unary_result b TYPE_bte false SIGN
    (fun nils cnt => (b_sorted b || plain nils cnt, true || plain nils cnt)) (fun cnt => (cnt <=? 1)%nat) O)
    as (bn & b' & E & Ln & V & F).
  assert (W : forall k, (k < BATcount b)%nat ->
    nth k (b_vals bn) 0 = if nth k (b_vals b) 0 =? num_nil (b_type b) then num_nil TYPE_bte
                          else SIGN (nth k (b_vals b) 0)).
  { intros k Hk. rewrite V by exact Hk. unfold unary_row. cbv zeta. now destruct (_ =? _). }
  exists bn, b'. split; [exact E|]. split; [exact W|]. destruct F as (_ & F & _). split; [exact F|].
  intros D. specialize (D i j ltac:(lia)). rewrite !W in D by lia.
  assert (num_nil (b_type b) < 0) by (destruct (b_type b); reflexivity).
  rewrite (proj2 (Z.eqb_neq (nth j (b_vals b) 0) _)) in D by lia.
  unfold SIGN in D. rewrite !Z.gtb_ltb in D. num_consts. revert D. ztests.
Qed.

Lemma sign_always_revsorted_witness :
  exists bn b', BATcalcsign true (mkBat TYPE_int false 0 [-5; 0; 7] true false true false true) None = Some (bn, b')
    /\ b_revsorted bn = true /\ ~ descending (b_vals bn).
Proof.
  assert (O : bat_ok (mkBat TYPE_int false 0 [-5; 0; 7] true false true false true)).
  { split; cbn; try discriminate.
    - unfold head_ok. cbn. lia.
    - repeat constructor; unfold typed; num_consts; lia.
    - intros _ i j L. cbn in L. destruct i as [|[|[|i]]], j as [|[|[|j]]]; cbn; lia.
    - intros _. repeat constructor; cbn; lia.
    - intros _. num_consts. lia. }
  destruct (sign_always_revsorted _ 0 2 O ltac:(cbn; lia) ltac:(cbn; lia) ltac:(cbn; lia))
    as (bn & b' & E & _ & F & D).
  exists bn, b'. auto.
Defined.

(** Negation of a stored value, nil kept. *)
Lemma negate_value b k :
  bat_ok b -> (k < BATcount b)%nat ->
  let v := nth k (b_vals b) 0 in
  cell_value (num_nil (b_type b)) (unary_row b (NEGATE (b_type b)) k)
  = (if v =? num_nil (b_type b) then num_nil (b_type b) else - v)
  /\ (v <> num_nil (b_type b) -> proper (b_type b) v /\ proper (b_type b) (- v)).
Proof.
  intros O Hk. cbv zeta. pose proof (column_typed b k O Hk) as T. rewrite operand_column in T.
  unfold unary_row. cbv zeta. destruct (Z.eqb_spec (nth k (b_vals b) 0) (num_nil (b_type b))) as [E|E].
  - split; [reflexivity|contradiction].
  - assert (P : proper (b_type b) (nth k (b_vals b) 0)) by (destruct (typed_proper _ _ T); [contradiction|assumption]).
    assert (Q : proper (b_type b) (- nth k (b_vals b) 0))
      by (unfold proper in *; destruct (b_type b); num_consts; lia).
    split; [|auto]. cbn [cell_value]. apply store_id. unfold proper, typed in *. lia.
Qed.

Lemma unary_nils b f rows :
  (nil_count (unary_row b f) (fun _ => true) rows =? 0) = true <->
  forall k, In k rows -> nth k (b_vals b) 0 <> num_nil (b_type b).
Proof.
  rewrite Z.eqb_eq. induction rows as [|k rows IH]; [cbn; tauto|].
  pose proof (nil_count_bounds (unary_row b f) (fun _ => true) rows) as B.
  cbn [nil_count fold_right In]. unfold nil_count in *. unfold unary_row at 1. cbv zeta.
  destruct (Z.eqb_spec (nth k (b_vals b) 0) (num_nil (b_type b))) as [E|E]; cbn [cell_nils].
  - split; [lia|]. intros H. exfalso. apply (H k); auto.
  - rewrite Z.add_0_l, IH. split; [intros H j [<-|I]; auto|auto].
Qed.

Lemma no_nil_rows b :
  (forall k, In k (seq 0 (BATcount b)) -> nth k (b_vals b) 0 <> num_nil (b_type b)) <->
  ~ In (num_nil (b_type b)) (b_vals b).
Proof.
  split.
  - intros H I. apply (In_nth _ _ 0) in I as (k & Hk & E). apply (H k); [apply in_seq; unfold BATcount; lia|exact E].
  - intros H k I E. apply H. rewrite <- E. apply nth_In. apply in_seq in I. unfold BATcount in I. lia.
Qed.

Lemma negate_flags b :
  bat_ok b ->
  exists bn b', BATcalcnegate true b None = Some (bn, b')
    /\ (b_sorted bn = true -> ascending (b_vals bn)) /\ (b_revsorted bn = true -> descending (b_vals bn))
    /\ (b_key bn = true -> NoDup (b_vals bn))
    /\ (b_nonil bn = true <-> ~ In (num_nil (b_type b)) (b_vals b)).
Proof.
  intros O. destruct (unary_result b (b_type b) (b_bit b) (NEGATE (b_type b)) (reversed b) (fun _ => b_key b) O)
    as (bn & b' & E & Ln & V & Fs & Fr & Fk & Fn & _).
  exists bn, b'. split; [exact E|]. rewrite Fs, Fr, Fk, Fn. unfold reversed. cbn [fst snd].
  assert (Neg : (forall k, In k (seq 0 (BATcount b)) -> nth k (b_vals b) 0 <> num_nil (b_type b)) ->
    forall k, (k < BATcount b)%nat -> nth k (b_vals bn) 0 = - nth k (b_vals b) 0).
  { intros N k Hk. rewrite V by exact Hk. destruct (negate_value b k O Hk) as [-> _].
    rewrite (proj2 (Z.eqb_neq _ _)); [reflexivity|]. apply N, in_seq. lia. }
  split; [|split; [|split]].
  - intros H. apply andb_prop in H as [N R]. rewrite unary_nils in N. intros i j L. rewrite Ln in L.
    rewrite !(Neg N) by lia. pose proof (ok_revsorted b O R i j L). lia.
  - intros H. apply andb_prop in H as [N R]. rewrite unary_nils in N. intros i j L. rewrite Ln in L.
    rewrite !(Neg N) by lia. pose proof (ok_sorted b O R i j L). lia.
  - intros K. pose proof (proj1 (NoDup_nth _ 0) (ok_key b O K)) as ND. apply (NoDup_nth _ 0).
    intros i j Hi Hj. rewrite Ln in Hi, Hj. rewrite !V by assumption.
    destruct (negate_value b i O Hi) as [-> Pi], (negate_value b j O Hj) as [-> Pj].
    intros Eq. apply ND; [exact Hi|exact Hj|]. unfold proper in *. revert Eq.
    destruct (Z.eqb_spec (nth i (b_vals b) 0) (num_nil (b_type b))),
      (Z.eqb_spec (nth j (b_vals b) 0) (num_nil (b_type b))); intros Eq; lia.
  - rewrite unary_nils. apply no_nil_rows.
Qed.

(** Negation without candidates flags its result truthfully.  The complement
    of the largest value is the nil pattern and goes unnoticed, so that the
    result can hold a nil and be flagged to have none.  An increment that
    overflows leaves its argument, which has no nil, flagged to have one. *)
Theorem unary_flags b (O : bat_ok b) :
  (exists bn b', BATcalcnegate true b None = Some (bn, b')
     /\ (b_sorted bn = true -> ascending (b_vals bn)) /\ (b_revsorted bn = true -> descending (b_vals bn))
     /\ (b_key bn = true -> NoDup (b_vals bn))
     /\ (b_nonil bn = true <-> ~ In (num_nil (b_type b)) (b_vals b)))
  /\ (b_vals b = [num_max (b_type b)] -> b_bit b = false ->
      (exists bn b', BATcalcnot true b None = Some (bn, b')
         /\ b_vals bn = [num_nil (b_type b)] /\ b_nonil bn = true /\ b_nil bn = false)
      /\ (exists bn b', BATcalcincr false true b None false = Some (bn, b')
         /\ b_vals bn = [num_nil (b_type b)] /\ b_nil b' = true)).
Proof.
  split; [exact (negate_flags b O)|]. intros E B. clear O.
  destruct b as [tp bit hseq vals so rv key nl nn]. cbn in E, B. subst vals bit.
  destruct tp, nl, nn; (split; eexists _, _; (split; [reflexivity|]); repeat split).
Qed.

Lemma unary_flags_witness :
  exists bn b', BATcalcnot true (mkBat TYPE_bte false 3 [127] true true true false true) None = Some (bn, b')
    /\ b_vals bn = [-128] /\ b_nonil bn = true /\ b_nil bn = false.
Proof.
  assert (O : bat_ok (mkBat TYPE_bte false 3 [127] true true true false true)).
  { split; cbn; try discriminate.
    - unfold head_ok. cbn. lia.
    - repeat constructor; unfold typed; num_consts; lia.
    - intros _ i j L. cbn in L. destruct i as [|i], j as [|j]; cbn; lia.
    - intros _ i j L. cbn in L. destruct i as [|i], j as [|j]; cbn; lia.
    - intros _. repeat constructor; cbn; lia.
    - intros _. num_consts. lia. }
  exact (proj1 (proj2 (unary_flags _ O) eq_refl eq_refl)).
Defined.
