(* ===== verification/Compare.v ===== *)
(** * Comparisons of columns

    gdk/gdk_calc_compare.h, which gdk/gdk_calc.c includes once per operator:
    less, greater, at most, at least, equal, different, and the three-valued
    comparison.  The theorems say that the result holds, row by row, how the two
    operands compare, nil for nil and for rows that are no candidates, and that
    its flags are true; and where the code strays from this. *)

From Stdlib Require Import ZArith Lia Bool List Sorted.
Import ListNotations.
From S2P Require Import Prelude Atoms Convert Arith CalcLoop CalcBat.

Open Scope Z_scope.
Open Scope list_scope.

(** ** The code *)

Inductive cmpop := LT | GT | LE | GE | EQ | NE | CMP.

Definition truth (b : bool) : Z := if b then 1 else 0.
Definition OP (o : cmpop) (a b : Z) : Z :=
  match o with
  | LT => truth (a <? b)
  | GT => truth (a >? b)
  | LE => truth (a <=? b)
  | GE => truth (a >=? b)
  | EQ => truth (a =? b)
  | NE => truth (negb (a =? b))
  | CMP => if a <? b then -1 else truth (a >? b)
  end.

(** [TYPE_TPE] is [bit], for [CMP] it is [bte]; the nils are the same. *)
Definition TPE_bit (o : cmpop) : bool := match o with CMP => false | _ => true end.
Definition TPE_nil : Z := num_nil TYPE_bte.

Section Compare.

(** The rows of the atom table behind the basic types: whether the type is
    ordered and of variable size, its comparison and its nil. *)
Context {V : Type} (linear varsized : nat -> bool) (atomCmp : nat -> V -> V -> Z) (atomNull : nat -> V).

(** The tail of a column: dense from an oid on (or nil in all rows), or an array. *)
Inductive tail :=
| Void (seq : Z)
| Bits (vals : list Z)
| Nums (tp : num_type) (vals : list Z)
| Oidcol (vals : list Z)
| Strs (vals : list cstr)
| Atoms (t : nat) (vals : list V).

(** The bytes of any other array, and those behind it, as oids. *)
Context (memory_oids : tail -> list Z).
Definition oids_at (v : tail) : list Z := match v with Oidcol l => l | _ => memory_oids v end.

Definition stroperand (vals : list cstr) (incr : Z) (k : nat) : cstr := nth (Z.to_nat (Z.of_nat k * incr)) vals [].
Definition atomoperand (t : nat) (vals : list V) (incr : Z) (k : nat) : V :=
  nth (Z.to_nat (Z.of_nat k * incr)) vals (atomNull t).

(** One result for all rows, as for two dense columns. *)
Definition same_rows (res : Z) (cnt start end_ : nat) (cand : option (list Z)) (candoff : Z) : option (Z * array) :=
  let isnil := res =? TPE_nil in
  if isnil || (match cand with None => true | _ => false end) then
    let dst := fill (fill aempty 0 start TPE_nil) start end_ res in
    let nils := if isnil then Z.of_nat (end_ - start) else Z.of_nat start in
    Some (nils + Z.of_nat (cnt - end_), fill dst end_ cnt TPE_nil)
  else calc_loop (fun _ => Val res) TPE_nil false cnt start end_ cand candoff.

(** The loop of the other atoms.  The pointers to values of fixed size advance
    with the rows that are compared; an offset into a heap is found by the row, [rgt] by
    the index of [lft]. *)
Definition atom_row (o : cmpop) (t : nat) (lft : list V) (incr1 : Z) (rgt : list V) (incr2 : Z) (k p : nat) : cell :=
  let inheap incr := varsized t && (incr =? 1) in
  let p1 := if inheap incr1 then atomoperand t lft incr1 k else atomoperand t lft incr1 p in
  let p2 := if inheap incr2 then atomoperand t rgt incr1 k else atomoperand t rgt incr2 p in
  if (atomCmp t p1 (atomNull t) =? 0) || (atomCmp t p2 (atomNull t) =? 0) then NilCell
  else Val (OP o (atomCmp t p1 p2) 0).

Definition atom_loop (row : nat -> nat -> cell) (cnt start end_ : nat) (cand : option (list Z)) (candoff : Z) : option (Z * array) :=
  let emit k (s : Z * array * nat) :=
    let '(nils, dst, p) := s in
    match row k p with
    | Val v => Some (nils, aset dst (Z.of_nat k) v, S p)
    | _ => Some (nils + 1, aset dst (Z.of_nat k) TPE_nil, S p)
    end in
  let skip k (s : Z * array * nat) := let '(nils, dst, p) := s in (nils + 1, aset dst (Z.of_nat k) TPE_nil, p) in
  match cand_loop candoff skip emit (end_ - start) start end_ cand (Z.of_nat start, fill aempty 0 start TPE_nil, O) with
  | Some (e, (nils, dst, _)) => Some (nils + Z.of_nat (cnt - e), fill dst e cnt TPE_nil)
  | None => None
  end.

(** [None]: the types do not go together.  A void column on the left goes
    together with any type: the array on the right is read as oids. *)
Definition op_typeswitchloop (o : cmpop) (lft : tail) (incr1 : Z) (rgt : tail) (incr2 : Z)
    (cnt start end_ : nat) (cand : option (list Z)) (candoff : Z) (nonil : bool) : option (Z * array) :=
  let loop row := calc_loop row TPE_nil false cnt start end_ cand candoff in
  let binary nil1 nil2 a b :=
    if nonil then binary_loop_nonil (OP o) TPE_nil a incr1 b incr2 cnt start end_
    else binary_loop (fun x y => if (x =? nil1) || (y =? nil2) then NilCell else Val (OP o x y)) TPE_nil false
           a incr1 b incr2 cnt start end_ cand candoff in
  match lft, rgt with
  | Void v, Void w =>
      same_rows (if (v =? oid_nil) || (w =? oid_nil) then TPE_nil else OP o v w) cnt start end_ cand candoff
  | Void v, _ =>
      if v =? oid_nil then same_rows TPE_nil cnt start end_ cand candoff
      else loop (fun k => let y := operand (oids_at rgt) incr2 k in
                          if y =? oid_nil then NilCell else Val (OP o (u64 (v + Z.of_nat k)) y))
  | Bits a, Bits b => binary TPE_nil TPE_nil a b
  | Nums tp1 a, Nums tp2 b => binary (num_nil tp1) (num_nil tp2) a b
  | Oidcol a, Void w =>
      if w =? oid_nil then Some (Z.of_nat cnt, fill aempty 0 cnt TPE_nil)
      else loop (fun k => let x := operand a incr1 k in
                          if x =? oid_nil then NilCell else Val (OP o x (u64 (w + Z.of_nat k))))
  | Oidcol a, Oidcol b => binary oid_nil oid_nil a b
  | Strs a, Strs b =>
      loop (fun k => let s1 := stroperand a incr1 k in let s2 := stroperand b incr2 k in
                     if (GDK_STRCMP s1 str_nil =? 0) || (GDK_STRCMP s2 str_nil =? 0) then NilCell
                     else Val (OP o (GDK_STRCMP s1 s2) 0))
  | Atoms t1 a, Atoms t2 b =>
      if negb (t1 =? t2)%nat || negb (linear t1) then None
      else atom_loop (atom_row o t1 a incr1 b incr2) cnt start end_ cand candoff
  | _, _ => None
  end.

(** A column: its tail, the oid of its first row, the number of rows, [nonil], and
    the start of a tail that counts up ([BATtvoid]). *)
Record column := mkColumn {
  c_hseq : Z; c_count : nat; c_tail : tail; c_nonil : bool; c_tdense : option Z;
}.

Definition is_nil_tail (v : tail) : bool :=
  match v with
  | Void s => s =? oid_nil
  | Bits l => operand l 0 0 =? TPE_nil
  | Nums tp l => operand l 0 0 =? num_nil tp
  | Oidcol l => operand l 0 0 =? oid_nil
  | Strs l => GDK_STRCMP (stroperand l 0 0) str_nil =? 0
  | Atoms t l => atomCmp t (atomoperand t l 0 0) (atomNull t) =? 0
  end.

(** [BATcalcop_intern]. *)
Definition BATcalcop_intern (o : cmpop) (lft : tail) (incr1 : Z) (rgt : tail) (incr2 : Z) (b : column) (s : option cands)
    (nonil : bool) : option bat :=
  finish_at (c_hseq b) (c_count b) TYPE_bte (TPE_bit o) s true
    (fun cnt start end_ cand =>
       op_typeswitchloop o lft incr1 rgt incr2 cnt start end_ cand (c_hseq b)
         ((match cand with None => true | _ => false end) && nonil))
    unordered.

(** [BATcalcop]. *)
Definition BATcalcop (o : cmpop) (b1 b2 : column) (s : option cands) : option bat :=
  if negb (c_count b1 =? c_count b2)%nat then None
  else
    match c_tdense b1, c_tdense b2, snd (CANDINIT (c_hseq b1) (c_count b1) s) with
    | Some v, Some w, None =>
        let res := if (v =? oid_nil) || (w =? oid_nil) then TPE_nil else OP o v w in
        let nil := (1 <=? c_count b1)%nat && (res =? TPE_nil) in
        Some (mkBat TYPE_bte (TPE_bit o) (c_hseq b1) (repeat res (c_count b1)) true true (c_count b1 <=? 1)%nat nil (negb nil))
    | _, _, _ => BATcalcop_intern o (c_tail b1) 1 (c_tail b2) 1 b1 s (c_nonil b1 && c_nonil b2)
    end.

(** A column and a constant.  The tail of a void column is read as an array, which
    it does not have: no result stands for it. *)
Definition BATcalcopcst (o : cmpop) (b : column) (v : tail) (s : option cands) : option bat :=
  match c_tail b with
  | Void _ => None
  | t => BATcalcop_intern o t 1 v 0 b s (c_nonil b && negb (is_nil_tail v))
  end.
Definition BATcalccstop (o : cmpop) (v : tail) (b : column) (s : option cands) : option bat :=
  match c_tail b with
  | Void _ => None
  | t => BATcalcop_intern o v 0 t 1 b s (c_nonil b && negb (is_nil_tail v))
  end.

Definition VARcalcop (o : cmpop) (lft rgt : tail) : option Z :=
  match op_typeswitchloop o lft 0 rgt 0 1 0 1 None 0 false with
  | None => None
  | Some (_, dst) => dst 0
  end.

(** ** How values compare *)

(** A value that is not nil. *)
Inductive datum := Num (z : Z) | Str (s : cstr) | Atom (t : nat) (v : V).

(** The value of row [k], [None] for nil. *)
Definition at_row (v : tail) (incr : Z) (k : nat) : option datum :=
  let unless (isnil : bool) d := if isnil then None else Some d in
  match v with
  | Void s => unless (s =? oid_nil) (Num (s + Z.of_nat k))
  | Bits l => unless (operand l incr k =? TPE_nil) (Num (operand l incr k))
  | Nums tp l => unless (operand l incr k =? num_nil tp) (Num (operand l incr k))
  | Oidcol l => unless (operand l incr k =? oid_nil) (Num (operand l incr k))
  | Strs l => unless (GDK_STRCMP (stroperand l incr k) str_nil =? 0) (Str (stroperand l incr k))
  | Atoms t l => unless (atomCmp t (atomoperand t l incr k) (atomNull t) =? 0) (Atom t (atomoperand t l incr k))
  end.

(** Negative, zero or positive. *)
Definition order_of (x y : datum) : Z :=
  match x, y with
  | Num a, Num b => a - b
  | Str a, Str b => GDK_STRCMP a b
  | Atom t a, Atom _ b => atomCmp t a b
  | _, _ => 0
  end.
Definition compare3 (o : cmpop) (x y : option datum) : cell :=
  match x, y with
  | Some x, Some y => Val (OP o (order_of x y) 0)
  | _, _ => NilCell
  end.

(** The types go together. *)
Definition comparable (lft rgt : tail) : bool :=
  match lft, rgt with
  | Void _, Void _ | Void _, Oidcol _ | Oidcol _, Void _ | Oidcol _, Oidcol _ => true
  | Bits _, Bits _ | Nums _ _, Nums _ _ | Strs _, Strs _ => true
  | Atoms t _, Atoms t' _ => (t =? t')%nat && linear t
  | _, _ => false
  end.

Lemma OP_sub o a b : OP o (a - b) 0 = OP o a b.
Proof.
  assert (E1 : (a - b <? 0) = (a <? b)) by (apply eq_true_iff_eq; rewrite !Z.ltb_lt; lia).
  assert (E2 : (a - b >? 0) = (a >? b)) by (apply eq_true_iff_eq; rewrite !Z.gtb_lt; lia).
  assert (E3 : (a - b <=? 0) = (a <=? b)) by (apply eq_true_iff_eq; rewrite !Z.leb_le; lia).
  assert (E4 : (a - b >=? 0) = (a >=? b)) by (apply eq_true_iff_eq; rewrite !Z.geb_le; lia).
  assert (E5 : (a - b =? 0) = (a =? b)) by (apply eq_true_iff_eq; rewrite !Z.eqb_eq; lia).
  unfold OP. now rewrite E1, E2, E3, E4, E5.
Qed.

Lemma OP_range o a b : -1 <= OP o a b <= 1.
Proof. unfold OP, truth. destruct o; repeat match goal with |- context [if ?c then _ else _] => destruct c end; lia. Qed.

Lemma compare3_proper o x y v : compare3 o x y = Val v -> proper TYPE_bte v.
Proof.
  destruct x as [x|], y as [y|]; try discriminate. intros E. injection E as <-. pose proof (OP_range o (order_of x y) 0).
  unfold proper. cbn. lia.
Qed.

(** ** Results that are right *)

Lemma cand_loop_ext {S} candoff skip (emit emit' : nat -> S -> option S) fuel : forall i e cand s,
  (forall k s, (k < e)%nat -> emit k s = emit' k s) ->
  cand_loop candoff skip emit fuel i e cand s = cand_loop candoff skip emit' fuel i e cand s.
Proof.
  induction fuel as [|fuel IH]; intros i e cand s H; [reflexivity|]. cbn [cand_loop].
  destruct (Nat.ltb_spec i e) as [L|L]; [|reflexivity]. destruct cand as [ [|c cs]|]; [reflexivity| |].
  - destruct (_ <? _); [now apply IH|]. rewrite (H i s L). destruct (emit' i s); [|reflexivity].
    apply IH. intros k s1 K. apply H. destruct cs; lia.
  - rewrite (H i s L). destruct (emit' i s); [now apply IH|reflexivity].
Qed.

Lemma calc_rows_ext row row' nil3 ab cnt start end_ cand candoff : (forall k, (k < end_)%nat -> row k = row' k) ->
  calc_loop row nil3 ab cnt start end_ cand candoff = calc_loop row' nil3 ab cnt start end_ cand candoff.
Proof.
  intros H. unfold calc_loop. rewrite (cand_loop_ext candoff _ _ (row_emit row' nil3 ab)); [reflexivity|].
  intros k [nils dst] K. unfold row_emit. now rewrite H.
Qed.

(** What a comparison of two columns returns. *)
Definition compared (o : cmpop) (lft : tail) (incr1 : Z) (rgt : tail) (incr2 : Z) (hseq : Z) (cnt : nat) (s : option cands)
    (r : option bat) : Prop :=
  exists bn, r = Some bn /\ bat_ok bn /\ b_type bn = TYPE_bte /\ b_bit bn = TPE_bit o /\ b_hseq bn = hseq
    /\ b_vals bn = map (fun k => if candb s (hseq + Z.of_nat k)
                                 then cell_value TPE_nil (compare3 o (at_row lft incr1 k) (at_row rgt incr2 k))
                                 else TPE_nil) (seq 0 cnt).

Lemma finished_ok hseq cnt isbit s row : 0 <= hseq -> hseq + Z.of_nat cnt < 2 ^ 64 -> cands_ok hseq cnt s ->
  (forall k v, row k = Val v -> proper TYPE_bte v) ->
  exists bn, finish_at hseq cnt TYPE_bte isbit s true
      (fun cnt start end_ cand => calc_loop row TPE_nil false cnt start end_ cand hseq) unordered = Some bn
    /\ bat_ok bn /\ b_type bn = TYPE_bte /\ b_bit bn = isbit /\ b_hseq bn = hseq
    /\ b_vals bn = map (fun k => if candb s (hseq + Z.of_nat k) then cell_value TPE_nil (row k) else TPE_nil) (seq 0 cnt).
Proof.
  intros H0 H1 Ok Pr. unfold TPE_nil. rewrite finish_at_calc by assumption. cbn [andb negb].
  set (sel := fun j => candb s (hseq + Z.of_nat j)). eexists. split; [reflexivity|].
  split; [|repeat (split; [reflexivity|]); apply map_ext; intros k; reflexivity].
  pose proof (nil_flags row TYPE_bte sel cnt) as Nf.
  specialize (Nf ltac:(intros k _ _ E; apply Pr in E; unfold proper in E; cbn in E; lia)).
  unfold unordered. split; cbn [b_type b_hseq b_vals b_sorted b_revsorted b_key b_nil b_nonil fst snd].
  - unfold head_ok, BATcount. cbn [b_hseq b_vals]. rewrite length_map, length_seq. now split.
  - apply Forall_map, Forall_forall. intros k _. unfold stored, typed. destruct (sel k); [|cbn; lia].
    destruct (row k) as [v| |] eqn:E; cbn; try lia. apply Pr in E. unfold proper in E. cbn in E. lia.
  - apply plain_ascending.
  - apply plain_descending.
  - apply short_NoDup.
  - intros E. apply negb_true_iff, Z.eqb_neq in E. destruct (in_dec Z.eq_dec (num_nil TYPE_bte) (map (stored row (num_nil TYPE_bte) sel) (seq 0 cnt))); tauto.
  - intros E. apply Z.eqb_eq in E. now apply Nf.
Qed.

(** ** The loop of the other atoms *)

Section AtomLoop.

Context (row : nat -> nat -> cell) (row' : nat -> cell) (R : nat -> nat -> Prop) (candoff : Z).
Hypothesis (same : forall k p, R k p -> row k p = row' k) (next : forall k p, R k p -> R (S k) (S p)).

Abbreviation emit := (fun k (s : Z * array * nat) =>
  let '(nils, dst, p) := s in
  match row k p with
  | Val v => Some (nils, aset dst (Z.of_nat k) v, S p)
  | _ => Some (nils + 1, aset dst (Z.of_nat k) TPE_nil, S p)
  end).
Abbreviation skip := (fun k (s : Z * array * nat) => let '(nils, dst, p) := s in (nils + 1, aset dst (Z.of_nat k) TPE_nil, p)).

Lemma atom_steps fuel : forall i e cand nils dst p, R i p ->
  (cand = None \/ forall k p, R k p -> R (S k) p) ->
  option_map (fun '(e, (n, d, _)) => (e, (n, d))) (cand_loop candoff skip emit fuel i e cand (nils, dst, p))
  = cand_loop candoff (row_skip TPE_nil) (row_emit row' TPE_nil false) fuel i e cand (nils, dst).
Proof.
  assert (Em : forall k nils dst p, R k p ->
            match emit k (nils, dst, p) with
            | Some (n, d, q) => q = S p /\ row_emit row' TPE_nil false k (nils, dst) = Some (n, d)
            | None => False
            end).
  { intros k nils dst p Rk. cbn. rewrite (same k p Rk). destruct (row' k); auto. }
  induction fuel as [|fuel IH]; intros i e cand nils dst p Ri Sk; [reflexivity|]. cbn [cand_loop].
  destruct (i <? e)%nat; [|reflexivity]. pose proof (Em i nils dst p Ri) as Ei. rewrite Nat.add_1_r.
  destruct cand as [ [|c cs]|]; [reflexivity| |].
  - destruct (_ <? _).
    + apply IH; [destruct Sk as [E|Sk]; [discriminate|now apply Sk]|exact Sk].
    + destruct (emit i (nils, dst, p)) as [ [ [n d] q]|]; [|destruct Ei]. destruct Ei as (-> & ->).
      apply IH; [now apply next|]. destruct Sk as [E|Sk]; [discriminate|now right].
  - destruct (emit i (nils, dst, p)) as [ [ [n d] q]|]; [|destruct Ei]. destruct Ei as (-> & ->).
    apply IH; [now apply next|now left].
Qed.

Lemma atom_loop_calc cnt start end_ cand : R start O ->
  (cand = None \/ forall k p, R k p -> R (S k) p) ->
  atom_loop row cnt start end_ cand candoff = calc_loop row' TPE_nil false cnt start end_ cand candoff.
Proof.
  intros R0 Sk. unfold atom_loop, calc_loop. rewrite <- (atom_steps _ _ _ _ _ _ O R0 Sk).
  destruct (cand_loop _ _ _ _ _ _ _ _) as [ [e [ [n d] q] ]|]; reflexivity.
Qed.

End AtomLoop.

(** ** The typeswitch *)

(** What the theorems ask of the operands: dense tails stay below nil, [nonil] is true, and the
    two ways in which the loop of the other atoms goes astray are left out. *)
Definition tail_fits (v : tail) (incr : Z) (cnt : nat) : Prop :=
  match v with Void s => incr = 1 /\ 0 <= s < oid_nil /\ s + Z.of_nat cnt <= oid_nil | _ => True end.

Record fits (lft : tail) (incr1 : Z) (rgt : tail) (incr2 : Z) (cnt : nat) (s : option cands) (nonil : bool) : Prop := {
  ft_comparable : comparable lft rgt = true;
  ft_lft : tail_fits lft incr1 cnt;
  ft_rgt : tail_fits rgt incr2 cnt;
  ft_nonil : nonil = true -> forall k, (k < cnt)%nat -> at_row lft incr1 k <> None /\ at_row rgt incr2 k <> None;
  ft_dense : match lft, rgt with Void _, Void _ => exists l, s = Some (Oids l) /\ l <> [] | _, _ => True end;
  ft_atoms : match lft with
             | Atoms t _ => (incr1 = 0 \/ incr1 = 1) /\ (incr2 = 0 \/ incr2 = 1)
                            /\ (if varsized t then incr2 = 1 -> incr1 = 1 else s = None)
             | _ => True
             end;
}.

Lemma CANDINIT_end hseq cnt s start end_ cand : CANDINIT hseq cnt s = (start, end_, cand) ->
  (end_ <= cnt)%nat /\ (s = None -> start = O /\ cand = None) /\ (forall l, s = Some (Oids l) -> l <> [] -> cand = Some l).
Proof.
  destruct s as [s|]; cbn [CANDINIT].
  - destruct (Nat.eqb_spec (cands_count s) 0) as [E|E].
    + intros H. injection H as <- <- <-. split; [lia|]. split; [discriminate|]. intros l Hl Nl. injection Hl as ->. cbn in E.
      destruct l; [contradiction|discriminate].
    + destruct s as [q n|l]; intros H; injection H as <- <- <-; (split; [|split; [discriminate|] ]).
      * repeat match goal with |- context [if ?c then _ else _] => destruct c eqn:? end; lia.
      * discriminate.
      * repeat match goal with |- context [if ?c then _ else _] => destruct c eqn:? end; lia.
      * intros l' Hl _. now injection Hl as ->.
  - intros H. injection H as <- <- <-. split; [lia|]. split; [auto|discriminate].
Qed.

Lemma CANDINIT_list hseq cnt s l : snd (CANDINIT hseq cnt s) = Some l ->
  exists l, s = Some (Oids l) /\ l <> [].
Proof.
  destruct s as [s|]; [|discriminate]. cbn [CANDINIT].
  destruct (Nat.eqb_spec (cands_count s) 0) as [E|E]; [discriminate|].
  destruct s as [q n|l']; [discriminate|]. intros _. exists l'. split; [reflexivity|].
  intros ->. now apply E.
Qed.

Section Switch.

Context (o : cmpop) (lft : tail) (incr1 : Z) (rgt : tail) (incr2 : Z) (hseq : Z) (cnt : nat) (s : option cands) (nonil : bool).
Hypothesis F : fits lft incr1 rgt incr2 cnt s nonil.

Abbreviation row := (fun k => compare3 o (at_row lft incr1 k) (at_row rgt incr2 k)).

Lemma binary_compares nil1 nil2 a b start end_ cand : (end_ <= cnt)%nat -> (nonil = true -> cand = None -> 
    forall k, (k < cnt)%nat -> operand a incr1 k <> nil1 /\ operand b incr2 k <> nil2) ->
  (if (match cand with None => true | _ => false end) && nonil
   then binary_loop_nonil (OP o) TPE_nil a incr1 b incr2 cnt start end_
   else binary_loop (fun x y => if (x =? nil1) || (y =? nil2) then NilCell else Val (OP o x y)) TPE_nil false
          a incr1 b incr2 cnt start end_ cand hseq)
  = calc_loop (fun k => if (operand a incr1 k =? nil1) || (operand b incr2 k =? nil2) then NilCell
                        else Val (OP o (operand a incr1 k) (operand b incr2 k))) TPE_nil false cnt start end_ cand hseq.
Proof.
  intros L N. destruct (_ && nonil) eqn:E; [|reflexivity]. destruct cand; [discriminate|]. cbn [andb] in E.
  unfold binary_loop_nonil. transitivity (calc_loop (fun k => Val (OP o (operand a incr1 k) (operand b incr2 k))) TPE_nil false cnt start end_ None hseq).
  - unfold calc_loop. f_equal. generalize (Z.of_nat start, fill aempty 0 start TPE_nil). generalize (end_ - start)%nat as fuel.
    generalize start as i. intros i fuel. revert i. induction fuel as [|fuel IH]; intros i st; [reflexivity|]. cbn [cand_loop].
    destruct (_ <? _)%nat; [|reflexivity]. destruct (row_emit _ _ _ _ _); [apply IH|reflexivity].
  - apply calc_rows_ext. intros k K. destruct (N E eq_refl k ltac:(lia)) as (N1 & N2).
    now rewrite (proj2 (Z.eqb_neq _ _) N1), (proj2 (Z.eqb_neq _ _) N2).
Qed.

(** The rows of two arrays of numbers, as the loops compute them. *)
Lemma row_nums nil1 nil2 x y :
  (if (x =? nil1) || (y =? nil2) then NilCell else Val (OP o x y))
  = compare3 o (if x =? nil1 then None else Some (Num x)) (if y =? nil2 then None else Some (Num y)).
Proof. destruct (x =? nil1), (y =? nil2); cbn [orb compare3 order_of]; try reflexivity. now rewrite OP_sub. Qed.

Lemma switch_rows start end_ cand : CANDINIT hseq cnt s = (start, end_, cand) ->
  op_typeswitchloop o lft incr1 rgt incr2 cnt start end_ cand hseq ((match cand with None => true | _ => false end) && nonil)
  = calc_loop row TPE_nil false cnt start end_ cand hseq.
Proof.
  intros C. destruct (CANDINIT_end _ _ _ _ _ _ C) as (L & Sn & So). destruct F as [Cm Fl Fr Nn Fd Fa].
  assert (Bin : forall nil1 nil2 a b,
    (forall k, at_row lft incr1 k = if operand a incr1 k =? nil1 then None else Some (Num (operand a incr1 k))) ->
    (forall k, at_row rgt incr2 k = if operand b incr2 k =? nil2 then None else Some (Num (operand b incr2 k))) ->
    (if (match cand with None => true | _ => false end) && nonil
     then binary_loop_nonil (OP o) TPE_nil a incr1 b incr2 cnt start end_
     else binary_loop (fun x y => if (x =? nil1) || (y =? nil2) then NilCell else Val (OP o x y)) TPE_nil false
            a incr1 b incr2 cnt start end_ cand hseq)
    = calc_loop row TPE_nil false cnt start end_ cand hseq).
  { intros nil1 nil2 a b Ea Eb. rewrite binary_compares; [|exact L|].
    2: { intros N _ k K. destruct (Nn N k K) as (N1 & N2). rewrite Ea in N1. rewrite Eb in N2.
         split; intros E; [now rewrite E, Z.eqb_refl in N1|now rewrite E, Z.eqb_refl in N2]. }
    apply calc_rows_ext. intros k _. rewrite Ea, Eb. apply row_nums. }
  destruct lft as [v|a|tp1 a|a|a|t a], rgt as [w|b|tp2 b|b|b|t' b]; try discriminate; cbn [op_typeswitchloop tail_fits] in *.
  - destruct Fd as (l & El & Nl). rewrite (So l El Nl). unfold same_rows.
    rewrite (proj2 (Z.eqb_neq v oid_nil)), (proj2 (Z.eqb_neq w oid_nil)) by lia. cbn [orb].
    pose proof (OP_range o v w) as Rg. rewrite (proj2 (Z.eqb_neq (OP o v w) TPE_nil)) by (change TPE_nil with (-128); lia).
    apply calc_rows_ext. intros k _. cbn [at_row].
    rewrite (proj2 (Z.eqb_neq v oid_nil)), (proj2 (Z.eqb_neq w oid_nil)) by lia. cbn [compare3 order_of].
    now replace (v + Z.of_nat k - (w + Z.of_nat k)) with (v - w) by lia; rewrite OP_sub.
  - rewrite (proj2 (Z.eqb_neq v oid_nil)) by lia. apply calc_rows_ext. intros k K. cbn [at_row oids_at].
    rewrite (proj2 (Z.eqb_neq v oid_nil)), uwrap_id by (change oid_nil with (2 ^ 63) in *; lia).
    destruct (_ =? _); cbn [compare3 order_of]; [reflexivity|now rewrite OP_sub].
  - apply Bin; reflexivity.
  - apply Bin; reflexivity.
  - rewrite (proj2 (Z.eqb_neq w oid_nil)) by lia. apply calc_rows_ext. intros k K. cbn [at_row].
    rewrite (proj2 (Z.eqb_neq w oid_nil)), uwrap_id by (change oid_nil with (2 ^ 63) in *; lia).
    destruct (_ =? _); cbn [compare3 order_of]; [reflexivity|now rewrite OP_sub].
  - apply Bin; reflexivity.
  - apply calc_rows_ext. intros k _. cbn [at_row]. now destruct (_ =? 0), (_ =? 0).
  - cbn [comparable] in Cm. apply andb_prop in Cm as [Et Li]. rewrite Et, Li. cbn [negb orb]. apply Nat.eqb_eq in Et. subst t'.
    destruct Fa as (I1 & I2 & Fa).
    apply (atom_loop_calc _ _ (if varsized t then fun _ _ => True else fun k p => k = p)).
    + intros k p Rkp. unfold atom_row. cbn [at_row].
      assert (E : (if varsized t && (incr1 =? 1) then atomoperand t a incr1 k else atomoperand t a incr1 p) = atomoperand t a incr1 k
               /\ (if varsized t && (incr2 =? 1) then atomoperand t b incr1 k else atomoperand t b incr2 p) = atomoperand t b incr2 k).
      { destruct (varsized t); [|subst p; auto]. destruct I1 as [-> | ->], I2 as [-> | ->]; cbn [andb Z.eqb Pos.eqb]; unfold atomoperand;
          rewrite ?Z.mul_0_r; split; try reflexivity. specialize (Fa eq_refl). discriminate. }
      destruct E as (-> & ->). now destruct (_ =? 0), (_ =? 0).
    + intros k p. destruct (varsized t); [auto|now intros ->].
    + destruct (varsized t); [exact I|]. destruct (Sn Fa) as (-> & _). reflexivity.
    + destruct (varsized t); [right; auto|]. left. apply (Sn Fa).
Qed.

Lemma intern_compares b : c_hseq b = hseq -> c_count b = cnt ->
  0 <= hseq -> hseq + Z.of_nat cnt < 2 ^ 64 -> cands_ok hseq cnt s ->
  compared o lft incr1 rgt incr2 hseq cnt s (BATcalcop_intern o lft incr1 rgt incr2 b s nonil).
Proof.
  intros Eh Ec H0 H1 Ok. destruct (finished_ok hseq cnt (TPE_bit o) s row H0 H1 Ok
    (fun k v => compare3_proper o _ _ v)) as (bn & E & R). exists bn. split; [|exact R].
  rewrite <- E. unfold BATcalcop_intern. rewrite Eh, Ec. unfold finish_at. destruct (CANDINIT hseq cnt s) as [ [start end_] cand] eqn:C.
  cbn [negb]. now rewrite (switch_rows start end_ cand C).
Qed.

End Switch.

(** ** Two columns *)

Lemma map_same {A} (r : A) n : forall m, map (fun _ => r) (seq m n) = repeat r n.
Proof. induction n as [|n IH]; intros m; cbn; [reflexivity|]. now rewrite IH. Qed.

(** The descriptor of a column tells the truth: [nonil], and a tail that counts up. *)
Record column_ok (b : column) : Prop := {
  col_head : 0 <= c_hseq b /\ c_hseq b + Z.of_nat (c_count b) < 2 ^ 64;
  col_nonil : c_nonil b = true -> forall k, (k < c_count b)%nat -> at_row (c_tail b) 1 k <> None;
  col_dense : match c_tail b, c_tdense b with
              | Void v, d => d = Some v
              | Oidcol l, Some w => forall k, (k < c_count b)%nat -> operand l 1 k = w + Z.of_nat k
              | _, Some _ => False
              | _, None => True
              end;
  col_seq : forall w, c_tdense b = Some w -> 0 <= w < oid_nil /\ w + Z.of_nat (c_count b) <= oid_nil;
}.

Lemma dense_row b w k : column_ok b -> c_tdense b = Some w -> (k < c_count b)%nat ->
  at_row (c_tail b) 1 k = Some (Num (w + Z.of_nat k)).
Proof.
  intros [_ _ D S] E K. rewrite E in D. destruct (S w E) as (B1 & B2).
  destruct (c_tail b); try contradiction; cbn [at_row].
  - injection D as <-. now rewrite (proj2 (Z.eqb_neq w oid_nil)) by lia.
  - rewrite D by exact K. now rewrite (proj2 (Z.eqb_neq _ oid_nil)) by lia.
Qed.

Lemma constant_ok res isbit hseq cnt : 0 <= hseq -> hseq + Z.of_nat cnt < 2 ^ 64 -> -1 <= res <= 1 ->
  let nil := (1 <=? cnt)%nat && (res =? TPE_nil) in
  bat_ok (mkBat TYPE_bte isbit hseq (repeat res cnt) true true (cnt <=? 1)%nat nil (negb nil)).
Proof.
  intros H0 H1 R. cbv zeta. rewrite (proj2 (Z.eqb_neq res TPE_nil)) by (change TPE_nil with (-128); lia). rewrite andb_false_r.
  assert (N : forall i, (i < cnt)%nat -> nth i (repeat res cnt) 0 = res) by (intros i I; rewrite nth_repeat_lt by exact I; reflexivity).
  split; cbn [b_type b_hseq b_vals b_sorted b_revsorted b_key b_nil b_nonil negb]; try discriminate.
  - unfold head_ok, BATcount. cbn [b_hseq b_vals]. rewrite repeat_length. now split.
  - apply Forall_forall. intros x I. apply repeat_spec in I. subst. unfold typed. cbn. lia.
  - intros _ i j L. rewrite repeat_length in L. rewrite !N by lia. lia.
  - intros _ i j L. rewrite repeat_length in L. rewrite !N by lia. lia.
  - intros L. apply Nat.leb_le in L. destruct cnt as [|[|n] ]; [constructor|constructor; [intros []|constructor]|lia].
  - intros _ I. apply repeat_spec in I. change (num_nil TYPE_bte) with (-128) in I. lia.
Qed.

(** The candidates that a comparison heeds: for two dense columns only those
    that are listed. *)
Definition heeded (b1 b2 : column) (s : option cands) : option cands :=
  match c_tdense b1, c_tdense b2, snd (CANDINIT (c_hseq b1) (c_count b1) s) with
  | Some _, Some _, None => None
  | _, _, _ => s
  end.

Lemma column_fits b : column_ok b -> tail_fits (c_tail b) 1 (c_count b).
Proof.
  intros [_ _ D S]. unfold tail_fits. destruct (c_tail b) eqn:Et; try exact I.
  destruct (S seq D) as (B1 & B2). auto.
Qed.

(** Two dense columns and no list of candidates. *)
Lemma dense_compares o b1 b2 s v w : column_ok b1 -> column_ok b2 -> c_count b2 = c_count b1 ->
  c_tdense b1 = Some v -> c_tdense b2 = Some w -> snd (CANDINIT (c_hseq b1) (c_count b1) s) = None ->
  compared o (c_tail b1) 1 (c_tail b2) 1 (c_hseq b1) (c_count b1) None (BATcalcop o b1 b2 s).
Proof.
  intros Ok1 Ok2 Ec D1 D2 C. destruct (col_head b1 Ok1) as (H0 & H1).
  unfold BATcalcop. rewrite Ec, Nat.eqb_refl, D1, D2, C. cbn [negb].
  destruct (col_seq b1 Ok1 v D1) as (V1 & V2), (col_seq b2 Ok2 w D2) as (W1 & W2).
  rewrite (proj2 (Z.eqb_neq v oid_nil)), (proj2 (Z.eqb_neq w oid_nil)) by lia. cbn [orb].
  eexists. split; [reflexivity|]. split; [apply constant_ok; auto; apply OP_range|].
  do 3 (split; [reflexivity|]). cbn [b_vals candb].
  transitivity (map (fun _ => OP o v w) (seq 0 (c_count b1))).
  { symmetry. apply map_same. }
  apply map_ext_in. intros k K. apply in_seq in K. rewrite (dense_row b1 v k), (dense_row b2 w k) by (assumption || lia).
  cbn [compare3 order_of cell_value]. rewrite <- OP_sub. f_equal. lia.
Qed.

(** All other pairs of columns whose types go together. *)
Lemma columns_compare o b1 b2 s : column_ok b1 -> column_ok b2 -> c_count b2 = c_count b1 ->
  cands_ok (c_hseq b1) (c_count b1) s -> comparable (c_tail b1) (c_tail b2) = true ->
  match c_tail b1 with Atoms t _ => varsized t = true \/ s = None | _ => True end ->
  match c_tdense b1, c_tdense b2 with Some _, Some _ => exists l, s = Some (Oids l) /\ l <> [] | _, _ => True end ->
  compared o (c_tail b1) 1 (c_tail b2) 1 (c_hseq b1) (c_count b1) s
    (BATcalcop_intern o (c_tail b1) 1 (c_tail b2) 1 b1 s (c_nonil b1 && c_nonil b2)).
Proof.
  intros Ok1 Ok2 Ec Cok Cm Aa Hd. destruct (col_head b1 Ok1) as (H0 & H1).
  apply intern_compares; auto. split; [exact Cm|now apply column_fits|rewrite <- Ec; now apply column_fits| | |].
  - intros N k K. apply andb_prop in N as [N1 N2]. split; [now apply (col_nonil b1 Ok1)|]. apply (col_nonil b2 Ok2); [exact N2|lia].
  - pose proof (col_dense b1 Ok1) as D1. pose proof (col_dense b2 Ok2) as D2.
    destruct (c_tail b1), (c_tail b2); auto. rewrite D1, D2 in Hd. exact Hd.
  - destruct (c_tail b1); auto. destruct (varsized t); [auto|]. destruct Aa as [Aa|Aa]; [discriminate|auto].
Qed.

(** A void column on the left and an array of another type. *)
Lemma void_compares o b1 b2 s v : column_ok b1 -> column_ok b2 ->
  cands_ok (c_hseq b1) (c_count b1) s -> c_tail b1 = Void v -> c_tdense b2 = None ->
  match c_tail b2 with Void _ => False | _ => True end ->
  forall nonil, compared o (Void v) 1 (Oidcol (oids_at (c_tail b2))) 1 (c_hseq b1) (c_count b1) s
    (BATcalcop_intern o (Void v) 1 (c_tail b2) 1 b1 s nonil).
Proof.
  intros Ok1 Ok2 Cok E1 D2 Nv nonil. destruct (col_head b1 Ok1) as (H0 & H1).
  assert (E : forall n b, match b with Void _ => False | _ => True end ->
            BATcalcop_intern o (Void v) 1 b 1 b1 s n = BATcalcop_intern o (Void v) 1 (Oidcol (oids_at b)) 1 b1 s false).
  { intros n b Nb. destruct b; [contradiction|reflexivity..]. }
  rewrite (E _ _ Nv). apply intern_compares; auto.
  split; [reflexivity| |exact I|discriminate|exact I|exact I].
  pose proof (column_fits b1 Ok1) as F. now rewrite E1 in F.
Qed.


(** ** A column and a value, and two values *)

Definition not_void (v : tail) : Prop := match v with Void _ => False | _ => True end.

Lemma is_nil_at v k : not_void v -> is_nil_tail v = true <-> at_row v 0 k = None.
Proof.
  destruct v; cbn [not_void is_nil_tail at_row]; intros NV; try contradiction;
    unfold operand, stroperand, atomoperand; rewrite !Z.mul_0_r; destruct (_ =? _); split; congruence.
Qed.

(** The comparison of a column with a value, on either side, and of two values:
    row by row, as for two columns. *)
Theorem constants_compare o b v s (Ok : column_ok b) (NV : not_void v) (Nb : not_void (c_tail b))
    (Cok : cands_ok (c_hseq b) (c_count b) s)
    (Fixed : match c_tail b with Atoms _ _ => s = None | _ => True end) :
  (comparable (c_tail b) v = true ->
   compared o (c_tail b) 1 v 0 (c_hseq b) (c_count b) s (BATcalcopcst o b v s))
  /\ (comparable v (c_tail b) = true -> match v with Atoms t _ => varsized t = false | _ => True end ->
      compared o v 0 (c_tail b) 1 (c_hseq b) (c_count b) s (BATcalccstop o v b s))
  /\ forall w, not_void w -> comparable v w = true ->
     VARcalcop o v w = Some (cell_value TPE_nil (compare3 o (at_row v 0 0) (at_row w 0 0))).
Proof.
  destruct (col_head b Ok) as (H0 & H1).
  assert (Nn : forall k, c_nonil b && negb (is_nil_tail v) = true -> (k < c_count b)%nat ->
            at_row (c_tail b) 1 k <> None /\ at_row v 0 k <> None).
  { intros k E K. apply andb_prop in E as [E1 E2]. split; [now apply (col_nonil b Ok)|].
    intros E. apply (is_nil_at v k NV) in E. now rewrite E in E2. }
  assert (Vf : forall w incr, not_void w -> tail_fits w incr (c_count b)) by (intros [] incr W; auto; destruct W).
  split; [|split].
  - intros Cm.
    assert (Go : compared o (c_tail b) 1 v 0 (c_hseq b) (c_count b) s
              (BATcalcop_intern o (c_tail b) 1 v 0 b s (c_nonil b && negb (is_nil_tail v)))).
    { apply intern_compares; auto. split; [exact Cm|now apply Vf|now apply Vf|auto| |].
      - now destruct (c_tail b).
      - destruct (c_tail b); auto. destruct (varsized t); auto. }
    unfold BATcalcopcst. destruct (c_tail b); [contradiction|exact Go..].
  - intros Cm Nv.
    assert (Go : compared o v 0 (c_tail b) 1 (c_hseq b) (c_count b) s
              (BATcalcop_intern o v 0 (c_tail b) 1 b s (c_nonil b && negb (is_nil_tail v)))).
    { apply intern_compares; auto. split; [exact Cm|now apply Vf|now apply Vf| | |].
      - intros E k K. destruct (Nn k E K). now split.
      - now destruct v.
      - destruct v; auto. split; [auto|]. split; [auto|]. rewrite Nv. destruct (c_tail b); try discriminate. exact Fixed. }
    unfold BATcalccstop. destruct (c_tail b); [contradiction|exact Go..].
  - intros w NW Cm. unfold VARcalcop.
    assert (F : fits v 0 w 0 1 None false).
    { split; [exact Cm|now destruct v|now destruct w|discriminate|now destruct v|].
      destruct v; auto. split; [auto|]. split; [auto|]. destruct (varsized t); [discriminate|reflexivity]. }
    pose proof (switch_rows o v 0 w 0 0 1 None false F 0 1 None eq_refl) as E. cbn [andb] in E. rewrite E.
    unfold calc_loop. cbn. unfold row_emit. destruct (compare3 _ _ _) eqn:Cell; cbn; reflexivity.
Qed.

End Compare.

(** ** Examples *)

(** Type 0 is a date, stored in four bytes; type 1 lives in a heap. *)
Definition all_linear (t : nat) : bool := true.
Definition in_heap (t : nat) : bool := (t =? 1)%nat.
Definition int_cmp (t : nat) (x y : Z) : Z := x - y.
Definition int_null (t : nat) : Z := num_nil TYPE_int.

Definition ints (l : list Z) : column (V := Z) := mkColumn 0 (List.length l) (Nums TYPE_int l) false None.
Definition dates (t : nat) (l : list Z) : column (V := Z) := mkColumn 0 (List.length l) (Atoms t l) false None.
Definition dense (w : Z) (n : nat) : column (V := Z) := mkColumn 0 n (Void w) true (Some w).
Definition results (r : option bat) : option (list Z * bool) := option_map (fun bn => (b_vals bn, b_nonil bn)) r.

(** Other arrays read as oids: the numbers themselves. *)
Definition as_oids (v : tail (V := Z)) : list Z := match v with Nums _ l => l | _ => [] end.

Abbreviation compare := (BATcalcop all_linear in_heap int_cmp int_null as_oids).
Abbreviation compare_cst := (BATcalcopcst all_linear in_heap int_cmp int_null as_oids).
Abbreviation cst_compare := (BATcalccstop all_linear in_heap int_cmp int_null as_oids).

Lemma ints_ok l : Z.of_nat (List.length l) < 2 ^ 62 -> column_ok int_cmp int_null (ints l).
Proof. intros L. split; [cbn [c_hseq c_count ints]; lia|discriminate|exact I|discriminate]. Qed.

Lemma sample_cands : cands_ok 0 3 (Some (Oids [0; 1])).
Proof. split; repeat constructor; lia. Qed.


Lemma constants_compare_witness :
  option_map b_vals (compare_cst GE (ints [1; 2; 3]) (Nums TYPE_bte [2]) (Some (Dense 1 2))) = Some [TPE_nil; 1; 1]
  /\ option_map b_vals (cst_compare NE (Nums TYPE_bte [2]) (ints [1; 2; 3]) None) = Some [1; 0; 1]
  /\ VARcalcop all_linear in_heap int_cmp int_null as_oids CMP (Nums TYPE_bte [2]) (Nums TYPE_lng [7]) = Some (-1).
Proof.
  pose proof (constants_compare all_linear in_heap int_cmp int_null as_oids GE (ints [1; 2; 3]) (Nums TYPE_bte [2]) (Some (Dense 1 2))
    (ints_ok [_; _; _] eq_refl) I I I I) as (P & _).
  pose proof (constants_compare all_linear in_heap int_cmp int_null as_oids NE (ints [1; 2; 3]) (Nums TYPE_bte [2]) None
    (ints_ok [_; _; _] eq_refl) I I I I) as (_ & Q & _).
  pose proof (constants_compare all_linear in_heap int_cmp int_null as_oids CMP (ints [1; 2; 3]) (Nums TYPE_bte [2]) None
    (ints_ok [_; _; _] eq_refl) I I I I) as (_ & _ & R).
  destruct (P eq_refl) as (bn & -> & _ & _ & _ & _ & V), (Q eq_refl I) as (bn' & -> & _ & _ & _ & _ & V').
  cbn [option_map]. rewrite V, V'. split; [reflexivity|]. split; [reflexivity|]. exact (R (Nums TYPE_lng [7]) I eq_refl).
Defined.

(** ** What the theorems leave out *)

(** Dates and other atoms of fixed size: the pointers do not advance over rows
    that are no candidates, so that row 2 gets the result of row 0. *)
Lemma rows_misread : option_map b_vals (compare_cst LT (dates 0 [10; 20; 30]) (Atoms 0 [25]) (Some (Oids [2]))) = Some [TPE_nil; TPE_nil; 1].
Proof. reflexivity. Qed.

(** A value against a column with a heap: all rows are read at the index of the
    value, 0. *)
Lemma first_row_only : option_map b_vals (cst_compare LT (Atoms 1 [15]) (dates 1 [10; 20]) None) = Some [0; 0].
Proof. reflexivity. Qed.

(** Two dense columns: a range of candidates is ignored. *)
Lemma dense_ignores_candidates : option_map b_vals (compare LT (dense 0 3) (dense 1 3) (Some (Dense 0 1))) = Some [1; 1; 1].
Proof. reflexivity. Qed.

(** A void column is compared with the bytes of an array of another type. *)
Lemma void_reads_anything : option_map b_vals (compare EQ (dense 5 3) (ints [5; 6; 8]) None) = Some [1; 1; 0]
  /\ compare EQ (ints [5; 6; 8]) (dense 5 3) None = None.
Proof. split; reflexivity. Qed.

(** A tail of nils and candidates behind it: the nils in front of the candidates
    are forgotten, and a column of nils is said to have none. *)
Lemma nils_forgotten :
  results (compare EQ (dense oid_nil 2) (mkColumn 0 2 (Oidcol [4; 5]) true None) (Some (Dense 5 1))) = Some ([TPE_nil; TPE_nil], true).
Proof. reflexivity. Qed.
