(* ===== verification/ConvertBat.v ===== *)
(** * Conversion of columns

    gdk/gdk_calc.c, [convert_typeswitchloop], [BATconvert] and [VARconvert]
    between the integer types, [bit] and [oid]: which of the loops of [Convert]
    runs, and the flags of the result.  The theorem says which values a
    conversion yields and that its flags are true; it has to leave out the
    conversion to [bit], whose flags are not. *)

From Stdlib Require Import ZArith Lia Bool List.
Import ListNotations.
From S2P Require Import Prelude Atoms Convert Arith CalcLoop CalcBat.

Open Scope Z_scope.
Open Scope list_scope.

(** ** The code *)

(** A type of a tail; [wrd] is [lng]. *)
Inductive dtype := Plain (tp : num_type) | TYPE_bit | TYPE_oid.

Definition ATOMstorage (t : dtype) : num_type :=
  match t with Plain tp => tp | TYPE_bit => TYPE_bte | TYPE_oid => TYPE_lng end.
Definition is_bit (t : dtype) : bool := match t with TYPE_bit => true | _ => false end.
Definition nil_of (t : dtype) : Z := match t with TYPE_oid => oid_nil | _ => num_nil (ATOMstorage t) end.

(** The same bits read as another type: an [oid] has no sign. *)
Definition as_type (t : dtype) (v : Z) : Z := match t with TYPE_oid => u64 v | _ => swrap (8 * ATOMsize (ATOMstorage t)) v end.

Definition convert_typeswitchloop (stp dtp : dtype) (ab : bool) (src : list Z)
    (cnt start end_ : nat) (cand : option (list Z)) (candoff : Z) : option (Z * array) :=
  let tp1 := ATOMstorage stp in
  match dtp with
  | TYPE_bit => convert2bit_impl tp1 src cnt start end_ cand candoff
  | TYPE_oid => convertimpl_oid_enlarge tp1 ab src cnt start end_ cand candoff
  | Plain tp2 =>
      if ATOMsize tp1 =? ATOMsize tp2 then convertimpl_copy tp2 src cnt start end_ cand candoff
      else if ATOMsize tp1 <? ATOMsize tp2 then convertimpl_enlarge tp1 tp2 src cnt start end_ cand candoff
      else convertimpl_reduce tp1 tp2 ab src cnt start end_ cand candoff
  end.

Definition same_type (t1 t2 : dtype) : bool :=
  match t1, t2 with
  | Plain tp1, Plain tp2 => ATOMsize tp1 =? ATOMsize tp2
  | TYPE_bit, TYPE_bit | TYPE_oid, TYPE_oid => true
  | _, _ => false
  end.

(** [BATcopy] (gdk_bat.c) to a type that is stored alike: a view with all flags if the
    argument is read-only, and otherwise a copy of the heap. *)
Definition BATcopy (readonly : bool) (stp : dtype) (b : bat) (tp : dtype) : bat :=
  let few := (BATcount b <=? 1)%nat in
  let vals := map (as_type tp) (b_vals b) in
  let st := ATOMstorage tp in
  if readonly then mkBat st (is_bit tp) (b_hseq b) vals (b_sorted b) (b_revsorted b) (b_key b) (b_nil b) (b_nonil b)
  else if same_type stp tp
  then mkBat st (is_bit tp) (b_hseq b) vals (b_sorted b) (b_revsorted b) (b_key b) false (b_nonil b)
  else mkBat st (is_bit tp) (b_hseq b) vals (b_sorted b || few) (b_revsorted b || few) (b_key b) false (b_nonil b).

(** [BATconvert] of a column whose tail has type [stp]; the type of the record
    is the storage type.  Without candidates a column of the same storage type
    is copied; a loop reads the tail as the storage type. *)
Definition BATconvert (readonly : bool) (stp : dtype) (b : bat) (s : option cands) (tp : dtype) (ab : bool) : option bat :=
  let cnt := BATcount b in
  let '(start, end_, cand) := CANDINIT (b_hseq b) cnt s in
  if (match s with None => true | _ => false end) && negb (is_bit tp)
     && (ATOMsize (ATOMstorage stp) =? ATOMsize (ATOMstorage tp))
  then Some (BATcopy readonly stp b tp)
  else
    match convert_typeswitchloop stp tp ab (map (as_type (Plain (ATOMstorage stp))) (b_vals b)) cnt start end_ cand (b_hseq b) with
    | None => None
    | Some (nils, dst) =>
        Some (mkBat (ATOMstorage tp) (is_bit tp) (b_hseq b) (read dst cnt)
                ((nils =? 0) && b_sorted b) ((nils =? 0) && b_revsorted b) (b_key b && (nils <=? 1))
                (negb (nils =? 0)) (nils =? 0))
    end.

(** [VARconvert] between these types. *)
Definition VARconvert (stp : dtype) (v : Z) (tp : dtype) (ab : bool) : option Z :=
  match convert_typeswitchloop stp tp ab [as_type (Plain (ATOMstorage stp)) v] 1 0 1 None 0 with
  | None => None
  | Some (_, dst) => dst 0
  end.

(** ** What a conversion yields *)

(** What becomes of a value: nil stays nil, a value that the other type has is
    kept. *)
Definition accepts (stp tp : dtype) (v : Z) : bool :=
  match tp with
  | TYPE_bit => true
  | TYPE_oid => 0 <=? v
  | Plain tp2 => (num_nil tp2 <? v) && (v <=? num_max tp2)
  end.
Definition conversion (stp tp : dtype) (v : Z) : cell :=
  if v =? num_nil (ATOMstorage stp) then NilCell else if accepts stp tp v then Val v else Overflow.

(** A loop that converts the rows one by one with [f]. *)
Definition converts (f : Z -> cell) (nil2 : Z) (ab : bool) (src : list Z) (r : option (Z * array)) : Prop :=
  match r with
  | Some (nils, dst) =>
      nils = sum_nils f src /\ read dst (List.length src) = map (fun v => cell_value nil2 (f v)) src
      /\ (ab = true -> forall v, In v src -> f v <> Overflow)
  | None => ab = true /\ exists v, In v src /\ f v = Overflow
  end.

Lemma read_map dst (g : Z -> Z) (src : list Z) :
  (forall j, 0 <= j < Z.of_nat (List.length src) -> dst j = Some (g (nth (Z.to_nat j) src 0))) ->
  read dst (List.length src) = map g src.
Proof.
  intros H. unfold read. transitivity (map (fun j => g (nth j src 0)) (seq 0 (List.length src))).
  - apply map_ext_in. intros j I. apply in_seq in I. rewrite H by lia. now rewrite Nat2Z.id.
  - rewrite <- (map_map (fun j => nth j src 0) g). f_equal.
    apply (nth_ext _ _ 0 0); [now rewrite length_map, length_seq|]. intros i I. rewrite length_map, length_seq in I.
    rewrite (nth_indep _ 0 (nth 0 src 0)) by (now rewrite length_map, length_seq).
    now rewrite (map_nth (fun j => nth j src 0)), seq_nth by exact I.
Qed.

Lemma ptr_converts f nil2 ab src candoff :
  let n := List.length src in converts f nil2 ab src (ptr_convert f nil2 ab src n 0 n None candoff).
Proof.
  cbv zeta. pose proof (ptr_full f nil2 ab src candoff) as P. cbv zeta in P.
  destruct (ptr_convert _ _ _ _ _ _ _ _ _) as [ [nils dst]|]; [|exact P].
  destruct P as (N & D & O). split; [exact N|]. split; [|exact O]. apply (read_map dst (fun v => cell_value nil2 (f v))).
  intros j J. rewrite D. now replace ((0 <=? j) && (j <? Z.of_nat (List.length src))) with true by lia.
Qed.

Lemma converts_ext f g nil2 ab src r : (forall v, In v src -> f v = g v) -> converts f nil2 ab src r -> converts g nil2 ab src r.
Proof.
  intros E. unfold converts. destruct r as [ [nils dst]|].
  - intros (N & R & O). split; [|split].
    + rewrite N. unfold sum_nils. clear - E. induction src as [|v src IH]; cbn; [reflexivity|].
      rewrite (E v) by now left. rewrite IH; [reflexivity|]. intros w I. apply E. now right.
    + rewrite R. apply map_ext_in. intros v I. now rewrite (E v I).
    + intros A v I. rewrite <- (E v I). now apply O.
  - intros (A & v & I & O). split; [exact A|]. exists v. split; [exact I|]. now rewrite <- (E v I).
Qed.

(** The instances between integers of different widths, and to [oid]. *)
Lemma switch_converts stp tp ab src candoff : tp <> TYPE_bit -> ATOMsize (ATOMstorage stp) <> ATOMsize (ATOMstorage tp) ->
  Forall (typed (ATOMstorage stp)) src ->
  let n := List.length src in
  converts (conversion stp tp) (nil_of tp) ab src
    (convert_typeswitchloop stp tp ab src n 0 n None candoff).
Proof.
  intros Nb Sz Ty. cbv zeta. rewrite Forall_forall in Ty. unfold convert_typeswitchloop.
  set (tp1 := ATOMstorage stp) in *. destruct tp as [tp2| |]; [|contradiction|]; cbn [ATOMstorage nil_of] in *.
  - rewrite (proj2 (Z.eqb_neq _ _)) by exact Sz. case Z.ltb_spec; intros L.
    + unfold convertimpl_enlarge. apply (converts_ext (enlarge_cell tp1)).
      * intros v I. specialize (Ty v I). unfold enlarge_cell, conversion, accepts. fold tp1.
        destruct (Z.eqb_spec v (num_nil tp1)) as [|N]; [reflexivity|].
        replace ((num_nil tp2 <? v) && (v <=? num_max tp2)) with true; [reflexivity|].
        unfold typed in Ty. symmetry. destruct tp1, tp2; cbn in *; lia.
      * pose proof (ptr_converts (enlarge_cell tp1) (num_nil tp2) false src candoff) as P. cbv zeta in P.
        unfold converts in *. destruct (ptr_convert _ _ _ _ _ _ _ _ _) as [ [nils dst]|]; [|now destruct P].
        destruct P as (N & R & _). split; [exact N|]. split; [exact R|].
        intros _ v _. unfold enlarge_cell. now destruct (_ =? _).
    + unfold convertimpl_reduce. apply (converts_ext (reduce_cell tp1 tp2)); [|apply ptr_converts].
      intros v _. unfold reduce_cell, conversion, accepts. fold tp1. destruct (v =? num_nil tp1); [reflexivity|].
      destruct (Z.leb_spec v (num_nil tp2)), (Z.ltb_spec (num_max tp2) v), (Z.ltb_spec (num_nil tp2) v),
        (Z.leb_spec v (num_max tp2)); cbn [andb orb]; reflexivity || lia.
  - unfold convertimpl_oid_enlarge. apply (converts_ext (oid_cell tp1)); [|apply ptr_converts].
    intros v _. unfold oid_cell, conversion, accepts. fold tp1. destruct (v =? num_nil tp1); [reflexivity|].
    destruct (Z.ltb_spec v 0), (Z.leb_spec 0 v); reflexivity || lia.
Qed.

(** ** Flags *)

Lemma sum_nils_cons f v l : sum_nils f (v :: l) = cell_nils (f v) + sum_nils f l.
Proof. reflexivity. Qed.

Lemma sum_nils_nonneg f l : 0 <= sum_nils f l.
Proof. induction l as [|v l IH]; [now cbn|]. rewrite sum_nils_cons. destruct (f v); cbn [cell_nils]; lia. Qed.

Section Flags.

Context (nil2 : Z) (f : Z -> cell) (src : list Z).

(** A value that is kept is not nil. *)
Hypothesis kept : forall v w, In v src -> f v = Val w -> w = v /\ v <> nil2.

Abbreviation result l := (map (fun v => cell_value nil2 (f v)) l).

Lemma no_nils l : incl l src -> sum_nils f l = 0 -> result l = l.
Proof.
  induction l as [|v l IH]; [reflexivity|]. intros I. cbn [map]. rewrite sum_nils_cons.
  pose proof (sum_nils_nonneg f) as P.
  specialize (P l). destruct (f v) as [w| |] eqn:E; cbn [cell_nils cell_value]; intros N; [|lia|lia].
  destruct (kept v w) as (-> & _); [apply I; now left|exact E|]. f_equal. apply IH; [|lia].
  intros u J. apply I. now right.
Qed.

Lemma result_in l w : incl l src -> In w (result l) -> w <> nil2 -> In w l.
Proof.
  intros I J N. apply in_map_iff in J. destruct J as (v & <- & J). destruct (f v) as [w| |] eqn:E; cbn in *; try easy.
  destruct (kept v w) as (-> & _); auto.
Qed.

Lemma nil_counted l : incl l src -> (In nil2 (result l) <-> sum_nils f l <> 0).
Proof.
  pose proof (sum_nils_nonneg f) as P.
  induction l as [|v l IH]; [cbn; tauto|]. intros I. cbn [map In]. rewrite sum_nils_cons.
  rewrite IH by (intros u J; apply I; now right). specialize (P l).
  destruct (f v) as [w| |] eqn:E; cbn [cell_nils cell_value]; [|split; [lia|now left]..].
  destruct (kept v w) as (-> & N); [apply I; now left|exact E|]. split; [intros [|]; [contradiction|lia]|right; lia].
Qed.

Lemma one_nil l : incl l src -> NoDup l -> sum_nils f l <= 1 -> NoDup (result l).
Proof.
  pose proof (sum_nils_nonneg f) as P.
  induction l as [|v l IH]; intros I N; [constructor|]. cbn [map]. inversion N as [|x y Nv N']. subst.
  assert (I' : incl l src) by (intros u J; apply I; now right).
  rewrite sum_nils_cons. specialize (P l).
  intros L. constructor; [|apply IH; auto; destruct (f v); cbn [cell_nils] in L; lia].
  destruct (f v) as [w| |] eqn:E; cbn [cell_nils cell_value] in *.
  - destruct (kept v w) as (-> & Nn); [apply I; now left|exact E|]. intros J. apply Nv. exact (result_in l v I' J Nn).
  - rewrite nil_counted by exact I'. lia.
  - rewrite nil_counted by exact I'. lia.
Qed.

End Flags.

Lemma as_type_id tp v : typed tp v -> as_type (Plain tp) v = v.
Proof. intros T. exact (store_id tp v T). Qed.

Lemma as_type_list tp l : Forall (typed tp) l -> map (as_type (Plain tp)) l = l.
Proof. induction 1 as [|v l T _ IH]; cbn [map]; [reflexivity|]. now rewrite as_type_id, IH. Qed.

Lemma same_size tp1 tp2 : ATOMsize tp1 = ATOMsize tp2 -> tp1 = tp2.
Proof. destruct tp1, tp2; reflexivity || discriminate. Qed.

Lemma conversion_kept stp tp2 v w : conversion stp (Plain tp2) v = Val w -> w = v /\ proper tp2 w.
Proof.
  unfold conversion, accepts, proper. destruct (v =? _); [discriminate|].
  destruct (_ && _) eqn:A; [|discriminate]. intros E. injection E as <-. lia.
Qed.

Lemma conversion_typed stp tp2 v : typed tp2 (cell_value (num_nil tp2) (conversion stp (Plain tp2) v)).
Proof.
  assert (N : typed tp2 (num_nil tp2)) by (unfold typed; destruct tp2; cbn; lia).
  destruct (conversion stp (Plain tp2) v) as [w| |] eqn:E; cbn [cell_value]; try exact N.
  destruct (conversion_kept stp tp2 v w E) as (-> & P). unfold typed, proper in *. lia.
Qed.

(** The result of a loop, when the argument is what its flags say. *)
Lemma converted_ok stp b tp2 nils dst : bat_ok b ->
  converts (conversion stp (Plain tp2)) (num_nil tp2) false (b_vals b) (Some (nils, dst)) ->
  bat_ok (mkBat tp2 false (b_hseq b) (read dst (BATcount b)) ((nils =? 0) && b_sorted b) ((nils =? 0) && b_revsorted b)
            (b_key b && (nils <=? 1)) (negb (nils =? 0)) (nils =? 0)).
Proof.
  intros Ok (-> & R & _). unfold BATcount. rewrite R.
  assert (K : forall v w, In v (b_vals b) -> conversion stp (Plain tp2) v = Val w -> w = v /\ v <> num_nil tp2).
  { intros v w _ E. destruct (conversion_kept stp tp2 v w E) as (-> & P). split; [reflexivity|]. unfold proper in P. lia. }
  pose proof (nil_counted (num_nil tp2) _ (b_vals b) K (b_vals b) (incl_refl _)) as N.
  split; cbn [b_type b_hseq b_vals b_sorted b_revsorted b_key b_nil b_nonil].
  - destruct (ok_head b Ok) as (A & B). split; [exact A|]. unfold BATcount in *. cbn [b_vals b_hseq]. now rewrite length_map.
  - apply Forall_forall. intros w I. apply in_map_iff in I. destruct I as (v & <- & I). apply conversion_typed.
  - intros E. apply andb_prop in E. destruct E as (E & O). apply Z.eqb_eq in E.
    rewrite (no_nils _ _ _ K _ (incl_refl _) E). now apply (ok_sorted b).
  - intros E. apply andb_prop in E. destruct E as (E & O). apply Z.eqb_eq in E.
    rewrite (no_nils _ _ _ K _ (incl_refl _) E). now apply (ok_revsorted b).
  - intros E. apply andb_prop in E. destruct E as (O & E). apply Z.leb_le in E.
    apply (one_nil _ _ _ K); [apply incl_refl|now apply (ok_key b)|exact E].
  - intros E. apply negb_true_iff, Z.eqb_neq in E. now apply N.
  - intros E I. apply Z.eqb_eq in E. apply N in I. contradiction.
Qed.

(** C30: Converting all rows of an integer column, without candidates, to another integer type keeps every value
    that the type has and makes the others nil, or fails when [abort_on_error] is set;
    the flags of the result (order, no duplicates, nils) are true when those of
    the argument are.  With candidates that begin behind the first row or end before the last,
    values are stored at the wrong rows and behind the last one ([ptr_convert_overrun]). *)
Theorem BATconvert_true readonly tp1 b tp2 ab (Ok : bat_ok b) (T : b_type b = tp1) :
  match BATconvert readonly (Plain tp1) b None (Plain tp2) ab with
  | Some bn =>
      bat_ok bn /\ b_hseq bn = b_hseq b
      /\ b_vals bn = map (fun v => cell_value (num_nil tp2) (conversion (Plain tp1) (Plain tp2) v)) (b_vals b)
      /\ (ab = true -> forall v, In v (b_vals b) -> conversion (Plain tp1) (Plain tp2) v <> Overflow)
  | None => ab = true /\ exists v, In v (b_vals b) /\ conversion (Plain tp1) (Plain tp2) v = Overflow
  end.
Proof.
  pose proof (ok_typed b Ok) as Ty. rewrite T in Ty. unfold BATconvert, CANDINIT, is_bit. cbn [negb andb ATOMstorage].
  case Z.eqb_spec; intros Sz.
  - apply same_size in Sz. subst tp2.
    assert (C : forall v, In v (b_vals b) -> conversion (Plain tp1) (Plain tp1) v = if v =? num_nil tp1 then NilCell else Val v).
    { intros v I. rewrite Forall_forall in Ty. specialize (Ty v I). unfold conversion, accepts. cbn [ATOMstorage].
      case Z.eqb_spec; intros N; [reflexivity|]. unfold typed in Ty.
      now replace ((num_nil tp1 <? v) && (v <=? num_max tp1)) with true by lia. }
    unfold BATcopy, same_type. rewrite Z.eqb_refl, (as_type_list tp1 _ Ty).
    split; [destruct readonly, Ok; split; cbn; try rewrite <- T; assumption || discriminate|]. split; [now destruct readonly|]. split.
    + replace (b_vals (if readonly then _ else _)) with (b_vals b) by now destruct readonly.
      rewrite <- (map_id (b_vals b)) at 1. apply map_ext_in. intros v I. rewrite (C v I).
      case Z.eqb_spec; intros E; [now subst|reflexivity].
    + intros _ v I. rewrite (C v I). now destruct (_ =? _).
  - rewrite (as_type_list tp1 _ Ty). pose proof (switch_converts (Plain tp1) (Plain tp2) ab (b_vals b) (b_hseq b) ltac:(discriminate) Sz Ty) as P.
    cbv zeta in P. fold (BATcount b) in P.
    destruct (convert_typeswitchloop _ _ _ _ _ _ _ _ _) as [ [nils dst]|]; [|exact P].
    destruct P as (N & R & O). split; [|split; [reflexivity|split; [exact R|exact O] ] ].
    apply (converted_ok (Plain tp1)); [exact Ok|]. split; [exact N|]. split; [exact R|discriminate].
Qed.

Definition sample_numbers : bat := mkBat TYPE_int false 0 [-5; 3; 200] true false true false true.

Lemma sample_numbers_ok : bat_ok sample_numbers.
Proof.
  split; cbn; try discriminate.
  - split; cbn; lia.
  - repeat constructor; unfold typed; cbn; lia.
  - intros _ i j L. cbn in L. assert (K : forall k, (k < 3)%nat -> k = 0%nat \/ k = 1%nat \/ k = 2%nat) by lia.
    destruct (K i ltac:(lia)) as [->|[->| ->] ], (K j ltac:(lia)) as [->|[->| ->] ]; cbn; lia.
  - intros _. repeat constructor; cbn; lia.
  - intros _. cbn. lia.
Qed.

Lemma BATconvert_true_witness :
  exists bn, BATconvert false (Plain TYPE_int) sample_numbers None (Plain TYPE_bte) false = Some bn
    /\ b_vals bn = [-5; 3; -128] /\ bat_ok bn.
Proof.
  pose proof (BATconvert_true false TYPE_int sample_numbers TYPE_bte false sample_numbers_ok eq_refl) as P.
  destruct (BATconvert false (Plain TYPE_int) sample_numbers None (Plain TYPE_bte) false) as [bn|]; [|now destruct P].
  exists bn. split; [reflexivity|]. split; [apply P|apply P].
Defined.

(** Conversion to [bit] is neither monotone nor injective, and the flags are
    taken over all the same. *)
Lemma bit_keeps_flags :
  option_map (fun bn => (b_vals bn, b_sorted bn, b_key bn)) (BATconvert false (Plain TYPE_int) sample_numbers None TYPE_bit false)
  = Some ([1; 1; 1], true, true)
  /\ option_map (fun bn => (b_vals bn, b_sorted bn))
       (BATconvert false (Plain TYPE_int) (mkBat TYPE_int false 0 [-1; 0] true false true false true) None TYPE_bit false)
  = Some ([1; 0], true).
Proof. split; reflexivity. Qed.

(** From [lng] to [oid] a negative number is an overflow, except for a whole column. *)
Lemma oid_copied :
  option_map b_vals (BATconvert false (Plain TYPE_lng) (mkBat TYPE_lng false 0 [-1] true true true false true) None TYPE_oid true)
  = Some [2 ^ 64 - 1]
  /\ VARconvert (Plain TYPE_lng) (-1) TYPE_oid true = None.
Proof. split; reflexivity. Qed.
