(* ===== verification/MergeJoin.v ===== *)
(** * Joins by merging

    gdk/gdk_join.c, [binsearch] and [mergejoin]: two columns are joined on equal
    values, optionally restricted to candidates, when the right one is sorted.
    The file has what all join algorithms share, too: the rows that take part
    and the nested loop that says which pairs a join returns, in which order.
    [mergejoin] is shown to return the pairs of the nested loop when the two
    columns run in the same direction (or the left one is not sorted), and
    what it does otherwise. *)

From Stdlib Require Import ZArith Lia Bool List Permutation.
Import ListNotations.
From S2P Require Import Prelude Atoms Sort CalcLoop.

Open Scope Z_scope.
Open Scope list_scope.

(** ** Inputs *)

(** A column with a dense head.  [Value i] is what [VALUE] reads for row [i],
    counted from the first row; outside of the column it is whatever lies
    there in memory. *)
Record column (V : Type) := mkColumn {
  hseqbase : Z;
  count : nat;
  first : Z;
  Value : Z -> V;
  tsorted : bool;
  trevsorted : bool;
  tkey : bool;
}.
Arguments mkColumn {V}.
Arguments hseqbase {V}.
Arguments count {V}.
Arguments first {V}.
Arguments Value {V}.
Arguments tsorted {V}.
Arguments trevsorted {V}.
Arguments tkey {V}.

(** A column as a join walks through it: by the pointers [cand] and [candend]
    into its candidates, or by [start] and [end] through its rows.  Position [i]
    is the [i]-th candidate, or row [i]; [at_ i] is its oid, [val i] its value. *)
Record side (V : Type) := mkSide { by_cand : bool; at_ : Z -> Z; val : Z -> V }.
Arguments mkSide {V}.
Arguments by_cand {V}.
Arguments at_ {V}.
Arguments val {V}.

(** What follows the candidates in memory. *)
Definition nth_oid (behind : Z -> Z) (l : list Z) (i : Z) : Z :=
  if i <? 0 then behind i else nth (Z.to_nat i) l (behind i).

(** [CANDINIT], and the range of positions: [start] and [end] are what
    [CANDINIT] sets, and the third component is what the loop runs over. *)
Definition init {V} (behind : Z -> Z) (b : column V) (s : option cands) : side V * (Z * Z) * (Z * Z) :=
  let '(start, end_, cand) := CANDINIT (hseqbase b) (count b) s in
  let rows := (Z.of_nat start, Z.of_nat end_) in
  match cand with
  | Some l => (mkSide true (nth_oid behind l) (fun i => Value b (nth_oid behind l i - hseqbase b)), rows,
               (0, Z.of_nat (List.length l)))
  | None => (mkSide false (fun i => i + hseqbase b) (Value b), rows, rows)
  end.

(** The flags of a result column. *)
Record props := mkProps { p_nil : bool; p_nonil : bool; p_key : bool; p_sorted : bool; p_revsorted : bool }.

Definition fresh_props : props := mkProps false true true true true.

Definition set_key (k : bool) (p : props) : props := mkProps (p_nil p) (p_nonil p) k (p_sorted p) (p_revsorted p).
Definition unkey (c : bool) (p : props) : props := if c then set_key false p else p.
Definition unsort (c : bool) (p : props) : props :=
  if c then mkProps (p_nil p) (p_nonil p) (p_key p) false (p_revsorted p) else p.
Definition unrev (c : bool) (p : props) : props :=
  if c then mkProps (p_nil p) (p_nonil p) (p_key p) (p_sorted p) false else p.
Definition with_nil (c : bool) (p : props) : props :=
  if c then mkProps true false (p_key p) (p_sorted p) (p_revsorted p) else p.

(** What a join returns: the tails of its two result columns, row by row, and
    their flags. *)
Record joined := mkJoined { pairs : list (Z * Z); f1 : props; f2 : props }.

(** The variants of a join. *)
Record variant := mkVariant { nil_matches : bool; nil_on_miss : bool; semi : bool }.

(** ** The nested loop *)

Section Reference.

Context {V : Type} (cmp : V -> V -> Z) (nil : V).

Definition positions (lo hi : Z) : list Z := zrange lo (Z.to_nat (hi - lo)).

(** Does the row at [i] of the left take part. *)
Definition takes_part (w : variant) (v : V) : bool := nil_matches w || negb (cmp v nil =? 0).

(** The positions on the right that match. *)
Definition matching (R : side V) (lo hi : Z) (v : V) : list Z :=
  List.filter (fun j => cmp v (val R j) =? 0) (positions lo hi).

(** The rows of the result for a row of the left, and for all of them.
    [choose] picks the match of a semi-join. *)
Definition partners (w : variant) (choose : list Z -> list Z) (R : side V) (lo hi : Z) (v : V) : list Z :=
  if takes_part w v then
    match matching R lo hi v with
    | [] => if nil_on_miss w then [oid_nil] else []
    | js => map (at_ R) (if semi w then choose js else js)
    end
  else [].

Definition nested_loop (w : variant) (choose : list Z -> list Z) (L R : side V) (llo lhi rlo rhi : Z) : list (Z * Z) :=
  flat_map (fun i => map (fun o => (at_ L i, o)) (partners w choose R rlo rhi (val L i))) (positions llo lhi).

End Reference.

Definition first_of (l : list Z) : list Z := firstn 1 l.
Definition last_of (l : list Z) : list Z := firstn 1 (rev l).

(** ** The algorithm *)

Section Merge.

Context {V : Type} (cmp : V -> V -> Z) (nil : V).

(** The loop of [binsearch], between [lo] and [hi], both inclusive; the
    distance halves in every round, so 64 rounds are enough. *)
Fixpoint binsearch_loop (fuel : nat) (val : Z -> V) (lo hi : Z) (v : V) (reverse : Z) (last : bool) : Z :=
  match fuel with
  | O => hi
  | S fuel' =>
      if 1 <? u64 (hi - lo) then
        let mid := u64 (hi + lo) / 2 in
        let c := reverse * cmp (val mid) v in
        if (0 <? c) || (negb last && (c =? 0))
        then binsearch_loop fuel' val lo mid v reverse last
        else binsearch_loop fuel' val mid hi v reverse last
      else hi
  end.

Definition binsearch (val : Z -> V) (lo hi : Z) (v : V) (reverse : Z) (last : bool) : Z :=
  let hi := u64 (hi - 1) in
  let c := reverse * cmp (val lo) v in
  if (0 <? c) || (negb last && (c =? 0)) then lo
  else
    let c := reverse * cmp (val hi) v in
    if (c <? 0) || (last && (c =? 0)) then u64 (hi + 1)
    else binsearch_loop 64 val lo hi v reverse last.

(** The search as [mergejoin] calls it, in a window that starts [lo] and ends
    [hi] positions behind [base]: the pointer into the candidates advances by the
    result, an index of rows is replaced by it. *)
Definition search (s : side V) (base lo hi : Z) (v : V) (reverse : Z) (last : bool) : Z :=
  if by_cand s then base + binsearch (fun i => val s (base + i)) lo hi v reverse last
  else binsearch (val s) (base + lo) (base + hi) v reverse last.

(** [while (i < hi && f(i)) i++] and [while (lo < i && f(i - 1)) i--], where [n]
    is the distance to the bound. *)
Fixpoint while_up (n : nat) (f : Z -> bool) (i : Z) : Z :=
  match n with
  | O => i
  | S n' => if f i then while_up n' f (i + 1) else i
  end.
Fixpoint while_down (n : nat) (f : Z -> bool) (i : Z) : Z :=
  match n with
  | O => i
  | S n' => if f (i - 1) then while_down n' f (i - 1) else i
  end.

(** The opportunistic scan window, from 4 on. *)
Fixpoint scan_window (fuel : nat) (n scan : Z) : Z :=
  match fuel with
  | O => scan
  | S fuel' => if 0 <? n then scan_window fuel' (Z.shiftr n 1) (scan + 1) else scan
  end.

Section Run.

Context (L R : side V) (lhi rlo rhi : Z) (w : variant).
Context (lscan rscan lreverse rreverse : Z) (equal_order : bool).

(** Skipping values on the left that precede the next one on the right. *)
Definition skip_left (i a : Z) : Z :=
  let v := val R a in
  if (lscan <? u64 (lhi - i)) && (lreverse * cmp (val L (i + lscan)) v <? 0)
  then search L i lscan (lhi - i) v lreverse false
  else i.

(** The first position of [a .. b) with a value that does not precede [v]. *)
Definition find_forward (a b : Z) (v : V) : Z :=
  if (lscan =? 0) || ((rscan <? u64 (b - a)) && (0 <? rreverse * cmp v (val R (a + rscan))))
  then search R a (if lscan =? 0 then 0 else rscan) (b - a) v rreverse false
  else while_up (Z.to_nat (b - a)) (fun j => 0 <? rreverse * cmp v (val R j)) a.

(** The end of the positions of [a .. b) with a value that [v] does not precede. *)
Definition find_backward (a b : Z) (v : V) : Z :=
  if (rscan <? u64 (b - a)) && (rreverse * cmp v (val R (b - rscan - 1)) <? 0)
  then search R a 0 (b - a - (if lscan =? 0 then 0 else rscan)) v rreverse true
  else while_down (Z.to_nat (b - a)) (fun j => rreverse * cmp v (val R j) <? 0) b.

(** The number of values equal to [v] at the start, or the end, of [a .. b). *)
Definition count_forward (a b : Z) (v : V) : Z :=
  if (rscan <? u64 (b - a)) && (cmp v (val R (a + rscan)) =? 0)
  then search R a rscan (b - a) v rreverse true - a
  else while_up (Z.to_nat (b - a)) (fun j => cmp v (val R j) =? 0) a - a.
Definition count_backward (a b : Z) (v : V) : Z :=
  if (rscan <? u64 (b - a)) && (cmp v (val R (b - rscan - 1)) =? 0)
  then b - search R a 0 (b - a - rscan) v rreverse false
  else b - while_down (Z.to_nat (b - a)) (fun j => cmp v (val R j) =? 0) b.

(** The window that is left on the right once the values equal to [v] have been
    taken from it, and their number; they are [a - nr .. a) or [b .. b + nr). *)
Definition take (a b : Z) (v : V) : Z * Z * Z :=
  if equal_order then
    let a := find_forward a b v in
    let nr := count_forward a b v in (a + nr, b, nr)
  else
    let b := find_backward a b v in
    let nr := count_backward a b v in (a, b - nr, nr).

(** The rows inserted for [nl] values on the left, up to [i], and [nr] on the
    right. *)
Definition insert (insert_nil : bool) (i nl a b nr : Z) : list (Z * Z) :=
  flat_map
    (fun k => map (fun o => (at_ L k, o))
       (if insert_nil then repeat oid_nil (Z.to_nat nr)
        else map (at_ R) (zrange (if equal_order then a - nr else b) (Z.to_nat nr))))
    (zrange (i - nl) (Z.to_nat nl)).

(** How the flags of the two results change; [prev] is the last value inserted,
    when the left is not sorted. *)
Definition note_left (some : bool) (nl nr : Z) (p : props) : props :=
  unrev some (unkey (1 <? nr) (unrev (1 <? nl) p)).
Definition note_right (some insert_nil : bool) (nl nr : Z) (prev : option V) (v : V) (p : props) : props :=
  let p := unrev insert_nil (unsort insert_nil (with_nil insert_nil p)) in
  let p := unkey (1 <? nl) p in
  let p := unsort ((1 <? nr) && (1 <? nl)) (unrev (1 <? nr) p) in
  let p := match prev with
           | Some u => if rreverse * cmp u v <? 0 then unrev true p else unsort true p
           | None => p
           end in
  if equal_order then unrev some p else unsort some p.

(** What happens for a run of values equal to [v], at positions [i .. i') on the
    left: the result so far, and how to go on (the window and [prev]), or [None]
    to stop. *)
Definition serve (i i' a b : Z) (prev : option V) (out : joined) (v : V) :
    joined * option (Z * Z * option V) :=
  let nl := i' - i in
  if negb (nil_matches w) && (cmp v nil =? 0) then (out, Some (a, b, prev))
  else
    let '(a, b, nr) := take a b v in
    if (nr =? 0) && negb (nil_on_miss w) then
      (out, if (0 <? lscan) && (a =? b) then None else Some (a, b, prev))
    else
      let insert_nil := nr =? 0 in
      let nr := if insert_nil then 1 else if semi w then 1 else nr in
      let some := match pairs out with [] => false | _ => true end in
      (mkJoined (pairs out ++ insert insert_nil i' nl a b nr)
         (note_left some nl nr (f1 out)) (note_right some insert_nil nl nr prev v (f2 out)),
       Some (a, b, if lscan =? 0 then Some v else prev)).

(** The loop over the left: [i] is its position, [a .. b) the window on the
    right. *)
Fixpoint merge_loop (fuel : nat) (i a b : Z) (prev : option V) (out : joined) : option joined :=
  match fuel with
  | O => None
  | S fuel' =>
      if negb (i <? lhi) then Some out
      else
        let skips := negb (nil_on_miss w) && (0 <? lscan) in
        let i := if skips then skip_left i a else i in
        let a := if skips then a else if lscan =? 0 then rlo else a in
        let v := val L i in
        let i' := while_up (Z.to_nat (lhi - (i + 1))) (fun k => cmp v (val L k) =? 0) (i + 1) in
        match serve i i' a b prev out v with
        | (out, Some (a, b, prev)) => merge_loop fuel' i' a b prev out
        | (out, None) => Some out
        end
  end.

End Run.

(** [mergejoin]; the results are new, with the flags of [joininitresults]. *)
Definition mergejoin (behind : Z -> Z) (l r : column V) (sl sr : option cands) (w : variant) : option joined :=
  let '(L, (lstart, lend), (llo, lhi)) := init behind l sl in
  let '(R, (rstart, rend), (rlo, rhi)) := init behind r sr in
  if (lstart =? lend) || (negb (nil_on_miss w) && (rstart =? rend))
  then Some (mkJoined [] fresh_props fresh_props)
  else
    let sorted := tsorted l || trevsorted l in
    let lscan := if sorted then scan_window 64 (lhi - llo) 4 else 0 in
    let equal_order :=
      if sorted then Bool.eqb (tsorted l) (tsorted r) || Bool.eqb (trevsorted l) (trevsorted r) else true in
    let lreverse := if sorted then if tsorted l then 1 else -1 else 1 in
    let out := if sorted then mkJoined [] fresh_props fresh_props
               else mkJoined [] (set_key (tkey r) fresh_props) (set_key (tkey l) fresh_props) in
    let rscan := scan_window 64 (rhi - rlo) 4 in
    let rreverse := if tsorted r then 1 else -1 in
    merge_loop L R lhi rlo w lscan rscan lreverse rreverse equal_order
      (S (Z.to_nat (lhi - llo))) llo rlo rhi None out.

End Merge.

(** ** Positions *)

Lemma positions_split lo m hi : lo <= m <= hi -> positions lo hi = positions lo m ++ positions m hi.
Proof.
  intros B. unfold positions. replace (Z.to_nat (hi - lo)) with (Z.to_nat (m - lo) + Z.to_nat (hi - m))%nat by lia.
  rewrite zrange_app. now replace (lo + Z.of_nat (Z.to_nat (m - lo))) with m by lia.
Qed.

Lemma in_positions lo hi j : In j (positions lo hi) <-> lo <= j < hi.
Proof.
  unfold positions. split; intros H.
  - apply In_zrange in H. lia.
  - apply zrange_In. lia.
Qed.

Lemma positions_nil lo hi : hi <= lo -> positions lo hi = [].
Proof. intros H. unfold positions. now replace (Z.to_nat (hi - lo)) with O by lia. Qed.

Lemma filter_all {A} (f : A -> bool) l : (forall x, In x l -> f x = true) -> List.filter f l = l.
Proof.
  induction l as [|x l IH]; intros H; [reflexivity|]. cbn. rewrite (H x) by now left. f_equal.
  apply IH. intros y I. apply H. now right.
Qed.

Lemma filter_nothing {A} (f : A -> bool) l : (forall x, In x l -> f x = false) -> List.filter f l = [].
Proof.
  induction l as [|x l IH]; intros H; [reflexivity|]. cbn. rewrite (H x) by now left.
  apply IH. intros y I. apply H. now right.
Qed.

Lemma filter_positions (f : Z -> bool) lo hi p q : lo <= p <= q -> q <= hi ->
  (forall j, lo <= j < hi -> f j = true <-> p <= j < q) -> List.filter f (positions lo hi) = positions p q.
Proof.
  intros B1 B2 H. rewrite (positions_split lo p hi), (positions_split p q hi) by lia.
  rewrite !filter_app, (filter_nothing f (positions lo p)), (filter_nothing f (positions q hi)), (filter_all f).
  - now rewrite app_nil_r.
  - intros j I. apply in_positions in I. apply H; lia.
  - intros j I. apply in_positions in I. destruct (f j) eqn:E; [apply H in E|]; lia || reflexivity.
  - intros j I. apply in_positions in I. destruct (f j) eqn:E; [apply H in E|]; lia || reflexivity.
Qed.

Lemma flat_map_nil {A B} (f : A -> list B) l : (forall x, In x l -> f x = []) -> flat_map f l = [].
Proof.
  induction l as [|x l IH]; intros H; [reflexivity|]. cbn. rewrite (H x) by now left.
  apply IH. intros y I. apply H. now right.
Qed.

Lemma flat_map_ext_in {A B} (f g : A -> list B) l : (forall x, In x l -> f x = g x) -> flat_map f l = flat_map g l.
Proof.
  induction l as [|x l IH]; intros H; [reflexivity|]. cbn. rewrite (H x) by now left. f_equal.
  apply IH. intros y I. apply H. now right.
Qed.

(** ** Searching *)

(** [p] separates the positions of [lo .. hi) that do not satisfy [P] from
    those that do. *)
Record is_point (P : Z -> bool) (lo hi p : Z) : Prop := {
  pt_bounds : lo <= p <= hi;
  pt_before : forall j, lo <= j < p -> P j = false;
  pt_after : forall j, p <= j < hi -> P j = true;
}.

Definition ascending (P : Z -> bool) (lo hi : Z) : Prop :=
  forall i j, lo <= i <= j -> j < hi -> P i = true -> P j = true.

Lemma is_point_shift P c lo hi p : is_point (fun i => P (c + i)) lo hi p -> is_point P (c + lo) (c + hi) (c + p).
Proof.
  intros [B L H]. split; [lia| |].
  - intros j J. replace j with (c + (j - c)) by lia. apply L. lia.
  - intros j J. replace j with (c + (j - c)) by lia. apply H. lia.
Qed.

Lemma is_point_ext P Q lo hi p : (forall j, P j = Q j) -> is_point P lo hi p -> is_point Q lo hi p.
Proof. intros E [B L H]. split; [exact B| |]; intros j J; rewrite <- E; auto. Qed.

Lemma is_point_widen_low P lo lo' hi p : is_point P lo' hi p -> lo <= lo' -> (forall j, lo <= j < lo' -> P j = false) ->
  is_point P lo hi p.
Proof.
  intros [B L H] B' W. split; [lia| |exact H]. intros j J. destruct (Z_lt_le_dec j lo'); [apply W|apply L]; lia.
Qed.

Lemma is_point_widen_high P lo hi hi' p : is_point P lo hi' p -> hi' <= hi -> (forall j, hi' <= j < hi -> P j = true) ->
  is_point P lo hi p.
Proof.
  intros [B L H] B' W. split; [lia|exact L|]. intros j J. destruct (Z_lt_le_dec j hi'); [apply H|apply W]; lia.
Qed.

Lemma while_up_point P n : forall i, ascending P i (i + Z.of_nat n) ->
  is_point P i (i + Z.of_nat n) (while_up n (fun j => negb (P j)) i).
Proof.
  induction n as [|n IH]; intros i A; cbn [while_up].
  - split; [lia|intros; lia|intros; lia].
  - destruct (P i) eqn:E; cbn [negb].
    + split; [lia|intros; lia|]. intros j J. apply (A i j); auto; lia.
    + replace (i + Z.of_nat (S n)) with (i + 1 + Z.of_nat n) by lia.
      apply (is_point_widen_low P i (i + 1)); [|lia|].
      * apply IH. intros x y X Y. apply A; lia.
      * intros j J. now replace j with i by lia.
Qed.

Lemma while_down_point P n : forall i, ascending P (i - Z.of_nat n) i ->
  is_point P (i - Z.of_nat n) i (while_down n P i).
Proof.
  induction n as [|n IH]; intros i A; cbn [while_down].
  - split; [lia|intros; lia|intros; lia].
  - destruct (P (i - 1)) eqn:E.
    + replace (i - Z.of_nat (S n)) with (i - 1 - Z.of_nat n) by lia.
      apply (is_point_widen_high P _ i (i - 1)); [|lia|].
      * apply IH. intros x y X Y. apply A; lia.
      * intros j J. now replace j with (i - 1) by lia.
    + split; [lia| |intros; lia]. intros j J. destruct (P j) eqn:F; [|reflexivity].
      rewrite (A j (i - 1)) in E; auto; lia.
Qed.

Lemma while_up_ext f g n : forall i, (forall j, i <= j < i + Z.of_nat n -> f j = g j) -> while_up n f i = while_up n g i.
Proof.
  induction n as [|n IH]; intros i E; cbn; [reflexivity|]. rewrite E by lia.
  destruct (g i); [|reflexivity]. apply IH. intros j J. apply E. lia.
Qed.

Lemma while_down_ext f g n : forall i, (forall j, i - Z.of_nat n <= j < i -> f j = g j) -> while_down n f i = while_down n g i.
Proof.
  induction n as [|n IH]; intros i E; cbn; [reflexivity|]. rewrite E by lia.
  destruct (g (i - 1)); [|reflexivity]. apply IH. intros j J. apply E. lia.
Qed.

(** A run: while [f] holds. *)
Lemma while_up_run f n : forall i, let p := while_up n f i in
  i <= p <= i + Z.of_nat n /\ (forall j, i <= j < p -> f j = true) /\ (p < i + Z.of_nat n -> f p = false).
Proof.
  induction n as [|n IH]; intros i; cbn [while_up].
  - cbv zeta. repeat split; intros; lia.
  - destruct (f i) eqn:E.
    + destruct (IH (i + 1)) as (B & R & S). cbv zeta. repeat split; try lia.
      * intros j J. destruct (Z.eq_dec j i) as [->|]; [exact E|]. apply R. lia.
      * intros J. apply S. lia.
    + cbv zeta. repeat split; try lia; intros; try lia. exact E.
Qed.

(** ** Order in a direction *)

Definition direction (r : Z) : Prop := r = 1 \/ r = -1.

Section Order.

Context {V : Type} (cmp : V -> V -> Z) `{C : !Comparison cmp} (r : Z) (D : direction r).

(** [x] does not come after [y]. *)
Definition le (x y : V) : Prop := r * cmp x y <= 0.

Lemma cmp_opposite_dir x y : Z.sgn (r * cmp y x) = - Z.sgn (r * cmp x y).
Proof. pose proof (cmp_opposite (cmp := cmp) x y). destruct D as [-> | ->]; lia. Qed.

Lemma le_trans x y z : le x y -> le y z -> le x z.
Proof.
  unfold le. pose proof (cmp_opposite (cmp := cmp) x y). pose proof (cmp_opposite (cmp := cmp) y z).
  pose proof (cmp_opposite (cmp := cmp) x z).
  pose proof (cmp_trans (cmp := cmp) x y z). pose proof (cmp_trans (cmp := cmp) z y x).
  destruct D as [-> | ->]; lia.
Qed.

Lemma le_total x y : ~ le x y -> le y x.
Proof. unfold le. pose proof (cmp_opposite_dir x y). lia. Qed.

Lemma cmp_le x y : cmp x y = 0 <-> le x y /\ le y x.
Proof. unfold le. pose proof (cmp_opposite_dir x y). destruct D as [-> | ->]; lia. Qed.

Lemma cmp_refl x : cmp x x = 0.
Proof. pose proof (cmp_opposite_dir x x). destruct D as [-> | ->]; lia. Qed.

Lemma before_le x y : (r * cmp x y <? 0) = true <-> ~ le y x.
Proof. unfold le. rewrite Z.ltb_lt. pose proof (cmp_opposite_dir x y). lia. Qed.

Lemma after_le x y : (0 <? r * cmp x y) = true <-> ~ le x y.
Proof. unfold le. rewrite Z.ltb_lt. lia. Qed.

Lemma cmp_sym x y : cmp x y = 0 -> cmp y x = 0.
Proof. rewrite !cmp_le. tauto. Qed.

Lemma cmp_eq_trans x y z : cmp x y = 0 -> cmp y z = 0 -> cmp x z = 0.
Proof. rewrite !cmp_le. intros [] []. split; eapply le_trans; eassumption. Qed.

(** The values of the positions are in order. *)
Definition ordered (f : Z -> V) (lo hi : Z) : Prop :=
  forall i j, lo <= i <= j -> j < hi -> le (f i) (f j).

(** Position [j] is behind the place for [v]: from the first (or, with [last],
    behind the last) place where [v] may stand. *)
Definition behind_place (f : Z -> V) (v : V) (last : bool) (j : Z) : bool :=
  let c := r * cmp (f j) v in (0 <? c) || (negb last && (c =? 0)).

Lemma behind_le f v last j :
  behind_place f v last j = true <-> if last then ~ le (f j) v else le v (f j).
Proof.
  unfold behind_place. pose proof (cmp_opposite_dir (f j) v) as E. destruct last; cbn [negb andb].
  - rewrite orb_false_r. apply after_le.
  - unfold le. rewrite orb_true_iff, Z.ltb_lt, Z.eqb_eq. lia.
Qed.

Lemma behind_place_ascending f v last lo hi : ordered f lo hi -> ascending (behind_place f v last) lo hi.
Proof.
  intros O i j I J. specialize (O i j I J). rewrite !behind_le. destruct last.
  - intros N M. apply N. now apply le_trans with (f j).
  - intros N. now apply le_trans with (f i).
Qed.

End Order.

Section Searching.

Context {V : Type} (cmp : V -> V -> Z) `{C : !Comparison cmp} (r : Z) (D : direction r).

#[local] Abbreviation behind_place := (behind_place cmp r).
#[local] Abbreviation ordered := (ordered cmp r).

Lemma binsearch_loop_point f v last fuel : forall lo hi,
  0 <= lo < hi -> hi < 2 ^ 62 -> hi - lo <= 2 ^ Z.of_nat fuel ->
  ascending (behind_place f v last) lo (hi + 1) ->
  behind_place f v last lo = false -> behind_place f v last hi = true ->
  is_point (behind_place f v last) lo (hi + 1) (binsearch_loop cmp fuel f lo hi v r last).
Proof.
  induction fuel as [|fuel IH]; intros lo hi B H F A E1 E2; cbn [binsearch_loop].
  - cbn in F. split; [lia| |].
    + intros j J. now replace j with lo by lia.
    + intros j J. apply (A hi j); auto; lia.
  - rewrite (uwrap_id 64 (hi - lo)), (uwrap_id 64 (hi + lo)) by lia. case Z.ltb_spec; intros G.
    + assert (M : lo < (hi + lo) / 2 < hi) by (Z.to_euclidean_division_equations; lia).
      assert (M2 : hi - (hi + lo) / 2 <= 2 ^ Z.of_nat fuel /\ (hi + lo) / 2 - lo <= 2 ^ Z.of_nat fuel).
      { rewrite Nat2Z.inj_succ, Z.pow_succ_r in F by lia. Z.to_euclidean_division_equations. lia. }
      set (mid := (hi + lo) / 2) in *. clearbody mid.
      fold (behind_place f v last mid). destruct (behind_place f v last mid) eqn:E.
      * apply (is_point_widen_high _ _ _ (mid + 1)); [|lia|].
        -- apply IH; auto; try lia. intros i j I J. apply A; lia.
        -- intros j J. apply (A mid j); auto; lia.
      * apply (is_point_widen_low _ _ mid); [|lia|].
        -- apply IH; auto; try lia. intros i j I J. apply A; lia.
        -- intros j J. destruct (behind_place f v last j) eqn:Ej; [|reflexivity].
           rewrite (A j mid) in E; auto; lia.
    + split; [lia| |].
      * intros j J. now replace j with lo by lia.
      * intros j J. apply (A hi j); auto; lia.
Qed.

Lemma binsearch_point f v last lo hi : 0 <= lo < hi -> hi < 2 ^ 62 ->
  ascending (behind_place f v last) lo hi ->
  is_point (behind_place f v last) lo hi (binsearch cmp f lo hi v r last).
Proof.
  intros B H A. unfold binsearch. rewrite (uwrap_id 64 (hi - 1)) by lia. cbv zeta.
  fold (behind_place f v last lo). destruct (behind_place f v last lo) eqn:E1.
  - split; [lia|intros; lia|]. intros j J. apply (A lo j); auto; lia.
  - match goal with |- context [if ?t then u64 _ else _] =>
      assert (t = negb (behind_place f v last (hi - 1))) as -> end.
    { unfold behind_place. set (c := r * _). destruct last; cbn [negb andb]; ztests; reflexivity. }
    destruct (behind_place f v last (hi - 1)) eqn:E2; cbn [negb].
    + replace hi with (hi - 1 + 1) at 1 by lia.
      assert (lo <> hi - 1) by (intros ->; congruence).
      apply binsearch_loop_point; auto; try lia. now replace (hi - 1 + 1) with hi by lia.
    + rewrite uwrap_id by lia. split; [lia| |intros; lia]. intros j J.
      destruct (behind_place f v last j) eqn:Ej; [|reflexivity]. rewrite (A j (hi - 1)) in E2; auto; lia.
Qed.

Lemma search_point s base lo hi v last : 0 <= base -> 0 <= lo < hi -> base + hi < 2 ^ 62 -> ordered (val s) (base + lo) (base + hi) ->
  is_point (behind_place (val s) v last) (base + lo) (base + hi) (search cmp s base lo hi v r last).
Proof.
  intros B L H O. apply (behind_place_ascending cmp r D) with (v := v) (last := last) in O.
  unfold search. destruct (by_cand s).
  - apply (is_point_shift (behind_place (val s) v last) base).
    apply (binsearch_point (fun i => val s (base + i))); [lia|lia|].
    intros i j I J. apply (O (base + i) (base + j)); lia.
  - apply binsearch_point; auto; lia.
Qed.

End Searching.

(** ** Taking the values equal to one from the right *)

Section Take.

Context {V : Type} (cmp : V -> V -> Z) `{C : !Comparison cmp} (rr : Z) (D : direction rr).
Context (R : side V) (lscan rscan a b : Z) (v : V).
Context (B : 0 <= a <= b) (B2 : b < 2 ^ 62) (O : ordered cmp rr (val R) a b) (S0 : 0 < rscan).

#[local] Abbreviation ge := (behind_place cmp rr (val R) v false).
#[local] Abbreviation gt := (behind_place cmp rr (val R) v true).
#[local] Abbreviation le := (le cmp rr).

Lemma ge_le j : ge j = true <-> le v (val R j).
Proof. apply (behind_le cmp rr D). Qed.

Lemma gt_le j : gt j = true <-> ~ le (val R j) v.
Proof. apply (behind_le cmp rr D). Qed.

Lemma ge_false j : ge j = false <-> ~ le v (val R j).
Proof. rewrite <- ge_le. symmetry. apply not_true_iff_false. Qed.

Lemma gt_false j : gt j = false <-> le (val R j) v.
Proof.
  rewrite <- not_true_iff_false, gt_le. unfold MergeJoin.le. split; [|intros Le N; exact (N Le)].
  intros N. apply Znot_gt_le. intros G. apply N. intros F. exact (Zle_not_gt _ _ F G).
Qed.

Lemma window_search lo hi last : 0 <= lo < hi -> hi <= b - a ->
  is_point (behind_place cmp rr (val R) v last) (a + lo) (a + hi) (search cmp R a lo hi v rr last).
Proof.
  intros L H. apply (search_point cmp rr D); try lia. intros i j I J. apply O; lia.
Qed.

Lemma up_point last : let P := behind_place cmp rr (val R) v last in
  is_point P a b (while_up (Z.to_nat (b - a)) (fun j => negb (P j)) a).
Proof.
  cbv zeta. set (P := behind_place _ _ _ _ _). pose proof (while_up_point P (Z.to_nat (b - a)) a) as Q.
  replace (a + Z.of_nat (Z.to_nat (b - a))) with b in Q by lia. apply Q.
  now apply (behind_place_ascending cmp rr D).
Qed.

Lemma down_point last : let P := behind_place cmp rr (val R) v last in
  is_point P a b (while_down (Z.to_nat (b - a)) P b).
Proof.
  cbv zeta. set (P := behind_place _ _ _ _ _). pose proof (while_down_point P (Z.to_nat (b - a)) b) as Q.
  replace (b - Z.of_nat (Z.to_nat (b - a))) with a in Q by lia. apply Q.
  now apply (behind_place_ascending cmp rr D).
Qed.

Lemma find_forward_point : (lscan = 0 -> a < b) -> is_point ge a b (find_forward cmp R lscan rscan rr a b v).
Proof.
  intros NE. unfold find_forward. rewrite (uwrap_id 64) by lia. destruct (Z.eqb_spec lscan 0) as [E|E]; cbn [orb].
  - pose proof (window_search 0 (b - a) false ltac:(lia) ltac:(lia)) as Q.
    replace (a + 0) with a in Q by lia. now replace (a + (b - a)) with b in Q by lia.
  - destruct ((rscan <? b - a) && (0 <? rr * cmp v (val R (a + rscan)))) eqn:T.
    + apply andb_true_iff in T. destruct T as (T1 & T2). apply Z.ltb_lt in T1. apply (after_le cmp rr) in T2.
      pose proof (window_search rscan (b - a) false ltac:(lia) ltac:(lia)) as Q.
      replace (a + (b - a)) with b in Q by lia.
      apply (is_point_widen_low _ a (a + rscan)); [exact Q|lia|]. intros j J.
      destruct (ge j) eqn:G; [|reflexivity]. apply ge_le in G. destruct T2.
      apply (le_trans cmp rr D v (val R j)); [exact G|]. apply O; lia.
    + rewrite (while_up_ext _ (fun j => negb (ge j))).
      * apply up_point.
      * intros j _. apply eq_true_iff_eq. now rewrite (after_le cmp rr), negb_true_iff, ge_false.
Qed.

Lemma count_forward_point : (forall j, a <= j < b -> le v (val R j)) ->
  is_point gt a b (a + count_forward cmp R rscan rr a b v).
Proof.
  intros Ge. unfold count_forward. rewrite (uwrap_id 64) by lia.
  assert (Eq : forall j, a <= j < b -> (cmp v (val R j) =? 0) = negb (gt j)).
  { intros j J. specialize (Ge j J). apply eq_true_iff_eq.
    rewrite Z.eqb_eq, (cmp_le cmp rr D), negb_true_iff, gt_false. tauto. }
  destruct ((rscan <? b - a) && (cmp v (val R (a + rscan)) =? 0)) eqn:T.
  - apply andb_true_iff in T. destruct T as (T1 & T2). apply Z.ltb_lt in T1.
    pose proof (window_search rscan (b - a) true ltac:(lia) ltac:(lia)) as Q.
    replace (a + (b - a)) with b in Q by lia. rewrite Zplus_minus.
    apply (is_point_widen_low _ a (a + rscan)); [exact Q|lia|]. intros j J. apply gt_false.
    apply (le_trans cmp rr D _ (val R (a + rscan))); [apply O; lia|]. apply gt_false.
    rewrite Eq in T2 by lia. now apply negb_true_iff in T2.
  - rewrite Zplus_minus, (while_up_ext _ (fun j => negb (gt j))) by (intros j J; apply Eq; lia).
    apply up_point.
Qed.

Lemma find_backward_point : 0 < lscan -> is_point gt a b (find_backward cmp R lscan rscan rr a b v).
Proof.
  intros L. unfold find_backward. rewrite (uwrap_id 64) by lia. rewrite (proj2 (Z.eqb_neq lscan 0)) by lia.
  destruct ((rscan <? b - a) && (rr * cmp v (val R (b - rscan - 1)) <? 0)) eqn:T.
  - apply andb_true_iff in T. destruct T as (T1 & T2). apply Z.ltb_lt in T1. apply (before_le cmp rr D) in T2.
    pose proof (window_search 0 (b - a - rscan) true ltac:(lia) ltac:(lia)) as Q.
    replace (a + 0) with a in Q by lia. replace (a + (b - a - rscan)) with (b - rscan) in Q by lia.
    apply (is_point_widen_high _ a b (b - rscan)); [exact Q|lia|]. intros j J. apply gt_le. intros F.
    apply T2. apply (le_trans cmp rr D _ (val R j)); [apply O; lia|exact F].
  - rewrite (while_down_ext _ gt).
    + apply down_point.
    + intros j _. apply eq_true_iff_eq. now rewrite (before_le cmp rr D), gt_le.
Qed.

Lemma count_backward_point : (forall j, a <= j < b -> le (val R j) v) ->
  is_point ge a b (b - count_backward cmp R rscan rr a b v).
Proof.
  intros Le. unfold count_backward. rewrite (uwrap_id 64) by lia.
  assert (Eq : forall j, a <= j < b -> (cmp v (val R j) =? 0) = ge j).
  { intros j J. specialize (Le j J). apply eq_true_iff_eq.
    rewrite Z.eqb_eq, (cmp_le cmp rr D), ge_le. tauto. }
  destruct ((rscan <? b - a) && (cmp v (val R (b - rscan - 1)) =? 0)) eqn:T.
  - apply andb_true_iff in T. destruct T as (T1 & T2). apply Z.ltb_lt in T1.
    pose proof (window_search 0 (b - a - rscan) false ltac:(lia) ltac:(lia)) as Q.
    replace (a + 0) with a in Q by lia. replace (a + (b - a - rscan)) with (b - rscan) in Q by lia.
    set (p := search _ _ _ _ _ _ _ _) in *. replace (b - (b - p)) with p by lia.
    apply (is_point_widen_high _ a b (b - rscan)); [exact Q|lia|]. intros j J. apply ge_le.
    apply (le_trans cmp rr D _ (val R (b - rscan - 1))); [|apply O; lia]. apply ge_le.
    now rewrite Eq in T2 by lia.
  - set (p := while_down _ _ _). replace (b - (b - p)) with p by lia. unfold p.
    rewrite (while_down_ext _ ge) by (intros j J; apply Eq; lia).
    apply down_point.
Qed.

End Take.

(** ** The loop returns the pairs of the nested loop *)

Section Loop.

Context {V : Type} (cmp : V -> V -> Z) `{C : !Comparison cmp} (nil : V).
Context (L R : side V) (llo lhi rlo rhi : Z) (w : variant).
Context (lscan rscan lreverse rreverse : Z) (equal_order : bool).

#[local] Abbreviation rle := (le cmp rreverse).

(** The cases in which the merge is right: the left is not sorted; the
    two sides run in the same direction; they run in opposite directions and
    nothing is skipped on the left.  In the second case the value behind the
    end of the left, which an inner join may compare, is none on the right. *)
Inductive regime : Prop :=
| unsorted_left : lscan = 0 -> equal_order = true -> rlo < rhi -> regime
| same_direction : 0 < lscan -> equal_order = true -> lreverse = rreverse ->
    ordered cmp rreverse (val L) llo lhi ->
    (nil_on_miss w = false -> forall j, rlo <= j < rhi -> cmp (val L lhi) (val R j) <> 0) -> regime
| opposite_direction : 0 < lscan -> equal_order = false -> ordered cmp (- rreverse) (val L) llo lhi ->
    nil_on_miss w = true \/ lhi - llo <= lscan -> regime.

Record setting : Prop := {
  se_left : 0 <= llo /\ llo <= lhi < 2 ^ 62;
  se_right : 0 <= rlo <= rhi /\ rhi < 2 ^ 62;
  se_direction : direction rreverse;
  se_ordered : ordered cmp rreverse (val R) rlo rhi;
  se_scan : 0 <= lscan /\ 0 < rscan;
  se_regime : regime;
}.
Context (Hs : setting).

Definition choose : list Z -> list Z := if equal_order then last_of else first_of.

#[local] Abbreviation partners_of := (partners cmp nil w choose R rlo rhi).
#[local] Abbreviation nested i := (nested_loop cmp nil w choose L R i lhi rlo rhi).
#[local] Abbreviation row k v := (map (fun o => (at_ L k, o)) (partners_of v)).

(** No row from [i] on has matches outside of the window. *)
Definition window (i a b : Z) : Prop :=
  (rlo <= a <= b /\ b <= rhi) /\ (if equal_order then b = rhi else a = rlo)
  /\ forall k j, i <= k < lhi -> rlo <= j < rhi -> ~ a <= j < b -> cmp (val L k) (val R j) <> 0.

Lemma matching_nil v : (forall j, rlo <= j < rhi -> cmp v (val R j) <> 0) -> matching cmp R rlo rhi v = [].
Proof.
  intros H. apply filter_nothing. intros j J. apply in_positions in J. now apply Z.eqb_neq, H.
Qed.

Lemma partners_equal u v : cmp u v = 0 -> partners_of u = partners_of v.
Proof.
  destruct Hs as [_ _ D _ _ _]. intros E.
  assert (T : forall x, (cmp u x =? 0) = (cmp v x =? 0)).
  { intros x. apply eq_true_iff_eq. rewrite !Z.eqb_eq. split; intros F.
    - apply (cmp_eq_trans cmp rreverse D v u x); [now apply (cmp_sym cmp rreverse D)|exact F].
    - now apply (cmp_eq_trans cmp rreverse D u v x). }
  unfold partners, takes_part, matching. rewrite T.
  now rewrite (filter_ext _ (fun j => cmp v (val R j) =? 0)) by (intros j; apply T).
Qed.

(** Rows with equal values have the same partners. *)
Lemma nested_group i i' : i <= i' <= lhi -> (forall k, i <= k < i' -> cmp (val L i) (val L k) = 0) ->
  nested i = flat_map (fun k => row k (val L i)) (positions i i') ++ nested i'.
Proof.
  intros B E. unfold nested_loop. rewrite (positions_split i i' lhi) by lia. rewrite flat_map_app. f_equal.
  apply flat_map_ext_in. intros k K. apply in_positions in K. now rewrite (partners_equal _ _ (E k K)).
Qed.

Lemma nested_skip i i' : i <= i' <= lhi -> nil_on_miss w = false ->
  (forall k, i <= k < i' -> forall j, rlo <= j < rhi -> cmp (val L k) (val R j) <> 0) -> nested i = nested i'.
Proof.
  intros B N H. unfold nested_loop. rewrite (positions_split i i' lhi) by lia. rewrite flat_map_app.
  rewrite (flat_map_nil _ (positions i i')); [reflexivity|]. intros k K. apply in_positions in K.
  unfold partners. rewrite matching_nil by (intros; now apply H). rewrite N. now destruct (takes_part _ _ _ _).
Qed.

Lemma nested_end i : lhi <= i -> nested i = [].
Proof. intros H. unfold nested_loop. now rewrite positions_nil. Qed.

(** *** Skipping on the left *)

Lemma skip_left_spec i a b : llo <= i < lhi -> window i a b -> nil_on_miss w = false -> 0 < lscan ->
  let i' := skip_left cmp L R lhi lscan lreverse i a in
  i <= i' <= lhi /\ nested i = nested i' /\ window i' a b
  /\ (i' = lhi -> forall j, rlo <= j < rhi -> cmp (val L lhi) (val R j) <> 0).
Proof.
  intros I W N S. pose proof W as ((B1 & B2) & We & Wn). destruct Hs as [(L0 & L1) (R0 & R1) D O (S1 & S2) Rg].
  unfold skip_left. rewrite (uwrap_id 64) by lia. cbv zeta.
  destruct ((lscan <? lhi - i) && _) eqn:T.
  2: { split; [lia|]. split; [reflexivity|]. split; [exact W|lia]. }
  apply andb_true_iff in T. destruct T as (T1 & T2). apply Z.ltb_lt in T1.
  destruct Rg as [|G1 G2 G3 G4 G5|G1 G2 G3 G4]; [lia| |destruct G4; [congruence|lia]].
  rewrite G3 in T2 |- *. specialize (G5 N).
  assert (Q : is_point (behind_place cmp rreverse (val L) (val R a) false) (i + lscan) (i + (lhi - i))
                (search cmp L i lscan (lhi - i) (val R a) rreverse false)).
  { apply (search_point cmp rreverse D); try lia. intros x y X Y. apply G4; lia. }
  set (p := search _ _ _ _ _ _ _ _) in *. replace (i + (lhi - i)) with lhi in Q by lia. clearbody p.
  destruct Q as [Q1 Q2 Q3].
  assert (Before : forall k, i <= k < p -> ~ rle (val R a) (val L k)).
  { intros k K F. apply (before_le cmp rreverse D) in T2. destruct (Z_lt_le_dec k (i + lscan)) as [K'|K'].
    - apply T2. apply (le_trans cmp rreverse D _ (val L k)); [exact F|]. apply G4; lia.
    - specialize (Q2 k ltac:(lia)). apply not_true_iff_false in Q2. apply Q2. now apply (behind_le cmp rreverse D). }
  assert (None_ : forall k, i <= k < p -> forall j, rlo <= j < rhi -> cmp (val L k) (val R j) <> 0).
  { intros k K j J. rewrite G2 in We. destruct (Z_lt_le_dec j a); [apply Wn; lia|]. intros E.
    apply (Before k K). apply (le_trans cmp rreverse D _ (val R j)); [apply O; lia|].
    now apply (cmp_le cmp rreverse D) in E. }
  split; [lia|]. split; [apply nested_skip; auto; lia|]. split; [|intros _; exact G5].
  split; [now split|]. split; [exact We|]. intros k j K. apply Wn. lia.
Qed.

(** *** Taking from the right *)

(** The block of [a .. b) equal to [v], between what precedes and what follows it. *)
Definition block (a b p q : Z) (v : V) : Prop :=
  (forall j, a <= j < p -> ~ rle v (val R j)) /\ (forall j, p <= j < b -> rle v (val R j))
  /\ (forall j, a <= j < q -> rle (val R j) v) /\ (forall j, q <= j < b -> ~ rle (val R j) v).

Lemma block_equal a b p q v j : block a b p q v -> a <= j < b -> cmp v (val R j) = 0 <-> p <= j < q.
Proof.
  intros (X & Y & Z & T) J. rewrite (cmp_le cmp rreverse (se_direction Hs)). split.
  - intros (H1 & H2). destruct (Z_lt_le_dec j p); [exfalso; apply (X j); [lia|exact H1]|].
    destruct (Z_lt_le_dec j q); [lia|exfalso; apply (T j); [lia|exact H2]].
  - intros B. split; [apply Y|apply Z]; lia.
Qed.

Lemma forward_block a b v : rlo <= a <= b -> b <= rhi -> (lscan = 0 -> a < b) ->
  let p := find_forward cmp R lscan rscan rreverse a b v in
  let nr := count_forward cmp R rscan rreverse p b v in
  a <= p /\ 0 <= nr /\ p + nr <= b /\ block a b p (p + nr) v.
Proof.
  intros B1 B2 NE. destruct Hs as [(L0 & L1) (R0 & R1) D O (S1 & S2) _]. cbv zeta.
  assert (Oab : forall a', a <= a' -> ordered cmp rreverse (val R) a' b) by (intros a' A x y X Y; apply O; lia).
  destruct (find_forward_point cmp rreverse D R lscan rscan a b v ltac:(lia) ltac:(lia) (Oab a ltac:(lia)) S2 NE)
    as [P1 P2 P3].
  set (p := find_forward _ _ _ _ _ _ _ _) in *. clearbody p.
  destruct (count_forward_point cmp rreverse D R rscan p b v ltac:(lia) ltac:(lia) (Oab p ltac:(lia)) S2) as [Q1 Q2 Q3].
  { intros j J. apply (ge_le cmp rreverse D R v). now apply P3. }
  set (nr := count_forward _ _ _ _ _ _ _) in *. clearbody nr.
  assert (X : forall j, a <= j < p -> ~ rle v (val R j)) by (intros j J; apply (ge_false cmp rreverse D R v), P2, J).
  repeat split; try lia; [exact X|..]; intros j J.
  - apply (ge_le cmp rreverse D R v), P3, J.
  - destruct (Z_lt_le_dec j p); [apply (le_total cmp rreverse D), X; lia|].
    apply (gt_false cmp rreverse D R v), Q2. lia.
  - apply (gt_le cmp rreverse D R v), Q3. lia.
Qed.

Lemma backward_block a b v : rlo <= a <= b -> b <= rhi -> 0 < lscan ->
  let q := find_backward cmp R lscan rscan rreverse a b v in
  let nr := count_backward cmp R rscan rreverse a q v in
  a <= q - nr /\ 0 <= nr /\ q <= b /\ block a b (q - nr) q v.
Proof.
  intros B1 B2 NE. destruct Hs as [(L0 & L1) (R0 & R1) D O (S1 & S2) _]. cbv zeta.
  assert (Oab : forall b', b' <= b -> ordered cmp rreverse (val R) a b') by (intros b' A x y X Y; apply O; lia).
  destruct (find_backward_point cmp rreverse D R lscan rscan a b v ltac:(lia) ltac:(lia) (Oab b ltac:(lia)) S2 NE)
    as [P1 P2 P3].
  set (q := find_backward _ _ _ _ _ _ _ _) in *. clearbody q.
  destruct (count_backward_point cmp rreverse D R rscan a q v ltac:(lia) ltac:(lia) (Oab q ltac:(lia)) S2) as [Q1 Q2 Q3].
  { intros j J. apply (gt_false cmp rreverse D R v). now apply P2. }
  set (nr := count_backward _ _ _ _ _ _ _) in *. clearbody nr.
  assert (X : forall j, q <= j < b -> ~ rle (val R j) v) by (intros j J; apply (gt_le cmp rreverse D R v), P3, J).
  repeat split; try lia; [| | |exact X]; intros j J.
  - apply (ge_false cmp rreverse D R v), Q2. lia.
  - destruct (Z_lt_le_dec j q); [apply (ge_le cmp rreverse D R v), Q3; lia|].
    apply (le_total cmp rreverse D), X. lia.
  - apply (gt_false cmp rreverse D R v), P2. lia.
Qed.

(** The values equal to [v] are taken from the window, with all that are of no
    use any more. *)
Lemma take_spec a b v a' b' nr : rlo <= a <= b -> b <= rhi -> (lscan = 0 -> a < b) ->
  take cmp R lscan rscan rreverse equal_order a b v = (a', b', nr) ->
  let first := if equal_order then a' - nr else b' in
  0 <= nr /\ a <= first /\ first + nr <= b /\ a <= a' <= b' /\ b' <= b
  /\ block a b first (first + nr) v
  /\ (if equal_order then b' = b /\ a' = first + nr else a' = a).
Proof.
  intros B1 B2 NE. unfold take. destruct equal_order eqn:Eo; intros E; injection E as <- <- <-; cbv zeta.
  - destruct (forward_block a b v B1 B2 NE) as (P1 & P2 & P3 & P4).
    set (p := find_forward _ _ _ _ _ _ _ _) in *. set (nr := count_forward _ _ _ _ _ _ _) in *.
    replace (p + nr - nr) with p by lia. repeat split; try lia; apply P4.
  - assert (S : 0 < lscan) by (destruct (se_regime Hs); congruence || lia).
    destruct (backward_block a b v B1 B2 S) as (P1 & P2 & P3 & P4).
    set (q := find_backward _ _ _ _ _ _ _ _) in *. set (nr := count_backward _ _ _ _ _ _ _) in *.
    replace (q - nr + nr) with q by lia. repeat split; try lia; apply P4.
Qed.

Lemma le_opposite x y : le cmp (- rreverse) x y -> rle y x.
Proof. unfold le. pose proof (cmp_opposite_dir cmp rreverse (se_direction Hs) x y). lia. Qed.

(** Values behind a run of values equal to [v] differ from it, in the direction
    of the left. *)
Lemma beyond_run i i' k : llo <= i < i' -> i' <= k < lhi -> 0 < lscan -> cmp (val L i) (val L i') <> 0 ->
  if equal_order then ~ rle (val L k) (val L i) else ~ rle (val L i) (val L k).
Proof.
  intros I K S N. pose proof (se_direction Hs) as D.
  destruct (se_regime Hs) as [|G1 G2 G3 G4 G5|G1 G2 G3 G4]; [lia|rewrite G2..]; intros F; apply N;
    apply (cmp_le cmp rreverse D); split.
  - apply G4; lia.
  - apply (le_trans cmp rreverse D _ (val L k)); [apply G4; lia|exact F].
  - apply (le_trans cmp rreverse D _ (val L k)); [exact F|]. apply le_opposite, G3; lia.
  - apply le_opposite, G3; lia.
Qed.

Lemma window_next i i' a b a' b' nr : llo <= i < i' -> 0 < lscan ->
  (i' < lhi -> cmp (val L i) (val L i') <> 0) -> window i a b ->
  take cmp R lscan rscan rreverse equal_order a b (val L i) = (a', b', nr) -> window i' a' b'.
Proof.
  intros I S N ((W1 & W1') & W2 & W3) E. pose proof (se_direction Hs) as D.
  destruct (take_spec a b (val L i) a' b' nr) as (T1 & T2 & T3 & T4 & T5 & (Bl1 & Bl2 & Bl3 & Bl4) & T7); auto; try lia.
  split; [lia|]. destruct equal_order eqn:Eo.
  - split; [lia|]. intros k j K J Nj Ek. destruct T7 as (-> & T7).
    destruct (Z_lt_le_dec j a); [now apply (W3 k j); try lia|].
    pose proof (beyond_run i i' k I K S (N ltac:(lia))) as Bk. rewrite Eo in Bk. apply Bk.
    apply (cmp_le cmp rreverse D) in Ek. apply (le_trans cmp rreverse D _ (val R j)); [apply Ek|].
    apply Bl3. lia.
  - split; [lia|]. intros k j K J Nj Ek.
    destruct (Z_lt_le_dec j b); [|now apply (W3 k j); try lia].
    pose proof (beyond_run i i' k I K S (N ltac:(lia))) as Bk. rewrite Eo in Bk. apply Bk.
    apply (cmp_le cmp rreverse D) in Ek. apply (le_trans cmp rreverse D _ (val R j)); [|apply Ek].
    apply Bl2. lia.
Qed.

(** The matches of [v] on the right are the block taken from the window. *)
Lemma matching_block a b v a' b' nr : rlo <= a <= b -> b <= rhi -> (lscan = 0 -> a < b) ->
  (forall j, rlo <= j < rhi -> ~ a <= j < b -> cmp v (val R j) <> 0) ->
  take cmp R lscan rscan rreverse equal_order a b v = (a', b', nr) ->
  matching cmp R rlo rhi v = zrange (if equal_order then a' - nr else b') (Z.to_nat nr).
Proof.
  intros B1 B2 NE Out E. destruct (take_spec a b v a' b' nr B1 B2 NE E) as (T1 & T2 & T3 & _ & _ & Bl & _).
  set (first := if equal_order then a' - nr else b') in *. unfold matching.
  rewrite (filter_positions _ rlo rhi first (first + nr)); [|lia|lia|].
  - unfold positions. now replace (first + nr - first) with nr by lia.
  - intros j J. rewrite Z.eqb_eq. pose proof (block_equal a b _ _ v j Bl) as Q.
    destruct (Z_lt_le_dec j a); [|destruct (Z_lt_le_dec j b)].
    + pose proof (Out j J ltac:(lia)). split; [contradiction|lia].
    + apply Q. lia.
    + pose proof (Out j J ltac:(lia)). split; [contradiction|lia].
Qed.

Lemma chosen_block a' b' nr : 0 < nr ->
  choose (zrange (if equal_order then a' - nr else b') (Z.to_nat nr)) = zrange (if equal_order then a' - 1 else b') 1.
Proof.
  intros P. unfold choose. destruct (Z.to_nat nr) as [|n] eqn:E; [lia|]. destruct equal_order.
  - rewrite zrange_snoc. unfold last_of. rewrite rev_app_distr. cbn. f_equal. lia.
  - reflexivity.
Qed.

(** What is inserted for a run of equal values on the left. *)
Lemma insert_partners i i' v a' b' nr : i < i' -> 0 <= nr ->
  matching cmp R rlo rhi v = zrange (if equal_order then a' - nr else b') (Z.to_nat nr) ->
  takes_part cmp nil w v = true -> nr <> 0 \/ nil_on_miss w = true ->
  insert L R equal_order (nr =? 0) i' (i' - i) a' b' (if nr =? 0 then 1 else if semi w then 1 else nr)
  = flat_map (fun k => row k v) (positions i i').
Proof.
  intros I P M T N. unfold insert, positions. replace (i' - (i' - i)) with i by lia.
  apply flat_map_ext_in. intros k _. f_equal. unfold partners. rewrite T, M.
  destruct (Z.eqb_spec nr 0) as [E|E].
  - subst nr. cbn. destruct N as [N|N]; [contradiction|now rewrite N].
  - pose proof (chosen_block a' b' nr ltac:(lia)) as Ch.
    destruct (Z.to_nat nr) as [|n] eqn:En; [lia|]. cbn [zrange] in *.
    destruct (semi w); [now rewrite Ch|]. rewrite En. reflexivity.
Qed.

Lemma miss_partners v a' b' : matching cmp R rlo rhi v = zrange (if equal_order then a' - 0 else b') (Z.to_nat 0) ->
  nil_on_miss w = false -> partners_of v = [].
Proof. intros M N. unfold partners. rewrite M, N. cbn. now destruct (takes_part _ _ _ _). Qed.

(** The start of a round. *)
Definition window_at (i a b : Z) : Prop := if lscan =? 0 then rlo <= a <= b /\ b = rhi else window i a b.

Lemma prepare i a b : llo <= i < lhi -> window_at i a b ->
  let skips := negb (nil_on_miss w) && (0 <? lscan) in
  let i' := if skips then skip_left cmp L R lhi lscan lreverse i a else i in
  let a' := if skips then a else if lscan =? 0 then rlo else a in
  i <= i' <= lhi /\ nested i = nested i' /\ window i' a' b /\ (lscan = 0 -> a' < b)
  /\ (i' = lhi -> nil_on_miss w = false /\ forall j, rlo <= j < rhi -> cmp (val L lhi) (val R j) <> 0).
Proof.
  intros I W. cbv zeta. unfold window_at in W. pose proof (se_scan Hs) as (S0 & _).
  destruct (Z.eqb_spec lscan 0) as [E|E].
  - destruct (se_regime Hs) as [G1 G2 G3| |]; [|lia..]. rewrite E, andb_false_r. cbn [Z.ltb Z.compare].
    destruct W as (W & ->). split; [lia|]. split; [reflexivity|]. split; [|split; [intros; lia|lia]].
    split; [lia|]. rewrite G2. split; [reflexivity|]. intros; lia.
  - rewrite (proj2 (Z.ltb_lt 0 lscan)), andb_true_r by lia. destruct (nil_on_miss w) eqn:N; cbn [negb].
    + split; [lia|]. split; [reflexivity|]. split; [exact W|]. split; lia.
    + destruct (skip_left_spec i a b I W N ltac:(lia)) as (P1 & P2 & P3 & P4).
      split; [exact P1|]. split; [exact P2|]. split; [exact P3|]. split; [lia|]. auto.
Qed.

Lemma next_window i i' a b a' b' nr : llo <= i < i' -> window i a b -> (lscan = 0 -> a < b) ->
  (i' < lhi -> cmp (val L i) (val L i') <> 0) ->
  take cmp R lscan rscan rreverse equal_order a b (val L i) = (a', b', nr) -> window_at i' a' b'.
Proof.
  intros I W NE N E. unfold window_at. pose proof (se_scan Hs) as (S0 & _).
  destruct (Z.eqb_spec lscan 0) as [Es|Es]; [|apply (window_next i i' a b a' b' nr); auto; lia].
  destruct W as ((W1 & W1') & W2 & _).
  destruct (take_spec a b (val L i) a' b' nr) as (_ & _ & _ & T4 & T5 & _ & T7); auto; try lia.
  destruct (se_regime Hs) as [_ G2 _| |]; [|lia..]. rewrite G2 in W2, T7. lia.
Qed.

Lemma merge_loop_end fuel i a b prev out : lhi <= i -> (0 < fuel)%nat ->
  merge_loop cmp nil L R lhi rlo w lscan rscan lreverse rreverse equal_order fuel i a b prev out = Some out.
Proof.
  intros H F. destruct fuel; [lia|]. cbn [merge_loop]. now rewrite (proj2 (Z.ltb_ge i lhi)) by exact H.
Qed.

(** A window that is empty means that nothing on the right is left to match. *)
Lemma nested_exhausted i a b : window i a b -> b <= a -> nil_on_miss w = false -> i <= lhi -> nested i = [].
Proof.
  intros (W1 & W2 & W3) E N I. rewrite (nested_skip i lhi); [apply nested_end; lia|lia|exact N|].
  intros k K j J. apply W3; lia.
Qed.

(** A round that compares what lies behind the end of the left adds nothing. *)
Lemma serve_past_end i' a b prev out : window lhi a b -> (lscan = 0 -> a < b) ->
  nil_on_miss w = false -> (forall j, rlo <= j < rhi -> cmp (val L lhi) (val R j) <> 0) ->
  fst (serve cmp nil L R w lscan rscan rreverse equal_order lhi i' a b prev out (val L lhi)) = out.
Proof.
  intros ((W1 & W1') & W2 & W3) NE N J. unfold serve. rewrite N.
  destruct (negb (nil_matches w) && _); [reflexivity|].
  destruct (take _ _ _ _ _ _ _ _ _) as [ [a' b'] nr] eqn:E.
  pose proof (matching_block a b _ a' b' nr W1 W1' NE (fun j H _ => J j H) E) as M.
  destruct (take_spec a b _ a' b' nr W1 W1' NE E) as (T1 & _).
  rewrite (matching_nil _ J) in M. destruct (Z.to_nat nr) as [|n] eqn:En; [|discriminate].
  now assert (nr = 0) as -> by lia.
Qed.

Lemma window_later i i' a b : window i a b -> i <= i' -> window_at i' a b.
Proof.
  intros (W1 & W2 & W3) I. unfold window_at. pose proof (se_scan Hs) as (S0 & _). destruct (Z.eqb_spec lscan 0).
  - destruct (se_regime Hs) as [_ G2 _| |]; [|lia..]. rewrite G2 in W2. lia.
  - split; [exact W1|]. split; [exact W2|]. intros k j K. apply W3. lia.
Qed.

(** A round for a run of equal values inserts the partners of its rows; when it
    stops, the rows behind the run have none. *)
Lemma serve_spec i i' a b prev out (v := val L i) :
  llo <= i < i' -> i' <= lhi -> window i a b -> (lscan = 0 -> a < b) -> (i' < lhi -> cmp v (val L i') <> 0) ->
  let '(out', next) := serve cmp nil L R w lscan rscan rreverse equal_order i i' a b prev out v in
  pairs out' = pairs out ++ flat_map (fun k => row k v) (positions i i')
  /\ match next with Some (a', b', _) => window_at i' a' b' | None => nested i' = [] end.
Proof.
  intros I I' W NE Next.
  assert (Silent : partners_of v = [] -> pairs out = pairs out ++ flat_map (fun k => row k v) (positions i i')).
  { intros E. rewrite flat_map_nil; [now rewrite app_nil_r|]. intros k _. now rewrite E. }
  unfold serve. destruct (negb (nil_matches w) && (cmp v nil =? 0)) eqn:Nil.
  - split; [|apply (window_later i); [exact W|lia]]. apply Silent. unfold partners, takes_part.
    destruct (nil_matches w), (cmp v nil =? 0); cbn in Nil |- *; congruence.
  - assert (T : takes_part cmp nil w v = true).
    { unfold takes_part. destruct (nil_matches w), (cmp v nil =? 0); cbn in Nil |- *; congruence. }
    destruct (take _ _ _ _ _ _ _ _ _) as [ [a' b'] nr] eqn:E. pose proof W as ((W1 & W1') & W2 & W3).
    pose proof (matching_block a b v a' b' nr W1 W1' NE (fun j H N => W3 i j ltac:(lia) H N) E) as M.
    destruct (take_spec a b v a' b' nr W1 W1' NE E) as (T1 & _).
    pose proof (next_window i i' a b a' b' nr I W NE Next E) as Wn.
    destruct ((nr =? 0) && negb (nil_on_miss w)) eqn:Miss.
    + apply andb_true_iff in Miss. destruct Miss as (Nr & N). apply Z.eqb_eq in Nr. apply negb_true_iff in N. subst nr.
      split; [exact (Silent (miss_partners v a' b' M N))|].
      destruct ((0 <? lscan) && (a' =? b')) eqn:Br; [|exact Wn].
      apply andb_true_iff in Br. destruct Br as (Br1 & Br2). apply Z.ltb_lt in Br1. apply Z.eqb_eq in Br2.
      unfold window_at in Wn. rewrite (proj2 (Z.eqb_neq lscan 0)) in Wn by lia.
      apply (nested_exhausted i' a' b' Wn); auto; lia.
    + split; [|exact Wn]. cbn [pairs]. f_equal. apply insert_partners; auto; [lia|].
      destruct (Z.eqb_spec nr 0); [right|now left]. cbn in Miss. now apply negb_false_iff in Miss.
Qed.

(** The loop ends, and adds the pairs of the nested loop from row [i] on. *)
Lemma merge_loop_spec fuel : forall i a b prev out,
  llo <= i -> (Z.to_nat (lhi - i) < fuel)%nat -> (i < lhi -> window_at i a b) ->
  exists out', merge_loop cmp nil L R lhi rlo w lscan rscan lreverse rreverse equal_order fuel i a b prev out = Some out'
    /\ pairs out' = pairs out ++ nested i.
Proof.
  induction fuel as [|fuel IH]; intros i a b prev out I F W; [lia|].
  destruct (Z_lt_le_dec i lhi) as [Il|Il].
  2: { exists out. rewrite merge_loop_end, nested_end, app_nil_r by lia. now split. }
  cbn [merge_loop]. rewrite (proj2 (Z.ltb_lt i lhi)) by exact Il. cbn [negb]. cbv zeta.
  destruct (prepare i a b (conj I Il) (W Il)) as (P1 & P2 & P3 & P4 & P5). cbv zeta in P1, P2, P3, P4, P5.
  set (i2 := if _ && _ then skip_left _ _ _ _ _ _ _ _ else i) in *.
  set (a2 := if _ && _ then a else if _ =? _ then rlo else a) in *. clearbody i2 a2. rewrite P2. clear P2 W.
  set (i' := while_up _ _ _).
  destruct (while_up_run (fun k => cmp (val L i2) (val L k) =? 0) (Z.to_nat (lhi - (i2 + 1))) (i2 + 1)) as (Q1 & Q2 & Q3).
  fold i' in Q1, Q2, Q3. clearbody i'. destruct (Z.eq_dec i2 lhi) as [E|E].
  - destruct (P5 E) as (N & J). subst i2. rewrite (nested_end lhi) by lia. exists out. rewrite app_nil_r. split; [|reflexivity].
    pose proof (serve_past_end i' a2 b prev out P3 P4 N J) as X.
    destruct (serve _ _ _ _ _ _ _ _ _ _ _ _ _ _ _ _) as [out' [ [ [a' b'] prev'] |] ]; cbn [fst] in X; subst out';
      [apply merge_loop_end; lia|reflexivity].
  - assert (Run : forall k, i2 <= k < i' -> cmp (val L i2) (val L k) = 0).
    { intros k K. destruct (Z.eq_dec k i2) as [->|]; [|apply Z.eqb_eq, Q2; lia].
      apply (cmp_refl cmp rreverse (se_direction Hs)). }
    assert (Next : i' < lhi -> cmp (val L i2) (val L i') <> 0) by (intros Q; apply Z.eqb_neq, Q3; lia).
    rewrite (nested_group i2 i') by (auto; lia).
    pose proof (serve_spec i2 i' a2 b prev out ltac:(lia) ltac:(lia) P3 P4 Next) as X.
    destruct (serve _ _ _ _ _ _ _ _ _ _ _ _ _ _ _ _) as [out' [ [ [a' b'] prev'] |] ]; destruct X as (X1 & X2).
    + destruct (IH i' a' b' prev' out') as (o & Y1 & Y2); [lia|lia|auto|].
      exists o. split; [exact Y1|]. now rewrite Y2, X1, app_assoc.
    + exists out'. split; [reflexivity|]. now rewrite X1, X2, app_nil_r.
Qed.

End Loop.

(** ** What a join of two columns means *)

Section Meaning.

Context {V : Type} (cmp : V -> V -> Z) (nil : V).

Definition value_of (b : column V) (o : Z) : V := Value b (o - hseqbase b).

Definition is_candidate (s : option cands) (o : Z) : bool :=
  match s with
  | None => true
  | Some (Dense q n) => (q <=? o) && (o <? q + Z.of_nat n)
  | Some (Oids l) => existsb (Z.eqb o) l
  end.

(** The oids of the rows that take part in a join. *)
Definition rows (b : column V) (s : option cands) : list Z :=
  List.filter (is_candidate s) (zrange (hseqbase b) (count b)).

(** The oids on the right that match a value. *)
Definition matches (r : column V) (sr : option cands) (v : V) : list Z :=
  List.filter (fun o => cmp v (value_of r o) =? 0) (rows r sr).

(** The oids paired with a value of the left, when [found] are its matches in the
    order of the algorithm: none for a nil that does not take part; nil when
    there is no match and the variant asks for it. *)
Definition partners_of (w : variant) (found : V -> list Z) (v : V) : list Z :=
  if takes_part cmp nil w v then
    match found v with
    | [] => if nil_on_miss w then [oid_nil] else []
    | os => os
    end
  else [].

(** The pairs of a join, row by row of the left. *)
Definition join_of (w : variant) (found : V -> list Z) (l : column V) (sl : option cands) : list (Z * Z) :=
  flat_map (fun o => map (pair o) (partners_of w found (value_of l o))) (rows l sl).

(** All matches, in the order of the right; or, for a semi-join, the one that
    [choose] picks. *)
Definition ascending_matches (w : variant) (choose : list Z -> list Z) (r : column V) (sr : option cands) (v : V) : list Z :=
  if semi w then choose (matches r sr v) else matches r sr v.

(** What any algorithm has to find: all matches in some order; or, for a
    semi-join, one of them if there is any. *)
Definition finds (w : variant) (r : column V) (sr : option cands) (found : V -> list Z) : Prop :=
  forall v, if semi w
            then (found v = [] /\ matches r sr v = []) \/ exists o, found v = [o] /\ In o (matches r sr v)
            else Permutation (found v) (matches r sr v).

Lemma finds_ascending w choose r sr : choose = first_of \/ choose = last_of ->
  finds w r sr (ascending_matches w choose r sr).
Proof.
  intros Ch v. unfold ascending_matches. destruct (semi w); [|reflexivity].
  destruct (matches r sr v) as [|o os].
  - left. now destruct Ch as [-> | ->].
  - right. destruct Ch as [-> | ->]; [exists o; split; [reflexivity|now left]|].
    unfold last_of. destruct (rev (o :: os)) as [|x k] eqn:E.
    + apply (f_equal (@List.length Z)) in E. now rewrite length_rev in E.
    + exists x. split; [reflexivity|]. apply in_rev. rewrite E. now left.
Qed.

(** What the flags of a column promise, and what the code relies on otherwise. *)
Record column_ok (b : column V) (s : option cands) : Prop := {
  co_seq : 0 <= hseqbase b;
  co_end : hseqbase b + Z.of_nat (count b) < 2 ^ 62;
  co_sorted : tsorted b = true -> ordered cmp 1 (Value b) 0 (Z.of_nat (count b));
  co_revsorted : trevsorted b = true -> ordered cmp (-1) (Value b) 0 (Z.of_nat (count b));
  co_cands : cands_ok (hseqbase b) (count b) s;
}.

End Meaning.

(** A side of the join stands for the rows that take part. *)
Record stands_for {V} (cmp : V -> V -> Z) (b : column V) (s : option cands) (X : side V) (lo hi : Z) : Prop := {
  sf_bounds : 0 <= lo /\ lo <= hi < 2 ^ 62;
  sf_rows : map (at_ X) (positions lo hi) = rows b s;
  sf_value : forall j, lo <= j < hi -> val X j = value_of b (at_ X j);
  sf_ordered : forall r, ordered cmp r (Value b) 0 (Z.of_nat (count b)) -> ordered cmp r (val X) lo hi;
}.

Lemma zrange_filter (f : Z -> bool) h n st en : 0 <= st <= en -> en <= Z.of_nat n ->
  (forall j, 0 <= j < Z.of_nat n -> f (h + j) = (st <=? j) && (j <? en)) ->
  List.filter f (zrange h n) = map (fun i => i + h) (positions st en).
Proof.
  intros B1 B2 H. unfold positions.
  rewrite (map_ext_zrange _ (fun i => h + i)) by (intros; lia). rewrite zrange_shift.
  replace n with (Z.to_nat st + (Z.to_nat (en - st) + (n - Z.to_nat en)))%nat at 1 by lia.
  rewrite !zrange_app, !filter_app, filter_nothing, filter_all, filter_nothing.
  - cbn [app]. rewrite app_nil_r. f_equal; lia.
  - intros x I. apply In_zrange in I. replace x with (h + (x - h)) by lia. rewrite H by lia. lia.
  - intros x I. apply In_zrange in I. replace x with (h + (x - h)) by lia. rewrite H by lia. lia.
  - intros x I. apply In_zrange in I. replace x with (h + (x - h)) by lia. rewrite H by lia. lia.
Qed.

(** Ascending oids within the range of the rows are their own filter. *)
Lemma oids_filter l : Sorted.StronglySorted Z.lt l -> forall h n,
  Forall (fun o => h <= o < h + Z.of_nat n) l -> List.filter (fun o => existsb (Z.eqb o) l) (zrange h n) = l.
Proof.
  induction 1 as [|x l Sl IH F]; intros h n B; [now apply filter_nothing|].
  inversion B as [|y k Bx Bl]. subst. rewrite Forall_forall in F, Bl.
  replace n with (Z.to_nat (x - h) + S (n - Z.to_nat (x - h) - 1))%nat by lia.
  rewrite zrange_app, filter_app. cbn [zrange].
  replace (h + Z.of_nat (Z.to_nat (x - h))) with x by lia. rewrite filter_nothing.
  - cbn [app List.filter existsb]. rewrite Z.eqb_refl. cbn [orb]. f_equal.
    transitivity (List.filter (fun o => existsb (Z.eqb o) l) (zrange (x + 1) (n - Z.to_nat (x - h) - 1))).
    + apply filter_ext_in. intros o I. apply In_zrange in I. now rewrite (proj2 (Z.eqb_neq o x)) by lia.
    + apply IH, Forall_forall. intros o I. specialize (F o I). specialize (Bl o I). lia.
  - intros o I. apply In_zrange in I. apply not_true_iff_false. rewrite existsb_exists. intros (y & Iy & E).
    apply Z.eqb_eq in E. subst y. destruct Iy as [->|Iy]; [lia|]. specialize (F o Iy). lia.
Qed.

Lemma CANDINIT_dense hseq cnt q n : exists st en,
  CANDINIT hseq cnt (Some (Dense q n)) = (Z.to_nat st, Z.to_nat en, None)
  /\ 0 <= st <= en /\ en <= Z.of_nat cnt
  /\ forall j, 0 <= j < Z.of_nat cnt -> (q <=? hseq + j) && (hseq + j <? q + Z.of_nat n) = (st <=? j) && (j <? en).
Proof.
  cbn [CANDINIT cands_count]. destruct (Nat.eqb_spec n 0) as [->|N].
  - exists 0, 0. split; [reflexivity|]. change (Z.of_nat 0) with 0. repeat split; lia.
  - rewrite !Z.geb_leb. set (st := if q <=? hseq then _ else _). set (en := if _ <=? q + _ then _ else _).
    exists st, en. split; [reflexivity|].
    assert (B : 0 <= st <= en /\ en <= Z.of_nat cnt
      /\ forall j, 0 <= j < Z.of_nat cnt -> (st <= j < en <-> q <= hseq + j < q + Z.of_nat n)).
    { unfold st, en. ztests; split; try lia; split; try lia; intros; lia. }
    clearbody st en. destruct B as (B1 & B2 & B3). repeat split; try lia.
    intros j J. specialize (B3 j J). lia.
Qed.

Section Init.

Context {V : Type} (cmp : V -> V -> Z) (behind : Z -> Z) (b : column V).

#[local] Abbreviation by_rows := (mkSide false (fun i => i + hseqbase b) (Value b)).

Lemma stands_rows s st en : column_ok cmp b s -> 0 <= st <= en -> en <= Z.of_nat (count b) ->
  (forall j, 0 <= j < Z.of_nat (count b) -> is_candidate s (hseqbase b + j) = (st <=? j) && (j <? en)) ->
  stands_for cmp b s by_rows st en.
Proof.
  intros Ok B1 B2 H. pose proof (co_seq _ _ _ Ok). pose proof (co_end _ _ _ Ok). split; cbn [at_ val]; [lia| | |].
  - unfold rows. now rewrite (zrange_filter _ _ _ st en).
  - intros j J. unfold value_of. f_equal. lia.
  - intros r O i j I J. apply O; lia.
Qed.

Lemma nth_oid_in l j : 0 <= j < Z.of_nat (List.length l) -> In (nth_oid behind l j) l.
Proof. intros J. unfold nth_oid. rewrite (proj2 (Z.ltb_ge j 0)) by lia. apply nth_In. lia. Qed.

Lemma nth_oid_map l : map (nth_oid behind l) (positions 0 (Z.of_nat (List.length l))) = l.
Proof.
  unfold positions. rewrite Z.sub_0_r, Nat2Z.id.
  assert (G : forall l2 l1, l = l1 ++ l2 ->
    map (nth_oid behind l) (zrange (Z.of_nat (List.length l1)) (List.length l2)) = l2).
  { induction l2 as [|x l2 IH]; intros l1 E; [reflexivity|]. cbn [List.length zrange map]. f_equal.
    - unfold nth_oid. rewrite (proj2 (Z.ltb_ge _ 0)), Nat2Z.id by lia. rewrite E. apply nth_middle.
    - specialize (IH (l1 ++ [x])). rewrite length_app in IH. cbn [List.length] in IH.
      replace (Z.of_nat (List.length l1) + 1) with (Z.of_nat (List.length l1 + 1)) by lia. apply IH.
      now rewrite <- app_assoc. }
  exact (G l [] eq_refl).
Qed.

Lemma nth_oid_sorted l i j : Sorted.StronglySorted Z.lt l -> 0 <= i <= j -> j < Z.of_nat (List.length l) ->
  nth_oid behind l i <= nth_oid behind l j.
Proof.
  intros Sl I J. unfold nth_oid. rewrite !(proj2 (Z.ltb_ge _ 0)) by lia.
  rewrite (nth_indep l _ 0), (nth_indep l (behind j) 0) by lia.
  assert (K : (Z.to_nat i <= Z.to_nat j < List.length l)%nat) by lia.
  generalize dependent (Z.to_nat j). generalize (Z.to_nat i). clear I J.
  induction Sl as [|x l Sl IH F]; intros a c K; cbn [List.length] in K; [lia|].
  destruct c as [|c]; destruct a as [|a]; cbn [nth]; [lia|lia| |apply IH; lia].
  rewrite Forall_forall in F. specialize (F (nth c l 0) ltac:(apply nth_In; lia)). lia.
Qed.

Lemma stands_cands l : column_ok cmp b (Some (Oids l)) ->
  stands_for cmp b (Some (Oids l))
    (mkSide true (nth_oid behind l) (fun i => Value b (nth_oid behind l i - hseqbase b))) 0 (Z.of_nat (List.length l)).
Proof.
  intros Ok. destruct (co_cands _ _ _ Ok) as (Sl & F). pose proof (co_seq _ _ _ Ok). pose proof (co_end _ _ _ Ok).
  assert (R : rows b (Some (Oids l)) = l) by (now apply oids_filter).
  split; cbn [at_ val].
  - assert (L : (List.length l <= count b)%nat); [|lia].
    rewrite <- R at 1. unfold rows. rewrite filter_length_le. now rewrite zrange_length.
  - rewrite R. apply nth_oid_map.
  - reflexivity.
  - intros r O i j I J. rewrite Forall_forall in F.
    pose proof (F _ (nth_oid_in l i ltac:(lia))). pose proof (F _ (nth_oid_in l j ltac:(lia))).
    pose proof (nth_oid_sorted l i j Sl ltac:(lia) J). apply O; lia.
Qed.

(** [init] yields a side that stands for the column; [start] equals [end] when
    there are no rows. *)
Lemma init_spec s : column_ok cmp b s ->
  let '(X, (st, en), (lo, hi)) := init behind b s in
  stands_for cmp b s X lo hi /\ (st = en <-> lo = hi).
Proof.
  intros Ok. unfold init. destruct s as [ [q n|l] |].
  - destruct (CANDINIT_dense (hseqbase b) (count b) q n) as (st & en & -> & B1 & B2 & H).
    rewrite !Z2Nat.id by lia. split; [|lia]. now apply stands_rows.
  - destruct l as [|x l].
    + cbn. split; [|lia]. apply stands_rows; try lia; try assumption. intros j J. cbn. lia.
    + pose proof (co_cands _ _ _ Ok) as (Sl & F). rewrite (CANDINIT_oids _ _ _ F) by discriminate.
      split; [now apply stands_cands|]. pose proof (oids_bounds _ _ _ F ltac:(discriminate)).
      pose proof (ascending_hd_last (x :: l) x Sl (or_introl eq_refl)). cbn [List.length]. lia.
  - cbn. split; [|lia]. apply stands_rows; try lia; try assumption. intros j J. cbn. lia.
Qed.

End Init.

(** ** Merging two columns *)

Section Merging.

Context {V : Type} (cmp : V -> V -> Z) `{C : !Comparison cmp} (nil : V).

Lemma map_last_of {A B} (f : A -> B) l : map f (firstn 1 (rev l)) = firstn 1 (rev (map f l)).
Proof. now rewrite <- map_rev, firstn_map. Qed.

Lemma filter_map_comm {A B} (f : A -> B) (P : B -> bool) l :
  List.filter P (map f l) = map f (List.filter (fun x => P (f x)) l).
Proof. induction l as [|x l IH]; [reflexivity|]. cbn. rewrite IH. now destruct (P (f x)). Qed.

(** The nested loop over positions is the nested loop over rows. *)
Lemma nested_loop_rows w choose (l r : column V) sl sr L R llo lhi rlo rhi :
  (choose = last_of \/ choose = first_of) ->
  stands_for cmp l sl L llo lhi -> stands_for cmp r sr R rlo rhi ->
  nested_loop cmp nil w choose L R llo lhi rlo rhi = join_of cmp nil w (ascending_matches cmp w choose r sr) l sl.
Proof.
  intros Ch Hl Hr. unfold nested_loop, join_of. rewrite <- (sf_rows _ _ _ _ _ _ Hl).
  rewrite !flat_map_concat_map, map_map. f_equal. apply map_ext_in. intros i I. apply in_positions in I.
  rewrite (sf_value _ _ _ _ _ _ Hl i I). set (v := value_of l _). f_equal.
  unfold partners, partners_of. destruct (takes_part cmp nil w v); [|reflexivity].
  assert (M : matches cmp r sr v = map (at_ R) (matching cmp R rlo rhi v)).
  { unfold matches, matching. rewrite <- (sf_rows _ _ _ _ _ _ Hr), filter_map_comm. f_equal.
    apply filter_ext_in. intros j J. apply in_positions in J. now rewrite (sf_value _ _ _ _ _ _ Hr j J). }
  unfold ascending_matches. rewrite M. destruct (matching cmp R rlo rhi v) as [|j js].
  - destruct (semi w); [|reflexivity]. now destruct Ch as [-> | ->].
  - destruct (semi w); [|reflexivity]. destruct Ch as [-> | ->]; [|reflexivity].
    unfold last_of. rewrite <- map_last_of. destruct (rev (j :: js)) as [|x k] eqn:E; [|reflexivity].
    apply (f_equal (@List.length Z)) in E. now rewrite length_rev in E.
Qed.

(** The value that is read behind the last row of the left. *)
Definition value_behind (behind : Z -> Z) (l : column V) (sl : option cands) : V :=
  let '(L, _, (_, hi)) := init behind l sl in val L hi.

Definition is_sorted (b : column V) : bool := tsorted b || trevsorted b.

(** The cases in which [mergejoin] is right.  An outer join needs a row on the
    right when the left is not sorted.  When both sides run in one
    direction, an inner join may compare the value behind the left, which must not
    be found on the right.  When they run in opposite directions, an inner
    join may have eight rows on the left: with more it leaves some out. *)
Inductive mergeable (behind : Z -> Z) (l r : column V) (sl sr : option cands) (w : variant) : Prop :=
| merge_unsorted : is_sorted l = false -> (nil_on_miss w = true -> rows r sr <> []) ->
    mergeable behind l r sl sr w
| merge_same : is_sorted l = true -> tsorted l = tsorted r ->
    (nil_on_miss w = false -> matches cmp r sr (value_behind behind l sl) = []) -> mergeable behind l r sl sr w
| merge_opposite : is_sorted l = true -> tsorted l <> tsorted r -> trevsorted l <> trevsorted r ->
    (nil_on_miss w = true \/ (List.length (rows l sl) <= 8)%nat) -> mergeable behind l r sl sr w.

(** The match a semi-join takes: the last one, when both are scanned in one
    direction. *)
Definition merge_choice (l r : column V) : list Z -> list Z :=
  if is_sorted l && negb (Bool.eqb (tsorted l) (tsorted r) || Bool.eqb (trevsorted l) (trevsorted r))
  then first_of else last_of.

Lemma scan_window_pos fuel : forall n scan, scan <= scan_window fuel n scan.
Proof.
  induction fuel as [|fuel IH]; intros n scan; cbn [scan_window]; [lia|]. destruct (0 <? n); [|lia].
  specialize (IH (Z.shiftr n 1) (scan + 1)). lia.
Qed.

Lemma scan_window_small n : 0 <= n <= 8 -> n <= scan_window 64 n 4.
Proof.
  intros B. apply Z.leb_le. apply (zrange_check (fun n => n <=? scan_window 64 n 4) 0 9); [reflexivity|lia].
Qed.

Lemma stands_nil (b : column V) s X lo hi : stands_for cmp b s X lo hi -> lo = hi -> rows b s = [].
Proof. intros H E. rewrite <- (sf_rows _ _ _ _ _ _ H), positions_nil; [reflexivity|lia]. Qed.

Lemma stands_length (b : column V) s X lo hi : stands_for cmp b s X lo hi -> hi - lo = Z.of_nat (List.length (rows b s)).
Proof.
  intros H. rewrite <- (sf_rows _ _ _ _ _ _ H), length_map. unfold positions. rewrite zrange_length.
  pose proof (sf_bounds _ _ _ _ _ _ H). lia.
Qed.

(** The flags of a sorted column say in which direction it runs. *)
Lemma ordered_by_flags (b : column V) s X lo hi : column_ok cmp b s -> stands_for cmp b s X lo hi -> is_sorted b = true ->
  ordered cmp (if tsorted b then 1 else -1) (val X) lo hi.
Proof.
  intros Ok H E. apply (sf_ordered _ _ _ _ _ _ H). unfold is_sorted in E.
  destruct (tsorted b) eqn:T; [now apply Ok|]. now apply (co_revsorted _ _ _ Ok).
Qed.

Lemma matches_nil (r : column V) sr R rlo rhi v : stands_for cmp r sr R rlo rhi -> matches cmp r sr v = [] ->
  forall j, rlo <= j < rhi -> cmp v (val R j) <> 0.
Proof.
  intros H M j J E. rewrite (sf_value _ _ _ _ _ _ H j J) in E.
  assert (I : In (at_ R j) (matches cmp r sr v)); [|now rewrite M in I].
  apply filter_In. split; [|now apply Z.eqb_eq]. rewrite <- (sf_rows _ _ _ _ _ _ H).
  now apply in_map, in_positions.
Qed.

Lemma join_empty_left w found (l : column V) sl : rows l sl = [] -> join_of cmp nil w found l sl = [].
Proof. unfold join_of. now intros ->. Qed.

Lemma join_nothing_found w found (l : column V) sl : (forall v, found v = []) -> nil_on_miss w = false ->
  join_of cmp nil w found l sl = [].
Proof.
  intros E N. unfold join_of. apply flat_map_nil. intros o _. unfold partners_of. rewrite E, N.
  now destruct (takes_part _ _ _ _).
Qed.

(** The parameters [mergejoin] derives fit the loop. *)
Lemma merge_setting behind (l r : column V) sl sr w L R llo lhi rlo rhi :
  let sorted := is_sorted l in
  let equal_order :=
    if sorted then Bool.eqb (tsorted l) (tsorted r) || Bool.eqb (trevsorted l) (trevsorted r) else true in
  column_ok cmp l sl -> column_ok cmp r sr -> is_sorted r = true -> mergeable behind l r sl sr w ->
  stands_for cmp l sl L llo lhi -> stands_for cmp r sr R rlo rhi -> llo < lhi -> (nil_on_miss w = false -> rlo < rhi) ->
  value_behind behind l sl = val L lhi ->
  setting cmp L R llo lhi rlo rhi w (if sorted then scan_window 64 (lhi - llo) 4 else 0) (scan_window 64 (rhi - rlo) 4)
    (if sorted then if tsorted l then 1 else -1 else 1) (if tsorted r then 1 else -1) equal_order.
Proof.
  cbv zeta. intros Okl Okr Sr M Hl Hr Nl Nr Vb.
  pose proof (scan_window_pos 64 (lhi - llo) 4). pose proof (scan_window_pos 64 (rhi - rlo) 4).
  pose proof (sf_bounds _ _ _ _ _ _ Hl). pose proof (sf_bounds _ _ _ _ _ _ Hr).
  assert (G : is_sorted l = true -> ordered cmp (if tsorted l then 1 else -1) (val L) llo lhi)
    by (intros; now apply (ordered_by_flags l sl)).
  split; try lia.
  - unfold direction. destruct (tsorted r); lia.
  - now apply (ordered_by_flags r sr).
  - destruct (is_sorted l); lia.
  - destruct M as [E N|E T N|E T T2 N]; rewrite E in *.
    + apply unsorted_left; try reflexivity. destruct (nil_on_miss w); [|auto].
      destruct (Z.eq_dec rlo rhi) as [F|F]; [|lia]. exfalso. apply N; [reflexivity|]. exact (stands_nil r sr R rlo rhi Hr F).
    + rewrite <- T, Bool.eqb_reflx. apply same_direction; [lia|reflexivity|reflexivity|auto|].
      intros F. apply (matches_nil r sr); auto. now rewrite <- Vb, N.
    + apply Bool.eqb_false_iff in T2. pose proof T as T'. apply Bool.eqb_false_iff in T'. rewrite T', T2.
      apply opposite_direction; [lia|reflexivity| |].
      * specialize (G eq_refl). destruct (tsorted l), (tsorted r); try contradiction; exact G.
      * destruct N as [N|N]; [now left|right]. pose proof (stands_length l sl L llo lhi Hl).
        apply scan_window_small. lia.
Qed.

(** [mergejoin] ends and returns the pairs of the join. *)
Lemma mergejoin_spec behind (l r : column V) sl sr w :
  column_ok cmp l sl -> column_ok cmp r sr -> is_sorted r = true -> mergeable behind l r sl sr w ->
  exists out, mergejoin cmp nil behind l r sl sr w = Some out
    /\ pairs out = join_of cmp nil w (ascending_matches cmp w (merge_choice l r) r sr) l sl.
Proof.
  intros Okl Okr Sr M. unfold mergejoin.
  pose proof (init_spec cmp behind l sl Okl) as Hl. pose proof (init_spec cmp behind r sr Okr) as Hr.
  assert (Vb : forall L p lo hi, init behind l sl = (L, p, (lo, hi)) -> value_behind behind l sl = val L hi)
    by (intros L p lo hi E; unfold value_behind; now rewrite E).
  destruct (init behind l sl) as [ [L [lstart lend] ] [llo lhi] ] eqn:El. specialize (Vb _ _ _ _ eq_refl).
  destruct (init behind r sr) as [ [R [rstart rend] ] [rlo rhi] ] eqn:Er.
  destruct Hl as (Hl & Nl). destruct Hr as (Hr & Nr).
  pose proof (sf_bounds _ _ _ _ _ _ Hl). pose proof (sf_bounds _ _ _ _ _ _ Hr).
  destruct ((lstart =? lend) || _) eqn:T.
  - eexists. split; [reflexivity|]. cbn [pairs]. symmetry. apply orb_true_iff in T. destruct T as [T|T].
    + apply join_empty_left. apply Z.eqb_eq in T. apply (stands_nil l sl L llo lhi Hl). tauto.
    + apply andb_true_iff in T. destruct T as (T1 & T2). apply negb_true_iff in T1. apply Z.eqb_eq in T2.
      apply join_nothing_found; [|exact T1]. intros v. unfold ascending_matches, matches.
      rewrite (stands_nil r sr R rlo rhi Hr) by tauto. unfold merge_choice.
      destruct (semi w); [|reflexivity]. now destruct (is_sorted l && _).
  - apply orb_false_iff in T. destruct T as (T1 & T2). apply Z.eqb_neq in T1.
    assert (Nr' : nil_on_miss w = false -> rlo < rhi).
    { intros N. rewrite N in T2. cbn [negb andb] in T2. apply Z.eqb_neq in T2. lia. }
    pose proof (merge_setting behind l r sl sr w L R llo lhi rlo rhi Okl Okr Sr M Hl Hr ltac:(lia) Nr' Vb) as Set_.
    cbv zeta in Set_. fold (is_sorted l). cbv zeta. set (eo := if is_sorted l then _ || _ else true) in *.
    destruct (merge_loop_spec cmp nil L R llo lhi rlo rhi w _ _ _ _ eo Set_ (S (Z.to_nat (lhi - llo))) llo rlo rhi None
                (if is_sorted l then mkJoined [] fresh_props fresh_props
                 else mkJoined [] (set_key (tkey r) fresh_props) (set_key (tkey l) fresh_props)))
      as (out & E1 & E2); [lia|lia| |].
    { intros _. unfold window_at. destruct (_ =? 0); [lia|]. split; [lia|]. split; [now destruct eo|]. intros; lia. }
    exists out. split; [exact E1|]. rewrite E2. destruct (is_sorted l) eqn:Sl; cbn [pairs app];
      rewrite (nested_loop_rows w _ l r sl sr); auto; unfold choose, merge_choice; rewrite ?Sl; cbn [andb].
    + unfold eo. now destruct (_ || _).
    + unfold eo. destruct (_ || _); auto.
    + reflexivity.
Qed.

End Merging.

(** ** Examples *)

(** A column of integers from oid 0 on, and what lies behind it in memory. *)
Definition ints (l : list Z) (ascending descending : bool) (rest : Z) : column Z :=
  mkColumn 0 (List.length l) 0 (fun i => nth (Z.to_nat i) l rest) ascending descending false.

Definition inner : variant := mkVariant false false false.
Definition outer : variant := mkVariant false true false.

#[local] Abbreviation merge l r sl w := (mergejoin num_cmp int_nil (fun _ => 0) l r sl None w).
#[local] Abbreviation meant l r sl w := (join_of num_cmp int_nil w (ascending_matches num_cmp w (merge_choice l r) r None) l sl).

(** Sides that run in opposite directions: skipping on the left up to the first
    value on the right, which is its largest, leaves out nine of the ten pairs. *)
Lemma opposite_loses :
  let l := ints [0; 1; 2; 3; 4; 5; 6; 7; 8; 9] true false 0 in
  let r := ints [9; 8; 7; 6; 5; 4; 3; 2; 1; 0] false true 0 in
  option_map pairs (merge l r None inner) = Some [(9, 0)]
  /\ List.length (meant l r None inner) = 10%nat.
Proof. split; vm_compute; reflexivity. Qed.

(** A column with one row runs in both directions, and the merge takes it for an
    ascending one beside a descending left. *)
Lemma single_row_loses :
  let l := ints [5; 3] false true 0 in
  let r := ints [3] true true 0 in
  option_map pairs (merge l r None inner) = Some [] /\ meant l r None inner = [(1, 0)].
Proof. split; vm_compute; reflexivity. Qed.

(** When all candidates precede the first value on the right, the row behind the
    last candidate is joined. *)
Lemma joins_row_behind :
  let l := ints [0; 1; 2; 3; 4; 5; 6; 7; 8; 9; 10; 11] true false 0 in
  let r := ints [10; 30] true false 0 in
  option_map pairs (merge l r (Some (Dense 0 10)) inner) = Some [(10, 0)]
  /\ meant l r (Some (Dense 0 10)) inner = [].
Proof. split; vm_compute; reflexivity. Qed.

(** An outer join leaves out the rows of the left whose value is nil. *)
Lemma outer_drops_nil :
  let l := ints [int_nil; 1] true false 0 in
  let r := ints [1; 2] true false 0 in
  option_map pairs (merge l r None outer) = Some [(1, 0)].
Proof. vm_compute. reflexivity. Qed.

(** Rows without a match are paired with nil, and the flag says that the right
    result holds no value twice. *)
Lemma outer_key_flag :
  let l := ints [1; 2] true false 0 in
  let r := ints [5] true false 0 in
  option_map (fun o => (pairs o, p_key (f2 o))) (merge l r None outer)
  = Some ([(0, oid_nil); (1, oid_nil)], true).
Proof. vm_compute. reflexivity. Qed.
