(* ===== verification/HashJoin.v ===== *)
(** * Joins by hashing, and joins on other comparisons

    gdk/gdk_join.c, [binsearchcand], [hashjoin] and [thetajoin].  A hash join
    looks up every row of the left in a hash table on the right; the table is
    one of [Hash], found or made.  A theta join is a nested loop.  The file
    shows which pairs they return. *)

From Stdlib Require Import ZArith Lia Bool String List Permutation Sorted Morphisms.
Import ListNotations.
From S2P Require Import Prelude Atoms Sort CalcLoop Hash MergeJoin.

Open Scope Z_scope.
Open Scope list_scope.

(** ** Looking up a candidate *)

Fixpoint binsearchcand_loop (fuel : nat) (cand : Z -> Z) (lo hi v : Z) : bool :=
  match fuel with
  | O => false
  | S fuel' =>
      if lo <? hi then
        let mid := u64 (lo + hi) / 2 in
        if cand mid =? v then true
        else if cand mid <? v then binsearchcand_loop fuel' cand (u64 (mid + 1)) hi v
        else binsearchcand_loop fuel' cand lo (u64 (mid - 1)) v
      else cand lo =? v
  end.

Definition binsearchcand (cand : Z -> Z) (lo hi v : Z) : bool :=
  let hi := u64 (hi - 1) in
  if (v <? cand lo) || (cand hi <? v) then false else binsearchcand_loop 65 cand lo hi v.

(** ** Hash join *)

Section HashJoin.

Context {V : Type} (a : atom V) (nil : V).

(** What else the code knows of a column: its capacity, the size of a value, and
    its hash table, if it has one. *)
Record storage_of := mkStorage { capacity_of : Z; size_of : Z; table_of : option Hash }.

(** [BATmirror]: the column as a head. *)
Definition mirror (r : column V) (st : storage_of) : head V :=
  mkHead (first r) (first r + Z.of_nat (count r)) (capacity_of st) (tkey r)
    (fun p => Value r (p - first r)) (size_of st).

(** [BATprepareHash]; [raw] is fresh memory. *)
Definition BATprepareHash (raw : Z -> Z) (r : column V) (st : storage_of) : option Hash :=
  match table_of st with Some h => Some h | None => BAThash a raw (mirror r st) 0 end.

(** Is the row with oid [ro] a candidate, as the loop tests it. *)
Definition accepts (R : side V) (rstart rend rhi ro : Z) : bool :=
  if by_cand R then binsearchcand (at_ R) 0 rhi ro else (rstart <=? ro) && (ro <? rend).

(** The oids that the inner loop appends for a value of the left. *)
Definition hits (r : column V) (R : side V) (rstart rend rhi : Z) (w : variant) (h : Hash) (at_ : Z -> V) (v : V) :
    option (list Z) :=
  let off := hseqbase r - first r in
  option_map
    (fun rbs => let ros := List.filter (accepts R rstart rend rhi) (map (fun rb => rb + off) rbs) in
                if semi w then firstn 1 ros else ros)
    (HASHloop a h at_ v).

(** The flags after a row of the left with [nr] matches. *)
Definition note_hits (w : variant) (lcand : bool) (before nr : Z) (f1 f2 : props) : props * props :=
  let missed := (nr =? 0) && nil_on_miss w in
  let nr := if missed then 1 else nr in
  let f2 := unkey (missed && lcand) (with_nil missed f2) in
  let f1 := unkey (negb missed && (1 <? nr)) f1 in
  (unrev ((0 <? nr) && (0 <? before)) f1, f2).

(** The loop over the rows of the left; [lo] is the oid that is appended. *)
Fixpoint hash_loop (L : side V) (shift : Z) (found : V -> option (list Z)) (w : variant) (ks : list Z)
    (out : joined) : option joined :=
  match ks with
  | [] => Some out
  | i :: ks =>
      let lo := u64 (at_ L i - shift) in
      let v := val L i in
      if negb (nil_matches w) && (ATOMcmp a v nil =? 0) then hash_loop L shift found w ks out
      else
        match found v with
        | None => None
        | Some ros =>
            let nr := Z.of_nat (List.length ros) in
            let ros := if (nr =? 0) && nil_on_miss w then [oid_nil] else ros in
            let '(g1, g2) := note_hits w (by_cand L) (Z.of_nat (List.length (pairs out))) nr (f1 out) (f2 out) in
            hash_loop L shift found w ks (mkJoined (pairs out ++ map (pair lo) ros) g1 g2)
        end
  end.

Definition single (out : joined) : joined :=
  if (List.length (pairs out) <=? 1)%nat then
    let p f := mkProps (p_nil f) (p_nonil f) true true true in
    mkJoined (pairs out) (p (f1 out)) (p (f2 out))
  else out.

(** [hashjoin]; on rows without a candidate list, the oid of the left is computed
    from [BUNfirst]. *)
Definition hashjoin (behind raw : Z -> Z) (l r : column V) (st : storage_of) (sl sr : option cands) (w : variant) :
    option joined :=
  let '(L, (lstart, lend), (llo, lhi)) := init behind l sl in
  let '(R, (rstart, rend), (rlo, rhi)) := init behind r sr in
  let out := mkJoined [] (set_key (tkey r) fresh_props) (unrev true (unsort true (set_key (tkey l) fresh_props))) in
  if (lstart =? lend) || (negb (nil_on_miss w) && (rstart =? rend)) then Some out
  else
    match BATprepareHash raw r st with
    | None => None
    | Some h =>
        let shift := if by_cand L then 0 else first l in
        option_map single
          (hash_loop L shift (hits r R rstart rend rhi w h (BUNhead (mirror r st))) w (positions llo lhi) out)
    end.

End HashJoin.

(** ** Theta join *)

Section ThetaJoin.

Context {V : Type} (cmp : V -> V -> Z) (nil : V).

Definition MASK_EQ : Z := 1.
Definition MASK_LT : Z := 2.
Definition MASK_GT : Z := 4.
Definition MASK_LE : Z := Z.lor MASK_EQ MASK_LT.
Definition MASK_GE : Z := Z.lor MASK_EQ MASK_GT.
Definition MASK_NE : Z := Z.lor MASK_LT MASK_GT.

(** The operator as a bit mask; 0 is no operator.  [op] are the bytes from its
    first character on: the NUL behind it, and what follows in memory, too. *)
Definition opcode_of (op : cstr) : Z :=
  let c k := cat op k in
  if (c 0%nat =? 61) && (((c 1%nat =? 61) && (c 2%nat =? 0)) || (c 2%nat =? 0)) then MASK_EQ
  else if (c 0%nat =? 33) && (c 1%nat =? 61) && (c 2%nat =? 0) then MASK_NE
  else if c 0%nat =? 60 then
    if c 1%nat =? 0 then MASK_LT
    else if (c 1%nat =? 61) && (c 2%nat =? 0) then MASK_LE
    else if (c 1%nat =? 62) && (c 2%nat =? 0) then MASK_NE
    else 0
  else if c 0%nat =? 62 then
    if c 1%nat =? 0 then MASK_GT
    else if (c 1%nat =? 61) && (c 2%nat =? 0) then MASK_GE
    else 0
  else 0.

Definition holds_op (opcode c : Z) : bool :=
  (negb (Z.land opcode MASK_LT =? 0) && (c <? 0)) || (negb (Z.land opcode MASK_GT =? 0) && (0 <? c))
  || (negb (Z.land opcode MASK_EQ =? 0) && (c =? 0)).

(** The state of the loops: the pairs, the last oid inserted on the right, the flags. *)
Record theta := mkTheta { t_pairs : list (Z * Z); lastr : Z; t1 : props; t2 : props }.

(** The inner loop, for a value [vl] with oid [lo]; [nr] counts its matches. *)
Fixpoint theta_inner (R : side V) (opcode lo : Z) (vl : V) (js : list Z) (nr : Z) (s : theta) : Z * theta :=
  match js with
  | [] => (nr, s)
  | j :: js =>
      let ro := at_ R j in
      let vr := val R j in
      if cmp vr nil =? 0 then theta_inner R opcode lo vl js nr s
      else if negb (holds_op opcode (cmp vl vr)) then theta_inner R opcode lo vl js nr s
      else
        let next := (nr =? 0) && (0 <? Z.of_nat (List.length (t_pairs s))) in
        let drops := next && (ro <? lastr s) in
        theta_inner R opcode lo vl js (nr + 1)
          (mkTheta (t_pairs s ++ [(lo, ro)]) ro (unrev next (t1 s))
             (unrev (next && (lastr s <? ro)) (unkey drops (unsort drops (t2 s)))))
  end.

Fixpoint theta_outer (L R : side V) (opcode rlo rhi : Z) (ks : list Z) (s : theta) : theta :=
  match ks with
  | [] => s
  | i :: ks =>
      let vl := val L i in
      if cmp vl nil =? 0 then theta_outer L R opcode rlo rhi ks s
      else
        let '(nr, s) := theta_inner R opcode (at_ L i) vl (positions rlo rhi) 0 s in
        theta_outer L R opcode rlo rhi ks
          (mkTheta (t_pairs s) (lastr s) (unkey (1 <? nr) (t1 s)) (unrev (1 <? nr) (t2 s)))
  end.

(** [thetajoin]; [None] is an unknown operator. *)
Definition thetajoin (behind : Z -> Z) (l r : column V) (sl sr : option cands) (op : cstr) : option joined :=
  let opcode := opcode_of op in
  if opcode =? 0 then None
  else
    let '(L, _, (llo, lhi)) := init behind l sl in
    let '(R, _, (rlo, rhi)) := init behind r sr in
    let s := theta_outer L R opcode rlo rhi (positions llo lhi) (mkTheta [] 0 fresh_props fresh_props) in
    Some (mkJoined (t_pairs s) (t1 s) (t2 s)).

End ThetaJoin.

(** ** Looking up a candidate finds the candidates *)

Section Candidates.

Context (cand : Z -> Z) (n : Z).
Context (Cs : forall i j, 0 <= i <= j -> j < n -> cand i <= cand j) (N : n < 2 ^ 62).

Lemma binsearchcand_loop_spec v fuel : forall lo hi,
  0 <= lo < n -> lo - 1 <= hi < n -> cand 0 <= v -> hi - lo < 2 ^ Z.of_nat fuel ->
  (forall j, 0 <= j < lo -> cand j < v) -> (forall j, hi < j < n -> v < cand j) ->
  binsearchcand_loop (S fuel) cand lo hi v = true <-> exists j, 0 <= j < n /\ cand j = v.
Proof.
  induction fuel as [|fuel IH]; intros lo hi Bl Bh Z0 F L H;
    (destruct (Z_lt_le_dec lo hi) as [G|G]; [|
       cbn [binsearchcand_loop]; rewrite (proj2 (Z.ltb_ge lo hi)) by exact G; rewrite Z.eqb_eq; split;
         [intros E; exists lo; now split|intros (j & J & E)];
       destruct (Z_lt_le_dec j lo); [specialize (L j); lia|];
       destruct (Z.eq_dec j lo) as [->|]; [exact E|]; specialize (H j); lia]).
  - cbn in F. lia.
  - cbn [binsearchcand_loop]. rewrite (proj2 (Z.ltb_lt lo hi)) by exact G. rewrite (uwrap_id 64 (lo + hi)) by lia.
    assert (M : lo <= (lo + hi) / 2 < hi) by (Z.to_euclidean_division_equations; lia).
    assert (F2 : hi - (lo + hi) / 2 - 1 < 2 ^ Z.of_nat fuel /\ (lo + hi) / 2 - lo - 1 < 2 ^ Z.of_nat fuel).
    { rewrite Nat2Z.inj_succ, Z.pow_succ_r in F by lia. Z.to_euclidean_division_equations. lia. }
    set (mid := (lo + hi) / 2) in *. clearbody mid. cbv zeta.
    case Z.eqb_spec; intros E; [split; [exists mid; split; [lia|exact E]|reflexivity]|].
    case Z.ltb_spec; intros E2.
    + rewrite uwrap_id by lia. apply IH; try lia; [|intros; apply H; lia].
      intros j J. pose proof (Cs j mid). lia.
    + assert (0 < mid) by (destruct (Z.eq_dec mid 0) as [->|]; lia). rewrite uwrap_id by lia.
      apply IH; try lia; [intros; apply L; lia|]. intros j J. pose proof (Cs mid j). lia.
Qed.

Lemma binsearchcand_spec v : 0 < n -> binsearchcand cand 0 n v = true <-> exists j, 0 <= j < n /\ cand j = v.
Proof.
  intros P. unfold binsearchcand. rewrite (uwrap_id 64) by lia. destruct ((v <? cand 0) || _) eqn:T.
  - split; [discriminate|]. intros (j & J & <-). pose proof (Cs 0 j). pose proof (Cs j (n - 1)). lia.
  - apply binsearchcand_loop_spec; lia.
Qed.

End Candidates.

Lemma binsearchcand_oids behind l v : l <> [] -> StronglySorted Z.lt l -> Z.of_nat (List.length l) < 2 ^ 62 ->
  binsearchcand (nth_oid behind l) 0 (Z.of_nat (List.length l)) v = existsb (Z.eqb v) l.
Proof.
  intros Nl Sl B. apply eq_true_iff_eq. rewrite binsearchcand_spec, existsb_exists; [|..|].
  - split.
    + intros (j & J & <-). eexists. split; [apply (nth_oid_in behind l j J)|apply Z.eqb_refl].
    + intros (x & I & E). apply Z.eqb_eq in E. subst x. rewrite <- (nth_oid_map behind l) in I.
      apply in_map_iff in I. destruct I as (j & E & I). apply in_positions in I. now exists j.
  - intros i j I J. now apply nth_oid_sorted.
  - exact B.
  - destruct l; [contradiction|cbn [List.length]; lia].
Qed.

(** ** What a hash join finds *)

Section HashFinds.

Context {V : Type} (a : atom V) (nil : V) `{HA : !Hashable a}.

#[local] Abbreviation cmp := (ATOMcmp a).

(** The table of the right, if it has one, holds its rows (in any order);
    otherwise there is a capacity to make one. *)
Definition table_ok (r : column V) (st : storage_of) : Prop :=
  match table_of st with
  | Some h => exists ps, Permutation ps (zrange (first r) (count r)) /\ holds a h (BUNhead (mirror r st)) ps
  | None => 0 <= first r /\ first r + Z.of_nat (count r) <= capacity_of st < 2 ^ 62
  end.

Lemma prepared raw r st : table_ok r st -> exists h ps, BATprepareHash a raw r st = Some h
  /\ Permutation ps (zrange (first r) (count r)) /\ holds a h (BUNhead (mirror r st)) ps.
Proof.
  unfold table_ok, BATprepareHash. destruct (table_of st) as [h|].
  - intros (ps & P & H). now exists h, ps.
  - intros B. destruct (BAThash_holds a (mirror r st) raw 0) as (h & E & H & _).
    + unfold head_ok. cbn [Hash.first Hash.last capacity mirror]. lia.
    + discriminate.
    + exists h. eexists. split; [exact E|]. split; [|exact H]. unfold rows_upto. cbn [Hash.first Hash.last mirror].
      rewrite <- Permutation_rev. now replace (Z.to_nat _) with (count r) by lia.
Qed.

(** The test for candidates is right when the rows of the right count from oid 0,
    or when it has a list of candidates. *)
Definition counts_from_zero (s : option cands) (z : Z) : Prop :=
  z = 0 \/ exists o os, s = Some (Oids (o :: os)).

Lemma accepts_candidates behind (r : column V) sr R rstart rend rlo rhi :
  column_ok cmp r sr -> counts_from_zero sr (hseqbase r) ->
  init behind r sr = (R, (rstart, rend), (rlo, rhi)) ->
  forall o, hseqbase r <= o < hseqbase r + Z.of_nat (count r) -> accepts R rstart rend rhi o = is_candidate sr o.
Proof.
  intros Ok Z0 E o O. pose proof (co_seq _ _ _ Ok) as Sq. unfold init in E. destruct sr as [ [q n|os] |].
  - destruct (CANDINIT_dense (hseqbase r) (count r) q n) as (st & en & Ed & B1 & B2 & H). rewrite Ed in E.
    injection E as <- <- <- <- <-. destruct Z0 as [Z0|(x & xs & X)]; [|discriminate]. cbn [accepts by_cand].
    unfold accepts. cbn [by_cand]. rewrite !Z2Nat.id by lia. rewrite Z0 in H, O.
    symmetry. apply (H o). lia.
  - destruct os as [|x xs].
    + injection E as <- <- <- <- <-. unfold accepts. cbn. lia.
    + destruct (co_cands _ _ _ Ok) as (Sl & F). rewrite (CANDINIT_oids _ _ _ F) in E by discriminate.
      injection E as <- <- <- <- <-. unfold accepts. cbn [by_cand at_].
      apply binsearchcand_oids; [discriminate|exact Sl|].
      pose proof (sf_bounds _ _ _ _ _ _ (stands_cands cmp behind r (x :: xs) Ok)). lia.
  - injection E as <- <- <- <- <-. destruct Z0 as [Z0|(x & xs & X)]; [|discriminate].
    unfold accepts. cbn [by_cand is_candidate]. lia.
Qed.

#[export] Instance filter_Permutation {A} (f : A -> bool) : Proper (@Permutation A ==> @Permutation A) (List.filter f).
Proof.
  intros l l'. induction 1 as [|x l l' P IH|x y l|l l' l'' P1 IH1 P2 IH2]; cbn; [constructor| | |now rewrite IH1].
  - destruct (f x); [now constructor|exact IH].
  - destruct (f y), (f x); [constructor| | |]; reflexivity.
Qed.

Lemma filter_filter {A} (f g : A -> bool) l :
  List.filter f (List.filter g l) = List.filter (fun x => g x && f x) l.
Proof. induction l as [|x l IH]; [reflexivity|]. cbn. destruct (g x); cbn; [destruct (f x)|]; now rewrite IH. Qed.

(** The rows of the table that match and are accepted are the matches. *)
Lemma table_matches (r : column V) sr st ps accept v :
  Permutation ps (zrange (first r) (count r)) ->
  (forall o, hseqbase r <= o < hseqbase r + Z.of_nat (count r) -> accept o = is_candidate sr o) ->
  Permutation
    (List.filter accept (map (fun p => p + (hseqbase r - first r))
       (List.filter (fun p => cmp v (BUNhead (mirror r st) p) =? 0) ps)))
    (matches cmp r sr v).
Proof.
  intros P Acc. rewrite P. unfold matches, rows. rewrite filter_filter.
  set (off := hseqbase r - first r).
  replace (zrange (hseqbase r) (count r)) with (map (fun p => p + off) (zrange (first r) (count r))).
  2: { rewrite (map_ext_zrange _ (fun p => off + p)) by (intros; lia). rewrite zrange_shift. f_equal. unfold off. lia. }
  rewrite !filter_map_comm, filter_filter. apply Permutation_map.
  rewrite (filter_ext_in _ (fun p => is_candidate sr (p + off) && (cmp v (value_of r (p + off)) =? 0))); [reflexivity|].
  intros p I. apply In_zrange in I. rewrite Acc by (unfold off; lia). cbn [BUNhead mirror]. unfold value_of.
  replace (p + off - hseqbase r) with (p - first r) by (unfold off; lia). apply andb_comm.
Qed.

(** The rows a hash join finds for a value, once the table holds rows [ps]. *)
Definition hash_found (r : column V) (st : storage_of) (accept : Z -> bool) (w : variant) (ps : list Z) (v : V) : list Z :=
  let ros := List.filter accept (map (fun p => p + (hseqbase r - first r))
               (List.filter (fun p => cmp v (BUNhead (mirror r st) p) =? 0) ps)) in
  if semi w then firstn 1 ros else ros.

Lemma hits_found r st R rstart rend rhi w h ps v : holds a h (BUNhead (mirror r st)) ps ->
  hits a r R rstart rend rhi w h (BUNhead (mirror r st)) v
  = Some (hash_found r st (accepts R rstart rend rhi) w ps v).
Proof. intros H. unfold hits. rewrite (HASHloop_holds a h _ ps v H). reflexivity. Qed.

Lemma hash_found_finds r sr st accept w ps :
  Permutation ps (zrange (first r) (count r)) ->
  (forall o, hseqbase r <= o < hseqbase r + Z.of_nat (count r) -> accept o = is_candidate sr o) ->
  finds cmp w r sr (hash_found r st accept w ps).
Proof.
  intros P Acc v. pose proof (table_matches r sr st ps accept v P Acc) as Q. unfold hash_found. cbv zeta.
  destruct (semi w); [|exact Q].
  destruct (List.filter accept _) as [|o os]; [left|right].
  - split; [reflexivity|]. now apply Permutation_nil.
  - exists o. split; [reflexivity|]. apply (Permutation_in _ Q). now left.
Qed.

(** The loop appends the partners of every row. *)
Lemma hash_loop_spec L shift found g w ks : forall out, (forall v, found v = Some (g v)) ->
  exists out', hash_loop a nil L shift found w ks out = Some out'
    /\ pairs out' = pairs out ++ flat_map (fun i => map (pair (u64 (at_ L i - shift))) (partners_of cmp nil w g (val L i))) ks.
Proof.
  induction ks as [|i ks IH]; intros out F; cbn [hash_loop flat_map].
  - exists out. split; [reflexivity|]. now rewrite app_nil_r.
  - unfold partners_of at 1, takes_part. destruct (negb (nil_matches w) && (cmp (val L i) nil =? 0)) eqn:T.
    + replace (nil_matches w || negb (cmp (val L i) nil =? 0)) with false.
      2: { destruct (nil_matches w), (_ =? 0); cbn in *; congruence. }
      apply IH, F.
    + replace (nil_matches w || negb (cmp (val L i) nil =? 0)) with true.
      2: { destruct (nil_matches w), (_ =? 0); cbn in *; congruence. }
      rewrite F. destruct (note_hits _ _ _ _ _ _) as [g1 g2].
      match goal with |- context [hash_loop _ _ _ _ _ _ _ ?o] => destruct (IH o F) as (out' & E1 & E2) end.
      exists out'. split; [exact E1|]. rewrite E2. cbn [pairs]. rewrite <- app_assoc. f_equal. f_equal. f_equal.
      destruct (g (val L i)) as [|o os]; cbn [List.length]; [now destruct (nil_on_miss w)|].
      now replace (Z.of_nat (S (List.length os)) =? 0) with false by (symmetry; apply Z.eqb_neq; lia).
Qed.

Lemma stands_oid (b : column V) s X lo hi i : column_ok cmp b s -> stands_for cmp b s X lo hi -> lo <= i < hi ->
  0 <= at_ X i < 2 ^ 62.
Proof.
  intros Ok H I. assert (J : In (at_ X i) (rows b s)).
  { rewrite <- (sf_rows _ _ _ _ _ _ H). now apply in_map, in_positions. }
  apply filter_In in J. destruct J as (J & _). apply In_zrange in J.
  pose proof (co_seq _ _ _ Ok). pose proof (co_end _ _ _ Ok). lia.
Qed.

Lemma single_pairs out : pairs (single out) = pairs out.
Proof. unfold single. now destruct (_ <=? 1)%nat. Qed.

(** [hashjoin] ends and returns the pairs of the join, where the matches of a row
    come in the order of the table. *)
Lemma hashjoin_spec behind raw (l r : column V) st sl sr w :
  column_ok cmp l sl -> column_ok cmp r sr -> table_ok r st ->
  counts_from_zero sl (first l) -> counts_from_zero sr (hseqbase r) ->
  exists out found, hashjoin a nil behind raw l r st sl sr w = Some out
    /\ pairs out = join_of cmp nil w found l sl /\ finds cmp w r sr found.
Proof.
  intros Okl Okr T Zl Zr. unfold hashjoin.
  pose proof (init_spec cmp behind l sl Okl) as Hl. pose proof (init_spec cmp behind r sr Okr) as Hr.
  destruct (init behind l sl) as [ [L [lstart lend] ] [llo lhi] ] eqn:El.
  destruct (init behind r sr) as [ [R [rstart rend] ] [rlo rhi] ] eqn:Er.
  destruct Hl as (Hl & Nl). destruct Hr as (Hr & Nr).
  pose proof (accepts_candidates behind r sr R rstart rend rlo rhi Okr Zr Er) as Acc.
  destruct ((lstart =? lend) || _) eqn:Q.
  - eexists. exists (ascending_matches cmp w first_of r sr). split; [reflexivity|].
    split; [|apply finds_ascending; now left]. cbn [pairs]. symmetry. apply orb_true_iff in Q. destruct Q as [Q|Q].
    + apply join_empty_left. apply Z.eqb_eq in Q. apply (stands_nil cmp l sl L llo lhi Hl). tauto.
    + apply andb_true_iff in Q. destruct Q as (Q1 & Q2). apply negb_true_iff in Q1. apply Z.eqb_eq in Q2.
      apply join_nothing_found; [|exact Q1]. intros v. unfold ascending_matches, matches.
      rewrite (stands_nil cmp r sr R rlo rhi Hr) by tauto. now destruct (semi w).
  - destruct (prepared raw r st T) as (h & ps & -> & P & H).
    set (g := hash_found r st (accepts R rstart rend rhi) w ps).
    match goal with |- context [hash_loop _ _ _ ?sh ?f _ ?ks ?o] =>
      destruct (hash_loop_spec L sh f g w ks o) as (out & E1 & E2) end.
    { intros v. now apply hits_found. }
    rewrite E1. eexists. exists g. split; [reflexivity|]. split; [|now apply hash_found_finds].
    rewrite single_pairs, E2. cbn [pairs app]. unfold join_of. rewrite <- (sf_rows _ _ _ _ _ _ Hl).
    rewrite !flat_map_concat_map, map_map. f_equal. apply map_ext_in. intros i I. apply in_positions in I.
    rewrite (sf_value _ _ _ _ _ _ Hl i I). f_equal. f_equal. pose proof (stands_oid l sl L llo lhi i Okl Hl I) as Bo.
    enough (at_ L i - (if by_cand L then 0 else first l) = at_ L i) as -> by (apply uwrap_id; lia).
    destruct Zl as [-> | (x & xs & ->)]; [destruct (by_cand L); lia|].
    unfold init in El. destruct (co_cands _ _ _ Okl) as (_ & F).
    rewrite (CANDINIT_oids _ _ _ F) in El by discriminate. injection El as <- _ _ _ _. cbn [by_cand]. lia.
Qed.

End HashFinds.

(** ** What a theta join returns *)

Section ThetaMeaning.

Context {V : Type} (cmp : V -> V -> Z) (nil : V).

(** The pairs of non-nil values that compare as [test] says. *)
Definition theta_of (test : Z -> bool) (l r : column V) (sl sr : option cands) : list (Z * Z) :=
  let some v := negb (cmp v nil =? 0) in
  flat_map
    (fun o => if some (value_of l o)
              then map (pair o) (List.filter (fun p => some (value_of r p) && test (cmp (value_of l o) (value_of r p)))
                                   (rows r sr))
              else [])
    (rows l sl).

Lemma theta_inner_pairs R opcode lo vl js : forall nr s,
  t_pairs (snd (theta_inner cmp nil R opcode lo vl js nr s))
  = t_pairs s ++ map (pair lo) (map (at_ R)
      (List.filter (fun j => negb (cmp (val R j) nil =? 0) && holds_op opcode (cmp vl (val R j))) js)).
Proof.
  induction js as [|j js IH]; intros nr s; cbn [theta_inner List.filter]; [symmetry; apply app_nil_r|].
  destruct (cmp (val R j) nil =? 0); cbn [negb andb]; [apply IH|].
  destruct (holds_op opcode _); cbn [negb]; [|apply IH].
  rewrite IH. cbn [t_pairs map]. now rewrite <- app_assoc.
Qed.

Lemma theta_outer_pairs L R opcode rlo rhi ks : forall s,
  t_pairs (theta_outer cmp nil L R opcode rlo rhi ks s)
  = t_pairs s ++ flat_map (fun i =>
      if negb (cmp (val L i) nil =? 0)
      then map (pair (at_ L i)) (map (at_ R)
             (List.filter (fun j => negb (cmp (val R j) nil =? 0) && holds_op opcode (cmp (val L i) (val R j)))
                (positions rlo rhi)))
      else []) ks.
Proof.
  induction ks as [|i ks IH]; intros s; cbn [theta_outer flat_map]; [symmetry; apply app_nil_r|].
  destruct (cmp (val L i) nil =? 0); cbn [negb app]; [apply IH|].
  pose proof (theta_inner_pairs R opcode (at_ L i) (val L i) (positions rlo rhi) 0 s) as E.
  destruct (theta_inner _ _ _ _ _ _ _ _ _) as [nr s']. cbn [snd] in E. rewrite IH. cbn [t_pairs]. rewrite E.
  now rewrite <- app_assoc.
Qed.

Lemma thetajoin_pairs behind (l r : column V) sl sr op :
  column_ok cmp l sl -> column_ok cmp r sr -> opcode_of op <> 0 ->
  exists out, thetajoin cmp nil behind l r sl sr op = Some out
    /\ pairs out = theta_of (holds_op (opcode_of op)) l r sl sr.
Proof.
  intros Okl Okr O. unfold thetajoin. rewrite (proj2 (Z.eqb_neq _ _) O).
  pose proof (init_spec cmp behind l sl Okl) as Hl. pose proof (init_spec cmp behind r sr Okr) as Hr.
  destruct (init behind l sl) as [ [L [lstart lend] ] [llo lhi] ].
  destruct (init behind r sr) as [ [R [rstart rend] ] [rlo rhi] ].
  destruct Hl as (Hl & _). destruct Hr as (Hr & _).
  eexists. split; [reflexivity|]. cbn [pairs]. rewrite theta_outer_pairs. cbn [t_pairs app]. unfold theta_of.
  rewrite <- (sf_rows _ _ _ _ _ _ Hl), <- (sf_rows _ _ _ _ _ _ Hr).
  rewrite !flat_map_concat_map, map_map. f_equal. apply map_ext_in. intros i I. apply in_positions in I.
  rewrite (sf_value _ _ _ _ _ _ Hl i I). destruct (negb _); [|reflexivity]. f_equal.
  rewrite filter_map_comm. f_equal. apply filter_ext_in. intros j J. apply in_positions in J.
  now rewrite (sf_value _ _ _ _ _ _ Hr j J).
Qed.

(** The operators. *)
Definition operator (s : cstr) : option (Z -> bool) :=
  if cstr_eqb s (lit "=") || cstr_eqb s (lit "==") then Some (fun c => c =? 0)
  else if cstr_eqb s (lit "!=") || cstr_eqb s (lit "<>") then Some (fun c => negb (c =? 0))
  else if cstr_eqb s (lit "<") then Some (fun c => c <? 0)
  else if cstr_eqb s (lit "<=") then Some (fun c => c <=? 0)
  else if cstr_eqb s (lit ">") then Some (fun c => 0 <? c)
  else if cstr_eqb s (lit ">=") then Some (fun c => 0 <=? c)
  else None.

Lemma holds_op_cases opcode c : holds_op opcode c
  = if c <? 0 then negb (Z.land opcode MASK_LT =? 0) else if 0 <? c then negb (Z.land opcode MASK_GT =? 0)
    else negb (Z.land opcode MASK_EQ =? 0).
Proof.
  unfold holds_op. destruct (Z.compare_spec c 0) as [E|E|E].
  - subst c. cbn. now rewrite !andb_false_r, andb_true_r.
  - rewrite (proj2 (Z.ltb_lt c 0)), (proj2 (Z.ltb_ge 0 c)), (proj2 (Z.eqb_neq c 0)) by lia.
    now rewrite andb_true_r, !andb_false_r, !orb_false_r.
  - rewrite (proj2 (Z.ltb_ge c 0)), (proj2 (Z.ltb_lt 0 c)), (proj2 (Z.eqb_neq c 0)) by lia.
    now rewrite andb_true_r, !andb_false_r, orb_false_r.
Qed.

Lemma cstr_eqb_cons x y s t : cstr_eqb (x :: s) (y :: t) = (x =? y) && cstr_eqb s t.
Proof.
  apply eq_true_iff_eq. rewrite andb_true_iff, Z.eqb_eq, !cstr_eqb_eq. split; [|intros (-> & ->); reflexivity].
  intros E. injection E. auto.
Qed.

Lemma test_by_sign (test test' : Z -> bool) :
  (forall c, c < 0 -> test c = test' c) -> test 0 = test' 0 -> (forall c, 0 < c -> test c = test' c) ->
  forall c, test c = test' c.
Proof. intros L E G c. destruct (Z.compare_spec c 0); subst; auto. Qed.

(** The characters an operator may hold, or none of them. *)
Ltac letter x :=
  destruct (Z.eq_dec x 61) as [->|]; [|destruct (Z.eq_dec x 33) as [->|]; [|destruct (Z.eq_dec x 60) as [->|];
    [|destruct (Z.eq_dec x 62) as [->|]; [|
      rewrite ?(proj2 (Z.eqb_neq x 61)), ?(proj2 (Z.eqb_neq x 33)), ?(proj2 (Z.eqb_neq x 60)),
        ?(proj2 (Z.eqb_neq x 62)) by assumption] ] ] ].
Ltac decoded :=
  cbn; rewrite ?andb_false_r; cbn;
  try (split; [discriminate|]; intros c; rewrite holds_op_cases;
       destruct (Z.ltb_spec c 0), (Z.ltb_spec 0 c); cbn; lia); try reflexivity.

(** What [thetajoin] takes a text for, given the bytes behind its NUL.  A text of
    two characters of which the first is an equals sign is equality, whatever the
    second; a lone equals sign is, when a NUL follows its own. *)
Definition read_operator (s rest : cstr) : option (Z -> bool) :=
  if hd 0 s =? 61 then
    if (List.length s =? 2)%nat || ((List.length s =? 1)%nat && (hd 0 rest =? 0)) then Some (fun c => c =? 0)
    else None
  else operator s.

(** [opcode_of] decodes just so. *)
Lemma opcode_operator s rest : Forall (fun c => c <> 0) s ->
  match read_operator s rest with
  | Some test => opcode_of (s ++ 0 :: rest) <> 0 /\ forall c, holds_op (opcode_of (s ++ 0 :: rest)) c = test c
  | None => opcode_of (s ++ 0 :: rest) = 0
  end.
Proof.
  intros F. unfold read_operator. destruct (Z.eqb_spec (hd 0 s) 61) as [E|E]; unfold opcode_of, cat.
  - destruct s as [|x [|y [|z s] ] ]; cbn [hd] in E; [discriminate| | |]; subst x; cbn [app nth List.length Nat.eqb].
    + destruct rest as [|z rest]; [now split|]. cbn. destruct (z =? 0); now try split.
    + cbn [orb]. rewrite orb_true_r. now split.
    + inversion F as [|? ? _ F2]. inversion F2 as [|? ? _ F3]. inversion F3 as [|? ? Nz _].
      rewrite (proj2 (Z.eqb_neq z 0) Nz), andb_false_r. reflexivity.
  - unfold operator.
    change (lit "=") with [61]. change (lit "==") with [61; 61]. change (lit "!=") with [33; 61].
    change (lit "<>") with [60; 62]. change (lit "<") with [60]. change (lit "<=") with [60; 61].
    change (lit ">") with [62]. change (lit ">=") with [62; 61].
    destruct s as [|x [|y [|z s] ] ]; cbn [app nth hd] in *; rewrite ?cstr_eqb_cons.
    + reflexivity.
    + letter x; now decoded.
    + inversion F as [|? ? _ F2]. inversion F2 as [|? ? N0 _]. rewrite (proj2 (Z.eqb_neq y 0) N0).
      cbn [hd] in E. letter x; letter y; (now decoded) || (exfalso; congruence).
    + inversion F as [|? ? _ F2]. inversion F2 as [|? ? N0 F3]. inversion F3 as [|? ? Nz _].
      rewrite (proj2 (Z.eqb_neq z 0) Nz), (proj2 (Z.eqb_neq y 0) N0). letter x; letter y; decoded.
Qed.

(** What a one-character operator is followed by in memory matters. *)
Lemma equals_reads_on : opcode_of [61; 0; 0] = MASK_EQ /\ opcode_of [61; 0; 120] = 0 /\ opcode_of [61; 120; 0] = MASK_EQ.
Proof. repeat split. Qed.

End ThetaMeaning.

(** ** Examples *)

#[local] Abbreviation hash_pairs l r := (option_map pairs (hashjoin (int_atom ST_int) int_nil (fun _ => 0) (fun _ => 0)
  l r (mkStorage 8 4 None) None None inner)).

(** Without a list of candidates, the oids of the right are compared with the
    number of its rows: a column that does not count from oid 0 has no matches. *)
Lemma hash_ignores_seqbase :
  let l := ints [7; 8] false false 0 in
  let r := mkColumn 100 3 0 (Value (ints [8; 9; 7] false false 0)) false false false in
  hash_pairs l r = Some [] /\ hash_pairs r l = Some [(100, 1); (102, 0)].
Proof. split; vm_compute; reflexivity. Qed.

(** The oid of the left is off by the number of rows deleted at its front. *)
Lemma hash_shifts_left :
  let l := mkColumn 10 2 3 (Value (ints [7; 8] false false 0)) false false false in
  let r := ints [8; 9; 7] false false 0 in
  hash_pairs l r = Some [(7, 2); (8, 0)].
Proof. vm_compute. reflexivity. Qed.

(** An oid that two rows of the left match one after the other is noted as being
    there once. *)
Lemma theta_key_flag :
  option_map (fun o => (pairs o, p_key (f2 o)))
    (thetajoin num_cmp int_nil (fun _ => 0) (ints [5; 6] false false 0) (ints [1] false false 0) None None [62; 0])
  = Some ([(0, 0); (1, 0)], true).
Proof. vm_compute. reflexivity. Qed.
