(* ===== verification/Join.v ===== *)
(** * Joins

    gdk/gdk_join.c, the interface: [joinparamcheck], [BATsubleftjoin],
    [BATsubouterjoin], [BATsubsemijoin], [BATsubthetajoin], [BATsubjoin],
    which chooses between the algorithms of [MergeJoin] and [HashJoin], and
    [BATproject].  The theorems say which pairs of rows a join returns, whatever
    algorithm is taken. *)

From Stdlib Require Import ZArith Lia Bool String List Permutation Morphisms.
Import ListNotations.
From S2P Require Import Prelude Atoms Sort CalcLoop Hash MergeJoin HashJoin.

Open Scope Z_scope.
Open Scope list_scope.

Section Joins.

Context {V : Type} (a : atom V) (nil : V).

(** A column with what the checks look at, and a list of candidates. *)
Record bat := mkBat { col : column V; hdense : bool; ttype : Z; store : storage_of }.
Record clist := mkList { oids : cands; c_hdense : bool; c_ttype : Z; c_sorted : bool; c_key : bool }.

Definition TYPE_void : Z := 0.
Definition TYPE_oid : Z := 6.
Definition ATOMtype (t : Z) : Z := if t =? TYPE_void then TYPE_oid else t.
Definition BATtordered (s : clist) : bool := (c_ttype s =? TYPE_void) || c_sorted s.
Definition BATtkey (s : clist) : bool := c_key s || match oids s with Dense _ _ => true | Oids _ => false end.

(** [joinparamcheck]: the message of the error, if there is one. *)
Definition joinparamcheck (l r : bat) (sl sr : option clist) : option string :=
  let each (f : clist -> bool) := match sl with Some s => f s | None => false end
                                  || match sr with Some s => f s | None => false end in
  if negb (hdense l) || negb (hdense r) then Some "inputs must have dense head."
  else if (ttype l =? TYPE_void) || (ttype r =? TYPE_void) then Some "tail type must not be VOID."
  else if negb (ttype l =? ttype r) then Some "inputs not compatible."
  else if each (fun s => negb (c_hdense s)) then Some "candidate lists must have dense head."
  else if each (fun s => negb (ATOMtype (c_ttype s) =? TYPE_oid)) then Some "candidate lists must have OID tail."
  else if each (fun s => negb (BATtordered s)) then Some "candidate lists must be sorted."
  else if each (fun s => negb (BATtkey s)) then Some "candidate lists must be unique."
  else None.

Inductive result := Fail (message : option string) | Ok (out : joined).

Definition returns (o : option joined) : result := match o with Some out => Ok out | None => Fail None end.

#[local] Abbreviation cmp := (ATOMcmp a).
#[local] Abbreviation cands_of s := (option_map oids s).

Context (behind raw : Z -> Z).

#[local] Abbreviation merge l r sl sr w := (mergejoin cmp nil behind (col l) (col r) (cands_of sl) (cands_of sr) w).
#[local] Abbreviation hash l r sl sr w :=
  (hashjoin a nil behind raw (col l) (col r) (store r) (cands_of sl) (cands_of sr) w).

Definition sorted (b : bat) : bool := is_sorted (col b).

(** The joins that keep the order of the left. *)
Definition ordered_join (w : variant) (l r : bat) (sl sr : option clist) : result :=
  match joinparamcheck l r sl sr with
  | Some e => Fail (Some e)
  | None => if sorted r then returns (merge l r sl sr w) else returns (hash l r sl sr w)
  end.
Definition BATsubleftjoin := ordered_join (mkVariant false false false).
Definition BATsubouterjoin := ordered_join (mkVariant false true false).
Definition BATsubsemijoin := ordered_join (mkVariant false false true).

Definition BATsubthetajoin (l r : bat) (sl sr : option clist) (op : cstr) : result :=
  match joinparamcheck l r sl sr with
  | Some e => Fail (Some e)
  | None => returns (thetajoin cmp nil behind (col l) (col r) (cands_of sl) (cands_of sr) op)
  end.

(** The results of a join with its sides exchanged. *)
Definition swapped (out : joined) : joined := mkJoined (map (fun p => (snd p, fst p)) (pairs out)) (f2 out) (f1 out).

(** Which algorithm [BATsubjoin] takes, and whether it exchanges the sides; [r1]
    and [r2] are the new, empty results, whose numbers of rows the last test
    compares. *)
Inductive algorithm := Merge (swap : bool) | ByHash (swap : bool).

Definition has_hash (b : bat) : bool := match table_of (store b) with Some _ => true | None => false end.

Definition choose_algorithm (l r : bat) (lcount rcount : Z) (r1 r2 : list Z) : algorithm :=
  if sorted l && sorted r then Merge false
  else if has_hash l && has_hash r then ByHash (lcount <? rcount)
  else if has_hash l then ByHash true
  else if has_hash r then ByHash false
  else if sorted l then Merge true
  else if sorted r then Merge false
  else ByHash (Nat.ltb (List.length r1) (List.length r2)).

Definition side_count (b : bat) (s : option clist) : Z :=
  let n := Z.of_nat (count (col b)) in
  match s with Some s => Z.min n (Z.of_nat (cands_count (oids s))) | None => n end.

Definition BATsubjoin (l r : bat) (sl sr : option clist) : result :=
  match joinparamcheck l r sl sr with
  | Some e => Fail (Some e)
  | None =>
      let lcount := side_count l sl in
      let rcount := side_count r sr in
      if (lcount =? 0) || (rcount =? 0) then Ok (mkJoined [] fresh_props fresh_props)
      else
        match choose_algorithm l r lcount rcount [] [] with
        | Merge false => returns (merge l r sl sr inner)
        | Merge true => returns (option_map swapped (merge r l sr sl inner))
        | ByHash false => returns (hash l r sl sr inner)
        | ByHash true => returns (option_map swapped (hash r l sr sl inner))
        end
  end.

End Joins.

Arguments bat : clear implicits.

(** ** Projection *)

Section Project.

Context {V : Type} (cmp : V -> V -> Z) (nil : V).

(** The tail of the left column: oids in sequence, nil throughout, or stored. *)
Inductive oid_column := Sequence (seq : Z) (n : nat) | AllNil (n : nat) | Stored (l : list Z).

Definition oid_count (l : oid_column) : nat :=
  match l with Sequence _ n | AllNil n => n | Stored l => List.length l end.

(** The flags that [BATproject] maintains itself, and the value before. *)
Record projecting := mkProjecting { vals : list V; flags : props; previous : option V }.

Definition off (k s r : bool) (p : props) : props :=
  mkProps (p_nil p) (p_nonil p) (p_key p && negb k) (p_sorted p && negb s) (p_revsorted p && negb r).

(** What a value does to the flags that compare it with the one before. *)
Definition note_order (prev : option V) (v : V) (p : props) : props :=
  match prev with
  | None => p
  | Some u =>
      if p_revsorted p || p_sorted p || p_key p then
        let c := cmp u v in
        if c <? 0 then off (negb (p_sorted p)) false true p
        else if 0 <? c then off (negb (p_revsorted p)) true false p
        else off true false false p
      else p
  end.

(** The loop over stored oids; [None] is an oid that is no row. *)
Fixpoint project_loop (r : column V) (os : list Z) (s : projecting) : option projecting :=
  match os with
  | [] => Some s
  | o :: os =>
      if o =? oid_nil then
        project_loop r os (mkProjecting (vals s ++ [nil]) (off true true true (with_nil true (flags s))) (previous s))
      else if (o <? hseqbase r) || (hseqbase r + Z.of_nat (count r) <=? o) then None
      else
        let v := Value r (o - hseqbase r) in
        let p := with_nil (p_nonil (flags s) && (cmp v nil =? 0)) (flags s) in
        project_loop r os (mkProjecting (vals s ++ [v]) (note_order (previous s) v p) (Some v))
  end.

(** [BATproject]: the values and, when the loop has run, their flags; the other
    results are a slice of the right and a constant column. *)
Definition BATproject (l : oid_column) (r : column V) : option (list V * option props) :=
  match l with
  | Sequence seq (S _ as n) =>
      let lo := seq in
      let hi := seq + Z.of_nat n in
      if (lo <? hseqbase r) || (hseqbase r + Z.of_nat (count r) <? hi) then None
      else Some (map (Value r) (zrange (lo - hseqbase r) n), None)
  | Sequence _ O => Some ([], None)
  | AllNil n => Some (repeat nil n, None)
  | Stored [] => Some ([], None)
  | Stored os =>
      option_map (fun s => (vals s, Some (flags s)))
        (project_loop r os (mkProjecting [] fresh_props None))
  end.

End Project.

(** ** What the joins return *)

Section JoinMeaning.

Context {V : Type} (a : atom V) (nil : V) `{CO : !Comparison (ATOMcmp a)} `{HA : !Hashable a}.

#[local] Abbreviation cmp := (ATOMcmp a).
#[local] Abbreviation cands_of s := (option_map oids s).
#[local] Abbreviation some v := (negb (cmp v nil =? 0)).

Definition matching_pair (l r : column V) (p : Z * Z) : bool :=
  some (value_of l (fst p)) && (cmp (value_of l (fst p)) (value_of r (snd p)) =? 0).

(** All pairs of rows with the same value, nil excepted. *)
Definition equijoin (l r : column V) (sl sr : option cands) : list (Z * Z) :=
  List.filter (matching_pair l r) (list_prod (rows l sl) (rows r sr)).

Lemma list_prod_flat_map {A B} (l : list A) (m : list B) : list_prod l m = flat_map (fun x => map (pair x) m) l.
Proof. induction l as [|x l IH]; [reflexivity|]. cbn. now rewrite IH. Qed.

Lemma filter_flat_map {A B} (P : B -> bool) (f : A -> list B) l :
  List.filter P (flat_map f l) = flat_map (fun x => List.filter P (f x)) l.
Proof. induction l as [|x l IH]; [reflexivity|]. cbn. now rewrite filter_app, IH. Qed.

Lemma Permutation_flat_map_ext {A B} (f g : A -> list B) l :
  (forall x, Permutation (f x) (g x)) -> Permutation (flat_map f l) (flat_map g l).
Proof. intros H. induction l as [|x l IH]; [reflexivity|]. cbn. now apply Permutation_app. Qed.

(** An inner join, whatever order the algorithm finds the matches in. *)
Lemma inner_equijoin (l r : column V) sl sr found : finds cmp inner r sr found ->
  Permutation (join_of cmp nil inner found l sl) (equijoin l r sl sr).
Proof.
  intros F. unfold equijoin. rewrite list_prod_flat_map, filter_flat_map. unfold join_of.
  apply Permutation_flat_map_ext. intros o. rewrite filter_map_comm. apply Permutation_map.
  unfold partners_of, takes_part. cbn [nil_matches nil_on_miss inner orb]. specialize (F (value_of l o)). cbn in F.
  unfold matching_pair. cbn [fst snd]. destruct (some (value_of l o)).
  - cbn [andb]. fold (matches cmp r sr (value_of l o)). destruct (found _); exact F.
  - cbn [andb]. now rewrite filter_nothing.
Qed.

Lemma list_prod_cons_right {A B} (x : A) (l : list A) : forall m : list B,
  Permutation (map (fun y => (y, x)) m ++ list_prod m l) (list_prod m (x :: l)).
Proof.
  induction m as [|y m IH]; [reflexivity|]. cbn [map list_prod app]. constructor.
  rewrite <- IH, !app_assoc. apply Permutation_app_tail, Permutation_app_comm.
Qed.

Lemma list_prod_swap {A B} (l : list A) (m : list B) :
  Permutation (map (fun p => (snd p, fst p)) (list_prod l m)) (list_prod m l).
Proof.
  induction l as [|x l IH].
  - cbn. induction m as [|y m IH]; [constructor|exact IH].
  - cbn [list_prod]. rewrite map_app, map_map, IH. cbn [fst snd]. apply list_prod_cons_right.
Qed.

Lemma equijoin_swap (l r : column V) sl sr (D : direction 1) :
  Permutation (map (fun p => (snd p, fst p)) (equijoin r l sr sl)) (equijoin l r sl sr).
Proof.
  unfold equijoin. rewrite <- (list_prod_swap (rows r sr) (rows l sl)), filter_map_comm.
  apply Permutation_map. rewrite (filter_ext (fun x => matching_pair l r (snd x, fst x)) (matching_pair r l)); [reflexivity|].
  intros (p, o). unfold matching_pair. cbn [fst snd]. set (u := value_of l o). set (v := value_of r p).
  destruct (Z.eqb_spec (cmp u v) 0) as [E|E].
  - pose proof (cmp_sym cmp 1 D _ _ E) as E'. rewrite E'. cbn [Z.eqb]. rewrite !andb_true_r. f_equal.
    apply eq_true_iff_eq. rewrite !Z.eqb_eq. split; intros F; [exact (cmp_eq_trans cmp 1 D _ _ _ E' F)|].
    exact (cmp_eq_trans cmp 1 D _ _ _ E F).
  - rewrite andb_false_r. destruct (Z.eqb_spec (cmp v u) 0) as [E'|E']; [|now rewrite andb_false_r].
    destruct (E (cmp_sym cmp 1 D _ _ E')).
Qed.

(** Which conditions the algorithms put on the columns: for merging those of
    [mergeable]; for hashing, that the rows of the left count from position 0 and those
    of the right from oid 0, each unless there is a list of candidates. *)
Definition merge_fits behind w (l r : bat V) (sl sr : option clist) : Prop :=
  mergeable cmp behind (col l) (col r) (cands_of sl) (cands_of sr) w.
Definition hash_fits (l r : bat V) (sl sr : option clist) : Prop :=
  counts_from_zero (cands_of sl) (first (col l)) /\ counts_from_zero (cands_of sr) (hseqbase (col r)).
(** The hash table of a column, if there is one, is right. *)
Definition hash_ok (b : bat V) : Prop := table_ok a (col b) (store b).
Definition bat_ok (b : bat V) (s : option clist) : Prop := column_ok cmp (col b) (cands_of s).

Inductive kind := LeftJoin | OuterJoin | SemiJoin.
Definition variant_of (k : kind) : variant :=
  match k with LeftJoin => inner | OuterJoin => outer | SemiJoin => mkVariant false false true end.
Definition function_of (k : kind) behind raw : bat V -> bat V -> option clist -> option clist -> result :=
  match k with
  | LeftJoin => BATsubleftjoin a nil behind raw
  | OuterJoin => BATsubouterjoin a nil behind raw
  | SemiJoin => BATsubsemijoin a nil behind raw
  end.

Lemma function_ordered k behind raw : function_of k behind raw = ordered_join a nil behind raw (variant_of k).
Proof. now destruct k. Qed.


(** What [BATsubjoin] needs depends on the algorithm it takes. *)
Definition join_fits behind (l r : bat V) (sl sr : option clist) : Prop :=
  match choose_algorithm l r (side_count l sl) (side_count r sr) [] [] with
  | Merge false => merge_fits behind inner l r sl sr
  | Merge true => merge_fits behind inner r l sr sl
  | ByHash false => hash_fits l r sl sr
  | ByHash true => hash_fits r l sr sl
  end.

Lemma no_rows (b : bat V) s : bat_ok b s -> side_count b s = 0 -> rows (col b) (cands_of s) = [].
Proof.
  intros Okb E. unfold side_count in E. destruct s as [s|]; cbn [option_map] in *.
  - assert (count (col b) = O \/ cands_count (oids s) = O) as [F|F] by lia.
    + unfold rows. now rewrite F.
    + apply filter_nothing. intros o _. destruct (oids s) as [q n|os]; cbn in F |- *; [lia|].
      destruct os; [reflexivity|discriminate].
  - unfold rows. now replace (count (col b)) with O by lia.
Qed.

(** The algorithms that merge have a sorted right side. *)
Lemma merge_sorted l r lc rc r1 r2 swap : choose_algorithm (V := V) l r lc rc r1 r2 = Merge swap ->
  sorted (if swap then l else r) = true.
Proof.
  unfold choose_algorithm. destruct (sorted l) eqn:Sl, (sorted r) eqn:Sr, (has_hash l), (has_hash r); cbn; intros E;
    try discriminate E; injection E as <-; assumption.
Qed.

(** C16: [BATsubjoin] returns, in some order, exactly the pairs of rows with the
    same value, nil excepted, for whichever of the four algorithms it takes if the
    columns suit that algorithm; it returns nothing when a side has no rows.
    Call the side that the algorithm scans the left one.  To be hashed, the rows of
    the left must count from position 0 and those of the right from oid 0, or be
    listed as candidates ([hash_shifts_left], [hash_ignores_seqbase]).  To be
    merged with a left that is sorted in the direction of the right, the value that lies
    behind the last row or candidate of the left must not be on the right
    ([joins_row_behind]); in the other direction, the two must not both be marked as
    descending ([single_row_loses]), and the left must have at most eight rows
    ([opposite_loses]). *)
Theorem BATsubjoin_equijoin behind raw (l r : bat V) sl sr
    (P : joinparamcheck l r sl sr = None) (Okl : bat_ok l sl) (Okr : bat_ok r sr)
    (Tl : hash_ok l) (Tr : hash_ok r) (F : join_fits behind l r sl sr) :
  exists out, BATsubjoin a nil behind raw l r sl sr = Ok out
    /\ Permutation (pairs out) (equijoin (col l) (col r) (cands_of sl) (cands_of sr)).
Proof.
  assert (D : direction 1) by now left. unfold BATsubjoin. rewrite P. cbv zeta.
  destruct ((side_count l sl =? 0) || (side_count r sr =? 0)) eqn:N.
  { eexists. split; [reflexivity|]. cbn [pairs]. unfold equijoin. apply orb_true_iff in N.
    rewrite !Z.eqb_eq in N. destruct N as [N|N].
    - now rewrite (no_rows l sl Okl N).
    - rewrite (no_rows r sr Okr N). now rewrite list_prod_flat_map, flat_map_nil. }
  unfold join_fits in F. destruct (choose_algorithm _ _ _ _ _ _) as [ [|] | [|] ] eqn:A.
  - apply merge_sorted in A.
    destruct (mergejoin_spec cmp nil behind _ _ _ _ inner Okr Okl A F) as (out & -> & E).
    eexists. split; [reflexivity|]. cbn [pairs swapped]. rewrite E, <- equijoin_swap by exact D.
    apply Permutation_map, inner_equijoin, finds_ascending. unfold merge_choice. destruct (_ && _); auto.
  - apply merge_sorted in A.
    destruct (mergejoin_spec cmp nil behind _ _ _ _ inner Okl Okr A F) as (out & -> & E).
    eexists. split; [reflexivity|]. rewrite E. apply inner_equijoin, finds_ascending.
    unfold merge_choice. destruct (_ && _); auto.
  - destruct F as (Zl & Zr).
    destruct (hashjoin_spec a nil behind raw _ _ (store l) _ _ inner Okr Okl Tl Zl Zr) as (out & found & -> & E & G).
    eexists. split; [reflexivity|]. cbn [pairs swapped]. rewrite E, <- equijoin_swap by exact D.
    now apply Permutation_map, inner_equijoin.
  - destruct F as (Zl & Zr).
    destruct (hashjoin_spec a nil behind raw _ _ (store r) _ _ inner Okl Okr Tr Zl Zr) as (out & found & -> & E & G).
    eexists. split; [reflexivity|]. rewrite E. now apply inner_equijoin.
Qed.

End JoinMeaning.

Section ThetaResult.

Context {V : Type} (a : atom V) (nil : V).

#[local] Abbreviation cmp := (ATOMcmp a).
#[local] Abbreviation cands_of s := (option_map oids s).

Lemma theta_of_ext (test test' : Z -> bool) (l r : column V) sl sr : (forall c, test c = test' c) ->
  theta_of cmp nil test l r sl sr = theta_of cmp nil test' l r sl sr.
Proof.
  intros E. unfold theta_of. apply flat_map_ext. intros o. destruct (negb _); [|reflexivity].
  f_equal. apply filter_ext. intros p. now rewrite E.
Qed.

(** C18: [BATsubthetajoin] returns, row by row of the left, the pairs of values that
    compare as the operator says, nil excepted, and fails when the text is no
    operator.  Which text is which operator is told by [read_operator]: the
    operators =, ==, !=, <>, <, <=, > and >=, and, moreover, an equals sign with any other
    character behind it is taken for equality; a lone equals sign fails when the
    byte behind its NUL, [rest], is not zero. *)
Theorem BATsubthetajoin_compares behind (l r : bat V) sl sr s rest
    (P : joinparamcheck l r sl sr = None) (Okl : bat_ok a l sl) (Okr : bat_ok a r sr)
    (F : Forall (fun c => c <> 0) s) :
  match read_operator s rest with
  | Some test =>
      exists out, BATsubthetajoin a nil behind l r sl sr (s ++ 0 :: rest) = Ok out
        /\ pairs out = theta_of cmp nil test (col l) (col r) (cands_of sl) (cands_of sr)
  | None => BATsubthetajoin a nil behind l r sl sr (s ++ 0 :: rest) = Fail None
  end.
Proof.
  pose proof (opcode_operator s rest F) as H. unfold BATsubthetajoin. rewrite P. destruct (read_operator s rest) as [test|].
  - destruct H as (N & T).
    destruct (thetajoin_pairs cmp nil behind _ _ _ _ (s ++ 0 :: rest) Okl Okr N) as (out & -> & Q).
    exists out. split; [reflexivity|]. rewrite Q. now apply theta_of_ext.
  - unfold thetajoin. now rewrite H.
Qed.

End ThetaResult.

(** ** What a projection returns *)

Section Fetch.

Context {V : Type} (cmp : V -> V -> Z) `{CO : !Comparison cmp} (nil : V).

Definition tail_oids (l : oid_column) : list Z :=
  match l with Sequence q n => zrange q n | AllNil n => repeat oid_nil n | Stored os => os end.

(** The value at an oid; [None] when it is no row. *)
Definition fetch (r : column V) (o : Z) : option V :=
  if o =? oid_nil then Some nil
  else if (hseqbase r <=? o) && (o <? hseqbase r + Z.of_nat (count r)) then Some (value_of r o) else None.

Fixpoint fetch_all (r : column V) (os : list Z) : option (list V) :=
  match os with
  | [] => Some []
  | o :: os => match fetch r o, fetch_all r os with Some v, Some vs => Some (v :: vs) | _, _ => None end
  end.

(** What the flags of a column promise of its values. *)
Record flags_true (p : props) (vs : list V) : Prop := {
  ft_sorted : p_sorted p = true -> ForallOrdPairs (fun u v => cmp u v <= 0) vs;
  ft_revsorted : p_revsorted p = true -> ForallOrdPairs (fun u v => cmp v u <= 0) vs;
  ft_key : p_key p = true -> ForallOrdPairs (fun u v => cmp u v <> 0) vs;
  ft_nonil : p_nonil p = true -> Forall (fun v => cmp v nil <> 0) vs;
}.

Lemma pairs_snoc (R : V -> V -> Prop) l x : ForallOrdPairs R l -> Forall (fun y => R y x) l -> ForallOrdPairs R (l ++ [x]).
Proof.
  induction 1 as [|y l F P IH]; intros G; cbn; [repeat constructor|].
  inversion G as [|z k Gy Gl]. subst. constructor; [|now apply IH].
  apply Forall_app. split; [exact F|]. now constructor.
Qed.

Lemma pairs_last (R : V -> V -> Prop) l u : (R u u) -> ForallOrdPairs R (l ++ [u]) -> Forall (fun y => R y u) (l ++ [u]).
Proof.
  intros Ru. induction l as [|y l IH]; cbn; intros P; [now repeat constructor|].
  inversion P as [|z k F P']. subst. constructor; [|now apply IH].
  rewrite Forall_forall in F. apply F, in_elt.
Qed.

(** The value before is the last one, as long as it is of interest. *)
Record consistent (s : projecting (V := V)) : Prop := {
  cs_flags : flags_true (flags s) (vals s);
  cs_key : p_key (flags s) = true -> p_sorted (flags s) || p_revsorted (flags s) = true;
  cs_last : p_sorted (flags s) || p_revsorted (flags s) || p_key (flags s) = true ->
    match previous s with None => vals s = [] | Some u => exists k, vals s = k ++ [u] end;
}.

Lemma cmp_chain y u v : cmp y u <= 0 ->
  (cmp u v <= 0 -> cmp y v <= 0) /\ (cmp u v < 0 -> cmp y v <> 0).
Proof.
  intros H. pose proof (cmp_opposite (cmp := cmp) y v). pose proof (cmp_opposite (cmp := cmp) u v).
  pose proof (cmp_trans (cmp := cmp) v y u). pose proof (cmp_trans (cmp := cmp) y u v). lia.
Qed.

Lemma cmp_chain_down y u v : cmp u y <= 0 ->
  (0 <= cmp u v -> cmp v y <= 0) /\ (0 < cmp u v -> cmp y v <> 0).
Proof.
  intros H. pose proof (cmp_opposite (cmp := cmp) y v). pose proof (cmp_opposite (cmp := cmp) u v).
  pose proof (cmp_trans (cmp := cmp) u y v). pose proof (cmp_trans (cmp := cmp) v u y). lia.
Qed.

Lemma cmp_self u : cmp u u = 0.
Proof. pose proof (cmp_opposite (cmp := cmp) u u). lia. Qed.

(** A value compared with the last one keeps the flags for order true. *)
Lemma note_order_true k u v p :
  flags_true p (k ++ [u]) -> (p_key p = true -> p_sorted p || p_revsorted p = true) ->
  (p_nonil p = true -> cmp v nil <> 0) ->
  let q := note_order cmp (Some u) v p in
  flags_true q ((k ++ [u]) ++ [v]) /\ (p_key q = true -> p_sorted q || p_revsorted q = true).
Proof.
  intros [S R K N] Ks Nn.
  assert (Up : p_sorted p = true -> Forall (fun y => cmp y u <= 0) (k ++ [u])).
  { intros E. apply (pairs_last (fun y z => cmp y z <= 0)); [pose proof (cmp_self u); lia|auto]. }
  assert (Down : p_revsorted p = true -> Forall (fun y => cmp u y <= 0) (k ++ [u])).
  { intros E. apply (pairs_last (fun y z => cmp z y <= 0)); [pose proof (cmp_self u); lia|auto]. }
  assert (No : p_nonil p = true -> Forall (fun v => cmp v nil <> 0) ((k ++ [u]) ++ [v])).
  { intros E. apply Forall_app. split; [auto|]. constructor; [auto|constructor]. }
  cbv zeta. unfold note_order. destruct p as [pn pnn pk ps pr]. cbn [p_key p_sorted p_revsorted p_nonil] in *.
  destruct (pr || ps || pk) eqn:A.
  2: { destruct pr, ps, pk; try discriminate. split; [split; try discriminate; exact No|discriminate]. }
  cbv zeta. unfold off. cbn [p_nil p_nonil p_key p_sorted p_revsorted].
  destruct (Z.ltb_spec (cmp u v) 0) as [C|C]; [|destruct (Z.ltb_spec 0 (cmp u v)) as [C2|C2]]; (split; [split|]);
    cbn [p_nil p_nonil p_key p_sorted p_revsorted negb andb]; rewrite ?andb_true_r, ?andb_false_r, ?orb_false_r;
    intros E; try discriminate; try exact (No E).
  - apply pairs_snoc; [auto|]. eapply Forall_impl; [|exact (Up E)]. intros y Y. apply (cmp_chain y u v Y). lia.
  - apply andb_true_iff in E. destruct E as (E1 & E2). apply negb_true_iff, negb_false_iff in E2.
    apply pairs_snoc; [auto|]. eapply Forall_impl; [|exact (Up E2)]. intros y Y. now apply (cmp_chain y u v Y).
  - destruct pk, ps; cbn in E |- *; congruence.
  - apply pairs_snoc; [auto|]. eapply Forall_impl; [|exact (Down E)]. intros y Y. apply (cmp_chain_down y u v Y). lia.
  - apply andb_true_iff in E. destruct E as (E1 & E2). apply negb_true_iff, negb_false_iff in E2.
    apply pairs_snoc; [auto|]. eapply Forall_impl; [|exact (Down E2)]. intros y Y. now apply (cmp_chain_down y u v Y).
  - destruct pk, pr; cbn in E |- *; congruence.
  - apply pairs_snoc; [auto|]. eapply Forall_impl; [|exact (Up E)]. intros y Y. apply (cmp_chain y u v Y). lia.
  - apply pairs_snoc; [auto|]. eapply Forall_impl; [|exact (Down E)]. intros y Y. apply (cmp_chain_down y u v Y). lia.
Qed.

Lemma value_consistent s v : consistent s ->
  consistent (mkProjecting (vals s ++ [v])
    (note_order cmp (previous s) v (with_nil (p_nonil (flags s) && (cmp v nil =? 0)) (flags s))) (Some v)).
Proof.
  intros [F K L]. set (p := with_nil _ _).
  assert (P : p_sorted p = p_sorted (flags s) /\ p_revsorted p = p_revsorted (flags s) /\ p_key p = p_key (flags s)
            /\ (p_nonil p = true -> p_nonil (flags s) = true /\ cmp v nil <> 0)).
  { unfold p, with_nil. destruct (p_nonil (flags s)) eqn:E; cbn [andb];
      [case Z.eqb_spec; intros Z0|]; cbn; repeat split; auto; congruence. }
  clearbody p. destruct P as (P1 & P2 & P3 & P4).
  assert (Fp : flags_true p (vals s)).
  { destruct F as [F1 F2 F3 F4]. split; intros E; [apply F1|apply F2|apply F3|apply F4]; try congruence. now apply P4. }
  rewrite <- P1, <- P2, <- P3 in L. rewrite <- P1, <- P2, <- P3 in K.
  destruct (p_sorted p || p_revsorted p || p_key p) eqn:A.
  - specialize (L eq_refl). destruct (previous s) as [u|].
    + destruct L as (k & Ek). rewrite Ek in *. destruct (note_order_true k u v p Fp K (fun E => proj2 (P4 E))) as (X & Y).
      split; cbn [flags vals previous]; [exact X|exact Y|]. intros _. now exists (k ++ [u]).
    + rewrite L in *. cbn [note_order app]. split; cbn [flags vals previous]; [|exact K|intros _; now exists []].
      split; intros E; repeat constructor. now apply P4.
  - destruct p as [pn pnn pk ps pr]. cbn in A. destruct ps, pr, pk; try discriminate.
    assert (note_order cmp (previous s) v (mkProps pn pnn false false false) = mkProps pn pnn false false false) as ->
      by (unfold note_order; now destruct (previous s)).
    split; cbn [flags vals previous]; [split; cbn; try discriminate|discriminate|discriminate].
    intros E. apply Forall_app. split; [now apply Fp|]. constructor; [now apply P4|constructor].
Qed.

Lemma nil_consistent s :
  consistent (mkProjecting (vals s ++ [nil]) (off true true true (with_nil true (flags s))) (previous s)).
Proof.
  split; cbn; rewrite ?andb_false_r; try discriminate. split; cbn; rewrite ?andb_false_r; discriminate.
Qed.

Lemma project_loop_spec (r : column V) os : forall s, consistent s ->
  match fetch_all r os with
  | Some vs => exists s', project_loop cmp nil r os s = Some s' /\ vals s' = vals s ++ vs /\ consistent s'
  | None => project_loop cmp nil r os s = None
  end.
Proof.
  induction os as [|o os IH]; intros s Cs; cbn [fetch_all project_loop].
  - exists s. rewrite app_nil_r. split; [reflexivity|]. split; [reflexivity|exact Cs].
  - unfold fetch. destruct (o =? oid_nil).
    + specialize (IH _ (nil_consistent s)). destruct (fetch_all r os) as [vs|]; [|exact IH].
      destruct IH as (s' & E & W & C'). exists s'. split; [exact E|]. split; [|exact C'].
      rewrite W. cbn [vals]. now rewrite <- app_assoc.
    + assert ((o <? hseqbase r) || (hseqbase r + Z.of_nat (count r) <=? o)
              = negb ((hseqbase r <=? o) && (o <? hseqbase r + Z.of_nat (count r)))) as -> by lia.
      destruct ((hseqbase r <=? o) && _); cbn [negb]; [|reflexivity]. cbv zeta. fold (value_of r o).
      specialize (IH _ (value_consistent s (value_of r o) Cs)). destruct (fetch_all r os) as [vs|]; [|exact IH].
      destruct IH as (s' & E & W & C'). exists s'. split; [exact E|]. split; [|exact C'].
      rewrite W. cbn [vals]. now rewrite <- app_assoc.
Qed.

Lemma fetch_rows (r : column V) lo n : hseqbase r <= lo -> lo + Z.of_nat n <= hseqbase r + Z.of_nat (count r) ->
  hseqbase r + Z.of_nat (count r) <= oid_nil ->
  fetch_all r (zrange lo n) = Some (map (Value r) (zrange (lo - hseqbase r) n)).
Proof.
  revert lo. induction n as [|n IH]; intros lo L H N; [reflexivity|]. cbn [zrange fetch_all map].
  unfold fetch at 1. rewrite (proj2 (Z.eqb_neq lo oid_nil)) by lia.
  replace ((hseqbase r <=? lo) && (lo <? hseqbase r + Z.of_nat (count r))) with true by lia.
  rewrite IH by lia. unfold value_of. now replace (lo + 1 - hseqbase r) with (lo - hseqbase r + 1) by lia.
Qed.

Lemma fetch_all_none (r : column V) os o : In o os -> fetch r o = None -> fetch_all r os = None.
Proof.
  induction os as [|x os IH]; [easy|]. cbn [fetch_all]. intros [->|I] E; [now rewrite E|].
  rewrite (IH I E). now destruct (fetch r x).
Qed.

Lemma fetch_nils (r : column V) n : fetch_all r (repeat oid_nil n) = Some (repeat nil n).
Proof. induction n as [|n IH]; [reflexivity|]. cbn [repeat fetch_all]. rewrite IH. reflexivity. Qed.

Lemma fresh_consistent : consistent (mkProjecting [] fresh_props None).
Proof. split; cbn; auto. split; intros; constructor. Qed.

(** C19: [BATproject] replaces every oid by the value of its row on the right, and
    nil by nil; it fails exactly when an oid is neither nil nor a row.  The flags it
    notes for the result hold for the values. *)
Theorem BATproject_fetches (l : oid_column) (r : column V)
    (B : match l with Sequence q n => 0 <= q /\ q + Z.of_nat n <= oid_nil | _ => True end)
    (Br : 0 <= hseqbase r /\ hseqbase r + Z.of_nat (count r) <= oid_nil) :
  match fetch_all r (tail_oids l) with
  | Some vs => exists f, BATproject cmp nil l r = Some (vs, f)
                 /\ match f with Some p => flags_true p vs | None => True end
  | None => BATproject cmp nil l r = None
  end.
Proof.
  destruct l as [q n|n|os]; cbn [tail_oids BATproject].
  - destruct n as [|n]; [now exists None|]. cbv zeta.
    destruct ((q <? hseqbase r) || (hseqbase r + Z.of_nat (count r) <? q + Z.of_nat (S n))) eqn:E.
    + apply orb_true_iff in E.
      assert (F : exists o, In o (zrange q (S n)) /\ fetch r o = None).
      { unfold fetch. destruct E as [E|E]; apply Z.ltb_lt in E; [exists q|exists (q + Z.of_nat n)];
          (split; [apply zrange_In; lia|]).
        - rewrite (proj2 (Z.eqb_neq q oid_nil)) by lia.
          now replace ((hseqbase r <=? q) && (q <? hseqbase r + Z.of_nat (count r))) with false by lia.
        - rewrite (proj2 (Z.eqb_neq _ oid_nil)) by lia.
          now replace ((hseqbase r <=? q + Z.of_nat n) && (q + Z.of_nat n <? hseqbase r + Z.of_nat (count r)))
            with false by lia. }
      destruct F as (o & I & F). now rewrite (fetch_all_none r _ o I F).
    + apply orb_false_iff in E. destruct E as (E1 & E2). apply Z.ltb_ge in E1, E2.
      rewrite (fetch_rows r q (S n)) by lia. now exists None.
  - rewrite fetch_nils. now exists None.
  - pose proof (project_loop_spec r os _ fresh_consistent) as P. destruct os as [|o os]; [now exists None|].
    destruct (fetch_all r (o :: os)) as [vs|].
    + destruct P as (s & -> & W & C'). cbn [vals app] in W. subst vs. exists (Some (flags s)).
      split; [reflexivity|]. apply C'.
    + now rewrite P.
Qed.

End Fetch.

(** ** Examples *)

Definition in_order (r : Z) (f : Z -> Z) (n : nat) : bool :=
  forallb (fun i => forallb (fun j => (j <? i) || (r * num_cmp (f i) (f j) <=? 0)) (zrange 0 n)) (zrange 0 n).

Lemma in_order_ordered r f n : in_order r f n = true -> ordered num_cmp r f 0 (Z.of_nat n).
Proof.
  intros H i j I J. unfold in_order in H. rewrite forallb_forall in H.
  specialize (H i ltac:(apply zrange_In; lia)). rewrite forallb_forall in H.
  specialize (H j ltac:(apply zrange_In; lia)). unfold le. lia.
Qed.

(** A column of integers: the flags must be true. *)
Definition int_column (l : list Z) (up down : bool) (st : storage_of) : bat Z := mkBat (ints l up down 0) true 5 st.

Lemma int_column_ok l up down st : Z.of_nat (List.length l) < 2 ^ 62 ->
  (up = true -> in_order 1 (fun i => nth (Z.to_nat i) l 0) (List.length l) = true) ->
  (down = true -> in_order (-1) (fun i => nth (Z.to_nat i) l 0) (List.length l) = true) ->
  bat_ok (int_atom ST_int) (int_column l up down st) None.
Proof.
  intros B U D. split; cbn [col int_column ints hseqbase count tsorted trevsorted Value option_map].
  - lia.
  - cbn. lia.
  - intros E. now apply in_order_ordered, U.
  - intros E. now apply in_order_ordered, D.
  - exact I.
Qed.

Definition no_table : storage_of := mkStorage 8 4 None.
Definition sample_left : bat Z := int_column [3; 7; 3; 5] false false no_table.
Definition sample_sorted : bat Z := int_column [1; 3; 3; 9] true false no_table.
Definition sample_unsorted : bat Z := int_column [7; 3; 9; 3] false false no_table.

Lemma sample_left_ok : bat_ok (int_atom ST_int) sample_left None.
Proof. apply int_column_ok; [cbn; lia|discriminate..]. Qed.
Lemma sample_sorted_ok : bat_ok (int_atom ST_int) sample_sorted None.
Proof. apply int_column_ok; [cbn; lia|reflexivity|discriminate]. Qed.
Lemma sample_unsorted_ok : bat_ok (int_atom ST_int) sample_unsorted None.
Proof. apply int_column_ok; [cbn; lia|discriminate..]. Qed.

Lemma sample_hash_fits l r : store r = no_table -> count (col r) = 4%nat -> first (col l) = 0 -> first (col r) = 0 ->
  hseqbase (col r) = 0 -> hash_ok (V := Z) (int_atom ST_int) r /\ hash_fits (V := Z) l r None None.
Proof.
  intros S N Fl Fr H. split; [|split; left; assumption]. unfold hash_ok, table_ok. rewrite S, N, Fr. cbn. lia.
Qed.

#[local] Abbreviation zeros := (fun _ : Z => 0).


Lemma BATsubjoin_equijoin_witness :
  let meant := [(0, 1); (0, 3); (1, 0); (2, 1); (2, 3)] in
  equijoin (int_atom ST_int) int_nil (col sample_left) (col sample_unsorted) None None = meant
  /\ exists out, BATsubjoin (int_atom ST_int) int_nil zeros zeros sample_left sample_unsorted None None = Ok out
       /\ Permutation (pairs out) meant.
Proof.
  split; [vm_compute; reflexivity|].
  apply (BATsubjoin_equijoin (int_atom ST_int) int_nil zeros zeros sample_left sample_unsorted None None).
  - reflexivity.
  - exact sample_left_ok.
  - exact sample_unsorted_ok.
  - now apply sample_hash_fits with (l := sample_unsorted).
  - now apply sample_hash_fits with (l := sample_left).
  - now apply sample_hash_fits.
Defined.

Lemma BATsubthetajoin_compares_witness :
  (exists out, BATsubthetajoin (int_atom ST_int) int_nil zeros sample_left sample_sorted None None (lit ">=" ++ [0]) = Ok out
    /\ pairs out = [(0, 0); (0, 1); (0, 2); (1, 0); (1, 1); (1, 2); (2, 0); (2, 1); (2, 2); (3, 0); (3, 1); (3, 2)])
  /\ BATsubthetajoin (int_atom ST_int) int_nil zeros sample_left sample_sorted None None (lit "<<" ++ [0]) = Fail None.
Proof.
  split.
  - apply (BATsubthetajoin_compares (int_atom ST_int) int_nil zeros sample_left sample_sorted None None (lit ">=") []
             eq_refl sample_left_ok sample_sorted_ok); repeat constructor; discriminate.
  - apply (BATsubthetajoin_compares (int_atom ST_int) int_nil zeros sample_left sample_sorted None None (lit "<<") []
             eq_refl sample_left_ok sample_sorted_ok); repeat constructor; discriminate.
Defined.

Lemma BATproject_fetches_witness :
  exists f, BATproject num_cmp int_nil (Stored [3; oid_nil; 1]) (col sample_sorted) = Some ([9; int_nil; 3], f)
    /\ match f with Some p => flags_true num_cmp int_nil p [9; int_nil; 3] | None => True end.
Proof.
  apply (BATproject_fetches num_cmp int_nil (Stored [3; oid_nil; 1]) (col sample_sorted) I).
  cbn. unfold oid_nil. lia.
Defined.
