(* ===== verification/Group.v ===== *)
(** * Grouping

    gdk/gdk_group.c: [BATgroup_internal] gives every row of a column the number of
    its group, optionally within the groups of an earlier grouping; it has six
    ways to do so: trivially, by copying, by comparing neighbours, by searching the
    equal values before a row, and with a hash table that exists or that is
    built on the way.  The file shows that all of them compute the same
    partition, with a representative and the size of each group. *)

From Stdlib Require Import ZArith Lia Bool List Sorting.Sorted.
Import ListNotations.
From S2P Require Import Prelude Atoms Sort Hash MergeJoin.

Open Scope Z_scope.
Open Scope list_scope.

(** ** The code *)

(** An earlier grouping, aligned with the column, and its flags. *)
Record groups_in := mkGroupsIn { grps : list Z; g_sorted : bool; g_revsorted : bool; g_key : bool; g_dense : bool }.

(** What is written while the rows are visited: the group of each row so far, the
    number of groups, a representative and the number of rows of each group, and
    the flag [tsorted] of the groups. *)
Record gstate := mkG { ngrps : list Z; ngrp : Z; exts : list Z; cnts : list Z; gsorted : bool }.

(** [cnts[grp]++]. *)
Fixpoint bump (l : list Z) (k : nat) : list Z :=
  match l, k with
  | [], _ => []
  | c :: l, O => (c + 1) :: l
  | c :: l, S k => c :: bump l k
  end.

Record output := mkOut { groups : list Z; extents : option (list Z); histo : option (list Z);
                         gn_key : bool; gn_sorted : bool; gn_revsorted : bool }.

Section Group.

Context {V : Type} (a : atom V).

Section Rows.

Context (b : column V) (g : option groups_in).

Definition grp_of (i : Z) : Z := match g with Some g => nth (Z.to_nat i) (grps g) 0 | None => 0 end.
Definition has_groups : bool := match g with Some _ => true | None => false end.

(** [GRPnotfound]: row [i] starts a group. *)
Definition GRPnotfound (i : Z) (s : gstate) : gstate :=
  mkG (ngrps s ++ [ngrp s]) (ngrp s + 1) (exts s ++ [hseqbase b + i]) (cnts s ++ [1]) (gsorted s).

(** Row [i] joins the group of row [hb]. *)
Definition GRPfound (hb : Z) (s : gstate) : gstate :=
  let grp := nth (Z.to_nat hb) (ngrps s) 0 in
  mkG (ngrps s ++ [grp]) (ngrp s) (exts s) (bump (cnts s) (Z.to_nat grp))
    (gsorted s && (grp =? ngrp s - 1)).

Definition assign (i : Z) (found : option Z) (s : gstate) : gstate :=
  match found with Some hb => GRPfound hb s | None => GRPnotfound i s end.

(** The first row. *)
Definition start : gstate := mkG [0] 1 [hseqbase b] [1] true.
Definition fresh : gstate := mkG [] 0 [] [] true.

(** Comparing neighbours: a row like the one before it is in the last group. *)
Definition like_previous (i : Z) (s : gstate) : gstate :=
  if (has_groups && negb (grp_of i =? grp_of (i - 1))) || negb (ATOMcmp a (Value b (i - 1)) (Value b i) =? 0)
  then GRPnotfound i s
  else mkG (ngrps s ++ [ngrp s - 1]) (ngrp s) (exts s) (bump (cnts s) (Z.to_nat (ngrp s - 1))) (gsorted s).
Definition consecutive (n : nat) : gstate := fold_left (fun s i => like_previous i s) (zrange 1 (n - 1)) start.

(** Searching the range [j .. i) of values equal to [pv] for one in the same
    group. *)
Definition subscan_step (st : Z * V * gstate) (i : Z) : Z * V * gstate :=
  let '(j, pv, s) := st in
  let v := Value b i in
  if ATOMcmp a v pv =? 0
  then (j, pv, assign i (find (fun k => grp_of k =? grp_of i) (zrange j (Z.to_nat (i - j)))) s)
  else (i, v, GRPnotfound i s).
Definition subscan (n : nat) : gstate := snd (fold_left subscan_step (zrange 1 (n - 1)) (0, Value b 0, start)).

(** Looking a row up in a table that holds all rows; [BUN]s count from
    [BUNfirst]. *)
Definition lookup_table (hs : Hash) (i : Z) : option (option Z) :=
  let v := Value b i in
  option_map
    (fun l => option_map (fun hb => hb - first b)
       (find (fun hb => (hb <? i + first b)
                        && (negb has_groups || (grp_of (hb - first b) =? grp_of i))
                        && (ATOMcmp a v (Value b (hb - first b)) =? 0)) l))
    (chain (fuel_of hs) hs (HASHget hs (HASHprobe a hs v))).
Fixpoint with_table (hs : Hash) (is_ : list Z) (s : gstate) : option gstate :=
  match is_ with
  | [] => Some s
  | i :: is_ =>
      match lookup_table hs i with
      | None => None
      | Some found => with_table hs is_ (assign i found s)
      end
  end.

(** How far the hash of a value is shifted to be combined with a group. *)
Fixpoint bits_loop (fuel : nat) (mask bits : Z) : Z :=
  match fuel with
  | O => bits
  | S fuel' => let mask := Z.shiftr mask 1 in if mask =? 0 then bits else bits_loop fuel' mask (bits + 1)
  end.
Definition hash_bits (n : Z) : Z := bits_loop 64 (Z.shiftr (HASHmask n) 3) 3 / 2.

(** The slot of a row in the table of representatives. *)
Definition slot_of (gc : bool) (hs : Hash) (i : Z) : Z :=
  let prb := HASHprobe a hs (Value b i) in
  if negb gc && has_groups
  then Z.land (Z.lxor (u64 (Z.shiftl prb (hash_bits (Z.of_nat (count b))))) (grp_of i)) (mask hs)
  else prb.

(** The search ends at the first representative of another group, when the groups
    are clustered. *)
Fixpoint clustered_find (same_group same_value : Z -> bool) (l : list Z) : option Z :=
  match l with
  | [] => None
  | hb :: l => if same_group hb
               then if same_value hb then Some hb else clustered_find same_group same_value l
               else None
  end.

Definition lookup_partial (gc : bool) (hs : Hash) (i : Z) : option (option Z) :=
  let same_value hb := ATOMcmp a (Value b i) (Value b (hb - first b)) =? 0 in
  let same_group hb := grp_of (hb - first b) =? grp_of i in
  option_map
    (fun l => option_map (fun hb => hb - first b)
       (if gc then clustered_find same_group same_value l
        else find (fun hb => (negb has_groups || same_group hb) && same_value hb) l))
    (chain (fuel_of hs) hs (HASHget hs (slot_of gc hs i))).

Fixpoint partial_table (gc : bool) (is_ : list Z) (hs : Hash) (s : gstate) : option gstate :=
  match is_ with
  | [] => Some s
  | i :: is_ =>
      match lookup_partial gc hs i with
      | None => None
      | Some (Some hb) => partial_table gc is_ hs (GRPfound hb s)
      | Some None => partial_table gc is_ (enter hs (slot_of gc hs i) (i + first b)) (GRPnotfound i s)
      end
  end.

End Rows.

(** [BATgroup_internal]: [e] and [h] belong to the earlier grouping [g],
    [want_e] and [want_h] tell that the outputs are asked for. *)
Definition BATgroup_internal (raw : Z -> Z) (b : column V) (table : option Hash) (g : option groups_in)
    (e h : option (list Z)) (want_e want_h subsorted : bool) : option output :=
  let n := count b in
  let rows := zrange 0 n in
  let asked (w : bool) (l : list Z) := if w then Some l else None in
  let given {A} (o : option A) := match o with Some _ => true | None => false end in
  let g_any f := match g with Some g => f g | None => false end in
  let finish (s : gstate) :=
    mkOut (ngrps s) (asked want_e (exts s)) (asked want_h (cnts s)) (ngrp s =? Z.of_nat n) (gsorted s) (n <=? 1)%nat in
  if tkey b || (n <=? 1)%nat || g_any (fun g => g_key g || g_dense g)
  then Some (mkOut rows (asked want_e (zrange (hseqbase b) n)) (asked want_h (repeat 1 n)) true true (n <=? 1)%nat)
  else if (tsorted b && trevsorted b) && negb (given g)
  then Some (mkOut (repeat 0 n) (asked want_e [hseqbase b]) (asked want_h [Z.of_nat n]) (n <=? 1)%nat true true)
  else if (tsorted b && trevsorted b) && Bool.eqb want_e (given e) && Bool.eqb want_h (given h)
  then option_map (fun g => mkOut (grps g) e h (g_key g) (g_sorted g) (g_revsorted g)) g
  else if (tsorted b || trevsorted b) && (negb (given g) || g_any (fun g => g_sorted g || g_revsorted g)) || subsorted
  then Some (finish (consecutive b g n))
  else if tsorted b || trevsorted b
  then Some (finish (subscan b g n))
  else
    match table with
    | Some hs => option_map finish (with_table b g hs rows fresh)
    | None =>
        let gc := g_any (fun g => g_sorted g || g_revsorted g) in
        let hs := HASHnew raw (first b + Z.of_nat n) (HASHmask (Z.of_nat n)) in
        option_map finish (partial_table b g gc rows hs fresh)
    end.

Definition BATgroup (raw : Z -> Z) (b : column V) (table : option Hash) (g : option groups_in)
    (e h : option (list Z)) (want_e want_h : bool) : option output :=
  BATgroup_internal raw b table g e h want_e want_h false.

End Group.

(** ** What a grouping promises *)

(** A loop keeps what its body keeps. *)
Lemma fold_zrange {X} (f : X -> Z -> X) (P : Z -> X -> Prop) m : forall lo x,
  P lo x -> (forall i x, lo <= i < lo + Z.of_nat m -> P i x -> P (i + 1) (f x i)) ->
  P (lo + Z.of_nat m) (fold_left f (zrange lo m) x).
Proof.
  induction m as [|m IH]; intros lo x H K; cbn [zrange fold_left]; [now rewrite Z.add_0_r|].
  replace (lo + Z.of_nat (S m)) with (lo + 1 + Z.of_nat m) by lia. apply IH.
  - apply K; [lia|exact H].
  - intros i y I. apply K. lia.
Qed.

Lemma zrange_NoDup n : forall lo, NoDup (zrange lo n).
Proof.
  induction n as [|n IH]; intros lo; cbn; constructor; [|apply IH].
  intros I. apply In_zrange in I. lia.
Qed.

(** The output [o] divides [n] rows into groups of like rows: the number of
    the group of a row, a representative and the size of each group. *)
Record describes (base : Z) (n : nat) (same : Z -> Z -> bool) (o : output) : Prop := {
  d_length : List.length (groups o) = n;
  d_same : forall i j, 0 <= i < Z.of_nat n -> 0 <= j < Z.of_nat n ->
    (nth (Z.to_nat i) (groups o) 0 = nth (Z.to_nat j) (groups o) 0 <-> same i j = true);
  d_groups : exists firsts : list Z,
    (forall i, 0 <= i < Z.of_nat n -> 0 <= nth (Z.to_nat i) (groups o) 0 < Z.of_nat (List.length firsts))
    /\ (forall k, (k < List.length firsts)%nat ->
          0 <= nth k firsts 0 < Z.of_nat n /\ nth (Z.to_nat (nth k firsts 0)) (groups o) 0 = Z.of_nat k)
    /\ (forall e, extents o = Some e -> e = map (Z.add base) firsts)
    /\ (forall h, histo o = Some h ->
          h = map (fun k => Z.of_nat (count_occ Z.eq_dec (groups o) k)) (zrange 0 (List.length firsts)));
  d_key : gn_key o = true -> NoDup (groups o);
  d_sorted : gn_sorted o = true -> forall i j, 0 <= i <= j -> j < Z.of_nat n ->
    nth (Z.to_nat i) (groups o) 0 <= nth (Z.to_nat j) (groups o) 0;
  d_revsorted : gn_revsorted o = true -> forall i j, 0 <= i <= j -> j < Z.of_nat n ->
    nth (Z.to_nat j) (groups o) 0 <= nth (Z.to_nat i) (groups o) 0;
}.

Section Partition.

Context (base : Z) (same : Z -> Z -> bool).

(** The rows are compared by an equivalence. *)
Class Equivalence_on : Prop := {
  same_refl : forall i, same i i = true;
  same_sym : forall i j, same i j = true -> same j i = true;
  same_trans : forall i j k, same i j = true -> same j k = true -> same i k = true;
}.
Context `{Eq : !Equivalence_on}.

Definition id_of (s : gstate) (i : Z) : Z := nth (Z.to_nat i) (ngrps s) 0.

(** The rows below [p] are grouped; group [k] was started by the [k]-th of
    [firsts]. *)
Record grouped (p : Z) (s : gstate) (firsts : list Z) : Prop := {
  g_pos : 0 <= p;
  g_length : List.length (ngrps s) = Z.to_nat p;
  g_id : forall i, 0 <= i < p ->
    0 <= id_of s i < Z.of_nat (List.length firsts) /\ same (nth (Z.to_nat (id_of s i)) firsts 0) i = true;
  g_firsts : forall r, In r firsts -> 0 <= r < p;
  g_distinct : forall j k, (j < List.length firsts)%nat -> (k < List.length firsts)%nat ->
    same (nth j firsts 0) (nth k firsts 0) = true -> j = k;
  g_ngrp : ngrp s = Z.of_nat (List.length firsts);
  g_exts : exts s = map (Z.add base) firsts;
  g_cnts : cnts s = map (fun k => Z.of_nat (count_occ Z.eq_dec (ngrps s) k)) (zrange 0 (List.length firsts));
  g_order : gsorted s = true -> forall i j, 0 <= i <= j -> j < p -> id_of s i <= id_of s j;
}.

(** What a search for row [i] may find: a row before it that is like it, and
    nothing only if there is none. *)
Definition lookup_ok (i : Z) (found : option Z) : Prop :=
  match found with
  | Some hb => 0 <= hb < i /\ same hb i = true
  | None => forall k, 0 <= k < i -> same k i = false
  end.

Definition firsts_after (i : Z) (found : option Z) (firsts : list Z) : list Z :=
  match found with Some _ => firsts | None => firsts ++ [i] end.

Lemma grouped_fresh : grouped 0 fresh [].
Proof. split; cbn; try reflexivity; lia. Qed.

Lemma id_same p s firsts i j : grouped p s firsts -> 0 <= i < p -> 0 <= j < p ->
  (id_of s i = id_of s j <-> same i j = true).
Proof.
  intros G I J. destruct (g_id _ _ _ G i I) as (Bi & Si), (g_id _ _ _ G j J) as (Bj & Sj). split; intros E.
  - rewrite E in Si. exact (same_trans _ _ _ (same_sym _ _ Si) Sj).
  - enough (Z.to_nat (id_of s i) = Z.to_nat (id_of s j)) by lia.
    apply (g_distinct _ _ _ G); try lia.
    exact (same_trans _ _ _ (same_trans _ _ _ Si E) (same_sym _ _ Sj)).
Qed.

Lemma id_first p s firsts k : grouped p s firsts -> (k < List.length firsts)%nat ->
  id_of s (nth k firsts 0) = Z.of_nat k.
Proof.
  intros G K. pose proof (g_firsts _ _ _ G _ (nth_In firsts 0 K)) as B.
  destruct (g_id _ _ _ G _ B) as (Bi & Si).
  enough (Z.to_nat (id_of s (nth k firsts 0)) = k) by lia. apply (g_distinct _ _ _ G); auto; lia.
Qed.

Lemma bump_count l n k : forall lo, lo <= k -> (Z.to_nat (k - lo) < n)%nat ->
  bump (map (fun i => Z.of_nat (count_occ Z.eq_dec l i)) (zrange lo n)) (Z.to_nat (k - lo))
  = map (fun i => Z.of_nat (count_occ Z.eq_dec (l ++ [k]) i)) (zrange lo n).
Proof.
  induction n as [|n IH]; intros lo B L; [lia|]. cbn [zrange map]. rewrite count_occ_app. cbn [count_occ].
  destruct (Z.eq_dec k lo) as [->|N].
  - rewrite Z.sub_diag. cbn [Z.to_nat bump]. f_equal; [lia|]. apply map_ext_zrange. intros i I.
    rewrite count_occ_app. cbn [count_occ]. destruct (Z.eq_dec lo i); lia.
  - replace (Z.to_nat (k - lo)) with (S (Z.to_nat (k - (lo + 1)))) by lia. cbn [bump].
    f_equal; [lia|]. apply IH; lia.
Qed.

Lemma id_snoc s i x n e c o : List.length (ngrps s) = Z.to_nat i -> 0 <= i ->
  id_of (mkG (ngrps s ++ [x]) n e c o) i = x
  /\ forall j, 0 <= j < i -> id_of (mkG (ngrps s ++ [x]) n e c o) j = id_of s j.
Proof.
  intros L I. unfold id_of. cbn [ngrps]. split.
  - rewrite app_nth2, <- L, Nat.sub_diag by lia. reflexivity.
  - intros j J. now rewrite app_nth1 by lia.
Qed.

Lemma nth_snoc {A} (l : list A) x d k : (k < List.length l)%nat -> nth k (l ++ [x]) d = nth k l d.
Proof. intros L. now rewrite app_nth1. Qed.

Lemma nth_last {A} (l : list A) x d : nth (List.length l) (l ++ [x]) d = x.
Proof. now rewrite app_nth2, Nat.sub_diag by lia. Qed.

(** Row [i] joins the group of a row before it. *)
Lemma found_grouped i s firsts hb : grouped i s firsts -> lookup_ok i (Some hb) ->
  grouped (i + 1) (GRPfound hb s) firsts.
Proof.
  intros G (B & Sm). pose proof (g_pos _ _ _ G) as P. pose proof (g_length _ _ _ G) as L.
  destruct (g_id _ _ _ G hb B) as (Bh & Sh). fold (id_of s hb) in *. unfold GRPfound. fold (id_of s hb).
  set (grp := id_of s hb) in *.
  destruct (id_snoc s i grp (ngrp s) (exts s) (bump (cnts s) (Z.to_nat grp)) (gsorted s && (grp =? ngrp s - 1)) L P) as (Il & Io).
  assert (C : forall q, 0 <= q < i + 1 -> q = i \/ 0 <= q < i) by lia.
  split; cbn [ngrps ngrp exts cnts gsorted]; [lia|..].
  - rewrite length_app, L. cbn. lia.
  - intros q Q. destruct (C q Q) as [->|Q'].
    + rewrite Il. split; [exact Bh|]. exact (same_trans _ _ _ Sh Sm).
    + rewrite Io by exact Q'. now apply G.
  - intros r R. pose proof (g_firsts _ _ _ G r R). lia.
  - apply G.
  - apply G.
  - apply G.
  - rewrite (g_cnts _ _ _ G). replace (Z.to_nat grp) with (Z.to_nat (grp - 0)) by lia. apply bump_count; lia.
  - intros O q q' Q Q'. apply andb_true_iff in O. destruct O as (O & E). apply Z.eqb_eq in E.
    destruct (C q' ltac:(lia)) as [->|R']; destruct (C q ltac:(lia)) as [->|R]; try lia.
    + rewrite Il, Io by exact R. pose proof (proj1 (g_id _ _ _ G q R)). pose proof (g_ngrp _ _ _ G). lia.
    + rewrite !Io by assumption. now apply (g_order _ _ _ G O); lia.
Qed.

(** Row [i] starts a group. *)
Lemma notfound_grouped {V} (b : column V) i s firsts : hseqbase b = base -> grouped i s firsts -> lookup_ok i None ->
  grouped (i + 1) (GRPnotfound b i s) (firsts ++ [i]).
Proof.
  intros Hb G N. cbn in N. pose proof (g_pos _ _ _ G) as P. pose proof (g_length _ _ _ G) as L.
  pose proof (g_ngrp _ _ _ G) as Ng. unfold GRPnotfound. rewrite Hb.
  destruct (id_snoc s i (ngrp s) (ngrp s + 1) (exts s ++ [base + i]) (cnts s ++ [1]) (gsorted s) L P) as (Il & Io).
  assert (C : forall q, 0 <= q < i + 1 -> q = i \/ 0 <= q < i) by lia.
  assert (F : forall k, (k < List.length firsts)%nat -> same (nth k firsts 0) i = false).
  { intros k K. apply N, (g_firsts _ _ _ G), nth_In, K. }
  split; cbn [ngrps ngrp exts cnts gsorted]; rewrite ?length_app; cbn [List.length]; try lia.
  - intros q Q. destruct (C q Q) as [->|Q'].
    + rewrite Il, Ng, Nat2Z.id, nth_last. split; [lia|apply same_refl].
    + rewrite Io by exact Q'. destruct (g_id _ _ _ G q Q') as (Bq & Sq). split; [lia|].
      rewrite nth_snoc by lia. exact Sq.
  - intros r R. apply in_app_iff in R. destruct R as [R|[<-|[]]]; [|lia].
    pose proof (g_firsts _ _ _ G r R). lia.
  - assert (K : forall k, (k < List.length firsts + 1)%nat -> k = List.length firsts \/ (k < List.length firsts)%nat) by lia.
    intros j k J J'. destruct (K j J) as [->|Lj], (K k J') as [->|Lk]; rewrite ?nth_last, ?nth_snoc by assumption.
    + easy.
    + intros E. apply same_sym in E. now rewrite F in E.
    + intros E. now rewrite F in E.
    + now apply (g_distinct _ _ _ G).
  - rewrite (g_exts _ _ _ G), map_app. reflexivity.
  - rewrite Nat.add_comm. cbn [Nat.add]. rewrite zrange_snoc, map_app, (g_cnts _ _ _ G). f_equal.
    + apply map_ext_zrange. intros k K. rewrite count_occ_app. cbn [count_occ]. destruct (Z.eq_dec (ngrp s) k); lia.
    + cbn [map]. rewrite count_occ_app, <- Ng. cbn [count_occ Z.add]. destruct (Z.eq_dec (ngrp s) (ngrp s)); [|easy].
      rewrite (proj1 (count_occ_not_In Z.eq_dec (ngrps s) (ngrp s))); [reflexivity|].
      intros I. destruct (In_nth _ _ 0 I) as (q & Q & E). pose proof (g_id _ _ _ G (Z.of_nat q) ltac:(lia)) as (B & _).
      unfold id_of in B. rewrite Nat2Z.id, E in B. lia.
  - intros O q q' Q Q'. destruct (C q' ltac:(lia)) as [->|R']; destruct (C q ltac:(lia)) as [->|R]; try lia.
    + rewrite Il, Io by exact R. pose proof (proj1 (g_id _ _ _ G q R)). lia.
    + rewrite !Io by assumption. now apply (g_order _ _ _ G O); lia.
Qed.

Lemma assign_grouped {V} (b : column V) i s firsts found : hseqbase b = base -> grouped i s firsts -> lookup_ok i found ->
  grouped (i + 1) (assign b i found s) (firsts_after i found firsts).
Proof.
  intros Hb G L. destruct found as [hb|]; cbn [assign firsts_after].
  - now apply found_grouped.
  - now apply notfound_grouped.
Qed.

(** What the loops have computed in the end. *)
Lemma grouped_describes n s firsts (want_e want_h : bool) : grouped (Z.of_nat n) s firsts ->
  describes base n same
    (mkOut (ngrps s) (if want_e then Some (exts s) else None) (if want_h then Some (cnts s) else None)
       (ngrp s =? Z.of_nat n) (gsorted s) (n <=? 1)%nat).
Proof.
  intros G. pose proof (g_length _ _ _ G) as L. rewrite Nat2Z.id in L.
  split; cbn [groups extents histo gn_key gn_sorted gn_revsorted]; auto.
  - intros i j I J. now apply (id_same _ _ _ _ _ G).
  - exists firsts. repeat split.
    + now apply (g_id _ _ _ G).
    + now apply (g_id _ _ _ G).
    + apply (g_firsts _ _ _ G), nth_In. assumption.
    + apply (g_firsts _ _ _ G), nth_In. assumption.
    + now apply (id_first _ _ _ _ G).
    + intros e E. destruct want_e; [|easy]. injection E as <-. apply G.
    + intros h E. destruct want_h; [|easy]. injection E as <-. apply G.
  - intros K. apply Z.eqb_eq in K. rewrite (g_ngrp _ _ _ G) in K.
    assert (Inc : incl (zrange 0 n) (ngrps s)).
    { intros k I. apply In_zrange in I. rewrite <- (Z2Nat.id k) by lia.
      rewrite <- (id_first _ _ _ (Z.to_nat k) G) by lia. unfold id_of. apply nth_In.
      pose proof (g_firsts _ _ _ G (nth (Z.to_nat k) firsts 0) ltac:(apply nth_In; lia)). lia. }
    apply (NoDup_incl_NoDup (zrange_NoDup n 0)); [rewrite zrange_length; lia|exact Inc].
  - exact (g_order _ _ _ G).
  - intros O i j I J. apply Nat.leb_le in O. replace i with j by lia. lia.
Qed.

End Partition.

(** ** The ways to group *)

Section Ways.

Context {V : Type} (a : atom V) `{Cmp : !Comparison (ATOMcmp a)} (b : column V) (g : option groups_in).
#[local] Abbreviation cmp := (ATOMcmp a).
#[local] Abbreviation n := (count b).

(** Rows are alike when they have equal values and were in the same group. *)
Definition alike (i j : Z) : bool := (grp_of g i =? grp_of g j) && (cmp (Value b i) (Value b j) =? 0).

Lemma up : 1 = 1 \/ 1 = -1.
Proof. now left. Qed.

#[local] Instance alike_equivalence : Equivalence_on alike.
Proof.
  split; unfold alike; intros i.
  - rewrite Z.eqb_refl, (cmp_refl cmp 1 up). reflexivity.
  - intros j E. apply andb_true_iff in E. destruct E as (E1 & E2). apply Z.eqb_eq in E1, E2.
    rewrite E1, Z.eqb_refl. apply Z.eqb_eq. now apply (cmp_sym cmp 1 up).
  - intros j k E F. apply andb_true_iff in E, F. destruct E as (E1 & E2), F as (F1 & F2).
    apply Z.eqb_eq in E1, E2, F1, F2. rewrite E1, F1, Z.eqb_refl. apply Z.eqb_eq. exact (cmp_eq_trans cmp 1 up _ _ _ E2 F2).
Qed.

Abbreviation base := (hseqbase b).
Abbreviation grouped_rows i s := (exists firsts, grouped base alike i s firsts).

Lemma first_row : GRPnotfound b 0 fresh = start b.
Proof. unfold GRPnotfound, start. cbn. now rewrite Z.add_0_r. Qed.

Lemma start_grouped : grouped base alike 1 (start b) [0].
Proof.
  rewrite <- first_row. apply (assign_grouped base alike b 0 fresh [] None eq_refl (grouped_fresh base alike)).
  cbn. lia.
Qed.

(** *** Comparing neighbours *)

(** Like rows are neighbours. *)
Definition clustered : Prop :=
  forall i j k, 0 <= i <= j -> j <= k < Z.of_nat n -> alike i k = true -> alike j k = true.

Lemma differs i : (has_groups g && negb (grp_of g i =? grp_of g (i - 1))) || negb (cmp (Value b (i - 1)) (Value b i) =? 0)
  = negb (alike (i - 1) i).
Proof.
  unfold alike. rewrite (Z.eqb_sym (grp_of g i)), negb_andb. f_equal.
  unfold has_groups, grp_of. now destruct g.
Qed.

Lemma like_previous_grouped i s firsts : clustered -> 1 <= i < Z.of_nat n ->
  grouped base alike i s firsts -> id_of s (i - 1) = ngrp s - 1 ->
  exists firsts', grouped base alike (i + 1) (like_previous a b g i s) firsts'
    /\ id_of (like_previous a b g i s) i = ngrp (like_previous a b g i s) - 1.
Proof.
  intros Cl B G L. unfold like_previous. rewrite differs. pose proof (g_length _ _ _ _ _ G) as Len.
  destruct (alike (i - 1) i) eqn:E; cbn [negb].
  - exists firsts. assert (F : mkG (ngrps s ++ [ngrp s - 1]) (ngrp s) (exts s) (bump (cnts s) (Z.to_nat (ngrp s - 1))) (gsorted s)
                 = GRPfound (i - 1) s).
    { unfold GRPfound. fold (id_of s (i - 1)). now rewrite L, Z.eqb_refl, andb_true_r. }
    split.
    + rewrite F. apply (found_grouped base alike i s firsts (i - 1) G). split; [lia|exact E].
    + cbn [ngrp]. apply id_snoc; [exact Len|lia].
  - exists (firsts ++ [i]). split.
    + apply (notfound_grouped base alike); auto. intros k K. destruct (alike k i) eqn:F; [|reflexivity].
      rewrite (Cl k (i - 1) i) in E; [easy|lia|lia|exact F].
    + unfold GRPnotfound. cbn [ngrp]. rewrite Z.add_simpl_r. apply id_snoc; [exact Len|lia].
Qed.

Lemma consecutive_grouped : clustered -> (0 < n)%nat -> grouped_rows (Z.of_nat n) (consecutive a b g n).
Proof.
  intros Cl N. unfold consecutive.
  destruct (fold_zrange (fun s i => like_previous a b g i s)
    (fun i s => 1 <= i /\ exists firsts, grouped base alike i s firsts /\ id_of s (i - 1) = ngrp s - 1) (n - 1) 1 (start b))
    as (_ & firsts & G & _).
  - split; [lia|]. exists [0]. split; [exact start_grouped|reflexivity].
  - intros i s I (_ & firsts & G & L). split; [lia|]. rewrite Z.add_simpl_r.
    apply (like_previous_grouped i s firsts); auto. lia.
  - exists firsts. now replace (Z.of_nat n) with (1 + Z.of_nat (n - 1)) by lia.
Qed.

(** *** Searching the equal values before a row *)

(** Equal values are neighbours. *)
Definition values_clustered : Prop :=
  forall i j k, 0 <= i <= j -> j <= k < Z.of_nat n ->
    cmp (Value b i) (Value b k) = 0 -> cmp (Value b j) (Value b k) = 0.

Lemma ordered_clustered r : direction r -> ordered cmp r (Value b) 0 (Z.of_nat n) -> values_clustered.
Proof.
  intros D O i j k I K E. apply (cmp_le cmp r D). apply (cmp_le cmp r D) in E. split.
  - apply O; lia.
  - apply (le_trans cmp r D _ (Value b i)); [apply E|apply O; lia].
Qed.

Definition equal_before (i : Z) (j : Z) (pv : V) : Prop :=
  0 <= j < i /\ forall k, 0 <= k < i -> (cmp (Value b k) pv = 0 <-> j <= k).

Lemma subscan_step_grouped i j pv s firsts : values_clustered -> 1 <= i < Z.of_nat n ->
  grouped base alike i s firsts -> equal_before i j pv ->
  exists firsts', let '(j', pv', s') := subscan_step a b g (j, pv, s) i in
    grouped base alike (i + 1) s' firsts' /\ equal_before (i + 1) j' pv'.
Proof.
  intros Cl B G (J & Q). unfold subscan_step. case Z.eqb_spec; intros E.
  - eexists. split.
    + apply (assign_grouped base alike b i s firsts); [reflexivity|exact G|]. destruct (find _ _) as [k|] eqn:F.
      * apply find_some in F. destruct F as (I & F). apply In_zrange in I. apply Z.eqb_eq in F. split; [lia|].
        unfold alike. rewrite F, Z.eqb_refl. apply Z.eqb_eq. apply (cmp_eq_trans cmp 1 up _ pv); [apply Q; lia|].
        now apply (cmp_sym cmp 1 up).
      * intros k K. unfold alike. destruct (Z.eqb_spec (cmp (Value b k) (Value b i)) 0) as [C|C]; [|apply andb_false_r].
        rewrite andb_true_r. apply (find_none _ _ F). apply zrange_In.
        enough (j <= k) by lia. apply Q; [lia|]. exact (cmp_eq_trans cmp 1 up _ _ _ C E).
    + split; [lia|]. intros k K. destruct (Z.eq_dec k i) as [->|]; [split; [lia|auto]|]. apply Q. lia.
  - exists (firsts ++ [i]). assert (N : forall k, 0 <= k < i -> cmp (Value b k) (Value b i) <> 0).
    { intros k K C. apply E. apply (cmp_eq_trans cmp 1 up _ (Value b (i - 1))).
      - apply (cmp_sym cmp 1 up), (Cl k (i - 1) i); auto; lia.
      - apply Q; lia. }
    split.
    + apply (notfound_grouped base alike); auto. intros k K. unfold alike. apply andb_false_intro2, Z.eqb_neq. auto.
    + split; [lia|]. intros k K. destruct (Z.eq_dec k i) as [->|].
      * split; [lia|]. intros _. apply (cmp_refl cmp 1 up).
      * split; [|lia]. intros C. destruct (N k); [lia|exact C].
Qed.

Lemma subscan_grouped : values_clustered -> (0 < n)%nat -> grouped_rows (Z.of_nat n) (subscan a b g n).
Proof.
  intros Cl N. unfold subscan.
  pose proof (fold_zrange (subscan_step a b g)
    (fun i st => 1 <= i /\ exists firsts, let '(j, pv, s) := st in grouped base alike i s firsts /\ equal_before i j pv)
    (n - 1) 1 (0, Value b 0, start b)) as F.
  destruct (fold_left _ _ _) as [ [j pv] s].
  destruct F as (_ & firsts & G & _).
  - split; [lia|]. exists [0]. split; [exact start_grouped|]. split; [lia|]. intros k K.
    replace k with 0 by lia. split; [lia|]. intros _. apply (cmp_refl cmp 1 up).
  - intros i [ [j' pv'] s'] I (_ & firsts & G & L). split; [lia|]. apply (subscan_step_grouped i j' pv' s' firsts); auto. lia.
  - exists firsts. now replace (Z.of_nat n) with (1 + Z.of_nat (n - 1)) by lia.
Qed.

(** *** With a table of all rows *)

Context `{HA : !Hashable a}.

Abbreviation row_value := (fun p => Value b (p - first b)).

(** A table of the column has all its rows, and no row before the first. *)
Definition table_of (hs : Hash) : Prop :=
  exists rows, holds a hs row_value rows /\ forall p, 0 <= p < Z.of_nat n -> In (p + first b) rows
    /\ forall q, In q rows -> first b <= q.

Lemma has_groups_same i j : negb (has_groups g) || (grp_of g i =? grp_of g j) = (grp_of g i =? grp_of g j).
Proof. unfold has_groups, grp_of. now destruct g. Qed.

Lemma lookup_table_ok hs i : table_of hs -> 0 <= i < Z.of_nat n ->
  exists found, lookup_table a b g hs i = Some found /\ lookup_ok alike i found.
Proof.
  intros (rows & H & All) I. unfold lookup_table.
  rewrite (holds_chain a hs row_value rows) by (exact H || apply probe_bounds, H). cbn [option_map].
  eexists. split; [reflexivity|]. destruct (find _ _) as [hb|] eqn:F; cbn [option_map lookup_ok].
  - apply find_some in F. destruct F as (M & F). apply in_slot_in in M. destruct M as (M & _).
    rewrite has_groups_same, !andb_true_iff, Z.ltb_lt, !Z.eqb_eq in F. destruct F as ( (F1 & F2) & F3).
    pose proof (proj2 (All i I) hb M). split; [lia|]. unfold alike. rewrite F2, Z.eqb_refl.
    apply Z.eqb_eq. now apply (cmp_sym cmp 1 up).
  - intros k K. destruct (alike k i) eqn:E; [|reflexivity]. unfold alike in E.
    rewrite andb_true_iff, !Z.eqb_eq in E. destruct E as (E1 & E2).
    assert (M : In (k + first b) (in_slot a hs row_value (HASHprobe a hs (Value b i)) rows)).
    { apply in_slot_in. split; [apply All; lia|]. cbv beta. rewrite Z.add_simpl_r. now apply hash_eq. }
    pose proof (find_none _ _ F _ M) as N. cbv beta in N.
    rewrite has_groups_same, Z.add_simpl_r, E1, Z.eqb_refl, (cmp_sym cmp 1 up _ _ E2) in N.
    replace (k + first b <? i + first b) with true in N by lia. discriminate.
Qed.

Lemma with_table_grouped hs m : table_of hs -> forall i s, 0 <= i -> i + Z.of_nat m = Z.of_nat n -> grouped_rows i s ->
  exists s', with_table a b g hs (zrange i m) s = Some s' /\ grouped_rows (Z.of_nat n) s'.
Proof.
  intros T. induction m as [|m IH]; intros i s I E (firsts & G); cbn [zrange with_table].
  - exists s. split; [reflexivity|]. exists firsts. now replace (Z.of_nat n) with i by lia.
  - assert (I' : 0 <= i < Z.of_nat n) by lia. pose proof (lookup_table_ok hs i T I') as (found & -> & L). apply IH; [lia|lia|].
    exists (firsts_after i found firsts). now apply (assign_grouped base alike).
Qed.

(** *** With a table of the rows that started a group *)

Lemma clustered_find_find same_group same_value (l : list Z) :
  ForallOrdPairs (fun x y => same_group y = true -> same_group x = true) l ->
  clustered_find same_group same_value l = find (fun hb => same_group hb && same_value hb) l.
Proof.
  induction 1 as [|x l F _ IH]; [reflexivity|]. cbn [clustered_find find].
  destruct (same_group x) eqn:E; cbn [andb]; [now rewrite IH|].
  symmetry. clear - F E. induction F as [|y l Fy _ IH]; [reflexivity|]. cbn [find].
  destruct (same_group y); [discriminate (Fy eq_refl)|exact IH].
Qed.

(** The rows of a table by the slot the code chooses for them. *)
Definition by_slot (gc : bool) (hs : Hash) : atom Z :=
  mkAtom (fun _ _ => 0) ST_other (fun i => i) (slot_of a b g gc hs) (slot_of a b g gc hs).

Lemma slot_of_mask gc hs hs' i : mask hs' = mask hs -> slot_of a b g gc hs' i = slot_of a b g gc hs i.
Proof. intros M. unfold slot_of. rewrite (probe_mask a hs hs') by exact M. now rewrite M. Qed.

Lemma slot_probe gc hs hs' i : mask hs' = mask hs -> HASHprobe (by_slot gc hs) hs' i = slot_of a b g gc hs' i.
Proof.
  intros M. rewrite (slot_of_mask gc hs hs' i M). unfold HASHprobe, hash_with, by_slot.
  cbn [ATOMstorage ATOMhash]. rewrite M. unfold slot_of. destruct (negb gc && has_groups g).
  - now rewrite <- Z.land_assoc, Z.land_diag.
  - unfold HASHprobe, hash_with. now rewrite <- Z.land_assoc, Z.land_diag.
Qed.

Lemma slot_alike gc hs i j : alike i j = true -> slot_of a b g gc hs i = slot_of a b g gc hs j.
Proof.
  unfold alike. rewrite andb_true_iff, !Z.eqb_eq. intros (E1 & E2). unfold slot_of.
  now rewrite E1, (hash_eq a hs _ _ E2).
Qed.

(** The rows that started a group, as the table has them. *)
Abbreviation started firsts := (map (fun r => r + first b) (rev firsts)).
Abbreviation row_of := (fun p => p - first b).

(** Like rows of a grouping that is clustered are neighbours. *)
Definition groups_clustered : Prop :=
  forall i j k, 0 <= i <= j -> j <= k < Z.of_nat n -> grp_of g i = grp_of g k -> grp_of g j = grp_of g k.

Lemma find_same (f h : Z -> bool) l : (forall x, f x = h x) -> find f l = find h l.
Proof. intros E. induction l as [|x l IH]; cbn; [reflexivity|]. now rewrite E, IH. Qed.

Lemma descending_filter (f : Z -> bool) l : StronglySorted Z.gt l -> StronglySorted Z.gt (List.filter f l).
Proof.
  induction 1 as [|x l _ IH F]; cbn; [constructor|]. destruct (f x); [|exact IH]. constructor; [exact IH|].
  apply Forall_forall. intros y I. apply filter_In in I. rewrite Forall_forall in F. now apply F.
Qed.

Lemma descending_clustered p l : groups_clustered -> p < Z.of_nat n -> StronglySorted Z.gt l ->
  (forall q, In q l -> 0 <= row_of q <= p) ->
  ForallOrdPairs (fun x y => (grp_of g (row_of y) =? grp_of g p) = true -> (grp_of g (row_of x) =? grp_of g p) = true) l.
Proof.
  intros Gc P So. induction So as [|x l _ IH F]; intros B; constructor.
  - rewrite Forall_forall in F. apply Forall_forall. intros y I. rewrite !Z.eqb_eq. specialize (F y I).
    pose proof (B x (or_introl eq_refl)). pose proof (B y (or_intror I)). apply Gc; lia.
  - apply IH. intros q I. apply B. now right.
Qed.

(** The chain of a row's slot has all started rows that are like it, and the
    search finds one of them. *)
Lemma lookup_partial_chain gc hs hs0 p firsts : mask hs = mask hs0 -> (gc = true -> groups_clustered) ->
  0 <= p < Z.of_nat n -> StronglySorted Z.gt (started firsts) -> (forall r, In r firsts -> 0 <= r < p) ->
  holds (by_slot gc hs0) hs row_of (started firsts) ->
  exists l, lookup_partial a b g gc hs p = Some (option_map row_of (find (fun hb => alike p (row_of hb)) l))
    /\ incl l (started firsts) /\ forall r, In r firsts -> alike r p = true -> In (r + first b) l.
Proof.
  intros M Gc P So B H. unfold lookup_partial.
  assert (Sl : 0 <= slot_of a b g gc hs p <= mask hs).
  { rewrite <- (slot_probe gc hs0 hs p M). apply probe_bounds, H. }
  rewrite (holds_chain (by_slot gc hs0) hs row_of (started firsts)) by assumption. cbn [option_map].
  set (l := in_slot (by_slot gc hs0) hs row_of _ _).
  assert (Inc : incl l (started firsts)) by (intros q I; apply in_slot_in in I; apply I).
  exists l. split; [|split; [exact Inc|]].
  - f_equal. f_equal. unfold alike. destruct gc.
    + rewrite clustered_find_find; [apply find_same; intros q; now rewrite (Z.eqb_sym (grp_of g p))|].
      apply descending_clustered; [auto|lia|now apply descending_filter|].
      intros q I. apply Inc, in_map_iff in I. destruct I as (r & <- & I). apply in_rev in I.
      specialize (B r I). lia.
    + apply find_same. intros q. rewrite has_groups_same. now rewrite (Z.eqb_sym (grp_of g p)).
  - intros r I E. apply in_slot_in. split.
    + apply in_map_iff. exists r. split; [reflexivity|]. now apply -> in_rev.
    + rewrite Z.add_simpl_r, slot_probe by exact M. now apply slot_alike.
Qed.

(** What is known of the table and the groups before row [p]. *)
Record partial (gc : bool) (hs0 : Hash) (p : Z) (hs : Hash) (s : gstate) (firsts : list Z) : Prop := {
  pt_grouped : grouped base alike p s firsts;
  pt_mask : mask hs = mask hs0;
  pt_lim : first b + Z.of_nat n <= lim hs;
  pt_order : StronglySorted Z.gt (started firsts);
  pt_holds : holds (by_slot gc hs0) hs row_of (started firsts);
}.

Lemma lookup_partial_ok gc hs0 p hs s firsts : (gc = true -> groups_clustered) -> 0 <= p < Z.of_nat n ->
  partial gc hs0 p hs s firsts ->
  exists found, lookup_partial a b g gc hs p = Some found /\ lookup_ok alike p found.
Proof.
  intros Gc P [G M _ So H]. pose proof (g_firsts _ _ _ _ _ G) as B.
  destruct (lookup_partial_chain gc hs hs0 p firsts M Gc P So B H) as (l & -> & Inc & All).
  eexists. split; [reflexivity|]. destruct (find _ l) as [hb|] eqn:F; cbn [option_map lookup_ok].
  - apply find_some in F. destruct F as (I & F). apply Inc, in_map_iff in I. destruct I as (r & <- & I).
    apply in_rev in I. rewrite Z.add_simpl_r in F |- *. split; [auto|]. now apply (same_sym alike).
  - intros k K. destruct (alike k p) eqn:E; [|reflexivity].
    destruct (g_id _ _ _ _ _ G k K) as (Bk & Sk). set (r := nth _ firsts 0) in *.
    assert (Ir : In r firsts) by (apply nth_In; lia).
    pose proof (same_trans alike _ _ _ Sk E) as Er.
    pose proof (find_none _ _ F _ (All r Ir Er)) as N. cbv beta in N. rewrite Z.add_simpl_r in N.
    now rewrite (same_sym alike _ _ Er) in N.
Qed.

Lemma partial_table_step gc hs0 p hs s firsts : 0 <= first b -> 0 <= p < Z.of_nat n -> partial gc hs0 p hs s firsts ->
  (forall k, 0 <= k < p -> alike k p = false) ->
  partial gc hs0 (p + 1) (enter hs (slot_of a b g gc hs p) (p + first b)) (GRPnotfound b p s) (firsts ++ [p]).
Proof.
  intros F P [G M L So H] N. pose proof (g_firsts _ _ _ _ _ G) as B.
  assert (St : started (firsts ++ [p]) = (p + first b) :: started firsts) by now rewrite rev_app_distr.
  assert (Bs : forall q, In q (started firsts) -> q < p + first b).
  { intros q I. apply in_map_iff in I. destruct I as (r & <- & I). apply in_rev in I. specialize (B r I). lia. }
  split; rewrite ?St; try assumption.
  - now apply (notfound_grouped base alike).
  - constructor; [exact So|]. apply Forall_forall. intros q I. specialize (Bs q I). lia.
  - rewrite <- (slot_probe gc hs0 hs p M). apply enter_holds; [exact H| |lia|lia].
    intros I. specialize (Bs _ I). lia.
Qed.

Lemma partial_table_grouped gc hs0 m : 0 <= first b -> (gc = true -> groups_clustered) -> forall p hs s firsts,
  0 <= p -> p + Z.of_nat m = Z.of_nat n -> partial gc hs0 p hs s firsts ->
  exists s', partial_table a b g gc (zrange p m) hs s = Some s' /\ grouped_rows (Z.of_nat n) s'.
Proof.
  intros F Gc. induction m as [|m IH]; intros p hs s firsts P E T; cbn [zrange partial_table].
  - exists s. split; [reflexivity|]. exists firsts. replace (Z.of_nat n) with p by lia. apply T.
  - assert (P' : 0 <= p < Z.of_nat n) by lia.
    pose proof (lookup_partial_ok gc hs0 p hs s firsts Gc P' T) as (found & -> & L).
    destruct found as [hb|]; eapply IH; try lia.
    + destruct T as [G M Lm So H]. split; try eassumption. now apply (found_grouped base alike).
    + exact (partial_table_step gc hs0 p hs s firsts F P' T L).
Qed.

Lemma hash_grouped raw gc : 0 <= first b -> first b + Z.of_nat n <= 2 ^ 62 -> (gc = true -> groups_clustered) ->
  exists s, partial_table a b g gc (zrange 0 n) (HASHnew raw (first b + Z.of_nat n) (HASHmask (Z.of_nat n))) fresh = Some s
    /\ grouped_rows (Z.of_nat n) s.
Proof.
  intros F L Gc. destruct (HASHmask_spec (Z.of_nat n)) as (k & K & -> & _); [lia|].
  set (hs := HASHnew _ _ _). apply (partial_table_grouped gc hs n F Gc 0 hs fresh []); [lia|lia|].
  split.
  - apply grouped_fresh.
  - reflexivity.
  - unfold hs, HASHnew, HASHclear. cbv zeta.
    match goal with |- _ <= lim (fold_left _ (zrange 0 ?m) ?h) => destruct (HASHclear_slots m h 0) as (_ & _ & Lm & _) end.
    rewrite Lm. cbn [lim]. lia.
  - constructor.
  - apply HASHnew_holds; lia.
Qed.

(** *** All of them *)

(** What the code relies on: flags that are true, and an earlier grouping with
    its own extents and sizes. *)
Record input_ok (table : option Hash) (e h : option (list Z)) (subsorted : bool) : Prop := {
  in_size : 0 <= first b /\ first b + Z.of_nat n <= 2 ^ 62;
  in_sorted : tsorted b = true -> ordered cmp 1 (Value b) 0 (Z.of_nat n);
  in_revsorted : trevsorted b = true -> ordered cmp (-1) (Value b) 0 (Z.of_nat n);
  in_key : tkey b = true -> forall i j, 0 <= i < j -> j < Z.of_nat n -> cmp (Value b i) (Value b j) <> 0;
  in_groups : forall g0, g = Some g0 ->
    describes base n (fun i j => grp_of g i =? grp_of g j)
      (mkOut (grps g0) e h (g_key g0) (g_sorted g0) (g_revsorted g0));
  in_dense : forall g0, g = Some g0 -> g_dense g0 = true -> g_key g0 = true;
  in_subsorted : subsorted = true -> clustered;
  in_table : forall hs, table = Some hs -> table_of hs;
}.

Lemma groups_clustered_by_flags table e h subsorted g0 : input_ok table e h subsorted -> g = Some g0 ->
  g_sorted g0 || g_revsorted g0 = true -> groups_clustered.
Proof.
  intros Ok E O i j k I K. pose proof (in_groups _ _ _ _ Ok g0 E) as D. rewrite E. cbn [grp_of]. intros Q.
  apply orb_true_iff in O. destruct O as [O|O].
  - pose proof (d_sorted _ _ _ _ D O i j ltac:(lia) ltac:(lia)) as A. pose proof (d_sorted _ _ _ _ D O j k ltac:(lia) ltac:(lia)) as C.
    cbn [groups] in A, C. lia.
  - pose proof (d_revsorted _ _ _ _ D O i j ltac:(lia) ltac:(lia)) as A. pose proof (d_revsorted _ _ _ _ D O j k ltac:(lia) ltac:(lia)) as C.
    cbn [groups] in A, C. lia.
Qed.

Lemma values_clustered_by_flags table e h subsorted : input_ok table e h subsorted ->
  tsorted b || trevsorted b = true -> values_clustered.
Proof.
  intros Ok O. apply orb_true_iff in O. destruct O as [O|O].
  - apply (ordered_clustered 1 up), (in_sorted _ _ _ _ Ok O).
  - apply (ordered_clustered (-1)); [now right|]. apply (in_revsorted _ _ _ _ Ok O).
Qed.

Lemma alike_clustered : values_clustered -> groups_clustered -> clustered.
Proof.
  intros Vc Gc i j k I K. unfold alike. rewrite !andb_true_iff, !Z.eqb_eq. intros (E1 & E2). split.
  - now apply (Gc i).
  - now apply (Vc i).
Qed.

Lemma all_equal table e h subsorted : input_ok table e h subsorted -> tsorted b && trevsorted b = true ->
  forall i j, 0 <= i < Z.of_nat n -> 0 <= j < Z.of_nat n -> cmp (Value b i) (Value b j) = 0.
Proof.
  intros Ok O. apply andb_true_iff in O. destruct O as (O1 & O2).
  pose proof (in_sorted _ _ _ _ Ok O1) as A. pose proof (in_revsorted _ _ _ _ Ok O2) as D.
  assert (W : forall i j, 0 <= i <= j -> j < Z.of_nat n -> cmp (Value b i) (Value b j) = 0).
  { intros i j I J. specialize (A i j I J). specialize (D i j I J). unfold le in A, D. lia. }
  intros i j I J. destruct (Z.le_ge_cases i j) as [L|L]; [apply W; lia|].
  apply (cmp_sym cmp 1 up), W; lia.
Qed.

(** One group per row, when no two rows are alike. *)
Lemma singletons_describe (want_e want_h : bool) rev : (rev = true -> (n <= 1)%nat) ->
  (forall i j, 0 <= i < j -> j < Z.of_nat n -> alike i j = false) ->
  describes base n alike
    (mkOut (zrange 0 n) (if want_e then Some (zrange base n) else None) (if want_h then Some (repeat 1 n) else None) true true rev).
Proof.
  intros Rv D.
  assert (A : forall i, 0 <= i < Z.of_nat n -> nth (Z.to_nat i) (zrange 0 n) 0 = i)
    by (intros i I; rewrite nth_zrange by lia; lia).
  assert (Len : List.length (zrange 0 n) = n) by apply zrange_length.
  split; cbn [groups extents histo gn_key gn_sorted gn_revsorted].
  - exact Len.
  - intros i j I J. rewrite !A by assumption. split; [intros ->; apply (same_refl alike)|]. intros E.
    destruct (Z.lt_trichotomy i j) as [L|[L|L]]; [|exact L|].
    + now rewrite (D i j) in E by lia.
    + apply (same_sym alike) in E. now rewrite (D j i) in E by lia.
  - exists (zrange 0 n). rewrite Len. repeat split.
    + rewrite A; lia.
    + rewrite A; lia.
    + rewrite nth_zrange by assumption. lia.
    + rewrite nth_zrange by assumption. lia.
    + replace (nth k (zrange 0 n) 0) with (Z.of_nat k) by (rewrite nth_zrange by lia; lia). rewrite A; lia.
    + intros e E. destruct want_e; [|easy]. injection E as <-. now rewrite zrange_shift, Z.add_0_r.
    + intros h E. destruct want_h; [|easy]. injection E as <-.
      rewrite (map_ext_zrange _ (fun _ => 1)).
      * generalize 0. generalize n as m. induction m as [|m IH]; intros lo; cbn; [reflexivity|]. f_equal. apply IH.
      * intros k K. rewrite (proj1 (NoDup_count_occ' Z.eq_dec (zrange 0 n)) (zrange_NoDup n 0)); [reflexivity|].
        apply zrange_In. lia.
  - intros _. apply zrange_NoDup.
  - intros _ i j I J. rewrite !A by lia. lia.
  - intros O i j I J. specialize (Rv O). rewrite !A by lia. lia.
Qed.

(** One group, when all rows are alike. *)
Lemma one_group_describes (want_e want_h : bool) : (1 < n)%nat ->
  (forall i j, 0 <= i < Z.of_nat n -> 0 <= j < Z.of_nat n -> alike i j = true) ->
  describes base n alike
    (mkOut (repeat 0 n) (if want_e then Some [base] else None) (if want_h then Some [Z.of_nat n] else None) (n <=? 1)%nat true true).
Proof.
  intros N D. assert (A : forall k, nth k (repeat 0 n) 0 = 0) by (intros k; apply nth_repeat).
  split; cbn [groups extents histo gn_key gn_sorted gn_revsorted].
  - apply repeat_length.
  - intros i j I J. rewrite !A. split; auto.
  - exists [0]. cbn [List.length]. repeat split.
    + now rewrite A.
    + now rewrite A.
    + replace k with 0%nat by lia. cbn. lia.
    + replace k with 0%nat by lia. cbn. lia.
    + rewrite A. lia.
    + intros e E. destruct want_e; [|easy]. injection E as <-. cbn. now rewrite Z.add_0_r.
    + intros h E. destruct want_h; [|easy]. injection E as <-. cbn [zrange map]. now rewrite count_occ_repeat_eq.
  - intros K. apply Nat.leb_le in K. lia.
  - intros _ i j I J. now rewrite !A.
  - intros _ i j I J. now rewrite !A.
Qed.

(** The same grouping, when all values are equal. *)
Lemma copy_describes o : describes base n (fun i j => grp_of g i =? grp_of g j) o ->
  (forall i j, 0 <= i < Z.of_nat n -> 0 <= j < Z.of_nat n -> cmp (Value b i) (Value b j) = 0) ->
  describes base n alike o.
Proof.
  intros D E. destruct D as [L S G K O R]. split; try assumption.
  intros i j I J. rewrite (S i j I J). unfold alike. now rewrite (E i j I J), andb_true_r.
Qed.

(** The loops, whichever is chosen. *)
Definition groups_well (want_e want_h : bool) (r : option output) : Prop :=
  exists o, r = Some o /\ describes base n alike o
    /\ match extents o with Some _ => true | None => false end = want_e
    /\ match histo o with Some _ => true | None => false end = want_h.

Lemma finish_well (want_e want_h : bool) s : grouped_rows (Z.of_nat n) s ->
  groups_well want_e want_h
    (Some (mkOut (ngrps s) (if want_e then Some (exts s) else None) (if want_h then Some (cnts s) else None)
             (ngrp s =? Z.of_nat n) (gsorted s) (n <=? 1)%nat)).
Proof.
  intros (firsts & G). eexists. split; [reflexivity|]. split; [now apply (grouped_describes base alike _ _ firsts)|].
  split; [now destruct want_e|now destruct want_h].
Qed.

Lemma no_two_alike table e h subsorted : input_ok table e h subsorted ->
  tkey b || (n <=? 1)%nat || match g with Some g => g_key g || g_dense g | None => false end = true ->
  forall i j, 0 <= i < j -> j < Z.of_nat n -> alike i j = false.
Proof.
  intros Ok T i j I J. unfold alike. apply orb_true_iff in T. destruct T as [T|T].
  - apply orb_true_iff in T. destruct T as [T|T]; [|apply Nat.leb_le in T; lia].
    apply andb_false_intro2, Z.eqb_neq. now apply (in_key _ _ _ _ Ok T).
  - apply andb_false_intro1, Z.eqb_neq. destruct g as [g0|] eqn:E; [|easy].
    assert (K : g_key g0 = true).
    { destruct (g_key g0) eqn:K; [reflexivity|]. rewrite <- K. now apply (in_dense _ _ _ _ Ok g0 E). }
    pose proof (in_groups _ _ _ _ Ok g0 E) as D. pose proof (d_key _ _ _ _ D K) as N. pose proof (d_length _ _ _ _ D) as L.
    cbn [groups] in N, L. intros Q. cbn [grp_of] in Q. rewrite NoDup_nth in N.
    specialize (N (Z.to_nat i) (Z.to_nat j) ltac:(lia) ltac:(lia) Q). lia.
Qed.

Lemma BATgroup_well raw table e h (want_e want_h subsorted : bool) : input_ok table e h subsorted ->
  groups_well want_e want_h (BATgroup_internal a raw b table g e h want_e want_h subsorted).
Proof.
  intros Ok. unfold BATgroup_internal. cbv zeta.
  destruct (tkey b || (n <=? 1)%nat || _) eqn:T.
  { eexists. split; [reflexivity|]. split; [|split; [now destruct want_e|now destruct want_h] ].
    apply singletons_describe; [apply Nat.leb_le|]. exact (no_two_alike table e h subsorted Ok T). }
  rewrite !orb_false_iff, Nat.leb_gt in T. destruct T as ( (_ & N) & _).
  destruct ((tsorted b && trevsorted b) && _) eqn:O1.
  { apply andb_true_iff in O1. destruct O1 as (O1 & O2).
    eexists. split; [reflexivity|]. split; [|split; [now destruct want_e|now destruct want_h] ].
    apply one_group_describes; [exact N|]. intros i j I J. unfold alike.
    rewrite (all_equal _ _ _ _ Ok O1 i j I J), andb_true_r. destruct g; [discriminate|reflexivity]. }
  destruct ((tsorted b && trevsorted b) && _ && _) eqn:O2.
  { apply andb_prop in O2. destruct O2 as (O2 & Qh). apply andb_prop in O2. destruct O2 as (O2 & Qe).
    apply eqb_prop in Qe, Qh.
    destruct g as [g0|] eqn:E; cbn [option_map].
    - eexists. split; [reflexivity|]. split; [|split; [now rewrite Qe|now rewrite Qh] ].
      apply copy_describes; [apply (in_groups _ _ _ _ Ok g0 E)|exact (all_equal _ _ _ _ Ok O2)].
    - cbn [negb] in O1. now rewrite O2 in O1. }
  destruct ((tsorted b || trevsorted b) && _ || subsorted) eqn:O3.
  { apply finish_well, consecutive_grouped; [|lia]. apply orb_true_iff in O3. destruct O3 as [O3|O3]; [|now apply (in_subsorted _ _ _ _ Ok)].
    apply andb_true_iff in O3. destruct O3 as (O3 & Q). apply alike_clustered; [now apply (values_clustered_by_flags table e h subsorted)|].
    destruct g as [g0|] eqn:E; [now apply (groups_clustered_by_flags table e h subsorted g0)|].
    intros i j k _ _ _. now rewrite E. }
  destruct (tsorted b || trevsorted b) eqn:O4.
  { apply finish_well, subscan_grouped; [now apply (values_clustered_by_flags table e h subsorted)|lia]. }
  pose proof (in_size _ _ _ _ Ok) as (F & L).
  destruct table as [hs|].
  - destruct (with_table_grouped hs n (in_table _ _ _ _ Ok hs eq_refl) 0 fresh) as (s & -> & G); [lia|lia|exists []; apply grouped_fresh|].
    now apply finish_well.
  - destruct (hash_grouped raw (match g with Some g => g_sorted g || g_revsorted g | None => false end) F L) as (s & -> & G).
    + intros Q. destruct g as [g0|] eqn:E; [|easy]. now apply (groups_clustered_by_flags None e h subsorted g0).
    + now apply finish_well.
Qed.

End Ways.

(** C20: Whichever way [BATgroup_internal] takes (trivial groups, one group, a copy, comparing
    neighbours, searching equal values, a hash table that exists or one built on
    the way), two rows get the same number if and only if they have equal values
    and were in the same group before; the numbers count from 0, the extents name a row of
    each group, the histogram its size, and the flags are true. *)
Theorem BATgroup_partitions {V} (a : atom V) `{!Comparison (ATOMcmp a)} `{!Hashable a} raw (b : column V) table g e h
    (want_e want_h subsorted : bool) (Ok : input_ok a b g table e h subsorted) :
  exists o, BATgroup_internal a raw b table g e h want_e want_h subsorted = Some o
    /\ describes (hseqbase b) (count b) (alike a b g) o
    /\ match extents o with Some _ => true | None => false end = want_e
    /\ match histo o with Some _ => true | None => false end = want_h.
Proof. exact (BATgroup_well a b g raw table e h want_e want_h subsorted Ok). Qed.

(** The output of one call is an earlier grouping for the next. *)
Definition earlier (o : output) : groups_in := mkGroupsIn (groups o) (gn_sorted o) (gn_revsorted o) (gn_key o) false.

Lemma describes_earlier base n same o : describes base n same o ->
  describes base n (fun i j => grp_of (Some (earlier o)) i =? grp_of (Some (earlier o)) j)
    (mkOut (groups o) (extents o) (histo o) (gn_key o) (gn_sorted o) (gn_revsorted o)).
Proof.
  intros [L S G K O R]. split; cbn [groups extents histo gn_key gn_sorted gn_revsorted]; try assumption.
  intros i j I J. cbn [grp_of earlier grps]. now rewrite Z.eqb_eq.
Qed.

Definition sample_column (l : list Z) : column Z :=
  mkColumn 100 (List.length l) 0 (fun i => nth (Z.to_nat i) l 0) false false false.

Lemma sample_input_ok l g e h : Z.of_nat (List.length l) <= 2 ^ 62 ->
  (forall g0, g = Some g0 -> describes 100 (List.length l) (fun i j => grp_of g i =? grp_of g j)
     (mkOut (grps g0) e h (g_key g0) (g_sorted g0) (g_revsorted g0))) ->
  (forall g0, g = Some g0 -> g_dense g0 = false) ->
  input_ok (int_atom ST_int) (sample_column l) g None e h false.
Proof.
  intros L G D. split; try discriminate; auto.
  - cbn [first count sample_column]. lia.
  - intros g0 E F. now rewrite (D g0 E) in F.
Qed.

Lemma BATgroup_partitions_witness :
  exists o o',
    BATgroup (int_atom ST_int) (fun _ => 0) (sample_column [3; 7; 3; 3; 7]) None None None None true true = Some o
    /\ BATgroup (int_atom ST_int) (fun _ => 0) (sample_column [1; 1; 2; 1; 1]) None (Some (earlier o)) (extents o) (histo o)
         true false = Some o'
    /\ describes 100 5 (alike (int_atom ST_int) (sample_column [1; 1; 2; 1; 1]) (Some (earlier o))) o'.
Proof.
  destruct (BATgroup_partitions (int_atom ST_int) (fun _ => 0) (sample_column [3; 7; 3; 3; 7]) None None None None
              true true false) as (o & E & D & _).
  { apply sample_input_ok; [cbn; lia|discriminate..]. }
  destruct (BATgroup_partitions (int_atom ST_int) (fun _ => 0) (sample_column [1; 1; 2; 1; 1]) None (Some (earlier o))
              (extents o) (histo o) true false false) as (o' & E' & D' & _).
  { apply sample_input_ok; [cbn; lia| |].
    - intros g0 Q. injection Q as <-. exact (describes_earlier _ _ _ o D).
    - intros g0 Q. now injection Q as <-. }
  exists o, o'. split; [exact E|]. split; [exact E'|exact D'].
Defined.

(** Grouping by one column and then by another groups by both. *)
Lemma BATgroup_twice {V W} (a : atom V) (a' : atom W) `{!Comparison (ATOMcmp a)} `{!Hashable a} `{!Comparison (ATOMcmp a')} `{!Hashable a'}
    (b : column V) (b' : column W) o o' :
  count b' = count b -> describes (hseqbase b) (count b) (alike a b None) o ->
  describes (hseqbase b') (count b') (alike a' b' (Some (earlier o))) o' ->
  forall i j, 0 <= i < Z.of_nat (count b) -> 0 <= j < Z.of_nat (count b) ->
  (nth (Z.to_nat i) (groups o') 0 = nth (Z.to_nat j) (groups o') 0 <->
   ATOMcmp a (Value b i) (Value b j) = 0 /\ ATOMcmp a' (Value b' i) (Value b' j) = 0).
Proof.
  intros N D D' i j I J. rewrite (d_same _ _ _ _ D' i j) by (rewrite N; assumption).
  unfold alike at 1. cbn [grp_of earlier grps]. rewrite andb_true_iff, !Z.eqb_eq, (d_same _ _ _ _ D i j I J).
  unfold alike. cbn [grp_of]. rewrite Z.eqb_refl. cbn [andb]. now rewrite Z.eqb_eq.
Qed.
