(* ===== verification/Subsort.v ===== *)
(** * Sorting by several columns

    gdk/gdk_batop.c: [do_sort], which picks one of the four sort functions, and
    [BATsubsort], which sorts a column within groups of rows, carries the
    order along and refines the groups.  The client relies on the class [Sorter];
    the sort functions satisfy it.  The main theorem is about calls in a row, one for each
    column in order of significance: they sort lexicographically. *)

From Stdlib Require Import ZArith Lia Bool List Permutation Sorted.
Import ListNotations.
From S2P Require Import Prelude Sort StableList SsortMerge Ssort Hash MergeJoin Group.

Open Scope Z_scope.
Open Scope list_scope.

(** ** The code *)

Section DoSort.

Context {V : Type} (atomCmp : V -> V -> Z) (fltCmp : Z -> Z -> Z) (at_base at_slot : Z -> V).
(** How the type is stored, which instance of the stable sort it has, and the
    arguments of the sorts. *)
Context (varsized base : bool) (st : storage) (i : instance) (heap : bool) (hs ts : Z).
Context (halfH halfT : Z -> Z -> Z) (malloc : Z -> bool) (freshh fresht : Z -> Z) (junk : Z -> Z * Z).

(** [do_sort]; [t] says whether there is a tail. *)
Definition do_sort (t reverse stable : bool) (l : list (Z * Z)) : option (list (Z * Z)) :=
  let n := List.length l in
  if (n <=? 1)%nat then Some l
  else if stable
  then let m := fun k => nth (Z.to_nat k) l (0, 0) in
       let sort := if reverse then GDKssort_rev (T := Z) (V := V) else GDKssort in
       result_of (Z.of_nat n) (sort atomCmp fltCmp at_base at_slot halfH halfT hs ts malloc freshh fresht i heap m junk (Z.of_nat n))
  else let s := mkArrays (fun k => fst (nth k l (0, 0))) (fun k => snd (nth k l (0, 0))) in
       let sort := if reverse then GDKqsort_rev (T := Z) (V := V) else GDKqsort in
       option_map (Sort.rows 0 n) (sort atomCmp fltCmp at_base at_slot varsized base st t ts n s).

End DoSort.

Section Subsort.

Context {V : Type} (a : atom V) (raw : Z -> Z).
(** [do_sort] for the type of the column. *)
Context (sort : bool -> bool -> bool -> list (V * Z) -> option (list (V * Z))).

(** The column to be sorted: the oid of its first row, its values, and its flags
    (the first is that of [BATtordered]). *)
Record table := mkTable { t_hseq : Z; t_vals : list V; t_ordered : bool; t_revsorted : bool; t_key : bool }.

Record sub := mkSub {
  s_vals : list V; s_sorted : bool; s_revsorted : bool; s_key : bool;
  s_order : option (list Z); s_groups : option output;
}.
Inductive answer := Refused | Crash | Nothing | Gives (s : sub).

(** [BATleftfetchjoin] of an order with a column, for oids of its rows; it finds
    out on its own whether the values it fetched are in order and distinct. *)
Definition fetch (dflt : V) (b : table) (o : list Z) : list V := map (fun x => nth (Z.to_nat (x - t_hseq b)) (t_vals b) dflt) o.
Context (fetch_flags : table -> list Z -> bool * bool * bool).

(** Rows with the same group, one after the other, are sorted on their own; the
    result says whether there was more than one group. *)
Fixpoint sort_runs (srt : list (V * Z) -> option (list (V * Z))) (prev : Z) (cur : list (V * Z)) (l : list (Z * (V * Z))) : option (list (V * Z)) :=
  match l with
  | [] => srt cur
  | (k, x) :: l =>
      if k =? prev then sort_runs srt prev (cur ++ [x]) l
      else match srt cur with
           | Some c => option_map (app c) (sort_runs srt k [x] l)
           | None => None
           end
  end.
Definition one_run (prev : Z) (l : list Z) : bool := forallb (fun k => k =? prev) l.

(** The groups of the sorted column, and the key flag that follows from them. *)
Definition regroup (dflt : V) (h : Z) (vals : list V) (sorted revsorted key : bool) (g : option groups_in) (want_groups : bool)
    (order : option (list Z)) : answer :=
  if want_groups
  then match BATgroup_internal a raw (mkColumn h (List.length vals) 0 (fun i => nth (Z.to_nat i) vals dflt) sorted revsorted key)
               None g None None false false true with
       | None => Refused
       | Some gn => Gives (mkSub vals sorted revsorted (key || gn_key gn && (sorted || revsorted)) order (Some gn))
       end
  else Gives (mkSub vals sorted revsorted key order None).

(** The size of [g] is that of [b] (which the code does not check). *)
Definition subsort (dflt : V) (b : table) (o : option (list Z)) (g : option groups_in) (want_order want_groups reverse stable : bool) : answer :=
  let n := List.length (t_vals b) in
  let bn := match o with Some o => fetch dflt b o | None => t_vals b end in
  let '(bsorted, brevsorted, key) := match o with Some o => fetch_flags b o | None => (t_ordered b, t_revsorted b, t_key b) end in
  let on := match o with Some o => o | None => zrange 0 n end in
  let order l := if want_order then Some l else None in
  let srt := sort want_order reverse stable in
  let rows := combine bn (if want_order then on else repeat 0 n) in
  match g with
  | Some g' =>
      if g_key g' || g_dense g'
      then Gives (mkSub bn bsorted brevsorted key (order on)
                    (if want_groups then Some (mkOut (grps g') None None (g_key g') (g_sorted g') (g_revsorted g')) else None))
      else
        let prev := hd 0 (grps g') in
        match sort_runs srt prev (firstn 1 rows) (combine (tl (grps g')) (tl rows)) with
        | None => Refused
        | Some l =>
            let one := one_run prev (tl (grps g')) in
            regroup dflt (t_hseq b) (map fst l) (one && negb reverse) (one && reverse) key g want_groups (order (map snd l))
        end
  | None =>
      match srt rows with
      | None => Refused
      | Some l => regroup dflt (t_hseq b) (map fst l) (negb reverse) reverse key None want_groups (order (map snd l))
      end
  end.

(** [BATsubsort]: the checks, and the shortcut. *)
Definition BATsubsort (dflt : V) (b : table) (o : option (list Z)) (g : option groups_in)
    (want_sorted want_order want_groups reverse stable : bool) : answer :=
  let n := List.length (t_vals b) in
  let given {A} (x : option A) := match x with Some _ => true | None => false end in
  if match o with Some o => negb (List.length o =? n)%nat | None => false end then Refused
  else
    match g with
    | Some g' =>
        if negb (g_sorted g') then Refused
        else match o with
             | None => Crash                       (* BATcount(o) *)
             | Some _ => if negb (want_sorted || want_order || want_groups) then Nothing
                         else if (n <=? 1)%nat
                         then Gives (mkSub (t_vals b) (t_ordered b) (t_revsorted b) (t_key b) (if want_order then Some (zrange 0 n) else None)
                                       (if want_groups then Some (mkOut (zrange 0 n) None None true true (n <=? 1)%nat) else None))
                         else subsort dflt b o g want_order want_groups reverse stable
             end
    | None =>
        if negb (want_sorted || want_order || want_groups) then Nothing
        else if (n <=? 1)%nat || t_ordered b && negb (given o) && negb want_groups
        then Gives (mkSub (t_vals b) (t_ordered b) (t_revsorted b) (t_key b) (if want_order then Some (zrange 0 n) else None)
                      (if want_groups then Some (mkOut (zrange 0 n) None None true true (n <=? 1)%nat) else None))
        else subsort dflt b o g want_order want_groups reverse stable
    end.

End Subsort.

Arguments table V : clear implicits.
Arguments answer V : clear implicits.

(** ** What a sort function promises *)

(** Rows by their values, ascending or descending. *)
Definition row_lt {V} (cmp : V -> V -> Z) (reverse : bool) (x y : V * Z) : bool :=
  if reverse then cmp (fst x) (fst y) >? 0 else cmp (fst x) (fst y) <? 0.

#[export] Instance row_lt_WeakOrder {V} (cmp : V -> V -> Z) `{!Comparison cmp} reverse : WeakOrder (row_lt cmp reverse).
Proof.
  assert (W : WeakOrder (fun x y => if reverse then cmp x y >? 0 else cmp x y <? 0)) by (apply Comparison_WeakOrder; assumption).
  exact (WeakOrder_via _ fst W).
Qed.

(** Without a tail array all rows have the same tail. *)
Definition tailed {V} (t : bool) (l : list (V * Z)) : Prop := Forall (fun r => t = false -> snd r = 0) l.

Definition short {A} (l : list A) : Prop := Z.of_nat (List.length l) <= 2 ^ 62.

(** [starved] says that memory is refused.  Only the stable sort fails: for want of memory or, beyond 2^21
    rows, of room on its stack. *)
Class Sorter {V : Type} (cmp : V -> V -> Z) (starved : Prop) (sort : bool -> bool -> bool -> list (V * Z) -> option (list (V * Z))) : Prop := {
  sorter_sorts : forall t reverse stable_ l l', short l -> tailed t l -> sort t reverse stable_ l = Some l' ->
    sorted (row_lt cmp reverse) l' /\ Permutation l l';
  sorter_stable : forall t reverse l l', short l -> tailed t l -> sort t reverse true l = Some l' -> stable (row_lt cmp reverse) l l';
  sorter_fails : forall t reverse stable_ l, short l -> sort t reverse stable_ l = None ->
    stable_ = true /\ (starved \/ 2 ^ 21 < Z.of_nat (List.length l));
}.

(** ** Lexicographic order of rows within groups *)

Definition lex_lt {R} (lt : R -> R -> bool) (x y : Z * R) : bool :=
  (fst x <? fst y) || ((fst x =? fst y) && lt (snd x) (snd y)).

#[export] Instance lex_lt_WeakOrder {R} (lt : R -> R -> bool) `{!WeakOrder lt} : WeakOrder (lex_lt lt).
Proof.
  split; unfold lex_lt.
  - intros [k x] [k' y]; cbn [fst snd]. rewrite orb_true_iff, orb_false_iff, !andb_true_iff, andb_false_iff, Z.ltb_lt, Z.ltb_ge, !Z.eqb_eq, Z.eqb_neq.
    intros [L|(E & L)]; [split; [lia|left; lia]|]. split; [lia|]. right. now apply lt_asym.
  - intros [k x] [k' y] [k'' z]; cbn [fst snd]. rewrite !orb_true_iff, !andb_true_iff, !Z.ltb_lt, !Z.eqb_eq.
    intros [L|(-> & L)]; [destruct (Z.lt_trichotomy k k') as [M|[M|M]]; [left; left; lia|right; left; lia|right; left; lia]|].
    destruct (Z.lt_trichotomy k'' k') as [M|[<-|M]]; [left; left; lia| |right; left; lia].
    destruct (lt_cotrans x y z L) as [Q|Q]; [left|right]; right; auto.
Qed.

Section Runs.

Context {R : Type} (lt : R -> R -> bool) `{!WeakOrder lt}.

(** Rows of one group. *)
Definition keyed (k : Z) (l : list R) : list (Z * R) := map (pair k) l.

Lemma sorted_keyed k l : sorted lt l -> sorted (lex_lt lt) (keyed k l).
Proof.
  induction l as [|x l IH]; intros S; [constructor|]. apply StronglySorted_inv in S as [S F]. cbn. constructor; [exact (IH S)|].
  apply Forall_map. apply (Forall_impl _ (P := StableList.le lt x)); [|exact F]. intros y L. unfold StableList.le, lex_lt in *. cbn. now rewrite Z.ltb_irrefl, Z.eqb_refl, L.
Qed.

Lemma stable_keyed k l l' : stable lt l l' -> stable (lex_lt lt) (keyed k l) (keyed k l').
Proof.
  intros S [k' x]. assert (E : forall l, filter (eqv (lex_lt lt) (k', x)) (keyed k l) = if k' =? k then keyed k (filter (eqv lt x) l) else []).
  { clear l l' S. intros l. induction l as [|y l IH]; cbn; [now destruct (k' =? k)|]. fold (keyed k l). rewrite IH.
    unfold eqv, lex_lt. cbn [fst snd]. rewrite (Z.eqb_sym k k'). destruct (Z.eqb_spec k' k) as [->|N].
    - rewrite Z.ltb_irrefl. cbn [orb andb]. destruct (negb (lt x y) && negb (lt y x)); reflexivity.
    - cbn [andb]. rewrite !orb_false_r. destruct (Z.ltb_spec k' k), (Z.ltb_spec k k'); cbn; reflexivity || lia. }
  rewrite !E. destruct (k' =? k); [|reflexivity]. now rewrite (S x).
Qed.

Lemma fst_keyed k l : map fst (keyed k l) = repeat k (List.length l).
Proof. induction l; cbn; f_equal; auto. Qed.

(** The sort of each run; [Q] says whether it is stable. *)
Context (Q : Prop) (srt : list R -> option (list R)).
Context (sorts : forall l l', short l -> srt l = Some l' ->
  sorted lt l' /\ Permutation l l' /\ (Q -> stable lt l l')).

(** All runs together are sorted by group and value. *)
Definition regrouped (K K' : list (Z * R)) : Prop :=
  map fst K' = map fst K /\ sorted (lex_lt lt) K' /\ Permutation K K' /\ (Q -> stable (lex_lt lt) K K').

Lemma srt_keyed k l l' : short l -> srt l = Some l' -> regrouped (keyed k l) (keyed k l').
Proof.
  intros Pl E. destruct (sorts l l' Pl E) as (S1 & S2 & S3). split; [|split; [|split]].
  - rewrite !fst_keyed. f_equal. symmetry. now apply Permutation_length.
  - now apply sorted_keyed.
  - now apply Permutation_map.
  - intros q. now apply stable_keyed, S3.
Qed.

End Runs.

Section SortRuns.

Context {V : Type} (lt : V * Z -> V * Z -> bool) `{!WeakOrder lt} (Q : Prop)
  (srt : list (V * Z) -> option (list (V * Z))).
Context (sorts : forall l l', short l -> srt l = Some l' ->
  sorted lt l' /\ Permutation l l' /\ (Q -> stable lt l l')).

Lemma sort_runs_spec l prev cur out :
  StronglySorted Z.le (prev :: map fst l) -> short (cur ++ map snd l) ->
  sort_runs srt prev cur l = Some out ->
  exists K', map snd K' = out /\ regrouped lt Q (keyed prev cur ++ l) K'.
Proof.
  revert prev cur out. induction l as [|[k x] l IH]; intros prev cur out S Pl E; cbn [sort_runs map fst snd] in *.
  - rewrite app_nil_r in *. exists (keyed prev out). split; [unfold keyed; rewrite map_map; apply map_id|].
    now apply (srt_keyed lt Q srt sorts).
  - apply StronglySorted_inv in S as [S F]. destruct (Z.eqb_spec k prev) as [->|N].
    + destruct (IH prev (cur ++ [x]) out) as (K' & E' & G); [exact S|now rewrite <- app_assoc|exact E|].
      exists K'. split; [exact E'|]. unfold keyed in *. rewrite map_app, <- app_assoc in G. exact G.
    + assert (Pc : short cur) by (unfold short in *; rewrite length_app in Pl; lia).
      assert (Pr : short (x :: map snd l)) by (unfold short in *; rewrite length_app in Pl; lia). destruct (srt cur) as [c|] eqn:Ec; [|discriminate].
      destruct (sort_runs srt k [x] l) as [out'|] eqn:Eo; [|discriminate]. injection E as <-.
      destruct (IH k [x] out') as (K2 & <- & (G1 & G2 & G3 & G4)); [exact S|exact Pr|exact Eo|].
      destruct (srt_keyed lt Q srt sorts prev cur c Pc Ec) as (C1 & C2 & C3 & C4).
      exists (keyed prev c ++ K2). split; [unfold keyed; rewrite map_app, map_map; f_equal; apply map_id|].
      change (keyed prev cur ++ (k, x) :: l) with (keyed prev cur ++ (keyed k [x] ++ l)). split; [|split; [|split]].
      * rewrite !map_app, C1. f_equal. rewrite G1. apply map_app.
      * apply sorted_app. split; [exact C2|]. split; [exact G2|]. intros u v Iu Iv.
        apply (in_map fst) in Iu, Iv. rewrite C1, fst_keyed in Iu. apply repeat_spec in Iu.
        rewrite G1, map_app in Iv. cbn [keyed map fst app] in Iv.
        assert (L : k <= fst v).
        { destruct Iv as [Iv|Iv]; [lia|]. apply StronglySorted_inv in S as [_ S]. rewrite Forall_forall in S. now apply S. }
        assert (M : prev < k) by (apply Forall_inv in F; lia).
        unfold StableList.le, lex_lt. rewrite (proj2 (Z.ltb_ge _ _)), (proj2 (Z.eqb_neq _ _)) by lia. reflexivity.
      * now apply Permutation_app.
      * intros q. apply app_stable; auto.
Qed.

End SortRuns.


(** ** Lexicographic order of oids *)

Definition colcmp {V} (cmp : V -> V -> Z) (reverse : bool) (val : Z -> V) (x y : Z) : Z :=
  if reverse then cmp (val y) (val x) else cmp (val x) (val y).
Definition lexcmp (c1 c2 : Z -> Z -> Z) (x y : Z) : Z := if c1 x y =? 0 then c2 x y else c1 x y.
Definition before (c : Z -> Z -> Z) (x y : Z) : bool := c x y <? 0.

#[export] Instance colcmp_Comparison {V} (cmp : V -> V -> Z) `{!Comparison cmp} reverse val : Comparison (colcmp cmp reverse val).
Proof.
  unfold colcmp. split; intros; destruct reverse; try apply cmp_opposite; eapply cmp_trans; eassumption.
Qed.

#[export] Instance lexcmp_Comparison c1 c2 `{!Comparison c1} `{!Comparison c2} : Comparison (lexcmp c1 c2).
Proof.
  split; unfold lexcmp; intros x y.
  - pose proof (cmp_opposite (cmp := c1) x y). pose proof (cmp_opposite (cmp := c2) x y).
    destruct (Z.eqb_spec (c1 x y) 0), (Z.eqb_spec (c1 y x) 0); lia.
  - intros z. pose proof (cmp_opposite (cmp := c1) x y). pose proof (cmp_opposite (cmp := c1) y z). pose proof (cmp_opposite (cmp := c1) x z).
    pose proof (cmp_trans (cmp := c1) x y z). pose proof (cmp_trans (cmp := c1) z y x). pose proof (cmp_trans (cmp := c2) x y z).
    pose proof (cmp_trans (cmp := c1) y z x). pose proof (cmp_trans (cmp := c1) z x y).
    pose proof (cmp_trans (cmp := c1) y x z). pose proof (cmp_trans (cmp := c1) x z y).
    destruct (Z.eqb_spec (c1 x y) 0), (Z.eqb_spec (c1 y z) 0), (Z.eqb_spec (c1 x z) 0); lia.
Qed.

#[export] Instance before_WeakOrder c `{!Comparison c} : WeakOrder (before c).
Proof. exact (Comparison_WeakOrder c false _). Qed.

#[export] Instance alike_Comparison : Comparison (fun _ _ : Z => 0).
Proof. split; lia. Qed.

(** The order [o] of [n] rows, and their groups [g], by the comparison [c]. *)
Record ordered_by (c : Z -> Z -> Z) (n : nat) (o g : list Z) (stbl : Prop) : Prop := {
  ob_perm : Permutation (zrange 0 n) o;
  ob_length : List.length g = n;
  ob_sign : forall i j, (i < n)%nat -> (j < n)%nat -> Z.sgn (c (nth i o 0) (nth j o 0)) = Z.sgn (nth i g 0 - nth j g 0);
  ob_mono : forall i j, (i <= j < n)%nat -> nth i g 0 <= nth j g 0;
  ob_stable : stbl -> stable (before c) (zrange 0 n) o;
}.

Lemma combine_seq {X Y} (l : list X) (m : list Y) dx dy : List.length l = List.length m ->
  combine l m = map (fun i => (nth i l dx, nth i m dy)) (seq 0 (List.length l)).
Proof.
  revert m. induction l as [|x l IH]; intros [|y m] E; cbn in *; try discriminate; [reflexivity|].
  f_equal. rewrite <- seq_shift, map_map. apply IH. now injection E.
Qed.

Lemma StronglySorted_map {X Y} (f : X -> Y) (R : X -> X -> Prop) (R' : Y -> Y -> Prop) l :
  (forall x y, In x l -> In y l -> R x y -> R' (f x) (f y)) -> StronglySorted R l -> StronglySorted R' (map f l).
Proof.
  intros H S. induction l as [|x l IH]; [constructor|]. apply StronglySorted_inv in S as [S F]. cbn. constructor.
  - apply IH; [|exact S]. intros a b Ia Ib. apply H; now right.
  - apply Forall_map. rewrite Forall_forall in *. intros y I. apply H; [now left|now right|now apply F].
Qed.

Lemma stable_map {X Y} (f : X -> Y) (lt : X -> X -> bool) (lt' : Y -> Y -> bool) `{!WeakOrder lt} `{!WeakOrder lt'} l l' :
  (forall x y, In x l -> In y l -> lt x y = lt' (f x) (f y)) -> stable lt l l' -> stable lt' (map f l) (map f l').
Proof.
  intros H S z. pose proof (stable_Permutation lt l l' S) as P.
  assert (E : forall m x, incl m l -> In x l -> eqv lt' z (f x) = true -> filter (eqv lt' z) (map f m) = map f (filter (eqv lt x) m)).
  { intros m x Im Ix Ez. induction m as [|y m IH]; [reflexivity|]. cbn. rewrite IH by (intros u Iu; apply Im; now right).
    assert (Iy : In y l) by (apply Im; now left).
    assert (Q : eqv lt' z (f y) = eqv lt x y).
    { apply eq_true_iff_eq. unfold eqv at 2. rewrite (H x y Ix Iy), (H y x Iy Ix). fold (eqv lt' (f x) (f y)).
      rewrite !(eqv_iff lt') in *. destruct Ez as [E1 E2]. split; intros [A B]; split; eapply (ord_trans lt'); eassumption. }
    rewrite Q. now destruct (eqv lt x y). }
  destruct (existsb (fun x => eqv lt' z (f x)) l) eqn:Ex.
  - apply existsb_exists in Ex as (x & Ix & Ez). rewrite (E l x), (E l' x); auto using incl_refl; [now rewrite (S x)|].
    intros y I. now apply (Permutation_in y (Permutation_sym P)).
  - assert (N : forall m, incl m l -> filter (eqv lt' z) (map f m) = []).
    { intros m Im. apply filter_nil. intros y I. apply in_map_iff in I as (x & <- & I).
      destruct (eqv lt' z (f x)) eqn:Q; [|reflexivity]. rewrite <- Ex. symmetry. apply existsb_exists. exists x. auto. }
    rewrite (N l), (N l'); auto using incl_refl. intros y I. now apply (Permutation_in y (Permutation_sym P)).
Qed.

(** A finer comparison is stable when the coarser one is. *)
Lemma stable_finer (c1 c2 : Z -> Z -> Z) `{!Comparison c1} `{!Comparison c2} l l' :
  stable (before c1) l l' -> stable (before (lexcmp c1 c2)) l l'.
Proof.
  intros S z.
  assert (E : forall m, filter (eqv (before (lexcmp c1 c2)) z) m = filter (eqv (before (lexcmp c1 c2)) z) (filter (eqv (before c1) z) m)).
  { intros m. induction m as [|y m IH]; [reflexivity|]. cbn. destruct (eqv (before c1) z y) eqn:A; cbn; rewrite IH; [reflexivity|].
    destruct (eqv (before (lexcmp c1 c2)) z y) eqn:B; [exfalso|reflexivity].
    unfold eqv, before, lexcmp in *. pose proof (cmp_opposite (cmp := c1) z y).
    destruct (Z.eqb_spec (c1 z y) 0), (Z.eqb_spec (c1 y z) 0); lia. }
  now rewrite (E l), (E l'), (S z).
Qed.

Lemma sorted_nth {X} (lt : X -> X -> bool) `{!WeakOrder lt} l d i j : sorted lt l -> (i <= j < List.length l)%nat ->
  StableList.le lt (nth i l d) (nth j l d).
Proof.
  intros S. revert i j. induction l as [|x l IH]; intros i j I; cbn in I; [lia|]. apply StronglySorted_inv in S as [S F].
  destruct i as [|i], j as [|j]; cbn [nth]; [apply ord_refl; assumption| |lia|apply (IH S); lia].
  rewrite Forall_forall in F. apply F, nth_In. lia.
Qed.

Lemma nth_sorted {X} (lt : X -> X -> bool) l d : (forall i j, (i <= j < List.length l)%nat -> StableList.le lt (nth i l d) (nth j l d)) -> sorted lt l.
Proof.
  induction l as [|x l IH]; intros A; constructor.
  - apply IH. intros i j I. apply (A (S i) (S j)). cbn. lia.
  - apply Forall_forall. intros y I. apply (In_nth l y d) in I as (j & J & <-). apply (A 0%nat (S j)). cbn. lia.
Qed.

Section Step.

Context {V : Type} (a : atom V) `{!Comparison (ATOMcmp a)} `{!Hashable a} (raw : Z -> Z) (dflt : V).
#[local] Abbreviation cmp := (ATOMcmp a).

(** One more column: its values by oid, and the direction. *)
Context (c : Z -> Z -> Z) `{!Comparison c} (n : nat) (o g : list Z) (stbl : Prop) (val : Z -> V) (reverse : bool).
Context (Ob : ordered_by c n o g stbl) (size : Z.of_nat n <= 2 ^ 62).
#[local] Abbreviation finer := (lexcmp c (colcmp cmp reverse val)).

Definition member (i : nat) : Z * (V * Z) := (nth i g 0, (val (nth i o 0), nth i o 0)).
Definition members : list (Z * (V * Z)) := map member (seq 0 n).

Lemma length_order : List.length o = n.
Proof. rewrite <- (Permutation_length (ob_perm _ _ _ _ _ Ob)). apply zrange_length. Qed.

Lemma members_combine : combine g (combine (map val o) o) = members.
Proof.
  pose proof length_order as Lo. pose proof (ob_length _ _ _ _ _ Ob) as Lg.
  rewrite (combine_seq g _ 0 (val 0, 0)) by (rewrite length_combine, length_map; lia). rewrite Lg.
  apply map_ext_in. intros i I. apply in_seq in I. unfold member. f_equal.
  rewrite combine_nth by (now rewrite length_map). now rewrite (map_nth val o 0).
Qed.

Lemma fst_members : map fst members = g.
Proof.
  unfold members. rewrite map_map. cbn [fst member]. pose proof (ob_length _ _ _ _ _ Ob) as Lg.
  clear Ob size. revert g Lg. induction n as [|m IH]; intros [|x l] E; cbn in *; try discriminate; [reflexivity|].
  f_equal. rewrite <- seq_shift, map_map. apply IH. now injection E.
Qed.

Lemma snd_members : map (fun e => snd (snd e)) members = o.
Proof.
  unfold members. rewrite map_map. cbn [snd member]. pose proof length_order as Lo. clear Ob size.
  revert o Lo. induction n as [|m IH]; intros [|x l] E; cbn in *; try discriminate; [reflexivity|].
  f_equal. rewrite <- seq_shift, map_map. apply IH. now injection E.
Qed.

(** The order of the rows within their groups is the finer order of their oids. *)
Lemma members_lt e e' : In e members -> In e' members ->
  lex_lt (row_lt cmp reverse) e e' = before finer (snd (snd e)) (snd (snd e')).
Proof.
  intros I I'. apply in_map_iff in I as (i & <- & I), I' as (j & <- & J). apply in_seq in I, J.
  pose proof (ob_sign _ _ _ _ _ Ob i j ltac:(lia) ltac:(lia)) as S. unfold member, lex_lt, before, lexcmp. cbn [fst snd].
  destruct (Z.eqb_spec (c (nth i o 0) (nth j o 0)) 0) as [E|E].
  - replace (nth i g 0 <? nth j g 0) with false by lia. replace (nth i g 0 =? nth j g 0) with true by lia. cbn [orb andb].
    unfold row_lt, colcmp. cbn [fst]. pose proof (cmp_opposite (cmp := cmp) (val (nth i o 0)) (val (nth j o 0))). destruct reverse; lia.
  - replace (nth i g 0 =? nth j g 0) with false by lia. cbn [andb]. rewrite orb_false_r. lia.
Qed.

(** The rows after sorting. *)
Context (K : list (Z * (V * Z))) (Rg : regrouped (row_lt cmp reverse) stbl members K).
#[local] Abbreviation o' := (map (fun e => snd (snd e)) K).
#[local] Abbreviation vals' := (map (fun e => fst (snd e)) K).

Lemma K_in e : In e K -> In e members.
Proof. destruct Rg as (_ & _ & P & _). intros I. now apply (Permutation_in e (Permutation_sym P)). Qed.

Lemma K_length : List.length K = n.
Proof. destruct Rg as (_ & _ & P & _). rewrite <- (Permutation_length P). unfold members. now rewrite length_map, length_seq. Qed.

Lemma K_val e : In e K -> fst (snd e) = val (snd (snd e)).
Proof. intros I. apply K_in, in_map_iff in I as (i & <- & _). reflexivity. Qed.

Lemma K_perm : Permutation (zrange 0 n) o'.
Proof.
  destruct Rg as (_ & _ & P & _). rewrite (ob_perm _ _ _ _ _ Ob). rewrite <- snd_members at 1. now apply Permutation_map.
Qed.

Lemma K_stable : stbl -> stable (before finer) (zrange 0 n) o'.
Proof.
  intros s. destruct Rg as (_ & _ & P & S). transitivity o.
  - apply stable_finer; try typeclasses eauto. now apply (ob_stable _ _ _ _ _ Ob).
  - rewrite <- snd_members at 1. refine (stable_map _ (lex_lt (row_lt cmp reverse)) _ members K members_lt (S s)).
Qed.

Definition nth_K (i : nat) : Z * (V * Z) := nth i K (0, (dflt, 0)).

Lemma nth_K_in i : (i < n)%nat -> In (nth_K i) K.
Proof. intros I. apply nth_In. now rewrite K_length. Qed.

Lemma nth_order i : (i < n)%nat -> nth i o' 0 = snd (snd (nth_K i)).
Proof. intros I. unfold nth_K. now rewrite <- (map_nth (fun e => snd (snd e))). Qed.

Lemma nth_value i : (i < n)%nat -> nth i vals' dflt = fst (snd (nth_K i)).
Proof. intros I. unfold nth_K. now rewrite <- (map_nth (fun e => fst (snd e))). Qed.

Lemma nth_group i : (i < n)%nat -> nth i g 0 = fst (nth_K i).
Proof.
  intros I. destruct Rg as (E & _). rewrite fst_members in E. unfold nth_K. rewrite <- (map_nth fst). cbn [fst]. now rewrite E.
Qed.

(** Later rows do not precede earlier ones. *)
Lemma K_sorted i j : (i <= j < n)%nat -> finer (nth i o' 0) (nth j o' 0) <= 0.
Proof.
  intros I. destruct Rg as (_ & S & _). rewrite <- K_length in I.
  pose proof (sorted_nth _ K (0, (dflt, 0)) i j S I) as L. unfold StableList.le in L. rewrite K_length in I.
  rewrite members_lt in L by (apply K_in, nth_K_in; lia). fold (nth_K i) (nth_K j) in L.
  rewrite !nth_order by lia. unfold before in L. pose proof (cmp_opposite (cmp := finer) (snd (snd (nth_K i))) (snd (snd (nth_K j)))). lia.
Qed.

(** Rows are alike when the finer comparison does not tell them apart. *)
Lemma K_alike i j : (i < n)%nat -> (j < n)%nat ->
  ((nth i g 0 =? nth j g 0) && (cmp (nth i vals' dflt) (nth j vals' dflt) =? 0) = true <-> finer (nth i o' 0) (nth j o' 0) = 0).
Proof.
  intros I J. rewrite !nth_group, !nth_value, !nth_order by assumption.
  pose proof (members_lt _ _ (K_in _ (nth_K_in i I)) (K_in _ (nth_K_in j J))) as A.
  pose proof (members_lt _ _ (K_in _ (nth_K_in j J)) (K_in _ (nth_K_in i I))) as B.
  pose proof (cmp_opposite (cmp := finer) (snd (snd (nth_K i))) (snd (snd (nth_K j)))) as O.
  pose proof (cmp_opposite (cmp := cmp) (fst (snd (nth_K i))) (fst (snd (nth_K j)))) as O'.
  rewrite andb_true_iff, !Z.eqb_eq. unfold before, lex_lt, row_lt in A, B.
  destruct (nth_K i) as [ki [vi xi]], (nth_K j) as [kj [vj xj]]. cbn [fst snd] in *.
  destruct (Z.ltb_spec ki kj), (Z.ltb_spec kj ki), (Z.eqb_spec ki kj), (Z.eqb_spec kj ki); cbn [orb andb] in A, B; try lia; destruct reverse; lia.
Qed.

(** New groups that number like rows in order make the new order one by the finer comparison. *)
Lemma ordered_finer gn : List.length gn = n ->
  (forall i j, (i < n)%nat -> (j < n)%nat -> (nth i gn 0 = nth j gn 0 <-> finer (nth i o' 0) (nth j o' 0) = 0)) ->
  (forall i j, (i <= j < n)%nat -> nth i gn 0 <= nth j gn 0) ->
  ordered_by finer n o' gn stbl.
Proof.
  intros L S M. split; [exact K_perm|exact L| |exact M|exact K_stable].
  assert (W : forall i j, (i <= j < n)%nat -> Z.sgn (finer (nth i o' 0) (nth j o' 0)) = Z.sgn (nth i gn 0 - nth j gn 0)).
  { intros i j I. pose proof (K_sorted i j I). pose proof (S i j ltac:(lia) ltac:(lia)). pose proof (M i j I). lia. }
  intros i j I J. destruct (Nat.le_ge_cases i j) as [Le|Le]; [now apply W|].
  pose proof (W j i ltac:(lia)). pose proof (cmp_opposite (cmp := finer) (nth j o' 0) (nth i o' 0)). lia.
Qed.

End Step.

(** ** The groups after a sort *)

(** When neighbours are compared, the numbers ascend. *)
Lemma consecutive_sorted {V} (a : atom V) b g n : gsorted (consecutive a b g n) = true.
Proof.
  unfold consecutive. set (f := fun s i => _). assert (F : forall l s, gsorted s = true -> gsorted (fold_left f l s) = true).
  { induction l as [|i l IH]; intros s S; [exact S|]. apply IH. unfold f, like_previous. now destruct (_ || _). }
  apply F. reflexivity.
Qed.

Lemma subsorted_groups {V} (a : atom V) raw b g gn : (forall g0, g = Some g0 -> g_sorted g0 = true) ->
  BATgroup_internal a raw b None g None None false false true = Some gn -> gn_sorted gn = true.
Proof.
  intros S E. unfold BATgroup_internal in E. destruct (_ || _ || _) eqn:C1 in E; [now injection E as <-|].
  destruct (_ && negb _) eqn:C2 in E; [now injection E as <-|].
  destruct (_ && Bool.eqb _ _) eqn:C3 in E.
  - destruct g as [g0|]; [|discriminate]. injection E as <-. cbn. now apply S.
  - rewrite orb_true_r in E. injection E as <-. cbn [gn_sorted]. apply consecutive_sorted.
Qed.

(** What one call leaves for the next. *)
Record state (c : Z -> Z -> Z) (n : nat) (o : list Z) (gn : output) (stbl : Prop) : Prop := {
  st_ordered : ordered_by c n o (groups gn) stbl;
  st_describes : describes 0 n (fun i j => nth (Z.to_nat i) (groups gn) 0 =? nth (Z.to_nat j) (groups gn) 0)
                   (mkOut (groups gn) None None (gn_key gn) (gn_sorted gn) (gn_revsorted gn));
  st_sorted : gn_sorted gn = true;
}.

Section Regroup.

Context {V : Type} (a : atom V) `{!Comparison (ATOMcmp a)} `{!Hashable a} (raw : Z -> Z) (dflt : V).
#[local] Abbreviation cmp := (ATOMcmp a).
Context (c : Z -> Z -> Z) `{!Comparison c} (n : nat) (o g : list Z) (stbl : Prop) (val : Z -> V) (reverse : bool).
Context (Ob : ordered_by c n o g stbl) (size : Z.of_nat n <= 2 ^ 62).
Context (K : list (Z * (V * Z))) (Rg : regrouped (row_lt cmp reverse) stbl (members n o g val) K).
Context (gopt : option groups_in) (Gr : forall i, (i < n)%nat -> grp_of gopt (Z.of_nat i) = nth i g 0).
Context (Gd : forall g0, gopt = Some g0 -> g_sorted g0 = true /\ g_dense g0 = false /\
  describes 0 n (fun i j => grp_of gopt i =? grp_of gopt j) (mkOut (grps g0) None None (g_key g0) (g_sorted g0) (g_revsorted g0))).
Context (ts tr key : bool) (one : ts || tr = true -> forall i j, (i < n)%nat -> (j < n)%nat -> nth i g 0 = nth j g 0).
Context (up : ts = true -> reverse = false) (down : tr = true -> reverse = true).
Context (Key : key = true -> forall x y, 0 <= x < Z.of_nat n -> 0 <= y < Z.of_nat n -> x <> y -> cmp (val x) (val y) <> 0).
#[local] Abbreviation finer := (lexcmp c (colcmp cmp reverse val)).
#[local] Abbreviation o' := (map (fun e => snd (snd e)) K).
#[local] Abbreviation vals' := (map (fun e => fst (snd e)) K).

#[local] Ltac from L := intros; eapply L; eassumption.
Lemma value_at i : (i < n)%nat -> nth i vals' dflt = fst (snd (nth_K dflt K i)).
Proof. from @nth_value. Qed.
Lemma group_at i : (i < n)%nat -> nth i g 0 = fst (nth_K dflt K i).
Proof. from @nth_group. Qed.
Lemma order_at i : (i < n)%nat -> nth i o' 0 = snd (snd (nth_K dflt K i)).
Proof. from @nth_order. Qed.
Lemma val_at i : (i < n)%nat -> nth i vals' dflt = val (nth i o' 0).
Proof.
  intros I. rewrite value_at, order_at by exact I. eapply K_val; try eassumption. eapply nth_K_in; eassumption.
Qed.
Lemma perm_after : Permutation (zrange 0 n) o'.
Proof. eapply K_perm; eassumption. Qed.
Lemma ascending i j : (i <= j < n)%nat -> finer (nth i o' 0) (nth j o' 0) <= 0.
Proof. from @K_sorted. Qed.
Lemma rows_after : List.length K = n.
Proof. eapply K_length; eassumption. Qed.

Definition column_of : column V := mkColumn 0 n 0 (fun i => nth (Z.to_nat i) vals' dflt) ts tr key.

Lemma alike_of i j : 0 <= i < Z.of_nat n -> 0 <= j < Z.of_nat n ->
  alike a column_of gopt i j = true <-> finer (nth (Z.to_nat i) o' 0) (nth (Z.to_nat j) o' 0) = 0.
Proof.
  intros I J. unfold alike. cbn [column_of Value]. rewrite <- (Z2Nat.id i) at 1 by lia. rewrite <- (Z2Nat.id j) at 1 by lia.
  rewrite !Gr by lia. eapply K_alike; eassumption || lia.
Qed.

(** Within one group the values are in order. *)
Lemma values_ordered i j : 0 <= i <= j -> j < Z.of_nat n -> nth (Z.to_nat i) g 0 = nth (Z.to_nat j) g 0 ->
  if reverse then cmp (Value column_of j) (Value column_of i) <= 0 else cmp (Value column_of i) (Value column_of j) <= 0.
Proof.
  intros I J E. cbn [column_of Value]. set (i' := Z.to_nat i) in *. set (j' := Z.to_nat j) in *.
  assert (B : (i' <= j' < n)%nat) by lia. destruct Rg as (_ & S & _). pose proof rows_after as L.
  pose proof (sorted_nth _ K (0, (dflt, 0)) i' j' S ltac:(lia)) as Q.
  rewrite !group_at in E by lia. rewrite !value_at by lia. unfold nth_K in *.
  destruct (nth i' K _) as [ki [vi xi]], (nth j' K _) as [kj [vj xj]]. cbn [fst snd] in *.
  unfold StableList.le, lex_lt, row_lt in Q. cbn [fst snd] in Q. subst kj. rewrite Z.ltb_irrefl, Z.eqb_refl in Q. cbn [orb andb] in Q.
  pose proof (cmp_opposite (cmp := cmp) vi vj). destruct reverse; lia.
Qed.

Lemma column_input_ok : Group.input_ok a column_of gopt None None None true.
Proof.
  split; cbn [column_of first count tsorted trevsorted tkey hseqbase]; try (intros; discriminate).
  - lia.
  - intros T i j I J. unfold MergeJoin.le. pose proof (values_ordered i j I J (one ltac:(rewrite T; reflexivity) (Z.to_nat i) (Z.to_nat j) ltac:(lia) ltac:(lia))) as Q.
    rewrite (up T) in Q. lia.
  - intros T i j I J. unfold MergeJoin.le. pose proof (values_ordered i j I J (one ltac:(rewrite T; apply orb_true_r) (Z.to_nat i) (Z.to_nat j) ltac:(lia) ltac:(lia))) as Q.
    rewrite (down T) in Q. pose proof (cmp_opposite (cmp := cmp) (Value column_of i) (Value column_of j)). lia.
  - intros T i j I J. cbn [column_of Value]. rewrite !val_at by lia. pose proof perm_after as P.
    assert (Lo : List.length o' = n) by (rewrite length_map; apply rows_after).
    assert (R : forall k, (k < n)%nat -> 0 <= nth k o' 0 < Z.of_nat n).
    { intros k Hk. assert (In' : In (nth k o' 0) (zrange 0 n)) by (apply (Permutation_in _ (Permutation_sym P)), nth_In; lia).
      apply In_zrange in In'. lia. }
    apply (Key T); [apply R; lia|apply R; lia|]. intros E.
    apply (NoDup_nth o' 0) in E; [lia| |lia|lia]. apply (Permutation_NoDup P), zrange_NoDup.
  - intros g0 E. apply (Gd g0 E).
  - intros g0 E D. destruct (Gd g0 E) as (_ & Dn & _). congruence.
  - intros _ i j k I Hk. cbn [column_of count] in *. intros A.
    rewrite alike_of in A |- * by (cbn [count column_of] in *; lia).
    pose proof (ascending (Z.to_nat i) (Z.to_nat j) ltac:(lia)) as Q1.
    pose proof (ascending (Z.to_nat j) (Z.to_nat k) ltac:(lia)) as Q2.
    set (x := nth (Z.to_nat i) o' 0) in *. set (y := nth (Z.to_nat j) o' 0) in *. set (z := nth (Z.to_nat k) o' 0) in *.
    pose proof (cmp_trans (cmp := finer) z x y). pose proof (cmp_opposite (cmp := finer) x z). pose proof (cmp_opposite (cmp := finer) y z). lia.
Qed.

(** The groups of the sorted column are in the state for the next call. *)
Lemma regroup_state : exists gn,
  BATgroup_internal a raw column_of None gopt None None false false true = Some gn /\ state finer n o' gn stbl.
Proof.
  destruct (BATgroup_well a column_of gopt raw None None None false false true column_input_ok) as (gn & E & D & _).
  exists gn. split; [exact E|]. assert (S : gn_sorted gn = true) by (apply (subsorted_groups a raw column_of gopt gn); [intros g0 G; now apply Gd|exact E]).
  destruct D as [Dl Ds Dg Dk Do Dr]. cbn [column_of hseqbase count] in *. split; [|split; cbn [groups extents histo gn_key gn_sorted gn_revsorted]|exact S].
  - eapply ordered_finer; try eassumption.
    + intros i j I J. rewrite <- (Nat2Z.id i), <- (Nat2Z.id j), Ds by lia. rewrite alike_of by lia. now rewrite !Nat2Z.id.
    + intros i j I. rewrite <- (Nat2Z.id i), <- (Nat2Z.id j). apply (Do S); lia.
  - exact Dl.
  - intros i j I J. now rewrite Z.eqb_eq.
  - destruct Dg as (fs & D1 & D2 & _). exists fs. split; [exact D1|]. split; [exact D2|]. split; intros ? [=].
  - exact Dk.
  - exact Do.
  - exact Dr.
Qed.

End Regroup.

(** ** One call *)

Lemma combine_repeat {X Y} (x : X) (l : list Y) : combine (repeat x (List.length l)) l = map (pair x) l.
Proof. induction l as [|y l IH]; cbn; [reflexivity|]. now rewrite IH. Qed.

Lemma state_ext c c' n o gn stbl `{!Comparison c} `{!Comparison c'} : (forall x y, c x y = c' x y) -> state c n o gn stbl -> state c' n o gn stbl.
Proof.
  intros E [[P L S M St] D T]. split; [split|exact D|exact T]; [exact P|exact L| |exact M|].
  - intros i j I J. rewrite <- E. now apply S.
  - intros s z. rewrite <- !(filter_ext (eqv (before c) z) (eqv (before c') z)); [apply (St s)|..];
      intros y; unfold eqv, before; now rewrite !E.
Qed.

Section Call.

Context {V : Type} (a : atom V) `{!Comparison (ATOMcmp a)} `{!Hashable a} (raw : Z -> Z) (dflt : V).
Context (sort : bool -> bool -> bool -> list (V * Z) -> option (list (V * Z))) (starved : Prop) `{!Sorter (ATOMcmp a) starved sort}.
Context (fetch_flags : table V -> list Z -> bool * bool * bool).
#[local] Abbreviation cmp := (ATOMcmp a).
Context (n : nat) (size : Z.of_nat n <= 2 ^ 62) (stbl : bool).

Definition value_in (b : table V) (x : Z) : V := nth (Z.to_nat x) (t_vals b) dflt.

(** Columns of [n] rows, with flags that are true. *)
Definition distinct (l : list V) : Prop := forall i j, (i < j < List.length l)%nat -> cmp (nth i l dflt) (nth j l dflt) <> 0.
Record table_ok (b : table V) : Prop := {
  tb_rows : List.length (t_vals b) = n;
  tb_key : t_key b = true -> distinct (t_vals b);
  tb_fetch_key : forall o, snd (fetch_flags b o) = true -> distinct (fetch dflt b o);
}.

(** And with a head that starts at oid 0: an order counts rows from zero, and the
    next call reads it as oids of the head. *)
Definition numbered (b : table V) : Prop := t_hseq b = 0 /\ table_ok b.

(** What a call yields: only the stable sort fails. *)
Definition failed : Prop := stbl = true /\ (starved \/ 2 ^ 21 < Z.of_nat n).
Definition yields (c : Z -> Z -> Z) (b : table V) (r : answer V) : Prop :=
  match r with
  | Gives s => exists o gn, s_order s = Some o /\ s_groups s = Some gn /\ s_vals s = map (value_in b) o /\ state c n o gn (stbl = true)
  | Refused => failed
  | Crash | Nothing => False
  end.

Lemma fetch_values (b : table V) o : numbered b -> fetch dflt b o = map (value_in b) o.
Proof. intros T. unfold fetch, value_in. rewrite (proj1 T). apply map_ext. intros x. now rewrite Z.sub_0_r. Qed.

Lemma values_in_order (b : table V) : numbered b -> map (value_in b) (zrange 0 n) = t_vals b.
Proof.
  intros T. rewrite <- (tb_rows b (proj2 T)). clear T. unfold value_in. apply nth_ext with (d := dflt) (d' := dflt).
  - now rewrite length_map, zrange_length.
  - intros i I. rewrite length_map, zrange_length in I.
    rewrite (nth_indep _ dflt (value_in b 0)) by (now rewrite length_map, zrange_length). unfold value_in.
    rewrite (map_nth (fun x => nth (Z.to_nat x) (t_vals b) dflt)), nth_zrange by exact I. f_equal. lia.
Qed.

(** Distinct values of a permutation of the rows. *)
Lemma distinct_rows (b : table V) o : Permutation (zrange 0 n) o -> distinct (map (value_in b) o) ->
  forall x y, 0 <= x < Z.of_nat n -> 0 <= y < Z.of_nat n -> x <> y -> cmp (value_in b x) (value_in b y) <> 0.
Proof.
  intros P D x y X Y N.
  destruct (In_nth o x 0) as (i & I & Ei); [apply (Permutation_in _ P), zrange_In; lia|].
  destruct (In_nth o y 0) as (j & J & Ej); [apply (Permutation_in _ P), zrange_In; lia|].
  assert (Q : forall i j, (i < j < List.length o)%nat -> cmp (value_in b (nth i o 0)) (value_in b (nth j o 0)) <> 0).
  { clear - D. intros i j I. specialize (D i j). rewrite length_map in D. specialize (D I).
    rewrite !(nth_indep _ dflt (value_in b 0)) in D by (rewrite length_map; lia). now rewrite !map_nth in D. }
  subst x y. pose proof (cmp_opposite (cmp := cmp) (value_in b (nth i o 0)) (value_in b (nth j o 0))).
  destruct (Nat.lt_trichotomy i j) as [L|[->|L]]; [apply (Q i j); lia|now destruct N|pose proof (Q j i ltac:(lia)); lia].
Qed.

(** The end of a call: the groups of the rows [K], sorted within the groups [g]. *)
Lemma regroup_yields c `{!Comparison c} o g b reverse K gopt ts tr key :
  numbered b -> ordered_by c n o g (stbl = true) -> regrouped (row_lt cmp reverse) (stbl = true) (members n o g (value_in b)) K ->
  (forall i, (i < n)%nat -> grp_of gopt (Z.of_nat i) = nth i g 0) ->
  (forall g0, gopt = Some g0 -> g_sorted g0 = true /\ g_dense g0 = false /\
    describes 0 n (fun i j => grp_of gopt i =? grp_of gopt j) (mkOut (grps g0) None None (g_key g0) (g_sorted g0) (g_revsorted g0))) ->
  (ts || tr = true -> forall i j, (i < n)%nat -> (j < n)%nat -> nth i g 0 = nth j g 0) ->
  (ts = true -> reverse = false) -> (tr = true -> reverse = true) ->
  (key = true -> exists o0, Permutation (zrange 0 n) o0 /\ distinct (map (value_in b) o0)) ->
  yields (lexcmp c (colcmp cmp reverse (value_in b))) b
    (regroup a raw dflt (t_hseq b) (map fst (map snd K)) ts tr key gopt true (Some (map snd (map snd K)))).
Proof.
  intros T Ob Rg Gr Gd one up down Ky.
  assert (L : List.length (map fst (map snd K)) = n) by (rewrite !length_map; eapply K_length; eassumption).
  unfold regroup. rewrite L, (proj1 T).
  destruct (regroup_state a raw dflt c n o g (stbl = true) (value_in b) reverse Ob size K Rg gopt Gr Gd ts tr key one up down) as (gn & E & S).
  { intros k. destruct (Ky k) as (o0 & P & D). now apply (distinct_rows b o0). }
  unfold column_of in E. rewrite !map_map in *. rewrite E. cbn [yields s_order s_groups s_vals]. exists (map (fun e => snd (snd e)) K), gn.
  split; [reflexivity|]. split; [reflexivity|]. split; [|exact S]. rewrite map_map. apply map_ext_in. intros e I.
  eapply K_val; eassumption.
Qed.

(** One row, or none. *)
Lemma trivial_yields c `{!Comparison c} b so rs kf r : (n <= 1)%nat -> numbered b ->
  yields c b (Gives (mkSub (t_vals b) so rs kf (Some (zrange 0 n)) (Some (mkOut (zrange 0 n) None None true true r)))).
Proof.
  intros N T. eexists _, _. split; [reflexivity|]. split; [reflexivity|]. split; [cbn; now rewrite values_in_order|].
  split; [split|split|reflexivity]; cbn [groups extents histo gn_key gn_sorted gn_revsorted].
  - reflexivity.
  - apply zrange_length.
  - intros i j I J. replace i with 0%nat by lia. replace j with 0%nat by lia.
    pose proof (cmp_opposite (cmp := c) (nth 0 (zrange 0 n) 0) (nth 0 (zrange 0 n) 0)). lia.
  - intros i j I. replace i with j by lia. lia.
  - discriminate || (intros _; reflexivity).
  - apply zrange_length.
  - intros i j I J. now rewrite Z.eqb_eq.
  - exists (zrange 0 n). rewrite zrange_length. repeat split; try discriminate; rewrite ?nth_zrange by lia; try lia.
    rewrite (nth_zrange n 0 k), nth_zrange by lia. lia.
  - intros _. apply zrange_NoDup.
  - intros _ i j I J. now replace i with j by lia.
  - intros _ i j I J. now replace i with j by lia.
Qed.

Lemma sort_fails reverse l : (List.length l <= n)%nat -> sort true reverse stbl l = None -> failed.
Proof.
  intros L E. destruct (sorter_fails (sort := sort) true reverse stbl l) as (B & F); [unfold short; lia|exact E|].
  split; [exact B|]. destruct F as [F|F]; [now left|right; lia].
Qed.

Lemma sort_runs_fails reverse l : forall prev cur, (List.length cur + List.length l <= n)%nat ->
  sort_runs (sort true reverse stbl) prev cur l = None -> failed.
Proof.
  induction l as [|[k x] l IH]; intros prev cur L; cbn [sort_runs List.length] in *; [apply sort_fails; lia|].
  destruct (k =? prev); [apply IH; rewrite length_app; cbn [List.length]; lia|].
  destruct (sort true reverse stbl cur) eqn:E; [|intros _; apply (sort_fails reverse cur); [lia|exact E]].
  destruct (sort_runs _ k [x] l) eqn:F; [discriminate|intros _; apply (IH k [x]); [cbn [List.length]; lia|exact F]].
Qed.

(** The sort of the rows of one group, which have tails. *)
Lemma sort_rows reverse l l' : short l -> sort true reverse stbl l = Some l' ->
  sorted (row_lt cmp reverse) l' /\ Permutation l l' /\ (stbl = true -> stable (row_lt cmp reverse) l l').
Proof.
  intros Sh E. assert (T : tailed true l) by (apply Forall_forall; discriminate).
  destruct (sorter_sorts true reverse stbl l l' Sh T E) as (S & P). split; [exact S|]. split; [exact P|].
  intros B. rewrite B in E. now apply (sorter_stable true reverse l l' Sh T).
Qed.

(** Without an earlier order all rows are in one group. *)
Lemma all_alike : ordered_by (fun _ _ => 0) n (zrange 0 n) (repeat 0 n) (stbl = true).
Proof.
  split; [reflexivity|apply repeat_length| | |intros _ z; reflexivity]; intros; rewrite !nth_repeat_lt by lia; lia.
Qed.

Lemma first_call b reverse ws : numbered b ->
  yields (lexcmp (fun _ _ => 0) (colcmp cmp reverse (value_in b))) b
    (BATsubsort a raw sort fetch_flags dflt b None None ws true true reverse stbl).
Proof.
  intros T. unfold BATsubsort. rewrite (tb_rows b (proj2 T)). cbn [negb orb andb]. rewrite !orb_true_r, andb_false_r. cbn [negb].
  destruct (Nat.leb_spec n 1) as [N|N]; [apply trivial_yields; auto; typeclasses eauto|]. cbn [orb].
  unfold subsort. rewrite (tb_rows b (proj2 T)). cbn [negb].
  destruct (sort true reverse stbl (combine (t_vals b) (zrange 0 n))) as [l|] eqn:E.
  2:{ apply (sort_fails reverse) in E; [exact E|]. rewrite length_combine, zrange_length. lia. }
  pose proof (members_combine _ n _ _ _ (value_in b) all_alike) as M. rewrite values_in_order in M by exact T.
  replace (combine (repeat 0 n) (combine (t_vals b) (zrange 0 n))) with (keyed 0 (combine (t_vals b) (zrange 0 n))) in M.
  2:{ unfold keyed. rewrite <- combine_repeat, length_combine, zrange_length, (tb_rows b (proj2 T)), Nat.min_id. reflexivity. }
  replace l with (map snd (keyed 0 l)) by (unfold keyed; rewrite map_map; apply map_id).
  refine (regroup_yields _ _ _ b reverse (keyed 0 l) None _ _ _ T all_alike _ _ _ _ _ _ _).
  - rewrite <- M. apply (srt_keyed _ _ (sort true reverse stbl) (sort_rows reverse)); [|exact E].
    unfold short. rewrite length_combine, zrange_length. lia.
  - intros i I. now rewrite nth_repeat_lt.
  - intros ? [=].
  - intros _ i j I J. now rewrite !nth_repeat_lt.
  - now destruct reverse.
  - easy.
  - intros k. exists (zrange 0 n). split; [reflexivity|]. rewrite values_in_order by exact T. now apply (tb_key b (proj2 T)).
Qed.

(** Rows that are in one run are in one group. *)
Lemma one_run_alike gs : one_run (hd 0 gs) (tl gs) = true ->
  forall i j, (i < List.length gs)%nat -> (j < List.length gs)%nat -> nth i gs 0 = nth j gs 0.
Proof.
  destruct gs as [|k gs]; cbn [hd tl List.length]; [lia|]. unfold one_run. rewrite forallb_forall. intros A.
  assert (E : forall i, (i < S (List.length gs))%nat -> nth i (k :: gs) 0 = k).
  { intros [|i] I; [reflexivity|]. apply Z.eqb_eq, A. cbn [nth]. apply nth_In. lia. }
  intros i j I J. now rewrite !E.
Qed.

(** Groups in which every row is alone need no sorting. *)
Lemma key_state c `{!Comparison c} reverse b o gn : state c n o gn (stbl = true) -> gn_key gn = true ->
  state (lexcmp c (colcmp cmp reverse (value_in b))) n o (mkOut (groups gn) None None (gn_key gn) (gn_sorted gn) (gn_revsorted gn)) (stbl = true).
Proof.
  intros [[P L S M St] D T] K. pose proof (d_key _ _ _ _ D K) as N. cbn [groups] in N.
  split; [split; cbn [groups]|exact D|exact T]; [exact P|exact L| |exact M|].
  - intros i j I J. pose proof (S i j I J) as Sg. unfold lexcmp.
    destruct (Z.eqb_spec (c (nth i o 0) (nth j o 0)) 0) as [E|E]; [|exact Sg].
    assert (i = j) as <- by (apply (NoDup_nth (groups gn) 0); try assumption; lia).
    rewrite Z.sub_diag. unfold colcmp. pose proof (cmp_opposite (cmp := cmp) (value_in b (nth i o 0)) (value_in b (nth i o 0))).
    destruct reverse; lia.
  - intros B. apply stable_finer; [exact _|exact _|now apply St].
Qed.

Lemma ascending_sorted l : (forall i j, (i <= j < List.length l)%nat -> nth i l 0 <= nth j l 0) -> StronglySorted Z.le l.
Proof.
  induction l as [|x l IH]; intros A; constructor.
  - apply IH. intros i j I. apply (A (S i) (S j)). cbn. lia.
  - apply Forall_forall. intros y I. apply (In_nth l y 0) in I as (j & J & <-). apply (A 0%nat (S j)). cbn. lia.
Qed.

(** A later call refines the order and the groups of the earlier ones. *)
Lemma next_call c `{!Comparison c} b reverse ws o gn : numbered b -> state c n o gn (stbl = true) ->
  yields (lexcmp c (colcmp cmp reverse (value_in b))) b
    (BATsubsort a raw sort fetch_flags dflt b (Some o) (Some (earlier gn)) ws true true reverse stbl).
Proof.
  intros T S. pose proof S as [Ob D Sd]. pose proof (ob_perm _ _ _ _ _ Ob) as P. pose proof (ob_length _ _ _ _ _ Ob) as Lg.
  assert (Lo : List.length o = n) by (rewrite <- (Permutation_length P); apply zrange_length).
  unfold BATsubsort. rewrite (tb_rows b (proj2 T)), Lo, Nat.eqb_refl. cbn [negb earlier g_sorted]. rewrite Sd, !orb_true_r. cbn [negb].
  destruct (Nat.leb_spec n 1) as [N|N]; [apply trivial_yields; auto; typeclasses eauto|].
  unfold subsort. pose proof (tb_fetch_key b (proj2 T) o) as Fk. destruct (fetch_flags b o) as [[bs br] bk]. cbn [snd] in Fk. rewrite (fetch_values b o T). cbn [earlier g_key g_dense g_sorted g_revsorted grps]. rewrite orb_false_r.
  destruct (gn_key gn) eqn:K.
  { eexists o, _. split; [reflexivity|]. split; [reflexivity|]. split; [reflexivity|]. 
    pose proof (key_state c reverse b o gn S K) as Q. rewrite K in Q. exact Q. }
  destruct (sort_runs _ _ _ _) as [l|] eqn:E.
  2:{ apply sort_runs_fails in E; [exact E|]. rewrite length_firstn, !length_combine, !length_tl, !length_combine, length_map. lia. }
  assert (Ne : exists k gs v vs, groups gn = k :: gs /\ combine (map (value_in b) o) o = v :: vs).
  { destruct (groups gn) as [|k gs]; cbn in Lg; [lia|]. destruct o as [|x o']; cbn in Lo; [lia|]. repeat eexists. }
  destruct Ne as (k & gs & v & vs & Eg & Ev). rewrite Eg, Ev in *. cbn [hd tl firstn] in *.
  pose proof (members_combine c n o _ _ (value_in b) Ob) as M. rewrite Ev in M. cbn [combine] in M.
  destruct (sort_runs_spec (row_lt cmp reverse) (stbl = true) _ (sort_rows reverse) (combine gs vs) k [v] l) as (K' & <- & Rg).
  - assert (F : map fst ((k, v) :: combine gs vs) = k :: gs) by (rewrite M; now apply (fst_members c n o _ (stbl = true))).
    cbn [map fst] in F. rewrite F. apply ascending_sorted. intros i j I. apply (ob_mono _ _ _ _ _ Ob). lia.
  - assert (F : List.length ((k, v) :: combine gs vs) = n) by (rewrite M; unfold members; now rewrite length_map, length_seq).
    unfold short. cbn [List.length app] in *. rewrite length_map. lia.
  - exact E.
  - cbn [keyed map app] in Rg. rewrite M in Rg.
    refine (regroup_yields c o (k :: gs) b reverse K' (Some _) _ _ _ T Ob Rg _ _ _ _ _ _).
    + intros i I. cbn [grp_of grps]. rewrite Nat2Z.id. cbn [earlier grps]. now rewrite Eg.
    + intros g0 [= <-]. cbn [earlier g_sorted g_dense g_key g_revsorted grps grp_of]. split; [exact Sd|]. split; [reflexivity|]. rewrite Eg, K. exact D.
    + intros O i j I J. apply one_run_alike; cbn [hd tl]; try (cbn in *; lia). destruct (one_run k gs); [reflexivity|discriminate].
    + intros O. apply andb_true_iff in O as [_ O]. now destruct reverse.
    + intros O. now apply andb_true_iff in O as [_ O].
    + intros F. exists o. split; [exact P|]. rewrite <- (fetch_values b o T). now apply Fk.
Qed.

(** ** Calls in a row *)

(** What a client does to sort by several columns: a call for each, with the
    order and the groups that the call before returned. *)
Fixpoint order_by (cols : list (table V * bool)) (st : option (list Z * output)) : option (list Z * output) :=
  match cols with
  | [] => st
  | (b, reverse) :: cols =>
      match BATsubsort a raw sort fetch_flags dflt b (option_map fst st) (option_map (fun x => earlier (snd x)) st) false true true reverse stbl with
      | Gives s => match s_order s, s_groups s with Some o, Some gn => order_by cols (Some (o, gn)) | _, _ => None end
      | _ => None
      end
  end.

(** Rows compared by the first column that tells them apart. *)
Fixpoint lex (cols : list (table V * bool)) (x y : Z) : Z :=
  match cols with
  | [] => 0
  | (b, reverse) :: cols => lexcmp (colcmp cmp reverse (value_in b)) (lex cols) x y
  end.

#[export] Instance lex_Comparison cols : Comparison (lex cols).
Proof. induction cols as [|[b reverse] cols IH]; cbn [lex]; [exact alike_Comparison|]. apply lexcmp_Comparison; exact _. Qed.

Lemma order_by_state cols : Forall (fun x => numbered (fst x)) cols -> forall c `{!Comparison c} o gn, state c n o gn (stbl = true) ->
  match order_by cols (Some (o, gn)) with
  | Some (o', gn') => state (lexcmp c (lex cols)) n o' gn' (stbl = true)
  | None => failed
  end.
Proof.
  induction 1 as [|[b reverse] cols T _ IH]; intros c Cc o gn S; cbn [order_by option_map fst snd lex].
  - apply (state_ext c); try exact _; [|exact S]. intros x y. unfold lexcmp. now destruct (Z.eqb_spec (c x y) 0).
  - pose proof (next_call c b reverse false o gn T S) as Y.
    destruct (BATsubsort _ _ _ _ _ _ _ _ _ _ _ _ _) as [| | |s]; cbn [yields] in Y; try contradiction; [exact Y|].
    destruct Y as (o1 & gn1 & -> & -> & _ & S1). specialize (IH _ _ _ _ S1). destruct (order_by cols _) as [[o' gn']|]; [|exact IH].
    refine (state_ext _ _ _ _ _ _ _ IH). intros x y. unfold lexcmp.
    destruct (Z.eqb_spec (c x y) 0) as [E|E]; [reflexivity|]. now rewrite (proj2 (Z.eqb_neq _ _) E).
Qed.

Lemma state_sorts c `{!Comparison c} o gn : state c n o gn (stbl = true) ->
  Permutation (zrange 0 n) o /\ sorted (before c) o /\ gn_sorted gn = true
  /\ (forall i j, (i < n)%nat -> (j < n)%nat -> (nth i (groups gn) 0 = nth j (groups gn) 0 <-> c (nth i o 0) (nth j o 0) = 0))
  /\ (stbl = true -> o = isort (before c) (zrange 0 n)).
Proof.
  intros [[P L S M St] D T]. assert (Lo : List.length o = n) by (rewrite <- (Permutation_length P); apply zrange_length).
  assert (So : sorted (before c) o).
  { apply (nth_sorted _ o 0). intros i j I. unfold StableList.le, before.
    pose proof (S j i ltac:(lia) ltac:(lia)). pose proof (M i j ltac:(lia)). lia. }
  split; [exact P|]. split; [exact So|]. split; [exact T|]. split.
  - intros i j I J. pose proof (S i j I J). lia.
  - intros B. apply (stable_isort _); [exact So|now apply St].
Qed.

End Call.


(** ** The sort functions satisfy the interface *)

Lemma seg_list {X} (l : list X) d : seg (fun k => nth (Z.to_nat k) l d) 0 (Z.of_nat (List.length l)) = l.
Proof.
  unfold seg. rewrite Nat2Z.id. apply nth_ext with (d := d) (d' := d); [now rewrite length_map, length_seq|].
  intros i I. rewrite length_map, length_seq in I. rewrite (nth_indep _ d (nth (Z.to_nat (0 + Z.of_nat 0)) l d)) by (now rewrite length_map, length_seq).
  rewrite (map_nth (fun i => nth (Z.to_nat (0 + Z.of_nat i)) l d)), seq_nth by exact I. f_equal. lia.
Qed.

Lemma rows_list {X} (l : list (X * Z)) d : Sort.rows 0 (List.length l) (mkArrays (fun k => fst (nth k l d)) (fun k => snd (nth k l d))) = l.
Proof.
  unfold Sort.rows. cbn [heads tails]. apply nth_ext with (d := d) (d' := d); [now rewrite length_map, length_seq|].
  intros i I. rewrite length_map, length_seq in I. rewrite (nth_indep _ d (fst (nth 0 l d), snd (nth 0 l d))) by (now rewrite length_map, length_seq).
  rewrite (map_nth (fun i => (fst (nth i l d), snd (nth i l d)))), seq_nth by exact I. now rewrite <- surjective_pairing.
Qed.

Lemma tailed_rows {X} (l : list (X * Z)) : Forall (fun r => snd r = 0) l -> l = map (fun h => (h, 0)) (map fst l).
Proof. induction 1 as [|[h z] l E _ IH]; cbn in *; [reflexivity|]. now rewrite E, <- IH. Qed.

Section SortFunctions.

Context {V : Type} (atomCmp : V -> V -> Z) (fltCmp : Z -> Z -> Z) `{!Comparison atomCmp} `{!Comparison fltCmp} (at_base at_slot : Z -> V).
Context (varsized base : bool) (st : storage) (i : instance) (heap : bool) (hs ts : Z).
Context (halfH halfT : Z -> Z -> Z) (malloc : Z -> bool) (freshh fresht : Z -> Z) (junk : Z -> Z * Z).
Context (narrow : hs <> 16 /\ ts <> 16 /\ ts <> 0).

(** The order of the slots that both sort functions of the type agree on. *)
Context (cmp : Z -> Z -> Z) `{!Comparison cmp}.
Context (same_quick : forall x y, instance_cmp atomCmp fltCmp at_base at_slot varsized base st x y = cmp x y).
Context (same_stable : forall reverse x y, ISLT_of atomCmp fltCmp at_base at_slot i heap reverse x y = if reverse then cmp x y >? 0 else cmp x y <? 0).
#[local] Abbreviation sorts := (do_sort atomCmp fltCmp at_base at_slot varsized base st i heap hs ts halfH halfT malloc freshh fresht junk).

Lemma do_sort_quick t reverse l : exists l', sorts t reverse false l = Some l' /\
  (tailed t l -> sorted (row_lt cmp reverse) l' /\ Permutation l l').
Proof.
  unfold do_sort. destruct (Nat.leb_spec (List.length l) 1) as [N|N].
  { exists l. split; [reflexivity|]. intros _. split; [|reflexivity]. destruct l as [|x [|y l]]; cbn in N; [constructor|repeat constructor|lia]. }
  set (s := mkArrays _ _). pose proof (instance_cmp_Comparison atomCmp fltCmp at_base at_slot varsized base st _ _) as C.
  assert (Q : exists s', (if reverse then GDKqsort_rev (T := Z) (V := V) else GDKqsort) atomCmp fltCmp at_base at_slot varsized base st t ts (List.length l) s = Some s'
    /\ sorted_copy (instance_cmp atomCmp fltCmp at_base at_slot varsized base st) reverse (t && negb (ts =? 0)) (List.length l) s s').
  { destruct reverse; now apply impl_sorted_copy. }
  destruct Q as (s' & E & S & A & B & _). rewrite E. exists (Sort.rows 0 (List.length l) s'). split; [reflexivity|]. intros T. split.
  - apply (nth_sorted _ _ (heads s' 0%nat, tails s' 0%nat)). unfold Sort.rows. rewrite length_map, length_seq. intros j k I.
    rewrite !(map_nth (fun i => (heads s' i, tails s' i))), !seq_nth by lia. specialize (S j k ltac:(lia)).
    unfold StableList.le, row_lt. cbn [fst]. rewrite !same_quick in S. pose proof (cmp_opposite (cmp := cmp) (heads s' j) (heads s' k)).
    destruct reverse; cbn [Nat.add]; lia.
  - rewrite <- (rows_list l (0, 0)) at 1. fold s. destruct t.
    + apply A. apply negb_true_iff, Z.eqb_neq, narrow.
    + destruct (B eq_refl) as (P & Q). unfold tailed in T.
      assert (T0 : Forall (fun r => snd r = 0) l) by (apply (Forall_impl _ (P := fun r => false = false -> snd r = 0)); [intros r G; now apply G|exact T]).
      assert (Z0 : forall k, tails s k = 0).
      { intros k. cbn [s tails]. destruct (Nat.lt_ge_cases k (List.length l)) as [L|L]; [|now rewrite nth_overflow].
        rewrite Forall_forall in T0. now apply T0, nth_In. }
      unfold Sort.rows. rewrite (map_ext (fun i => (heads s i, tails s i)) (fun i => (fun h => (h, 0)) (heads s i))) by (intros k; now rewrite Z0).
      rewrite (map_ext (fun i => (heads s' i, tails s' i)) (fun i => (fun h => (h, 0)) (heads s' i))) by (intros k; now rewrite Q, Z0).
      rewrite <- !(map_map (heads _) (fun h => (h, 0))). now apply Permutation_map.
Qed.

Lemma do_sort_stable t reverse l : short l ->
  match sorts t reverse true l with
  | Some l' => sorted (row_lt cmp reverse) l' /\ stable (row_lt cmp reverse) l l'
  | None => (exists k, malloc k = false) \/ 2 ^ 21 < Z.of_nat (List.length l)
  end.
Proof.
  intros Sh. unfold do_sort. destruct (Nat.leb_spec (List.length l) 1) as [N|N].
  { split; [|reflexivity]. destruct l as [|x [|y l]]; cbn in N; [constructor|repeat constructor|lia]. }
  pose proof (ISLT_of_WeakOrder atomCmp fltCmp at_base at_slot i heap reverse _ _) as W.
  set (m := fun k => nth (Z.to_nat k) l (0, 0)). set (n := Z.of_nat (List.length l)).
  assert (S : sorts_stably (ISLT_of atomCmp fltCmp at_base at_slot i heap reverse) malloc m n
    ((if reverse then GDKssort_rev (T := Z) (V := V) else GDKssort) atomCmp fltCmp at_base at_slot halfH halfT hs ts malloc freshh fresht i heap m junk n)).
  { unfold short in Sh. destruct reverse; apply GDKssortimpl_spec; try exact W; try apply narrow; unfold n; lia. }
  match goal with Q : sorts_stably _ _ _ _ ?o |- _ => destruct o as [s|s|s|] end; cbn [sorts_stably result_of] in *; [|now left|now right|contradiction].
  destruct S as [-> _]. unfold m, n. rewrite seg_list.
  assert (X : forall x y, ISLT (ISLT_of atomCmp fltCmp at_base at_slot i heap reverse) x y = row_lt cmp reverse x y) by (intros; apply same_stable).
  assert (W' : WeakOrder (ISLT (ISLT_of (V := V) atomCmp fltCmp at_base at_slot i heap reverse) (T := Z))) by exact (WeakOrder_via _ fst W).
  pose proof (isort_spec (ISLT (ISLT_of atomCmp fltCmp at_base at_slot i heap reverse)) l) as (I1 & I2). split.
  - rewrite <- map_id. refine (StronglySorted_map (fun x => x) _ _ _ (fun x y _ _ L => eq_trans (eq_sym (X y x)) L) I2).
  - intros z. rewrite <- !(filter_ext (eqv (ISLT (ISLT_of atomCmp fltCmp at_base at_slot i heap reverse)) z) (eqv (row_lt cmp reverse) z)); [apply (I1 z)|..];
      intros y; unfold eqv; now rewrite !X.
Qed.

#[export] Instance do_sort_Sorter : Sorter cmp (exists k, malloc k = false) sorts.
Proof.
  split.
  - intros t reverse [|] l l' Sh T E.
    + pose proof (do_sort_stable t reverse l Sh) as Q. rewrite E in Q. split; [apply Q|]. apply (stable_Permutation (row_lt cmp reverse)), Q.
    + destruct (do_sort_quick t reverse l) as (l2 & E2 & Q). rewrite E in E2. injection E2 as ->. exact (Q T).
  - intros t reverse l l' Sh _ E. pose proof (do_sort_stable t reverse l Sh) as Q. rewrite E in Q. apply Q.
  - intros t reverse [|] l Sh E.
    + pose proof (do_sort_stable t reverse l Sh) as Q. rewrite E in Q. now split.
    + destruct (do_sort_quick t reverse l) as (l2 & E2 & _). congruence.
Qed.

End SortFunctions.

(** ** Examples *)

(** Integers with memory for everything. *)
Abbreviation sort_int := (do_sort (V := Z) num_cmp num_cmp (fun x => x) (fun x => x) false false ST_int I_int false 4 8
  (fun s d => s) (fun s d => s) (fun _ => true) (fun _ => 0) (fun _ => 0) (fun _ => (0, 0))).
Abbreviation int_subsort := (BATsubsort (int_atom ST_int) (fun _ => 0) sort_int (fun _ _ => (false, false, false)) 0).

#[export] Instance sort_int_Sorter : Sorter num_cmp (exists k : Z, true = false) sort_int.
Proof.
  exact (do_sort_Sorter num_cmp num_cmp (fun x => x) (fun x => x) false false ST_int I_int false 4 8 (fun s d => s) (fun s d => s) (fun _ => true)
    (fun _ => 0) (fun _ => 0) (fun _ => (0, 0)) ltac:(repeat split; discriminate) num_cmp (fun _ _ => eq_refl) (fun _ _ _ => eq_refl)).
Qed.

(** A column from row zero on whose flags are not set. *)
Definition plain_table (l : list Z) : table Z := mkTable 0 l false false false.
Lemma plain_table_ok l : table_ok (int_atom ST_int) 0 (fun _ _ => (false, false, false)) (List.length l) (plain_table l).
Proof. split; [reflexivity|discriminate|discriminate]. Qed.

Definition sample_columns : list (table Z * bool) := [(plain_table [2; 1; 2; 1; 3], false); (plain_table [5; 6; 4; 6; 1], true)].


(** ** What the theorem leaves out *)

(** A column that is sorted already is returned as it is when no groups are
    asked for, even when it is to be sorted in descending order. *)
Lemma descending_ignored : exists s,
  int_subsort (mkTable 0 [1; 2; 3] true false false) None None true true false true false = Gives s
  /\ s_vals s = [1; 2; 3] /\ s_order s = Some [0; 1; 2].
Proof. eexists. vm_compute. auto. Qed.

(** The size of the order is tested in the place of the size of the groups:
    groups without an order, which the comment allows, are fatal. *)
Lemma groups_without_order :
  int_subsort (plain_table [1; 2; 3]) None (Some (mkGroupsIn [0; 0; 1] true false false false)) true true true false false = Crash.
Proof. reflexivity. Qed.

(** The order counts from zero, but is read as oids of the head: for a column whose first row is 10, the order
    that a call returns does not fetch the values that it sorted. *)
Lemma order_forgets_head : exists s,
  int_subsort (mkTable 10 [3; 1; 2] false false false) None None true true true false false = Gives s
  /\ s_vals s = [1; 2; 3] /\ s_order s = Some [1; 2; 0] /\ forall x, In x [1; 2; 0] -> x < 10.
Proof. eexists. split; [vm_compute; reflexivity|]. cbn. repeat split; lia. Qed.
