(* ===== verification/AggrInit.v ===== *)
(** * Rows and groups

    gdk/gdk_aggr.c: what all aggregations over groups begin with,
    [BATgroupaggrinit], and the rows and groups their loops visit.  Columns of
    group numbers come from [BATgroup]; the extents that go with them give
    the number of groups. *)

From Stdlib Require Import ZArith Lia Bool List.
Import ListNotations.
From S2P Require Import Prelude Atoms Convert CalcLoop CalcBat.
From S2P Require MergeJoin.

Open Scope Z_scope.
Open Scope list_scope.

(** ** Groups and rows *)

(** A column of group numbers.  [gt_dense] tells that they count up from
    [gt_seq]; [gt_behind] is what lies behind the column in memory. *)
Record gbat := mkGbat {
  g_hseq : Z; g_vals : list Z; g_tdense : bool; g_tseq : Z; g_tsorted : bool; g_tkey : bool; g_nonil : bool;
  g_behind : Z -> Z;
}.

(** The head of the extents or the histogram. *)
Record ebat := mkEbat { e_hseq : Z; e_count : nat }.

Definition find_groups (l : list Z) : Z * Z :=
  fold_left (fun '(min, max) o =>
    if o =? oid_nil then (min, max)
    else (if o <? min then o else min, if o >? max then o else max)) l (oid_nil, 0).

(** [min], [max] and the number of groups. *)
Definition group_range (g : option gbat) (e : option ebat) : Z * Z * Z :=
  match g, e with
  | None, _ => (0, 0, 1)
  | Some g, None =>
      let '(min, max) :=
        if g_tdense g then (g_tseq g, u64 (g_tseq g + Z.of_nat (List.length (g_vals g)) - 1))
        else if g_tsorted g then
          match find (fun o => negb (o =? oid_nil)) (g_vals g) with
          | Some o => (o, last (g_vals g) 0)
          | None => (oid_nil, 0)
          end
        else find_groups (g_vals g) in
      (min, max, if max <? min then 0 else u64 (max - min + 1))
  | Some _, Some e => (e_hseq e, u64 (e_hseq e + Z.of_nat (e_count e) - 1), Z.of_nat (e_count e))
  end.

Record init := mkInit { i_min : Z; i_max : Z; i_ngrp : Z; i_start : nat; i_end : nat; i_cand : option (list Z) }.

(** [BATgroupaggrinit]; [None] is the error that [b] and [g] are not aligned. *)
Definition BATgroupaggrinit (hseq : Z) (cnt : nat) (g : option gbat) (e : option ebat) (s : option cands) : option init :=
  if match g with
     | Some g => negb (cnt =? List.length (g_vals g))%nat || (negb (cnt =? 0)%nat && negb (hseq =? g_hseq g))
     | None => false
     end
  then None
  else
    let '(min, max, ngrp) := group_range g e in
    let '(start, end_, cand) := CANDINIT (hseq) cnt s in
    Some (mkInit min max ngrp start end_ cand).

(** The rows the loops visit, one after the other: those of the range, or the
    candidates up to the first that is not in the column. *)
Fixpoint candidate_rows (seqb end_ : Z) (cand : list Z) : list Z :=
  match cand with
  | [] => []
  | o :: cand => let i := u64 (o - seqb) in if i >=? end_ then [] else i :: candidate_rows seqb end_ cand
  end.
Definition visited (seqb : Z) (start end_ : nat) (cand : option (list Z)) : list Z :=
  match cand with
  | None => zrange (Z.of_nat start) (end_ - start)
  | Some l => candidate_rows seqb (Z.of_nat end_) l
  end.

(** The pointer to the group numbers; the loops index it with the row. *)
Definition group_ids (g : gbat) (start : nat) : option (Z -> Z) :=
  if g_tdense g then None
  else Some (fun i => let k := i + Z.of_nat start in
                      if k <? Z.of_nat (List.length (g_vals g)) then nth (Z.to_nat k) (g_vals g) 0 else g_behind g k).

(** The group of a row, unless it is to be left out. *)
Definition group_of (gids : option (Z -> Z)) (min max i : Z) : option Z :=
  match gids with
  | None => Some i
  | Some f => if (min <=? f i) && (f i <=? max) then Some (f i - min) else None
  end.

(** One cell of an array. *)
Definition wset {A} (f : Z -> A) (i : Z) (v : A) : Z -> A := fun j => if j =? i then v else f j.

(** A loop that changes the cell of the group of each row. *)
Definition visit {A} (group : Z -> option Z) (step : Z -> A -> A) (rows : list Z) (cells : Z -> A) : Z -> A :=
  fold_left (fun c i => match group i with None => c | Some k => wset c k (step i (c k)) end) rows cells.

(** ** Which rows are visited *)

Definition in_group (group : Z -> option Z) (k i : Z) : bool := match group i with Some g => g =? k | None => false end.

(** The rows of a column that are candidates. *)
Definition selected (hseq : Z) (cnt : nat) (s : option cands) : list Z :=
  List.filter (fun i => candb s (hseq + i)) (zrange 0 cnt).

Lemma candidate_rows_map hseq end_ l : 0 <= hseq -> (forall o, In o l -> hseq <= o < hseq + end_) -> hseq + end_ < 2 ^ 64 ->
  candidate_rows hseq end_ l = map (fun o => o - hseq) l.
Proof.
  intros H B L. induction l as [|o l IH]; [reflexivity|]. cbn [candidate_rows map].
  pose proof (B o (or_introl eq_refl)). rewrite uwrap_id by lia. rewrite Z.geb_leb, (proj2 (Z.leb_gt end_ _)) by lia.
  f_equal. apply IH. intros p I. apply B. now right.
Qed.

Lemma selected_shift hseq cnt s : map (fun i => hseq + i) (selected hseq cnt s) = List.filter (candb s) (zrange hseq cnt).
Proof.
  unfold selected. replace (zrange hseq cnt) with (map (fun i => hseq + i) (zrange 0 cnt)) by (rewrite zrange_shift; f_equal; lia).
  generalize (zrange 0 cnt) as l. induction l as [|i l IH]; [reflexivity|]. cbn [List.filter map].
  destruct (candb s (hseq + i)); cbn [map]; now rewrite IH.
Qed.

Lemma visited_rows hseq cnt s st en cand : 0 <= hseq -> hseq + Z.of_nat cnt < 2 ^ 64 -> cands_ok hseq cnt s ->
  CANDINIT hseq cnt s = (st, en, cand) -> visited hseq st en cand = selected hseq cnt s.
Proof.
  intros H0 H1 Ok E. destruct s as [ [q n|l]|].
  - destruct (MergeJoin.CANDINIT_dense hseq cnt q n) as (a & z & E' & B1 & B2 & C). rewrite E' in E. injection E as <- <- <-.
    unfold selected. rewrite (MergeJoin.zrange_filter _ 0 cnt a z) by (auto; intros j J; apply C; lia).
    unfold visited, MergeJoin.positions. rewrite (map_ext _ (fun i => i)) by (intros; lia). rewrite map_id.
    rewrite Z2Nat.id, Z2Nat.inj_sub by lia. reflexivity.
  - destruct Ok as (So & F). destruct l as [|o l].
    + cbn in E. injection E as <- <- <-. cbn. unfold selected. rewrite MergeJoin.filter_nothing; [reflexivity|reflexivity].
    + rewrite CANDINIT_oids in E by (assumption || discriminate). injection E as <- <- <-. unfold visited.
      pose proof (oids_bounds hseq cnt (o :: l) F ltac:(discriminate)) as (Bh & Bl).
      assert (R : selected hseq cnt (Some (Oids (o :: l))) = map (fun o => o - hseq) (o :: l)).
      { transitivity (map (fun o => o - hseq) (List.filter (candb (Some (Oids (o :: l)))) (zrange hseq cnt))).
        - rewrite <- selected_shift, map_map. symmetry. etransitivity; [|apply map_id]. apply map_ext. intros i. lia.
        - f_equal. exact (MergeJoin.oids_filter (o :: l) So hseq cnt F). }
      cbn [last] in Bl. rewrite R. apply candidate_rows_map; [exact H0| |lia]. intros p I.
      pose proof (ascending_hd_last (o :: l) p So I) as A. cbn [last] in A. lia.
  - injection E as <- <- <-. unfold visited, selected. rewrite Nat.sub_0_r. cbn [candb].
    symmetry. apply filter_true_all.
Qed.

(** ** The range of the groups *)

(** Group numbers are oids; in the order of oids nil comes first. *)
Record groups_ok (g : gbat) (e : option ebat) : Prop := {
  go_oids : Forall (fun o => 0 <= o <= oid_nil) (g_vals g);
  go_dense : g_tdense g = true ->
    g_vals g = zrange (g_tseq g) (List.length (g_vals g)) /\ 0 <= g_tseq g /\ g_tseq g + Z.of_nat (List.length (g_vals g)) <= oid_nil;
  go_sorted : g_tsorted g = true -> exists k l, g_vals g = repeat oid_nil k ++ l
    /\ Forall (fun o => o <> oid_nil) l /\ Sorted.StronglySorted Z.le l;
  go_extents : forall e0, e = Some e0 -> 0 <= e_hseq e0 /\ e_hseq e0 + Z.of_nat (e_count e0) <= oid_nil;
}.

(** [min] and [max] enclose the numbers that are not nil, and belong to them;
    or there are none. *)
Definition own_range (l : list Z) (min max ngrp : Z) : Prop :=
  (ngrp = 0 /\ forall o, In o l -> o = oid_nil)
  \/ (In min l /\ In max l /\ 0 <= min <= max /\ max < oid_nil /\ ngrp = max - min + 1
      /\ forall o, In o l -> o <> oid_nil -> min <= o <= max).

Lemma find_groups_from l : forall min max, 0 <= max -> min <= oid_nil ->
  Forall (fun o => 0 <= o <= oid_nil) l ->
  let '(min', max') := fold_left (fun '(min, max) o =>
    if o =? oid_nil then (min, max) else (if o <? min then o else min, if o >? max then o else max)) l (min, max) in
  min' <= min /\ max <= max' /\ (min' = min \/ (In min' l /\ min' <> oid_nil)) /\ (max' = max \/ (In max' l /\ max' <> oid_nil))
  /\ forall o, In o l -> o <> oid_nil -> min' <= o <= max'.
Proof.
  induction l as [|o l IH]; intros min max H0 H1 F; cbn [fold_left].
  { repeat split; try lia; auto; contradiction. }
  inversion F as [|x y Fo Fl]. subst. case Z.eqb_spec; intros N.
  - specialize (IH min max H0 H1 Fl). destruct (fold_left _ l _) as [min' max'].
    destruct IH as (A & B & C & D & E). repeat split; auto.
    + destruct C as [C|(C & C')]; [now left|right; split; [now right|exact C'] ].
    + destruct D as [D|(D & D')]; [now left|right; split; [now right|exact D'] ].
    + destruct H as [<-|I]; [contradiction|now apply E].
    + destruct H as [<-|I]; [contradiction|now apply E].
  - specialize (IH (if o <? min then o else min) (if o >? max then o else max)).
    rewrite Z.gtb_ltb in *. destruct (fold_left _ l _) as [min' max'].
    destruct IH as (A & B & C & D & E); [destruct (_ <? _); lia|destruct (_ <? _); lia|exact Fl|].
    destruct (Z.ltb_spec o min), (Z.ltb_spec max o); repeat split; try lia.
    all: try (destruct C as [->|(C & C')]; [auto|right; split; [now right|exact C'] ]; try (right; split; [now left|exact N])).
    all: try (destruct D as [->|(D & D')]; [auto|right; split; [now right|exact D'] ]; try (right; split; [now left|exact N])).
    all: try (destruct H3 as [<-|I]; [lia|now apply E]).
Qed.

Lemma sorted_last l : Sorted.StronglySorted Z.le l -> forall o, In o l -> o <= last l 0.
Proof.
  induction 1 as [|x l So IH F]; [easy|]. rewrite Forall_forall in F. intros o I.
  destruct l as [|y l]; [destruct I as [->|[]]; cbn; lia|]. change (last (x :: y :: l) 0) with (last (y :: l) 0).
  destruct I as [<-|I]; [|now apply IH]. specialize (IH y (or_introl eq_refl)). specialize (F y (or_introl eq_refl)). lia.
Qed.

Lemma own_range_intro l min max : Forall (fun o => 0 <= o <= oid_nil) l ->
  (In min l /\ In max l /\ min <> oid_nil /\ max <> oid_nil /\ forall o, In o l -> o <> oid_nil -> min <= o <= max)
  \/ (min = oid_nil /\ max = 0 /\ forall o, In o l -> o = oid_nil) ->
  own_range l min max (if max <? min then 0 else u64 (max - min + 1)).
Proof.
  intros F [ (I1 & I2 & N1 & N2 & B)|(-> & -> & N)]; [right|left; now split].
  rewrite Forall_forall in F. pose proof (F _ I1). pose proof (F _ I2). pose proof (B _ I2 N2).
  assert (O : oid_nil = 9223372036854775808) by reflexivity.
  rewrite (proj2 (Z.ltb_ge max min)) by lia. rewrite uwrap_id by lia. repeat split; try lia; auto; now apply B.
Qed.

Lemma group_range_listed g : groups_ok g None -> g_tdense g = false ->
  let '(min, max, ngrp) := group_range (Some g) None in own_range (g_vals g) min max ngrp.
Proof.
  intros Ok D. unfold group_range. rewrite D. pose proof (go_oids _ _ Ok) as F. destruct (g_tsorted g) eqn:So.
  - destruct (go_sorted _ _ Ok So) as (k & l & E & N & S). rewrite E in F |- *.
    assert (Fi : find (fun o => negb (o =? oid_nil)) (repeat oid_nil k ++ l) = hd_error l).
    { clear - N. induction k as [|k IH]; cbn [repeat app find]; [|rewrite Z.eqb_refl; exact IH].
      destruct N as [|x l Nx _]; [reflexivity|]. cbn [find hd_error]. apply Z.eqb_neq in Nx. now rewrite Nx. }
    rewrite Fi. destruct l as [|x l]; cbn [hd_error].
    + apply own_range_intro; [exact F|]. right. repeat split. intros o I. rewrite app_nil_r in I. now apply repeat_spec in I.
    + apply own_range_intro; [exact F|]. left. rewrite Forall_forall in N.
      assert (L : last (repeat oid_nil k ++ x :: l) 0 = last (x :: l) 0).
      { clear. induction k as [|k IH]; [reflexivity|]. cbn [repeat app]. destruct k; exact IH. }
      rewrite L. assert (Il : In (last (x :: l) 0) (x :: l)).
      { destruct (exists_last (l := x :: l) ltac:(discriminate)) as (u & v & ->). rewrite last_last. apply in_elt. }
      split; [apply in_app_iff; right; now left|]. split; [apply in_app_iff; now right|].
      split; [apply N; now left|]. split; [now apply N|]. intros o I No. apply in_app_iff in I.
      destruct I as [I|I]; [apply repeat_spec in I; contradiction|]. split; [|now apply sorted_last].
      inversion S as [|y m _ Fx]. subst. rewrite Forall_forall in Fx. destruct I as [->|I]; [lia|now apply Fx].
  - unfold find_groups. pose proof (find_groups_from (g_vals g) oid_nil 0 ltac:(lia) ltac:(lia) F) as P.
    destruct (fold_left _ _ _) as [min max]. destruct P as (_ & _ & C & D' & B). apply own_range_intro; [exact F|].
    destruct C as [->|(I1 & N1)].
    + right. assert (A : forall o, In o (g_vals g) -> o = oid_nil).
      { intros o I. destruct (Z.eq_dec o oid_nil) as [|N]; [assumption|]. pose proof (B o I N).
        rewrite Forall_forall in F. specialize (F o I). lia. }
      split; [reflexivity|]. split; [|exact A]. destruct D' as [->|(I2 & N2)]; [reflexivity|]. now rewrite (A max I2) in N2.
    + left. split; [exact I1|]. pose proof (B min I1 N1). rewrite Forall_forall in F. pose proof (F min I1).
      destruct D' as [->|(I2 & N2)].
      * split; [replace 0 with min by lia; exact I1|]. split; [exact N1|]. split; [discriminate|exact B].
      * repeat split; auto; now apply B.
Qed.

Lemma group_range_own g : groups_ok g None ->
  let '(min, max, ngrp) := group_range (Some g) None in own_range (g_vals g) min max ngrp.
Proof.
  intros Ok. destruct (g_tdense g) eqn:D; [|now apply group_range_listed]. unfold group_range. rewrite D.
  destruct (go_dense _ _ Ok D) as (E & N & B). change oid_nil with (2 ^ 63) in B.
  set (n := List.length (g_vals g)) in *. destruct n as [|m] eqn:L.
  - rewrite E. left. split; [|contradiction]. change (Z.of_nat 0) with 0. rewrite Z.add_0_r.
    destruct (Z.eq_dec (g_tseq g) 0) as [-> |P]; [reflexivity|]. rewrite (uwrap_id 64 (_ - 1)) by lia.
    now replace (g_tseq g - 1 <? g_tseq g) with true by lia.
  - rewrite (uwrap_id 64 (_ + _ - 1)) by lia. rewrite (proj2 (Z.ltb_ge (g_tseq g + Z.of_nat (S m) - 1) (g_tseq g))) by lia.
    rewrite uwrap_id by lia. right. rewrite E. split; [apply zrange_In; lia|]. split; [apply zrange_In; lia|].
    split; [lia|]. split; [change oid_nil with (2 ^ 63); lia|]. split; [reflexivity|].
    intros o I _. apply In_zrange in I. lia.
Qed.

(** ** What the clients may assume *)

(** The column ([cnt] rows from [hseq] on), its groups and its candidates: they
    are aligned, the groups are what their flags say, and extents come with
    groups that are listed. *)
Record described (hseq : Z) (cnt : nat) (g : gbat) (e : option ebat) (s : option cands) : Prop := {
  gd_head : 0 <= hseq /\ hseq + Z.of_nat cnt < 2 ^ 64;
  gd_cands : cands_ok hseq cnt s;
  gd_aligned : List.length (g_vals g) = cnt /\ g_hseq g = hseq;
  gd_groups : groups_ok g e;
  gd_numbered : g_tdense g = true -> e = None;
}.

(** The scan begins at the first row: there are no candidates, or the first of
    them is the first row or lies before it. *)
Definition from_first_row (hseq : Z) (cnt : nat) (s : option cands) : Prop :=
  fst (fst (CANDINIT hseq cnt s)) = O.

(** Both: what the loops need, since they look up the group of a row at the number
    of the row, but count the groups from the first candidate on. *)
Record grouped (hseq : Z) (cnt : nat) (g : gbat) (e : option ebat) (s : option cands) : Prop := {
  gd_described :> described hseq cnt g e s;
  gd_first : from_first_row hseq cnt s;
}.

(** The rows of group [min + k], in their order. *)
Definition group_rows (hseq : Z) (cnt : nat) (g : gbat) (s : option cands) (min max k : Z) : list Z :=
  List.filter (fun i => let o := nth (Z.to_nat i) (g_vals g) 0 in (min <=? o) && (o <=? max) && (o =? min + k))
    (selected hseq cnt s).

Section Grouped.

Context (hseq : Z) (cnt : nat) (g : gbat) (e : option ebat) (s : option cands).
Hypothesis Ok : grouped hseq cnt g e s.

Lemma range_size min max ngrp : group_range (Some g) e = (min, max, ngrp) -> 0 <= ngrp /\ (0 < ngrp -> ngrp = max - min + 1).
Proof.
  intros E. destruct e as [e0|] eqn:Ee.
  - cbn in E. injection E as <- <- <-. destruct (go_extents _ _ (gd_groups _ _ _ _ _ Ok) e0) as (A & B); [reflexivity|].
    split; [lia|]. intros L. change oid_nil with (2 ^ 63) in B. rewrite uwrap_id by lia. lia.
  - pose proof (group_range_own g (gd_groups _ _ _ _ _ Ok)) as R. rewrite E in R.
    destruct R as [ (-> & _)|(_ & _ & A & _ & -> & _)]; lia.
Qed.

Lemma selected_in i : In i (selected hseq cnt s) -> 0 <= i < Z.of_nat cnt.
Proof. unfold selected. intros I. apply filter_In in I. destruct I as (I & _). apply In_zrange in I. lia. Qed.

(** What [CANDINIT] hands to the loops. *)
Lemma visited_selected st en cand : CANDINIT hseq cnt s = (st, en, cand) ->
  st = O /\ visited hseq st en cand = selected hseq cnt s.
Proof.
  intros C. split; [pose proof (gd_first _ _ _ _ _ Ok) as F; unfold from_first_row in F; now rewrite C in F|].
  exact (visited_rows _ _ s st en cand (proj1 (gd_head _ _ _ _ _ Ok)) (proj2 (gd_head _ _ _ _ _ Ok)) (gd_cands _ _ _ _ _ Ok) C).
Qed.

Section Range.

Context (min max ngrp : Z).
Hypothesis (R : group_range (Some g) e = (min, max, ngrp)) (N : 0 < ngrp).

Abbreviation group := (group_of (group_ids g 0) min max).

Lemma dense_range : g_tdense g = true -> min = g_tseq g /\ ngrp = Z.of_nat cnt
  /\ forall i, 0 <= i < ngrp -> nth (Z.to_nat i) (g_vals g) 0 = min + i.
Proof.
  intros D. pose proof (gd_numbered _ _ _ _ _ Ok D) as E. destruct (go_dense _ _ (gd_groups _ _ _ _ _ Ok) D) as (V & B).
  rewrite E in R. unfold group_range in R. rewrite D in R. rewrite (proj1 (gd_aligned _ _ _ _ _ Ok)) in *.
  change oid_nil with (2 ^ 63) in B. destruct cnt as [|m].
  - exfalso. revert R. change (Z.of_nat 0) with 0. rewrite Z.add_0_r. destruct (Z.eq_dec (g_tseq g) 0) as [-> |P].
    + cbn. intros H. injection H as _ _ H. lia.
    + rewrite (uwrap_id 64 (_ - 1)) by lia. replace (g_tseq g - 1 <? g_tseq g) with true by lia. intros H. injection H as _ _ H. lia.
  - rewrite (uwrap_id 64 (_ + _ - 1)) in R by lia. rewrite (proj2 (Z.ltb_ge (g_tseq g + Z.of_nat (S m) - 1) (g_tseq g))) in R by lia.
    rewrite uwrap_id in R by lia. injection R as <- _ <-. split; [reflexivity|]. split; [lia|].
    intros i I. rewrite V, nth_zrange by lia. lia.
Qed.

(** The rows the loops put into group [k]. *)
Lemma rows_of_group k : List.filter (in_group group k) (selected hseq cnt s) = group_rows hseq cnt g s min max k.
Proof.
  unfold group_rows. apply filter_ext_in. intros i I. apply selected_in in I.
  unfold in_group, group_of, group_ids. destruct (g_tdense g) eqn:D.
  - destruct (dense_range D) as (_ & E & V). rewrite V by lia. destruct (range_size min max ngrp R) as (_ & S). lia.
  - change (Z.of_nat 0) with 0. rewrite Z.add_0_r, (proj1 (gd_aligned _ _ _ _ _ Ok)), (proj2 (Z.ltb_lt i (Z.of_nat cnt)) (proj2 I)).
    destruct ((min <=? _) && _); cbn [andb]; [|reflexivity]. lia.
Qed.

Lemma group_bound i k : In i (selected hseq cnt s) -> group i = Some k -> 0 <= k < ngrp.
Proof.
  intros I. apply selected_in in I. destruct (range_size min max ngrp R) as (_ & S). specialize (S N).
  unfold group_of, group_ids. destruct (g_tdense g) eqn:D.
  - destruct (dense_range D) as (_ & E & _). intros H. injection H as <-. lia.
  - set (o := if _ <? _ then _ else _). clearbody o.
    destruct ((min <=? o) && (o <=? max)) eqn:B; [|discriminate]. intros E. injection E as <-. lia.
Qed.

Lemma outside_empty k : ~ 0 <= k < ngrp -> group_rows hseq cnt g s min max k = [].
Proof.
  intros K. rewrite <- rows_of_group. apply MergeJoin.filter_nothing. intros i I. unfold in_group.
  destruct (group i) as [k'|] eqn:E; [|reflexivity]. pose proof (group_bound i k' I E). lia.
Qed.

End Range.

(** No rows, or no groups: no group has a row. *)
Lemma trivially_empty min max ngrp k : group_range (Some g) e = (min, max, ngrp) ->
  cnt = O \/ ngrp = 0 -> 0 <= k < ngrp -> group_rows hseq cnt g s min max k = [].
Proof. intros R [E|E] K; [|lia]. unfold group_rows, selected. now rewrite E. Qed.

End Grouped.

(** ** Loops over groups *)

Lemma map_const {A} (v : A) n : forall lo, map (fun _ => v) (zrange lo n) = repeat v n.
Proof. induction n as [|n IH]; intros lo; cbn; [reflexivity|]. now rewrite IH. Qed.

Lemma wset_same {A} (f : Z -> A) i v : wset f i v i = v.
Proof. unfold wset. now rewrite Z.eqb_refl. Qed.

Lemma wset_other {A} (f : Z -> A) i j v : j <> i -> wset f i v j = f j.
Proof. intros N. unfold wset. now rewrite (proj2 (Z.eqb_neq j i) N). Qed.

(** Each cell sees the rows of its group, in their order. *)
Lemma visit_cell {A} group (step : Z -> A -> A) rows : forall cells k,
  visit group step rows cells k = fold_left (fun a i => step i a) (List.filter (in_group group k) rows) (cells k).
Proof.
  induction rows as [|i rows IH]; intros cells k; [reflexivity|]. unfold visit. cbn [fold_left List.filter].
  fold (visit group step rows (match group i with None => cells | Some q => wset cells q (step i (cells q)) end)).
  rewrite IH. unfold in_group at 2. destruct (group i) as [q|]; [|reflexivity].
  case Z.eqb_spec; intros E; [subst q; now rewrite wset_same|now rewrite wset_other by congruence].
Qed.
