(* ===== verification/Aggr.v ===== *)
(** * Sums and products over groups

    gdk/gdk_aggr.c: [BATgroupaggrinit], [dosum], [doprod] and the functions on
    top of them, for integers.  A column is aggregated over the groups another
    column gives, for the rows of a candidate list; which groups have been
    seen is kept in a bit mask.  The file shows when the results are the sums and
    products of the groups, and what goes wrong otherwise. *)

From Stdlib Require Import ZArith Lia Bool List.
Import ListNotations.
From S2P Require Import Prelude Atoms Convert Arith CalcLoop CalcBat ConvertBat AggrInit.
From S2P Require MergeJoin.

Open Scope Z_scope.
Open Scope list_scope.

(** ** The bit mask *)

Definition sees (seen : Z -> Z) (gid : Z) : bool :=
  negb (Z.land (seen (Z.shiftr gid 5)) (Z.shiftl 1 (Z.land gid 31)) =? 0).
Definition see (seen : Z -> Z) (gid : Z) : Z -> Z :=
  let w := Z.shiftr gid 5 in wset seen w (Z.lor (seen w) (Z.shiftl 1 (Z.land gid 31))).

(** The nils to report: a group that has not been seen is one. *)
Definition report_nils (seen : Z -> Z) (ngrp nils : Z) (nil_if_empty : bool) : Z :=
  if (nils =? 0) && nil_if_empty then
    let w := Z.shiftr ngrp 5 in
    let seen := if negb (Z.land ngrp 31 =? 0)
                then wset seen w (Z.lor (seen w) (u32 (Z.shiftl (2 ^ 32 - 1) (Z.land ngrp 31)))) else seen in
    if forallb (fun i => seen i =? 2 ^ 32 - 1) (zrange 0 (Z.to_nat ((ngrp + 31) / 32))) then 0 else 1
  else nils.

(** ** The loops *)

(** What a loop changes: the results, the mask, the number of nils. *)
Record acc := mkAcc { cells : Z -> Z; seen : Z -> Z; nils : Z }.

Section Loops.

(** The types of the values and of the results, the checked operation with its
    neutral element, and the switches. *)
Context (tp1 tp2 : num_type) (op : Z -> Z -> cell) (unit : Z) (skip_nils abort_on_error nil_if_empty : bool).

(** A value that is not nil, into a result: [None] is an overflow that aborts. *)
Definition add_value (x sum : Z) : option (Z * bool) :=
  match op x sum with
  | Val v => Some (v, false)
  | _ => if abort_on_error then None else Some (num_nil tp2, true)
  end.

(** The body of the loops over groups of [AGGR_SUM], [AGGR_PROD] and
    [AGGR_PROD_LNG]. *)
Definition agg_step (gid x : Z) (a : acc) : option acc :=
  let a := if nil_if_empty && negb (sees (seen a) gid)
           then mkAcc (wset (cells a) gid unit) (see (seen a) gid) (nils a) else a in
  if x =? num_nil tp1 then
    if negb skip_nils then Some (mkAcc (wset (cells a) gid (num_nil tp2)) (seen a) (nils a + 1)) else Some a
  else if negb (cells a gid =? num_nil tp2) then
    match add_value x (cells a gid) with
    | None => None
    | Some (v, over) => Some (mkAcc (wset (cells a) gid v) (seen a) (if over then nils a + 1 else nils a))
    end
  else Some a.

Definition agg_row (vals : list Z) (group : Z -> option Z) (i : Z) (a : acc) : option acc :=
  match group i with
  | None => Some a
  | Some gid => agg_step gid (nth (Z.to_nat i) vals 0) a
  end.

Fixpoint agg_loop (vals : list Z) (group : Z -> option Z) (rows : list Z) (a : acc) : option acc :=
  match rows with
  | [] => Some a
  | i :: rows => match agg_row vals group i a with
                 | None => None
                 | Some a => agg_loop vals group rows a
                 end
  end.

(** The loops of [AGGR_SUM] for one group and no candidates: the sum, the nils
    and whether a value has been seen. *)
Fixpoint sum_nonil (vals : list Z) (rows : list Z) (sum nils : Z) : option (Z * Z) :=
  match rows with
  | [] => Some (sum, nils)
  | i :: rows =>
      if nils =? 0 then
        match add_value (nth (Z.to_nat i) vals 0) sum with
        | None => None
        | Some (v, over) => sum_nonil vals rows v (if over then nils + 1 else nils)
        end
      else Some (sum, nils)
  end.
Fixpoint sum_plain (vals : list Z) (rows : list Z) (sum nils : Z) (seenval : bool) : option (Z * Z * bool) :=
  match rows with
  | [] => Some (sum, nils, seenval)
  | i :: rows =>
      if nils =? 0 then
        let x := nth (Z.to_nat i) vals 0 in
        if x =? num_nil tp1 then
          if negb skip_nils then sum_plain vals rows (num_nil tp2) 1 seenval
          else sum_plain vals rows sum nils seenval
        else match add_value x sum with
             | None => None
             | Some (v, over) => sum_plain vals rows v (if over then nils + 1 else nils) true
             end
      else Some (sum, nils, seenval)
  end.

(** And with candidates: the loop goes on after a nil. *)
Fixpoint sum_cands (vals : list Z) (rows : list Z) (sum nils : Z) (seenval : bool) : option (Z * Z * bool) :=
  match rows with
  | [] => Some (sum, nils, seenval)
  | i :: rows =>
      let x := nth (Z.to_nat i) vals 0 in
      if x =? num_nil tp1 then
        if negb skip_nils then sum_cands vals rows (num_nil tp2) 1 seenval
        else sum_cands vals rows sum nils seenval
      else match add_value x sum with
           | None => None
           | Some (v, over) => sum_cands vals rows v (if over then nils + 1 else nils) true
           end
  end.

End Loops.

(** ** The functions *)

(** What [dosum] and [doprod] return: that the types are not supported, an
    overflow, or the results and the number of nils. *)
Inductive outcome := Unsupported | Overflows | Done (results : Z -> Z) (nils : Z).

(** The instances that exist: into an integer at least as wide. *)
Definition aggregates (tp1 tp2 : num_type) : bool := ATOMsize tp1 <=? ATOMsize tp2.

Definition dosum (tp1 tp2 : num_type) (vals : list Z) (nonil : bool) (seqb : Z) (start end_ : nat)
    (cand : option (list Z)) (results : Z -> Z) (ngrp : Z) (gids : option (Z -> Z)) (min max : Z)
    (skip_nils abort_on_error nil_if_empty : bool) : outcome :=
  let rows := visited seqb start end_ cand in
  let op := ADD_WITH_CHECK tp2 in
  let finish results seen nils := Done results (report_nils seen ngrp nils nil_if_empty) in
  let unseen : Z -> Z := fun _ => 0 in
  let mark (b : bool) := wset unseen 0 (if b then 1 else 0) in
  if negb (aggregates tp1 tp2) then Unsupported
  else if ngrp =? 1 then
    match cand with
    | None =>
        if nonil then
          match sum_nonil tp2 op abort_on_error vals rows 0 0 with
          | None => Overflows
          | Some (sum, nils) =>
              let some := (start <? end_)%nat in finish (if some then wset results 0 sum else results) (mark some) nils
          end
        else
          match sum_plain tp1 tp2 op skip_nils abort_on_error vals rows 0 0 false with
          | None => Overflows
          | Some (sum, nils, some) => finish (if some then wset results 0 sum else results) (mark some) nils
          end
    | Some _ =>
        match sum_cands tp1 tp2 op skip_nils abort_on_error vals rows 0 0 false with
        | None => Overflows
        | Some (sum, nils, some) => finish (if some then wset results 0 sum else results) unseen nils
        end
    end
  else
    match agg_loop tp1 tp2 op 0 skip_nils abort_on_error nil_if_empty vals (group_of gids min max) rows
            (mkAcc results unseen 0) with
    | None => Overflows
    | Some a => finish (cells a) (seen a) (nils a)
    end.

(** [gidincr = 0] is for a column without groups. *)
Definition doprod (tp1 tp2 : num_type) (vals : list Z) (seqb : Z) (start end_ : nat)
    (cand : option (list Z)) (results : Z -> Z) (ngrp : Z) (gids : option (Z -> Z)) (gidincr : bool) (min max : Z)
    (skip_nils abort_on_error nil_if_empty : bool) : outcome :=
  let group := if gidincr then group_of gids min max else fun _ => Some 0 in
  if negb (aggregates tp1 tp2) then Unsupported
  else
    match agg_loop tp1 tp2 (mul_check ByParts tp2) 1 skip_nils abort_on_error nil_if_empty vals group
            (visited seqb start end_ cand) (mkAcc results (fun _ => 0) 0) with
    | None => Overflows
    | Some a => Done (cells a) (report_nils (seen a) ngrp (nils a) nil_if_empty)
    end.

(** [BATconstant]. *)
Definition BATconstant (tp : num_type) (v : Z) (n : nat) : bat :=
  let nil := (1 <=? n)%nat && (v =? num_nil tp) in
  mkBat tp false 0 (repeat v n) true true (n <=? 1)%nat nil (negb nil).
Definition BATseqbase (b : bat) (o : Z) : bat :=
  mkBat (b_type b) (b_bit b) o (b_vals b) (b_sorted b) (b_revsorted b) (b_key b) (b_nil b) (b_nonil b).

(** [BATgroupsum] and [BATgroupprod], which differ in the loops [run];
    [readonly] is for [BATcopy]. *)
Definition group_aggregate
    (run : init -> (Z -> Z) -> option (Z -> Z) -> outcome) (readonly : bool)
    (b : bat) (g : option gbat) (e : option ebat) (s : option cands) (tp : num_type) (abort_on_error : bool) : option bat :=
  match BATgroupaggrinit (b_hseq b) (BATcount b) g e s, g with
  | Some i, Some g =>
      if (BATcount b =? 0)%nat || (i_ngrp i =? 0) then
        Some (BATseqbase (BATconstant tp (num_nil tp) (Z.to_nat (i_ngrp i))) (if i_ngrp i =? 0 then 0 else i_min i))
      else if match e with None => true | Some e => (e_count e =? BATcount b)%nat && (e_hseq e =? b_hseq b) end
              && (g_tdense g || (g_tkey g && g_nonil g))
      then BATconvert readonly (Plain (b_type b)) b s (Plain tp) abort_on_error
      else
        match run i (fun _ => num_nil tp) (group_ids g (i_start i)) with
        | Done results nils =>
            let n := Z.to_nat (i_ngrp i) in let few := (n <=? 1)%nat in
            Some (mkBat tp false (i_min i) (map results (zrange 0 n)) few few few (negb (nils =? 0)) (nils =? 0))
        | _ => None
        end
  | _, _ => None
  end.

Definition BATgroupsum (readonly : bool) (b : bat) (g : option gbat) (e : option ebat) (s : option cands) (tp : num_type)
    (skip_nils abort_on_error : bool) : option bat :=
  group_aggregate
    (fun i results gids =>
       dosum (b_type b) tp (b_vals b) (b_nonil b) (b_hseq b) (i_start i) (i_end i) (i_cand i) results (i_ngrp i) gids
         (i_min i) (i_max i) skip_nils abort_on_error true)
    readonly b g e s tp abort_on_error.

Definition BATgroupprod (readonly : bool) (b : bat) (g : option gbat) (e : option ebat) (s : option cands) (tp : num_type)
    (skip_nils abort_on_error : bool) : option bat :=
  group_aggregate
    (fun i results gids =>
       doprod (b_type b) tp (b_vals b) (b_hseq b) (i_start i) (i_end i) (i_cand i) results (i_ngrp i) gids true
         (i_min i) (i_max i) skip_nils abort_on_error true)
    readonly b g e s tp abort_on_error.

(** [BATsum] and [BATprod]: over all rows, into one value. *)
Definition total (run : init -> (Z -> Z) -> outcome) (unit : Z) (b : bat) (s : option cands) (tp : num_type)
    (nil_if_empty : bool) : option Z :=
  let res := if nil_if_empty then num_nil tp else unit in
  match BATgroupaggrinit (b_hseq b) (BATcount b) None None s with
  | None => None
  | Some i =>
      if (BATcount b =? 0)%nat then Some res
      else match run i (fun _ => res) with Done results _ => Some (results 0) | _ => None end
  end.

Definition BATsum (b : bat) (s : option cands) (tp : num_type) (skip_nils abort_on_error nil_if_empty : bool) : option Z :=
  total (fun i res => dosum (b_type b) tp (b_vals b) (b_nonil b) (b_hseq b) (i_start i) (i_end i) (i_cand i) res 1
                        (Some (fun _ => i_min i)) (i_min i) (i_max i) skip_nils abort_on_error nil_if_empty)
    0 b s tp nil_if_empty.

Definition BATprod (b : bat) (s : option cands) (tp : num_type) (skip_nils abort_on_error nil_if_empty : bool) : option Z :=
  total (fun i res => doprod (b_type b) tp (b_vals b) (b_hseq b) (i_start i) (i_end i) (i_cand i) res 1
                        (Some (fun _ => i_min i)) false (i_min i) (i_max i) skip_nils abort_on_error nil_if_empty)
    1 b s tp nil_if_empty.

(** ** The bit mask as a set *)

Definition words (s : Z -> Z) : Prop := forall w, 0 <= s w < 2 ^ 32.

Lemma land_31 k : Z.land k 31 = k mod 32.
Proof. change 31 with (Z.ones 5). now rewrite Z.land_ones by lia. Qed.

Lemma shiftr_5 k : Z.shiftr k 5 = k / 32.
Proof. now rewrite Z.shiftr_div_pow2 by lia. Qed.

Lemma sees_testbit s k : 0 <= k -> sees s k = Z.testbit (s (k / 32)) (k mod 32).
Proof.
  intros K. unfold sees. rewrite land_31, shiftr_5. pose proof (Z.mod_pos_bound k 32 ltac:(lia)) as B.
  set (i := k mod 32) in *. rewrite Z.shiftl_1_l. destruct (Z.testbit (s (k / 32)) i) eqn:T.
  - apply negb_true_iff, Z.eqb_neq. intros E. apply (f_equal (fun z => Z.testbit z i)) in E.
    rewrite Z.land_spec, T, Z.pow2_bits_true, Z.bits_0 in E by lia. discriminate.
  - apply negb_false_iff, Z.eqb_eq, Z.bits_inj'. intros j J. rewrite Z.land_spec, Z.bits_0, Z.pow2_bits_eqb by lia.
    case Z.eqb_spec; [intros <-; now rewrite T|intros _; apply andb_false_r].
Qed.

Lemma sees_see s j k : 0 <= j -> 0 <= k -> sees (see s j) k = (j =? k) || sees s k.
Proof.
  intros J K. rewrite !sees_testbit by assumption. unfold see, wset. rewrite land_31, shiftr_5, Z.shiftl_1_l.
  pose proof (Z.mod_pos_bound j 32 ltac:(lia)). pose proof (Z.mod_pos_bound k 32 ltac:(lia)).
  case (Z.eqb_spec (k / 32) (j / 32)); intros E.
  - rewrite E, Z.lor_spec, Z.pow2_bits_eqb, orb_comm by lia. f_equal.
    apply eq_true_iff_eq. rewrite !Z.eqb_eq. split; [|now intros ->].
    intros M. rewrite (Z.div_mod j 32), (Z.div_mod k 32) by lia. lia.
  - replace (j =? k) with false; [reflexivity|]. symmetry. apply Z.eqb_neq. now intros ->.
Qed.

Lemma lor_small a b : 0 <= a < 2 ^ 32 -> 0 <= b < 2 ^ 32 -> 0 <= Z.lor a b < 2 ^ 32.
Proof.
  intros A B. split; [apply Z.lor_nonneg; lia|].
  assert (E : Z.lor a b mod 2 ^ 32 = Z.lor a b).
  { rewrite <- Z.land_ones, Z.land_lor_distr_l by lia. now rewrite !Z.land_ones, !Z.mod_small by lia. }
  rewrite <- E. apply Z.mod_pos_bound. lia.
Qed.

Lemma see_words s k : words s -> words (see s k).
Proof.
  intros W w. unfold see, wset. case Z.eqb_spec; intros _; [|apply W]. apply lor_small; [apply W|].
  rewrite land_31, Z.shiftl_1_l. pose proof (Z.mod_pos_bound k 32 ltac:(lia)).
  split; [apply Z.pow_nonneg; lia|apply Z.pow_lt_mono_r; lia].
Qed.

Lemma full_word w : 0 <= w < 2 ^ 32 -> (w = 2 ^ 32 - 1 <-> forall i, 0 <= i < 32 -> Z.testbit w i = true).
Proof.
  intros W. change (2 ^ 32 - 1) with (Z.ones 32). split.
  - intros -> i I. apply Z.ones_spec_low. lia.
  - intros H. apply Z.bits_inj'. intros i I. destruct (Z_lt_le_dec i 32) as [L|L].
    + rewrite H, Z.ones_spec_low by lia. reflexivity.
    + rewrite (testbit_small 32 w i), Z.ones_spec_high by lia. reflexivity.
Qed.

(** The bits that fill up the last word. *)
Lemma fill_bits m i : 0 <= m < 32 -> 0 <= i < 32 -> Z.testbit (u32 (Z.shiftl (2 ^ 32 - 1) m)) i = (m <=? i).
Proof.
  intros M I. change (2 ^ 32 - 1) with (Z.ones 32). unfold u32, uwrap. rewrite Z.mod_pow2_bits_low by lia.
  rewrite Z.shiftl_spec by lia. case Z.leb_spec; intros L; [apply Z.ones_spec_low; lia|apply Z.testbit_neg_r; lia].
Qed.

(** No nils are reported if and only if all groups have been seen. *)
Lemma report_seen s ngrp : words s -> 0 <= ngrp ->
  (report_nils s ngrp 0 true = 0 <-> forall k, 0 <= k < ngrp -> sees s k = true).
Proof.
  intros W N. unfold report_nils. cbn [Z.eqb andb]. rewrite land_31, shiftr_5.
  pose proof (Z.mod_pos_bound ngrp 32 ltac:(lia)) as Bm. pose proof (Z.div_mod ngrp 32 ltac:(lia)) as Dm.
  set (m := ngrp mod 32) in *. set (q := ngrp / 32) in *.
  set (s' := if negb (m =? 0) then _ else s).
  assert (S' : words s' /\ forall k, 0 <= k -> k / 32 < (ngrp + 31) / 32 -> (sees s' k = true <-> (k < ngrp -> sees s k = true))).
  { unfold s'. case Z.eqb_spec; intros E; cbn [negb].
    - split; [exact W|]. intros k K L. replace ((ngrp + 31) / 32) with q in L by divlia.
      split; [auto|]. intros H. apply H. divlia.
    - assert (F : 0 <= u32 (Z.shiftl (2 ^ 32 - 1) m) < 2 ^ 32) by (apply Z.mod_pos_bound; lia). split.
      + intros w. unfold wset. case Z.eqb_spec; intros _; [|apply W]. now apply lor_small.
      + intros k K L. rewrite !sees_testbit by lia. unfold wset. pose proof (Z.mod_pos_bound k 32 ltac:(lia)).
        case Z.eqb_spec; intros Q.
        * rewrite Q, Z.lor_spec, fill_bits, orb_true_iff, Z.leb_le by lia.
          split; [intros [H1|H1] H2; [exact H1|exfalso; divlia]|]. intros H1. destruct (Z_lt_le_dec (k mod 32) m); [left; apply H1; divlia|lia].
        * split; [auto|]. intros H1. apply H1. divlia. }
  destruct S' as (W' & S'). clearbody s'. destruct (forallb _ _) eqn:Fa.
  - split; [|reflexivity]. intros _ k K. rewrite forallb_forall in Fa.
    assert (I : In (k / 32) (zrange 0 (Z.to_nat ((ngrp + 31) / 32)))) by (apply zrange_In; divlia).
    specialize (Fa _ I). apply Z.eqb_eq, (full_word _ (W' _)) with (i := k mod 32) in Fa; [|apply Z.mod_pos_bound; lia].
    apply S'; [lia|divlia| |lia]. rewrite sees_testbit by lia. exact Fa.
  - split; [discriminate|]. intros H. exfalso. apply not_true_iff_false in Fa. apply Fa, forallb_forall.
    intros w I. apply In_zrange in I. apply Z.eqb_eq, full_word; [apply W'|]. intros i Bi.
    assert (K : 0 <= w * 32 + i) by lia. pose proof (S' (w * 32 + i) K) as P.
    rewrite sees_testbit in P by exact K. replace ((w * 32 + i) / 32) with w in P by divlia.
    replace ((w * 32 + i) mod 32) with i in P by divlia. apply P; [divlia|]. intros L. apply H. lia.
Qed.

(** ** One group *)

Lemma nth_typed tp vals i : Forall (typed tp) vals -> typed tp (nth i vals 0).
Proof.
  intros T. destruct (nth_in_or_default i vals 0) as [I| ->]; [|unfold typed; destruct tp; cbn; lia].
  rewrite Forall_forall in T. now apply T.
Qed.

Section Aggregate.

Context (tp1 tp2 : num_type) (f : Z -> Z -> Z) (op : Z -> Z -> cell) (unit : Z) (skip_nils abort_on_error : bool).
Hypothesis op_exact : forall x s, proper tp1 x -> proper tp2 s -> exactly tp2 (f x s) (op x s).
Hypothesis unit_proper : proper tp2 unit.

Abbreviation nil1 := (num_nil tp1).
Abbreviation nil2 := (num_nil tp2).

Definition has (tp : num_type) (v : Z) : bool := (num_nil tp <? v) && (v <=? num_max tp).

(** The total of values that are not nil, unless it leaves the type on the
    way. *)
Fixpoint running (sum : Z) (vs : list Z) : option Z :=
  match vs with
  | [] => Some sum
  | x :: vs => if has tp2 (f x sum) then running (f x sum) vs else None
  end.

Definition values (vs : list Z) : list Z := List.filter (fun v => negb (v =? nil1)) vs.
Fixpoint up_to_nil (vs : list Z) : list Z :=
  match vs with
  | [] => []
  | v :: vs => if v =? nil1 then [] else v :: up_to_nil vs
  end.

(** The result for a group with these values. *)
Definition aggregate (vs : list Z) : Z :=
  match vs with
  | [] => nil2
  | _ => if negb skip_nils && existsb (fun v => v =? nil1) vs then nil2
         else match running unit (values vs) with Some s => s | None => nil2 end
  end.

(** The group makes the whole aggregation fail. *)
Definition fails (vs : list Z) : bool :=
  abort_on_error
  && match running unit (if skip_nils then values vs else up_to_nil vs) with None => true | Some _ => false end.

(** What the body of the loop does with the result of a group. *)
Definition cell_step (x v : Z) : option Z :=
  if x =? nil1 then Some (if skip_nils then v else nil2)
  else if negb (v =? nil2) then option_map fst (add_value tp2 op abort_on_error x v) else Some v.
Fixpoint cell_loop (vs : list Z) (v : Z) : option Z :=
  match vs with
  | [] => Some v
  | x :: vs => match cell_step x v with None => None | Some v => cell_loop vs v end
  end.

Lemma has_proper tp v : has tp v = true <-> proper tp v.
Proof. unfold has, proper. rewrite andb_true_iff. lia. Qed.

Lemma nil_sticks vs : cell_loop vs nil2 = Some nil2.
Proof.
  induction vs as [|x vs IH]; [reflexivity|]. cbn [cell_loop]. unfold cell_step. rewrite Z.eqb_refl. cbn [negb].
  destruct (x =? nil1); [destruct skip_nils|]; exact IH.
Qed.

Lemma add_exact x s : proper tp1 x -> proper tp2 s ->
  add_value tp2 op abort_on_error x s
  = if has tp2 (f x s) then Some (f x s, false) else if abort_on_error then None else Some (nil2, true).
Proof.
  intros X S. unfold add_value. destruct (op_exact x s X S) as [ [P ->]|[P ->] ].
  - now rewrite (proj2 (has_proper _ _) P).
  - destruct (has tp2 (f x s)) eqn:H; [now apply has_proper in H|reflexivity].
Qed.

(** A proper result goes on to the total, or becomes nil, or fails. *)
Lemma cell_loop_spec vs : Forall (typed tp1) vs -> forall v, proper tp2 v ->
  cell_loop vs v
  = if abort_on_error && match running v (if skip_nils then values vs else up_to_nil vs) with None => true | Some _ => false end
    then None
    else Some (if negb skip_nils && existsb (fun v => v =? nil1) vs then nil2
               else match running v (values vs) with Some s => s | None => nil2 end).
Proof.
  induction 1 as [|x vs T _ IH]; intros v P.
  - cbn. destruct skip_nils, abort_on_error; reflexivity.
  - cbn [cell_loop values List.filter up_to_nil existsb]. unfold cell_step.
    rewrite (proj2 (Z.eqb_neq v nil2)) by (unfold proper in P; lia). cbn [negb].
    destruct (Z.eqb_spec x nil1) as [->|N]; cbn [negb].
    + destruct skip_nils; cbn [negb andb orb]; [now apply IH|]. cbn [running]. rewrite andb_false_r. apply nil_sticks.
    + assert (X : proper tp1 x) by (destruct (typed_proper _ _ T); [contradiction|assumption]).
      rewrite (add_exact x v X P). cbn [orb]. fold (values vs).
      replace (if skip_nils then x :: values vs else x :: up_to_nil vs)
        with (x :: if skip_nils then values vs else up_to_nil vs) by now destruct skip_nils.
      cbn [running]. destruct (has tp2 (f x v)) eqn:H.
      * cbn [option_map fst]. apply IH. now apply has_proper.
      * destruct abort_on_error; cbn [option_map fst andb]; [reflexivity|]. rewrite nil_sticks.
        now destruct (_ && _).
Qed.

Lemma running_proper vs : forall v s, proper tp2 v -> running v vs = Some s -> proper tp2 s.
Proof.
  induction vs as [|x vs IH]; cbn [running]; intros v s P E; [now injection E as <-|].
  destruct (has tp2 (f x v)) eqn:H; [|discriminate]. apply (IH (f x v)); [now apply has_proper|exact E].
Qed.

Lemma cell_loop_total vs : Forall (typed tp1) vs -> vs <> [] ->
  cell_loop vs unit = if fails vs then None else Some (aggregate vs).
Proof. intros T N. rewrite (cell_loop_spec vs T unit unit_proper). unfold fails, aggregate. now destruct vs. Qed.

(** ** All groups *)

Section Groups.

Context (nil_if_empty : bool) (vals : list Z) (group : Z -> option Z).

Abbreviation step := (agg_step tp1 tp2 op unit skip_nils abort_on_error nil_if_empty).
Abbreviation loop := (agg_loop tp1 tp2 op unit skip_nils abort_on_error nil_if_empty vals group).
Abbreviation value i := (nth (Z.to_nat i) vals 0).

Definition members (k : Z) (rows : list Z) : list Z := map (fun i => value i) (List.filter (in_group group k) rows).

(** The result of a group so far: a group not seen yet starts from [unit]. *)
Definition current (a : acc) (k : Z) : Z :=
  if nil_if_empty && negb (sees (seen a) k) then unit else cells a k.

Record sound (a : acc) : Prop := {
  s_words : words (seen a);
  s_nils : 0 <= nils a;
  s_cells : forall k, 0 <= k -> current a k = nil2 \/ proper tp2 (current a k);
  s_zero : nils a = 0 <-> forall k, 0 <= k -> current a k <> nil2;
}.


(** The first lines of the body mark the group and change nothing else. *)
Lemma marked gid a : 0 <= gid ->
  exists a', (if nil_if_empty && negb (sees (seen a) gid)
              then mkAcc (wset (cells a) gid unit) (see (seen a) gid) (nils a) else a) = a'
    /\ cells a' gid = current a gid
    /\ (forall k, 0 <= k -> current a' k = current a k)
    /\ (forall k, 0 <= k -> sees (seen a') k = sees (seen a) k || (nil_if_empty && (gid =? k)))
    /\ nils a' = nils a /\ (words (seen a) -> words (seen a'))
    /\ (nil_if_empty = true -> sees (seen a') gid = true)
    /\ (forall k, k <> gid -> cells a' k = cells a k).
Proof.
  intros G. eexists. split; [reflexivity|]. unfold current at 1.
  destruct (nil_if_empty && negb (sees (seen a) gid)) eqn:E; cbn [cells seen nils].
  - apply andb_prop in E. destruct E as (H & E). apply negb_true_iff in E.
    rewrite wset_same. split; [reflexivity|]. split; [|split; [|split; [reflexivity|split; [|split] ] ] ].
    + intros k K. unfold current. cbn [cells seen]. rewrite H. cbn [andb]. rewrite sees_see by assumption.
      case Z.eqb_spec; intros Q; cbn [orb]; [subst k; rewrite E, wset_same; reflexivity|].
      rewrite wset_other by congruence. reflexivity.
    + intros k K. rewrite H, sees_see by assumption. apply orb_comm.
    + apply see_words.
    + intros _. rewrite sees_see, Z.eqb_refl by assumption. reflexivity.
    + intros k Q. now apply wset_other.
  - split; [reflexivity|]. split; [reflexivity|]. split; [|split; [reflexivity|split; [auto|split; [|reflexivity] ] ] ].
    + intros k K. destruct nil_if_empty; [|now rewrite orb_false_r]. cbn [andb] in *. apply negb_false_iff in E.
      case Z.eqb_spec; intros Q; [subst k; now rewrite E|now rewrite orb_false_r].
    + intros ->. cbn [andb] in E. now apply negb_false_iff in E.
Qed.

(** Storing a result. *)
Lemma stored_result a gid v n : 0 <= gid -> (nil_if_empty = true -> sees (seen a) gid = true) ->
  let a' := mkAcc (wset (cells a) gid v) (seen a) n in
  forall k, 0 <= k -> current a' k = if k =? gid then v else current a k.
Proof.
  intros G S. cbv zeta. intros k K. unfold current. cbn [cells seen]. case Z.eqb_spec; intros E.
  - subst k. rewrite wset_same. destruct nil_if_empty; [rewrite (S eq_refl)|]; reflexivity.
  - now rewrite wset_other by exact E.
Qed.

(** [a'] is [a] with the result of a group changed to [v]. *)
Record changed (gid v : Z) (a a' : acc) : Prop := {
  c_result : current a' gid = v;
  c_others : forall k, 0 <= k -> k <> gid -> current a' k = current a k;
  c_seen : forall k, 0 <= k -> sees (seen a') k = sees (seen a) k || (nil_if_empty && (gid =? k));
  c_sound : sound a';
  c_cells : forall k, k <> gid -> cells a' k = cells a k;
}.

(** A result that becomes nil is counted. *)
Lemma nil_sound gid a a' : 0 <= gid -> sound a -> words (seen a') -> nils a' = nils a + 1 ->
  current a' gid = nil2 -> (forall k, 0 <= k -> k <> gid -> current a' k = current a k) -> sound a'.
Proof.
  intros G S W N C O. pose proof (s_nils _ S). split; [exact W|lia| |].
  - intros k K. destruct (Z.eq_dec k gid) as [->|Q]; [now left|]. rewrite O by assumption. now apply (s_cells _ S).
  - split; [lia|]. intros H1. exfalso. now apply (H1 gid).
Qed.

(** And one that does not, is not. *)
Lemma value_sound gid a a' : 0 <= gid -> sound a -> words (seen a') -> nils a' = nils a ->
  current a gid <> nil2 -> proper tp2 (current a' gid) ->
  (forall k, 0 <= k -> k <> gid -> current a' k = current a k) -> sound a'.
Proof.
  intros G S W N V P O. split; [exact W|rewrite N; apply S| |].
  - intros k K. destruct (Z.eq_dec k gid) as [->|Q]; [now right|]. rewrite O by assumption. now apply (s_cells _ S).
  - rewrite N, (s_zero _ S). split; intros H k K.
    + destruct (Z.eq_dec k gid) as [->|Q]; [unfold proper in P; lia|]. rewrite O by assumption. now apply H.
    + destruct (Z.eq_dec k gid) as [->|Q]; [exact V|]. rewrite <- O by assumption. now apply H.
Qed.

Lemma same_sound a a' : sound a -> words (seen a') -> nils a' = nils a ->
  (forall k, 0 <= k -> current a' k = current a k) -> sound a'.
Proof.
  intros S W N O. split; [exact W|rewrite N; apply S| |].
  - intros k K. rewrite O by exact K. now apply (s_cells _ S).
  - rewrite N, (s_zero _ S). split; intros H k K; [rewrite O by exact K|rewrite <- O by exact K]; now apply H.
Qed.

Lemma step_spec gid x a : 0 <= gid -> typed tp1 x -> sound a ->
  match step gid x a with
  | Some a' => exists v, cell_step x (current a gid) = Some v /\ changed gid v a a'
  | None => cell_step x (current a gid) = None
  end.
Proof.
  intros G T S. unfold agg_step. destruct (marked gid a G) as (a1 & -> & C & K & Sn & N & W & M & Un).
  specialize (W (s_words _ S)). unfold cell_step. rewrite C.
  assert (St : forall v n, let a' := mkAcc (wset (cells a1) gid v) (seen a1) n in
     current a' gid = v /\ (forall k, 0 <= k -> k <> gid -> current a' k = current a k)
     /\ forall k, k <> gid -> cells a' k = cells a k).
  { intros v n. cbv zeta. rewrite (stored_result a1 gid v n G M gid G), Z.eqb_refl. split; [reflexivity|]. split.
    - intros k Hk Q. rewrite (stored_result a1 gid v n G M k Hk), (proj2 (Z.eqb_neq k gid) Q). now apply K.
    - intros k Q. cbn [cells]. now rewrite wset_other, Un. }
  destruct (Z.eqb_spec x nil1) as [->|Nx].
  - destruct skip_nils; cbn [negb]; eexists; (split; [reflexivity|]).
    + split; [now apply K|intros; now apply K|exact Sn| |exact Un]. apply (same_sound a); auto.
    + destruct (St nil2 (nils a1 + 1)) as (E & O & U). split; [exact E|exact O|exact Sn| |exact U].
      apply (nil_sound gid a); auto. cbn [nils]. lia.
  - destruct (Z.eqb_spec (current a gid) nil2) as [Q|Q]; cbn [negb].
    + exists (current a gid). split; [reflexivity|]. split; [now apply K|intros; now apply K|exact Sn| |exact Un].
      apply (same_sound a); auto.
    + assert (X : proper tp1 x) by (destruct (typed_proper _ _ T); [contradiction|assumption]).
      assert (P : proper tp2 (current a gid)) by (destruct (s_cells _ S gid G); [contradiction|assumption]).
      rewrite (add_exact x _ X P). destruct (has tp2 (f x (current a gid))) eqn:H.
      * eexists. split; [reflexivity|]. destruct (St (f x (current a gid)) (nils a1)) as (E & O & U).
        split; [exact E|exact O|exact Sn| |exact U]. apply (value_sound gid a); auto. rewrite E. now apply has_proper.
      * destruct abort_on_error; [reflexivity|]. eexists. split; [reflexivity|].
        destruct (St nil2 (nils a1 + 1)) as (E & O & U). split; [exact E|exact O|exact Sn| |exact U].
        apply (nil_sound gid a); auto. cbn [nils]. lia.
Qed.

(** The loop does for every group what it does for the values of that group. *)
Lemma loop_spec rows : Forall (typed tp1) vals -> (forall i k, In i rows -> group i = Some k -> 0 <= k) ->
  forall a, sound a ->
  match loop rows a with
  | Some a' =>
      (forall k, 0 <= k -> cell_loop (members k rows) (current a k) = Some (current a' k)
         /\ sees (seen a') k = sees (seen a) k || (nil_if_empty && existsb (in_group group k) rows)
         /\ (existsb (in_group group k) rows = false -> cells a' k = cells a k)) /\ sound a'
  | None => exists k, 0 <= k /\ cell_loop (members k rows) (current a k) = None
  end.
Proof.
  intros T. induction rows as [|i rows IH]; intros Gp a S; cbn [agg_loop].
  - split; [|exact S]. intros k K. split; [reflexivity|]. cbn. now rewrite andb_false_r, orb_false_r.
  - assert (Gp' : forall j k, In j rows -> group j = Some k -> 0 <= k) by (intros j k J; apply Gp; now right).
    unfold agg_row, members, in_group. cbn [List.filter existsb]. destruct (group i) as [gid|] eqn:E.
    + pose proof (Gp i gid (or_introl eq_refl) E) as G. fold (members).
      assert (X : typed tp1 (value i)).
      { rewrite Forall_forall in T. destruct (nth_in_or_default (Z.to_nat i) vals 0) as [I| ->]; [now apply T|].
        unfold typed. destruct tp1; cbn; lia. }
      pose proof (step_spec gid (value i) a G X S) as P. destruct (step gid (value i) a) as [a1|].
      * destruct P as (v & Cv & Ch). specialize (IH Gp' a1 (c_sound _ _ _ _ Ch)). destruct (loop rows a1) as [a'|].
        -- destruct IH as (IH & S'). split; [|exact S']. intros k K. destruct (IH k K) as (IH1 & IH2 & IH3).
           rewrite IH2, (c_seen _ _ _ _ Ch k K), <- orb_assoc, <- andb_orb_distrib_r. split; [|split; [reflexivity|] ].
           2: { intros H. apply orb_false_iff in H. destruct H as (H1 & H2). rewrite IH3 by exact H2.
                apply (c_cells _ _ _ _ Ch). apply Z.eqb_neq in H1. congruence. }
           case Z.eqb_spec; intros Q; [subst k|]; cbn [map cell_loop].
           ++ rewrite Cv, <- IH1. now rewrite (c_result _ _ _ _ Ch).
           ++ rewrite <- IH1. rewrite (c_others _ _ _ _ Ch) by congruence. reflexivity.
        -- destruct IH as (k & K & IH). exists k. split; [exact K|]. case Z.eqb_spec; intros Q; [subst k|]; cbn [map cell_loop].
           ++ rewrite Cv. now rewrite <- (c_result _ _ _ _ Ch).
           ++ rewrite <- (c_others _ _ _ _ Ch) by congruence. exact IH.
      * exists gid. split; [exact G|]. rewrite Z.eqb_refl. cbn [map cell_loop]. now rewrite P.
    + exact (IH Gp' a S).
Qed.

(** A loop from the start. *)
Lemma loop_start rows : Forall (typed tp1) vals -> (forall i k, In i rows -> group i = Some k -> 0 <= k) ->
  let r0 := if nil_if_empty then nil2 else unit in
  match loop rows (mkAcc (fun _ => r0) (fun _ => 0) 0) with
  | Some a =>
      (forall k, 0 <= k -> fails (members k rows) = false
         /\ cells a k = match members k rows with [] => r0 | vs => aggregate vs end
         /\ (nil_if_empty = true -> sees (seen a) k = existsb (in_group group k) rows))
      /\ words (seen a) /\ 0 <= nils a /\ (nils a = 0 <-> forall k, 0 <= k -> members k rows = [] \/ aggregate (members k rows) <> nil2)
  | None => exists k, 0 <= k /\ fails (members k rows) = true
  end.
Proof.
  intros T Gp. cbv zeta. set (a0 := mkAcc _ _ _).
  assert (Cur : forall k, current a0 k = unit).
  { intros k. unfold current, a0. cbn [seen cells]. unfold sees. rewrite Z.land_0_l. cbn [Z.eqb negb].
    rewrite andb_true_r. now destruct nil_if_empty. }
  assert (S : sound a0).
  { split; [intros w; cbn; lia|cbn; lia|intros k _; right; now rewrite Cur|].
    split; [|reflexivity]. intros _ k _. rewrite Cur. unfold proper in unit_proper. lia. }
  assert (Tm : forall k, Forall (typed tp1) (members k rows)).
  { intros k. apply Forall_map, Forall_forall. intros i _. now apply nth_typed. }
  assert (Em : forall k, existsb (in_group group k) rows = false <-> members k rows = []).
  { intros k. unfold members. clear. induction rows as [|i rows IH]; cbn; [tauto|].
    destruct (in_group group k i); cbn; [split; discriminate|exact IH]. }
  pose proof (loop_spec rows T Gp a0 S) as P. destruct (loop rows a0) as [a|].
  - destruct P as (P & Sa).
    assert (Q : forall k, 0 <= k -> members k rows <> [] ->
              fails (members k rows) = false /\ current a k = aggregate (members k rows)).
    { intros k K N. destruct (P k K) as (P1 & _). rewrite Cur, (cell_loop_total _ (Tm k) N) in P1.
      destruct (fails (members k rows)); [discriminate|]. injection P1 as <-. now split. }
    assert (Ce : forall k, 0 <= k -> members k rows <> [] -> cells a k = current a k).
    { intros k K N. destruct (P k K) as (_ & P2 & _). unfold current. destruct nil_if_empty; [|reflexivity].
      rewrite P2. rewrite <- Em in N. apply not_false_iff_true in N. now rewrite N, orb_true_r. }
    split; [|split; [apply Sa|split; [apply Sa|] ] ].
    + intros k K. destruct (P k K) as (P1 & P2 & P3). split; [|split].
      * destruct (members k rows) as [|v vs] eqn:E; [unfold fails; destruct skip_nils; apply andb_false_r|].
        rewrite <- E. apply Q; [exact K|now rewrite E].
      * destruct (members k rows) as [|v vs] eqn:E; [apply P3, Em, E|].
        rewrite <- E. rewrite Ce by (assumption || now rewrite E). apply Q; [exact K|now rewrite E].
      * intros H. rewrite P2, H. unfold a0. cbn [seen]. unfold sees. now rewrite Z.land_0_l.
    + rewrite (s_zero _ Sa). split; intros H k K.
      * destruct (members k rows) as [|v vs] eqn:E; [now left|right]. rewrite <- E.
        rewrite <- (proj2 (Q k K ltac:(now rewrite E))). now apply H.
      * destruct (members k rows) as [|v vs] eqn:E.
        -- destruct (P k K) as (P1 & _). rewrite E, Cur in P1. injection P1 as <-. unfold proper in unit_proper. lia.
        -- destruct (H k K) as [F|F]; [congruence|]. rewrite (proj2 (Q k K ltac:(now rewrite E))), E. congruence.
  - destruct P as (k & K & P). exists k. split; [exact K|]. rewrite Cur in P.
    destruct (members k rows) as [|v vs] eqn:E; [discriminate|]. rewrite <- E in P |- *.
    rewrite (cell_loop_total _ (Tm k)) in P by now rewrite E. now destruct (fails _).
Qed.

End Groups.

End Aggregate.

(** ** The results *)

(** What the loop is right about: values of the type, and groups that are
    listed and not all singletons. *)
Record groupable (b : bat) (g : gbat) (e : option ebat) (s : option cands) : Prop := {
  gr_typed : Forall (typed (b_type b)) (b_vals b);
  gr_rows : grouped (b_hseq b) (BATcount b) g e s;
  gr_listed : g_tdense g = false;
  gr_shared : match e with None => true | Some e => (e_count e =? BATcount b)%nat && (e_hseq e =? b_hseq b) end
              && (g_tkey g && g_nonil g) = false;
}.

(** The values of group [min + k], in the order of the rows. *)
Definition group_values (b : bat) (g : gbat) (s : option cands) (min max k : Z) : list Z :=
  map (fun i => nth (Z.to_nat i) (b_vals b) 0) (group_rows (b_hseq b) (BATcount b) g s min max k).

(** The result: one row per group, from [min] on. *)
Definition aggregated (tp1 tp2 : num_type) (f : Z -> Z -> Z) (unit : Z) (skip_nils abort_on_error : bool)
    (b : bat) (g : gbat) (e : option ebat) (s : option cands) (r : option bat) : Prop :=
  let '(min, max, ngrp) := group_range (Some g) e in
  let values k := group_values b g s min max k in
  match r with
  | Some bn =>
      b_type bn = tp2 /\ b_hseq bn = (if ngrp =? 0 then 0 else min)
      /\ b_vals bn = map (fun k => aggregate tp1 tp2 f unit skip_nils (values k)) (zrange 0 (Z.to_nat ngrp))
      /\ b_nonil bn = negb (b_nil bn) /\ (b_nil bn = true <-> In (num_nil tp2) (b_vals bn))
      /\ forall k, 0 <= k < ngrp -> fails tp1 tp2 f unit skip_nils abort_on_error (values k) = false
  | None => exists k, 0 <= k < ngrp /\ fails tp1 tp2 f unit skip_nils abort_on_error (values k) = true
  end.

Section Results.

Context (tp2 : num_type) (f : Z -> Z -> Z) (op : Z -> Z -> cell) (unit : Z) (skip_nils abort_on_error : bool).
Context (b : bat) (g : gbat) (e : option ebat) (s : option cands).
Abbreviation tp1 := (b_type b).
Hypothesis op_exact : forall x s, proper tp1 x -> proper tp2 s -> exactly tp2 (f x s) (op x s).
Hypothesis unit_proper : proper tp2 unit.
Hypothesis Ok : groupable b g e s.

Definition run (i : init) (results : Z -> Z) (gids : option (Z -> Z)) : outcome :=
  match agg_loop tp1 tp2 op unit skip_nils abort_on_error true (b_vals b) (group_of gids (i_min i) (i_max i))
          (visited (b_hseq b) (i_start i) (i_end i) (i_cand i)) (mkAcc results (fun _ => 0) 0) with
  | None => Overflows
  | Some a => Done (cells a) (report_nils (seen a) (i_ngrp i) (nils a) true)
  end.

Lemma fails_nothing : fails tp1 tp2 f unit skip_nils abort_on_error [] = false.
Proof. unfold fails. destruct skip_nils; apply andb_false_r. Qed.

Lemma aggregate_nothing : aggregate tp1 tp2 f unit skip_nils [] = num_nil tp2.
Proof. reflexivity. Qed.

(** The report is 0 if and only if no group is nil. *)
Lemma report_exact (a : acc) ngrp (value : Z -> list Z) : words (seen a) -> 0 <= ngrp -> 0 <= nils a ->
  (nils a = 0 <-> forall k, 0 <= k -> value k = [] \/ aggregate tp1 tp2 f unit skip_nils (value k) <> num_nil tp2) ->
  (forall k, 0 <= k -> (sees (seen a) k = true <-> value k <> [])) ->
  (forall k, ngrp <= k -> value k = []) ->
  (report_nils (seen a) ngrp (nils a) true = 0 <->
   forall k, 0 <= k < ngrp -> aggregate tp1 tp2 f unit skip_nils (value k) <> num_nil tp2).
Proof.
  intros W N Nn Z Sn Out. destruct (Z.eq_dec (nils a) 0) as [Ez|Nz].
  - rewrite Ez, report_seen by assumption. pose proof (proj1 Z Ez) as V. split; intros H k K.
    + destruct (V k ltac:(lia)) as [E|E]; [|exact E]. specialize (H k K). apply Sn in H; [contradiction|lia].
    + apply Sn; [lia|]. intros E. apply (H k K). now rewrite E.
  - unfold report_nils. rewrite (proj2 (Z.eqb_neq _ _) Nz). cbn [andb]. split; [contradiction|]. intros H. apply Z.
    intros k K. destruct (Z_lt_le_dec k ngrp) as [L|L]; [right; apply H; lia|left; now apply Out].
Qed.

(** No rows, or no groups: every group is nil. *)
Lemma nothing_aggregated min max ngrp : group_range (Some g) e = (min, max, ngrp) ->
  BATcount b = O \/ ngrp = 0 ->
  aggregated tp1 tp2 f unit skip_nils abort_on_error b g e s
    (Some (BATseqbase (BATconstant tp2 (num_nil tp2) (Z.to_nat ngrp)) (if ngrp =? 0 then 0 else min))).
Proof.
  intros R Tr. unfold aggregated. rewrite R.
  assert (V : forall k, 0 <= k < ngrp -> group_values b g s min max k = []).
  { intros k K. unfold group_values. now rewrite (trivially_empty _ _ g e s min max ngrp). }
  cbn [BATseqbase BATconstant b_type b_hseq b_vals b_nil b_nonil]. rewrite Z.eqb_refl, andb_true_r.
  split; [reflexivity|]. split; [reflexivity|]. split; [|split; [reflexivity|split; [split|] ] ].
  - rewrite (map_ext_zrange _ (fun _ => num_nil tp2)) by (intros k K; now rewrite V by lia).
    symmetry. apply map_const.
  - intros L. apply Nat.leb_le in L. destruct (Z.to_nat ngrp); [lia|now left].
  - intros I. destruct (Z.to_nat ngrp); [destruct I|reflexivity].
  - intros k K. rewrite V by exact K. apply fails_nothing.
Qed.

(** What the loop leaves, in terms of the values of the groups. *)
Lemma loop_values min max ngrp : group_range (Some g) e = (min, max, ngrp) -> 0 < ngrp ->
  let value := group_values b g s min max in
  match agg_loop tp1 tp2 op unit skip_nils abort_on_error true (b_vals b) (group_of (group_ids g 0) min max)
          (selected (b_hseq b) (BATcount b) s) (mkAcc (fun _ => num_nil tp2) (fun _ => 0) 0) with
  | Some a =>
      (forall k, 0 <= k < ngrp -> cells a k = aggregate tp1 tp2 f unit skip_nils (value k)
         /\ fails tp1 tp2 f unit skip_nils abort_on_error (value k) = false)
      /\ (report_nils (seen a) ngrp (nils a) true = 0 <->
          forall k, 0 <= k < ngrp -> aggregate tp1 tp2 f unit skip_nils (value k) <> num_nil tp2)
  | None => exists k, 0 <= k < ngrp /\ fails tp1 tp2 f unit skip_nils abort_on_error (value k) = true
  end.
Proof.
  intros R N. cbv zeta. set (rows := selected _ _ _). set (group := group_of _ _ _). set (value := group_values b g s min max).
  assert (Gb : forall i k, In i rows -> group i = Some k -> 0 <= k < ngrp)
    by (intros i k; now apply (group_bound _ _ g e s (gr_rows _ _ _ _ Ok) min max ngrp R N)).
  pose proof (loop_start tp1 tp2 f op unit skip_nils abort_on_error op_exact unit_proper true (b_vals b) group rows
                (gr_typed _ _ _ _ Ok) (fun i k I E => proj1 (Gb i k I E))) as P.
  assert (Mv : forall k, members (b_vals b) group k rows = value k).
  { intros k. unfold members, value, group_values. f_equal. exact (rows_of_group _ _ g e s (gr_rows _ _ _ _ Ok) min max ngrp R N k). }
  assert (Out : forall k, ~ 0 <= k < ngrp -> value k = []).
  { intros k K. unfold value, group_values. now rewrite (outside_empty _ _ g e s (gr_rows _ _ _ _ Ok) min max ngrp R N k K). }
  cbv zeta in P. destruct (agg_loop _ _ _ _ _ _ _ _ _ _ _) as [a|].
  - destruct P as (P & W & Nn & Z0). split.
    + intros k K. destruct (P k ltac:(lia)) as (F & -> & _). rewrite Mv in F |- *. now destruct (value k).
    + apply report_exact; [exact W|lia|exact Nn| | |intros k K; apply Out; lia].
      * rewrite Z0. split; intros H k K; specialize (H k K); now rewrite ?Mv in *.
      * intros k K. destruct (P k K) as (_ & _ & ->); [|reflexivity]. rewrite <- Mv. unfold members.
        generalize rows. clear. induction rows as [|i rows IH]; cbn; [easy|]. now destruct (in_group group k i).
  - destruct P as (k & K & F). rewrite Mv in F. exists k. split; [|exact F].
    destruct (Z_lt_le_dec k ngrp) as [|L]; [lia|]. rewrite Out, fails_nothing in F by lia. discriminate.
Qed.

Lemma run_aggregated readonly : aggregated tp1 tp2 f unit skip_nils abort_on_error b g e s
  (group_aggregate run readonly b (Some g) e s tp2 abort_on_error).
Proof.
  unfold group_aggregate, BATgroupaggrinit. destruct (gd_aligned _ _ _ _ _ (gr_rows _ _ _ _ Ok)) as (La & Lh).
  rewrite La, Lh, Nat.eqb_refl, Z.eqb_refl. cbn [negb orb]. rewrite andb_false_r.
  destruct (group_range (Some g) e) as [ [min max] ngrp] eqn:R. destruct (range_size _ _ g e s (gr_rows _ _ _ _ Ok) min max ngrp R) as (N & _).
  destruct (CANDINIT (b_hseq b) (BATcount b) s) as [ [st en] cand] eqn:C.
  destruct (visited_selected _ _ g e s (gr_rows _ _ _ _ Ok) st en cand C) as (-> & V). cbn [i_ngrp i_min i_start].
  destruct ((BATcount b =? 0)%nat || (ngrp =? 0)) eqn:Tr.
  { apply (nothing_aggregated min max ngrp R). rewrite orb_true_iff, Nat.eqb_eq, Z.eqb_eq in Tr. exact Tr. }
  apply orb_false_iff in Tr. destruct Tr as (_ & Nz). apply Z.eqb_neq in Nz.
  rewrite (gr_listed _ _ _ _ Ok). cbn [orb]. rewrite (gr_shared _ _ _ _ Ok).
  unfold run. cbn [i_min i_max i_start i_end i_cand i_ngrp].
  rewrite V.
  pose proof (loop_values min max ngrp R ltac:(lia)) as P. cbv zeta in P. unfold aggregated. rewrite R.
  destruct (agg_loop _ _ _ _ _ _ _ _ _ _ _) as [a|]; [|exact P]. destruct P as (Cv & Rn).
  cbn [b_type b_hseq b_vals b_nil b_nonil]. rewrite (proj2 (Z.eqb_neq ngrp 0) Nz), negb_involutive.
  split; [reflexivity|]. split; [reflexivity|]. split; [apply map_ext_zrange; intros k K; apply Cv; lia|].
  split; [reflexivity|]. split; [|intros k K; now apply Cv].
  rewrite negb_true_iff, Z.eqb_neq, Rn. split; intros H.
  - destruct (in_dec Z.eq_dec (num_nil tp2) (map (cells a) (zrange 0 (Z.to_nat ngrp)))) as [I|I]; [exact I|].
    exfalso. apply H. intros k K E. apply I, in_map_iff. exists k. rewrite (proj1 (Cv k K)).
    split; [exact E|apply zrange_In; lia].
  - intros A. apply in_map_iff in H. destruct H as (k & E & I). apply In_zrange in I.
    apply (A k ltac:(lia)). rewrite <- (proj1 (Cv k ltac:(lia))). exact E.
Qed.

End Results.

Lemma zero_proper tp : proper tp 0.
Proof. unfold proper. destruct tp; cbn; lia. Qed.
Lemma one_proper tp : proper tp 1.
Proof. unfold proper. destruct tp; cbn; lia. Qed.

Lemma sum_exact tp1 tp2 x s : aggregates tp1 tp2 = true -> proper tp1 x -> proper tp2 s ->
  exactly tp2 (x + s) (ADD_WITH_CHECK tp2 x s).
Proof.
  unfold aggregates. intros A X S. apply ADD_exact; [|exact S]. apply (proper_wider tp1); [lia|exact X].
Qed.
Lemma product_exact tp1 tp2 x s : aggregates tp1 tp2 = true -> proper tp1 x -> proper tp2 s ->
  exactly tp2 (x * s) (mul_check ByParts tp2 x s).
Proof.
  unfold aggregates. intros A X S. apply mul_check_exact; [|exact S]. apply (proper_wider tp1); [lia|exact X].
Qed.

(** C21: [BATgroupsum] and [BATgroupprod] return, for every group, the sum or product of its
    values: nil for a group without rows, for one with a nil that is not to be skipped and for one
    whose total leaves the type on the way, unless this is to be an error; the
    flags say whether there is a nil.  This holds if the candidates begin at the first row or before it
    ([groups_shifted]), if the groups are listed, and if they are not marked as all different without nil,
    with extents that match the column, if any ([singletons_unordered]); and it holds of sums for any number of groups
    but one ([false_nil], [only_nils]). *)
Theorem group_totals_exact readonly b g e s tp (skip_nils abort_on_error : bool)
    (Typed : Forall (typed (b_type b)) (b_vals b)) (Ok : described (b_hseq b) (BATcount b) g e s)
    (First : from_first_row (b_hseq b) (BATcount b) s) (Listed : g_tdense g = false)
    (Shared : match e with None => true | Some e => (e_count e =? BATcount b)%nat && (e_hseq e =? b_hseq b) end
              && (g_tkey g && g_nonil g) = false)
    (A : aggregates (b_type b) tp = true) :
  (snd (group_range (Some g) e) <> 1 ->
   aggregated (b_type b) tp Z.add 0 skip_nils abort_on_error b g e s
     (BATgroupsum readonly b (Some g) e s tp skip_nils abort_on_error))
  /\ aggregated (b_type b) tp Z.mul 1 skip_nils abort_on_error b g e s
       (BATgroupprod readonly b (Some g) e s tp skip_nils abort_on_error).
Proof.
  pose proof (Build_groupable b g e s Typed (Build_grouped _ _ g e s Ok First) Listed Shared) as Gr. split.
  - intros N. pose proof (run_aggregated tp Z.add (ADD_WITH_CHECK tp) 0 skip_nils abort_on_error b g e s
      (fun x s => sum_exact _ tp x s A) (zero_proper tp) Gr readonly) as R.
    unfold BATgroupsum, group_aggregate, BATgroupaggrinit in *. destruct (negb _ || _); [exact R|].
    destruct (group_range (Some g) e) as [ [min max] ngrp] eqn:E. cbn [snd] in N.
    destruct (CANDINIT _ _ s) as [ [st en] cand]. unfold run in R. unfold dosum. rewrite A.
    cbn [i_min i_max i_start i_end i_cand i_ngrp negb] in *. rewrite (proj2 (Z.eqb_neq ngrp 1) N).
    destruct (_ || (ngrp =? 0)); [exact R|]. destruct (_ && _); [exact R|]. destruct (agg_loop _ _ _ _ _ _ _ _ _ _ _); exact R.
  - pose proof (run_aggregated tp Z.mul (mul_check ByParts tp) 1 skip_nils abort_on_error b g e s
      (fun x s => product_exact _ tp x s A) (one_proper tp) Gr readonly) as R.
    unfold BATgroupprod, doprod. rewrite A. exact R.
Qed.

(** ** All rows *)

Section Total.

Context (tp1 tp2 : num_type) (abort_on_error : bool) (vals : list Z).
Hypothesis (A : aggregates tp1 tp2 = true) (T : Forall (typed tp1) vals).
Abbreviation value := (fun i => nth (Z.to_nat i) vals 0).
Abbreviation op := (ADD_WITH_CHECK tp2).
Abbreviation total_of := (running tp2 Z.add).
Abbreviation proper_values rows := (values tp1 (map value rows)).

Lemma value_typed i : typed tp1 (value i).
Proof. now apply nth_typed. Qed.

Lemma add_to x sum : proper tp1 x -> proper tp2 sum ->
  add_value tp2 op abort_on_error x sum
  = if has tp2 (x + sum) then Some (x + sum, false) else if abort_on_error then None else Some (num_nil tp2, true).
Proof. apply (add_exact tp1 tp2 Z.add op abort_on_error (fun x s => sum_exact tp1 tp2 x s A)). Qed.

(** Skipping nils: the total, nil after an overflow, or an error. *)
Definition summed (sum : Z) (vs : list Z) (r : option (Z * Z)) : Prop :=
  match total_of sum vs with
  | Some t => r = Some (t, 0)
  | None => if abort_on_error then r = None else exists nils, r = Some (num_nil tp2, nils)
  end.

Lemma sum_nonil_spec rows : (forall i, In i rows -> value i <> num_nil tp1) -> forall sum, proper tp2 sum ->
  summed sum (map value rows) (sum_nonil tp2 op abort_on_error vals rows sum 0).
Proof.
  induction rows as [|i rows IH]; intros N sum P; [reflexivity|]. cbn [map sum_nonil Z.eqb]. unfold summed. cbn [running].
  assert (X : proper tp1 (value i)).
  { destruct (typed_proper _ _ (value_typed i)) as [E|]; [|assumption]. destruct (N i); [now left|exact E]. }
  rewrite (add_to _ _ X P). destruct (has tp2 (value i + sum)) eqn:H.
  - apply IH; [intros j J; apply N; now right|now apply has_proper].
  - destruct abort_on_error; [reflexivity|]. exists (0 + 1). now destruct rows.
Qed.

Definition summed_seen (sum : Z) (sv : bool) (vs : list Z) (r : option (Z * Z * bool)) : Prop :=
  let sv' := sv || match vs with [] => false | _ => true end in
  match total_of sum vs with
  | Some t => r = Some (t, 0, sv')
  | None => if abort_on_error then r = None else exists nils, r = Some (num_nil tp2, nils, true)
  end.

Lemma sum_plain_spec rows : forall sum sv, proper tp2 sum ->
  summed_seen sum sv (proper_values rows) (sum_plain tp1 tp2 op true abort_on_error vals rows sum 0 sv).
Proof.
  induction rows as [|i rows IH]; intros sum sv P; [unfold summed_seen; cbn; now rewrite orb_false_r|].
  cbn [map sum_plain Z.eqb negb]. unfold values. cbn [List.filter]. fold (values tp1 (map value rows)).
  case Z.eqb_spec; intros N; cbn [negb]; [now apply IH|].
  assert (X : proper tp1 (value i)) by (destruct (typed_proper _ _ (value_typed i)); [contradiction|assumption]).
  rewrite (add_to _ _ X P). unfold summed_seen. cbn [running]. destruct (has tp2 (value i + sum)) eqn:H.
  - rewrite orb_true_r. apply (IH (value i + sum) true). now apply has_proper.
  - destruct abort_on_error; [reflexivity|]. exists (0 + 1). now destruct rows.
Qed.

Lemma sum_cands_spec rows : forall sum sv, proper tp2 sum ->
  (abort_on_error = false -> total_of sum (proper_values rows) <> None) ->
  summed_seen sum sv (proper_values rows) (sum_cands tp1 tp2 op true abort_on_error vals rows sum 0 sv).
Proof.
  induction rows as [|i rows IH]; intros sum sv P Ab; [unfold summed_seen; cbn; now rewrite orb_false_r|].
  cbn [map sum_cands negb] in *. unfold values in *. cbn [List.filter] in *. fold (values tp1 (map value rows)) in *.
  revert Ab. case Z.eqb_spec; intros N; cbn [negb]; intros Ab; [now apply IH|].
  assert (X : proper tp1 (value i)) by (destruct (typed_proper _ _ (value_typed i)); [contradiction|assumption]).
  rewrite (add_to _ _ X P). unfold summed_seen. cbn [running] in *. destruct (has tp2 (value i + sum)) eqn:H.
  - rewrite orb_true_r. apply (IH (value i + sum) true); [now apply has_proper|exact Ab].
  - destruct abort_on_error; [reflexivity|]. now destruct Ab.
Qed.

End Total.

(** The values of the rows that are candidates. *)
Definition selected_values (b : bat) (s : option cands) : list Z :=
  map (fun i => nth (Z.to_nat i) (b_vals b) 0) (selected (b_hseq b) (BATcount b) s).

Section Totals.

Context (b : bat) (s : option cands) (tp : num_type) (abort_on_error nil_if_empty : bool).
Hypothesis (Ok : bat_ok b) (Cok : cands_ok (b_hseq b) (BATcount b) s) (A : aggregates (b_type b) tp = true).
Abbreviation tp1 := (b_type b).
Abbreviation vs := (values tp1 (selected_values b s)).

(** The sum of the values, [res] if there are none, nil or an error after an overflow. *)
Definition sum_result (res : Z) : option Z :=
  match running tp Z.add 0 vs with
  | Some t => Some (match vs with [] => res | _ => t end)
  | None => if abort_on_error then None else Some (num_nil tp)
  end.

Lemma empty_column : BATcount b = O -> selected_values b s = [].
Proof. intros E. unfold selected_values, selected. now rewrite E. Qed.

Lemma selected_no_nil i : b_nonil b = true -> In i (selected (b_hseq b) (BATcount b) s) ->
  nth (Z.to_nat i) (b_vals b) 0 <> num_nil tp1.
Proof.
  intros N I E. apply (ok_nonil b Ok N). rewrite <- E. apply nth_In.
  unfold selected in I. apply filter_In in I. destruct I as (I & _). apply In_zrange in I. unfold BATcount in I. lia.
Qed.

Lemma seen_result res r : summed_seen tp abort_on_error 0 false vs r ->
  match r with Some (sum, _, some) => Some (if some : bool then sum else res) | None => None end = sum_result res.
Proof.
  unfold summed_seen, sum_result. cbv zeta. cbn [orb]. destruct (running tp Z.add 0 vs) as [t|].
  - intros ->. now destruct vs.
  - destruct abort_on_error; [now intros ->|]. now intros (k & ->).
Qed.

Lemma nonil_result r : values tp1 (selected_values b s) = selected_values b s ->
  summed tp abort_on_error 0 (selected_values b s) r ->
  summed_seen tp abort_on_error 0 false vs
    (match r with
     | Some (sum, k) => Some (sum, k, match selected_values b s with [] => false | _ => true end)
     | None => None
     end).
Proof.
  intros E. rewrite E. unfold summed, summed_seen. cbv zeta. cbn [orb]. destruct (selected_values b s) as [|v l].
  - cbn [running]. now intros ->.
  - destruct (running tp Z.add 0 (v :: l)) as [t|]; [now intros ->|].
    destruct abort_on_error; [now intros ->|]. intros (k & ->). now exists k.
Qed.

Lemma all_values : b_nonil b = true -> values tp1 (selected_values b s) = selected_values b s.
Proof.
  intros N. unfold values. apply MergeJoin.filter_all. intros v I. apply in_map_iff in I. destruct I as (i & <- & I).
  apply negb_true_iff, Z.eqb_neq. now apply selected_no_nil.
Qed.

Lemma BATsum_result :
  (match s with Some (Oids _) => abort_on_error = false -> running tp Z.add 0 vs <> None | _ => True end) ->
  BATsum b s tp true abort_on_error nil_if_empty = sum_result (if nil_if_empty then num_nil tp else 0).
Proof.
  intros Hc. unfold BATsum, total, BATgroupaggrinit. cbn [group_range]. set (res := if nil_if_empty then _ else _).
  destruct (CANDINIT (b_hseq b) (BATcount b) s) as [ [st en] cand] eqn:C.
  destruct (Nat.eqb_spec (BATcount b) 0) as [E|E]; [unfold sum_result; now rewrite (empty_column E)|].
  cbn [i_start i_end i_cand i_min i_max]. unfold dosum. rewrite A. cbn [negb Z.eqb Pos.eqb].
  pose proof (visited_rows _ _ s st en cand (proj1 (ok_head b Ok)) (proj2 (ok_head b Ok)) Cok C) as V. rewrite V.
  pose proof (ok_typed b Ok) as Ty. destruct cand as [l|].
  - assert (Hs : abort_on_error = false -> running tp Z.add 0 vs <> None).
    { destruct s as [ [q n|l']|]; [|exact Hc|discriminate]. exfalso. revert C.
      destruct (MergeJoin.CANDINIT_dense (b_hseq b) (BATcount b) q n) as (x & y & -> & _). discriminate. }
    pose proof (sum_cands_spec tp1 tp abort_on_error (b_vals b) A Ty _ 0 false (zero_proper tp) Hs) as P.
    rewrite <- (seen_result res _ P). now destruct (sum_cands _ _ _ _ _ _ _ _ _) as [ [ [sum k] []]|].
  - destruct (b_nonil b) eqn:Nn.
    + pose proof (sum_nonil_spec tp1 tp abort_on_error (b_vals b) A Ty _ (fun i I => selected_no_nil i Nn I) 0 (zero_proper tp)) as P.
      rewrite <- (seen_result res _ (nonil_result _ (all_values Nn) P)).
      assert (Er : (st <? en)%nat = match selected_values b s with [] => false | _ => true end).
      { unfold selected_values. rewrite <- V. unfold visited. case Nat.ltb_spec; intros L.
        - destruct (en - st)%nat eqn:D; [lia|reflexivity].
        - now replace (en - st)%nat with O by lia. }
      rewrite Er. destruct (sum_nonil _ _ _ _ _ _ _) as [ [sum k]|]; [|reflexivity]. now destruct (selected_values b s).
    + pose proof (sum_plain_spec tp1 tp abort_on_error (b_vals b) A Ty (selected (b_hseq b) (BATcount b) s) 0 false (zero_proper tp)) as P.
      rewrite <- (seen_result res _ P). now destruct (sum_plain _ _ _ _ _ _ _ _ _ _) as [ [ [sum k] []]|].
Qed.

(** The product goes through the loop over groups, as one group. *)
Lemma one_group rows : members (b_vals b) (fun _ => Some 0) 0 rows = map (fun i => nth (Z.to_nat i) (b_vals b) 0) rows.
Proof. unfold members. f_equal. now apply MergeJoin.filter_all. Qed.

Definition prod_result (skip_nils : bool) (res : Z) : option Z :=
  let vals := selected_values b s in
  if fails tp1 tp Z.mul 1 skip_nils abort_on_error vals then None
  else Some (match vals with [] => res | _ => aggregate tp1 tp Z.mul 1 skip_nils vals end).

Lemma BATprod_result skip_nils :
  BATprod b s tp skip_nils abort_on_error nil_if_empty = prod_result skip_nils (if nil_if_empty then num_nil tp else 1).
Proof.
  unfold BATprod, total, BATgroupaggrinit. cbn [group_range]. set (res := if nil_if_empty then _ else _).
  destruct (CANDINIT (b_hseq b) (BATcount b) s) as [ [st en] cand] eqn:C.
  destruct (Nat.eqb_spec (BATcount b) 0) as [E|E].
  { unfold prod_result. cbv zeta. rewrite (empty_column E). unfold fails. destruct skip_nils; cbn; now rewrite andb_false_r. }
  cbn [i_start i_end i_cand i_min i_max]. unfold doprod. rewrite A. cbn [negb].
  rewrite (visited_rows _ _ s st en cand (proj1 (ok_head b Ok)) (proj2 (ok_head b Ok)) Cok C).
  pose proof (loop_start tp1 tp Z.mul (mul_check ByParts tp) 1 skip_nils abort_on_error
    (fun x s => product_exact tp1 tp x s A) (one_proper tp) nil_if_empty (b_vals b) (fun _ => Some 0)
    (selected (b_hseq b) (BATcount b) s) (ok_typed b Ok)) as P.
  specialize (P ltac:(intros i k _ H; injection H as <-; lia)). cbv zeta in P. fold res in P. unfold prod_result. cbv zeta.
  destruct (agg_loop _ _ _ _ _ _ _ _ _ _ _) as [a|].
  - destruct P as (P & _). destruct (P 0 ltac:(lia)) as (F & V & _). unfold selected_values. rewrite <- one_group.
    rewrite F, V. now destruct (members _ _ _ _).
  - destruct P as (k & K & F). unfold selected_values. rewrite <- one_group.
    destruct (Z.eq_dec k 0) as [-> |N]; [now rewrite F|]. exfalso. revert F. unfold members, in_group.
    replace (List.filter (fun _ => 0 =? k) _) with (@nil Z); [unfold fails; destruct skip_nils; cbn; now rewrite andb_false_r|].
    rewrite (proj2 (Z.eqb_neq 0 k)) by lia. clear. now induction (selected _ _ _).
Qed.

End Totals.

(** C22: [BATsum], skipping nils, and [BATprod] return the sum and the product of
    the values of the candidates; nil for no values when asked for, and the
    neutral element otherwise.  A total that leaves the type
    on the way is an error, or nil; for [BATsum] and a list of candidates
    only the error is covered. *)
Theorem totals_exact b s tp (skip_nils abort_on_error nil_if_empty : bool)
    (Ok : bat_ok b) (Cok : cands_ok (b_hseq b) (BATcount b) s) (A : aggregates (b_type b) tp = true) :
  let vs := values (b_type b) (selected_values b s) in
  ((exists l, s = Some (Oids l)) /\ abort_on_error = false /\ running tp Z.add 0 vs = None
   \/ BATsum b s tp true abort_on_error nil_if_empty
      = match running tp Z.add 0 vs with
        | Some t => Some (match vs with [] => if nil_if_empty then num_nil tp else 0 | _ => t end)
        | None => if abort_on_error then None else Some (num_nil tp)
        end)
  /\ BATprod b s tp skip_nils abort_on_error nil_if_empty
     = let vals := selected_values b s in
       if fails (b_type b) tp Z.mul 1 skip_nils abort_on_error vals then None
       else Some (match vals with
                  | [] => if nil_if_empty then num_nil tp else 1
                  | _ => aggregate (b_type b) tp Z.mul 1 skip_nils vals
                  end).
Proof.
  cbv zeta. split; [|apply BATprod_result; assumption].
  pose proof (BATsum_result b s tp abort_on_error nil_if_empty Ok Cok A) as P. unfold sum_result in P.
  destruct s as [ [q n|l]|]; [right; now apply P| |right; now apply P].
  destruct abort_on_error; [right; now apply P|]. destruct (running _ _ _ _) as [t|]; [right; now apply P|].
  left. split; [now exists l|]. now split.
Qed.

(** ** Examples *)

Definition ids (l : list Z) : gbat := mkGbat 0 l false 0 false false true (fun _ => 0).
Definition column (l : list Z) : bat := mkBat TYPE_int false 0 l false false false false false.
Definition sums (b : bat) (g : gbat) (s : option cands) : option (list Z * bool) :=
  option_map (fun bn => (b_vals bn, b_nil bn)) (BATgroupsum false b (Some g) None s TYPE_lng true true).
Abbreviation int_nil := (num_nil TYPE_int).
Abbreviation lng_nil := (num_nil TYPE_lng).

Lemma column_ok l : Forall (typed TYPE_int) l -> Z.of_nat (List.length l) < 2 ^ 62 -> bat_ok (column l).
Proof. intros T L. split; cbn; try easy. unfold head_ok, BATcount. cbn. lia. Qed.

Definition three := column [5; int_nil; 7; 9].

Lemma three_groupable : groupable three (ids [1; 0; 1; 1]) None None.
Proof.
  split; [repeat constructor; vm_compute; discriminate| |reflexivity..]. split; [|reflexivity]. split; cbn; try easy.
  split; cbn; try discriminate. repeat constructor; vm_compute; discriminate.
Qed.

Lemma group_totals_exact_witness :
  exists bn, BATgroupsum false three (Some (ids [1; 0; 1; 1])) None None TYPE_lng true true = Some bn
    /\ b_vals bn = [0; 21].
Proof.
  pose proof (group_totals_exact false three (ids [1; 0; 1; 1]) None None TYPE_lng true true
    (gr_typed _ _ _ _ three_groupable) (gr_rows _ _ _ _ three_groupable) eq_refl eq_refl eq_refl eq_refl) as (P & _).
  specialize (P ltac:(vm_compute; discriminate)).
  unfold aggregated in P. replace (group_range _ _) with (0, 1, 2) in P by (vm_compute; reflexivity).
  destruct (BATgroupsum false three (Some (ids [1; 0; 1; 1])) None None TYPE_lng true true) as [bn|].
  - exists bn. split; [reflexivity|]. destruct P as (_ & _ & V & _). rewrite V. reflexivity.
  - exfalso. destruct P as (k & K & F). assert (D : k = 0 \/ k = 1) by lia.
    destruct D as [-> | ->]; discriminate.
Defined.

Lemma totals_exact_witness :
  BATsum three (Some (Dense 0 3)) TYPE_lng true true true = Some 12
  /\ BATprod three None TYPE_lng true true true = Some 315.
Proof.
  assert (Ok : bat_ok three) by (apply column_ok; [repeat constructor; vm_compute; discriminate|cbn; lia]).
  split.
  - destruct (totals_exact three (Some (Dense 0 3)) TYPE_lng true true true Ok I eq_refl) as ([((l & D) & _)|H] & _);
      [discriminate|exact H].
  - exact (proj2 (totals_exact three None TYPE_lng true true true Ok I eq_refl)).
Defined.

(** ** What the theorems leave out *)

(** The group numbers are read from the first candidate on, but with the row as
    index: rows 1 and 3 get the groups of row 2 and of one behind the column. *)
Lemma groups_shifted :
  sums (column [1; 2; 3; 4]) (ids [0; 0; 1; 1]) (Some (Oids [1; 3])) = Some ([4; 2], false).
Proof. reflexivity. Qed.

(** A group of nils only has the sum 0; if it is the only group, nil. *)
Lemma only_nils :
  sums (column [int_nil; 1]) (ids [0; 1]) None = Some ([0; 1], false)
  /\ sums (column [int_nil; int_nil]) (ids [0; 0]) None = Some ([lng_nil], true).
Proof. split; reflexivity. Qed.

(** One group and candidates: the result has the flag of a nil it does not hold. *)
Lemma false_nil : sums (column [1; 2]) (ids [0; 0]) (Some (Oids [0; 1])) = Some ([3], true).
Proof. reflexivity. Qed.

(** Nils that count: with candidates the loop adds to the nil it has found, and
    otherwise a nil before all values is lost. *)
Lemma nils_lost :
  BATsum (column [5; int_nil; 7]) (Some (Oids [0; 1; 2])) TYPE_lng false true true = Some (lng_nil + 7)
  /\ BATsum (column [int_nil; 7]) None TYPE_lng false true false = Some 0.
Proof. split; reflexivity. Qed.

(** Candidates before the column end the loop. *)
Lemma early_candidate :
  BATsum (mkBat TYPE_int false 5 [3; 4] false false false false false) (Some (Oids [2; 5; 6])) TYPE_lng true true true
  = Some lng_nil.
Proof. reflexivity. Qed.

(** If all groups have one row, the values are taken over in the order of the
    rows, not of the groups. *)
Lemma singletons_unordered :
  option_map b_vals
    (BATgroupsum false (column [10; 20]) (Some (mkGbat 0 [1; 0] false 0 false true true (fun _ => 0))) None None TYPE_lng true true)
  = Some [10; 20].
Proof. reflexivity. Qed.
