(* ===== verification/AggrPick.v ===== *)
(** * Counts and extremes of groups

    gdk/gdk_aggr.c: [BATgroupcount], [BATgroupsize], [BATgroupmin] and
    [BATgroupmax], for columns of any type.  The last two return for every
    group the row with the value, not the value. *)

From Stdlib Require Import ZArith Lia Bool List.
Import ListNotations.
From S2P Require Import Prelude Atoms Arith CalcLoop CalcBat Sort AggrInit Aggr.

Open Scope Z_scope.
Open Scope list_scope.

(** ** The code *)

(** A new column of oids. *)
Record obat := mkObat {
  o_hseq : Z; o_vals : list Z; o_sorted : bool; o_revsorted : bool; o_key : bool; o_nil : bool; o_nonil : bool;
}.

(** The counting functions: a row adds 1 to its group if it [counts]. *)
Definition group_counts (counts : Z -> bool) (hseq : Z) (cnt : nat)
    (g : option gbat) (e : option ebat) (s : option cands) : option bat :=
  match BATgroupaggrinit hseq cnt g e s, g with
  | Some i, Some g =>
      let n := Z.to_nat (i_ngrp i) in
      if (cnt =? 0)%nat || (i_ngrp i =? 0)
      then Some (BATseqbase (BATconstant TYPE_lng 0 n) (if i_ngrp i =? 0 then 0 else i_min i))
      else
        let cnts := visit (group_of (group_ids g (i_start i)) (i_min i) (i_max i))
                      (fun r c => if counts r then c + 1 else c)
                      (visited hseq (i_start i) (i_end i) (i_cand i)) (fun _ => 0) in
        let few := (n <=? 1)%nat in
        Some (mkBat TYPE_lng false (i_min i) (map cnts (zrange 0 n)) few few few false true)
  | _, _ => None
  end.

Section Columns.

(** The type of the column: its [atomCmp] and its nil. *)
Context {V : Type} (cmp : V -> V -> Z) (nil : V).

Definition BATgroupcount (hseq : Z) (vals : list V) (g : option gbat) (e : option ebat) (s : option cands)
    (skip_nils : bool) : option bat :=
  group_counts (fun r => negb skip_nils || negb (cmp (nth (Z.to_nat r) vals nil) nil =? 0)) hseq (List.length vals) g e s.

(** The body of [AGGR_CMP]; [OP] tells whether the first value comes out
    better. *)
Definition pick_row (OP : Z -> bool) (skip_nils : bool) (hseq : Z) (vals : list V) (group : Z -> option Z)
    (st : (Z -> Z) * Z) (r : Z) : (Z -> Z) * Z :=
  let '(oids, nils) := st in
  match group r with
  | None => st
  | Some gid =>
      let v := nth (Z.to_nat r) vals nil in
      if negb skip_nils || negb (cmp v nil =? 0) then
        if oids gid =? oid_nil then (wset oids gid (r + hseq), nils - 1)
        else
          let w := nth (Z.to_nat (oids gid - hseq)) vals nil in
          if negb (cmp w nil =? 0) && ((cmp v nil =? 0) || OP (cmp v w)) then (wset oids gid (r + hseq), nils) else st
      else st
  end.

Definition group_picks (OP : Z -> bool) (linear : bool) (hseq : Z) (vals : list V)
    (g : option gbat) (e : option ebat) (s : option cands) (skip_nils : bool) : option obat :=
  if negb linear then None
  else
    match BATgroupaggrinit hseq (List.length vals) g e s, g with
    | Some i, Some g =>
        let n := Z.to_nat (i_ngrp i) in
        if (List.length vals =? 0)%nat || (i_ngrp i =? 0)
        then let none := (1 <=? n)%nat in
             Some (mkObat (if i_ngrp i =? 0 then 0 else i_min i) (repeat oid_nil n) true true (n <=? 1)%nat none (negb none))
        else
          let '(oids, nils) :=
            fold_left (pick_row OP skip_nils hseq vals (group_of (group_ids g (i_start i)) (i_min i) (i_max i)))
              (visited hseq (i_start i) (i_end i) (i_cand i)) (fun _ => oid_nil, i_ngrp i) in
          let few := (n <=? 1)%nat in
          Some (mkObat (i_min i) (map oids (zrange 0 n)) few few few (negb (nils =? 0)) (nils =? 0))
    | _, _ => None
    end.

(** [linear] tells that the type has an order. *)
Definition BATgroupmin := group_picks (fun c => c <? 0).
Definition BATgroupmax := group_picks (fun c => c >? 0).

End Columns.

(** [BATgroupsize] counts the rows of a column of [bit] that are true. *)
Definition BATgroupsize (hseq : Z) (bits : list Z) (g : option gbat) (e : option ebat) (s : option cands) : option bat :=
  group_counts (fun r => nth (Z.to_nat r) bits 0 =? 1) hseq (List.length bits) g e s.

(** ** Counts *)

Lemma count_rows (p : Z -> bool) rows : forall c,
  fold_left (fun c r => if p r then c + 1 else c) rows c = c + Z.of_nat (List.length (List.filter p rows)).
Proof.
  induction rows as [|r rows IH]; intros c; cbn [fold_left List.filter]; [cbn; lia|].
  rewrite IH. destruct (p r); cbn [List.length]; lia.
Qed.

(** The number of rows of group [min + k] that count. *)
Definition group_count (counts : Z -> bool) hseq cnt g s min max k : Z :=
  Z.of_nat (List.length (List.filter counts (group_rows hseq cnt g s min max k))).

Definition counted (counts : Z -> bool) hseq cnt g e s (r : option bat) : Prop :=
  let '(min, max, ngrp) := group_range (Some g) e in
  exists bn, r = Some bn /\ b_hseq bn = (if ngrp =? 0 then 0 else min) /\ b_nil bn = false /\ b_nonil bn = true
    /\ b_vals bn = map (group_count counts hseq cnt g s min max) (zrange 0 (Z.to_nat ngrp)).

Lemma group_counts_spec counts hseq cnt g e s : grouped hseq cnt g e s ->
  counted counts hseq cnt g e s (group_counts counts hseq cnt (Some g) e s).
Proof.
  intros Ok. unfold counted, group_counts, BATgroupaggrinit. destruct (gd_aligned _ _ _ _ _ Ok) as (La & Lh).
  rewrite La, Lh, Nat.eqb_refl, Z.eqb_refl. cbn [negb orb]. rewrite andb_false_r.
  destruct (group_range (Some g) e) as [ [min max] ngrp] eqn:R. destruct (range_size _ _ g e s Ok min max ngrp R) as (N & _).
  destruct (CANDINIT hseq cnt s) as [ [st en] cand] eqn:C.
  destruct (visited_selected _ _ g e s Ok st en cand C) as (-> & Vs). cbn [i_ngrp i_min i_max i_start i_end i_cand].
  destruct ((cnt =? 0)%nat || (ngrp =? 0)) eqn:Tr; eexists; (split; [reflexivity|]); cbn [b_hseq b_nil b_nonil b_vals BATseqbase BATconstant].
  - rewrite orb_true_iff, Nat.eqb_eq, Z.eqb_eq in Tr. split; [reflexivity|]. split; [apply andb_false_r|].
    split; [now rewrite andb_false_r|]. rewrite <- (map_const _ _ 0).
    apply map_ext_zrange. intros k K. unfold group_count. now rewrite (trivially_empty _ _ g e s min max ngrp) by (assumption || lia).
  - apply orb_false_iff in Tr. destruct Tr as (_ & Nz). apply Z.eqb_neq in Nz. rewrite (proj2 (Z.eqb_neq _ _) Nz).
    repeat (split; [reflexivity|]). apply map_ext_zrange. intros k K. rewrite visit_cell, Vs, count_rows.
    unfold group_count. rewrite (rows_of_group _ _ g e s Ok min max ngrp R ltac:(lia)). lia.
Qed.

(** [BATgroupcount] returns for every group the number of its rows, or of
    those that are not nil, and [BATgroupsize] the number of those that are
    true; a group without rows has 0, and there are no nils. *)
Theorem group_counts_exact {V} (cmp : V -> V -> Z) nil hseq vals g e s (skip_nils : bool)
    (Ok : grouped hseq (List.length vals) g e s) :
  counted (fun r => negb skip_nils || negb (cmp (nth (Z.to_nat r) vals nil) nil =? 0)) hseq (List.length vals) g e s
    (BATgroupcount cmp nil hseq vals (Some g) e s skip_nils)
  /\ forall bits, List.length bits = List.length vals ->
     counted (fun r => nth (Z.to_nat r) bits 0 =? 1) hseq (List.length vals) g e s (BATgroupsize hseq bits (Some g) e s).
Proof.
  split; [now apply group_counts_spec|]. intros bits L. unfold BATgroupsize. rewrite L. now apply group_counts_spec.
Qed.

(** ** The number of nils *)

Definition missing (n : nat) (oids : Z -> Z) : Z :=
  Z.of_nat (List.length (List.filter (fun k => oids k =? oid_nil) (zrange 0 n))).

Lemma missing_wset_from k v oids m : v <> oid_nil -> forall lo,
  Z.of_nat (List.length (List.filter (fun j => wset oids k v j =? oid_nil) (zrange lo m)))
  = Z.of_nat (List.length (List.filter (fun j => oids j =? oid_nil) (zrange lo m)))
    - (if (lo <=? k) && (k <? lo + Z.of_nat m) && (oids k =? oid_nil) then 1 else 0).
Proof.
  intros Nv. induction m as [|m IH]; intros lo.
  - cbn. replace (lo + 0) with lo by lia. replace ((lo <=? k) && (k <? lo)) with false by lia. reflexivity.
  - cbn [zrange List.filter]. unfold wset at 1. case (Z.eqb_spec lo k); intros E.
    + subst lo. rewrite (proj2 (Z.eqb_neq _ _) Nv), IH. replace (k + 1 <=? k) with false by lia. cbn [andb].
      rewrite Z.leb_refl, (proj2 (Z.ltb_lt k (k + Z.of_nat (S m)))) by lia. cbn [andb].
      destruct (oids k =? oid_nil); cbn [List.length]; lia.
    + replace ((lo <=? k) && (k <? lo + Z.of_nat (S m))) with ((lo + 1 <=? k) && (k <? lo + 1 + Z.of_nat m))
        by (apply eq_true_iff_eq; rewrite !andb_true_iff, !Z.leb_le, !Z.ltb_lt; lia).
      destruct (oids lo =? oid_nil); cbn [List.length]; rewrite ?Nat2Z.inj_succ, IH; lia.
Qed.

Lemma missing_wset n oids k v : 0 <= k < Z.of_nat n -> v <> oid_nil ->
  missing n (wset oids k v) = missing n oids - (if oids k =? oid_nil then 1 else 0).
Proof.
  intros K Nv. unfold missing. rewrite missing_wset_from by exact Nv.
  now replace ((0 <=? k) && (k <? 0 + Z.of_nat n)) with true by lia.
Qed.

Lemma missing_zero n oids : missing n oids = 0 <-> ~ In oid_nil (map oids (zrange 0 n)).
Proof.
  unfold missing. rewrite in_map_iff. split.
  - intros E (k & K & I). assert (J : In k (List.filter (fun k' => oids k' =? oid_nil) (zrange 0 n))) by (apply filter_In; split; [exact I|lia]).
    destruct (List.filter _ _); [destruct J|cbn in E; lia].
  - intros N. destruct (List.filter _ _) as [|k l] eqn:E; [reflexivity|]. exfalso.
    assert (J : In k (List.filter (fun k' => oids k' =? oid_nil) (zrange 0 n))) by (rewrite E; now left).
    apply filter_In in J. apply N. exists k. split; [lia|apply J].
Qed.

(** ** Extremes *)

Section Extremes.

Context {V : Type} (cmp : V -> V -> Z) `{!Comparison cmp} (nil : V) (min_wanted : bool).

Definition OP (c : Z) : bool := if min_wanted then c <? 0 else c >? 0.

(** [v] takes the place of [w]: nil beats everything. *)
Definition beats (v w : V) : bool := negb (cmp w nil =? 0) && ((cmp v nil =? 0) || OP (cmp v w)).

Lemma cmp_sign x y : (cmp x y < 0 <-> 0 < cmp y x) /\ (cmp x y = 0 <-> cmp y x = 0).
Proof. pose proof (cmp_opposite (cmp := cmp) x y). lia. Qed.

Lemma cmp_le_trans x y z : cmp x y <= 0 -> cmp y z <= 0 -> cmp x z <= 0.
Proof. apply cmp_trans. Qed.

Lemma beats_not_back v w : beats v w = true -> beats w v = false.
Proof.
  unfold beats, OP. destruct (cmp_sign v w) as (A & _), (cmp_sign w v) as (B & _). destruct min_wanted.
  all: destruct (Z.eqb_spec (cmp w nil) 0), (Z.eqb_spec (cmp v nil) 0); cbn; try discriminate; try reflexivity; lia.
Qed.

Lemma beats_neg_trans u v w : beats u v = false -> beats v w = false -> beats u w = false.
Proof.
  unfold beats, OP. pose proof (cmp_le_trans w v u) as T1. pose proof (cmp_le_trans u v w) as T2.
  pose proof (cmp_le_trans v w nil) as T3. pose proof (cmp_le_trans nil w v) as T4.
  destruct (cmp_sign u v) as (A & A0), (cmp_sign v u) as (A' & _), (cmp_sign v w) as (B & B0), (cmp_sign w v) as (B' & _),
    (cmp_sign u w) as (C & C0), (cmp_sign w u) as (C' & _).
  destruct min_wanted, (Z.eqb_spec (cmp w nil) 0), (Z.eqb_spec (cmp v nil) 0), (Z.eqb_spec (cmp u nil) 0);
    cbn; try discriminate; try reflexivity; lia.
Qed.

Lemma beats_trans u v w : beats u v = true -> beats v w = true -> beats u w = true.
Proof.
  intros H1 H2. destruct (beats u w) eqn:E; [reflexivity|].
  rewrite (beats_neg_trans v u w (beats_not_back u v H1) E) in H2. discriminate.
Qed.

Context (vals : list V).
Abbreviation val r := (nth (Z.to_nat r) vals nil).

(** [r] is the first of the best among [rows]. *)
Definition first_best (rows : list Z) (r : Z) : Prop :=
  exists l l', rows = l ++ r :: l' /\ (forall x, In x l -> beats (val r) (val x) = true)
    /\ (forall x, In x l' -> beats (val x) (val r) = false).

Lemma best_fold rows : forall seen b, first_best seen b ->
  first_best (seen ++ rows) (fold_left (fun b r => if beats (val r) (val b) then r else b) rows b).
Proof.
  induction rows as [|r rows IH]; intros seen b F; cbn [fold_left]; [now rewrite app_nil_r|].
  replace (seen ++ r :: rows) with ((seen ++ [r]) ++ rows) by now rewrite <- app_assoc. apply IH.
  destruct F as (l & l' & -> & Hl & Hl'). destruct (beats (val r) (val b)) eqn:Bt.
  - exists (l ++ b :: l'), []. split; [reflexivity|]. split; [|contradiction].
    intros x I. apply in_app_iff in I. destruct I as [I|[<-|I] ]; [|exact Bt|].
    + exact (beats_trans _ _ _ Bt (Hl x I)).
    + destruct (beats (val r) (val x)) eqn:E; [reflexivity|].
      now rewrite (beats_neg_trans _ _ _ E (Hl' x I)) in Bt.
  - exists l, (l' ++ [r]). split; [now rewrite <- app_assoc|]. split; [exact Hl|].
    intros x I. apply in_app_iff in I. destruct I as [I|[<-|[] ] ]; [now apply Hl'|exact Bt].
Qed.

Lemma best_of rows r : first_best (r :: rows) (fold_left (fun b r => if beats (val r) (val b) then r else b) rows r).
Proof. apply (best_fold rows [r] r). exists [], []. split; [reflexivity|]. split; contradiction. Qed.

(** ** The loop *)

Section Loop.

Context (skip_nils : bool) (hseq : Z) (group : Z -> option Z).
Hypothesis (Small : hseq + Z.of_nat (List.length vals) <= oid_nil).

Definition eligible (r : Z) : bool := negb skip_nils || negb (cmp (val r) nil =? 0).

Definition pick_cell (r o : Z) : Z :=
  if eligible r then
    if o =? oid_nil then r + hseq
    else if beats (val r) (val (o - hseq)) then r + hseq else o
  else o.

Abbreviation loop := (fold_left (pick_row cmp nil OP skip_nils hseq vals group)).

Lemma pick_row_cell st r k :
  fst (pick_row cmp nil OP skip_nils hseq vals group st r) k
  = if in_group group k r then pick_cell r (fst st k) else fst st k.
Proof.
  destruct st as [oids nils]. unfold pick_row, in_group. destruct (group r) as [q|]; [|reflexivity]. cbn [fst].
  unfold pick_cell, eligible, beats.
  case (Z.eqb_spec q k); intros E; [subst q|].
  - destruct (negb skip_nils || _); [|reflexivity]. destruct (oids k =? oid_nil); cbn [fst]; [now rewrite wset_same|].
    destruct (negb _ && _); cbn [fst]; [now rewrite wset_same|reflexivity].
  - destruct (negb skip_nils || _); [|reflexivity]. destruct (oids q =? oid_nil); cbn [fst]; [now rewrite wset_other by congruence|].
    destruct (negb _ && _); cbn [fst]; [now rewrite wset_other by congruence|reflexivity].
Qed.

Lemma loop_cell rows : forall st k,
  fst (loop rows st) k = fold_left (fun o r => pick_cell r o) (List.filter (in_group group k) rows) (fst st k).
Proof.
  induction rows as [|r rows IH]; intros st k; [reflexivity|]. cbn [fold_left List.filter].
  rewrite IH, pick_row_cell. now destruct (in_group group k r).
Qed.

(** The cell of a group holds the oid of its best row. *)
Lemma cell_best rows : (forall r, In r rows -> 0 <= r < Z.of_nat (List.length vals)) ->
  fold_left (fun o r => pick_cell r o) rows oid_nil
  = match List.filter eligible rows with
    | [] => oid_nil
    | r :: rs => fold_left (fun b r => if beats (val r) (val b) then r else b) rs r + hseq
    end.
Proof.
  intros B.
  assert (Go : forall rows b, (forall r, In r rows -> 0 <= r < Z.of_nat (List.length vals)) ->
            0 <= b < Z.of_nat (List.length vals) ->
            fold_left (fun o r => pick_cell r o) rows (b + hseq)
            = fold_left (fun b r => if beats (val r) (val b) then r else b) (List.filter eligible rows) b + hseq).
  { clear rows B. induction rows as [|r rows IH]; intros b B Bb; [reflexivity|]. cbn [fold_left List.filter].
    unfold pick_cell at 2. destruct (eligible r); [|apply IH; auto; intros x I; apply B; now right].
    rewrite (proj2 (Z.eqb_neq _ _)) by lia. cbn [fold_left]. replace (b + hseq - hseq) with b by lia.
    destruct (beats (val r) (val b)); apply IH; auto; intros; apply B; (now left) || now right. }
  induction rows as [|r rows IH]; [reflexivity|]. cbn [fold_left List.filter]. unfold pick_cell at 2.
  destruct (eligible r); [|apply IH; intros x I; apply B; now right].
  cbn [Z.eqb]. rewrite Z.eqb_refl. apply Go; [intros x I; apply B; now right|apply B; now left].
Qed.

Lemma loop_nils n rows : (forall r k, In r rows -> group r = Some k -> 0 <= k < Z.of_nat n) ->
  (forall r, In r rows -> 0 <= r < Z.of_nat (List.length vals)) ->
  forall st, snd st = missing n (fst st) -> snd (loop rows st) = missing n (fst (loop rows st)).
Proof.
  induction rows as [|r rows IH]; intros G B st S; [exact S|]. cbn [fold_left].
  apply IH; [intros x k I; apply G; now right|intros x I; apply B; now right|].
  destruct st as [oids nils]. unfold pick_row. cbn [fst snd] in S. destruct (group r) as [k|] eqn:E; [|exact S].
  specialize (G r k (or_introl eq_refl) E). specialize (B r (or_introl eq_refl)).
  destruct (negb skip_nils || _); [|exact S]. destruct (oids k =? oid_nil) eqn:Q.
  - cbn [fst snd]. rewrite missing_wset, Q by lia. lia.
  - destruct (negb _ && _); [|exact S]. cbn [fst snd]. rewrite missing_wset, Q by lia. lia.
Qed.

End Loop.

End Extremes.

(** The result: for every group the oid of the first of its best rows, nil
    if it has no row that counts. *)
Definition picked {V} (cmp : V -> V -> Z) (nil : V) (min_wanted : bool) (skip_nils : bool) (hseq : Z) (vals : list V)
    (g : gbat) (e : option ebat) (s : option cands) (r : option obat) : Prop :=
  let '(min, max, ngrp) := group_range (Some g) e in
  exists bn, r = Some bn /\ o_hseq bn = (if ngrp =? 0 then 0 else min) /\ List.length (o_vals bn) = Z.to_nat ngrp
    /\ o_nonil bn = negb (o_nil bn) /\ (o_nil bn = true <-> In oid_nil (o_vals bn))
    /\ forall k, 0 <= k < ngrp ->
       let rows := List.filter (eligible cmp nil vals skip_nils) (group_rows hseq (List.length vals) g s min max k) in
       let o := nth (Z.to_nat k) (o_vals bn) 0 in
       (rows = [] /\ o = oid_nil) \/ exists r, first_best cmp nil min_wanted vals rows r /\ o = hseq + r.

Lemma group_picks_spec {V} (cmp : V -> V -> Z) `{!Comparison cmp} nil min_wanted skip_nils hseq vals g e s :
  grouped hseq (List.length vals) g e s -> hseq + Z.of_nat (List.length vals) <= oid_nil ->
  picked cmp nil min_wanted skip_nils hseq vals g e s
    (group_picks cmp nil (OP min_wanted) true hseq vals (Some g) e s skip_nils).
Proof.
  intros Ok Small. unfold picked, group_picks, BATgroupaggrinit. cbn [negb]. destruct (gd_aligned _ _ _ _ _ Ok) as (La & Lh).
  rewrite La, Lh, Nat.eqb_refl, Z.eqb_refl. cbn [negb orb]. rewrite andb_false_r.
  destruct (group_range (Some g) e) as [ [min max] ngrp] eqn:R. destruct (range_size _ _ g e s Ok min max ngrp R) as (N & _).
  destruct (CANDINIT hseq (List.length vals) s) as [ [st en] cand] eqn:C.
  destruct (visited_selected _ _ g e s Ok st en cand C) as (-> & Vs). cbn [i_ngrp i_min i_max i_start i_end i_cand].
  destruct ((List.length vals =? 0)%nat || (ngrp =? 0)) eqn:Tr.
  - rewrite orb_true_iff, Nat.eqb_eq, Z.eqb_eq in Tr. eexists. split; [reflexivity|]. cbn [o_hseq o_vals o_nil o_nonil].
    split; [reflexivity|]. split; [apply repeat_length|]. split; [reflexivity|]. split.
    + destruct (Z.to_nat ngrp); cbn; [split; [discriminate|contradiction]|]. split; [now left|reflexivity].
    + intros k K. left. rewrite (trivially_empty _ _ g e s min max ngrp) by assumption. split; [reflexivity|].
      assert (I : In (nth (Z.to_nat k) (repeat oid_nil (Z.to_nat ngrp)) 0) (repeat oid_nil (Z.to_nat ngrp)))
        by (apply nth_In; rewrite repeat_length; lia).
      now apply repeat_spec in I.
  - apply orb_false_iff in Tr. destruct Tr as (_ & Nz). apply Z.eqb_neq in Nz. rewrite (proj2 (Z.eqb_neq _ _) Nz), Vs.
    set (group := group_of _ _ _). set (rows := selected _ _ _).
    assert (Bd : forall r, In r rows -> 0 <= r < Z.of_nat (List.length vals)) by (intros r; apply selected_in).
    pose proof (loop_nils cmp nil min_wanted vals skip_nils hseq group Small (Z.to_nat ngrp) rows) as Ln.
    pose proof (loop_cell cmp nil min_wanted vals skip_nils hseq group rows (fun _ => oid_nil, ngrp)) as Lc.
    specialize (Ln ltac:(intros r k I E; pose proof (group_bound _ _ g e s Ok min max ngrp R ltac:(lia) r k I E); lia) Bd (fun _ => oid_nil, ngrp)).
    assert (S : snd (fun _ : Z => oid_nil, ngrp) = missing (Z.to_nat ngrp) (fst (fun _ : Z => oid_nil, ngrp))).
    { unfold missing. cbn [fst snd]. rewrite MergeJoin.filter_all by (intros; apply Z.eqb_refl). rewrite zrange_length. lia. }
    specialize (Ln S). destruct (fold_left _ _ _) as [oids nils]. cbn [fst snd] in Ln, Lc. eexists. split; [reflexivity|].
    cbn [o_hseq o_vals o_nil o_nonil]. split; [reflexivity|]. split; [now rewrite length_map, zrange_length|].
    split; [now rewrite negb_involutive|]. split; [rewrite negb_true_iff, Z.eqb_neq, Ln, missing_zero; destruct (in_dec Z.eq_dec oid_nil (map oids (zrange 0 (Z.to_nat ngrp)))); tauto|].
    intros k K. cbv zeta. rewrite (nth_indep _ 0 (oids 0)) by (rewrite length_map, zrange_length; lia).
    rewrite map_nth, nth_zrange, Z.add_0_l, Z2Nat.id by lia. rewrite Lc. unfold group, rows.
    rewrite (rows_of_group _ _ g e s Ok min max ngrp R ltac:(lia) k).
    rewrite (cell_best cmp nil min_wanted vals skip_nils hseq Small).
    + destruct (List.filter _ _) as [|r rs]; [now left|]. right. eexists. split; [apply best_of; assumption|]. lia.
    + intros r I. unfold group_rows in I. apply filter_In in I. now apply Bd.
Qed.

(** C23: [BATgroupmin] and [BATgroupmax] return for every group the first of the
    rows that no other row of the group beats; nil beats everything, unless nils are
    skipped.  A group without such a row has nil, and the flags say so.  This holds if the
    candidates begin at the first row or before it; if they begin behind it, rows get the groups of
    others ([extremes_shifted]). *)
Theorem group_extremes_exact {V} (cmp : V -> V -> Z) (Cmp : Comparison cmp) nil skip_nils hseq vals g e s
    (Ok : described hseq (List.length vals) g e s) (First : from_first_row hseq (List.length vals) s)
    (Small : hseq + Z.of_nat (List.length vals) <= oid_nil) :
  picked cmp nil true skip_nils hseq vals g e s (BATgroupmin cmp nil true hseq vals (Some g) e s skip_nils)
  /\ picked cmp nil false skip_nils hseq vals g e s (BATgroupmax cmp nil true hseq vals (Some g) e s skip_nils).
Proof.
  pose proof (Build_grouped _ _ g e s Ok First) as Gr.
  split; [exact (group_picks_spec cmp nil true _ _ _ _ _ _ Gr Small)|exact (group_picks_spec cmp nil false _ _ _ _ _ _ Gr Small)].
Qed.

(** ** Examples *)

Definition sample_vals : list Z := [5; int_nil; 7; 9].
Definition sample_ids : gbat := ids [1; 0; 1; 1].

Lemma sample_grouped : grouped 0 (List.length sample_vals) sample_ids None None.
Proof. exact (gr_rows _ _ _ _ three_groupable). Qed.

Lemma group_counts_exact_witness :
  option_map b_vals (BATgroupcount num_cmp int_nil 0 sample_vals (Some sample_ids) None None true) = Some [0; 3]
  /\ option_map b_vals (BATgroupsize 0 [0; 1; 1; 1] (Some sample_ids) None None) = Some [1; 2].
Proof.
  pose proof (group_counts_exact num_cmp int_nil 0 sample_vals sample_ids None None true sample_grouped) as (P & Q).
  specialize (Q [0; 1; 1; 1] eq_refl). unfold counted in P, Q.
  replace (group_range _ _) with (0, 1, 2) in P, Q by (vm_compute; reflexivity).
  destruct P as (bn & -> & _ & _ & _ & V), Q as (bn' & -> & _ & _ & _ & V'). cbn [option_map]. rewrite V, V'.
  split; reflexivity.
Defined.

Lemma group_extremes_exact_witness :
  option_map (fun bn => (o_vals bn, o_nil bn)) (BATgroupmin num_cmp int_nil true 0 sample_vals (Some sample_ids) None None true)
  = Some ([oid_nil; 0], true)
  /\ exists bn, BATgroupmax num_cmp int_nil true 0 sample_vals (Some sample_ids) None None false = Some bn
     /\ o_nil bn = false /\ nth 0 (o_vals bn) 0 = 1.
Proof.
  pose proof (group_extremes_exact num_cmp num_cmp_Comparison int_nil false 0 sample_vals sample_ids None None (gd_described _ _ _ _ _ sample_grouped)
    eq_refl ltac:(vm_compute; discriminate)) as (_ & P).
  split; [reflexivity|]. unfold picked in P. replace (group_range _ _) with (0, 1, 2) in P by (vm_compute; reflexivity).
  destruct P as (bn & E & _ & _ & _ & Nl & K). exists bn. split; [exact E|].
  assert (R : BATgroupmax num_cmp int_nil true 0 sample_vals (Some sample_ids) None None false = Some bn) by exact E.
  vm_compute in R. injection R as <-. split; reflexivity.
Defined.

(** ** What the theorems leave out *)

(** Candidates that begin behind the first row: row 1, of group 0, gets the group of row 2,
    and row 3, of group 1, what lies behind the groups, here 0. *)
Lemma extremes_shifted :
  option_map o_vals (BATgroupmax num_cmp int_nil true 0 [1; 2; 3; 4] (Some (ids [0; 0; 1; 1])) None (Some (Oids [1; 3])) true)
  = Some [3; 1].
Proof. reflexivity. Qed.
