(* ===== verification/AggrAvg.v ===== *)
(** * Averages

    gdk/gdk_aggr.c: [AVERAGE_ITER], which takes one more value into an average
    without adding them all up, and on top of it [AGGR_AVG] of [BATgroupavg]
    and [BATcalcavg], for integers.  The final division in floating point is
    left as the numbers that go into it. *)

From Stdlib Require Import ZArith Lia Bool List.
Import ListNotations.
From S2P Require Import Prelude Atoms Convert Arith CalcLoop CalcBat ConvertBat AggrInit Aggr.

Open Scope Z_scope.
Open Scope list_scope.

(** ** One step *)

(** The type in which C subtracts two values of the type. *)
Definition promoted (tp : num_type) (v : Z) : Z := match tp with TYPE_lng => i64 v | _ => i32 v end.

Section Iter.

Context (tp : num_type).

(** [while (z2 >= n)]. *)
Fixpoint round_up (fuel : nat) (n z1 z2 : Z) : option (Z * Z) :=
  match fuel with
  | O => None
  | S fuel => if z2 >=? n then round_up fuel n (store tp (z1 + 1)) (u64 (z2 - n)) else Some (z1, z2)
  end.

(** The loop that ends with a proper remainder. *)
Fixpoint round_down (fuel : nat) (n z1 z2 : Z) : option (Z * Z) :=
  match fuel with
  | O => None
  | S fuel =>
      let z1 := store tp (z1 - 1) in
      if z2 <? n then Some (z1, u64 (n - z2)) else round_down fuel n z1 (u64 (z2 - n))
  end.

(** The average is [a + r / n]; [x] comes in. *)
Definition AVERAGE_ITER (x a r n : Z) : option (Z * Z * Z) :=
  let n := u64 (n + 1) in
  let an := store tp (Z.quot a n) in
  let xn := store tp (Z.quot x n) in
  let z1 := store tp (xn - an) in
  let xn := store tp (x - store tp (xn * n)) in
  let an := store tp (a - store tp (an * n)) in
  match (if xn >=? an then round_up 3 n z1 (u64 (promoted tp (xn - an)))
         else round_down 3 n z1 (u64 (promoted tp (an - xn)))) with
  | None => None
  | Some (z1, z2) =>
      let a := store tp (a + z1) in
      let r := u64 (r + z2) in
      Some (if r >=? n then (store tp (a + 1), u64 (r - n), n) else (a, r, n))
  end.

End Iter.

(** ** The step is exact *)

Lemma quot_rem_bounds M v q : 0 < q -> -M <= v <= M ->
  let k := Z.quot v q in let m := v - k * q in
  -M <= k <= M /\ (2 <= q -> -M <= 2 * k <= M) /\ -q < m < q /\ -M <= m <= M /\ (0 < m -> 0 < v) /\ (m < 0 -> v < 0).
Proof.
  intros Q B. cbv zeta. pose proof (Z.quot_rem' v q) as E. set (k := Z.quot v q) in *. set (m := Z.rem v q) in *.
  replace (v - k * q) with m by lia.
  assert (Hm : (0 <= v -> 0 <= m < q) /\ (v <= 0 -> -q < m <= 0)).
  { split; intros S; [apply Z.rem_bound_pos; lia|]. pose proof (Z.rem_bound_pos (- v) q ltac:(lia) Q) as R.
    rewrite Z.rem_opp_l in R by lia. fold m in R. lia. }
  assert (Hk : (0 <= v -> 0 <= k /\ k * q <= v) /\ (v <= 0 -> k <= 0 /\ v <= k * q)).
  { split; intros S; (split; [|lia]).
    - apply Z.quot_pos; lia.
    - pose proof (Z.quot_pos (- v) q ltac:(lia) Q) as P. rewrite Z.quot_opp_l in P by lia. fold k in P. lia. }
  repeat split; try lia; nia.
Qed.

Section Exact.

Context (tp : num_type) (q : Z).
Hypothesis (Q : 1 <= q < 2 ^ 62).

Lemma round_up_spec z1 z2 : 0 <= z2 < 2 * q -> (q <= z2 -> typed tp (z1 + 1)) ->
  round_up tp 3 q z1 z2 = Some (if z2 <? q then (z1, z2) else (z1 + 1, z2 - q)).
Proof.
  intros B T. cbn [round_up]. rewrite !Z.geb_leb. destruct (Z.leb_spec q z2) as [L|L].
  - rewrite (uwrap_id 64 (z2 - q)), (store_id tp (z1 + 1)) by (auto; lia). replace (z2 <? q) with false by lia.
    replace (q <=? z2 - q) with false by lia. reflexivity.
  - now replace (z2 <? q) with true by lia.
Qed.

Lemma round_down_spec z1 z2 : 0 < z2 < 2 * q -> typed tp (z1 - 1) -> (q <= z2 -> typed tp (z1 - 2)) ->
  round_down tp 3 q z1 z2 = Some (if z2 <? q then (z1 - 1, q - z2) else (z1 - 2, 2 * q - z2)).
Proof.
  intros B T T2. cbn [round_down]. rewrite (store_id tp (z1 - 1)) by exact T. destruct (Z.ltb_spec z2 q) as [L|L].
  - now rewrite uwrap_id by lia.
  - rewrite (uwrap_id 64 (z2 - q)) by lia. replace (z2 - q <? q) with true by lia.
    replace (z1 - 1 - 1) with (z1 - 2) by lia. rewrite store_id, uwrap_id by (auto; lia).
    now replace (q - (z2 - q)) with (2 * q - z2) by lia.
Qed.

End Exact.

(** Few enough rows for the difference of two remainders to fit in [int]. *)
Definition countable (tp : num_type) (n : Z) : Prop := match tp with TYPE_int => n <= 2 ^ 30 | _ => n < 2 ^ 62 end.

(** The loop invariant that the code states: [n] values with the sum [total]. *)
Record mean (tp : num_type) (total a r n : Z) : Prop := {
  mn_total : a * n + r = total;
  mn_rest : 0 <= r < n \/ (n = 0 /\ a = 0 /\ r = 0);
  mn_proper : proper tp a;
}.

Lemma promoted_id tp q v : countable tp q -> -2 * q < v < 2 * q -> -2 * num_max tp <= v <= 2 * num_max tp -> promoted tp v = v.
Proof.
  intros C B T. destruct tp; unfold promoted, i32, i64; (apply swrap_id; [reflexivity|]); unfold srange; unfold countable in C;
    try change (num_max TYPE_bte) with 127 in T; try change (num_max TYPE_sht) with 32767 in T; lia.
Qed.

(** The last lines, once [x - a] is divided. *)
Lemma carry tp x a r n total z1 z2 : proper tp x -> countable tp (n + 1) -> mean tp total a r n ->
  x - a = z1 * (n + 1) + z2 -> 0 <= z2 <= n + 1 -> (n = 0 -> z2 = 0) ->
  let a1 := store tp (a + z1) in
  let r1 := u64 (r + z2) in
  exists a' r',
    (if r1 >=? n + 1 then (store tp (a1 + 1), u64 (r1 - (n + 1)), n + 1) else (a1, r1, n + 1)) = (a', r', n + 1)
    /\ mean tp (total + x) a' r' (n + 1).
Proof.
  intros Px C [E Rr Pa] D B Z0. assert (N : 0 <= n) by lia.
  assert (Cq : n + 1 < 2 ^ 62) by (unfold countable in C; destruct tp; lia).
  set (M := num_max tp). assert (Mn : num_nil tp = - M - 1) by (unfold M; now destruct tp).
  unfold proper in *. fold M in Px, Pa. rewrite Mn in Px, Pa. cbv zeta.
  assert (T : (a + z1) * (n + 1) + (r + z2) = total + x) by lia.
  assert (Up : total + x < (M + 1) * (n + 1)) by nia. assert (Lo : - M * (n + 1) <= total + x) by nia.
  assert (A : forall a' r', a' * (n + 1) + r' = total + x -> 0 <= r' < n + 1 -> - M <= a' <= M) by (intros a' r' Ea Er; nia).
  assert (Ty : forall v, -M - 1 <= v <= M -> store tp v = v) by (intros v V; apply store_id; unfold typed; fold M; lia).
  rewrite (uwrap_id 64 (r + z2)) by lia. rewrite Z.geb_leb. destruct (Z.leb_spec (n + 1) (r + z2)) as [L|L].
  - pose proof (A (a + z1 + 1) (r + z2 - (n + 1)) ltac:(lia) ltac:(lia)) as P. rewrite (Ty (a + z1)), Ty, uwrap_id by lia.
    eexists _, _. split; [reflexivity|]. split; [lia|lia|]. unfold proper. fold M. lia.
  - pose proof (A (a + z1) (r + z2) ltac:(lia) ltac:(lia)) as P. rewrite Ty by lia.
    eexists _, _. split; [reflexivity|]. split; [lia|lia|]. unfold proper. fold M. lia.
Qed.

Lemma AVERAGE_ITER_exact tp x a r n total : proper tp x -> countable tp (n + 1) -> mean tp total a r n ->
  exists a' r', AVERAGE_ITER tp x a r n = Some (a', r', n + 1) /\ mean tp (total + x) a' r' (n + 1).
Proof.
  intros Px C [E Rr Pa]. assert (N : 0 <= n) by lia. set (M := num_max tp) in *.
  assert (Mn : num_nil tp = - M - 1) by (unfold M; now destruct tp).
  assert (Cq : n + 1 < 2 ^ 62) by (destruct tp; cbn in C; lia).
  unfold proper in *. fold M in Px, Pa |- *. rewrite Mn in *.
  assert (Ty : forall v, -M - 1 <= v <= M -> store tp v = v) by (intros v V; apply store_id; unfold typed; fold M; lia).
  unfold AVERAGE_ITER. rewrite (uwrap_id 64 (n + 1)) by lia. set (q := n + 1) in *.
  destruct (quot_rem_bounds M a q ltac:(lia) ltac:(lia)) as (A1 & A2 & A3 & A4 & A5 & A6).
  destruct (quot_rem_bounds M x q ltac:(lia) ltac:(lia)) as (X1 & X2 & X3 & X4 & X5 & X6).
  set (aq := Z.quot a q) in *. set (xq := Z.quot x q) in *.
  assert (Ea : a = aq * q + (a - aq * q)) by lia. assert (Ex : x = xq * q + (x - xq * q)) by lia.
  set (ar := a - aq * q) in *. set (xr := x - xq * q) in *. rewrite (Ty aq), (Ty xq) by lia.
  rewrite (Ty (xq * q)), (Ty (aq * q)) by lia. fold ar xr. rewrite (Ty ar), (Ty xr) by lia.
  assert (Tz : -M <= xq - aq <= M) by (destruct (Z.eq_dec n 0); lia). rewrite (Ty (xq - aq)) by lia.
  assert (Odd : exists h, M = 2 * h + 1) by (unfold M; destruct tp; [now exists 63|now exists 16383|now exists (2 ^ 30 - 1)|now exists (2 ^ 62 - 1)]).
  destruct Odd as (h & Odd).
  pose proof (carry tp x a r n total) as K. unfold proper in K. fold M in K. rewrite Mn in K.
  assert (Me : mean tp total a r n) by (split; [exact E|exact Rr|unfold proper; fold M; lia]).
  rewrite Z.geb_leb. destruct (Z.leb_spec ar xr) as [L|L].
  - rewrite promoted_id with (q := q), (uwrap_id 64 (xr - ar)) by (fold M; auto; lia).
    rewrite (round_up_spec tp q) by (unfold typed; fold M; lia).
    destruct (Z.ltb_spec (xr - ar) q) as [S|S].
    + destruct (K (xq - aq) (xr - ar)) as (a' & r' & Eq & Me'); try lia; auto. exists a', r'. exact (conj (f_equal Some Eq) Me').
    + destruct (K (xq - aq + 1) (xr - ar - q)) as (a' & r' & Eq & Me'); try lia; auto. exists a', r'. exact (conj (f_equal Some Eq) Me').
  - rewrite promoted_id with (q := q), (uwrap_id 64 (ar - xr)) by (fold M; auto; lia).
    rewrite (round_down_spec tp q) by (unfold typed; fold M; lia).
    destruct (Z.ltb_spec (ar - xr) q) as [S|S].
    + destruct (K (xq - aq - 1) (q - (ar - xr))) as (a' & r' & Eq & Me'); try lia; auto. exists a', r'. exact (conj (f_equal Some Eq) Me').
    + destruct (K (xq - aq - 2) (2 * q - (ar - xr))) as (a' & r' & Eq & Me'); try lia; auto. exists a', r'. exact (conj (f_equal Some Eq) Me').
Qed.

(** ** Averages of groups *)

Definition wrd_nil : Z := num_nil TYPE_lng.

(** The body of [AGGR_AVG]: what it does with the average of a group.  [None]: a
    loop of [AVERAGE_ITER] did not end. *)
Definition avg_row (tp : num_type) (skip_nils : bool) (vals : list Z) (i : Z) (st : option (Z * Z * Z)) : option (Z * Z * Z) :=
  match st with
  | None => None
  | Some (a, r, n) =>
      let x := nth (Z.to_nat i) vals 0 in
      if x =? num_nil tp then Some (a, r, if negb skip_nils then wrd_nil else n)
      else if negb (n =? wrd_nil) then AVERAGE_ITER tp x a r n else st
  end.

(** A column of averages: [Some (a, r, n)] stands for the floating-point number
    [a + r / n]; and the counts that go with it. *)
Record avgs := mkAvgs {
  av_hseq : Z; av_vals : list (option (Z * Z * Z)); av_sorted : bool; av_revsorted : bool; av_key : bool;
  av_nil : bool; av_nonil : bool; av_counts : list Z;
}.

(** The end of [AGGR_AVG]. *)
Definition finished (st : option (Z * Z * Z)) : option (Z * Z * Z) :=
  match st with
  | Some (a, r, n) => if (n =? 0) || (n =? wrd_nil) then None else st
  | None => None
  end.
Definition count_of (v : option (Z * Z * Z)) : Z := match v with Some (_, _, n) => n | None => 0 end.

(** [BATconvert] to [dbl]: the loop for a wider type. *)
Definition BATconvert_dbl (b : bat) (s : option cands) (counts : list Z) : option avgs :=
  let cnt := BATcount b in
  let '(start, end_, cand) := CANDINIT (b_hseq b) cnt s in
  match convertimpl_enlarge (b_type b) TYPE_lng (b_vals b) cnt start end_ cand (b_hseq b) with
  | None => None
  | Some (nils, dst) =>
      Some (mkAvgs (b_hseq b) (map (fun v => if v =? wrd_nil then None else Some (v, 0, 1)) (read dst cnt))
              ((nils =? 0) && b_sorted b) ((nils =? 0) && b_revsorted b) (b_key b && (nils <=? 1))
              (negb (nils =? 0)) (nils =? 0) counts)
  end.

Definition BATgroupavg (b : bat) (g : option gbat) (e : option ebat) (s : option cands) (skip_nils : bool) : option avgs :=
  match BATgroupaggrinit (b_hseq b) (BATcount b) g e s, g with
  | Some i, Some g =>
      let n := Z.to_nat (i_ngrp i) in
      let few := (n <=? 1)%nat in
      let none := (1 <=? n)%nat in
      if (BATcount b =? 0)%nat || (i_ngrp i =? 0)
      then Some (mkAvgs (if i_ngrp i =? 0 then 0 else i_min i) (repeat None n) true true few none (negb none) (repeat 0 n))
      else if match e with None => true | Some e => (e_count e =? BATcount b)%nat && (e_hseq e =? b_hseq b) end
              && (g_tdense g || (g_tkey g && g_nonil g))
      then BATconvert_dbl b s (repeat 1 n)
      else
        let cells := visit (group_of (group_ids g (i_start i)) (i_min i) (i_max i)) (avg_row (b_type b) skip_nils (b_vals b))
                       (visited (b_hseq b) (i_start i) (i_end i) (i_cand i)) (fun _ => Some (0, 0, 0)) in
        if existsb (fun k => match cells k with None => true | _ => false end) (zrange 0 n) then None
        else
          let vals := map (fun k => finished (cells k)) (zrange 0 n) in
          let nils := existsb (fun v => match v with None => true | _ => false end) vals in
          Some (mkAvgs (i_min i) vals few few few nils (negb nils) (map count_of vals))
  | _, _ => None
  end.

Definition sum_of (vs : list Z) : Z := fold_right Z.add 0 vs.

Section Groups.

Context (tp : num_type) (skip_nils : bool) (vals : list Z).
Hypothesis (T : Forall (typed tp) vals).

Abbreviation value i := (nth (Z.to_nat i) vals 0).
Abbreviation step := (fun st i => avg_row tp skip_nils vals i st).
Abbreviation nil_in vs := (negb skip_nils && existsb (fun v => v =? num_nil tp) vs).

Lemma nil_stays rows : forall a r, fold_left step rows (Some (a, r, wrd_nil)) = Some (a, r, wrd_nil).
Proof.
  induction rows as [|i rows IH]; intros a r; [reflexivity|]. cbn [fold_left avg_row].
  rewrite Z.eqb_refl. cbn [negb]. destruct (_ =? _); [|apply IH]. destruct (negb skip_nils); apply IH.
Qed.

Lemma value_proper i : value i <> num_nil tp -> proper tp (value i).
Proof. intros N. destruct (typed_proper _ _ (nth_typed tp vals (Z.to_nat i) T)); [contradiction|assumption]. Qed.

Lemma avg_fold rows : forall a r n total, mean tp total a r n -> countable tp (n + Z.of_nat (List.length rows)) ->
  let vs := map (fun i => value i) rows in
  exists a' r' n', fold_left step rows (Some (a, r, n)) = Some (a', r', n')
    /\ (if nil_in vs then n' = wrd_nil
        else n' = n + Z.of_nat (List.length (values tp vs)) /\ mean tp (total + sum_of (values tp vs)) a' r' n').
Proof.
  induction rows as [|i rows IH]; intros a r n total Me C; cbv zeta.
  - exists a, r, n. split; [reflexivity|]. cbn. rewrite andb_false_r. rewrite !Z.add_0_r. now split.
  - cbn [fold_left map existsb avg_row values List.filter]. fold (values tp (map (fun i => value i) rows)).
    assert (C' : countable tp (n + 1 + Z.of_nat (List.length rows))) by (cbn [List.length] in C; unfold countable in *; destruct tp; lia).
    assert (C1 : countable tp (n + 1)) by (unfold countable in *; destruct tp; lia).
    assert (C0 : countable tp (n + Z.of_nat (List.length rows))) by (unfold countable in *; destruct tp; lia).
    destruct (Z.eqb_spec (value i) (num_nil tp)) as [E|N]; cbn [negb orb].
    + destruct (negb skip_nils) eqn:Sk; cbn [andb orb].
      * exists a, r, wrd_nil. split; [apply nil_stays|reflexivity].
      * exact (IH a r n total Me C0).
    + assert (Nn : n <> wrd_nil) by (destruct Me as [_ B _]; change wrd_nil with (- 2 ^ 63); lia).
      rewrite (proj2 (Z.eqb_neq n wrd_nil) Nn). cbn [negb].
      destruct (AVERAGE_ITER_exact tp (value i) a r n total (value_proper i N) C1 Me) as (a1 & r1 & -> & Me1).
      destruct (IH a1 r1 (n + 1) _ Me1 C') as (a' & r' & n' & F & R). exists a', r', n'. split; [exact F|].
      destruct (nil_in _); [exact R|]. destruct R as (-> & R). cbn [List.length sum_of fold_right].
      split; [lia|]. now rewrite Z.add_assoc.
Qed.

(** The average of a group with these values. *)
Definition average (vs : list Z) (v : option (Z * Z * Z)) : Prop :=
  if nil_in vs || match values tp vs with [] => true | _ => false end then v = None
  else exists a r, v = Some (a, r, Z.of_nat (List.length (values tp vs))) /\ 0 <= r < Z.of_nat (List.length (values tp vs))
       /\ a * Z.of_nat (List.length (values tp vs)) + r = sum_of (values tp vs).

Lemma finished_average rows : countable tp (Z.of_nat (List.length rows)) ->
  let st := fold_left step rows (Some (0, 0, 0)) in
  st <> None /\ average (map (fun i => value i) rows) (finished st).
Proof.
  intros C. cbv zeta.
  assert (Me : mean tp 0 0 0 0) by (split; [reflexivity|right; auto|apply zero_proper]).
  destruct (avg_fold rows 0 0 0 0 Me C) as (a & r & n & -> & R). split; [discriminate|].
  unfold average, finished. destruct (nil_in _); [subst n; cbn [orb]; now rewrite Z.eqb_refl, orb_true_r|].
  destruct R as (-> & [E B _]). rewrite !Z.add_0_l in *. cbn [orb]. destruct (values tp _) as [|v vs]; [reflexivity|].
  cbn [List.length] in *. rewrite (proj2 (Z.eqb_neq _ 0)) by lia.
  rewrite (proj2 (Z.eqb_neq _ wrd_nil)) by (change wrd_nil with (- 2 ^ 63); lia).
  exists a, r. split; [reflexivity|]. split; [lia|exact E].
Qed.

End Groups.

Lemma existsb_none {A} (l : list (option A)) :
  existsb (fun v => match v with None => true | _ => false end) l = true <-> In None l.
Proof.
  rewrite existsb_exists. split; [intros ( [v|] & I & E); [discriminate|exact I]|]. intros I. now exists None.
Qed.

Lemma countable_le tp n m : n <= m -> countable tp m -> countable tp n.
Proof. unfold countable. destruct tp; lia. Qed.

Lemma countable_small tp n : countable tp n -> n < 2 ^ 62.
Proof. unfold countable. destruct tp; lia. Qed.

Lemma group_rows_length hseq cnt g s min max k : (List.length (group_rows hseq cnt g s min max k) <= cnt)%nat.
Proof.
  unfold group_rows, selected. etransitivity; [apply filter_length_le|]. etransitivity; [apply filter_length_le|].
  now rewrite zrange_length.
Qed.

(** C24: [BATgroupavg] returns for every group the exact average [a + r / n] of
    its values, [0 <= r < n], together with their number; nil with count 0 for a group without
    values, or with a nil that is not to be skipped.  None of the loops of
    [AVERAGE_ITER] runs on, and nothing overflows, as long as there are no more than 2^30
    rows (2^62 for types other than [int]).  This holds if the candidates begin at the first row
    or before it, if the groups are listed, and if they are not marked as all different without nil,
    with extents that match the column, if any: otherwise rows get the groups of others, or the values are
    taken over in the order of the rows, as for sums ([groups_shifted], [singletons_unordered]). *)
Theorem group_averages_exact b g e s (skip_nils : bool)
    (Typed : Forall (typed (b_type b)) (b_vals b)) (Described : described (b_hseq b) (BATcount b) g e s)
    (First : from_first_row (b_hseq b) (BATcount b) s) (Listed : g_tdense g = false)
    (Shared : match e with None => true | Some e => (e_count e =? BATcount b)%nat && (e_hseq e =? b_hseq b) end
              && (g_tkey g && g_nonil g) = false)
    (Few : countable (b_type b) (Z.of_nat (BATcount b))) :
  let '(min, max, ngrp) := group_range (Some g) e in
  exists bn, BATgroupavg b (Some g) e s skip_nils = Some bn
    /\ av_hseq bn = (if ngrp =? 0 then 0 else min) /\ List.length (av_vals bn) = Z.to_nat ngrp
    /\ av_counts bn = map count_of (av_vals bn)
    /\ av_nonil bn = negb (av_nil bn) /\ (av_nil bn = true <-> In None (av_vals bn))
    /\ forall k, 0 <= k < ngrp ->
       average (b_type b) skip_nils (group_values b g s min max k) (nth (Z.to_nat k) (av_vals bn) None).
Proof.
  pose proof (Build_groupable b g e s Typed (Build_grouped _ _ g e s Described First) Listed Shared) as Ok.
  pose proof (gr_rows _ _ _ _ Ok) as Gr.
  destruct (group_range (Some g) e) as [ [min max] ngrp] eqn:R. destruct (range_size _ _ g e s Gr min max ngrp R) as (N & _).
  unfold BATgroupavg, BATgroupaggrinit. destruct (gd_aligned _ _ _ _ _ Gr) as (La & Lh).
  rewrite La, Lh, Nat.eqb_refl, Z.eqb_refl. cbn [negb orb]. rewrite andb_false_r, R.
  destruct (CANDINIT (b_hseq b) (BATcount b) s) as [ [st en] cand] eqn:C.
  destruct (visited_selected _ _ g e s Gr st en cand C) as (-> & V). cbn [i_ngrp i_min i_max i_start i_end i_cand].
  destruct ((BATcount b =? 0)%nat || (ngrp =? 0)) eqn:Tr.
  - rewrite orb_true_iff, Nat.eqb_eq, Z.eqb_eq in Tr. eexists. split; [reflexivity|]. cbn [av_hseq av_vals av_counts av_nil av_nonil].
    split; [reflexivity|]. split; [apply repeat_length|]. split; [now rewrite map_repeat|]. split; [reflexivity|]. split.
    + destruct (Z.to_nat ngrp); cbn; [split; [discriminate|contradiction]|]. split; [now left|reflexivity].
    + intros k K. rewrite nth_repeat. unfold group_values. rewrite (trivially_empty _ _ g e s min max ngrp) by assumption.
      unfold average. cbn. now rewrite orb_true_r.
  - apply orb_false_iff in Tr. destruct Tr as (_ & Nz). apply Z.eqb_neq in Nz.
    rewrite (gr_listed _ _ _ _ Ok). cbn [orb]. rewrite (gr_shared _ _ _ _ Ok), V, (proj2 (Z.eqb_neq _ _) Nz).
    set (cells := visit _ _ _ _).
    assert (Ce : forall k, cells k <> None /\ average (b_type b) skip_nils (group_values b g s min max k) (finished (cells k))).
    { intros k. unfold cells. rewrite visit_cell, (rows_of_group _ _ g e s Gr min max ngrp R ltac:(lia) k).
      apply (finished_average (b_type b) skip_nils (b_vals b) (gr_typed _ _ _ _ Ok)).
      apply (countable_le _ _ (Z.of_nat (BATcount b))); [|exact Few]. apply inj_le, group_rows_length. }
    replace (existsb _ (zrange 0 (Z.to_nat ngrp))) with false.
    2: { symmetry. apply not_true_iff_false. intros X. apply existsb_exists in X. destruct X as (k & _ & X).
         destruct (Ce k) as (Nn & _). now destruct (cells k). }
    eexists. split; [reflexivity|]. cbn [av_hseq av_vals av_counts av_nil av_nonil].
    split; [reflexivity|]. split; [now rewrite length_map, zrange_length|]. split; [reflexivity|]. split; [reflexivity|].
    split; [apply existsb_none|]. intros k K. rewrite (nth_indep _ None (finished (cells 0))) by (rewrite length_map, zrange_length; lia).
    rewrite (map_nth (fun k => finished (cells k))), nth_zrange, Z.add_0_l, Z2Nat.id by lia. apply Ce.
Qed.

(** ** The average of a column *)

Section Calcavg.

Context (tp : num_type) (vals : list Z).
Abbreviation value i := (nth (Z.to_nat i) vals 0).

(** The first loop of [AVERAGE_TYPE]: the sum, the number of values, and the rows from
    the one that overflows on. *)
Fixpoint sum_loop (rows : list Z) (sum n : Z) : Z * Z * list Z :=
  match rows with
  | [] => (sum, n, [])
  | i :: rest =>
      if value i =? num_nil tp then sum_loop rest sum n
      else match ADD_WITH_CHECK TYPE_lng (value i) sum with
           | Val v => sum_loop rest v (u64 (n + 1))
           | _ => (sum, n, rows)
           end
  end.

(** The second loop goes on from row [i], and follows the candidates by itself.
    [None]: it reads behind them, or a loop of [AVERAGE_ITER] does not end. *)
Fixpoint avg_loop (fuel : nat) (i end_ : Z) (cand : option (list Z)) (seqb : Z) (a r n : Z) : option (Z * Z * Z) :=
  if i >=? end_ then Some (a, r, n)
  else
    match fuel with
    | O => None
    | S fuel =>
        match match cand with
              | None => Some (true, None, end_)
              | Some [] => None
              | Some (o :: l) =>
                  if i <? u64 (o - seqb) then Some (false, cand, end_)
                  else Some (true, Some l, match l with [] => i + 1 | _ => end_ end)
              end with
        | None => None
        | Some (false, cand, end_) => avg_loop fuel (i + 1) end_ cand seqb a r n
        | Some (true, cand, end_) =>
            if value i =? num_nil tp then avg_loop fuel (i + 1) end_ cand seqb a r n
            else match AVERAGE_ITER tp (value i) a r n with
                 | None => None
                 | Some (a, r, n) => avg_loop fuel (i + 1) end_ cand seqb a r n
                 end
        end
    end.

(** The average of the values added up so far, rounded down. *)
Definition start_avg (sum n : Z) : Z * Z :=
  if sum >=? 0 then (store tp (Z.quot sum n), u64 (Z.rem sum n))
  else
    let sum := i64 (- sum) in
    let a := store tp (- store tp (Z.quot sum n)) in
    let r := u64 (Z.rem sum n) in
    if negb (r =? 0) then (store tp (a - 1), u64 (n - r)) else (a, r).

End Calcavg.

(** [*avg] is [sum / n] or [a + r / n], in floating point. *)
Inductive avg_result := Quotient (sum n : Z) | Average (a r n : Z).

Definition BATcalcavg (b : bat) (s : option cands) : option (avg_result * Z) :=
  let '(start, end_, cand) := CANDINIT (b_hseq b) (BATcount b) s in
  let rows := visited (b_hseq b) start end_ cand in
  let '(sum, n, rest) := sum_loop (b_type b) (b_vals b) rows 0 0 in
  match rest with
  | [] => Some (Quotient sum n, n)
  | i :: _ =>
      let '(a, r) := start_avg (b_type b) sum n in
      let cand := option_map (skipn (List.length rows - List.length rest)) cand in
      match avg_loop (b_type b) (b_vals b) (end_ - Z.to_nat i) i (Z.of_nat end_) cand (b_hseq b) a r n with
      | None => None
      | Some (a, r, n) => Some (Average a r n, n)
      end
  end.

Lemma start_avg_mean tp sum n : proper TYPE_lng sum -> 0 < n < 2 ^ 62 -> - num_max tp * n <= sum <= num_max tp * n ->
  let '(a, r) := start_avg tp sum n in mean tp sum a r n.
Proof.
  set (M := num_max tp). intros P N B. unfold proper in P. cbn in P. assert (Mn : num_nil tp = - M - 1) by (unfold M; now destruct tp).
  assert (Ty : forall v, - M - 1 <= v <= M -> store tp v = v) by (intros v V; apply store_id; unfold typed; fold M; lia).
  unfold start_avg. rewrite Z.geb_leb. destruct (Z.leb_spec 0 sum) as [S|S].
  - rewrite Z.quot_div_nonneg, Z.rem_mod_nonneg by lia. pose proof (Z.div_mod sum n ltac:(lia)). pose proof (Z.mod_pos_bound sum n ltac:(lia)).
    assert (0 <= sum / n <= M) by nia. rewrite Ty, (uwrap_id 64) by lia. split; [lia|lia|unfold proper; fold M; lia].
  - assert (E : i64 (- sum) = - sum) by (apply swrap_id; [reflexivity|unfold srange; lia]). rewrite E.
    rewrite Z.quot_div_nonneg, Z.rem_mod_nonneg by lia. pose proof (Z.div_mod (- sum) n ltac:(lia)). pose proof (Z.mod_pos_bound (- sum) n ltac:(lia)).
    assert (0 <= - sum / n <= M) by nia. rewrite (Ty (- sum / n)), (Ty (- (- sum / n))), (uwrap_id 64 (- sum mod n)) by lia.
    case Z.eqb_spec; intros R; cbn [negb].
    + split; [lia|lia|unfold proper; fold M; lia].
    + assert (- sum / n < M) by nia. rewrite Ty, (uwrap_id 64) by lia. split; [lia|lia|unfold proper; fold M; lia].
Qed.

Section Calcavg_exact.

Context (tp : num_type) (vals : list Z).
Hypothesis (T : Forall (typed tp) vals).
Abbreviation value i := (nth (Z.to_nat i) vals 0).
Abbreviation M := (num_max tp).
Abbreviation vs rows := (values tp (map (fun i => value i) rows)).

Lemma sum_loop_spec rows : forall sum n,
  proper TYPE_lng sum -> 0 <= n -> n + Z.of_nat (List.length rows) < 2 ^ 62 -> - M * n <= sum <= M * n ->
  let '(sum', n', rest) := sum_loop tp vals rows sum n in
  exists done, rows = done ++ rest /\ sum' = sum + sum_of (vs done) /\ n' = n + Z.of_nat (List.length (vs done))
    /\ proper TYPE_lng sum' /\ - M * n' <= sum' <= M * n' /\ (rest <> [] -> 0 < n').
Proof.
  induction rows as [|i rows IH]; intros sum n P N L B; cbn [sum_loop].
  { exists []. cbn [app map values List.filter sum_of fold_right List.length]. change (Z.of_nat 0) with 0. rewrite !Z.add_0_r.
    do 3 (split; [reflexivity|]). split; [exact P|]. split; [exact B|]. intros Ne. now destruct Ne. }
  cbn [List.length] in L. case Z.eqb_spec; intros E.
  - specialize (IH sum n P N ltac:(lia) B). destruct (sum_loop tp vals rows sum n) as [ [sum' n'] rest].
    destruct IH as (d & -> & R). exists (i :: d). split; [reflexivity|]. cbn [map values List.filter].
    rewrite (proj2 (Z.eqb_eq _ _) E). cbn [negb]. exact R.
  - pose proof (value_proper tp vals T i E) as X.
    destruct (sum_exact tp TYPE_lng (value i) sum) as [ (P' & ->)|(P' & ->)]; [now destruct tp|exact X|exact P| |].
    + rewrite (uwrap_id 64) by lia. unfold proper in X. replace (num_nil tp) with (- M - 1) in X by now destruct tp.
      specialize (IH (value i + sum) (n + 1) P' ltac:(lia) ltac:(lia) ltac:(nia)).
      destruct (sum_loop tp vals rows (value i + sum) (n + 1)) as [ [sum' n'] rest].
      destruct IH as (d & -> & -> & -> & R). exists (i :: d). split; [reflexivity|]. cbn [map values List.filter].
      rewrite (proj2 (Z.eqb_neq _ _) E). cbn [negb List.length sum_of fold_right]. fold (vs d) (sum_of (vs d)).
      split; [lia|]. split; [lia|]. replace (sum + (value i + sum_of (vs d))) with (value i + sum + sum_of (vs d)) by lia.
      replace (n + Z.of_nat (S (List.length (vs d)))) with (n + 1 + Z.of_nat (List.length (vs d))) by lia. exact R.
    + exists []. cbn [map values List.filter sum_of fold_right List.length app]. change (Z.of_nat 0) with 0. rewrite !Z.add_0_r.
      do 3 (split; [reflexivity|]). split; [exact P|]. split; [exact B|]. intros _. destruct (Z.eq_dec n 0) as [->|]; [|lia]. exfalso. apply P'.
      assert (sum = 0) by lia. subst sum. rewrite Z.add_0_r. apply (proper_wider tp); [destruct tp; cbn; lia|exact X].
Qed.

(** What is left of the rows when the second loop is at row [i]. *)
Definition follows (seqb i end_ : Z) (cand : option (list Z)) (rows : list Z) : Prop :=
  match cand with
  | None => rows = zrange i (Z.to_nat (end_ - i))
  | Some l => rows = map (fun o => u64 (o - seqb)) l /\ Sorted.StronglySorted Z.lt rows
              /\ Forall (fun j => i <= j < end_) rows /\ (l = [] -> end_ <= i)
  end.

Lemma avg_loop_mean seqb fuel : forall i end_ cand rows a r n total,
  follows seqb i end_ cand rows -> end_ - i <= Z.of_nat fuel ->
  mean tp total a r n -> countable tp (n + Z.of_nat (List.length rows)) ->
  exists a' r' n', avg_loop tp vals fuel i end_ cand seqb a r n = Some (a', r', n')
    /\ n' = n + Z.of_nat (List.length (vs rows)) /\ mean tp (total + sum_of (vs rows)) a' r' n'.
Proof.
  induction fuel as [|fuel IH]; intros i end_ cand rows a r n total Fo Fu Me C; cbn [avg_loop]; rewrite Z.geb_leb.
  1: rewrite (proj2 (Z.leb_le end_ i)) by lia. 2: destruct (Z.leb_spec end_ i) as [L|L].
  1,2: assert (rows = []) as -> by (destruct cand as [l|]; [destruct Fo as (_ & _ & F & _); destruct F; [reflexivity|lia]|
         rewrite Fo; now replace (Z.to_nat (end_ - i)) with O by lia]).
  1,2: exists a, r, n; cbn [map values List.filter sum_of fold_right List.length]; change (Z.of_nat 0) with 0; rewrite !Z.add_0_r; auto.
  assert (Take : forall cand' end' rows', follows seqb (i + 1) end' cand' rows' -> end' - (i + 1) <= Z.of_nat fuel ->
            rows = i :: rows' ->
            exists a' r' n', (if value i =? num_nil tp then avg_loop tp vals fuel (i + 1) end' cand' seqb a r n
               else match AVERAGE_ITER tp (value i) a r n with
                    | None => None
                    | Some (a, r, n) => avg_loop tp vals fuel (i + 1) end' cand' seqb a r n
                    end) = Some (a', r', n')
              /\ n' = n + Z.of_nat (List.length (vs rows)) /\ mean tp (total + sum_of (vs rows)) a' r' n').
  { intros cand' end' rows' Fo' Fu' ->. cbn [List.length] in C. cbn [map values List.filter].
    assert (C0 : countable tp (n + Z.of_nat (List.length rows'))) by (refine (countable_le tp _ _ _ C); lia).
    assert (C1 : countable tp (n + 1)) by (refine (countable_le tp _ _ _ C); lia).
    assert (C2 : countable tp (n + 1 + Z.of_nat (List.length rows'))) by (refine (countable_le tp _ _ _ C); lia).
    case Z.eqb_spec; intros E; cbn [negb].
    - exact (IH _ _ _ _ _ _ _ _ Fo' Fu' Me C0).
    - destruct (AVERAGE_ITER_exact tp (value i) a r n total (value_proper tp vals T i E) C1 Me) as (a1 & r1 & -> & Me1).
      destruct (IH _ _ _ _ _ _ _ _ Fo' Fu' Me1 C2) as (a' & r' & n' & F & -> & Me'). exists a', r'.
      eexists. split; [exact F|]. cbn [List.length sum_of fold_right]. fold (vs rows') (sum_of (vs rows')). split; [lia|]. now rewrite Z.add_assoc. }
  destruct cand as [ [|o l]|].
  - destruct Fo as (_ & _ & _ & X). specialize (X eq_refl). lia.
  - destruct Fo as (E & So & F & _). cbn [map] in E. subst rows. inversion So as [|? ? So' Fl]. inversion F as [|? ? Fi Fr]. subst.
    rewrite Forall_forall in Fl, Fr. case Z.ltb_spec; intros Lt.
    + apply IH; [|lia|exact Me|exact C]. split; [reflexivity|]. split; [exact So|]. split; [|discriminate].
      constructor; [lia|]. apply Forall_forall. intros j J. specialize (Fl j J). specialize (Fr j J). lia.
    + assert (Ei : u64 (o - seqb) = i) by lia. rewrite Ei in *.
      apply (Take (Some l) (match l with [] => i + 1 | _ => end_ end) (map (fun o => u64 (o - seqb)) l)); [|destruct l; lia|reflexivity].
      split; [reflexivity|]. split; [exact So'|]. split.
      * apply Forall_forall. intros j J. specialize (Fl j J). specialize (Fr j J). destruct l; [destruct J|lia].
      * intros ->. lia.
  - cbn [follows] in Fo. apply (Take None end_ (zrange (i + 1) (Z.to_nat (end_ - (i + 1))))); [reflexivity|lia|].
    rewrite Fo. now replace (Z.to_nat (end_ - i)) with (S (Z.to_nat (end_ - (i + 1)))) by lia.
Qed.

End Calcavg_exact.

Lemma zrange_tail lo m d i rest : zrange lo m = d ++ i :: rest ->
  i = lo + Z.of_nat (List.length d) /\ i :: rest = zrange i (Z.to_nat (lo + Z.of_nat m - i)).
Proof.
  revert lo m. induction d as [|x d IH]; intros lo m E; destruct m as [|m]; try discriminate; cbn [zrange app] in E; injection E as E1 E2.
  - subst i. cbn [List.length]. split; [lia|]. rewrite <- E2. replace (lo + Z.of_nat (S m) - lo) with (Z.of_nat (S m)) by lia.
    now rewrite Nat2Z.id.
  - destruct (IH _ _ E2) as (A & B). cbn [List.length]. split; [lia|]. rewrite B. f_equal. lia.
Qed.

Lemma sorted_tail (d l : list Z) : Sorted.StronglySorted Z.lt (d ++ l) -> Sorted.StronglySorted Z.lt l.
Proof. induction d as [|x d IH]; [auto|]. intros H. inversion H. auto. Qed.

Lemma sorted_map_shift c l : Sorted.StronglySorted Z.lt l -> Sorted.StronglySorted Z.lt (map (fun o => o - c) l).
Proof.
  induction 1 as [|o l _ IH F]; cbn [map]; constructor; [exact IH|]. apply Forall_map. eapply Forall_impl; [|exact F]. cbn. intros. lia.
Qed.

(** What is left after [sum_loop] is what the second loop goes through. *)
Lemma rest_follows hseq cnt s st en cand d i rest : 0 <= hseq -> hseq + Z.of_nat cnt < 2 ^ 64 -> cands_ok hseq cnt s ->
  CANDINIT hseq cnt s = (st, en, cand) -> visited hseq st en cand = d ++ i :: rest ->
  0 <= i /\ follows hseq i (Z.of_nat en)
              (option_map (skipn (List.length (visited hseq st en cand) - List.length (i :: rest))) cand) (i :: rest).
Proof.
  intros H0 H1 Ok C V. destruct cand as [l|].
  - destruct s as [ [q n|l']|]; [|destruct Ok as (So & F)|discriminate].
    { exfalso. revert C. destruct (MergeJoin.CANDINIT_dense hseq cnt q n) as (x & y & -> & _). discriminate. }
    destruct l' as [|o l']; [cbn in C; discriminate|]. rewrite CANDINIT_oids in C by (assumption || discriminate).
    injection C as <- <- <-. change (match l' with [] => o | _ :: _ => last l' 0 end) with (last (o :: l') 0) in *.
    set (l := o :: l') in *. cbn [visited] in *.
    pose proof (oids_bounds hseq cnt l F ltac:(discriminate)) as (Bh & Bl).
    assert (Ld : forall p, In p l -> hseq <= p < hseq + Z.of_nat (Z.to_nat (last l 0 + 1 - hseq))).
    { intros p I. pose proof (ascending_hd_last l p So I) as A. rewrite Forall_forall in F. specialize (F p I). lia. }
    rewrite (candidate_rows_map hseq _ l H0 Ld ltac:(lia)) in V |- *.
    assert (Sk : map (fun p => p - hseq) (skipn (List.length d) l) = i :: rest).
    { rewrite <- skipn_map, V. now rewrite skipn_app, skipn_all, Nat.sub_diag. }
    assert (Dl : Nat.sub (List.length (map (fun p => p - hseq) l)) (List.length (i :: rest)) = List.length d)
      by (rewrite V, length_app; cbn [List.length]; lia).
    rewrite Dl. cbn [option_map follows].
    assert (Sr : Sorted.StronglySorted Z.lt (i :: rest)) by (apply (sorted_tail d); rewrite <- V; now apply sorted_map_shift).
    assert (In_l : forall p, In p (skipn (List.length d) l) -> In p l) by (intros p I; rewrite <- (firstn_skipn (List.length d) l); apply in_app_iff; now right).
    split.
    { assert (I : In i (map (fun p => p - hseq) (skipn (List.length d) l))) by (rewrite Sk; now left).
      apply in_map_iff in I. destruct I as (p & <- & I). specialize (Ld p (In_l p I)). lia. }
    split; [|split; [exact Sr|split] ].
    + rewrite <- Sk. apply map_ext_in. intros p I. specialize (Ld p (In_l p I)). now rewrite uwrap_id by lia.
    + inversion Sr as [|? ? _ Fl]. subst. rewrite Forall_forall in Fl. apply Forall_forall. intros j J.
      assert (I : In j (map (fun p => p - hseq) (skipn (List.length d) l))) by (rewrite Sk; exact J).
      apply in_map_iff in I. destruct I as (p & <- & I). specialize (Ld p (In_l p I)).
      destruct J as [->|J]; [lia|]. specialize (Fl _ J). lia.
    + intros E. rewrite E in Sk. discriminate.
  - cbn [visited] in V. destruct (zrange_tail _ _ _ _ _ V) as (A & B). split; [lia|]. cbn [option_map follows].
    rewrite B. f_equal. assert ((List.length d < en - st)%nat).
    { apply (f_equal (@List.length Z)) in V. rewrite zrange_length, length_app in V. cbn [List.length] in V. lia. }
    lia.
Qed.

Lemma values_app tp l l' : values tp (l ++ l') = values tp l ++ values tp l'.
Proof. apply List.filter_app. Qed.

Lemma sum_of_app l l' : sum_of (l ++ l') = sum_of l + sum_of l'.
Proof. induction l as [|x l IH]; [reflexivity|]. change (x + sum_of (l ++ l') = x + sum_of l + sum_of l'). lia. Qed.

(** C25: [BATcalcavg] ends, and returns the number of values of the candidates
    that are not nil and their exact average: the quotient of their sum, when it
    fits, and otherwise [a + r / n] with [0 <= r < n]; with no values the
    quotient is 0 / 0.  There are at most 2^30 rows, so that the remainders fit in
    [int] (for types other than [int] less than 2^62). *)
Theorem column_average_exact b s (Ok : bat_ok b) (Cok : cands_ok (b_hseq b) (BATcount b) s)
    (Few : countable (b_type b) (Z.of_nat (BATcount b))) :
  let vs := values (b_type b) (selected_values b s) in
  match BATcalcavg b s with
  | Some (Quotient sum n, cnt) => cnt = n /\ n = Z.of_nat (List.length vs) /\ sum = sum_of vs
  | Some (Average a r n, cnt) => cnt = n /\ n = Z.of_nat (List.length vs) /\ a * n + r = sum_of vs /\ 0 <= r < n
  | None => False
  end.
Proof.
  cbv zeta. unfold BATcalcavg, selected_values. destruct (CANDINIT (b_hseq b) (BATcount b) s) as [ [st en] cand] eqn:C.
  destruct (ok_head b Ok) as (H0 & H1). rewrite <- (visited_rows _ _ s st en cand H0 H1 Cok C).
  pose proof (rest_follows (b_hseq b) (BATcount b) s st en cand) as Rf.
  assert (Len : (List.length (visited (b_hseq b) st en cand) <= BATcount b)%nat).
  { rewrite (visited_rows _ _ s st en cand H0 H1 Cok C). unfold selected. etransitivity; [apply filter_length_le|]. now rewrite zrange_length. }
  set (rows := visited _ _ _ _) in *. pose proof (ok_typed b Ok) as Ty. set (tp := b_type b) in *.
  assert (Fit : 0 + Z.of_nat (List.length rows) < 2 ^ 62) by (pose proof (countable_small _ _ Few); lia).
  pose proof (sum_loop_spec tp (b_vals b) Ty rows 0 0 (zero_proper TYPE_lng) ltac:(lia) Fit ltac:(lia)) as P.
  destruct (sum_loop tp (b_vals b) rows 0 0) as [ [sum n] rest].
  destruct P as (d & E & -> & -> & Ps & Bs & Nz). rewrite !Z.add_0_l in *. destruct rest as [|i rest].
  - rewrite E, app_nil_r. auto.
  - destruct (Rf d i rest H0 H1 Cok C E) as (I0 & Fo).
    specialize (Nz ltac:(discriminate)). set (vd := values tp (map _ d)) in *.
    assert (Ld : Z.of_nat (List.length vd) + Z.of_nat (List.length (i :: rest)) <= Z.of_nat (BATcount b)).
    { assert (L : (List.length vd <= List.length d)%nat) by (unfold vd, values; etransitivity; [apply filter_length_le|]; now rewrite length_map).
      rewrite E, length_app in Len. cbn [List.length] in *. lia. }
    pose proof (start_avg_mean tp (sum_of vd) (Z.of_nat (List.length vd)) Ps
      ltac:(pose proof (countable_small _ _ Few); lia) Bs) as Sa.
    destruct (start_avg tp (sum_of vd) (Z.of_nat (List.length vd))) as [a r].
    destruct (avg_loop_mean tp (b_vals b) Ty (b_hseq b) (en - Z.to_nat i) i (Z.of_nat en) _ (i :: rest) a r _ _ Fo
      ltac:(lia) Sa (countable_le tp _ _ Ld Few)) as (a' & r' & n' & -> & -> & [Me B _]).
    rewrite E, map_app, values_app, length_app, sum_of_app. split; [reflexivity|]. rewrite Nat2Z.inj_add. split; [reflexivity|]. split; [exact Me|lia].
Qed.

(** ** Examples *)

Lemma group_averages_exact_witness :
  exists bn, BATgroupavg three (Some (ids [1; 0; 1; 1])) None None true = Some bn
    /\ nth 1 (av_vals bn) None = Some (7, 0, 3) /\ nth 0 (av_vals bn) None = None.
Proof.
  pose proof (group_averages_exact three (ids [1; 0; 1; 1]) None None true
    (gr_typed _ _ _ _ three_groupable) (gr_rows _ _ _ _ three_groupable) eq_refl eq_refl eq_refl ltac:(vm_compute; discriminate)) as P.
  replace (group_range _ _) with (0, 1, 2) in P by (vm_compute; reflexivity).
  destruct P as (bn & E & _ & _ & _ & _ & _ & A). exists bn. split; [exact E|].
  split; [|exact (A 0 ltac:(lia))]. destruct (A 1 ltac:(lia)) as (a & r & V & B & S).
  change (Z.to_nat 1) with 1%nat in V. rewrite V.
  change (Z.of_nat (List.length (values (b_type three) (group_values three (ids [1; 0; 1; 1]) None 0 1 1)))) with 3 in *.
  change (sum_of _) with 21 in S. assert (a = 7) by lia. subst a. now replace r with 0 by lia.
Defined.

(** The largest values of [lng] do not fit in a sum. *)
Definition large : bat := mkBat TYPE_lng false 0 [2 ^ 63 - 1; 2 ^ 63 - 2; num_nil TYPE_lng; 2 ^ 63 - 4] false false false false false.

Lemma large_ok : bat_ok large.
Proof.
  split; cbn; try easy. repeat constructor; vm_compute; discriminate.
Qed.

Lemma column_average_exact_witness :
  BATcalcavg large None = Some (Average (2 ^ 63 - 3) 2 3, 3)
  /\ (2 ^ 63 - 3) * 3 + 2 = sum_of [2 ^ 63 - 1; 2 ^ 63 - 2; 2 ^ 63 - 4].
Proof.
  split; [reflexivity|].
  pose proof (column_average_exact large None large_ok I ltac:(vm_compute; reflexivity)) as P.
  change (BATcalcavg large None) with (Some (Average (2 ^ 63 - 3) 2 3, 3)) in P. apply P.
Defined.

(** The average of no values is 0 / 0, not nil; and when every row is its own
    group, a nil counts as one value. *)
Lemma averages_of_nothing :
  BATcalcavg (column []) None = Some (Quotient 0 0, 0)
  /\ option_map (fun bn => (av_vals bn, av_counts bn))
       (BATgroupavg (column [int_nil; 5]) (Some (mkGbat 0 [0; 1] false 0 true true true (fun _ => 0))) None None true)
     = Some ([None; Some (5, 0, 1)], [1; 1]).
Proof. split; reflexivity. Qed.

(** The remainder that [AVERAGE_ITER] adds is not always below [n], as its
    comment says: here it is 5 for [n = 5].  The carry makes up for it. *)
Lemma remainder_not_reduced :
  round_down TYPE_bte 3 5 0 5 = Some (-2, 5) /\ AVERAGE_ITER TYPE_bte (-3) 2 0 4 = Some (1, 0, 5).
Proof. split; reflexivity. Qed.
