(* ===== verification/PQueue.v ===== *)
(** * Priority queues and top-N

    monetdb5/modules/mal/pqueue.c: a priority queue is a BAT of object
    identifiers and values organised as a binary heap; [PQtopn] runs a column
    through a queue of bounded size.  The file shows that every operation keeps
    the heap order, that a queue refines a bag from which the first element is
    taken, and that [PQtopn] selects and orders the right rows. *)

From Stdlib Require Import ZArith Lia Bool List Permutation Sorted.
Import ListNotations.
From S2P Require Import Prelude Sort.

#[local] Open Scope nat_scope.

(** ** The heap *)

Section Queue.

(** The comparison of the type; [rev] when the macro is instantiated with [>],
    which makes [OPER] the test [LT] of the sorting functions. *)
Context {V : Type} (cmp : V -> V -> Z) (rev : bool).
#[local] Abbreviation OPER := (LT cmp rev).

(** A BAT of which [batCount] rows are in use; the values, by which it is
    organised, are the [heads] of the slots, the object identifiers the
    [tails]. *)
Record queue := mkQueue { batCount : nat; slots : arrays V Z }.

Definition parent (posel : nat) : nat := if posel mod 2 =? 1 then posel / 2 else (posel - 1) / 2.

Definition ht_swap (s : arrays V Z) (cur ins : nat) : arrays V Z := SWAP true s cur ins.

(** A slot is overwritten. *)
Definition put (s : arrays V Z) (i : nat) (idx : Z) (el : V) : arrays V Z :=
  mkArrays (fun k => if k =? i then el else heads s k) (fun k => if k =? i then idx else tails s k).

(** The loop of [pqueue_enqueue]; [None] when the fuel runs out. *)
Fixpoint move_up (fuel posel : nat) (s : arrays V Z) : option (arrays V Z) :=
  match fuel with
  | 0 => None
  | S fuel' =>
      if 0 <? posel then
        let p := parent posel in
        if OPER (heads s posel) (heads s p)
        then move_up fuel' p (ht_swap s p posel) else Some s
      else Some s
  end.

Definition pqueue_enqueue (h : queue) (idx : Z) (el : V) : option queue :=
  let posel := batCount h in
  match move_up (S posel) posel (put (slots h) posel idx el) with
  | None => None
  | Some s => Some (mkQueue (posel + 1) s)
  end.

(** The loop of [pqueue_movedowntop]. *)
Fixpoint move_down (fuel num_elems posel : nat) (s : arrays V Z) : option (arrays V Z) :=
  match fuel with
  | 0 => None
  | S fuel' =>
      if posel * 2 + 1 <? num_elems then
        let swap :=
          if posel * 2 + 2 <? num_elems then
            if OPER (heads s (posel * 2 + 1)) (heads s (posel * 2 + 2))
            then posel * 2 + 1 else posel * 2 + 2
          else posel * 2 + 1 in
        if OPER (heads s swap) (heads s posel)
        then move_down fuel' num_elems swap (ht_swap s posel swap) else Some s
      else Some s
  end.

Definition pqueue_movedowntop (h : queue) : option queue :=
  match move_down (S (batCount h)) (batCount h) 0 (slots h) with
  | None => None
  | Some s => Some (mkQueue (batCount h) s)
  end.

(** What an operation comes to. *)
Inductive outcome (A : Type) := Diverged | GDK_FAIL | GDK_SUCCEED (a : A).
#[global] Arguments Diverged {A}.
#[global] Arguments GDK_FAIL {A}.
#[global] Arguments GDK_SUCCEED {A} a.

Definition succeed {A} (r : option A) : outcome A :=
  match r with Some a => GDK_SUCCEED a | None => Diverged end.

(** The last row takes the place of the first.  Rows that were inserted since
    the BAT was created are not committed, so that [BUNdelete] of the last one
    drops it. *)
Definition pqueue_dequeue (h : queue) : outcome queue :=
  if batCount h =? 0 then GDK_FAIL
  else succeed (pqueue_movedowntop
         (mkQueue (batCount h - 1) (ht_swap (slots h) 0 (batCount h - 1)))).

(** On an empty queue this compares with whatever is in the first slot. *)
Definition pqueue_topreplace (h : queue) (idx : Z) (el : V) : option queue :=
  if OPER (heads (slots h) 0) el
  then pqueue_movedowntop (mkQueue (batCount h) (put (slots h) 0 idx el)) else Some h.

(** [heap2bat]: empties the queue into rows of an identifier and the
    identifier of the first of the rows with that value.  In the variant for
    other types of fixed size, [aliased], the value remembered is a pointer to
    the first slot, and so always equal to what is there. *)
Fixpoint drain (aliased : bool) (fuel : nat) (h : queue) (oo : Z) (ov : V) : outcome (list (Z * Z)) :=
  match fuel with
  | 0 => Diverged
  | S fuel' =>
      if batCount h =? 0 then GDK_SUCCEED []
      else
        let o := tails (slots h) 0 in
        let v := heads (slots h) 0 in
        let same := aliased || EQ cmp ov v in
        let oo := if same then oo else o in
        let ov := if same then ov else v in
        match pqueue_dequeue h with
        | Diverged => Diverged
        | GDK_FAIL => GDK_FAIL
        | GDK_SUCCEED h' =>
            match drain aliased fuel' h' oo ov with
            | GDK_SUCCEED rest => GDK_SUCCEED ((o, oo) :: rest)
            | r => r
            end
        end
  end.

Definition heap2bat (aliased : bool) (h : queue) : outcome (list (Z * Z)) :=
  match drain aliased (S (batCount h)) h (tails (slots h) 0) (heads (slots h) 0) with
  | GDK_SUCCEED n => GDK_SUCCEED (List.rev n)     (* BATrevert *)
  | r => r
  end.

(** *** Top-N *)

Definition BUN_MAX : Z := (2 ^ 63 - 2)%Z.

(** How many rows are wanted of [n]. *)
Definition limit (N : Z) (n : nat) : nat :=
  if (negb (N =? lng_nil) && (0 <=? N) && (N <=? BUN_MAX) && (N <? Z.of_nat n))%Z
  then Z.to_nat N else n.

Fixpoint enqueue_all (h : queue) (t : list (Z * V)) : option queue :=
  match t with
  | [] => Some h
  | (idx, v) :: t' => match pqueue_enqueue h idx v with None => None | Some h' => enqueue_all h' t' end
  end.

Fixpoint topreplace_all (h : queue) (t : list (Z * V)) : option queue :=
  match t with
  | [] => Some h
  | (idx, v) :: t' =>
      match pqueue_topreplace h idx v with None => None | Some h' => topreplace_all h' t' end
  end.

(** [alloc] tells whether [do_pqueue_init] gets its BAT, [fresh] is what the
    new slots hold. *)
Definition pqueue_topn (aliased alloc : bool) (fresh : arrays V Z) (t : list (Z * V)) (N : Z)
    : outcome (list (Z * Z)) :=
  let n := limit N (List.length t) in
  if negb alloc then GDK_FAIL
  else
    match enqueue_all (mkQueue 0 fresh) (firstn n t) with
    | None => Diverged
    | Some h =>
        match topreplace_all h (skipn n t) with
        | None => Diverged
        | Some h => heap2bat aliased h
        end
    end.

(** The rows of a column whose head is dense. *)
Definition void_rows (hseqbase : Z) (vals : list V) : list (Z * V) :=
  combine (map (fun i => (hseqbase + Z.of_nat i)%Z) (seq 0 (List.length vals))) vals.

Definition pqueue_topn_void (aliased alloc : bool) (fresh : arrays V Z) (hseqbase : Z)
    (vals : list V) (N : Z) : outcome (list (Z * Z)) :=
  pqueue_topn aliased alloc fresh (void_rows hseqbase vals) N.

End Queue.

Arguments queue V : clear implicits.

(** ** Heap order *)

Lemma parent_lt i : 0 < i -> parent i < i.
Proof.
  intros Hi. unfold parent. pose proof (Nat.mod_upper_bound i 2 ltac:(lia)).
  pose proof (Nat.div_mod_eq i 2). pose proof (Nat.div_mod_eq (i - 1) 2).
  destruct (Nat.eqb_spec (i mod 2) 1); lia.
Qed.

(** The children of [p]. *)
Lemma parent_child i p : 0 < i -> parent i = p <-> i = p * 2 + 1 \/ i = p * 2 + 2.
Proof.
  intros Hi. unfold parent. pose proof (Nat.mod_upper_bound i 2 ltac:(lia)).
  pose proof (Nat.mod_upper_bound (i - 1) 2 ltac:(lia)).
  pose proof (Nat.div_mod_eq i 2). pose proof (Nat.div_mod_eq (i - 1) 2).
  destruct (Nat.eqb_spec (i mod 2) 1); lia.
Qed.

Section HeapOrder.

Context {V : Type} (cmp : V -> V -> Z) `{!Comparison cmp} (rev : bool).
#[local] Abbreviation LE := (Sort.LE cmp rev).
#[local] Abbreviation OPER := (LT cmp rev).
#[local] Abbreviation queue := (queue V).

Lemma OPER_LE x y : OPER x y = negb (LE y x).
Proof. unfold LT, Sort.LE. pose proof (cmp_opposite x y). destruct rev; lia. Qed.

(** No row comes before its parent; [but] is left out. *)
Definition ordered_but (but : nat -> Prop) (n : nat) (s : arrays V Z) : Prop :=
  forall i, 0 < i < n -> ~ but i -> LE (heads s (parent i)) (heads s i) = true.

(** Nor before its grandparent, for the children of [p]. *)
Definition bridged (p n : nat) (s : arrays V Z) : Prop :=
  forall i, 0 < i < n -> 0 < p -> parent i = p -> LE (heads s (parent p)) (heads s i) = true.

Definition heap_ok (h : queue) : Prop := ordered_but (fun _ => False) (batCount h) (slots h).

(** [s'] is [s] with the rows of the first [n] slots permuted. *)
Definition shuffled (n : nat) (s s' : arrays V Z) : Prop := rearranged true 0 n s s'.

Lemma heads_ht_swap (s : arrays V Z) i j k : heads (ht_swap s i j) k = heads s (transpose i j k).
Proof. reflexivity. Qed.

(** The value that slot [k] has after a swap, by cases. *)
Ltac swapped :=
  rewrite ?heads_ht_swap; unfold transpose;
  repeat match goal with
         | |- context [?a =? ?b] => destruct (Nat.eqb_spec a b); try lia
         end; subst.

Lemma move_up_step n p s (q := parent p) :
  0 < p < n -> ordered_but (eq p) n s -> bridged p n s ->
  LE (heads s p) (heads s q) = true ->
  ordered_but (eq q) n (ht_swap s q p) /\ bridged q n (ht_swap s q p).
Proof.
  intros Hp O B L. pose proof (parent_lt p ltac:(lia)) as Hq. fold q in Hq.
  assert (up : forall i, 0 < i < n -> i <> p -> LE (heads s (parent i)) (heads s i) = true)
    by (intros i Hi Ne; now apply O).
  split; [intros i Hi Out|intros i Hi Pos Pi].
  - pose proof (parent_lt i ltac:(lia)).
    destruct (Nat.eq_dec i p) as [->|Ne]; [swapped; exact L|].
    destruct (Nat.eq_dec (parent i) q) as [E|Nq].
    + rewrite E. swapped. apply LE_trans with (heads s q); trivial. rewrite <- E. now apply up.
    + destruct (Nat.eq_dec (parent i) p) as [E|Np].
      * rewrite E. swapped. apply (B i); lia.
      * swapped. now apply up.
  - pose proof (parent_lt i ltac:(lia)). pose proof (parent_lt q ltac:(lia)).
    assert (G : LE (heads s (parent q)) (heads s q) = true) by (apply up; lia).
    destruct (Nat.eq_dec i p) as [->|Ne]; [swapped; exact G|].
    swapped. apply LE_trans with (heads s q); trivial.
    rewrite <- Pi at 1. now apply up.
Qed.

Lemma shuffled_swap n s i j : i < n -> j < n -> shuffled n s (ht_swap s i j).
Proof. intros. apply rearranged_SWAP; lia. Qed.

Lemma move_up_spec n fuel p s :
  p < n -> p < fuel -> ordered_but (eq p) n s -> bridged p n s ->
  exists s', move_up cmp rev fuel p s = Some s' /\ shuffled n s s'
             /\ heap_ok (mkQueue n s').
Proof.
  revert p s; induction fuel as [|fuel IH]; intros p s Hn Hf O B; [lia|]. simpl.
  assert (done : 0 < p -> LE (heads s (parent p)) (heads s p) = true -> heap_ok (mkQueue n s)).
  { intros Hp L i Hi _. simpl in *. destruct (Nat.eq_dec i p); subst; [assumption|]. apply O; lia. }
  destruct (Nat.ltb_spec 0 p) as [Hp|Hp].
  - pose proof (parent_lt p Hp). rewrite OPER_LE.
    destruct (LE (heads s (parent p)) (heads s p)) eqn:L; simpl.
    + exists s. split; [reflexivity|]. split; [apply rearranged_refl|now apply done].
    + apply LE_total in L; [|assumption].
      destruct (move_up_step n p s ltac:(lia) O B L) as [O' B'].
      destruct (IH (parent p) (ht_swap s (parent p) p)) as (s' & -> & R & K); try lia; trivial.
      exists s'. split; [reflexivity|]. split; [|exact K].
      apply rearranged_trans with (2 := R), (shuffled_swap n); lia.
  - exists s. split; [reflexivity|]. split; [apply rearranged_refl|].
    intros i Hi _. simpl in *. apply O; lia.
Qed.

(** [c] is a child of [p] before which no other child comes. *)
Definition best_child (n p c : nat) (s : arrays V Z) : Prop :=
  c < n /\ 0 < c /\ parent c = p
  /\ forall i, 0 < i < n -> parent i = p -> LE (heads s c) (heads s i) = true.

Lemma move_down_step n p c s :
  best_child n p c s ->
  ordered_but (fun i => parent i = p) n s -> bridged p n s ->
  LE (heads s c) (heads s p) = true ->
  ordered_but (fun i => parent i = c) n (ht_swap s p c) /\ bridged c n (ht_swap s p c).
Proof.
  intros (Hc & Hc0 & Pc & Best) O B L. pose proof (parent_lt c Hc0).
  split; [intros i Hi Out|intros i Hi Pos Pi].
  - pose proof (parent_lt i ltac:(lia)).
    destruct (Nat.eq_dec i c) as [->|Ne]; [rewrite Pc; swapped; exact L|].
    destruct (Nat.eq_dec (parent i) p) as [E|Np].
    + rewrite E. swapped. now apply Best.
    + destruct (Nat.eq_dec i p) as [->|Ni].
      * swapped. apply (B c); lia.
      * swapped. apply O; [lia|congruence].
  - rewrite Pc. pose proof (parent_lt i ltac:(lia)). swapped.
    apply O; lia.
Qed.

Lemma move_down_spec n fuel p s :
  p <= n -> n < p + fuel -> ordered_but (fun i => parent i = p) n s -> bridged p n s ->
  exists s', move_down cmp rev fuel n p s = Some s' /\ shuffled n s s'
             /\ heap_ok (mkQueue n s').
Proof.
  revert p s; induction fuel as [|fuel IH]; intros p s Hn Hf O B; [lia|]. simpl.
  destruct (Nat.ltb_spec (p * 2 + 1) n) as [Hc|Hc].
  2:{ exists s. split; [reflexivity|]. split; [apply rearranged_refl|].
      intros i Hi _. simpl in *. apply O; [lia|]. rewrite parent_child by lia. lia. }
  set (c := if p * 2 + 2 <? n then _ else _).
  assert (Best : best_child n p c s).
  { assert (c = p * 2 + 1 \/ c = p * 2 + 2 /\ c < n) as Cc
      by (unfold c; destruct (Nat.ltb_spec (p * 2 + 2) n); [destruct (OPER _ _)|]; lia).
    split; [lia|]. split; [lia|]. split; [apply parent_child; lia|].
    intros i Hi. rewrite parent_child by lia. unfold c.
    destruct (Nat.ltb_spec (p * 2 + 2) n); [|intros [->| ->]; [now apply LE_refl|lia]].
    rewrite OPER_LE. destruct (LE (heads s (p * 2 + 2)) (heads s (p * 2 + 1))) eqn:L; simpl;
      intros [->| ->]; trivial; try (now apply LE_refl). now apply LE_total. }
  clearbody c. pose proof Best as (Hcn & Hc0 & Pc & First).
  pose proof (parent_lt c Hc0). rewrite OPER_LE.
  destruct (LE (heads s p) (heads s c)) eqn:L; simpl.
  - exists s. split; [reflexivity|]. split; [apply rearranged_refl|].
    intros i Hi _. simpl in *. destruct (Nat.eq_dec (parent i) p) as [E|E]; [|now apply O].
    rewrite E. apply LE_trans with (heads s c); trivial. now apply First.
  - apply LE_total in L; [|assumption].
    destruct (move_down_step n p c s) as [O' B']; trivial.
    destruct (IH c (ht_swap s p c)) as (s' & -> & R & K); try lia; trivial.
    exists s'. split; [reflexivity|]. split; [|exact K].
    apply rearranged_trans with (2 := R), (shuffled_swap n); lia.
Qed.

(** Nothing comes before the top. *)
Lemma heap_top h i : heap_ok h -> i < batCount h -> LE (heads (slots h) 0) (heads (slots h) i) = true.
Proof.
  intros K. induction i as [i IH] using (well_founded_induction lt_wf). intros Hi.
  destruct (Nat.eq_dec i 0) as [->|Ne]; [now apply LE_refl|].
  pose proof (parent_lt i ltac:(lia)).
  apply LE_trans with (heads (slots h) (parent i)); trivial; [apply IH; lia|].
  apply K; [lia|tauto].
Qed.

End HeapOrder.

(** ** Operations on the contents *)

Section Contents.

Context {V : Type} (cmp : V -> V -> Z) `{!Comparison cmp} (rev : bool).
#[local] Abbreviation LE := (Sort.LE cmp rev).
#[local] Abbreviation OPER := (LT cmp rev).
#[local] Abbreviation queue := (queue V).
#[local] Abbreviation heap_ok := (heap_ok cmp rev).
#[local] Abbreviation EQ := (Sort.EQ cmp).

(** The rows in use, value first. *)
Definition contents (h : queue) : list (V * Z) := rows 0 (batCount h) (slots h).
Definition top (h : queue) : V * Z := (heads (slots h) 0, tails (slots h) 0).

(** Values in the order of the queue, and values before a row. *)
Definition no_later (x y : V * Z) : Prop := LE (fst x) (fst y) = true.
Definition below_all (x : V * Z) (l : list (V * Z)) : Prop := forall y, In y l -> no_later x y.

Lemma In_contents h y : In y (contents h) <->
  exists i, i < batCount h /\ y = (heads (slots h) i, tails (slots h) i).
Proof.
  unfold contents, rows. rewrite in_map_iff.
  split; intros (i & A & B); exists i; rewrite ?in_seq in *; split; (lia || now subst).
Qed.

Lemma length_contents h : List.length (contents h) = batCount h.
Proof. unfold contents, rows. now rewrite length_map, length_seq. Qed.

Lemma top_below_all h : heap_ok h -> below_all (top h) (contents h).
Proof. intros K y (i & Hi & ->)%In_contents. now apply heap_top. Qed.

Lemma shuffled_contents n s s' :
  shuffled n s s' -> Permutation (contents (mkQueue n s)) (contents (mkQueue n s')).
Proof. intros R. now apply (rearranged_rows true 0 n s s' R). Qed.

Lemma rows_snoc n (s : arrays V Z) : rows 0 (n + 1) s = rows 0 n s ++ [(heads s n, tails s n)].
Proof. unfold rows. now rewrite Nat.add_1_r, seq_S, map_app. Qed.

Lemma rows_ext (o n : nat) (s s' : arrays V Z) :
  (forall i, o <= i < o + n -> heads s i = heads s' i /\ tails s i = tails s' i) ->
  rows o n s = rows o n s'.
Proof.
  intros E. apply map_ext_in. intros i Hi%in_seq. destruct (E i ltac:(lia)). congruence.
Qed.

Lemma rows_put n (s : arrays V Z) idx el : rows 0 (n + 1) (put s n idx el) = rows 0 n s ++ [(el, idx)].
Proof.
  rewrite rows_snoc. simpl. rewrite Nat.eqb_refl. f_equal.
  apply rows_ext. intros i Hi. simpl. destruct (Nat.eqb_spec i n); [lia|]. tauto.
Qed.

Lemma rows_put0 n (s : arrays V Z) idx el :
  rows 0 (S n) (put s 0 idx el) = (el, idx) :: rows 1 n s.
Proof.
  unfold rows. simpl. f_equal. apply map_ext_in. intros i Hi%in_seq.
  destruct (Nat.eqb_spec i 0); [lia|reflexivity].
Qed.

Lemma enqueue_spec h idx el :
  heap_ok h ->
  exists h', pqueue_enqueue cmp rev h idx el = Some h' /\ heap_ok h'
    /\ Permutation (contents h') ((el, idx) :: contents h).
Proof.
  intros K. destruct h as [n s]. unfold pqueue_enqueue. simpl batCount; simpl slots.
  destruct (move_up_spec cmp rev (n + 1) (S n) n (put s n idx el)) as (s' & -> & R & K').
  - lia.
  - lia.
  - intros i Hi Ne. pose proof (parent_lt i ltac:(lia)). simpl.
    destruct (Nat.eqb_spec i n), (Nat.eqb_spec (parent i) n); try lia. apply K; simpl; [lia|tauto].
  - intros i Hi Hn E. pose proof (parent_lt i ltac:(lia)). lia.
  - eexists. split; [reflexivity|]. split; [exact K'|].
    rewrite <- (shuffled_contents _ _ _ R). unfold contents. simpl.
    rewrite rows_put. symmetry. apply Permutation_cons_append.
Qed.

(** A heap of which only the first row may be out of place. *)
Lemma movedowntop_spec n s :
  ordered_but cmp rev (fun i => parent i = 0) n s ->
  exists h', pqueue_movedowntop cmp rev (mkQueue n s) = Some h' /\ heap_ok h'
    /\ Permutation (contents h') (rows 0 n s).
Proof.
  intros O. unfold pqueue_movedowntop. simpl batCount; simpl slots.
  destruct (move_down_spec cmp rev n (S n) 0 s) as (s' & -> & R & K);
    [lia|lia|exact O|intros i Hi Pos; lia|].
  eexists. split; [reflexivity|]. split; [exact K|]. symmetry. exact (shuffled_contents _ _ _ R).
Qed.

Lemma dequeue_spec h :
  heap_ok h -> 0 < batCount h ->
  exists h', pqueue_dequeue cmp rev h = GDK_SUCCEED h' /\ heap_ok h'
    /\ S (batCount h') = batCount h /\ Permutation (contents h) (top h :: contents h').
Proof.
  intros K Hn. destruct h as [n s]. unfold pqueue_dequeue. simpl in *.
  destruct (Nat.eqb_spec n 0) as [|_]; [lia|]. destruct n as [|n]; [lia|].
  replace (S n - 1) with n by lia. set (s1 := ht_swap s 0 n).
  assert (O : ordered_but cmp rev (fun i => parent i = 0) n s1).
  { intros i Hi Ne. pose proof (parent_lt i ltac:(lia)). unfold s1. rewrite !heads_ht_swap.
    unfold transpose. repeat case Nat.eqb_spec; try lia. intros. apply K; simpl; [lia|tauto]. }
  destruct (movedowntop_spec n s1 O) as (h' & -> & K' & P).
  exists h'. split; [reflexivity|]. split; [exact K'|].
  assert (L : batCount h' = n).
  { rewrite <- (length_contents h'), (Permutation_length P). unfold rows.
    now rewrite length_map, length_seq. }
  split; [lia|]. rewrite P.
  rewrite (shuffled_contents (S n) s s1) by (apply shuffled_swap; lia).
  unfold contents. simpl batCount; simpl slots. rewrite <- Nat.add_1_r, rows_snoc.
  replace (heads s1 n, tails s1 n) with (top (mkQueue (S n) s)).
  - symmetry. apply Permutation_cons_append.
  - unfold top, s1. simpl. unfold exchange, transpose.
    rewrite Nat.eqb_refl. now destruct (Nat.eqb_spec n 0) as [->|].
Qed.

(** The row that [pqueue_topreplace] drops comes before those it keeps. *)
Lemma topreplace_spec h idx el :
  heap_ok h ->
  exists h' x, pqueue_topreplace cmp rev h idx el = Some h' /\ heap_ok h'
    /\ Permutation ((el, idx) :: contents h) (x :: contents h') /\ below_all x (contents h')
    /\ forall y, In y (contents h') -> exists z, In z (contents h) /\ no_later z y.
Proof.
  intros K. pose proof (top_below_all h K) as T.
  destruct h as [n s]. unfold pqueue_topreplace. simpl batCount; simpl slots.
  assert (keep : forall y, In y (contents (mkQueue n s)) ->
    exists z, In z (contents (mkQueue n s)) /\ no_later z y)
    by (intros y Hy; exists y; split; [exact Hy|now apply LE_refl]).
  rewrite (OPER_LE cmp rev). destruct (LE el (heads s 0)) eqn:L; simpl negb; cbv iota.
  - exists (mkQueue n s), (el, idx). split; [reflexivity|]. split; [exact K|].
    split; [reflexivity|]. split; [|exact keep].
    intros y Hy. unfold no_later. simpl. apply LE_trans with (heads s 0); trivial. now apply T.
  - apply LE_total in L; [|assumption].
    destruct (movedowntop_spec n (put s 0 idx el)) as (h' & E & K' & P).
    { intros i Hi Ne. simpl. destruct (Nat.eqb_spec i 0), (Nat.eqb_spec (parent i) 0); try lia.
      apply K; simpl; [lia|tauto]. }
    destruct n as [|n].
    + exists h', (el, idx). rewrite (Permutation_nil (Permutation_sym P)) in *.
      repeat (split; [assumption || reflexivity|]). split; intros y [].
    + rewrite rows_put0 in P. exists h', (top (mkQueue (S n) s)).
      split; [exact E|]. split; [exact K'|].
      assert (C : contents (mkQueue (S n) s) = top (mkQueue (S n) s) :: rows 1 n s) by reflexivity.
      split; [rewrite P, C; apply perm_swap|].
      assert (B : below_all (top (mkQueue (S n) s)) (contents h')).
      { intros y Hy. rewrite P in Hy. destruct Hy as [<-|Hy]; [exact L|].
        apply T. rewrite C. now right. }
      split; [exact B|]. intros y Hy. exists (top (mkQueue (S n) s)).
      split; [rewrite C; now left|now apply B].
Qed.

End Contents.

(** ** The queue as a bag *)

Section Refinement.

Context {V : Type} (cmp : V -> V -> Z) `{!Comparison cmp} (rev : bool).

(** A queue stands for the bag of its rows. *)
Definition stands_for (h : queue V) (m : list (V * Z)) : Prop :=
  heap_ok cmp rev h /\ Permutation (contents h) m.

(** C26: The priority queue refines a bag: a new queue is empty, enqueueing adds a
    row, dequeueing fails on an empty queue and otherwise takes away a row that
    no row comes before, and replacing the top adds a row and takes away one that
    no remaining row comes before.  All of them end, and all of them keep the
    heap order that the next operation relies on. *)
Theorem pqueue_refines_bag (h : queue V) (m : list (V * Z)) :
  stands_for h m ->
  (forall fresh, stands_for (mkQueue 0 fresh) [])
  /\ (forall idx el, exists h', pqueue_enqueue cmp rev h idx el = Some h' /\ stands_for h' ((el, idx) :: m))
  /\ (m = [] -> pqueue_dequeue cmp rev h = GDK_FAIL)
  /\ (m <> [] -> exists h' m', pqueue_dequeue cmp rev h = GDK_SUCCEED h' /\ stands_for h' m'
        /\ Permutation m (top h :: m') /\ below_all cmp rev (top h) m)
  /\ (forall idx el, exists h' x m', pqueue_topreplace cmp rev h idx el = Some h'
        /\ stands_for h' m' /\ Permutation ((el, idx) :: m) (x :: m') /\ below_all cmp rev x m').
Proof.
  intros [K P]. pose proof (Permutation_length P) as L. rewrite length_contents in L.
  split; [intros fresh; split; [intros i Hi; simpl in Hi; lia|reflexivity]|].
  split; [|split; [|split]].
  - intros idx el. destruct (enqueue_spec cmp rev h idx el K) as (h' & E & K' & P').
    exists h'. split; [exact E|]. split; [exact K'|]. now rewrite P', P.
  - intros ->. unfold pqueue_dequeue. simpl in L. now rewrite L.
  - intros Ne. destruct m as [|r m]; [easy|]. simpl in L.
    destruct (dequeue_spec cmp rev h K) as (h' & E & K' & _ & P'); [lia|].
    exists h', (contents h'). split; [exact E|]. split; [split; [exact K'|reflexivity]|].
    split; [now rewrite <- P|]. intros y Hy. apply (top_below_all cmp rev h K). now rewrite P.
  - intros idx el.
    destruct (topreplace_spec cmp rev h idx el K) as (h' & x & E & K' & P' & B & _).
    exists h', x, (contents h'). split; [exact E|]. split; [split; [exact K'|reflexivity]|].
    split; [now rewrite <- P|exact B].
Qed.

End Refinement.

(** A queue of three numbers, smallest first. *)
Definition sample_queue : queue Z :=
  mkQueue 3 (mkArrays (fun i => nth i [1; 5; 3]%Z 0%Z) (fun i => Z.of_nat i)).

Lemma sample_queue_stands : stands_for num_cmp false sample_queue [(1, 0); (5, 1); (3, 2)]%Z.
Proof.
  split; [|reflexivity]. intros i Hi _. simpl in Hi.
  destruct i as [|[|[|i]]]; try lia; reflexivity.
Defined.

Lemma pqueue_refines_bag_witness :
  exists h', pqueue_enqueue num_cmp false sample_queue 7 0%Z = Some h' /\ heads (slots h') 0 = 0%Z
    /\ stands_for num_cmp false h' [(0, 7); (1, 0); (5, 1); (3, 2)]%Z.
Proof.
  destruct (pqueue_refines_bag num_cmp false sample_queue _ sample_queue_stands) as (_ & E & _).
  destruct (E 7%Z 0%Z) as (h' & Eh & K). exists h'. split; [exact Eh|]. split; [|exact K].
  vm_compute in Eh. injection Eh as <-. reflexivity.
Defined.

(** ** Emptying a queue *)

Section TopN.

Context {V : Type} (cmp : V -> V -> Z) `{!Comparison cmp} (rev : bool).
#[local] Abbreviation LE := (Sort.LE cmp rev).
#[local] Abbreviation EQ := (Sort.EQ cmp).
#[local] Abbreviation queue := (queue V).
#[local] Abbreviation heap_ok := (heap_ok cmp rev).
#[local] Abbreviation no_later := (no_later cmp rev).

(** What [drain] says of rows that come out one after the other. *)
Fixpoint leaders (aliased : bool) (oo : Z) (ov : V) (l : list (V * Z)) : list (Z * Z) :=
  match l with
  | [] => []
  | (v, o) :: l' =>
      let same := aliased || EQ ov v in
      (o, if same then oo else o)
      :: leaders aliased (if same then oo else o) (if same then ov else v) l'
  end.

(** The identifier of the first row with a value. *)
Definition first_with (l : list (V * Z)) (v : V) : Z :=
  match find (fun r => EQ (fst r) v) l with Some r => snd r | None => 0%Z end.

Definition in_order (l : list (V * Z)) : Prop := StronglySorted no_later l.

Lemma drain_spec aliased fuel h oo ov :
  heap_ok h -> batCount h < fuel ->
  exists l, drain cmp rev aliased fuel h oo ov = GDK_SUCCEED (leaders aliased oo ov l)
    /\ Permutation (contents h) l /\ in_order l /\ hd_error l = (if batCount h =? 0 then None else Some (top h)).
Proof.
  revert h oo ov; induction fuel as [|fuel IH]; intros h oo ov K Hf; [lia|]. simpl.
  destruct (Nat.eqb_spec (batCount h) 0) as [E|Ne].
  - exists []. pose proof (length_contents h) as L. rewrite E in L.
    apply length_zero_iff_nil in L. rewrite L. repeat split; auto. constructor.
  - destruct (dequeue_spec cmp rev h K) as (h' & -> & K' & C & P); [lia|].
    set (same := aliased || _).
    destruct (IH h' (if same then oo else tails (slots h) 0) (if same then ov else heads (slots h) 0) K')
      as (l & -> & P' & S & _); [lia|].
    exists (top h :: l). split; [reflexivity|]. split; [now rewrite P, P'|]. split; [|reflexivity].
    constructor; [exact S|]. apply Forall_forall. intros y Hy.
    apply (top_below_all cmp rev h K). rewrite P, P'. now right.
Qed.

Lemma EQ_LE_iff x y : EQ x y = true <-> LE x y = true /\ LE y x = true.
Proof. rewrite (EQ_LE cmp rev). apply andb_true_iff. Qed.

Lemma EQ_congr x y z : EQ y z = true -> EQ x y = EQ x z.
Proof.
  rewrite EQ_LE_iff. intros [A B]. apply eq_true_iff_eq. rewrite !EQ_LE_iff.
  split; intros [C D]; split; eapply LE_trans; eauto.
Qed.

Lemma StronglySorted_app_r {A} (R : A -> A -> Prop) l1 l2 :
  StronglySorted R (l1 ++ l2) -> StronglySorted R l2.
Proof. induction l1 as [|a l1 IH]; simpl; [trivial|]. intros [S _]%StronglySorted_inv. auto. Qed.

Lemma find_ext {A} (f g : A -> bool) l : (forall x, f x = g x) -> find f l = find g l.
Proof. intros E. induction l as [|a l IH]; simpl; [reflexivity|]. now rewrite E, IH. Qed.

Lemma find_none_all {A} (f : A -> bool) l : (forall x, In x l -> f x = false) -> find f l = None.
Proof.
  induction l as [|a l IH]; simpl; [reflexivity|]. intros N. rewrite (N a (or_introl eq_refl)). auto.
Qed.

Lemma find_app_none {A} (f : A -> bool) l1 l2 :
  find f l1 = None -> find f (l1 ++ l2) = find f l2.
Proof. induction l1 as [|a l1 IH]; simpl; [trivial|]. destruct (f a); [discriminate|exact IH]. Qed.

(** The rows that came out are [pre]; [oo] leads the group of [ov]. *)
Lemma leaders_first_with pre l oo ov :
  in_order (pre ++ l) ->
  (forall r, In r pre -> LE (fst r) ov = true) ->
  first_with (pre ++ l) ov = oo ->
  (forall r, In r l -> LE ov (fst r) = true) ->
  leaders false oo ov l = map (fun r => (snd r, first_with (pre ++ l) (fst r))) l.
Proof.
  revert pre oo ov; induction l as [|[v o] l IH]; intros pre oo ov S Hp F Hl; [reflexivity|].
  simpl. pose proof (Hl (v, o) (or_introl eq_refl)) as Lv. simpl in Lv.
  assert (later : forall r, In r l -> LE v (fst r) = true).
  { apply StronglySorted_app_r, StronglySorted_inv in S as [_ S].
    rewrite Forall_forall in S. exact S. }
  assert (G : (if EQ ov v then oo else o) = first_with (pre ++ (v, o) :: l) v).
  { destruct (EQ ov v) eqn:E.
    - rewrite <- F. unfold first_with.
      rewrite (find_ext (fun r => EQ (fst r) v) (fun r => EQ (fst r) ov)); [reflexivity|].
      intros r. symmetry. now apply EQ_congr.
    - unfold first_with. rewrite find_app_none.
      + simpl. now rewrite (EQ_refl cmp).
      + apply find_none_all. intros r Hr. apply not_true_is_false. intros [_ X]%EQ_LE_iff.
        apply not_true_iff_false in E. apply E, EQ_LE_iff. split; [exact Lv|].
        apply LE_trans with (fst r); auto. }
  rewrite <- G. f_equal.
  replace (pre ++ (v, o) :: l) with ((pre ++ [(v, o)]) ++ l) in * by now rewrite <- app_assoc.
  apply IH.
  - exact S.
  - intros r [Hr|[<-|[]]]%in_app_iff; simpl; destruct (EQ ov v) eqn:E;
      try apply EQ_LE_iff in E as [E1 E2]; auto; [|now apply LE_refl].
    apply LE_trans with ov; auto.
  - destruct (EQ ov v); [exact F|symmetry; exact G].
  - intros r Hr. destruct (EQ ov v) eqn:E; [|now apply later].
    apply LE_trans with v; auto.
Qed.

Lemma leaders_in_order r l :
  in_order (r :: l) ->
  leaders false (snd r) (fst r) (r :: l) = map (fun x => (snd x, first_with (r :: l) (fst x))) (r :: l).
Proof.
  intros S. apply (leaders_first_with []); simpl; trivial.
  - intros x [].
  - unfold first_with. simpl. now rewrite (EQ_refl cmp).
  - apply StronglySorted_inv in S as [_ S]. rewrite Forall_forall in S.
    intros x [<-|Hx]; [now apply LE_refl|now apply S].
Qed.

Lemma heap2bat_spec h :
  heap_ok h ->
  exists l, heap2bat cmp rev false h
      = GDK_SUCCEED (List.rev (map (fun x => (snd x, first_with l (fst x))) l))
    /\ Permutation (contents h) l /\ in_order l.
Proof.
  intros K. unfold heap2bat.
  destruct (drain_spec false (S (batCount h)) h (tails (slots h) 0) (heads (slots h) 0) K)
    as (l & -> & P & S & D); [lia|].
  exists l. split; [|tauto]. destruct l as [|r l]; [reflexivity|].
  destruct (batCount h =? 0); [discriminate|]. injection D as ->.
  change (tails (slots h) 0) with (snd (top h)). change (heads (slots h) 0) with (fst (top h)).
  now rewrite leaders_in_order.
Qed.

(** *** Selecting *)

#[local] Abbreviation row_of := (fun r : Z * V => (snd r, fst r)).

Lemma enqueue_all_spec t h :
  heap_ok h ->
  exists h', enqueue_all cmp rev h t = Some h' /\ heap_ok h'
    /\ Permutation (contents h') (map row_of t ++ contents h).
Proof.
  revert h; induction t as [|[idx v] t IH]; intros h K; [exists h; now repeat split|].
  simpl. destruct (enqueue_spec cmp rev h idx v K) as (h1 & -> & K1 & P1).
  destruct (IH h1 K1) as (h2 & -> & K2 & P2). exists h2. split; [reflexivity|]. split; [exact K2|].
  rewrite P2, P1. simpl. symmetry. apply Permutation_middle.
Qed.

Lemma topreplace_all_spec t h dropped :
  heap_ok h -> (forall x, In x dropped -> below_all cmp rev x (contents h)) ->
  exists h' dropped', topreplace_all cmp rev h t = Some h' /\ heap_ok h'
    /\ Permutation (dropped ++ contents h ++ map row_of t) (dropped' ++ contents h')
    /\ batCount h' = batCount h
    /\ forall x, In x dropped' -> below_all cmp rev x (contents h').
Proof.
  revert h dropped; induction t as [|[idx v] t IH]; intros h dropped K B.
  - exists h, dropped. simpl. now rewrite app_nil_r.
  - simpl. destruct (topreplace_spec cmp rev h idx v K) as (h1 & x & -> & K1 & P1 & B1 & W).
    pose proof (Permutation_length P1) as L1. simpl in L1. rewrite !length_contents in L1.
    destruct (IH h1 (x :: dropped) K1) as (h2 & d2 & -> & K2 & P2 & C2 & B2).
    + intros z [<-|Hz]; [exact B1|]. intros y Hy. destruct (W y Hy) as (w & Hw & Lw).
      apply LE_trans with (fst w); trivial. now apply B.
    + exists h2, d2. split; [reflexivity|]. split; [exact K2|]. split; [|split; [lia|exact B2]].
      rewrite <- P2. simpl.
      transitivity (dropped ++ ((v, idx) :: contents h) ++ map row_of t).
      * apply Permutation_app_head. symmetry. apply Permutation_middle.
      * rewrite P1. simpl. symmetry. apply Permutation_middle.
Qed.

Lemma limit_le N n : limit N n <= n.
Proof.
  unfold limit. destruct (_ && _) eqn:E; [|lia]. rewrite !andb_true_iff in E. lia.
Qed.

(** C37: [PQtopn], for the types with a queue of their own, selects and orders: of
    the rows of a column it keeps as many as asked for, all of them when [N] is
    nil or negative or too large; no row that is left out comes after one that is
    kept; the rows that are kept come out in order, the last one in the order of
    the queue first, each with its identifier and that of the row that leads the
    rows of its value.  It always ends.  (The variant for all other types does not
    find the leaders: [topn_any_one_group].) *)
Theorem pqueue_topn_selects fresh (t : list (Z * V)) N :
  exists kept dropped,
    Permutation (map (fun r => (snd r, fst r)) t) (kept ++ dropped)
    /\ List.length kept = limit N (List.length t)
    /\ (forall x y, In x dropped -> In y kept -> LE (fst x) (fst y) = true)
    /\ in_order kept
    /\ pqueue_topn cmp rev false true fresh t N
       = GDK_SUCCEED (List.rev (map (fun r => (snd r, first_with kept (fst r))) kept)).
Proof.
  unfold pqueue_topn. simpl negb; cbv iota. set (n := limit N (List.length t)).
  destruct (enqueue_all_spec (firstn n t) (mkQueue 0 fresh)) as (h1 & -> & K1 & P1);
    [intros i Hi; simpl in Hi; lia|].
  destruct (topreplace_all_spec (skipn n t) h1 [] K1) as (h2 & dropped & -> & K2 & P2 & C & B);
    [intros x []|].
  destruct (heap2bat_spec h2 K2) as (kept & -> & P & S).
  unfold contents in P1 at 2. simpl in P1, P2. rewrite app_nil_r in P1.
  exists kept, dropped. split; [|split; [|split; [|split; [exact S|reflexivity]]]].
  - rewrite <- (firstn_skipn n t), map_app, <- P1, P2, P. apply Permutation_app_comm.
  - rewrite <- (Permutation_length P), length_contents, C, <- length_contents, (Permutation_length P1).
    rewrite length_map, length_firstn. pose proof (limit_le N (List.length t)) as Hn. fold n in Hn. lia.
  - intros x y Hx Hy. apply (B x Hx). now rewrite P.
Qed.

End TopN.

Lemma pqueue_topn_selects_witness :
  exists kept dropped,
    Permutation [(4, 10); (9, 11); (2, 12); (9, 13)]%Z (kept ++ dropped)
    /\ List.length kept = 2
    /\ (forall x y, In x dropped -> In y kept -> LE num_cmp true (fst x) (fst y) = true)
    /\ pqueue_topn num_cmp true false true (mkArrays (fun _ => 0%Z) (fun _ => 0%Z))
         [(10, 4); (11, 9); (12, 2); (13, 9)]%Z 2
       = GDK_SUCCEED (List.rev (map (fun r => (snd r, first_with num_cmp kept (fst r))) kept)).
Proof.
  destruct (pqueue_topn_selects num_cmp true (mkArrays (fun _ => 0%Z) (fun _ => 0%Z))
              [(10, 4); (11, 9); (12, 2); (13, 9)]%Z 2) as (kept & dropped & P & L & B & _ & E).
  exists kept, dropped. split; [exact P|]. split; [exact L|]. split; [exact B|exact E].
Defined.

(** ** The instances *)

Inductive pq_type := PQ_bte | PQ_sht | PQ_int | PQ_wrd | PQ_oid | PQ_lng | PQ_flt | PQ_dbl | PQ_any.
Inductive pq_kind := PQ_min | PQ_max.

(** The operator each instance of the macro is given: [true] for [>]. *)
Definition pqueueimpl_minmax (tp : pq_type) (k : pq_kind) : bool :=
  match tp, k with
  | PQ_wrd, PQ_max => false
  | PQ_oid, PQ_min => true
  | _, PQ_min => false
  | _, PQ_max => true
  end.

(** The minimum and the maximum queue of a type differ for every type but
    [wrd], where both keep the largest values, and [oid], where both keep the
    smallest. *)
Lemma minmax_differ tp :
  pqueueimpl_minmax tp PQ_min = pqueueimpl_minmax tp PQ_max <-> tp = PQ_wrd \/ tp = PQ_oid.
Proof. destruct tp; cbn; split; intros H; try discriminate; try tauto; now destruct H. Qed.

Definition no_slots : arrays Z Z := mkArrays (fun _ => 0%Z) (fun _ => 0%Z).

(** Two of five numbers, from each queue; the same by [PQtopn_wrdmax]. *)
Lemma topn_instances_differ :
  let top2 tp k := pqueue_topn_void num_cmp (pqueueimpl_minmax tp k) false true no_slots 10 [4; 9; 2; 9; 7]%Z 2 in
  top2 PQ_lng PQ_max = GDK_SUCCEED [(12, 12); (10, 10)]%Z
  /\ top2 PQ_lng PQ_min = GDK_SUCCEED [(11, 13); (13, 13)]%Z
  /\ top2 PQ_wrd PQ_max = top2 PQ_lng PQ_min
  /\ top2 PQ_oid PQ_min = top2 PQ_lng PQ_max.
Proof. now vm_compute. Qed.

(** The variant for other types of fixed size puts all rows in one group. *)
Lemma topn_any_one_group :
  pqueue_topn_void num_cmp (pqueueimpl_minmax PQ_any PQ_max) true true no_slots 10 [4; 9; 2; 9; 7]%Z 2
  = GDK_SUCCEED [(12, 10); (10, 10)]%Z.
Proof. now vm_compute. Qed.
