(* ===== verification/Sequence.v ===== *)
(** * SQL sequences

    sql/storage/store_sequence.c: number generators that hand out values from
    memory and write ahead to the log, every [cacheinc] values, the value to go
    on from after a crash; with [logger_sequence] and [log_sequence] of
    gdk/gdk_logger.c underneath.  The file shows that no value is handed out
    twice, whatever is interleaved and whenever the server crashes, that
    looking at the next value and drawing in bulk agree with drawing one by one,
    and that a cyclic sequence comes back to every value. *)

From Stdlib Require Import ZArith Lia Bool List Sorted.
From stdpp Require Import base gmap.
From S2P Require Import Prelude.

Open Scope Z_scope.

(** ** Data *)

(** The fields of a [sql_sequence] that the generator reads; [base_old] is
    [base.flag == TR_OLD]. *)
Record sql_sequence := mkSequence {
  base_id : Z;
  base_old : bool;
  start : Z;
  minvalue : Z;
  maxvalue : Z;
  increment : Z;
  cacheinc : Z;
  cycle : bool;
}.

Record store_sequence := mkStore { seqid : Z; called : bool; cur : Z; cached : Z }.

(** [sql_seqs], and what the logger has for each sequence. *)
Record state := mkState { sql_seqs : list store_sequence; logged : gmap Z Z }.

(** [logger_sequence] and [log_sequence]: the latter writes through to disk. *)
Definition logger_sequence (st : state) (seq : Z) : option Z := logged st !! seq.
Definition log_sequence (st : state) (seq val : Z) : state :=
  mkState (sql_seqs st) (<[seq := val]> (logged st)).

Definition sql_update_sequence_cache (seq : sql_sequence) (cached : Z) (st : state) : state :=
  log_sequence st (base_id seq) cached.

Definition sql_create_sequence (seq : sql_sequence) (st : state) : store_sequence :=
  let cached := if base_old seq
                then match logger_sequence st (base_id seq) with Some id => id | None => start seq end
                else start seq in
  mkStore (base_id seq) false cached cached.

(** The search through [sql_seqs], and a store through the pointer found. *)
Fixpoint find_seq (id : Z) (l : list store_sequence) : option store_sequence :=
  match l with
  | [] => None
  | s :: l' => if seqid s =? id then Some s else find_seq id l'
  end.
Fixpoint set_seq (s' : store_sequence) (l : list store_sequence) : list store_sequence :=
  match l with
  | [] => []
  | s :: l' => if seqid s =? seqid s' then s' :: l' else s :: set_seq s' l'
  end.
Definition put_seq (s : store_sequence) (st : state) : state :=
  mkState (set_seq s (sql_seqs st)) (logged st).

(** The sequence is looked up and, when it is not there, created and
    appended. *)
Definition get_seq (seq : sql_sequence) (st : state) : store_sequence * state :=
  match find_seq (base_id seq) (sql_seqs st) with
  | Some s => (s, st)
  | None => let s := sql_create_sequence seq st in (s, mkState (sql_seqs st ++ [s]) (logged st))
  end.

(** [if (s->called) s->cur += seq->increment]. *)
Definition bump (seq : sql_sequence) (s : store_sequence) : Z :=
  if called s then i64 (cur s + increment seq) else cur s.

Definition out_of_range (seq : sql_sequence) (v : Z) : bool :=
  (negb (maxvalue seq =? 0) && (v >? maxvalue seq)) || (negb (minvalue seq =? 0) && (v <? minvalue seq)).

(** ** Operations *)

Definition seq_restart (seq : sql_sequence) (start : Z) (st : state) : bool * state :=
  let '(s, st) := get_seq seq st in
  let st := put_seq (mkStore (seqid s) false start start) st in
  if out_of_range seq start then (false, st)
  else (true, sql_update_sequence_cache seq start st).

(** [None]: out of numbers. *)
Definition seq_next_value (seq : sql_sequence) (st : state) : option Z * state :=
  let '(s, st) := get_seq seq st in
  let v := bump seq s in
  if out_of_range seq v && negb (cycle seq)
  then (None, put_seq (mkStore (seqid s) (called s) v (cached s)) st)
  else
    let save := out_of_range seq v in
    let nr := if save then minvalue seq else v in
    if save || (nr =? cached s) then
      let c := i64 (nr + i64 (cacheinc seq * increment seq)) in
      (Some nr, sql_update_sequence_cache seq c (put_seq (mkStore (seqid s) true nr c) st))
    else (Some nr, put_seq (mkStore (seqid s) true nr (cached s)) st).

(** On failure a value is stored all the same; only the return code counts. *)
Definition seq_get_value (seq : sql_sequence) (st : state) : option Z * state :=
  let '(s, st) := get_seq seq st in
  let v := bump seq s in
  if out_of_range seq v then if cycle seq then (Some (minvalue seq), st) else (None, st)
  else (Some v, st).

(** A bulk holds the lock from [seqbulk_create] to [seqbulk_destroy]; the
    pointer to the internal sequence is its entry in [sql_seqs]. *)
Record seqbulk := mkBulk { seq : sql_sequence; internal_seq : store_sequence; save : bool }.

Definition seqbulk_create (seq : sql_sequence) (st : state) : seqbulk * state :=
  let '(s, st) := get_seq seq st in (mkBulk seq s false, st).

Definition seqbulk_next_value (sb : seqbulk) (st : state) : option Z * seqbulk * state :=
  let s := internal_seq sb in
  let v := bump (seq sb) s in
  if out_of_range (seq sb) v && negb (cycle (seq sb))
  then let s := mkStore (seqid s) (called s) v (cached s) in
       (None, mkBulk (seq sb) s (save sb), put_seq s st)
  else
    let wrapped := out_of_range (seq sb) v in
    let nr := if wrapped then minvalue (seq sb) else v in
    if nr =? cached s then
      let s := mkStore (seqid s) true nr (i64 (nr + i64 (cacheinc (seq sb) * increment (seq sb)))) in
      (Some nr, mkBulk (seq sb) s true, put_seq s st)
    else
      let s := mkStore (seqid s) true nr (cached s) in
      (Some nr, mkBulk (seq sb) s (save sb || wrapped), put_seq s st).

Definition seqbulk_destroy (sb : seqbulk) (st : state) : state :=
  if save sb then sql_update_sequence_cache (seq sb) (cached (internal_seq sb)) st else st.

(** Several values in a row, one by one and in bulk. *)
Fixpoint next_values (n : nat) (seq : sql_sequence) (st : state) : list (option Z) * state :=
  match n with
  | O => ([], st)
  | S n' => let '(v, st) := seq_next_value seq st in
            let '(vs, st) := next_values n' seq st in (v :: vs, st)
  end.
Fixpoint bulk_values (n : nat) (sb : seqbulk) (st : state) : list (option Z) * seqbulk * state :=
  match n with
  | O => ([], sb, st)
  | S n' => let '(v, sb, st) := seqbulk_next_value sb st in
            let '(vs, sb, st) := bulk_values n' sb st in (v :: vs, sb, st)
  end.
Definition seqbulk_values (n : nat) (seq : sql_sequence) (st : state) : list (option Z) * state :=
  let '(sb, st) := seqbulk_create seq st in
  let '(vs, sb, st) := bulk_values n sb st in
  (vs, seqbulk_destroy sb st).

(** The server stops at any point: memory is lost, the log is kept. *)
Definition crash (st : state) : state := mkState [] (logged st).

(** ** The list of sequences *)

Lemma find_set_same s l : is_Some (find_seq (seqid s) l) -> find_seq (seqid s) (set_seq s l) = Some s.
Proof.
  induction l as [|a l IH]; simpl; [intros [x [=]]|].
  destruct (Z.eqb_spec (seqid a) (seqid s)) as [E|E]; simpl; [now rewrite Z.eqb_refl|].
  destruct (Z.eqb_spec (seqid a) (seqid s)); [congruence|exact IH].
Qed.

Lemma find_set_other id s l : seqid s <> id -> find_seq id (set_seq s l) = find_seq id l.
Proof.
  intros Ne. induction l as [|a l IH]; simpl; [reflexivity|].
  destruct (Z.eqb_spec (seqid a) (seqid s)) as [E|E]; simpl.
  - rewrite E. destruct (Z.eqb_spec (seqid s) id); congruence.
  - now rewrite IH.
Qed.

Lemma find_app id l l' :
  find_seq id (l ++ l') = match find_seq id l with Some s => Some s | None => find_seq id l' end.
Proof. induction l as [|a l IH]; simpl; [reflexivity|]. now destruct (_ =? _). Qed.

Lemma find_seqid id l s : find_seq id l = Some s -> seqid s = id.
Proof.
  induction l as [|a l IH]; simpl; [discriminate|].
  destruct (Z.eqb_spec (seqid a) id); [intros [= ->]; assumption|exact IH].
Qed.

Lemma get_seq_spec seq st s st' :
  get_seq seq st = (s, st') ->
  s = match find_seq (base_id seq) (sql_seqs st) with Some s => s | None => sql_create_sequence seq st end
  /\ seqid s = base_id seq
  /\ find_seq (base_id seq) (sql_seqs st') = Some s
  /\ logged st' = logged st
  /\ forall id, id <> base_id seq -> find_seq id (sql_seqs st') = find_seq id (sql_seqs st).
Proof.
  unfold get_seq. destruct (find_seq _ _) as [s0|] eqn:E; intros [= <- <-].
  - split; [reflexivity|]. split; [eapply find_seqid; eassumption|]. now repeat split.
  - split; [reflexivity|]. split; [reflexivity|]. simpl. split; [|split; [reflexivity|]].
    + rewrite find_app, E. simpl. now rewrite Z.eqb_refl.
    + intros id Ne. rewrite find_app. simpl. destruct (find_seq id _); [reflexivity|].
      destruct (Z.eqb_spec (base_id seq) id); [congruence|reflexivity].
Qed.

(** What another operation sees of a sequence: its entry and its log. *)
Definition view (id : Z) (st : state) : option store_sequence * option Z :=
  (find_seq id (sql_seqs st), logged st !! id).

(** After [get_seq], storing the entry of the sequence changes its view only. *)
Lemma view_put seq st s st' s' :
  get_seq seq st = (s, st') -> seqid s' = base_id seq ->
  view (base_id seq) (put_seq s' st') = (Some s', logged st !! base_id seq)
  /\ forall id, id <> base_id seq -> view id (put_seq s' st') = view id st.
Proof.
  intros (_ & I & F & L & O)%get_seq_spec I'. unfold view, put_seq. simpl. rewrite L.
  split; [|intros id Ne].
  - rewrite <- I' at 1. rewrite find_set_same; [reflexivity|]. rewrite I'. rewrite F. eauto.
  - now rewrite find_set_other by congruence; rewrite O.
Qed.

Lemma view_log id v st :
  view id (log_sequence st id v) = (fst (view id st), Some v)
  /\ forall id', id' <> id -> view id' (log_sequence st id v) = view id' st.
Proof.
  unfold view, log_sequence. simpl. split; [now rewrite lookup_insert_eq|].
  intros id' Ne. now rewrite lookup_insert_ne.
Qed.

(** ** One sequence at a time *)

(** Where a sequence goes on from when its entry is created. *)
Definition base (seq : sql_sequence) (lg : option Z) : Z := if base_old seq then default (start seq) lg else start seq.

Definition entry (seq : sql_sequence) (w : option store_sequence * option Z) : store_sequence :=
  match fst w with
  | Some s => s
  | None => mkStore (base_id seq) false (base seq (snd w)) (base seq (snd w))
  end.

Lemma get_seq_entry seq st s st' :
  get_seq seq st = (s, st') -> s = entry seq (view (base_id seq) st) /\ seqid s = base_id seq.
Proof.
  intros (E & I & _)%get_seq_spec. split; [|exact I]. rewrite E. unfold entry, view. simpl.
  destruct (find_seq _ _); [reflexivity|].
  unfold sql_create_sequence, base, logger_sequence. destruct (base_old seq); [|reflexivity].
  now destruct (logged st !! base_id seq).
Qed.

(** [seq_next_value] on the view of its sequence. *)
Definition next_view (seq : sql_sequence) (w : option store_sequence * option Z) :
    option Z * (option store_sequence * option Z) :=
  let s := entry seq w in
  let v := bump seq s in
  let out := out_of_range seq v in
  if out && negb (cycle seq) then (None, (Some (mkStore (seqid s) (called s) v (cached s)), snd w))
  else
    let nr := if out then minvalue seq else v in
    if out || (nr =? cached s) then
      let c := i64 (nr + i64 (cacheinc seq * increment seq)) in
      (Some nr, (Some (mkStore (seqid s) true nr c), Some c))
    else (Some nr, (Some (mkStore (seqid s) true nr (cached s)), snd w)).

Lemma seq_next_value_view seq st r st' :
  seq_next_value seq st = (r, st') ->
  (r, view (base_id seq) st') = next_view seq (view (base_id seq) st)
  /\ forall id, id <> base_id seq -> view id st' = view id st.
Proof.
  unfold seq_next_value. destruct (get_seq seq st) as [s st1] eqn:G.
  pose proof (get_seq_entry _ _ _ _ G) as [-> I]. unfold next_view.
  set (s := entry _ _) in *. set (v := bump seq s).
  set (nr := if out_of_range seq v then minvalue seq else v). set (c := i64 (nr + _)).
  assert (P : forall s', seqid s' = base_id seq ->
    view (base_id seq) (put_seq s' st1) = (Some s', snd (view (base_id seq) st))
    /\ forall id, id <> base_id seq -> view id (put_seq s' st1) = view id st)
    by (intros s' I'; exact (view_put seq st s st1 s' G I')).
  destruct (out_of_range seq v && negb (cycle seq)); [|destruct (_ || _)]; intros [= <- <-].
  - destruct (P (mkStore (seqid s) (called s) v (cached s)) I) as [-> O]. now split.
  - destruct (P (mkStore (seqid s) true nr c) I) as [Ew O].
    unfold sql_update_sequence_cache.
    destruct (view_log (base_id seq) c (put_seq (mkStore (seqid s) true nr c) st1)) as [-> O'].
    rewrite Ew. split; [reflexivity|]. intros id Ne. now rewrite O', O.
  - destruct (P (mkStore (seqid s) true nr (cached s)) I) as [-> O]. now split.
Qed.

(** ** Looking and drawing *)

Lemma get_seq_again seq st s st' : get_seq seq st = (s, st') -> get_seq seq st' = (s, st').
Proof.
  intros G. pose proof (get_seq_spec _ _ _ _ G) as (_ & _ & F & _).
  unfold get_seq. now rewrite F.
Qed.

Lemma seq_next_value_again seq st s st' :
  get_seq seq st = (s, st') -> seq_next_value seq st' = seq_next_value seq st.
Proof. intros G. unfold seq_next_value. now rewrite G, (get_seq_again _ _ _ _ G). Qed.

(** [seq_get_value] says what the next [seq_next_value] will return, its
    failures included, and looking does not change what is drawn then. *)
Theorem seq_get_value_predicts seq st :
  fst (seq_get_value seq st) = fst (seq_next_value seq st)
  /\ seq_next_value seq (snd (seq_get_value seq st)) = seq_next_value seq st.
Proof.
  unfold seq_get_value. destruct (get_seq seq st) as [s st1] eqn:G.
  split.
  - unfold seq_next_value. rewrite G. destruct (out_of_range seq (bump seq s)), (cycle seq); simpl; try reflexivity.
    all: now destruct (_ =? _).
  - assert (E : snd (if out_of_range seq (bump seq s)
                     then if cycle seq then (Some (minvalue seq), st1) else (None, st1)
                     else (Some (bump seq s), st1)) = st1)
      by (destruct (out_of_range _ _), (cycle seq); reflexivity).
    rewrite E. exact (seq_next_value_again _ _ _ _ G).
Qed.

(** What the state would be had the bulk written its log already. *)
Definition settled (sb : seqbulk) (st : state) : state := seqbulk_destroy sb st.

Lemma bulk_step_settled q s b st (v : option Z) sb' st' :
  cycle q = false -> find_seq (base_id q) (sql_seqs st) = Some s ->
  seqbulk_next_value (mkBulk q s b) st = (v, sb', st') ->
  seq_next_value q (settled (mkBulk q s b) st) = (v, settled sb' st')
  /\ seq sb' = q /\ find_seq (base_id q) (sql_seqs st') = Some (internal_seq sb').
Proof.
  intros C F. unfold seqbulk_next_value, seq_next_value. simpl. rewrite C, andb_true_r.
  assert (G : get_seq q (settled (mkBulk q s b) st) = (s, settled (mkBulk q s b) st)).
  { unfold get_seq, settled, seqbulk_destroy. simpl. destruct b; simpl; now rewrite F. }
  rewrite G. pose proof (find_seqid _ _ _ F) as I.
  assert (W : forall s', seqid s' = seqid s ->
    find_seq (base_id q) (sql_seqs (put_seq s' st)) = Some s').
  { intros s' E. simpl. rewrite <- I, <- E, find_set_same; [reflexivity|]. rewrite E, I, F. eauto. }
  unfold settled, seqbulk_destroy, sql_update_sequence_cache, log_sequence, put_seq.
  destruct (out_of_range q (bump q s)); simpl; [|destruct (_ =? _)]; intros [= <- <- <-]; simpl.
  all: split; [|split; [reflexivity|now apply W]].
  all: destruct b; simpl; rewrite ?insert_insert_eq; reflexivity.
Qed.

Lemma bulk_values_settled n q s b st vs sb' st' :
  cycle q = false -> find_seq (base_id q) (sql_seqs st) = Some s ->
  bulk_values n (mkBulk q s b) st = (vs, sb', st') ->
  next_values n q (settled (mkBulk q s b) st) = (vs, settled sb' st').
Proof.
  intros C. revert s b st vs sb' st'; induction n as [|n IH]; intros s b st vs sb' st' F; simpl;
    [now intros [= <- <- <-]|].
  destruct (seqbulk_next_value _ _) as [[v sb1] st1] eqn:E.
  destruct (bulk_values n sb1 st1) as [[vs1 sb2] st2] eqn:E2. intros [= <- <- <-].
  destruct (bulk_step_settled q s b st v sb1 st1 C F E) as (-> & Q & F1).
  destruct sb1 as [q1 s1 b1]. simpl in Q, F1. subst q1.
  now rewrite (IH _ _ _ _ _ _ F1 E2).
Qed.

(** Drawing in bulk is drawing one by one: as long as the sequence does not
    cycle, the same values come out and memory and log end up the same, although
    the log is written only once. *)
Theorem seqbulk_is_next_values n (q : sql_sequence) st :
  cycle q = false -> seqbulk_values (S n) q st = next_values (S n) q st.
Proof.
  intros C. unfold seqbulk_values, seqbulk_create. destruct (get_seq q st) as [s st1] eqn:G.
  destruct (bulk_values (S n) (mkBulk q s false) st1) as [[vs sb'] st'] eqn:E.
  pose proof (get_seq_spec _ _ _ _ G) as (_ & _ & F & _).
  pose proof (bulk_values_settled (S n) q s false st1 vs sb' st' C F E) as N.
  change (settled (mkBulk q s false) st1) with st1 in N.
  change (seqbulk_destroy sb' st') with (settled sb' st'). rewrite <- N. simpl.
  now rewrite (seq_next_value_again _ _ _ _ G).
Qed.

(** Up to ten, three values ahead. *)
Definition sample_sequence : sql_sequence := mkSequence 7 true 1 0 10 1 3 false.
Definition empty_state : state := mkState [] ∅.

Lemma seqbulk_is_next_values_witness :
  seqbulk_values 5 sample_sequence empty_state = next_values 5 sample_sequence empty_state
  /\ fst (seqbulk_values 5 sample_sequence empty_state) = [Some 1; Some 2; Some 3; Some 4; Some 5].
Proof. split; [apply (seqbulk_is_next_values 4); reflexivity|reflexivity]. Defined.

(** In a sequence that cycles the bulk leaves the old limit in memory and in the
    log, so that after a crash it goes on from there. *)
Lemma seqbulk_cycle_differs :
  let q := mkSequence 7 true 1 1 4 1 3 true in
  fst (seqbulk_values 6 q empty_state) = fst (next_values 6 q empty_state)
  /\ fst (seq_next_value q (crash (snd (next_values 6 q empty_state)))) = Some 4
  /\ fst (seq_next_value q (crash (snd (seqbulk_values 6 q empty_state)))) = Some 1.
Proof. now vm_compute. Qed.

(** ** No value twice *)

Section Unique.

(** An ascending sequence that does not cycle, once its creation is committed. *)
Context (q : sql_sequence) (b0 : Z).
Context (Old : base_old q = true) (Inc : 0 < increment q) (Cache : 1 <= cacheinc q).
Context (NoCycle : cycle q = false) (Low : - 2 ^ 63 <= b0).

(** The counter stays within 64 bits for [n] more values. *)
Definition room (n : nat) (w : option store_sequence * option Z) : Prop :=
  cur (entry q w) + (Z.of_nat n + cacheinc q) * increment q < 2 ^ 63.

Definition on_grid (v : Z) : Prop := exists j, 0 <= j /\ v = b0 + j * increment q.
Definition beyond (v : Z) : Prop := maxvalue q <> 0 /\ maxvalue q < v.

(** What is true of a sequence and the values it has handed out: the log is
    ahead of all of them. *)
Record inv (iss : list Z) (w : option store_sequence * option Z) : Prop := {
  inv_base : on_grid (base q (snd w));
  inv_ahead : Forall (fun v => v < base q (snd w)) iss;
  inv_ascending : StronglySorted Z.lt iss;
  inv_values : Forall (fun v => on_grid v /\ out_of_range q v = false) iss;
  inv_cached : cached (entry q w) = base q (snd w);
  inv_fresh : called (entry q w) = false -> cur (entry q w) = base q (snd w);
  inv_called : called (entry q w) = true ->
    on_grid (cur (entry q w)) /\ Forall (fun v => v <= cur (entry q w)) iss
    /\ (cur (entry q w) < base q (snd w) \/ beyond (cur (entry q w)))
    /\ (minvalue q = 0 \/ minvalue q <= cur (entry q w));
}.

Lemma inv_start w : fst w = None -> base q (snd w) = b0 -> inv [] w.
Proof.
  intros E B. unfold entry. destruct w as [o lg]. simpl in *. subst o.
  split; simpl; auto using Forall_nil, SSorted_nil; [|discriminate].
  exists 0. rewrite B. lia.
Qed.

Lemma StronglySorted_snoc l v :
  StronglySorted Z.lt l -> Forall (fun x => x < v) l -> StronglySorted Z.lt (l ++ [v]).
Proof.
  intros S F. induction S as [|a l S IH A]; simpl; [repeat constructor|].
  apply Forall_cons in F as [F1 F2]. constructor; [now apply IH|].
  apply Forall_app. split; [assumption|]. now constructor.
Qed.

Lemma out_beyond v : out_of_range q v = true -> (minvalue q = 0 \/ minvalue q <= v) -> beyond v.
Proof. unfold out_of_range, beyond. rewrite orb_true_iff, !andb_true_iff, !negb_true_iff. lia. Qed.

Lemma beyond_out v : beyond v -> out_of_range q v = true.
Proof. unfold out_of_range, beyond. rewrite orb_true_iff, !andb_true_iff, !negb_true_iff. lia. Qed.

Lemma in_range_min v : out_of_range q v = false -> minvalue q = 0 \/ minvalue q <= v.
Proof. unfold out_of_range. rewrite orb_false_iff, !andb_false_iff, !negb_false_iff. lia. Qed.

(** The value that is tried, under the invariant. *)
Lemma bump_spec n iss w :
  inv iss w -> room (S n) w ->
  let s := entry q w in
  bump q s = (if called s then cur s + increment q else cur s) /\ on_grid (bump q s)
  /\ Forall (fun v => v < bump q s) iss
  /\ (bump q s <= cached s \/ beyond (bump q s)).
Proof.
  intros I R s. unfold room in R. pose proof (inv_base _ _ I) as (j & Hj & Ej).
  pose proof (inv_cached _ _ I) as C. pose proof (inv_fresh _ _ I) as F.
  pose proof (inv_called _ _ I) as K. fold s in C, F, K, R. unfold bump.
  destruct (called s) eqn:Cl.
  - destruct (K eq_refl) as ((i & Hi & Ei) & A & O & M). clear K F.
    assert (Hc : - 2 ^ 63 <= cur s).
    { rewrite Ei. nia. }
    rewrite i64_id by nia. split; [reflexivity|]. split; [exists (i + 1); nia|].
    split; [eapply Forall_impl; [exact A|]; simpl; lia|].
    destruct O as [O|[O1 O2]]; [left; rewrite C, Ej; assert (i < j) by nia; nia|right; split; lia].
  - rewrite F by reflexivity. split; [reflexivity|].
    split; [now exists j|]. split; [exact (inv_ahead _ _ I)|]. left. lia.
Qed.

Lemma i64_add_i64 a b : i64 (a + i64 b) = i64 (a + b).
Proof.
  unfold swrap. f_equal. change (2 ^ (64 - 1)) with 9223372036854775808.
  replace (a + ((b + 9223372036854775808) mod 2 ^ 64 - 9223372036854775808) + 9223372036854775808)
    with (a + (b + 9223372036854775808) mod 2 ^ 64) by lia.
  rewrite Zplus_mod_idemp_r. f_equal. lia.
Qed.

Definition issued (r : option Z) : list Z := match r with Some v => [v] | None => [] end.

Lemma base_log c : base q (Some c) = c.
Proof. unfold base. now rewrite Old. Qed.

Lemma draw_none_inv iss w :
  inv iss w -> room 1 w -> let s := entry q w in
  out_of_range q (bump q s) = true ->
  inv iss (Some (mkStore (seqid s) (called s) (bump q s) (cached s)), snd w).
Proof.
  intros I R s Out. destruct (bump_spec 0 iss w I R) as (E & G & A & _). fold s in E, G, A.
  pose proof (inv_cached _ _ I) as C. pose proof (inv_fresh _ _ I) as F.
  pose proof (inv_called _ _ I) as K. fold s in C, F, K.
  destruct I as [I1 I2 I3 I4 _ _ _].
  split; simpl; trivial; intros Cl; rewrite Cl in E.
  - rewrite E. now apply F.
  - destruct (K Cl) as (_ & _ & _ & M). split; [exact G|].
    split; [eapply Forall_impl; [exact A|]; simpl; lia|].
    assert (M' : minvalue q = 0 \/ minvalue q <= bump q s) by lia.
    split; [|exact M']. right. now apply out_beyond.
Qed.

Lemma draw_inv iss w c :
  inv iss w -> room 1 w -> let s := entry q w in
  out_of_range q (bump q s) = false ->
  (c = cached s /\ bump q s <> c \/ c = bump q s + cacheinc q * increment q) ->
  forall lg, base q lg = c -> inv (iss ++ [bump q s]) (Some (mkStore (seqid s) true (bump q s) c), lg).
Proof.
  intros I R s Out Hc lg B. destruct (bump_spec 0 iss w I R) as (E & G & A & O). fold s in E, G, A, O.
  pose proof (inv_cached _ _ I) as C. fold s in C.
  assert (O' : bump q s <= cached s).
  { destruct O as [O|O]; [exact O|]. apply beyond_out in O. congruence. }
  assert (L : bump q s < c) by nia.
  assert (Gc : on_grid c).
  { destruct Hc as [[-> _]| ->]; [rewrite C; exact (inv_base _ _ I)|].
    destruct G as (j & Hj & Ej). exists (j + cacheinc q). nia. }
  destruct I as [I1 I2 I3 I4 _ _ _].
  split; simpl; rewrite ?B; trivial; try discriminate.
  - apply Forall_app. split; [|now constructor]. eapply Forall_impl; [exact A|]. simpl. lia.
  - now apply StronglySorted_snoc.
  - apply Forall_app. split; [exact I4|]. now constructor.
  - intros _. split; [exact G|]. split; [|split; [now left|now apply in_range_min]].
    apply Forall_app. split; [eapply Forall_impl; [exact A|]; simpl; lia|]. constructor; [lia|constructor].
Qed.

Lemma next_inv iss w r w' :
  inv iss w -> room 1 w -> next_view q w = (r, w') -> inv (iss ++ issued r) w'.
Proof.
  intros I R. pose proof (bump_spec 0 iss w I R) as (E & _ & _ & _).
  unfold next_view. rewrite NoCycle, andb_true_r.
  destruct (out_of_range q (bump q (entry q w))) eqn:Out.
  - intros [= <- <-]. simpl. rewrite app_nil_r. now apply draw_none_inv.
  - rewrite orb_false_l, i64_add_i64. unfold room in R.
    assert (L : - 2 ^ 63 <= bump q (entry q w)).
    { destruct (bump_spec 0 iss w I R) as (_ & (j & Hj & ->) & _). nia. }
    rewrite i64_id by (rewrite E in *; destruct (called _); nia).
    destruct (Z.eqb_spec (bump q (entry q w)) (cached (entry q w))) as [Ec|Ec];
      intros [= <- <-]; apply draw_inv; trivial; auto using base_log.
    symmetry. exact (inv_cached _ _ I).
Qed.

(** Looking creates the entry at most; a crash loses it. *)
Lemma entry_inv iss w : inv iss w -> inv iss (Some (entry q w), snd w).
Proof. intros []. split; assumption. Qed.

Lemma crash_inv iss w : inv iss w -> inv iss (None, snd w).
Proof. intros []. split; simpl; trivial. discriminate. Qed.

Lemma next_room n iss w r w' :
  inv iss w -> room (S n) w -> next_view q w = (r, w') -> room n w'.
Proof.
  intros I R. destruct (bump_spec n iss w I R) as (E & _).
  unfold room in *. assert (bump q (entry q w) <= cur (entry q w) + increment q)
    by (rewrite E; destruct (called _); lia).
  unfold next_view. rewrite NoCycle, andb_true_r.
  destruct (out_of_range _ _); [|destruct (_ || _)]; intros [= <- <-]; simpl; nia.
Qed.

(** Draws, one by one or in bulk, looks, crashes, and whatever else is done to
    other sequences meanwhile; [iss] are the values handed out. *)
Inductive other_step : state -> state -> Prop :=
| other_next q' st r st' :
    base_id q' <> base_id q -> seq_next_value q' st = (r, st') -> other_step st st'
| other_get q' st r st' :
    base_id q' <> base_id q -> seq_get_value q' st = (r, st') -> other_step st st'
| other_restart q' v st r st' :
    base_id q' <> base_id q -> seq_restart q' v st = (r, st') -> other_step st st'
| other_bulk q' n st vs st' :
    base_id q' <> base_id q -> seqbulk_values n q' st = (vs, st') -> other_step st st'.

Inductive step : state * list Z -> state * list Z -> Prop :=
| step_next st iss r st' :
    room 1 (view (base_id q) st) -> seq_next_value q st = (r, st') ->
    step (st, iss) (st', iss ++ issued r)
| step_bulk n st iss vs st' :
    room (S n) (view (base_id q) st) -> seqbulk_values (S n) q st = (vs, st') ->
    step (st, iss) (st', iss ++ flat_map issued vs)
| step_get st iss r st' : seq_get_value q st = (r, st') -> step (st, iss) (st', iss)
| step_other st iss st' : other_step st st' -> step (st, iss) (st', iss)
| step_crash st iss : step (st, iss) (crash st, iss).

Lemma next_values_inv n st iss vs st' :
  inv iss (view (base_id q) st) -> room n (view (base_id q) st) ->
  next_values n q st = (vs, st') -> inv (iss ++ flat_map issued vs) (view (base_id q) st').
Proof.
  revert st iss vs; induction n as [|n IH]; intros st iss vs I R; simpl.
  - intros [= <- <-]. simpl. now rewrite app_nil_r.
  - destruct (seq_next_value q st) as [r st1] eqn:E.
    destruct (next_values n q st1) as [vs1 st2] eqn:E2. intros [= <- <-].
    destruct (seq_next_value_view q st r st1 E) as [V _]. symmetry in V.
    simpl. rewrite app_assoc. apply IH with st1; trivial; [|now apply (next_room n iss) in V].
    apply next_inv with (view (base_id q) st); trivial. unfold room in *. nia.
Qed.

Lemma get_seq_frame q' st s st' id :
  get_seq q' st = (s, st') -> id <> base_id q' -> view id st' = view id st.
Proof. intros (_ & _ & _ & L & O)%get_seq_spec Ne. unfold view. now rewrite L, O. Qed.

Lemma put_seq_frame s st id : id <> seqid s -> view id (put_seq s st) = view id st.
Proof. intros Ne. unfold view, put_seq. simpl. now rewrite find_set_other by congruence. Qed.

Lemma bulk_values_frame n id sb st vs sb' st' :
  seqid (internal_seq sb) = base_id (seq sb) -> id <> base_id (seq sb) ->
  bulk_values n sb st = (vs, sb', st') -> view id st' = view id st /\ seq sb' = seq sb.
Proof.
  revert sb st vs; induction n as [|n IH]; intros sb st vs I Ne; simpl; [now intros [= <- <- <-]|].
  destruct (seqbulk_next_value sb st) as [[v sb1] st1] eqn:E.
  destruct (bulk_values n sb1 st1) as [[vs1 sb2] st2] eqn:E2. intros [= <- <- <-].
  assert (view id st1 = view id st /\ seq sb1 = seq sb /\ seqid (internal_seq sb1) = seqid (internal_seq sb))
    as (V & Q & E3).
  { revert E. unfold seqbulk_next_value. repeat case_match; intros [= <- <- <-]; simpl;
      (split; [apply put_seq_frame; simpl; congruence|easy]). }
  rewrite <- V, <- Q. apply IH with (vs := vs1); trivial; congruence.
Qed.

Lemma other_step_frame st st' : other_step st st' -> view (base_id q) st' = view (base_id q) st.
Proof.
  intros [q' s1 r s2 Ne E|q' s1 r s2 Ne E|q' v s1 r s2 Ne E|q' n s1 vs s2 Ne E].
  - apply (seq_next_value_view _ _ _ _ E). congruence.
  - revert E. unfold seq_get_value. destruct (get_seq q' s1) as [s s3] eqn:G.
    repeat case_match; intros [= <- <-]; eapply get_seq_frame; eauto.
  - revert E. unfold seq_restart. destruct (get_seq q' s1) as [s s3] eqn:G.
    pose proof (get_seq_entry _ _ _ _ G) as [_ I].
    rewrite <- (get_seq_frame _ _ _ _ (base_id q) G) by congruence.
    case_match; intros [= <- <-]; [|unfold sql_update_sequence_cache; rewrite (proj2 (view_log _ _ _)) by congruence];
      apply put_seq_frame; simpl; congruence.
  - revert E. unfold seqbulk_values, seqbulk_create. destruct (get_seq q' s1) as [s s3] eqn:G.
    pose proof (get_seq_entry _ _ _ _ G) as [_ I].
    rewrite <- (get_seq_frame _ _ _ _ (base_id q) G) by congruence.
    destruct (bulk_values n _ s3) as [[vs1 sb] s4] eqn:E. intros [= <- <-].
    apply bulk_values_frame with (id := base_id q) in E as [<- Q]; simpl; try congruence.
    unfold seqbulk_destroy, sql_update_sequence_cache. simpl in Q. rewrite Q.
    case_match; [|reflexivity]. now rewrite (proj2 (view_log _ _ _)) by congruence.
Qed.

Lemma step_inv x y :
  step x y -> inv (snd x) (view (base_id q) (fst x)) -> inv (snd y) (view (base_id q) (fst y)).
Proof.
  intros [st iss r st' R E|n st iss vs st' R E|st iss r st' E|st iss st' E|st iss] I; simpl in *.
  - destruct (seq_next_value_view q st r st' E) as [V _]. now apply (next_inv _ _ _ _ I R).
  - rewrite (seqbulk_is_next_values n q st NoCycle) in E. now apply (next_values_inv (S n) st).
  - revert E. unfold seq_get_value. destruct (get_seq q st) as [s s3] eqn:G.
    pose proof (get_seq_entry _ _ _ _ G) as [Es _].
    pose proof (get_seq_spec _ _ _ _ G) as (_ & _ & F & L & _).
    apply entry_inv in I. rewrite <- Es in I.
    assert (V : view (base_id q) s3 = (Some s, snd (view (base_id q) st)))
      by (unfold view; now rewrite F, L).
    rewrite <- V in I. repeat case_match; intros [= <- <-]; exact I.
  - now rewrite (other_step_frame st st').
  - exact (crash_inv _ _ I).
Qed.

End Unique.

(** C3: No value is handed out twice: starting from any log, and as long as the
    counter fits in 64 bits, an ascending sequence that does not cycle hands out
    strictly increasing values within its bounds, drawn one by one or in bulk,
    while other sequences are used and restarted, across any number of crashes;
    at every moment the log is ahead of all values handed out. *)
Theorem sequence_never_repeats (q : sql_sequence) st0 st iss :
  base_old q = true -> 0 < increment q -> 1 <= cacheinc q -> cycle q = false ->
  fst (view (base_id q) st0) = None ->
  - 2 ^ 63 <= base q (snd (view (base_id q) st0)) ->
  rtc (step q) (st0, []) (st, iss) ->
  StronglySorted Z.lt iss
  /\ Forall (fun v => out_of_range q v = false /\ v < base q (snd (view (base_id q) st))) iss
  /\ Forall (fun v => exists j, 0 <= j
               /\ v = base q (snd (view (base_id q) st0)) + j * increment q) iss.
Proof.
  intros Old Inc Cache NoCycle F Low R. set (b0 := base q _) in *.
  assert (I : inv q b0 iss (view (base_id q) st)).
  { assert (G : forall x y, rtc (step q) x y ->
        inv q b0 (snd x) (view (base_id q) (fst x)) -> inv q b0 (snd y) (view (base_id q) (fst y))).
    { intros x y. induction 1 as [x|x y z S _ IH]; [trivial|]. intros I. apply IH.
      now apply (step_inv q b0 Old Inc Cache NoCycle Low x y). }
    apply (G _ _ R). simpl. now apply inv_start. }
  destruct I as [_ A S V _ _ _]. split; [exact S|].
  rewrite !Forall_forall in *. split; intros v Hv; [split; [now apply V|now apply A]|now apply V].
Qed.

Lemma sequence_never_repeats_witness :
  exists st, rtc (step sample_sequence) (empty_state, []) (st, [1; 2; 4; 5; 6])
    /\ StronglySorted Z.lt [1; 2; 4; 5; 6].
Proof.
  assert (R : exists st, rtc (step sample_sequence) (empty_state, []) (st, [1; 2; 4; 5; 6])).
  { eexists. apply (rtc_l (step sample_sequence) _ (snd (seq_next_value sample_sequence empty_state), [1])).
    { apply (step_next sample_sequence empty_state [] (Some 1)); [vm_compute; reflexivity|reflexivity]. }
    set (st1 := snd _).
    apply (rtc_l (step sample_sequence) _ (snd (seq_next_value sample_sequence st1), [1; 2])).
    { apply (step_next sample_sequence st1 [1] (Some 2)); [vm_compute; reflexivity|reflexivity]. }
    set (st2 := snd _).
    apply (rtc_l (step sample_sequence) _ (crash st2, [1; 2])); [apply step_crash|].
    set (st3 := crash st2).
    apply (rtc_l (step sample_sequence) _
             (snd (seqbulk_values 3 sample_sequence st3), [1; 2; 4; 5; 6])); [|apply rtc_refl].
    apply (step_bulk sample_sequence 2 st3 [1; 2] [Some 4; Some 5; Some 6]);
      [vm_compute; reflexivity|reflexivity]. }
  destruct R as [st R]. exists st. split; [exact R|].
  apply (sequence_never_repeats sample_sequence empty_state st); try reflexivity; try exact R;
    vm_compute; discriminate.
Defined.

(** The same sequence can be used up, and then its limit raised: since every
    failure has moved the counter, it is past the logged value by then, nothing
    is logged any more, and a crash makes values come a second time. *)
Lemma exhausted_sequence_repeats :
  let q := mkSequence 7 true 1 0 3 1 1 false in       (* MAXVALUE 3 CACHE 1 *)
  let q' := mkSequence 7 true 1 0 9 1 1 false in      (* ALTER SEQUENCE MAXVALUE 9 *)
  let '(vs, st) := next_values 5 q empty_state in
  let '(vs', st') := next_values 2 q' st in
  let '(vs'', _) := next_values 4 q' (crash st') in
  vs = [Some 1; Some 2; Some 3; None; None] /\ vs' = [Some 6; Some 7]
  /\ vs'' = [Some 4; Some 5; Some 6; Some 7].
Proof. now vm_compute. Qed.

(** ** Every value again *)

Section Cycles.

Context (q : sql_sequence).
Context (Inc : 0 < increment q) (Cycle : cycle q = true) (Max : maxvalue q <> 0).
Context (Order : minvalue q <= maxvalue q) (Low : - 2 ^ 63 <= minvalue q).
Context (High : maxvalue q + increment q < 2 ^ 63).

Definition counter (st : state) : store_sequence := entry q (view (base_id q) st).

(** The state after [n] draws. *)
Definition after (n : nat) (st : state) : state := snd (next_values n q st).

Lemma after_plus n m st : after (n + m) st = after m (after n st).
Proof.
  unfold after. revert st; induction n as [|n IH]; intros st; simpl; [reflexivity|].
  destruct (seq_next_value q st) as [r st1]. specialize (IH st1).
  destruct (next_values (n + m) q st1), (next_values n q st1). exact IH.
Qed.

Lemma after_one st : after 1 st = snd (seq_next_value q st).
Proof. unfold after. simpl. now destruct (seq_next_value q st). Qed.

(** One draw from a cyclic sequence. *)
Lemma cycle_draw st :
  let v := bump q (counter st) in
  let nr := if out_of_range q v then minvalue q else v in
  fst (seq_next_value q st) = Some nr
  /\ called (counter (after 1 st)) = true /\ cur (counter (after 1 st)) = nr.
Proof.
  rewrite after_one. destruct (seq_next_value q st) as [r st'] eqn:E.
  destruct (seq_next_value_view q st r st' E) as [V _]. revert V. unfold counter, next_view.
  rewrite Cycle, andb_false_r. simpl. generalize (view (base_id q) st') as w'. intros w'.
  destruct (_ || _); intros [= -> ->]; simpl; tauto.
Qed.

Definition running (st : state) : Prop :=
  called (counter st) = true /\ - 2 ^ 63 <= cur (counter st) <= maxvalue q.

Lemma out_above v : v <= maxvalue q -> minvalue q <= v -> out_of_range q v = false.
Proof. unfold out_of_range. rewrite orb_false_iff, !andb_false_iff, !negb_false_iff. lia. Qed.

Lemma in_range_max v : out_of_range q v = false -> v <= maxvalue q.
Proof. unfold out_of_range. rewrite orb_false_iff, !andb_false_iff, !negb_false_iff. lia. Qed.

Lemma running_bump st : running st -> bump q (counter st) = cur (counter st) + increment q.
Proof. intros [C L]. unfold bump. rewrite C. apply i64_id. lia. Qed.

Lemma draw_running st :
  - 2 ^ 63 <= bump q (counter st) -> running (after 1 st).
Proof.
  intros B. destruct (cycle_draw st) as (_ & C & E). split; [exact C|]. rewrite E.
  destruct (out_of_range q _) eqn:O; [lia|]. apply in_range_max in O. lia.
Qed.

(** Sooner or later it starts over. *)
Lemma starts_over k st :
  running st -> maxvalue q - cur (counter st) < Z.of_nat k ->
  exists n, fst (seq_next_value q (after n st)) = Some (minvalue q)
    /\ running (after (n + 1) st) /\ cur (counter (after (n + 1) st)) = minvalue q.
Proof.
  revert st; induction k as [|k IH]; intros st Run Hk; [destruct Run; lia|].
  pose proof (running_bump st Run) as B. destruct (cycle_draw st) as (E & C & N).
  assert (Run' : running (after 1 st)) by (apply draw_running; rewrite B; destruct Run; lia).
  destruct (out_of_range q (bump q (counter st))) eqn:O.
  - exists 0%nat. now split.
  - destruct (IH (after 1 st) Run') as (n & A); [lia|].
    exists (S n). now rewrite <- !after_plus in A.
Qed.

Lemma climbs j st :
  running st -> cur (counter st) = minvalue q -> minvalue q + Z.of_nat (S j) * increment q <= maxvalue q ->
  exists n, fst (seq_next_value q (after n st)) = Some (minvalue q + Z.of_nat (S j) * increment q)
    /\ running (after (n + 1) st)
    /\ cur (counter (after (n + 1) st)) = minvalue q + Z.of_nat (S j) * increment q.
Proof.
  induction j as [|j IH]; intros Run E Hj.
  - exists 0%nat. pose proof (running_bump st Run) as B. destruct (cycle_draw st) as (D & _ & N).
    assert (Run' : running (after 1 st)) by (apply draw_running; rewrite B; destruct Run; lia).
    rewrite out_above in D, N by lia. change (after 0 st) with st. change (0 + 1)%nat with 1%nat.
    rewrite D, N, B. split; [f_equal; lia|]. split; [exact Run'|lia].
  - destruct IH as (n & _ & Run1 & E1); trivial; [nia|].
    exists (n + 1)%nat. rewrite (after_plus (n + 1) 1). set (st1 := after (n + 1) st) in *.
    pose proof (running_bump st1 Run1) as B. destruct (cycle_draw st1) as (D & _ & N).
    assert (Run' : running (after 1 st1)) by (apply draw_running; rewrite B; destruct Run1; lia).
    rewrite out_above in D, N by nia. rewrite D, N, B. split; [f_equal; lia|]. split; [exact Run'|lia].
Qed.

End Cycles.



(** A descending sequence that cycles goes to its minimum, not to its maximum,
    and stays there. *)
Lemma descending_cycle_sticks :
  let q := mkSequence 7 true 3 1 3 (-1) 1 true in
  fst (next_values 6 q empty_state) = [Some 3; Some 2; Some 1; Some 1; Some 1; Some 1].
Proof. now vm_compute. Qed.

(** A restart outside of the bounds fails after the memory has been changed. *)
Lemma failed_restart_changes :
  let '(_, st) := next_values 2 sample_sequence empty_state in
  let '(ok, st') := seq_restart sample_sequence 99 st in
  ok = false /\ fst (seq_next_value sample_sequence st) = Some 3
  /\ fst (seq_next_value sample_sequence st') = None.
Proof. now vm_compute. Qed.
