(* ===== verification/Zorder.v ===== *)
(** * Z-order curves

    monetdb5/modules/mal/zorder.c: two coordinates are interleaved bit by bit
    into one object identifier.  The file shows for which coordinates this is
    lossless, that it respects the order of the coordinates, and what the
    operators on columns and the slicing of a rectangle return. *)

From Stdlib Require Import ZArith Lia Bool List FinFun.
Import ListNotations.
From S2P Require Import Prelude Atoms.

Open Scope Z_scope.

(** ** One point *)

(** The loop of [Zencode_int_oid].  The mask is an [int]: it reaches the sign bit
    in the sixteenth round and is zero from then on. *)
Fixpoint Zencode_loop (n : nat) (v mask x y : Z) : Z :=
  match n with
  | O => v
  | S n' =>
      let v := Z.lor v (u64 (i32 (Z.land x 1 * mask))) in
      let x := Z.shiftr x 1 in
      let mask := i32 (Z.shiftl mask 1) in
      let v := Z.lor v (u64 (i32 (Z.land y 1 * mask))) in
      let y := Z.shiftr y 1 in
      let mask := i32 (Z.shiftl mask 1) in
      Zencode_loop n' v mask x y
  end.

(** Thirty-two rounds for the 64 bits of an [oid]. *)
Definition Zencode_int_oid (x y : Z) : Z := Zencode_loop 32 0 1 x y.

(** [xv |= ((zv & 1) * mask)]: the product is an [oid], the result an [int]. *)
Definition or_bit (v zv mask : Z) : Z := i32 (Z.lor (u64 v) (u64 (Z.land zv 1 * u64 mask))).

Fixpoint Zdecode_loop (n : nat) (xv yv mask zv : Z) : Z * Z :=
  match n with
  | O => (xv, yv)
  | S n' =>
      let xv := or_bit xv zv mask in
      let zv := Z.shiftr zv 1 in
      let yv := or_bit yv zv mask in
      let zv := Z.shiftr zv 1 in
      Zdecode_loop n' xv yv (i32 (Z.shiftl mask 1)) zv
  end.
Definition Zdecode_int_oid (z : Z) : Z * Z := Zdecode_loop 32 0 0 1 z.

Fixpoint Zdecode_x_loop (n : nat) (xv mask zv : Z) : Z :=
  match n with
  | O => xv
  | S n' => Zdecode_x_loop n' (or_bit xv zv mask) (i32 (Z.shiftl mask 1)) (Z.shiftr zv 2)
  end.
Definition Zdecode_int_oid_x (z : Z) : Z := Zdecode_x_loop 32 0 1 z.

Fixpoint Zdecode_y_loop (n : nat) (yv mask zv : Z) : Z :=
  match n with
  | O => yv
  | S n' =>
      let zv := Z.shiftr zv 1 in
      Zdecode_y_loop n' (or_bit yv zv mask) (i32 (Z.shiftl mask 1)) (Z.shiftr zv 1)
  end.
Definition Zdecode_int_oid_y (z : Z) : Z := Zdecode_y_loop 32 0 1 z.

(** ** Columns *)

(** A column with its first oid, its values and whether it is known to hold no
    nil. *)
Record column := mkColumn { hseqbase : Z; vals : list Z; nonil : bool }.

Inductive result (A : Type) := Ok (a : A) | RUNTIME_OBJECT_MISSING | ILLEGAL_ARGUMENT | MAL_MALLOC_FAIL.
Arguments Ok {A} a.
Arguments RUNTIME_OBJECT_MISSING {A}.
Arguments ILLEGAL_ARGUMENT {A}.
Arguments MAL_MALLOC_FAIL {A}.

(** The four loops of [ZORDbatencode_int_oid], by what is tested. *)
Definition encode_row (xnonil ynonil : bool) (p r : Z) : Z :=
  if negb ynonil && (r =? int_nil) then oid_nil
  else if negb xnonil && (p =? int_nil) then oid_nil
  else Zencode_int_oid p r.

(** A column that is not there is [None]; [alloc] tells whether there is memory
    for the result. *)
Definition ZORDbatencode_int_oid (alloc : bool) (bx by_ : option column) : result column :=
  match bx, by_ with
  | Some bx, Some by_ =>
      if negb (List.length (vals bx) =? List.length (vals by_))%nat then ILLEGAL_ARGUMENT
      else if negb alloc then MAL_MALLOC_FAIL
      else Ok (mkColumn (hseqbase bx)
                 (map (fun '(p, r) => encode_row (nonil bx) (nonil by_) p r) (combine (vals bx) (vals by_)))
                 (nonil bx && nonil by_))
  | _, _ => RUNTIME_OBJECT_MISSING
  end.

Definition decode_row (znonil : bool) (z : Z) : Z * Z :=
  if negb znonil && (z =? oid_nil) then (int_nil, int_nil) else Zdecode_int_oid z.

Definition ZORDbatdecode_int_oid (alloc : bool) (bz : option column) : result (column * column) :=
  match bz with
  | Some bz =>
      if negb alloc then RUNTIME_OBJECT_MISSING
      else let rows := map (decode_row (nonil bz)) (vals bz) in
           Ok (mkColumn (hseqbase bz) (map fst rows) (nonil bz),
               mkColumn (hseqbase bz) (map snd rows) (nonil bz))
  | None => RUNTIME_OBJECT_MISSING
  end.

Definition ZORDbatdecode_int_oid_x (alloc : bool) (bz : option column) : result column :=
  match bz with
  | Some bz =>
      if negb alloc then RUNTIME_OBJECT_MISSING
      else Ok (mkColumn (hseqbase bz)
                 (map (fun z => if negb (nonil bz) && (z =? oid_nil) then int_nil else Zdecode_int_oid_x z)
                    (vals bz)) (nonil bz))
  | None => RUNTIME_OBJECT_MISSING
  end.
Definition ZORDbatdecode_int_oid_y (alloc : bool) (bz : option column) : result column :=
  match bz with
  | Some bz =>
      if negb alloc then RUNTIME_OBJECT_MISSING
      else Ok (mkColumn (hseqbase bz)
                 (map (fun z => if negb (nonil bz) && (z =? oid_nil) then int_nil else Zdecode_int_oid_y z)
                    (vals bz)) (nonil bz))
  | None => RUNTIME_OBJECT_MISSING
  end.

(** [for (i = lo; i < hi; i++)]. *)
Definition ints (lo hi : Z) : list Z := map (fun k => lo + Z.of_nat k) (seq 0 (Z.to_nat (hi - lo))).

(** The tail of the column of oids that [ZORDslice_int] appends. *)
Definition ZORDslice_int (xb yb xt yt : Z) : list Z :=
  flat_map (fun i => map (fun j => Zencode_int_oid i j) (ints yb yt)) (ints xb xt).

(** ** Interleaving as arithmetic *)

Fixpoint interleave (n : nat) (x y : Z) : Z :=
  match n with
  | O => 0
  | S n' => x mod 2 + 2 * (y mod 2) + 4 * interleave n' (x / 2) (y / 2)
  end.

(** Every second bit. *)
Fixpoint evens (n : nat) (z : Z) : Z :=
  match n with
  | O => 0
  | S n' => z mod 2 + 2 * evens n' (z / 4)
  end.

Lemma lor_add v b k : 0 <= k -> 0 <= v < 2 ^ k -> 0 <= b <= 1 -> Z.lor v (b * 2 ^ k) = v + b * 2 ^ k.
Proof.
  intros Hk Hv Hb. assert (D : Z.land v (b * 2 ^ k) = 0).
  { rewrite <- Z.shiftl_mul_pow2 by lia. apply Z.bits_inj'. intros n Hn.
    rewrite Z.land_spec, Z.bits_0. destruct (Z.lt_ge_cases n k).
    - rewrite (Z.shiftl_spec_low b) by lia. apply andb_false_r.
    - rewrite <- (Z.mod_small v (2 ^ k)), Z.mod_pow2_bits_high by lia. reflexivity. }
  rewrite <- Z.lxor_lor by exact D. symmetry. now apply Z.add_nocarry_lxor.
Qed.

Lemma bit_range z : 0 <= z mod 2 <= 1.
Proof. pose proof (Z.mod_pos_bound z 2). lia. Qed.

Lemma interleave_range n x y : 0 <= interleave n x y < 2 ^ (2 * Z.of_nat n).
Proof.
  revert x y; induction n as [|n IH]; intros x y; cbn [interleave]; [cbn; lia|].
  specialize (IH (x / 2) (y / 2)). pose proof (bit_range x). pose proof (bit_range y).
  replace (2 * Z.of_nat (S n)) with (2 * Z.of_nat n + 2) by lia. rewrite Z.pow_add_r by lia.
  change (2 ^ 2) with 4. lia.
Qed.

Lemma interleave_plus n m x y :
  interleave (n + m) x y
  = interleave n x y + 2 ^ (2 * Z.of_nat n) * interleave m (x / 2 ^ Z.of_nat n) (y / 2 ^ Z.of_nat n).
Proof.
  revert x y; induction n as [|n IH]; intros x y; cbn [interleave Nat.add].
  - change (2 ^ Z.of_nat 0) with 1. change (2 ^ (2 * Z.of_nat 0)) with 1. rewrite !Z.div_1_r. lia.
  - rewrite IH. replace (2 * Z.of_nat (S n)) with (2 * Z.of_nat n + 2) by lia.
    rewrite !Z.div_div by lia. rewrite <- !Z.pow_succ_r, <- !Nat2Z.inj_succ by lia.
    rewrite Z.pow_add_r by lia. change (2 ^ 2) with 4. lia.
Qed.

(** Rounds in which the mask has not reached the sign bit. *)
Lemma or_mask v b k :
  0 <= k <= 30 -> 0 <= v < 2 ^ k -> 0 <= b <= 1 -> Z.lor v (u64 (i32 (b * 2 ^ k))) = v + b * 2 ^ k.
Proof.
  intros Hk Hv Hb. assert (2 ^ k <= 2 ^ 30) by (apply Z.pow_le_mono_r; lia).
  rewrite i32_id by nia. rewrite uwrap_id by nia. apply lor_add; lia.
Qed.

Lemma shift_mask k : 0 <= k <= 29 -> i32 (Z.shiftl (2 ^ k) 1) = 2 ^ (k + 1).
Proof.
  intros Hk. rewrite Z.shiftl_mul_pow2, Z.pow_add_r by lia. apply i32_id.
  assert (2 ^ k <= 2 ^ 29) by (apply Z.pow_le_mono_r; lia). change (2 ^ 29) with 536870912 in *. lia.
Qed.

Lemma land_1 x : Z.land x 1 = x mod 2.
Proof. change 1 with (Z.ones 1). rewrite Z.land_ones by lia. reflexivity. Qed.

Lemma shiftr_1 x : Z.shiftr x 1 = x / 2.
Proof. now rewrite Z.shiftr_div_pow2 by lia. Qed.

Lemma Zencode_round n v i x y :
  0 <= i <= 14 -> 0 <= v < 2 ^ (2 * i) ->
  Zencode_loop (S n) v (2 ^ (2 * i)) x y
  = Zencode_loop n (v + 2 ^ (2 * i) * (x mod 2 + 2 * (y mod 2))) (2 ^ (2 * (i + 1))) (x / 2) (y / 2).
Proof.
  intros Hi Hv. cbn [Zencode_loop]. rewrite !land_1, !shiftr_1.
  pose proof (bit_range x). pose proof (bit_range y).
  rewrite or_mask, shift_mask, or_mask, shift_mask by (rewrite ?Z.pow_add_r by lia; change (2 ^ 1) with 2; nia).
  replace (2 * i + 1 + 1) with (2 * (i + 1)) by lia.
  f_equal. rewrite Z.pow_add_r by lia. lia.
Qed.

Lemma Zencode_rounds n m v i x y :
  0 <= i -> i + Z.of_nat n <= 15 -> 0 <= v < 2 ^ (2 * i) ->
  Zencode_loop (n + m) v (2 ^ (2 * i)) x y
  = Zencode_loop m (v + 2 ^ (2 * i) * interleave n x y) (2 ^ (2 * (i + Z.of_nat n)))
      (x / 2 ^ Z.of_nat n) (y / 2 ^ Z.of_nat n).
Proof.
  revert v i x y; induction n as [|n IH]; intros v i x y Hi Hn Hv.
  - cbn [Nat.add interleave]. change (2 ^ Z.of_nat 0) with 1. rewrite !Z.div_1_r. f_equal; [lia|f_equal; lia].
  - cbn [Nat.add]. rewrite Zencode_round by lia.
    pose proof (bit_range x). pose proof (bit_range y).
    assert (E : 2 ^ (2 * (i + 1)) = 4 * 2 ^ (2 * i))
      by (replace (2 * (i + 1)) with (2 + 2 * i) by lia; now rewrite Z.pow_add_r by lia).
    rewrite IH by (rewrite ?E; nia). cbn [interleave].
    rewrite !Z.div_div by lia. rewrite <- !Z.pow_succ_r, <- !Nat2Z.inj_succ by lia.
    f_equal; [rewrite E|f_equal]; lia.
Qed.

Lemma Zencode_no_mask n v x y : Zencode_loop n v 0 x y = v.
Proof.
  revert v x y; induction n as [|n IH]; intros v x y; [reflexivity|].
  cbn [Zencode_loop]. rewrite Z.mul_0_r. change (Z.shiftl 0 1) with 0. change (i32 0) with 0.
  rewrite Z.mul_0_r. change (u64 (i32 0)) with 0. rewrite !Z.lor_0_r. apply IH.
Qed.

(** The coordinates for which the code is lossless. *)
Definition in_grid (x y : Z) : Prop := 0 <= x < 2 ^ 16 /\ 0 <= y < 2 ^ 15.

(** The sixteenth round: the bit of [y] would meet the sign of the mask. *)
Lemma Zencode_last n v x : 0 <= v < 2 ^ 30 -> Zencode_loop (S n) v (2 ^ 30) x 0 = v + x mod 2 * 2 ^ 30.
Proof.
  intros Hv. cbn [Zencode_loop]. rewrite land_1. pose proof (bit_range x).
  rewrite or_mask by lia. rewrite Z.land_0_l, Z.mul_0_l.
  assert (E : i32 (Z.shiftl (i32 (Z.shiftl (2 ^ 30) 1)) 1) = 0) by reflexivity. rewrite E.
  assert (E0 : u64 (i32 0) = 0) by reflexivity. rewrite E0, Z.lor_0_r. apply Zencode_no_mask.
Qed.

Lemma Zencode_interleave x y : in_grid x y -> Zencode_int_oid x y = interleave 16 x y.
Proof.
  intros [Hx Hy]. unfold Zencode_int_oid.
  pose proof (Zencode_rounds 15 17 0 0 x y ltac:(lia) ltac:(lia) ltac:(split; reflexivity || lia)) as E.
  pose proof (interleave_plus 15 1 x y) as P.
  change (15 + 17)%nat with 32%nat in E. change (15 + 1)%nat with 16%nat in P.
  change (2 ^ (2 * 0)) with 1 in E. change (Z.of_nat 15) with 15 in *.
  rewrite E, P, (Z.div_small y) by lia. clear E P. rewrite Z.mul_1_l, Z.add_0_l.
  pose proof (interleave_range 15 x y : 0 <= _ < 2 ^ 30) as R. revert R.
  generalize (interleave 15 x y). intros l R.
  assert (H : 0 <= x / 2 ^ 15 <= 1).
  { split; [apply Z.div_pos; lia|]. apply Z.lt_succ_r, Z.div_lt_upper_bound; lia. }
  revert H. generalize (x / 2 ^ 15). intros h H.
  change (2 ^ (2 * (0 + 15))) with (2 ^ 30). rewrite (Zencode_last 16 l h) by lia.
  cbn [interleave]. rewrite (Z.mod_small h) by lia. change (0 mod 2) with 0. change (2 * 15) with 30. lia.
Qed.

(** *** Back *)

Lemma or_bit_mask v z k :
  0 <= k <= 30 -> 0 <= v < 2 ^ k -> or_bit v z (2 ^ k) = v + 2 ^ k * (z mod 2).
Proof.
  intros Hk Hv. unfold or_bit. rewrite land_1. pose proof (bit_range z).
  assert (2 ^ k <= 2 ^ 30) by (apply Z.pow_le_mono_r; lia).
  rewrite (uwrap_id 64 (2 ^ k)), (uwrap_id 64 v), uwrap_id by nia. rewrite lor_add by lia. rewrite i32_id by nia. lia.
Qed.

Lemma or_bit_0 v mask : 0 <= v < 2 ^ 31 -> or_bit v 0 mask = v.
Proof.
  intros Hv. unfold or_bit. change (Z.land 0 1) with 0. rewrite Z.mul_0_l. change (u64 0) with 0.
  rewrite Z.lor_0_r, uwrap_id by lia. apply i32_id. lia.
Qed.

Lemma Zdecode_rounds n m xv yv i z :
  0 <= i -> i + Z.of_nat n <= 29 -> 0 <= xv < 2 ^ i -> 0 <= yv < 2 ^ i ->
  Zdecode_loop (n + m) xv yv (2 ^ i) z
  = Zdecode_loop m (xv + 2 ^ i * evens n z) (yv + 2 ^ i * evens n (z / 2)) (2 ^ (i + Z.of_nat n))
      (z / 2 ^ (2 * Z.of_nat n)).
Proof.
  revert xv yv i z; induction n as [|n IH]; intros xv yv i z Hi Hn Hx Hy.
  - cbn [Nat.add evens]. change (2 ^ (2 * Z.of_nat 0)) with 1. rewrite Z.div_1_r.
    f_equal; [lia|lia|f_equal; lia].
  - cbn [Nat.add Zdecode_loop]. rewrite !shiftr_1, !or_bit_mask, shift_mask by lia.
    pose proof (bit_range z). pose proof (bit_range (z / 2)).
    rewrite IH by (rewrite ?Z.pow_add_r by lia; change (2 ^ 1) with 2; nia).
    cbn [evens]. rewrite !Z.div_div by lia. change (2 * 2) with 4. change (2 * 4) with (4 * 2).
    rewrite <- !Z.div_div by lia. rewrite Z.pow_add_r by lia. change (2 ^ 1) with 2.
    f_equal; [lia|lia|f_equal; lia|].
    rewrite Z.div_div by lia. f_equal.
    replace (2 * Z.of_nat (S n)) with (2 + 2 * Z.of_nat n) by lia. now rewrite Z.pow_add_r by lia.
Qed.

Lemma Zdecode_zero n xv yv mask :
  0 <= xv < 2 ^ 31 -> 0 <= yv < 2 ^ 31 -> Zdecode_loop n xv yv mask 0 = (xv, yv).
Proof.
  intros Hx Hy. revert mask; induction n as [|n IH]; intros mask; [reflexivity|].
  cbn [Zdecode_loop]. change (Z.shiftr 0 1) with 0. rewrite !or_bit_0 by assumption. apply IH.
Qed.

Lemma evens_interleave n x y :
  0 <= x < 2 ^ Z.of_nat n -> 0 <= y < 2 ^ Z.of_nat n ->
  evens n (interleave n x y) = x /\ evens n (interleave n x y / 2) = y.
Proof.
  revert x y; induction n as [|n IH]; intros x y Hx Hy; [cbn in *; lia|].
  rewrite Nat2Z.inj_succ, Z.pow_succ_r in Hx, Hy by lia.
  destruct (IH (x / 2) (y / 2)) as [Ex Ey];
    [split; [apply Z.div_pos|apply Z.div_lt_upper_bound]; lia
    |split; [apply Z.div_pos|apply Z.div_lt_upper_bound]; lia|].
  cbn [interleave evens]. pose proof (bit_range x). pose proof (bit_range y).
  set (I := interleave n (x / 2) (y / 2)) in *. set (z := x mod 2 + 2 * (y mod 2) + 4 * I).
  assert (Z4 : z / 4 = I) by (symmetry; apply (Z.div_unique z 4 I (x mod 2 + 2 * (y mod 2))); lia).
  assert (Z2 : z / 2 = y mod 2 + 2 * I) by (symmetry; apply (Z.div_unique z 2 _ (x mod 2)); lia).
  assert (M : z mod 2 = x mod 2) by (symmetry; apply (Z.mod_unique z 2 (y mod 2 + 2 * I)); lia).
  assert (M2 : z / 2 mod 2 = y mod 2) by (symmetry; apply (Z.mod_unique (z / 2) 2 I); lia).
  assert (Q : z / 2 / 4 = I / 2) by (rewrite Z.div_div, Z.mul_comm, <- Z.div_div, Z4 by lia; reflexivity).
  rewrite Z4, M, M2, Q, Ex, Ey. pose proof (Z.div_mod x 2). pose proof (Z.div_mod y 2). lia.
Qed.

Lemma Zdecode_interleave x y : in_grid x y -> Zdecode_int_oid (interleave 16 x y) = (x, y).
Proof.
  intros [Hx Hy]. unfold Zdecode_int_oid.
  pose proof (Zdecode_rounds 16 16 0 0 0 (interleave 16 x y)) as E.
  change (16 + 16)%nat with 32%nat in E. change (2 ^ 0) with 1 in E. rewrite E by lia. clear E.
  pose proof (interleave_range 16 x y) as R. rewrite (Z.div_small _ (2 ^ _)) by exact R.
  change (Z.of_nat 16) with 16 in *.
  destruct (evens_interleave 16 x y) as [-> ->]; [lia|lia|].
  rewrite Zdecode_zero by lia. f_equal; lia.
Qed.

(** ** What is shown *)

Lemma Zdecode_x_loop_fst n xv yv m z : Zdecode_x_loop n xv m z = fst (Zdecode_loop n xv yv m z).
Proof.
  revert xv yv m z; induction n as [|n IH]; intros xv yv m z; [reflexivity|].
  cbn [Zdecode_x_loop Zdecode_loop]. rewrite Z.shiftr_shiftr by lia. apply IH.
Qed.

Lemma Zdecode_y_loop_snd n xv yv m z : Zdecode_y_loop n yv m z = snd (Zdecode_loop n xv yv m z).
Proof.
  revert xv yv m z; induction n as [|n IH]; intros xv yv m z; [reflexivity|].
  cbn [Zdecode_y_loop Zdecode_loop]. apply IH.
Qed.

Lemma Zdecode_x_fst z : Zdecode_int_oid_x z = fst (Zdecode_int_oid z).
Proof. apply Zdecode_x_loop_fst. Qed.

Lemma Zdecode_y_snd z : Zdecode_int_oid_y z = snd (Zdecode_int_oid z).
Proof. apply Zdecode_y_loop_snd. Qed.

Lemma interleave_mono n x y x' y' :
  0 <= x <= x' -> 0 <= y <= y' -> x' < 2 ^ Z.of_nat n -> y' < 2 ^ Z.of_nat n ->
  interleave n x y <= interleave n x' y'
  /\ (interleave n x y = interleave n x' y' -> x = x' /\ y = y').
Proof.
  revert x y x' y'; induction n as [|n IH]; intros x y x' y' Hx Hy Bx By; [cbn in *; lia|].
  rewrite Nat2Z.inj_succ, Z.pow_succ_r in Bx, By by lia.
  assert (D : forall a b, 0 <= a <= b -> b < 2 * 2 ^ Z.of_nat n -> 0 <= a / 2 <= b / 2 /\ b / 2 < 2 ^ Z.of_nat n).
  { intros a b Hab Hb. split; [split; [apply Z.div_pos; lia|apply Z.div_le_mono; lia]|].
    apply Z.div_lt_upper_bound; lia. }
  destruct (IH (x / 2) (y / 2) (x' / 2) (y' / 2)) as [L E];
    try apply (D x x'); try apply (D y y'); trivial.
  cbn [interleave]. pose proof (bit_range x). pose proof (bit_range y).
  pose proof (bit_range x'). pose proof (bit_range y').
  pose proof (Z.div_mod x 2). pose proof (Z.div_mod y 2).
  pose proof (Z.div_mod x' 2). pose proof (Z.div_mod y' 2).
  destruct (Z.eq_dec (interleave n (x / 2) (y / 2)) (interleave n (x' / 2) (y' / 2))) as [e|e]; [|lia].
  destruct (E e). lia.
Qed.

(** C40: Encoding is lossless and respects the order: for coordinates below 2^16
    and 2^15 the three ways of decoding give the coordinates back, a point that is
    nowhere below another one has no smaller code, and different points have
    different codes. *)
Theorem zorder_round_trip x y :
  in_grid x y ->
  Zdecode_int_oid (Zencode_int_oid x y) = (x, y)
  /\ Zdecode_int_oid_x (Zencode_int_oid x y) = x
  /\ Zdecode_int_oid_y (Zencode_int_oid x y) = y
  /\ forall x' y', in_grid x' y' -> x <= x' -> y <= y' ->
       0 <= Zencode_int_oid x y <= Zencode_int_oid x' y' /\ Zencode_int_oid x' y' < 2 ^ 32
       /\ (Zencode_int_oid x y = Zencode_int_oid x' y' -> x = x' /\ y = y').
Proof.
  intros G. rewrite Zdecode_x_fst, Zdecode_y_snd, Zencode_interleave, Zdecode_interleave by assumption.
  split; [reflexivity|]. split; [reflexivity|]. split; [reflexivity|].
  intros x' y' G' Lx Ly. rewrite Zencode_interleave by assumption. unfold in_grid in *.
  destruct (interleave_mono 16 x y x' y') as [M E]; try (cbn [Z.of_nat]; lia).
  split; [split; [apply interleave_range|exact M]|].
  split; [exact (proj2 (interleave_range 16 x' y'))|exact E].
Qed.

Lemma zorder_round_trip_witness :
  Zdecode_int_oid (Zencode_int_oid 65535 32767) = (65535, 32767).
Proof. apply zorder_round_trip. unfold in_grid. lia. Defined.

(** Beyond those bounds the upper bits of [x] are lost, and bit fifteen of [y]
    fills the upper half of the code. *)
Lemma encode_beyond :
  Zencode_int_oid (2 ^ 16) 0 = 0
  /\ Zencode_int_oid 0 (2 ^ 15) = 2 ^ 64 - 2 ^ 31
  /\ Zencode_int_oid 1 (2 ^ 15 + 2 ^ 16) = Zencode_int_oid 1 (2 ^ 15).
Proof. now vm_compute. Qed.

(** *** Slices *)

Lemma In_ints lo hi k : In k (ints lo hi) <-> lo <= k < hi.
Proof.
  unfold ints. rewrite in_map_iff. setoid_rewrite in_seq. split.
  - intros (n & <- & Hn). lia.
  - intros Hk. exists (Z.to_nat (k - lo)). lia.
Qed.

Lemma NoDup_ints lo hi : NoDup (ints lo hi).
Proof. apply Injective_map_NoDup; [intros a b; lia|apply seq_NoDup]. Qed.

Lemma NoDup_flat_map {A B} (f : A -> list B) l :
  NoDup l -> (forall a, In a l -> NoDup (f a)) ->
  (forall a a' b, In a l -> In a' l -> In b (f a) -> In b (f a') -> a = a') -> NoDup (flat_map f l).
Proof.
  induction 1 as [|a l Na _ IH]; intros N D; cbn; [constructor|].
  apply NoDup_app; [apply N; now left| |].
  - apply IH; [intros; apply N; now right|intros; eapply D; try right; eassumption].
  - intros b Hb Hb'. apply in_flat_map in Hb' as (a' & Ha' & Hb').
    apply Na. rewrite (D a a' b); auto; [now left|now right].
Qed.

(** A slice is its rectangle: the codes it lists, each once, are exactly those
    that decode to a point of the rectangle, and all lie between the codes of its
    corners. *)
Theorem ZORDslice_int_exact xb yb xt yt :
  0 <= xb -> 0 <= yb -> xt <= 2 ^ 16 -> yt <= 2 ^ 15 ->
  NoDup (ZORDslice_int xb yb xt yt)
  /\ forall z, In z (ZORDslice_int xb yb xt yt) <->
       exists x y, xb <= x < xt /\ yb <= y < yt /\ z = Zencode_int_oid x y
         /\ Zdecode_int_oid z = (x, y)
         /\ Zencode_int_oid xb yb <= z <= Zencode_int_oid (xt - 1) (yt - 1).
Proof.
  intros Hxb Hyb Hxt Hyt.
  assert (G : forall x y, xb <= x < xt -> yb <= y < yt -> in_grid x y) by (unfold in_grid; lia).
  assert (D : forall x y, xb <= x < xt -> yb <= y < yt -> Zdecode_int_oid (Zencode_int_oid x y) = (x, y))
    by (intros x y Hx Hy; rewrite Zencode_interleave by (now apply G); apply Zdecode_interleave; now apply G).
  assert (M : forall x y x' y', in_grid x y -> in_grid x' y' -> x <= x' -> y <= y' ->
              Zencode_int_oid x y <= Zencode_int_oid x' y').
  { intros x y x' y' g g' Lx Ly. rewrite !Zencode_interleave by assumption. unfold in_grid in *.
    apply interleave_mono; cbn [Z.of_nat]; lia. }
  split.
  - apply NoDup_flat_map; [apply NoDup_ints| |].
    + intros i Hi%In_ints. apply Injective_map_NoDup_in; [|apply NoDup_ints].
      intros j j' Hj%In_ints Hj'%In_ints E. apply (f_equal Zdecode_int_oid) in E.
      rewrite !D in E by assumption. congruence.
    + intros i i' z Hi%In_ints Hi'%In_ints (j & <- & Hj%In_ints)%in_map_iff (j' & E & Hj'%In_ints)%in_map_iff.
      apply (f_equal Zdecode_int_oid) in E. rewrite !D in E by assumption. congruence.
  - intros z. unfold ZORDslice_int. split.
    + intros (i & Hi%In_ints & (j & <- & Hj%In_ints)%in_map_iff)%in_flat_map.
      exists i, j. rewrite D by assumption.
      repeat split; try lia; apply M; try (apply G; lia); lia.
    + intros (x & y & Hx & Hy & -> & _). apply in_flat_map. exists x. split; [now apply In_ints|].
      apply in_map_iff. exists y. split; [reflexivity|now apply In_ints].
Qed.

Lemma ZORDslice_int_exact_witness :
  ZORDslice_int 1 2 3 4 = [9; 11; 12; 14] /\ NoDup (ZORDslice_int 1 2 3 4).
Proof. split; [reflexivity|]. apply (ZORDslice_int_exact 1 2 3 4); lia. Defined.

(** *** Columns *)

(** A coordinate in a column that may hold nils. *)
Definition coordinate (bound : Z) (c : column) (v : Z) : Prop :=
  0 <= v < bound \/ (nonil c = false /\ v = int_nil).

(** A row that has a nil comes back as two nils. *)
Definition nil_rows (p : Z * Z) : Z * Z :=
  if (fst p =? int_nil) || (snd p =? int_nil) then (int_nil, int_nil) else p.

Lemma encode_row_back xn yn p r :
  (0 <= p < 2 ^ 16 \/ (xn = false /\ p = int_nil)) -> (0 <= r < 2 ^ 15 \/ (yn = false /\ r = int_nil)) ->
  decode_row (xn && yn) (encode_row xn yn p r) = nil_rows (p, r).
Proof.
  intros Hp Hr. unfold decode_row, encode_row, nil_rows. cbn [fst snd].
  assert (N : int_nil < 0) by reflexivity.
  destruct (Z.eqb_spec r int_nil) as [Er|Er].
  { destruct Hr as [Hr|[-> _]]; [lia|]. rewrite andb_false_r, orb_true_r. reflexivity. }
  rewrite andb_false_r. destruct (Z.eqb_spec p int_nil) as [Ep|Ep].
  { destruct Hp as [Hp|[-> _]]; [lia|]. reflexivity. }
  rewrite andb_false_r. destruct Hp as [Hp|[_ Hp]]; [|lia]. destruct Hr as [Hr|[_ Hr]]; [|lia].
  rewrite Zencode_interleave by now split. pose proof (interleave_range 16 p r) as B.
  assert (interleave 16 p r < oid_nil) by (eapply Z.lt_trans; [apply B|reflexivity]).
  rewrite (proj2 (Z.eqb_neq _ oid_nil)) by lia. rewrite andb_false_r.
  now rewrite Zdecode_interleave by now split.
Qed.

Lemma combine_fst_snd {A B} (l : list (A * B)) : combine (map fst l) (map snd l) = l.
Proof. induction l as [|[a b] l IH]; cbn; congruence. Qed.

(** Columns of coordinates survive the curve: decoding the encoded column gives
    two columns with the head of the first one and the same rows, except that a
    row with one nil has become a row of two; columns of different length are
    refused. *)
Theorem zorder_columns_round_trip (bx by_ : column) :
  Forall (coordinate (2 ^ 16) bx) (vals bx) -> Forall (coordinate (2 ^ 15) by_) (vals by_) ->
  match ZORDbatencode_int_oid true (Some bx) (Some by_) with
  | Ok bz =>
      List.length (vals bx) = List.length (vals by_)
      /\ exists cx cy, ZORDbatdecode_int_oid true (Some bz) = Ok (cx, cy)
        /\ hseqbase cx = hseqbase bx /\ hseqbase cy = hseqbase bx
        /\ nonil cx = nonil bx && nonil by_ /\ nonil cy = nonil cx
        /\ combine (vals cx) (vals cy) = map nil_rows (combine (vals bx) (vals by_))
        /\ ZORDbatdecode_int_oid_x true (Some bz) = Ok cx
        /\ ZORDbatdecode_int_oid_y true (Some bz) = Ok cy
  | ILLEGAL_ARGUMENT => List.length (vals bx) <> List.length (vals by_)
  | _ => False
  end.
Proof.
  intros Fx Fy. unfold ZORDbatencode_int_oid.
  destruct (Nat.eqb_spec (List.length (vals bx)) (List.length (vals by_))) as [L|L]; cbn [negb]; [|exact L].
  split; [exact L|]. eexists _, _. split; [reflexivity|]. cbn [hseqbase nonil vals].
  do 4 (split; [reflexivity|]). split; [|split].
  - rewrite combine_fst_snd, map_map. apply map_ext_in. intros [p r] Hin. apply encode_row_back.
    + apply in_combine_l in Hin. rewrite Forall_forall in Fx. exact (Fx p Hin).
    + apply in_combine_r in Hin. rewrite Forall_forall in Fy. exact (Fy r Hin).
  - unfold ZORDbatdecode_int_oid_x. cbn [negb vals nonil hseqbase].
    apply (f_equal (fun l => Ok (mkColumn _ l _))). rewrite (map_map (decode_row _) fst). apply map_ext. intros z. unfold decode_row.
    destruct (_ && _); [reflexivity|apply Zdecode_x_fst].
  - unfold ZORDbatdecode_int_oid_y. cbn [negb vals nonil hseqbase].
    apply (f_equal (fun l => Ok (mkColumn _ l _))). rewrite (map_map (decode_row _) snd). apply map_ext. intros z. unfold decode_row.
    destruct (_ && _); [reflexivity|apply Zdecode_y_snd].
Qed.

Lemma zorder_columns_round_trip_witness :
  let bx := mkColumn 5 [3; int_nil; 40000] false in
  let by_ := mkColumn 0 [4; 5; 32767] true in
  Forall (coordinate (2 ^ 16) bx) (vals bx) /\
  match ZORDbatencode_int_oid true (Some bx) (Some by_) with
  | Ok bz => List.length (vals bx) = List.length (vals by_)
             /\ exists cx cy, ZORDbatdecode_int_oid true (Some bz) = Ok (cx, cy)
                /\ combine (vals cx) (vals cy) = [(3, 4); (int_nil, int_nil); (40000, 32767)]
  | _ => False
  end.
Proof.
  intros bx by_.
  assert (Fx : Forall (coordinate (2 ^ 16) bx) (vals bx))
    by (repeat constructor; unfold coordinate; cbn; lia).
  assert (Fy : Forall (coordinate (2 ^ 15) by_) (vals by_))
    by (repeat constructor; unfold coordinate; cbn; lia).
  split; [exact Fx|]. pose proof (zorder_columns_round_trip bx by_ Fx Fy) as T.
  cbn [ZORDbatencode_int_oid bx by_ vals List.length Nat.eqb negb] in *.
  destruct T as [L (cx & cy & E & _ & _ & _ & _ & C & _)].
  split; [exact L|]. exists cx, cy. split; [exact E|exact C].
Defined.
