(* ===== verification/Stream.v ===== *)
(** * Streams

    common/stream/stream.c: a stream is a record with operations of its own.
    The classes [Reader] and [Writer] are the operations that the others call;
    [Source] and [Sink] say what a client may rely on.  Modelled are the wrappers ([mnstr_read] and the
    like, integers and arrays of integers in either byte order), streams on a
    buffer in memory, the tee, and the buffered writer.  Files and sockets are the
    operating system's; block streams have a file of their own. *)

From Stdlib Require Import ZArith Lia Bool List.
Import ListNotations.
From S2P Require Import Prelude.

Open Scope Z_scope.
Open Scope list_scope.

(** ** Streams *)

Definition MNSTR_OPEN_ERROR : Z := 1.
Definition MNSTR_READ_ERROR : Z := 2.
Definition MNSTR_WRITE_ERROR : Z := 3.

(** The fields that operations read and write; [data] is [stream_data]. *)
Record stream (D : Type) := mkStream { byteorder : Z; errnr : Z; data : D }.
Arguments mkStream {D} _ _ _. Arguments byteorder {D} _. Arguments errnr {D} _. Arguments data {D} _.

Definition with_errnr {D} (s : stream D) (e : Z) : stream D := mkStream (byteorder s) e (data s).
Definition with_data {D E} (s : stream D) (d : E) : stream E := mkStream (byteorder s) (errnr s) d.
Definition create_stream {D} (d : D) : stream D := mkStream 1234 0 d.

(** [read s elmsize cnt]: what is returned, what is stored, and the stream;
    [None] when the call does not return, or crashes.  [write s buf elmsize cnt] likewise. *)
Class Reader (D : Type) := read : stream D -> Z -> Z -> option (Z * list Z * stream D).
Class Writer (D : Type) := {
  write : stream D -> list Z -> Z -> Z -> option (Z * stream D);
  flush : stream D -> option (Z * stream D);
}.

(** The bytes of an area. *)
Definition area (buf : list Z) (n : Z) : list Z := firstn (Z.to_nat n) buf.

(** ** Wrappers *)

Section Wrappers.

Context {D : Type} {RD : Reader D} {WD : Writer D}.

Definition mnstr_read (s : stream D) (elmsize cnt : Z) : option (Z * list Z * stream D) :=
  if negb (errnr s =? 0) then Some (errnr s, [], s) else read s elmsize cnt.

Definition mnstr_write (s : stream D) (buf : list Z) (elmsize cnt : Z) : option (Z * stream D) :=
  if negb (errnr s =? 0) then Some (errnr s, s) else write s buf elmsize cnt.

Definition mnstr_flush (s : stream D) : option (Z * stream D) :=
  if negb (errnr s =? 0) then Some (errnr s, s) else flush s.

(** Integers in memory, least significant byte first. *)
Fixpoint to_le (n : nat) (v : Z) : list Z :=
  match n with O => [] | S n => v mod 256 :: to_le n (v / 256) end.
Fixpoint of_le (l : list Z) : Z := match l with [] => 0 | b :: l => b + 256 * of_le l end.

Definition short_int_SWAP (s : Z) : Z := i16 (Z.lor (Z.shiftl (Z.land 255 s) 8) (Z.shiftr (Z.land 65280 s) 8)).
Definition normal_int_SWAP (i : Z) : Z :=
  Z.lor (Z.lor (Z.lor (Z.shiftl (Z.land 255 i) 24) (Z.shiftl (Z.land 65280 i) 8)) (Z.shiftr (Z.land 16711680 i) 8)) (Z.shiftr (Z.land 4278190080 i) 24).
Definition long_long_SWAP (l : Z) : Z :=
  i64 (Z.lor (Z.shiftl (normal_int_SWAP l) 32) (Z.land 4294967295 (normal_int_SWAP (Z.shiftr l 32)))).

(** The number that was read, and whether it was. *)
Definition readNum (n : nat) (swap : Z -> Z) (s : stream D) : option (option Z * stream D) :=
  match read s (Z.of_nat n) 1 with
  | None => None
  | Some (r, bytes, s) =>
      if r =? 1
      then let v := swrap (8 * Z.of_nat n) (of_le bytes) in
           Some (Some (if negb (byteorder s =? 1234) then swap v else v), s)
      else if r =? 0 then Some (None, with_errnr s MNSTR_READ_ERROR)
      else Some (None, s)
  end.
Definition mnstr_readBte : stream D -> option (option Z * stream D) := readNum 1 (fun v => v).
Definition mnstr_readSht : stream D -> option (option Z * stream D) := readNum 2 short_int_SWAP.
Definition mnstr_readInt : stream D -> option (option Z * stream D) := readNum 4 (fun v => i32 (normal_int_SWAP v)).
Definition mnstr_readLng : stream D -> option (option Z * stream D) := readNum 8 long_long_SWAP.

Definition writeNum (n : nat) (s : stream D) (v : Z) : option (bool * stream D) :=
  if negb (errnr s =? 0) then Some (false, s)
  else option_map (fun '(r, s) => (r =? 1, s)) (write s (to_le n v) (Z.of_nat n) 1).
Definition mnstr_writeBte : stream D -> Z -> option (bool * stream D) := writeNum 1.
Definition mnstr_writeSht : stream D -> Z -> option (bool * stream D) := writeNum 2.
Definition mnstr_writeInt : stream D -> Z -> option (bool * stream D) := writeNum 4.
Definition mnstr_writeLng : stream D -> Z -> option (bool * stream D) := writeNum 8.

(** Bytes as integers of [n] bytes. *)
Fixpoint numbers (n : nat) (k : nat) (l : list Z) : list Z :=
  match k with O => [] | S k => swrap (8 * Z.of_nat n) (of_le (firstn n l)) :: numbers n k (skipn n l) end.

Definition readArray (n : nat) (swap : Z -> Z) (s : stream D) (cnt : Z) : option (option (list Z) * stream D) :=
  match read s (Z.of_nat n) cnt with
  | None => None
  | Some (r, bytes, s) =>
      if r <? cnt then Some (None, with_errnr s MNSTR_READ_ERROR)
      else let vs := numbers n (Z.to_nat cnt) bytes in
           Some (Some (if negb (byteorder s =? 1234) then map swap vs else vs), s)
  end.
Definition mnstr_readBteArray : stream D -> Z -> option (option (list Z) * stream D) := readArray 1 (fun v => v).
Definition mnstr_readShtArray : stream D -> Z -> option (option (list Z) * stream D) := readArray 2 short_int_SWAP.
Definition mnstr_readIntArray : stream D -> Z -> option (option (list Z) * stream D) := readArray 4 (fun v => i32 (normal_int_SWAP v)).
Definition mnstr_readLngArray : stream D -> Z -> option (option (list Z) * stream D) := readArray 8 long_long_SWAP.

Definition writeArray (n : nat) (s : stream D) (vs : list Z) : option (bool * stream D) :=
  let cnt := Z.of_nat (List.length vs) in
  if negb (errnr s =? 0) then Some (false, s)
  else option_map (fun '(r, s) => (r =? cnt, s)) (write s (flat_map (to_le n) vs) (Z.of_nat n) cnt).
Definition mnstr_writeBteArray : stream D -> list Z -> option (bool * stream D) := writeArray 1.
Definition mnstr_writeShtArray : stream D -> list Z -> option (bool * stream D) := writeArray 2.
Definition mnstr_writeIntArray : stream D -> list Z -> option (bool * stream D) := writeArray 4.
Definition mnstr_writeLngArray : stream D -> list Z -> option (bool * stream D) := writeArray 8.

(** [mnstr_readline] for a stream that has no [readline]: one byte after the
    other; [len] stays 0.  The result is the number of bytes that were stored. *)
Fixpoint readline_loop (fuel : nat) (s : stream D) (maxcnt len : Z) (got : list Z) : option (list Z * stream D) :=
  match fuel with
  | O => None
  | S fuel =>
      match read s 1 1 with
      | None => None
      | Some (r, bytes, s) =>
          if (0 <? r) && (len <? maxcnt)
          then if of_le bytes =? 10 then Some (got ++ bytes, s) else readline_loop fuel s maxcnt len (got ++ bytes)
          else Some (got, s)
      end
  end.
Definition mnstr_readline (fuel : nat) (s : stream D) (maxcnt : Z) : option (Z * list Z * stream D) :=
  if negb (errnr s =? 0) then Some (errnr s, [], s)
  else
    match readline_loop fuel s maxcnt 0 [] with
    | None => None
    | Some (got, s) => Some (if negb (errnr s =? 0) then errnr s else Z.of_nat (List.length got), got, s)
    end.

End Wrappers.

(** ** A buffer in memory *)

(** [b_buf] holds [b_len] bytes. *)
Record buffer := mkBuffer { b_pos : Z; b_len : Z; b_buf : list Z }.
Definition buffer_init (buf : list Z) : buffer := mkBuffer 0 (Z.of_nat (List.length buf)) buf.
(** [buffer_create]; what [malloc] yields is [junk]. *)
Definition buffer_create (junk : Z -> Z) (size : Z) : buffer := mkBuffer 0 size (map junk (zrange 0 (Z.to_nat size))).
(** [size / elmsize] divides by zero for elements of size 0. *)
Definition buffer_read (s : stream buffer) (elmsize cnt : Z) : option (Z * list Z * stream buffer) :=
  let size := u64 (elmsize * cnt) in
  let b := data s in
  if u64 (b_pos b + size) <=? b_len b
  then if elmsize =? 0 then None
       else Some (size / elmsize, area (skipn (Z.to_nat (b_pos b)) (b_buf b)) size,
             with_data s (mkBuffer (u64 (b_pos b + size)) (b_len b) (b_buf b)))
  else Some (0, [], with_errnr s MNSTR_READ_ERROR).
#[export] Instance buffer_Reader : Reader buffer := buffer_read.

Section BufferWrite.

(** Whether [realloc] yields so many bytes, and what the new ones hold. *)
Context (room : Z -> bool) (junk : Z -> Z).

(** [ns *= 2]: after 64 rounds 0 is left, and the loop does not end. *)
Fixpoint grow (fuel : nat) (need ns : Z) : option Z :=
  match fuel with
  | O => None
  | S fuel => if need >? ns then grow fuel need (u64 (ns * 2)) else Some ns
  end.

Definition overwrite (l : list Z) (pos : Z) (new : list Z) : list Z :=
  firstn (Z.to_nat pos) l ++ new ++ skipn (Z.to_nat pos + List.length new) l.

Definition buffer_write (s : stream buffer) (buf : list Z) (elmsize cnt : Z) : option (Z * stream buffer) :=
  let size := u64 (elmsize * cnt) in
  let b := data s in
  let store b := Some (cnt, with_data s (mkBuffer (u64 (b_pos b + size)) (b_len b) (overwrite (b_buf b) (b_pos b) (area buf size)))) in
  if u64 (b_pos b + size) >? b_len b
  then match grow 65 (u64 (b_pos b + size)) (b_len b) with
       | None => None
       | Some ns =>
           if room ns
           then store (mkBuffer (b_pos b) ns (b_buf b ++ map junk (zrange (b_len b) (Z.to_nat (ns - b_len b)))))
           else Some (-1, with_errnr (with_data s (mkBuffer (b_pos b) (b_len b) [])) MNSTR_WRITE_ERROR)
       end
  else store b.

(** [buffer_get_buf]: the bytes so far, and an empty buffer. *)
Definition buffer_get_buf (b : buffer) : option (list Z) * buffer :=
  if (b_pos b =? b_len b) && negb (room (b_len b + 1)) then (None, mkBuffer (b_pos b) (b_len b) [])
  else (Some (area (b_buf b) (b_pos b)), if room (b_len b) then buffer_create junk (b_len b) else mkBuffer 0 0 []).

Definition buffer_Writer : Writer buffer := {| write := buffer_write; flush := fun s => Some (0, s) |}.

End BufferWrite.

(** ** Two streams at once *)

Record tee (D E : Type) := mkTee { orig : stream D; log : stream E }.
Arguments mkTee {D E} _ _. Arguments orig {D E} _. Arguments log {D E} _.

Section Tee.

Context {D E : Type} {WD : Writer D} {WE : Writer E}.

Definition both (r1 : option (Z * stream D)) (r2 : option (Z * stream E)) (s : stream (tee D E)) : option (Z * stream (tee D E)) :=
  match r1, r2 with
  | Some (reorig, o), Some (relog, l) => Some (if reorig <? relog then reorig else relog, with_data s (mkTee o l))
  | _, _ => None
  end.

Definition ts_write (s : stream (tee D E)) (buf : list Z) (elmsize cnt : Z) : option (Z * stream (tee D E)) :=
  both (write (orig (data s)) buf elmsize cnt) (write (log (data s)) buf elmsize cnt) s.
Definition ts_flush (s : stream (tee D E)) : option (Z * stream (tee D E)) := both (flush (orig (data s))) (flush (log (data s))) s.
#[export] Instance ts_Writer : Writer (tee D E) := {| write := ts_write; flush := ts_flush |}.

End Tee.

(** ** Buffered writing *)

Record wbs (D : Type) := mkWbs { wbs_s : stream D; wbs_len : Z; wbs_pos : Z; wbs_buf : list Z }.
Arguments mkWbs {D} _ _ _ _. Arguments wbs_s {D} _. Arguments wbs_len {D} _. Arguments wbs_pos {D} _. Arguments wbs_buf {D} _.

Section Wbs.

Context {D : Type} {WD : Writer D}.

Definition wbs_flush (s : stream (wbs D)) : option (Z * stream (wbs D)) :=
  let w := data s in
  let len := wbs_pos w in
  match write (wbs_s w) (wbs_buf w) 1 len with
  | None => None
  | Some (r, u) =>
      let done r u := Some (r, with_data s (mkWbs u (wbs_len w) 0 (wbs_buf w))) in
      if negb (r =? len) then done (-1) u
      else match flush u with None => None | Some (r, u) => done r u end
  end.

Fixpoint wbs_loop (fuel : nat) (s : stream (wbs D)) (buf : list Z) (todo : Z) : option (bool * stream (wbs D)) :=
  match fuel with
  | O => None
  | S fuel =>
      if 0 <? todo then
        let w := data s in
        let room := u64 (wbs_len w - wbs_pos w) in
        let fl := negb (room >? todo) in
        let nbytes := if fl then room else todo in
        let s := with_data s (mkWbs (wbs_s w) (wbs_len w) (u64 (wbs_pos w + nbytes)) (overwrite (wbs_buf w) (wbs_pos w) (area buf nbytes))) in
        if fl
        then match wbs_flush s with
             | None => None
             | Some (r, s) => if r <? 0 then Some (false, s) else wbs_loop fuel s (skipn (Z.to_nat nbytes) buf) (todo - nbytes)
             end
        else wbs_loop fuel s (skipn (Z.to_nat nbytes) buf) (todo - nbytes)
      else Some (true, s)
  end.

(** Every round but the last fills the buffer. *)
Definition wbs_write (s : stream (wbs D)) (buf : list Z) (elmsize cnt : Z) : option (Z * stream (wbs D)) :=
  let reqsize := u64 (cnt * elmsize) in
  option_map (fun '(ok, s) => (if ok : bool then cnt else -1, s)) (wbs_loop (S (Z.to_nat reqsize)) s buf reqsize).

#[export] Instance wbs_Writer : Writer (wbs D) := {| write := wbs_write; flush := wbs_flush |}.

(** [wbstream]; the buffer holds what [malloc] left there. *)
Definition wbstream (s : stream D) (junk : Z -> Z) (buflen : Z) : stream (wbs D) :=
  create_stream (mkWbs s buflen 0 (map junk (zrange 0 (Z.to_nat buflen)))).

End Wbs.

(** ** Interfaces *)

(** A stream to write to: [written] is what has gone through, if every call so far
    returned the number of elements it was asked for. *)
Class Sink {D} (W : Writer D) := {
  written : stream D -> list Z;
  writable : stream D -> Prop;
  sink_write : forall s buf elm cnt, writable s -> 0 < elm -> 0 <= cnt -> elm * cnt < 2 ^ 62 -> elm * cnt <= Z.of_nat (List.length buf) ->
    exists r s', write s buf elm cnt = Some (r, s') /\ (r = cnt -> writable s' /\ written s' = written s ++ area buf (elm * cnt));
  sink_flush : forall s, writable s -> exists r s', flush s = Some (r, s') /\ (0 <= r -> writable s' /\ written s' = written s);
}.

(** A stream to read from: [rest] is what is still to come. A call returns some of it
    when there is enough, and nothing at its end. *)
Class Source {D} (R : Reader D) := {
  rest : stream D -> list Z;
  readable : stream D -> Prop;
  source_read : forall s elm cnt, readable s -> 0 < elm -> 0 < cnt -> elm * cnt < 2 ^ 62 -> elm * cnt <= Z.of_nat (List.length (rest s)) ->
    exists k s', read s elm cnt = Some (k, area (rest s) (k * elm), s') /\ 1 <= k <= cnt
      /\ readable s' /\ rest s' = skipn (Z.to_nat (k * elm)) (rest s) /\ byteorder s' = byteorder s;
  source_end : forall s elm cnt, readable s -> 0 < elm -> 0 < cnt -> elm * cnt < 2 ^ 62 -> rest s = [] ->
    exists r s', read s elm cnt = Some (r, [], s') /\ r <= 0 /\ readable s' /\ rest s' = [] /\ byteorder s' = byteorder s;
  source_errnr : forall s e, readable s -> readable (with_errnr s e) /\ rest (with_errnr s e) = rest s;
}.

(** ** Numbers *)

Lemma length_to_le n v : List.length (to_le n v) = n.
Proof. revert v. induction n as [|n IH]; intros v; cbn; [reflexivity|]. now rewrite IH. Qed.

Lemma of_to_le n v : of_le (to_le n v) = uwrap (8 * Z.of_nat n) v.
Proof.
  revert v. induction n as [|n IH]; intros v; cbn [to_le of_le]; [unfold uwrap; change (2 ^ (8 * Z.of_nat 0)) with 1; now rewrite Z.mod_1_r|].
  rewrite IH. unfold uwrap. replace (8 * Z.of_nat (S n)) with (8 + 8 * Z.of_nat n) by lia. rewrite Z.pow_add_r by lia.
  change (2 ^ 8) with 256. rewrite Z.rem_mul_r by (try lia; apply Z.pow_pos_nonneg; lia). lia.
Qed.

Lemma swrap_uwrap w v : 0 < w -> swrap w (uwrap w v) = swrap w v.
Proof. intros W. unfold swrap, uwrap. f_equal. now rewrite Z.add_mod_idemp_l by (apply Z.pow_nonzero; lia). Qed.

(** What was written is read back. *)
Lemma num_back n v : (0 < n)%nat -> srange (8 * Z.of_nat n) v -> swrap (8 * Z.of_nat n) (of_le (to_le n v)) = v.
Proof. intros N R. rewrite of_to_le, swrap_uwrap by lia. apply swrap_id; [lia|exact R]. Qed.

Section Numbers.

Context {D E : Type} {WD : Writer D} `{!Sink WD} {RE : Reader E} `{!Source RE}.

Lemma writeNum_spec n s v : (0 < n < 64)%nat -> writable s ->
  exists b s', writeNum n s v = Some (b, s') /\ (b = true -> writable s' /\ written s' = written s ++ to_le n v).
Proof.
  intros N W. unfold writeNum. destruct (negb _); [now exists false, s|].
  destruct (sink_write s (to_le n v) (Z.of_nat n) 1 W) as (r & s' & E1 & Q); [lia|lia|lia|rewrite length_to_le; lia|].
  rewrite E1. cbn [option_map]. exists (r =? 1), s'. split; [reflexivity|]. intros B. apply Z.eqb_eq in B.
  destruct (Q B) as (Q1 & Q2). split; [exact Q1|]. rewrite Q2. f_equal. unfold area. rewrite Z.mul_1_r, Nat2Z.id.
  rewrite <- (length_to_le n v) at 1. apply firstn_all.
Qed.

Lemma readNum_spec n swap s l tl : (0 < n < 64)%nat -> readable s -> rest s = l ++ tl -> List.length l = n ->
  exists s', readNum n swap s = Some (Some (let v := swrap (8 * Z.of_nat n) (of_le l) in if byteorder s =? 1234 then v else swap v), s')
    /\ readable s' /\ rest s' = tl /\ byteorder s' = byteorder s.
Proof.
  intros N R Er L. unfold readNum.
  destruct (source_read s (Z.of_nat n) 1 R) as (k & s' & E1 & K & Q1 & Q2 & Q3); [lia|lia|lia|rewrite Er, length_app; lia|].
  assert (k = 1) as -> by lia. rewrite E1, Er, Z.mul_1_l, Z.eqb_refl. unfold area. rewrite Nat2Z.id, <- L, firstn_app, Nat.sub_diag, firstn_all, app_nil_r.
  exists s'. rewrite Q3. split; [now destruct (byteorder s =? 1234)|]. split; [exact Q1|]. split; [|reflexivity].
  rewrite Q2, Er, Z.mul_1_l, Nat2Z.id, <- L. apply skipn_exact.
Qed.

Lemma readNum_end n swap s : (0 < n < 64)%nat -> readable s -> rest s = [] ->
  exists s', readNum n swap s = Some (None, s') /\ readable s' /\ rest s' = [] /\ byteorder s' = byteorder s.
Proof.
  intros N R Er. unfold readNum. destruct (source_end s (Z.of_nat n) 1 R) as (r & s' & E1 & K & Q1 & Q2 & Q3); [lia|lia|lia|exact Er|].
  rewrite E1. replace (r =? 1) with false by lia. destruct (r =? 0); [|now exists s'].
  eexists. split; [reflexivity|]. destruct (source_errnr s' MNSTR_READ_ERROR Q1) as (A & B). now rewrite B.
Qed.

End Numbers.

(** ** Byte order *)

Lemma lor_field v b k : 0 <= k -> 0 <= v < 2 ^ k -> Z.lor v (b * 2 ^ k) = v + b * 2 ^ k.
Proof.
  intros Hk Hv. assert (D : Z.land v (b * 2 ^ k) = 0).
  { rewrite <- Z.shiftl_mul_pow2 by lia. apply Z.bits_inj'. intros n Hn.
    rewrite Z.land_spec, Z.bits_0. destruct (Z.lt_ge_cases n k).
    - rewrite (Z.shiftl_spec_low b) by lia. apply andb_false_r.
    - rewrite <- (Z.mod_small v (2 ^ k)), Z.mod_pow2_bits_high by lia. reflexivity. }
  rewrite <- Z.lxor_lor by exact D. symmetry. now apply Z.add_nocarry_lxor.
Qed.

Definition byte_at (k x : Z) : Z := (x / 2 ^ k) mod 256.

Lemma land_byte k x : 0 <= k -> Z.land (255 * 2 ^ k) x = byte_at k x * 2 ^ k.
Proof.
  intros K. unfold byte_at. change 255 with (Z.ones 8). change 256 with (2 ^ 8). rewrite <- Z.land_ones, <- !Z.shiftl_mul_pow2, <- Z.shiftr_div_pow2 by lia.
  apply Z.bits_inj'. intros n N. rewrite Z.land_spec, !Z.shiftl_spec, Z.land_spec by lia.
  destruct (Z.lt_ge_cases n k); [rewrite !(Z.testbit_neg_r _ (n - k)) by lia; reflexivity|].
  rewrite Z.shiftr_spec by lia. rewrite andb_comm. f_equal. f_equal. lia.
Qed.

Lemma byte_range k x : 0 <= byte_at k x < 256.
Proof. apply Z.mod_pos_bound. lia. Qed.

(** Wrapping keeps the low bytes. *)
Lemma byte_swrap w k v : 0 < w -> 0 <= k -> k + 8 <= w -> byte_at k (swrap w v) = byte_at k v.
Proof.
  intros W K L. unfold byte_at, swrap. set (m := 2 ^ (w - 1)).
  rewrite (Z.mod_eq (v + m) (2 ^ w)) by (apply Z.pow_nonzero; lia).
  replace (v + m - 2 ^ w * ((v + m) / 2 ^ w) - m) with (v + (- ((v + m) / 2 ^ w) * 2 ^ (w - k - 8) * 256) * 2 ^ k).
  - rewrite Z.div_add by (apply Z.pow_nonzero; lia). apply Z.mod_add. lia.
  - replace w with ((w - k - 8) + 8 + k) at 3 by lia. rewrite !Z.pow_add_r by lia. change (2 ^ 8) with 256. ring.
Qed.

Lemma normal_int_SWAP_bytes x :
  normal_int_SWAP x = byte_at 24 x + byte_at 16 x * 2 ^ 8 + byte_at 8 x * 2 ^ 16 + byte_at 0 x * 2 ^ 24.
Proof.
  unfold normal_int_SWAP. change 255 with (255 * 2 ^ 0). change 65280 with (255 * 2 ^ 8). change 16711680 with (255 * 2 ^ 16). change 4278190080 with (255 * 2 ^ 24).
  rewrite !land_byte by lia. pose proof (byte_range 0 x). pose proof (byte_range 8 x). pose proof (byte_range 16 x). pose proof (byte_range 24 x).
  set (b0 := byte_at 0 x) in *. set (b1 := byte_at 8 x) in *. set (b2 := byte_at 16 x) in *. set (b3 := byte_at 24 x) in *.
  rewrite !Z.shiftl_mul_pow2, !Z.shiftr_div_pow2 by lia.
  replace (b2 * 2 ^ 16 / 2 ^ 8) with (b2 * 2 ^ 8) by (change (2 ^ 16) with (2 ^ 8 * 2 ^ 8); rewrite Z.mul_assoc, Z.div_mul by lia; reflexivity).
  rewrite (Z.div_mul b3) by lia. rewrite (Z.lor_comm _ b3), (Z.lor_comm _ (b2 * 2 ^ 8)), (Z.lor_comm _ (b1 * 2 ^ 8 * 2 ^ 8)).
  replace (b1 * 2 ^ 8 * 2 ^ 8) with (b1 * 2 ^ 16) by ring. replace (b0 * 2 ^ 0 * 2 ^ 24) with (b0 * 2 ^ 24) by ring.
  rewrite (lor_field (b1 * 2 ^ 16) b0 24) by lia.
  replace (b1 * 2 ^ 16 + b0 * 2 ^ 24) with ((b1 + b0 * 2 ^ 8) * 2 ^ 16) by ring. rewrite (lor_field (b2 * 2 ^ 8)) by lia.
  replace (b2 * 2 ^ 8 + (b1 + b0 * 2 ^ 8) * 2 ^ 16) with ((b2 + (b1 + b0 * 2 ^ 8) * 2 ^ 8) * 2 ^ 8) by ring. rewrite lor_field by lia. ring.
Qed.

Definition bytes (l : list Z) : Prop := Forall (fun b => 0 <= b < 256) l.

(** The macros reverse the bytes of a number. *)
Lemma short_int_SWAP_reverses a b : bytes [a; b] -> short_int_SWAP (i16 (of_le [a; b])) = i16 (of_le [b; a]).
Proof.
  intros B. pose proof (Forall_inv B). pose proof (Forall_inv (Forall_inv_tail B)). cbn beta in *.
  unfold short_int_SWAP. f_equal. change 255 with (255 * 2 ^ 0). change 65280 with (255 * 2 ^ 8). rewrite !land_byte, !byte_swrap by lia.
  rewrite Z.shiftl_mul_pow2, Z.shiftr_div_pow2, Z.div_mul, Z.lor_comm by lia. unfold byte_at. cbn [of_le].
  rewrite Z.mul_0_r, Z.add_0_r. change (2 ^ 0) with 1. change (2 ^ 8) with 256. rewrite Z.mul_1_r, Z.div_1_r.
  replace ((a + 256 * b) / 256 mod 256) with b by (Z.div_mod_to_equations; lia). replace ((a + 256 * b) mod 256) with a by (Z.div_mod_to_equations; lia).
  change 256 with (2 ^ 8) at 1. rewrite lor_field by (change (2 ^ 8) with 256; lia). lia.
Qed.

Lemma byte_of_le l : bytes l -> forall i, byte_at (8 * Z.of_nat i) (of_le l) = nth i l 0.
Proof.
  induction 1 as [|b l B _ IH]; intros i; cbn [of_le].
  - unfold byte_at. rewrite Z.div_0_l by (apply Z.pow_nonzero; lia). now destruct i.
  - destruct i as [|i]; cbn [nth].
    + unfold byte_at. change (2 ^ (8 * Z.of_nat 0)) with 1. rewrite Z.div_1_r, (Z.mul_comm 256), Z.mod_add, Z.mod_small by lia. reflexivity.
    + rewrite <- IH. unfold byte_at. replace (8 * Z.of_nat (S i)) with (8 + 8 * Z.of_nat i) by lia. rewrite Z.pow_add_r, <- Z.div_div by (try lia; apply Z.pow_pos_nonneg; lia).
      change (2 ^ 8) with 256. rewrite (Z.mul_comm 256 (of_le l)), Z.div_add, (Z.div_small b), Z.add_0_l by lia. reflexivity.
Qed.

Lemma normal_int_SWAP_le a b c d e : bytes [a; b; c; d] -> (forall i, (i < 4)%nat -> byte_at (8 * Z.of_nat i) e = nth i [a; b; c; d] 0) ->
  normal_int_SWAP e = of_le [d; c; b; a].
Proof.
  intros B E. rewrite normal_int_SWAP_bytes. pose proof (E 0%nat ltac:(lia)) as E0. pose proof (E 1%nat ltac:(lia)) as E1.
  pose proof (E 2%nat ltac:(lia)) as E2. pose proof (E 3%nat ltac:(lia)) as E3. cbn [nth] in *.
  change (8 * Z.of_nat 0) with 0 in E0. change (8 * Z.of_nat 1) with 8 in E1. change (8 * Z.of_nat 2) with 16 in E2. change (8 * Z.of_nat 3) with 24 in E3.
  rewrite E0, E1, E2, E3. cbn [of_le]. ring.
Qed.

Lemma normal_int_SWAP_reverses a b c d : bytes [a; b; c; d] ->
  i32 (normal_int_SWAP (i32 (of_le [a; b; c; d]))) = i32 (of_le [d; c; b; a]).
Proof.
  intros B. rewrite (normal_int_SWAP_le a b c d); [reflexivity|exact B|]. intros i I. rewrite byte_swrap by lia. now apply byte_of_le.
Qed.

Lemma of_le_range l : bytes l -> 0 <= of_le l < 2 ^ (8 * Z.of_nat (List.length l)).
Proof.
  induction 1 as [|b l B _ IH]; cbn [of_le List.length]; [change (2 ^ (8 * Z.of_nat 0)) with 1; lia|].
  replace (8 * Z.of_nat (S (List.length l))) with (8 + 8 * Z.of_nat (List.length l)) by lia. rewrite Z.pow_add_r by lia. change (2 ^ 8) with 256. lia.
Qed.

Lemma of_le_app l m : of_le (l ++ m) = of_le l + 2 ^ (8 * Z.of_nat (List.length l)) * of_le m.
Proof.
  induction l as [|b l IH]; cbn [of_le app List.length]; [change (2 ^ (8 * Z.of_nat 0)) with 1; lia|].
  rewrite IH. replace (8 * Z.of_nat (S (List.length l))) with (8 + 8 * Z.of_nat (List.length l)) by lia. rewrite Z.pow_add_r by lia. change (2 ^ 8) with 256. ring.
Qed.

Lemma byte_shifted k j x : 0 <= k -> 0 <= j -> byte_at k (Z.shiftr x j) = byte_at (j + k) x.
Proof. intros K J. unfold byte_at. rewrite Z.shiftr_div_pow2, Z.pow_add_r, Z.div_div by (try lia; try apply Z.pow_pos_nonneg; try lia; apply Z.pow_nonzero; lia). reflexivity. Qed.

#[local] Ltac split_bytes B := repeat (apply Forall_cons_iff in B as [? B]); repeat (apply Forall_cons; [assumption|]); apply Forall_nil.

Lemma long_long_SWAP_reverses a b c d e f g h : bytes [a; b; c; d; e; f; g; h] ->
  long_long_SWAP (i64 (of_le [a; b; c; d; e; f; g; h])) = i64 (of_le [h; g; f; e; d; c; b; a]).
Proof.
  intros B. assert (B1 : bytes [a; b; c; d]) by (split_bytes B).
  assert (B2 : bytes [e; f; g; h]) by (split_bytes B).
  unfold long_long_SWAP. f_equal. set (x := i64 _).
  assert (X : forall i, (i < 8)%nat -> byte_at (8 * Z.of_nat i) x = nth i [a; b; c; d; e; f; g; h] 0).
  { intros i I. unfold x. rewrite byte_swrap by lia. now apply byte_of_le. }
  rewrite (normal_int_SWAP_le a b c d x B1) by (intros i I; rewrite X by lia; do 4 (destruct i; [reflexivity|]); lia).
  rewrite (normal_int_SWAP_le e f g h (Z.shiftr x 32) B2).
  2:{ intros i I. rewrite byte_shifted by lia. replace (32 + 8 * Z.of_nat i) with (8 * Z.of_nat (4 + i)) by lia. rewrite X by lia. do 4 (destruct i; [reflexivity|]); lia. }
  pose proof (of_le_range [h; g; f; e]) as R. cbn [List.length] in R. change (8 * Z.of_nat 4) with 32 in R.
  assert (R2 : bytes [h; g; f; e]) by (split_bytes B2). specialize (R R2).
  change 4294967295 with (Z.ones 32). rewrite Z.land_comm, Z.land_ones, Z.mod_small, Z.lor_comm, Z.shiftl_mul_pow2, lor_field by lia.
  change [h; g; f; e; d; c; b; a] with ([h; g; f; e] ++ [d; c; b; a]). rewrite of_le_app. cbn [List.length]. change (8 * Z.of_nat 4) with 32. ring.
Qed.

(** ** Buffers are sources and sinks *)

Lemma area_app a b n : n = Z.of_nat (List.length a) -> area (a ++ b) n = a.
Proof. intros ->. unfold area. rewrite Nat2Z.id, firstn_app, Nat.sub_diag, firstn_all. apply app_nil_r. Qed.

Lemma length_area l n : 0 <= n <= Z.of_nat (List.length l) -> List.length (area l n) = Z.to_nat n.
Proof. intros N. unfold area. rewrite length_firstn. lia. Qed.

Lemma firstn_plus {A} n m : forall l : list A, firstn (n + m) l = firstn n l ++ firstn m (skipn n l).
Proof. induction n as [|n IH]; intros [|x l]; cbn; try reflexivity; [now rewrite firstn_nil|]. now rewrite IH. Qed.

Lemma area_split l n m : 0 <= n <= m -> area l m = area l n ++ area (skipn (Z.to_nat n) l) (m - n).
Proof.
  intros N. unfold area. replace (Z.to_nat m) with (Z.to_nat n + Z.to_nat (m - n))%nat by lia. apply firstn_plus.
Qed.

Record buffer_ok (b : buffer) : Prop := {
  bo_pos : 0 <= b_pos b <= b_len b;
  bo_len : b_len b = Z.of_nat (List.length (b_buf b));
  bo_size : b_len b <= 2 ^ 62;
}.

#[export, refine] Instance buffer_Source : Source buffer_Reader :=
  {| rest := fun s => skipn (Z.to_nat (b_pos (data s))) (b_buf (data s)); readable := fun s => buffer_ok (data s) |}.
Proof.
  - intros s elm cnt [P L S] E C Sz En. rewrite length_skipn in En.
    assert (U : u64 (elm * cnt) = elm * cnt) by (apply uwrap_id; nia).
    assert (W : u64 (b_pos (data s) + elm * cnt) = b_pos (data s) + elm * cnt) by (apply uwrap_id; lia).
    exists cnt. eexists. split; [|split; [lia|split; [|split] ] ].
    + unfold read, buffer_Reader, buffer_read. rewrite U, W. replace (_ <=? _) with true by lia. replace (elm =? 0) with false by lia. rewrite (Z.mul_comm cnt elm), (Z.mul_comm elm cnt), Z.div_mul by lia. reflexivity.
    + split; cbn; nia.
    + cbn. rewrite skipn_skipn. f_equal. nia.
    + reflexivity.
  - intros s elm cnt [P L S] E C Sz En. apply (f_equal (@List.length Z)) in En. rewrite length_skipn in En. cbn [List.length] in En.
    exists 0. eexists. split; [|split; [lia|split; [|split] ] ].
    + unfold read, buffer_Reader, buffer_read. rewrite (uwrap_id 64 (elm * cnt)), (uwrap_id 64 (_ + _)) by nia. replace (_ <=? _) with false by nia. reflexivity.
    + split; cbn; lia.
    + cbn. apply skipn_all2. lia.
    + reflexivity.
  - intros s e [P L S]. split; [split; cbn; lia|reflexivity].
Defined.

Section BufferSink.

Context (room : Z -> bool) (junk : Z -> Z) (limit : forall n, room n = true -> n <= 2 ^ 62).

Lemma grow_spec f : forall fuel need ns, 1 <= ns -> need <= ns * 2 ^ Z.of_nat f -> need <= 2 ^ 63 -> (f < fuel)%nat ->
  exists ns', grow fuel need ns = Some ns' /\ need <= ns' /\ ns <= ns'.
Proof.
  induction f as [|f IH]; intros fuel need ns N R Nd F; destruct fuel as [|fuel]; try lia; cbn [grow].
  - change (2 ^ Z.of_nat 0) with 1 in R. replace (need >? ns) with false by lia. exists ns. split; [reflexivity|lia].
  - destruct (Z.gtb_spec need ns) as [G|G]; [|exists ns; split; [reflexivity|lia] ].
    rewrite Nat2Z.inj_succ, Z.pow_succ_r in R by lia. rewrite uwrap_id by lia.
    destruct (IH fuel need (ns * 2)) as (ns' & E & Q1 & Q2); [lia|nia|lia|lia|].
    exists ns'. split; [exact E|]. lia.
Qed.

Lemma doubling_enough need ns : 1 <= ns <= 2 ^ 62 -> need <= 2 ^ 63 -> exists ns', grow 65 need ns = Some ns' /\ need <= ns' /\ ns <= ns'.
Proof. intros N Nd. apply (grow_spec 63); lia. Qed.

Lemma area_overwrite l pos new : 0 <= pos -> pos + Z.of_nat (List.length new) <= Z.of_nat (List.length l) ->
  area (overwrite l pos new) (pos + Z.of_nat (List.length new)) = area l pos ++ new.
Proof.
  intros P L. unfold overwrite. rewrite app_assoc. rewrite area_app; [reflexivity|]. rewrite length_app, length_firstn. lia.
Qed.

Lemma length_overwrite l pos new : 0 <= pos -> pos + Z.of_nat (List.length new) <= Z.of_nat (List.length l) -> List.length (overwrite l pos new) = List.length l.
Proof. intros P L. unfold overwrite. rewrite !length_app, length_firstn, length_skipn. lia. Qed.

Lemma buffer_store b size buf : buffer_ok b -> 0 <= size < 2 ^ 62 -> size <= Z.of_nat (List.length buf) -> b_pos b + size <= b_len b ->
  let b' := mkBuffer (u64 (b_pos b + size)) (b_len b) (overwrite (b_buf b) (b_pos b) (area buf size)) in
  buffer_ok b' /\ area (b_buf b') (b_pos b') = area (b_buf b) (b_pos b) ++ area buf size.
Proof.
  intros [P L S] Sz Lb F. assert (La : Z.of_nat (List.length (area buf size)) = size) by (rewrite length_area; lia).
  cbn [b_pos b_len b_buf]. rewrite uwrap_id by lia. split.
  - split; cbn [b_pos b_len b_buf]; try lia. rewrite length_overwrite; lia.
  - replace (b_pos b + size) with (b_pos b + Z.of_nat (List.length (area buf size))) by lia. apply area_overwrite; lia.
Qed.

#[export, refine] Instance buffer_Sink : Sink (buffer_Writer room junk) :=
  {| written := fun s => area (b_buf (data s)) (b_pos (data s)); writable := fun s => buffer_ok (data s) /\ 1 <= b_len (data s) |}.
Proof.
  - intros s buf elm cnt [Ok N] E C Sz L. pose proof Ok as [P Ln S]. cbn [write buffer_Writer]. unfold buffer_write.
    assert (U : u64 (elm * cnt) = elm * cnt) by (apply uwrap_id; nia).
    assert (W : u64 (b_pos (data s) + elm * cnt) = b_pos (data s) + elm * cnt) by (apply uwrap_id; nia).
    rewrite U, W. destruct (Z.gtb_spec (b_pos (data s) + elm * cnt) (b_len (data s))) as [G|G].
    + destruct (doubling_enough (b_pos (data s) + elm * cnt) (b_len (data s))) as (ns & -> & Q1 & Q2); [lia|lia|].
      destruct (room ns) eqn:R; [|eexists _, _; split; [reflexivity|lia] ]. apply limit in R.
      set (b := mkBuffer (b_pos (data s)) ns (b_buf (data s) ++ map junk (zrange (b_len (data s)) (Z.to_nat (ns - b_len (data s)))))).
      assert (B : buffer_ok b) by (split; cbn [b b_pos b_len b_buf]; try lia; rewrite length_app, length_map, zrange_length; lia).
      destruct (buffer_store b (elm * cnt) buf B) as (B1 & B2); [nia|lia|cbn [b b_pos b_len]; lia|].
      exists cnt. eexists. split; [reflexivity|]. intros _. cbn [data with_data]. split; [split; [exact B1|cbn [b_len b]; lia]|].
      rewrite B2. f_equal. cbn [b b_pos b_buf]. unfold area. rewrite firstn_app. replace (_ - _)%nat with 0%nat by lia. cbn [firstn]. apply app_nil_r.
    + destruct (buffer_store (data s) (elm * cnt) buf Ok) as (B1 & B2); [nia|lia|lia|].
      exists cnt. eexists. split; [reflexivity|]. intros _. cbn [data with_data]. rewrite <- W. split; [split; [exact B1|exact N]|exact B2].
  - intros s W. exists 0, s. split; [reflexivity|]. now intros _.
Defined.

End BufferSink.

(** ** Buffered writing *)

Section WbsSink.

Context {D : Type} {WD : Writer D} `{!Sink WD}.

Record wbs_ok (w : wbs D) : Prop := {
  wo_s : writable (wbs_s w);
  wo_pos : 0 <= wbs_pos w <= wbs_len w;
  wo_len : wbs_len w = Z.of_nat (List.length (wbs_buf w));
  wo_size : 1 <= wbs_len w < 2 ^ 62;
}.

(** What has gone through, and what waits in the buffer. *)
Definition wbs_written (w : wbs D) : list Z := written (wbs_s w) ++ area (wbs_buf w) (wbs_pos w).

Lemma wbs_flush_spec (s : stream (wbs D)) : wbs_ok (data s) -> exists r s', wbs_flush s = Some (r, s')
  /\ (0 <= r -> wbs_ok (data s') /\ wbs_pos (data s') = 0 /\ wbs_len (data s') = wbs_len (data s) /\ wbs_written (data s') = wbs_written (data s)).
Proof.
  intros [W P L S]. unfold wbs_flush.
  destruct (sink_write (wbs_s (data s)) (wbs_buf (data s)) 1 (wbs_pos (data s)) W) as (r & u & -> & Q); [lia..|].
  destruct (Z.eqb_spec r (wbs_pos (data s))) as [->|N]; cbn [negb]; [|eexists _, _; split; [reflexivity|lia] ].
  destruct (Q eq_refl) as (Q1 & Q2). destruct (sink_flush u Q1) as (r' & u' & -> & F).
  eexists _, _. split; [reflexivity|]. intros R. destruct (F R) as (F1 & F2). cbn [data with_data].
  split; [split; cbn [wbs_s wbs_pos wbs_len wbs_buf]; try exact F1; lia|]. split; [reflexivity|]. split; [reflexivity|].
  unfold wbs_written. cbn [wbs_s wbs_pos wbs_buf]. rewrite F2, Q2, Z.mul_1_l. apply app_nil_r.
Qed.

Lemma wbs_loop_spec fuel : forall (s : stream (wbs D)) buf todo, wbs_ok (data s) -> wbs_pos (data s) < wbs_len (data s) ->
  todo <= Z.of_nat (List.length buf) -> 0 <= todo < 2 ^ 62 -> todo < Z.of_nat fuel ->
  exists ok s', wbs_loop fuel s buf todo = Some (ok, s')
    /\ (ok = true -> wbs_ok (data s') /\ wbs_pos (data s') < wbs_len (data s') /\ wbs_written (data s') = wbs_written (data s) ++ area buf todo).
Proof.
  induction fuel as [|fuel IH]; intros s buf todo Ok Lt Lb T F; [lia|]. cbn [wbs_loop]. pose proof Ok as [W P L S].
  destruct (Z.ltb_spec 0 todo) as [Td|Td].
  2:{ exists true, s. split; [reflexivity|]. intros _. split; [exact Ok|]. split; [exact Lt|]. replace todo with 0 by lia. symmetry. apply app_nil_r. }
  rewrite uwrap_id by lia. set (fl := negb _). set (nb := if fl then wbs_len (data s) - wbs_pos (data s) else todo).
  assert (Nb : 0 < nb <= todo /\ wbs_pos (data s) + nb <= wbs_len (data s) /\ (fl = true -> nb = wbs_len (data s) - wbs_pos (data s)) /\ (fl = false -> nb = todo /\ wbs_pos (data s) + nb < wbs_len (data s))).
  { unfold nb, fl. destruct (Z.gtb_spec (wbs_len (data s) - wbs_pos (data s)) todo); cbn [negb]; repeat split; intros; try discriminate; lia. }
  destruct Nb as (N1 & N2 & N3 & N4). clearbody nb fl. rewrite uwrap_id by lia.
  assert (La : Z.of_nat (List.length (area buf nb)) = nb) by (rewrite length_area; lia).
  set (s1 := with_data s _).
  assert (Ok1 : wbs_ok (data s1)) by (split; cbn [s1 data with_data wbs_s wbs_pos wbs_len wbs_buf]; [exact W|lia| |exact S]; rewrite length_overwrite; lia).
  assert (Wr : wbs_written (data s1) = wbs_written (data s) ++ area buf nb).
  { unfold wbs_written. cbn [s1 data with_data wbs_s wbs_pos wbs_buf]. rewrite <- app_assoc. f_equal.
    replace (wbs_pos (data s) + nb) with (wbs_pos (data s) + Z.of_nat (List.length (area buf nb))) by lia. apply area_overwrite; lia. }
  assert (Ar : area buf nb ++ area (skipn (Z.to_nat nb) buf) (todo - nb) = area buf todo) by (symmetry; apply area_split; lia).
  assert (Sk : todo - nb <= Z.of_nat (List.length (skipn (Z.to_nat nb) buf))) by (rewrite length_skipn; lia).
  destruct fl.
  - destruct (wbs_flush_spec s1 Ok1) as (r & s2 & -> & Q). destruct (Z.ltb_spec r 0) as [R|R]; [now exists false, s2|].
    destruct (Q R) as (Q1 & Q2 & Q3 & Q4). destruct (IH s2 (skipn (Z.to_nat nb) buf) (todo - nb) Q1) as (ok & s' & E & G); [pose proof (wo_size _ Q1); lia|exact Sk|lia|lia|].
    exists ok, s'. split; [exact E|]. intros B. destruct (G B) as (G1 & G2 & G3). split; [exact G1|]. split; [exact G2|].
    now rewrite G3, Q4, Wr, <- app_assoc, Ar.
  - destruct (N4 eq_refl) as (N5 & N6). destruct (IH s1 (skipn (Z.to_nat nb) buf) (todo - nb) Ok1) as (ok & s' & E & G); [cbn [s1 data with_data wbs_pos wbs_len]; lia|exact Sk|lia|lia|].
    exists ok, s'. split; [exact E|]. intros B. destruct (G B) as (G1 & G2 & G3). split; [exact G1|]. split; [exact G2|].
    now rewrite G3, Wr, <- app_assoc, Ar.
Qed.

#[export, refine] Instance wbs_Sink : Sink wbs_Writer :=
  {| written := fun s => wbs_written (data s); writable := fun s => wbs_ok (data s) /\ wbs_pos (data s) < wbs_len (data s) |}.
Proof.
  - intros s buf elm cnt [Ok Lt] E C Sz L. cbn [write wbs_Writer]. unfold wbs_write. rewrite (Z.mul_comm cnt elm), uwrap_id by nia.
    destruct (wbs_loop_spec (S (Z.to_nat (elm * cnt))) s buf (elm * cnt) Ok Lt L) as (ok & s' & -> & Q); [nia|lia|].
    cbn [option_map]. eexists _, _. split; [reflexivity|]. intros R. destruct ok; [|lia]. destruct (Q eq_refl) as (Q1 & Q2 & Q3). auto.
  - intros s [Ok Lt]. cbn [flush wbs_Writer]. destruct (wbs_flush_spec s Ok) as (r & s' & -> & Q).
    exists r, s'. split; [reflexivity|]. intros R. destruct (Q R) as (Q1 & Q2 & Q3 & Q4). split; [split; [exact Q1|]|exact Q4].
    pose proof (wo_size _ Ok). lia.
Defined.

End WbsSink.

(** ** Numbers through a stream *)

Inductive num := Bte (v : Z) | Sht (v : Z) | Int (v : Z) | Lng (v : Z).
Definition width (x : num) : nat := match x with Bte _ => 1 | Sht _ => 2 | Int _ => 4 | Lng _ => 8 end.
Definition value (x : num) : Z := match x with Bte v | Sht v | Int v | Lng v => v end.
Definition in_range (x : num) : Prop := srange (8 * Z.of_nat (width x)) (value x).

Section Numbers.

Context {D E : Type} {WD : Writer D} `{!Sink WD} {RE : Reader E} `{!Source RE}.

Definition send (s : stream D) (x : num) : option (bool * stream D) :=
  match x with Bte v => mnstr_writeBte s v | Sht v => mnstr_writeSht s v | Int v => mnstr_writeInt s v | Lng v => mnstr_writeLng s v end.
Definition receive (s : stream E) (x : num) : option (option Z * stream E) :=
  match x with Bte _ => mnstr_readBte s | Sht _ => mnstr_readSht s | Int _ => mnstr_readInt s | Lng _ => mnstr_readLng s end.

Fixpoint send_all (s : stream D) (l : list num) : option (bool * stream D) :=
  match l with
  | [] => Some (true, s)
  | x :: l => match send s x with Some (true, s) => send_all s l | r => r end
  end.
Fixpoint receive_all (s : stream E) (l : list num) : option (list (option Z) * stream E) :=
  match l with
  | [] => Some ([], s)
  | x :: l => match receive s x with
              | Some (v, s) => option_map (fun '(vs, s) => (v :: vs, s)) (receive_all s l)
              | None => None
              end
  end.

Lemma send_all_spec l : forall s, writable s -> exists ok s', send_all s l = Some (ok, s')
  /\ (ok = true -> writable s' /\ written s' = written s ++ flat_map (fun x => to_le (width x) (value x)) l).
Proof.
  induction l as [|x l IH]; intros s W; cbn [send_all flat_map].
  - exists true, s. split; [reflexivity|]. intros _. split; [exact W|]. symmetry. apply app_nil_r.
  - assert (Q : exists b s', send s x = Some (b, s') /\ (b = true -> writable s' /\ written s' = written s ++ to_le (width x) (value x))).
    { destruct x; cbn [send width value]; apply writeNum_spec; auto; lia. }
    destruct Q as ([|] & s1 & -> & Q); [|now exists false, s1]. destruct (Q eq_refl) as (W1 & E1).
    destruct (IH s1 W1) as (ok & s' & E2 & G). exists ok, s'. split; [exact E2|]. intros B. destruct (G B) as (G1 & G2).
    split; [exact G1|]. now rewrite G2, E1, <- app_assoc.
Qed.

Lemma receive_all_spec l : forall s, Forall in_range l -> readable s -> byteorder s = 1234 ->
  rest s = flat_map (fun x => to_le (width x) (value x)) l ->
  exists s', receive_all s l = Some (map (fun x => Some (value x)) l, s') /\ readable s' /\ rest s' = [].
Proof.
  induction l as [|x l IH]; intros s G R B Er; cbn [receive_all flat_map map] in *; [now exists s|].
  apply Forall_cons_iff in G as [Gx G].
  assert (Q : exists s', receive s x = Some (Some (value x), s') /\ readable s' /\ rest s' = flat_map (fun x => to_le (width x) (value x)) l /\ byteorder s' = byteorder s).
  { assert (N : (0 < width x < 64)%nat) by (destruct x; cbn; lia).
    pose proof (fun swap => readNum_spec (width x) swap s _ _ N R Er (length_to_le _ _)) as Q. rewrite B, Z.eqb_refl, num_back in Q by (lia || exact Gx).
    rewrite B. destruct x; apply Q. }
  destruct Q as (s1 & -> & R1 & E1 & B1). destruct (IH s1 G R1 ltac:(congruence) E1) as (s' & -> & Q). now exists s'.
Qed.

(** Numbers of one, two, four and eight bytes that were all written are read back, in any mixture,
    through any streams that keep to the interfaces; calls return. *)
Theorem numbers_round_trip l (s : stream D) : Forall in_range l -> writable s -> written s = [] ->
  exists ok s', send_all s l = Some (ok, s')
    /\ (ok = true -> forall r : stream E, readable r -> byteorder r = 1234 -> rest r = written s' ->
        exists r', receive_all r l = Some (map (fun x => Some (value x)) l, r') /\ rest r' = []).
Proof.
  intros G W N. destruct (send_all_spec l s W) as (ok & s' & E1 & Q). exists ok, s'. split; [exact E1|].
  intros B r R O Er. destruct (Q B) as (_ & Q2). rewrite N in Q2. rewrite Q2 in Er.
  destruct (receive_all_spec l r G R O Er) as (r' & E2 & _ & E3). now exists r'.
Qed.

End Numbers.

(** ** Examples *)

Definition roomy (n : Z) : bool := n <=? 2 ^ 62.
Lemma roomy_limit n : roomy n = true -> n <= 2 ^ 62.
Proof. unfold roomy. lia. Qed.
#[export] Instance roomy_Writer : Writer buffer := buffer_Writer roomy (fun _ => 0).
#[export] Instance roomy_Sink : Sink roomy_Writer := buffer_Sink roomy (fun _ => 0) roomy_limit.

Definition sample_numbers : list num := [Int (-2); Bte 7; Lng (- 2 ^ 63); Sht 258].
(** A buffer that has to grow twice, behind a buffered writer of three bytes. *)
Definition sample_out : stream (wbs buffer) := wbstream (create_stream (buffer_create (fun _ => 0) 4)) (fun _ => 0) 3.

Lemma numbers_round_trip_witness :
  exists s', send_all sample_out sample_numbers = Some (true, s')
    /\ exists r', receive_all (create_stream (buffer_init (written s'))) sample_numbers
         = Some ([Some (-2); Some 7; Some (- 2 ^ 63); Some 258], r') /\ rest r' = [].
Proof.
  destruct (numbers_round_trip (D := wbs buffer) (E := buffer) sample_numbers sample_out) as (ok & s' & E & Q).
  - repeat (apply Forall_cons; [split; cbn; lia|]). apply Forall_nil.
  - split; [|reflexivity]. split; [|split; discriminate|reflexivity|split; [discriminate|reflexivity] ].
    split; [|discriminate]. split; [split; discriminate|reflexivity|discriminate].
  - reflexivity.
  - exists s'. assert (ok = true) as -> by (vm_compute in E; congruence). split; [exact E|]. apply (Q eq_refl); [|reflexivity|reflexivity].
    assert (L : List.length (written s') = 15%nat) by (vm_compute in E; injection E as <-; reflexivity).
    split; cbn [data create_stream buffer_init b_pos b_len b_buf]; try rewrite L; try reflexivity; try split; discriminate.
Defined.

(** ** What goes wrong *)

(** [mnstr_readline] never counts: a line longer than the buffer of the
    caller is stored all the same. *)
Lemma readline_overruns :
  option_map (fun r => fst (fst r)) (mnstr_readline 10 (create_stream (buffer_init [97; 98; 99; 100; 10; 97])) 2) = Some 5.
Proof. reflexivity. Qed.

(** A buffer that was created without room is doubled for ever. *)
Lemma empty_buffer_spins : write (Writer := roomy_Writer) (create_stream (buffer_create (fun _ => 0) 0)) [1] 1 1 = None.
Proof. vm_compute. reflexivity. Qed.

(** Numbers are swapped when they are read, but not when they are written. *)
Lemma byte_order_one_way :
  match mnstr_writeSht (mkStream 3412 0 (buffer_create (fun _ => 0) 2)) 1 with
  | Some (_, s) => option_map fst (mnstr_readSht (mkStream 3412 0 (buffer_init (b_buf (data s))))) = Some (Some 256)
  | None => False
  end.
Proof. vm_compute. reflexivity. Qed.
