(* ===== verification/BlockStream.v ===== *)
(** * Block streams

    common/stream/stream.c: [bs_write] collects bytes in blocks, [bs_flush]
    ends a message, [bs_read] gives the bytes of a message back and
    returns nothing once at its end.  The theorem says that what a client reads are the messages that were sent,
    however it was cut into blocks and whatever sizes are asked for.
    [bs_read_next] tells the end of a message in advance; [bstream_read] keeps a window of what
    was read. *)

From Stdlib Require Import ZArith Lia Bool List.
Import ListNotations.
From S2P Require Import Prelude Stream.

Open Scope Z_scope.
Open Scope list_scope.

(** ** The code *)

Definition BLOCK : Z := 8 * 1024 - 2.

(** [bs_buf] is the part of the buffer that is filled; readers do not use it. *)
Record bs (D : Type) := mkBs { bs_s : stream D; bs_nr : Z; bs_itotal : Z; bs_blks : Z; bs_bytes : Z; bs_buf : list Z }.
Arguments mkBs {D} _ _ _ _ _ _. Arguments bs_s {D} _. Arguments bs_nr {D} _. Arguments bs_itotal {D} _.
Arguments bs_blks {D} _. Arguments bs_bytes {D} _. Arguments bs_buf {D} _.

(** [bs_create] and [block_stream]. *)
Definition bs_create {D} (s : stream D) : bs D := mkBs s 0 0 0 0 [].
Definition block_stream {D} (s : stream D) : stream (bs D) := create_stream (bs_create s).

Section Writing.

Context {D : Type} {WD : Writer D}.

(** The header and the bytes of a block. *)
Definition put_block (s : stream D) (blksize : Z) (buf : list Z) (nr : Z) : option (bool * stream D) :=
  match mnstr_writeSht s blksize with
  | None => None
  | Some (false, s) => Some (false, s)
  | Some (true, s) => if nr >? 0 then option_map (fun '(r, s) => (r =? nr, s)) (write s buf 1 nr) else Some (true, s)
  end.

Fixpoint bs_write_loop (fuel : nat) (b : bs D) (buf : list Z) (todo : Z) : option (bool * bs D) :=
  match fuel with
  | O => None
  | S fuel =>
      if 0 <? todo then
        let n := Z.min todo (u64 (BLOCK - bs_nr b)) in
        let full := bs_buf b ++ area buf n in
        let nr := u32 (bs_nr b + n) in
        let rest := skipn (Z.to_nat n) buf in
        if nr =? BLOCK then
          let blksize := i16 (Z.shiftl (i16 nr) 1) in
          match put_block (bs_s b) blksize full nr with
          | None => None
          | Some (false, s) => Some (false, mkBs s nr (bs_itotal b) (bs_blks b) (u64 (bs_bytes b + nr)) full)
          | Some (true, s) => bs_write_loop fuel (mkBs s 0 (bs_itotal b) (u64 (bs_blks b + 1)) (u64 (bs_bytes b + nr)) []) rest (todo - n)
          end
        else bs_write_loop fuel (mkBs (bs_s b) nr (bs_itotal b) (bs_blks b) (bs_bytes b) full) rest (todo - n)
      else Some (true, b)
  end.

Definition bs_write (ss : stream (bs D)) (buf : list Z) (elmsize cnt : Z) : option (Z * stream (bs D)) :=
  let todo := u64 (cnt * elmsize) in
  match bs_write_loop (S (Z.to_nat todo)) (data ss) buf todo with
  | None => None
  | Some (true, b) => Some (cnt, with_data ss b)
  | Some (false, b) => Some (-1, with_errnr (with_data ss b) MNSTR_WRITE_ERROR)
  end.

Definition bs_flush (ss : stream (bs D)) : option (Z * stream (bs D)) :=
  let b := data ss in
  let blksize := i16 (Z.lor (i16 (Z.shiftl (bs_nr b) 1)) 1) in
  let bytes := u64 (bs_bytes b + bs_nr b) in
  match put_block (bs_s b) blksize (bs_buf b) (bs_nr b) with
  | None => None
  | Some (false, s) => Some (-1, with_errnr (with_data ss (mkBs s (bs_nr b) (bs_itotal b) (bs_blks b) bytes (bs_buf b))) MNSTR_WRITE_ERROR)
  | Some (true, s) => Some (0, with_data ss (mkBs s 0 (bs_itotal b) (u64 (bs_blks b + 1)) bytes []))
  end.

#[export] Instance bs_Writer : Writer (bs D) := {| write := bs_write; flush := bs_flush |}.

End Writing.

Section Reading.

Context {D : Type} {RD : Reader D}.

(** The count of the next block. *)
Definition next_block (b : bs D) : option (bool * bs D) :=
  match mnstr_readSht (bs_s b) with
  | None => None
  | Some (Some blksize, s) =>
      if blksize <? 0 then Some (false, mkBs s (bs_nr b) (bs_itotal b) (bs_blks b) (bs_bytes b) (bs_buf b))
      else let itotal := Z.shiftr blksize 1 in
           Some (true, mkBs s (Z.land blksize 1) itotal (u64 (bs_blks b + 1)) (u64 (bs_bytes b + itotal)) (bs_buf b))
  | Some (None, s) => Some (false, mkBs s (bs_nr b) (bs_itotal b) (bs_blks b) (bs_bytes b) (bs_buf b))
  end.

(** [n] bytes of the current block, in as many reads as it takes. *)
Fixpoint take_bytes (fuel : nat) (b : bs D) (n todo : Z) (got : list Z) : option (bool * bs D * Z * list Z) :=
  match fuel with
  | O => None
  | S fuel =>
      if 0 <? n then
        match read (bs_s b) 1 n with
        | None => None
        | Some (m, bytes, s) =>
            if m <=? 0 then Some (false, mkBs s (bs_nr b) (bs_itotal b) (bs_blks b) (bs_bytes b) (bs_buf b), todo, got)
            else take_bytes fuel (mkBs s (bs_nr b) (u32 (bs_itotal b - m)) (bs_blks b) (bs_bytes b) (bs_buf b)) (n - m) (todo - m) (got ++ bytes)
        end
      else Some (true, b, todo, got)
  end.

(** The loop over blocks; it makes one round for every block, and
    goes on for ever when empty blocks do. *)
Fixpoint fill_buffer (fuel : nat) (b : bs D) (todo : Z) (got : list Z) : option (bool * bs D * Z * list Z) :=
  match fuel with
  | O => None
  | S fuel =>
      if 0 <? todo then
        let n := Z.min todo (bs_itotal b) in
        match take_bytes (S (Z.to_nat n)) b n todo got with
        | None => None
        | Some (false, b, todo, got) => Some (false, b, todo, got)
        | Some (true, b, todo, got) =>
            if bs_itotal b =? 0 then
              if negb (bs_nr b =? 0) then Some (true, b, todo, got)
              else match next_block b with
                   | None => None
                   | Some (false, b) => Some (false, b, todo, got)
                   | Some (true, b) => fill_buffer fuel b todo got
                   end
            else fill_buffer fuel b todo got
        end
      else Some (true, b, todo, got)
  end.

Definition with_nr (b : bs D) (nr : Z) : bs D := mkBs (bs_s b) nr (bs_itotal b) (bs_blks b) (bs_bytes b) (bs_buf b).

(** The bytes that are stored are returned when the call succeeds. *)
Definition bs_read (ss : stream (bs D)) (elmsize cnt : Z) : option (Z * list Z * stream (bs D)) :=
  let b := data ss in
  let todo := u64 (cnt * elmsize) in
  let failed b := Some (-1, [], with_errnr (with_data ss b) MNSTR_READ_ERROR) in
  let go b :=
    match fill_buffer (S (Z.to_nat todo)) b todo [] with
    | None => None
    | Some (false, b, _, _) => failed b
    | Some (true, b, todo, got) =>
        let n := Z.of_nat (List.length got) in
        let b := if (0 <? todo) && (n =? 0) then with_nr b 0 else b in
        if elmsize =? 0 then None              (* division by zero *)
        else Some (n / elmsize, got, with_data ss b)
    end in
  if bs_itotal b =? 0
  then if negb (bs_nr b =? 0) then Some (0, [], with_data ss (with_nr b 0))
       else match next_block b with
            | None => None
            | Some (false, b) => failed b
            | Some (true, b) => go b
            end
  else go b.
#[export] Instance bs_Reader : Reader (bs D) := bs_read.

(** [mnstr_read_block]; nothing is stored in [x]. *)
Definition mnstr_read_block (ss : stream (bs D)) (elmsize cnt : Z) : option (Z * list Z * stream (bs D)) :=
  match mnstr_read ss elmsize cnt with
  | None => None
  | Some (len, got, ss) => option_map (fun '(_, _, ss) => (len, got, ss)) (mnstr_read ss 0 0)
  end.

(** [bs_read_next]; the second result is [*last]. *)
Definition bs_read_next (ss : stream (bs D)) (nbytes : Z) : option (Z * bool * list Z * stream (bs D)) :=
  match read ss 1 nbytes with
  | None => None
  | Some (n, got, ss) =>
      if n <? 0 then Some (-1, true, got, ss)
      else let b := data ss in
           let last := bs_itotal b =? 0 in
           Some (n, last, got, if last then with_data ss (with_nr b 0) else ss)
  end.

End Reading.

(** ** Blocks and messages *)

(** The bytes of a block, and whether it is the last one of a message. *)
Definition blk : Type := list Z * bool.
Definition header (b : blk) : Z := 2 * Z.of_nat (List.length (fst b)) + Z.b2z (snd b).
Definition wire (b : blk) : list Z := to_le 2 (header b) ++ fst b.
(** What a header has room for; only the last block of a message may be empty. *)
Definition blk_ok (b : blk) : Prop := Z.of_nat (List.length (fst b)) < 2 ^ 14 /\ (snd b = false -> fst b <> []).

(** The messages that blocks are made of, when [acc] has been seen of the
    first one, and what is there of the last one. *)
Fixpoint messages (acc : list Z) (bs : list blk) : list (list Z) :=
  match bs with
  | [] => []
  | (d, true) :: bs => (acc ++ d) :: messages [] bs
  | (d, false) :: bs => messages (acc ++ d) bs
  end.
Fixpoint unfinished (acc : list Z) (bs : list blk) : list Z :=
  match bs with
  | [] => acc
  | (d, true) :: bs => unfinished [] bs
  | (d, false) :: bs => unfinished (acc ++ d) bs
  end.

Lemma messages_snoc bs d l : forall acc, messages acc (bs ++ [(d, l)]) = messages acc bs ++ if l then [unfinished acc bs ++ d] else [].
Proof. induction bs as [|[e [|] ] bs IH]; intros acc; cbn; [destruct l; reflexivity| |apply IH]. now rewrite IH. Qed.
Lemma unfinished_snoc bs d l : forall acc, unfinished acc (bs ++ [(d, l)]) = if l then [] else unfinished acc bs ++ d.
Proof. induction bs as [|[e [|] ] bs IH]; intros acc; cbn; [destruct l; reflexivity|apply IH..]. Qed.


(** ** Writing *)

(** The messages that were sent, and the one that is being written. *)
Definition outbox : Type := list (list Z) * list Z.
Definition say (o : outbox) (l : list Z) : outbox := (fst o, snd o ++ l).
Definition end_message (o : outbox) : outbox := (fst o ++ [snd o], []).

Section Writer.

Context {D : Type} {WD : Writer D} `{!Sink WD}.

(** The blocks that went out since the stream held [base], and what is left of the buffer. *)
Record speaks (base : list Z) (b : bs D) (o : outbox) : Prop := {
  sp_sink : writable (bs_s b);
  sp_nr : bs_nr b = Z.of_nat (List.length (bs_buf b)) /\ bs_nr b < BLOCK;
  sp_blocks : exists sent, written (bs_s b) = base ++ flat_map wire sent /\ Forall blk_ok sent
    /\ messages [] sent = fst o /\ unfinished [] sent ++ bs_buf b = snd o;
}.

Lemma put_block_spec s d l : writable s -> Z.of_nat (List.length d) < 2 ^ 14 -> exists ok s',
  put_block s (header (d, l)) d (Z.of_nat (List.length d)) = Some (ok, s')
  /\ (ok = true -> writable s' /\ written s' = written s ++ wire (d, l)).
Proof.
  intros W L. unfold put_block. destruct (writeNum_spec 2 s (header (d, l)) ltac:(lia) W) as ([|] & s1 & E & Q).
  2:{ unfold mnstr_writeSht. rewrite E. now exists false, s1. }
  unfold mnstr_writeSht. rewrite E. destruct (Q eq_refl) as (Q1 & Q2). unfold wire. cbn [fst].
  destruct (Z.gtb_spec (Z.of_nat (List.length d)) 0) as [G|G].
  - destruct (sink_write s1 d 1 (Z.of_nat (List.length d)) Q1) as (r & s2 & -> & P); [lia..|]. cbn [option_map].
    eexists _, _. split; [reflexivity|]. intros R. apply Z.eqb_eq in R. destruct (P R) as (P1 & P2). split; [exact P1|].
    rewrite P2, Q2, <- app_assoc. do 2 f_equal. rewrite Z.mul_1_l. unfold area. now rewrite Nat2Z.id, firstn_all.
  - exists true, s1. split; [reflexivity|]. intros _. split; [exact Q1|]. rewrite Q2. destruct d; [|cbn in G; lia]. now rewrite app_nil_r.
Qed.

(** One more block. *)
Lemma speaks_block base b d l o s itotal blks bytes :
  speaks base b o -> bs_buf b ++ d = [] \/ Z.of_nat (List.length (bs_buf b ++ d)) <= BLOCK -> (l = false -> bs_buf b ++ d <> []) ->
  writable s -> written s = written (bs_s b) ++ wire (bs_buf b ++ d, l) ->
  speaks base (mkBs s 0 itotal blks bytes []) (if l then end_message (say o d) else say o d).
Proof.
  intros [W N (sent & E & F & M & U)] L Ne Ws Es. split; [exact Ws|cbn; split; [reflexivity|unfold BLOCK; lia]|].
  exists (sent ++ [(bs_buf b ++ d, l)]). cbn [bs_s bs_buf]. rewrite messages_snoc, unfinished_snoc, Es, E, flat_map_app. cbn [flat_map].
  split; [now rewrite <- app_assoc, app_nil_r|]. split.
  - apply Forall_app. split; [exact F|]. apply Forall_cons; [|apply Forall_nil]. split; [|exact Ne]. cbn [fst]. unfold BLOCK in L. destruct L as [->|L]; [cbn|]; lia.
  - unfold end_message, say. destruct l; cbn [fst snd]; rewrite ?app_nil_r, <- U, <- ?app_assoc, ?M; auto.
Qed.

Lemma bs_write_loop_spec base fuel : forall b buf todo o, speaks base b o -> 0 <= todo <= Z.of_nat (List.length buf) -> todo < 2 ^ 62 -> todo < Z.of_nat fuel ->
  exists ok b', bs_write_loop fuel b buf todo = Some (ok, b') /\ (ok = true -> speaks base b' (say o (area buf todo))).
Proof.
  induction fuel as [|fuel IH]; intros b buf todo o S T Sz F; [lia|]. cbn [bs_write_loop]. pose proof S as [W [N1 N2] _].
  destruct (Z.ltb_spec 0 todo) as [Td|Td].
  2:{ exists true, b. split; [reflexivity|]. intros _. replace todo with 0 by lia. unfold say. cbn. rewrite app_nil_r. now destruct o. }
  unfold BLOCK in N2. rewrite (uwrap_id 64 (BLOCK - bs_nr b)) by (unfold BLOCK; lia). set (n := Z.min _ _). assert (Nn : 0 < n <= todo /\ bs_nr b + n <= BLOCK) by (unfold BLOCK in *; lia).
  clearbody n. destruct Nn as (Nn & Nb). rewrite (uwrap_id 32 (bs_nr b + n)) by (unfold BLOCK in *; lia).
  assert (La : Z.of_nat (List.length (area buf n)) = n) by (rewrite length_area; lia).
  assert (Lf : Z.of_nat (List.length (bs_buf b ++ area buf n)) = bs_nr b + n) by (rewrite length_app; lia).
  assert (Ar : area buf n ++ area (skipn (Z.to_nat n) buf) (todo - n) = area buf todo) by (symmetry; apply area_split; lia).
  assert (Sk : 0 <= todo - n <= Z.of_nat (List.length (skipn (Z.to_nat n) buf))) by (rewrite length_skipn; lia).
  assert (Say : say (say o (area buf n)) (area (skipn (Z.to_nat n) buf) (todo - n)) = say o (area buf todo)).
  { unfold say. cbn [fst snd]. now rewrite <- app_assoc, Ar. }
  destruct (Z.eqb_spec (bs_nr b + n) BLOCK) as [Q|Q].
  - destruct (put_block_spec (bs_s b) (bs_buf b ++ area buf n) false W ltac:(rewrite Lf, Q; reflexivity)) as (ok & s & E & P).
    unfold header in E. cbn [fst snd Z.b2z] in E. rewrite Lf, Q in E. rewrite Q.
    replace (i16 (Z.shiftl (i16 BLOCK) 1)) with (2 * BLOCK + 0) by reflexivity. rewrite E.
    destruct ok; [|eexists _, _; split; [reflexivity|discriminate] ]. destruct (P eq_refl) as (P1 & P2).
    destruct (IH (mkBs s 0 (bs_itotal b) (u64 (bs_blks b + 1)) (u64 (bs_bytes b + BLOCK)) []) (skipn (Z.to_nat n) buf) (todo - n) (say o (area buf n))) as (ok & b' & E' & G);
      [|exact Sk|lia|lia|].
    + apply (speaks_block base b (area buf n) false o); auto; [right; lia|]. intros _ H. rewrite H in Lf. cbn in Lf. lia.
    + exists ok, b'. split; [exact E'|]. intros B. rewrite <- Say. now apply G.
  - destruct (IH (mkBs (bs_s b) (bs_nr b + n) (bs_itotal b) (bs_blks b) (bs_bytes b) (bs_buf b ++ area buf n)) (skipn (Z.to_nat n) buf) (todo - n) (say o (area buf n))) as (ok & b' & E' & G);
      [|exact Sk|lia|lia|].
    + destruct S as [_ _ (sent & S1 & S2 & S3 & S4)]. split; cbn [bs_s bs_nr bs_buf]; [exact W|lia|]. exists sent. unfold say. cbn [fst snd]. now rewrite app_assoc, S4.
    + exists ok, b'. split; [exact E'|]. intros B. rewrite <- Say. now apply G.
Qed.

Lemma bs_write_spec base ss buf elm cnt o : speaks base (data ss) o -> 0 < elm -> 0 <= cnt -> elm * cnt < 2 ^ 62 -> elm * cnt <= Z.of_nat (List.length buf) ->
  exists r ss', bs_write ss buf elm cnt = Some (r, ss') /\ (r = cnt -> speaks base (data ss') (say o (area buf (elm * cnt)))).
Proof.
  intros S E C Sz L. unfold bs_write. rewrite (Z.mul_comm cnt elm), uwrap_id by nia.
  destruct (bs_write_loop_spec base (Datatypes.S (Z.to_nat (elm * cnt))) (data ss) buf (elm * cnt) o S) as (ok & b & -> & Q); [nia|lia|nia|].
  destruct ok; eexists _, _; split; try reflexivity; [|lia]. intros _. exact (Q eq_refl).
Qed.

Lemma bs_flush_spec base ss o : speaks base (data ss) o ->
  exists r ss', bs_flush ss = Some (r, ss') /\ (r = 0 -> speaks base (data ss') (end_message o)).
Proof.
  intros S. pose proof S as [W [N1 N2] _]. unfold bs_flush. unfold BLOCK in N2.
  destruct (put_block_spec (bs_s (data ss)) (bs_buf (data ss)) true W ltac:(lia)) as (ok & s & E & P).
  unfold header in E. cbn [fst snd Z.b2z] in E. rewrite <- N1 in E.
  assert (H : i16 (Z.lor (i16 (Z.shiftl (bs_nr (data ss)) 1)) 1) = 2 * bs_nr (data ss) + 1).
  { rewrite Z.shiftl_mul_pow2, (swrap_id 16 (bs_nr (data ss) * _)), Z.lor_comm, lor_field by (unfold srange; lia). rewrite swrap_id by (unfold srange; lia). lia. }
  rewrite H, E. destruct ok; eexists _, _; split; try reflexivity; [|discriminate].
  intros _. destruct (P eq_refl) as (P1 & P2). cbn [data with_data].
  pose proof (speaks_block base (data ss) [] true o s (bs_itotal (data ss)) (u64 (bs_blks (data ss) + 1)) (u64 (bs_bytes (data ss) + bs_nr (data ss))) S) as Q.
  unfold say in Q. rewrite app_nil_r, app_nil_r in Q. destruct o. cbn [fst snd] in Q. apply Q; auto; [right; unfold BLOCK; lia|discriminate].
Qed.

End Writer.

(** ** Reading *)

(** One read of at most [n] bytes from a row of messages: nothing at the end of a message,
    a failure when there are no more. *)
Definition recv (n : Z) (msgs : list (list Z)) : option (list Z * list (list Z)) :=
  match msgs with
  | [] => None
  | [] :: ms => Some ([], ms)
  | m :: ms => Some (area m n, skipn (Z.to_nat n) m :: ms)
  end.

Definition mail (cur : list Z) (last : bool) (bs : list blk) : list (list Z) := if last then cur :: messages [] bs else messages cur bs.
Definition open_end (cur : list Z) (last : bool) (bs : list blk) : list Z := if last then unfinished [] bs else unfinished cur bs.

Lemma unfinished_nil bs : forall acc, Forall blk_ok bs -> messages acc bs = [] -> unfinished acc bs = [] -> acc = [] /\ bs = [].
Proof.
  induction bs as [|[d [|] ] bs IH]; intros acc F M U; cbn in *; [auto|discriminate|].
  apply Forall_cons_iff in F as [ [_ Ne] F]. destruct (IH _ F M U) as (A & _). apply app_eq_nil in A as [_ ->]. now destruct Ne.
Qed.

(** What has been seen of a message is in front of it. *)
Lemma messages_prefix p bs : forall q, messages (p ++ q) bs = match messages q bs with [] => [] | m :: ms => (p ++ m) :: ms end.
Proof. induction bs as [|[d [|] ] bs IH]; intros q; cbn [messages]; [reflexivity| |]; rewrite <- app_assoc; [reflexivity|apply IH]. Qed.

Lemma unfinished_prefix bs : forall acc, messages acc bs <> [] -> forall acc', unfinished acc bs = unfinished acc' bs.
Proof. induction bs as [|[d [|] ] bs IH]; intros acc M acc'; cbn in *; [now destruct M|reflexivity|now apply IH]. Qed.

Section Reader.

Context {D : Type} {RD : Reader D} `{!Source RD}.

(** What is left of the current block, whether it is the last of its
    message, and the blocks behind it. *)
Record hears (b : bs D) (cur : list Z) (last : bool) (bs : list blk) : Prop := {
  hr_source : readable (bs_s b) /\ byteorder (bs_s b) = 1234;
  hr_rest : rest (bs_s b) = cur ++ flat_map wire bs;
  hr_itotal : bs_itotal b = Z.of_nat (List.length cur) /\ bs_itotal b < 2 ^ 14;
  hr_nr : bs_nr b = Z.b2z last;
  hr_blocks : Forall blk_ok bs;
}.

Lemma hears_same b b' cur last bs : bs_s b' = bs_s b -> bs_itotal b' = bs_itotal b -> bs_nr b' = bs_nr b -> hears b cur last bs -> hears b' cur last bs.
Proof. intros E1 E2 E3 [? ? ? ? ?]. split; rewrite ?E1, ?E2, ?E3; assumption. Qed.

Lemma next_block_spec b d l bs : hears b [] false ((d, l) :: bs) -> exists b', next_block b = Some (true, b') /\ hears b' d l bs.
Proof.
  intros [ [R O] Er It Nr F]. apply Forall_cons_iff in F as [ [L Ne] F]. cbn [fst snd] in *. unfold next_block, mnstr_readSht.
  destruct (readNum_spec 2 short_int_SWAP (bs_s b) (to_le 2 (header (d, l))) (d ++ flat_map wire bs)) as (s & -> & Rs & Es & Os); [lia|exact R| |apply length_to_le|].
  { rewrite Er. cbn [flat_map app wire fst]. now rewrite app_assoc. }
  rewrite O, Z.eqb_refl. rewrite num_back by (try lia; unfold srange, header; cbn [fst snd]; destruct l; cbn [Z.b2z]; lia).
  unfold header. cbn [fst snd]. set (v := 2 * _ + _). assert (V : 0 <= v) by (unfold v; destruct l; cbn [Z.b2z]; lia).
  replace (v <? 0) with false by lia. eexists. split; [reflexivity|].
  assert (Sh : Z.shiftr v 1 = Z.of_nat (List.length d)) by (rewrite Z.shiftr_div_pow2 by lia; change (2 ^ 1) with 2; unfold v; destruct l; cbn [Z.b2z]; Z.div_mod_to_equations; lia).
  assert (La : Z.land v 1 = Z.b2z l) by (change 1 with (Z.ones 1); rewrite Z.land_ones by lia; change (2 ^ 1) with 2; unfold v; destruct l; cbn [Z.b2z]; Z.div_mod_to_equations; lia).
  split; cbn [bs_s bs_nr bs_itotal]; [split; congruence|exact Es|rewrite Sh; lia|exact La|exact F].
Qed.

Lemma next_block_end b : hears b [] false [] -> exists b', next_block b = Some (false, b') /\ hears b' [] false [].
Proof.
  intros [ [R O] Er It Nr F]. unfold next_block, mnstr_readSht.
  destruct (readNum_end 2 short_int_SWAP (bs_s b)) as (s & -> & Rs & Es & Os); [lia|exact R|exact Er|].
  eexists. split; [reflexivity|]. split; cbn [bs_s bs_nr bs_itotal]; [split; congruence|exact Es|exact It|exact Nr|exact F].
Qed.

Lemma take_bytes_spec fuel : forall b cur last bs n todo got, hears b cur last bs -> 0 <= n <= Z.of_nat (List.length cur) -> n < Z.of_nat fuel ->
  exists b', take_bytes fuel b n todo got = Some (true, b', todo - n, got ++ area cur n) /\ hears b' (skipn (Z.to_nat n) cur) last bs.
Proof.
  induction fuel as [|fuel IH]; intros b cur last bs n todo got H N F; [lia|]. cbn [take_bytes].
  destruct (Z.ltb_spec 0 n) as [Np|Np].
  2:{ replace n with 0 by lia. exists b. rewrite Z.sub_0_r, app_nil_r. split; [reflexivity|exact H]. }
  pose proof H as [ [R O] Er [I1 I2] Nr Fb].
  destruct (source_read (bs_s b) 1 n R) as (m & s & -> & M & Rs & Es & Os); [lia..|rewrite Er, length_app; lia|].
  replace (m <=? 0) with false by lia. rewrite Z.mul_1_r in *. rewrite uwrap_id by lia.
  assert (A : area (rest (bs_s b)) m = area cur m) by (unfold area; rewrite Er, firstn_app; replace (_ - _)%nat with 0%nat by lia; cbn [firstn]; apply app_nil_r).
  destruct (IH (mkBs s (bs_nr b) (bs_itotal b - m) (bs_blks b) (bs_bytes b) (bs_buf b)) (skipn (Z.to_nat m) cur) last bs (n - m) (todo - m) (got ++ area cur m)) as (b' & E & H').
  - split; cbn [bs_s bs_nr bs_itotal]; [split; congruence| |rewrite length_skipn; lia|exact Nr|exact Fb].
    rewrite Es, Er, skipn_app. replace (_ - _)%nat with 0%nat by lia. reflexivity.
  - rewrite length_skipn. lia.
  - lia.
  - exists b'. rewrite A, E. rewrite skipn_skipn in H'. replace (Z.to_nat (n - m) + Z.to_nat m)%nat with (Z.to_nat n) in H' by lia. split; [|exact H'].
    do 2 f_equal; [f_equal; lia|]. rewrite <- app_assoc. f_equal. symmetry. apply area_split. lia.
Qed.

Lemma fill_spec fuel : forall b cur last bs todo got m ms, hears b cur last bs -> (cur = [] -> last = true) ->
  mail cur last bs = m :: ms -> 0 <= todo < Z.of_nat fuel ->
  exists b' cur' last' bs', fill_buffer fuel b todo got = Some (true, b', todo - Z.of_nat (List.length (area m todo)), got ++ area m todo)
    /\ hears b' cur' last' bs' /\ (cur' = [] -> last' = true) /\ mail cur' last' bs' = skipn (Z.to_nat todo) m :: ms
    /\ open_end cur' last' bs' = open_end cur last bs.
Proof.
  induction fuel as [|fuel IH]; intros b cur last bs todo got m ms H S M T; [lia|]. cbn [fill_buffer].
  destruct (Z.ltb_spec 0 todo) as [Td|Td].
  2:{ replace todo with 0 by lia. exists b, cur, last, bs. cbn [area Z.to_nat firstn List.length skipn]. rewrite Z.sub_0_r, app_nil_r. auto. }
  pose proof H as [ [R O] Er [I1 I2] Nr Fb]. set (n := Z.min todo (bs_itotal b)).
  assert (Nn : 0 <= n <= Z.of_nat (List.length cur)) by (unfold n; lia).
  destruct (take_bytes_spec (Datatypes.S (Z.to_nat n)) b cur last bs n todo got H) as (b1 & -> & H1); [exact Nn|lia|].
  pose proof H1 as [_ _ [I3 _] N1 _]. rewrite length_skipn in I3.
  destruct (Z.eqb_spec (bs_itotal b1) 0) as [Z0|Z0].
  - assert (Nc : n = Z.of_nat (List.length cur)) by lia.
    assert (Ac : area cur n = cur) by (unfold area; rewrite Nc, Nat2Z.id; apply firstn_all).
    assert (Sc : skipn (Z.to_nat n) cur = []) by (apply skipn_all2; lia). rewrite Sc in H1. rewrite Ac, N1.
    destruct last; cbn [Z.b2z Z.eqb negb].
    + injection M as <- <-. exists b1, [], true, bs. assert (A : area cur todo = cur) by (unfold area; apply firstn_all2; lia). rewrite A.
      split; [do 3 f_equal; lia|]. split; [exact H1|]. split; [reflexivity|]. split; [|reflexivity]. cbn [mail]. f_equal. symmetry. apply skipn_all2. lia.
    + destruct bs as [|[d l] bs]; [discriminate|]. destruct (next_block_spec b1 d l bs H1) as (b2 & -> & H2).
      pose proof (hr_blocks _ _ _ _ H) as Fd. apply Forall_inv in Fd as [_ Ne]. cbn [fst snd] in Ne.
      assert (Md : exists m', mail d l bs = m' :: ms /\ m = cur ++ m').
      { cbn [mail] in M. destruct l; cbn [messages mail] in *; [injection M as <- <-; eauto|].
        rewrite messages_prefix in M. destruct (messages d bs) as [|m' ms']; [discriminate|]. injection M as <- <-. eauto. }
      destruct Md as (m' & Md & ->). assert (cur <> []) by (intros ->; now discriminate S).
      destruct (IH b2 d l bs (todo - n) (got ++ cur) m' ms H2) as (b' & cur' & last' & bs' & E & H' & S' & M' & O'); [now destruct l; [|intros ->; now destruct Ne]|exact Md|destruct cur; [easy|cbn in Nc; lia]|].
      exists b', cur', last', bs'. assert (At : area (cur ++ m') todo = cur ++ area m' (todo - n)).
      { rewrite (area_split _ n todo) by lia. rewrite area_app by exact Nc. f_equal. f_equal. rewrite Nc, Nat2Z.id. apply skipn_exact. }
      rewrite E, At, length_app, <- app_assoc. split; [do 3 f_equal; lia|]. split; [exact H'|]. split; [exact S'|]. split.
      * rewrite M'. f_equal. replace (Z.to_nat todo) with (Z.to_nat (todo - n) + List.length cur)%nat by lia. rewrite <- skipn_skipn. now rewrite skipn_exact.
      * rewrite O'. cbn [open_end unfinished]. destruct l; [reflexivity|]. apply unfinished_prefix. cbn [mail] in Md. rewrite Md. discriminate.
  - assert (n = todo) as -> by lia.
    assert (Mk : mail (skipn (Z.to_nat todo) cur) last bs = skipn (Z.to_nat todo) m :: ms /\ area m todo = area cur todo).
    { assert (Q : exists tl, m = cur ++ tl /\ forall c, mail c last bs = (c ++ tl) :: ms).
      { destruct last; cbn [mail] in *; [injection M as <- <-; exists []; split; [now rewrite app_nil_r|intros c; now rewrite app_nil_r]|].
        rewrite <- (app_nil_r cur), messages_prefix in M. destruct (messages [] bs) as [|m' ms'] eqn:E; [discriminate|]. injection M as <- <-.
        exists m'. split; [reflexivity|]. intros c. now rewrite <- (app_nil_r c) at 1; rewrite messages_prefix, E. }
      destruct Q as (tl & -> & Q). rewrite Q. split; [|unfold area; rewrite firstn_app; replace (_ - _)%nat with 0%nat by lia; apply app_nil_r].
      f_equal. rewrite skipn_app. f_equal. replace (_ - _)%nat with 0%nat by lia. reflexivity. }
    destruct Mk as (Mk & Am). rewrite Am. destruct fuel as [|fuel]; [lia|]. cbn [fill_buffer]. rewrite Z.sub_diag. cbn [Z.ltb Z.compare].
    eexists _, _, last, bs. rewrite length_area by lia. split; [do 3 f_equal; lia|]. split; [exact H1|]. split; [|split; [exact Mk|] ].
    + intros E. apply (f_equal (@List.length Z)) in E. rewrite length_skipn in E. cbn in E. lia.
    + destruct last; [reflexivity|]. cbn [open_end]. apply unfinished_prefix. cbn [mail] in Mk. rewrite Mk. discriminate.
Qed.

(** A reader in front of these messages, and nothing behind them. *)
Definition listens (b : bs D) (msgs : list (list Z)) : Prop :=
  exists cur last bs, hears b cur last bs /\ mail cur last bs = msgs /\ open_end cur last bs = [].

(** Between the blocks of a message, or with its end still to be told. *)
Definition settled (b : bs D) (msgs : list (list Z)) : Prop :=
  exists cur last bs, hears b cur last bs /\ (cur = [] -> last = true) /\ mail cur last bs = msgs /\ open_end cur last bs = [].

Lemma settled_listens b msgs : settled b msgs -> listens b msgs.
Proof. intros (cur & last & bs & H & _ & Q). now exists cur, last, bs. Qed.

Lemma mail_nil cur last bs ms : (cur = [] -> last = true) -> mail cur last bs = [] :: ms -> cur = [] /\ last = true /\ ms = messages [] bs.
Proof.
  intros S M. assert (E : cur = []).
  { destruct last; cbn [mail] in M; [now injection M|]. rewrite <- (app_nil_r cur), messages_prefix in M.
    destruct (messages [] bs); [discriminate|]. injection M as M _. now apply app_eq_nil in M as [-> _]. }
  split; [exact E|]. rewrite (S E) in *. split; [reflexivity|]. now injection M.
Qed.

Lemma fill_read (ss : stream (bs D)) b cur last bs elm cnt m ms : hears b cur last bs -> (cur = [] -> last = true) -> mail cur last bs = m :: ms -> open_end cur last bs = [] ->
  0 < elm -> 0 < cnt -> elm * cnt < 2 ^ 62 ->
  exists ss', match fill_buffer (Datatypes.S (Z.to_nat (elm * cnt))) b (elm * cnt) [] with
    | None => None
    | Some (false, b, _, _) => Some (-1, [], with_errnr (with_data ss b) MNSTR_READ_ERROR)
    | Some (true, b, todo, got) =>
        let n := Z.of_nat (List.length got) in
        let b := if (0 <? todo) && (n =? 0) then with_nr b 0 else b in if elm =? 0 then None else Some (n / elm, got, with_data ss b)
    end = Some (Z.of_nat (List.length (area m (elm * cnt))) / elm, area m (elm * cnt), ss')
    /\ match m with [] => listens (data ss') ms | _ => settled (data ss') (skipn (Z.to_nat (elm * cnt)) m :: ms) end.
Proof.
  intros H S M O E C Sz. destruct (fill_spec (Datatypes.S (Z.to_nat (elm * cnt))) b cur last bs (elm * cnt) [] m ms H S M) as (b' & cur' & last' & bs' & -> & H' & S' & M' & O'); [nia|].
  replace (elm =? 0) with false by lia. cbn [app]. eexists. split; [reflexivity|]. cbn [data with_data]. set (n := elm * cnt) in *. assert (0 < n) by (unfold n; nia).
  destruct m as [|x m].
  - unfold area. rewrite firstn_nil. cbn [List.length]. rewrite Z.sub_0_r. replace (0 <? n) with true by lia. cbn [andb Z.eqb Z.of_nat].
    rewrite skipn_nil in M'. destruct (mail_nil _ _ _ _ S' M') as (-> & -> & ->). exists [], false, bs'. split; [|split; [reflexivity|] ].
    + destruct H' as [H1 H2 H3 H4 H5]. split; auto.
    + rewrite O in O'. exact O'.
  - replace (Z.of_nat (List.length (area (x :: m) n)) =? 0) with false.
    + rewrite andb_false_r. exists cur', last', bs'. split; [exact H'|]. split; [exact S'|]. split; [exact M'|congruence].
    + symmetry. apply Z.eqb_neq. unfold area. rewrite length_firstn. cbn [List.length]. lia.
Qed.

Lemma bs_read_spec (ss : stream (bs D)) elm cnt msgs : listens (data ss) msgs -> 0 < elm -> 0 < cnt -> elm * cnt < 2 ^ 62 ->
  exists r got ss', bs_read ss elm cnt = Some (r, got, ss')
    /\ match recv (elm * cnt) msgs with
       | Some (l, msgs') => r = Z.of_nat (List.length l) / elm /\ got = l /\ listens (data ss') msgs' /\ (hd [] msgs <> [] -> settled (data ss') msgs')
       | None => r = -1 /\ got = [] /\ listens (data ss') []
       end.
Proof.
  intros (cur & last & bs & H & M & O) E C Sz. pose proof H as [ _ _ [I1 I2] Nr Fb]. unfold bs_read. rewrite (Z.mul_comm cnt elm), uwrap_id by nia.
  assert (Rc : forall m ms ss', match m with [] => listens (data ss') ms | _ => settled (data ss') (skipn (Z.to_nat (elm * cnt)) m :: ms) end ->
    match recv (elm * cnt) (m :: ms) with
    | Some (l, msgs') => Z.of_nat (List.length (area m (elm * cnt))) / elm = Z.of_nat (List.length l) / elm /\ area m (elm * cnt) = l /\ listens (data ss') msgs'
        /\ (hd [] (m :: ms) <> [] -> settled (data ss') msgs')
    | None => False
    end).
  { intros [|x m] ms ss' Q; cbn [recv hd]; [unfold area; rewrite firstn_nil; easy|]. split; [reflexivity|]. split; [reflexivity|]. split; [now apply settled_listens|easy]. }
  destruct (Z.eqb_spec (bs_itotal (data ss)) 0) as [Z0|Z0].
  - assert (cur = []) as -> by (destruct cur; [reflexivity|cbn in I1; lia]). rewrite Nr. destruct last; cbn [Z.b2z Z.eqb negb].
    + subst msgs. eexists _, _, _. split; [reflexivity|]. cbn [mail recv List.length hd]. split; [reflexivity|]. split; [reflexivity|]. split; [|easy].
      cbn [data with_data]. exists [], false, bs. split; [|split; [reflexivity|exact O] ]. destruct H as [H1 H2 H3 H4 H5]. split; auto.
    + destruct bs as [|[d l] bs].
      * subst msgs. destruct (next_block_end (data ss) H) as (b' & -> & H'). eexists _, _, _. split; [reflexivity|]. cbn [mail messages recv].
        split; [reflexivity|]. split; [reflexivity|]. exists [], false, []. auto.
      * destruct (next_block_spec (data ss) d l bs H) as (b' & -> & H'). pose proof (Forall_inv Fb) as [_ Ne]. cbn [fst snd] in Ne.
        assert (M' : mail d l bs = msgs) by (destruct l; exact M). assert (O' : open_end d l bs = []) by (destruct l; exact O).
        destruct msgs as [|m ms].
        { exfalso. destruct l; cbn [mail open_end] in *; [discriminate|]. destruct (unfinished_nil bs d (Forall_inv_tail Fb) M' O') as (-> & _). now destruct Ne. }
        destruct (fill_read ss b' d l bs elm cnt m ms H') as (ss' & E1 & Q); auto; [now destruct l; [|intros ->; now destruct Ne]|].
        eexists _, _, _. split; [exact E1|]. specialize (Rc m ms ss' Q). destruct (recv (elm * cnt) (m :: ms)) as [ [? ?]|]; [exact Rc|contradiction].
  - assert (cur <> []) by (intros ->; cbn in I1; lia). destruct msgs as [|m ms].
    { exfalso. destruct last; cbn [mail open_end] in *; [discriminate|]. destruct (unfinished_nil bs cur Fb M O) as (-> & _). easy. }
    destruct (fill_read ss (data ss) cur last bs elm cnt m ms H) as (ss' & E1 & Q); try easy.
    eexists _, _, _. split; [exact E1|]. specialize (Rc m ms ss' Q). destruct (recv (elm * cnt) (m :: ms)) as [ [? ?]|]; [exact Rc|contradiction].
Qed.

(** [bs_read_next] tells when the last bytes of a message were read, and goes on to the next one. *)
Theorem bs_read_next_tells_the_end (ss : stream (bs D)) n m ms : listens (data ss) (m :: ms) -> m <> [] -> 0 < n < 2 ^ 62 ->
  let ends := Z.of_nat (List.length m) <=? n in
  exists ss', bs_read_next ss n = Some (Z.of_nat (List.length (area m n)), ends, area m n, ss')
    /\ listens (data ss') (if ends then ms else skipn (Z.to_nat n) m :: ms).
Proof.
  intros L Ne N. destruct (bs_read_spec ss 1 n (m :: ms) L) as (r & got & ss' & E & Q); [lia..|].
  rewrite Z.mul_1_l in Q. unfold bs_read_next, read, bs_Reader. rewrite E. destruct m as [|x m]; [easy|]. cbn [recv hd] in Q. set (l := x :: m) in *.
  rewrite Z.div_1_r in Q. destruct Q as (-> & -> & Q & St). specialize (St Ne). destruct St as (cur & last & bs & H & S & M & O).
  clearbody l. destruct (Z.ltb_spec (Z.of_nat (List.length (area l n))) 0) as [Neg|_]; [lia|]. pose proof H as [_ _ [I _] _ _].
  destruct (Z.leb_spec (Z.of_nat (List.length l)) n) as [G|G].
  - rewrite (skipn_all2 l) in M by lia. destruct (mail_nil _ _ _ _ S M) as (-> & -> & ->). rewrite I. cbn [List.length Z.of_nat Z.eqb].
    eexists. split; [reflexivity|]. exists [], false, bs. cbn [data with_data]. split; [|split; [reflexivity|exact O] ]. destruct H as [H1 H2 H3 H4 H5]. now split.
  - assert (cur <> []).
    { intros ->. rewrite (S eq_refl) in M. cbn [mail] in M. injection M as M _. apply (f_equal (@List.length Z)) in M. rewrite length_skipn in M. cbn [List.length] in M. lia. }
    replace (bs_itotal (data ss') =? 0) with false by (destruct cur; [easy|cbn [List.length] in I; lia]).
    exists ss'. split; [reflexivity|exact Q].
Qed.

End Reader.

(** ** Messages through a block stream *)

Inductive op := Say (buf : list Z) (elmsize cnt : Z) | EndMessage.
Definition op_ok (x : op) : Prop :=
  match x with Say buf elm cnt => 0 < elm /\ 0 <= cnt /\ elm * cnt < 2 ^ 62 /\ elm * cnt <= Z.of_nat (List.length buf) | EndMessage => True end.

(** What a writer says, up to the first call that fails. *)
Fixpoint run {D} {WD : Writer D} (ss : stream (bs D)) (ops : list op) : option (bool * stream (bs D)) :=
  match ops with
  | [] => Some (true, ss)
  | Say buf elm cnt :: ops =>
      match write ss buf elm cnt with
      | None => None
      | Some (r, ss) => if r =? cnt then run ss ops else Some (false, ss)
      end
  | EndMessage :: ops =>
      match flush ss with
      | None => None
      | Some (r, ss) => if r =? 0 then run ss ops else Some (false, ss)
      end
  end.
Definition said (o : outbox) (x : op) : outbox :=
  match x with Say buf elm cnt => say o (area buf (elm * cnt)) | EndMessage => end_message o end.

(** What a reader gets for requests of an element size and a number of elements. *)
Fixpoint reads {D} {RD : Reader D} (ss : stream (bs D)) (reqs : list (Z * Z)) : option (list (Z * list Z)) :=
  match reqs with
  | [] => Some []
  | (elm, cnt) :: reqs =>
      match read ss elm cnt with
      | None => None
      | Some (r, got, ss) => option_map (cons (r, got)) (reads ss reqs)
      end
  end.
Fixpoint recvs (msgs : list (list Z)) (reqs : list (Z * Z)) : list (Z * list Z) :=
  match reqs with
  | [] => []
  | (elm, cnt) :: reqs =>
      match recv (elm * cnt) msgs with
      | Some (l, msgs) => (Z.of_nat (List.length l) / elm, l) :: recvs msgs reqs
      | None => (-1, []) :: recvs [] reqs
      end
  end.
Definition req_ok (q : Z * Z) : Prop := 0 < fst q /\ 0 < snd q /\ fst q * snd q < 2 ^ 62.

Section Delivery.

Context {D E : Type} {WD : Writer D} `{!Sink WD} {RE : Reader E} `{!Source RE}.

Lemma run_spec base ops : forall (ss : stream (bs D)) o, Forall op_ok ops -> speaks base (data ss) o ->
  exists ok ss', run ss ops = Some (ok, ss') /\ (ok = true -> speaks base (data ss') (fold_left said ops o)).
Proof.
  induction ops as [|x ops IH]; intros ss o F S; cbn [run fold_left]; [now exists true, ss|].
  apply Forall_cons_iff in F as [Fx F]. destruct x as [buf elm cnt|]; cbn [op_ok said write flush bs_Writer] in *.
  - destruct Fx as (X1 & X2 & X3 & X4). destruct (bs_write_spec base ss buf elm cnt o S X1 X2 X3 X4) as (r & ss1 & -> & Q).
    destruct (Z.eqb_spec r cnt) as [R|R]; [|now exists false, ss1]. apply (IH ss1 _ F (Q R)).
  - destruct (bs_flush_spec base ss o S) as (r & ss1 & -> & Q).
    destruct (Z.eqb_spec r 0) as [R|R]; [|now exists false, ss1]. apply (IH ss1 _ F (Q R)).
Qed.

Lemma reads_spec reqs : forall (ss : stream (bs E)) msgs, Forall req_ok reqs -> listens (data ss) msgs -> reads ss reqs = Some (recvs msgs reqs).
Proof.
  induction reqs as [|[elm cnt] reqs IH]; intros ss msgs F L; cbn [reads recvs]; [reflexivity|].
  apply Forall_cons_iff in F as [ (X1 & X2 & X3) F]. cbn [fst snd] in *.
  destruct (bs_read_spec ss elm cnt msgs L X1 X2 X3) as (r & got & ss' & Er & Q). unfold read, bs_Reader. rewrite Er.
  destruct (recv (elm * cnt) msgs) as [ [l msgs']|]; [destruct Q as (-> & -> & L' & _)|destruct Q as (-> & -> & L')]; now rewrite (IH ss' _ F L').
Qed.

Lemma starts_speaking s : writable s -> written s = [] -> speaks [] (data (block_stream s)) ([], []).
Proof. intros W N. split; [exact W|split; reflexivity|]. exists []. cbn. now rewrite N. Qed.

(** C7: A block stream delivers messages: when all calls of the writer succeeded and the last message was ended, a
    reader of the bytes gets these messages, whatever sizes it asks for: of each message as much as
    was asked for, once nothing at its end, and a failure
    behind the last one.  However much is written at once, and however the stream below
    cuts its reads, all calls return. *)
Theorem block_stream_delivers ops (s : stream D) : Forall op_ok ops -> writable s -> written s = [] ->
  exists ok s', run (block_stream s) ops = Some (ok, s')
    /\ (ok = true -> snd (fold_left said ops ([], [])) = [] ->
        forall r : stream E, readable r -> byteorder r = 1234 -> rest r = written (bs_s (data s')) ->
        forall reqs, Forall req_ok reqs -> reads (block_stream r) reqs = Some (recvs (fst (fold_left said ops ([], []))) reqs)).
Proof.
  intros F W N. destruct (run_spec [] ops (block_stream s) ([], []) F (starts_speaking s W N)) as (ok & s' & E1 & Q).
  exists ok, s'. split; [exact E1|]. intros B Fin r R O Er reqs G. destruct (Q B) as [_ _ (sent & S1 & S2 & S3 & S4)].
  rewrite Fin in S4. apply app_eq_nil in S4 as [S4 _]. cbn [app] in S1. apply reads_spec; [exact G|].
  exists [], false, sent. split; [|split; [exact S3|exact S4] ]. split; cbn; auto; [congruence|lia].
Qed.

End Delivery.

(** ** Examples *)

(** Two-byte numbers and a byte in one message, an empty one, and another one. *)
Definition sample_ops : list op :=
  [Say [1; 2; 3; 4; 5; 6] 2 3; Say [7] 1 1; EndMessage; EndMessage; Say [8; 9] 1 2; EndMessage].
Definition sample_reqs : list (Z * Z) := [(1, 5); (1, 5); (1, 5); (1, 1); (2, 1); (1, 1); (1, 1)].

Lemma sample_ops_ok : Forall op_ok sample_ops.
Proof. unfold sample_ops. repeat (apply Forall_cons; [try exact I; repeat split; try discriminate; reflexivity|]). apply Forall_nil. Qed.

Definition memory_out : stream buffer := create_stream (buffer_create (fun _ => 0) 4).

Lemma block_stream_delivers_witness :
  exists s', run (block_stream memory_out) sample_ops = Some (true, s')
    /\ reads (block_stream (create_stream (buffer_init (written (bs_s (data s')))))) sample_reqs
       = Some [(5, [1; 2; 3; 4; 5]); (2, [6; 7]); (0, []); (0, []); (1, [8; 9]); (0, []); (-1, [])].
Proof.
  destruct (block_stream_delivers (D := buffer) (E := buffer) sample_ops memory_out sample_ops_ok) as (ok & s' & E & Q).
  - split; [split; [split; discriminate|reflexivity|discriminate]|discriminate].
  - reflexivity.
  - exists s'. assert (ok = true) as -> by (vm_compute in E; congruence). split; [exact E|].
    assert (L : List.length (written (bs_s (data s'))) = 15%nat) by (vm_compute in E; injection E as <-; vm_compute; reflexivity).
    rewrite (Q eq_refl eq_refl); [vm_compute; reflexivity| |reflexivity|reflexivity|].
    + split; cbn [data create_stream buffer_init b_pos b_len b_buf]; rewrite ?L; try reflexivity; try split; discriminate.
    + unfold sample_reqs. repeat (apply Forall_cons; [repeat split; reflexivity|]). apply Forall_nil.
Defined.

(** ** A window on what was read *)

(** [bstream_buf] holds the [len] bytes that were read; the end of string behind them is left out. *)
Record bstream (D : Type) := mkBstream {
  bstream_s : stream D; bstream_mode : Z; bstream_size : Z; bstream_pos : Z; bstream_len : Z; bstream_eof : bool; bstream_buf : list Z }.
Arguments mkBstream {D} _ _ _ _ _ _ _. Arguments bstream_s {D} _. Arguments bstream_mode {D} _. Arguments bstream_size {D} _.
Arguments bstream_pos {D} _. Arguments bstream_len {D} _. Arguments bstream_eof {D} _. Arguments bstream_buf {D} _.

Definition BUFSIZ : Z := 8192.
Definition bstream_create {D} (s : stream D) (size : Z) : bstream D := mkBstream s (i32 size) (if size =? 0 then BUFSIZ else size) 0 0 false [].

Section Window.

Context {D : Type} {RD : Reader D} (room : Z -> bool).

(** What was consumed makes place. *)
Definition compact (b : bstream D) : bstream D :=
  if bstream_pos b >? 0
  then mkBstream (bstream_s b) (bstream_mode b) (bstream_size b) 0 (u64 (bstream_len b - bstream_pos b)) (bstream_eof b) (skipn (Z.to_nat (bstream_pos b)) (bstream_buf b))
  else b.

Definition bstream_read (b : bstream D) (size : Z) : option (Z * bstream D) :=
  if bstream_eof b then Some (0, b)
  else
    let b := compact b in
    let full := bstream_len b =? bstream_size b in
    let larger := u64 (Z.shiftl (bstream_size b) 1) in
    if full && negb (room (u64 (larger + 1))) then Some (-1, mkBstream (bstream_s b) (bstream_mode b) 0 0 0 false [])
    else
      let bsize := if full then larger else bstream_size b in
      let size := Z.min size (u64 (bsize - bstream_len b)) in
      match read (bstream_s b) 1 size with
      | None => None
      | Some (rd, bytes, s) =>
          let stay e := mkBstream s (bstream_mode b) bsize (bstream_pos b) (bstream_len b) e (bstream_buf b) in
          if rd <? 0 then Some (rd, stay false)
          else if rd =? 0 then Some (0, stay true)
          else Some (rd, mkBstream s (bstream_mode b) bsize (bstream_pos b) (u64 (bstream_len b + rd)) false (bstream_buf b ++ bytes))
      end.

(** The loop of [bstream_next] for streams of lines that are no files. *)
Fixpoint next_line (fuel : nat) (b : bstream D) (sz : Z) : option (Z * bstream D) :=
  match fuel with
  | O => None
  | S fuel =>
      match bstream_read b 1 with
      | None => None
      | Some (rd, b) =>
          if (rd =? 1) && negb (nth (Z.to_nat (bstream_pos b + sz)) (bstream_buf b) 0 =? 10) then next_line fuel b (sz + rd)
          else Some (if rd <? 0 then rd else sz, b)
      end
  end.
Definition bstream_next (fuel : nat) (b : bstream D) : option (Z * bstream D) :=
  if negb (bstream_mode b =? 0) then bstream_read b (bstream_mode b) else next_line fuel b 0.

Definition window (b : bstream D) : list Z := skipn (Z.to_nat (bstream_pos b)) (bstream_buf b).
Record window_ok (b : bstream D) : Prop := {
  wi_len : bstream_len b = Z.of_nat (List.length (bstream_buf b));
  wi_pos : 0 <= bstream_pos b <= bstream_len b /\ bstream_len b <= bstream_size b;
  wi_size : 1 <= bstream_size b < 2 ^ 61;
}.

Lemma compact_ok b : window_ok b -> window_ok (compact b) /\ window (compact b) = window b /\ bstream_pos (compact b) = 0 /\ bstream_eof (compact b) = bstream_eof b
  /\ bstream_size (compact b) = bstream_size b /\ bstream_s (compact b) = bstream_s b.
Proof.
  intros [L P S]. unfold compact. destruct (Z.gtb_spec (bstream_pos b) 0) as [G|G]; [|repeat split; auto; lia].
  unfold window. cbn. rewrite uwrap_id by lia. repeat split; cbn; rewrite ?length_skipn; lia.
Qed.

(** What is read is added to the window, whose bytes are kept; it is read
    in one go as long as the stream has as much as is asked for. *)
Lemma bstream_read_adds `{!Source RD} b size : window_ok b -> bstream_eof b = false -> readable (bstream_s b) -> 0 < size ->
  size <= Z.of_nat (List.length (rest (bstream_s b))) ->
  exists rd b', bstream_read b size = Some (rd, b')
    /\ (0 <= rd -> 1 <= rd <= size /\ window b' = window b ++ area (rest (bstream_s b)) rd /\ rest (bstream_s b') = skipn (Z.to_nat rd) (rest (bstream_s b))
        /\ readable (bstream_s b') /\ (bstream_size b' < 2 ^ 61 -> window_ok b')).
Proof.
  intros Ok E R Sz En. unfold bstream_read. rewrite E. destruct (compact_ok b Ok) as ([L P S] & W & P0 & _ & Bs & Bt). cbv zeta.
  set (c := compact b) in *. destruct (Z.eqb_spec (bstream_len c) (bstream_size c)) as [Full|Full]; cbn [andb].
  - destruct (room _) eqn:Rm; cbn [negb]; [|eexists _, _; split; [reflexivity|lia] ].
    rewrite Z.shiftl_mul_pow2, (uwrap_id 64 (bstream_size c * _)), (uwrap_id 64 (_ - _)) by lia.
    destruct (source_read (bstream_s c) 1 (Z.min size (bstream_size c * 2 ^ 1 - bstream_len c))) as (k & s & Er & K & Rs & Es & _); [now rewrite Bt|lia|lia|lia|rewrite Bt; lia|].
    rewrite Er. replace (k <? 0) with false by lia. replace (k =? 0) with false by lia. eexists _, _. split; [reflexivity|].
    intros _. rewrite Z.mul_1_r, ?Bt in *. cbn [bstream_s bstream_size]. split; [lia|]. split; [|split; [exact Es|split; [exact Rs|] ] ].
    + rewrite <- W. unfold window. cbn [bstream_pos bstream_buf]. rewrite P0. reflexivity.
    + intros B. split; cbn [bstream_len bstream_buf bstream_pos bstream_size]; rewrite ?uwrap_id, ?length_app, ?length_area by lia; lia.
  - rewrite (uwrap_id 64 (_ - _)) by lia.
    destruct (source_read (bstream_s c) 1 (Z.min size (bstream_size c - bstream_len c))) as (k & s & Er & K & Rs & Es & _); [now rewrite Bt|lia|lia|lia|rewrite Bt; lia|].
    rewrite Er. replace (k <? 0) with false by lia. replace (k =? 0) with false by lia. eexists _, _. split; [reflexivity|].
    intros _. rewrite Z.mul_1_r, ?Bt in *. cbn [bstream_s bstream_size]. split; [lia|]. split; [|split; [exact Es|split; [exact Rs|] ] ].
    + rewrite <- W. unfold window. cbn [bstream_pos bstream_buf]. rewrite P0. reflexivity.
    + intros B. split; cbn [bstream_len bstream_buf bstream_pos bstream_size]; rewrite ?uwrap_id, ?length_app, ?length_area by lia; lia.
Qed.

End Window.

(** When two bytes of the line before are left, [bstream_next] looks for the end of the
    line there first: it reads two bytes past the newline. *)
Lemma next_line_misses : 
  option_map (fun r => (fst r, window (snd r)))
    (bstream_next (fun _ => true) 10 (mkBstream (create_stream (buffer_init [10; 97; 98; 99; 10])) 0 8 0 2 false [120; 121]))
  = Some (2, [120; 121; 10; 97; 98]).
Proof. reflexivity. Qed.

(** Reading the prompt behind a block that was not read to its end divides by zero. *)
Lemma read_block_divides :
  mnstr_read_block (block_stream (create_stream (buffer_init (wire ([97; 98], true))))) 1 1 = None
  /\ option_map (fun r => fst (fst r)) (mnstr_read_block (block_stream (create_stream (buffer_init (wire ([97; 98], true))))) 1 2) = Some 2.
Proof. split; reflexivity. Qed.
