(* ===== verification/Mal.v ===== *)
(** * Blocks of the MAL language

    The intermediate language of MonetDB: instructions, variables and blocks
    (src/src/monetdb5/mal/mal_instruction.h, mal_type.h), the values on the
    stack of the interpreter (src/src/gdk/gdk_value.c), and what optimizers
    ask of an instruction (src/src/monetdb5/optimizer/opt_support.c). *)

From Stdlib Require Import ZArith Lia Bool List String.
From stdpp Require Import base list.
From S2P Require Import Prelude.
Import ListNotations.

(** ** Symbols *)

Definition RAISEsymbol : Z := 21.
Definition CATCHsymbol : Z := 22.
Definition RETURNsymbol : Z := 23.
Definition BARRIERsymbol : Z := 24.
Definition REDOsymbol : Z := 25.
Definition LEAVEsymbol : Z := 26.
Definition YIELDsymbol : Z := 27.
Definition EXITsymbol : Z := 29.
Definition ASSIGNsymbol : Z := 40.
Definition ENDsymbol : Z := 41.
Definition NOOPsymbol : Z := 43.
Definition FCNcall : Z := 50.
Definition FACcall : Z := 51.
Definition CMDcall : Z := 52.
Definition PATcall : Z := 54.
Definition COMMANDsymbol : Z := 61.
Definition FUNCTIONsymbol : Z := 62.
Definition FACTORYsymbol : Z := 63.
Definition PATTERNsymbol : Z := 64.
Definition REMsymbol : Z := 99.

(** ** Types: a type of columns has bit 16 and two atomic types *)

Definition TYPE_void : Z := 0.
Definition TYPE_bit : Z := 1.
Definition TYPE_bte : Z := 2.
Definition TYPE_sht : Z := 3.
Definition TYPE_bat : Z := 4.
Definition TYPE_int : Z := 5.
Definition TYPE_oid : Z := 6.
Definition TYPE_wrd : Z := 7.
Definition TYPE_flt : Z := 9.
Definition TYPE_dbl : Z := 10.
Definition TYPE_lng : Z := 11.
Definition TYPE_str : Z := 12.
Definition TYPE_any : Z := 255.

Definition getHeadType (x : Z) : Z := Z.land (Z.shiftr x 8) 255.
Definition getTailType (x : Z) : Z := Z.land x 255.
Definition isaBatType (x : Z) : bool :=
  negb (Z.land (Z.shiftl 1 16) x =? 0) && negb (x =? TYPE_any).
Definition newBatType (h t : Z) : Z :=
  Z.lor (Z.shiftl 1 16) (Z.lor (Z.shiftl (Z.land h 255) 8) (Z.land t 255)).

(** ** Values

    A value of a type that fits the union is the number stored there (of a
    [flt] or [dbl] its bits).  The others are behind a pointer: NULL, the
    static nil of the type, or memory that belongs to the value. *)

Inductive pval := Pnull | Pnil | Pown (s : list Z).

Inductive ValRecord :=
| VFix (vtype val : Z)
| VExt (vtype : Z) (p : pval).

Definition vtype (v : ValRecord) : Z :=
  match v with VFix t _ => t | VExt t _ => t end.

(** What a slot of a fresh stack holds: type void and zeros. *)
Definition zero_value : ValRecord := VFix TYPE_void 0.

(** ** Variables, instructions, blocks *)

Record VarRecord := Var {
  name : option string;      (* NULL for a temporary until it is printed *)
  type : Z;
  tmpindex : Z;              (* 0 for a named variable *)
  constant : bool;           (* VAR_CONSTANT *)
  typevar : bool;            (* VAR_TYPEVAR *)
  init : bool;               (* VAR_INIT *)
  used : bool;               (* VAR_USED *)
  disabled : bool;           (* VAR_DISABLED *)
  value : ValRecord;
  props : list string }.

Record InstrRecord := Instr {
  token : Z;
  barrier : Z;
  typechk : Z;
  jump : nat;
  fcn : option nat;          (* address of a C function *)
  blk : option nat;          (* a block, by its place in a table *)
  modname : option string;
  fcnname : option string;
  retc : nat;
  maxarg : nat;
  argv : list nat }.         (* variables; their number is argc *)

Record MalBlkRecord := MalBlk {
  var : list VarRecord;
  stmt : list InstrRecord;   (* up to stop *)
  errors : Z;
  flowfixed : bool;
  blk_maxarg : nat }.

Definition argc (p : InstrRecord) : nat := List.length (argv p).
Definition stop (mb : MalBlkRecord) : nat := List.length (stmt mb).
Definition vtop (mb : MalBlkRecord) : nat := List.length (var mb).

(** An instruction is allocated with zeros, so that an argument that is not
    there is variable 0. *)
Definition getArg (p : InstrRecord) (k : nat) : nat := argv p !!! k.
Definition getDestVar (p : InstrRecord) : nat := getArg p 0.

Definition targets (p : InstrRecord) : list nat := take (retc p) (argv p).
Definition operands (p : InstrRecord) : list nat := drop (retc p) (argv p).

Definition no_instr : InstrRecord :=
  Instr NOOPsymbol 0 0 0 None None None None 0 0 [].
Definition no_var : VarRecord :=
  Var None 0 0 false false false false false zero_value [].

#[export] Instance ValRecord_inhabited : Inhabited ValRecord := populate zero_value.
#[export] Instance InstrRecord_inhabited : Inhabited InstrRecord := populate no_instr.
#[export] Instance VarRecord_inhabited : Inhabited VarRecord := populate no_var.
#[export] Instance MalBlkRecord_inhabited : Inhabited MalBlkRecord :=
  populate (MalBlk [] [] 0 false 0).

Definition getInstrPtr (mb : MalBlkRecord) (i : nat) : InstrRecord := stmt mb !!! i.
Definition getVar (mb : MalBlkRecord) (i : nat) : VarRecord := var mb !!! i.
Definition getVarType (mb : MalBlkRecord) (i : nat) : Z := type (getVar mb i).
Definition getArgType (mb : MalBlkRecord) (p : InstrRecord) (k : nat) : Z :=
  getVarType mb (getArg p k).
Definition isVarUsed (mb : MalBlkRecord) (i : nat) : bool := used (getVar mb i).
Definition isVarConstant (mb : MalBlkRecord) (i : nat) : bool := constant (getVar mb i).

(** [varGetProp(mb, v, PropertyIndex(n)) != NULL]. *)
Definition hasProp (mb : MalBlkRecord) (v : nat) (n : string) : bool :=
  existsb (String.eqb n) (props (getVar mb v)).

Definition with_var (mb : MalBlkRecord) (vs : list VarRecord) : MalBlkRecord :=
  MalBlk vs (stmt mb) (errors mb) (flowfixed mb) (blk_maxarg mb).
Definition with_stmt (mb : MalBlkRecord) (ps : list InstrRecord) : MalBlkRecord :=
  MalBlk (var mb) ps (errors mb) (flowfixed mb) (blk_maxarg mb).
Definition with_errors (mb : MalBlkRecord) (n : Z) : MalBlkRecord :=
  MalBlk (var mb) (stmt mb) n (flowfixed mb) (blk_maxarg mb).

Definition set_jump (p : InstrRecord) (j : nat) : InstrRecord :=
  Instr (token p) (barrier p) (typechk p) j (fcn p) (blk p) (modname p) (fcnname p)
        (retc p) (maxarg p) (argv p).

(** ** Flow of control *)

Definition isaSignature (p : InstrRecord) : bool := COMMANDsymbol <=? token p.
Definition blockStart (p : InstrRecord) : bool :=
  (barrier p =? BARRIERsymbol) || (barrier p =? CATCHsymbol).
Definition blockExit (p : InstrRecord) : bool := barrier p =? EXITsymbol.
Definition blockCntrl (p : InstrRecord) : bool :=
  (barrier p =? LEAVEsymbol) || (barrier p =? REDOsymbol) || (barrier p =? RETURNsymbol).
Definition isLinearFlow (p : InstrRecord) : bool :=
  negb (blockStart p || blockExit p || (barrier p =? LEAVEsymbol) || (barrier p =? REDOsymbol)).

(** ** What optimizers ask *)

Definition is_name (s : string) (n : option string) : bool :=
  match n with Some m => String.eqb m s | None => false end.
Definition module_in (p : InstrRecord) (l : list string) : bool :=
  existsb (fun s => is_name s (modname p)) l.
Definition function_in (p : InstrRecord) (l : list string) : bool :=
  existsb (fun s => is_name s (fcnname p)) l.

Definition isProcedure (mb : MalBlkRecord) (p : InstrRecord) : bool :=
  Nat.eqb (retc p) 0 || (Nat.eqb (retc p) 1 && (getArgType mb p 0 =? TYPE_void)).

Definition isUpdateInstruction (p : InstrRecord) : bool :=
  module_in p ["bat"; "sql"]%string &&
  function_in p ["insert"; "inplace"; "append"; "update"; "replace"; "delete"]%string.

(** Modules whose functions all have effects, and functions of [sql] that
    have none. *)
Definition effect_modules : list string :=
  ["io"; "streams"; "bstream"; "mdb"; "mal"; "remap"; "constraints"; "optimizer"; "lock";
   "sema"; "recycle"; "alarm"; "leak"]%string.
Definition sql_readers : list string :=
  ["tid"; "delta"; "subdelta"; "projectdelta"; "bind"; "bind_idxbat"; "bind_dbat";
   "columnBind"; "copy_from"; "not_unique"; "zero_or_one"; "mvc"; "single"]%string.

Definition hasSideEffects (p : InstrRecord) (strict : bool) : bool :=
  match fcnname p with
  | None => false
  | Some _ =>
    if module_in p ["bat"; "sql"]%string &&
       function_in p ["setAccess"; "setWriteMode"; "clear_table"]%string then true else
    if function_in p ["deposit"]%string then true else
    if module_in p effect_modules then true else
    if module_in p ["sql"]%string then negb (function_in p sql_readers) else
    if module_in p ["language"]%string then function_in p ["assert"]%string else
    if module_in p ["mapi"]%string && function_in p ["rpc"; "reconnect"; "disconnect"]%string
    then true else
    if strict && function_in p ["new"]%string && negb (module_in p ["group"]%string)
    then true else
    if module_in p ["octopus"]%string then
      negb (function_in p ["bind"; "bind_idxbat"; "bind_dbat"]%string) else
    module_in p ["remote"]%string
  end.

Definition isSideEffectFree (mb : MalBlkRecord) : bool :=
  (fix scan (ps : list InstrRecord) : bool :=
     match ps with
     | [] => true
     | p :: ps =>
       if token p =? ENDsymbol then true
       else if hasSideEffects p true then false else scan ps
     end) (drop 1 (stmt mb)).

Definition hasCommonResults (p q : InstrRecord) : bool :=
  existsb (fun v => existsb (Nat.eqb v) (targets q)) (targets p).
(** Does [p] use a target of [q]? *)
Definition isDependent (p q : InstrRecord) : bool :=
  existsb (fun v => existsb (Nat.eqb v) (operands p)) (targets q).
Definition isUnsafeInstruction (q : InstrRecord) : bool :=
  existsb (fun v => existsb (Nat.eqb v) (operands q)) (targets q).

(** [q->blk] by way of the table of blocks. *)
Definition isUnsafeFunction (blks : list MalBlkRecord) (q : InstrRecord) : bool :=
  match fcn q, fcnname q, blk q with
  | Some _, Some _, Some b =>
    let callee := blks !!! b in
    let p := getInstrPtr callee 0 in
    Nat.eqb (retc p) 0 || hasProp callee (getArg p 0) "unsafe"
  | _, _, _ => false
  end.

Definition safetyBarrier (blks : list MalBlkRecord) (p q : InstrRecord) : bool :=
  if isDependent q p then true
  else isUnsafeFunction blks q &&
       existsb (fun v => existsb (Nat.eqb v) (operands q)) (operands p).

Definition countBlocks (mb : MalBlkRecord) (start stop : nat) : Z :=
  fold_left (fun cnt p =>
    let cnt := if (barrier p =? BARRIERsymbol) || (token p =? CATCHsymbol) then cnt + 1 else cnt in
    if barrier p =? EXITsymbol then cnt - 1 else cnt)
    (take (stop - start) (drop start (stmt mb))) 0.

(** ** Tests as propositions *)

Lemma is_name_true s n : is_name s n = true <-> n = Some s.
Proof.
  destruct n as [m|]; simpl; [rewrite String.eqb_eq|]; split; intros H; congruence.
Qed.

Lemma targets_operands p : argv p = targets p ++ operands p.
Proof. symmetry. apply take_drop. Qed.

Lemma In_targets p v : In v (targets p) -> In v (argv p).
Proof. rewrite (targets_operands p). intros. apply in_or_app. auto. Qed.

Lemma set_jump_targets p j : targets (set_jump p j) = targets p.
Proof. reflexivity. Qed.

(** An instruction that changes the flow of control is not linear. *)
Lemma isLinearFlow_false p : isLinearFlow p = false <->
  barrier p = BARRIERsymbol \/ barrier p = CATCHsymbol \/ barrier p = EXITsymbol \/
  barrier p = LEAVEsymbol \/ barrier p = REDOsymbol.
Proof.
  unfold isLinearFlow, blockStart, blockExit.
  rewrite negb_false_iff, !orb_true_iff, !Z.eqb_eq. tauto.
Qed.

(** Every function that updates has an effect, unless its module is [bat]. *)
Lemma update_has_effect p : isUpdateInstruction p = true ->
  is_name "sql" (modname p) = true -> hasSideEffects p false = true.
Proof.
  unfold isUpdateInstruction. intros [_ Hf]%andb_prop Hm.
  apply is_name_true in Hm. unfold hasSideEffects, module_in, function_in in *. rewrite Hm.
  destruct (fcnname p) as [f|]; [|discriminate]. cbn in Hf |- *.
  repeat match type of Hf with
  | context [String.eqb f ?s] => destruct (String.eqb_spec f s); [subst f; reflexivity|]
  end. discriminate.
Qed.
