(* ===== verification/MalFlow.v ===== *)
(** * Flow of control and declarations in a MAL block

    [chkFlow] of src/src/monetdb5/mal/mal_function.c checks that the blocks of
    a program are nested and stores in every instruction where it jumps to;
    [chkDeclarations] checks that variables are used in their scope and marks
    those that are used.  The theorem [chkFlow_jumps] says what the stored
    positions are. *)

From Stdlib Require Import ZArith Lia Bool List String.
From stdpp Require Import base list.
From S2P Require Import Prelude Mal.
Import ListNotations.

(** ** Agreement of types (mal_resolve.c) *)

Definition resolve_atom (a b : Z) : option Z :=
  if a =? b then Some a
  else if a =? TYPE_any then Some b
  else if b =? TYPE_any then Some a
  else None.

Definition resolveType (dsttype srctype : Z) : Z :=
  if dsttype =? srctype then dsttype
  else if dsttype =? TYPE_any then srctype
  else if srctype =? TYPE_any then dsttype
  else if isaBatType srctype && (dsttype =? TYPE_bat) then srctype
  else if isaBatType dsttype && (srctype =? TYPE_bat) then dsttype
  else if isaBatType dsttype && isaBatType srctype then
    match resolve_atom (getHeadType dsttype) (getHeadType srctype),
          resolve_atom (getTailType dsttype) (getTailType srctype) with
    | Some h, Some t => newBatType h t
    | _, _ => -1
    end
  else -1.

(** ** Checking the flow of control *)

Definition DEPTH : nat := 128.
Definition TYPE_RESOLVED : Z := 2.

(** The blocks that are open, innermost first, each with the position where it
    begins and its variable; the instructions; errors; and the early return. *)
Record flow := Flow {
  opened : list (nat * nat);
  code : list InstrRecord;
  errs : Z;
  retseen : bool;
  yieldseen : bool;
  fixed : bool;
  largest : nat;             (* mb->maxarg *)
  halted : bool }.

(** The innermost open block of a variable and those around it. *)
Fixpoint find_block (v : nat) (o : list (nat * nat)) : option (nat * list (nat * nat)) :=
  match o with
  | [] => None
  | (b, w) :: o => if Nat.eqb w v then Some (b, o) else find_block v o
  end.

(** The block that begins at [b] ends at [e]: store its jump and those of its
    LEAVE and REDO. *)
Definition retarget (v b e k : nat) (p : InstrRecord) : InstrRecord :=
  if Nat.eqb k b then set_jump p e
  else if (b <=? k)%nat && (k <? e)%nat && Nat.eqb (getDestVar p) v then
    if barrier p =? LEAVEsymbol then set_jump p e
    else if barrier p =? REDOsymbol then set_jump p (b + 1)
    else p
  else p.

Definition close_block (v b e : nat) (c : list InstrRecord) : list InstrRecord :=
  imap (retarget v b e) c.

(** Types of the results that do not agree with those of the signature. *)
Definition wrong_returns (mb : MalBlkRecord) (ps p : InstrRecord) : Z :=
  Z.of_nat (List.length (List.filter
    (fun e => resolveType (getArgType mb ps e) (getArgType mb p e) <? 0) (seq 0 (retc p)))).

Definition return_errors (mb : MalBlkRecord) (ps p : InstrRecord) : Z :=
  if negb (Nat.eqb (retc ps) (retc p)) then 1
  else if typechk ps =? TYPE_RESOLVED then wrong_returns mb ps p
  else 0.

Definition check_fixed (p : InstrRecord) (f : bool) : bool :=
  f && (typechk p =? TYPE_RESOLVED).

(** One round of the loop, at instruction [i]; [ps] is the signature. *)
Definition flow_step (mb : MalBlkRecord) (ps : InstrRecord) (i : nat) (st : flow) : flow :=
  let '(Flow o c n rs ys fx m _) := st in
  let p := c !!! i in
  let m := Nat.max m (maxarg p) in
  let v := getDestVar p in
  if (barrier p =? BARRIERsymbol) || (barrier p =? CATCHsymbol) then
    if Nat.eqb (List.length o) DEPTH then Flow o c (n + 1) rs ys fx m true
    else if existsb (fun b => Nat.eqb v (snd b)) o then Flow o c (n + 1) rs ys fx m true
    else Flow ((i, v) :: o) c n rs ys (check_fixed p fx) m false
  else if barrier p =? EXITsymbol then
    match o with
    | [] => Flow o c (n + 1) rs ys fx m false
    | (b1, v1) :: o1 =>
      let n := if Nat.eqb v1 v then n else n + 1 in
      let '(b, o') := match find_block v o with Some r => r | None => (b1, o1) end in
      Flow o' (close_block v b i c) n rs ys (check_fixed p fx) m false
    end
  else if (barrier p =? LEAVEsymbol) || (barrier p =? REDOsymbol) then
    match find_block v o with
    | None => Flow o c (n + 1) rs ys fx m false
    | Some _ => Flow o c n rs ys (check_fixed p fx) m false
    end
  else if (barrier p =? YIELDsymbol) || (barrier p =? RETURNsymbol) then
    let y := barrier p =? YIELDsymbol in
    let n := if y && negb (token ps =? FACTORYsymbol) then n + 1 else n in
    Flow o c (n + return_errors mb ps p)
         (rs || match o with [] => true | _ => false end) y
         (check_fixed ps fx) m false
  else if barrier p =? RAISEsymbol then Flow o c n rs ys fx m false
  else if isaSignature p && negb (token p =? REMsymbol) && negb (Nat.eqb i 0)
  then Flow o c (n + 1) rs ys fx m false
  else Flow o c n rs ys fx m false.

Fixpoint flow_loop (mb : MalBlkRecord) (ps : InstrRecord) (l : list nat) (st : flow) : flow :=
  match l with
  | [] => st
  | i :: l => if halted st then st else flow_loop mb ps l (flow_step mb ps i st)
  end.

(** Errors found after the loop. *)
Definition final_errors (mb : MalBlkRecord) (p : InstrRecord) (st : flow) : Z :=
  Z.of_nat (List.length (opened st)) +
  (if isaSignature p then 0 else 1) +
  (if negb (retseen st) && negb (getArgType mb p 0 =? TYPE_void) &&
      ((token p =? FUNCTIONsymbol) || (token p =? FACTORYsymbol)) then 1 else 0) +
  (if yieldseen st && negb (getArgType mb p 0 =? TYPE_void) then 1 else 0).

Definition chkFlow (mb : MalBlkRecord) : MalBlkRecord :=
  if negb (errors mb =? 0) then mb
  else
    let ps := getInstrPtr mb 0 in
    let st := flow_loop mb ps (seq 0 (stop mb)) 
                (Flow [] (stmt mb) 0 false false true (blk_maxarg mb) false) in
    if halted st then MalBlk (var mb) (code st) (errs st) (flowfixed mb) (largest st)
    else
      let n := errs st + final_errors mb ps st in
      MalBlk (var mb) (code st) n (if n =? 0 then fixed st else flowfixed mb) (largest st).

(** ** What the jumps are

    A stretch of instructions from position [off] on, inside blocks with the
    variables [vs]: blocks are nested, no block has the variable of one around
    it, a LEAVE and a REDO name a block around them, and the jumps of every
    block that is in the stretch lead to its end and its beginning. *)

Definition leaves (p : InstrRecord) : bool :=
  (barrier p =? LEAVEsymbol) || (barrier p =? REDOsymbol).

Definition targeted (v b e : nat) (p : InstrRecord) : Prop :=
  getDestVar p = v ->
  (barrier p = LEAVEsymbol -> jump p = e) /\ (barrier p = REDOsymbol -> jump p = (b + 1)%nat).

Inductive settled : list nat -> nat -> list InstrRecord -> Prop :=
| settled_nil vs off : settled vs off []
| settled_plain vs off p l :
    blockStart p = false -> blockExit p = false ->
    (leaves p = true -> In (getDestVar p) vs) ->
    settled vs (S off) l -> settled vs off (p :: l)
| settled_block vs off b m e l :
    blockStart b = true -> blockExit e = true -> getDestVar e = getDestVar b ->
    ~ In (getDestVar b) vs ->
    jump b = (off + 1 + List.length m)%nat ->
    Forall (targeted (getDestVar b) off (off + 1 + List.length m)) m ->
    settled (getDestVar b :: vs) (S off) m ->
    settled vs (off + List.length m + 2) l ->
    settled vs off (b :: m ++ e :: l).

(** The same while blocks are still open. *)
Inductive opening : list (nat * nat) -> list InstrRecord -> Prop :=
| opening_nil l : settled [] 0 l -> opening [] l
| opening_cons o l b m :
    opening o l -> blockStart b = true -> ~ In (getDestVar b) (map snd o) ->
    settled (getDestVar b :: map snd o) (S (List.length l)) m ->
    opening ((List.length l, getDestVar b) :: o) (l ++ b :: m).

(** Everything but the jump. *)
Definition unjump (p : InstrRecord) : InstrRecord := set_jump p 0.

Lemma settled_app vs off l1 : settled vs off l1 -> forall l2,
  settled vs (off + List.length l1) l2 -> settled vs off (l1 ++ l2).
Proof.
  induction 1 as [vs off|vs off p l Hs He Hl _ IH|vs off b m e l Hs He Hv Hn Hj Ht Hm _ _ IH];
    intros l2 H2; cbn [List.length app] in *.
  - rewrite Nat.add_0_r in H2. exact H2.
  - constructor; auto. apply IH. replace (S off + List.length l)%nat
      with (off + S (List.length l))%nat by lia. exact H2.
  - rewrite <- app_assoc. cbn [app]. apply settled_block; auto. apply IH.
    rewrite List.length_app in H2. cbn [List.length] in H2.
    replace (off + List.length m + 2 + List.length l)%nat
      with (off + S (List.length m + S (List.length l)))%nat by lia. exact H2.
Qed.

Lemma settled_one vs off p : blockStart p = false -> blockExit p = false ->
  (leaves p = true -> In (getDestVar p) vs) -> settled vs off [p].
Proof. intros. constructor; auto. constructor. Qed.

(** Opened by the instructions [l], more instructions of the innermost block. *)
Lemma opening_app o l l2 : opening o l ->
  settled (map snd o) (List.length l) l2 -> opening o (l ++ l2).
Proof.
  intros H H2. inversion H as [l' Hl|o' l' b m Ho Hb Hn Hm]; subst.
  - constructor. apply settled_app; auto.
  - rewrite <- app_assoc. cbn [app]. constructor; auto.
    apply settled_app; auto. cbn [map snd] in H2.
    rewrite List.length_app in H2. cbn [List.length] in H2.
    replace (S (List.length l') + List.length m)%nat
      with (List.length l' + S (List.length m))%nat by lia. exact H2.
Qed.

(** ** Closing a block *)

Definition retarget_in (v b e : nat) (p : InstrRecord) : InstrRecord :=
  if Nat.eqb (getDestVar p) v then
    if barrier p =? LEAVEsymbol then set_jump p e
    else if barrier p =? REDOsymbol then set_jump p (b + 1)
    else p
  else p.

Lemma retarget_in_same v b e p : unjump (retarget_in v b e p) = unjump p.
Proof.
  unfold retarget_in. destruct (Nat.eqb _ _), (barrier p =? LEAVEsymbol), (barrier p =? REDOsymbol); reflexivity.
Qed.

(** Whatever does not look at the jump is the same for instructions that
    differ in it only. *)
Lemma unjump_fields p q : unjump p = unjump q ->
  token p = token q /\ barrier p = barrier q /\ typechk p = typechk q /\ fcn p = fcn q /\
  blk p = blk q /\ modname p = modname q /\ fcnname p = fcnname q /\ retc p = retc q /\
  maxarg p = maxarg q /\ argv p = argv q.
Proof. destruct p, q. unfold unjump, set_jump. cbn. intros H. injection H as <-; repeat split; auto. Qed.

Lemma unjump_control p q : unjump p = unjump q ->
  blockStart p = blockStart q /\ blockExit p = blockExit q /\ leaves p = leaves q /\
  barrier p = barrier q /\ getDestVar p = getDestVar q.
Proof.
  intros H%unjump_fields. destruct H as (_ & Hb & _ & _ & _ & _ & _ & _ & _ & Ha).
  unfold blockStart, blockExit, leaves, getDestVar, getArg. rewrite Hb, Ha. auto.
Qed.

Lemma blockStart_barrier p : blockStart p = true ->
  barrier p = BARRIERsymbol \/ barrier p = CATCHsymbol.
Proof. unfold blockStart. rewrite orb_true_iff, !Z.eqb_eq. auto. Qed.

Lemma retarget_in_start v b e p : blockStart p = true -> retarget_in v b e p = p.
Proof.
  intros Hs%blockStart_barrier. unfold retarget_in. destruct (Nat.eqb _ _); auto.
  destruct Hs as [-> | ->]; reflexivity.
Qed.

Lemma retarget_in_targeted v b e p : targeted v b e (retarget_in v b e p).
Proof.
  unfold targeted. intros Hd. unfold retarget_in in *.
  destruct (Nat.eqb_spec (getDestVar p) v) as [Hv|Hv]; [|exfalso; auto].
  destruct (Z.eqb_spec (barrier p) LEAVEsymbol) as [Hl|Hl]; cbn.
  - rewrite Hl. split; [auto|discriminate].
  - destruct (Z.eqb_spec (barrier p) REDOsymbol) as [Hr|Hr]; cbn; [rewrite Hr|];
      split; intros; (contradiction || congruence || auto).
Qed.

Lemma retarget_in_other v b e w b' e' p : w <> v ->
  targeted w b' e' p -> targeted w b' e' (retarget_in v b e p).
Proof.
  intros Hw H Hd. unfold retarget_in in *.
  destruct (Nat.eqb_spec (getDestVar p) v) as [Hv|Hv]; [|apply H; exact Hd].
  exfalso. apply Hw. rewrite <- Hd, <- Hv.
  destruct (barrier p =? LEAVEsymbol), (barrier p =? REDOsymbol); reflexivity.
Qed.

Lemma settled_retarget v b e vs off l : settled vs off l -> In v vs ->
  settled vs off (map (retarget_in v b e) l).
Proof.
  induction 1 as [vs off|vs off p l Hs He Hl _ IH|vs off b0 m e0 l Hs He Hv Hn Hj Ht Hm IHm Hl IH];
    intros Hin; cbn [map].
  - constructor.
  - destruct (unjump_control _ _ (retarget_in_same v b e p)) as (E1 & E2 & E3 & _ & E5).
    constructor; [congruence|congruence|rewrite E3, E5; auto|auto].
  - rewrite map_app. cbn [map].
    destruct (unjump_control _ _ (retarget_in_same v b e e0)) as (_ & E2 & _ & _ & E5).
    rewrite retarget_in_start by auto.
    assert (Hvb : getDestVar b0 <> v) by (intros Ev; apply Hn; rewrite Ev; exact Hin).
    apply settled_block; rewrite ?length_map; auto; try congruence.
    + apply Forall_map. eapply Forall_impl; [exact Ht|].
      intros p Hp. apply retarget_in_other; auto.
    + apply IHm. right. auto.
Qed.

Lemma imap_map {A B} (f : nat -> A -> B) (g : A -> B) l :
  (forall i x, l !! i = Some x -> f i x = g x) -> imap f l = map g l.
Proof.
  intros H. rewrite (imap_ext f (fun _ => g)) by auto. apply (imap_const g).
Qed.

Lemma imap_same {A} (f : nat -> A -> A) l :
  (forall i x, l !! i = Some x -> f i x = x) -> imap f l = l.
Proof. intros H. rewrite (imap_map f id) by exact H. apply map_id. Qed.

Lemma close_block_parts v pre b m rest e : e = (List.length pre + 1 + List.length m)%nat ->
  blockStart b = true ->
  close_block v (List.length pre) e (pre ++ b :: m ++ rest) =
  pre ++ set_jump b e :: map (retarget_in v (List.length pre) e) m ++ rest.
Proof.
  intros -> Hb. unfold close_block. rewrite imap_app. f_equal.
  - apply imap_same. intros i p Hi%lookup_lt_Some. unfold retarget.
    destruct (Nat.eqb_spec i (List.length pre)); [lia|].
    destruct (Nat.leb_spec (List.length pre) i); [lia|]. reflexivity.
  - cbn [imap]. f_equal.
    + unfold retarget. rewrite Nat.add_0_r, Nat.eqb_refl. reflexivity.
    + rewrite imap_app. f_equal.
      * apply imap_map. intros i p Hi%lookup_lt_Some. unfold compose, retarget, retarget_in.
        destruct (Nat.eqb_spec (List.length pre + S i) (List.length pre)); [lia|].
        destruct (Nat.leb_spec (List.length pre) (List.length pre + S i)); [|lia].
        destruct (Nat.ltb_spec (List.length pre + S i) (List.length pre + 1 + List.length m)); [|lia].
        reflexivity.
      * apply imap_same. intros i p Hi. unfold compose, retarget.
        destruct (Nat.eqb_spec (List.length pre + S (List.length m + i)) (List.length pre)); [lia|].
        destruct (Nat.ltb_spec (List.length pre + S (List.length m + i))
                               (List.length pre + 1 + List.length m)); [lia|].
        rewrite andb_false_r. reflexivity.
Qed.

(** The end of the innermost block. *)
Lemma opening_close o b v l e : opening ((b, v) :: o) l -> blockExit e = true ->
  getDestVar e = v -> forall rest, exists l',
  close_block v b (List.length l) (l ++ e :: rest) = l' ++ e :: rest /\
  List.length l' = List.length l /\ map unjump l' = map unjump l /\ opening o (l' ++ [e]).
Proof.
  intros H He Hv rest. inversion H as [|o' pre bi m Ho Hb Hn Hm]; subst.
  set (j := (List.length pre + 1 + List.length m)%nat).
  exists (pre ++ set_jump bi j :: map (retarget_in (getDestVar bi) (List.length pre) j) m).
  assert (Hj : List.length (pre ++ bi :: m) = j)
    by (rewrite List.length_app; cbn [List.length]; lia).
  rewrite Hj, <- !app_assoc. cbn [app]. rewrite close_block_parts by auto.
  split; [reflexivity|]. split.
  - rewrite List.length_app. cbn [List.length]. rewrite length_map. lia.
  - split.
    + rewrite !map_app. cbn [map]. rewrite map_map. do 2 f_equal.
      apply map_ext. intros. apply retarget_in_same.
    + apply opening_app; [exact Ho|].
      apply (settled_block _ _ (set_jump bi j)); try assumption; rewrite ?length_map; auto.
      * apply Forall_map. apply Forall_forall. intros p _. apply retarget_in_targeted.
      * apply settled_retarget; [exact Hm|left; reflexivity].
      * constructor.
Qed.

(** ** The loop *)

Record flow_inv (mb : MalBlkRecord) (i : nat) (pre : list InstrRecord) (st : flow) : Prop := {
  inv_code : code st = pre ++ drop i (stmt mb);
  inv_length : List.length pre = i;
  inv_same : map unjump pre = map unjump (take i (stmt mb));
  inv_opening : opening (opened st) pre;
  inv_running : halted st = false }.

Lemma return_errors_nonneg mb ps p : 0 <= return_errors mb ps p.
Proof.
  unfold return_errors, wrong_returns. destruct (negb _); [lia|]. destruct (_ =? _); lia.
Qed.

Lemma flow_step_errs mb ps i st :
  errs st <= errs (flow_step mb ps i st) /\
  (halted (flow_step mb ps i st) = true -> errs st < errs (flow_step mb ps i st)).
Proof.
  pose proof (return_errors_nonneg mb ps (code st !!! i)) as Hr.
  destruct st as [o c n rs ys fx m h]. unfold flow_step. cbn [code] in Hr.
  repeat match goal with
  | |- context [if ?b then _ else _] => destruct b
  | |- context [match ?x with Some _ => _ | None => _ end] => destruct x as [[? ?]|]
  | |- context [match ?x with [] => _ | _ :: _ => _ end] => destruct x as [|[? ?] ?]
  end; cbn [errs halted]; split; intros; (discriminate || lia).
Qed.

Lemma flow_loop_errs mb ps l : forall st, errs st <= errs (flow_loop mb ps l st).
Proof.
  induction l as [|i l IH]; intros st; cbn [flow_loop]; [lia|].
  destruct (halted st); [lia|].
  pose proof (flow_step_errs mb ps i st). specialize (IH (flow_step mb ps i st)). lia.
Qed.

Lemma existsb_label v o : existsb (fun b : nat * nat => Nat.eqb v (snd b)) o = false ->
  ~ In v (map snd o).
Proof.
  intros H (q & Hq & Hin)%in_map_iff.
  assert (existsb (fun b : nat * nat => Nat.eqb v (snd b)) o = true) as E
    by (apply existsb_exists; exists q; split; [auto|apply Nat.eqb_eq; auto]).
  congruence.
Qed.

Lemma find_block_label v o r : find_block v o = Some r -> In v (map snd o).
Proof.
  induction o as [|[b w] o IH]; cbn; [discriminate|].
  destruct (Nat.eqb_spec w v); [left; auto|right; auto].
Qed.

(** A round that adds one instruction and leaves the code as it is. *)
Lemma flow_inv_next mb i pre st o' st' p :
  flow_inv mb i pre st -> stmt mb !! i = Some p ->
  code st' = code st -> halted st' = false -> opened st' = o' -> opening o' (pre ++ [p]) ->
  flow_inv mb (S i) (pre ++ [p]) st'.
Proof.
  intros [Hc Hl Hs _ _] Hp Ec Eh <- Ho. constructor; auto.
  - rewrite Ec, Hc, <- app_assoc. f_equal. symmetry. cbn [app].
    symmetry. apply drop_S. exact Hp.
  - rewrite List.length_app. cbn. lia.
  - rewrite (take_S_r _ _ p) by exact Hp. rewrite !map_app, Hs. reflexivity.
Qed.

Lemma flow_inv_read mb i pre st p : flow_inv mb i pre st -> stmt mb !! i = Some p ->
  code st !!! i = p.
Proof.
  intros [Hc Hl _ _ _] Hp. apply list_lookup_total_correct.
  rewrite Hc, lookup_app_r by lia. rewrite Hl, Nat.sub_diag, lookup_drop, Nat.add_0_r. exact Hp.
Qed.

Lemma flow_inv_exit mb i pre st p b o1 st' : flow_inv mb i pre st -> stmt mb !! i = Some p ->
  opened st = (b, getDestVar p) :: o1 -> blockExit p = true ->
  code st' = close_block (getDestVar p) b i (code st) -> opened st' = o1 -> halted st' = false ->
  exists pre', flow_inv mb (S i) pre' st'.
Proof.
  intros [Hc Hl Hs Ho _] Hp Eo He Ec Eo' Eh. rewrite Eo in Ho.
  destruct (opening_close _ _ _ _ _ Ho He eq_refl (drop (S i) (stmt mb))) as (l' & E & El & Es & Hop).
  exists (l' ++ [p]). constructor; auto.
  - rewrite Ec, Hc, (drop_S _ p) by exact Hp. rewrite Hl in E. rewrite E, <- app_assoc. reflexivity.
  - rewrite List.length_app. cbn. lia.
  - rewrite (take_S_r _ _ p) by exact Hp. rewrite !map_app, Es, Hs. reflexivity.
  - rewrite Eo'. exact Hop.
Qed.

Lemma not_control p :
  ((barrier p =? BARRIERsymbol) || (barrier p =? CATCHsymbol)) = false ->
  (barrier p =? EXITsymbol) = false -> blockStart p = false /\ blockExit p = false.
Proof. unfold blockStart, blockExit. auto. Qed.

Lemma flow_inv_step mb ps i pre st p : flow_inv mb i pre st -> stmt mb !! i = Some p ->
  errs (flow_step mb ps i st) = errs st -> exists pre', flow_inv mb (S i) pre' (flow_step mb ps i st).
Proof.
  intros Hinv Hp He. pose proof (flow_inv_read _ _ _ _ _ Hinv Hp) as Hr.
  pose proof (inv_opening _ _ _ _ Hinv) as Ho. pose proof (inv_length _ _ _ _ Hinv) as Hl.
  destruct st as [o c n rs ys fx m h]. cbn [code opened errs] in *.
  unfold flow_step in *. rewrite Hr in *.
  destruct (_ || _) eqn:Es in *; [|destruct (barrier p =? EXITsymbol) eqn:Ex in *].
  - destruct (Nat.eqb (List.length o) DEPTH); [cbn in He; lia|].
    destruct (existsb _ o) eqn:El in *; [cbn in He; lia|].
    eexists. eapply flow_inv_next; eauto. rewrite <- Hl. constructor; auto.
    + apply existsb_label. exact El.
    + constructor.
  - destruct o as [|[b1 v1] o1]; [cbn in He; lia|].
    destruct (Nat.eqb_spec v1 (getDestVar p)) as [-> |Hv].
    + cbn [find_block] in *. rewrite Nat.eqb_refl in *.
      eapply flow_inv_exit; eauto.
    + exfalso. destruct (find_block _ _) as [[? ?]|]; cbn in He; lia.
  - destruct (not_control _ Es Ex) as [Hs' Hx'].
    assert (Hone : (leaves p = true -> In (getDestVar p) (map snd o)) -> opening o (pre ++ [p]))
      by (intros Hlv; apply opening_app; [exact Ho|apply settled_one; auto]).
    destruct (leaves p) eqn:Hlv; unfold leaves in Hlv; rewrite Hlv in *.
    + destruct (find_block _ _) as [r|] eqn:Ef; [|cbn in He; lia].
      eexists. eapply flow_inv_next; eauto. apply Hone. intros _. eapply find_block_label. exact Ef.
    + specialize (Hone ltac:(discriminate)).
      repeat match type of He with context [if ?b then Flow _ _ _ _ _ _ _ _ else _] => destruct b end;
        try (cbn in He; lia);
        eexists; eapply flow_inv_next; eauto.
Qed.

Lemma flow_loop_inv mb ps n : forall i pre st, flow_inv mb i pre st -> (i + n = stop mb)%nat ->
  errs (flow_loop mb ps (seq i n) st) = errs st ->
  exists pre', flow_inv mb (stop mb) pre' (flow_loop mb ps (seq i n) st).
Proof.
  induction n as [|n IH]; intros i pre st Hinv Hn He; cbn [seq flow_loop] in *.
  - rewrite Nat.add_0_r in Hn. subst i. eauto.
  - rewrite (inv_running _ _ _ _ Hinv) in *.
    destruct (lookup_lt_is_Some_2 (stmt mb) i) as [p Hp]; [unfold stop in Hn; lia|].
    pose proof (proj1 (flow_step_errs mb ps i st)).
    pose proof (flow_loop_errs mb ps (seq (S i) n) (flow_step mb ps i st)).
    destruct (flow_inv_step mb ps i pre st p Hinv Hp) as [pre' Hinv']; [lia|].
    apply (IH _ _ _ Hinv'); lia.
Qed.

Lemma final_errors_open mb p st : Z.of_nat (List.length (opened st)) <= final_errors mb p st.
Proof.
  unfold final_errors.
  repeat match goal with |- context [if ?b then _ else _] => destruct b end; lia.
Qed.

(** Without errors, the blocks of a program are nested and every jump is
    where it should be. *)
Lemma chkFlow_settled mb : errors mb = 0 -> errors (chkFlow mb) = 0 ->
  settled [] 0 (stmt (chkFlow mb)) /\
  map unjump (stmt (chkFlow mb)) = map unjump (stmt mb) /\
  var (chkFlow mb) = var mb.
Proof.
  intros H0. unfold chkFlow. rewrite H0. cbn [negb Z.eqb].
  set (st0 := Flow [] (stmt mb) 0 false false true (blk_maxarg mb) false).
  set (st := flow_loop mb _ _ st0). intros He.
  assert (Hinv0 : flow_inv mb 0 [] st0) by (constructor; auto; repeat constructor).
  pose proof (flow_loop_errs mb (getInstrPtr mb 0) (seq 0 (stop mb)) st0) as Hge.
  fold st in Hge. cbn [errs st0] in Hge.
  destruct (flow_loop_inv mb (getInstrPtr mb 0) (stop mb) 0 [] st0 Hinv0 eq_refl) as [pre Hinv].
  - fold st. cbn [errs st0]. destruct (halted st); cbn [errors] in He; [lia|].
    pose proof (final_errors_open mb (getInstrPtr mb 0) st). lia.
  - fold st in Hinv. destruct Hinv as [Hc Hl Hs Ho Hr]. rewrite Hr in *. cbn [errors stmt var] in *.
    assert (Hop : opened st = []).
    { pose proof (final_errors_open mb (getInstrPtr mb 0) st) as Hf.
      destruct (opened st); auto. cbn [List.length] in Hf. lia. }
    rewrite Hop in Ho. inversion Ho as [l Hset|]; subst.
    rewrite Hc. unfold stop in *. rewrite drop_all, app_nil_r.
    rewrite firstn_all in Hs. auto.
Qed.

(** ** The same by positions *)

(** The block that begins with [p] at [b]: its end, and what lies between. *)
Definition block_from (c : list InstrRecord) (vs : list nat) (off b : nat) (p : InstrRecord) : Prop :=
  exists m q r,
    drop (S b) c = m ++ q :: r /\ ~ In (getDestVar p) vs /\
    blockExit q = true /\ getDestVar q = getDestVar p /\
    jump p = (off + b + 1 + List.length m)%nat /\
    Forall (targeted (getDestVar p) (off + b) (jump p)) m /\
    settled (getDestVar p :: vs) (off + b + 1) m.

Lemma settled_start vs off l : settled vs off l -> forall i p, l !! i = Some p ->
  blockStart p = true -> exists ws, block_from l (ws ++ vs) off i p.
Proof.
  induction 1 as [vs off|vs off p l Hs He Hl _ IH|vs off b m e l Hs He Hv Hn Hj Ht Hm IHm Hl IHl];
    intros i q Hi Hq.
  - discriminate.
  - destruct i as [|i]; cbn in Hi; [congruence|].
    destruct (IH i q Hi Hq) as (ws & m & x & r & E & H0 & H1 & H2 & H3 & H4 & H5).
    exists ws, m, x, r. replace (off + S i)%nat with (S off + i)%nat by lia. split_and!; auto.
  - destruct i as [|i]; cbn in Hi.
    + injection Hi as <-. exists [], m, e, l. rewrite Nat.add_0_r. rewrite Hj.
      split_and!; auto. replace (off + 1)%nat with (S off) by lia. exact Hm.
    + change ((m ++ e :: l) !! i = Some q) in Hi.
      destruct (Nat.lt_trichotomy i (List.length m)) as [Hlt|[-> |Hgt]].
      * rewrite lookup_app_l in Hi by exact Hlt.
        destruct (IHm i q Hi Hq) as (ws & m' & x & r & E & H0 & H1 & H2 & H3 & H4 & H5).
        exists (ws ++ [getDestVar b]), m', x, (r ++ e :: l). cbn [drop].
        rewrite drop_app_le by lia. rewrite E, <- !app_assoc in *. cbn [app] in *.
        replace (off + S i)%nat with (S off + i)%nat by lia. split_and!; auto.
      * rewrite lookup_app_r, Nat.sub_diag in Hi by lia. injection Hi as <-.
        unfold blockStart, blockExit in *. apply Z.eqb_eq in He. rewrite He in Hq. discriminate.
      * rewrite lookup_app_r in Hi by lia.
        destruct (i - List.length m)%nat as [|j] eqn:Ej; [lia|]. cbn in Hi.
        destruct (IHl j q Hi Hq) as (ws & m' & x & r & E & H0 & H1 & H2 & H3 & H4 & H5).
        exists ws, m', x, r. cbn [drop]. rewrite drop_app_ge by lia.
        replace (S i - List.length m)%nat with (S (S j)) by lia. cbn [drop]. 
        replace (off + S i)%nat with (off + List.length m + 2 + j)%nat by lia. split_and!; auto.
Qed.

(** A LEAVE or REDO has a label of the surroundings, or is in a block of the
    stretch. *)
Lemma settled_leave vs off l : settled vs off l -> forall i p, l !! i = Some p ->
  leaves p = true ->
  In (getDestVar p) vs \/
  exists b q, (b < i)%nat /\ l !! b = Some q /\ blockStart q = true /\
    getDestVar q = getDestVar p /\ (off + i < jump q)%nat.
Proof.
  induction 1 as [vs off|vs off p l Hs He Hl _ IH|vs off b m e l Hs He Hv Hn Hj Ht Hm IHm Hl IHl];
    intros i q Hi Hq.
  - discriminate.
  - destruct i as [|i]; cbn in Hi; [left; injection Hi as <-; auto|].
    destruct (IH i q Hi Hq) as [Hin|(b & x & H1 & H2 & H3 & H4 & H5)]; [auto|].
    right. exists (S b), x. split_and!; auto; lia.
  - destruct i as [|i]; cbn in Hi.
    { injection Hi as <-. apply blockStart_barrier in Hs. unfold leaves in Hq.
      destruct Hs as [E|E]; rewrite E in Hq; discriminate. }
    change ((m ++ e :: l) !! i = Some q) in Hi.
    destruct (Nat.lt_trichotomy i (List.length m)) as [Hlt|[-> |Hgt]].
    + rewrite lookup_app_l in Hi by exact Hlt. 
      destruct (IHm i q Hi Hq) as [[E|Hin]|(b' & x & H1 & H2 & H3 & H4 & H5)]; [|auto|].
      * right. exists 0%nat, b. split_and!; auto; try lia. 
      * right. exists (S b'), x.
        change ((b :: m ++ e :: l) !! S b') with ((m ++ e :: l) !! b').
        rewrite lookup_app_l by lia. split_and!; auto; lia.
    + rewrite lookup_app_r, Nat.sub_diag in Hi by lia. injection Hi as <-.
      unfold leaves, blockExit in *. apply Z.eqb_eq in He. rewrite He in Hq. discriminate.
    + rewrite lookup_app_r in Hi by lia.
      destruct (i - List.length m)%nat as [|j] eqn:Ej; [lia|]. cbn in Hi.
      destruct (IHl j q Hi Hq) as [Hin|(b' & x & H1 & H2 & H3 & H4 & H5)]; [auto|].
      right. exists (S (List.length m + S b')), x.
      change ((b :: m ++ e :: l) !! S (List.length m + S b'))
        with ((m ++ e :: l) !! (List.length m + S b')%nat).
      rewrite lookup_app_r by lia.
      replace (List.length m + S b' - List.length m)%nat with (S b') by lia.
      split_and!; auto; lia.
Qed.

(** What a block is in terms of positions. *)
Lemma block_from_positions c vs b p : block_from c vs 0 b p ->
  (b < jump p)%nat /\
  (exists q, c !! jump p = Some q /\ blockExit q = true /\ getDestVar q = getDestVar p) /\
  forall k r, (b < k < jump p)%nat -> c !! k = Some r ->
    targeted (getDestVar p) b (jump p) r /\
    (blockStart r = true -> getDestVar r <> getDestVar p /\ (jump r < jump p)%nat).
Proof.
  intros (m & q & r & E & Hn & Hx & Hd & Hj & Ht & Hm). cbn [Nat.add] in *.
  assert (Hl : forall i, c !! (S b + i)%nat = (m ++ q :: r) !! i)
    by (intros i; rewrite <- E, lookup_drop; reflexivity).
  split; [lia|]. split.
  - exists q. split; [|auto]. rewrite Hj. replace (b + 1 + List.length m)%nat
      with (S b + List.length m)%nat by lia. rewrite Hl, lookup_app_r, Nat.sub_diag by lia.
    reflexivity.
  - intros k x Hk Hx'. replace k with (S b + (k - S b))%nat in Hx' by lia.
    rewrite Hl, lookup_app_l in Hx' by lia. split.
    + rewrite Forall_lookup in Ht. apply (Ht _ _ Hx').
    + intros Hs. destruct (settled_start _ _ _ Hm _ _ Hx' Hs)
        as (ws & m' & y & r' & E' & Hn' & _ & _ & Hj' & _ & _).
      split; [intros Ex; apply Hn'; rewrite Ex; apply in_or_app; right; left; auto|].
      apply (f_equal (@List.length _)) in E'. rewrite List.length_app in E'.
      rewrite length_drop in E'. cbn [List.length] in E'. lia.
Qed.

(** Every jump leads into the program, and that of a block to its exit. *)
Lemma settled_range c i p : settled [] 0 c -> c !! i = Some p ->
  blockStart p = true \/ leaves p = true ->
  (0 < jump p < List.length c)%nat /\
  (blockStart p = true -> exists q, c !! jump p = Some q /\ blockExit q = true).
Proof.
  intros Hc Hi Hp.
  assert (Hs : forall b q, c !! b = Some q -> blockStart q = true ->
    (b < jump q < List.length c)%nat /\ (exists x, c !! jump q = Some x /\ blockExit x = true) /\
    forall k r, (b < k < jump q)%nat -> c !! k = Some r -> targeted (getDestVar q) b (jump q) r).
  { intros b q Hb Hq. destruct (settled_start _ _ _ Hc b q Hb Hq) as (ws & Hblk).
    destruct (block_from_positions _ _ _ _ Hblk) as (H1 & (x & H2 & H3 & _) & H4).
    pose proof (lookup_lt_Some _ _ _ H2).
    split_and!; [lia|lia|eauto|]. intros k r Hk Hr. apply (H4 k r Hk Hr). }
  destruct (blockStart p) eqn:Es.
  - destruct (Hs i p Hi Es) as (H1 & H2 & _). split; [lia|auto].
  - destruct Hp as [Hp|Hp]; [discriminate|]. split; [|discriminate].
    destruct (settled_leave _ _ _ Hc i p Hi Hp) as [[]|(b & q & H1 & H2 & H3 & H4 & H5)].
    destruct (Hs b q H2 H3) as (H6 & _ & H7).
    destruct (H7 i p ltac:(lia) Hi (eq_sym H4)) as [H8 H9].
    unfold leaves in Hp. apply orb_prop in Hp. rewrite !Z.eqb_eq in Hp.
    destruct Hp as [Hp|Hp]; [rewrite (H8 Hp)|rewrite (H9 Hp)]; lia.
Qed.

(** C9: [chkFlow] of mal_function.c: if a program has no errors of structure
    then the check changes nothing but the jumps, and afterwards: a BARRIER or
    CATCH jumps to an EXIT behind it with the same variable; a LEAVE of that
    variable in between jumps to the same EXIT and a REDO to the first
    instruction of the block; blocks in between end before it and have other
    variables; and every LEAVE and REDO is between the beginning and the end of a
    block with its variable.  So the interpreter only jumps inside the
    program. *)
Theorem chkFlow_jumps mb : errors mb = 0 -> errors (chkFlow mb) = 0 ->
  let c := stmt (chkFlow mb) in
  map unjump c = map unjump (stmt mb) /\
  (forall b p, c !! b = Some p -> blockStart p = true ->
     (b < jump p)%nat /\
     (exists q, c !! jump p = Some q /\ blockExit q = true /\ getDestVar q = getDestVar p) /\
     forall k r, (b < k < jump p)%nat -> c !! k = Some r ->
       targeted (getDestVar p) b (jump p) r /\
       (blockStart r = true -> getDestVar r <> getDestVar p /\ (jump r < jump p)%nat)) /\
  (forall k r, c !! k = Some r -> leaves r = true -> exists b p,
     c !! b = Some p /\ blockStart p = true /\ getDestVar p = getDestVar r /\
     (b < k < jump p)%nat).
Proof.
  intros H0 He c. destruct (chkFlow_settled mb H0 He) as (Hset & Hsame & _).
  split; [exact Hsame|]. fold c in Hset. clearbody c. split.
  - intros b p Hp Hs. destruct (settled_start _ _ _ Hset b p Hp Hs) as (ws & Hb).
    apply (block_from_positions _ _ _ _ Hb).
  - intros k r Hr Hl. destruct (settled_leave _ _ _ Hset k r Hr Hl) as [[]|(b & q & H)].
    exists b, q. intuition lia.
Qed.

(** A loop with a LEAVE in a block inside it. *)
Definition flow_example : MalBlkRecord :=
  let p bar v := Instr ASSIGNsymbol bar TYPE_RESOLVED 99 None None None None 1 8 [v] in
  MalBlk [no_var; no_var; no_var]
    [Instr FUNCTIONsymbol 0 TYPE_RESOLVED 0 None None None None 1 8 [0%nat];
     p BARRIERsymbol 1%nat; p BARRIERsymbol 2%nat; p LEAVEsymbol 1%nat; p EXITsymbol 2%nat;
     p REDOsymbol 1%nat; p EXITsymbol 1%nat;
     Instr ENDsymbol 0 TYPE_RESOLVED 0 None None None None 0 8 []] 0 false 8.

Lemma chkFlow_jumps_witness :
  map jump (stmt (chkFlow flow_example)) = [0; 6; 4; 6; 99; 2; 99; 0]%nat /\
  exists b p, stmt (chkFlow flow_example) !! b = Some p /\ blockStart p = true /\
    getDestVar p = 1%nat /\ (b < 3 < jump p)%nat.
Proof.
  split; [vm_compute; reflexivity|].
  destruct (chkFlow_jumps flow_example) as (_ & _ & H); [reflexivity|reflexivity|].
  destruct (H 3%nat _ eq_refl eq_refl) as (b & p & H1 & H2 & H3 & H4).
  exists b, p. split_and!; auto; lia.
Defined.
