(* ===== verification/MalDecl.v ===== *)
(** * Declarations of variables in a MAL block

    [chkDeclarations] of src/src/monetdb5/mal/mal_function.c: every variable is
    declared by the instruction that assigns it first, for the block in which
    that instruction is, and may be used there.  The check marks the variables
    that are used; the removal of dead code relies on the marks
    ([chkDeclarations_marks]). *)

From Stdlib Require Import ZArith Lia Bool List String.
From stdpp Require Import base list.
From S2P Require Import Prelude Mal.
Import ListNotations.

(** ** Flags of variables *)

Definition set_used (b : bool) (v : VarRecord) : VarRecord :=
  Var (name v) (type v) (tmpindex v) (constant v) (typevar v) (init v) b (disabled v)
      (value v) (props v).
Definition set_init (b : bool) (v : VarRecord) : VarRecord :=
  Var (name v) (type v) (tmpindex v) (constant v) (typevar v) b (used v) (disabled v)
      (value v) (props v).
Definition clear_flags (v : VarRecord) : VarRecord :=
  Var (name v) (type v) (tmpindex v) (constant v) (typevar v) false false false
      (value v) (props v).

Definition clrDeclarations (mb : MalBlkRecord) : MalBlkRecord :=
  with_var mb (map clear_flags (var mb)).

(** ** The check *)

Definition MAXDEPTH : nat := 32.

(** The variables; for each the block that declares it (0 when it is not
    declared); the blocks around the instruction, innermost first; the last
    number given to a block; errors; the early return. *)
Record decls := Decls {
  dvars : list VarRecord;
  decl : list Z;
  blks : list Z;
  blkId : Z;
  derrs : Z;
  dhalted : bool }.

Definition outermost (bs : list Z) : Z := List.last bs 0.
Definition innermost (bs : list Z) : Z := hd 0 bs.

Definition opens_scope (p : InstrRecord) : bool := blockCntrl p || blockStart p.

(** An operand [l] of [p]. *)
Definition use_operand (p : InstrRecord) (st : decls) (l : nat) : decls :=
  let '(Decls vs dc bs id n h) := st in
  let v := vs !!! l in
  let d := dc !!! l in
  let vs := alter (set_used true) l vs in
  let undeclared := d =? 0 in
  let dc' := if undeclared && (barrier p =? CATCHsymbol) then <[l := outermost bs]> dc else dc in
  let bad :=
    if undeclared then
      negb (barrier p =? CATCHsymbol) && negb (constant v || typevar v) && negb (init v)
    else negb (init v) && negb (existsb (Z.eqb d) bs) in
  Decls (if opens_scope p then alter (set_init true) l vs else vs)
        dc' bs id (if bad then n + 1 else n) h.

(** A target [l] of [p]. *)
Definition define_target (p : InstrRecord) (st : decls) (l : nat) : decls :=
  let '(Decls vs dc bs id n h) := st in
  let dc := if init (vs !!! l) && (dc !!! l =? 0) then <[l := outermost bs]> dc else dc in
  let vs := alter (set_init true) l vs in
  let dc := if dc !!! l =? 0
            then <[l := if barrier p =? CATCHsymbol then outermost bs else innermost bs]> dc
            else dc in
  Decls (if opens_scope p then alter (set_used true) l vs else vs) dc bs id n h.

(** Variables of the block that ends are not declared any more. *)
Definition end_scope (b : Z) (vs : list VarRecord) (dc : list Z) : list VarRecord * list Z :=
  (zip_with (fun v d => if d =? b then set_init false v else v) vs dc,
   map (fun d => if d =? b then 0 else d) dc).

Definition change_scope (p : InstrRecord) (st : decls) : decls :=
  let '(Decls vs dc bs id n h) := st in
  let transparent := existsb (String.eqb "transparent") (props (vs !!! getArg p 0)) in
  let top := (List.length bs - 1)%nat in
  if blockStart p && negb transparent then
    if (top <? MAXDEPTH - 2)%nat then Decls vs dc (i16 (id + 1) :: bs) (i16 (id + 1)) n h
    else Decls vs dc bs id (n + 1) true
  else if blockExit p && (0 <? top)%nat && negb transparent then
    let '(vs, dc) := end_scope (innermost bs) vs dc in
    Decls vs dc (tl bs) id n h
  else st.

Definition decl_step (st : decls) (p : InstrRecord) : decls :=
  if dhalted st then st
  else if (token p =? REMsymbol) || (token p =? NOOPsymbol) then st
  else
    let st := fold_left (use_operand p) (operands p) st in
    let st := fold_left (define_target p) (targets p) st in
    if barrier p =? 0 then st else change_scope p st.

Definition declare_all (l : list nat) (b : Z) (dc : list Z) : list Z :=
  fold_left (fun dc v => <[v := b]> dc) l dc.

Definition chkDeclarations (mb : MalBlkRecord) : MalBlkRecord :=
  let dc := declare_all (argv (getInstrPtr mb 0)) 1 (replicate (vtop mb) 0) in
  let st := fold_left decl_step (drop 1 (stmt mb)) (Decls (var mb) dc [1] 1 (errors mb) false) in
  MalBlk (dvars st) (stmt mb) (derrs st) (flowfixed mb) (blk_maxarg mb).

(** ** What it marks *)

(** Everything of a variable but the flags that the check changes. *)
Definition unflag (v : VarRecord) : VarRecord :=
  Var (name v) (type v) (tmpindex v) (constant v) (typevar v) false false (disabled v)
      (value v) (props v).

Definition mem (v : nat) (l : list nat) : bool := existsb (Nat.eqb v) l.

(** From one list of variables to another: only flags change, and exactly the
    variables [l] are marked in addition. *)
Record marks (l : list nat) (vs ws : list VarRecord) : Prop := {
  marks_same : map unflag ws = map unflag vs;
  marks_used : forall i, (i < List.length vs)%nat ->
    used (ws !!! i) = used (vs !!! i) || mem i l }.

Lemma mem_app v a b : mem v (a ++ b) = mem v a || mem v b.
Proof. apply existsb_app. Qed.

Lemma marks_refl vs : marks [] vs vs.
Proof. split; auto. intros. rewrite orb_false_r. reflexivity. Qed.

Lemma marks_length l vs ws : marks l vs ws -> List.length ws = List.length vs.
Proof.
  intros [H _]. apply (f_equal (@List.length _)) in H. rewrite !length_map in H. exact H.
Qed.

Lemma marks_trans a b vs ws xs : marks a vs ws -> marks b ws xs -> marks (a ++ b) vs xs.
Proof.
  intros H1 H2. split; [rewrite (marks_same _ _ _ H2); apply H1|].
  intros i Hi. rewrite mem_app, orb_assoc, <- (marks_used _ _ _ H1) by exact Hi.
  apply H2. rewrite (marks_length _ _ _ H1). exact Hi.
Qed.

Lemma map_alter_same {A B} (f : A -> B) (g : A -> A) i l :
  (forall x, f (g x) = f x) -> map f (alter g i l) = map f l.
Proof.
  intros H. revert i. induction l as [|x l IH]; intros [|i]; cbn; auto; f_equal; auto.
Qed.

Lemma lookup_total_alter_in (g : VarRecord -> VarRecord) i j l : (j < List.length l)%nat ->
  alter g i l !!! j = if Nat.eqb j i then g (l !!! j) else l !!! j.
Proof.
  intros H. rewrite !list_lookup_total_alt. destruct (Nat.eqb_spec j i) as [-> |Hn].
  - rewrite list_lookup_alter_eq. destruct (lookup_lt_is_Some_2 l i H) as [v ->]. reflexivity.
  - rewrite list_lookup_alter_ne by auto. reflexivity.
Qed.

Lemma marks_set_init b i vs : marks [] vs (alter (set_init b) i vs).
Proof.
  split; [apply map_alter_same; auto|]. intros j Hj.
  rewrite lookup_total_alter_in, orb_false_r by exact Hj. destruct (Nat.eqb j i); reflexivity.
Qed.

Lemma marks_set_used i vs : marks [i] vs (alter (set_used true) i vs).
Proof.
  split; [apply map_alter_same; auto|]. intros j Hj.
  rewrite lookup_total_alter_in by exact Hj. unfold mem. cbn [existsb].
  destruct (Nat.eqb j i); cbn; [rewrite orb_true_r|rewrite orb_false_r]; reflexivity.
Qed.

Lemma marks_operand p st l : marks [l] (dvars st) (dvars (use_operand p st l)).
Proof.
  destruct st as [vs dc bs id n h]. cbn. destruct (opens_scope p); cbn.
  - apply (marks_trans [l] [] _ _ _ (marks_set_used l vs)). apply marks_set_init.
  - apply marks_set_used.
Qed.

Lemma marks_target p st l :
  marks (if opens_scope p then [l] else []) (dvars st) (dvars (define_target p st l)).
Proof.
  destruct st as [vs dc bs id n h]. cbn. destruct (opens_scope p); cbn.
  - apply (marks_trans [] [l] _ _ _ (marks_set_init true l vs)). apply marks_set_used.
  - apply marks_set_init.
Qed.

Lemma end_scope_marks b vs : forall dc, List.length dc = List.length vs ->
  marks [] vs (fst (end_scope b vs dc)).
Proof.
  intros dc Hd. split.
  - revert dc Hd. cbn. induction vs as [|v vs IH]; intros [|d dc] Hd; try discriminate; cbn; auto.
    f_equal; [destruct (d =? b); reflexivity|]. apply IH. cbn in Hd. lia.
  - intros i Hi. rewrite orb_false_r. revert dc Hd i Hi. cbn.
    induction vs as [|v vs IH]; intros [|d dc] Hd i Hi; try discriminate; cbn in *; [lia|].
    destruct i as [|i]; cbn; [destruct (d =? b); auto|]. apply IH; lia.
Qed.

(** The lists of variables and of declarations have the same length. *)
Definition aligned (st : decls) : Prop := List.length (decl st) = List.length (dvars st).

Lemma aligned_operand p st l : aligned st -> aligned (use_operand p st l).
Proof.
  destruct st as [vs dc bs id n h]. unfold aligned. cbn. intros H.
  destruct (opens_scope p); rewrite ?length_alter;
    destruct (_ && _); rewrite ?length_insert; exact H.
Qed.

Lemma aligned_target p st l : aligned st -> aligned (define_target p st l).
Proof.
  destruct st as [vs dc bs id n h]. unfold aligned. cbn. intros H.
  destruct (opens_scope p); rewrite ?length_alter; destruct (_ && _);
    match goal with |- List.length (if ?b then _ else _) = _ => destruct b end;
    rewrite ?length_insert; exact H.
Qed.

Lemma scope_marks p st : aligned st ->
  marks [] (dvars st) (dvars (change_scope p st)) /\ aligned (change_scope p st).
Proof.
  destruct st as [vs dc bs id n h]. unfold aligned. intros H. cbn in H. unfold change_scope.
  repeat match goal with |- context [if ?b then _ else _] => destruct b end;
    cbn; auto using marks_refl.
  split; [apply end_scope_marks; exact H|].
  rewrite length_map, length_zip_with. lia.
Qed.

Lemma fold_marks (f : decls -> nat -> decls) (g : nat -> list nat) l :
  (forall st v, marks (g v) (dvars st) (dvars (f st v))) ->
  (forall st v, aligned st -> aligned (f st v)) -> forall st, aligned st ->
  marks (flat_map g l) (dvars st) (dvars (fold_left f l st)) /\ aligned (fold_left f l st).
Proof.
  intros Hm Ha. induction l as [|v l IH]; intros st Hst; cbn; [auto using marks_refl|].
  destruct (IH (f st v)); auto. split; [|assumption]. eapply marks_trans; eauto.
Qed.

(** The variables an instruction uses. *)
Definition ignored (p : InstrRecord) : bool := (token p =? REMsymbol) || (token p =? NOOPsymbol).
Definition uses (p : InstrRecord) : list nat :=
  if ignored p then [] else operands p ++ if opens_scope p then targets p else [].

Lemma flat_map_single {A} (l : list A) : flat_map (fun x => [x]) l = l.
Proof. induction l; cbn; congruence. Qed.
Lemma flat_map_none {A B} (l : list A) : flat_map (fun _ => @nil B) l = [].
Proof. induction l; cbn; auto. Qed.

Lemma decl_step_marks p st : aligned st -> dhalted st = false ->
  marks (uses p) (dvars st) (dvars (decl_step st p)) /\ aligned (decl_step st p).
Proof.
  intros Hst Hh. unfold decl_step, uses, ignored. rewrite Hh.
  destruct (_ || _); [auto using marks_refl|].
  destruct (fold_marks (use_operand p) (fun v => [v]) (operands p) (marks_operand p)
              (aligned_operand p) st Hst) as [M1 A1].
  destruct (fold_marks (define_target p) _ (targets p) (marks_target p) (aligned_target p) _ A1)
    as [M2 A2].
  rewrite flat_map_single in M1. pose proof (marks_trans _ _ _ _ _ M1 M2) as M.
  replace (flat_map _ (targets p)) with (if opens_scope p then targets p else []) in M
    by (destruct (opens_scope p); [rewrite flat_map_single|rewrite flat_map_none]; reflexivity).
  destruct (barrier p =? 0); [split; auto|].
  destruct (scope_marks p _ A2) as [M3 A3]. split; [|exact A3].
  pose proof (marks_trans _ _ _ _ _ M M3) as H. rewrite app_nil_r in H. exact H.
Qed.

(** ** Errors *)

Lemma operand_errs p st l : derrs st <= derrs (use_operand p st l) /\
  dhalted (use_operand p st l) = dhalted st.
Proof.
  destruct st as [vs dc bs id n h]. cbn. split; auto.
  match goal with |- context [if ?b then n + 1 else n] => destruct b end; lia.
Qed.

Lemma target_errs p st l : derrs (define_target p st l) = derrs st /\
  dhalted (define_target p st l) = dhalted st.
Proof. destruct st as [vs dc bs id n h]. cbn. auto. Qed.

Lemma fold_errs (f : decls -> nat -> decls) l :
  (forall st v, derrs st <= derrs (f st v) /\ dhalted (f st v) = dhalted st) -> forall st,
  derrs st <= derrs (fold_left f l st) /\ dhalted (fold_left f l st) = dhalted st.
Proof.
  intros H. induction l as [|v l IH]; intros st; cbn; [split; [lia|auto]|].
  destruct (IH (f st v)), (H st v). split; [lia|congruence].
Qed.

Lemma scope_errs p st : dhalted st = false -> derrs st <= derrs (change_scope p st) /\
  (dhalted (change_scope p st) = true -> derrs st < derrs (change_scope p st)).
Proof.
  destruct st as [vs dc bs id n h]. intros Hh. cbn in Hh. subst h. unfold change_scope.
  repeat match goal with |- context [if ?b then _ else _] => destruct b end;
    cbn; split; intros; (discriminate || lia).
Qed.

Lemma decl_step_errs p st : derrs st <= derrs (decl_step st p) /\
  (dhalted st = false -> dhalted (decl_step st p) = true -> derrs st < derrs (decl_step st p)).
Proof.
  unfold decl_step. destruct (dhalted st) eqn:Hh; [split; [lia|discriminate]|].
  destruct (_ || _); [split; [lia|congruence]|].
  destruct (fold_errs (use_operand p) (operands p) (operand_errs p) st) as [E1 H1].
  destruct (fold_errs (define_target p) (targets p)
    (fun st v => conj (Z.eq_le_incl _ _ (eq_sym (proj1 (target_errs p st v))))
                      (proj2 (target_errs p st v)))
    (fold_left (use_operand p) (operands p) st)) as [E2 H2].
  rewrite Hh in H1. rewrite H1 in H2.
  destruct (barrier p =? 0); [split; [lia|congruence]|].
  destruct (scope_errs p _ H2) as [E3 H3]. split; [lia|]. intros _ H4. specialize (H3 H4). lia.
Qed.

Lemma decl_loop_marks ps : forall st, aligned st -> dhalted st = false ->
  derrs st <= derrs (fold_left decl_step ps st) /\
  (derrs (fold_left decl_step ps st) = derrs st ->
   marks (flat_map uses ps) (dvars st) (dvars (fold_left decl_step ps st))).
Proof.
  induction ps as [|p ps IH]; intros st Hst Hh; cbn [fold_left flat_map].
  { split; [lia|]. intros _. apply marks_refl. }
  destruct (decl_step_marks p st Hst Hh) as [M A].
  destruct (decl_step_errs p st) as [E1 E2]. specialize (E2 Hh).
  destruct (dhalted (decl_step st p)) eqn:Hh'.
  - specialize (E2 eq_refl).
    assert (Hs : forall qs st', dhalted st' = true -> fold_left decl_step qs st' = st').
    { induction qs as [|q qs IHq]; intros st' H'; cbn; [auto|].
      unfold decl_step at 2. rewrite H'. auto. }
    rewrite Hs by exact Hh'. split; lia.
  - destruct (IH _ A Hh') as [E3 H3]. split; [lia|]. intros He.
    eapply marks_trans; [exact M|]. apply H3. lia.
Qed.

Lemma mem_In v l : mem v l = true <-> In v l.
Proof.
  unfold mem. rewrite existsb_exists. split.
  - intros (x & Hx & E%Nat.eqb_eq). subst. exact Hx.
  - intros H. exists v. split; [exact H|apply Nat.eqb_refl].
Qed.

Lemma In_drop_1 {A} (l : list A) x : In x (drop 1 l) <-> exists i, l !! S i = Some x.
Proof.
  rewrite <- list_elem_of_In, list_elem_of_lookup. split; intros [i H]; exists i.
  - rewrite lookup_drop in H. exact H.
  - rewrite lookup_drop. exact H.
Qed.

Lemma declare_all_length l b : forall dc, List.length (declare_all l b dc) = List.length dc.
Proof.
  unfold declare_all. induction l as [|v l IH]; intros dc; cbn; [auto|].
  rewrite IH, length_insert. reflexivity.
Qed.

(** After a check without errors, exactly the variables that an instruction
    uses are marked. *)
Lemma chkDeclarations_exact mb :
  let mb' := chkDeclarations (clrDeclarations mb) in
  errors mb' = errors mb ->
  stmt mb' = stmt mb /\ map unflag (var mb') = map unflag (map clear_flags (var mb)) /\
  forall v, (v < vtop mb)%nat ->
    (isVarUsed mb' v = true <-> exists i p, stmt mb !! S i = Some p /\ In v (uses p)).
Proof.
  unfold chkDeclarations, clrDeclarations. cbn. intros He.
  set (dc := declare_all _ _ _) in *.
  set (st := Decls _ dc [1] 1 (errors mb) false) in *.
  assert (Ha : aligned st).
  { unfold aligned, st, dc. cbn. rewrite declare_all_length, length_replicate. reflexivity. }
  destruct (decl_loop_marks (drop 1 (stmt mb)) st Ha eq_refl) as [_ M]. specialize (M He).
  split; [reflexivity|]. split; [apply (marks_same _ _ _ M)|].
  intros v Hv. unfold isVarUsed, getVar. cbn [var].
  assert (Hv' : (v < List.length (dvars st))%nat) by (cbn; rewrite length_map; exact Hv).
  rewrite (marks_used _ _ _ M v Hv').
  replace (used (dvars st !!! v)) with false.
  - cbn [orb]. rewrite mem_In, in_flat_map. split.
    + intros (p & Hp & Hin). apply In_drop_1 in Hp. destruct Hp as [i Hi]. eauto.
    + intros (i & p & Hi & Hin). exists p. split; [apply In_drop_1; eauto|exact Hin].
  - cbn. rewrite list_lookup_total_alt, list_lookup_fmap.
    destruct (lookup_lt_is_Some_2 (var mb) v Hv) as [x ->]. reflexivity.
Qed.
