(* ===== verification/MalInterp.v ===== *)
(** * The MAL interpreter

    [runMALsequence] of src/src/monetdb5/mal/mal_interpreter.c with what it
    calls: the stack of a block, assignments, calls of C functions and of MAL
    functions, exceptions and the flow of control.

    The C functions behind commands and patterns and the manager of factories
    are parameters: they get the values of all arguments and the state of the
    rest of the system ([W]), and give values for some of the results, an
    exception or none, and a new state.  A factory is called like a C function;
    to run the body of one is an outcome of its own.  Debugging, profiling,
    recycling, timeouts, and the memory behind values are not modelled, but a
    freed exception is, since the interpreter frees some of them twice. *)

From Stdlib Require Import ZArith Lia Bool List String.
From stdpp Require Import base list.
From S2P Require Import Prelude Mal.
Import ListNotations.

(** ** Exceptions *)

(** An exception is a text, the constant [M5OutOfMemory], or made by
    [createScriptException] at a position, on top of an earlier one. *)
Inductive exception :=
| Thrown (s : cstr)
| OutOfMemory
| Script (pc : nat) (etype : string) (prev : option exception) (msg : cstr).

Definition name_text (n : option string) : cstr :=
  match n with Some s => lit s | None => lit "(null)" end.

(** [createScriptExceptionInternal], for a buffer that is large enough. *)
Fixpoint exception_text (mb : MalBlkRecord) (e : exception) : cstr :=
  match e with
  | Thrown s => s
  | OutOfMemory => lit "Memory allocation failed."
  | Script pc t prev msg =>
    match prev with Some q => exception_text mb q ++ [10] | None => [] end ++
    lit t ++ [58] ++ name_text (modname (getInstrPtr mb 0)) ++ [46] ++
    name_text (fcnname (getInstrPtr mb 0)) ++ [91] ++ fmt_d (Z.of_nat pc) ++ [93; 58] ++ msg
  end.

Definition exceptionNames : list string :=
  ["MALException"; "IllegalArgumentException"; "OutOfBoundsException"; "IOException";
   "InvalidCredentialsException"; "OptimizerException"; "StackOverflowException";
   "SyntaxException"; "TypeException"; "LoaderException"; "ParseException";
   "ArithmeticException"; "PermissionDeniedException"; "SQLException"; "RDFException";
   "XQUERYException"]%string.

(** The part before the first colon, if there is a colon. *)
Fixpoint before_colon (s : cstr) : option cstr :=
  match s with
  | [] => None
  | c :: s =>
    if c =? 58 then Some []
    else match before_colon s with Some p => Some (c :: p) | None => None end
  end.

Definition getExceptionType (s : cstr) : string :=
  let p := match before_colon s with Some p => p | None => s end in
  match List.find (fun n => cstr_eqb (lit n) p) exceptionNames with
  | Some n => n
  | None => "MALException"%string
  end.

(** [strstr(s, t) != NULL]. *)
Fixpoint starts_with (s t : cstr) : bool :=
  match t, s with
  | [], _ => true
  | c :: t, d :: s => (c =? d) && starts_with s t
  | _ :: _, [] => false
  end.
Fixpoint contains (s t : cstr) : bool :=
  starts_with s t || match s with [] => false | _ :: s => contains s t end.

(** ** Names of variables *)

Definition isTmpVar (v : VarRecord) : bool := negb (tmpindex v =? 0).

Definition getVarName (mb : MalBlkRecord) (i : nat) : cstr :=
  match name (getVar mb i) with
  | Some s => lit s
  | None => 95 :: fmt_d (tmpindex (getVar mb i))
  end.

(** The last position up to [n] of a variable that satisfies [f]. *)
Fixpoint last_var (f : VarRecord -> bool) (vs : list VarRecord) (n : nat) : option nat :=
  match n with
  | O => None
  | S n => if f (vs !!! n) then Some n else last_var f vs n
  end.
Fixpoint first_var (f : VarRecord -> bool) (vs : list VarRecord) (i : nat) : option nat :=
  match vs with
  | [] => None
  | v :: vs => if f v then Some i else first_var f vs (S i)
  end.

Fixpoint digits_prefix (s : cstr) : cstr :=
  match s with
  | c :: s => if isdigit c then c :: digits_prefix s else []
  | [] => []
  end.

Definition findVariableLength (mb : MalBlkRecord) (n : cstr) : option nat :=
  let named v := match name v with
                 | Some s => negb (isTmpVar v) && cstr_eqb (lit s) n
                 | None => false
                 end in
  match last_var named (var mb) (vtop mb) with
  | Some i => Some i
  | None =>
    match n with
    | 95 :: ds =>
      let i := dval 0 (digits_prefix ds) in
      let v := getVar mb (Z.to_nat i) in
      if (i <? Z.of_nat (vtop mb)) && isTmpVar v && (tmpindex v =? i) then Some (Z.to_nat i)
      else first_var (fun v => (tmpindex v =? i) && isTmpVar v) (var mb) 0
    | _ => None
    end
  end.

(** The variable that an exception is for: the one with the name before the
    colon, or else [ANYexception]. *)
Definition exception_variable (mb : MalBlkRecord) (text : cstr) : option nat :=
  match before_colon text with
  | Some p =>
    match findVariableLength mb p with
    | Some v => Some v
    | None => findVariableLength mb (lit "ANYexception")
    end
  | None => findVariableLength mb (lit "ANYexception")
  end.

(** ** The search for a catch block

    Both searches of the interpreter: [getArgName] makes up a name when there
    is none, so its result is never NULL. *)

Definition catches (mb : MalBlkRecord) (v : nat) (l : InstrRecord) : bool :=
  (barrier l =? CATCHsymbol) &&
  existsb (fun a => Nat.eqb a v || true || cstr_eqb (getVarName mb a) (lit "ANYexception"))
          (targets l).

(** From [pc] on; [stop] when there is none. *)
Fixpoint skip_to_catch (mb : MalBlkRecord) (v : nat) (n pc : nat) : nat :=
  match n with
  | O => pc
  | S n => if catches mb v (getInstrPtr mb pc) then pc else skip_to_catch mb v n (S pc)
  end.
Definition find_catch (mb : MalBlkRecord) (v pc : nat) : nat :=
  skip_to_catch mb v (stop mb - pc) pc.

(** ** Conditions of BARRIER, LEAVE and REDO *)

Definition flt_nil_bits : Z := 4286578687.
Definition dbl_nil_bits : Z := 18442240474082181119.

(** Is a barrier with this value skipped?  [None]: unknown type. *)
Definition barrier_skips (v : ValRecord) : option bool :=
  match v with
  | VFix t z =>
    if t =? TYPE_bit then Some ((z =? 0) || (z =? -128))
    else if t =? TYPE_bte then Some (z =? -128)
    else if t =? TYPE_oid then Some (z =? 2 ^ 63)
    else if t =? TYPE_sht then Some (z =? -32768)
    else if t =? TYPE_int then Some (z =? int_nil)
    else if t =? TYPE_lng then Some (z =? lng_nil)
    else if t =? TYPE_flt then Some (z =? flt_nil_bits)
    else if t =? TYPE_dbl then Some (z =? dbl_nil_bits)
    else None
  | VExt t p =>
    if t =? TYPE_str then Some (match p with Pnil => true | _ => false end) else None
  end.

(** Does a LEAVE or REDO with this value jump? *)
Definition jump_taken (v : ValRecord) : option bool :=
  match v with
  | VFix t z =>
    if t =? TYPE_bit then Some (z =? 1)
    else if t =? TYPE_oid then Some (negb (z =? 2 ^ 63))
    else if t =? TYPE_sht then Some (negb (z =? -32768))
    else if t =? TYPE_int then Some (negb (z =? int_nil))
    else if t =? TYPE_wrd then Some (negb (z =? lng_nil))
    else if t =? TYPE_bte then Some (negb (z =? -128))
    else if t =? TYPE_lng then Some (negb (z =? lng_nil))
    else if t =? TYPE_flt then Some (negb (z =? flt_nil_bits))
    else if t =? TYPE_dbl then Some (negb (z =? dbl_nil_bits))
    else None
  | VExt t p =>
    if t =? TYPE_str then Some (match p with Pnil => false | _ => true end) else None
  end.

(** ** The interpreter *)

(** What is in the variable [ret]: NULL, an exception, or the address of an
    exception that was freed. *)
Inductive retval := NoError | Failed (e : exception) | Freed.

(** A result, the use of freed or missing memory, the body of a factory, or
    not enough fuel. *)
Inductive outcome (A : Type) :=
| Done (a : A)
| Undefined
| Factory
| OutOfFuel.
Arguments Done {A} a.
Arguments Undefined {A}.
Arguments Factory {A}.
Arguments OutOfFuel {A}.

Definition obind {A B} (x : outcome A) (f : A -> outcome B) : outcome B :=
  match x with
  | Done a => f a
  | Undefined => Undefined
  | Factory => Factory
  | OutOfFuel => OutOfFuel
  end.

Definition call_depth_text : cstr :=
  lit "MALException:mal.interpreter:Recursive call limit reached.".
Definition too_many_text : cstr :=
  lit "MALException:mal.interpreter:too many arguments for command call".

Section Interpreter.
Context {W : Type}.

(** A call of C code: from the values of the arguments and the state, values
    for some results, an exception, and the next state. *)
Definition native := list ValRecord -> W -> list (option ValRecord) * option exception * W.

Variable ATOMextern : Z -> bool.      (* is a value of the type behind a pointer? *)
Variable ATOMnil : Z -> list Z.       (* the nil of such a type *)
Variable commands : nat -> native.    (* C functions, by address *)
Variable factories : nat -> native.   (* [runFactory] for a block *)
Variable listing : MalBlkRecord -> InstrRecord -> cstr.   (* [instruction2str] *)
Variable blocks : list MalBlkRecord.  (* where [blk] points to *)

Definition VALcopy (s : ValRecord) : ValRecord :=
  match s with
  | VFix t z => VFix t z
  | VExt t Pnull => VExt t Pnil
  | VExt t Pnil => VExt t (Pown (ATOMnil t))
  | VExt t (Pown b) => VExt t (Pown b)
  end.

Definition getGDKType (t : Z) : Z :=
  if t <=? TYPE_str then t
  else if t =? TYPE_any then TYPE_void
  else if isaBatType t then TYPE_bat else t.

(** The value of a variable on a new stack. *)
Definition initial_value (v : VarRecord) : ValRecord :=
  if constant v then if disabled v then zero_value else VALcopy (value v)
  else let t := getGDKType (type v) in if ATOMextern t then VExt t Pnull else VFix t 0.

Definition prepareMALstack (mb : MalBlkRecord) : list ValRecord := map initial_value (var mb).

(** Copies of values, one after the other, into variables. *)
Definition assign_all (l : list (nat * ValRecord)) (stk : list ValRecord) : list ValRecord :=
  fold_left (fun stk q => <[fst q := VALcopy (snd q)]> stk) l stk.

(** [lhs := rhs] for each target and the operand at its place. *)
Definition assign (p : InstrRecord) (stk : list ValRecord) : list ValRecord :=
  fold_left (fun stk q => <[fst q := VALcopy (stk !!! snd q)]> stk)
            (combine (targets p) (operands p)) stk.

Definition store_results (p : InstrRecord) (rs : list (option ValRecord)) (stk : list ValRecord)
    : list ValRecord :=
  fold_left (fun stk q => match snd q with Some v => <[fst q := v]> stk | None => stk end)
            (combine (targets p) rs) stk.

Definition arguments (p : InstrRecord) (stk : list ValRecord) : list ValRecord :=
  map (fun v => stk !!! v) (operands p).

(** What a run gives: an exception, the values of a RETURN, the state. *)
Record run_result := Result {
  rret : option exception;
  returned : option (list ValRecord);
  rworld : W }.

(** After an instruction: the stack, an exception or none, the state. *)
Definition effect := (list ValRecord * option exception * W)%type.

Definition call_native (f : native) (p : InstrRecord) (stk : list ValRecord) (w : W) : effect :=
  let '(rs, e, w) := f (arguments p stk) w in (store_results p rs stk, e, w).

(** A call of a MAL function: [callee] runs a block on arguments. *)
Definition call_function
    (callee : nat -> nat -> list ValRecord -> W -> outcome run_result)
    (depth : nat) (p : InstrRecord) (stk : list ValRecord) (w : W) : outcome effect :=
  match blk p with
  | None => Undefined
  | Some b =>
    if (256 <? depth + 1)%nat then Done (stk, Some (Thrown call_depth_text), w)
    else
      obind (callee b (depth + 1)%nat (arguments p stk) w) (fun r =>
        let stk := match returned r with
                   | Some vs => assign_all (combine (targets p) vs) stk
                   | None => stk
                   end in
        Done (stk, match rret r with
                   | Some e => Some (Thrown (exception_text (blocks !!! b) e))
                   | None => None
                   end, rworld r))
  end.

(** The switch over the token, but for END and unknown tokens. *)
Definition exec_token callee depth (mb : MalBlkRecord) (pc : nat) (p : InstrRecord)
    (stk : list ValRecord) (w : W) : outcome effect :=
  if token p =? ASSIGNsymbol then Done (assign p stk, None, w)
  else if token p =? PATcall then
    match fcn p with
    | None => Done (stk, Some (Script pc "MALException" None
                (lit "address of pattern " ++ name_text (modname p) ++ [46] ++
                 name_text (fcnname p) ++ lit " missing")), w)
    | Some f => Done (call_native (commands f) p stk w)
    end
  else if token p =? CMDcall then
    if (16 <? argc p)%nat then Done (stk, Some (Thrown too_many_text), w)
    else match fcn p with
         | None => Undefined
         | Some f => Done (call_native (commands f) p stk w)
         end
  else if token p =? FACcall then
    match blk p with
    | None => Done (stk, Some (Script pc "MALException" None
                      (lit "reference to MAL function missing")), w)
    | Some b => Done (call_native (factories b) p stk w)
    end
  else if token p =? FCNcall then call_function callee depth p stk w
  else Done (stk, None, w).

Definition known_token (p : InstrRecord) : bool :=
  existsb (Z.eqb (token p))
    [ASSIGNsymbol; PATcall; CMDcall; FACcall; FCNcall; NOOPsymbol; REMsymbol] || (token p <? 0).

(** The variables of [runMALsequence]. *)
Record frame := Frame {
  stkpc : nat;
  stk : list ValRecord;
  exceptionVar : option nat;
  ret : retval;
  world : W;
  results : option (list ValRecord) }.

Definition goto (s : frame) (pc : nat) : frame :=
  Frame pc (stk s) (exceptionVar s) (ret s) (world s) (results s).

(** The text of the string in a variable, for [%s]. *)
Definition string_text (v : ValRecord) : outcome cstr :=
  match v with
  | VExt _ Pnull => Done (lit "(null)")
  | VExt t Pnil => Done (ATOMnil t)
  | VExt _ (Pown s) => Done s
  | VFix _ _ => Undefined
  end.

(** RAISE: [pc] is where it is. *)
Definition raise (mb : MalBlkRecord) (p : InstrRecord) (s : frame) : outcome frame :=
  let v := getDestVar p in
  match ret s with
  | Freed => Undefined
  | _ =>
    obind (if getVarType mb v =? TYPE_str
           then obind (string_text (stk s !!! v)) (fun t =>
                  Done (Failed (Script (stkpc s) "MALException" None t)))
           else Done NoError) (fun r =>
    Done (Frame (find_catch mb v (stkpc s)) (stk s) (Some v) r (world s) (results s)))
  end.

(** The switch over the barrier. *)
Definition control (mb : MalBlkRecord) (p : InstrRecord) (s : frame) : outcome frame :=
  let pc := stkpc s in
  let v := stk s !!! getDestVar p in
  if barrier p =? BARRIERsymbol then
    match barrier_skips v with
    | Some b => Done (goto s (S (if b then jump p else pc)))
    | None =>
      Done (Frame (S pc) (stk s) (exceptionVar s)
             (Failed (Script pc "MALException" None
                (getVarName mb (getDestVar p) ++ lit ": Unknown barrier type")))
             (world s) (results s))
    end
  else if (barrier p =? LEAVEsymbol) || (barrier p =? REDOsymbol) then
    match jump_taken v with
    | Some b => Done (goto s (if b then jump p else S pc))
    | None => Done s
    end
  else if barrier p =? CATCHsymbol then
    match exceptionVar s with
    | None => Done (goto s (jump p))
    | Some _ => Done (Frame (S pc) (stk s) None (ret s) (world s) (results s))
    end
  else if barrier p =? EXITsymbol then
    Done (Frame (S pc) (stk s)
            (match exceptionVar s with
             | Some x => if Nat.eqb (getDestVar p) x then None else Some x
             | None => None
             end) (ret s) (world s) (results s))
  else if barrier p =? RAISEsymbol then raise mb p s
  else if barrier p =? YIELDsymbol then Factory
  else if barrier p =? RETURNsymbol then
    if token (getInstrPtr mb 0) =? FACTORYsymbol then Factory
    else Done (Frame (stop mb) (stk s) (exceptionVar s) (ret s) (world s)
                 (Some (map (fun v => stk s !!! v) (argv p))))
  else Done (goto s (S pc)).

(** An exception [e] of the instruction at [stkpc s]: where it is handled, if
    the loop goes on. *)
Definition handle (mb : MalBlkRecord) (e : exception) (s : frame) : frame * bool :=
  let text := exception_text mb e in
  if contains text (lit "!skip-to-end") then
    (Frame (stop mb) (stk s) (exceptionVar s) NoError (world s) (results s), false)
  else
    match exception_variable mb text with
    | None => (Frame (stop mb) (stk s) None (Failed e) (world s) (results s), false)
    | Some v =>
      let s :=
        if getVarType mb v =? TYPE_str
        then Frame (stkpc s) (<[v := VExt TYPE_str (Pown text)]> (stk s)) (Some v) NoError
               (world s) (results s)
        else Frame (stkpc s) (stk s) (Some v)
               (match e with OutOfMemory => Failed e | _ => Freed end) (world s) (results s) in
      let pc := find_catch mb v (stkpc s) in
      (goto s pc, (pc <? stop mb)%nat)
    end.

(** One round of the loop, after [ret] is cleared. *)
Definition round callee depth (mb : MalBlkRecord) (s : frame) : outcome frame :=
  let p := getInstrPtr mb (stkpc s) in
  if token p =? ENDsymbol then
    if token (getInstrPtr mb 0) =? FACTORYsymbol then Factory
    else Done (Frame (stop mb) (stk s) (exceptionVar s) NoError (world s) (results s))
  else if negb (known_token p) then
    Done (Frame (stop mb) (stk s) (exceptionVar s)
           (Failed (Script (stkpc s) "MALException" None
              (lit "unkown operation:" ++ listing mb p))) (world s) (results s))
  else
    obind (exec_token callee depth mb (stkpc s) p (stk s) (world s)) (fun '(st, e, w) =>
      let s := Frame (stkpc s) st (exceptionVar s) NoError w (results s) in
      match e with
      | None => control mb p s
      | Some e =>
        let '(s, again) := handle mb e s in
        if again then control mb (getInstrPtr mb (stkpc s)) s else Done s
      end).

(** [FREE_EXCEPTION(ret)] of an exception that is freed already. *)
Definition step callee depth (mb : MalBlkRecord) (s : frame) : outcome frame :=
  match ret s with
  | Freed => Undefined
  | _ => round callee depth mb s
  end.

(** After the loop: an exception that nobody caught. *)
Definition finish (mb : MalBlkRecord) (s : frame) : outcome run_result :=
  let last := (stop mb - 1)%nat in
  let uncaught t prev := Script last t prev (lit "Exception not caught") in
  match ret s, exceptionVar s with
  | Freed, _ => Undefined
  | NoError, None => Done (Result None (results s) (world s))
  | Failed e, None => Done (Result (Some e) (results s) (world s))
  | Failed e, Some v =>
    Done (Result (Some (uncaught (getExceptionType (getVarName mb v)) (Some e)))
                 (results s) (world s))
  | NoError, Some v =>
    match stk s !!! v with
    | VExt t p =>
      if t =? TYPE_str then
        match p with
        | Pnull => Done (Result (Some (uncaught "MALException"%string None)) (results s) (world s))
        | _ => obind (string_text (VExt t p)) (fun x =>
                 Done (Result (Some (uncaught "MALException"%string (Some (Thrown x))))
                              (results s) (world s)))
        end
      else Done (Result (Some (uncaught "MALException"%string None)) (results s) (world s))
    | _ => Done (Result (Some (uncaught "MALException"%string None)) (results s) (world s))
    end
  end.

(** A call of a block: a new stack, the arguments, and the loop. *)
Definition enter (run : nat -> MalBlkRecord -> nat -> frame -> outcome run_result)
    (b depth : nat) (args : list ValRecord) (w : W) : outcome run_result :=
  let mb := blocks !!! b in
  let st := assign_all (combine (operands (getInstrPtr mb 0)) args) (prepareMALstack mb) in
  run depth mb (stop mb) (Frame 1 st None NoError w None).

(** The loop [while (stkpc < mb->stop && stkpc != stoppc)], one unit of fuel
    per round; a called block gets the same fuel. *)
Fixpoint runMALsequence (fuel depth : nat) (mb : MalBlkRecord) (stoppc : nat) (s : frame)
    : outcome run_result :=
  if (stkpc s <? stop mb)%nat && negb (Nat.eqb (stkpc s) stoppc) then
    match fuel with
    | O => OutOfFuel
    | S n => obind (step (enter (runMALsequence n)) depth mb s) (runMALsequence n depth mb stoppc)
    end
  else finish mb s.

(** [callMAL]: run a block on arguments, from its first instruction. *)
Definition callMAL (fuel : nat) (mb : MalBlkRecord) (args : list ValRecord) (w : W)
    : outcome run_result :=
  let p := getInstrPtr mb 0 in
  if (token p =? FUNCTIONsymbol) || (token p =? FCNcall) then
    let st := assign_all (combine (operands p) args) (prepareMALstack mb) in
    runMALsequence fuel 0 mb 0 (Frame 1 st None NoError w None)
  else if (token p =? FACTORYsymbol) || (token p =? FACcall) then Factory
  else Done (Result (Some (Thrown (lit "MALException:mal.interpreter:Instruction type not supported")))
                    None w).

(** ** More fuel gives the same result *)

Definition more {A} (x y : outcome A) : Prop := x = OutOfFuel \/ x = y.

Lemma obind_more {A B} (x y : outcome A) (f g : A -> outcome B) :
  more x y -> (forall a, more (f a) (g a)) -> more (obind x f) (obind y g).
Proof.
  intros [-> | ->] H; [left; reflexivity|].
  destruct y; cbn; [apply H|right; reflexivity|right; reflexivity|left; reflexivity].
Qed.

Lemma more_refl {A} (x : outcome A) : more x x.
Proof. right. reflexivity. Qed.
#[local] Hint Resolve more_refl : core.

Lemma step_more (f g : nat -> nat -> list ValRecord -> W -> outcome run_result) depth mb s :
  (forall b d args w, more (f b d args w) (g b d args w)) ->
  more (step f depth mb s) (step g depth mb s).
Proof.
  intros H. unfold step, round, exec_token, call_function.
  destruct (ret s); auto; destruct (token _ =? ENDsymbol); auto;
    destruct (negb (known_token _)); auto; (apply obind_more; [|auto]);
    destruct (_ =? ASSIGNsymbol); auto; destruct (_ =? PATcall); auto;
    destruct (_ =? CMDcall); auto; destruct (_ =? FACcall); auto;
    destruct (_ =? FCNcall); auto; destruct (blk _); auto;
    destruct (256 <? _)%nat; auto; apply obind_more; auto.
Qed.

Lemma run_more n : forall m, (n <= m)%nat -> forall depth mb stoppc s,
  more (runMALsequence n depth mb stoppc s) (runMALsequence m depth mb stoppc s).
Proof.
  induction n as [|n IH]; intros m Hm depth mb stoppc s.
  - destruct m; cbn [runMALsequence]; destruct (_ && _); auto; left; reflexivity.
  - destruct m as [|m]; [lia|]. cbn [runMALsequence]. destruct (_ && _); auto.
    apply obind_more; [|intros; apply IH; lia].
    apply step_more. intros. apply IH. lia.
Qed.

(** [n] rounds that reach the end of a run fix its result. *)
Lemma run_enough n m depth mb stoppc s r : (n <= m)%nat -> r <> OutOfFuel ->
  runMALsequence n depth mb stoppc s = r -> runMALsequence m depth mb stoppc s = r.
Proof. intros Hm Hr <-. destruct (run_more n m Hm depth mb stoppc s); congruence. Qed.

End Interpreter.

(** ** What does not hold *)

(** The first catch block behind an exception gets it, whatever its name. *)
Lemma catch_ignores_names mb v v' pc : find_catch mb v pc = find_catch mb v' pc.
Proof.
  unfold find_catch. generalize (stop mb - pc)%nat as n. intros n. revert pc.
  induction n as [|n IH]; intros pc; cbn [skip_to_catch]; [reflexivity|].
  replace (catches mb v (getInstrPtr mb pc)) with (catches mb v' (getInstrPtr mb pc));
    [rewrite IH; reflexivity|].
  unfold catches. f_equal. induction (targets (getInstrPtr mb pc)) as [|a l IHl]; cbn;
    [reflexivity|]. rewrite !orb_true_r. reflexivity.
Qed.

(** The nil of strings does not close a barrier, nor does it keep a LEAVE from
    jumping: the copy of a value is never at the address of [str_nil].  A string
    that was never set does. *)
Lemma nil_string_enters (nil : Z -> list Z) s :
  barrier_skips (VALcopy nil (VExt TYPE_str (Pown s))) = Some false /\
  jump_taken (VALcopy nil (VExt TYPE_str (Pown s))) = Some true /\
  barrier_skips (VALcopy nil (VExt TYPE_str Pnil)) = Some false /\
  barrier_skips (VALcopy nil (VExt TYPE_str Pnull)) = Some true.
Proof. split_and!; reflexivity. Qed.

Section Cases.
Let no_native : nat -> native (W := unit) := fun _ _ w => ([], None, w).
Let throws : nat -> native (W := unit) :=
  fun _ _ w => ([], Some (Thrown (lit "oops:it failed")), w).
Let extern (t : Z) : bool := t =? TYPE_str.

Let variable n t v := Var (Some n) t 0 true false false false false v [].
Let instr tok bar j f rc args := Instr tok bar 2 j f None None None rc 8 args.
Let signature := instr FUNCTIONsymbol 0 0 None 1%nat [0%nat].
Let end_instr := instr ENDsymbol 0 0 None 0%nat [].

(** A LEAVE with a column as its condition never goes on. *)
Lemma leave_of_column_hangs n :
  let mb := MalBlk [variable "main" TYPE_void zero_value; variable "b" TYPE_bat (VFix TYPE_bat 7)]
              [signature; instr ASSIGNsymbol LEAVEsymbol 2 None 1%nat [1%nat]; end_instr]
              0 true 8 in
  callMAL extern (fun _ => [128]) no_native no_native (fun _ _ => []) [] n mb [] tt = OutOfFuel.
Proof.
  intros mb.
  assert (H : forall k d, runMALsequence extern (fun _ => [128]) no_native no_native
    (fun _ _ => []) [] k d mb 0
    (Frame 1 [zero_value; VFix TYPE_bat 7] None NoError tt None) = OutOfFuel).
  { induction k as [|k IH]; intros d; [reflexivity|]. cbn [runMALsequence]. apply IH. }
  exact (H n 0%nat).
Qed.

(** An exception variable that is not a string: the exception is freed when it
    is caught and again by the next instruction. *)
Lemma exception_freed_twice :
  let mb := MalBlk [variable "main" TYPE_void zero_value; variable "oops" TYPE_int (VFix TYPE_int 0)]
              [signature; instr CMDcall 0 0 (Some 1%nat) 1%nat [0%nat];
               instr ASSIGNsymbol CATCHsymbol 3 None 1%nat [1%nat];
               instr ASSIGNsymbol EXITsymbol 0 None 1%nat [1%nat]; end_instr] 0 true 8 in
  callMAL extern (fun _ => [128]) throws no_native (fun _ _ => []) [] 10 mb [] tt = Undefined.
Proof. vm_compute. reflexivity. Qed.

(** A barrier on a [wrd] is not known: the block is entered, also with nil, and
    the error is forgotten at the next instruction.  On a [lng] nil skips it. *)
Lemma wrd_barrier_enters :
  let mb t := MalBlk [variable "main" TYPE_void zero_value; variable "x" t (VFix t lng_nil)]
              [signature; instr ASSIGNsymbol BARRIERsymbol 3 None 1%nat [1%nat];
               instr ASSIGNsymbol RETURNsymbol 0 None 1%nat [1%nat];
               instr ASSIGNsymbol EXITsymbol 0 None 1%nat [1%nat]; end_instr] 0 true 8 in
  let run t := callMAL extern (fun _ => [128]) no_native no_native (fun _ _ => []) [] 10 (mb t) [] tt in
  run TYPE_wrd = Done (Result None (Some [VFix TYPE_wrd lng_nil]) tt) /\
  run TYPE_lng = Done (Result None None tt).
Proof. split; vm_compute; reflexivity. Qed.

End Cases.
