(* ===== verification/MalSlice.v ===== *)
(** * Removing instructions from a MAL block

    What a block and a slice of it, some instructions of which are gone, have
    in common: positions are renumbered by [rank], and the jumps that [chkFlow]
    stores in the slice are the old ones renumbered ([sliced_jumps]). *)

From Stdlib Require Import ZArith Lia Bool List String.
From stdpp Require Import base list.
From S2P Require Import Prelude Mal MalFlow.
Import ListNotations.

(** ** Jumps are determined by the rest *)

Definition jumps (p : InstrRecord) : bool := blockStart p || leaves p.

(** An instruction with its jump if it has a meaning. *)
Definition canon (p : InstrRecord) : InstrRecord := if jumps p then p else unjump p.

Lemma unjump_jumps p q : unjump p = unjump q -> jumps p = jumps q.
Proof.
  intros H. destruct (unjump_control _ _ H) as (E1 & _ & E2 & _). unfold jumps. congruence.
Qed.

Lemma unjump_eq p q : unjump p = unjump q -> jump p = jump q -> p = q.
Proof.
  intros H Hj. apply unjump_fields in H. destruct p, q. cbn in *.
  decompose [and] H. subst. reflexivity.
Qed.

Lemma canon_eq p q : unjump p = unjump q -> (jumps p = true -> jump p = jump q) ->
  canon p = canon q.
Proof.
  intros H Hj. unfold canon. rewrite <- (unjump_jumps _ _ H).
  destruct (jumps p); [apply unjump_eq; auto|exact H].
Qed.

Lemma exit_not_start p : blockExit p = true -> blockStart p = false.
Proof. unfold blockExit, blockStart. intros ->%Z.eqb_eq. reflexivity. Qed.

Lemma cons_eq {A} (x y : A) l r : x :: l = y :: r -> x = y /\ l = r.
Proof. intros [= -> ->]. auto. Qed.

(** A stretch that begins like another: the same case of [settled]. *)
Lemma settled_like_plain vs off p l q : settled vs off (q :: l) -> unjump p = unjump q ->
  blockStart p = false -> blockExit p = false /\ settled vs (S off) l.
Proof.
  intros H E Hs. destruct (unjump_control _ _ E) as (E1 & E2 & _).
  inversion H; subst; [split; congruence|congruence].
Qed.

Lemma settled_like_block vs off p l q : settled vs off (q :: l) -> unjump p = unjump q ->
  blockStart p = true -> exists m e r, l = m ++ e :: r /\ blockExit e = true /\
    jump q = (off + 1 + List.length m)%nat /\
    Forall (targeted (getDestVar q) off (off + 1 + List.length m)) m /\
    settled (getDestVar q :: vs) (S off) m /\ settled vs (off + List.length m + 2) r.
Proof.
  intros H E Hs. destruct (unjump_control _ _ E) as (E1 & E2 & _).
  inversion H; subst; [congruence|]. eauto 10.
Qed.

(** Two stretches with the same instructions, at a place where both end. *)
Lemma map_split {A B} (f : A -> B) m1 x1 r1 m2 x2 r2 :
  map f (m1 ++ x1 :: r1) = map f (m2 ++ x2 :: r2) -> List.length m1 = List.length m2 ->
  map f m1 = map f m2 /\ f x1 = f x2 /\ map f r1 = map f r2.
Proof.
  intros H Hl. rewrite !map_app in H. apply app_inj_1 in H; [|rewrite !length_map; exact Hl].
  destruct H as [H1 H2]. cbn in H2. injection H2 as H2 H3. auto.
Qed.

(** Where a nested stretch ends is determined. *)
Lemma settled_length vs1 o1 m1 : settled vs1 o1 m1 -> forall vs2 o2 m2 e1 r1 e2 r2,
  settled vs2 o2 m2 -> blockExit e1 = true -> blockExit e2 = true ->
  map unjump (m1 ++ e1 :: r1) = map unjump (m2 ++ e2 :: r2) -> List.length m1 = List.length m2.
Proof.
  induction 1 as [vs off|vs off p l Hs He Hl _ IH|vs off b m e l Hs He Hv Hn Hj Ht Hm IHm Hl IHl];
    intros vs2 o2 [|q m2] e1 r1 e2 r2 H2 X1 X2 E; cbn in E; apply cons_eq in E as [Eu E].
  - reflexivity.
  - destruct (settled_like_plain _ _ _ _ _ H2 Eu (exit_not_start _ X1)). congruence.
  - destruct (unjump_control _ _ Eu) as (_ & Y & _). congruence.
  - destruct (settled_like_plain _ _ _ _ _ H2 Eu Hs) as [_ H3].
    cbn [List.length]. f_equal. exact (IH _ _ _ _ _ _ _ H3 X1 X2 E).
  - destruct (unjump_control _ _ Eu) as (Y & _ & _). apply exit_not_start in X2. congruence.
  - destruct (settled_like_block _ _ _ _ _ H2 Eu Hs) as (m' & e' & r' & -> & He' & _ & _ & Hm' & Hr').
    rewrite <- !app_assoc in E. cbn [app] in E.
    assert (Em : List.length m = List.length m') by exact (IHm _ _ _ _ _ _ _ Hm' He He' E).
    destruct (map_split _ _ _ _ _ _ _ E Em) as (_ & _ & E').
    cbn [List.length]. rewrite !List.length_app. cbn [List.length]. do 2 f_equal; [exact Em|].
    f_equal. exact (IHl _ _ _ _ _ _ _ Hr' X1 X2 E').
Qed.

(** The jumps of the labels around a stretch agree. *)
Definition agreed (vs : list nat) (l1 l2 : list InstrRecord) : Prop :=
  Forall (fun v => exists b e, Forall (targeted v b e) l1 /\ Forall (targeted v b e) l2) vs.

Lemma agreed_app vs a1 b1 a2 b2 : agreed vs (a1 ++ b1) (a2 ++ b2) ->
  agreed vs a1 a2 /\ agreed vs b1 b2.
Proof.
  unfold agreed. rewrite !Forall_forall. intros H. split; intros v Hv;
    destruct (H v Hv) as (b & e & H1 & H2); apply Forall_app in H1, H2; exists b, e; tauto.
Qed.

Lemma agreed_cons vs p l1 q l2 : agreed vs (p :: l1) (q :: l2) ->
  agreed vs [p] [q] /\ agreed vs l1 l2.
Proof. apply (agreed_app vs [p] l1 [q] l2). Qed.

Lemma agreed_leave vs p q : agreed vs [p] [q] -> unjump p = unjump q -> leaves p = true ->
  In (getDestVar p) vs -> jump p = jump q.
Proof.
  unfold agreed. rewrite Forall_forall. intros H E Hl Hin.
  destruct (unjump_control _ _ E) as (_ & _ & _ & Eb & Ed).
  destruct (H (getDestVar p)) as (b & e & H1 & H2); [apply list_elem_of_In; exact Hin|].
  inversion H1 as [|? ? T1 _]; inversion H2 as [|? ? T2 _]; subst.
  destruct (T1 eq_refl) as [T3 T4]. destruct (T2 (eq_sym Ed)) as [T5 T6].
  unfold leaves in Hl. apply orb_prop in Hl. rewrite !Z.eqb_eq in Hl.
  destruct Hl as [Hl|Hl].
  - rewrite T3, T5 by congruence. reflexivity.
  - rewrite T4, T6 by congruence. reflexivity.
Qed.

Lemma settled_unique vs off l1 : settled vs off l1 -> forall l2, settled vs off l2 ->
  map unjump l1 = map unjump l2 -> agreed vs l1 l2 -> map canon l1 = map canon l2.
Proof.
  induction 1 as [vs off|vs off p l Hs He Hl _ IH|vs off b m e l Hs He Hv Hn Hj Ht Hm IHm Hl IHl];
    intros [|q l2] H2 E Ha; cbn in E; try discriminate; [reflexivity| |].
  - apply cons_eq in E as [Eu E]. destruct (settled_like_plain _ _ _ _ _ H2 Eu Hs) as [_ H3].
    destruct (agreed_cons _ _ _ _ _ Ha) as [A1 A2]. cbn. f_equal; [|apply IH; auto].
    apply canon_eq; [exact Eu|]. unfold jumps. rewrite Hs. cbn. intros Hlv.
    apply (agreed_leave vs); auto.
  - apply cons_eq in E as [Eu E].
    destruct (settled_like_block _ _ _ _ _ H2 Eu Hs)
      as (m' & e' & r' & -> & He' & Hj' & Ht' & Hm' & Hr').
    pose proof (settled_length _ _ _ Hm _ _ _ _ _ _ _ Hm' He He' E) as Em.
    destruct (map_split _ _ _ _ _ _ _ E Em) as (E1 & E2 & E3).
    destruct (unjump_control _ _ Eu) as (_ & _ & _ & _ & Ed).
    destruct (agreed_cons _ _ _ _ _ Ha) as [_ A2].
    destruct (agreed_app _ _ _ _ _ A2) as [A3 A4]. apply agreed_cons in A4. destruct A4 as [_ A5].
    cbn [map]. rewrite !map_app. cbn [map]. f_equal; [|f_equal; [|f_equal]].
    + apply canon_eq; [exact Eu|]. intros _. congruence.
    + rewrite <- Ed in *. rewrite <- Em in Ht'. apply IHm; auto. constructor; [eauto|exact A3].
    + apply canon_eq; [exact E2|]. unfold jumps. rewrite (exit_not_start _ He).
      unfold leaves, blockExit in *. apply Z.eqb_eq in He. rewrite He. discriminate.
    + apply IHl; auto. rewrite Em. exact Hr'.
Qed.

(** ** Slices *)

Section Slice.
Variable keep : nat -> bool.

(** How many of the instructions before [n] are kept: the new position. *)
Fixpoint rank (n : nat) : nat :=
  match n with O => O | S n => (rank n + if keep n then 1 else 0)%nat end.

Fixpoint slice (off : nat) (l : list InstrRecord) : list InstrRecord :=
  match l with
  | [] => []
  | p :: l => if keep off then p :: slice (S off) l else slice (S off) l
  end.

Definition renumber (p : InstrRecord) : InstrRecord := set_jump p (rank (jump p)).

(** What is removed does not change the flow of control. *)
Definition removes_plain (off : nat) (l : list InstrRecord) : Prop :=
  forall i p, l !! i = Some p -> keep (off + i)%nat = false ->
  blockStart p = false /\ blockExit p = false /\ leaves p = false.

Lemma rank_succ n : rank (S n) = (rank n + if keep n then 1 else 0)%nat.
Proof. reflexivity. Qed.

Lemma slice_length l : forall off, (rank off + List.length (slice off l) = rank (off + List.length l))%nat.
Proof.
  induction l as [|p l IH]; intros off; cbn [slice List.length]; [rewrite !Nat.add_0_r; reflexivity|].
  specialize (IH (S off)). rewrite (rank_succ off) in IH.
  replace (off + S (List.length l))%nat with (S off + List.length l)%nat by lia.
  rewrite <- IH. destruct (keep off); cbn [List.length]; lia.
Qed.

Lemma slice_app a b : forall off, slice off (a ++ b) = slice off a ++ slice (off + List.length a) b.
Proof.
  induction a as [|p a IH]; intros off; cbn; [rewrite Nat.add_0_r; reflexivity|].
  rewrite IH. replace (off + S (List.length a))%nat with (S off + List.length a)%nat by lia.
  destruct (keep off); reflexivity.
Qed.

Lemma slice_lookup l : forall off i p, l !! i = Some p -> keep (off + i)%nat = true ->
  slice off l !! (rank (off + i) - rank off)%nat = Some p.
Proof.
  induction l as [|q l IH]; intros off [|i] p Hi Hk; try discriminate; cbn in Hi.
  - injection Hi as <-. rewrite Nat.add_0_r, Nat.sub_diag in *. cbn. rewrite Hk. reflexivity.
  - replace (off + S i)%nat with (S off + i)%nat in * by lia. specialize (IH (S off) i p Hi Hk).
    pose proof (slice_length (take i l) (S off)) as Hl.
    rewrite length_take_le in Hl by (apply lookup_lt_Some in Hi; lia).
    rewrite (rank_succ off) in IH, Hl. cbn [slice]. destruct (keep off).
    + replace (rank (S off + i) - rank off)%nat
        with (S (rank (S off + i) - (rank off + 1)))%nat by lia. exact IH.
    + replace (rank off + 0)%nat with (rank off) in IH by lia. exact IH.
Qed.

Lemma slice_Forall (P : InstrRecord -> Prop) l : Forall P l -> forall off, Forall P (slice off l).
Proof. induction 1; intros off; cbn; [constructor|]. destruct (keep off); auto. Qed.

Lemma removes_plain_app off a b : removes_plain off (a ++ b) ->
  removes_plain off a /\ removes_plain (off + List.length a) b.
Proof.
  intros H. split; intros i p Hi Hk.
  - apply (H i p); [apply lookup_app_l_Some; exact Hi|exact Hk].
  - apply (H (List.length a + i)%nat p); [|rewrite Nat.add_assoc; exact Hk].
    rewrite lookup_app_r by lia. rewrite Nat.add_comm, Nat.add_sub. exact Hi.
Qed.

Lemma removes_plain_cons off p l : removes_plain off (p :: l) -> removes_plain (S off) l.
Proof.
  intros H. replace (S off) with (off + List.length [p])%nat by (cbn; lia).
  apply (removes_plain_app off [p] l H).
Qed.

Lemma kept_head off p l : removes_plain off (p :: l) ->
  blockStart p = true \/ blockExit p = true -> keep off = true.
Proof.
  intros H Hp. destruct (keep off) eqn:E; [reflexivity|].
  destruct (H 0%nat p eq_refl) as (H1 & H2 & _); [rewrite Nat.add_0_r; exact E|].
  destruct Hp; congruence.
Qed.

Lemma targeted_renumber v b e p : keep b = true -> targeted v b e p ->
  targeted v (rank b) (rank e) (renumber p).
Proof.
  intros Hb H Hd. destruct (H Hd) as [H1 H2]. cbn. split; intros Hx.
  - rewrite H1 by exact Hx. reflexivity.
  - rewrite H2 by exact Hx. rewrite Nat.add_1_r. cbn. rewrite Hb. reflexivity.
Qed.

Lemma settled_slice vs off l : settled vs off l -> removes_plain off l ->
  settled vs (rank off) (map renumber (slice off l)).
Proof.
  induction 1 as [vs off|vs off p l Hs He Hl _ IH|vs off b m e l Hs He Hv Hn Hj Ht Hm IHm Hl IHl];
    intros Hr; cbn [slice map].
  - constructor.
  - specialize (IH (removes_plain_cons _ _ _ Hr)). rewrite rank_succ in IH. destruct (keep off) eqn:Hk.
    + cbn [map]. rewrite Nat.add_1_r in IH. apply settled_plain; auto.
    + rewrite Nat.add_0_r in IH. exact IH.
  - pose proof (kept_head _ _ _ Hr (or_introl Hs)) as Hk. rewrite Hk. cbn [map].
    pose proof (removes_plain_cons _ _ _ Hr) as Hr1.
    destruct (removes_plain_app _ _ _ Hr1) as [Hrm Hr2].
    pose proof (kept_head _ _ _ Hr2 (or_intror He)) as Hke.
    rewrite slice_app, map_app. cbn [slice]. rewrite Hke. cbn [map].
    pose proof (slice_length m (S off)) as Hlen. rewrite (rank_succ off), Hk in Hlen.
    assert (Hend : rank (off + 1 + List.length m)
                   = (rank off + 1 + List.length (map renumber (slice (S off) m)))%nat).
    { rewrite length_map. replace (off + 1 + List.length m)%nat
        with (S off + List.length m)%nat by lia. lia. }
    apply settled_block; auto.
    + cbn [renumber set_jump jump]. rewrite Hj. exact Hend.
    + rewrite <- Hend. apply Forall_map. apply slice_Forall.
      eapply Forall_impl; [exact Ht|]. intros p Hp. apply targeted_renumber; auto.
    + specialize (IHm Hrm). rewrite rank_succ, Hk, Nat.add_1_r in IHm. exact IHm.
    + replace (off + List.length m + 2)%nat with (S (S off + List.length m)) in IHl by lia.
      specialize (IHl (removes_plain_cons _ _ _ Hr2)).
      rewrite rank_succ, Hke in IHl. rewrite length_map.
      replace (rank off + List.length (slice (S off) m) + 2)%nat
        with (rank (S off + List.length m) + 1)%nat by lia. exact IHl.
Qed.

(** The jumps of a checked slice are the old ones, renumbered. *)
Lemma sliced_jumps l l' : settled [] 0 l -> removes_plain 0 l -> settled [] 0 l' ->
  map unjump l' = map unjump (slice 0 l) ->
  map canon l' = map canon (map renumber (slice 0 l)).
Proof.
  intros Hl Hr Hl' E. apply (settled_unique [] 0); auto.
  - apply (settled_slice [] 0); auto.
  - rewrite E, map_map. apply map_ext. reflexivity.
  - constructor.
Qed.

(** ** The check of a slice

    Step by step it does what the check of the block does. *)

Definition renumber_open (o : list (nat * nat)) : list (nat * nat) :=
  map (fun q => (rank (fst q), snd q)) o.

Record flow_like (st st' : flow) : Prop := {
  like_opened : opened st' = renumber_open (opened st);
  like_errs : errs st' = errs st;
  like_retseen : retseen st' = retseen st;
  like_yieldseen : yieldseen st' = yieldseen st;
  like_running : halted st = false /\ halted st' = false }.

Lemma find_block_renumber v o :
  match find_block v (renumber_open o), find_block v o with
  | Some (b', o'), Some (b, o2) => o' = renumber_open o2
  | None, None => True
  | _, _ => False
  end.
Proof.
  induction o as [|[b w] o IH]; cbn; [exact I|]. destruct (Nat.eqb w v); [reflexivity|exact IH].
Qed.

Lemma existsb_renumber v o :
  existsb (fun b : nat * nat => Nat.eqb v (snd b)) (renumber_open o) =
  existsb (fun b : nat * nat => Nat.eqb v (snd b)) o.
Proof.
  unfold renumber_open. induction o as [|q o IH]; cbn; [reflexivity|]. rewrite IH. reflexivity.
Qed.

(** A step that finds no new error. *)
Definition clean (st st' : flow) : Prop := errs st' = errs st /\ halted st' = false.

Variables mb mb' : MalBlkRecord.
Hypothesis same_types : forall v, getVarType mb' v = getVarType mb v.

Lemma return_errors_like ps ps' p p' : unjump ps' = unjump ps -> unjump p' = unjump p ->
  return_errors mb' ps' p' = return_errors mb ps p.
Proof.
  intros Es%unjump_fields Ep%unjump_fields. decompose [and] Es. decompose [and] Ep.
  unfold return_errors, wrong_returns, getArgType, getArg.
  replace (retc ps') with (retc ps) by auto. replace (retc p') with (retc p) by auto.
  replace (typechk ps') with (typechk ps) by auto.
  replace (argv ps') with (argv ps) by auto. replace (argv p') with (argv p) by auto.
  destruct (negb _); [reflexivity|]. destruct (_ =? _); [|reflexivity].
  do 2 f_equal. apply filter_ext. intros e. rewrite !same_types. reflexivity.
Qed.

Lemma flow_like_step ps ps' i st st' : flow_like st st' ->
  unjump ps' = unjump ps -> unjump (code st' !!! rank i) = unjump (code st !!! i) ->
  (i = 0 -> rank i = 0)%nat -> clean st (flow_step mb ps i st) ->
  flow_like (flow_step mb ps i st) (flow_step mb' ps' (rank i) st').
Proof.
  intros [Ho He Hrs Hy [Hh Hh']] Hps Hp Hi [Hc1 Hc2].
  pose proof (return_errors_like ps ps' _ _ Hps Hp) as Hret.
  destruct (unjump_control _ _ Hp) as (_ & _ & _ & Eb & Ed).
  pose proof (unjump_fields _ _ Hp) as Ef. pose proof (unjump_fields _ _ Hps) as Efs.
  destruct st as [o c n rs ys fx m h]. destruct st' as [o' c' n' rs' ys' fx' m' h'].
  cbn [opened errs retseen yieldseen halted code] in *. subst.
  pose proof (find_block_renumber (getDestVar (c !!! i)) o) as Hf.
  unfold flow_step, isaSignature in *. cbn zeta in *. cbn [errs halted] in *.
  replace (token (c' !!! rank i)) with (token (c !!! i)) by (symmetry; apply Ef).
  replace (token ps') with (token ps) by (symmetry; apply Efs).
  rewrite Eb, Ed, Hret, existsb_renumber.
  replace (List.length (renumber_open o)) with (List.length o) by (symmetry; apply length_map).
  destruct (_ || _); [|destruct (barrier (c !!! i) =? EXITsymbol)].
  - destruct (Nat.eqb (List.length o) DEPTH); [discriminate|].
    destruct (existsb _ o); [discriminate|]. constructor; auto.
  - destruct o as [|[b1 v1] o1]; [cbn in Hc1; lia|].
    change (renumber_open ((b1, v1) :: o1)) with ((rank b1, v1) :: renumber_open o1) in *.
    destruct (Nat.eqb v1 (getDestVar (c !!! i))) eqn:E1; rewrite ?E1; [|destruct (find_block _ _) as [[? ?]|]; cbn in Hc1; lia].
    destruct (find_block _ (_ :: renumber_open o1)) as [[b' o']|];
      destruct (find_block _ (_ :: o1)) as [[b2 o2]|]; try contradiction; constructor; auto.
  - destruct (_ || _).
    + destruct (find_block _ (renumber_open o)) as [[b' o']|];
      destruct (find_block _ o) as [[b2 o2]|]; try contradiction; constructor; auto; cbn in *; lia.
    + destruct (_ || _); [|destruct (_ =? RAISEsymbol); [constructor; auto|]].
      * constructor; auto. destruct o; reflexivity.
      * destruct (COMMANDsymbol <=? token (c !!! i)), (token (c !!! i) =? REMsymbol);
          cbn [negb andb] in *; try solve [constructor; auto].
        destruct (Nat.eqb_spec i 0) as [E0|]; [|cbn in Hc1; lia]. rewrite Hi by exact E0.
        constructor; auto.
Qed.

(** An instruction that is removed changes nothing there. *)
Lemma flow_like_skip ps i st st' p : flow_like st st' -> code st !!! i = p -> barrier p = 0 ->
  clean st (flow_step mb ps i st) -> flow_like (flow_step mb ps i st) st'.
Proof.
  intros [Ho He Hrs Hy [Hh Hh']] Hp Hb [Hc1 Hc2]. destruct st as [o c n rs ys fx m h].
  cbn [opened errs retseen yieldseen halted code] in *. unfold flow_step in *. cbn zeta in *.
  rewrite Hp, Hb in *. cbn -[Z.add] in *.
  destruct (_ && _); cbn [errs] in *; [lia|]. constructor; auto.
Qed.

Lemma flow_step_unjump mb1 ps i st :
  map unjump (code (flow_step mb1 ps i st)) = map unjump (code st).
Proof.
  assert (H : forall v b e c, map unjump (close_block v b e c) = map unjump c).
  { intros v b e c. unfold close_block. change (@map) with (@list_fmap).
    change (unjump <$> imap (retarget v b e) c = unjump <$> c).
    rewrite fmap_imap. transitivity (imap (fun _ => unjump) c); [|apply (imap_const unjump)].
    apply imap_ext. intros k p _. unfold compose, retarget.
    repeat match goal with |- context [if ?b then _ else _] => destruct b end; reflexivity. }
  destruct st as [o c n rs ys fx m h]. unfold flow_step.
  repeat match goal with
  | |- context [if ?b then _ else _] => destruct b
  | |- context [match ?x with Some _ => _ | None => _ end] => destruct x as [[? ?]|]
  | |- context [match ?x with [] => _ | _ :: _ => _ end] => destruct x as [|[? ?] ?]
  end; cbn [code]; auto.
Qed.

Lemma map_unjump_lookup l l' i : map unjump l = map unjump l' ->
  unjump (l !!! i) = unjump (l' !!! i).
Proof.
  intros H. rewrite !list_lookup_total_alt.
  apply (f_equal (fun x => x !! i)) in H. rewrite !list_lookup_fmap in H.
  destruct (l !! i), (l' !! i); [apply (inj Some) in H; exact H|discriminate|discriminate|reflexivity].
Qed.

Hypothesis first_kept : keep 0 = true.
Hypothesis same_code : map unjump (stmt mb') = map unjump (slice 0 (stmt mb)).
Hypothesis removed_plain : forall i p, stmt mb !! i = Some p -> keep i = false -> barrier p = 0.

Lemma slice_unjump i : (i < stop mb)%nat -> keep i = true ->
  unjump (stmt mb' !!! rank i) = unjump (stmt mb !!! i).
Proof.
  intros Hi Hk. rewrite (map_unjump_lookup _ _ _ same_code).
  destruct (lookup_lt_is_Some_2 (stmt mb) i Hi) as [p Hp].
  pose proof (slice_lookup (stmt mb) 0 i p Hp Hk) as H. cbn in H. rewrite Nat.sub_0_r in H.
  rewrite (list_lookup_total_correct _ _ _ H), (list_lookup_total_correct _ _ _ Hp). reflexivity.
Qed.

Lemma flow_like_loop ps ps' n : unjump ps' = unjump ps -> forall i st st',
  (i + n <= stop mb)%nat -> flow_like st st' ->
  map unjump (code st) = map unjump (stmt mb) -> map unjump (code st') = map unjump (stmt mb') ->
  errs (flow_loop mb ps (seq i n) st) = errs st ->
  halted (flow_loop mb ps (seq i n) st) = false ->
  flow_like (flow_loop mb ps (seq i n) st)
            (flow_loop mb' ps' (seq (rank i) (rank (i + n) - rank i)) st').
Proof.
  intros Hps. induction n as [|n IH]; intros i st st' Hn Hl Hc Hc' He Hh.
  - rewrite Nat.add_0_r, Nat.sub_diag. exact Hl.
  - destruct (like_running _ _ Hl) as [Hr Hr']. cbn [seq flow_loop] in *. rewrite Hr in *.
    pose proof (flow_step_errs mb ps i st) as [E1 E2].
    pose proof (flow_loop_errs mb ps (seq (S i) n) (flow_step mb ps i st)) as E3.
    assert (Hclean : clean st (flow_step mb ps i st)).
    { split; [lia|]. destruct (halted (flow_step mb ps i st)) eqn:Eh; [|reflexivity].
      specialize (E2 eq_refl). lia. }
    pose proof (map_unjump_lookup _ _ i Hc) as Hp.
    replace (i + S n)%nat with (S i + n)%nat by lia.
    destruct (keep i) eqn:Hk.
    + pose proof (slice_unjump i ltac:(lia) Hk) as Hs.
      pose proof (map_unjump_lookup _ _ (rank i) Hc') as Hp'.
      assert (Hstep : flow_like (flow_step mb ps i st) (flow_step mb' ps' (rank i) st')).
      { apply flow_like_step; auto; [congruence|intros ->; reflexivity]. }
      specialize (IH (S i) _ _ ltac:(lia) Hstep).
      rewrite !flow_step_unjump in IH. specialize (IH Hc Hc').
      destruct Hclean as [Hc1 Hc2]. specialize (IH ltac:(lia) Hh).
      pose proof (slice_length (take n (drop (S i) (stmt mb))) (S i)) as Hlen.
      rewrite length_take, length_drop in Hlen. unfold stop in *.
      replace (n `min` (List.length (stmt mb) - S i))%nat with n in Hlen by lia.
      rewrite (rank_succ i), Hk in Hlen, IH.
      replace (rank (S i + n) - rank i)%nat
        with (S (rank (S i + n) - (rank i + 1)))%nat by lia.
      cbn [seq flow_loop]. rewrite Hr'. rewrite <- (Nat.add_1_r (rank i)). exact IH.
    + assert (Hb : barrier (code st !!! i) = 0).
      { destruct (lookup_lt_is_Some_2 (stmt mb) i) as [p Ep]; [unfold stop in *; lia|].
        apply unjump_fields in Hp. destruct Hp as (_ & -> & _).
        rewrite (list_lookup_total_correct _ _ _ Ep). eapply removed_plain; eauto. }
      pose proof (flow_like_skip ps i st st' _ Hl eq_refl Hb Hclean) as Hstep.
      specialize (IH (S i) _ _ ltac:(lia) Hstep).
      rewrite !flow_step_unjump in IH. destruct Hclean as [Hc1 Hc2].
      specialize (IH Hc Hc' ltac:(lia) Hh). rewrite (rank_succ i), Hk, Nat.add_0_r in IH. exact IH.
Qed.

Lemma flow_loop_halted mb1 ps l : forall st, halted st = false ->
  halted (flow_loop mb1 ps l st) = true -> errs st < errs (flow_loop mb1 ps l st).
Proof.
  induction l as [|i l IH]; intros st H0 H; cbn [flow_loop] in *; [congruence|].
  rewrite H0 in *. pose proof (flow_step_errs mb1 ps i st) as [E1 E2].
  destruct (halted (flow_step mb1 ps i st)) eqn:Eh.
  - specialize (E2 eq_refl).
    pose proof (flow_loop_errs mb1 ps l (flow_step mb1 ps i st)). lia.
  - specialize (IH _ Eh H). lia.
Qed.

Lemma slice_stop : stop mb' = rank (stop mb).
Proof.
  apply (f_equal (@List.length _)) in same_code. rewrite !length_map in same_code.
  pose proof (slice_length (stmt mb) 0) as H. cbn in H. unfold stop. lia.
Qed.

Lemma final_errors_like ps ps' st st' : flow_like st st' -> unjump ps' = unjump ps ->
  final_errors mb' ps' st' = final_errors mb ps st.
Proof.
  intros [Ho He Hrs Hy _] Hps%unjump_fields. unfold final_errors, isaSignature, getArgType, getArg.
  destruct Hps as (Et & _ & _ & _ & _ & _ & _ & _ & _ & Ea).
  rewrite Et, Ea, Hrs, Hy, !same_types, Ho. unfold renumber_open. rewrite length_map. reflexivity.
Qed.

(** The check of a slice finds no errors if that of the block found none. *)
Lemma chkFlow_slice : errors mb = 0 -> errors (chkFlow mb) = 0 -> errors mb' = 0 ->
  (0 < stop mb)%nat -> errors (chkFlow mb') = 0.
Proof.
  intros H0 He H0' Hpos.
  assert (Hps : unjump (getInstrPtr mb' 0) = unjump (getInstrPtr mb 0))
    by (apply (slice_unjump 0); auto).
  unfold chkFlow in *. rewrite H0 in He. rewrite H0'. cbn [negb Z.eqb] in *.
  set (st0 := Flow [] (stmt mb) 0 false false true (blk_maxarg mb) false) in *.
  set (st0' := Flow [] (stmt mb') 0 false false true (blk_maxarg mb') false) in *.
  set (ps := getInstrPtr mb 0) in *. set (ps' := getInstrPtr mb' 0) in *.
  pose proof (flow_loop_errs mb ps (seq 0 (stop mb)) st0) as Hge. cbn [errs st0] in Hge.
  pose proof (flow_loop_halted mb ps (seq 0 (stop mb)) st0 eq_refl) as Hhalt. cbn [errs st0] in Hhalt.
  pose proof (final_errors_open mb ps (flow_loop mb ps (seq 0 (stop mb)) st0)) as Hfin.
  destruct (halted (flow_loop mb ps (seq 0 (stop mb)) st0)) eqn:Hh; cbn [errors] in He.
  { specialize (Hhalt eq_refl). lia. }
  assert (Hlike0 : flow_like st0 st0') by (constructor; auto).
  pose proof (flow_like_loop ps ps' (stop mb) Hps 0 st0 st0' ltac:(lia) Hlike0 eq_refl eq_refl) as H.
  cbn [errs st0 rank Nat.add] in H. specialize (H ltac:(lia) Hh). rewrite Nat.sub_0_r in H.
  rewrite <- slice_stop in H. rewrite (proj2 (like_running _ _ H)). cbn [errors].
  rewrite (like_errs _ _ H), (final_errors_like ps ps' _ _ H Hps). exact He.
Qed.

End Slice.
