(* ===== verification/MalScope.v ===== *)
(** * Declarations in a slice of a MAL block

    [chkDeclarations] of mal_function.c once more: a block from which plain
    instructions are removed whose results are not used has no new errors
    ([chkDeclarations_slice]), and flags that are left from an earlier check do
    not make errors either ([chkDeclarations_stale]).  Both follow from a
    simulation of one check by another ([sim]). *)

From Stdlib Require Import ZArith Lia Bool List String.
From stdpp Require Import base list.
From S2P Require Import Prelude Mal MalFlow MalDecl MalSlice.
Import ListNotations.

(** ** What the check knows of a variable

    Whether it is initialized, and the block that declares it. *)

Definition cell (st : decls) (i : nat) : bool * Z := (init (dvars st !!! i), decl st !!! i).

Definition fits (st : decls) (i : nat) : Prop := (i < List.length (dvars st))%nat.

Definition catching (p : InstrRecord) : bool := barrier p =? CATCHsymbol.

Definition use_cell (p : InstrRecord) (bs : list Z) (c : bool * Z) : bool * Z :=
  (opens_scope p || fst c,
   if (snd c =? 0) && catching p then outermost bs else snd c).

Definition bad_cell (p : InstrRecord) (bs : list Z) (given : bool) (c : bool * Z) : bool :=
  if snd c =? 0 then negb (catching p) && negb given && negb (fst c)
  else negb (fst c) && negb (existsb (Z.eqb (snd c)) bs).

Definition define_cell (p : InstrRecord) (bs : list Z) (c : bool * Z) : bool * Z :=
  let d := if fst c && (snd c =? 0) then outermost bs else snd c in
  (true, if d =? 0 then if catching p then outermost bs else innermost bs else d).

Definition end_cell (b : Z) (c : bool * Z) : bool * Z :=
  if snd c =? b then (false, 0) else c.

Lemma insert_total_in (l : list Z) i j x : (j < List.length l)%nat ->
  <[i := x]> l !!! j = if Nat.eqb j i then x else l !!! j.
Proof.
  intros H. destruct (Nat.eqb_spec j i) as [-> |Hn].
  - apply list_lookup_total_insert_eq. exact H.
  - apply list_lookup_total_insert_ne. auto.
Qed.

Lemma given_unflag v w : unflag v = unflag w ->
  constant v = constant w /\ typevar v = typevar w /\ props v = props w.
Proof. destruct v, w. unfold unflag. cbn. intros H. injection H. auto. Qed.

(** The operations, variable by variable. *)
Lemma cell_operand p st l i : aligned st -> fits st i ->
  cell (use_operand p st l) i =
  if Nat.eqb i l then use_cell p (blks st) (cell st i) else cell st i.
Proof.
  destruct st as [vs dc bs id n h]. unfold aligned, fits, cell, use_cell, catching. cbn.
  intros Ha Hi. assert (E : forall b, (i < List.length (alter (set_used b) l vs))%nat)
    by (intros; rewrite length_alter; exact Hi).
  destruct (opens_scope p); rewrite ?lookup_total_alter_in by auto;
    destruct (_ && _) eqn:Eb; rewrite ?insert_total_in by lia;
    destruct (Nat.eqb_spec i l) as [-> |]; rewrite ?Eb; reflexivity.
Qed.

Lemma cell_target p st l i : aligned st -> fits st i ->
  cell (define_target p st l) i =
  if Nat.eqb i l then define_cell p (blks st) (cell st i) else cell st i.
Proof.
  destruct st as [vs dc bs id n h]. unfold aligned, fits, cell, define_cell, catching. cbn.
  intros Ha Hi. assert (E : forall b, (i < List.length (alter (set_init b) l vs))%nat)
    by (intros; rewrite length_alter; exact Hi).
  set (dc1 := if init (vs !!! l) && _ then _ else dc).
  assert (El : List.length dc1 = List.length vs)
    by (unfold dc1; destruct (_ && _); rewrite ?length_insert; exact Ha).
  assert (E1 : dc1 !!! i = if Nat.eqb i l
      then (if init (vs !!! i) && (dc !!! i =? 0) then outermost bs else dc !!! i) else dc !!! i).
  { unfold dc1. destruct (Nat.eqb_spec i l) as [-> |Hn];
      (destruct (init (vs !!! l) && _) eqn:Eb; [rewrite insert_total_in by lia|]);
      rewrite ?Nat.eqb_refl; auto. apply Nat.eqb_neq in Hn. rewrite Hn. reflexivity. }
  replace (init ((if opens_scope p then alter (set_used true) l (alter (set_init true) l vs)
                  else alter (set_init true) l vs) !!! i))
    with (if Nat.eqb i l then true else init (vs !!! i))
    by (destruct (opens_scope p); rewrite ?lookup_total_alter_in by auto;
        destruct (Nat.eqb i l); reflexivity).
  clearbody dc1. change (List.last bs 0) with (outermost bs).
  destruct (Nat.eqb_spec i l) as [-> |Hn]; f_equal.
  - rewrite E1. set (d := if _ && _ then _ else _) in *. clearbody d.
    destruct (d =? 0); [|exact E1]. rewrite insert_total_in, Nat.eqb_refl by lia. reflexivity.
  - apply Nat.eqb_neq in Hn. destruct (dc1 !!! l =? 0); [|exact E1].
    rewrite insert_total_in, Hn by lia. exact E1.
Qed.

Lemma cell_end b vs dc bs id n h i : List.length dc = List.length vs -> (i < List.length vs)%nat ->
  cell (Decls (fst (end_scope b vs dc)) (snd (end_scope b vs dc)) bs id n h) i =
  end_cell b (cell (Decls vs dc bs id n h) i).
Proof.
  unfold cell, end_cell. cbn. intros Ha Hi.
  destruct (lookup_lt_is_Some_2 vs i Hi) as [v Hv].
  destruct (lookup_lt_is_Some_2 dc i ltac:(lia)) as [d Hd].
  rewrite !list_lookup_total_alt, lookup_zip_with, list_lookup_fmap, Hv, Hd. cbn.
  destruct (d =? b); reflexivity.
Qed.

Lemma operand_bad p st l :
  derrs (use_operand p st l) = derrs st +
    if bad_cell p (blks st) (constant (dvars st !!! l) || typevar (dvars st !!! l)) (cell st l)
    then 1 else 0.
Proof.
  destruct st as [vs dc bs id n h]. unfold bad_cell, cell, catching. cbn.
  destruct (dc !!! l =? 0); cbn;
    match goal with |- context [if ?b then n + 1 else n] => destruct b end; lia.
Qed.

Lemma operand_keeps p st l :
  blks (use_operand p st l) = blks st /\ blkId (use_operand p st l) = blkId st /\
  dhalted (use_operand p st l) = dhalted st.
Proof. destruct st as [vs dc bs id n h]. auto. Qed.

Lemma target_keeps p st l :
  blks (define_target p st l) = blks st /\ blkId (define_target p st l) = blkId st /\
  dhalted (define_target p st l) = dhalted st /\ derrs (define_target p st l) = derrs st.
Proof. destruct st as [vs dc bs id n h]. auto. Qed.

(** ** One check simulates another *)

Section Sim.
(** How what the two know of a variable is related. *)
Variable R : nat -> bool * Z -> bool * Z -> Prop.

Record sim (st1 st2 : decls) : Prop := {
  sim_aligned : aligned st1 /\ aligned st2;
  sim_vars : map unflag (dvars st2) = map unflag (dvars st1);
  sim_cells : forall i, fits st1 i -> R i (cell st1 i) (cell st2 i);
  sim_blks : blks st2 = blks st1;
  sim_blkId : blkId st2 = blkId st1;
  sim_halted : dhalted st2 = dhalted st1;
  sim_errs : derrs st2 <= derrs st1 }.

Lemma sim_length st1 st2 : sim st1 st2 -> List.length (dvars st2) = List.length (dvars st1).
Proof.
  intros H. pose proof (sim_vars _ _ H) as E. apply (f_equal (@List.length _)) in E.
  rewrite !length_map in E. exact E.
Qed.

Lemma sim_fits st1 st2 i : sim st1 st2 -> fits st1 i -> fits st2 i.
Proof. unfold fits. intros H. rewrite (sim_length _ _ H). auto. Qed.

Lemma sim_fields st1 st2 i : sim st1 st2 ->
  unflag (dvars st2 !!! i) = unflag (dvars st1 !!! i).
Proof.
  intros H. pose proof (sim_vars _ _ H) as E. apply (f_equal (fun l => l !! i)) in E.
  rewrite !list_lookup_fmap in E. rewrite !list_lookup_total_alt.
  destruct (dvars st2 !! i), (dvars st1 !! i); try discriminate; [|reflexivity].
  apply (inj Some) in E. exact E.
Qed.

(** What an instruction must respect. *)
Record respects (p : InstrRecord) (bs : list Z) : Prop := {
  rs_use : forall l c d, In l (operands p) -> R l c d ->
    R l (use_cell p bs c) (use_cell p bs d) /\
    forall g, bad_cell p bs g d = true -> bad_cell p bs g c = true;
  rs_define : forall l c d, In l (targets p) -> R l c d ->
    R l (define_cell p bs c) (define_cell p bs d);
  rs_end : (1 < List.length bs)%nat -> forall l c d, R l c d ->
    R l (end_cell (innermost bs) c) (end_cell (innermost bs) d) }.

Lemma sim_operand p st1 st2 l : sim st1 st2 -> respects p (blks st1) -> In l (operands p) ->
  fits st1 l -> sim (use_operand p st1 l) (use_operand p st2 l).
Proof.
  intros H Hr Hl Hf. pose proof (sim_cells _ _ H l Hf) as Hc.
  destruct (rs_use _ _ Hr l _ _ Hl Hc) as [Hu Hb].
  destruct (operand_keeps p st1 l) as (B1 & I1 & H1), (operand_keeps p st2 l) as (B2 & I2 & H2).
  destruct (sim_aligned _ _ H) as [A1 A2].
  constructor.
  - split; apply aligned_operand; assumption.
  - rewrite (marks_same _ _ _ (marks_operand p st1 l)), (marks_same _ _ _ (marks_operand p st2 l)).
    apply (sim_vars _ _ H).
  - intros i Hi. assert (Hi' : fits st1 i).
    { unfold fits in *. rewrite (marks_length _ _ _ (marks_operand p st1 l)) in Hi. exact Hi. }
    rewrite !cell_operand by eauto using sim_fits. rewrite (sim_blks _ _ H).
    destruct (Nat.eqb_spec i l) as [-> |]; [exact Hu|]. apply (sim_cells _ _ H i Hi').
  - rewrite B1, B2. apply (sim_blks _ _ H).
  - rewrite I1, I2. apply (sim_blkId _ _ H).
  - rewrite H1, H2. apply (sim_halted _ _ H).
  - rewrite !operand_bad, (sim_blks _ _ H).
    destruct (given_unflag _ _ (sim_fields _ _ l H)) as (-> & -> & _).
    pose proof (sim_errs _ _ H). specialize (Hb (constant (dvars st1 !!! l) || typevar (dvars st1 !!! l))).
    destruct (bad_cell p (blks st1) _ (cell st2 l)); [rewrite Hb by reflexivity; lia|].
    destruct (bad_cell _ _ _ _); lia.
Qed.

Lemma sim_target p st1 st2 l : sim st1 st2 -> respects p (blks st1) -> In l (targets p) ->
  fits st1 l -> sim (define_target p st1 l) (define_target p st2 l).
Proof.
  intros H Hr Hl Hf. pose proof (rs_define _ _ Hr l _ _ Hl (sim_cells _ _ H l Hf)) as Hu.
  destruct (target_keeps p st1 l) as (B1 & I1 & H1 & E1), (target_keeps p st2 l) as (B2 & I2 & H2 & E2).
  destruct (sim_aligned _ _ H) as [A1 A2].
  constructor.
  - split; apply aligned_target; assumption.
  - rewrite (marks_same _ _ _ (marks_target p st1 l)), (marks_same _ _ _ (marks_target p st2 l)).
    apply (sim_vars _ _ H).
  - intros i Hi. assert (Hi' : fits st1 i).
    { unfold fits in *. rewrite (marks_length _ _ _ (marks_target p st1 l)) in Hi. exact Hi. }
    rewrite !cell_target by eauto using sim_fits. rewrite (sim_blks _ _ H).
    destruct (Nat.eqb_spec i l) as [-> |]; [exact Hu|]. apply (sim_cells _ _ H i Hi').
  - rewrite B1, B2. apply (sim_blks _ _ H).
  - rewrite I1, I2. apply (sim_blkId _ _ H).
  - rewrite H1, H2. apply (sim_halted _ _ H).
  - rewrite E1, E2. apply (sim_errs _ _ H).
Qed.

Lemma sim_scope p st1 st2 : sim st1 st2 -> respects p (blks st1) ->
  sim (change_scope p st1) (change_scope p st2).
Proof.
  intros H Hr. pose proof (sim_fields _ _ (getArg p 0) H) as Hf.
  destruct (given_unflag _ _ Hf) as (_ & _ & Hp).
  destruct (sim_aligned _ _ H) as [A1 A2].
  destruct (scope_marks p st1 A1) as [M1 A1'], (scope_marks p st2 A2) as [M2 A2'].
  pose proof (sim_cells _ _ H) as Hc. pose proof (sim_length _ _ H) as Hl.
  assert (Hv : map unflag (dvars (change_scope p st2)) = map unflag (dvars (change_scope p st1)))
    by (rewrite (marks_same _ _ _ M1), (marks_same _ _ _ M2); apply (sim_vars _ _ H)).
  destruct H as [_ _ _ Hb Hi Hh He].
  destruct st1 as [vs1 dc1 bs1 id1 n1 h1], st2 as [vs2 dc2 bs2 id2 n2 h2].
  cbn in Hb, Hi, Hh, He, Hp, Hl. subst bs2 id2 h2. unfold aligned, fits in *. cbn [blks] in Hr.
  revert A1' A2' Hv. unfold change_scope. rewrite Hp.
  destruct (blockStart p && _); [destruct (_ <? _)%nat|destruct (blockExit p && _ && _) eqn:Ex];
    intros A1' A2' Hv; try (constructor; cbn in *; auto; lia).
  apply andb_prop in Ex as [Ex _]. apply andb_prop in Ex as [_ Ex%Nat.ltb_lt].
  rewrite (surjective_pairing (end_scope _ vs1 dc1)), (surjective_pairing (end_scope _ vs2 dc2)) in *.
  constructor; cbn [blks blkId dhalted derrs dvars] in *; auto.
  intros i Hi. unfold fits in Hi. cbn [dvars] in Hi.
  assert (Hi' : (i < List.length vs1)%nat)
    by (cbn in A1, Hi; rewrite length_zip_with in Hi; lia).
  change (cell (Decls ?v ?d (tl bs1) ?a ?b ?c) i) with (cell (Decls v d bs1 a b c) i).
  rewrite !cell_end by (cbn in A1, A2; lia).
  apply (rs_end _ _ Hr); [lia|]. apply (Hc i Hi').
Qed.

(** All operands or targets. *)
Lemma sim_fold (f : InstrRecord -> decls -> nat -> decls) p bs l :
  (forall st v, map unflag (dvars (f p st v)) = map unflag (dvars st)) ->
  (forall st v, blks (f p st v) = blks st) ->
  (forall st1 st2 v, sim st1 st2 -> blks st1 = bs -> In v l -> fits st1 v ->
    sim (f p st1 v) (f p st2 v)) ->
  forall st1 st2, sim st1 st2 -> blks st1 = bs -> (forall v, In v l -> fits st1 v) ->
  sim (fold_left (f p) l st1) (fold_left (f p) l st2) /\
  blks (fold_left (f p) l st1) = bs /\
  List.length (dvars (fold_left (f p) l st1)) = List.length (dvars st1).
Proof.
  intros Hm Hb. induction l as [|v l IH]; intros Hf st1 st2 H Hbs Hin; cbn; [auto|].
  assert (Hl : List.length (dvars (f p st1 v)) = List.length (dvars st1)).
  { pose proof (Hm st1 v) as E. apply (f_equal (@List.length _)) in E.
    rewrite !length_map in E. exact E. }
  assert (Hs : sim (f p st1 v) (f p st2 v)) by (apply Hf; auto with datatypes).
  specialize (IH ltac:(intros; apply Hf; auto with datatypes) _ _ Hs ltac:(rewrite Hb; exact Hbs)).
  destruct IH as (H1 & H2 & H3).
  - intros w Hw. unfold fits. rewrite Hl. apply Hin. right. exact Hw.
  - rewrite Hl in H3. auto.
Qed.

(** An instruction that both checks look at. *)
Lemma sim_step p st1 st2 : sim st1 st2 -> respects p (blks st1) ->
  (forall v, In v (argv p) -> fits st1 v) -> sim (decl_step st1 p) (decl_step st2 p).
Proof.
  intros H Hr Hin. unfold decl_step. rewrite (sim_halted _ _ H).
  destruct (dhalted st1); [exact H|]. destruct (_ || _); [exact H|].
  rewrite (targets_operands p) in Hin.
  destruct (sim_fold use_operand p (blks st1) (operands p)) with (st1 := st1) (st2 := st2)
    as (H1 & B1 & L1); auto with datatypes.
  { intros st v. apply (marks_same _ _ _ (marks_operand p st v)). }
  { intros st v. apply operand_keeps. }
  { intros s1 s2 v Hs Hb. rewrite <- Hb in Hr. apply sim_operand; assumption. }
  destruct (sim_fold define_target p (blks st1) (targets p)) with
    (st1 := fold_left (use_operand p) (operands p) st1)
    (st2 := fold_left (use_operand p) (operands p) st2)
    as (H2 & B2 & _); auto with datatypes.
  { intros st v. apply (marks_same _ _ _ (marks_target p st v)). }
  { intros st v. apply target_keeps. }
  { intros s1 s2 v Hs Hb. rewrite <- Hb in Hr. apply sim_target; assumption. }
  { intros v Hv. unfold fits. rewrite L1. apply Hin. auto with datatypes. }
  destruct (barrier p =? 0); [exact H2|]. apply sim_scope; [exact H2|]. rewrite B2. exact Hr.
Qed.

End Sim.

Lemma decl_step_length p st : aligned st -> List.length (dvars (decl_step st p)) = List.length (dvars st).
Proof.
  intros Ha. destruct (dhalted st) eqn:Hh; [unfold decl_step; rewrite Hh; reflexivity|].
  apply (marks_length _ _ _ (proj1 (decl_step_marks p st Ha Hh))).
Qed.

(** The state before the first instruction behind the signature. *)
Definition decl_start (mb : MalBlkRecord) : decls :=
  Decls (var mb) (declare_all (argv (getInstrPtr mb 0)) 1 (replicate (vtop mb) 0)) [1] 1
    (errors mb) false.

Lemma chkDeclarations_start mb :
  errors (chkDeclarations mb) = derrs (fold_left decl_step (drop 1 (stmt mb)) (decl_start mb)).
Proof. reflexivity. Qed.

Lemma start_aligned mb : aligned (decl_start mb).
Proof. unfold aligned, decl_start. cbn. rewrite declare_all_length, length_replicate. reflexivity. Qed.

(** Two starts are related when their variables are. *)
Lemma sim_start R mb mb' :
  argv (getInstrPtr mb' 0) = argv (getInstrPtr mb 0) ->
  map unflag (var mb') = map unflag (var mb) -> errors mb' <= errors mb ->
  (forall i, fits (decl_start mb) i -> R i (cell (decl_start mb) i) (cell (decl_start mb') i)) ->
  sim R (decl_start mb) (decl_start mb').
Proof.
  intros Ha Hv He HR. constructor; cbn; auto using start_aligned.
Qed.

(** ** Without instructions whose results are not used *)

Section Removed.
Variable dead : nat -> Prop.

Definition live_same (i : nat) (c d : bool * Z) : Prop := ~ dead i -> c = d.

Abbreviation sim := (sim live_same).

Lemma respects_live p bs : (forall l, In l (operands p) -> ~ dead l) -> respects live_same p bs.
Proof.
  intros Hl. split.
  - intros l c d Hin H. rewrite (H (Hl l Hin)). split; [intros _; reflexivity|auto].
  - intros l c d _ H Hd. rewrite (H Hd). reflexivity.
  - intros _ l c d H Hd. rewrite (H Hd). reflexivity.
Qed.

Lemma barrier_free p : barrier p = 0 -> opens_scope p = false /\ catching p = false.
Proof. intros Hb. unfold opens_scope, blockCntrl, blockStart, catching. rewrite Hb. auto. Qed.

Lemma removed_operand p st1 st2 l : barrier p = 0 -> sim st1 st2 -> sim (use_operand p st1 l) st2.
Proof.
  intros Hp H. destruct (barrier_free p Hp) as [Ho Hc].
  destruct (operand_keeps p st1 l) as (B & I & Hh), (sim_aligned _ _ _ H) as [A1 A2].
  constructor.
  - split; [apply aligned_operand|]; assumption.
  - rewrite (marks_same _ _ _ (marks_operand p st1 l)). apply (sim_vars _ _ _ H).
  - intros i Hi. unfold fits in Hi. rewrite (marks_length _ _ _ (marks_operand p st1 l)) in Hi.
    rewrite cell_operand by assumption. pose proof (sim_cells _ _ _ H i Hi) as Hi'.
    destruct (Nat.eqb_spec i l) as [-> |]; [|exact Hi']. unfold use_cell.
    rewrite Ho, Hc, andb_false_r. destruct (cell st1 l). exact Hi'.
  - rewrite B. apply (sim_blks _ _ _ H).
  - rewrite I. apply (sim_blkId _ _ _ H).
  - rewrite Hh. apply (sim_halted _ _ _ H).
  - pose proof (sim_errs _ _ _ H). pose proof (proj1 (operand_errs p st1 l)). lia.
Qed.

Lemma removed_target p st1 st2 l : dead l -> sim st1 st2 -> sim (define_target p st1 l) st2.
Proof.
  intros Hd H. destruct (target_keeps p st1 l) as (B & I & Hh & E), (sim_aligned _ _ _ H) as [A1 A2].
  constructor.
  - split; [apply aligned_target|]; assumption.
  - rewrite (marks_same _ _ _ (marks_target p st1 l)). apply (sim_vars _ _ _ H).
  - intros i Hi. unfold fits in Hi. rewrite (marks_length _ _ _ (marks_target p st1 l)) in Hi.
    rewrite cell_target by assumption. pose proof (sim_cells _ _ _ H i Hi) as Hi'.
    destruct (Nat.eqb_spec i l) as [-> |]; [|exact Hi']. intros Hn. contradiction.
  - rewrite B. apply (sim_blks _ _ _ H).
  - rewrite I. apply (sim_blkId _ _ _ H).
  - rewrite Hh. apply (sim_halted _ _ _ H).
  - rewrite E. apply (sim_errs _ _ _ H).
Qed.

Lemma removed_step p st1 st2 : barrier p = 0 ->
  ignored p = true \/ (forall v, In v (targets p) -> dead v) ->
  sim st1 st2 -> sim (decl_step st1 p) st2.
Proof.
  intros Hp Ht H. unfold decl_step. destruct (dhalted st1); [exact H|].
  destruct Ht as [Hi|Ht]; [unfold ignored in Hi; rewrite Hi; exact H|].
  destruct (_ || _); [exact H|]. rewrite Hp. cbn [Z.eqb].
  assert (H1 : sim (fold_left (use_operand p) (operands p) st1) st2).
  { revert st1 H. induction (operands p) as [|l ls IH]; intros st1 H; cbn; [exact H|].
    apply IH. apply removed_operand; assumption. }
  revert H1. generalize (fold_left (use_operand p) (operands p) st1). clear H st1.
  revert Ht. induction (targets p) as [|l ls IH]; intros Ht st1 H; cbn; [exact H|].
  apply IH; [auto with datatypes|]. apply removed_target; auto with datatypes.
Qed.

(** An instruction of the block that stays, or goes. *)
Definition plain_slice (keep : bool) (n : nat) (p : InstrRecord) : Prop :=
  (forall v, In v (argv p) -> (v < n)%nat) /\
  if keep then ignored p = true \/ (forall l, In l (operands p) -> ~ dead l)
  else barrier p = 0 /\ (ignored p = true \/ (forall v, In v (targets p) -> dead v)).

Lemma removed_fold keep n l : forall off st1 st2,
  (forall j p, l !! j = Some p -> plain_slice (keep (off + j)%nat) n p) ->
  List.length (dvars st1) = n -> sim st1 st2 ->
  sim (fold_left decl_step l st1) (fold_left decl_step (slice keep off l) st2).
Proof.
  induction l as [|p l IH]; intros off st1 st2 Hl Hn H; cbn [slice fold_left]; [exact H|].
  destruct (Hl 0%nat p eq_refl) as [Hin Hk]. rewrite Nat.add_0_r in Hk.
  assert (Hl' : forall j q, l !! j = Some q -> plain_slice (keep (S off + j)%nat) n q).
  { intros j q Hq. replace (S off + j)%nat with (off + S j)%nat by lia. apply (Hl (S j) q Hq). }
  assert (Hn' : List.length (dvars (decl_step st1 p)) = n).
  { rewrite decl_step_length; [exact Hn|]. apply (sim_aligned _ _ _ H). }
  destruct (keep off).
  - apply IH; auto. destruct Hk as [Hi|Hlive].
    + unfold decl_step, ignored in *. rewrite Hi. destruct (dhalted st1), (dhalted st2); exact H.
    + apply sim_step; auto using respects_live.
      intros v Hv. unfold fits. rewrite Hn. apply Hin, Hv.
  - destruct Hk as [Hb Ht]. apply IH; auto. apply removed_step; assumption.
Qed.

(** The check of what is left of a block finds no more errors than that of the
    block. *)
Lemma chkDeclarations_slice keep mb mb' : keep 0%nat = true ->
  stmt mb' = slice keep 0 (stmt mb) -> map unflag (var mb') = map unflag (var mb) ->
  errors mb' <= errors mb ->
  (forall i p, stmt mb !! S i = Some p -> plain_slice (keep (S i)) (vtop mb) p) ->
  errors (chkDeclarations (clrDeclarations mb')) <= errors (chkDeclarations (clrDeclarations mb)).
Proof.
  intros H0 Hs Hv He Hp. rewrite !chkDeclarations_start.
  assert (Hc : map clear_flags (var mb') = map clear_flags (var mb)).
  { apply (f_equal (map clear_flags)) in Hv. rewrite !map_map in Hv. exact Hv. }
  assert (Hd : stmt mb' = take 1 (stmt mb) ++ slice keep 1 (drop 1 (stmt mb))).
  { rewrite Hs. destruct (stmt mb); cbn; [reflexivity|]. rewrite H0. reflexivity. }
  assert (Hi : argv (getInstrPtr mb' 0) = argv (getInstrPtr mb 0)).
  { unfold getInstrPtr. rewrite Hd. destruct (stmt mb); reflexivity. }
  assert (Hst : sim (decl_start (clrDeclarations mb)) (decl_start (clrDeclarations mb'))).
  { apply sim_start; cbn; [exact Hi|rewrite Hc; reflexivity|exact He|].
    intros i _ _. unfold decl_start, cell, clrDeclarations, vtop, getInstrPtr. cbn. rewrite Hc.
    unfold getInstrPtr in Hi. rewrite Hi. reflexivity. }
  replace (drop 1 (stmt (clrDeclarations mb'))) with (slice keep 1 (drop 1 (stmt mb)))
    by (cbn [clrDeclarations with_var stmt]; rewrite Hd; destruct (stmt mb); reflexivity).
  apply (sim_errs live_same), (removed_fold keep (vtop mb)); [|cbn; apply length_map|exact Hst].
  intros j p Hj. apply Hp. rewrite <- Hj. cbn [clrDeclarations with_var stmt].
  rewrite lookup_drop. reflexivity.
Qed.

End Removed.

(** ** With flags that are left over

    The check without [clrDeclarations] starts with variables that count as
    initialized. *)

(** The numbers of the blocks around an instruction: the outermost is 1, and the
    others are larger. *)
Definition numbered (bs : list Z) : Prop :=
  exists inner, bs = inner ++ [1] /\ Forall (fun b => 2 <= b) inner.

Lemma numbered_facts bs : numbered bs ->
  outermost bs = 1 /\ existsb (Z.eqb 1) bs = true /\ innermost bs <> 0 /\
  ((1 < List.length bs)%nat -> 2 <= innermost bs).
Proof.
  intros (inner & -> & Hi). split_and!.
  - unfold outermost. apply last_last.
  - rewrite existsb_app. apply orb_true_intro. right. reflexivity.
  - destruct Hi as [|b l Hb _]; cbn; lia.
  - destruct Hi as [|b l Hb _]; cbn; lia.
Qed.

(** A variable of which nothing is known. *)
Definition blank (c : bool * Z) : Prop := fst c = false /\ snd c = 0.

(** From the fresh flags of a variable to the ones left over: what is blank now
    is blank then, and what is declared in an inner block is declared there. *)
Definition left_over (_ : nat) (c d : bool * Z) : Prop :=
  (blank d -> blank c) /\ (snd d = 0 \/ snd d = 1 \/ snd d = snd c) /\
  (fst d = false -> snd d = 0 \/ snd d = 1).

Ltac cells :=
  repeat match goal with
  | c : (bool * Z)%type |- _ => destruct c as [? ?]
  | |- context [?a =? ?b] => destruct (Z.eqb_spec a b)
  | H : context [?a =? ?b] |- _ => destruct (Z.eqb_spec a b)
  end.

Lemma respects_left_over p bs : numbered bs -> respects left_over p bs.
Proof.
  intros Hn. destruct (numbered_facts bs Hn) as (Ho & H1 & Hi & Hl). split.
  - intros l [f1 d1] [f2 d2] _ (A & B & C). unfold left_over, blank, use_cell, bad_cell in *.
    cbn [fst snd] in *. rewrite Ho. split.
    + destruct (opens_scope p), (catching p); cbn [orb andb]; cells; subst; cbn [andb];
        intuition (try discriminate; try lia).
    + intros g. destruct (Z.eqb_spec d2 0) as [-> |Hd].
      * destruct f2; [rewrite andb_false_r; discriminate|].
        destruct A as [-> ->]; auto.
      * destruct f2; [discriminate|]. destruct (C eq_refl) as [E|E]; [lia|].
        rewrite E, H1. discriminate.
  - intros l [f1 d1] [f2 d2] _ (A & B & C). unfold left_over, blank, define_cell in *.
    cbn [fst snd] in *. rewrite Ho. 
    split; [intros [E _]; discriminate|]. split; [|discriminate].
    destruct (Z.eqb_spec d2 0) as [-> |Hd].
    + destruct f2; cbn [andb Z.eqb]; [auto|]. destruct A as [-> ->]; auto.
    + rewrite andb_false_r. apply Z.eqb_neq in Hd as Hd'. rewrite Hd'.
      destruct B as [B|[B|B]]; [lia|auto|]. subst d2. rewrite Hd', andb_false_r, Hd'. auto.
  - intros Hlen l [f1 d1] [f2 d2] (A & B & C). specialize (Hl Hlen).
    unfold left_over, blank, end_cell in *. cbn [fst snd] in *.
    destruct (Z.eqb_spec d2 (innermost bs)), (Z.eqb_spec d1 (innermost bs)); cbn [fst snd];
      intuition (try discriminate; try lia).
Qed.

(** The blocks of a program. *)
Definition block_count (ps : list InstrRecord) : Z :=
  Z.of_nat (List.length (List.filter blockStart ps)).

Lemma block_count_cons p ps :
  block_count (p :: ps) = block_count ps + if blockStart p then 1 else 0.
Proof. unfold block_count. cbn. destruct (blockStart p); cbn [List.length]; lia. Qed.

(** The numbers that are left suffice for [n] more blocks. *)
Definition scoped (n : Z) (st : decls) : Prop :=
  numbered (blks st) /\ 1 <= blkId st /\ blkId st + n < 2 ^ 15.

Lemma scoped_scope n p st : 0 <= n -> scoped (n + if blockStart p then 1 else 0) st ->
  scoped n (change_scope p st).
Proof.
  intros Hn ((inner & Hb & Hi) & H1 & H2). destruct st as [vs dc bs id m h]. cbn in Hb, H1, H2.
  unfold scoped, change_scope. destruct (blockStart p) eqn:Es; cbn [andb].
  - assert (Ex : blockExit p = false).
    { destruct (blockExit p) eqn:E; [|reflexivity]. rewrite (exit_not_start p E) in Es. discriminate. }
    destruct (negb _); [destruct (_ <? _)%nat|].
    + cbn. rewrite swrap_id by (unfold srange; lia). split; [|lia]. exists ((id + 1) :: inner).
      rewrite Hb. split; [reflexivity|]. constructor; [lia|exact Hi].
    + cbn. split; [exists inner; auto|lia].
    + rewrite Ex. cbn. split; [exists inner; auto|lia].
  - destruct (blockExit p && _ && _) eqn:Ex.
    + apply andb_prop in Ex as [Ex _]. apply andb_prop in Ex as [_ Ex%Nat.ltb_lt].
      destruct (end_scope _ vs dc). cbn. split; [|lia].
      rewrite Hb, List.length_app in Ex. rewrite Hb. destruct inner as [|b inner]; [cbn in Ex; lia|].
      exists inner. split; [reflexivity|]. inversion Hi. assumption.
    + cbn. split; [exists inner; auto|lia].
Qed.

Lemma fold_keeps {B} (g : decls -> B) (f : decls -> nat -> decls) l :
  (forall st v, g (f st v) = g st) -> forall st, g (fold_left f l st) = g st.
Proof.
  intros H. induction l as [|v l IH]; intros st; cbn; [reflexivity|]. rewrite IH. apply H.
Qed.

Lemma scoped_step n p st : 0 <= n -> scoped (n + if blockStart p then 1 else 0) st ->
  scoped n (decl_step st p).
Proof.
  intros Hn H. assert (H' : scoped n st)
    by (destruct H as (H1 & H2 & H3); repeat split; auto; destruct (blockStart p); lia).
  unfold decl_step. destruct (dhalted st); [exact H'|]. destruct (_ || _); [exact H'|].
  assert (E : forall m, scoped m st ->
    scoped m (fold_left (define_target p) (targets p) (fold_left (use_operand p) (operands p) st))).
  { intros m. unfold scoped. rewrite !(fold_keeps blks), !(fold_keeps blkId); auto;
      intros s v; solve [apply target_keeps|apply operand_keeps]. }
  destruct (barrier p =? 0); [apply E, H'|]. apply scoped_scope; [exact Hn|apply E, H].
Qed.

Lemma left_over_fold n l : forall st1 st2,
  (forall p, In p l -> forall v, In v (argv p) -> (v < n)%nat) ->
  List.length (dvars st1) = n -> scoped (block_count l) st1 -> sim left_over st1 st2 ->
  sim left_over (fold_left decl_step l st1) (fold_left decl_step l st2).
Proof.
  induction l as [|p l IH]; intros st1 st2 Hin Hn Hs H; cbn [fold_left]; [exact H|].
  rewrite block_count_cons in Hs. apply IH.
  - intros q Hq. apply Hin. right. exact Hq.
  - rewrite decl_step_length; [exact Hn|]. apply (sim_aligned _ _ _ H).
  - apply scoped_step; [unfold block_count; lia|exact Hs].
  - apply sim_step; [exact H|apply respects_left_over, Hs|].
    intros v Hv. unfold fits. rewrite Hn. apply (Hin p); [left; reflexivity|exact Hv].
Qed.

(** Jumps do not matter. *)
Lemma fold_unjump l : forall st,
  fold_left decl_step l st = fold_left decl_step (map unjump l) st.
Proof. induction l as [|p l IH]; intros st; cbn [fold_left map]; [reflexivity|]. apply IH. Qed.

Lemma declared_signature l : forall dc i, (forall d, In d dc -> d = 0 \/ d = 1) ->
  (i < List.length dc)%nat -> declare_all l 1 dc !!! i = 0 \/ declare_all l 1 dc !!! i = 1.
Proof.
  unfold declare_all. induction l as [|v l IH]; intros dc i Hd Hi; cbn [fold_left].
  - apply Hd. apply list_elem_of_In. apply list_elem_of_lookup_total_2. exact Hi.
  - apply IH; [|rewrite length_insert; exact Hi]. intros d Hin.
    apply list_elem_of_In, list_elem_of_lookup in Hin. destruct Hin as [j Hj].
    rewrite list_lookup_insert in Hj. case_decide; [right; congruence|].
    apply Hd, list_elem_of_In, list_elem_of_lookup. eauto.
Qed.

(** A check finds no more errors with the flags that are left over than without
    them, if the numbers of the blocks fit in a short integer. *)
Lemma chkDeclarations_stale mb mb' :
  map unjump (stmt mb') = map unjump (stmt mb) ->
  map unflag (var mb') = map unflag (map clear_flags (var mb)) -> errors mb' <= errors mb ->
  (forall p, In p (drop 1 (stmt mb)) -> forall v, In v (argv p) -> (v < vtop mb)%nat) ->
  block_count (drop 1 (stmt mb)) < 2 ^ 15 - 1 ->
  errors (chkDeclarations mb') <= errors (chkDeclarations (clrDeclarations mb)).
Proof.
  intros Hs Hv He Hin Hn. rewrite !chkDeclarations_start, (fold_unjump (drop 1 (stmt mb'))).
  rewrite <- skipn_map, Hs, skipn_map, <- fold_unjump.
  assert (Hl : vtop mb' = vtop mb).
  { apply (f_equal (@List.length _)) in Hv. rewrite !length_map in Hv. exact Hv. }
  assert (Ha : argv (getInstrPtr mb' 0) = argv (getInstrPtr mb 0)).
  { unfold getInstrPtr. rewrite !list_lookup_total_alt. apply (f_equal (fun l => l !! 0%nat)) in Hs.
    rewrite !list_lookup_fmap in Hs. destruct (stmt mb' !! 0%nat), (stmt mb !! 0%nat);
      try discriminate; [|reflexivity].
    apply (inj Some), (f_equal argv) in Hs. exact Hs. }
  apply (sim_errs left_over), (left_over_fold (vtop mb)); [exact Hin|cbn; apply length_map| |].
  - split; [exists []; auto|]. cbn [decl_start blkId clrDeclarations with_var stmt]. lia.
  - apply sim_start; [exact Ha|exact Hv|exact He|]. intros i Hi. unfold fits in Hi.
    cbn in Hi. rewrite length_map in Hi. unfold left_over, blank, cell, decl_start.
    cbn [dvars decl clrDeclarations with_var var fst snd].
    replace (init (map clear_flags (var mb) !!! i)) with false
      by (rewrite list_lookup_total_alt, list_lookup_fmap;
          destruct (lookup_lt_is_Some_2 (var mb) i Hi) as [x ->]; reflexivity).
    replace (vtop (clrDeclarations mb)) with (vtop mb)
      by (unfold vtop; cbn; rewrite length_map; reflexivity).
    change (getInstrPtr (clrDeclarations mb) 0) with (getInstrPtr mb 0). rewrite Hl, Ha.
    split; [intros [_ H]; auto|]. split; [auto|]. intros _. apply declared_signature.
    + intros d Hd. apply list_elem_of_In, elem_of_replicate in Hd. tauto.
    + rewrite length_replicate. exact Hi.
Qed.
