(* ===== verification/MalSim.v ===== *)
(** * Running a slice of a MAL block

    If the instructions that are gone have no effects, and write variables only
    that no other instruction reads, then the interpreter does the same with
    the slice as with the block: the same exceptions but for the positions in
    them, the same results and the same effects ([slice_runs]). *)

From Stdlib Require Import ZArith Lia Bool List String.
From stdpp Require Import base list.
From S2P Require Import Prelude Mal MalFlow MalDecl MalInterp MalSlice.
Import ListNotations.

(** ** The same but for positions *)

Fixpoint forget_pc (e : exception) : exception :=
  match e with
  | Script _ t prev msg =>
    Script 0 t (match prev with Some q => Some (forget_pc q) | None => None end) msg
  | e => e
  end.

Definition like_ret (r r' : retval) : Prop :=
  match r, r' with
  | NoError, NoError => True
  | Freed, Freed => True
  | Failed e, Failed e' => forget_pc e = forget_pc e'
  | _, _ => False
  end.

Inductive like_outcome {A} (R : A -> A -> Prop) : outcome A -> outcome A -> Prop :=
| like_done a a' : R a a' -> like_outcome R (Done a) (Done a')
| like_undefined : like_outcome R Undefined Undefined
| like_factory : like_outcome R Factory Factory
| like_fuel : like_outcome R OutOfFuel OutOfFuel.

Lemma like_bind {A B} (R : A -> A -> Prop) (Q : B -> B -> Prop) x x' f f' :
  like_outcome R x x' -> (forall a a', R a a' -> like_outcome Q (f a) (f' a')) ->
  like_outcome Q (obind x f) (obind x' f').
Proof. intros [a a' H| | |] Hf; cbn; [auto|constructor|constructor|constructor]. Qed.

Definition like_result {W} (r r' : run_result (W := W)) : Prop :=
  option_map forget_pc (rret r) = option_map forget_pc (rret r') /\
  returned r = returned r' /\ rworld r = rworld r'.

Section Sim.
Context {W : Type}.
Variable ATOMextern : Z -> bool.
Variable ATOMnil : Z -> list Z.
Variable commands : nat -> native (W := W).
Variable factories : nat -> native (W := W).
Variable listing : MalBlkRecord -> InstrRecord -> cstr.
Variable blocks : list MalBlkRecord.

(** A listing shows neither flags of variables nor jumps. *)
Hypothesis listing_same : forall mb mb' p p',
  map unflag (var mb) = map unflag (var mb') -> unjump p = unjump p' ->
  listing mb p = listing mb' p'.

Abbreviation run := (runMALsequence ATOMextern ATOMnil commands factories listing blocks).
Abbreviation do_step := (step ATOMnil commands factories listing blocks).
Abbreviation frame := (frame (W := W)).

Variables mb mb' : MalBlkRecord.
Variable keep : nat -> bool.
Variable dead : nat -> Prop.
Abbreviation rk := (rank keep).

(** ** What may be removed *)

Definition pure (f : native (W := W)) : Prop := forall args w, exists rs, f args w = (rs, None, w).

(** A call, without effect and without failure. *)
Definition pure_call (p : InstrRecord) : Prop :=
  (token p = PATcall /\ exists f, fcn p = Some f /\ pure (commands f)) \/
  (token p = CMDcall /\ (argc p <= 16)%nat /\ exists f, fcn p = Some f /\ pure (commands f)) \/
  (token p = FACcall /\ exists b, blk p = Some b /\ pure (factories b)).

Definition harmless (p : InstrRecord) : Prop :=
  token p = NOOPsymbol \/
  ((forall v, In v (targets p) -> dead v) /\
   (token p = ASSIGNsymbol \/ token p = REMsymbol \/ token p < 0 \/ pure_call p)).

(** An instruction reads no variable that is dead, and a call knows what it
    calls. *)
Definition reads_live (p : InstrRecord) : Prop :=
  (ignored p = false -> forall v, In v (operands p) -> ~ dead v) /\
  (opens_scope p = true -> forall v, In v (argv p) -> ~ dead v) /\
  (opens_scope p = true \/ barrier p = RAISEsymbol -> ~ dead (getDestVar p)).
Definition resolved (p : InstrRecord) : Prop :=
  (token p = PATcall -> fcn p <> None) /\ (token p = FACcall -> blk p <> None).

Record slice_of : Prop := {
  so_vars : map unflag (var mb') = map unflag (var mb);
  so_code : map unjump (stmt mb') = map unjump (slice keep 0 (stmt mb));
  so_jumps : forall i p, stmt mb !! i = Some p -> keep i = true -> jumps p = true ->
    jump (stmt mb' !!! rk i) = rk (jump p) /\ (0 < jump p < stop mb)%nat;
  so_barrier : forall i p, stmt mb !! i = Some p -> blockStart p = true -> keep (jump p) = true;
  so_pos : (0 < stop mb)%nat;
  so_first : keep 0 = true;
  so_last : keep (stop mb - 1) = true;
  so_removed : forall i p, stmt mb !! i = Some p -> keep i = false ->
    barrier p = 0 /\ harmless p;
  so_kept : forall i p, stmt mb !! S i = Some p -> keep (S i) = true ->
    reads_live p /\ resolved p }.

Hypothesis sliced : slice_of.

(** ** Stacks *)

Definition agree (st st' : list ValRecord) : Prop :=
  List.length st = List.length st' /\ forall v, ~ dead v -> st !!! v = st' !!! v.

Lemma lookup_total_insert_cases (l : list ValRecord) i x j :
  <[i := x]> l !!! j = if bool_decide (i = j /\ (i < List.length l)%nat) then x else l !!! j.
Proof.
  rewrite !list_lookup_total_alt. case_bool_decide as H.
  - destruct H as [-> H]. rewrite list_lookup_insert_eq by exact H. reflexivity.
  - destruct (decide (i = j)) as [-> |Hn].
    + rewrite list_insert_ge by lia. reflexivity.
    + rewrite list_lookup_insert_ne by exact Hn. reflexivity.
Qed.

(** The same value in the same variable: the stacks agree where they did, and
    at that variable. *)
Lemma insert_same (st st' : list ValRecord) i x j : List.length st = List.length st' ->
  st !!! j = st' !!! j -> <[i := x]> st !!! j = <[i := x]> st' !!! j.
Proof. intros Hl H. rewrite !lookup_total_insert_cases, Hl. case_bool_decide; auto. Qed.

Lemma agree_insert st st' i x : agree st st' -> agree (<[i := x]> st) (<[i := x]> st').
Proof.
  intros [Hl H]. split; [rewrite !length_insert; exact Hl|]. intros v Hv.
  apply insert_same; auto.
Qed.

Lemma agree_dead st st' i x : agree st st' -> dead i -> agree (<[i := x]> st) st'.
Proof.
  intros [Hl H] Hi. split; [rewrite length_insert; exact Hl|]. intros v Hv.
  rewrite lookup_total_insert_cases. case_bool_decide as E; [|auto].
  destruct E as [-> _]. contradiction.
Qed.

(** Stacks that agree also at one more variable, [x] if there is one. *)
Definition agree_at (x : option nat) (st st' : list ValRecord) : Prop :=
  agree st st' /\ match x with Some v => st !!! v = st' !!! v | None => True end.

Lemma agree_at_insert x st st' i v : agree_at x st st' ->
  agree_at x (<[i := v]> st) (<[i := v]> st').
Proof.
  intros [H Hx]. split; [apply agree_insert; exact H|].
  destruct x as [y|]; [|exact I]. destruct H. apply insert_same; auto.
Qed.

Lemma fold_agree {A} x (f : list ValRecord -> A -> list ValRecord) l :
  (forall st st' a, In a l -> agree_at x st st' -> agree_at x (f st a) (f st' a)) ->
  forall st st', agree_at x st st' -> agree_at x (fold_left f l st) (fold_left f l st').
Proof.
  induction l as [|a l IH]; intros Hf st st' H; cbn; [exact H|].
  apply IH; [intros; apply Hf; auto; right; auto|apply Hf; [left; auto|exact H]].
Qed.

Lemma fold_dead {A} (f : list ValRecord -> A -> list ValRecord) l :
  (forall st st' a, In a l -> agree st st' -> agree (f st a) st') ->
  forall st st', agree st st' -> agree (fold_left f l st) st'.
Proof.
  induction l as [|a l IH]; intros Hf st st' H; cbn; [exact H|].
  apply IH; [intros; apply Hf; auto; right; auto|apply Hf; [left; auto|exact H]].
Qed.

Lemma in_combine_dead {B} p (l : list B) q : (forall v, In v (targets p) -> dead v) ->
  In q (combine (targets p) l) -> dead (fst q).
Proof. intros H Hq. destruct q as [a b]. apply H. eapply in_combine_l. exact Hq. Qed.

(** A removed instruction changes dead variables only. *)
Lemma harmless_token callee depth m pc p st w : harmless p -> exists st1,
  exec_token ATOMnil commands factories blocks callee depth m pc p st w = Done (st1, None, w) /\
  forall st', agree st st' -> agree st1 st'.
Proof.
  assert (Hnative : forall f, pure f -> (forall v, In v (targets p) -> dead v) -> exists st1,
            Done (call_native f p st w) = Done (st1, None, w) /\
            forall st', agree st st' -> agree st1 st').
  { intros f Hf Hd. destruct (Hf (arguments p st) w) as [rs Hrs]. exists (store_results p rs st).
    unfold call_native. rewrite Hrs. split; [reflexivity|].
    apply fold_dead. intros s1 s2 [a [b|]] Hq Ha; [|exact Ha]. apply agree_dead; [exact Ha|].
    apply (in_combine_dead _ _ _ Hd Hq). }
  unfold exec_token. intros [Ht|[Hd [Ht|[Ht|[Ht|Ht]]]]].
  - rewrite Ht. eauto.
  - rewrite Ht. exists (assign ATOMnil p st). split; [reflexivity|].
    apply fold_dead. intros s1 s2 [a b] Hq Ha. apply agree_dead; [exact Ha|].
    apply (in_combine_dead _ _ _ Hd Hq).
  - rewrite Ht. eauto.
  - repeat match goal with |- context [token p =? ?c] =>
      replace (token p =? c) with false
        by (symmetry; apply Z.eqb_neq; intros E; rewrite E in Ht; discriminate Ht) end. eauto.
  - destruct Ht as [(Ht & f & Ef & Hf)|[(Ht & Hc & f & Ef & Hf)|(Ht & b & Eb & Hf)]];
      rewrite Ht; cbv [ASSIGNsymbol PATcall CMDcall FACcall Z.eqb Pos.eqb].
    + rewrite Ef. apply Hnative; assumption.
    + rewrite Ef. destruct (Nat.ltb_spec 16 (argc p)); [lia|]. apply Hnative; assumption.
    + rewrite Eb. apply Hnative; assumption.
Qed.

(** ** Positions *)

Lemma rank_pos i : (0 < i)%nat -> (0 < rk i)%nat.
Proof.
  destruct i as [|i]; [lia|]. intros _. induction i as [|i IH].
  - cbn. rewrite (so_first sliced). lia.
  - rewrite rank_succ. lia.
Qed.

Lemma kept_instr i p : stmt mb !! i = Some p -> keep i = true ->
  unjump (stmt mb' !!! rk i) = unjump p.
Proof.
  intros Hp Hk. rewrite (slice_unjump keep mb mb' (so_code sliced) i); auto.
  - rewrite (list_lookup_total_correct _ _ _ Hp). reflexivity.
  - apply lookup_lt_Some in Hp. exact Hp.
Qed.

Lemma stop_rank : stop mb' = rk (stop mb).
Proof. apply slice_stop. apply (so_code sliced). Qed.

Lemma rank_mono i j : (i <= j)%nat -> (rk i <= rk j)%nat.
Proof. induction 1; [lia|]. rewrite rank_succ. lia. Qed.

Lemma rank_stop_last : rk (stop mb) = S (rk (stop mb - 1)).
Proof.
  pose proof (so_pos sliced). replace (stop mb) with (S (stop mb - 1)) at 1 by lia.
  rewrite rank_succ, (so_last sliced). lia.
Qed.

(** In the block before the end, so in the slice. *)
Lemma rank_lt i : (i < stop mb)%nat -> (rk i < stop mb')%nat.
Proof.
  intros H. rewrite stop_rank, rank_stop_last.
  pose proof (rank_mono i (stop mb - 1) ltac:(lia)). lia.
Qed.

Lemma var_fields v : name (getVar mb' v) = name (getVar mb v) /\
  type (getVar mb' v) = type (getVar mb v) /\ tmpindex (getVar mb' v) = tmpindex (getVar mb v).
Proof.
  assert (H : unflag (getVar mb' v) = unflag (getVar mb v)).
  { unfold getVar. rewrite !list_lookup_total_alt. pose proof (so_vars sliced) as E.
    apply (f_equal (fun l => l !! v)) in E. rewrite !list_lookup_fmap in E.
    destruct (var mb' !! v), (var mb !! v); cbn in E |- *;
      [apply (inj Some) in E; exact E|discriminate|discriminate|reflexivity]. }
  unfold unflag in H. injection H. auto.
Qed.

Lemma vtop_same : vtop mb' = vtop mb.
Proof.
  unfold vtop. pose proof (so_vars sliced) as E. apply (f_equal (@List.length _)) in E.
  rewrite !length_map in E. exact E.
Qed.

Lemma getVarName_same v : getVarName mb' v = getVarName mb v.
Proof. destruct (var_fields v) as (E1 & _ & E2). unfold getVarName. rewrite E1, E2. reflexivity. Qed.

Lemma getVarType_same v : getVarType mb' v = getVarType mb v.
Proof. apply var_fields. Qed.

Lemma last_var_same f n : (forall v w, name v = name w -> tmpindex v = tmpindex w -> f v = f w) ->
  last_var f (var mb') n = last_var f (var mb) n.
Proof.
  intros Hf. induction n as [|n IH]; cbn; [reflexivity|]. rewrite IH.
  destruct (var_fields n) as (E1 & _ & E2). unfold getVar in *.
  rewrite (Hf _ _ E1 E2). reflexivity.
Qed.

Lemma first_var_same f : (forall v w, name v = name w -> tmpindex v = tmpindex w -> f v = f w) ->
  forall l l' i, map unflag l = map unflag l' -> first_var f l i = first_var f l' i.
Proof.
  intros Hf. induction l as [|v l IH]; intros [|w l'] i H; try discriminate; cbn; [reflexivity|].
  apply cons_eq in H as [Hv Hl]. unfold unflag in Hv. injection Hv. intros.
  rewrite (Hf v w) by congruence. rewrite (IH l' (S i) Hl). reflexivity.
Qed.

Lemma findVariableLength_same n : findVariableLength mb' n = findVariableLength mb n.
Proof.
  unfold findVariableLength. rewrite vtop_same. rewrite last_var_same.
  - destruct (last_var _ _ _); [reflexivity|].
    destruct n as [|c n]; [reflexivity|].
    destruct (var_fields (Z.to_nat (dval 0 (digits_prefix n)))) as (_ & _ & E).
    unfold isTmpVar. rewrite E.
    match goal with |- context [first_var ?f (var mb') 0] =>
      rewrite (first_var_same f) with (l' := var mb);
        [reflexivity|intros v w _ ->; reflexivity|apply (so_vars sliced)] end.
  - intros v w E1 E2. unfold isTmpVar. rewrite E1, E2. reflexivity.
Qed.

Lemma exception_variable_same t : exception_variable mb' t = exception_variable mb t.
Proof.
  unfold exception_variable. rewrite findVariableLength_same.
  destruct (before_colon t); rewrite ?findVariableLength_same; reflexivity.
Qed.

Lemma signature_same : unjump (getInstrPtr mb' 0) = unjump (getInstrPtr mb 0).
Proof.
  destruct (lookup_lt_is_Some_2 (stmt mb) 0 (so_pos sliced)) as [p Hp].
  unfold getInstrPtr. rewrite (list_lookup_total_correct _ _ _ Hp).
  apply (kept_instr 0 p Hp (so_first sliced)).
Qed.

Lemma exception_text_same e : exception_text mb' e = exception_text mb e.
Proof.
  destruct (unjump_fields _ _ signature_same) as (_ & _ & _ & _ & _ & E1 & E2 & _).
  revert e. fix IH 1. intros [s| |pc t [q|] msg]; cbn; rewrite ?E1, ?E2; [reflexivity|reflexivity| |reflexivity].
  rewrite (IH q). reflexivity.
Qed.

(** ** The search for a catch block *)

Lemma catches_same v i p : stmt mb !! i = Some p -> keep i = true ->
  catches mb' v (stmt mb' !!! rk i) = catches mb v p.
Proof.
  intros Hp Hk. destruct (unjump_fields _ _ (kept_instr i p Hp Hk))
    as (_ & Eb & _ & _ & _ & _ & _ & Er & _ & Ea).
  unfold catches, targets. rewrite Eb, Er, Ea. f_equal.
  induction (take (retc p) (argv p)) as [|a l IH]; cbn; [reflexivity|].
  rewrite !orb_true_r. reflexivity.
Qed.

Lemma skip_to_catch_spec m v n : forall pc, (pc + n = stop m)%nat ->
  (pc <= skip_to_catch m v n pc <= stop m)%nat /\
  (skip_to_catch m v n pc = stop m \/ catches m v (getInstrPtr m (skip_to_catch m v n pc)) = true).
Proof.
  induction n as [|n IH]; intros pc H; cbn; [lia|].
  destruct (catches m v (getInstrPtr m pc)) eqn:E; [split; [lia|auto]|].
  destruct (IH (S pc)); [lia|]. split; [lia|auto].
Qed.

Lemma skip_to_catch_same v n : forall pc, (pc + n = stop mb)%nat ->
  skip_to_catch mb' v (rk (stop mb) - rk pc) (rk pc) = rk (skip_to_catch mb v n pc).
Proof.
  induction n as [|n IH]; intros pc H; cbn [skip_to_catch].
  - rewrite Nat.add_0_r in H. subst pc. rewrite Nat.sub_diag. reflexivity.
  - destruct (lookup_lt_is_Some_2 (stmt mb) pc) as [p Hp]; [unfold stop in H; lia|].
    unfold getInstrPtr in *. rewrite (list_lookup_total_correct _ _ _ Hp).
    specialize (IH (S pc) ltac:(lia)). rewrite rank_succ in IH.
    destruct (keep pc) eqn:Hk.
    + pose proof (rank_mono (S pc) (stop mb) ltac:(lia)) as Hm. rewrite rank_succ, Hk in Hm.
      replace (rk (stop mb) - rk pc)%nat with (S (rk (stop mb) - (rk pc + 1))) by lia.
      cbn [skip_to_catch]. unfold getInstrPtr. rewrite (catches_same v pc p Hp Hk).
      destruct (catches mb v p); [reflexivity|].
      rewrite Nat.add_1_r in *. exact IH.
    + rewrite Nat.add_0_r in IH. replace (catches mb v p) with false; [exact IH|].
      destruct (so_removed sliced pc p Hp Hk) as [Hb _]. unfold catches. rewrite Hb. reflexivity.
Qed.

Lemma find_catch_same v pc : (pc <= stop mb)%nat ->
  find_catch mb' v (rk pc) = rk (find_catch mb v pc).
Proof.
  intros H. unfold find_catch. rewrite stop_rank. apply skip_to_catch_same. lia.
Qed.

Lemma find_catch_spec v pc : (pc <= stop mb)%nat ->
  (pc <= find_catch mb v pc <= stop mb)%nat /\
  (find_catch mb v pc = stop mb \/ barrier (getInstrPtr mb (find_catch mb v pc)) = CATCHsymbol).
Proof.
  intros H. destruct (skip_to_catch_spec mb v (stop mb - pc) pc) as [H1 H2]; [lia|].
  fold (find_catch mb v pc) in *. split; [exact H1|].
  destruct H2 as [H2|H2]; [auto|]. right. unfold catches in H2.
  apply andb_prop in H2. apply Z.eqb_eq. apply H2.
Qed.

(** ** Frames *)

(** Two runs, the second in the slice, at the same position but for the
    numbers. *)
Record like_frame (s s' : frame) : Prop := {
  lf_pc : stkpc s' = rk (stkpc s);
  lf_stk : agree (stk s) (stk s');
  lf_exc : exceptionVar s' = exceptionVar s;
  lf_ret : like_ret (ret s) (ret s');
  lf_world : world s' = world s;
  lf_results : results s' = results s;
  lf_range : (0 < stkpc s <= stop mb)%nat }.

(** Between two rounds: an exception that is being handled is at a catch
    block, and the stacks agree at its variable if that will be read; the block may have forgotten an exception that the slice still
    has, if it is not at the end. *)
Record sim (s s' : frame) : Prop := {
  sim_pc : stkpc s' = rk (stkpc s);
  sim_stk : agree (stk s) (stk s');
  sim_at : agree_at (exceptionVar s) (stk s) (stk s') \/
    (stkpc s = stop mb /\ ret s <> NoError);
  sim_exc : exceptionVar s' = exceptionVar s;
  sim_ret : like_ret (ret s) (ret s') \/
    (ret s = NoError /\ (stkpc s < stop mb)%nat /\ exists e, ret s' = Failed e);
  sim_world : world s' = world s;
  sim_results : results s' = results s;
  sim_range : (0 < stkpc s <= stop mb)%nat;
  sim_catch : exceptionVar s = None \/ stkpc s = stop mb \/
    barrier (getInstrPtr mb (stkpc s)) = CATCHsymbol }.

Lemma like_frame_sim s s' : like_frame s s' -> exceptionVar s = None -> sim s s'.
Proof. intros [] H. constructor; auto. left. rewrite H. split; [assumption|exact I]. Qed.

(** ** An instruction that is removed *)

Lemma harmless_known p : harmless p -> token p <> ENDsymbol /\ known_token p = true.
Proof.
  intros [H|[_ [H|[H|[H|H]]]]].
  1-3: rewrite H; split; [discriminate|]; unfold known_token; rewrite H; reflexivity.
  - split; [intros E; rewrite E in H; discriminate H|].
    unfold known_token. apply orb_true_intro. right. apply Z.ltb_lt. exact H.
  - destruct H as [[H _]|[[H _]|[H _]]]; rewrite H; (split; [discriminate|]);
      unfold known_token; rewrite H; reflexivity.
Qed.

Lemma plain_control m p (s : frame) : barrier p = 0 -> control ATOMnil m p s = Done (goto s (S (stkpc s))).
Proof. intros H. unfold control. rewrite H. reflexivity. Qed.

Lemma step_removed callee depth s s' : sim s s' -> (stkpc s < stop mb)%nat ->
  keep (stkpc s) = false -> ret s <> Freed ->
  exists s1, do_step callee depth mb s = Done s1 /\ sim s1 s' /\ stkpc s1 = S (stkpc s).
Proof.
  intros [Hpc Hst _ Hx Hr Hw Hres Hrange Hcatch] Hlt Hk Hfreed.
  destruct (lookup_lt_is_Some_2 (stmt mb) (stkpc s) Hlt) as [p Hp].
  pose proof (list_lookup_total_correct _ _ _ Hp) as Ep.
  destruct (so_removed sliced _ _ Hp Hk) as [Hb Hh].
  destruct (harmless_known p Hh) as [Hend Hknown].
  destruct (harmless_token callee depth mb (stkpc s) p (stk s) (world s) Hh) as (st1 & He & Hag).
  assert (Hnone : exceptionVar s = None).
  { destruct Hcatch as [H|[H|H]]; [exact H|lia|]. unfold getInstrPtr in H.
    rewrite Ep, Hb in H. discriminate. }
  assert (Hnext : (S (stkpc s) < stop mb)%nat).
  { destruct (Nat.eq_dec (S (stkpc s)) (stop mb)) as [E|]; [|lia].
    pose proof (so_last sliced) as Hl. rewrite <- E in Hl. cbn in Hl.
    rewrite Nat.sub_0_r in Hl. congruence. }
  exists (Frame (S (stkpc s)) st1 None NoError (world s) (results s)).
  unfold step, round, getInstrPtr. rewrite Ep. apply Z.eqb_neq in Hend. rewrite Hend, Hknown.
  cbn [negb]. rewrite He. cbn [obind]. rewrite plain_control by exact Hb. rewrite Hnone.
  split; [destruct (ret s); [reflexivity|reflexivity|contradiction]|].
  split; [|reflexivity]. constructor; cbn; auto; try congruence; try lia.
  - rewrite Hpc, Hk. lia.
  - left. split; [apply Hag; exact Hst|exact I].
  - destruct (ret s'); [left; exact I|right; eauto|].
    exfalso. destruct Hr as [Hr|(_ & _ & e & Hr)]; [|discriminate].
    destruct (ret s); cbn in Hr; contradiction.
Qed.

(** ** An instruction that is kept *)

Lemma arguments_same p p' x st st' : agree_at x st st' -> argv p' = argv p -> retc p' = retc p ->
  (forall v, In v (operands p) -> ~ dead v) -> arguments p' st' = arguments p st.
Proof.
  intros [[_ H] _] Ea Er Hl. unfold arguments, operands in *. rewrite Ea, Er.
  apply map_ext_in. intros v Hv. symmetry. apply H. auto.
Qed.

Definition like_effect (x : option nat) (a a' : effect (W := W)) : Prop :=
  let '(st, e, w) := a in let '(st', e', w') := a' in
  agree_at x st st' /\ e' = e /\ w' = w.

Lemma store_results_agree x p p' rs st st' : agree_at x st st' -> targets p' = targets p ->
  agree_at x (store_results p rs st) (store_results p' rs st').
Proof.
  intros H E. unfold store_results. rewrite E. apply fold_agree; [|exact H].
  intros s s' [i [v|]] _ Hs; cbn; [apply agree_at_insert|]; exact Hs.
Qed.

Lemma assign_all_agree x l st st' : agree_at x st st' ->
  agree_at x (assign_all ATOMnil l st) (assign_all ATOMnil l st').
Proof.
  intros H. unfold assign_all. apply fold_agree; [|exact H].
  intros s s' q _ Hs. apply agree_at_insert. exact Hs.
Qed.

Lemma assign_agree x p p' st st' : agree_at x st st' -> targets p' = targets p ->
  operands p' = operands p -> (forall v, In v (operands p) -> ~ dead v) ->
  agree_at x (assign ATOMnil p st) (assign ATOMnil p' st').
Proof.
  intros H Et Eo Hl. unfold assign. rewrite Et, Eo. apply fold_agree; [|exact H].
  intros s s' [i j] Hq Hs. cbn. replace (s' !!! j) with (s !!! j).
  - apply agree_at_insert. exact Hs.
  - destruct Hs as [[_ Hs] _]. apply Hs. apply Hl. eapply in_combine_r. exact Hq.
Qed.

Lemma call_native_like x f p p' st st' w : agree_at x st st' -> argv p' = argv p ->
  retc p' = retc p -> (forall v, In v (operands p) -> ~ dead v) ->
  like_effect x (call_native f p st w) (call_native f p' st' w).
Proof.
  intros H Ea Er Hl. unfold call_native. rewrite (arguments_same p p' x st st') by auto.
  destruct (f (arguments p st) w) as [[rs e] w1]. cbn. split; [|auto].
  apply store_results_agree; [exact H|]. unfold targets. rewrite Ea, Er. reflexivity.
Qed.

Lemma exec_like x callee depth p p' pc pc' st st' w : agree_at x st st' ->
  unjump p' = unjump p -> ignored p = false -> reads_live p -> resolved p ->
  like_outcome (like_effect x)
    (exec_token ATOMnil commands factories blocks callee depth mb pc p st w)
    (exec_token ATOMnil commands factories blocks callee depth mb' pc' p' st' w).
Proof.
  intros H E Hig [Hl _] [Hpat Hfac]. specialize (Hl Hig).
  destruct (unjump_fields _ _ E) as (Et & _ & _ & Ef & Eb & Em & En & Er & _ & Ea).
  assert (Etg : targets p' = targets p) by (unfold targets; rewrite Ea, Er; reflexivity).
  assert (Eop : operands p' = operands p) by (unfold operands; rewrite Ea, Er; reflexivity).
  assert (Ec : argc p' = argc p) by (unfold argc; rewrite Ea; reflexivity).
  pose proof (arguments_same p p' x st st' H Ea Er Hl) as Harg.
  unfold exec_token, call_function. rewrite Et, Ef, Eb, Ec, Harg, Etg.
  destruct (token p =? ASSIGNsymbol).
  { constructor. cbn. split; [|auto]. apply assign_agree; auto. }
  destruct (Z.eqb_spec (token p) PATcall) as [Tp|_].
  { destruct (fcn p); [|exfalso; apply (Hpat Tp); reflexivity]. constructor. apply call_native_like; auto. }
  destruct (token p =? CMDcall).
  { destruct (16 <? argc p)%nat; [constructor; cbn; auto|].
    destruct (fcn p); constructor. apply call_native_like; auto. }
  destruct (Z.eqb_spec (token p) FACcall) as [Tf|_].
  { destruct (blk p); [|exfalso; apply (Hfac Tf); reflexivity]. constructor. apply call_native_like; auto. }
  destruct (token p =? FCNcall); [|constructor; cbn; auto].
  destruct (blk p) as [b|]; [|constructor].
  destruct (256 <? depth + 1)%nat; [constructor; cbn; auto|].
  destruct (callee b (depth + 1)%nat (arguments p st) w) as [r| | |]; constructor.
  cbn. split; [|auto]. destruct (returned r); [apply assign_all_agree|]; exact H.
Qed.

(** ** Control *)

Lemma live_kept p s : stmt mb !! s = Some p -> (0 < s)%nat -> keep s = true ->
  reads_live p /\ resolved p.
Proof. destruct s as [|i]; [lia|]. intros Hp _ Hk. apply (so_kept sliced i p Hp Hk). Qed.

Lemma goto_like s s' pc : like_frame s s' -> (0 < pc <= stop mb)%nat ->
  exceptionVar s = None -> like_outcome sim (Done (goto s pc)) (Done (goto s' (rk pc))).
Proof.
  intros [] Hpc Hx. constructor. apply like_frame_sim; [|exact Hx].
  constructor; cbn; auto.
Qed.

Lemma find_catch_sim s s' v r r' : like_frame s s' -> like_ret r r' ->
  stk s !!! v = stk s' !!! v ->
  sim (Frame (find_catch mb v (stkpc s)) (stk s) (Some v) r (world s) (results s))
      (Frame (find_catch mb' v (stkpc s')) (stk s') (Some v) r' (world s') (results s')).
Proof.
  intros [Hpc Hag Hx Hr Hw Hres Hrange] Hr' Hv.
  destruct (find_catch_spec v (stkpc s) ltac:(lia)) as [H1 H2].
  constructor; cbn; auto; try lia.
  - rewrite Hpc. apply find_catch_same. lia.
  - left. split; [exact Hag|exact Hv].
Qed.

Lemma raise_like p p' s s' : like_frame s s' -> argv p' = argv p -> ~ dead (getDestVar p) ->
  like_outcome sim (raise ATOMnil mb p s) (raise ATOMnil mb' p' s').
Proof.
  intros H Ea Hl. assert (Ed : getDestVar p' = getDestVar p)
    by (unfold getDestVar, getArg; rewrite Ea; reflexivity).
  assert (Hv : stk s !!! getDestVar p = stk s' !!! getDestVar p)
    by (apply (lf_stk _ _ H); exact Hl).
  unfold raise. rewrite Ed, getVarType_same, <- Hv. pose proof (lf_ret _ _ H) as Hr.
  assert (Hgo : like_outcome sim
    (obind (if getVarType mb (getDestVar p) =? TYPE_str
            then obind (string_text ATOMnil (stk s !!! getDestVar p)) (fun t =>
                   Done (Failed (Script (stkpc s) "MALException" None t)))
            else Done NoError) (fun r =>
       Done (Frame (find_catch mb (getDestVar p) (stkpc s)) (stk s) (Some (getDestVar p)) r
               (world s) (results s))))
    (obind (if getVarType mb (getDestVar p) =? TYPE_str
            then obind (string_text ATOMnil (stk s !!! getDestVar p)) (fun t =>
                   Done (Failed (Script (stkpc s') "MALException" None t)))
            else Done NoError) (fun r =>
       Done (Frame (find_catch mb' (getDestVar p) (stkpc s')) (stk s') (Some (getDestVar p)) r
               (world s') (results s'))))).
  { apply (like_bind like_ret).
    - destruct (_ =? TYPE_str); [|constructor; exact I].
      destruct (string_text ATOMnil (stk s !!! getDestVar p)); constructor. reflexivity.
    - intros r r' Hrr. constructor. apply find_catch_sim; auto. }
  destruct (ret s), (ret s'); try contradiction; [exact Hgo|exact Hgo|constructor].
Qed.

Lemma control_like p s s' : like_frame s s' -> (stkpc s < stop mb)%nat ->
  stmt mb !! stkpc s = Some p -> keep (stkpc s) = true ->
  exceptionVar s = None \/ barrier p = CATCHsymbol ->
  like_outcome sim (control ATOMnil mb p s) (control ATOMnil mb' (stmt mb' !!! stkpc s') s').
Proof.
  intros H Hlt Hp Hk Hx. rewrite (lf_pc _ _ H).
  pose proof (kept_instr _ _ Hp Hk) as E. set (p' := stmt mb' !!! rk (stkpc s)) in *.
  destruct (unjump_fields _ _ E) as (Et & Eb & _ & _ & _ & _ & _ & Er & _ & Ea).
  assert (Ed : getDestVar p' = getDestVar p) by (unfold getDestVar, getArg; rewrite Ea; reflexivity).
  destruct (live_kept p _ Hp ltac:(apply (lf_range _ _ H)) Hk) as [(Hl1 & Hl2 & Hl3) _].
  assert (Hjump : jumps p = true -> jump p' = rk (jump p) /\ (0 < jump p < stop mb)%nat)
    by (intros Hj; apply (so_jumps sliced _ _ Hp Hk Hj)).
  assert (Hnext : S (stkpc s') = rk (S (stkpc s)))
    by (rewrite (lf_pc _ _ H), rank_succ, Hk; lia).
  assert (Hdest : opens_scope p = true \/ barrier p = RAISEsymbol ->
            stk s' !!! getDestVar p = stk s !!! getDestVar p)
    by (intros Hd; symmetry; apply (lf_stk _ _ H); auto).
  assert (Hsucc : exceptionVar s = None ->
            like_outcome sim (Done (goto s (S (stkpc s)))) (Done (goto s' (S (stkpc s'))))).
  { intros Hn. rewrite Hnext. apply goto_like; auto. lia. }
  assert (Htarget : jumps p = true -> exceptionVar s = None ->
            like_outcome sim (Done (goto s (jump p))) (Done (goto s' (jump p')))).
  { intros Hj Hn. destruct (Hjump Hj) as [-> ?]. apply goto_like; auto. lia. }
  assert (Hcase : barrier p <> CATCHsymbol -> exceptionVar s = None) by tauto. clear Hx.
  assert (Hframe : forall r r' pc, (0 < pc <= stop mb)%nat -> like_ret r r' ->
            like_outcome sim (Done (Frame pc (stk s) None r (world s) (results s)))
              (Done (Frame (rk pc) (stk s') None r' (world s') (results s')))).
  { intros r r' pc Hpc Hr. constructor. constructor; cbn; auto.
    - apply (lf_stk _ _ H).
    - left. split; [apply (lf_stk _ _ H)|exact I].
    - apply (lf_world _ _ H).
    - apply (lf_results _ _ H). }
  unfold control. rewrite Eb, Ed, (lf_exc _ _ H).
  destruct (Z.eqb_spec (barrier p) BARRIERsymbol) as [B|_].
  { assert (Hs : blockStart p = true) by (unfold blockStart; rewrite B; reflexivity).
    assert (Hj : jumps p = true) by (unfold jumps; rewrite Hs; reflexivity).
    specialize (Hcase ltac:(rewrite B; discriminate)).
    rewrite Hdest by (left; unfold opens_scope; rewrite Hs; apply orb_true_r).
    destruct (barrier_skips (stk s !!! getDestVar p)) as [[|]|]; [|auto|].
    - destruct (Hjump Hj) as [-> Hr]. replace (S (rk (jump p))) with (rk (S (jump p)))
        by (rewrite rank_succ, (so_barrier sliced _ _ Hp Hs); lia).
      apply goto_like; auto. lia.
    - rewrite Hcase, Hnext. apply Hframe; [lia|]. cbn. rewrite getVarName_same. reflexivity. }
  destruct (_ || _) eqn:Elv.
  { assert (Hc : opens_scope p = true)
      by (unfold opens_scope, blockCntrl; rewrite Elv; reflexivity).
    assert (Hj : jumps p = true) by (unfold jumps, leaves; rewrite Elv; apply orb_true_r).
    assert (Hn : exceptionVar s = None).
    { apply Hcase. intros E1. rewrite E1 in Elv. discriminate. }
    rewrite Hdest by auto. destruct (jump_taken (stk s !!! getDestVar p)) as [[|]|]; auto.
    constructor. apply like_frame_sim; auto. }
  destruct (Z.eqb_spec (barrier p) CATCHsymbol) as [C|NC].
  { assert (Hj : jumps p = true)
      by (unfold jumps, blockStart; rewrite C; reflexivity).
    destruct (exceptionVar s) as [x|]; [|auto]. rewrite Hnext.
    apply Hframe; [lia|apply (lf_ret _ _ H)]. }
  destruct (barrier p =? EXITsymbol) eqn:X.
  { assert (Hn : exceptionVar s = None).
    { apply Hcase. apply Z.eqb_eq in X. rewrite X. discriminate. }
    rewrite Hn, Hnext. apply Hframe; [lia|apply (lf_ret _ _ H)]. }
  destruct (Z.eqb_spec (barrier p) RAISEsymbol) as [R|_].
  { apply raise_like; auto. }
  destruct (barrier p =? YIELDsymbol); [constructor|].
  destruct (Z.eqb_spec (barrier p) RETURNsymbol) as [R|_].
  - destruct (unjump_fields _ _ signature_same) as (Es & _). rewrite Es.
    destruct (_ =? FACTORYsymbol); [constructor|].
    specialize (Hcase ltac:(rewrite R; discriminate)).
    assert (Hm : map (fun v => stk s' !!! v) (argv p') = map (fun v => stk s !!! v) (argv p)).
    { rewrite Ea. apply map_ext_in. intros v Hv. symmetry. apply (lf_stk _ _ H).
      apply Hl2; [|exact Hv]. unfold opens_scope, blockCntrl. rewrite R. reflexivity. }
    rewrite Hm, Hcase, stop_rank. constructor. pose proof (so_pos sliced).
    destruct H.
    constructor; cbn; auto; try lia. left. split; [assumption|exact I].
  - apply Hsucc. apply Hcase. exact NC.
Qed.

(** ** Exceptions *)

Lemma insert_agrees (st st' : list ValRecord) v x : List.length st = List.length st' ->
  <[v := x]> st !!! v = <[v := x]> st' !!! v.
Proof.
  intros Hl. rewrite !lookup_total_insert_cases, Hl. case_bool_decide as H; [reflexivity|].
  rewrite !list_lookup_total_alt, !lookup_ge_None_2; [reflexivity|lia|lia].
Qed.

Lemma stopped_sim x r r' st st' w rs : agree st st' -> like_ret r r' ->
  agree_at x st st' \/ r <> NoError ->
  sim (Frame (stop mb) st x r w rs) (Frame (stop mb') st' x r' w rs).
Proof.
  intros Ha Hr Hx. rewrite stop_rank. pose proof (so_pos sliced).
  constructor; cbn; auto; try lia. destruct Hx; auto.
Qed.

(** An exception is handled in the same way: the run ends, or goes on at the
    same catch block. *)
Lemma handle_like e s s' : like_frame s s' -> agree_at (exceptionVar s) (stk s) (stk s') ->
  let h := handle mb e s in let h' := handle mb' e s' in
  snd h' = snd h /\
  if snd h then
    like_frame (fst h) (fst h') /\ (stkpc (fst h) < stop mb)%nat /\
    barrier (getInstrPtr mb (stkpc (fst h))) = CATCHsymbol
  else sim (fst h) (fst h').
Proof.
  intros H Hat. pose proof H as [Hpc Hag Hx Hr Hw Hres Hrange]. unfold handle.
  rewrite exception_text_same, exception_variable_same.
  destruct (contains _ _); cbn [fst snd].
  { split; [reflexivity|]. rewrite Hx, Hw, Hres. apply stopped_sim; cbn; auto. }
  destruct (exception_variable mb (exception_text mb e)) as [v|]; cbn [fst snd].
  2:{ split; [reflexivity|]. rewrite Hw, Hres. apply stopped_sim; cbn; auto. }
  rewrite getVarType_same.
  destruct (find_catch_spec v (stkpc s) ltac:(lia)) as [Hf1 Hf2].
  pose proof (find_catch_same v (stkpc s) ltac:(lia)) as Hf3.
  assert (Hb : (find_catch mb' v (stkpc s') <? stop mb')%nat
               = (find_catch mb v (stkpc s) <? stop mb)%nat).
  { rewrite Hpc, Hf3. destruct (Nat.ltb_spec (find_catch mb v (stkpc s)) (stop mb)) as [Hl|Hl].
    - apply Nat.ltb_lt. apply rank_lt. exact Hl.
    - apply Nat.ltb_ge. replace (find_catch mb v (stkpc s)) with (stop mb) by lia.
      rewrite stop_rank. lia. }
  set (sx' := if getVarType mb v =? TYPE_str then _ else _).
  set (sx := if getVarType mb v =? TYPE_str then _ else _).
  assert (Hsx : like_frame sx sx' /\ stkpc sx = stkpc s /\ exceptionVar sx = Some v /\
            (ret sx <> NoError \/ stk sx !!! v = stk sx' !!! v)).
  { unfold sx, sx'. destruct (getVarType mb v =? TYPE_str).
    - split; [constructor; cbn; auto; apply agree_insert; exact Hag|]. cbn.
      split; [auto|]. split; [auto|]. right. apply insert_agrees. apply Hag.
    - split; [constructor; cbn; auto; destruct e; cbn; auto|]. cbn.
      split; [auto|]. split; [auto|]. left. destruct e; discriminate. }
  destruct Hsx as (Hl & Epc & Exv & Hread). clearbody sx sx'. destruct Hl.
  assert (Epc' : stkpc sx' = stkpc s') by congruence.
  rewrite Epc, Epc', Hb. split; [reflexivity|].
  destruct (Nat.ltb_spec (find_catch mb v (stkpc s)) (stop mb)) as [Hlt|Hge]; cbn [fst snd].
  - split; [constructor; cbn; auto; [congruence|lia]|]. cbn. split; [exact Hlt|].
    destruct Hf2; [lia|assumption].
  - assert (Est : find_catch mb v (stkpc s) = stop mb) by lia.
    rewrite Est in *. unfold goto. rewrite Hpc, Hf3, <- stop_rank, lf_world0, lf_results0, lf_exc0.
    apply stopped_sim; auto. rewrite Exv. destruct Hread; [auto|]. left. split; auto.
Qed.

(** ** A round of the loop *)

Lemma ignored_token p : ignored p = true ->
  token p = REMsymbol \/ token p = NOOPsymbol.
Proof. unfold ignored. intros [H|H]%orb_prop; apply Z.eqb_eq in H; auto. Qed.

Lemma exec_kept x callee depth p p' pc pc' st st' w : agree_at x st st' ->
  unjump p' = unjump p -> reads_live p -> resolved p ->
  like_outcome (like_effect x)
    (exec_token ATOMnil commands factories blocks callee depth mb pc p st w)
    (exec_token ATOMnil commands factories blocks callee depth mb' pc' p' st' w).
Proof.
  intros H E Hl Hr. destruct (ignored p) eqn:Hi; [|apply exec_like; auto].
  destruct (unjump_fields _ _ E) as (Et & _). unfold exec_token. rewrite Et.
  destruct (ignored_token p Hi) as [-> | ->]; constructor; cbn; auto.
Qed.

Lemma step_kept callee depth s s' : sim s s' -> (stkpc s < stop mb)%nat ->
  keep (stkpc s) = true -> ret s <> Freed ->
  like_outcome sim (do_step callee depth mb s) (do_step callee depth mb' s').
Proof.
  intros H Hlt Hk Hfreed. pose proof H as [Hpc Hst Hat Hx Hr Hw Hres Hrange Hcatch].
  destruct Hat as [Hat|[Hat _]]; [|lia].
  destruct (lookup_lt_is_Some_2 (stmt mb) (stkpc s) Hlt) as [p Hp].
  pose proof (list_lookup_total_correct _ _ _ Hp) as Ep.
  pose proof (kept_instr _ _ Hp Hk) as E.
  destruct (live_kept p _ Hp ltac:(lia) Hk) as [Hl Hres'].
  assert (Hf' : ret s' <> Freed).
  { intros F. destruct Hr as [Hr|(_ & _ & e & Hr)]; [|congruence].
    rewrite F in Hr. destruct (ret s); cbn in Hr; contradiction. }
  assert (Hgo : like_outcome sim
            (round ATOMnil commands factories listing blocks callee depth mb s)
            (round ATOMnil commands factories listing blocks callee depth mb' s')).
  2:{ unfold step. destruct (ret s), (ret s'); try contradiction; exact Hgo. }
  clear Hr Hfreed Hf'. unfold round, getInstrPtr in *. rewrite Ep in *.
  destruct (unjump_fields _ _ signature_same) as (Es & _). unfold getInstrPtr in Es.
  rewrite Hpc. set (p' := stmt mb' !!! rk (stkpc s)) in *.
  destruct (unjump_fields _ _ E) as (Et & Eb & _). rewrite Et, Es.
  destruct (token p =? ENDsymbol).
  { destruct (_ =? FACTORYsymbol); constructor. rewrite Hx, Hw, Hres.
    apply stopped_sim; cbn; auto. }
  replace (known_token p') with (known_token p) by (unfold known_token; rewrite Et; reflexivity).
  destruct (negb (known_token p)).
  { constructor. rewrite Hx, Hw, Hres. apply stopped_sim; cbn; auto.
    rewrite (listing_same mb mb' p p'); auto. symmetry. apply (so_vars sliced). }
  rewrite Hw. eapply like_bind; [apply exec_kept; eauto|].
  intros [[st e] w] [[st' e'] w'] (Hag' & -> & ->). rewrite Hx, Hres.
  set (f := Frame (stkpc s) st (exceptionVar s) NoError w (results s)).
  set (f' := Frame (rk (stkpc s)) st' (exceptionVar s) NoError w (results s)).
  assert (Hf : like_frame f f') by (constructor; cbn; auto; apply Hag').
  destruct e as [e|].
  - destruct (handle_like e f f' Hf Hag') as [Hb Hh].
    destruct (handle mb e f) as [h b], (handle mb' e f') as [h' b']. cbn [fst snd] in *. subst b'.
    destruct b; [|constructor; exact Hh]. destruct Hh as (Hh & Hlh & Hch).
    destruct (lookup_lt_is_Some_2 (stmt mb) (stkpc h) Hlh) as [q Hq].
    unfold getInstrPtr in Hch. rewrite (list_lookup_total_correct _ _ _ Hq) in *.
    apply control_like; auto.
    destruct (keep (stkpc h)) eqn:Hkh; [reflexivity|].
    destruct (so_removed sliced _ _ Hq Hkh) as [Hb _]. rewrite Hch in Hb. discriminate.
  - replace p' with (stmt mb' !!! stkpc f') by reflexivity. apply control_like; auto.
    cbn. destruct Hcatch as [H1|[H1|H1]]; [auto|lia|auto].
Qed.

(** ** The loop *)

Lemma finish_like s s' : sim s s' -> stkpc s = stop mb ->
  like_outcome like_result (finish ATOMnil mb s) (finish ATOMnil mb' s').
Proof.
  intros [Hpc Hst Hat Hx Hr Hw Hres Hrange Hcatch] Hend.
  destruct Hr as [Hr|(_ & Hr & _)]; [|lia].
  unfold finish. rewrite Hx, Hw, Hres.
  destruct (ret s) as [|e|] eqn:Er, (ret s') as [|e'|]; try contradiction; cbn in Hr.
  - destruct Hat as [[_ Hat]|[_ Hat]]; [|contradiction].
    destruct (exceptionVar s) as [v|]; [|constructor; unfold like_result; auto].
    rewrite <- Hat. destruct (stk s !!! v) as [t z|t pv]; [constructor; unfold like_result; auto|].
    destruct (t =? TYPE_str); [|constructor; unfold like_result; auto].
    destruct pv; constructor; unfold like_result; auto.
  - destruct (exceptionVar s) as [v|]; constructor; unfold like_result; cbn; rewrite Hr; auto.
    rewrite getVarName_same. auto.
  - constructor.
Qed.

(** The loop while there are instructions, and at the end. *)
Lemma run_step n depth m (s : frame) : (0 < stkpc s < stop m)%nat ->
  run (S n) depth m 0 s =
  obind (do_step (enter ATOMextern ATOMnil blocks (run n)) depth m s) (run n depth m 0).
Proof.
  intros H. cbn [runMALsequence]. destruct (Nat.ltb_spec (stkpc s) (stop m)); [|lia].
  destruct (Nat.eqb_spec (stkpc s) 0); [lia|]. reflexivity.
Qed.

Lemma run_end n depth m (s : frame) : (stop m <= stkpc s)%nat ->
  run n depth m 0 s = finish ATOMnil m s.
Proof.
  intros H. destruct n; cbn [runMALsequence];
    destruct (Nat.ltb_spec (stkpc s) (stop m)); (lia || reflexivity).
Qed.

Lemma run_out depth m (s : frame) : (0 < stkpc s < stop m)%nat -> run 0 depth m 0 s = OutOfFuel.
Proof.
  intros H. cbn [runMALsequence]. destruct (Nat.ltb_spec (stkpc s) (stop m)); [|lia].
  destruct (Nat.eqb_spec (stkpc s) 0); [lia|]. reflexivity.
Qed.

Lemma run_freed n depth m (s : frame) : (0 < stkpc s)%nat -> ret s = Freed ->
  run (S n) depth m 0 s = Undefined.
Proof.
  intros Hp H. destruct (Nat.lt_ge_cases (stkpc s) (stop m)).
  - rewrite run_step by lia. unfold step. rewrite H. reflexivity.
  - rewrite run_end by lia. unfold finish. rewrite H. reflexivity.
Qed.

Lemma sim_freed s s' : sim s s' -> ret s = Freed -> ret s' = Freed.
Proof.
  intros H Er. destruct (sim_ret _ _ H) as [E|(E & _)]; [|congruence]. rewrite Er in E.
  destruct (ret s'); cbn in E; (contradiction || reflexivity).
Qed.

Lemma finish_done m (s : frame) : finish ATOMnil m s <> OutOfFuel.
Proof.
  unfold finish. destruct (ret s), (exceptionVar s) as [v|]; try discriminate.
  destruct (stk s !!! v) as [|t [| |]]; try discriminate; destruct (t =? _); discriminate.
Qed.

Lemma like_more {A} (R : A -> A -> Prop) x y z : like_outcome R x y -> x <> OutOfFuel ->
  more y z -> like_outcome R x z.
Proof. intros H Hx [-> | ->]; [|exact H]. inversion H; congruence. Qed.

(** Whatever the block does in [n] rounds, the slice does in at most as many. *)
Lemma slice_forward n : forall depth s s', sim s s' -> run n depth mb 0 s <> OutOfFuel ->
  like_outcome like_result (run n depth mb 0 s) (run n depth mb' 0 s').
Proof.
  induction n as [|n IH]; intros depth s s' H Hn; pose proof (sim_range _ _ H) as Hr;
    pose proof (sim_pc _ _ H) as Hpc; pose proof (rank_pos (stkpc s) ltac:(lia)) as Hr'.
  all: destruct (Nat.eq_dec (stkpc s) (stop mb)) as [Hend|Hne];
    [rewrite !run_end by (rewrite ?Hpc, ?Hend, ?stop_rank; lia); apply finish_like; assumption|].
  { rewrite run_out in Hn by lia. contradiction. }
  assert (Hlt : (stkpc s < stop mb)%nat) by lia.
  assert (Hcase : ret s = Freed \/ ret s <> Freed) by (destruct (ret s); auto; right; discriminate).
  destruct Hcase as [Hf|Hf].
  { rewrite !run_freed by (lia || assumption || apply (sim_freed _ _ H Hf)). constructor. }
  rewrite run_step in Hn |- * by lia.
  destruct (keep (stkpc s)) eqn:Hk.
  - rewrite run_step by (rewrite Hpc; pose proof (rank_lt _ Hlt); lia).
    destruct (step_kept (enter ATOMextern ATOMnil blocks (run n)) depth s s' H Hlt Hk Hf)
      as [a a' Ha| | |]; cbn [obind] in *; try constructor.
    apply IH; auto.
  - destruct (step_removed (enter ATOMextern ATOMnil blocks (run n)) depth s s' H Hlt Hk Hf)
      as (s1 & E1 & H1 & _).
    rewrite E1 in *. cbn [obind] in *. eapply like_more; [apply IH; eauto|exact Hn|].
    apply run_more. lia.
Qed.

(** If the run of the slice ends, so does that of the block. *)
Lemma slice_backward n : forall depth k s s', sim s s' -> (stop mb - stkpc s <= k)%nat ->
  run n depth mb' 0 s' <> OutOfFuel -> exists m, run m depth mb 0 s <> OutOfFuel.
Proof.
  induction n as [n IHn] using lt_wf_ind. intros depth.
  induction k as [|k IHk]; intros s s' H Hk' Hn; pose proof (sim_range _ _ H) as Hr;
    pose proof (sim_pc _ _ H) as Hpc; pose proof (rank_pos (stkpc s) ltac:(lia)) as Hr'.
  all: destruct (Nat.eq_dec (stkpc s) (stop mb)) as [Hend|Hne];
    [exists 0%nat; rewrite run_end by lia; apply finish_done|].
  { lia. }
  assert (Hlt : (stkpc s < stop mb)%nat) by lia.
  assert (Hcase : ret s = Freed \/ ret s <> Freed) by (destruct (ret s); auto; right; discriminate).
  destruct Hcase as [Hf|Hf].
  { exists 1%nat. rewrite run_freed by (lia || assumption). discriminate. }
  destruct (keep (stkpc s)) eqn:Hk.
  - assert (Hlt' : (0 < stkpc s' < stop mb')%nat) by (rewrite Hpc; pose proof (rank_lt _ Hlt); lia).
    destruct n as [|n]; [rewrite run_out in Hn by lia; contradiction|].
    rewrite run_step in Hn by lia.
    set (c := enter ATOMextern ATOMnil blocks (run n)) in *.
    pose proof (step_kept c depth s s' H Hlt Hk Hf) as Hs.
    destruct (do_step c depth mb s) as [a| | |] eqn:E1.
    2,3: exists (S n); rewrite run_step by lia; fold c; rewrite E1; discriminate.
    2:{ inversion Hs as [| | |E2 E3]. rewrite <- E3 in Hn. contradiction. }
    inversion Hs as [? a' Ha E2 E3| | |]; subst. rewrite <- E3 in Hn. cbn [obind] in Hn.
    destruct (IHn n ltac:(lia) depth (stop mb) a a' Ha ltac:(lia) Hn) as [m Hm].
    exists (S (Nat.max n m)). rewrite run_step by lia.
    destruct (step_more ATOMnil commands factories listing blocks c
                (enter ATOMextern ATOMnil blocks (run (Nat.max n m))) depth mb s) as [E4|E4].
    { intros. apply run_more. lia. }
    { congruence. }
    rewrite <- E4, E1. cbn [obind].
    destruct (run_more ATOMextern ATOMnil commands factories listing blocks m (Nat.max n m)
                ltac:(lia) depth mb 0 a) as [E5|E5]; [contradiction|]. rewrite <- E5. exact Hm.
  - destruct (step_removed (enter ATOMextern ATOMnil blocks (run n)) depth s s' H Hlt Hk Hf)
      as (s1 & E1 & H1 & Ep1).
    destruct (IHk s1 s' H1 ltac:(lia) Hn) as [m Hm].
    exists (S (Nat.max n m)). rewrite run_step by lia.
    destruct (step_more ATOMnil commands factories listing blocks
                (enter ATOMextern ATOMnil blocks (run n))
                (enter ATOMextern ATOMnil blocks (run (Nat.max n m))) depth mb s) as [E4|E4].
    { intros. apply run_more. lia. }
    { congruence. }
    rewrite <- E4, E1. cbn [obind].
    destruct (run_more ATOMextern ATOMnil commands factories listing blocks m (Nat.max n m)
                ltac:(lia) depth mb 0 s1) as [E5|E5]; [contradiction|]. rewrite <- E5. exact Hm.
Qed.

(** ** Calls *)

Abbreviation call := (callMAL ATOMextern ATOMnil commands factories listing blocks).

Lemma prepare_same : prepareMALstack ATOMextern ATOMnil mb' = prepareMALstack ATOMextern ATOMnil mb.
Proof.
  unfold prepareMALstack. transitivity (map (initial_value ATOMextern ATOMnil) (map unflag (var mb'))).
  - rewrite map_map. apply map_ext. reflexivity.
  - rewrite (so_vars sliced), map_map. apply map_ext. reflexivity.
Qed.

Lemma call_frames args w :
  let st := assign_all ATOMnil (combine (operands (getInstrPtr mb 0)) args)
              (prepareMALstack ATOMextern ATOMnil mb) in
  sim (Frame 1 st None NoError w None) (Frame 1 st None NoError w None).
Proof.
  intros st. pose proof (so_pos sliced).
  assert (Ha : agree st st) by (split; auto).
  constructor; cbn; auto; try lia; [rewrite (so_first sliced); reflexivity|].
  left. split; [exact Ha|exact I].
Qed.

Lemma callMAL_same n args w :
  call n mb' args w =
  if (token (getInstrPtr mb 0) =? FUNCTIONsymbol) || (token (getInstrPtr mb 0) =? FCNcall) then
    run n 0 mb' 0 (Frame 1 (assign_all ATOMnil (combine (operands (getInstrPtr mb 0)) args)
      (prepareMALstack ATOMextern ATOMnil mb)) None NoError w None)
  else call n mb args w.
Proof.
  destruct (unjump_fields _ _ signature_same) as (Et & _ & _ & _ & _ & _ & _ & Er & _ & Ea).
  unfold callMAL, operands. rewrite Et, Er, Ea, prepare_same.
  destruct (_ || _); reflexivity.
Qed.

Lemma slice_call_forward n args w : call n mb args w <> OutOfFuel ->
  like_outcome like_result (call n mb args w) (call n mb' args w).
Proof.
  rewrite callMAL_same. unfold callMAL. destruct (_ || _).
  - apply slice_forward. apply call_frames.
  - intros _. destruct (_ || _); constructor. unfold like_result. auto.
Qed.

Lemma slice_call_backward n args w : call n mb' args w <> OutOfFuel ->
  exists m, call m mb args w <> OutOfFuel.
Proof.
  rewrite callMAL_same. unfold callMAL. destruct (_ || _) eqn:E.
  - intros H. apply (slice_backward n 0 _ _ _ (call_frames args w) (Nat.le_refl _) H).
  - intros H. exists n. exact H.
Qed.

End Sim.

(** ** Blocks that do the same *)

Section Same.
Context {W : Type}.
Variable ATOMextern : Z -> bool.
Variable ATOMnil : Z -> list Z.
Variable commands : nat -> native (W := W).
Variable factories : nat -> native (W := W).
Variable listing : MalBlkRecord -> InstrRecord -> cstr.
Variable blocks : list MalBlkRecord.

Abbreviation call := (callMAL ATOMextern ATOMnil commands factories listing blocks).

(** A call ends, with this outcome. *)
Definition ends mb args w (o : outcome (run_result (W := W))) : Prop :=
  o <> OutOfFuel /\ exists n, call n mb args w = o.

(** Both end or neither does, and with like outcomes. *)
Definition same_runs (mb mb' : MalBlkRecord) : Prop := forall args w,
  (forall o, ends mb args w o -> exists o', ends mb' args w o' /\ like_outcome like_result o o') /\
  (forall o', ends mb' args w o' -> exists o, ends mb args w o /\ like_outcome like_result o o').

Lemma like_result_trans (a b c : run_result (W := W)) :
  like_result a b -> like_result b c -> like_result a c.
Proof. intros (H1 & H2 & H3) (H4 & H5 & H6). unfold like_result. split_and!; congruence. Qed.

Lemma like_outcome_trans (a b c : outcome (run_result (W := W))) :
  like_outcome like_result a b -> like_outcome like_result b c -> like_outcome like_result a c.
Proof.
  intros [x y H| | |] H2; inversion H2; subst; constructor. eapply like_result_trans; eauto.
Qed.

Lemma same_runs_trans a b c : same_runs a b -> same_runs b c -> same_runs a c.
Proof.
  intros H1 H2 args w. destruct (H1 args w) as [F1 B1], (H2 args w) as [F2 B2]. split.
  - intros o Ho. destruct (F1 o Ho) as (o1 & E1 & L1). destruct (F2 o1 E1) as (o2 & E2 & L2).
    exists o2. split; [exact E2|]. eapply like_outcome_trans; eauto.
  - intros o Ho. destruct (B2 o Ho) as (o1 & E1 & L1). destruct (B1 o1 E1) as (o2 & E2 & L2).
    exists o2. split; [exact E2|]. eapply like_outcome_trans; eauto.
Qed.

Hypothesis listing_same : forall mb mb' p p',
  map unflag (var mb) = map unflag (var mb') -> unjump p = unjump p' ->
  listing mb p = listing mb' p'.

(** A slice does the same as the block. *)
Lemma slice_runs mb mb' keep dead : slice_of commands factories mb mb' keep dead ->
  same_runs mb mb'.
Proof.
  intros H args w.
  pose proof (slice_call_forward ATOMextern ATOMnil commands factories listing blocks
                listing_same mb mb' keep dead H) as Fw.
  pose proof (slice_call_backward ATOMextern ATOMnil commands factories listing blocks
                listing_same mb mb' keep dead H) as Bw.
  assert (Hlike : forall o, o <> OutOfFuel -> forall n, call n mb args w = o ->
            exists o', ends mb' args w o' /\ like_outcome like_result o o').
  { intros o Ho n <-. pose proof (Fw n args w Ho) as HL.
    exists (call n mb' args w). split; [|exact HL]. split; [|eauto].
    intros E. rewrite E in HL. inversion HL. congruence. }
  split.
  - intros o [Ho [n Hn]]. eauto.
  - intros o' [Ho' [n Hn]]. rewrite <- Hn in Ho'. destruct (Bw n args w Ho') as [m Hm].
    exists (call m mb args w). split; [split; eauto|].
    destruct (Hlike _ Hm m eq_refl) as (o2 & [Ho2 [k Hk]] & HL).
    replace o' with o2; [exact HL|]. rewrite <- Hn, <- Hk.
    assert (Hcall : forall i j, (i <= j)%nat -> more (call i mb' args w) (call j mb' args w)).
    { intros i j Hij. unfold callMAL. destruct (_ || _); [apply run_more; exact Hij|right; reflexivity]. }
    destruct (Nat.le_ge_cases n k) as [Hle|Hle];
      destruct (Hcall _ _ Hle); congruence.
Qed.

End Same.
