(* ===== verification/Deadcode.v ===== *)
(** * Removal of dead code

    [OPTdeadcodeImplementation] of
    src/src/monetdb5/optimizer/opt_deadcode.c removes instructions whose
    results no instruction uses and that have no effects, as far as their names
    tell, again and again until there are none.  The theorem
    [deadcode_preserves_runs] states that what is left has no errors and that the
    program still does the same. *)

From Stdlib Require Import ZArith Lia Bool List String.
From stdpp Require Import base list.
From S2P Require Import Prelude Mal MalFlow MalDecl MalInterp MalSlice MalScope MalSim.
Import ListNotations.

(** ** The optimizer *)

(** [getVarConstant(mb, v).val.ival == 0]: the lower half of the union. *)
Definition constant_zero (v : VarRecord) : bool :=
  match value v with
  | VFix _ z => i32 z =? 0
  | VExt _ Pnull => true
  | VExt _ _ => false
  end.

(** An assertion that always holds. *)
Definition holds_trivially (mb : MalBlkRecord) (p : InstrRecord) : bool :=
  is_name "sql" (modname p) && is_name "assert" (fcnname p) &&
  isVarConstant mb (getArg p 1) && constant_zero (getVar mb (getArg p 1)).

(** Is there a reason to keep the instruction, besides its results? *)
Definition has_purpose (mb : MalBlkRecord) (p : InstrRecord) : bool :=
  hasSideEffects p false || isUpdateInstruction p || negb (isLinearFlow p) ||
  isProcedure mb p || (Nat.eqb (retc p) 1 && hasProp mb (getArg p 0) "unsafe") ||
  negb (barrier p =? 0).

Definition deadcode_keeps (mb : MalBlkRecord) (p : InstrRecord) : bool :=
  if token p =? NOOPsymbol then false
  else if holds_trivially mb p then false
  else existsb (isVarUsed mb) (targets p) || has_purpose mb p.

(** The loop over the instructions; from END on all are kept. *)
Fixpoint deadcode_loop (mb : MalBlkRecord) (ps : list InstrRecord) : list InstrRecord :=
  match ps with
  | [] => []
  | p :: ps =>
    if token p =? ENDsymbol then p :: ps
    else if deadcode_keeps mb p then p :: deadcode_loop mb ps
    else deadcode_loop mb ps
  end.

Definition deadcode_pass (mb : MalBlkRecord) : MalBlkRecord :=
  let mb1 := chkDeclarations (clrDeclarations mb) in
  with_stmt mb1 (take 1 (stmt mb) ++ deadcode_loop mb1 (drop 1 (stmt mb))).

(** The block and the number of actions. *)
Fixpoint deadcode (fuel : nat) (mb : MalBlkRecord) : MalBlkRecord * nat :=
  match fuel with
  | O => (mb, 0%nat)
  | S n =>
    if hasProp mb (getArg (getInstrPtr mb 0) 0) "inline" then (mb, 0%nat)
    else
      let mb1 := deadcode_pass mb in
      let actions := (stop mb - stop mb1)%nat in
      if Nat.eqb actions 0 then (mb1, 0%nat)
      else let '(mb2, more) := deadcode n mb1 in (mb2, (actions + more)%nat)
  end.

Definition OPTdeadcodeImplementation (mb : MalBlkRecord) : MalBlkRecord * nat :=
  deadcode (S (stop mb)) mb.

Section Check.
(** [chkTypes] of mal_resolve.c, which resolves all calls again. *)
Variable chkTypes : MalBlkRecord -> MalBlkRecord.

(** [optimizerCheck] of opt_support.c: after some actions the types, the flow
    and the declarations are checked again. *)
Definition optimizerCheck (mb : MalBlkRecord) (actions : nat) : MalBlkRecord :=
  if (0 <? actions)%nat then chkDeclarations (chkFlow (chkTypes mb)) else mb.

(** [OPTwrapper] of opt_wrapper.c, for this optimizer. *)
Definition optimize_deadcode (mb : MalBlkRecord) : MalBlkRecord :=
  if negb (errors mb =? 0) then mb
  else let '(mb1, actions) := OPTdeadcodeImplementation mb in optimizerCheck mb1 actions.

End Check.

(** ** Passes end *)

Lemma deadcode_loop_length mb ps : (List.length (deadcode_loop mb ps) <= List.length ps)%nat.
Proof.
  induction ps as [|p ps IH]; cbn; [lia|].
  destruct (_ =? _); [cbn; lia|]. destruct (deadcode_keeps mb p); cbn; lia.
Qed.

Lemma deadcode_pass_stop mb : (stop (deadcode_pass mb) <= stop mb)%nat.
Proof.
  unfold stop, deadcode_pass. cbn [stmt with_stmt]. rewrite List.length_app.
  pose proof (deadcode_loop_length (chkDeclarations (clrDeclarations mb)) (drop 1 (stmt mb))).
  rewrite length_take, length_drop in *. lia.
Qed.

(** The recursion ends because every pass that does something removes an
    instruction. *)
Lemma deadcode_fuel n : forall m mb, (stop mb < n)%nat -> (n <= m)%nat ->
  deadcode m mb = deadcode n mb.
Proof.
  induction n as [|n IH]; intros m mb Hn Hm; [lia|]. destruct m as [|m]; [lia|].
  cbn [deadcode]. destruct (hasProp _ _ _); [reflexivity|].
  pose proof (deadcode_pass_stop mb). destruct (Nat.eqb_spec (stop mb - stop (deadcode_pass mb)) 0);
    [reflexivity|]. rewrite (IH m (deadcode_pass mb)) by lia. reflexivity.
Qed.

(** A check never takes errors back. *)
Lemma chkDeclarations_errors mb : errors mb <= errors (chkDeclarations mb).
Proof.
  unfold chkDeclarations. cbn.
  match goal with |- _ <= derrs (fold_left decl_step ?ps ?st) =>
    assert (Ha : aligned st) by
      (unfold aligned; cbn; rewrite declare_all_length, length_replicate; reflexivity);
    destruct (decl_loop_marks ps st Ha eq_refl) as [H _] end.
  exact H.
Qed.

(** ** A pass keeps a slice *)

(** Which positions a pass keeps: the first, those from END on, and those that
    the test keeps. *)
Definition pass_keep (mb : MalBlkRecord) (i : nat) : bool :=
  match i with
  | O => true
  | S j =>
    existsb (fun q => token q =? ENDsymbol) (take i (drop 1 (stmt mb))) ||
    deadcode_keeps (chkDeclarations (clrDeclarations mb)) (stmt mb !!! i)
  end.

Lemma slice_all keep l : forall off, (forall j, (j < List.length l)%nat -> keep (off + j)%nat = true) ->
  slice keep off l = l.
Proof.
  induction l as [|p l IH]; intros off H; cbn; [reflexivity|].
  pose proof (H 0%nat ltac:(cbn; lia)) as H0. rewrite Nat.add_0_r in H0. rewrite H0, IH; [reflexivity|].
  intros j Hj. replace (S off + j)%nat with (off + S j)%nat by lia. apply H. cbn. lia.
Qed.

Lemma deadcode_loop_slice mb keep ps : forall off,
  (forall j, (j < List.length ps)%nat ->
     keep (off + j)%nat = existsb (fun q => token q =? ENDsymbol) (take (S j) ps) ||
                          deadcode_keeps mb (ps !!! j)) ->
  deadcode_loop mb ps = slice keep off ps.
Proof.
  induction ps as [|p ps IH]; intros off H; cbn [deadcode_loop]; [reflexivity|].
  pose proof (H 0%nat ltac:(cbn; lia)) as H0. rewrite Nat.add_0_r in H0. cbn in H0.
  rewrite orb_false_r in H0. destruct (token p =? ENDsymbol) eqn:Et; cbn in H0.
  - symmetry. apply slice_all. intros j Hj. rewrite (H j Hj). cbn. rewrite Et. reflexivity.
  - cbn [slice]. rewrite H0. rewrite (IH (S off)); [destruct (deadcode_keeps mb p); reflexivity|].
    intros j Hj. replace (S off + j)%nat with (off + S j)%nat by lia.
    rewrite (H (S j)) by (cbn; lia). cbn. rewrite Et. reflexivity.
Qed.

Lemma deadcode_pass_slice mb : stmt (deadcode_pass mb) = slice (pass_keep mb) 0 (stmt mb).
Proof.
  unfold deadcode_pass. cbn [stmt with_stmt].
  destruct (stmt mb) as [|p ps] eqn:E; [reflexivity|].
  cbn [take drop app slice pass_keep]. f_equal.
  apply deadcode_loop_slice. intros j Hj. cbn [pass_keep Nat.add]. rewrite E. reflexivity.
Qed.

Lemma pass_var mb : errors (chkDeclarations (clrDeclarations mb)) = errors mb ->
  map unflag (var (deadcode_pass mb)) = map unflag (map clear_flags (var mb)).
Proof. intros H. apply (chkDeclarations_exact mb H). Qed.

(** ** Programs for which it is correct *)

Section Correct.
Context {W : Type}.
Variable ATOMextern : Z -> bool.
Variable ATOMnil : Z -> list Z.
Variable commands : nat -> native (W := W).
Variable factories : nat -> native (W := W).
Variable listing : MalBlkRecord -> InstrRecord -> cstr.
Variable blocks : list MalBlkRecord.
Hypothesis listing_same : forall mb mb' p p',
  map unflag (var mb) = map unflag (var mb') -> unjump p = unjump p' ->
  listing mb p = listing mb' p'.

Abbreviation pure_call := (pure_call commands factories).
Abbreviation same_runs := (same_runs ATOMextern ATOMnil commands factories listing blocks).

(** No effect: a copy, a comment, or a call of a function that neither fails
    nor changes anything. *)
Definition no_effect (p : InstrRecord) : Prop :=
  token p = ASSIGNsymbol \/ token p = REMsymbol \/ token p < 0 \/ pure_call p.

(** What the parser and the type checker make sure of, instruction by
    instruction. *)
Record shaped (mb : MalBlkRecord) (p : InstrRecord) : Prop := {
  sh_range : forall v, In v (argv p) -> (v < vtop mb)%nat;
  sh_dest : barrier p <> 0 -> argv p <> [];
  sh_ignored : ignored p = true -> barrier p = 0;
  sh_resolved : resolved p }.

(** The body of a program: it ends with END; what has no purpose by its name
    has no effect, and likewise an assertion that always holds, the result of
    which nobody uses; a variable that is raised is used by an instruction that
    controls the flow, as by its catch block. *)
Record well_formed (mb : MalBlkRecord) : Prop := {
  wf_shaped : forall p, In p (drop 1 (stmt mb)) -> shaped mb p;
  wf_first : shaped mb (getInstrPtr mb 0);
  wf_end : exists ps q, stmt mb = ps ++ [q] /\ token q = ENDsymbol;
  wf_enabled : forall v, In v (var mb) -> disabled v = false;
  wf_effects : forall p, In p (drop 1 (stmt mb)) ->
    token p = NOOPsymbol \/ token p = ENDsymbol \/ has_purpose mb p = true \/ no_effect p;
  wf_asserts : forall p, In p (drop 1 (stmt mb)) -> holds_trivially mb p = true ->
    token p = NOOPsymbol \/ token p = ENDsymbol \/
    (barrier p = 0 /\ pure_call p /\
     forall v q, In v (targets p) -> In q (drop 1 (stmt mb)) -> ~ In v (uses q));
  wf_raise : forall p, In p (drop 1 (stmt mb)) -> barrier p = RAISEsymbol ->
    (getDestVar p < vtop mb)%nat ->
    exists q, In q (drop 1 (stmt mb)) /\ barrier q <> 0 /\ In (getDestVar p) (uses q) }.

(** ** One pass *)

Section Pass.
Variable mb : MalBlkRecord.
Hypothesis wf : well_formed mb.
Hypothesis flow_errors : errors mb = 0.
Hypothesis flow_checked : errors (chkFlow mb) = 0.
Hypothesis pass_errors : errors (deadcode_pass mb) = 0.

Abbreviation marked := (chkDeclarations (clrDeclarations mb)).
Abbreviation mb1 := (deadcode_pass mb).
Abbreviation keep := (pass_keep mb).

(** Nobody uses these variables. *)
Definition unused (v : nat) : Prop := (v < vtop mb)%nat /\ isVarUsed marked v = false.

Lemma marked_errors : errors marked = errors mb.
Proof. rewrite flow_errors. exact pass_errors. Qed.

Lemma pass_unflag : map unflag (var mb1) = map unflag (var mb).
Proof.
  rewrite (pass_var mb marked_errors), map_map. apply map_ext_in. intros v Hv.
  pose proof (wf_enabled mb wf v Hv) as H. unfold unflag. cbn. rewrite H. reflexivity.
Qed.

Lemma pass_vtop : vtop mb1 = vtop mb.
Proof.
  unfold vtop. pose proof pass_unflag as E. apply (f_equal (@List.length _)) in E.
  rewrite !length_map in E. exact E.
Qed.

Lemma marked_fields v : type (getVar marked v) = type (getVar mb v) /\
  constant (getVar marked v) = constant (getVar mb v) /\
  value (getVar marked v) = value (getVar mb v) /\ props (getVar marked v) = props (getVar mb v).
Proof.
  assert (H : unflag (getVar marked v) = unflag (getVar mb v)).
  { unfold getVar. rewrite !list_lookup_total_alt. pose proof pass_unflag as E.
    apply (f_equal (fun l => l !! v)) in E. rewrite !list_lookup_fmap in E.
    change (var mb1) with (var marked) in E.
    destruct (var marked !! v), (var mb !! v);
      [apply (inj Some) in E; exact E|discriminate|discriminate|reflexivity]. }
  unfold unflag in H. injection H. auto.
Qed.

Lemma has_purpose_marked p : has_purpose marked p = has_purpose mb p.
Proof.
  destruct (marked_fields (getArg p 0)) as (E1 & _ & _ & E2).
  unfold has_purpose, isProcedure, getArgType, getVarType, hasProp. rewrite E1, E2. reflexivity.
Qed.

Lemma holds_trivially_marked p : holds_trivially marked p = holds_trivially mb p.
Proof.
  destruct (marked_fields (getArg p 1)) as (_ & E1 & E2 & _).
  unfold holds_trivially, isVarConstant, constant_zero. rewrite E1, E2. reflexivity.
Qed.

(** What is used is not unused. *)
Lemma used_live p v : In p (drop 1 (stmt mb)) -> In v (uses p) -> ~ unused v.
Proof.
  intros Hp Hv [Hlt Hu]. apply In_drop_1 in Hp. destruct Hp as [i Hi].
  destruct (chkDeclarations_exact mb marked_errors) as (_ & _ & H).
  destruct (H v Hlt) as [_ H2]. rewrite H2 in Hu; [discriminate|]. eauto.
Qed.

Lemma unused_target p v : In p (drop 1 (stmt mb)) -> In v (targets p) ->
  isVarUsed marked v = false -> unused v.
Proof.
  intros Hp Hv Hu. split; [|exact Hu]. apply (sh_range mb p (wf_shaped mb wf p Hp)).
  apply In_targets. exact Hv.
Qed.

(** An instruction that the pass removes. *)
Lemma pass_removed i p : stmt mb !! i = Some p -> keep i = false ->
  barrier p = 0 /\ harmless commands factories unused p.
Proof.
  destruct i as [|i]; [discriminate|]. intros Hp Hk.
  assert (Hin : In p (drop 1 (stmt mb))) by (apply In_drop_1; eauto).
  pose proof (wf_shaped mb wf p Hin) as Hsh.
  unfold keep in Hk. apply orb_false_elim in Hk. destruct Hk as [Hend Hk].
  rewrite (list_lookup_total_correct _ _ _ Hp) in Hk.
  assert (Hne : token p <> ENDsymbol).
  { intros E. assert (existsb (fun q => token q =? ENDsymbol) (take (S i) (drop 1 (stmt mb))) = true).
    { apply existsb_exists. exists p. split; [|rewrite E; reflexivity].
      apply list_elem_of_In. apply list_elem_of_lookup. exists i.
      rewrite lookup_take_lt by lia. rewrite lookup_drop. exact Hp. }
    congruence. }
  unfold deadcode_keeps in Hk. destruct (Z.eqb_spec (token p) NOOPsymbol) as [En|Hn].
  { split; [|left; exact En]. apply (sh_ignored _ _ Hsh). unfold ignored. rewrite En. reflexivity. }
  rewrite holds_trivially_marked, has_purpose_marked in Hk.
  destruct (holds_trivially mb p) eqn:Eh.
  - destruct (wf_asserts mb wf p Hin Eh) as [E|[E|(Hb & Hc & Hu)]]; try contradiction.
    split; [exact Hb|]. right. split; [|auto]. intros v Hv. apply (unused_target p); auto.
    destruct (isVarUsed marked v) eqn:Ev; [|reflexivity].
    destruct (chkDeclarations_exact mb marked_errors) as (_ & _ & H).
    destruct (H v) as [H1 _]; [apply (sh_range _ _ Hsh), In_targets, Hv|].
    destruct (H1 Ev) as (j & q & Hq & Hvq). exfalso. apply (Hu v q Hv); auto. apply In_drop_1. eauto.
  - apply orb_false_elim in Hk. destruct Hk as [Hu Hp'].
    destruct (wf_effects mb wf p Hin) as [E|[E|[E|E]]]; try contradiction; [congruence|].
    split.
    + unfold has_purpose in Hp'. apply orb_false_elim in Hp'. destruct Hp' as [_ Hb].
      apply negb_false_iff, Z.eqb_eq in Hb. exact Hb.
    + right. split; [|exact E]. intros v Hv. apply (unused_target p); auto.
      destruct (isVarUsed marked v) eqn:Ev; [|reflexivity].
      assert (existsb (isVarUsed marked) (targets p) = true)
        by (apply existsb_exists; eauto). congruence.
Qed.

(** An instruction that stays. *)
Lemma pass_kept p : In p (drop 1 (stmt mb)) -> reads_live unused p /\ resolved p.
Proof.
  intros Hin. pose proof (wf_shaped mb wf p Hin) as Hsh. split; [|apply (sh_resolved _ _ Hsh)].
  assert (Hb : opens_scope p = true -> barrier p <> 0).
  { intros Ho E. unfold opens_scope, blockCntrl, blockStart in Ho. rewrite E in Ho. discriminate. }
  assert (Hni : barrier p <> 0 -> ignored p = false).
  { intros Hn. destruct (ignored p) eqn:E; [|reflexivity].
    exfalso. apply Hn. apply (sh_ignored _ _ Hsh E). }
  assert (Hall : opens_scope p = true -> forall v, In v (argv p) -> ~ unused v).
  { intros Ho v Hv. apply (used_live p); auto. unfold uses. rewrite (Hni (Hb Ho)), Ho.
    apply in_or_app. rewrite (targets_operands p) in Hv. apply in_app_or in Hv. tauto. }
  split; [|split].
  - intros Hi v Hv. apply (used_live p); auto. unfold uses. rewrite Hi. apply in_or_app. auto.
  - exact Hall.
  - intros [Ho|Hr].
    + apply Hall; [exact Ho|]. pose proof (sh_dest _ _ Hsh (Hb Ho)).
      unfold getDestVar, getArg. destruct (argv p) as [|x l]; [contradiction|]. left. reflexivity.
    + intros Hu. destruct (wf_raise mb wf p Hin Hr) as (q & Hq & _ & Hv); [apply Hu|].
      apply (used_live q _ Hq Hv Hu).
Qed.

(** What is at a position of the checked program is what was there before, but
    for the jump. *)
Lemma checked_instr i p : stmt (chkFlow mb) !! i = Some p ->
  exists q, stmt mb !! i = Some q /\ p = set_jump q (jump p).
Proof.
  intros Hp. destruct (chkFlow_settled mb flow_errors flow_checked) as (_ & Hsame & _).
  apply (f_equal (fun l => l !! i)) in Hsame. rewrite !list_lookup_fmap, Hp in Hsame.
  destruct (stmt mb !! i) as [q|]; [|discriminate]. apply (inj Some) in Hsame.
  exists q. split; [reflexivity|]. apply unjump_eq; [|reflexivity].
  rewrite Hsame. reflexivity.
Qed.

Lemma chkFlow_stop : stop (chkFlow mb) = stop mb.
Proof.
  destruct (chkFlow_settled mb flow_errors flow_checked) as (_ & Hsame & _).
  apply (f_equal (@List.length _)) in Hsame. rewrite !length_map in Hsame. exact Hsame.
Qed.

Lemma slice_same_unjump k l : forall l' off, map unjump l = map unjump l' ->
  map unjump (slice k off l) = map unjump (slice k off l').
Proof.
  induction l as [|p l IH]; intros [|q l'] off H; try discriminate; [reflexivity|].
  cbn in H. apply cons_eq in H as [Hp Hl]. cbn. destruct (k off); cbn; rewrite (IH l') by exact Hl;
    [rewrite Hp|]; reflexivity.
Qed.

Lemma program_end : exists ps q, stmt mb = ps ++ [q] /\ token q = ENDsymbol /\
  (0 < stop mb)%nat /\ keep (stop mb - 1) = true.
Proof.
  destruct (wf_end mb wf) as (ps & q & E & Hq). exists ps, q. unfold stop. rewrite E.
  rewrite List.length_app. cbn [List.length]. rewrite Nat.add_sub.
  split_and!; [reflexivity|exact Hq|lia|].
  destruct (List.length ps) as [|n] eqn:En; [reflexivity|]. unfold keep. rewrite E.
  apply orb_true_intro. left. apply existsb_exists. exists q. rewrite Hq. split; [|reflexivity].
  apply list_elem_of_In. apply list_elem_of_lookup. exists n.
  rewrite lookup_take_lt by lia. rewrite lookup_drop. cbn [Nat.add].
  rewrite lookup_app_r by lia. rewrite En, Nat.sub_diag. reflexivity.
Qed.

Lemma pass_types v : getVarType mb1 v = getVarType mb v.
Proof. apply marked_fields. Qed.

(** The check of what is left finds no error. *)
Lemma pass_flow : errors (chkFlow mb1) = 0.
Proof.
  destruct program_end as (_ & _ & _ & _ & Hpos & _).
  apply (chkFlow_slice keep mb mb1); auto.
  - exact pass_types.
  - rewrite deadcode_pass_slice. reflexivity.
  - intros i p Hp Hk. apply (pass_removed i p Hp Hk).
Qed.

Lemma pass_code : map unjump (stmt (chkFlow mb1)) = map unjump (slice keep 0 (stmt (chkFlow mb))).
Proof.
  destruct (chkFlow_settled mb1 pass_errors pass_flow) as (_ & E1 & _).
  destruct (chkFlow_settled mb flow_errors flow_checked) as (_ & E2 & _).
  rewrite E1, deadcode_pass_slice. apply slice_same_unjump. symmetry. exact E2.
Qed.

Lemma pass_removes_plain : removes_plain keep 0 (stmt (chkFlow mb)).
Proof.
  intros i p Hp Hk. destruct (checked_instr i p Hp) as (q & Hq & ->).
  destruct (pass_removed i q Hq Hk) as [Hb _].
  unfold blockStart, blockExit, leaves. cbn. rewrite Hb. auto.
Qed.

Lemma pass_jumps i p : stmt (chkFlow mb) !! i = Some p -> keep i = true -> jumps p = true ->
  jump (stmt (chkFlow mb1) !!! rank keep i) = rank keep (jump p).
Proof.
  intros Hp Hk Hj. destruct (chkFlow_settled mb flow_errors flow_checked) as (S1 & _ & _).
  destruct (chkFlow_settled mb1 pass_errors pass_flow) as (S2 & _ & _).
  pose proof (sliced_jumps keep _ _ S1 pass_removes_plain S2 pass_code) as E.
  pose proof (slice_lookup keep (stmt (chkFlow mb)) 0 i p Hp Hk) as Hs.
  cbn [rank Nat.add] in Hs. rewrite Nat.sub_0_r in Hs.
  apply (f_equal (fun l => l !! rank keep i)) in E. rewrite !list_lookup_fmap, Hs in E.
  destruct (stmt (chkFlow mb1) !! rank keep i) as [q|] eqn:Eq; [|discriminate].
  apply (inj Some) in E. rewrite (list_lookup_total_correct _ _ _ Eq).
  change (canon (renumber keep p)) with
    (if jumps p then renumber keep p else unjump (renumber keep p)) in E.
  rewrite Hj in E. unfold canon in E. destruct (jumps q) eqn:Ejq; [rewrite E; reflexivity|].
  assert (jumps (unjump q) = jumps (renumber keep p)) as F by (rewrite E; reflexivity).
  change (jumps q = jumps p) in F. congruence.
Qed.

Lemma pass_slice : slice_of commands factories (chkFlow mb) (chkFlow mb1) keep unused.
Proof.
  destruct (chkFlow_settled mb flow_errors flow_checked) as (S1 & _ & Ev1).
  destruct (chkFlow_settled mb1 pass_errors pass_flow) as (_ & _ & Ev2).
  destruct program_end as (_ & _ & _ & _ & Hpos & Hlast).
  constructor.
  - rewrite Ev1, Ev2. apply pass_unflag.
  - apply pass_code.
  - intros i p Hp Hk Hj. split; [apply pass_jumps; assumption|].
    apply (settled_range _ _ _ S1 Hp). apply orb_prop. exact Hj.
  - intros i p Hp Hs. destruct (settled_range _ _ _ S1 Hp (or_introl Hs)) as [_ H].
    destruct (H Hs) as (q & Hq & Hx). destruct (keep (jump p)) eqn:E; [reflexivity|].
    destruct (pass_removes_plain _ _ Hq E) as (_ & H2 & _). congruence.
  - rewrite chkFlow_stop. exact Hpos.
  - reflexivity.
  - rewrite chkFlow_stop. exact Hlast.
  - intros i p Hp Hk. destruct (checked_instr i p Hp) as (q & Hq & ->).
    apply (pass_removed i q Hq Hk).
  - intros i p Hp _. destruct (checked_instr _ p Hp) as (q & Hq & ->).
    apply (pass_kept q). apply In_drop_1. eauto.
Qed.

(** ** What is left is well formed *)

Lemma slice_In k l q : forall off, In q (slice k off l) -> In q l.
Proof.
  induction l as [|p l IH]; intros off; cbn; [auto|].
  destruct (k off); cbn; intuition eauto.
Qed.

Lemma pass_In p : In p (drop 1 (stmt mb1)) -> In p (drop 1 (stmt mb)).
Proof.
  rewrite deadcode_pass_slice. destruct (stmt mb) as [|q l]; cbn; [auto|]. apply slice_In.
Qed.

Lemma pass_shaped p : shaped mb p -> shaped mb1 p.
Proof. intros [H1 H2 H3 H4]. constructor; auto. rewrite pass_vtop. exact H1. Qed.

Lemma pass_barrier q : In q (drop 1 (stmt mb)) -> barrier q <> 0 -> In q (drop 1 (stmt mb1)).
Proof.
  intros Hq Hb. apply In_drop_1 in Hq. destruct Hq as [i Hi].
  destruct (keep (S i)) eqn:Hk; [|destruct (pass_removed _ _ Hi Hk); contradiction].
  pose proof (slice_lookup keep (stmt mb) 0 (S i) q Hi Hk) as Hs.
  rewrite <- deadcode_pass_slice in Hs. rewrite Nat.sub_0_r in Hs.
  apply list_elem_of_In, list_elem_of_lookup.
  exists (rank keep (S i) - 1)%nat. rewrite lookup_drop.
  replace (1 + (rank keep (S i) - 1))%nat with (rank keep (S i)); [exact Hs|].
  assert (0 < rank keep (S i))%nat; [|lia].
  clear. induction i as [|i IH]; [cbn; lia|]. rewrite rank_succ. lia.
Qed.

Lemma pass_end : exists ps q, stmt mb1 = ps ++ [q] /\ token q = ENDsymbol.
Proof.
  destruct program_end as (ps & q & E & Hq & Hpos & Hlast).
  exists (slice keep 0 ps), q. split; [|exact Hq].
  rewrite deadcode_pass_slice, E, slice_app. f_equal. cbn [slice].
  replace (0 + List.length ps)%nat with (stop mb - 1)%nat
    by (unfold stop; rewrite E, List.length_app; cbn; lia).
  rewrite Hlast. reflexivity.
Qed.

Lemma pass_well_formed : well_formed mb1.
Proof.
  constructor.
  - intros p Hp. apply pass_shaped, (wf_shaped mb wf), pass_In, Hp.
  - apply pass_shaped. replace (getInstrPtr mb1 0) with (getInstrPtr mb 0).
    + apply (wf_first mb wf).
    + destruct program_end as (ps & q & E & _). unfold getInstrPtr. rewrite deadcode_pass_slice.
      destruct (stmt mb); [destruct ps; discriminate|reflexivity].
  - apply pass_end.
  - intros v Hv. change (var mb1) with (var marked) in Hv.
    apply list_elem_of_In, list_elem_of_lookup in Hv. destruct Hv as [i Hi].
    destruct (chkDeclarations_exact mb marked_errors) as (_ & E & _).
    apply (f_equal (fun l => l !! i)) in E. rewrite !list_lookup_fmap, Hi in E.
    destruct (var mb !! i) as [w|]; [|discriminate]. apply (inj Some) in E.
    apply (f_equal disabled) in E. exact E.
  - intros p Hp. destruct (wf_effects mb wf p (pass_In p Hp)) as [H|[H|[H|H]]]; auto.
    right. right. left. etransitivity; [|exact H]. apply has_purpose_marked.
  - intros p Hp Ht. change (holds_trivially marked p = true) in Ht.
    rewrite holds_trivially_marked in Ht.
    destruct (wf_asserts mb wf p (pass_In p Hp) Ht) as [H|[H|(H1 & H2 & H3)]]; auto.
    right. right. split_and!; auto. intros v q Hv Hq. apply (H3 v q Hv). apply pass_In. exact Hq.
  - intros p Hp Hb Hv. rewrite pass_vtop in Hv.
    destruct (wf_raise mb wf p (pass_In p Hp) Hb Hv) as (q & Hq & Hbq & Hu).
    exists q. split_and!; auto. apply pass_barrier; assumption.
Qed.

(** The declarations that are left are right. *)
Lemma pass_declared : errors (chkDeclarations (clrDeclarations mb1)) = 0.
Proof.
  pose proof (chkDeclarations_errors (clrDeclarations mb1)) as Hle.
  change (errors (clrDeclarations mb1)) with (errors mb1) in Hle.
  assert (H : errors (chkDeclarations (clrDeclarations mb1)) <= errors marked).
  { apply (chkDeclarations_slice unused keep mb mb1).
    - reflexivity.
    - apply deadcode_pass_slice.
    - apply pass_unflag.
    - rewrite flow_errors. apply Z.eq_le_incl, pass_errors.
    - intros i p Hp. assert (Hin : In p (drop 1 (stmt mb))) by (apply In_drop_1; eauto).
      split; [apply (sh_range _ _ (wf_shaped mb wf p Hin))|]. destruct (keep (S i)) eqn:Hk.
      + destruct (pass_kept p Hin) as [[Hr _] _]. destruct (ignored p); auto.
      + destruct (pass_removed _ _ Hp Hk) as [Hb [Hn|[Ht _]]]; split; auto.
        left. unfold ignored. rewrite Hn. reflexivity. }
  rewrite marked_errors, flow_errors in H. rewrite pass_errors in Hle. lia.
Qed.

Lemma slice_blocks k l : forall off, block_count (slice k off l) <= block_count l.
Proof.
  induction l as [|p l IH]; intros off; cbn [slice]; [lia|].
  specialize (IH (S off)). destruct (k off); rewrite ?block_count_cons; destruct (blockStart p); lia.
Qed.

End Pass.

(** ** All passes *)

Lemma same_runs_refl mb : same_runs mb mb.
Proof.
  intros args w. assert (H : forall o : outcome (run_result (W := W)), o <> OutOfFuel ->
    like_outcome like_result o o).
  { intros [r| | |] Hr; constructor. unfold like_result. auto. }
  split; intros o [Ho Hn]; exists o; (split; [split; assumption|apply H; exact Ho]).
Qed.

(** A program whose structure and declarations are right. *)
Record checked (mb : MalBlkRecord) : Prop := {
  ck_formed : well_formed mb;
  ck_errors : errors mb = 0;
  ck_flow : errors (chkFlow mb) = 0;
  ck_decl : errors (chkDeclarations (clrDeclarations mb)) = 0 }.

(** A block with the variables and some of the instructions of another. *)
Definition part_of (mb m : MalBlkRecord) : Prop :=
  (forall p, In p (stmt m) -> In p (stmt mb)) /\ map unflag (var m) = map unflag (var mb).

Lemma part_of_refl mb : part_of mb mb.
Proof. split; auto. Qed.

Lemma part_of_trans mb m n : part_of mb m -> part_of m n -> part_of mb n.
Proof. intros [H1 E1] [H2 E2]. split; [auto|congruence]. Qed.

Definition inner_blocks (mb : MalBlkRecord) : Z := block_count (drop 1 (stmt mb)).

Lemma pass_checked mb : checked mb ->
  checked (deadcode_pass mb) /\ part_of mb (deadcode_pass mb) /\
  inner_blocks (deadcode_pass mb) <= inner_blocks mb /\
  same_runs (chkFlow mb) (chkFlow (deadcode_pass mb)).
Proof.
  intros [wf H0 Hf Hd]. split_and!.
  - constructor; [apply pass_well_formed|exact Hd|apply pass_flow|apply pass_declared]; assumption.
  - split; [|apply pass_unflag; assumption]. intros p. rewrite deadcode_pass_slice. apply slice_In.
  - unfold inner_blocks. rewrite deadcode_pass_slice. destruct (stmt mb); [cbn; lia|].
    apply slice_blocks.
  - eapply slice_runs; eauto. apply pass_slice; assumption.
Qed.

Lemma deadcode_runs n : forall mb, checked mb ->
  checked (fst (deadcode n mb)) /\ part_of mb (fst (deadcode n mb)) /\
  inner_blocks (fst (deadcode n mb)) <= inner_blocks mb /\
  same_runs (chkFlow mb) (chkFlow (fst (deadcode n mb))).
Proof.
  induction n as [|n IH]; intros mb Hc; cbn [deadcode].
  { cbn [fst]. split_and!; auto using same_runs_refl, part_of_refl, Z.le_refl. }
  destruct (hasProp _ _ _); 
    [cbn [fst]; split_and!; auto using same_runs_refl, part_of_refl, Z.le_refl|].
  destruct (pass_checked mb Hc) as (C1 & P1 & B1 & R1).
  destruct (Nat.eqb _ 0); [auto|]. destruct (IH _ C1) as (C2 & P2 & B2 & R2).
  destruct (deadcode n (deadcode_pass mb)) as [m a]. cbn [fst] in *.
  split_and!; [exact C2|eapply part_of_trans; eauto|lia|eapply same_runs_trans; eauto].
Qed.

(** ** With the checks of the optimizer *)

Lemma rank_all i : rank (fun _ => true) i = i.
Proof. induction i as [|i IH]; [reflexivity|]. rewrite rank_succ, IH. lia. Qed.

(** Only flags of variables differ. *)
Lemma flags_only mb mb' : settled [] 0 (stmt mb) -> (0 < stop mb)%nat ->
  (forall p, In p (drop 1 (stmt mb)) -> resolved p) ->
  stmt mb' = stmt mb -> map unflag (var mb') = map unflag (var mb) -> same_runs mb mb'.
Proof.
  intros S1 Hpos Hres Hst Hv.
  apply (slice_runs _ _ _ _ _ _ listing_same mb mb' (fun _ => true) (fun _ => False)).
  constructor; auto; try (intros; discriminate).
  - rewrite Hst, slice_all by auto. reflexivity.
  - intros i p Hp _ Hj. rewrite !rank_all, Hst, (list_lookup_total_correct _ _ _ Hp).
    split; [reflexivity|]. apply (settled_range _ _ _ S1 Hp). apply orb_prop. exact Hj.
  - intros i p Hp _. split.
    + unfold reads_live. split_and!; intros; intros [].
    + apply Hres. apply In_drop_1. eauto.
Qed.

Lemma slice_full k l : forall off, List.length (slice k off l) = List.length l -> slice k off l = l.
Proof.
  assert (Hle : forall l off, (List.length (slice k off l) <= List.length l)%nat).
  { clear. induction l as [|p l IH]; intros off; cbn; [lia|]. specialize (IH (S off)).
    destruct (k off); cbn; lia. }
  induction l as [|p l IH]; intros off H; cbn in *; [reflexivity|].
  destruct (k off); cbn in H; [f_equal; apply IH; lia|]. specialize (Hle l (S off)). lia.
Qed.

(** No action: at most flags have changed. *)
Lemma no_actions mb : well_formed mb -> errors mb = 0 ->
  errors (fst (OPTdeadcodeImplementation mb)) = 0 -> snd (OPTdeadcodeImplementation mb) = 0%nat ->
  stmt (fst (OPTdeadcodeImplementation mb)) = stmt mb /\
  map unflag (var (fst (OPTdeadcodeImplementation mb))) = map unflag (var mb).
Proof.
  intros wf H0. unfold OPTdeadcodeImplementation. cbn [deadcode].
  destruct (hasProp _ _ _); [auto|].
  destruct (Nat.eqb_spec (stop mb - stop (deadcode_pass mb)) 0) as [E|E]; cbn [fst snd].
  - intros He _. split; [|apply pass_unflag; assumption].
    rewrite deadcode_pass_slice. apply slice_full.
    pose proof (deadcode_pass_stop mb) as Hl. unfold stop in *. rewrite deadcode_pass_slice in *. lia.
  - destruct (deadcode _ _) as [m a]. cbn [fst snd]. intros _ Ha. lia.
Qed.

(** What the check finds of a program with the flags of the optimizer: no
    error, and nothing changes but flags and jumps. *)
Lemma checked_again m : checked m -> inner_blocks m < 2 ^ 15 - 1 ->
  errors (chkDeclarations (chkFlow m)) = 0.
Proof.
  intros [wf H0 Hf Hd] Hb. pose proof (chkDeclarations_errors (chkFlow m)) as Hle.
  destruct (chkFlow_settled m H0 Hf) as (_ & Hs & Hv).
  assert (H : errors (chkDeclarations (chkFlow m)) <= errors (chkDeclarations (clrDeclarations m))).
  { apply chkDeclarations_stale; [exact Hs| | |intros p Hp; apply (wf_shaped m wf p Hp)|exact Hb].
    - rewrite Hv, map_map. apply map_ext_in. intros v Hin. unfold unflag. cbn.
      rewrite (wf_enabled m wf v Hin). reflexivity.
    - rewrite H0, Hf. lia. }
  lia.
Qed.

(** Checking a program changes nothing of what it does. *)
Lemma check_runs m : checked m -> inner_blocks m < 2 ^ 15 - 1 ->
  same_runs (chkFlow m) (chkDeclarations (chkFlow m)).
Proof.
  intros Hc Hb. pose proof (checked_again m Hc Hb) as He. destruct Hc as [wf H0 Hf _].
  destruct (chkFlow_settled m H0 Hf) as (S1 & _ & _).
  apply flags_only; [exact S1| | |reflexivity|].
  - rewrite (chkFlow_stop m H0 Hf). destruct (program_end m wf) as (? & ? & _ & _ & Hp & _). exact Hp.
  - intros p Hp. apply In_drop_1 in Hp. destruct Hp as [i Hi].
    destruct (checked_instr m H0 Hf _ p Hi) as (q & Hq & ->).
    exact (sh_resolved m q (wf_shaped m wf q (proj2 (In_drop_1 _ _) (ex_intro _ i Hq)))).
  - unfold chkDeclarations in *. cbn [var errors] in *.
    match goal with |- context [fold_left decl_step ?ps ?st] =>
      assert (Ha : aligned st) by
        (unfold aligned; cbn; rewrite declare_all_length, length_replicate; reflexivity);
      destruct (decl_loop_marks ps st Ha eq_refl) as [_ H] end.
    apply H. cbn [derrs]. congruence.
Qed.

(** C8: [OPTdeadcodeImplementation] with the checks of [OPTwrapper]: a program
    whose flow and declarations are right is left without errors, and the program
    and what is left of it do the same on all arguments and from all states.  One
    run ends if and only if the other does; they return the same values, raise
    the same exception up to the position in its text, and change the state of
    the system in the same way.  This holds under the conditions of
    [well_formed]: types are resolved, the program ends with END, and
    functions that are not known for an effect have none and do not fail; an
    assertion whose constant is taken for zero succeeds, and nobody uses its
    result ([wide_assertion_removed]); a variable that is raised is used by an
    instruction that controls the flow, such as a catch block
    ([raised_text_lost]).  There must be less than 2^15 - 1 blocks, since they are
    numbered by short integers; and [chkTypes], which is not modelled, must leave
    a block of resolved instructions of the program as it is. *)
Theorem deadcode_preserves_runs (chkTypes : MalBlkRecord -> MalBlkRecord) mb
    (Formed : well_formed mb) (Errors : errors mb = 0)
    (Flow : errors (chkFlow mb) = 0 /\ stmt (chkFlow mb) = stmt mb)
    (Declarations : errors (chkDeclarations (clrDeclarations mb)) = 0)
    (Blocks : inner_blocks mb < 2 ^ 15 - 1)
    (Types : forall m, part_of mb m -> chkTypes m = m) :
  errors (optimize_deadcode chkTypes mb) = 0 /\ same_runs mb (optimize_deadcode chkTypes mb).
Proof.
  destruct Flow as [Hf Hs]. unfold optimize_deadcode. rewrite Errors. cbn [negb Z.eqb].
  destruct (chkFlow_settled mb Errors Hf) as (S1 & _ & Ev). rewrite Hs in S1.
  destruct (program_end mb Formed) as (? & ? & _ & _ & Hpos & _).
  assert (Hres : forall p, In p (drop 1 (stmt mb)) -> resolved p)
    by (intros p Hp; apply (sh_resolved mb p (wf_shaped mb Formed p Hp))).
  destruct (deadcode_runs (S (stop mb)) mb) as (C & P & B & R); [constructor; assumption|].
  fold (OPTdeadcodeImplementation mb) in C, P, B, R.
  pose proof (no_actions mb Formed Errors) as Hno.
  destruct (OPTdeadcodeImplementation mb) as [m a]. unfold optimizerCheck. cbn [fst snd] in *.
  destruct (Nat.ltb_spec 0 a) as [Ha|Ha].
  - rewrite (Types m P). split; [apply checked_again; [exact C|lia]|].
    apply (same_runs_trans _ _ _ _ _ _ mb (chkFlow mb)).
    + apply flags_only; auto. rewrite Ev. reflexivity.
    + eapply same_runs_trans; [exact R|]. apply check_runs; [exact C|lia].
  - pose proof (ck_errors m C). split; [assumption|].
    destruct Hno as [H1 H2]; [assumption|lia|]. apply flags_only; auto.
Qed.

End Correct.

(** ** An example

    A loop that prints and counts; [d] and [e] are of no use, [d] only after
    the instruction that makes [e] is gone. *)

Section Example.
Let extern (t : Z) : bool := t =? TYPE_str.
Let the_nil (t : Z) : list Z := [128].

(** Function 1 adds one, 2 compares with 3, 3 prints; the state is what was
    printed. *)
Definition example_commands (f : nat) : native (W := list Z) := fun args w =>
  match f, args with
  | 1%nat, VFix t x :: _ => ([Some (VFix t (i32 (x + 1)))], None, w)
  | 2%nat, VFix t x :: _ => ([Some (VFix TYPE_bit (if x <? 3 then 1 else 0))], None, w)
  | 3%nat, VFix t x :: _ => ([], None, x :: w)
  | _, _ => ([], None, w)
  end.

Definition example_var (n : string) (t : Z) : VarRecord :=
  Var (Some n) t 0 false false false false false zero_value [].

Definition example_call (bar : Z) (j : nat) (f : nat) (m g : string) (rc : nat) (args : list nat) :=
  Instr CMDcall bar TYPE_RESOLVED j (Some f) None (Some m) (Some g) rc 8 args.
Definition example_assign (bar : Z) (j : nat) (args : list nat) :=
  Instr ASSIGNsymbol bar TYPE_RESOLVED j None None None None 1 8 args.

Definition example : MalBlkRecord :=
  MalBlk [example_var "main" TYPE_int; example_var "a" TYPE_int; example_var "d" TYPE_int;
          example_var "e" TYPE_int; example_var "go" TYPE_bit; example_var "nothing" TYPE_void]
    [Instr FUNCTIONsymbol 0 TYPE_RESOLVED 0 None None (Some "user"%string) (Some "main"%string)
       1 8 [0%nat; 1%nat];
     example_call 0 0 1 "calc" "inc" 1 [2%nat; 1%nat];
     example_assign 0 0 [3%nat; 2%nat];
     example_call BARRIERsymbol 7 2 "calc" "small" 1 [4%nat; 1%nat];
     example_call 0 0 3 "io" "print" 1 [5%nat; 1%nat];
     example_call 0 0 1 "calc" "inc" 1 [1%nat; 1%nat];
     example_call REDOsymbol 4 2 "calc" "small" 1 [4%nat; 1%nat];
     example_assign EXITsymbol 0 [4%nat];
     example_assign RETURNsymbol 0 [0%nat; 1%nat];
     Instr ENDsymbol 0 TYPE_RESOLVED 0 None None None None 0 8 []] 0 false 8.

Lemma example_pure f : (f = 1 \/ f = 2)%nat -> pure (example_commands f).
Proof.
  intros [-> | ->] args w; destruct args as [|[t x|t p] args]; cbn; eauto.
Qed.

Ltac each_instr H :=
  cbn in H; repeat (destruct H as [<-|H]; [|]); [..|destruct H].

Lemma example_well_formed : well_formed example_commands (fun _ _ w => ([], None, w)) example.
Proof.
  assert (Hsh : forall p, In p (stmt example) -> shaped example p).
  { intros p Hp. each_instr Hp; constructor.
    all: try (intros v Hv; each_instr Hv; cbn; lia).
    all: cbn; first [intros _; discriminate|intros H; exfalso; apply H; reflexivity|
                     intros H; discriminate H|split; discriminate]. }
  constructor.
  - intros p Hp. apply Hsh. right. exact Hp.
  - apply Hsh. left. reflexivity.
  - eexists (removelast (stmt example)), _. split; [reflexivity|reflexivity].
  - intros v Hv. each_instr Hv; reflexivity.
  - intros p Hp. each_instr Hp; try (right; left; reflexivity);
      try (right; right; left; reflexivity); right; right; right; try (left; reflexivity);
      right; right; right; right; left; (split; [reflexivity|]); (split; [cbn; lia|]);
      eexists; (split; [reflexivity|]); apply example_pure; auto.
  - intros p Hp Ht. each_instr Hp; discriminate Ht.
  - intros p Hp Hb. each_instr Hp; discriminate Hb.
Qed.

(** The types of the example are resolved: they stay as they are. *)
Let types_again (m : MalBlkRecord) : MalBlkRecord := m.

Lemma deadcode_preserves_runs_witness :
  stop (optimize_deadcode types_again example) = 8%nat /\
  callMAL extern the_nil example_commands (fun _ _ w => ([], None, w)) (fun _ _ => []) [] 20
    (optimize_deadcode types_again example) [VFix TYPE_int 1] [] = Done (Result None (Some [VFix TYPE_int 3; VFix TYPE_int 3]) [2; 1]) /\
  same_runs extern the_nil example_commands (fun _ _ w => ([], None, w)) (fun _ _ => []) []
    example (optimize_deadcode types_again example).
Proof.
  split; [vm_compute; reflexivity|]. split; [vm_compute; reflexivity|].
  apply (deadcode_preserves_runs extern the_nil example_commands (fun _ _ w => ([], None, w))
           (fun _ _ => []) []).
  - reflexivity.
  - apply example_well_formed.
  - reflexivity.
  - split; vm_compute; reflexivity.
  - vm_compute. reflexivity.
  - vm_compute. reflexivity.
  - reflexivity.
Defined.

(** ** What does not hold *)

(** A string that is only raised is not marked as used: its assignment is
    removed, and the exception has another text. *)
Definition raising : MalBlkRecord :=
  MalBlk [example_var "main" TYPE_int; example_var "e" TYPE_str;
          Var (Some "text"%string) TYPE_str 0 true false false false false
            (VExt TYPE_str (Pown (lit "too bad"))) []]
    [Instr FUNCTIONsymbol 0 TYPE_RESOLVED 0 None None (Some "user"%string) (Some "main"%string)
       1 8 [0%nat];
     example_assign 0 0 [1%nat; 2%nat];
     example_assign RAISEsymbol 0 [1%nat];
     example_assign RETURNsymbol 0 [0%nat];
     Instr ENDsymbol 0 TYPE_RESOLVED 0 None None None None 0 8 []] 0 false 8.

Lemma raised_text_lost :
  let run mb := callMAL extern the_nil example_commands (fun _ _ w => ([], None, w))
                  (fun _ _ => []) [] 20 mb [] [] in
  let uncaught pc last t := Done (Result (Some (Script last "MALException"
    (Some (Script pc "MALException" None t)) (lit "Exception not caught"))) None []) in
  errors (optimize_deadcode types_again raising) = 0 /\
  run raising = uncaught 2%nat 4%nat (lit "too bad") /\
  run (optimize_deadcode types_again raising) = uncaught 1%nat 3%nat (lit "(null)").
Proof. split_and!; vm_compute; reflexivity. Qed.

(** An assertion about a constant is removed when the lower half of the
    constant is zero. *)
Lemma wide_assertion_removed :
  let zero := Var (Some "c"%string) TYPE_lng 0 true false false false false
                (VFix TYPE_lng 4294967296) [] in
  let p := Instr PATcall 0 TYPE_RESOLVED 0 (Some 4%nat) None (Some "sql"%string)
             (Some "assert"%string) 1 8 [0%nat; 1%nat; 2%nat] in
  let mb := MalBlk [example_var "nothing" TYPE_void; zero; example_var "text" TYPE_str]
              [p; p] 0 true 8 in
  stmt (deadcode_pass mb) = [p].
Proof. vm_compute. reflexivity. Qed.

End Example.
